(* ===== verification/_CoqProject ===== *)
-Q . S2P
Prelude.v
Transition.v
Outcome.v
DataConnector.v
Species.v
TimeSlice.v
Plugins.v
Scalar.v
Topology.v
Aabb.v
FrameList.v
FramePush.v
Lockstep.v
Regions.v
Scan.v
IdProvider.v
Control.v
Startup.v
FrameIndex.v
Launch.v
Hierarchy.v
ParticleLaunch.v
Init.v
InitLaws.v
Lattice.v
Sod.v
RegionBounds.v
NeighbourRegions.v
Interaction.v
InteractLaunch.v
InteractGeometry.v
Spline.v
SphKernels.v
Hydro.v
HydroLaws.v
Step.v
Systems.v
StepLaws.v
TaskGraph.v
Submission.v
QueuePools.v
PooledSubmit.v
RepeatUntil.v
Eager.v
EagerJoin.v
AsyncScope.v
ControlLoop.v
MpiLanes.v
MpiFlight.v
MpiContext.v
Completion.v
TagPath.v
Records.v
AccessSet.v
RecordIterate.v
SubRecord.v
Views.v
DynSoA.v
FrameColumns.v
CopyOut.v
OpenPMD.v
DataSpaces.v
ExchangeMask.v
GridMapping.v
StrideMap.v
GridComm.v
Buffers.v
Exchange.v
GridBuffers.v
HaloExchange.v
HaloGrid.v
Reduce.v
MpiOps.v
Communicators.v
GlobalReduce.v
Senders.v
ParticlesBox.v
FrameSlots.v
FillGaps.v
