(* ===== verification/Prelude.v ===== *)
(** * spearHED: a verification of the simulation, its particle framework and its task library

    spearHED integrates a compressible fluid by smoothed particle hydrodynamics.  Three layers of
    C++ make it up: the simulation (src/include/spearhed), the particle framework spmacc
    (src/packages/pmacc/include/spmacc) on top of what is left of PMacc
    (src/packages/pmacc/include/pmacc), and the sender library caravan
    (src/packages/pmacc/libs/caravan) that orders host, device and MPI work.  This library models
    these layers from the data structures up to [Simulation::runOneStep] and proves what makes them
    correct.  Definitions keep the names of the source; the doc comment of a file names the files it
    models.

    ** How the parts fit together

    A time step ([Step.timestep] for [Simulation::runOneStep]) is a list of stages over the region
    buffers the data connector knows.  A region ([Regions]) is a box ([Aabb]) and a device list of frames
    ([FrameList]); a frame holds a fixed number of particle slots and a mask of the live ones.  A stage
    is either a launch of a body over the particles of a species ([Launch], [ParticleLaunch], over the
    flattened frame index of [FrameIndex], with the index distribution of [Lockstep]), or an interaction of
    each particle with the particles of the neighbouring regions ([Interaction], [InteractLaunch]) that a
    search over the boxes ([RegionBounds], [NeighbourRegions]) has found.  The physics ([SphKernels],
    [Hydro]) is the bodies and the functors of these stages.  Particles come from [Init] with a setup such as
    [Sod] over a [Lattice]; they are named by [IdProvider].  Around the step are the loop of the simulation with
    its signals and checkpoints ([Control]), start-up ([Startup]), the plugins ([Plugins]) that are notified at the
    steps of a [TimeSlice], and the registry of data ([DataConnector]).  The stages of a step are senders:
    [TaskGraph] runs a graph of them, [Submission], [PooledSubmit] and [QueuePools] lower it to device queues.

    ** The files

    Shared: [Prelude] (machine integers, boxes of slots, grid-stride loops, folds, permutations),
    [Transition] (step relations, invariants, measures), [Outcome] (returns, exceptions, aborts and undefined
    behaviour; the state monad of host code), [Scalar] (the floating point interface with real, binary32
    and integer instances).

    Framework: [Topology], [Aabb], [FrameList], [FramePush], [Lockstep], [Regions], [Scan], [FrameIndex], [Launch],
    [Hierarchy], [ParticleLaunch], [RegionBounds], [NeighbourRegions], [Interaction], [InteractLaunch],
    [InteractGeometry], [IdProvider], [Species], [Init], [InitLaws], [Lattice].

    Simulation: [Sod], [Spline], [SphKernels], [Hydro], [HydroLaws], [Step], [Systems], [StepLaws], [Control],
    [Startup], [Plugins], [TimeSlice], [DataConnector].

    Sender library: [Senders] (the lazy adaptors and schedulers), [TaskGraph], [Submission], [QueuePools], [PooledSubmit] (graphs and device submissions), [RepeatUntil], [Eager],
    [EagerJoin], [AsyncScope] (loops, eager tasks, their joins and scopes), [ControlLoop] (the control thread), [MpiLanes],
    [MpiFlight], [MpiContext] (collective tickets, requests in flight and the MPI thread), [MpiOps] (checks and native calls of
    the MPI operations), [Communicators] (the registry of communicators), [Completion] (the completion thread).

    Reductions: [Reduce] (over the threads and blocks of a device), [GlobalReduce] (over the processes).

    Records (llamaLite): [TagPath], [Records], [AccessSet], [RecordIterate], [SubRecord], [Views], [DynSoA].

    Output: [FrameColumns] (columns of frames), [CopyOut] (the copy of the particles), [OpenPMD].

    Supercell grid: [DataSpaces] (index spaces), [ExchangeMask] (directions), [GridMapping] (area, exchange, border and
    interval mappers behind the class [MapperConcept]), [StrideMap] (strided sweeps and ranges), [GridComm] (process grid,
    sliding window, domain offsets).

    Particles of a supercell: [ParticlesBox] (its doubly linked frames, insertion by racing threads), [FrameSlots] (slots, counters
    and copies the kernels share), [FillGaps] (the kernels that fill gaps and delete particles).

    Buffers and halo exchange: [Buffers] (host and device buffers over alpaka's views, their copies), [Exchange] (the boxes of a
    border, staging, send and receive), [GridBuffers] (exchanges with their tags, start of the communication),
    [HaloExchange] (processes and messages, every interleaving), [HaloGrid] (on the Cartesian grid of [GridComm]).

    ** What the theorems show

    - The step.  [run_one_step]: over the reals, what runOneStep leaves in the live particles is the all-pairs
      reference [step_ref], for every order of blocks, schedule of atomics, content of fresh memory.  It is composed
      of one refinement per stage: [launchForEach_visits], [rebuild_correct], [UpdateVolumes_bounds],
      [calculateNeighbourEntry_rows], [interact_refines], [interact_all_pairs], [UpdateDensity_sum].
      [step_conserves] and [UpdateHydroForces_conserves]: momentum and energy.
    - Data structures: frame lists under sequential and racing pushes, region buffers, one index for
      many of them that is never used stale ([refreshIfStale_correct]), identifiers, the data connector as a finite map, the creation of particles.
    - Control: the loop performs the steps that were asked for, ends, and stops at a signal; time slices print and
      parse back; plugins are loaded, notified and unloaded in the order the connector promises.
    - Orchestration: composed senders mean what their composition says on every schedule, on the threads their schedulers
      name ([senders_compose]); graphs of senders and compositions of submissions run in exactly the order they read
      as, without deadlock, for every interleaving; pools never hand out a queue twice; loops of senders run their
      iterations one at a time; eager tasks, joins, scopes, the control thread, the completion thread and the MPI thread
      keep their counts, lose no wake-up and shut down only when nothing is outstanding; the MPI thread gets there from
      every state after the request, unless a collective was committed and not yet started ([mpi_shutdown]).
    - Records: access sets are a Boolean algebra of leaves, views never widen what they were given, containers of
      columns stay rectangular through every failing allocation.
    - Output: a notification of the openPMD plugin writes one row per live particle into distinct datasets, or nothing.
    - Supercell grid: every mapper is one to one onto its area ([area_one_to_one], [stride_sweep], [range_bounds]), the border
      sent in a direction is the guard received from the mirrored one ([halo_exchange]), and the neighbour tables of any two
      processes agree at every position of the sliding window ([exchange_partners], [slides_restored]).
    - Particles of a supercell: racing insertions leave a proper list in the order of their exchanges
      ([concurrent_insertion]), and filling gaps keeps every particle once and packs them ([fill_gaps_packs]).
    - Halo exchange: copies of buffers are exact for every size and layout ([transfer_roundtrip]), a message carries a box
      through any staging ([message_transfer]), exchanges and their tags stay consistent ([addExchange_adds]), and however the
      transfers of all processes interleave, they finish and every guard cell holds what the
      neighbour had at the same place of the joined grids ([halos_delivered]).
    - Reductions and MPI operations: the device reduction is the fold of its operands ([reduce_folds]) and the reduction over
      the processes the fold of all of them ([global_reduce_all]); a started MPI call touches only its own buffers
      ([started_call_safe]); every communicator is owned, adopted or freed ([communicators_accounted]).

    ** Conventions

    Device code runs as blocks in an arbitrary order (a permutation that is a parameter), inside a block as the
    phases between barriers; atomics are an arbitrary schedule of the threads.  Host threads are step relations
    whose steps are critical sections or atomic operations.  uint32_t and uint64_t are [Z] with the wrap-around
    written out ([u32], [u64]) where the source can reach it, [nat] for indices into containers.  C++ templates over
    type lists are functions on lists.  Fuel: loops that are not structural take a fuel that a lemma next to the
    definition shows to suffice (frame lists: the number of frames; divisions and grid-stride loops:
    the range; the capacity doubling: 32 rounds); the theorems then state results, never only results
    if there is one.  Code outside the repository (alpaka, mallocMC, MPI, the device driver) is a parameter: a class with
    its documented laws ([AlpakaMath], [AlpakaMemory], [IdxMaps], [NativePool], [NativeMpi], [MpiComms],
    [MpiCollectives]), a function argument (allocator, probe of
    free memory), or a relation ([native_execution]).

    ** Not modelled

    Parsing of the command line and configuration, the random number generators, MPI itself, alpaka and the openPMD
    library are outside or pure input and output.  Of PMacc, the lifetimes of retained views, shared-memory and cached boxes, the legacy
    particle buffers and fields with their exchanges (the sweep of the particle shift is in [StrideMap], its kernel is not), event
    tracing and the compile-time type lists are not modelled; of caravan, the adapter to stdexec, and the senders of native
    MPI calls and of single collectives.  The int arithmetic of index spaces is on
    Z, an overflow being undefined in the source; the theorems bound the indices by the extents. *)
From Stdlib Require Import ZArith Lia.
From stdpp Require Import base list list_numbers numbers sorting.

Create HintDb spearhed discriminated.
Create Rewrite HintDb u32_norm.

(** ** Tactics *)

(** Case analysis on the boolean or option scrutinee of the first [if] or
    [match] of the goal or of a hypothesis. *)
Ltac case_goal :=
  match goal with
  | |- context [ if ?b then _ else _ ] => destruct b eqn:?
  | |- context [ match ?o with Some _ => _ | None => _ end ] => destruct o eqn:?
  end.

Ltac case_hyp H :=
  match type of H with
  | context [ if ?b then _ else _ ] => destruct b eqn:?
  | context [ match ?o with Some _ => _ | None => _ end ] => destruct o eqn:?
  end.

(** Turn the boolean comparisons on [nat] and [Z] of the context and the goal
    into propositions. *)
Ltac bool_to_prop :=
  repeat match goal with
  | H : (_ <? _)%nat = true |- _ => apply Nat.ltb_lt in H
  | H : (_ <? _)%nat = false |- _ => apply Nat.ltb_ge in H
  | H : (_ <=? _)%nat = true |- _ => apply Nat.leb_le in H
  | H : (_ <=? _)%nat = false |- _ => apply Nat.leb_gt in H
  | H : (_ =? _)%nat = true |- _ => apply Nat.eqb_eq in H
  | H : (_ =? _)%nat = false |- _ => apply Nat.eqb_neq in H
  | H : (_ <? _)%Z = true |- _ => apply Z.ltb_lt in H
  | H : (_ <? _)%Z = false |- _ => apply Z.ltb_ge in H
  | H : (_ <=? _)%Z = true |- _ => apply Z.leb_le in H
  | H : (_ <=? _)%Z = false |- _ => apply Z.leb_gt in H
  | H : (_ =? _)%Z = true |- _ => apply Z.eqb_eq in H
  | H : (_ =? _)%Z = false |- _ => apply Z.eqb_neq in H
  | H : (_ && _)%bool = true |- _ => apply andb_true_iff in H; destruct H
  | H : (_ || _)%bool = false |- _ => apply orb_false_iff in H; destruct H
  | H : negb _ = true |- _ => apply negb_true_iff in H
  | H : negb _ = false |- _ => apply negb_false_iff in H
  end.

(** ** Fixed-width unsigned arithmetic *)

Section widths.
Local Open Scope Z_scope.

(** Value of a [uint32_t] after an arithmetic operation: reduction modulo 2^32. *)
Definition u32 (z : Z) : Z := z mod 2 ^ 32.

(** Value of a [uint64_t] after an arithmetic operation: reduction modulo 2^64. *)
Definition u64 (z : Z) : Z := z mod 2 ^ 64.

Lemma u32_small z : 0 <= z < 2 ^ 32 -> u32 z = z.
Proof. intros ?. by apply Z.mod_small. Qed.

Lemma u64_small z : 0 <= z < 2 ^ 64 -> u64 z = z.
Proof. intros ?. by apply Z.mod_small. Qed.

Lemma u32_bounds z : 0 <= u32 z < 2 ^ 32.
Proof. apply Z.mod_pos_bound. lia. Qed.

Lemma u64_bounds z : 0 <= u64 z < 2 ^ 64.
Proof. apply Z.mod_pos_bound. lia. Qed.

Lemma u64_add_l a b : u64 (u64 a + b) = u64 (a + b).
Proof. unfold u64. by rewrite Zplus_mod_idemp_l. Qed.

Lemma u32_add_l a b : u32 (u32 a + b) = u32 (a + b).
Proof. unfold u32. by rewrite Zplus_mod_idemp_l. Qed.

Lemma u32_add_r a b : u32 (a + u32 b) = u32 (a + b).
Proof. unfold u32. by rewrite Zplus_mod_idemp_r. Qed.

Lemma u32_mul_l a b : u32 (u32 a * b) = u32 (a * b).
Proof. unfold u32. by rewrite Zmult_mod_idemp_l. Qed.
End widths.

#[export] Hint Resolve u32_bounds : spearhed.
#[export] Hint Rewrite u32_add_l u32_add_r u32_mul_l : u32_norm.

Lemma radix_unique (s q r q' r' : nat) :
  (r < s -> r' < s -> q * s + r = q' * s + r' -> q = q' /\ r = r')%nat.
Proof.
  intros Hr Hr' E. destruct (Nat.lt_trichotomy q q') as [Hq|[->|Hq]]; [exfalso|lia|exfalso].
  - pose proof (Nat.mul_le_mono_r (S q) q' s ltac:(lia)). lia.
  - pose proof (Nat.mul_le_mono_r (S q') q s ltac:(lia)). lia.
Qed.

(** ** Strided loops

    [strided w step n] is the list of the indices visited by
    [for(i = w; i < n; i += step)], in order. [n] iterations are enough when
    [step] is positive, since every iteration advances [i] by at least one. *)

Fixpoint stride_loop (fuel i step n : nat) : list nat :=
  match fuel with
  | O => []
  | S f => if (i <? n)%nat then i :: stride_loop f (i + step) step n else []
  end.

Definition strided (w step n : nat) : list nat := stride_loop n w step n.

Lemma elem_of_stride_loop fuel i step n j :
  0 < step -> n <= fuel + i ->
  j ∈ stride_loop fuel i step n <-> j < n /\ exists k, j = i + k * step.
Proof.
  intros Hs. revert i. induction fuel as [|f IH]; intros i Hf; simpl.
  { split; [by intros ?%elem_of_nil|]. intros [? [k ->]]. lia. }
  destruct (Nat.ltb_spec i n) as [Hi|Hi].
  - rewrite elem_of_cons, IH by lia. split.
    + intros [->|[? [k ->]]]; [split; [done|]; by exists 0; lia|].
      split; [done|]. exists (S k). lia.
    + intros [? [[|k] ->]]; [left; lia|right; split; [done|]].
      exists k. lia.
  - split; [by intros ?%elem_of_nil|]. intros [? [k ->]]. lia.
Qed.

Lemma elem_of_strided w step n j :
  0 < step -> j ∈ strided w step n <-> j < n /\ exists k, j = w + k * step.
Proof. intros. apply elem_of_stride_loop; lia. Qed.

Lemma elem_of_strided_mod w step n j :
  w < step -> j ∈ strided w step n <-> j < n /\ j mod step = w.
Proof.
  intros Hw. rewrite elem_of_strided by lia. f_equiv. split.
  - intros [k ->]. rewrite Nat.Div0.mod_add. by apply Nat.mod_small.
  - intros <-. exists (j / step). pose proof (Nat.div_mod_eq j step). lia.
Qed.

Lemma NoDup_stride_loop fuel i step n : 0 < step -> NoDup (stride_loop fuel i step n).
Proof.
  intros Hs. revert i. induction fuel as [|f IH]; intros i; simpl; [constructor|].
  destruct (Nat.ltb_spec i n); [|constructor].
  constructor; [|done]. clear IH.
  assert (Hge : forall f' j, j ∈ stride_loop f' (i + step) step n -> i + step <= j).
  { intros f'. generalize (i + step). induction f' as [|f' IH]; intros i' j; simpl;
      [by intros ?%elem_of_nil|].
    destruct (i' <? n)%nat; [|by intros ?%elem_of_nil].
    rewrite elem_of_cons. intros [->|?%IH]; lia. }
  intros ?%Hge. lia.
Qed.

Lemma NoDup_strided w step n : 0 < step -> NoDup (strided w step n).
Proof. apply NoDup_stride_loop. Qed.

(** The [step] workers that start at their own rank and advance by [step] visit
    every index below [n] exactly once. *)
Lemma strided_partition step n :
  0 < step -> seq 0 step ≫= (fun w => strided w step n) ≡ₚ seq 0 n.
Proof.
  intros Hs. apply NoDup_Permutation.
  - apply NoDup_bind; [|intros; by apply NoDup_strided|apply NoDup_seq].
    intros w1 w2 j Hw1%elem_of_seq Hw2%elem_of_seq.
    rewrite !elem_of_strided_mod by lia. lia.
  - apply NoDup_seq.
  - intros j. rewrite list_elem_of_bind, elem_of_seq. split.
    + intros (w & Hj & Hw%elem_of_seq). apply elem_of_strided_mod in Hj; lia.
    + intros Hj. exists (j mod step).
      rewrite elem_of_strided_mod by (apply Nat.mod_upper_bound; lia).
      rewrite elem_of_seq. split; [lia|].
      pose proof (Nat.mod_upper_bound j step). lia.
Qed.

(** ** Semigroup folds and the tree reduction of a thread block *)

Section semigroup.
Context {A : Type} (op : A -> A -> A).

(** [op] with an adjoined unit. *)
Definition omerge (x y : option A) : option A :=
  match x, y with
  | Some a, Some b => Some (op a b)
  | Some a, None => Some a
  | None, _ => y
  end.

(** Fold of a list, [None] for the empty list. *)
Definition sfold (l : list A) : option A :=
  foldr (fun x acc => omerge (Some x) acc) None l.

(** One barrier-separated round: the threads [t < s] combine their entry with
    the entry [t + s]. *)
Definition tree_step (s : nat) (l : list A) : list A :=
  imap (fun t x => if (t <? s)%nat
                   then match l !! (t + s) with Some y => op x y | None => x end
                   else x) l.

(** [for(s = n / 2; s > 0; s >>= 1)]: [fuel] rounds at most. *)
Fixpoint tree_rounds (fuel s : nat) (l : list A) : list A :=
  match fuel with
  | O => l
  | S f => if (s =? 0)%nat then l else tree_rounds f (s / 2) (tree_step s l)
  end.

Definition tree_reduce (n : nat) (l : list A) : list A := tree_rounds n (n / 2) l.

Context {Hassoc : Assoc (=) op} {Hcomm : Comm (=) op}.

#[local] Instance omerge_assoc : Assoc (=) omerge.
Proof using Hassoc. intros [x|] [y|] [z|]; simpl; try done. by rewrite Hassoc. Qed.

#[local] Instance omerge_comm : Comm (=) omerge.
Proof using Hcomm. intros [x|] [y|]; simpl; try done. by rewrite Hcomm. Qed.

Lemma sfold_cons x l : sfold (x :: l) = omerge (Some x) (sfold l).
Proof. done. Qed.

Lemma sfold_app l1 l2 : sfold (l1 ++ l2) = omerge (sfold l1) (sfold l2).
Proof using Hassoc.
  induction l1 as [|x l1 IH]; [done|].
  rewrite <-app_comm_cons, !sfold_cons, IH. by rewrite (assoc omerge).
Qed.

Lemma sfold_perm l1 l2 : l1 ≡ₚ l2 -> sfold l1 = sfold l2.
Proof using Hassoc Hcomm.
  induction 1 as [| |x y l|]; rewrite ?sfold_cons; [done|congruence| |congruence].
  rewrite !(assoc omerge). by rewrite (comm omerge (Some y)).
Qed.

Lemma sfold_zip_with l1 l2 :
  length l1 = length l2 -> sfold (zip_with op l1 l2) = sfold (l1 ++ l2).
Proof using Hassoc Hcomm.
  revert l2. induction l1 as [|x l1 IH]; intros [|y l2] Hl; try done.
  injection Hl as Hl. cbn [zip_with app]. rewrite !sfold_cons, IH by done.
  rewrite (sfold_app l1 l2), (sfold_app l1 (y :: l2)), sfold_cons.
  change (Some (op x y)) with (omerge (Some x) (Some y)).
  rewrite <-!(assoc omerge). f_equal. rewrite !(assoc omerge).
  by rewrite (comm omerge (Some y)).
Qed.

Lemma tree_step_halves s l1 l2 l3 :
  length l1 = s -> length l2 = s ->
  tree_step s (l1 ++ l2 ++ l3) = zip_with op l1 l2 ++ l2 ++ l3.
Proof.
  intros H1 H2. apply list_eq. intros i. unfold tree_step. rewrite list_lookup_imap.
  destruct (decide (i < s)) as [Hi|Hi].
  - rewrite (lookup_app_l l1 _ i) by lia.
    rewrite (lookup_app_l (zip_with op l1 l2)) by (rewrite length_zip_with; lia).
    rewrite lookup_zip_with. destruct (lookup_lt_is_Some_2 l1 i) as [x Hx]; [lia|].
    destruct (lookup_lt_is_Some_2 l2 i) as [y Hy]; [lia|].
    rewrite Hx, Hy. simpl. rewrite (proj2 (Nat.ltb_lt i s) Hi).
    rewrite lookup_app_r by lia. replace (i + s - length l1) with i by lia.
    by rewrite lookup_app_l, Hy by lia.
  - rewrite (lookup_app_r l1 _ i) by lia.
    rewrite (lookup_app_r (zip_with op l1 l2)) by (rewrite length_zip_with; lia).
    rewrite length_zip_with. replace (length l1 `min` length l2) with (length l1) by lia.
    destruct ((l2 ++ l3) !! (i - length l1)) as [x|]; simpl; [|done].
    by rewrite (proj2 (Nat.ltb_ge i s)) by lia.
Qed.

Lemma tree_rounds_pow2 k fuel p g :
  k <= fuel -> length p = 2 ^ k -> tree_rounds fuel (2 ^ k / 2) (p ++ g) !! 0 = sfold p.
Proof using Hassoc Hcomm.
  revert fuel p g. induction k as [|k IH]; intros fuel p g Hf Hp.
  { destruct p as [|x [|]]; try done. by destruct fuel. }
  destruct fuel as [|fuel]; [lia|].
  replace (2 ^ S k / 2) with (2 ^ k)
    by (rewrite Nat.pow_succ_r', Nat.mul_comm, Nat.div_mul; lia).
  simpl tree_rounds.
  destruct (Nat.eqb_spec (2 ^ k) 0) as [E|_]; [by apply Nat.pow_nonzero in E|].
  rewrite Nat.pow_succ_r' in Hp.
  rewrite <-(take_drop (2 ^ k) p) at 1. rewrite <-app_assoc.
  assert (length (take (2 ^ k) p) = 2 ^ k) by (rewrite length_take; lia).
  assert (length (drop (2 ^ k) p) = 2 ^ k) by (rewrite length_drop; lia).
  rewrite tree_step_halves by done.
  rewrite IH by (rewrite ?length_zip_with; lia).
  rewrite sfold_zip_with by congruence. by rewrite take_drop.
Qed.

(** The reduction of a power-of-two block leaves the fold of all entries in
    entry 0. *)
Lemma tree_reduce_pow2 k l :
  length l = 2 ^ k -> tree_reduce (2 ^ k) l !! 0 = sfold l.
Proof using Hassoc Hcomm.
  intros Hl. unfold tree_reduce. rewrite <-(app_nil_r l) at 1.
  apply tree_rounds_pow2; [|done]. apply Nat.lt_le_incl, Nat.pow_gt_lin_r. lia.
Qed.
(** An idempotent element that every worker contributes counts once. *)
Lemma sfold_idem_cons d (ls : list (list A)) :
  op d d = d -> ls <> [] -> sfold (concat (map (cons d) ls)) = sfold (d :: concat ls).
Proof using Hassoc Hcomm.
  intros Hd Hne. destruct ls as [|l ls]; [done|]. clear Hne. revert l.
  induction ls as [|l' ls IH]; intros l; [done|].
  specialize (IH l'). cbn [map concat] in *. rewrite sfold_app, IH.
  rewrite !sfold_cons, (sfold_app l).
  generalize (sfold l) (sfold (l' ++ concat ls)). intros L R.
  rewrite <-(assoc omerge (Some d) L), (assoc omerge L), (comm omerge L (Some d)).
  rewrite <-(assoc omerge (Some d) L R), (assoc omerge (Some d) (Some d)).
  simpl omerge at 2. by rewrite Hd.
Qed.

Lemma foldl_sfold d l : Some (foldl op d l) = sfold (d :: l).
Proof using Hassoc.
  revert d. induction l as [|x l IH]; intros d; [done|]. cbn [foldl]. rewrite IH.
  rewrite !sfold_cons, (assoc omerge). done.
Qed.
End semigroup.

(** Tree reductions commute with homomorphisms of the combining operation. *)
Lemma tree_reduce_hom {A B} (P : A -> Prop) (g : A -> B) op op' n l :
  (forall x y, P x -> P y -> P (op x y) /\ g (op x y) = op' (g x) (g y)) ->
  Forall P l ->
  map g (tree_reduce op n l) = tree_reduce op' n (map g l) /\ Forall P (tree_reduce op n l).
Proof.
  intros Hop. unfold tree_reduce. generalize (n / 2). revert l.
  induction n as [|n IH]; intros l s Hl; [done|]. simpl. destruct (s =? 0); [done|].
  assert (Hs : map g (tree_step op s l) = tree_step op' s (map g l) /\ Forall P (tree_step op s l)).
  { split.
    - apply list_eq. intros i. unfold tree_step.
      rewrite list_lookup_imap, !list_lookup_fmap, list_lookup_imap.
      destruct (l !! i) as [x|] eqn:Hx; [|done]. simpl. f_equal.
      rewrite ?list_lookup_fmap. destruct (i <? s); [|done].
      destruct (l !! (i + s)) as [y|] eqn:Hy; [|done]. simpl.
      apply Hop; by eapply Forall_lookup_1.
    - apply Forall_lookup. intros i x. unfold tree_step. rewrite list_lookup_imap.
      destruct (l !! i) as [y|] eqn:Hy; [|discriminate]. simpl. intros [= <-].
      assert (P y) by (by eapply Forall_lookup_1). destruct (i <? s); [|done].
      destruct (l !! (i + s)) as [z|] eqn:Hz; [|done]. apply Hop; by eapply Forall_lookup_1. }
  destruct Hs as [<- HP]. by apply IH.
Qed.

#[export] Instance omap_perm {A B} (f : A -> option B) : Proper ((≡ₚ) ==> (≡ₚ)) (omap f).
Proof.
  induction 1 as [|x l l' _ IH|x y l|l1 l2 l3 _ IH1 _ IH2]; simpl; [done| | |by etrans].
  - destruct (f x); by rewrite ?IH.
  - destruct (f x), (f y); done || apply perm_swap.
Qed.

Lemma list_filter_ext_in {A} (P1 P2 : A -> Prop) `{!forall x, Decision (P1 x)}
    `{!forall x, Decision (P2 x)} (l : list A) :
  (forall x, x ∈ l -> P1 x <-> P2 x) -> filter P1 l = filter P2 l.
Proof.
  induction l as [|x l IH]; intros E; [done|]. rewrite !filter_cons, IH by (intros; apply E; by right).
  pose proof (E x ltac:(by left)). destruct (decide (P1 x)), (decide (P2 x)); tauto.
Qed.

Lemma list_filter_all {A} (P : A -> Prop) `{!forall x, Decision (P x)} (l : list A) :
  (forall x, x ∈ l -> P x) -> filter P l = l.
Proof.
  induction l as [|x l IH]; intros HP; [done|].
  rewrite filter_cons_True by (apply HP; by left). rewrite IH; [done|]. intros. apply HP. by right.
Qed.

Lemma list_filter_none {A} (P : A -> Prop) `{!forall x, Decision (P x)} (l : list A) :
  (forall x, x ∈ l -> ~ P x) -> filter P l = [].
Proof.
  induction l as [|x l IH]; intros HP; [done|].
  rewrite filter_cons_False by (apply HP; by left). apply IH. intros. apply HP. by right.
Qed.

Lemma concat_perm {A} (xs ys : list (list A)) : Forall2 (≡ₚ) xs ys -> concat xs ≡ₚ concat ys.
Proof. induction 1 as [|x y xs ys Hxy _ IH]; [done|]. simpl. by rewrite Hxy, IH. Qed.

Lemma elem_of_snoc_ne {A} (x y : A) l : x <> y -> x ∈ l ++ [y] <-> x ∈ l.
Proof. intros Hne. rewrite elem_of_app, list_elem_of_singleton. tauto. Qed.

Lemma NoDup_fmap_inj_on {A B} (f : A -> B) (l : list A) x y :
  NoDup (map f l) -> x ∈ l -> y ∈ l -> f x = f y -> x = y.
Proof.
  intros Hnd [i Hi]%list_elem_of_lookup_1 [j Hj]%list_elem_of_lookup_1 E.
  assert (i = j) as ->; [|congruence].
  eapply (proj1 (NoDup_alt _) Hnd); rewrite list_lookup_fmap; [by rewrite Hi|rewrite Hj; simpl; congruence].
Qed.

(** A function changed at one argument. *)
Definition upd {B} (n : nat) (x : B) (f : nat -> B) (m : nat) : B := if decide (m = n) then x else f m.

Lemma upd_eq {B} n (x : B) f : upd n x f n = x.
Proof. unfold upd. by rewrite decide_True. Qed.

Lemma upd_ne {B} n (x : B) f m : m <> n -> upd n x f m = f m.
Proof. intros. unfold upd. by rewrite decide_False. Qed.

Lemma map_upd {B} n (x : B) f l : n ∉ l -> map (upd n x f) l = map f l.
Proof. intros Hn. apply map_ext_in. intros m Hm%list_elem_of_In. apply upd_ne. by intros ->. Qed.

Lemma bind_upd {B} n (x : list B) f (l : list nat) : n ∉ l -> l ≫= upd n x f = l ≫= f.
Proof.
  induction l as [|m l IH]; intros Hn; [done|]. apply not_elem_of_cons in Hn as [Hm Hn].
  by rewrite !bind_cons, IH, upd_ne.
Qed.

Lemma bind_swap {A B C} (l : list A) (k : list B) (f : A -> B -> list C) :
  l ≫= (fun x => k ≫= f x) ≡ₚ k ≫= (fun y => l ≫= fun x => f x y).
Proof.
  induction l as [|x l IH]; [by induction k|]. rewrite bind_cons, IH. clear IH.
  induction k as [|y k IH]; [done|]. rewrite !bind_cons, <-IH.
  rewrite <-!(assoc_L (++)). f_equiv. rewrite !(assoc_L (++)). f_equiv. apply Permutation_app_comm.
Qed.

Lemma sfold_Some_cons {A} (op : A -> A -> A) x l : exists y, sfold op (x :: l) = Some y.
Proof. unfold sfold. simpl. destruct (foldr _ None l); eauto. Qed.

(** ** Device boxes

    A write into a device box at an index outside its allocation is undefined
    behaviour: [box_write] is [None] there. *)

Definition box_write {A} (box : list A) (i : nat) (x : A) : option (list A) :=
  if (i <? length box)%nat then Some (<[i := x]> box) else None.

Lemma box_write_Some {A} (box : list A) i x :
  i < length box -> box_write box i x = Some (<[i := x]> box).
Proof. intros Hi. unfold box_write. by rewrite (proj2 (Nat.ltb_lt _ _) Hi). Qed.

Lemma box_write_length {A} (box box' : list A) i x :
  box_write box i x = Some box' -> length box' = length box.
Proof. unfold box_write. intros H. case_hyp H; simplify_eq. by rewrite length_insert. Qed.

(** Stores with a signed index. *)
Definition zbox_write {A} (box : list A) (i : Z) (x : A) : option (list A) :=
  if (i <? 0)%Z then None else box_write box (Z.to_nat i) x.

Definition zbox_read {A} (box : list A) (i : Z) : option A :=
  if (i <? 0)%Z then None else box !! Z.to_nat i.

Lemma zbox_write_nat {A} (box : list A) (i : nat) x :
  zbox_write box (Z.of_nat i) x = box_write box i x.
Proof. unfold zbox_write. rewrite (proj2 (Z.ltb_ge _ _)) by lia. by rewrite Nat2Z.id. Qed.

Lemma zbox_read_nat {A} (box : list A) (i : nat) : zbox_read box (Z.of_nat i) = box !! i.
Proof. unfold zbox_read. rewrite (proj2 (Z.ltb_ge _ _)) by lia. by rewrite Nat2Z.id. Qed.

Lemma zbox_read_Some {A} (box : list A) i x :
  zbox_read box i = Some x -> exists k, i = Z.of_nat k /\ box !! k = Some x.
Proof.
  unfold zbox_read. destruct (Z.ltb_spec i 0); [done|]. intros E. exists (Z.to_nat i). split; [lia|done].
Qed.

(** A sequence of stores. *)
Fixpoint scatter {A} (ws : list (nat * A)) (box : list A) : option (list A) :=
  match ws with
  | [] => Some box
  | (i, x) :: ws => box' ← box_write box i x; scatter ws box'
  end.

Lemma scatter_app {A} (ws1 ws2 : list (nat * A)) box :
  scatter (ws1 ++ ws2) box = box' ← scatter ws1 box; scatter ws2 box'.
Proof.
  revert box. induction ws1 as [|[i x] ws1 IH]; intros box; [done|]. simpl.
  by destruct (box_write box i x); simpl.
Qed.

(** Stores to distinct entries of the box, in whatever order. *)
Lemma scatter_spec {A} (ws : list (nat * A)) (box : list A) :
  NoDup (map fst ws) -> (forall i, i ∈ map fst ws -> i < length box) ->
  exists box', scatter ws box = Some box' /\ length box' = length box /\
    (forall i x, (i, x) ∈ ws -> box' !! i = Some x) /\
    (forall i, i ∉ map fst ws -> box' !! i = box !! i).
Proof.
  revert box. induction ws as [|[i x] ws IH]; intros box Hnd Hin; simpl in *.
  { exists box. split_and!; [done..| |done]. by intros i x ?%elem_of_nil. }
  apply NoDup_cons in Hnd as [Hi Hnd].
  rewrite box_write_Some by (apply Hin; by left). simpl.
  destruct (IH (<[i:=x]> box) Hnd) as (box' & -> & Hlen & Hws & Hrest).
  { intros j Hj. rewrite length_insert. apply Hin. by right. }
  rewrite length_insert in Hlen. exists box'. split_and!; [done..| |].
  - intros j y [[= -> ->]|Hj]%elem_of_cons; [|by apply Hws].
    rewrite Hrest by done. apply list_lookup_insert_eq. apply Hin. by left.
  - intros j [Hji Hj]%not_elem_of_cons. rewrite Hrest by done.
    by apply list_lookup_insert_ne.
Qed.

(** Two stores' worth of the same entries in two orders give the same box. *)
Lemma scatter_perm {A} (ws ws' : list (nat * A)) (box : list A) :
  ws ≡ₚ ws' -> NoDup (map fst ws) -> (forall i, i ∈ map fst ws -> i < length box) ->
  scatter ws box = scatter ws' box.
Proof.
  intros Hp Hnd Hin.
  destruct (scatter_spec ws box Hnd Hin) as (b1 & -> & Hl1 & Hw1 & Hr1).
  destruct (scatter_spec ws' box) as (b2 & -> & Hl2 & Hw2 & Hr2).
  { by rewrite <-Hp. } { intros i. rewrite <-Hp. apply Hin. }
  f_equal. apply list_eq. intros i. destruct (decide (i ∈ map fst ws)) as [Hi|Hi].
  - apply list_elem_of_fmap in Hi as ([j x] & -> & Hj). simpl.
    rewrite (Hw1 _ _ Hj). rewrite Hp in Hj. by rewrite (Hw2 _ _ Hj).
  - rewrite Hr1 by done. rewrite Hr2; [done|]. by rewrite <-Hp.
Qed.

(** Blocks of a kernel launch, executed one after the other in some order; a
    block that faults stops the launch. *)
Fixpoint run_blocks {S} (order : list nat) (kernel : nat -> S -> option S) (s : S) : option S :=
  match order with
  | [] => Some s
  | b :: order => s' ← kernel b s; run_blocks order kernel s'
  end.

Lemma run_blocks_bind {S} (order : list nat) (f : nat -> list nat) (kernel : nat -> S -> option S) s :
  run_blocks order (fun b => run_blocks (f b) kernel) s = run_blocks (order ≫= f) kernel s.
Proof.
  assert (Happ : forall l1 l2 s, run_blocks (l1 ++ l2) kernel s =
            s' ← run_blocks l1 kernel s; run_blocks l2 kernel s').
  { induction l1 as [|b l1 IH]; intros l2 s0; [done|]. simpl.
    destruct (kernel b s0); simpl; [apply IH|done]. }
  revert s. induction order as [|b order IH]; intros s; [done|].
  rewrite bind_cons, Happ. simpl. destruct (run_blocks (f b) kernel s); simpl; [apply IH|done].
Qed.

(** A launch whose blocks keep an invariant over the blocks already run. *)
Lemma run_blocks_inv {S} (I : list nat -> S -> Prop) (order : list nat) (kernel : nat -> S -> option S) s :
  I [] s ->
  (forall d b rest s, d ++ b :: rest = order -> I d s -> exists s', kernel b s = Some s' /\ I (d ++ [b]) s') ->
  exists s', run_blocks order kernel s = Some s' /\ I order s'.
Proof.
  intros H0 Hstep.
  assert (Hg : forall ord d s, d ++ ord = order -> I d s -> exists s', run_blocks ord kernel s = Some s' /\ I order s').
  { induction ord as [|b ord IH]; intros d s' Hd HI; simpl.
    - rewrite app_nil_r in Hd. subst. eauto.
    - destruct (Hstep d b ord s' Hd HI) as (s1 & -> & H1). simpl. apply (IH (d ++ [b])); [|done].
      by rewrite <-app_assoc. }
  by apply (Hg order []).
Qed.

Lemma elem_of_concat {A} (x : A) (ls : list (list A)) : x ∈ concat ls <-> exists l, x ∈ l /\ l ∈ ls.
Proof.
  rewrite list_elem_of_In, in_concat. split; intros (l & H1 & H2); exists l; rewrite !list_elem_of_In in *; tauto.
Qed.

Lemma NoDup_concat_disjoint {A} (ls : list (list A)) i j l k x :
  NoDup (concat ls) -> i <> j -> ls !! i = Some l -> ls !! j = Some k -> x ∈ l -> x ∈ k -> False.
Proof.
  revert i j l k. assert (Hhd : forall l0 (ls : list (list A)) j k, NoDup (l0 ++ concat ls) -> ls !! j = Some k -> x ∈ l0 -> x ∈ k -> False).
  { intros l0 ls0 j k (_ & Hd & _)%list.NoDup_app Hj H0 Hk. apply (Hd x H0), elem_of_concat.
    exists k. split; [done|]. by eapply list_elem_of_lookup_2. }
  induction ls as [|l0 ls IH]; intros i j l k Hnd Hij Hi Hj Hl Hk; [done|]. simpl in Hnd.
  destruct i as [|i], j as [|j]; simpl in *; simplify_eq; [by eapply Hhd|by eapply Hhd|].
  apply list.NoDup_app in Hnd as (_ & _ & Hnd). by eapply (IH i j); [|congruence|..].
Qed.

Lemma same_lookups_length {A B} (l : list A) (k : list B) :
  (forall i, is_Some (l !! i) <-> is_Some (k !! i)) -> length l = length k.
Proof.
  intros Hi. pose proof (Hi (length l)) as H1. pose proof (Hi (length k)) as H2. rewrite !lookup_lt_is_Some in H1, H2. lia.
Qed.

(** Blocks that each update their own entry of a box. *)
Lemma run_blocks_update {A} (idxs : list nat) (g : A -> option A) (g' : A -> A) (box : list A) :
  NoDup idxs -> (forall i, i ∈ idxs -> i < length box) ->
  (forall i x, i ∈ idxs -> box !! i = Some x -> g x = Some (g' x)) ->
  exists box', run_blocks idxs (fun i box => x ← box !! i; y ← g x; Some (<[i := y]> box)) box = Some box' /\
    forall i, box' !! i = if decide (i ∈ idxs) then g' <$> box !! i else box !! i.
Proof.
  revert box. induction idxs as [|i idxs IH]; intros box Hnd Hin Hg.
  { exists box. split; [done|]. intros i. rewrite decide_False; [done|]. apply not_elem_of_nil. }
  apply NoDup_cons in Hnd as [Hi Hnd]. cbn [run_blocks].
  destruct (lookup_lt_is_Some_2 box i) as [x Hx]; [apply Hin; by left|].
  rewrite Hx. cbn [mbind option_bind]. rewrite (Hg i x) by (done || by left). cbn [mbind option_bind].
  destruct (IH (<[i := g' x]> box)) as (box' & -> & Hb); [done| | |].
  { intros j Hj. rewrite length_insert. apply Hin. by right. }
  { intros j y Hj. rewrite list_lookup_insert_ne by (intros ->; done). apply Hg. by right. }
  exists box'. split; [done|]. intros j. rewrite Hb. destruct (decide (i = j)) as [->|Hne].
  - rewrite decide_False by done. rewrite decide_True by (by left). rewrite Hx.
    rewrite list_lookup_insert_eq; [done|]. apply Hin. by left.
  - rewrite list_lookup_insert_ne by done.
    destruct (decide (j ∈ idxs)); [rewrite decide_True; [done|by right]|].
    rewrite decide_False; [done|]. by rewrite not_elem_of_cons.
Qed.

(** A launch whose blocks only store into a box is the scatter of all their stores. *)
Lemma run_blocks_scatter {A} (order : list nat) (kernel : nat -> list A -> option (list A)) ws box :
  (forall b box', b ∈ order -> length box' = length box -> kernel b box' = scatter (ws b) box') ->
  run_blocks order kernel box = scatter (order ≫= ws) box.
Proof.
  revert box. induction order as [|b order IH]; intros box Hk; [done|]. simpl.
  rewrite scatter_app, Hk by (done || by left).
  destruct (scatter (ws b) box) as [box'|] eqn:E; [|done]. simpl. apply IH.
  intros b' box'' Hb' Hl. apply Hk; [by right|]. rewrite Hl.
  clear -E. revert box E. induction (ws b) as [|[i x] l IH]; intros box E; simpl in E; [congruence|].
  destruct (box_write box i x) as [b1|] eqn:E1; [|discriminate].
  rewrite <-(box_write_length _ _ _ _ E1). by apply IH.
Qed.

(** Reading the slice of [n] entries from [lo] element by element. *)
Lemma read_slice {A} (box : list A) (lo n : nat) :
  lo + n <= length box ->
  mapM (fun k => zbox_read box (Z.of_nat lo + Z.of_nat k)%Z) (seq 0 n) = Some (take n (drop lo box)).
Proof.
  intros Hl. apply mapM_Some, Forall2_same_length_lookup.
  rewrite length_seq, length_take, length_drop. split; [lia|]. intros i k x Hi Hx.
  apply lookup_seq in Hi as [-> Hi]. rewrite <-Nat2Z.inj_add, zbox_read_nat.
  rewrite lookup_take_lt, lookup_drop in Hx by lia. by rewrite Nat.add_0_l.
Qed.

(** Conversion of a [uint32_t] to [int]. *)
Definition s32 (z : Z) : Z := (if u32 z <? 2 ^ 31 then u32 z else u32 z - 2 ^ 32)%Z.

Lemma s32_small z : (0 <= z < 2 ^ 31)%Z -> s32 z = z.
Proof. intros ?. unfold s32. rewrite u32_small by lia. by rewrite (proj2 (Z.ltb_lt _ _)) by lia. Qed.


(** What a list of components contains, when one of them is replaced. *)
Lemma concat_imap_insert {A B} (f : nat -> A -> list B) (l : list A) i x : l !! i = Some x ->
  exists rest, concat (imap f l) ≡ₚ f i x ++ rest /\ forall y, concat (imap f (<[i := y]> l)) ≡ₚ f i y ++ rest.
Proof.
  intros Hi. pose proof (lookup_lt_Some _ _ _ Hi) as Hlt.
  exists (concat (imap f (take i l)) ++ concat (imap (fun k => f (S i + k)) (drop (S i) l))).
  assert (Hg : forall y, concat (imap f (<[i := y]> l)) ≡ₚ
    f i y ++ concat (imap f (take i l)) ++ concat (imap (fun k => f (S i + k)) (drop (S i) l))).
  { intros y. rewrite insert_take_drop by done. rewrite imap_app, length_take, Nat.min_l by lia. simpl.
    rewrite concat_app. simpl. rewrite Nat.add_0_r. rewrite Permutation_app_swap_app. do 2 f_equiv.
    apply Permutation_refl'. f_equal. apply imap_ext. intros k z _. simpl. f_equal. lia. }
  split; [|exact Hg]. rewrite <-(Hg x). by rewrite list_insert_id.
Qed.

(** Computations that cannot fail. *)
Lemma mapM_total {A B} (f : A -> option B) (g : A -> B) l :
  (forall x, x ∈ l -> f x = Some (g x)) -> mapM f l = Some (map g l).
Proof.
  induction l as [|x l IH]; intros E; [done|]. simpl.
  rewrite E by (by left). rewrite IH; [done|]. intros y Hy. apply E. by right.
Qed.

Lemma bind_concat_map {A B} (f : A -> list B) l : concat (map f l) = l ≫= f.
Proof. induction l as [|x l IH]; simpl; [done|]. by rewrite IH. Qed.
