(* ===== verification/Transition.v ===== *)
(** * Transition systems

    What the models of concurrent code share: states with a step relation whose every step is one
    atomic action of some thread (a critical section, an atomic exchange, a call).  Executions are
    [rtc] and [nsteps] of stdpp; invariants go through them by rule induction, and a measure that
    every step decreases bounds their length. *)
From stdpp Require Import base list relations.
From Stdlib Require Import Lia.

Section transition.
Context {A : Type} (R : relation A).

(** A state predicate that every step preserves. *)
Definition preserved (P : A -> Prop) : Prop := forall x y, P x -> R x y -> P y.

Lemma preserved_rtc P x y : preserved P -> P x -> rtc R x y -> P y.
Proof. intros HP Hx. induction 1; eauto. Qed.

(** Under an invariant, a measure that every step decreases bounds the length of executions. *)
Lemma measure_nsteps (P : A -> Prop) (m : A -> nat) n x y :
  preserved P -> (forall x y, P x -> R x y -> m y < m x) -> P x -> nsteps R n x y -> n + m y <= m x.
Proof.
  intros HP Hm Hx. induction 1 as [x|n x y z Hxy _ IH]; [done|].
  specialize (Hm x y Hx Hxy). specialize (IH (HP x y Hx Hxy)). lia.
Qed.

(** With progress, every execution reaches a final state. *)
Lemma progress_final (P F : A -> Prop) (m : A -> nat) x :
  preserved P -> (forall x y, P x -> R x y -> m y < m x) -> (forall x, P x -> F x \/ exists y, R x y) ->
  P x -> exists y, rtc R x y /\ F y.
Proof.
  intros HP Hm Hpr. remember (m x) as k eqn:Hk. revert x Hk.
  induction k as [k IH] using lt_wf_ind. intros x -> Hx.
  destruct (Hpr x Hx) as [Hf|[y Hxy]]; [by exists x|].
  destruct (IH (m y) (Hm x y Hx Hxy) y eq_refl (HP x y Hx Hxy)) as (z & Hyz & Hf).
  exists z. split; [by eapply rtc_l|done].
Qed.
End transition.
