(* ===== verification/Outcome.v ===== *)
(** * Outcomes of host code

    Host code returns, throws an exception, or ends the process through
    PMACC_VERIFY / PMACC_ASSERT (abortWithError).  [outcome] has these ends as its
    values; [Undefined] stands for undefined behaviour (a null dereference, a division
    by zero).  [Host] is the monad of host code over an explicit state, which keeps
    what had been written when an exception left. *)
From Stdlib Require Import ZArith Lia.
From stdpp Require Import base list numbers strings.
From S2P Require Import Prelude.

Inductive exn : Type := runtime_error | PluginException | invalid_argument | out_of_range | validation_error | logic_error | length_error | overflow_error | bad_alloc.
#[export] Instance exn_eq_dec : EqDecision exn.
Proof. solve_decision. Defined.

Inductive outcome (A : Type) : Type :=
  | Ret (a : A)
  | Throw (e : exn) (what : string)
  | Abort (msg : string)
  | Undefined.
Arguments Ret {A} a.
Arguments Throw {A} e what.
Arguments Abort {A} msg.
Arguments Undefined {A}.

#[export] Instance outcome_ret : MRet outcome := @Ret.
#[export] Instance outcome_bind : MBind outcome := fun A B f m =>
  match m with
  | Ret a => f a
  | Throw e w => Throw e w
  | Abort w => Abort w
  | Undefined => Undefined
  end.
#[export] Instance outcome_fmap : FMap outcome := fun A B f m => m ≫= fun a => Ret (f a).

(** PMACC_VERIFY_MSG. *)
Definition PMACC_VERIFY_MSG (expr : bool) (msg : string) : outcome unit := if expr then Ret tt else Abort msg.

Lemma bind_Ret {A B} (m : outcome A) (f : A -> outcome B) b :
  m ≫= f = Ret b <-> exists a, m = Ret a /\ f a = Ret b.
Proof.
  destruct m; simpl; (split; [intros E; try discriminate E; by eauto|intros (a' & E & Hf); try discriminate E; by injection E as ->]).
Qed.

Lemma verify_Ret b msg u : PMACC_VERIFY_MSG b msg = Ret u <-> b = true.
Proof. destruct b, u; simpl; split; congruence. Qed.

(** ** State *)

Definition Host (S A : Type) : Type := S -> outcome A * S.

#[export] Instance Host_ret S : MRet (Host S) := fun A a s => (Ret a, s).
#[export] Instance Host_bind S : MBind (Host S) := fun A B f m s =>
  match m s with
  | (Ret a, s') => f a s'
  | (Throw e w, s') => (Throw e w, s')
  | (Abort w, s') => (Abort w, s')
  | (Undefined, s') => (Undefined, s')
  end.

Definition get_state {S} : Host S S := fun s => (Ret s, s).
Definition modify {S} (f : S -> S) : Host S unit := fun s => (Ret tt, f s).
Definition lift {S A} (m : outcome A) : Host S A := fun s => (m, s).
Definition throw {S A} (e : exn) (w : string) : Host S A := lift (Throw e w).

Lemma host_bind_ret {S A B} (m : Host S A) (f : A -> Host S B) s a s' :
  m s = (Ret a, s') -> (m ≫= f) s = f a s'.
Proof. unfold mbind, Host_bind. by intros ->. Qed.

(** A [for] loop over a list. *)
Fixpoint for_ {S A} (l : list A) (f : A -> Host S unit) : Host S unit :=
  match l with
  | [] => mret tt
  | x :: l => f x ≫= fun _ => for_ l f
  end.

Lemma for_app {S A} (l1 l2 : list A) (f : A -> Host S unit) s :
  for_ (l1 ++ l2) f s = (for_ l1 f ≫= fun _ => for_ l2 f) s.
Proof.
  revert s. induction l1 as [|x l1 IH]; intros s; [done|]. cbn [for_ app]. unfold mbind, Host_bind.
  destruct (f x s) as [[u|e w|w|] s1]; [apply IH|done..].
Qed.

(** A loop whose body returns in every state that satisfies an invariant of the work done. *)
Lemma for_inv {S A} (P : list A -> S -> Prop) (l : list A) (f : A -> Host S unit) s :
  P [] s ->
  (forall d x rest s, d ++ x :: rest = l -> P d s -> exists s', f x s = (Ret tt, s') /\ P (d ++ [x]) s') ->
  exists s', for_ l f s = (Ret tt, s') /\ P l s'.
Proof.
  intros H0 Hstep. assert (E : forall d rest s, d ++ rest = l -> P d s ->
    exists s', for_ rest f s = (Ret tt, s') /\ P l s').
  { intros d rest. revert d. induction rest as [|x rest IH]; intros d s0 Hd Hp.
    - rewrite app_nil_r in Hd. subst d. by exists s0.
    - destruct (Hstep d x rest s0 Hd Hp) as (s1 & Hf & Hp1). cbn [for_]. unfold mbind, Host_bind. rewrite Hf.
      apply (IH (d ++ [x])); [|done]. by rewrite <- app_assoc. }
  by apply (E []).
Qed.

(** A loop whose body is a function of the state under an invariant. *)
Lemma for_fold {S A} (Inv : S -> Prop) (l : list A) (f : A -> Host S unit) (g : A -> S -> S) s :
  Inv s -> (forall x s, x ∈ l -> Inv s -> f x s = (Ret tt, g x s) /\ Inv (g x s)) ->
  for_ l f s = (Ret tt, foldl (fun s x => g x s) s l) /\ Inv (foldl (fun s x => g x s) s l).
Proof.
  revert s. induction l as [|x l IH]; intros s Hs Hf; [done|]. cbn [for_ foldl]. unfold mbind, Host_bind.
  destruct (Hf x s ltac:(by left) Hs) as [-> Hx]. apply IH; [done|]. intros y s' Hy. apply Hf. by right.
Qed.
