(* ===== verification/DataConnector.v ===== *)
(** * The data connector

    Models pmacc/dataManagement/DataConnector.{hpp,cpp}: the registry of simulation data
    by identifier, a list of shared pointers that is searched linearly.  A dataset is
    its identifier with a payload.  The specification is a finite map; every sequence of
    calls answers the same on both. *)
From Stdlib Require Import ZArith Lia.
From stdpp Require Import base sets list numbers strings gmap.
From S2P Require Import Prelude Outcome.

Section connector.
Context {X : Type}.

(** An [ISimulationData] and the pointers to it ([None] is null). *)
Record ISimulationData : Type := mkData {
  getUniqueId : string;
  dataset : X
}.
Definition DataConnector : Type := list ISimulationData.

Definition getExceptionStringForID (msg id : string) : string :=
  ("DataConnector: " +:+ msg +:+ " (" +:+ id +:+ ")")%string.

(** [findId]: the iterator of the first dataset of that identifier; [None] is [end()]. *)
Fixpoint findId (id : string) (datasets : DataConnector) : option nat :=
  match datasets with
  | [] => None
  | d :: ds => if decide (getUniqueId d = id) then Some 0 else S <$> findId id ds
  end.

Definition hasId (id : string) (datasets : DataConnector) : bool :=
  match findId id datasets with Some _ => true | None => false end.

(** [share]; a null pointer is the failing assertion. *)
Definition share (data : option ISimulationData) : Host DataConnector unit :=
  match data with
  | None => lift (Abort "data != nullptr")
  | Some data =>
      datasets ← get_state;
      if hasId (getUniqueId data) datasets
      then throw runtime_error (getExceptionStringForID "dataset ID already exists" (getUniqueId data))
      else modify (fun datasets => datasets ++ [data])
  end.

Definition consume (data : option ISimulationData) : Host DataConnector unit := share data.

Definition deregister (id : string) : Host DataConnector unit :=
  datasets ← get_state;
  match findId id datasets with
  | None => throw runtime_error (getExceptionStringForID "dataset not found" id)
  | Some it => modify (delete it)
  end.

(** [clean]: pops from the back while the list is not empty. *)
Fixpoint clean_loop (fuel : nat) : Host DataConnector unit :=
  datasets ← get_state;
  match datasets, fuel with
  | [], _ => mret tt
  | _, O => lift Undefined
  | _, S fuel => modify (fun ds => take (length ds - 1) ds) ≫= fun _ => clean_loop fuel
  end.
Definition clean : Host DataConnector unit := fun datasets => clean_loop (length datasets) datasets.

Definition get (id : string) : Host DataConnector X :=
  datasets ← get_state;
  match findId id datasets with
  | None => throw runtime_error (getExceptionStringForID "Invalid dataset ID" id)
  | Some it => match datasets !! it with Some d => mret (dataset d) | None => lift Undefined end
  end.

(** ** Specification: a finite map *)

Inductive call : Type :=
  | CHas (id : string)
  | CShare (data : ISimulationData)
  | CConsume (data : ISimulationData)
  | CDeregister (id : string)
  | CGet (id : string)
  | CClean.

Inductive answer : Type := AHas (b : bool) | ADone | AData (x : X) | AThrow (e : exn) (what : string) | AStuck.

Definition answer_of {A} (f : A -> answer) (r : outcome A) : answer :=
  match r with Ret a => f a | Throw e w => AThrow e w | _ => AStuck end.

(** A call on the connector. *)
Definition run_call (c : call) (ds : DataConnector) : answer * DataConnector :=
  let done (r : outcome unit * DataConnector) := (answer_of (fun _ => ADone) r.1, r.2) in
  match c with
  | CHas id => (AHas (hasId id ds), ds)
  | CShare d => done (share (Some d) ds)
  | CConsume d => done (consume (Some d) ds)
  | CDeregister id => done (deregister id ds)
  | CGet id => let r := get id ds in (answer_of AData r.1, r.2)
  | CClean => done (clean ds)
  end.

(** A call on the map. *)
Definition spec_call (c : call) (m : gmap string X) : answer * gmap string X :=
  let err msg id := (AThrow runtime_error (getExceptionStringForID msg id), m) in
  match c with
  | CHas id => (AHas (bool_decide (is_Some (m !! id))), m)
  | CShare d | CConsume d =>
      match m !! getUniqueId d with
      | Some _ => err "dataset ID already exists"%string (getUniqueId d)
      | None => (ADone, <[getUniqueId d := dataset d]> m)
      end
  | CDeregister id => match m !! id with Some _ => (ADone, delete id m) | None => err "dataset not found"%string id end
  | CGet id => match m !! id with Some x => (AData x, m) | None => err "Invalid dataset ID"%string id end
  | CClean => (ADone, ∅)
  end.

Fixpoint run_calls {St} (step : call -> St -> answer * St) (cs : list call) (st : St) : list answer * St :=
  match cs with
  | [] => ([], st)
  | c :: cs => let '(a, st) := step c st in let '(as_, st) := run_calls step cs st in (a :: as_, st)
  end.

(** ** Refinement *)

(** The connector holds the map: no identifier twice, and the same data. *)
Definition represents (ds : DataConnector) (m : gmap string X) : Prop :=
  NoDup (map getUniqueId ds) /\ forall id x, m !! id = Some x <-> mkData id x ∈ ds.

Lemma findId_None id ds : findId id ds = None <-> id ∉ map getUniqueId ds.
Proof.
  induction ds as [|d ds IH]; simpl; [split; [intros _; apply not_elem_of_nil|done]|].
  rewrite not_elem_of_cons. case_decide; [split; [done|intros [? _]; congruence]|].
  rewrite <- IH. destruct (findId id ds); simpl; (split; [intros E|intros [? E]]); try discriminate E; by split || done.
Qed.

Lemma findId_Some id ds i : findId id ds = Some i -> exists x, ds !! i = Some (mkData id x).
Proof.
  revert i. induction ds as [|d ds IH]; intros i; simpl; [done|]. case_decide as Hd.
  - intros [= <-]. exists (dataset d). destruct d; simpl in *. by subst.
  - destruct (findId id ds) as [j|]; [|done]. intros [= <-]. by apply IH.
Qed.

Lemma findId_represents ds m id : represents ds m ->
  match findId id ds with
  | Some i => exists x, ds !! i = Some (mkData id x) /\ m !! id = Some x
  | None => m !! id = None /\ id ∉ map getUniqueId ds
  end.
Proof.
  intros [Hnd Hm]. destruct (findId id ds) as [i|] eqn:E.
  - destruct (findId_Some _ _ _ E) as [x Hx]. exists x. split; [done|]. apply Hm. by eapply list_elem_of_lookup_2.
  - apply findId_None in E. split; [|done]. destruct (m !! id) as [x|] eqn:Ex; [|done].
    apply Hm in Ex. destruct E. apply list_elem_of_fmap. by exists (mkData id x).
Qed.

Lemma represents_empty : represents [] ∅.
Proof. split; [constructor|]. intros id x. rewrite lookup_empty, elem_of_nil. done. Qed.

Lemma represents_share ds m d : represents ds m -> m !! getUniqueId d = None ->
  getUniqueId d ∉ map getUniqueId ds -> represents (ds ++ [d]) (<[getUniqueId d := dataset d]> m).
Proof.
  intros [Hnd Hm] Hn Hd. split.
  - rewrite map_app. apply list.NoDup_app. split_and!; [done| |apply NoDup_singleton].
    intros i Hi ->%list_elem_of_singleton. done.
  - intros id x. rewrite lookup_insert_Some, elem_of_app, list_elem_of_singleton, <- Hm.
    destruct d as [di dx]; simpl in *. split; [intros [[-> ->]|[_ ?]]; [by right|by left]|].
    intros [Hx|[= -> ->]]; [right|by left]. split; [|done]. intros ->. congruence.
Qed.

Lemma represents_delete ds m i id x : represents ds m -> ds !! i = Some (mkData id x) ->
  represents (delete i ds) (delete id m).
Proof.
  intros [Hnd Hm] Hi. destruct (list_elem_of_split_length ds i _ Hi) as (l1 & l2 & -> & ->).
  replace (delete (length l1) (l1 ++ mkData id x :: l2)) with (l1 ++ l2) by (symmetry; apply delete_middle).
  rewrite map_app in Hnd. simpl in Hnd.
  rewrite <- Permutation_middle in Hnd. apply NoDup_cons in Hnd as [Hid Hnd].
  rewrite elem_of_app in Hid.
  split; [by rewrite map_app|]. intros id' x'. rewrite lookup_delete_Some, Hm, !elem_of_app, elem_of_cons.
  split; [intros [Hne [?|[[= -> ->]|?]]]; [by left|done|by right]|].
  intros Hin. split; [|tauto]. intros ->. apply Hid. destruct Hin; [left|right]; apply list_elem_of_fmap; by exists (mkData id' x').
Qed.

Lemma clean_loop_spec n ds : length ds <= n -> clean_loop n ds = (Ret tt, []).
Proof.
  revert ds. induction n as [|n IH]; intros [|d ds] Hl; try done; simpl in Hl; [lia|].
  cbn [clean_loop]. unfold mbind, Host_bind, get_state, modify. apply IH. rewrite length_take. simpl. lia.
Qed.
End connector.


Section refinement.
Context {X : Type}.

(** One call: the same answer, and the connector still holds the map. *)
Lemma call_refines (c : call (X := X)) ds m : represents ds m ->
  (run_call c ds).1 = (spec_call c m).1 /\ represents (run_call c ds).2 (spec_call c m).2.
Proof.
  intros Hr. assert (Hshare : forall d, let r := (share (Some d) ds) in
    (answer_of (fun _ => ADone (X := X)) r.1, r.2) = (fst (spec_call (CShare d) m), r.2) /\
    represents r.2 (spec_call (CShare d) m).2).
  { intros d. cbn [share]. unfold mbind, Host_bind, get_state, hasId.
    pose proof (findId_represents ds m (getUniqueId d) Hr) as Hf. simpl.
    destruct (findId (getUniqueId d) ds) as [i|]; [destruct Hf as (x & _ & ->)|destruct Hf as [-> Hd]]; simpl; [done|].
    split; [done|]. pose proof (findId_represents ds m (getUniqueId d) Hr) as Hf.
    apply represents_share; [done| |done]. destruct (findId (getUniqueId d) ds); [|by destruct Hf].
    exfalso. destruct Hf as (x & Hi & _). apply Hd, list_elem_of_fmap. exists (mkData (getUniqueId d) x).
    split; [done|by eapply list_elem_of_lookup_2]. }
  destruct c as [id|d|d|id|id|]; cbn [run_call].
  - split; [|done]. simpl. f_equal. unfold hasId. pose proof (findId_represents ds m id Hr) as Hf.
    destruct (findId id ds) as [i|]; [destruct Hf as (x & _ & ->)|destruct Hf as [-> _]]; symmetry.
    + by apply bool_decide_eq_true_2.
    + apply bool_decide_eq_false_2. by intros [? ?].
  - destruct (Hshare d) as [E Hs]. by rewrite E.
  - destruct (Hshare d) as [E Hs]. unfold consume. by rewrite E.
  - unfold deregister, mbind, Host_bind, get_state. pose proof (findId_represents ds m id Hr) as Hf. simpl.
    destruct (findId id ds) as [i|]; [destruct Hf as (x & Hi & ->)|destruct Hf as [-> _]]; simpl; [|done].
    split; [done|]. by eapply represents_delete.
  - unfold get, mbind, Host_bind, get_state. pose proof (findId_represents ds m id Hr) as Hf. simpl.
    destruct (findId id ds) as [i|]; [destruct Hf as (x & Hi & ->)|destruct Hf as [-> _]]; simpl; [|done].
    by rewrite Hi.
  - unfold clean. rewrite clean_loop_spec by done. split; [done|apply represents_empty].
Qed.

(** From the empty connector every sequence of calls answers as a finite map by identifier
    does: registering an identifier twice, removing or fetching an unknown one throw a
    runtime_error with the identifier in its message and change nothing; [clean] empties the
    registry, and never gets stuck. *)
Theorem connector_refines_map (cs : list (call (X := X))) :
  (run_calls run_call cs []).1 = (run_calls spec_call cs ∅).1 /\
  represents (run_calls run_call cs []).2 (run_calls spec_call cs ∅).2.
Proof.
  generalize (represents_empty (X := X)). generalize (∅ : gmap string X) as m. generalize ([] : DataConnector (X := X)) as ds.
  induction cs as [|c cs IH]; intros ds m Hr; [done|]. cbn [run_calls].
  destruct (call_refines c ds m Hr) as [Ha Hs].
  destruct (run_call c ds) as [a ds1], (spec_call c m) as [a' m1]. simpl in Ha, Hs. subst a'.
  specialize (IH ds1 m1 Hs). destruct (run_calls run_call cs ds1), (run_calls spec_call cs m1). simpl in *.
  destruct IH as [-> ?]. done.
Qed.
End refinement.

Example connector_run :
  (run_calls run_call [CShare (mkData "a" 1); CShare (mkData "b" 2); CShare (mkData "a" 3); CGet "b"; CDeregister "a"; CHas "a"] []).1 =
  [ADone; ADone; AThrow runtime_error "DataConnector: dataset ID already exists (a)"; AData 2; ADone; AHas false].
Proof. vm_compute. reflexivity. Qed.
