(* ===== verification/Species.v ===== *)
(** * Species, roles and the selection of buffers

    Models spmacc/particles/Predicate.hpp (the combinators), particles/regions/RegionRole.hpp,
    NeighbourBundle.hpp, the species loops of ParticleRegionBuffer.hpp, param/speciesDefinition.param
    and the buffer selection of control/Simulation.x.cpp.  What the C++ code decides at compile
    time by folding over type packs is a function on lists here; the buffers themselves are
    handles, since the code passes references to objects the data connector owns. *)
From Stdlib Require Import ZArith Lia.
From stdpp Require Import base sets list numbers strings gmap.
From S2P Require Import Prelude Outcome DataConnector.

(** ** Predicates *)

Section predicates.
Context {X : Type}.

Definition And (a b : X -> bool) (x : X) : bool := a x && b x.
Definition Or (a b : X -> bool) (x : X) : bool := a x || b x.
Definition Neg (a : X -> bool) (x : X) : bool := negb (a x).
Definition Always (x : X) : bool := true.
Definition Never (x : X) : bool := false.
Definition On {Y} (p : X -> bool) (proj : Y -> X) (y : Y) : bool := p (proj y).
End predicates.

(** ** Roles and species *)

Inductive role : Type := Movable | Frozen | Source | Interior | Thermodynamic | OpenPMDOutput.
#[export] Instance role_eq_dec : EqDecision role.
Proof. solve_decision. Defined.

Inductive species : Type := Default | Boundary | Tracer.
#[export] Instance species_eq_dec : EqDecision species.
Proof. solve_decision. Defined.

Definition species_name (s : species) : string :=
  match s with Default => "Default" | Boundary => "Boundary" | Tracer => "Tracer" end.

Definition RolesOf (s : species) : list role :=
  match s with
  | Default => [Interior; Movable; Source; Thermodynamic; OpenPMDOutput]
  | Boundary => [Frozen; Source; Thermodynamic]
  | Tracer => [Movable]
  end.

Definition AllTypes : list species := [Default; Boundary; Tracer].

(** [InRoleSet]: a fold of type comparisons over the role set. *)
Definition InRoleSet (r : role) (set : list role) : bool := existsb (fun r' => bool_decide (r = r')) set.
Definition hasRole (s : species) (r : role) : bool := InRoleSet r (RolesOf s).
Definition prBufId (s : species) : string := ("PRBuf_" +:+ species_name s)%string.

(** The predicate leaves. *)
Definition HasRole (r : role) (s : species) : bool := InRoleSet r (RolesOf s).
Definition HasAllRoles (rs : list role) (s : species) : bool := forallb (fun r => InRoleSet r (RolesOf s)) rs.
Definition IsSpecies (s s' : species) : bool := bool_decide (s' = s).
Definition IsAnySpecies (ss : list species) (s' : species) : bool := existsb (fun s => bool_decide (s' = s)) ss.

(** ** Loops over species *)

Section loops.
Context {St : Type}.

Fixpoint forEachSpeciesIf (l : list species) (p : species -> bool) (fn : species -> Host St unit) : Host St unit :=
  match l with
  | [] => mret tt
  | s :: l => (if p s then fn s else mret tt) ≫= fun _ => forEachSpeciesIf l p fn
  end.

Definition forEachSpecies (l : list species) (fn : species -> Host St unit) : Host St unit := for_ l fn.

Definition forEachSpeciesWithRole (l : list species) (r : role) (fn : species -> Host St unit) : Host St unit :=
  forEachSpecies l (fun s => if hasRole s r then fn s else mret tt).

(** [FilterByPred]: the concatenation of a singleton or an empty list per species. *)
Definition SpeciesWithPred (p : species -> bool) (l : list species) : list species :=
  l ≫= fun s => if p s then [s] else [].

(** ** Buffers in the data connector *)

Context {X : Type} (dc : St -> DataConnector (X := X)).

Definition ask {A} (m : Host (DataConnector (X := X)) A) : Host St A := fun s => ((m (dc s)).1, s).

Definition forEachSpeciesBufWithPred (p : species -> bool) (fn : species * X -> Host St unit) : Host St unit :=
  forEachSpeciesIf AllTypes p (fun s =>
    st ← get_state;
    if negb (hasId (prBufId s) (dc st)) then mret tt else
    buf ← ask (get (prBufId s)); fn (s, buf)).

Fixpoint withPresentPRBufs {A} (remaining : list species) (fn : list (species * X) -> Host St A)
    (present : list (species * X)) : Host St A :=
  match remaining with
  | [] => fn present
  | head :: tail =>
      st ← get_state;
      if hasId (prBufId head) (dc st) then
        buf ← ask (get (prBufId head)); withPresentPRBufs tail fn (present ++ [(head, buf)])
      else withPresentPRBufs tail fn present
  end.

Definition withSpeciesBufsWithPred {A} (p : species -> bool) (fn : list (species * X) -> Host St A) : Host St A :=
  withPresentPRBufs (SpeciesWithPred p AllTypes) fn [].
End loops.

(** ** The selection of a step *)

Section selection.
Context {X : Type}.

(** [detail::selectBuffers] and [detail::selectTimestepBuffers]: [tuple_cat] of singletons. *)
Definition selectBuffers (rs : list role) (buffers : list (species * X)) : list (species * X) :=
  buffers ≫= fun b => if forallb (hasRole b.1) rs then [b] else [].
Definition selectTimestepBuffers (buffers : list (species * X)) : list (species * X) :=
  buffers ≫= fun b => if hasRole b.1 Movable || bool_decide (b.1 = Default) then [b] else [].

(** [detail::TupleContains] for the buffer of the default species. *)
Definition TupleContains (s : species) (buffers : list (species * X)) : bool :=
  existsb (fun b => bool_decide (b.1 = s)) buffers.
End selection.

(** ** Bundles of neighbour entries *)

Section bundle.
Context {E : Type}.

(** [NeighbourBundle]: its entries by species; whether it owns them or refers to them. *)
Record NeighbourBundle : Type := mkBundle {
  owning : bool;
  entries : list (species * E)
}.

Fixpoint FilteredIndicesImpl (pred : species -> bool) (offset : nat) (es : list (species * E)) : list nat :=
  match es with
  | [] => []
  | e :: rest =>
      let tail := FilteredIndicesImpl pred (S offset) rest in
      if pred e.1 then offset :: tail else tail
  end.
Definition FilteredIndices (pred : species -> bool) (es : list (species * E)) : list nat := FilteredIndicesImpl pred 0 es.

Definition forEachEntry {St} (fn : species * E -> Host St unit) (b : NeighbourBundle) : Host St unit :=
  for_ (entries b) fn.
Definition bundle_size (b : NeighbourBundle) : nat := length (entries b).

(** [bySpecies]: [None] is the failing static assertion. *)
Fixpoint indexOfType (s : species) (l : list species) : nat :=
  match l with [] => 0 | s' :: l => if decide (s = s') then 0 else S (indexOfType s l) end.
Definition bySpecies (s : species) (b : NeighbourBundle) : option E :=
  let idx := indexOfType s (map fst (entries b)) in
  if idx <? length (entries b) then snd <$> entries b !! idx else None.

Definition select (pred : species -> bool) (b : NeighbourBundle) : NeighbourBundle :=
  mkBundle false (omap (fun i => entries b !! i) (FilteredIndices pred (entries b))).
Definition selectByRole (r : role) (b : NeighbourBundle) : NeighbourBundle := select (HasRole r) b.
Definition selectBySpecies (s : species) (b : NeighbourBundle) : NeighbourBundle := select (IsSpecies s) b.
Definition selectSpecies (ss : list species) (b : NeighbourBundle) : NeighbourBundle := select (IsAnySpecies ss) b.

Definition makeNeighbourBundle (es : list (species * E)) : NeighbourBundle := mkBundle true es.
End bundle.
Arguments NeighbourBundle : clear implicits.

(** ** Records *)

Inductive field : Type :=
  | idField | MultiMaskField | relativePosField | massField | velField | densityField | smoothingLengthField
  | internalEnergyField | dvdtField | dudtField.
#[export] Instance field_eq_dec : EqDecision field.
Proof. solve_decision. Defined.

Definition fluidRec : list field :=
  [idField; MultiMaskField; relativePosField; massField; velField; densityField; smoothingLengthField;
   internalEnergyField; dvdtField; dudtField].
Definition tracerRec : list field := [idField; MultiMaskField; relativePosField; massField; velField].
Definition recordFor (s : species) : list field :=
  match s with Default | Boundary => fluidRec | Tracer => tracerRec end.

(** ** Selection is filtering *)

Lemma bind_filter {A} (p : A -> bool) l : (l ≫= fun a => if p a then [a] else []) = filter (fun a => p a = true) l.
Proof.
  induction l as [|a l IH]; [done|]. rewrite bind_cons, filter_cons, IH.
  destruct (p a); [by rewrite decide_True|by rewrite decide_False].
Qed.

Lemma InRoleSet_elem r set : InRoleSet r set = bool_decide (r ∈ set).
Proof.
  unfold InRoleSet. apply eq_bool_prop_intro. rewrite bool_decide_spec, Is_true_true, existsb_exists. split.
  - intros (r' & Hin & ->%bool_decide_eq_true). by apply list_elem_of_In.
  - intros Hin. exists r. rewrite bool_decide_eq_true. split; [by apply list_elem_of_In|done].
Qed.

Lemma FilteredIndices_filter {E} pred (es : list (species * E)) :
  omap (fun i => es !! i) (FilteredIndices pred es) = filter (fun e => pred e.1 = true) es.
Proof.
  unfold FilteredIndices. assert (Hg : forall pre, omap (fun i => (pre ++ es) !! i) (FilteredIndicesImpl pred (length pre) es) =
    filter (fun e => pred e.1 = true) es); [|by apply (Hg [])].
  induction es as [|e es IH]; intros pre; [done|]. cbn [FilteredIndicesImpl]. rewrite filter_cons.
  specialize (IH (pre ++ [e])). rewrite length_app, Nat.add_1_r, <-app_assoc in IH. change ([e] ++ es) with (e :: es) in IH.
  destruct (pred e.1).
  - rewrite decide_True by done. cbn [omap list_omap]. by rewrite list_lookup_middle, IH.
  - by rewrite decide_False.
Qed.

Section present.
Context {St X : Type} (dc : St -> DataConnector (X := X)).

(** The buffers of the species [l] that are registered. *)
Definition present_bufs (l : list species) (st : St) : list (species * X) :=
  omap (fun s => pair s <$> (findId (prBufId s) (dc st) ≫= fun i => dataset <$> dc st !! i)) l.

Lemma present_cons s l st : present_bufs (s :: l) st =
  match findId (prBufId s) (dc st) with
  | Some i => match dc st !! i with Some d => (s, dataset d) :: present_bufs l st | None => present_bufs l st end
  | None => present_bufs l st
  end.
Proof. unfold present_bufs. simpl. destruct (findId _ _) as [i|]; simpl; [|done]. by destruct (dc st !! i). Qed.

(** A registered buffer is fetched. *)
Lemma ask_get {A} s i d (k : X -> Host St A) st : findId (prBufId s) (dc st) = Some i -> dc st !! i = Some d ->
  (ask dc (get (prBufId s)) ≫= k) st = k (dataset d) st.
Proof.
  intros Ei Ed. unfold ask, get, mbind, Host_bind, get_state. cbn [mbind Host_bind get_state fst snd]. rewrite Ei.
  cbn [fst snd]. rewrite Ed. reflexivity.
Qed.

Lemma findId_dataset id ds i : findId id ds = Some i -> exists d : ISimulationData (X := X), ds !! i = Some d.
Proof. intros [x Hx]%findId_Some. by eexists. Qed.

Lemma withPresentPRBufs_spec {A} (fn : list (species * X) -> Host St A) l pre st :
  withPresentPRBufs dc l fn pre st = fn (pre ++ present_bufs l st) st.
Proof.
  revert pre. induction l as [|s l IH]; intros pre; [by rewrite app_nil_r|].
  cbn [withPresentPRBufs]. unfold mbind at 1, Host_bind at 1, get_state. rewrite present_cons. unfold hasId.
  destruct (findId (prBufId s) (dc st)) as [i|] eqn:Ei; [|apply IH].
  destruct (findId_dataset _ _ _ Ei) as [d Ed]. rewrite (ask_get s i d) by done. rewrite Ed, IH.
  by rewrite <-app_assoc.
Qed.

Lemma withSpeciesBufsWithPred_spec {A} p (fn : list (species * X) -> Host St A) st :
  withSpeciesBufsWithPred dc p fn st = fn (present_bufs (SpeciesWithPred p AllTypes) st) st.
Proof. apply withPresentPRBufs_spec. Qed.

Lemma host_bind_ext {A B} (m : Host St A) (f g : A -> Host St B) st :
  (forall a st', m st = (Ret a, st') -> f a st' = g a st') -> (m ≫= f) st = (m ≫= g) st.
Proof. intros E. unfold mbind, Host_bind. destruct (m st) as [[a| | |] st'] eqn:Em; [by apply E|done..]. Qed.

(** One turn of the loop over buffers. *)
Lemma present_turn (fn : species * X -> Host St unit) s st :
  (st' ← get_state;
   if negb (hasId (prBufId s) (dc st')) then mret tt else buf ← ask dc (get (prBufId s)); fn (s, buf)) st =
  match findId (prBufId s) (dc st) ≫= fun i => dc st !! i with
  | Some d => fn (s, dataset d) st
  | None => (Ret tt, st)
  end.
Proof.
  unfold mbind at 1, Host_bind at 1, get_state. unfold hasId.
  destruct (findId (prBufId s) (dc st)) as [i|] eqn:Ei; [|done].
  destruct (findId_dataset _ _ _ Ei) as [d Ed]. cbn [negb mbind option_bind]. rewrite Ed. by rewrite (ask_get s i d).
Qed.

(** The loop over buffers is the loop over the pack of present buffers. *)
Lemma forEachSpeciesBuf_spec p (fn : species * X -> Host St unit) l st :
  (forall b st', dc (fn b st').2 = dc st') ->
  forEachSpeciesIf l p (fun s =>
    st ← get_state;
    if negb (hasId (prBufId s) (dc st)) then mret tt else buf ← ask dc (get (prBufId s)); fn (s, buf)) st =
  for_ (present_bufs (SpeciesWithPred p l) st) fn st.
Proof.
  intros Hfn. unfold SpeciesWithPred. rewrite bind_filter. revert st. induction l as [|s l IH]; intros st; [done|].
  cbn [forEachSpeciesIf]. rewrite filter_cons. destruct (p s) eqn:Hp.
  2:{ rewrite decide_False by done. unfold mbind, Host_bind, mret, Host_ret. apply IH. }
  rewrite decide_True by done. rewrite present_cons.
  match goal with |- (?m ≫= ?k) st = _ => transitivity (match m st with (Ret a, s') => k a s'
    | (Throw e w, s') => (Throw e w, s') | (Abort w, s') => (Abort w, s') | (Undefined, s') => (Undefined, s') end);
    [reflexivity|] end.
  cbn beta. rewrite present_turn.
  destruct (findId (prBufId s) (dc st)) as [i|] eqn:Ei; cbn [mbind option_bind]; [|apply IH].
  destruct (findId_dataset _ _ _ Ei) as [d Ed]. rewrite Ed. cbn [for_].
  unfold mbind, Host_bind. specialize (Hfn (s, dataset d) st).
  destruct (fn (s, dataset d) st) as [[[]| | |] st'] eqn:Ef; try done.
  etrans; [apply IH|]. simpl in Hfn. unfold present_bufs. by rewrite Hfn.
Qed.
End present.

Lemma present_filter {St X} (dc : St -> DataConnector (X := X)) (p : species -> bool) l st :
  present_bufs dc (filter (fun s => p s = true) l) st = filter (fun b => p b.1 = true) (present_bufs dc l st).
Proof.
  induction l as [|s l IH]; [done|]. rewrite filter_cons, present_cons.
  destruct (p s) eqn:Hp; [rewrite decide_True by done; rewrite present_cons|rewrite decide_False by congruence];
    destruct (findId _ _) as [i|]; try done; destruct (dc st !! i) as [d|]; try done; rewrite filter_cons; simpl.
  - by rewrite decide_True, IH.
  - by rewrite decide_False by congruence.
Qed.

(** The pack handed to a step, cut down by roles, is the pack of the species with these roles. *)
Lemma selectBuffers_present {St X} (dc : St -> DataConnector (X := X)) rs st :
  selectBuffers rs (present_bufs dc AllTypes st) = present_bufs dc (SpeciesWithPred (HasAllRoles rs) AllTypes) st.
Proof. unfold SpeciesWithPred, selectBuffers. by rewrite !bind_filter, present_filter. Qed.

(** Selecting from a bundle keeps the entries of the accepted species, in order, as references. *)
Lemma select_spec {E} pred (b : NeighbourBundle E) :
  owning (select pred b) = false /\ entries (select pred b) = filter (fun e => pred e.1 = true) (entries b).
Proof. split; [done|]. apply FilteredIndices_filter. Qed.

Lemma indexOfType_spec s l : (indexOfType s l < length l) <-> s ∈ l.
Proof.
  induction l as [|s' l IH]; simpl; [split; [lia|intros []%elem_of_nil]|]. rewrite elem_of_cons.
  destruct (decide (s = s')); [split; [tauto|lia]|]. rewrite <-IH. split; [intros; right; lia|intros [?|?]; [done|lia]].
Qed.

Lemma bySpecies_spec {E} s (b : NeighbourBundle E) :
  bySpecies s b = snd <$> head (filter (fun e => e.1 = s) (entries b)).
Proof.
  unfold bySpecies. destruct b as [o es]. simpl. induction es as [|[s' e] es IH]; [done|].
  rewrite filter_cons. cbn [map fst length indexOfType].
  destruct (decide (s = s')) as [->|Hne].
  - by rewrite decide_True.
  - rewrite decide_False by (by intros ->). exact IH.
Qed.

(** The ways to select the buffers of an operation agree.  The call with the pack of present
    buffers whose species a predicate accepts receives exactly the registered buffers of the accepted
    species, in the order of the species list; the loop over these buffers makes the same calls one by one,
    for bodies that leave the registry alone; cutting a pack down by roles gives the pack of the
    conjunction of the role predicates; and a bundle of neighbour entries built over a pack and selected by
    role holds what was built over the selected pack. *)
Theorem species_selection {St X A} (dc : St -> DataConnector (X := X)) p st :
  let all := present_bufs dc AllTypes st in
  (forall fn : list (species * X) -> Host St A,
     withSpeciesBufsWithPred dc p fn st = fn (filter (fun b => p b.1 = true) all) st) /\
  (forall fn : species * X -> Host St unit, (forall b st', dc (fn b st').2 = dc st') ->
     forEachSpeciesBufWithPred dc p fn st = withSpeciesBufsWithPred dc p (fun bufs => for_ bufs fn) st) /\
  (forall rs (fn : list (species * X) -> Host St A),
     withSpeciesBufsWithPred dc Always (fun bufs => fn (selectBuffers rs bufs)) st =
     withSpeciesBufsWithPred dc (HasAllRoles rs) fn st) /\
  (forall r E (f : species * X -> E),
     entries (selectByRole r (makeNeighbourBundle (map (fun b => (b.1, f b)) all))) =
     map (fun b => (b.1, f b)) (selectBuffers [r] all)).
Proof.
  intros all. split_and!.
  - intros fn. rewrite withSpeciesBufsWithPred_spec. unfold SpeciesWithPred. by rewrite bind_filter, present_filter.
  - intros fn Hfn. rewrite withSpeciesBufsWithPred_spec. by apply forEachSpeciesBuf_spec.
  - intros rs fn. rewrite !withSpeciesBufsWithPred_spec, <-selectBuffers_present. done.
  - intros r E f. unfold selectByRole. rewrite (proj2 (select_spec _ _)). unfold selectBuffers.
    rewrite bind_filter. simpl. induction all as [|b all IH]; [done|]. cbn [map]. rewrite !filter_cons. simpl.
    unfold HasRole, hasRole in *. destruct (InRoleSet r (RolesOf b.1)); simpl; [by rewrite IH|exact IH].
Qed.

Local Definition registry_ids : DataConnector (X := Z) :=
  [mkData "PRBuf_Tracer" 3%Z; mkData "globalId" 9%Z; mkData "PRBuf_Default" 1%Z]%string.

Lemma species_selection_witness :
  forEachSpeciesBufWithPred (St := list (species * Z)) (fun _ => registry_ids) (HasRole Movable)
    (fun b => modify (fun s => s ++ [b])) [] = (Ret tt, [(Default, 1%Z); (Tracer, 3%Z)]).
Proof.
  destruct (species_selection (A := unit) (fun _ : list (species * Z) => registry_ids) (HasRole Movable) [])
    as (_ & H & _). rewrite (H (fun b => modify (fun s => s ++ [b])) (fun _ _ => eq_refl)). reflexivity.
Defined.
