(* ===== verification/TimeSlice.v ===== *)
(** * Time slices

    Models pmacc/misc/splitString.cpp, pmacc/pluginSystem/Slice.hpp, toSlice.hpp and
    containsStep.hpp: the period syntax of the command line ([begin:end:period], comma
    separated), its parser with its error paths, and the test whether a time step is
    selected.  Of the C++ library it models std::sregex_token_iterator for the
    one-character separators in use, std::stoul and std::to_string. *)
From Stdlib Require Import ZArith Lia Ascii String.
From stdpp Require Import base list numbers strings.
From S2P Require Import Prelude Outcome.
Local Open Scope Z_scope.

(** [std::string] as the list of its characters. *)
Definition text : Type := list ascii.
Definition txt (s : string) : text := list_ascii_of_string s.
Definition str (t : text) : string := string_of_list_ascii t.

(** ** Splitting *)

(** The pieces in front of every separator and what follows the last one. *)
Fixpoint split_at (d : ascii) (s : text) : list text * text :=
  match s with
  | [] => ([], [])
  | c :: s =>
      let '(pre, suf) := split_at d s in
      if decide (c = d) then ([] :: pre, suf)
      else match pre with
           | [] => ([], c :: suf)
           | p :: pre => ((c :: p) :: pre, suf)
           end
  end.

(** The token iterator with submatch -1: the text as a whole when nothing matches, and
    otherwise no token for an empty rest behind the last separator. *)
Definition splitString (input : text) (delimiter : ascii) : list text :=
  let '(pre, suf) := split_at delimiter input in
  match pre, suf with
  | [], _ => [suf]
  | _, [] => pre
  | _, _ => pre ++ [suf]
  end.

(** ** Numbers *)

Definition isdigit (c : ascii) : bool := (48 <=? Z.of_nat (nat_of_ascii c)) && (Z.of_nat (nat_of_ascii c) <=? 57).
Definition digit_value (c : ascii) : Z := Z.of_nat (nat_of_ascii c) - 48.
Definition isspace (c : ascii) : bool :=
  let n := nat_of_ascii c in (n =? 32)%nat || ((9 <=? n)%nat && (n <=? 13)%nat).

Definition is_number (s : text) : bool := forallb isdigit s.

Fixpoint take_while (f : ascii -> bool) (s : text) : text :=
  match s with c :: s' => if f c then c :: take_while f s' else [] | [] => [] end.
Fixpoint drop_while (f : ascii -> bool) (s : text) : text :=
  match s with c :: s' => if f c then drop_while f s' else s | [] => [] end.

Definition digits_value (ds : text) : Z := foldl (fun a c => 10 * a + digit_value c) 0 ds.

(** [std::stoul] in base 10. *)
Definition stoul (s : text) : outcome Z :=
  let s := drop_while isspace s in
  let '(neg, s) := match s with
    | c :: s' => if decide (c = "-"%char) then (true, s') else if decide (c = "+"%char) then (false, s') else (false, s)
    | [] => (false, [])
    end in
  match take_while isdigit s with
  | [] => Throw invalid_argument "stoul"
  | ds => let v := digits_value ds in
      if 2 ^ 64 <=? v then Throw out_of_range "stoul"
      else Ret (if neg then u64 (- v) else v)
  end.

Definition digit_char (d : Z) : ascii := ascii_of_nat (Z.to_nat (48 + d)).

Fixpoint to_string_fuel (fuel : nat) (n : Z) : text :=
  match fuel with
  | O => []
  | S f => if n <? 10 then [digit_char n] else to_string_fuel f (n / 10) ++ [digit_char (n mod 10)]
  end.
(** [std::to_string] of a non-negative number: a decimal digit takes more than three bits. *)
Definition to_string (n : Z) : text := to_string_fuel (S (Z.to_nat (Z.log2 n))) n.

(** ** Slices *)

(** [values]: begin, end and period. *)
Definition Slice : Type := list Z.
Definition Slice_default : Slice := [0; 2 ^ 32 - 1; 1].
Definition mkSlice (start end_ : Z) : Slice := [start; end_; 1].

Definition Slice_toString (s : Slice) : text :=
  to_string (s !!! 0%nat) ++ txt ":" ++ to_string (s !!! 1%nat) ++ txt ":" ++ to_string (s !!! 2%nat).

(** [values.at(idx) = value]. *)
Definition at_write (s : Slice) (idx : nat) (value : Z) : outcome Slice :=
  if (idx <? length s)%nat then Ret (<[idx := value]> s) else Throw out_of_range "array::at".

Definition setValue (idx : nat) (component : text) (s : Slice) : outcome Slice :=
  match component with
  | [] => Ret s
  | _ =>
      v ← stoul component;
      let value := u32 v in
      _ ← PMACC_VERIFY_MSG (negb ((idx =? 2)%nat && (value =? 0))) "Zero is not a valid period";
      at_write s idx value
  end.

(** The loop of [toSlice] over the components of one slice. *)
Fixpoint slice_components (input : text) (fillDefaults : Slice -> Slice) (sliceOnly : bool) (n : nat)
    (components : list text) (rangeSlice : Slice) : outcome Slice :=
  match components with
  | [] => Ret rangeSlice
  | component :: components =>
      if (n =? 3)%nat then Ret rangeSlice else
      _ ← PMACC_VERIFY_MSG
            (bool_decide (component = []) || is_number component || ((n =? 1)%nat && bool_decide (component = txt "-1")))
            ("value" +:+ str component +:+ " in " +:+ str input +:+ "is not a number");
      rangeSlice ← setValue n component rangeSlice;
      let rangeSlice := if sliceOnly then fillDefaults rangeSlice else rangeSlice in
      slice_components input fillDefaults sliceOnly (S n) components rangeSlice
  end.

Definition parse_slice (input : text) (fillDefaults : Slice -> Slice) (slice : text) : outcome Slice :=
  let slice := slice ++ txt ":" in
  let sliceComponents := splitString slice ":"%char in
  _ ← PMACC_VERIFY_MSG (negb (length sliceComponents =? 0)%nat)
        ("time slice without a defined element is not allowed" +:+ str input);
  slice_components input fillDefaults (length sliceComponents =? 1)%nat 0 sliceComponents Slice_default.

Fixpoint toSlice_loop (input : text) (fillDefaults : Slice -> Slice) (seqOfSlices : list text) (result : list Slice)
    : outcome (list Slice) :=
  match seqOfSlices with
  | [] => Ret result
  | slice :: rest =>
      if decide (slice = []) then toSlice_loop input fillDefaults rest result else
      s ← parse_slice input fillDefaults slice;
      toSlice_loop input fillDefaults rest (result ++ [s])
  end.

Definition toSlice (input : text) (fillDefaults : Slice -> Slice) : outcome (list Slice) :=
  toSlice_loop input fillDefaults (splitString input ","%char) [].

Definition timeDefaults (s : Slice) : Slice := [0; 2 ^ 32 - 1; s !!! 0%nat].
Definition rangeDefaults (s : Slice) : Slice := [s !!! 0%nat; u32 (s !!! 0%nat + 1); 1].
Definition toTimeSlice (input : text) : outcome (list Slice) := toSlice input timeDefaults.
Definition toRangeSlice (input : text) : outcome (list Slice) := toSlice input rangeDefaults.

(** [containsStep]; the remainder of a division by a zero period is undefined. *)
Fixpoint containsStep (seqTimeSlices : list Slice) (timeStep : Z) : outcome bool :=
  match seqTimeSlices with
  | [] => Ret false
  | timeSlice :: rest =>
      if (timeSlice !!! 0%nat <=? timeStep) && (timeStep <=? timeSlice !!! 1%nat) then
        let timeRelativeToStart := u32 (timeStep - timeSlice !!! 0%nat) in
        if timeSlice !!! 2%nat =? 0 then Undefined
        else if timeRelativeToStart mod (timeSlice !!! 2%nat) =? 0 then Ret true else containsStep rest timeStep
      else containsStep rest timeStep
  end.

Example slice_example : toTimeSlice (txt "5,10:20:3,:100,::") =
  Ret [[0; 2 ^ 32 - 1; 5]; [10; 20; 3]; [0; 100; 1]; [0; 2 ^ 32 - 1; 1]].
Proof. vm_compute. reflexivity. Qed.
Example slice_lone_zero : toTimeSlice (txt "0") = Ret [[0; 2 ^ 32 - 1; 0]].
Proof. vm_compute. reflexivity. Qed.
Example slice_zero_period : toTimeSlice (txt "0:5:0") = Abort "Zero is not a valid period".
Proof. vm_compute. reflexivity. Qed.

(** ** Splitting inverts joining *)

Fixpoint join (d : ascii) (ps : list text) : text :=
  match ps with
  | [] => []
  | [p] => p
  | p :: ps => p ++ d :: join d ps
  end.

Lemma split_at_none d s : d ∉ s -> split_at d s = ([], s).
Proof.
  induction s as [|c s IH]; [done|]. rewrite not_elem_of_cons. intros [Hc Hs]. cbn [split_at].
  rewrite IH by done. by rewrite decide_False by congruence.
Qed.

Lemma split_at_app d p s : d ∉ p -> split_at d (p ++ d :: s) = (p :: (split_at d s).1, (split_at d s).2).
Proof.
  induction p as [|c p IH]; intros Hp; cbn [split_at app].
  - destruct (split_at d s). by rewrite decide_True.
  - apply not_elem_of_cons in Hp as [Hc Hp]. rewrite IH by done. by rewrite decide_False by congruence.
Qed.

Lemma split_at_join d ps q : Forall (fun p => d ∉ p) (ps ++ [q]) -> split_at d (join d (ps ++ [q])) = (ps, q).
Proof.
  induction ps as [|p ps IH]; simpl; intros Hf.
  - apply split_at_none. by apply Forall_cons_iff in Hf as [? _].
  - apply Forall_cons_iff in Hf as [Hp Hf]. destruct (ps ++ [q]) as [|p' ps'] eqn:E; [by destruct ps|].
    rewrite split_at_app by done. by rewrite IH.
Qed.

Lemma splitString_join d ps q : Forall (fun p => d ∉ p) (ps ++ [q]) -> q <> [] ->
  splitString (join d (ps ++ [q])) d = ps ++ [q].
Proof. intros Hf Hq. unfold splitString. rewrite split_at_join by done. by destruct ps, q. Qed.

(** A text that ends with its separator. *)
Lemma split_at_end d ps : ps <> [] -> Forall (fun p => d ∉ p) ps -> split_at d (join d ps ++ [d]) = (ps, []).
Proof.
  induction ps as [|p ps IH]; [done|]. intros _ Hf. apply Forall_cons_iff in Hf as [Hp Hf]. destruct ps as [|p' ps].
  - simpl. by rewrite split_at_app.
  - change (join d (p :: p' :: ps)) with (p ++ d :: join d (p' :: ps)). rewrite <- app_assoc.
    change ((d :: join d (p' :: ps)) ++ [d]) with (d :: join d (p' :: ps) ++ [d]). rewrite split_at_app by done. by rewrite IH.
Qed.

Lemma splitString_end d ps : ps <> [] -> Forall (fun p => d ∉ p) ps -> splitString (join d ps ++ [d]) d = ps.
Proof. intros Hps Hf. unfold splitString. rewrite split_at_end by done. by destruct ps. Qed.

(** ** Printing and reading numbers *)

Lemma digit_char_spec d : 0 <= d < 10 -> isdigit (digit_char d) = true /\ digit_value (digit_char d) = d.
Proof.
  intros Hd. unfold isdigit, digit_value, digit_char. rewrite nat_ascii_embedding by lia.
  rewrite Z2Nat.id by lia. split; [|lia]. apply andb_true_intro. split; apply Z.leb_le; lia.
Qed.

Lemma digits_value_snoc ds c : digits_value (ds ++ [c]) = 10 * digits_value ds + digit_value c.
Proof. unfold digits_value. by rewrite foldl_app. Qed.

Lemma is_number_app a b : is_number (a ++ b) = is_number a && is_number b.
Proof. apply forallb_app. Qed.

Lemma to_string_fuel_spec f n : 0 <= n < 2 ^ Z.of_nat f -> (0 < f)%nat ->
  to_string_fuel f n <> [] /\ is_number (to_string_fuel f n) = true /\ digits_value (to_string_fuel f n) = n.
Proof.
  revert n. induction f as [|f IH]; intros n Hn Hf; [lia|]. cbn [to_string_fuel]. destruct (Z.ltb_spec n 10) as [Hlt|Hge].
  - destruct (digit_char_spec n ltac:(lia)) as [Hd Hv]. split; [done|]. simpl. unfold digits_value. simpl. rewrite Hd, Hv. by split; [|lia].
  - destruct (digit_char_spec (n mod 10)) as [Hd Hv]; [by apply Z.mod_pos_bound|].
    destruct (IH (n / 10)) as (_ & Hnum & Hval).
    + split; [apply Z.div_pos; lia|]. apply Z.div_lt_upper_bound; [lia|]. rewrite Nat2Z.inj_succ, Z.pow_succ_r in Hn by lia.
      pose proof (Z.pow_pos_nonneg 2 (Z.of_nat f)). lia.
    + destruct f; [|lia]. simpl in Hn. lia.
    + split; [by destruct (to_string_fuel f (n / 10))|]. rewrite is_number_app, Hnum. simpl. rewrite Hd.
      split; [done|]. rewrite digits_value_snoc, Hval, Hv. pose proof (Z.div_mod n 10). lia.
Qed.

Lemma to_string_spec n : 0 <= n -> to_string n <> [] /\ is_number (to_string n) = true /\ digits_value (to_string n) = n.
Proof.
  intros Hn. apply to_string_fuel_spec; [|lia]. split; [done|]. pose proof (Z.log2_nonneg n).
  rewrite Nat2Z.inj_succ, Z2Nat.id by lia. destruct (Z.eq_dec n 0) as [->|]; [done|]. apply Z.log2_spec. lia.
Qed.

Lemma isdigit_not c : isdigit c = true -> isspace c = false /\ c <> "-"%char /\ c <> "+"%char /\ c <> ":"%char /\ c <> ","%char.
Proof.
  unfold isdigit, isspace. intros Hc%andb_true_iff. destruct Hc as [H1%Z.leb_le H2%Z.leb_le].
  split_and!; [|intros ->; first [by destruct H1|by destruct H2]..].
  apply orb_false_iff. split; [apply Nat.eqb_neq; lia|apply andb_false_iff; right; apply Nat.leb_gt; lia].
Qed.

Lemma is_number_no d s : is_number s = true -> isdigit d = false -> d ∉ s.
Proof.
  intros Hs Hd Hin. apply list_elem_of_In in Hin. unfold is_number in Hs. rewrite forallb_forall in Hs.
  apply Hs in Hin. congruence.
Qed.

Lemma take_while_all f s : forallb f s = true -> take_while f s = s.
Proof. induction s as [|c s IH]; [done|]. simpl. intros [-> ?]%andb_true_iff. by rewrite IH. Qed.

Lemma stoul_number s : is_number s = true -> s <> [] ->
  stoul s = if 2 ^ 64 <=? digits_value s then Throw out_of_range "stoul" else Ret (digits_value s).
Proof.
  intros Hn Hs. unfold stoul. destruct s as [|c s]; [done|]. pose proof Hn as Hn'. cbn [is_number forallb] in Hn'.
  apply andb_true_iff in Hn' as [Hc Hrest]. destruct (isdigit_not c Hc) as (Hsp & Hm & Hp & _).
  cbn [drop_while]. rewrite Hsp, !decide_False by done. unfold is_number in Hn. rewrite take_while_all by done. done.
Qed.

Lemma stoul_minus_one : stoul (txt "-1") = Ret (2 ^ 64 - 1).
Proof. by vm_compute. Qed.

(** ** Slices read back what they print *)

Definition slice_ok (s : Slice) : Prop :=
  exists b e p, s = [b; e; p] /\ 0 <= b < 2 ^ 32 /\ 0 <= e < 2 ^ 32 /\ 0 < p < 2 ^ 32.

Lemma component_value input f (n : nat) v (s : Slice) rest : 0 <= v < 2 ^ 32 -> (n = 2%nat -> v <> 0) -> (n < 3)%nat ->
  length s = 3%nat ->
  slice_components input f false n (to_string v :: rest) s =
  slice_components input f false (S n) rest (<[n := v]> s).
Proof.
  intros Hv H2 Hn Hl. destruct (to_string_spec v ltac:(lia)) as (Hne & Hnum & Hval). cbn [slice_components].
  rewrite (proj2 (Nat.eqb_neq n 3)) by lia. rewrite Hnum, orb_true_r. cbn [orb PMACC_VERIFY_MSG mbind outcome_bind].
  unfold setValue. rewrite stoul_number, Hval by done. rewrite (proj2 (Z.leb_gt _ v)) by lia.
  destruct (to_string v) eqn:E; [done|]. cbn [mbind outcome_bind]. rewrite u32_small by lia.
  replace (negb _) with true.
  2:{ symmetry. apply negb_true_iff, andb_false_iff. destruct (Nat.eqb_spec n 2); [right|by left]. apply Z.eqb_neq. auto. }
  cbn [PMACC_VERIFY_MSG mbind outcome_bind]. unfold at_write. by rewrite Hl, (proj2 (Nat.ltb_lt n 3)).
Qed.

Lemma toString_no d s : isdigit d = false -> d <> ":"%char -> slice_ok s -> d ∉ Slice_toString s.
Proof.
  intros Hd Hc (b & e & p & -> & Hb & He & Hp). unfold Slice_toString. simpl.
  destruct (to_string_spec b ltac:(lia)) as (_ & Nb & _), (to_string_spec e ltac:(lia)) as (_ & Ne & _),
    (to_string_spec p ltac:(lia)) as (_ & Np & _).
  pose proof (is_number_no _ _ Nb Hd). pose proof (is_number_no _ _ Ne Hd). pose proof (is_number_no _ _ Np Hd).
  rewrite !elem_of_app, !elem_of_cons, !elem_of_app, !elem_of_cons. tauto.
Qed.

Lemma parse_toString input f s : slice_ok s -> parse_slice input f (Slice_toString s) = Ret s.
Proof.
  intros Hs. destruct Hs as (b & e & p & -> & Hb & He & Hp).
  destruct (to_string_spec b ltac:(lia)) as (_ & Nb & _), (to_string_spec e ltac:(lia)) as (_ & Ne & _),
    (to_string_spec p ltac:(lia)) as (_ & Np & _).
  unfold parse_slice. assert (Hsp : splitString (Slice_toString [b; e; p] ++ txt ":") ":"%char = [to_string b; to_string e; to_string p]).
  { rewrite <- (splitString_end ":"%char [to_string b; to_string e; to_string p]); [done|done|].
    repeat (apply Forall_cons; split); [by eapply is_number_no..|done]. }
  rewrite Hsp. cbn [length Nat.eqb negb PMACC_VERIFY_MSG mbind outcome_bind].
  rewrite (component_value input f 0) by (lia || done). rewrite (component_value input f 1) by (lia || done).
  by rewrite (component_value input f 2) by (lia || done).
Qed.

Lemma toString_nonempty s : Slice_toString s <> [].
Proof. unfold Slice_toString. by destruct (to_string (s !!! 0%nat)). Qed.

Lemma toSlice_loop_print input f ss acc : Forall slice_ok ss ->
  toSlice_loop input f (map Slice_toString ss) acc = Ret (acc ++ ss).
Proof.
  revert acc. induction ss as [|s ss IH]; intros acc Hss; [by rewrite app_nil_r|].
  apply Forall_cons_iff in Hss as [Hs Hss]. cbn [map toSlice_loop]. rewrite decide_False by apply toString_nonempty.
  rewrite parse_toString by done. cbn [mbind outcome_bind]. rewrite IH by done. by rewrite <- app_assoc.
Qed.

Lemma toSlice_print f ss : Forall slice_ok ss -> toSlice (join ","%char (map Slice_toString ss)) f = Ret ss.
Proof.
  intros Hss. unfold toSlice. destruct ss as [|s ss' _] using rev_ind; [done|].
  assert (Hno : Forall (fun p => ","%char ∉ p) (map Slice_toString (ss' ++ [s]))).
  { apply Forall_map. eapply List.Forall_impl; [|exact Hss]. intros x Hx. simpl. by apply toString_no. }
  set (input := join _ _). transitivity (toSlice_loop input f (map Slice_toString (ss' ++ [s])) []).
  - unfold input. rewrite map_app in Hno |- *. cbn [map] in Hno |- *. by rewrite splitString_join by (done || apply toString_nonempty).
  - by rewrite toSlice_loop_print.
Qed.

(** Printing slices in the period syntax and parsing the text gives the slices back, for all
    32-bit begin and end steps and all periods but zero, under either reading of lone numbers. *)
Theorem slices_roundtrip ss :
  Forall slice_ok ss ->
  toTimeSlice (join ","%char (map Slice_toString ss)) = Ret ss /\
  toRangeSlice (join ","%char (map Slice_toString ss)) = Ret ss.
Proof. intros Hss. split; by apply toSlice_print. Qed.

Lemma slices_roundtrip_witness : toTimeSlice (txt "3:4294967295:7,0:12:1") = Ret [[3; 2 ^ 32 - 1; 7]; [0; 12; 1]].
Proof.
  apply (slices_roundtrip [[3; 2 ^ 32 - 1; 7]; [0; 12; 1]]). repeat constructor; unfold slice_ok; repeat eexists; done.
Defined.

(** ** Every outcome of the parser *)

(** What the [n]-th component of a slice may be. *)
Definition component_ok (n : nat) (c : text) : bool :=
  bool_decide (c = []) ||
  (is_number c && (digits_value c <? 2 ^ 64) && negb ((n =? 2)%nat && (u32 (digits_value c) =? 0))) ||
  ((n =? 1)%nat && bool_decide (c = txt "-1")).

Definition component_write (n : nat) (c : text) (s : Slice) : Slice :=
  if decide (c = []) then s
  else if decide (c = txt "-1") then <[n := 2 ^ 32 - 1]> s
  else <[n := u32 (digits_value c)]> s.

Definition components_of (slice : text) : list text := splitString (slice ++ txt ":") ":"%char.
Fixpoint components_ok (n : nat) (cs : list text) : bool :=
  match cs with
  | c :: cs => if (n =? 3)%nat then true else component_ok n c && components_ok (S n) cs
  | [] => true
  end.
Definition slice_accepted (slice : text) : bool := components_ok 0 (components_of slice).

Fixpoint write_components (n : nat) (cs : list text) (s : Slice) : Slice :=
  match cs with
  | c :: cs => if (n =? 3)%nat then s else write_components (S n) cs (component_write n c s)
  | [] => s
  end.
Definition slice_of (fillDefaults : Slice -> Slice) (slice : text) : Slice :=
  let s := write_components 0 (components_of slice) Slice_default in
  if (length (components_of slice) =? 1)%nat then fillDefaults s else s.

(** The outcomes of a rejected text. *)
Definition rejected {A} (r : outcome A) : Prop := (exists w, r = Abort w) \/ (exists w, r = Throw out_of_range w).

Lemma rejected_bind {A B} (r : outcome A) (f : A -> outcome B) : rejected r -> rejected (r ≫= f).
Proof. intros [[w ->]|[w ->]]; [left|right]; by exists w. Qed.

(** Checking and writing one component. *)
Definition component_step (input : text) (n : nat) (c : text) (s : Slice) : outcome Slice :=
  _ ← PMACC_VERIFY_MSG
        (bool_decide (c = []) || is_number c || ((n =? 1)%nat && bool_decide (c = txt "-1")))
        ("value" +:+ str c +:+ " in " +:+ str input +:+ "is not a number");
  setValue n c s.

Lemma slice_components_cons input f only n c cs s : (n < 3)%nat ->
  slice_components input f only n (c :: cs) s =
  (component_step input n c s ≫= fun s => slice_components input f only (S n) cs (if only then f s else s)).
Proof.
  intros Hn. cbn [slice_components]. rewrite (proj2 (Nat.eqb_neq n 3)) by lia. unfold component_step.
  destruct (PMACC_VERIFY_MSG _ _); [|done..]. by destruct (setValue n c s).
Qed.

Lemma setValue_value n c s v : length s = 3%nat -> (n < 3)%nat -> c <> [] -> stoul c = Ret v ->
  setValue n c s = if (n =? 2)%nat && (u32 v =? 0) then Abort "Zero is not a valid period" else Ret (<[n := u32 v]> s).
Proof.
  intros Hl Hn Hc Hv. unfold setValue. destruct c as [|a c]; [done|]. rewrite Hv. cbn [mbind outcome_bind].
  destruct ((n =? 2)%nat && (u32 v =? 0)); [done|]. cbn [negb PMACC_VERIFY_MSG mbind outcome_bind].
  unfold at_write. by rewrite Hl, (proj2 (Nat.ltb_lt n 3)).
Qed.

(** The value of an accepted text, and a rejection otherwise. *)
Definition accepts {A} (ok : bool) (r : outcome A) (a : A) : Prop := if ok then r = Ret a else rejected r.

Lemma accepts_bind {A B} ok1 ok2 (r : outcome A) (f : A -> outcome B) a b :
  accepts ok1 r a -> accepts ok2 (f a) b -> accepts (ok1 && ok2) (r ≫= f) b.
Proof. destruct ok1; simpl; [by intros ->|]. intros Hr _. by apply rejected_bind. Qed.

Lemma component_step_spec input n c s : length s = 3%nat -> (n < 3)%nat ->
  accepts (component_ok n c) (component_step input n c s) (component_write n c s).
Proof.
  intros Hl Hn. unfold component_step, component_write, component_ok. destruct (decide (c = [])) as [->|Hc]; [done|].
  rewrite (bool_decide_eq_false_2 (c = [])) by done. cbn [orb].
  destruct (decide (c = txt "-1")) as [->|Hm].
  { cbn -[setValue]. destruct (Nat.eqb_spec n 1) as [->|Hn1]; [|left; by eexists].
    cbn -[setValue]. by rewrite (setValue_value _ _ _ (2 ^ 64 - 1)) by (done || apply stoul_minus_one). }
  rewrite (bool_decide_eq_false_2 (c = txt "-1")), andb_false_r, !orb_false_r by done.
  destruct (is_number c) eqn:Hnum; [|left; by eexists].
  cbn [PMACC_VERIFY_MSG mbind outcome_bind andb]. pose proof (stoul_number c Hnum Hc) as Hs.
  destruct (Z.leb_spec (2 ^ 64) (digits_value c)) as [Hbig|Hsmall].
  { rewrite (proj2 (Z.ltb_ge _ _)) by done. right. exists "stoul"%string. unfold setValue. destruct c; [done|]. by rewrite Hs. }
  rewrite (proj2 (Z.ltb_lt _ _)) by done. rewrite (setValue_value _ _ _ _ Hl Hn Hc Hs). cbn [andb].
  destruct ((n =? 2)%nat && (u32 (digits_value c) =? 0)); [left; by eexists|done].
Qed.

Lemma component_write_length n c s : length (component_write n c s) = length s.
Proof.
  unfold component_write. destruct (decide (c = [])); [done|]. destruct (decide (c = txt "-1")); apply length_insert.
Qed.

Lemma slice_components_multi input f cs : forall n s, length s = 3%nat -> (n <= 3)%nat ->
  accepts (components_ok n cs) (slice_components input f false n cs s) (write_components n cs s).
Proof.
  induction cs as [|c cs IH]; intros n s Hl Hn; [done|]. destruct (decide (n = 3%nat)) as [->|Hn3]; [done|].
  rewrite slice_components_cons by lia. cbn [components_ok write_components]. rewrite (proj2 (Nat.eqb_neq n 3)) by lia.
  eapply accepts_bind; [by apply component_step_spec; [|lia]|]. apply IH; [by rewrite component_write_length|lia].
Qed.

Lemma parse_slice_spec input f slice :
  accepts (slice_accepted slice) (parse_slice input f slice) (slice_of f slice).
Proof.
  unfold parse_slice, slice_of, slice_accepted. fold (components_of slice).
  assert (Hne : components_of slice <> []).
  { unfold components_of, splitString. destruct (split_at _ _) as [[|p pre] [|a suf]]; try done. }
  destruct (components_of slice) as [|c cs] eqn:E; [done|]. cbn [length Nat.eqb negb PMACC_VERIFY_MSG mbind outcome_bind].
  destruct cs as [|c' cs]; cbn [length Nat.eqb].
  - rewrite slice_components_cons by lia. cbn [components_ok Nat.eqb write_components].
    eapply accepts_bind; [by apply component_step_spec; [|lia]|done].
  - by apply (slice_components_multi input f (c :: c' :: cs) 0 Slice_default); [|lia].
Qed.

Lemma toSlice_loop_spec input f pieces acc :
  let wanted := filter (fun p => p <> []) pieces in
  accepts (forallb slice_accepted wanted) (toSlice_loop input f pieces acc) (acc ++ map (slice_of f) wanted).
Proof.
  revert acc. induction pieces as [|p pieces IH]; intros acc; cbn [toSlice_loop]; [by rewrite app_nil_r|].
  destruct (decide (p = [])) as [->|Hp].
  { rewrite filter_cons_False by (intros Hn; by apply Hn). apply IH. }
  rewrite filter_cons_True by done. cbn [forallb map]. eapply accepts_bind; [apply parse_slice_spec|].
  specialize (IH (acc ++ [slice_of f p])). cbv zeta in IH. by rewrite <- app_assoc in IH.
Qed.

(** The period parser accepts a text exactly when each of its non-empty, comma-separated slices has
    for its first three components nothing, a number below [2^64], or [-1] as the end, with no
    period that is zero as a 32-bit number; it then returns the slices these components
    describe, and otherwise it ends the process with a message or throws std::out_of_range; it has no
    other outcome. *)
Theorem slice_parser_outcomes input f :
  let slices := filter (fun p => p <> []) (splitString input ","%char) in
  if forallb slice_accepted slices then toSlice input f = Ret (map (slice_of f) slices)
  else (exists w, toSlice input f = Abort w) \/ (exists w, toSlice input f = Throw out_of_range w).
Proof. apply (toSlice_loop_spec input f (splitString input ","%char) []). Qed.

(** ** Time steps *)

(** The steps a slice selects. *)
Definition selects (t : Z) (s : Slice) : bool :=
  (s !!! 0%nat <=? t) && (t <=? s !!! 1%nat) && ((t - s !!! 0%nat) mod (s !!! 2%nat) =? 0).

Lemma containsStep_spec ss t : 0 <= t < 2 ^ 32 -> Forall (fun s => 0 <= s !!! 0%nat /\ s !!! 2%nat <> 0) ss ->
  containsStep ss t = Ret (existsb (selects t) ss).
Proof.
  intros Ht Hss. induction ss as [|s ss IH]; [done|]. apply Forall_cons_iff in Hss as [[Hb Hp] Hss].
  cbn [containsStep existsb]. unfold selects at 1. rewrite IH by done.
  destruct (Z.leb_spec (s !!! 0%nat) t); [|done]. destruct (t <=? s !!! 1%nat); [|done]. cbn [andb].
  rewrite (proj2 (Z.eqb_neq _ _) Hp), u32_small by lia. by destruct (_ mod _ =? 0).
Qed.

(** A lone number that is zero as a period. *)
Definition lone_zero (slice : text) : bool :=
  match components_of slice with
  | [c] => u32 (digits_value c) =? 0
  | _ => false
  end.

Lemma insert_length_3 (s : Slice) n v : length (<[n := v]> s : Slice) = length s.
Proof. apply length_insert. Qed.

Lemma write_components_period cs : forall n s, length s = 3%nat -> (n <= 3)%nat -> components_ok n cs = true ->
  Forall (fun v => 0 <= v < 2 ^ 32) s -> s !!! 2%nat <> 0 ->
  length (write_components n cs s) = 3%nat /\ Forall (fun v => 0 <= v < 2 ^ 32) (write_components n cs s) /\
  write_components n cs s !!! 2%nat <> 0.
Proof.
  induction cs as [|c cs IH]; intros n s Hl Hn Hok Hf Hp; [done|]. cbn [write_components components_ok] in *.
  destruct (Nat.eqb_spec n 3) as [->|Hn3]; [done|]. apply andb_true_iff in Hok as [Hc Hok].
  unfold component_write, component_ok in *. destruct (decide (c = [])) as [->|Hne]; [apply IH; done || lia|].
  rewrite (bool_decide_eq_false_2 (c = [])) in Hc by done. cbn [orb] in Hc.
  destruct (decide (c = txt "-1")) as [->|Hm].
  - destruct (Nat.eqb_spec n 1) as [->|]; [|by vm_compute in Hc].
    apply IH; [by rewrite insert_length_3|lia|done|by apply Forall_insert|by rewrite (list_lookup_total_insert_ne (A := Z))].
  - rewrite bool_decide_eq_false_2, andb_false_r, orb_false_r in Hc by done. apply andb_true_iff in Hc as [_ Hc].
    apply negb_true_iff, andb_false_iff in Hc.
    apply IH; [by rewrite insert_length_3|lia|done|apply Forall_insert; [done|apply u32_bounds]|].
    destruct (decide (n = 2%nat)) as [->|]; [|by rewrite (list_lookup_total_insert_ne (A := Z))].
    rewrite (list_lookup_total_insert_eq (A := Z)) by lia. destruct Hc as [Hc|Hc]; [done|]. by apply Z.eqb_neq in Hc.
Qed.

(** On slices that the period parser returned, [containsStep] is defined and true exactly at the
    steps [begin + k * period] up to [end] of some slice, unless one of the slices is a lone number
    that is zero as a 32-bit number: the check for a zero period does not see it, and the test then divides by zero. *)
Theorem time_slices_select input ss t :
  toTimeSlice input = Ret ss -> 0 <= t < 2 ^ 32 ->
  let slices := filter (fun p => p <> []) (splitString input ","%char) in
  (existsb lone_zero slices = false -> containsStep ss t = Ret (existsb (selects t) ss)) /\
  (forall rest, slices = txt "0" :: rest -> containsStep ss t = Undefined).
Proof.
  intros Hss Ht. cbv zeta. set (slices := filter _ _).
  pose proof (toSlice_loop_spec input timeDefaults (splitString input ","%char) []) as Hspec.
  fold slices in Hspec. cbv zeta in Hspec. fold (toSlice input timeDefaults) (toTimeSlice input) in Hspec.
  rewrite Hss in Hspec. destruct (forallb slice_accepted slices) eqn:Hacc; [|by destruct Hspec as [[? ?]|[? ?]]].
  injection Hspec as ->. split.
  - intros Hz. apply containsStep_spec; [done|]. apply Forall_map. apply list.Forall_forall. intros p Hp. simpl.
    rewrite forallb_forall in Hacc. apply list_elem_of_In in Hp. pose proof (Hacc p Hp) as Ha.
    assert (Hlz : lone_zero p = false).
    { destruct (lone_zero p) eqn:El; [|done]. rewrite <- not_true_iff_false, existsb_exists in Hz. destruct Hz. by exists p. }
    unfold slice_accepted, slice_of, lone_zero in *.
    destruct (write_components_period (components_of p) 0 Slice_default) as (Hl & Hf & Hper);
      [done|lia|done|repeat constructor; done|done|].
    destruct (components_of p) as [|c [|c' cs]]; cbn [length Nat.eqb]; try (split; [|done];
      eapply (Forall_lookup_total_1 _ _ 0%nat) in Hf; [apply Hf|lia]).
    clear Hl Hf Hper. cbn [write_components Nat.eqb timeDefaults]. split; [done|]. unfold timeDefaults, component_write.
    simpl. cbn [components_ok Nat.eqb] in Ha. apply andb_true_iff in Ha as [Ha _]. apply Z.eqb_neq in Hlz.
    destruct (decide (c = [])) as [->|]; [done|]. destruct (decide (c = ["-"%char; "1"%char])) as [->|]; [by vm_compute in Ha|done].
  - intros rest ->. cbn [map app containsStep]. replace (slice_of timeDefaults (txt "0")) with [0; 2 ^ 32 - 1; 0] by (by vm_compute).
    cbn [lookup_total list_lookup_total]. simpl (_ !!! _). rewrite (proj2 (Z.leb_le 0 t)), (proj2 (Z.leb_le t (2 ^ 32 - 1))) by lia. done.
Qed.

Lemma time_slices_select_witness :
  containsStep [[10; 20; 3]] 16 = Ret true /\ containsStep [[0; 2 ^ 32 - 1; 0]] 5 = Undefined.
Proof.
  split.
  - destruct (time_slices_select (txt "10:20:3") [[10; 20; 3]] 16) as [H _]; [by vm_compute|done|].
    rewrite H by (by vm_compute). by vm_compute.
  - destruct (time_slices_select (txt "0") [[0; 2 ^ 32 - 1; 0]] 5) as [_ H]; [by vm_compute|done|].
    apply (H []). by vm_compute.
Defined.
