(* ===== verification/Plugins.v ===== *)
(** * Plugins

    Models pmacc/pluginSystem/INotify.hpp, IPlugin.hpp and PluginConnector.{hpp,cpp}: the
    list of registered plugins, their loading and unloading, and their notification at
    the steps of a period.  Plugins are addresses (null is 0) of objects in a store; their
    virtual functions are parameters that act on the rest of the program and may ask the
    connector for notifications while they load. *)
From Stdlib Require Import ZArith Lia.
From stdpp Require Import base sets list numbers strings gmap.
From S2P Require Import Prelude Outcome TimeSlice.
Local Open Scope Z_scope.

(** The members of [INotify] and [IPlugin]. *)
Record IPlugin : Type := mkPlugin {
  loaded : bool;
  lastCheckpoint : Z;
  lastNotify : Z
}.
Definition set_loaded (b : bool) (p : IPlugin) : IPlugin := mkPlugin b (lastCheckpoint p) (lastNotify p).
Definition set_lastCheckpoint (s : Z) (p : IPlugin) : IPlugin := mkPlugin (loaded p) s (lastNotify p).
Definition set_lastNotify (s : Z) (p : IPlugin) : IPlugin := mkPlugin (loaded p) (lastCheckpoint p) s.

Record PluginConnector : Type := mkConnector {
  plugins : list Z;
  notificationList : list (Z * list Slice)
}.

Section plugins.
Context {W : Type}.

Record World : Type := mkWorld {
  connector : PluginConnector;
  objects : gmap Z IPlugin;
  rest : W
}.

Definition set_connector (c : PluginConnector) (w : World) : World := mkWorld c (objects w) (rest w).
Definition set_objects (o : gmap Z IPlugin) (w : World) : World := mkWorld (connector w) o (rest w).
Definition set_rest (r : W) (w : World) : World := mkWorld (connector w) (objects w) r.

(** The virtual functions.  [pluginLoad] also returns the notification periods it asked
    for through [setNotificationPeriod]. *)
Record Hooks : Type := mkHooks {
  pluginLoad : Z -> W -> outcome unit * (W * list (Z * text));
  pluginUnload : Z -> W -> outcome unit * W;
  notify : Z -> Z -> W -> outcome unit * W;
  checkpoint : Z -> Z -> text -> W -> outcome unit * W;
  restart : Z -> Z -> text -> W -> outcome unit * W
}.
Context (hooks : Hooks).

(** Runs a virtual function on the rest of the program. *)
Definition on_rest (f : W -> outcome unit * W) : Host World unit := fun w =>
  let '(r, x) := f (rest w) in (r, set_rest x w).

(** A member access through a pointer. *)
Definition deref (p : Z) : Host World IPlugin := fun w =>
  match objects w !! p with Some o => (Ret o, w) | None => (Undefined, w) end.
Definition update (p : Z) (f : IPlugin -> IPlugin) : Host World unit :=
  o ← deref p; modify (fun w => set_objects (<[p := f o]> (objects w)) w).

(** [setNotificationPeriod]. *)
Definition setNotificationPeriod (notifiedObj : Z) (period : text) : Host World unit :=
  if notifiedObj =? 0 then throw PluginException "Notifications for a nullptr object are not allowed."
  else match period with
  | [] => mret tt
  | _ =>
      seqTimeSlices ← lift (toTimeSlice period);
      modify (fun w => set_connector (mkConnector (plugins (connector w))
        (notificationList (connector w) ++ [(notifiedObj, seqTimeSlices)])) w)
  end.

(** [IPlugin::load]: the hook, its requests, then the flag. *)
Definition load (p : Z) : Host World unit :=
  requests ← (fun w => let '(r, (x, requests)) := pluginLoad hooks p (rest w) in
                       (r ≫= fun _ => Ret requests, set_rest x w));
  _ ← for_ requests (fun '(obj, period) => setNotificationPeriod obj period);
  update p (set_loaded true).

Definition unload (p : Z) : Host World unit :=
  _ ← on_rest (pluginUnload hooks p);
  update p (set_loaded false).

Definition registerPlugin (plugin : Z) : Host World unit :=
  if negb (plugin =? 0)
  then modify (fun w => set_connector (mkConnector (plugins (connector w) ++ [plugin]) (notificationList (connector w))) w)
  else throw PluginException "Registering nullptr as a plugin is not allowed.".

Definition loadPlugins : Host World unit :=
  w ← get_state;
  for_ (plugins (connector w)) (fun iter =>
    o ← deref iter; if negb (loaded o) then load iter else mret tt).

Definition unloadPlugins : Host World unit :=
  w ← get_state;
  _ ← for_ (rev (plugins (connector w))) (fun iter =>
        o ← deref iter; if loaded o then unload iter else mret tt);
  modify (fun w => set_connector (mkConnector [] (notificationList (connector w))) w).

Definition notifyPlugins (currentStep : Z) : Host World unit :=
  w ← get_state;
  for_ (notificationList (connector w)) (fun '(notifiedObj, seqTimeSlices) =>
    due ← lift (containsStep seqTimeSlices currentStep);
    if due : bool then
      _ ← on_rest (notify hooks notifiedObj currentStep);
      update notifiedObj (set_lastNotify currentStep)
    else mret tt).

Definition checkpointPlugins (currentStep : Z) (checkpointDirectory : text) : Host World unit :=
  w ← get_state;
  for_ (plugins (connector w)) (fun iter =>
    _ ← on_rest (checkpoint hooks iter currentStep checkpointDirectory);
    update iter (set_lastCheckpoint currentStep)).

Definition restartPlugins (restartStep : Z) (restartDirectory : text) : Host World unit :=
  w ← get_state;
  for_ (plugins (connector w)) (fun iter => on_rest (restart hooks iter restartStep restartDirectory)).

Definition getAllPlugins : Host World (list Z) := w ← get_state; mret (plugins (connector w)).
End plugins.

Arguments World : clear implicits.
Arguments Hooks : clear implicits.

(** ** What is relied on from the virtual functions *)

(** They return, acting on the rest of the program as the given functions; the periods asked
    for at load time parse. *)
Class HooksLaws {W} (hooks : Hooks W) : Type := {
  on_load : Z -> W -> W;
  on_unload : Z -> W -> W;
  on_notify : Z -> Z -> W -> W;
  requests : Z -> list (Z * text);
  request_slices : Z -> list (Z * list Slice);
  pluginLoad_returns p w : pluginLoad hooks p w = (Ret tt, (on_load p w, requests p));
  pluginUnload_returns p w : pluginUnload hooks p w = (Ret tt, on_unload p w);
  notify_returns p t w : notify hooks p t w = (Ret tt, on_notify p t w);
  requests_parse p : Forall2 (fun r s => r.1 <> 0 /\ r.2 <> [] /\ s.1 = r.1 /\ toTimeSlice r.2 = Ret s.2) (requests p) (request_slices p)
}.

Section lifecycle.
Context {W : Type} (hooks : Hooks W) `{!HooksLaws hooks}.

Definition is_loaded (w : World W) (p : Z) : bool := from_option loaded false (objects w !! p).
Definition present (ps : list Z) (w : World W) : Prop := forall p, p ∈ ps -> is_Some (objects w !! p).

(** Loading and unloading one plugin as functions of the state. *)
Definition load_step (p : Z) (w : World W) : World W :=
  if is_loaded w p then w else
  mkWorld (mkConnector (plugins (connector w)) (notificationList (connector w) ++ request_slices p))
    (alter (set_loaded true) p (objects w)) (on_load p (rest w)).
Definition unload_step (p : Z) (w : World W) : World W :=
  if is_loaded w p then mkWorld (connector w) (alter (set_loaded false) p (objects w)) (on_unload p (rest w)) else w.

Lemma present_alter ps f p w c r : present ps w -> present ps (mkWorld c (alter f p (objects w)) r).
Proof. intros Hp q Hq. simpl. rewrite lookup_alter_is_Some. by apply Hp. Qed.

Lemma update_alter p f (w : World W) : is_Some (objects w !! p) ->
  update p f w = (Ret tt, set_objects (alter f p (objects w)) w).
Proof.
  intros [o Ho]. unfold update, deref, mbind, Host_bind, modify. rewrite Ho. do 2 f_equal.
  apply map_eq. intros q. destruct (decide (p = q)) as [<-|Hne].
  - by rewrite lookup_insert_eq, lookup_alter_eq, Ho.
  - by rewrite lookup_insert_ne, lookup_alter_ne.
Qed.

Lemma requests_run rs ss (w : World W) :
  Forall2 (fun r s => r.1 <> 0 /\ r.2 <> [] /\ s.1 = r.1 /\ toTimeSlice r.2 = Ret s.2) rs ss ->
  for_ rs (fun '(obj, period) => setNotificationPeriod obj period) w =
  (Ret tt, set_connector (mkConnector (plugins (connector w)) (notificationList (connector w) ++ ss)) w).
Proof.
  intros Hrs. revert w. induction Hrs as [|[obj period] [obj' sl] rs ss (Hobj & Hper & Eo & Hparse) _ IH]; intros w.
  - destruct w as [[ps ns] o r]. simpl. by rewrite app_nil_r.
  - simpl in *. subst obj'. cbn [for_]. unfold mbind, Host_bind at 1. unfold setNotificationPeriod.
    rewrite (proj2 (Z.eqb_neq obj 0)) by done. destruct period as [|c period]; [done|].
    unfold mbind, Host_bind, lift, modify. rewrite Hparse. rewrite IH. destruct w as [[ps ns] o r]. simpl. by rewrite <- app_assoc.
Qed.

Lemma load_body p (w : World W) : is_Some (objects w !! p) ->
  (o ← deref p; if negb (loaded o) then load hooks p else mret tt) w = (Ret tt, load_step p w).
Proof.
  intros [o Ho]. unfold load_step, is_loaded. rewrite Ho. simpl. unfold mbind, Host_bind at 1, deref at 1. rewrite Ho.
  destruct (loaded o); [done|]. cbn [negb]. unfold load, mbind, Host_bind. rewrite pluginLoad_returns. cbn [outcome_bind].
  rewrite (requests_run _ _ _ (requests_parse p)). rewrite update_alter by by (exists o; destruct w). by destruct w.
Qed.

Lemma unload_body p (w : World W) : is_Some (objects w !! p) ->
  (o ← deref p; if loaded o then unload hooks p else mret tt) w = (Ret tt, unload_step p w).
Proof.
  intros [o Ho]. unfold unload_step, is_loaded. rewrite Ho. simpl. unfold mbind, Host_bind at 1, deref at 1. rewrite Ho.
  destruct (loaded o); [|done]. unfold unload, on_rest, mbind, Host_bind. rewrite pluginUnload_returns.
  rewrite update_alter by by (exists o; destruct w). by destruct w.
Qed.

(** Stepping through a list of distinct plugins. *)
Lemma load_steps ps : forall w : World W, NoDup ps -> present ps w ->
  let w' := foldl (fun w p => load_step p w) w ps in
  let new := filter (fun p => is_loaded w p = false) ps in
  rest w' = foldl (fun r p => on_load p r) (rest w) new /\
  plugins (connector w') = plugins (connector w) /\
  notificationList (connector w') = notificationList (connector w) ++ concat (map request_slices new) /\
  forall p, objects w' !! p = (if decide (p ∈ ps) then set_loaded true else id) <$> objects w !! p.
Proof.
  induction ps as [|p ps IH]; intros w Hnd Hp; cbv zeta.
  { simpl. rewrite app_nil_r. split_and!; try done. intros p. destruct (decide (p ∈ [])) as [[]%elem_of_nil|]. by destruct (objects w !! p). }
  apply NoDup_cons in Hnd as [Hnp Hnd]. cbn [foldl].
  assert (Hp1 : present ps (load_step p w)).
  { unfold load_step. destruct (is_loaded w p); [intros q Hq; apply Hp; by right|]. apply present_alter.
    intros q Hq. apply Hp. by right. }
  assert (Hother : forall q, q <> p -> objects (load_step p w) !! q = objects w !! q).
  { intros q Hq. unfold load_step. destruct (is_loaded w p); [done|]. simpl. by rewrite lookup_alter_ne. }
  assert (Hhere : objects (load_step p w) !! p = set_loaded true <$> objects w !! p).
  { destruct (Hp p ltac:(by left)) as [o Ho]. unfold load_step, is_loaded. rewrite Ho. simpl. destruct (loaded o) eqn:El.
    - rewrite Ho. destruct o as [b c n]. simpl in El. by subst b.
    - simpl. by rewrite lookup_alter_eq, Ho. }
  destruct (IH (load_step p w) Hnd Hp1) as (Hr & Hpl & Hn & Ho).
  assert (Hfil : filter (fun q => is_loaded (load_step p w) q = false) ps = filter (fun q => is_loaded w q = false) ps).
  { apply list_filter_ext_in. intros q Hq. unfold is_loaded. rewrite Hother; [done|]. intros ->. done. }
  rewrite Hfil in Hr, Hn. rewrite Hr, Hpl, Hn, filter_cons.
  split_and!.
  - unfold load_step. destruct (is_loaded w p) eqn:El; [by rewrite decide_False by congruence|by rewrite decide_True].
  - unfold load_step. by destruct (is_loaded w p).
  - unfold load_step. destruct (is_loaded w p) eqn:El; [by rewrite decide_False by congruence|rewrite decide_True by done].
    simpl. by rewrite <- app_assoc.
  - intros q. rewrite Ho. destruct (decide (q = p)) as [->|Hq].
    + rewrite (decide_False (P := p ∈ ps)), (decide_True (P := p ∈ p :: ps)) by (done || by left).
      rewrite Hhere. by destruct (objects w !! p).
    + rewrite Hother by done. destruct (decide (q ∈ ps)) as [Hin|Hin].
      * by rewrite decide_True by (by right).
      * rewrite decide_False; [done|]. by rewrite not_elem_of_cons.
Qed.

Lemma unload_steps ps : forall w : World W, NoDup ps -> (forall p, p ∈ ps -> is_loaded w p = true) ->
  let w' := foldl (fun w p => unload_step p w) w ps in
  rest w' = foldl (fun r p => on_unload p r) (rest w) ps /\ connector w' = connector w /\
  forall p, p ∈ ps -> is_loaded w' p = false.
Proof.
  induction ps as [|p ps IH]; intros w Hnd Hl; cbv zeta.
  { split_and!; try done. by intros p ?%elem_of_nil. }
  apply NoDup_cons in Hnd as [Hnp Hnd]. cbn [foldl].
  assert (E : unload_step p w = mkWorld (connector w) (alter (set_loaded false) p (objects w)) (on_unload p (rest w)))
    by (unfold unload_step; by rewrite (Hl p) by (by left)).
  destruct (IH (unload_step p w) Hnd) as (Hr & Hc & Hun).
  { intros q Hq. rewrite E. unfold is_loaded. simpl. rewrite lookup_alter_ne by (intros ->; done). apply Hl. by right. }
  rewrite Hr, Hc. split_and!; [by rewrite E..|].
  assert (Hkeep : forall qs (v : World W), is_loaded v p = false -> p ∉ qs -> is_loaded (foldl (fun w q => unload_step q w) v qs) p = false).
  { clear. induction qs as [|q qs IH]; intros v Hv Hq; [done|]. apply not_elem_of_cons in Hq as [Hne Hq]. cbn [foldl].
    apply IH; [|done]. unfold unload_step. destruct (is_loaded v q); [|done]. unfold is_loaded. simpl.
    by rewrite lookup_alter_ne. }
  intros q [->|Hq]%elem_of_cons; [|by apply Hun]. apply Hkeep; [|done]. rewrite E. unfold is_loaded. simpl.
  rewrite lookup_alter_eq. by destruct (objects w !! p).
Qed.

(** Plugins that are loaded already are left alone. *)
Lemma load_steps_loaded ps (w : World W) : (forall p, p ∈ ps -> is_loaded w p = true) ->
  foldl (fun w p => load_step p w) w ps = w.
Proof.
  induction ps as [|p ps IH]; intros Hl; [done|]. cbn [foldl].
  assert (E : load_step p w = w) by (unfold load_step; by rewrite (Hl p) by (by left)).
  rewrite E. apply IH. intros q Hq. apply Hl. by right.
Qed.

(** The life of the registered plugins (each registered once): [loadPlugins] loads those
    that are not loaded, once each and in the order of registration, with the notifications they asked
    for; loading again changes nothing; [unloadPlugins] then unloads all of them in reverse order
    and leaves the connector without plugins. *)
Theorem plugin_lifecycle (w : World W) :
  let ps := plugins (connector w) in
  NoDup ps -> present ps w ->
  let new := filter (fun p => is_loaded w p = false) ps in
  exists w1 w2,
    loadPlugins hooks w = (Ret tt, w1) /\ loadPlugins hooks w1 = (Ret tt, w1) /\ unloadPlugins hooks w1 = (Ret tt, w2) /\
    rest w1 = foldl (fun r p => on_load p r) (rest w) new /\
    notificationList (connector w1) = notificationList (connector w) ++ concat (map request_slices new) /\
    (forall p, p ∈ ps -> is_loaded w1 p = true /\ is_loaded w2 p = false) /\
    (forall p, p ∉ ps -> objects w1 !! p = objects w !! p) /\
    rest w2 = foldl (fun r p => on_unload p r) (rest w1) (rev ps) /\ plugins (connector w2) = [].
Proof.
  cbv zeta. set (ps := plugins (connector w)). intros Hnd Hp.
  set (w1 := foldl (fun w p => load_step p w) w ps).
  destruct (load_steps ps w Hnd Hp) as (Hr & Hpl & Hn & Ho). fold w1 in Hr, Hpl, Hn, Ho.
  assert (Hp1 : present ps w1) by (intros p Hin; rewrite Ho; destruct (Hp p Hin) as [o ->]; by eexists).
  assert (Hl1 : forall p, p ∈ ps -> is_loaded w1 p = true).
  { intros p Hin. unfold is_loaded. rewrite Ho, decide_True by done. by destruct (Hp p Hin) as [o ->]. }
  assert (Hload : forall v : World W, plugins (connector v) = ps -> present ps v ->
      loadPlugins hooks v = (Ret tt, foldl (fun w p => load_step p w) v ps)).
  { intros v Hv Hpv. unfold loadPlugins, mbind, Host_bind at 1, get_state. rewrite Hv.
    apply (for_fold (present ps) ps _ load_step v Hpv). intros p u Hin Hu. split; [by apply load_body, Hu|].
    unfold load_step. destruct (is_loaded u p); [done|by apply present_alter]. }
  destruct (unload_steps (rev ps) w1) as (Hr2 & Hc2 & Hl2).
  { by rewrite <- Permutation_rev. } { intros p Hin. apply Hl1. by rewrite <- Permutation_rev in Hin. }
  set (w2 := foldl (fun w p => unload_step p w) w1 (rev ps)) in *.
  exists w1, (set_connector (mkConnector [] (notificationList (connector w2))) w2). split_and!.
  - by apply Hload.
  - rewrite Hload by done. by rewrite load_steps_loaded.
  - unfold unloadPlugins, mbind, Host_bind, get_state. rewrite Hpl.
    destruct (for_fold (present ps) (rev ps) (fun iter => o ← deref iter; if loaded o then unload hooks iter else mret tt)
      unload_step w1 Hp1) as [E _].
    { intros p u Hin Hu. rewrite <- Permutation_rev in Hin. split; [by apply unload_body, Hu|].
      unfold unload_step. destruct (is_loaded u p); [by apply present_alter|done]. }
    unfold mbind, Host_bind in E. fold ps. rewrite E. done.
  - done.
  - done.
  - intros p Hin. split; [by apply Hl1|]. change (is_loaded w2 p = false). apply Hl2. by rewrite <- Permutation_rev.
  - intros p Hin. rewrite Ho, decide_False by done. by destruct (objects w !! p).
  - done.
  - done.
Qed.

(** Notifying one entry as a function of the state. *)
Definition notify_step (t : Z) (e : Z * list Slice) (w : World W) : World W :=
  if existsb (selects t) e.2
  then mkWorld (connector w) (alter (set_lastNotify t) e.1 (objects w)) (on_notify e.1 t (rest w)) else w.

Lemma notify_steps t (es : list (Z * list Slice)) : forall w : World W,
  let w' := foldl (fun w e => notify_step t e w) w es in
  let due := map fst (filter (fun e => existsb (selects t) e.2 = true) es) in
  rest w' = foldl (fun r p => on_notify p t r) (rest w) due /\ connector w' = connector w /\
  forall p, objects w' !! p = (if decide (p ∈ due) then set_lastNotify t else id) <$> objects w !! p.
Proof.
  induction es as [|e es IH]; intros w; cbv zeta.
  { split_and!; try done. intros p. simpl. destruct (decide (p ∈ [])) as [[]%elem_of_nil|]. by destruct (objects w !! p). }
  cbn [foldl]. pose proof (eq_refl : notify_step t e w = if existsb (selects t) e.2
    then mkWorld (connector w) (alter (set_lastNotify t) e.1 (objects w)) (on_notify e.1 t (rest w)) else w) as Ev.
  destruct (IH (notify_step t e w)) as (Hr & Hc & Ho). rewrite Hr, Hc. rewrite filter_cons.
  destruct (existsb (selects t) e.2) eqn:Ee; rewrite Ev in Ho |- *.
  - rewrite decide_True by done. split_and!; [done..|]. intros p. rewrite Ho. cbn [map objects].
    destruct (decide (p = e.1)) as [->|Hne].
    + rewrite lookup_alter_eq, (decide_True (P := e.1 ∈ e.1 :: _)) by by left.
      destruct (decide _) as [?|?], (objects w !! e.1) as [[? ? ?]|]; done.
    + rewrite lookup_alter_ne by done. destruct (decide (p ∈ map fst _)) as [Hin|Hin].
      * by rewrite decide_True by by right.
      * rewrite decide_False; [done|]. by rewrite not_elem_of_cons.
  - rewrite decide_False by done. by split_and!.
Qed.

(** At a step the connector notifies exactly the entries one of whose slices selects the step, in
    the order in which the notifications were asked for, and each of these objects remembers the
    step; nothing else changes.  (The periods are those the parser returns, lone zeros excepted.) *)
Theorem notify_selected (w : World W) t :
  0 <= t < 2 ^ 32 ->
  (forall e, e ∈ notificationList (connector w) ->
     is_Some (objects w !! e.1) /\ Forall (fun s => 0 <= s !!! 0%nat /\ s !!! 2%nat <> 0) e.2) ->
  let due := map fst (filter (fun e => existsb (selects t) e.2 = true) (notificationList (connector w))) in
  exists w', notifyPlugins hooks t w = (Ret tt, w') /\
    rest w' = foldl (fun r p => on_notify p t r) (rest w) due /\ connector w' = connector w /\
    forall p, objects w' !! p = (if decide (p ∈ due) then set_lastNotify t else id) <$> objects w !! p.
Proof.
  intros Ht He. cbv zeta. eexists. split; [|apply notify_steps].
  unfold notifyPlugins, mbind at 1, Host_bind at 1, get_state.
  apply (for_fold (fun v => forall e, e ∈ notificationList (connector w) -> is_Some (objects v !! e.1))
    (notificationList (connector w)) _ (notify_step t) w).
  - intros e Hin. by apply He.
  - intros [p sl] v Hin Hv. destruct (He _ Hin) as [_ Hsl]. pose proof (Hv _ Hin) as Hpv. simpl in *. split.
    + unfold notify_step, mbind, Host_bind, lift. rewrite containsStep_spec by done. simpl.
      destruct (existsb (selects t) sl); [|done]. unfold on_rest. rewrite notify_returns.
      rewrite update_alter by by (destruct Hpv as [o ?]; exists o; destruct v). by destruct v.
    + intros e Hin'. unfold notify_step. simpl. destruct (existsb (selects t) sl); [|by apply Hv].
      simpl. rewrite lookup_alter_is_Some. by apply Hv.
Qed.
End lifecycle.

Section witness.
Local Definition log_hooks : Hooks (list (nat * Z)) := mkHooks
  (fun p w => (Ret tt, (w ++ [(0%nat, p)], if p =? 2 then [(2, txt "3")] else [])))
  (fun p w => (Ret tt, w ++ [(1%nat, p)])) (fun p t w => (Ret tt, w ++ [(2%nat, p)]))
  (fun p t d w => (Ret tt, w)) (fun p t d w => (Ret tt, w)).

#[local] Instance log_laws : HooksLaws log_hooks.
Proof.
  refine {| on_load := fun p w => w ++ [(0%nat, p)]; on_unload := fun p w => w ++ [(1%nat, p)];
    on_notify := fun p t w => w ++ [(2%nat, p)]; requests := fun p => if p =? 2 then [(2, txt "3")] else [];
    request_slices := fun p => if p =? 2 then [(2, [[0; 2 ^ 32 - 1; 3]])] else [] |}; try done.
  intros p. destruct (p =? 2); repeat constructor; try done.
Defined.

Local Definition fresh : IPlugin := mkPlugin false 0 0.
Local Definition two_plugins : World (list (nat * Z)) :=
  mkWorld (mkConnector [1; 2] []) {[1 := fresh; 2 := fresh]} [].

Lemma plugin_lifecycle_witness : exists w1 w2,
  loadPlugins log_hooks two_plugins = (Ret tt, w1) /\ unloadPlugins log_hooks w1 = (Ret tt, w2) /\
  rest w2 = [(0%nat, 1); (0%nat, 2); (1%nat, 2); (1%nat, 1)].
Proof.
  destruct (plugin_lifecycle log_hooks two_plugins) as (w1 & w2 & H1 & _ & H2 & Hr1 & _ & _ & _ & Hr2 & _).
  - by apply (bool_decide_unpack _).
  - intros p Hp. change (p ∈ [1; 2]) in Hp. apply elem_of_cons in Hp as [->|Hp]; [by eexists|].
    apply list_elem_of_singleton in Hp as ->. by eexists.
  - exists w1, w2. split; [done|]. split; [done|]. rewrite Hr2, Hr1. by vm_compute.
Defined.

Lemma notify_selected_witness : exists w',
  notifyPlugins log_hooks 6 (mkWorld (mkConnector [] [(1, [[0; 10; 4]]); (2, [[0; 2 ^ 32 - 1; 3]])]) {[1 := fresh; 2 := fresh]} []) = (Ret tt, w') /\
  rest w' = [(2%nat, 2)].
Proof.
  destruct (notify_selected log_hooks
    (mkWorld (mkConnector [] [(1, [[0; 10; 4]]); (2, [[0; 2 ^ 32 - 1; 3]])]) {[1 := fresh; 2 := fresh]} []) 6)
    as (w' & H1 & Hr & _).
  - done.
  - intros e He. change (e ∈ [(1, [[0; 10; 4]]); (2, [[0; 2 ^ 32 - 1; 3]])]) in He.
    apply elem_of_cons in He as [->|He]; [|apply list_elem_of_singleton in He as ->];
      (split; [by eexists|by repeat constructor]).
  - exists w'. split; [done|]. rewrite Hr. by vm_compute.
Defined.
End witness.
