(* ===== verification/Scalar.v ===== *)
(** * Scalars: the coordinate and attribute type [CS::T_Axis]

    The source is generic over the scalar type of the coordinate system
    ([typename CS::T_Axis]); the simulation instantiates it with [float]
    ([Real] in dimension.param).  [Scalar] is that interface: the arithmetic,
    the comparisons, the [std::numeric_limits] constants and the few
    mathematical functions the source calls.  Three instances are given:
    - [scalar_R]: exact real arithmetic with the limits of [float] (no
      rounding); the analytic theorems are about this instance;
    - [scalar_F32]: IEEE-754 binary32 with round-to-nearest-even, infinities
      and NaN, for the theorems on overflow and rounding;
    - [scalar_Z]: exact integers, on which definitions evaluate.
    [ScalarOrder] states the laws of the comparisons that hold without NaN. *)
From Stdlib Require Import ZArith Lia Reals Lra SpecFloat.
From stdpp Require Import base list numbers.
From S2P Require Import Prelude.

Declare Scope scalar_scope.
Delimit Scope scalar_scope with S.

Class Scalar (T : Type) : Type := {
  sofZ : Z -> T;                  (* T{n} for an integer literal n *)
  slit : Z -> positive -> T;      (* a decimal literal n/d, rounded once *)
  sadd : T -> T -> T;
  ssub : T -> T -> T;
  smul : T -> T -> T;
  sdiv : T -> T -> T;
  sopp : T -> T;
  sltb : T -> T -> bool;
  sleb : T -> T -> bool;
  seqb : T -> T -> bool;
  smax_limit : T;                 (* std::numeric_limits<T>::max() *)
  slowest : T;                    (* std::numeric_limits<T>::lowest() *)
  sepsilon : T;                   (* std::numeric_limits<T>::epsilon() *)
  spi : T;                        (* std::numbers::pi_v<T> *)
  sabs : T -> T;                  (* pmacc::math::abs *)
  ssqrt : T -> T;                 (* pmacc::math::sqrt *)
  srsqrt : T -> T;                (* pmacc::math::rsqrt *)
  strunc : T -> Z                 (* conversion to an integer type, in range *)
}.

Infix "+" := sadd : scalar_scope.
Infix "-" := ssub : scalar_scope.
Infix "*" := smul : scalar_scope.
Infix "/" := sdiv : scalar_scope.
Notation "- x" := (sopp x) : scalar_scope.
Infix "<?" := sltb : scalar_scope.
Infix "<=?" := sleb : scalar_scope.
Infix "=?" := seqb : scalar_scope.
Notation "0" := (sofZ 0) : scalar_scope.
Notation "1" := (sofZ 1) : scalar_scope.

(** ** Laws of the comparisons (an ordered type without NaN) *)

Class ScalarOrder (T : Type) `{Scalar T} : Prop := {
  sltb_negb : forall x y : T, sltb x y = negb (sleb y x);
  sleb_refl : forall x : T, sleb x x = true;
  sleb_trans : forall x y z : T, sleb x y = true -> sleb y z = true -> sleb x z = true;
  sleb_total : forall x y : T, sleb x y = false -> sleb y x = true;
  sleb_antisym : forall x y : T, sleb x y = true -> sleb y x = true -> x = y
}.

#[export] Hint Resolve sleb_refl sleb_total : spearhed.

(** The componentwise updates of [AABB::extend]: keep the smaller (larger). *)
Section minmax.
Context {T : Type} `{Scalar T}.

Definition smin2 (m x : T) : T := if (x <? m)%S then x else m.
Definition smax2 (m x : T) : T := if (m <? x)%S then x else m.

Context {O : ScalarOrder T}.

Lemma sltb_true x y : (x <? y)%S = true -> sleb x y = true.
Proof using O.
  rewrite sltb_negb. intros E%negb_true_iff. by apply sleb_total.
Qed.

Lemma sltb_false x y : (x <? y)%S = false -> sleb y x = true.
Proof using O. rewrite sltb_negb. by intros ?%negb_false_iff. Qed.

Lemma smin2_le_l m x : sleb (smin2 m x) m = true.
Proof using O. unfold smin2. case_goal; auto using sltb_true, sleb_refl. Qed.

Lemma smin2_le_r m x : sleb (smin2 m x) x = true.
Proof using O. unfold smin2. case_goal; auto using sltb_false, sleb_refl. Qed.

Lemma smax2_ge_l m x : sleb m (smax2 m x) = true.
Proof using O. unfold smax2. case_goal; auto using sltb_true, sleb_refl. Qed.

Lemma smax2_ge_r m x : sleb x (smax2 m x) = true.
Proof using O. unfold smax2. case_goal; auto using sltb_false, sleb_refl. Qed.

Lemma smin2_glb l m x : sleb l m = true -> sleb l x = true -> sleb l (smin2 m x) = true.
Proof. unfold smin2. by destruct (x <? m)%S. Qed.

Lemma smax2_lub u m x : sleb m u = true -> sleb x u = true -> sleb (smax2 m x) u = true.
Proof. unfold smax2. by destruct (m <? x)%S. Qed.

#[export] Instance smin2_comm : Comm (=) smin2.
Proof using O.
  intros x y. apply sleb_antisym; apply smin2_glb; auto using smin2_le_l, smin2_le_r.
Qed.

#[export] Instance smax2_comm : Comm (=) smax2.
Proof using O.
  intros x y. apply sleb_antisym; apply smax2_lub; auto using smax2_ge_l, smax2_ge_r.
Qed.

#[export] Instance smin2_assoc : Assoc (=) smin2.
Proof using O.
  intros x y z. apply sleb_antisym; repeat apply smin2_glb;
    eauto using smin2_le_l, smin2_le_r, sleb_trans.
Qed.

#[export] Instance smax2_assoc : Assoc (=) smax2.
Proof using O.
  intros x y z. apply sleb_antisym; repeat apply smax2_lub;
    eauto using smax2_ge_l, smax2_ge_r, sleb_trans.
Qed.
End minmax.

#[export] Hint Resolve smin2_le_l smin2_le_r smax2_ge_l smax2_ge_r : spearhed.
#[export] Hint Resolve smin2_glb smax2_lub : spearhed.

(** ** Exact integers *)

#[export] Instance scalar_Z : Scalar Z := {
  sofZ := fun n => n;
  slit := fun n d => Z.quot n (Zpos d);
  sadd := Z.add; ssub := Z.sub; smul := Z.mul; sdiv := Z.quot; sopp := Z.opp;
  sltb := Z.ltb; sleb := Z.leb; seqb := Z.eqb;
  smax_limit := (2 ^ 31 - 1)%Z; slowest := (- 2 ^ 31)%Z; sepsilon := 0%Z;
  spi := 3%Z; sabs := Z.abs; ssqrt := Z.sqrt;
  srsqrt := fun x => Z.quot 1 (Z.sqrt x);
  strunc := fun x => x
}.

#[export] Instance scalar_Z_order : ScalarOrder Z.
Proof.
  split; simpl.
  - intros. apply Z.ltb_antisym.
  - apply Z.leb_refl.
  - intros x y z ??. bool_to_prop. apply Z.leb_le. lia.
  - intros x y ?. bool_to_prop. apply Z.leb_le. lia.
  - intros x y ??. bool_to_prop. lia.
Qed.

(** ** Exact reals with the limits of [float] *)

Section reals.
Local Open Scope R_scope.

Definition Rltb (x y : R) : bool := if Rlt_dec x y then true else false.
Definition Rleb (x y : R) : bool := if Rle_dec x y then true else false.
Definition Reqb (x y : R) : bool := if Req_dec_T x y then true else false.

(** Truncation towards zero. *)
Definition Rtrunc (x : R) : Z :=
  if Rlt_dec x 0 then (- Int_part (- x))%Z else Int_part x.

(** The largest finite [float], (2^24 - 1) * 2^104. *)
Definition Rflt_max : R := IZR ((2 ^ 24 - 1) * 2 ^ 104).

#[export] Instance scalar_R : Scalar R := {
  sofZ := IZR;
  slit := fun n d => IZR n / IZR (Zpos d);
  sadd := Rplus; ssub := Rminus; smul := Rmult; sdiv := Rdiv; sopp := Ropp;
  sltb := Rltb; sleb := Rleb; seqb := Reqb;
  smax_limit := Rflt_max; slowest := - Rflt_max; sepsilon := / IZR (2 ^ 23);
  spi := PI; sabs := Rabs; ssqrt := sqrt; srsqrt := fun x => / sqrt x;
  strunc := Rtrunc
}.

Lemma Rltb_true x y : Rltb x y = true <-> x < y.
Proof. unfold Rltb. destruct (Rlt_dec x y); by split. Qed.

Lemma Rltb_false x y : Rltb x y = false <-> y <= x.
Proof. unfold Rltb. destruct (Rlt_dec x y); split; try done; lra. Qed.

Lemma Rleb_true x y : Rleb x y = true <-> x <= y.
Proof. unfold Rleb. destruct (Rle_dec x y); by split. Qed.

Lemma Rleb_false x y : Rleb x y = false <-> y < x.
Proof. unfold Rleb. destruct (Rle_dec x y); split; try done; lra. Qed.

Lemma Reqb_true x y : Reqb x y = true <-> x = y.
Proof. unfold Reqb. destruct (Req_dec_T x y); by split. Qed.

Lemma Reqb_false x y : Reqb x y = false <-> x <> y.
Proof. unfold Reqb. destruct (Req_dec_T x y); by split. Qed.

#[export] Instance scalar_R_order : ScalarOrder R.
Proof.
  split; simpl.
  - intros x y. destruct (Rleb y x) eqn:E; simpl.
    + apply Rltb_false. by apply Rleb_true.
    + apply Rltb_true. by apply Rleb_false.
  - intros x. apply Rleb_true. lra.
  - intros x y z ?%Rleb_true ?%Rleb_true. apply Rleb_true. lra.
  - intros x y ?%Rleb_false. apply Rleb_true. lra.
  - intros x y ?%Rleb_true ?%Rleb_true. lra.
Qed.
End reals.

(** Turn the comparisons of the real instance into propositions of [R]. *)
Ltac real_cases :=
  repeat match goal with
  | H : Rltb _ _ = true |- _ => apply Rltb_true in H
  | H : Rltb _ _ = false |- _ => apply Rltb_false in H
  | H : Rleb _ _ = true |- _ => apply Rleb_true in H
  | H : Rleb _ _ = false |- _ => apply Rleb_false in H
  | H : Reqb _ _ = true |- _ => apply Reqb_true in H
  | H : Reqb _ _ = false |- _ => apply Reqb_false in H
  | H : (_ && _)%bool = true |- _ => apply andb_true_iff in H; destruct H
  | H : (_ || _)%bool = false |- _ => apply orb_false_iff in H; destruct H
  | H : (_ || _)%bool = true |- _ => apply orb_true_iff in H; destruct H
  | H : (_ && _)%bool = false |- _ => apply andb_false_iff in H; destruct H
  | H : negb _ = true |- _ => apply negb_true_iff in H
  | H : negb _ = false |- _ => apply negb_false_iff in H
  | |- context [ Rltb ?x ?y ] =>
      lazymatch constr:((x, y)) with
      | context [ Rltb _ _ ] => fail
      | _ => destruct (Rltb x y) eqn:?
      end
  | |- context [ Rleb ?x ?y ] => destruct (Rleb x y) eqn:?
  | |- context [ Reqb ?x ?y ] => destruct (Reqb x y) eqn:?
  end.

(** ** IEEE-754 binary32 *)

Section binary32.
Local Open Scope Z_scope.

Definition f32 : Type := spec_float.
Definition f32_prec : Z := 24.
Definition f32_emax : Z := 128.

(** n / d, rounded to nearest once. *)
Definition f32_lit (n : Z) (d : positive) : f32 :=
  match n with
  | Z0 => S754_zero false
  | Zpos p => SFdiv f32_prec f32_emax (S754_finite false p 0) (S754_finite false d 0)
  | Zneg p => SFdiv f32_prec f32_emax (S754_finite true p 0) (S754_finite false d 0)
  end.

(** Truncation of a finite value towards zero. *)
Definition f32_trunc (x : f32) : Z :=
  match x with
  | S754_finite s m e =>
      let a := if 0 <=? e then Zpos m * 2 ^ e else Zpos m / 2 ^ (- e) in
      if s then - a else a
  | _ => 0
  end.

Definition f32_max : f32 := S754_finite false (2 ^ 24 - 1)%positive 104.
Definition f32_one : f32 := f32_lit 1 1.

#[export] Instance scalar_F32 : Scalar f32 := {
  sofZ := fun n => binary_normalize f32_prec f32_emax n 0 false;
  slit := f32_lit;
  sadd := SFadd f32_prec f32_emax; ssub := SFsub f32_prec f32_emax;
  smul := SFmul f32_prec f32_emax; sdiv := SFdiv f32_prec f32_emax; sopp := SFopp;
  sltb := SFltb; sleb := SFleb; seqb := SFeqb;
  smax_limit := f32_max; slowest := SFopp f32_max;
  sepsilon := f32_lit 1 (2 ^ 23)%positive;
  spi := S754_finite false 13176795 (-22);
  sabs := SFabs; ssqrt := SFsqrt f32_prec f32_emax;
  srsqrt := fun x => SFdiv f32_prec f32_emax f32_one (SFsqrt f32_prec f32_emax x);
  strunc := f32_trunc
}.
End binary32.

Example f32_third : strunc ((slit 10 3 : f32) * sofZ 3)%S = 10%Z.
Proof. vm_compute. reflexivity. Qed.
