(* ===== verification/Topology.v ===== *)
(** * Topology: Cartesian coordinate systems, vectors and points

    Models spmacc/topology/CoordinateSystem.hpp, Cartesian.hpp,
    CartesianStorage.hpp, Vec.hpp and Point.hpp.  A coordinate system is its
    dimension (1, 2 or 3, the [static_assert] of [Cartesian]); a [ValueStorage]
    is the [std::array] of its components, a list of that length; a tag indexes
    it through [index_of].  Vectors and points share the representation and are
    kept apart by the names of their operations. *)
From Stdlib Require Import ZArith Lia Reals Lra.
From stdpp Require Import base sets list numbers.
From S2P Require Import Prelude Scalar.

(** ** Coordinate systems *)

Inductive axis : Set := ax_x | ax_y | ax_z.

#[export] Instance axis_eq_dec : EqDecision axis.
Proof. solve_decision. Defined.

(** [detail::CartesianTags<D>::type]. *)
Definition cartesian_tags (d : nat) : list axis :=
  match d with
  | 1 => [ax_x]
  | 2 => [ax_x; ax_y]
  | 3 => [ax_x; ax_y; ax_z]
  | _ => []
  end.

(** The dimension of a [Cartesian<T, Dim>] chart with its [static_assert]. *)
Class CartesianDim : Type := {
  cs_dim : nat;
  cs_dim_ok : 1 <= cs_dim <= 3
}.

Definition dim1 : CartesianDim := {| cs_dim := 1; cs_dim_ok := ltac:(lia) |}.
Definition dim2 : CartesianDim := {| cs_dim := 2; cs_dim_ok := ltac:(lia) |}.
Definition dim3 : CartesianDim := {| cs_dim := 3; cs_dim_ok := ltac:(lia) |}.

(** [tag_of<T_CS, I>]; [None] is the violated [requires] clause. *)
Definition tag_of {D : CartesianDim} (i : nat) : option axis := cartesian_tags cs_dim !! i.

(** [find_index] of [index_of]: the first position that holds the tag. *)
Fixpoint find_index (t : axis) (ts : list axis) : option nat :=
  match ts with
  | [] => None
  | u :: us => if decide (t = u) then Some 0 else S <$> find_index t us
  end.

(** [index_of<T_CS, T>()]; [None] is the failing [static_assert]. *)
Definition index_of {D : CartesianDim} (t : axis) : option nat :=
  find_index t (cartesian_tags cs_dim).

Definition for_each_tag {D : CartesianDim} {A} (f : axis -> A -> A) (a : A) : A :=
  foldl (fun a t => f t a) a (cartesian_tags cs_dim).

Definition all_of_tag {D : CartesianDim} (f : axis -> bool) : bool :=
  forallb f (cartesian_tags cs_dim).

Definition any_of_tag {D : CartesianDim} (f : axis -> bool) : bool :=
  existsb f (cartesian_tags cs_dim).

(** Case analysis on the three dimensions. *)
Ltac dim_cases D :=
  destruct D as [d Hd]; simpl in *;
  destruct d as [|[|[|[|d]]]]; [exfalso; lia| | | |exfalso; lia].

Lemma tag_index_roundtrip {D : CartesianDim} i t :
  tag_of i = Some t <-> index_of t = Some i.
Proof.
  unfold tag_of, index_of. dim_cases D; destruct t, i as [|[|[|i]]]; simpl;
    split; intros; simplify_eq; done.
Qed.

Lemma length_cartesian_tags {D : CartesianDim} : length (cartesian_tags cs_dim) = cs_dim.
Proof. dim_cases D; done. Qed.

(** ** Storage *)

Section storage.
Context {D : CartesianDim} {T : Type} `{Scalar T}.

(** [ValueStorage<Cartesian<T, Dim>>], a [std::array<T, Dim>]. *)
Definition storage : Type := list T.
Definition storage_wf (v : storage) : Prop := length v = cs_dim.

(** [operator[](Tag)], const and mutable. *)
Definition vget (v : storage) (t : axis) : T :=
  match index_of t with Some i => nth i v (sofZ 0) | None => sofZ 0 end.
Definition vset (v : storage) (t : axis) (x : T) : storage :=
  match index_of t with Some i => <[i := x]> v | None => v end.

(** Broadcast constructors [Vec(Scalar val)] and [Point(Scalar val)]. *)
Definition broadcast (x : T) : storage := replicate cs_dim x.

(** *** [Vec] *)
Definition vec_assign (v w : storage) : storage :=
  for_each_tag (fun t u => vset u t (vget w t)) v.
Definition vec_add_assign (v w : storage) : storage :=
  for_each_tag (fun t u => vset u t (vget u t + vget w t)%S) v.
Definition vec_sub_assign (v w : storage) : storage :=
  for_each_tag (fun t u => vset u t (vget u t - vget w t)%S) v.
Definition vec_scale_assign (v : storage) (x : T) : storage :=
  for_each_tag (fun t u => vset u t (vget u t * x)%S) v.
Definition vec_div_assign (v : storage) (x : T) : storage :=
  for_each_tag (fun t u => vset u t (vget u t / x)%S) v.

Definition vec_opp (v : storage) : storage :=
  for_each_tag (fun t u => vset u t (- vget u t)%S) v.
Definition vec_add (v w : storage) : storage := vec_add_assign v w.
Definition vec_sub (v w : storage) : storage := vec_sub_assign v w.
Definition vec_scale (v : storage) (x : T) : storage := vec_scale_assign v x.
Definition vec_div (v : storage) (x : T) : storage := vec_div_assign v x.

Definition vec_eqb (v w : storage) : bool := all_of_tag (fun t => (vget v t =? vget w t)%S).
Definition vec_neqb (v w : storage) : bool := negb (vec_eqb v w).

(** [detail::abs_diff]. *)
Definition abs_diff (a b : T) : T :=
  let diff := (a - b)%S in if (diff <? 0)%S then (- diff)%S else diff.

Definition vec_isApprox (v w : storage) (eps : T) : bool :=
  all_of_tag (fun t => (abs_diff (vget v t) (vget w t) <=? eps)%S).

(** *** Norms *)
Definition norm1 (v : storage) : T :=
  for_each_tag (fun t r => (r + sabs (vget v t))%S) (sofZ 0).
Definition norm2 (v : storage) : T :=
  ssqrt (for_each_tag (fun t r => (r + vget v t * vget v t)%S) (sofZ 0)).
Definition normInf (v : storage) : T :=
  for_each_tag (fun t r => let a := sabs (vget v t) in if (r <? a)%S then a else r) (sofZ 0).

(** *** [Point] *)
Definition point_assign (p q : storage) : storage :=
  for_each_tag (fun t u => vset u t (vget q t)) p.
Definition point_eqb (p q : storage) : bool := all_of_tag (fun t => (vget p t =? vget q t)%S).
Definition point_neqb (p q : storage) : bool := negb (point_eqb p q).
Definition point_add_assign (p v : storage) : storage :=
  for_each_tag (fun t u => vset u t (vget u t + vget v t)%S) p.
(** [operator-(Point, Point)], a vector. *)
Definition point_sub (p q : storage) : storage :=
  for_each_tag (fun t r => vset r t (vget p t - vget q t)%S) (broadcast (sofZ 0)).
Definition point_add (p v : storage) : storage := point_add_assign p v.
Definition point_isApprox (p q : storage) (eps : T) : bool :=
  all_of_tag (fun t => (abs_diff (vget p t) (vget q t) <=? eps)%S).

(** Well-formed storage, component by component. *)
Lemma storage_wf_cases v :
  storage_wf v ->
  (cs_dim = 1 /\ exists a, v = [a]) \/
  (cs_dim = 2 /\ exists a b, v = [a; b]) \/
  (cs_dim = 3 /\ exists a b c, v = [a; b; c]).
Proof.
  unfold storage_wf. dim_cases D; intros Hv.
  - left. destruct v as [|a [|]]; try done. eauto.
  - right; left. destruct v as [|a [|b [|]]]; try done. eauto.
  - right; right. destruct v as [|a [|b [|c [|]]]]; try done. eauto.
Qed.
End storage.

Arguments storage : clear implicits.

(** Destruct every well-formed vector of the context and compute the loops
    over the tags. *)
Ltac vec_cases D :=
  dim_cases D;
  repeat match goal with
  | H : storage_wf ?v |- _ =>
      unfold storage_wf in H; simpl in H;
      repeat (destruct v as [|? v]; try discriminate H); clear H
  end;
  cbv [for_each_tag all_of_tag any_of_tag cartesian_tags foldl forallb existsb
       vget vset index_of find_index decide axis_eq_dec cs_dim storage_wf] in *;
  simpl in *.

(** ** Componentwise reading of the loops over the tags *)

Section componentwise.
Context {D : CartesianDim} {T : Type} `{Scalar T}.
Implicit Types v w p q : storage T.

Lemma vset_vget v t : vset v t (vget v t) = v.
Proof.
  unfold vset, vget. destruct (index_of t) as [i|]; [|done].
  destruct (nth_lookup_or_length v i (sofZ 0)) as [Hl|Hl].
  - by apply list_insert_id.
  - by apply list_insert_ge.
Qed.

Lemma storage_wf_zip f v w :
  storage_wf v -> storage_wf w -> storage_wf (zip_with f v w : storage T).
Proof. unfold storage_wf. rewrite length_zip_with. lia. Qed.

Lemma vec_add_zip v w :
  storage_wf v -> storage_wf w -> vec_add v w = zip_with sadd v w.
Proof. unfold vec_add, vec_add_assign. intros. vec_cases D; reflexivity. Qed.

Lemma vec_sub_zip v w :
  storage_wf v -> storage_wf w -> vec_sub v w = zip_with ssub v w.
Proof. unfold vec_sub, vec_sub_assign. intros. vec_cases D; reflexivity. Qed.

Lemma point_sub_zip p q :
  storage_wf p -> storage_wf q -> point_sub p q = zip_with ssub p q.
Proof. unfold point_sub, broadcast. intros. vec_cases D; reflexivity. Qed.

Lemma point_add_zip p v :
  storage_wf p -> storage_wf v -> point_add p v = zip_with sadd p v.
Proof. unfold point_add, point_add_assign. intros. vec_cases D; reflexivity. Qed.

Lemma vec_assign_eq v w : storage_wf v -> storage_wf w -> vec_assign v w = w.
Proof. unfold vec_assign. intros. vec_cases D; reflexivity. Qed.

Lemma vec_scale_map v x :
  storage_wf v -> vec_scale v x = map (fun a => (a * x)%S) v.
Proof. unfold vec_scale, vec_scale_assign. intros. vec_cases D; reflexivity. Qed.

Lemma broadcast_wf (x : T) : storage_wf (broadcast x).
Proof. apply length_replicate. Qed.

(** Two well-formed vectors are equal when they agree on every tag. *)
Lemma storage_ext v w :
  storage_wf v -> storage_wf w ->
  (forall t, t ∈ cartesian_tags cs_dim -> vget v t = vget w t) -> v = w.
Proof.
  intros Hv Hw E. destruct (storage_wf_cases _ Hv) as [(Hd & a & ->)|[(Hd & a & b & ->)|(Hd & a & b & c & ->)]];
    unfold storage_wf in Hw; simpl in Hw;
    unfold vget, index_of in E; rewrite Hd in *;
    repeat (destruct w as [|? w]; try discriminate Hw);
    pose proof (E ax_x ltac:(set_solver)); simpl in *;
    try (pose proof (E ax_y ltac:(set_solver)); simpl in * );
    try (pose proof (E ax_z ltac:(set_solver)); simpl in * ); congruence.
Qed.

(** The loop that writes each component from the old component. *)
Lemma for_each_tag_vset (f : axis -> T -> T) v :
  storage_wf v ->
  storage_wf (for_each_tag (fun t u => vset u t (f t (vget u t))) v) /\
  forall t, t ∈ cartesian_tags cs_dim ->
    vget (for_each_tag (fun t u => vset u t (f t (vget u t))) v) t = f t (vget v t).
Proof.
  intros. vec_cases D; (split; [done|]); intros u Hu;
    repeat (apply elem_of_cons in Hu as [->|Hu]; [reflexivity|]);
    by apply elem_of_nil in Hu.
Qed.

Lemma all_of_tag_true (f : axis -> bool) :
  all_of_tag f = true <-> forall t, t ∈ cartesian_tags cs_dim -> f t = true.
Proof.
  unfold all_of_tag. rewrite forallb_forall. split; intros E t Ht; apply E;
    by apply list_elem_of_In.
Qed.

Lemma all_of_tag_false (f : axis -> bool) :
  all_of_tag f = false <-> exists t, t ∈ cartesian_tags cs_dim /\ f t = false.
Proof.
  unfold all_of_tag. induction (cartesian_tags cs_dim) as [|t ts IH]; simpl.
  - split; [done|]. intros (t & Ht & _). by apply elem_of_nil in Ht.
  - rewrite andb_false_iff, IH. split.
    + intros [E|(u & Hu & E)]; [exists t|exists u]; rewrite elem_of_cons; auto.
    + intros (u & [->|Hu]%elem_of_cons & E); [by left|right; eauto].
Qed.
End componentwise.

(** Equality of two explicit lists of reals, component by component. *)
Ltac list_lra :=
  repeat first [reflexivity | apply (f_equal2 (@cons R)); [lra|]].

(** ** Exact arithmetic: the affine structure and the norms *)

Section exact.
Context {D : CartesianDim}.
Local Open Scope R_scope.
Implicit Types v w p q : storage R.

Lemma point_add_sub p q : storage_wf p -> storage_wf q -> point_add p (point_sub q p) = q.
Proof.
  intros Hp Hq. rewrite point_sub_zip, point_add_zip by auto using storage_wf_zip.
  vec_cases D; list_lra.
Qed.

Lemma point_sub_add p v : storage_wf p -> storage_wf v -> point_sub (point_add p v) p = v.
Proof.
  intros Hp Hv. rewrite point_add_zip, point_sub_zip by auto using storage_wf_zip.
  vec_cases D; list_lra.
Qed.

(** The displacement through a shifted frame of reference: the staged position
    of the interaction kernels, [rel_j + (origin_j - origin_i)], subtracted from
    [rel_i], is the displacement of the absolute positions. *)
Lemma shifted_displacement (pi pj vi vj : storage R) :
  storage_wf pi -> storage_wf pj -> storage_wf vi -> storage_wf vj ->
  vec_sub vi (vec_add vj (point_sub pj pi)) = point_sub (point_add pi vi) (point_add pj vj).
Proof.
  intros.
  unfold vec_sub, vec_sub_assign, vec_add, vec_add_assign, point_sub, point_add,
    point_add_assign, broadcast.
  vec_cases D; list_lra.
Qed.

Lemma sqrt_le_of_sq x y : 0 <= y -> x <= y * y -> sqrt x <= y.
Proof. intros Hy Hx. rewrite <-(sqrt_square y Hy). by apply sqrt_le_1_alt. Qed.

Lemma le_sqrt_of_sq x y : 0 <= x -> x * x <= y -> x <= sqrt y.
Proof. intros Hx Hy. rewrite <-(sqrt_square x Hx). by apply sqrt_le_1_alt. Qed.

Lemma Rabs_sq x : x * x = Rabs x * Rabs x.
Proof. unfold Rabs. destruct (Rcase_abs x); lra. Qed.

(** Norm equivalence over exact arithmetic. *)
Lemma norm_chain v : storage_wf v -> normInf v <= norm2 v <= norm1 v.
Proof.
  unfold normInf, norm2, norm1. intros. vec_cases D;
    repeat match goal with |- context [ ?x * ?x ] =>
             lazymatch x with Rabs _ => fail | _ => rewrite (Rabs_sq x) end end;
    repeat match goal with
    | |- context [ Rabs ?x ] =>
        let a := fresh "a" in
        pose proof (Rabs_pos x); pose proof (Rle_0_sqr (Rabs x)); unfold Rsqr in *;
        generalize dependent (Rabs x); intros a ??
    end;
    repeat match goal with
    | H1 : 0 <= ?a, H2 : 0 <= ?b |- _ =>
        lazymatch a with context [ Rmult ] => fail | _ => idtac end;
        lazymatch b with context [ Rmult ] => fail | _ => idtac end;
        lazymatch goal with
        | _ : 0 <= a * b |- _ => fail
        | _ => pose proof (Rmult_le_pos _ _ H1 H2)
        end
    end;
    (split; [apply le_sqrt_of_sq|apply sqrt_le_of_sq]; real_cases; lra).
Qed.
End exact.
