(* ===== verification/Aabb.v ===== *)
(** * Axis-aligned bounding boxes

    Models spmacc/particles/regions/AABB.hpp.  The corners [min] and [max] of a
    box are relative to its [origin], the position of the box in the global
    coordinate system. *)
From Stdlib Require Import ZArith Lia Reals Lra.
From stdpp Require Import base sets list numbers.
From S2P Require Import Prelude Scalar Topology.

Section aabb.
Context {D : CartesianDim} {T : Type} `{Scalar T}.

Record AABB : Type := mkAABB {
  origin : storage T;
  bmin : storage T;
  bmax : storage T
}.

Definition aabb_wf (b : AABB) : Prop :=
  storage_wf (origin b) /\ storage_wf (bmin b) /\ storage_wf (bmax b).

(** The default member initialisers: origin 0, [min] the largest and [max] the
    lowest finite value, so that the first [extend] sets both. *)
Definition aabb_default : AABB :=
  mkAABB (broadcast (sofZ 0)) (broadcast smax_limit) (broadcast slowest).

Definition set_bmin (b : AABB) (t : axis) (x : T) : AABB :=
  mkAABB (origin b) (vset (bmin b) t x) (bmax b).
Definition set_bmax (b : AABB) (t : axis) (x : T) : AABB :=
  mkAABB (origin b) (bmin b) (vset (bmax b) t x).

(** [extend(Vec const&)]. *)
Definition extend_vec (b : AABB) (v : storage T) : AABB :=
  for_each_tag (fun t b =>
    let b := if (vget v t <? vget (bmin b) t)%S then set_bmin b t (vget v t) else b in
    if (vget (bmax b) t <? vget v t)%S then set_bmax b t (vget v t) else b) b.

(** [extend(AABB const&)]. *)
Definition extend_box (b other : AABB) : AABB :=
  for_each_tag (fun t b =>
    let b := if (vget (bmin other) t <? vget (bmin b) t)%S
             then set_bmin b t (vget (bmin other) t) else b in
    if (vget (bmax b) t <? vget (bmax other) t)%S
    then set_bmax b t (vget (bmax other) t) else b) b.

(** [expand(margin)]. *)
Definition expand (b : AABB) (margin : T) : AABB :=
  for_each_tag (fun t r =>
    let r := set_bmin r t (vget (bmin r) t - margin)%S in
    set_bmax r t (vget (bmax r) t + margin)%S) b.

(** [getPosition(relativePos)]. *)
Definition getPosition (b : AABB) (rel : storage T) : storage T := point_add (origin b) rel.

(** [intersects(a, b)]: note that the origins take no part. *)
Definition intersects (a b : AABB) : bool :=
  all_of_tag (fun t =>
    negb ((vget (bmax b) t <? vget (bmin a) t)%S || (vget (bmax a) t <? vget (bmin b) t)%S)).

(** [computeVolume(aabb)]. *)
Definition computeVolume (b : AABB) : T :=
  for_each_tag (fun t v => (v * (vget (bmax b) t - vget (bmin b) t))%S) (sofZ 1).

(** [v] lies in the box, in the box's own coordinates. *)
Definition in_box (b : AABB) (v : storage T) : Prop :=
  forall t, t ∈ cartesian_tags cs_dim ->
    sleb (vget (bmin b) t) (vget v t) = true /\ sleb (vget v t) (vget (bmax b) t) = true.

(** ** Extension is a componentwise minimum and maximum *)

Lemma aabb_default_wf : aabb_wf aabb_default.
Proof. split_and!; apply broadcast_wf. Qed.

Lemma extend_box_minmax b o :
  extend_box b o =
  for_each_tag (fun t b =>
    mkAABB (origin b) (vset (bmin b) t (smin2 (vget (bmin b) t) (vget (bmin o) t)))
                      (vset (bmax b) t (smax2 (vget (bmax b) t) (vget (bmax o) t)))) b.
Proof.
  unfold extend_box, for_each_tag. revert b.
  induction (cartesian_tags cs_dim) as [|t ts IH]; intros b; [done|]. simpl. rewrite IH. f_equal.
  unfold smin2, smax2. destruct b as [bo bl bh]. simpl.
  destruct (vget (bmin o) t <? vget bl t)%S; simpl;
    destruct (vget bh t <? vget (bmax o) t)%S; by rewrite ?vset_vget.
Qed.

Lemma extend_box_zip b o :
  aabb_wf b -> aabb_wf o ->
  extend_box b o =
  mkAABB (origin b) (zip_with smin2 (bmin b) (bmin o)) (zip_with smax2 (bmax b) (bmax o)).
Proof.
  rewrite extend_box_minmax. destruct b as [bo bl bh], o as [oo ol oh].
  intros (_&?&?) (_&?&?). simpl in *. vec_cases D; reflexivity.
Qed.

Lemma extend_vec_box b v :
  extend_vec b v = extend_box b (mkAABB v v v).
Proof. reflexivity. Qed.

Lemma extend_box_wf b o : aabb_wf b -> aabb_wf o -> aabb_wf (extend_box b o).
Proof.
  intros Hb Ho. rewrite extend_box_zip by done. destruct Hb as (?&?&?), Ho as (?&?&?).
  by split_and!; try apply storage_wf_zip.
Qed.

Lemma extend_vec_wf b v : aabb_wf b -> storage_wf v -> aabb_wf (extend_vec b v).
Proof. intros. rewrite extend_vec_box. by apply extend_box_wf. Qed.

Lemma extend_vec_origin b v : aabb_wf b -> storage_wf v -> origin (extend_vec b v) = origin b.
Proof. intros. by rewrite extend_vec_box, extend_box_zip. Qed.

Lemma expand_zip b m :
  aabb_wf b ->
  expand b m = mkAABB (origin b) (map (fun a => (a - m)%S) (bmin b))
                      (map (fun a => (a + m)%S) (bmax b)).
Proof.
  destruct b as [bo bl bh]. intros (_&?&?).
  unfold expand, set_bmin, set_bmax. simpl in *.
  vec_cases D; reflexivity.
Qed.
End aabb.

Arguments AABB : clear implicits.
#[export] Hint Resolve aabb_default_wf extend_box_wf extend_vec_wf : spearhed.
