(* ===== verification/FrameList.v ===== *)
(** * Particles, frames and the device frame list

    Models spmacc/Frame.hpp, ListPointer.hpp, memory/utils.hpp,
    SinglyLinkedListDevice.hpp and FrameList.hpp.  The device heap is a finite
    map from addresses to frames and the null pointer is address 0.  The
    allocator behind [operator new] / mallocMC is a parameter; divCeil is
    alpaka's and is the class [AlpakaMath].  The concurrent [pushBack] is a step
    relation over the threads' program counters. *)
From Stdlib Require Import ZArith Lia.
From stdpp Require Import base sets list numbers gmap relations.
From S2P Require Import Prelude Scalar Topology.

(** alpaka::divCeil, used by [numFrames]. *)
Class AlpakaMath : Type := {
  divCeil : Z -> Z -> Z;
  divCeil_spec : forall a b, (0 <= a -> 0 < b -> (divCeil a b - 1) * b < a <= divCeil a b * b)%Z
}.

#[export] Instance alpaka_math_ref : AlpakaMath.
Proof.
  refine {| divCeil := fun a b => ((a + b - 1) / b)%Z |}.
  intros a b Ha Hb.
  pose proof (Z.div_mod (a + b - 1) b ltac:(lia)).
  pose proof (Z.mod_pos_bound (a + b - 1) b Hb). nia.
Defined.

(** ** Particles and frames *)

Section frames.
Context {T : Type} `{Scalar T}.
Local Open Scope Z_scope.

(** [fluidRec] of speciesDefinition.param. *)
Record Particle : Type := mkParticle {
  particleId : Z;
  multiMask : Z;
  relativePos : storage T;
  mass : T;
  velocity : storage T;
  density : T;
  smoothingLength : T;
  internalEnergy : T;
  dvdt : storage T;
  dudt : T
}.

Definition set_multiMask (m : Z) (p : Particle) : Particle :=
  mkParticle (particleId p) m (relativePos p) (mass p) (velocity p) (density p)
    (smoothingLength p) (internalEnergy p) (dvdt p) (dudt p).

(** Assignments to the fields the simulation's stages write. *)
Definition set_relativePos (x : storage T) (p : Particle) : Particle :=
  mkParticle (particleId p) (multiMask p) x (mass p) (velocity p) (density p)
    (smoothingLength p) (internalEnergy p) (dvdt p) (dudt p).
Definition set_velocity (v : storage T) (p : Particle) : Particle :=
  mkParticle (particleId p) (multiMask p) (relativePos p) (mass p) v (density p)
    (smoothingLength p) (internalEnergy p) (dvdt p) (dudt p).
Definition set_density (d : T) (p : Particle) : Particle :=
  mkParticle (particleId p) (multiMask p) (relativePos p) (mass p) (velocity p) d
    (smoothingLength p) (internalEnergy p) (dvdt p) (dudt p).
Definition set_internalEnergy (u : T) (p : Particle) : Particle :=
  mkParticle (particleId p) (multiMask p) (relativePos p) (mass p) (velocity p) (density p)
    (smoothingLength p) u (dvdt p) (dudt p).
Definition set_derivatives (a : storage T) (e : T) (p : Particle) : Particle :=
  mkParticle (particleId p) (multiMask p) (relativePos p) (mass p) (velocity p) (density p)
    (smoothingLength p) (internalEnergy p) a e.

(** [pred::Occupied]. *)
Definition occupied (p : Particle) : bool := negb (multiMask p =? 0).

(** [Frame] with its extension [NextPtr]. *)
Record Frame : Type := mkFrame {
  slots : list Particle;
  liveParticles : Z;
  next : Z
}.

Definition set_next (n : Z) (f : Frame) : Frame := mkFrame (slots f) (liveParticles f) n.
Definition set_slots (s : list Particle) (f : Frame) : Frame :=
  mkFrame s (liveParticles f) (next f).
Definition set_liveParticles (n : Z) (f : Frame) : Frame := mkFrame (slots f) n (next f).

(** The default constructor, run on memory of unknown content: it clears the
    masks and [liveParticles]; everything else keeps its content. *)
Definition frame_construct (raw : Frame) : Frame :=
  mkFrame (map (set_multiMask 0) (slots raw)) 0 (next raw).

(** The live particles of a frame, in slot order. *)
Definition frame_live (f : Frame) : list Particle := filter (fun p => occupied p = true) (slots f).

Lemma frame_construct_empty raw : frame_live (frame_construct raw) = [].
Proof.
  unfold frame_live, frame_construct. simpl.
  induction (slots raw) as [|p ps IH]; [done|]. simpl. by rewrite filter_cons_False.
Qed.

#[local] Abbreviation heap := (gmap Z Frame).

(** ** Allocation *)

Definition allocationMaxRetries : nat := 13.

(** [allocateRawMemory]: at most [n] attempts of the allocator [malloc], whose
    state is [A]; address 0 is a failed attempt. *)
Fixpoint allocateRawMemory {A} (malloc : A -> Z * A) (n : nat) (a : A) : Z * A :=
  match n with
  | O => (0, a)
  | S n' => let '(p, a') := malloc a in
            if p =? 0 then allocateRawMemory malloc n' a' else (p, a')
  end.

(** [allocateMemory<T>]. *)
Definition allocateMemory {A} (malloc : A -> Z * A) (a : A) : Z * A :=
  allocateRawMemory malloc allocationMaxRetries a.

(** [mapToHost]. *)
Definition mapToHost (devPtr heapOffset : Z) : Z :=
  if devPtr =? 0 then 0 else devPtr - heapOffset.

Lemma allocateRawMemory_spec {A} (malloc : A -> Z * A) n a :
  let '(p, a') := allocateRawMemory malloc n a in
  exists k, (k <= n)%nat /\ Nat.iter k (fun s => (malloc s).2) a = a' /\
    if p =? 0 then k = n /\ forall j, (j < n)%nat -> (malloc (Nat.iter j (fun s => (malloc s).2) a)).1 = 0
    else exists j, k = S j /\ (malloc (Nat.iter j (fun s => (malloc s).2) a)).1 = p /\
         forall i, (i < j)%nat -> (malloc (Nat.iter i (fun s => (malloc s).2) a)).1 = 0.
Proof.
  revert a. induction n as [|n IH]; intros a; simpl.
  { exists 0%nat. split_and!; [lia|done|done|intros; lia]. }
  destruct (malloc a) as [p a'] eqn:E. destruct (Z.eqb_spec p 0) as [->|Hp].
  - specialize (IH a'). destruct (allocateRawMemory malloc n a') as [q b].
    assert (Hit : forall j, Nat.iter (S j) (fun s => (malloc s).2) a =
                            Nat.iter j (fun s => (malloc s).2) a')
      by (intros j; rewrite Nat.iter_succ_r, E; done).
    destruct IH as (k & Hk & Hb & IH). exists (S k).
    split_and!; [lia|by rewrite Hit|].
    destruct (q =? 0).
    + destruct IH as [-> IH]. split; [done|]. intros [|j] Hj; [by rewrite <-?E; simpl; rewrite E|].
      rewrite Hit. apply IH. lia.
    + destruct IH as (j & -> & Hq & IH). exists (S j). split_and!; [done|by rewrite Hit|].
      intros [|i] Hi; [simpl; by rewrite E|]. rewrite Hit. apply IH. lia.
  - exists 1%nat. rewrite (proj2 (Z.eqb_neq p 0) Hp). split_and!; [lia|simpl; by rewrite E|].
    exists 0%nat. split_and!; [done|simpl; by rewrite E|intros; lia].
Qed.

(** ** The singly linked list *)

(** [SingleLinkedListDevice] and the particle count of [FrameList]. *)
Record FrameList : Type := mkFrameList {
  m_firstNode : Z;
  m_lastNode : Z;
  numParticles : Z
}.

Definition emptyFrameList : FrameList := mkFrameList 0 0 0.

Definition set_firstNode (p : Z) (l : FrameList) : FrameList :=
  mkFrameList p (m_lastNode l) (numParticles l).
Definition set_lastNode (p : Z) (l : FrameList) : FrameList :=
  mkFrameList (m_firstNode l) p (numParticles l).
Definition setNumParticles (n : Z) (l : FrameList) : FrameList :=
  mkFrameList (m_firstNode l) (m_lastNode l) n.

(** A store through a frame pointer; [None] for a null or dangling pointer. *)
Definition heap_update (h : heap) (p : Z) (f : Frame -> Frame) : option heap :=
  fr ← h !! p; Some (<[p := f fr]> h).

(** [pushBack], run by one thread without interference. *)
Definition pushBack (h : heap) (l : FrameList) (node : Z) : option (heap * FrameList) :=
  if node =? 0 then Some (h, l)
  else
    h1 ← heap_update h node (set_next 0);
    let oldLast := m_lastNode l in
    let l1 := set_lastNode node l in
    if negb (oldLast =? 0)
    then h2 ← heap_update h1 oldLast (set_next node); Some (h2, l1)
    else Some (h1, set_firstNode node l1).

(** [getEmptyNode]: allocate, trap when the heap is exhausted, construct, clear
    the link.  [raw] is the unknown content of the fresh allocation. *)
Definition getEmptyNode {A} (malloc : A -> Z * A) (raw : Frame) (a : A) (h : heap)
    : option (Z * A * heap) :=
  let '(tmp, a') := allocateMemory malloc a in
  if tmp =? 0 then None
  else Some (tmp, a', <[tmp := set_next 0 (frame_construct raw)]> h).

(** [FrameList::getEmptyFrame]. *)
Definition getEmptyFrame {A} (malloc : A -> Z * A) (raw : Frame) (a : A) (h : heap) (l : FrameList)
    : option (Z * A * heap * FrameList) :=
  '(p, a', h') ← getEmptyNode malloc raw a h;
  '(h'', l') ← pushBack h' l p;
  Some (p, a', h'', l').

(** [removeNode]: frees the node and nulls the caller's pointer. *)
Definition removeNode (h : heap) (node : Z) : heap * Z :=
  if node =? 0 then (h, node) else (delete node h, 0).

(** [forEachFrame]: the range-for over [begin()]..[end()], with the frame's
    link read after the body.  [None] when a pointer dangles or the fuel does not suffice. *)
Fixpoint forEachFrame {S} (fuel : nat) (body : Z -> heap * S -> heap * S) (p : Z) (s : heap * S)
    : option (heap * S) :=
  if p =? 0 then Some s else
  match fuel with
  | O => None
  | Datatypes.S f =>
      let s' := body p s in
      fr ← s'.1 !! p; forEachFrame f body (next fr) s'
  end.

(** [size()]. *)
Fixpoint list_size (fuel : nat) (h : heap) (p : Z) (size : Z) : option Z :=
  if p =? 0 then Some size else
  match fuel with
  | O => None
  | S f => fr ← h !! p; list_size f h (next fr) (size + 1)
  end.

(** [forEachHostFrame]: the walk over the host mirror [hm] of the device heap;
    [HostAdvance] translates every device pointer it reads. *)
Fixpoint forEachHostFrame {A} (fuel : nat) (off : Z) (body : Z -> Frame -> A -> A)
    (hm : heap) (p : Z) (a : A) : option A :=
  if p =? mapToHost 0 off then Some a else
  match fuel with
  | O => None
  | S f => fr ← hm !! p; forEachHostFrame f off body hm (mapToHost (next fr) off) (body p fr a)
  end.

(** [getSizeLastFrame], on uint32_t. *)
Definition getSizeLastFrame (frameSize : Z) (l : FrameList) : Z :=
  if negb (numParticles l =? 0)
  then u32 (u32 (numParticles l - 1) mod frameSize + 1) else 0.

(** [numFrames]. *)
Definition numFrames `{AlpakaMath} (frameSize : Z) (l : FrameList) : Z :=
  divCeil (numParticles l) frameSize.
(** ** Representation of a list of frame addresses

    [links h l a] is the successor of [a], the list head when [a] is null.
    [adj ps a b]: [b] follows [a] in [ps], where null precedes the first frame. *)

Definition links (h : heap) (l : FrameList) (a : Z) : option Z :=
  if a =? 0 then Some (m_firstNode l) else next <$> h !! a.

Definition adj (ps : list Z) (a b : Z) : Prop :=
  exists i, (0 :: ps) !! i = Some a /\ ps !! i = Some b.

Definition last_of (ps : list Z) : Z := default 0 (last ps).

(** The addresses are distinct, allocated frames. *)
Definition frames_wf (h : heap) (ps : list Z) : Prop :=
  NoDup (0 :: ps) /\ forall p, p ∈ ps -> is_Some (h !! p).

Definition is_list (h : heap) (l : FrameList) (ps : list Z) : Prop :=
  frames_wf h ps /\
  (forall a b, adj ps a b -> links h l a = Some b) /\
  links h l (last_of ps) = Some 0 /\
  m_lastNode l = last_of ps.

Lemma last_of_snoc ps p : last_of (ps ++ [p]) = p.
Proof. unfold last_of. by rewrite last_snoc. Qed.

Lemma last_of_lookup ps : (0 :: ps) !! length ps = Some (last_of ps).
Proof.
  induction ps as [|p ps _] using rev_ind; [done|].
  rewrite last_of_snoc, length_app, Nat.add_1_r. simpl. apply list_lookup_middle. lia.
Qed.

Lemma adj_snoc ps p a b :
  adj (ps ++ [p]) a b <-> adj ps a b \/ (a = last_of ps /\ b = p).
Proof.
  unfold adj. rewrite app_comm_cons. split.
  - intros (i & Ha & Hb). apply lookup_app_Some in Hb as [Hb|[Hi Hb]].
    + left. exists i. rewrite lookup_app_l in Ha; [done|].
      apply lookup_lt_Some in Hb. simpl. lia.
    + right. apply list_lookup_singleton_Some in Hb as [Hi' <-].
      assert (i = length ps) as -> by lia.
      rewrite lookup_app_l, last_of_lookup in Ha by (simpl; lia). by simplify_eq.
  - intros [(i & Ha & Hb)|[-> ->]].
    + exists i. by rewrite !lookup_app_l by (eapply lookup_lt_Some; eauto).
    + exists (length ps). rewrite lookup_app_l by (simpl; lia).
      rewrite last_of_lookup, list_lookup_middle by done. done.
Qed.

Lemma adj_in ps a b : adj ps a b -> a ∈ 0 :: ps /\ b ∈ ps.
Proof. intros (i & ? & ?). split; by eapply list_elem_of_lookup_2. Qed.

Lemma last_of_in ps : last_of ps ∈ 0 :: ps.
Proof. eapply list_elem_of_lookup_2, last_of_lookup. Qed.

(** In a list without repetitions, predecessors and successors are unique, and
    the last frame has no successor. *)
Lemma adj_fun ps a b c : NoDup (0 :: ps) -> adj ps a b -> adj ps a c -> b = c.
Proof.
  intros Hnd (i & Ha & Hb) (j & Ha' & Hc).
  pose proof (proj1 (NoDup_alt _) Hnd _ _ _ Ha Ha') as ->. congruence.
Qed.

Lemma adj_inj ps a b c : NoDup (0 :: ps) -> adj ps a c -> adj ps b c -> a = b.
Proof.
  intros Hnd (i & Ha & Hc) (j & Hb & Hc').
  assert (E : S i = S j) by (eapply (proj1 (NoDup_alt _) Hnd); simpl; eauto).
  injection E as ->. congruence.
Qed.

Lemma adj_last ps b : NoDup (0 :: ps) -> ~ adj ps (last_of ps) b.
Proof.
  intros Hnd (i & Ha & Hb).
  assert (i = length ps) as -> by
    (eapply (proj1 (NoDup_alt _) Hnd); eauto using last_of_lookup).
  apply lookup_lt_Some in Hb. lia.
Qed.

(** The representation predicate as a test. *)
Definition is_listb (h : heap) (l : FrameList) (ps : list Z) : bool :=
  bool_decide (NoDup (0 :: ps)) && forallb (fun p => bool_decide (is_Some (h !! p))) ps &&
  forallb (fun '(a, b) => bool_decide (links h l a = Some b)) (zip (0 :: ps) ps) &&
  bool_decide (links h l (last_of ps) = Some 0) && (m_lastNode l =? last_of ps).

Lemma is_listb_sound h l ps : is_listb h l ps = true -> is_list h l ps.
Proof.
  unfold is_listb. rewrite !andb_true_iff, !forallb_forall, Z.eqb_eq, !bool_decide_eq_true.
  intros [[[[Hnd Hin] Hadj] Hend] Hm]. split_and!; [split; [done|]|..]; [|intros a b|done..].
  - intros p Hp%list_elem_of_In. by apply Hin, bool_decide_eq_true in Hp.
  - intros (i & Ha & Hb). refine (bool_decide_eq_true_1 _ (Hadj (a, b) _)).
    apply list_elem_of_In. eapply (list_elem_of_lookup_2 _ i).
    by rewrite lookup_zip_with, Ha, Hb.
Qed.

(** ** Link stores *)

(** What a list operation must leave alone: the particle data of every frame. *)
Definition payload (f : Frame) : list Particle * Z := (slots f, liveParticles f).
Definition same_payload (h h' : heap) : Prop :=
  forall p, payload <$> h' !! p = payload <$> h !! p.

Lemma same_payload_trans h1 h2 h3 :
  same_payload h1 h2 -> same_payload h2 h3 -> same_payload h1 h3.
Proof. intros E1 E2 p. by rewrite E2, E1. Qed.

Lemma same_payload_dom h h' p : same_payload h h' -> is_Some (h !! p) <-> is_Some (h' !! p).
Proof.
  intros E. specialize (E p). destruct (h !! p), (h' !! p); try discriminate;
    split; intros [? ?]; eauto; discriminate.
Qed.

Lemma heap_update_next h p n :
  is_Some (h !! p) ->
  exists h', heap_update h p (set_next n) = Some h' /\ same_payload h h' /\
    forall q, next <$> h' !! q = if decide (q = p) then Some n else next <$> h !! q.
Proof.
  intros [fr Hfr]. unfold heap_update. rewrite Hfr. simpl. eexists; split; [done|]. split.
  - intros q. destruct (decide (q = p)) as [->|Hne];
      [by rewrite lookup_insert_eq, Hfr|by rewrite lookup_insert_ne].
  - intros q. destruct (decide (q = p)) as [->|Hne];
      [by rewrite lookup_insert_eq|by rewrite lookup_insert_ne].
Qed.

(** The second half of [pushBack]: [node] becomes the successor of [old], or
    the head of the list when [old] is null. *)
Definition link_store (h : heap) (l : FrameList) (old node : Z) : option (heap * FrameList) :=
  if negb (old =? 0)
  then h' ← heap_update h old (set_next node); Some (h', l)
  else Some (h, set_firstNode node l).

Lemma link_store_spec h l old node :
  old = 0 \/ is_Some (h !! old) ->
  exists h' l', link_store h l old node = Some (h', l') /\ same_payload h h' /\
    m_lastNode l' = m_lastNode l /\ numParticles l' = numParticles l /\
    forall a, links h' l' a = if decide (a = old) then Some node else links h l a.
Proof.
  intros Hold. unfold link_store. destruct (Z.eqb_spec old 0) as [->|Hne]; simpl.
  - eexists _, _. split; [done|]. split_and!; [by intros p|done..|].
    intros a. unfold links. destruct (Z.eqb_spec a 0) as [->|Ha]; [by rewrite decide_True|].
    by rewrite decide_False.
  - destruct Hold as [?|Hold]; [done|].
    destruct (heap_update_next h old node Hold) as (h' & -> & Hp & Hn). simpl.
    eexists _, _. split; [done|]. split_and!; [done..|].
    intros a. unfold links. destruct (Z.eqb_spec a 0) as [->|Ha]; [by rewrite decide_False|].
    apply Hn.
Qed.

Lemma pushBack_link_store h l node :
  node <> 0 ->
  pushBack h l node =
  h1 ← heap_update h node (set_next 0);
  link_store h1 (set_lastNode node l) (m_lastNode l) node.
Proof. intros Hn. unfold pushBack. by rewrite (proj2 (Z.eqb_neq _ _) Hn). Qed.

Lemma frames_wf_snoc h ps p :
  frames_wf h ps -> p <> 0 -> p ∉ ps -> is_Some (h !! p) -> frames_wf h (ps ++ [p]).
Proof.
  intros [Hnd Hin] Hp Hps Hs. split.
  - rewrite app_comm_cons. apply NoDup_app. split_and!; [done| |apply NoDup_singleton].
    intros a Ha ->%list_elem_of_singleton. by apply elem_of_cons in Ha as [?|?].
  - intros q [Hq| ->%list_elem_of_singleton]%elem_of_app; auto.
Qed.

Lemma frames_wf_payload h h' ps : same_payload h h' -> frames_wf h ps -> frames_wf h' ps.
Proof.
  intros E [Hnd Hin]. split; [done|]. intros p Hp. by apply (same_payload_dom h h'), Hin.
Qed.

Lemma is_list_last_alloc h l ps :
  is_list h l ps -> m_lastNode l = 0 \/ is_Some (h !! m_lastNode l).
Proof.
  intros ([_ Hin] & _ & _ & ->). pose proof (last_of_in ps) as [->|?]%elem_of_cons; auto.
Qed.

(** [pushBack] appends. *)
Lemma pushBack_is_list h l ps node :
  is_list h l ps -> node <> 0 -> node ∉ ps -> is_Some (h !! node) ->
  exists h' l', pushBack h l node = Some (h', l') /\ is_list h' l' (ps ++ [node]) /\
    numParticles l' = numParticles l /\ same_payload h h'.
Proof.
  intros Hl Hn Hps Hs. pose proof (is_list_last_alloc _ _ _ Hl) as Hlast.
  destruct Hl as (Hwf & Hadj & Hend & Hm). rewrite pushBack_link_store by done.
  destruct (heap_update_next h node 0 Hs) as (h1 & -> & Hp1 & Hn1). simpl.
  destruct (link_store_spec h1 (set_lastNode node l) (m_lastNode l) node) as
    (h' & l' & -> & Hp & Hl' & Hnum & Hlinks).
  { destruct Hlast as [?|?]; [by left|right]. by apply (same_payload_dom h h1). }
  eexists _, _. split; [done|].
  assert (Hpp : same_payload h h') by eauto using same_payload_trans.
  split_and!; [|done..].
  assert (Hne : node <> last_of ps).
  { intros ->. pose proof (last_of_in ps) as [?|?]%elem_of_cons; done. }
  assert (Hold : forall a, a <> node -> links h1 (set_lastNode node l) a = links h l a).
  { intros a Ha. unfold links. destruct (a =? 0); [done|]. by rewrite Hn1, decide_False. }
  split_and!; [by apply frames_wf_snoc; [eapply frames_wf_payload| | |apply (same_payload_dom h h')]|..].
  - intros a b [Hab|[-> ->]]%adj_snoc; rewrite Hlinks, Hm; [|by rewrite decide_True].
    rewrite decide_False by (intros ->; eapply adj_last; [apply Hwf|done]).
    rewrite Hold; [by apply Hadj|]. intros ->.
    apply adj_in in Hab as [[?|?]%elem_of_cons _]; done.
  - rewrite last_of_snoc, Hlinks, Hm, decide_False by done.
    unfold links. rewrite (proj2 (Z.eqb_neq _ _) Hn). by rewrite Hn1, decide_True.
  - by rewrite last_of_snoc, Hl'.
Qed.

(** [pushBack] writes no frame but the new one and the last one. *)
Lemma pushBack_untouched h l node h' l' q :
  pushBack h l node = Some (h', l') -> q <> node -> m_lastNode l = 0 \/ q <> m_lastNode l ->
  h' !! q = h !! q.
Proof.
  unfold pushBack, heap_update. intros E Hq Hl. case_hyp E; [by simplify_eq|].
  destruct (h !! node) as [fr|]; [|discriminate]. cbn [mbind option_bind] in E.
  destruct (Z.eqb_spec (m_lastNode l) 0); simpl in E; [simplify_eq; by rewrite lookup_insert_ne|].
  destruct (<[node:=set_next 0 fr]> h !! m_lastNode l); [|discriminate]. simpl in E. simplify_eq.
  destruct Hl as [?|?]; [done|]. by rewrite !lookup_insert_ne.
Qed.

Lemma is_list_ext h h' l ps :
  (forall q, q ∈ ps -> next <$> h' !! q = next <$> h !! q) -> is_list h l ps -> is_list h' l ps.
Proof.
  intros E ([Hnd Hin] & Hadj & Hend & Hm).
  assert (Hlinks : forall x, x ∈ 0 :: ps -> links h' l x = links h l x).
  { intros x Hx%elem_of_cons. unfold links. destruct (Z.eqb_spec x 0); [done|]. apply E. tauto. }
  split_and!; [split; [done|]|..|done].
  - intros q Hq. specialize (E q Hq). destruct (Hin q Hq) as [fr Hfr]. rewrite Hfr in E.
    destruct (h' !! q); [eauto|discriminate].
  - intros x y Hxy. rewrite Hlinks; [by apply Hadj|]. by apply adj_in in Hxy as [? _].
  - rewrite Hlinks; [done|apply last_of_in].
Qed.

(** [getEmptyFrame], when the allocator gives a fresh frame. *)
Lemma getEmptyFrame_spec {A} (malloc : A -> Z * A) raw a h l ps p a' :
  is_list h l ps -> allocateMemory malloc a = (p, a') -> p <> 0 -> h !! p = None ->
  exists h' l', getEmptyFrame malloc raw a h l = Some (p, a', h', l') /\
    is_list h' l' (ps ++ [p]) /\ numParticles l' = numParticles l /\
    same_payload (<[p := set_next 0 (frame_construct raw)]> h) h' /\
    (forall q, q <> p -> q ∉ ps -> h' !! q = h !! q).
Proof.
  intros Hl Ha Hp Hnone. unfold getEmptyFrame, getEmptyNode. rewrite Ha, (proj2 (Z.eqb_neq _ _) Hp).
  cbn [mbind option_bind]. set (f := set_next 0 (frame_construct raw)).
  assert (Hin : forall q, q ∈ ps -> is_Some (h !! q)) by apply Hl.
  assert (Hps : p ∉ ps) by (intros [? ?]%Hin; congruence).
  assert (Hl' : is_list (<[p:=f]> h) l ps).
  { eapply is_list_ext; [|exact Hl]. intros q Hq. rewrite lookup_insert_ne; [done|congruence]. }
  destruct (pushBack_is_list _ _ _ p Hl' Hp Hps) as (h' & l' & Hpush & HL & Hn & Hpay);
    [by rewrite lookup_insert_eq|].
  rewrite Hpush. cbn [mbind option_bind]. do 2 eexists. split_and!; [done..|].
  intros q Hq Hqs. rewrite (pushBack_untouched _ _ _ _ _ q Hpush Hq); [by rewrite lookup_insert_ne|].
  destruct Hl as (_ & _ & _ & ->). pose proof (last_of_in ps) as [?|?]%elem_of_cons; [by left|right].
  intros ->. done.
Qed.

(** ** Walking the list *)

Fixpoint chain (h : heap) (p : Z) (ps : list Z) : Prop :=
  match ps with
  | [] => p = 0
  | q :: qs => p = q /\ q <> 0 /\ exists n, next <$> h !! q = Some n /\ chain h n qs
  end.

Lemma is_list_chain h l ps : is_list h l ps -> chain h (m_firstNode l) ps.
Proof.
  intros ([Hnd Hin] & Hadj & Hend & _).
  assert (Hc : forall l2 l1 a, 0 :: ps = l1 ++ a :: l2 ->
            exists b, links h l a = Some b /\ chain h b l2).
  { induction l2 as [|b l2 IH]; intros l1 a E.
    - exists 0. split; [|done]. rewrite <-Hend. f_equal.
      pose proof (last_of_lookup ps) as Hl. rewrite E in Hl.
      rewrite lookup_app_r in Hl; [|apply (f_equal length) in E; rewrite length_app in E; simpl in E; lia].
      replace (length ps - length l1)%nat with 0%nat in Hl
        by (apply (f_equal length) in E; rewrite length_app in E; simpl in E; lia).
      by injection Hl.
    - assert (Hab : adj ps a b).
      { exists (length l1). split; [by rewrite E, list_lookup_middle|].
        change (ps !! length l1) with ((0 :: ps) !! S (length l1)). rewrite E.
        rewrite lookup_app_r by lia. by replace (S (length l1) - length l1)%nat with 1%nat by lia. }
      exists b. split; [by apply Hadj|]. simpl.
      destruct (IH (l1 ++ [a]) b) as (n & Hn & Hch); [by rewrite <-app_assoc|].
      assert (b <> 0) as Hb.
      { intros ->. apply adj_in in Hab as [_ Hb]. by apply NoDup_cons in Hnd as [? _]. }
      split_and!; [done..|]. exists n. split; [|done].
      unfold links in Hn. by rewrite (proj2 (Z.eqb_neq _ _) Hb) in Hn. }
  destruct (Hc ps [] 0) as (b & Hb & Hch); [done|]. by injection Hb as ->.
Qed.

Lemma chain_ext h h' p ps :
  (forall q, q ∈ ps -> next <$> h' !! q = next <$> h !! q) -> chain h p ps -> chain h' p ps.
Proof.
  revert p. induction ps as [|q qs IH]; intros p E; simpl; [done|].
  intros (-> & Hq & n & Hn & Hc). split_and!; [done..|]. exists n.
  rewrite E by set_solver. split; [done|]. apply IH; [|done]. set_solver.
Qed.

(** The range-for visits the frames of the list in order, once each, and ends,
    whatever the body does to the frames as long as it keeps their links. *)
Lemma forEachFrame_chain {S} (body : Z -> heap * S -> heap * S) h s p ps fuel :
  (length ps <= fuel)%nat ->
  (forall q r st, q ∈ ps -> r ∈ ps -> next <$> (body q st).1 !! r = next <$> st.1 !! r) ->
  chain h p ps ->
  forEachFrame fuel body p (h, s) = Some (foldl (fun st q => body q st) (h, s) ps).
Proof.
  revert fuel h s p. induction ps as [|q qs IH]; intros fuel h s p Hf Hb Hc; simpl in Hc.
  { subst p. by destruct fuel. }
  destruct Hc as (-> & Hq & n & Hn & Hc). destruct fuel as [|fuel]; simpl in Hf; [lia|].
  simpl. rewrite (proj2 (Z.eqb_neq _ _) Hq).
  destruct (body q (h, s)) as [h' s'] eqn:E. simpl.
  assert (Hk : forall r, r ∈ q :: qs -> next <$> h' !! r = next <$> h !! r).
  { intros r Hr. pose proof (Hb q r (h, s) ltac:(by left) Hr) as Hx. by rewrite E in Hx. }
  pose proof (Hk q ltac:(by left)) as Hq'. rewrite Hn in Hq'.
  destruct (h' !! q) as [fr|]; [|discriminate]. injection Hq' as <-. simpl.
  apply IH; [lia|intros; apply Hb; by right|].
  apply (chain_ext h); [intros; apply Hk; by right|done].
Qed.

Lemma list_size_chain h p ps fuel k :
  (length ps <= fuel)%nat -> chain h p ps ->
  list_size fuel h p k = Some (k + Z.of_nat (length ps)).
Proof.
  revert fuel p k. induction ps as [|q qs IH]; intros fuel p k Hf Hc; simpl in Hc.
  { subst p. destruct fuel; simpl; f_equal; lia. }
  destruct Hc as (-> & Hq & n & Hn & Hc). destruct fuel as [|fuel]; simpl in Hf; [lia|].
  simpl. rewrite (proj2 (Z.eqb_neq _ _) Hq).
  destruct (h !! q) as [fr|]; [|discriminate]. injection Hn as <-. simpl.
  rewrite IH by (lia || done). f_equal. lia.
Qed.

(** The host mirror holds every frame of the device heap at its translated
    address, links untranslated. *)
Definition host_mirror (h : heap) (off : Z) (hm : heap) : Prop :=
  forall p fr, h !! p = Some fr -> hm !! (p - off) = Some fr.

Lemma forEachHostFrame_chain {A} (body : Z -> Frame -> A -> A) h hm off p ps fuel a :
  (length ps <= fuel)%nat -> host_mirror h off hm -> off ∉ ps -> chain h p ps ->
  forEachHostFrame fuel off body hm (mapToHost p off) a =
  Some (foldl (fun a q => match h !! q with Some fr => body (q - off) fr a | None => a end) a ps).
Proof.
  intros Hf Hm. revert fuel p a Hf.
  induction ps as [|q qs IH]; intros fuel p a Hf Hoff Hc; simpl in Hc.
  { subst p. by destruct fuel. }
  destruct Hc as (-> & Hq & n & Hn & Hc). destruct fuel as [|fuel]; simpl in Hf; [lia|].
  assert (Hqo : mapToHost q off = q - off)
    by (unfold mapToHost; by rewrite (proj2 (Z.eqb_neq _ _) Hq)).
  assert (q <> off) by set_solver.
  rewrite Hqo. cbn [forEachHostFrame]. change (mapToHost 0 off) with 0. rewrite (proj2 (Z.eqb_neq (q - off) 0)) by lia.
  destruct (h !! q) as [fr|] eqn:Hfr; [|discriminate]. injection Hn as <-.
  rewrite (Hm _ _ Hfr). cbn [mbind option_bind foldl]. rewrite Hfr.
  apply IH; [lia|set_solver|done].
Qed.

(** ** Frame counts *)

Context `{AlpakaMath}.

Lemma getSizeLastFrame_bounds fs l :
  0 < fs < 2 ^ 32 -> 0 < numParticles l < 2 ^ 32 ->
  getSizeLastFrame fs l = (numParticles l - 1) mod fs + 1.
Proof.
  intros Hfs Hn. unfold getSizeLastFrame.
  rewrite (proj2 (Z.eqb_neq _ _)) by lia. simpl.
  rewrite (u32_small (numParticles l - 1)) by lia.
  apply u32_small. pose proof (Z.mod_pos_bound (numParticles l - 1) fs). 
  pose proof (Z.mod_le (numParticles l - 1) fs). lia.
Qed.

Lemma foldl_visit {A} (h : A) (ps acc : list Z) :
  foldl (fun (s : A * list Z) p => (s.1, s.2 ++ [p])) (h, acc) ps = (h, acc ++ ps).
Proof.
  revert acc. induction ps as [|q qs IH]; intros acc; simpl; [by rewrite app_nil_r|].
  by rewrite IH, <-app_assoc.
Qed.

Lemma foldl_collect (h : heap) off (ps : list Z) acc :
  foldl (fun a q => match h !! q with Some fr => a ++ [(q - off, fr)] | None => a end) acc ps =
  acc ++ omap (fun q => (fun fr => (q - off, fr)) <$> h !! q) ps.
Proof.
  revert acc. induction ps as [|q qs IH]; intros acc; simpl; [by rewrite app_nil_r|].
  destruct (h !! q) as [fr|]; simpl; rewrite IH; [|done]. by rewrite <-app_assoc.
Qed.

Lemma frame_counts_spec fs l :
  0 < fs < 2 ^ 32 -> 0 <= numParticles l < 2 ^ 32 ->
  (numParticles l = 0 -> numFrames fs l = 0 /\ getSizeLastFrame fs l = 0) /\
  (0 < numParticles l ->
   (numFrames fs l - 1) * fs + getSizeLastFrame fs l = numParticles l /\
   1 <= getSizeLastFrame fs l <= fs).
Proof.
  intros Hfs Hn. pose proof (divCeil_spec (numParticles l) fs ltac:(lia) ltac:(lia)) as Hd.
  fold (numFrames fs l) in Hd. split; intros Hn'.
  - split; [nia|]. unfold getSizeLastFrame. by rewrite Hn'.
  - rewrite getSizeLastFrame_bounds by lia.
    pose proof (Z.mod_pos_bound (numParticles l - 1) fs ltac:(lia)).
    pose proof (Z.div_mod (numParticles l - 1) fs ltac:(lia)).
    assert (numFrames fs l = (numParticles l - 1) / fs + 1) by nia. nia.
Qed.

(** ** Properties *)

(** [getEmptyFrame] either appends one empty frame to the list, leaving the
    particle data of every frame already in the heap unchanged, or traps; and it traps
    exactly when the allocator fails [allocationMaxRetries] = 13 times in a row. *)
Theorem getEmptyFrame_appends {A} (malloc : A -> Z * A) raw a h l ps :
  is_list h l ps ->
  (forall a0, (malloc a0).1 <> 0 -> h !! (malloc a0).1 = None) ->
  let attempt i := (malloc (Nat.iter i (fun s => (malloc s).2) a)).1 in
  match getEmptyFrame malloc raw a h l with
  | Some (p, a', h', l') =>
      (exists i, (i < 13)%nat /\ attempt i = p /\ p <> 0 /\ forall j, (j < i)%nat -> attempt j = 0) /\
      is_list h' l' (ps ++ [p]) /\ numParticles l' = numParticles l /\
      (exists f, h' !! p = Some f /\ frame_live f = [] /\ liveParticles f = 0) /\
      forall q, q <> p -> payload <$> h' !! q = payload <$> h !! q
  | None => forall j, (j < 13)%nat -> attempt j = 0
  end.
Proof.
  intros Hl Hfresh attempt. pose proof (allocateRawMemory_spec malloc allocationMaxRetries a) as Ha.
  fold (allocateMemory malloc a) in Ha. destruct (allocateMemory malloc a) as [p a'] eqn:Em.
  destruct Ha as (k & Hk & _ & Ha). destruct (Z.eqb_spec p 0) as [->|Hp].
  { unfold getEmptyFrame, getEmptyNode. rewrite Em. destruct Ha as [_ Ha]. exact Ha. }
  destruct Ha as (i & -> & Hi & Hj).
  assert (Hnone : h !! p = None) by (rewrite <-Hi; apply Hfresh; by rewrite Hi).
  destruct (getEmptyFrame_spec malloc raw a h l ps p a') as (h' & l' & -> & HL & Hn & Hpay & _); [done..|].
  split_and!; [|done|done| |].
  - exists i. unfold allocationMaxRetries in Hk. split_and!; [lia|done..].
  - pose proof (Hpay p) as Hx. rewrite lookup_insert_eq in Hx.
    destruct (h' !! p) as [f'|]; [|discriminate]. injection Hx as Hs Hlv.
    exists f'. split_and!; [done| |done]. unfold frame_live. rewrite Hs.
    apply (frame_construct_empty raw).
  - intros q Hq. by rewrite (Hpay q), lookup_insert_ne by done.
Qed.

(** Over a well-formed list of [n] frames, [forEachFrame] on the device,
    [forEachHostFrame] on the host mirror at any heap offset and [size()] all
    terminate within [n] steps; both walks visit the frames in list order, each
    once (the device walk under any body that keeps the links), and the size is [n]. *)
Theorem frame_walks_agree h l ps off hm :
  is_list h l ps -> host_mirror h off hm -> off ∉ ps ->
  forEachFrame (length ps) (fun p s => (s.1, s.2 ++ [p])) (m_firstNode l) (h, []) = Some (h, ps) /\
  forEachHostFrame (length ps) off (fun p fr acc => acc ++ [(p, fr)]) hm
    (mapToHost (m_firstNode l) off) [] =
    Some (omap (fun q => (fun fr => (q - off, fr)) <$> h !! q) ps) /\
  list_size (length ps) h (m_firstNode l) 0 = Some (Z.of_nat (length ps)).
Proof.
  intros Hl Hm Hoff. pose proof (is_list_chain _ _ _ Hl) as Hc. split_and!.
  - rewrite (forEachFrame_chain _ _ _ _ ps) by done. by rewrite (foldl_visit h ps []).
  - rewrite (forEachHostFrame_chain _ h hm off _ ps) by done. by rewrite (foldl_collect h off ps []).
  - rewrite (list_size_chain _ _ ps) by done. done.
Qed.

(** The frame counts of a list with [0 < numParticles < 2^32] particles:
    every frame but the last is full, the last one holds [getSizeLastFrame]
    of them, between 1 and [frameSize]; an empty list has no frame. *)
Theorem frame_counts fs l :
  0 < fs < 2 ^ 32 -> 0 <= numParticles l < 2 ^ 32 ->
  (numParticles l = 0 -> numFrames fs l = 0 /\ getSizeLastFrame fs l = 0) /\
  (0 < numParticles l ->
   (numFrames fs l - 1) * fs + getSizeLastFrame fs l = numParticles l /\
   1 <= getSizeLastFrame fs l <= fs).
Proof. apply frame_counts_spec. Qed.
End frames.

Arguments Particle : clear implicits.
Arguments Frame : clear implicits.
Abbreviation heap T := (gmap Z (Frame T)).

(** ** Witnesses *)

Section witnesses.
Local Open Scope Z_scope.

(** A heap with the frames 16 and 32, linked in this order. *)
Definition part0 (m : Z) : Particle Z :=
  mkParticle 7 m [1; 2; 3] 5 [0; 0; 0] 1 1 1 [0; 0; 0] 0.
Definition two_frames : heap Z :=
  <[16 := mkFrame [part0 1; part0 1] 2 32]> (<[32 := mkFrame [part0 1; part0 0] 1 0]> ∅).
Definition two_list : FrameList := mkFrameList 16 32 3.

(** An allocator that fails twice, then hands out 48, 64, ... *)
Definition malloc48 (a : Z) : Z * Z := (if a <? 2 then 0 else 16 * (a + 1), a + 1).

Lemma two_frames_list : is_list two_frames two_list [16; 32].
Proof. apply is_listb_sound. vm_compute. reflexivity. Defined.

Lemma malloc48_fresh a : (malloc48 a).1 <> 0 -> two_frames !! (malloc48 a).1 = None.
Proof.
  unfold malloc48. cbn [fst]. destruct (Z.ltb_spec a 2); [done|]. intros _.
  unfold two_frames. rewrite !lookup_insert_ne by lia. done.
Qed.

Lemma getEmptyFrame_appends_witness :
  match getEmptyFrame malloc48 (mkFrame [part0 1; part0 9] 5 77) 0 two_frames two_list with
  | Some (p, _, h', l') => p = 48 /\ is_list h' l' [16; 32; 48]
  | None => False
  end.
Proof.
  pose proof (getEmptyFrame_appends malloc48 (mkFrame [part0 1; part0 9] 5 77) 0 two_frames
    two_list [16; 32] two_frames_list malloc48_fresh) as Hw.
  destruct (getEmptyFrame malloc48 _ 0 two_frames two_list) as [[[[p a'] h'] l']|] eqn:E.
  - destruct Hw as (_ & Hl & _). split.
    + assert (Hp : (fun r => r.1.1.1) <$> getEmptyFrame malloc48 (mkFrame [part0 1; part0 9] 5 77) 0
        two_frames two_list = Some 48) by (vm_compute; reflexivity).
      rewrite E in Hp. by injection Hp.
    + assert (Hp : (fun r => r.1.1.1) <$> getEmptyFrame malloc48 (mkFrame [part0 1; part0 9] 5 77) 0
        two_frames two_list = Some 48) by (vm_compute; reflexivity).
      rewrite E in Hp. injection Hp as ->. exact Hl.
  - specialize (Hw 2%nat ltac:(lia)). discriminate Hw.
Defined.

Lemma frame_walks_agree_witness :
  forEachHostFrame 2 8 (fun p fr acc => acc ++ [(p, fr)])
    (<[8 := mkFrame [part0 1; part0 1] 2 32]> (<[24 := mkFrame [part0 1; part0 0] 1 0]> ∅) : heap Z)
    (mapToHost 16 8) [] =
  Some [(8, mkFrame [part0 1; part0 1] 2 32); (24, mkFrame [part0 1; part0 0] 1 0)].
Proof.
  refine (proj1 (proj2 (frame_walks_agree two_frames two_list [16; 32] 8
    (<[8 := mkFrame [part0 1; part0 1] 2 32]> (<[24 := mkFrame [part0 1; part0 0] 1 0]> ∅))
    two_frames_list _ _))).
  - intros p fr. unfold two_frames. intros [[<- <-]|[? [[<- <-]|[? Hn]]%lookup_insert_Some]]%lookup_insert_Some;
      [reflexivity|reflexivity|discriminate Hn].
  - rewrite !not_elem_of_cons. split_and!; [lia..|apply not_elem_of_nil].
Defined.

Lemma frame_counts_witness :
  (numFrames 64 (mkFrameList 16 32 130) - 1) * 64 + getSizeLastFrame 64 (mkFrameList 16 32 130) = 130 /\
  getSizeLastFrame 64 (mkFrameList 16 32 130) = 2.
Proof.
  split; [|reflexivity].
  apply (frame_counts 64 (mkFrameList 16 32 130)); simpl; lia.
Defined.
End witnesses.
