(* ===== verification/FramePush.v ===== *)
(** * Concurrent [pushBack]

    SingleLinkedListDevice::pushBack (spmacc/SinglyLinkedListDevice.hpp) is
    documented as thread safe.  Every thread of the model runs it once, in three
    atomic steps: clear the node's link, exchange the tail pointer, publish the
    node through its predecessor (or the head).  A schedule is the list of the
    threads that take the steps. *)
From Stdlib Require Import ZArith Lia.
From stdpp Require Import base sets list numbers gmap.
From S2P Require Import Prelude Scalar Topology FrameList.

Section push.
Context {T : Type} `{Scalar T}.
Local Open Scope Z_scope.

(** Program counter of a thread inside [pushBack]; [PB_link old] holds the
    thread's local [oldLast]. *)
Inductive push_pc : Set := PB_start | PB_exch | PB_link (oldLast : Z) | PB_done.

Record push_state : Type := mkPush {
  pb_heap : gmap Z (Frame T);
  pb_list : FrameList;
  pb_threads : list (Z * push_pc)
}.

Definition set_thread (s : push_state) (i : nat) (n : Z) (pc : push_pc) : list (Z * push_pc) :=
  <[i := (n, pc)]> (pb_threads s).

(** One step of thread [i]; [None] is a store through a bad pointer.  A thread
    that has returned does nothing. *)
Definition push_exec (i : nat) (s : push_state) : option push_state :=
  match pb_threads s !! i with
  | None | Some (_, PB_done) => Some s
  | Some (n, PB_start) =>
      if n =? 0 then Some (mkPush (pb_heap s) (pb_list s) (set_thread s i n PB_done))
      else h' ← heap_update (pb_heap s) n (set_next 0);
           Some (mkPush h' (pb_list s) (set_thread s i n PB_exch))
  | Some (n, PB_exch) =>
      Some (mkPush (pb_heap s) (set_lastNode n (pb_list s))
                   (set_thread s i n (PB_link (m_lastNode (pb_list s)))))
  | Some (n, PB_link old) =>
      '(h', l') ← link_store (pb_heap s) (pb_list s) old n;
      Some (mkPush h' l' (set_thread s i n PB_done))
  end.

Fixpoint push_run (sched : list nat) (s : push_state) : option push_state :=
  match sched with
  | [] => Some s
  | i :: sched => s' ← push_exec i s; push_run sched s'
  end.

(** The node whose exchange the step of thread [i] performs, if it performs one. *)
Definition exch_of (i : nat) (s : push_state) : list Z :=
  match pb_threads s !! i with Some (n, PB_exch) => [n] | _ => [] end.

(** The nodes in the order in which a schedule exchanges them. *)
Fixpoint exchanges (sched : list nat) (s : push_state) : list Z :=
  match sched with
  | [] => []
  | i :: sched => exch_of i s ++
      match push_exec i s with Some s' => exchanges sched s' | None => [] end
  end.

Definition push_init (h : gmap Z (Frame T)) (l : FrameList) (nodes : list Z) : push_state :=
  mkPush h l (map (fun n => (n, PB_start)) nodes).

Definition all_done (s : push_state) : Prop :=
  forall n pc, (n, pc) ∈ pb_threads s -> pc = PB_done.

(** ** The invariant

    [ps] is the list as the exchanges have ordered it: each link is either
    published or pending in the thread that will publish it. *)

Definition thread_ok (s : push_state) (ps : list Z) (n : Z) (pc : push_pc) : Prop :=
  n <> 0 /\ is_Some (pb_heap s !! n) /\
  match pc with
  | PB_start => n ∉ ps
  | PB_exch => (n ∉ ps) /\ (next <$> pb_heap s !! n) = Some 0
  | PB_link a => adj ps a n /\ links (pb_heap s) (pb_list s) a = Some 0
  | PB_done => n ∈ ps
  end.

Definition push_inv (h0 : gmap Z (Frame T)) (nodes0 ps0 : list Z) (s : push_state) (ps : list Z) : Prop :=
  frames_wf (pb_heap s) ps /\
  m_lastNode (pb_list s) = last_of ps /\
  links (pb_heap s) (pb_list s) (last_of ps) = Some 0 /\
  map fst (pb_threads s) = nodes0 /\
  (forall i n pc, pb_threads s !! i = Some (n, pc) -> thread_ok s ps n pc) /\
  (forall a b, adj ps a b -> links (pb_heap s) (pb_list s) a = Some b \/
     exists i, pb_threads s !! i = Some (b, PB_link a)) /\
  (forall n, n ∈ ps -> n ∈ ps0 \/ n ∈ nodes0) /\
  same_payload h0 (pb_heap s).

Lemma set_thread_nodes s i n pc pc' :
  pb_threads s !! i = Some (n, pc) -> map fst (set_thread s i n pc') = map fst (pb_threads s).
Proof.
  intros Hi. unfold set_thread. rewrite list_fmap_insert. simpl.
  apply list_insert_id. by rewrite list_lookup_fmap, Hi.
Qed.

Lemma nodes_unique s i j n pc pc' :
  NoDup (map fst (pb_threads s)) ->
  pb_threads s !! i = Some (n, pc) -> pb_threads s !! j = Some (n, pc') -> i = j.
Proof.
  intros Hnd Hi Hj. eapply (proj1 (NoDup_alt _) Hnd _ _ n);
    rewrite list_lookup_fmap; by rewrite ?Hi, ?Hj.
Qed.

Lemma push_inv_init h l ps nodes :
  is_list h l ps -> NoDup nodes ->
  (forall n, n ∈ nodes -> n <> 0 /\ (n ∉ ps) /\ is_Some (h !! n)) ->
  push_inv h nodes ps (push_init h l nodes) ps.
Proof.
  intros (Hwf & Hadj & Hend & Hm) Hnd Hn. split_and!; simpl; auto.
  - rewrite map_map. simpl. by rewrite map_id.
  - intros i n pc. rewrite list_lookup_fmap. intros E.
    destruct (nodes !! i) as [n'|] eqn:Hi; [|discriminate]. injection E as <- <-.
    apply list_elem_of_lookup_2, Hn in Hi as (?&?&?). done.
  - by intros p.
Qed.

(** Case analysis on the entry of the threads updated at [i]. *)
#[local] Ltac thread_cases Hi :=
  match goal with
  | H : set_thread ?s ?i _ _ !! ?j = Some _ |- _ =>
      unfold set_thread in H; apply list_lookup_insert_Some in H as [(<- & E & _)|(Hij & H)];
      [injection E as <- <-|]
  end.

Lemma push_exec_start h0 nodes ps0 s ps i n :
  NoDup nodes -> push_inv h0 nodes ps0 s ps -> pb_threads s !! i = Some (n, PB_start) ->
  exists s', push_exec i s = Some s' /\ push_inv h0 nodes ps0 s' ps.
Proof.
  intros Hnd (Hwf & Hm & Hend & Hno & Hth & Hadj & Hin & Hpay) Hi.
  destruct (Hth _ _ _ Hi) as (Hn0 & Hs & Hps). unfold push_exec. rewrite Hi.
  rewrite (proj2 (Z.eqb_neq _ _) Hn0).
  destruct (heap_update_next _ n 0 Hs) as (h' & -> & Hp & Hnx). simpl.
  eexists; split; [done|].
  assert (Hl : forall a, a ∈ 0 :: ps -> links h' (pb_list s) a = links (pb_heap s) (pb_list s) a).
  { intros a Ha. unfold links. destruct (Z.eqb_spec a 0); [done|].
    rewrite Hnx, decide_False; [done|]. intros ->. by apply elem_of_cons in Ha as [?|?]. }
  split_and!; simpl; [by eapply frames_wf_payload|done| | | | |done|by eapply same_payload_trans].
  - rewrite Hl by apply last_of_in. done.
  - by erewrite set_thread_nodes.
  - intros j m pc Hj. thread_cases Hi.
    + split_and!; simpl; [done|by apply (same_payload_dom _ _ _ Hp)|done|by rewrite Hnx, decide_True].
    + destruct (Hth _ _ _ Hj) as (Hm0 & Hms & Hok).
      split_and!; simpl; [done|by apply (same_payload_dom _ _ _ Hp)|].
      destruct pc; simpl; [done| | |done].
      * destruct Hok. split; [done|]. rewrite Hnx. by case_decide.
      * destruct Hok as [Ha Hok]. split; [done|]. rewrite Hl; [done|]. by apply (adj_in _ _ _ Ha).
  - intros a b Hab. destruct (Hadj _ _ Hab) as [Hab'|[j Hj]].
    + left. rewrite Hl; [done|]. by apply (adj_in _ _ _ Hab).
    + right. exists j. unfold set_thread. rewrite list_lookup_insert_ne; [done|].
      intros ->. congruence.
Qed.

Lemma push_exec_exch h0 nodes ps0 s ps i n :
  NoDup nodes -> push_inv h0 nodes ps0 s ps -> pb_threads s !! i = Some (n, PB_exch) ->
  exists s', push_exec i s = Some s' /\ push_inv h0 nodes ps0 s' (ps ++ [n]).
Proof.
  intros Hnd (Hwf & Hm & Hend & Hno & Hth & Hadj & Hin & Hpay) Hi.
  destruct (Hth _ _ _ Hi) as (Hn0 & Hs & Hps & Hnx). unfold push_exec. rewrite Hi.
  eexists; split; [done|]. split_and!; simpl; [by apply frames_wf_snoc| | | | | | |done].
  - by rewrite last_of_snoc.
  - rewrite last_of_snoc. unfold links. by rewrite (proj2 (Z.eqb_neq _ _) Hn0).
  - by erewrite set_thread_nodes.
  - intros j m pc Hj. thread_cases Hi.
    + split_and!; simpl; [done..|rewrite adj_snoc; by right; rewrite Hm|by rewrite Hm].
    + destruct (Hth _ _ _ Hj) as (Hm0 & Hms & Hok). split_and!; simpl; [done..|].
      assert (m <> n) by (intros ->; apply Hij; eapply nodes_unique; eauto; by rewrite Hno).
      destruct pc; simpl in *; rewrite ?not_elem_of_app, ?list_elem_of_singleton, ?adj_snoc;
        [done| |destruct Hok; auto|set_solver].
      by destruct Hok.
  - intros a b [Hab|[-> ->]]%adj_snoc.
    + destruct (Hadj _ _ Hab) as [?|[j Hj]]; [by left|]. right. exists j.
      unfold set_thread. rewrite list_lookup_insert_ne; [done|]. intros ->. congruence.
    + right. exists i. unfold set_thread. rewrite list_lookup_insert_eq; [by rewrite Hm|].
      by eapply lookup_lt_Some.
  - intros m [Hm'| ->%list_elem_of_singleton]%elem_of_app; [auto|]. right. rewrite <-Hno.
    apply list_elem_of_fmap. exists (n, PB_exch). split; [done|]. by eapply list_elem_of_lookup_2.
Qed.

Lemma push_exec_link h0 nodes ps0 s ps i n a :
  NoDup nodes -> push_inv h0 nodes ps0 s ps -> pb_threads s !! i = Some (n, PB_link a) ->
  exists s', push_exec i s = Some s' /\ push_inv h0 nodes ps0 s' ps.
Proof.
  intros Hnd (Hwf & Hm & Hend & Hno & Hth & Hadj & Hin & Hpay) Hi.
  destruct (Hth _ _ _ Hi) as (Hn0 & Hs & Han & Hnull). unfold push_exec. rewrite Hi.
  destruct (link_store_spec (pb_heap s) (pb_list s) a n) as (h' & l' & -> & Hp & Hm' & _ & Hl).
  { unfold links in Hnull. destruct (Z.eqb_spec a 0); [by left|right].
    destruct (pb_heap s !! a); [eauto|discriminate]. }
  simpl. eexists; split; [done|].
  split_and!; simpl; [by eapply frames_wf_payload|by rewrite Hm'| | | | |done|by eapply same_payload_trans].
  - rewrite Hl, decide_False; [done|]. intros E. eapply adj_last; [apply Hwf|by rewrite E].
  - by erewrite set_thread_nodes.
  - intros j m pc Hj. thread_cases Hi.
    + split_and!; simpl; [done|by apply (same_payload_dom _ _ _ Hp)|]. by apply adj_in in Han as [_ ?].
    + destruct (Hth _ _ _ Hj) as (Hm0 & Hms & Hok).
      split_and!; simpl; [done|by apply (same_payload_dom _ _ _ Hp)|].
      destruct pc as [| |a'|]; simpl; [done| | |done].
      * destruct Hok as [Hmps Hok]. split; [done|].
        assert (m <> a) by (intros ->; apply adj_in in Han as [[?|?]%elem_of_cons _]; done).
        specialize (Hl m). unfold links in Hl. rewrite (proj2 (Z.eqb_neq _ _) Hm0) in Hl.
        by rewrite Hl, decide_False.
      * destruct Hok as [Ha' Hok]. split; [done|]. rewrite Hl, decide_False; [done|]. intros ->.
        apply Hij. assert (m = n) as -> by (eapply adj_fun; eauto; apply Hwf).
        eapply nodes_unique; eauto. by rewrite Hno.
  - intros b c Hbc. rewrite Hl. case_decide as Hba.
    + subst b. left. f_equal. eapply adj_fun; eauto. apply Hwf.
    + destruct (Hadj _ _ Hbc) as [?|[j Hj]]; [by left|]. right. exists j.
      unfold set_thread. rewrite list_lookup_insert_ne; [done|]. intros ->. congruence.
Qed.

Lemma push_exec_inv h0 nodes ps0 s ps i :
  NoDup nodes -> push_inv h0 nodes ps0 s ps ->
  exists s', push_exec i s = Some s' /\ push_inv h0 nodes ps0 s' (ps ++ exch_of i s).
Proof.
  intros Hnd Hinv. unfold exch_of. destruct (pb_threads s !! i) as [[n [| |a|]]|] eqn:Hi;
    rewrite ?app_nil_r; eauto using push_exec_start, push_exec_exch, push_exec_link.
  all: exists s; split; [unfold push_exec; by rewrite Hi|done].
Qed.

Lemma push_run_inv h0 nodes ps0 sched s ps :
  NoDup nodes -> push_inv h0 nodes ps0 s ps ->
  exists s', push_run sched s = Some s' /\ push_inv h0 nodes ps0 s' (ps ++ exchanges sched s).
Proof.
  intros Hnd. revert s ps. induction sched as [|i sched IH]; intros s ps Hinv; simpl.
  { exists s. by rewrite app_nil_r. }
  destruct (push_exec_inv _ _ _ _ _ i Hnd Hinv) as (s' & -> & Hinv'). simpl.
  destruct (IH _ _ Hinv') as (s'' & -> & Hinv''). exists s''. split; [done|].
  by rewrite app_assoc.
Qed.

Lemma push_inv_done h0 nodes ps0 s ps :
  push_inv h0 nodes ps0 s ps -> all_done s -> is_list (pb_heap s) (pb_list s) ps.
Proof.
  intros (Hwf & Hm & Hend & Hno & Hth & Hadj & Hin & Hpay) Hd. split_and!; auto.
  intros a b Hab. destruct (Hadj _ _ Hab) as [?|[i Hi]]; [done|].
  apply list_elem_of_lookup_2, Hd in Hi. discriminate.
Qed.

(** ** Progress *)

Definition pc_rank (pc : push_pc) : nat :=
  match pc with PB_start => 3 | PB_exch => 2 | PB_link _ => 1 | PB_done => 0 end.

(** Steps left to thread [i]. *)
Definition rank (i : nat) (s : push_state) : nat :=
  match pb_threads s !! i with Some (_, pc) => pc_rank pc | None => 0 end.

Lemma rank_le i s : (rank i s <= 3)%nat.
Proof. unfold rank. destruct (pb_threads s !! i) as [[n []]|]; simpl; lia. Qed.

Lemma push_exec_rank i j s s' :
  push_exec i s = Some s' ->
  if decide (i = j) then (rank j s' <= rank j s - 1)%nat else rank j s' = rank j s.
Proof.
  unfold push_exec, rank. intros E.
  destruct (pb_threads s !! i) as [[n pc]|] eqn:Hi;
    [|simplify_eq; case_decide as Hd; [subst; rewrite Hi; simpl; lia|done]].
  assert (Hlt : (i < length (pb_threads s))%nat) by by eapply lookup_lt_Some.
  assert (Hgen : forall pc' h' l', (pc_rank pc' <= pc_rank pc - 1)%nat ->
    s' = mkPush h' l' (set_thread s i n pc') ->
    if decide (i = j)
    then (match pb_threads s' !! j with Some (_, p) => pc_rank p | None => 0 end <=
          match pb_threads s !! j with Some (_, p) => pc_rank p | None => 0 end - 1)%nat
    else match pb_threads s' !! j with Some (_, p) => pc_rank p | None => 0%nat end =
         match pb_threads s !! j with Some (_, p) => pc_rank p | None => 0%nat end).
  { intros pc' h' l' Hr ->. unfold set_thread. simpl. case_decide as Hd.
    - subst j. by rewrite list_lookup_insert_eq, Hi by done.
    - by rewrite list_lookup_insert_ne by done. }
  destruct pc as [| |old|]; simpl in *.
  - destruct (n =? 0); [simplify_eq; eapply Hgen; eauto; simpl; lia|].
    destruct (heap_update _ _ _); [|discriminate]. simplify_eq/=. eapply Hgen; eauto; simpl; lia.
  - simplify_eq. eapply Hgen; eauto; simpl; lia.
  - destruct (link_store _ _ _ _) as [[h' l']|]; [|discriminate]. simplify_eq/=.
    eapply Hgen; eauto; simpl; lia.
  - simplify_eq. case_decide as Hd; [subst; rewrite Hi; simpl; lia|done].
Qed.

Lemma push_run_rank sched j s s' :
  push_run sched s = Some s' ->
  (rank j s' <= rank j s - length (filter (eq j) sched))%nat.
Proof.
  revert s. induction sched as [|i sched IH]; intros s E; simpl in E; [simplify_eq; simpl; lia|].
  destruct (push_exec i s) as [s1|] eqn:E1; [|discriminate]. simpl in E.
  pose proof (push_exec_rank i j _ _ E1) as Hr. specialize (IH _ E).
  destruct (decide (i = j)) as [->|Hne].
  - rewrite filter_cons_True by done. simpl. lia.
  - rewrite filter_cons_False by (intros ->; done). lia.
Qed.

(** C16: [pushBack] is linearisable at its exchange.  Whatever the interleaving
    of the threads, no step stores through a bad pointer; a schedule in which
    every thread takes its three steps lets all of them return; and once all have
    returned the list holds the old frames followed by the pushed ones, in the
    order of the exchanges, with no frame lost, no link dangling and the
    particle data of all frames unchanged. *)
Theorem concurrent_pushBack h l ps nodes sched :
  is_list h l ps -> NoDup nodes ->
  (forall n, n ∈ nodes -> n <> 0 /\ (n ∉ ps) /\ is_Some (h !! n)) ->
  exists s, push_run sched (push_init h l nodes) = Some s /\
    ((forall i, (i < length nodes)%nat -> (3 <= length (filter (eq i) sched))%nat) -> all_done s) /\
    (all_done s ->
       let order := exchanges sched (push_init h l nodes) in
       order ≡ₚ nodes /\ is_list (pb_heap s) (pb_list s) (ps ++ order) /\
       same_payload h (pb_heap s)).
Proof.
  intros Hl Hnd Hn. pose proof (push_inv_init _ _ _ _ Hl Hnd Hn) as Hinv.
  destruct (push_run_inv _ _ _ sched _ _ Hnd Hinv) as (s & Hrun & Hinv'). exists s.
  split_and!; [done| |].
  - intros Hf n pc [i Hi]%list_elem_of_lookup_1.
    destruct Hinv' as (_ & _ & _ & Hno & _).
    assert (Hlt : (i < length nodes)%nat).
    { rewrite <-Hno, length_fmap. by eapply lookup_lt_Some. }
    pose proof (push_run_rank sched i _ _ Hrun) as Hr. specialize (Hf i Hlt).
    pose proof (rank_le i (push_init h l nodes)).
    unfold rank in Hr at 1. rewrite Hi in Hr. destruct pc; simpl in Hr; try lia. done.
  - intros Hd order. pose proof (push_inv_done _ _ _ _ _ Hinv' Hd) as HL.
    destruct Hinv' as (([_ Hnd']%NoDup_cons & _) & _ & _ & Hno & Hth & _ & Hin & Hpay).
    apply NoDup_app in Hnd' as (_ & Hdisj & Hndo). split_and!; [|done..].
    apply NoDup_Permutation; [done..|]. intros n. split.
    + intros Ho. destruct (Hin n) as [Hps|?]; [by apply elem_of_app; right| |done]. by destruct (Hdisj n).
    + intros Hnn. pose proof (Hn n Hnn) as (_ & Hps & _).
      rewrite <-Hno in Hnn. apply list_elem_of_fmap in Hnn as ([n' pc] & -> & Ht).
      pose proof (Hd _ _ Ht) as ->. apply list_elem_of_lookup_1 in Ht as [i Hi].
      destruct (Hth _ _ _ Hi) as (_ & _ & [?|?]%elem_of_app); done.
Qed.
End push.

(** ** Witness: two threads race on an empty list and interleave badly *)

Lemma concurrent_pushBack_witness :
  exists s, push_run [1; 0; 1; 0; 0; 1]%nat (push_init two_frames emptyFrameList [16; 32]%Z) = Some s /\
    is_list (pb_heap s) (pb_list s) [32; 16]%Z.
Proof.
  destruct (concurrent_pushBack two_frames emptyFrameList [] [16; 32]%Z [1; 0; 1; 0; 0; 1]%nat)
    as (s & Hrun & Hdone & Hl).
  - apply is_listb_sound. vm_compute. reflexivity.
  - apply (bool_decide_eq_true_1 _). vm_compute. reflexivity.
  - intros n [->|[->|[]%elem_of_nil]%elem_of_cons]%elem_of_cons;
      (split_and!; [discriminate|apply not_elem_of_nil|eexists; vm_compute; reflexivity]).
  - exists s. split; [exact Hrun|]. apply Hl, Hdone.
    intros [|[|i]]; simpl; [lia..|]. intros ?. exfalso. lia.
Defined.
