(* ===== verification/Lockstep.v ===== *)
(** * Index distribution: lockstep domains, index maps, launch policies

    Models pmacc/lockstep/ForEach.hpp, Config.hpp, Idx.hpp and Variable.hpp (the
    distribution of an index domain over the workers of a block),
    pmacc/particles/algorithm/ForEachFrameSlot.hpp, the grid sizing policies of
    FrameDispatch.hpp and the schedules of FrameSchedule.hpp.  alpaka's
    makeIdxMap is the class [IdxMaps]: what it promises is that the workers
    partition the range. *)
From Stdlib Require Import ZArith Lia.
From stdpp Require Import base sets list numbers gmap.
From S2P Require Import Prelude.

(** ** lockstep::ForEach *)

(** [Config<domainSize, numWorkers, simdSize>]. *)
Record Config : Set := mkConfig { domainSize : nat; numWorkers : nat; simdSize : nat }.

Definition maxIndicesPerWorker (c : Config) : nat :=
  (domainSize c + simdSize c * numWorkers c - 1) / (simdSize c * numWorkers c) * simdSize c.

(** [Idx]: the index in the domain and the worker's element number. *)
Definition Idx : Set := nat * nat.

(** The calls of the functor that worker [w] makes, in order ([domainSize <> 1]). *)
Definition forEach_calls (c : Config) (w : nat) : list Idx :=
  let peeledIterations := domainSize c / (simdSize c * numWorkers c) in
  let body (i s : nat) : Idx :=
    let beginWorker := i * simdSize c in
    let beginIdx := beginWorker * numWorkers c + simdSize c * w in
    (beginIdx + s, beginWorker + s) in
  (seq 0 peeledIterations ≫= fun i => map (body i) (seq 0 (simdSize c))) ++
  (if negb (domainSize c mod (simdSize c * numWorkers c) =? 0) then
     let leftOverIndices := domainSize c - peeledIterations * numWorkers c * simdSize c in
     map (body peeledIterations)
         (filter (fun s => w * simdSize c + s < leftOverIndices) (seq 0 (simdSize c)))
   else []).

(** The overload for a domain of one index, run by the master worker. *)
Definition forEach_master (w : nat) : list Idx := if w =? 0 then [(0, 0)] else [].

Definition forEach (c : Config) (w : nat) : list Idx :=
  if domainSize c =? 1 then forEach_master w else forEach_calls c w.

(** [makeMaster(worker)]: [makeForEach<1, 1>]. *)
Definition makeMaster (nWorkers w : nat) : list Idx := forEach (mkConfig 1 nWorkers 1) w.

Section lockstep_domain.
Context (c : Config).
Context (HW : 0 < numWorkers c) (Hsimd : 0 < simdSize c).

Lemma elem_of_forEach_calls w j e :
  w < numWorkers c ->
  (j, e) ∈ forEach_calls c w <->
  j < domainSize c /\ (j / simdSize c) mod numWorkers c = w /\
  e = j / (simdSize c * numWorkers c) * simdSize c + j mod simdSize c.
Proof using HW Hsimd.
  intros Hw. set (D := domainSize c). set (W := numWorkers c). set (s := simdSize c).
  fold s W in Hsimd, HW, Hw.
  assert (HsW : 0 < s * W) by nia.
  set (P := D / (s * W)).
  pose proof (Nat.div_mod_eq D (s * W)) as HD. fold P in HD.
  pose proof (Nat.mod_upper_bound D (s * W) ltac:(lia)) as Hmod.
  assert (Hchar : forall i k, k < s -> let j := i * s * W + s * w + k in
    (j / s) mod W = w /\ j / (s * W) = i /\ j mod s = k).
  { intros i k Hk. simpl.
    replace (i * s * W + s * w + k) with ((i * W + w) * s + k) by lia.
    rewrite Nat.div_add_l, (Nat.div_small k), Nat.add_0_r by lia. split_and!.
    - rewrite Nat.add_comm, Nat.Div0.mod_add. by apply Nat.mod_small.
    - rewrite <-Nat.Div0.div_div. rewrite Nat.div_add_l, (Nat.div_small k), Nat.add_0_r by lia.
      rewrite Nat.div_add_l, (Nat.div_small w) by lia. lia.
    - rewrite Nat.add_comm, Nat.Div0.mod_add. by apply Nat.mod_small. }
  unfold forEach_calls. fold D W s P. rewrite elem_of_app, list_elem_of_bind. split.
  - intros [(i & Hi & Hin%elem_of_seq)|Hr].
    + apply list_elem_of_fmap in Hi as (k & [= -> ->] & Hk%elem_of_seq).
      pose proof (Hchar i k ltac:(lia)) as Hx. cbv zeta in Hx. destruct Hx as (Ex1 & Ex2 & Ex3).
      rewrite Ex1, Ex2, Ex3. split_and!; [nia|done|done].
    + destruct (negb _); [|by apply elem_of_nil in Hr].
      apply list_elem_of_fmap in Hr as (k & [= -> ->] & Hk).
      apply list_elem_of_filter in Hk as [Hk1 Hk2%elem_of_seq].
      pose proof (Hchar P k ltac:(lia)) as Hx. cbv zeta in Hx. destruct Hx as (Ex1 & Ex2 & Ex3).
      rewrite Ex1, Ex2, Ex3. split_and!; [nia|done|done].
  - intros (Hj & Hjw & ->).
    set (i := j / (s * W)). set (k := j mod s).
    assert (Hk : k < s) by (apply Nat.mod_upper_bound; lia).
    assert (Hj' : j = i * s * W + s * w + k).
    { pose proof (Nat.div_mod_eq j s) as A. pose proof (Nat.div_mod_eq (j / s) W) as B.
      rewrite Hjw, Nat.Div0.div_div in B. fold i in B. fold k in A. nia. }
    assert (Hi : i <= P) by (apply Nat.Div0.div_le_mono; lia).
    destruct (decide (i < P)) as [HiP|HiP].
    + left. exists i. split; [|apply elem_of_seq; lia].
      apply list_elem_of_fmap. exists k. split; [f_equal; lia|apply elem_of_seq; lia].
    + right. assert (i = P) as HiP' by lia.
      assert (D mod (s * W) <> 0) as Hne.
      { intros E. rewrite E in HD. nia. }
      rewrite (proj2 (Nat.eqb_neq _ _) Hne). simpl.
      apply list_elem_of_fmap. exists k. split; [f_equal; lia|].
      apply list_elem_of_filter. split; [nia|apply elem_of_seq; lia].
Qed.

Lemma forEach_calls_NoDup w : w < numWorkers c -> NoDup (forEach_calls c w).
Proof using HW Hsimd.
  intros Hw. unfold forEach_calls.
  set (D := domainSize c). set (W := numWorkers c). set (s := simdSize c).
  fold s W in Hsimd, HW, Hw. set (P := D / (s * W)).
  apply NoDup_app. split_and!.
  - apply NoDup_bind; [| |apply NoDup_seq].
    + intros i i' [j e] _ _ H1 H2.
      apply list_elem_of_fmap in H1 as (k & [= -> ->] & Hk%elem_of_seq).
      apply list_elem_of_fmap in H2 as (k' & [= _ E] & Hk'%elem_of_seq). nia.
    + intros i _. apply NoDup_fmap_2; [|apply NoDup_seq]. intros k k' [= ? ?]. lia.
  - intros [j e] H1 H2. apply list_elem_of_bind in H1 as (i & H1 & Hi%elem_of_seq).
    apply list_elem_of_fmap in H1 as (k & [= -> ->] & Hk%elem_of_seq).
    destruct (negb _); [|by apply elem_of_nil in H2].
    apply list_elem_of_fmap in H2 as (k' & [= _ E] & [_ Hk'%elem_of_seq]%list_elem_of_filter). nia.
  - destruct (negb _); [|constructor].
    apply NoDup_fmap_2; [|apply NoDup_filter, NoDup_seq]. intros k k' [= ? ?]. lia.
Qed.
End lockstep_domain.

(** The workers of a block execute the functor of a lockstep domain exactly
    once per index, for every domain size, worker count and SIMD width (masters
    included); and inside a worker distinct calls use distinct elements of a
    lockstep variable, all within its [maxIndicesPerWorker] elements. *)
Theorem forEach_covers_domain c :
  0 < numWorkers c -> 0 < simdSize c ->
  seq 0 (numWorkers c) ≫= (fun w => map fst (forEach c w)) ≡ₚ seq 0 (domainSize c) /\
  forall w, w < numWorkers c ->
    NoDup (map snd (forEach c w)) /\
    forall j e, (j, e) ∈ forEach c w -> e < maxIndicesPerWorker c.
Proof.
  intros HW Hs. unfold forEach, maxIndicesPerWorker. destruct (Nat.eqb_spec (domainSize c) 1) as [E|Hne].
  - split.
    + rewrite E. destruct (numWorkers c) as [|n]; [lia|].
      change (seq 0 (S n)) with (0 :: seq 1 n). rewrite bind_cons.
      assert (Hn : seq 1 n ≫= (fun w => map fst (forEach_master w)) = []); [|by rewrite Hn].
      rewrite <-(fmap_S_seq 0 n). induction (seq 0 n) as [|x l IH]; [done|]. done.
    + intros w Hw. unfold forEach_master. destruct (Nat.eqb_spec w 0) as [Hw0|Hw0]; simpl.
      * split; [apply NoDup_singleton|]. intros j e Eje%list_elem_of_singleton. injection Eje as -> ->.
        apply Nat.mul_pos_pos; [|done]. apply Nat.div_str_pos. nia.
      * split; [constructor|]. by intros j e ?%elem_of_nil.
  - set (s := simdSize c) in *. set (W := numWorkers c) in *. set (D := domainSize c) in *.
    assert (Hel := fun w j e => elem_of_forEach_calls c HW Hs w j e). fold s W D in Hel. split.
    + assert (Hfst : forall w j, w < W -> j ∈ map fst (forEach_calls c w) <-> j < D /\ (j / s) mod W = w).
      { intros w j Hw. rewrite list_elem_of_fmap. split.
        - intros ([j' e] & -> & (?&?&_)%Hel); done.
        - intros [? ?]. exists (j, j / (s * W) * s + j mod s). split; [done|]. by apply Hel. }
      apply NoDup_Permutation; [|apply NoDup_seq|].
      * apply NoDup_bind; [| |apply NoDup_seq].
        -- intros w w' j Hw%elem_of_seq Hw'%elem_of_seq [_ E1]%Hfst [_ E2]%Hfst; lia.
        -- intros w Hw%elem_of_seq. apply NoDup_fmap_fst; [|apply forEach_calls_NoDup; (done || fold W; lia)].
           intros j e e' (_ & _ & ->)%Hel (_ & _ & ->)%Hel; [done|lia|lia].
      * intros j. rewrite list_elem_of_bind, elem_of_seq. split.
        -- intros (w & Hj & Hw%elem_of_seq). apply Hfst in Hj; lia.
        -- intros Hj. pose proof (Nat.mod_upper_bound (j / s) W ltac:(lia)).
           exists ((j / s) mod W). rewrite Hfst, elem_of_seq by done. lia.
    + intros w Hw. split.
      * apply (NoDup_fmap_2_strong snd); [|by apply forEach_calls_NoDup].
        intros [j e] [j' e'] (Hj & Hjw & ->)%Hel (Hj' & Hjw' & ->)%Hel E; [|done..]. simpl in E.
        pose proof (Nat.mod_upper_bound j s ltac:(lia)). pose proof (Nat.mod_upper_bound j' s ltac:(lia)).
        assert (j / (s * W) = j' / (s * W) /\ j mod s = j' mod s) as [Ei Ek] by (by eapply radix_unique).
        pose proof (Nat.div_mod_eq j s) as A. pose proof (Nat.div_mod_eq j' s) as A'.
        pose proof (Nat.div_mod_eq (j / s) W) as B. pose proof (Nat.div_mod_eq (j' / s) W) as B'.
        rewrite Hjw, Nat.Div0.div_div in B. rewrite Hjw', Nat.Div0.div_div, <-Ei in B'.
        f_equal; [nia|by rewrite Ei, Ek].
      * intros j e (Hj & _ & ->)%Hel; [|done].
        pose proof (Nat.mod_upper_bound j s ltac:(lia)).
        assert (j / (s * W) < (D + s * W - 1) / (s * W)); [|nia].
        replace (D + s * W - 1) with (D - 1 + 1 * (s * W)) by nia.
        rewrite Nat.div_add by nia. pose proof (Nat.Div0.div_le_mono j (D - 1) (s * W)). lia.
Qed.

(** ** alpaka::onAcc::makeIdxMap

    [idx_map_strided n w total] and [idx_map_contiguous n w total]: the indices
    of [0, total) that worker [w] of [n] traverses. *)
Class IdxMaps : Type := {
  idx_map_strided : nat -> nat -> nat -> list nat;
  idx_map_contiguous : nat -> nat -> nat -> list nat;
  idx_map_strided_partition : forall n total, 0 < n ->
    seq 0 n ≫= (fun w => idx_map_strided n w total) ≡ₚ seq 0 total;
  idx_map_contiguous_partition : forall n total, 0 < n ->
    seq 0 n ≫= (fun w => idx_map_contiguous n w total) ≡ₚ seq 0 total
}.

(** A concrete instance: strides, and balanced ranges of which the first
    [total mod n] have one index more. *)
Definition balanced_start (n w total : nat) : nat := w * (total / n) + w `min` (total mod n).

Lemma balanced_ranges n total k :
  k <= n ->
  seq 0 k ≫= (fun w => seq (balanced_start n w total)
    (balanced_start n (S w) total - balanced_start n w total)) = seq 0 (balanced_start n k total).
Proof.
  induction k as [|k IH]; intros Hk; [done|].
  rewrite seq_S, bind_app, IH by lia. cbn [mbind list_bind Nat.add]. rewrite app_nil_r.
  assert (balanced_start n k total <= balanced_start n (S k) total) by (unfold balanced_start; nia).
  rewrite <-seq_app. f_equal. lia.
Qed.

#[export] Instance idx_maps_ref : IdxMaps.
Proof.
  refine {| idx_map_strided := fun n w total => strided w n total;
            idx_map_contiguous := fun n w total => seq (balanced_start n w total)
              (balanced_start n (S w) total - balanced_start n w total) |}.
  - intros n total Hn. by apply strided_partition.
  - intros n total Hn. rewrite balanced_ranges by done. f_equiv. unfold balanced_start.
    pose proof (Nat.div_mod_eq total n). pose proof (Nat.mod_upper_bound total n). lia.
Defined.

(** ** Grid sizing and schedules *)

Section dispatch.
Context `{IdxMaps}.

(** The grid sizing policies [OneBlockPerFrame] and [FixedGrid<N>]. *)
Inductive GridPolicy : Set := OneBlockPerFrame | FixedGrid (numBlocks : nat).

Definition numBlocks (g : GridPolicy) (totalFrames : nat) : nat :=
  match g with
  | OneBlockPerFrame => totalFrames
  | FixedGrid n => if n <? totalFrames then n else totalFrames
  end.

Inductive Schedule : Set := OneToOne | GridStride | Contiguous.

(** The frames block [b] of a grid of [gridDim] blocks hands to the frame body. *)
Definition schedule_frames (s : Schedule) (gridDim b total : nat) : list nat :=
  match s with
  | OneToOne => if b <? total then [b] else []
  | GridStride => idx_map_strided gridDim b total
  | Contiguous => idx_map_contiguous gridDim b total
  end.

(** [forEachBlockFrame]: nothing for a total of zero. *)
Definition forEachBlockFrame (s : Schedule) (gridDim b total : nat) : list nat :=
  if total <=? 0 then [] else schedule_frames s gridDim b total.

(** The documented constraint: [OneToOne] needs [OneBlockPerFrame], and a fixed
    grid has a block. *)
Definition valid_config (s : Schedule) (g : GridPolicy) : Prop :=
  match s, g with
  | _, OneBlockPerFrame => True
  | OneToOne, FixedGrid _ => False
  | _, FixedGrid n => 0 < n
  end.

Lemma numBlocks_pos g total s : valid_config s g -> 0 < total -> 0 < numBlocks g total.
Proof. destruct s, g; simpl; intros; try case_goal; lia. Qed.

Lemma numBlocks_le g total : numBlocks g total <= total.
Proof. destruct g; simpl; [done|]. destruct (Nat.ltb_spec numBlocks0 total); lia. Qed.

(** The blocks partition the frames. *)
Lemma schedule_partition s g total :
  valid_config s g ->
  seq 0 (numBlocks g total) ≫= (fun b => forEachBlockFrame s (numBlocks g total) b total)
  ≡ₚ seq 0 total.
Proof.
  intros Hv. unfold forEachBlockFrame. destruct (Nat.leb_spec total 0) as [H0|Hpos].
  - assert (total = 0) as -> by lia. destruct (numBlocks g 0) as [|n] eqn:E; [done|].
    pose proof (numBlocks_le g 0). lia.
  - pose proof (numBlocks_pos _ _ _ Hv Hpos) as Hn. destruct s; simpl.
    + destruct g as [|n]; [|done]. simpl. clear.
      assert (Hk : forall k, k <= total -> seq 0 k ≫= (fun b => if b <? total then [b] else []) = seq 0 k).
      { induction k as [|k IH]; intros Hk; [done|]. rewrite seq_S, bind_app, IH by lia.
        cbn [mbind list_bind]. by rewrite (proj2 (Nat.ltb_lt (0 + k) total)) by lia. }
      by rewrite Hk.
    + by apply idx_map_strided_partition.
    + by apply idx_map_contiguous_partition.
Qed.

(** Under every valid pair of schedule and grid sizing, the blocks of the launch
    process each of the [total] frames exactly once, and no block is idle-launched beyond [total]. *)
Theorem schedule_covers_frames s g total :
  valid_config s g ->
  numBlocks g total <= total /\
  seq 0 (numBlocks g total) ≫= (fun b => forEachBlockFrame s (numBlocks g total) b total)
  ≡ₚ seq 0 total.
Proof. intros Hv. split; [apply numBlocks_le|by apply schedule_partition]. Qed.

(** [forEachFrameSlot<frameSize>]: the slots worker [w] of a block visits. *)
Definition forEachFrameSlot (nWorkers w frameSize : nat) : list nat :=
  idx_map_strided nWorkers w frameSize.
End dispatch.

(** ** Witnesses *)

Lemma forEach_covers_domain_witness :
  seq 0 3 ≫= (fun w => map fst (forEach (mkConfig 11 3 2) w)) ≡ₚ seq 0 11 /\
  map fst (forEach (mkConfig 11 3 2) 2) = [4; 5; 10].
Proof.
  split; [|reflexivity].
  refine (proj1 (forEach_covers_domain (mkConfig 11 3 2) _ _)); simpl; lia.
Defined.

Lemma schedule_covers_frames_witness :
  seq 0 4 ≫= (fun b => forEachBlockFrame Contiguous 4 b 10) ≡ₚ seq 0 10 /\
  forEachBlockFrame Contiguous 4 1 10 = [3; 4; 5].
Proof.
  split; [|reflexivity].
  apply (schedule_covers_frames Contiguous (FixedGrid 4) 10). simpl. lia.
Defined.
