(* ===== verification/Regions.v ===== *)
(** * Particle regions and the region buffer

    Models spmacc/particles/regions/ParticleRegion.hpp and
    ParticleRegionBuffer.hpp, with the host and device halves of a
    HostDeviceBuffer. *)
From Stdlib Require Import ZArith Lia.
From stdpp Require Import base sets list numbers gmap.
From S2P Require Import Prelude Scalar Topology Aabb FrameList.

(** ** HostDeviceBuffer *)

Record HDBuffer (A : Type) : Type := mkHD { hostData : list A; deviceData : list A }.
Arguments mkHD {A}.
Arguments hostData {A}.
Arguments deviceData {A}.

Definition deviceToHost {A} (b : HDBuffer A) : HDBuffer A := mkHD (deviceData b) (deviceData b).
Definition hostToDevice {A} (b : HDBuffer A) : HDBuffer A := mkHD (hostData b) (hostData b).

(** A fresh allocation of [n] elements of unknown content [junk]. *)
Definition hd_alloc {A} (n : nat) (junk : A) : HDBuffer A :=
  mkHD (replicate n junk) (replicate n junk).

(** ** Regions *)

Section regions.
Context {T : Type} `{Scalar T}.

Record ParticleRegion : Type := mkRegion {
  volume : AABB T;
  particleFrameList : FrameList
}.

Definition set_volume (v : AABB T) (r : ParticleRegion) : ParticleRegion :=
  mkRegion v (particleFrameList r).
Definition set_frameList (l : FrameList) (r : ParticleRegion) : ParticleRegion :=
  mkRegion (volume r) l.

(** [ParticleRegionBuffer]; [pr_id] is its address, which identifies it. *)
Record PRBuffer : Type := mkPRBuffer {
  pr_id : Z;
  pr_buffer : option (HDBuffer ParticleRegion);
  pr_size : nat;
  topologyVersion : Z
}.

Definition bumpTopology (b : PRBuffer) : PRBuffer :=
  mkPRBuffer (pr_id b) (pr_buffer b) (pr_size b) (u64 (topologyVersion b + 1)).

(** [create(capacity)]. *)
Definition create (capacity : nat) (junk : ParticleRegion) (b : PRBuffer) : PRBuffer :=
  bumpTopology (mkPRBuffer (pr_id b) (Some (hd_alloc capacity junk)) 0 (topologyVersion b)).

(** [pushBack(pr)]: writes the host copy.  [None] is the violated assertion, or
    an access to a buffer that was never created. *)
Definition pr_pushBack (pr : ParticleRegion) (b : PRBuffer) : option PRBuffer :=
  buf ← pr_buffer b;
  if pr_size b <? length (hostData buf)
  then Some (bumpTopology (mkPRBuffer (pr_id b)
         (Some (mkHD (<[pr_size b := pr]> (hostData buf)) (deviceData buf)))
         (S (pr_size b)) (topologyVersion b)))
  else None.

(** [synchronize()]: the device copy comes to the host. *)
Definition synchronize (b : PRBuffer) : PRBuffer :=
  mkPRBuffer (pr_id b) (deviceToHost <$> pr_buffer b) (pr_size b) (topologyVersion b).

Definition pr_hostToDevice (b : PRBuffer) : PRBuffer :=
  mkPRBuffer (pr_id b) (hostToDevice <$> pr_buffer b) (pr_size b) (topologyVersion b).

(** [getDeviceDataBox()]. *)
Definition getDeviceDataBox (b : PRBuffer) : list ParticleRegion :=
  match pr_buffer b with Some buf => deviceData buf | None => [] end.

(** The regions a kernel over the buffer sees: the first [size] device entries. *)
Definition regions_of (b : PRBuffer) : list ParticleRegion := take (pr_size b) (getDeviceDataBox b).

Definition prbuf_wf (b : PRBuffer) : Prop :=
  match pr_buffer b with
  | Some buf => length (hostData buf) = length (deviceData buf) /\ pr_size b <= length (deviceData buf)
  | None => pr_size b = 0
  end.

Lemma regions_of_length b : prbuf_wf b -> length (regions_of b) = pr_size b.
Proof.
  unfold prbuf_wf, regions_of, getDeviceDataBox. destruct (pr_buffer b) as [buf|].
  - intros [_ ?]. rewrite length_take. lia.
  - intros ->. done.
Qed.

Lemma pr_pushBack_wf pr b b' : prbuf_wf b -> pr_pushBack pr b = Some b' -> prbuf_wf b'.
Proof.
  unfold prbuf_wf, pr_pushBack. destruct (pr_buffer b) as [buf|]; [|done]. simpl.
  intros [Hl Hs] E. case_hyp E; [|discriminate]. bool_to_prop. simplify_eq. simpl.
  rewrite length_insert. lia.
Qed.

Fixpoint pr_pushAll (prs : list ParticleRegion) (b : PRBuffer) : option PRBuffer :=
  match prs with
  | [] => Some b
  | pr :: prs => b' ← pr_pushBack pr b; pr_pushAll prs b'
  end.

Lemma pr_pushAll_eq prs b buf :
  pr_buffer b = Some buf -> pr_size b + length prs <= length (hostData buf) ->
  (0 <= topologyVersion b < 2 ^ 64)%Z ->
  pr_pushAll prs b =
  Some (mkPRBuffer (pr_id b)
    (Some (mkHD (list_inserts (pr_size b) prs (hostData buf)) (deviceData buf)))
    (pr_size b + length prs) (u64 (topologyVersion b + Z.of_nat (length prs)))).
Proof.
  revert b buf. induction prs as [|pr prs IH]; intros [id bf sz v] buf Hb Hs Hv; simpl in *.
  { subst bf. rewrite Nat.add_0_r, Z.add_0_r, u64_small by done. by destruct buf. }
  subst bf. unfold pr_pushBack. simpl. rewrite (proj2 (Nat.ltb_lt _ _)) by lia. simpl.
  erewrite IH; [|done|simpl; rewrite length_insert; lia|apply u64_bounds]. simpl.
  do 2 f_equal; [|lia|].
  - do 2 f_equal. symmetry. apply list_insert_inserts_lt. lia.
  - rewrite u64_add_l. f_equal. lia.
Qed.

(** A buffer created for [n] regions and filled with at most [n] of them
    holds exactly those, in push order, once sent to the device; one push more
    violates the capacity assertion; and each of the [1 + length prs] mutations moved
    [topologyVersion], so that fewer than 2^64 of them leave a version different
    from the old one. *)
Theorem region_buffer_fill n junk prs b :
  (0 <= topologyVersion b < 2 ^ 64)%Z -> length prs <= n -> (Z.of_nat (length prs) + 1 < 2 ^ 64)%Z ->
  exists b', pr_pushAll prs (create n junk b) = Some b' /\
    regions_of (pr_hostToDevice b') = prs /\ pr_size b' = length prs /\ prbuf_wf b' /\
    topologyVersion b' <> topologyVersion b /\
    (length prs = n -> forall pr, pr_pushBack pr b' = None).
Proof.
  intros Hv Hn Hk. erewrite pr_pushAll_eq; [|done|simpl; rewrite length_replicate; lia|apply u64_bounds].
  eexists; split; [done|]. simpl. split_and!.
  - unfold regions_of, getDeviceDataBox. simpl. apply list_eq. intros i.
    destruct (decide (i < length prs)) as [Hi|Hi].
    + rewrite lookup_take_lt by done. rewrite list_lookup_inserts by (rewrite ?length_replicate; lia).
      by rewrite Nat.sub_0_r.
    + rewrite lookup_take_ge by lia. symmetry. apply lookup_ge_None. lia.
  - done.
  - unfold prbuf_wf. simpl. rewrite length_inserts, !length_replicate. lia.
  - rewrite u64_add_l. unfold u64. intros E.
    pose proof (Z.div_mod (topologyVersion b + 1 + Z.of_nat (length prs)) (2 ^ 64) ltac:(lia)).
    set (q := (_ / _)%Z) in *. assert (q = 0 \/ q = 1 \/ 2 <= q \/ q < 0)%Z by lia. lia.
  - intros <- pr. unfold pr_pushBack. simpl. rewrite length_inserts, length_replicate.
    by rewrite (proj2 (Nat.ltb_ge _ _)) by lia.
Qed.
End regions.

Arguments ParticleRegion : clear implicits.
Arguments PRBuffer : clear implicits.

(** ** Witness *)

Lemma region_buffer_fill_witness :
  exists b', pr_pushAll [mkRegion (mkAABB [1; 1; 1] [0; 0; 0] [2; 2; 2]) (mkFrameList 16 32 3)]%Z
      (create 1 (mkRegion (mkAABB [] [] []) emptyFrameList) (mkPRBuffer 5 None 0 41)) = Some b' /\
    pr_size b' = 1 /\ topologyVersion b' = 43%Z.
Proof.
  destruct (region_buffer_fill 1 (mkRegion (mkAABB [] [] []) emptyFrameList)
    [mkRegion (mkAABB [1; 1; 1] [0; 0; 0] [2; 2; 2]) (mkFrameList 16 32 3)]%Z (mkPRBuffer 5 None 0 41))
    as (b' & Hb & _ & Hs & _).
  - simpl. lia.
  - simpl. lia.
  - simpl. lia.
  - exists b'. split_and!; [exact Hb|exact Hs|]. vm_compute in Hb. injection Hb as <-. reflexivity.
Defined.
