(* ===== verification/Scan.v ===== *)
(** * Counting, scanning and filling

    The pattern by which the host sizes flat device arrays (FrameDispatch.hpp,
    FrameIndex.hpp, NeighbourRegions.hpp, InitParticles.hpp): a kernel counts
    the items of each block, the host computes the inclusive prefix sum, and a
    second kernel lets each block store its items from its base offset on.
    Models [inclusiveScanHost]; proves that the segments the blocks store
    partition the flat array whatever the order of the blocks. *)
From Stdlib Require Import ZArith Lia.
From stdpp Require Import base sets list numbers gmap.
From S2P Require Import Prelude.

Definition zsum (l : list Z) : Z := foldr Z.add 0%Z l.

Lemma zsum_app l k : zsum (l ++ k) = (zsum l + zsum k)%Z.
Proof. induction l as [|x l IH]; simpl; [lia|]. unfold zsum in *. simpl. lia. Qed.

Lemma zsum_nonneg l : Forall (fun x => 0 <= x)%Z l -> (0 <= zsum l)%Z.
Proof. induction 1; unfold zsum in *; simpl; lia. Qed.

(** [zlengths segs]: the sizes of the segments as the counting kernel stores them. *)
Definition zlengths {A} (segs : list (list A)) : list Z := map (fun s => Z.of_nat (length s)) segs.

Lemma zsum_zlengths {A} (segs : list (list A)) : zsum (zlengths segs) = Z.of_nat (length (concat segs)).
Proof.
  induction segs as [|s segs IH]; [done|]. unfold zlengths, zsum in *. simpl.
  rewrite IH, length_app. lia.
Qed.

Lemma zlengths_take {A} (segs : list (list A)) k : take k (zlengths segs) = zlengths (take k segs).
Proof. unfold zlengths. by rewrite firstn_map. Qed.

(** Base offset of segment [b]. *)
Definition seg_off {A} (segs : list (list A)) (b : nat) : nat := length (concat (take b segs)).

Lemma seg_off_S {A} (segs : list (list A)) b s :
  segs !! b = Some s -> seg_off segs (S b) = seg_off segs b + length s.
Proof.
  intros Hs. unfold seg_off. rewrite (take_S_r _ _ _ Hs), concat_app, length_app. simpl.
  rewrite app_nil_r. done.
Qed.

Lemma seg_off_le {A} (segs : list (list A)) b : seg_off segs b <= length (concat segs).
Proof.
  unfold seg_off. rewrite <-(take_drop b segs) at 2. rewrite concat_app, length_app. lia.
Qed.

Lemma seg_off_mono {A} (segs : list (list A)) b c : b <= c -> seg_off segs b <= seg_off segs c.
Proof.
  intros Hbc. unfold seg_off. replace (take b segs) with (take b (take c segs)) by (rewrite take_take; f_equal; lia).
  apply (seg_off_le (take c segs) b).
Qed.

Lemma seg_bound {A} (segs : list (list A)) b s :
  segs !! b = Some s -> seg_off segs b + length s <= length (concat segs).
Proof. intros Hs. rewrite <-(seg_off_S _ _ _ Hs). apply seg_off_le. Qed.

(** ** [inclusiveScanHost]

    [data[i] += data[i - 1]] for [i = 1 .. size - 1], in uint32_t arithmetic;
    [None] is an access outside the buffer. *)

Definition scan_step (data : list Z) (i : nat) : option (list Z) :=
  x ← data !! i; y ← data !! (i - 1); box_write data i (u32 (x + y)).

Fixpoint scan_loop (ks : list nat) (data : list Z) : option (list Z) :=
  match ks with
  | [] => Some data
  | i :: ks => data' ← scan_step data i; scan_loop ks data'
  end.

Definition inclusiveScanHost (data : list Z) (size : nat) : option (Z * list Z) :=
  if size =? 0 then Some (0%Z, data)
  else data' ← scan_loop (seq 1 (size - 1)) data; r ← data' !! (size - 1); Some (r, data').

Lemma scan_loop_snoc ks i data :
  scan_loop (ks ++ [i]) data = data' ← scan_loop ks data; scan_step data' i.
Proof.
  revert data. induction ks as [|j ks IH]; intros data; simpl; [by destruct (scan_step data i)|].
  by destruct (scan_step data j); simpl.
Qed.

Lemma scan_loop_spec k data :
  k < length data -> (forall x, data !! 0%nat = Some x -> 0 <= x < 2 ^ 32)%Z ->
  exists data', scan_loop (seq 1 k) data = Some data' /\ length data' = length data /\
    (forall i, i <= k -> data' !! i = Some (u32 (zsum (take (S i) data)))) /\
    (forall i, k < i -> data' !! i = data !! i).
Proof.
  intros Hk Hr. induction k as [|k IH].
  { exists data. split_and!; [done..| |done]. intros i Hi. assert (i = 0) as -> by lia.
    destruct data as [|x data]; [simpl in Hk; lia|]. simpl. unfold zsum. simpl.
    by rewrite Z.add_0_r, u32_small by by apply Hr. }
  destruct IH as (d & Hd & Hl & Hle & Hgt); [lia|].
  rewrite seq_S, scan_loop_snoc, Hd. simpl. unfold scan_step.
  destruct (lookup_lt_is_Some_2 data (S k) Hk) as [x Hx].
  rewrite (Hgt (S k)), Hx by lia. simpl. rewrite Nat.sub_0_r, (Hle k) by lia. simpl.
  rewrite box_write_Some by lia. eexists; split; [done|]. rewrite length_insert.
  split_and!; [done|..].
  - intros i Hi. destruct (decide (i = S k)) as [->|Hne].
    + rewrite list_lookup_insert_eq by lia. f_equal.
      rewrite (take_S_r _ (S k) x), zsum_app by done. rewrite u32_add_r. f_equal.
      unfold zsum at 3. simpl. lia.
    + rewrite list_lookup_insert_ne by lia. apply Hle. lia.
  - intros i Hi. rewrite list_lookup_insert_ne by lia. apply Hgt. lia.
Qed.

(** The scan of the counts of the segments, when the total fits. *)
Lemma inclusiveScanHost_segments {A} (segs : list (list A)) data rest :
  data = zlengths segs ++ rest ->
  (Z.of_nat (length (concat segs)) < 2 ^ 32)%Z ->
  exists data', inclusiveScanHost data (length segs) = Some (Z.of_nat (length (concat segs)), data') /\
    length data' = length data /\
    forall b, b < length segs -> data' !! b = Some (Z.of_nat (seg_off segs (S b))).
Proof.
  intros Hdata Htot. unfold inclusiveScanHost. destruct (Nat.eqb_spec (length segs) 0) as [H0|H0].
  { destruct segs; [|done]. exists data. split_and!; [done..|]. simpl. lia. }
  assert (Hlen : length data = length segs + length rest).
  { rewrite Hdata, length_app. unfold zlengths. by rewrite length_map. }
  destruct (scan_loop_spec (length segs - 1) data) as (d & -> & Hl & Hle & _); [lia| |].
  { intros x Hx. rewrite Hdata in Hx. destruct segs as [|s0 segs]; [done|]. injection Hx as <-.
    simpl in Htot. rewrite length_app in Htot. lia. }
  assert (Hval : forall b, b < length segs -> d !! b = Some (Z.of_nat (seg_off segs (S b)))).
  { intros b Hb. rewrite Hle by lia. f_equal. rewrite Hdata, take_app_le
      by (unfold zlengths; rewrite length_map; lia).
    rewrite zlengths_take, zsum_zlengths. pose proof (seg_off_le segs (S b)). unfold seg_off in *.
    apply u32_small. lia. }
  simpl. rewrite Hval by lia. simpl. exists d. split_and!; [|done|done].
  do 3 f_equal. replace (S (length segs - 1)) with (length segs) by lia. unfold seg_off.
  by rewrite firstn_all.
Qed.

(** ** Filling the segments *)

(** The stores of one segment from its base offset on. *)
Definition seg_writes {A} (off : nat) (seg : list A) : list (nat * A) := zip (seq off (length seg)) seg.

Lemma seg_writes_cons {A} off (x : A) seg :
  seg_writes off (x :: seg) = (off, x) :: seg_writes (S off) seg.
Proof. done. Qed.

Lemma seg_writes_fst {A} off (seg : list A) : map fst (seg_writes off seg) = seq off (length seg).
Proof. unfold seg_writes. apply fst_zip. by rewrite length_seq. Qed.

Lemma elem_of_seg_writes {A} off (seg : list A) k x :
  (k, x) ∈ seg_writes off seg <-> exists i, seg !! i = Some x /\ k = off + i.
Proof.
  revert off. induction seg as [|y seg IH]; intros off.
  { split; [by intros ?%elem_of_nil|]. by intros (i & ? & _). }
  rewrite seg_writes_cons, elem_of_cons, IH. split.
  - intros [[= -> ->]|(i & Hi & ->)]; [exists 0|exists (S i)]; split; [done|lia|done|lia].
  - intros ([|i] & Hi & ->); [left; simplify_eq/=; f_equal; lia|right].
    exists i. split; [done|lia].
Qed.

Definition block_writes {A} (segs : list (list A)) (b : nat) : list (nat * A) :=
  match segs !! b with Some s => seg_writes (seg_off segs b) s | None => [] end.

Lemma block_writes_fst {A} (segs : list (list A)) n :
  n <= length segs ->
  map fst (seq 0 n ≫= block_writes segs) = seq 0 (seg_off segs n).
Proof.
  induction n as [|n IH]; intros Hn; [done|].
  rewrite seq_S, bind_app, map_app, IH by lia. cbn [mbind list_bind Nat.add]. rewrite app_nil_r.
  destruct (lookup_lt_is_Some_2 segs n ltac:(lia)) as [s Hs].
  unfold block_writes. rewrite Hs, seg_writes_fst, (seg_off_S _ _ _ Hs), seq_app. done.
Qed.

Lemma concat_lookup {A} (segs : list (list A)) b s i x :
  segs !! b = Some s -> s !! i = Some x -> concat segs !! (seg_off segs b + i) = Some x.
Proof.
  intros Hs Hi. unfold seg_off.
  assert (E : concat segs = concat (take b segs) ++ s ++ concat (drop (S b) segs)).
  { rewrite <-(take_drop_middle segs b s Hs) at 1. by rewrite concat_app. }
  rewrite E. rewrite lookup_app_r by lia.
  replace (_ + i - _) with i by lia. rewrite lookup_app_l; [done|]. by eapply lookup_lt_Some.
Qed.

(** Whatever the order in which the blocks run, the flat array ends up with the
    segments one after the other and its remaining entries are untouched. *)
Lemma scatter_segments {A} (segs : list (list A)) order n (box : list A) :
  order ≡ₚ seq 0 n -> length segs <= n -> length (concat segs) <= length box ->
  exists box', scatter (order ≫= block_writes segs) box = Some box' /\
    length box' = length box /\ take (length (concat segs)) box' = concat segs.
Proof.
  intros Ho Hn Hlen.
  assert (Hall : order ≫= block_writes segs ≡ₚ seq 0 (length segs) ≫= block_writes segs).
  { rewrite Ho. replace n with (length segs + (n - length segs)) by lia.
    rewrite seq_app, bind_app. assert (seq (0 + length segs) (n - length segs) ≫= block_writes segs = []) as ->;
      [|by rewrite app_nil_r].
    assert (Hs : forall l, (forall b, b ∈ l -> length segs <= b) -> l ≫= block_writes segs = []).
    { induction l as [|b l IH]; intros Hb; [done|]. rewrite bind_cons, IH by (intros; apply Hb; by right).
      unfold block_writes. by rewrite (lookup_ge_None_2 segs b) by (apply Hb; by left). }
    apply Hs. intros b ?%elem_of_seq. lia. }
  assert (Hfst : map fst (order ≫= block_writes segs) ≡ₚ seq 0 (length (concat segs))).
  { rewrite Hall, block_writes_fst by done. unfold seg_off. by rewrite firstn_all. }
  destruct (scatter_spec (order ≫= block_writes segs) box) as (box' & -> & Hl & Hw & _).
  { rewrite Hfst. apply NoDup_seq. }
  { intros i. rewrite Hfst, elem_of_seq. lia. }
  exists box'. split_and!; [done..|]. apply list_eq. intros k.
  destruct (decide (k < length (concat segs))) as [Hk|Hk].
  - rewrite lookup_take_lt by done.
    assert (Hin : k ∈ map fst (order ≫= block_writes segs)) by (rewrite Hfst; apply elem_of_seq; lia).
    apply list_elem_of_fmap in Hin as ([k' x] & -> & Hin). simpl. rewrite (Hw _ _ Hin).
    apply list_elem_of_bind in Hin as (b & Hin & _). unfold block_writes in Hin.
    destruct (segs !! b) as [s|] eqn:Hs; [|by apply elem_of_nil in Hin].
    apply elem_of_seg_writes in Hin as (i & Hi & ->). symmetry. by eapply concat_lookup.
  - rewrite lookup_take_ge by lia. symmetry. apply lookup_ge_None. lia.
Qed.

(** A launch over two boxes that are stored to independently. *)
Lemma run_blocks_pair {S1 S2} (order : list nat) (k : nat -> S1 * S2 -> option (S1 * S2)) k1 k2 s1 s2 :
  (forall b x y, b ∈ order -> k b (x, y) = x' ← k1 b x; y' ← k2 b y; Some (x', y')) ->
  run_blocks order k (s1, s2) =
  x' ← run_blocks order k1 s1; y' ← run_blocks order k2 s2; Some (x', y').
Proof.
  revert s1 s2. induction order as [|b order IH]; intros s1 s2 Hk; [done|]. simpl.
  rewrite Hk by (by left). destruct (k1 b s1) as [x|]; simpl; [|done].
  destruct (k2 b s2) as [y|]; simpl.
  - apply IH. intros. apply Hk. by right.
  - by destruct (run_blocks order k1 x).
Qed.

Lemma concat_slice {A} (segs : list (list A)) b s :
  segs !! b = Some s -> take (length s) (drop (seg_off segs b) (concat segs)) = s.
Proof.
  intros Hs. unfold seg_off.
  assert (E : concat segs = concat (take b segs) ++ s ++ concat (drop (S b) segs)).
  { rewrite <-(take_drop_middle segs b s Hs) at 1. by rewrite concat_app. }
  rewrite E, drop_app_length, take_app_length. done.
Qed.

(** A counting launch that stores the count of block [b] in entry [S b]. *)
Lemma run_blocks_counts (order : list nat) n (g : nat -> Z) kernel box :
  order ≡ₚ seq 0 (Nat.max n 1) -> n < length box ->
  (forall b box', kernel b box' = if n <=? b then Some box' else box_write box' (S b) (g b)) ->
  exists box', run_blocks order kernel box = Some box' /\ length box' = length box /\
    (forall b, b < n -> box' !! S b = Some (g b)) /\ box' !! 0 = box !! 0.
Proof.
  intros Ho Hn Hk. set (ws := fun b => if n <=? b then [] else [(S b, g b)]).
  rewrite (run_blocks_scatter _ _ ws).
  2:{ intros b box' _ _. rewrite Hk. unfold ws. destruct (n <=? b); [done|]. simpl.
      by destruct (box_write box' (S b) (g b)). }
  assert (Hfst : map fst (order ≫= ws) ≡ₚ seq 1 n).
  { rewrite Ho. assert (Hg : forall m k, m + k <= n -> map fst (seq m k ≫= ws) = seq (S m) k).
    { intros m k. revert m. induction k as [|k IH]; intros m Hm; [done|]. cbn [seq].
      rewrite bind_cons, map_app, IH by lia. unfold ws at 1.
      by rewrite (proj2 (Nat.leb_gt _ _)) by lia. }
    destruct n as [|n']; [done|]. replace (Nat.max (S n') 1) with (S n') by lia. by rewrite Hg. }
  destruct (scatter_spec (order ≫= ws) box) as (box' & -> & Hl & Hw & Hr).
  { rewrite Hfst. apply NoDup_seq. }
  { intros i. rewrite Hfst, elem_of_seq. lia. }
  exists box'. split_and!; [done..| |].
  - intros b Hb. apply Hw, list_elem_of_bind. exists b. split.
    + unfold ws. rewrite (proj2 (Nat.leb_gt _ _)) by lia. by left.
    + rewrite Ho, elem_of_seq. lia.
  - apply Hr. rewrite Hfst, elem_of_seq. lia.
Qed.

(** Numbering the entries of all segments consecutively. *)
Lemma seg_map_concat {A B} (segs : list (list A)) (f : nat -> B) (g : nat -> nat -> B) :
  (forall r seg l, segs !! r = Some seg -> l < length seg -> f (seg_off segs r + l) = g r l) ->
  map f (seq 0 (length (concat segs))) = concat (imap (fun r seg => map (g r) (seq 0 (length seg))) segs).
Proof.
  intros Hf. set (F := fun r (seg : list A) => map (g r) (seq 0 (length seg))).
  assert (Hk : forall k, k <= length segs -> map f (seq 0 (seg_off segs k)) = concat (imap F (take k segs))).
  { induction k as [|k IH]; intros Hk; [done|].
    destruct (lookup_lt_is_Some_2 segs k ltac:(lia)) as [seg Hs].
    rewrite (seg_off_S _ _ _ Hs), seq_app, map_app, IH, (take_S_r _ _ _ Hs), imap_app, concat_app by lia.
    f_equal. simpl. rewrite app_nil_r, length_take. unfold F. simpl.
    replace (k `min` length segs + 0) with k by lia. rewrite <- (Nat.add_0_r (seg_off segs k)) at 1.
    rewrite <- fmap_add_seq, map_map. apply map_ext_in. intros l Hl%list_elem_of_In.
    rewrite elem_of_seq in Hl. apply (Hf k seg l Hs). lia. }
  specialize (Hk (length segs) ltac:(lia)). unfold seg_off in Hk. by rewrite firstn_all in Hk.
Qed.

(** Every position of the flat array lies in exactly one segment. *)
Lemma seg_locate {A} (segs : list (list A)) k :
  k < length (concat segs) -> exists b s l, segs !! b = Some s /\ l < length s /\ k = seg_off segs b + l.
Proof.
  revert k. induction segs as [|s segs IH]; intros k Hk; [simpl in Hk; lia|]. simpl in Hk. rewrite length_app in Hk.
  destruct (decide (k < length s)).
  - exists 0, s, k. split_and!; [done|lia|done].
  - destruct (IH (k - length s) ltac:(lia)) as (b & s' & l & Hs & Hl & E). exists (S b), s', l.
    split_and!; [done|done|]. unfold seg_off in *. simpl. rewrite length_app. lia.
Qed.

Lemma seg_unique {A} (segs : list (list A)) b b' s s' l l' :
  segs !! b = Some s -> segs !! b' = Some s' -> l < length s -> l' < length s' ->
  seg_off segs b + l = seg_off segs b' + l' -> b = b' /\ l = l'.
Proof.
  intros Hs Hs' Hl Hl' E. pose proof (seg_off_S _ _ _ Hs). pose proof (seg_off_S _ _ _ Hs').
  destruct (Nat.lt_trichotomy b b') as [Hlt|[->|Hgt]]; [exfalso| |exfalso].
  - pose proof (seg_off_mono segs (S b) b' Hlt). lia.
  - split; [done|lia].
  - pose proof (seg_off_mono segs (S b') b Hgt). lia.
Qed.
