(* ===== verification/IdProvider.v ===== *)
(** * Particle identifiers

    Models pmacc/algorithms/reverseBits.hpp and pmacc/particles/IdProvider.hpp: every
    rank hands out consecutive 64-bit identifiers from a start value that carries the
    reversed bits of the rank, so that the upper bits keep the ranks apart until a
    counter runs into them, which [isOverflown] detects. *)
From Stdlib Require Import ZArith Lia.
From stdpp Require Import base list numbers.
From S2P Require Import Prelude.

Local Open Scope Z_scope.

(** ** Bit reversal *)

(** The loop of [reverseBits] for a 64-bit [T]: [value] has been shifted once. *)
Fixpoint reverse_loop (fuel : nat) (value result s : Z) : option (Z * Z) :=
  if value =? 0 then Some (result, s) else
  match fuel with
  | O => None
  | S f => reverse_loop f (Z.shiftr value 1)
             (Z.lor (u64 (Z.shiftl result 1)) (Z.land value 1)) (s - 1)
  end.

Definition reverseBits (value : Z) : option Z :=
  '(result, s) ← reverse_loop 64 (Z.shiftr value 1) value 63;
  Some (u64 (Z.shiftl result s)).

(** ** The provider *)

(** The host-visible [State]. *)
Record IdState : Set := mkIdState { nextId : Z; startId : Z; maxNumProc : Z }.

(** [IdProvider]: the two halves of [idBuffer] and the host members. *)
Record IdProvider : Set := mkIdProvider {
  idHost : Z; idDevice : Z; m_startId : Z; m_maxNumProc : Z
}.

(** [IdGenerator::fetchInc], an atomic increment of the device counter. *)
Definition fetchInc (p : IdProvider) : Z * IdProvider :=
  (idDevice p, mkIdProvider (idHost p) (u64 (idDevice p + 1)) (m_startId p) (m_maxNumProc p)).

(** [IdGenerator::fetch]: compare-and-swap of 0 by 0, which reads the counter. *)
Definition fetch (p : IdProvider) : Z * IdProvider :=
  (idDevice p, mkIdProvider (idHost p) (if idDevice p =? 0 then 0 else idDevice p) (m_startId p) (m_maxNumProc p)).

(** [getNewIdHost()]: a kernel of one worker that fetches one identifier, copied back. *)
Definition getNewIdHost (p : IdProvider) : Z * IdProvider :=
  let newId := fetchInc p in (newId.1, newId.2).

(** [setStateHost(state)]. *)
Definition setStateHost (st : IdState) (p : IdProvider) : IdProvider :=
  mkIdProvider (nextId st) (idDevice p) (startId st)
    (if m_maxNumProc p <? maxNumProc st then maxNumProc st else m_maxNumProc p).

(** [getStateHost()]. *)
Definition getStateHost (p : IdProvider) : IdState := mkIdState (idHost p) (m_startId p) (m_maxNumProc p).

(** [initialize()] and [synchronize()]: the copies to and from the device. *)
Definition initialize (p : IdProvider) : IdProvider :=
  mkIdProvider (idHost p) (idHost p) (m_startId p) (m_maxNumProc p).
Definition synchronizeIds (p : IdProvider) : IdProvider :=
  mkIdProvider (idDevice p) (idDevice p) (m_startId p) (m_maxNumProc p).

(** The constructor; the buffer holds [raw] before. *)
Definition newIdProvider (raw mpiRank numMpiRanks : Z) : option IdProvider :=
  start ← reverseBits mpiRank;
  Some (setStateHost (mkIdState start start numMpiRanks) (mkIdProvider raw raw 0 0)).

(** [std::bit_width]. *)
Definition bit_width (x : Z) : Z := if x =? 0 then 0 else Z.log2 x + 1.

(** [isOverflown(state)]; [None] is the shift by the whole width of the type, which
    the language leaves undefined. *)
Definition isOverflown (st : IdState) : option bool :=
  let bitsToCheck := bit_width (u64 (maxNumProc st - 1)) in
  let x := Z.lxor (nextId st) (startId st) in
  if 64 <=? 64 - bitsToCheck then None
  else Some (negb (Z.shiftr x (64 - bitsToCheck) =? 0)).

(** [n] identifiers fetched one after the other, in whatever order the threads of
    the kernels reach the counter. *)
Fixpoint fetchMany (n : nat) (p : IdProvider) : list Z * IdProvider :=
  match n with
  | O => ([], p)
  | S n => let '(i, p1) := fetchInc p in let '(l, p2) := fetchMany n p1 in (i :: l, p2)
  end.

(** *** The warp-aggregated increment

    [kernel::atomicAllInc] on devices with warp votes: the lowest active lane adds the
    number of active lanes, and every lane offsets the old value by the number of
    active lanes below it. *)

Definition warpSize : nat := 32.

Definition popcount (m : Z) : Z := Z.of_nat (length (filter (fun k => Z.testbit m (Z.of_nat k) = true) (seq 0 warpSize))).

Definition lanes_of (mask : Z) : list nat := filter (fun k => Z.testbit mask (Z.of_nat k) = true) (seq 0 warpSize).

(** The results of the active lanes, in lane order, and the counter afterwards. *)
Definition AtomicAllIncKepler (mask : Z) (p : IdProvider) : list Z * IdProvider :=
  let result := idDevice p in
  (map (fun lane => u64 (result + popcount (Z.land mask (Z.shiftl 1 (Z.of_nat lane) - 1)))) (lanes_of mask),
   match lanes_of mask with
   | [] => p
   | _ => mkIdProvider (idHost p) (u64 (result + popcount mask)) (m_startId p) (m_maxNumProc p)
   end).

(** ** Bit reversal reverses the bits *)

Lemma u64_testbit z i : 0 <= i -> Z.testbit (u64 z) i = (i <? 64) && Z.testbit z i.
Proof.
  intros Hi. unfold u64. destruct (Z.ltb_spec i 64).
  - by rewrite Z.mod_pow2_bits_low by lia.
  - by rewrite Z.mod_pow2_bits_high by lia.
Qed.

Lemma high_bits v n i : 0 <= v < 2 ^ n -> n <= i -> Z.testbit v i = false.
Proof.
  intros Hv Hi. destruct (decide (v = 0)) as [->|]; [apply Z.bits_0|].
  apply Z.bits_above_log2; [lia|]. assert (Z.log2 v < n) by (apply Z.log2_lt_pow2; lia). lia.
Qed.

(** After [k] rounds the low [k + 1] bits of the result are those of [v], reversed. *)
Definition reversed (v k r : Z) : Prop :=
  forall j, 0 <= j -> j + (63 - k) < 64 -> Z.testbit r j = Z.testbit v (k - j).

Lemma reverse_loop_spec v fuel k r :
  0 <= v < 2 ^ 64 -> 0 <= k <= 63 -> Z.of_nat fuel = 63 - k + 1 -> reversed v k r ->
  exists k' r', k <= k' <= 63 /\ Z.shiftr v (k' + 1) = 0 /\ reversed v k' r' /\
    reverse_loop fuel (Z.shiftr v (k + 1)) r (63 - k) = Some (r', 63 - k').
Proof.
  intros Hv. revert k r. induction fuel as [|fuel IH]; intros k r Hk Hf Hr; [lia|].
  simpl. destruct (Z.eqb_spec (Z.shiftr v (k + 1)) 0) as [E|E]; [exists k, r; by repeat split; lia || auto|].
  assert (k < 63).
  { destruct (decide (k = 63)) as [->|]; [|lia]. exfalso. apply E.
    apply Z.bits_inj'. intros i Hi. rewrite Z.shiftr_spec, Z.bits_0 by lia. apply (high_bits v 64); lia. }
  rewrite Z.shiftr_shiftr by lia.
  destruct (IH (k + 1) (Z.lor (u64 (Z.shiftl r 1)) (Z.land (Z.shiftr v (k + 1)) 1))) as (k' & r' & ? & ? & ? & Hrun);
    [lia|lia| |exists k', r'; split_and!; [lia|lia|done|done|]].
  - intros j Hj Hj2. rewrite Z.lor_spec, u64_testbit, Z.land_spec by lia.
    replace j with (Z.of_nat (Z.to_nat j)) at 4 by lia.
    destruct (decide (j = 0)) as [->|].
    + rewrite Z.shiftl_spec_low, Z.shiftr_spec by lia. simpl. rewrite andb_true_r. f_equal. lia.
    + rewrite Z.shiftl_spec, (Hr (j - 1)) by lia. rewrite (proj2 (Z.ltb_lt j 64)) by lia.
      rewrite (high_bits 1 1 (Z.of_nat (Z.to_nat j))) by lia. rewrite andb_false_r, orb_false_r. simpl. f_equal. lia.
  - rewrite <- Hrun. f_equal; lia.
Qed.

Lemma reverseBits_spec v :
  0 <= v < 2 ^ 64 -> exists r, reverseBits v = Some r /\ 0 <= r < 2 ^ 64 /\
    forall i, 0 <= i < 64 -> Z.testbit r i = Z.testbit v (63 - i).
Proof.
  intros Hv. unfold reverseBits.
  destruct (reverse_loop_spec v 64 0 v) as (k & r & Hk & Hz & Hr & Hrun); [lia..| |].
  { intros j ? ?. assert (j = 0) as -> by lia. done. }
  change (63 - 0) with 63 in Hrun. change (0 + 1) with 1 in Hrun. rewrite Hrun. cbn [mbind option_bind].
  eexists. split; [done|]. split; [apply u64_bounds|]. intros i Hi.
  rewrite u64_testbit, (proj2 (Z.ltb_lt i 64)) by lia. simpl.
  destruct (decide (i < 63 - k)).
  - rewrite Z.shiftl_spec_low by lia. symmetry.
    replace (63 - i) with ((63 - i - (k + 1)) + (k + 1)) by lia.
    rewrite <- Z.shiftr_spec, Hz by lia. apply Z.bits_0.
  - rewrite Z.shiftl_spec, Hr by lia. f_equal. lia.
Qed.

(** ** Counting *)

Lemma fetchMany_spec n p :
  0 <= idDevice p < 2 ^ 64 ->
  fetchMany n p = (map (fun i => u64 (idDevice p + Z.of_nat i)) (seq 0 n),
                   mkIdProvider (idHost p) (u64 (idDevice p + Z.of_nat n)) (m_startId p) (m_maxNumProc p)).
Proof.
  revert p. induction n as [|n IH]; intros [h d s m] Hd; simpl in *.
  - by rewrite Z.add_0_r, u64_small by lia.
  - rewrite IH by apply u64_bounds. simpl. rewrite Z.add_0_r, (u64_small d) by lia.
    f_equal; [f_equal|f_equal].
    + rewrite <- seq_shift, map_map. apply map_ext. intros i. rewrite u64_add_l. f_equal. lia.
    + rewrite u64_add_l. f_equal. lia.
Qed.

Lemma fetchMany_length n p : length (fetchMany n p).1 = n.
Proof.
  revert p. induction n as [|n IH]; intros p; [done|]. simpl.
  specialize (IH (fetchInc p).2). simpl in IH. destruct (fetchMany n _); simpl in *. by rewrite IH.
Qed.

Lemma fetchMany_add n m p :
  fetchMany (n + m) p =
  ((fetchMany n p).1 ++ (fetchMany m (fetchMany n p).2).1, (fetchMany m (fetchMany n p).2).2).
Proof.
  revert p. induction n as [|n IH]; intros p; simpl; [by destruct (fetchMany m p)|].
  rewrite IH. destruct (fetchMany n _) as [l p1]. simpl. by destruct (fetchMany m p1).
Qed.

Lemma map_rank_filter {B} (P : nat -> Prop) `{!forall k, Decision (P k)} (g : nat -> B) n :
  map (fun k => g (length (filter P (seq 0 k)))) (filter P (seq 0 n)) = map g (seq 0 (length (filter P (seq 0 n)))).
Proof.
  induction n as [|n IH]; [done|]. rewrite !seq_S, !list.filter_app, length_app, seq_app, !map_app, IH. f_equal.
  simpl. rewrite filter_cons. by destruct (decide (P n)).
Qed.

Lemma low_mask_testbit lane i :
  Z.testbit (Z.shiftl 1 (Z.of_nat lane) - 1) (Z.of_nat i) = (i <? lane)%nat.
Proof.
  rewrite Z.shiftl_1_l, Z.sub_1_r, <- Z.ones_equiv.
  destruct (Nat.ltb_spec i lane); [apply Z.ones_spec_low; lia|apply Z.ones_spec_high; lia].
Qed.

Lemma popcount_below mask lane :
  (lane <= warpSize)%nat ->
  popcount (Z.land mask (Z.shiftl 1 (Z.of_nat lane) - 1)) =
  Z.of_nat (length (filter (fun k => Z.testbit mask (Z.of_nat k) = true) (seq 0 lane))).
Proof.
  intros Hl. unfold popcount. do 2 f_equal. replace warpSize with (lane + (warpSize - lane))%nat by lia.
  rewrite seq_app, list.filter_app.
  rewrite (list_filter_ext_in _ (fun k => Z.testbit mask (Z.of_nat k) = true) (seq 0 lane)).
  - rewrite (list_filter_none _ (seq (0 + lane) _)), app_nil_r; [done|].
    intros k Hk%elem_of_seq. rewrite Z.land_spec, low_mask_testbit.
    by rewrite (proj2 (Nat.ltb_ge k lane)), andb_false_r by lia.
  - intros k Hk. rewrite elem_of_seq in Hk. rewrite Z.land_spec, low_mask_testbit.
    by rewrite (proj2 (Nat.ltb_lt k lane)), andb_true_r by lia.
Qed.

(** A warp-aggregated increment gives the active lanes, in lane order, the identifiers that
    as many single increments give, and leaves the same counter behind. *)
Theorem warp_increment_sequential mask p :
  0 <= idDevice p < 2 ^ 64 ->
  AtomicAllIncKepler mask p = fetchMany (length (lanes_of mask)) p.
Proof.
  intros Hp. rewrite fetchMany_spec by done. unfold AtomicAllIncKepler. f_equal.
  - unfold lanes_of at 2. rewrite <- (map_rank_filter _ (fun i => u64 (idDevice p + Z.of_nat i))).
    apply map_ext_in. intros lane Hl%list_elem_of_In. unfold lanes_of in Hl.
    apply list_elem_of_filter in Hl as [_ Hl%elem_of_seq]. rewrite popcount_below by lia. done.
  - unfold popcount. change (filter _ (seq 0 warpSize)) with (lanes_of mask).
    destruct (lanes_of mask); simpl; [|done].
    rewrite Z.add_0_r, u64_small by done. by destruct p.
Qed.

(** ** Uniqueness across ranks *)

(** What rank [r] of [numRanks] hands out in [k] fetches, and the verdict of
    [isOverflown] on its synchronised state. *)
Definition rank_ids (raw numRanks r : Z) (k : nat) : option (list Z * option bool) :=
  p ← newIdProvider raw r numRanks;
  let '(l, p') := fetchMany k (initialize p) in
  Some (l, isOverflown (getStateHost (synchronizeIds p'))).

Lemma reverseBits_inj r1 r2 :
  0 <= r1 < 2 ^ 64 -> 0 <= r2 < 2 ^ 64 -> reverseBits r1 = reverseBits r2 -> r1 = r2.
Proof.
  intros H1 H2. destruct (reverseBits_spec r1 H1) as (s & -> & _ & Hs1).
  destruct (reverseBits_spec r2 H2) as (s2 & -> & _ & Hs2). intros [= <-].
  apply Z.bits_inj'. intros i Hi. destruct (decide (i < 64)).
  - specialize (Hs1 (63 - i) ltac:(lia)). specialize (Hs2 (63 - i) ltac:(lia)).
    replace (63 - (63 - i)) with i in * by lia. congruence.
  - by rewrite !(high_bits _ 64) by lia.
Qed.

Section ranks.
Context (numRanks : Z) (Hranks : 2 <= numRanks < 2 ^ 64).

Let n := bit_width (numRanks - 1).
Let M := 2 ^ (64 - n).

Lemma bit_width_bounds : 1 <= n <= 64 /\ numRanks - 1 < 2 ^ n.
Proof using Hranks.
  unfold n, bit_width. rewrite (proj2 (Z.eqb_neq _ _)) by lia.
  pose proof (Z.log2_nonneg (numRanks - 1)). pose proof (Z.log2_spec (numRanks - 1) ltac:(lia)).
  assert (Z.log2 (numRanks - 1) < 64) by (apply Z.log2_lt_pow2; lia).
  replace (Z.log2 (numRanks - 1) + 1) with (Z.succ (Z.log2 (numRanks - 1))) by lia. lia.
Qed.

Lemma M_pos : 0 < M.
Proof using Hranks. pose proof bit_width_bounds. unfold M. apply Z.pow_pos_nonneg; lia. Qed.

Lemma M_split : 2 ^ n * M = 2 ^ 64.
Proof using Hranks.
  pose proof bit_width_bounds. unfold M. rewrite <- Z.pow_add_r by lia. f_equal. lia.
Qed.

(** The start value of a rank occupies the upper [n] bits, and determines the rank. *)
Lemma start_shape r :
  0 <= r < numRanks -> exists a, reverseBits r = Some (a * M) /\ 0 <= a < 2 ^ n.
Proof using Hranks.
  intros Hr. pose proof bit_width_bounds as [Hn Hw]. pose proof M_pos. pose proof M_split.
  destruct (reverseBits_spec r) as (s & Hs & Hb & Hbits); [lia|].
  exists (s / M). rewrite Hs. assert (s mod M = 0) as Hm.
  { unfold M. apply Z.bits_inj'. intros i Hi. rewrite Z.bits_0.
    destruct (decide (i < 64 - n)); [|rewrite Z.mod_pow2_bits_high by lia; done].
    rewrite Z.mod_pow2_bits_low, Hbits by lia. apply (high_bits r n); lia. }
  pose proof (Z.div_mod s M ltac:(lia)). split; [f_equal; lia|].
  split; [apply Z.div_pos; lia|]. apply Z.div_lt_upper_bound; lia.
Qed.

(** The counter of a rank, seen without its low bits. *)
Lemma counter_high a k :
  0 <= a < 2 ^ n -> 0 <= k -> u64 (a * M + k) / M = (a + k / M) mod 2 ^ n.
Proof using Hranks.
  intros Ha Hk. pose proof bit_width_bounds. pose proof M_pos. unfold u64.
  rewrite <- M_split, (Z.mul_comm (2 ^ n)), Z.rem_mul_r, Z.div_add_l by lia.
  rewrite (Z.mul_comm M (_ mod _)), Z.div_add by lia.
  rewrite (Z.div_small (_ mod M)) by (apply Z.mod_pos_bound; lia). lia.
Qed.

Lemma overflow_exact a k :
  0 <= a < 2 ^ n -> 0 <= k < 2 ^ 64 ->
  isOverflown (mkIdState (u64 (a * M + k)) (a * M) numRanks) = Some (M <=? k).
Proof using Hranks.
  intros Ha Hk. pose proof bit_width_bounds as [Hn _]. pose proof M_pos. pose proof M_split.
  unfold isOverflown. cbn [nextId startId maxNumProc]. rewrite (u64_small (numRanks - 1)) by lia. fold n.
  rewrite (proj2 (Z.leb_gt 64 (64 - n))) by lia. f_equal.
  rewrite Z.shiftr_lxor, !Z.shiftr_div_pow2 by lia. fold M.
  rewrite counter_high, Z.div_mul by lia. assert (0 <= k / M < 2 ^ n) as Hq.
  { split; [apply Z.div_pos; lia|apply Z.div_lt_upper_bound; lia]. }
  assert (Hiff : Z.lxor ((a + k / M) mod 2 ^ n) a = 0 <-> k / M = 0).
  { rewrite Z.lxor_eq_0_iff. split; [|intros ->; rewrite Z.add_0_r; apply Z.mod_small; lia].
    intros E. destruct (decide (a + k / M < 2 ^ n)); [rewrite Z.mod_small in E; lia|].
    rewrite (Z.mod_eq _ (2 ^ n)) in E by lia.
    assert ((a + k / M) / 2 ^ n = 1) as E1 by (symmetry; apply (Z.div_unique _ _ _ (a + k / M - 2 ^ n)); lia).
    rewrite E1 in E. lia. }
  pose proof (Z.div_small_iff k M ltac:(lia)). destruct (Z.leb_spec M k); destruct (Z.eqb_spec (Z.lxor ((a + k / M) mod 2 ^ n) a) 0); try done; lia.
Qed.

Lemma rank_ids_run raw r k :
  0 <= r < numRanks -> Z.of_nat k < 2 ^ 64 ->
  exists a, reverseBits r = Some (a * M) /\ 0 <= a < 2 ^ n /\
    rank_ids raw numRanks r k =
      Some (map (fun i => u64 (a * M + Z.of_nat i)) (seq 0 k), Some (M <=? Z.of_nat k)).
Proof using Hranks.
  intros Hr Hk. destruct (start_shape r Hr) as (a & Hs & Ha). exists a. split; [done|]. split; [done|].
  pose proof M_pos. pose proof M_split. unfold rank_ids, newIdProvider. rewrite Hs. cbn [mbind option_bind].
  rewrite fetchMany_spec by (simpl; nia). cbn -[isOverflown u64 seq Z.ltb]. do 2 f_equal.
  rewrite (proj2 (Z.ltb_lt 0 numRanks)) by lia. apply overflow_exact; lia.
Qed.
End ranks.

(** The verdict of [isOverflown] is exact as long as a rank has fetched fewer than 2^64
    identifiers: it is negative exactly while the rank has not used up its
    2^(64 - bit_width(numRanks - 1)) identifiers; and identifiers fetched by two ranks with
    negative verdicts are pairwise distinct, within a rank and across the ranks. *)
Theorem rank_ids_unique raw1 raw2 numRanks r1 r2 k1 k2 :
  2 <= numRanks < 2 ^ 64 -> 0 <= r1 < numRanks -> 0 <= r2 < numRanks -> r1 <> r2 ->
  Z.of_nat k1 < 2 ^ 64 -> Z.of_nat k2 < 2 ^ 64 ->
  exists ids1 ids2 b1 b2,
    rank_ids raw1 numRanks r1 k1 = Some (ids1, Some b1) /\
    rank_ids raw2 numRanks r2 k2 = Some (ids2, Some b2) /\
    length ids1 = k1 /\ length ids2 = k2 /\
    b1 = (2 ^ (64 - bit_width (numRanks - 1)) <=? Z.of_nat k1) /\
    (b1 = false -> b2 = false -> NoDup (ids1 ++ ids2)).
Proof.
  intros Hn H1 H2 Hne Hk1 Hk2.
  destruct (rank_ids_run numRanks Hn raw1 r1 k1) as (a1 & Hs1 & Ha1 & ->); [done..|].
  destruct (rank_ids_run numRanks Hn raw2 r2 k2) as (a2 & Hs2 & Ha2 & ->); [done..|].
  pose proof (M_pos numRanks Hn). pose proof (M_split numRanks Hn).
  set (M := 2 ^ (64 - bit_width (numRanks - 1))) in *.
  assert (a1 <> a2) by (intros ->; apply Hne, reverseBits_inj; [lia..|congruence]).
  do 4 eexists. split; [done|]. split; [done|]. rewrite !length_map, !length_seq. do 3 (split; [done|]).
  rewrite !Z.leb_gt. intros Hb1 Hb2.
  assert (Hid : forall a i, 0 <= a < 2 ^ bit_width (numRanks - 1) -> 0 <= i < M -> u64 (a * M + i) = a * M + i)
    by (intros; apply u64_small; nia).
  apply list.NoDup_app. split_and!.
  - apply NoDup_fmap_2_strong; [|apply list.NoDup_seq]. intros x y Hx%elem_of_seq Hy%elem_of_seq.
    rewrite !Hid by lia. lia.
  - intros x Hx Hy. apply list_elem_of_fmap in Hx as (i & -> & Hi%elem_of_seq).
    apply list_elem_of_fmap in Hy as (j & E & Hj%elem_of_seq). rewrite !Hid in E by lia. nia.
  - apply NoDup_fmap_2_strong; [|apply list.NoDup_seq]. intros x y Hx%elem_of_seq Hy%elem_of_seq.
    rewrite !Hid by lia. lia.
Qed.

Lemma warp_increment_sequential_witness :
  let p := mkIdProvider 0 (2 ^ 64 - 2) 0 1 in
  fetchMany 3 p = ([2 ^ 64 - 2; 2 ^ 64 - 1; 0], mkIdProvider 0 1 0 1) /\
  AtomicAllIncKepler 21 p = fetchMany (length (lanes_of 21)) p.
Proof. split; [reflexivity|]. apply warp_increment_sequential. simpl. lia. Defined.

Lemma rank_ids_unique_witness :
  exists ids1 ids2 b1 b2,
    rank_ids 7 3 1 2 = Some (ids1, Some b1) /\ rank_ids 9 3 2 3 = Some (ids2, Some b2) /\
    length ids1 = 2%nat /\ length ids2 = 3%nat /\
    b1 = (2 ^ (64 - bit_width (3 - 1)) <=? Z.of_nat 2) /\
    (b1 = false -> b2 = false -> NoDup (ids1 ++ ids2)).
Proof. apply (rank_ids_unique 7 9 3 1 2 2 3); lia. Defined.

(** With a single rank the shift distance is the width of the type. *)
Lemma isOverflown_single_rank next start : isOverflown (mkIdState next start 1) = None.
Proof. reflexivity. Qed.
