(* ===== verification/Control.v ===== *)
(** * Simulation control

    Models pmacc/simulationControl/signal.cpp, Checkpointing.hpp,
    SimulationDescription.hpp and SimulationHelper.cpp: signals of the operating system and
    their collective handling, checkpoints, soft restarts, progress output and the loop over
    the time steps.  What the simulation, the plugins and MPI do are events that are logged and
    handed to a parameter; what arrives from outside (signals, completed reductions) is an
    arbitrary sequence of inputs, one per look at the signal state. *)
From Stdlib Require Import ZArith Lia SpecFloat.
From stdpp Require Import base sets list numbers strings.
From S2P Require Import Prelude Outcome DataConnector TimeSlice IdProvider.
Local Open Scope Z_scope.

(** ** Signals *)

Record Signals : Type := mkSignals {
  gStatusCreateCheckpoint : Z;
  gStatusStopSimulation : Z;
  gSignalLocked : Z
}.

Inductive sig : Type := SIGHUP | SIGINT | SIGQUIT | SIGABRT | SIGUSR1 | SIGUSR2 | SIGALRM | SIGTERM.

Definition setCreateCheckpoint (g : Signals) : Signals :=
  mkSignals (gStatusCreateCheckpoint g + 1) (gStatusStopSimulation g) (gSignalLocked g).
Definition setStopSimulation (g : Signals) : Signals :=
  mkSignals (gStatusCreateCheckpoint g) (gStatusStopSimulation g + 1) (gSignalLocked g).
Definition setCreateCheckpointAndStopSimulation (g : Signals) : Signals := setStopSimulation (setCreateCheckpoint g).

(** [activateSignalHandling]: the handler of each signal. *)
Definition activateSignalHandling (s : sig) : Signals -> Signals :=
  match s with
  | SIGUSR1 => setCreateCheckpoint
  | SIGALRM => setCreateCheckpointAndStopSimulation
  | _ => setStopSimulation
  end.

Definition received (g : Signals) : bool * Signals :=
  if negb (gSignalLocked g =? 0) then (false, g) else
  let receivedASignal := negb (gStatusCreateCheckpoint g =? 0) || negb (gStatusStopSimulation g =? 0) in
  (receivedASignal, if receivedASignal then mkSignals (gStatusCreateCheckpoint g) (gStatusStopSimulation g) 1 else g).

Definition release (checkPointHandled stopSimulationHandled : bool) (g : Signals) : Signals :=
  let g := if negb (gSignalLocked g =? 0)
    then mkSignals (gStatusCreateCheckpoint g - if checkPointHandled then 1 else 0)
                   (gStatusStopSimulation g - if stopSimulationHandled then 1 else 0) (gSignalLocked g)
    else g in
  mkSignals (gStatusCreateCheckpoint g) (gStatusStopSimulation g) 0.

Definition createCheckpoint (g : Signals) : bool := negb (gStatusCreateCheckpoint g =? 0).
Definition stopSimulation (g : Signals) : bool :=
  negb (gStatusStopSimulation g =? 0) && (gStatusCreateCheckpoint g <=? 1).

(** ** Doubles *)

Definition f64 : Type := spec_float.
Definition f64_of_Z (n : Z) : f64 := binary_normalize 53 1024 n 0 false.
Definition f64_div : f64 -> f64 -> f64 := SFdiv 53 1024.
Definition f64_mul : f64 -> f64 -> f64 := SFmul 53 1024.
(** The conversion to an unsigned 32-bit integer of a value in range. *)
Definition f64_to_u32 (x : f64) : Z :=
  match x with
  | S754_finite false m e => if 0 <=? e then Zpos m * 2 ^ e else Zpos m / 2 ^ (- e)
  | _ => 0
  end.

(** ** The state of a simulation *)

Inductive RestartState : Type := RS_DISABLED | RS_TRY | RS_FORCE | RS_SUCCESS | RS_FAILED.
#[export] Instance RestartState_eq_dec : EqDecision RestartState.
Proof. solve_decision. Defined.

(** What the rest of the program is asked to do. *)
Inductive event : Type :=
  | EInit | EResetAll (t : Z) | EBarrier | EMovingWindow (t : Z) | ERunOneStep (t : Z) | ENotify (t : Z)
  | ECreateDirectory | ECheckpoint (t : Z) | EProgress (t progressInterval : Z).

Record Checkpointing : Type := mkCheckpointing {
  softRestarts : Z;
  nthSoftRestart : Z;                (* the function's static variable *)
  checkpointPeriod : text;
  seqCheckpointPeriod : list Slice;
  numCheckpoints : Z;
  restartState : RestartState;
  restartStep : Z;
  masterFile : list text             (* the lines of checkpoints.txt *)
}.

(** An outstanding collective handling of signals: the step and the flags this rank has sent. *)
Record PendingSignal : Type := mkPending {
  processAtStep : Z;
  sendStop : Z;
  sendCheckpoint : Z
}.

Section control.
Context {X : Type}.

Record Sim : Type := mkSim {
  runSteps : Z;                      (* SimulationDescription *)
  currentStepOf : Z;
  checkpointing : Checkpointing;
  signals : Signals;
  signalCompletion : option PendingSignal;
  looks : nat;                       (* calls of checkSignals so far *)
  output : bool;
  progress : Z;
  showProgressAnyStep : Z;
  seqProgressPeriod : option (list Slice);
  lastProgressStep : Z;
  log : list event;
  rest : X
}.

(** A look at the outside world: the signals that have arrived since the last one and the
    result of the outstanding reductions, if they are complete. *)
Record Input : Type := mkInput {
  arrivals : list sig;
  completed : option (Z * Z * Z)     (* common step, ranks that stop, ranks that checkpoint *)
}.

(** [enabled] is the template parameter of [Checkpointing]; the simulation instantiates it with
    DISABLED. *)
Context (enabled : bool) (env : nat -> Input) (ranks : Z) (isMaster : bool).
Context (hook : event -> X -> outcome unit * X) (fill : X -> outcome Z * X).

Definition set_runSteps (n : Z) (s : Sim) : Sim :=
  mkSim n (currentStepOf s) (checkpointing s) (signals s) (signalCompletion s) (looks s) (output s) (progress s)
    (showProgressAnyStep s) (seqProgressPeriod s) (lastProgressStep s) (log s) (rest s).
Definition set_currentStep (t : Z) (s : Sim) : Sim :=
  mkSim (runSteps s) t (checkpointing s) (signals s) (signalCompletion s) (looks s) (output s) (progress s)
    (showProgressAnyStep s) (seqProgressPeriod s) (lastProgressStep s) (log s) (rest s).
Definition set_checkpointing (c : Checkpointing) (s : Sim) : Sim :=
  mkSim (runSteps s) (currentStepOf s) c (signals s) (signalCompletion s) (looks s) (output s) (progress s)
    (showProgressAnyStep s) (seqProgressPeriod s) (lastProgressStep s) (log s) (rest s).
Definition set_signals (g : Signals) (p : option PendingSignal) (k : nat) (s : Sim) : Sim :=
  mkSim (runSteps s) (currentStepOf s) (checkpointing s) g p k (output s) (progress s)
    (showProgressAnyStep s) (seqProgressPeriod s) (lastProgressStep s) (log s) (rest s).
Definition set_progress (p any : Z) (last : Z) (s : Sim) : Sim :=
  mkSim (runSteps s) (currentStepOf s) (checkpointing s) (signals s) (signalCompletion s) (looks s) (output s) p
    any (seqProgressPeriod s) last (log s) (rest s).
Definition set_log (l : list event) (x : X) (s : Sim) : Sim :=
  mkSim (runSteps s) (currentStepOf s) (checkpointing s) (signals s) (signalCompletion s) (looks s) (output s) (progress s)
    (showProgressAnyStep s) (seqProgressPeriod s) (lastProgressStep s) l x.

Definition call (e : event) : Host Sim unit := fun s =>
  let '(r, x) := hook e (rest s) in (r, set_log (log s ++ [e]) x s).
Definition when (b : bool) (m : Host Sim unit) : Host Sim unit := if b then m else mret tt.

(** ** Checkpointing *)

Definition set_seqCheckpointPeriod (p : list Slice) (c : Checkpointing) : Checkpointing :=
  mkCheckpointing (softRestarts c) (nthSoftRestart c) (checkpointPeriod c) p (numCheckpoints c) (restartState c)
    (restartStep c) (masterFile c).

Definition addCheckpoint (signalMaxTimestep : Z) : Host Sim unit :=
  when enabled (modify (fun s => set_checkpointing (set_seqCheckpointPeriod
    (seqCheckpointPeriod (checkpointing s) ++ [TimeSlice.mkSlice signalMaxTimestep signalMaxTimestep]) (checkpointing s)) s)).

(** [writeCheckpointStep]: appends a line to the master file. *)
Definition writeCheckpointStep (checkpointStep : Z) (c : Checkpointing) : Checkpointing :=
  mkCheckpointing (softRestarts c) (nthSoftRestart c) (checkpointPeriod c) (seqCheckpointPeriod c) (numCheckpoints c)
    (restartState c) (restartStep c) (masterFile c ++ [to_string checkpointStep]).

Definition count_checkpoint (c : Checkpointing) : Checkpointing :=
  mkCheckpointing (softRestarts c) (nthSoftRestart c) (checkpointPeriod c) (seqCheckpointPeriod c)
    (u32 (numCheckpoints c + 1)) (restartState c) (restartStep c) (masterFile c).

Definition dump (currentStep : Z) : Host Sim unit :=
  if negb enabled then mret tt else
  s ← get_state;
  due ← lift (containsStep (seqCheckpointPeriod (checkpointing s)) currentStep);
  when due
    (call EBarrier ≫= fun _ =>
     when ((numCheckpoints (checkpointing s) =? 0) && isMaster) (call ECreateDirectory) ≫= fun _ =>
     call (ECheckpoint currentStep) ≫= fun _ =>
     call EBarrier ≫= fun _ =>
     when isMaster (modify (fun s => set_checkpointing (writeCheckpointStep currentStep (checkpointing s)) s)) ≫= fun _ =>
     modify (fun s => set_checkpointing (count_checkpoint (checkpointing s)) s)).

Definition count_restart (c : Checkpointing) : Checkpointing :=
  mkCheckpointing (softRestarts c) (u32 (nthSoftRestart c + 1)) (checkpointPeriod c) (seqCheckpointPeriod c)
    (numCheckpoints c) (restartState c) (restartStep c) (masterFile c).

Definition hasSoftRestartAttemptsLeft : Host Sim bool :=
  s ← get_state;
  let c := checkpointing s in
  if nthSoftRestart c <=? softRestarts c
  then _ ← modify (set_checkpointing (count_restart c)); mret true
  else mret false.

(** [startTimeBasedCheckpointing]: the timer thread, when there is one, raises the checkpoint
    request that the input brings as SIGUSR1. *)
Definition startTimeBasedCheckpointing : Host Sim unit :=
  if negb enabled then mret tt else
  s ← get_state;
  p ← lift (toTimeSlice (checkpointPeriod (checkpointing s)));
  modify (fun s => set_checkpointing (set_seqCheckpointPeriod p (checkpointing s)) s).

(** [std::from_chars] of a whole line into a 32-bit number. *)
Definition from_chars_u32 (line : text) : option Z :=
  if is_number line && negb (bool_decide (line = [])) && (digits_value line <? 2 ^ 32) then Some (digits_value line) else None.

(** [readCheckpointMasterFile]: empty lines and lines that are no 32-bit numbers are skipped. *)
Definition readCheckpointMasterFile (lines : list text) : list Z :=
  omap (fun line => if bool_decide (line = []) then None else from_chars_u32 line) lines.

Definition set_restart (st : RestartState) (step : Z) (c : Checkpointing) : Checkpointing :=
  mkCheckpointing (softRestarts c) (nthSoftRestart c) (checkpointPeriod c) (seqCheckpointPeriod c) (numCheckpoints c)
    st step (masterFile c).

(** [checkRestart] on the lines found in the restart directory.  The search compares the
    32-bit steps with the [int32_t] step converted to unsigned. *)
Definition checkRestart (lines : list text) (c : Checkpointing) : outcome bool * Checkpointing :=
  if negb enabled then (Ret false, c) else
  if negb (bool_decide (restartState c = RS_TRY)) && negb (bool_decide (restartState c = RS_FORCE)) then (Ret false, c) else
  let checkpoints := readCheckpointMasterFile lines in
  match (if restartStep c <? 0
         then match last checkpoints with Some step => Some (s32 step) | None => None end
         else Some (restartStep c)) with
  | None =>
      if bool_decide (restartState c = RS_FORCE)
      then (Throw runtime_error "Restart failed. No checkpoints found and no '--checkpoint.restart.step' provided.", c)
      else (Ret false, set_restart RS_FAILED (restartStep c) c)
  | Some step =>
      let c := set_restart (restartState c) step c in
      if bool_decide (u32 step ∈ checkpoints) then (Ret true, set_restart RS_SUCCESS step c)
      else if bool_decide (restartState c = RS_FORCE)
      then (Throw runtime_error ("Restart failed. Checkpoint for step " +:+ str (if step <? 0 then txt "-" ++ to_string (- step) else to_string step) +:+ " not found."), c)
      else (Ret false, set_restart RS_FAILED step c)
  end.

(** ** Signals of the simulation *)

(** [asyncContext.runReady()]: signals that have arrived, and the continuation of completed
    reductions. *)
Definition runReady : Host Sim unit :=
  s ← get_state;
  let input := env (looks s) in
  _ ← modify (fun s => set_signals (foldl (fun g x => activateSignalHandling x g) (signals s) (arrivals input))
                         (signalCompletion s) (S (looks s)) s);
  match signalCompletion s, completed input with
  | Some _, Some (commonStep, stops, checkpoints) =>
      let shouldStop := stops =? ranks in
      let shouldCheckpoint := checkpoints =? ranks in
      _ ← when shouldCheckpoint (addCheckpoint commonStep);
      _ ← when shouldStop (modify (set_runSteps commonStep));
      modify (fun s => set_signals (release shouldCheckpoint shouldStop (signals s)) None (looks s) s)
  | _, _ => mret tt
  end.

Definition checkSignals (currentStep : Z) : Host Sim unit :=
  _ ← runReady;
  s ← get_state;
  match signalCompletion s with
  | Some _ => mret tt
  | None =>
      let '(r, g) := received (signals s) in
      _ ← modify (set_signals g None (looks s));
      when r (modify (set_signals g (Some (mkPending (u32 (currentStep + 1)) (Z.b2z (stopSimulation g)) (Z.b2z (createCheckpoint g)))) (looks s)))
  end.

Definition notifyPlugins (currentStep : Z) : Host Sim unit :=
  _ ← checkSignals currentStep; call (ENotify currentStep).

Definition dumpOneStep (currentStep : Z) : Host Sim unit :=
  _ ← checkSignals currentStep; dump currentStep.

(** [dumpTimes]; the percentage is 0/0 converted to an integer when there are no steps. *)
Definition dumpTimes (currentStep : Z) : Host Sim unit :=
  s ← get_state;
  _ ← lift (if negb (progress s =? 0) && (showProgressAnyStep s =? 0) then Undefined else Ret tt);
  let writeAtPercent := negb (progress s =? 0) && (currentStep mod showProgressAnyStep s =? 0) in
  writeAtStepPeriod ← lift (match seqProgressPeriod s with Some p => containsStep p currentStep | None => Ret false end);
  when (output s && (writeAtPercent || writeAtStepPeriod))
    (let progressInterval := u32 (currentStep - lastProgressStep s) in
     let progressInterval := if progressInterval =? 0 then 1 else progressInterval in
     _ ← lift (if runSteps s =? 0 then Undefined else Ret tt);
     _ ← call (EProgress currentStep progressInterval);
     modify (fun s => set_progress (progress s) (showProgressAnyStep s) currentStep s)).

Definition calcProgress (s : Sim) : Sim :=
  let p := if (progress s =? 0) || (100 <? progress s) then 100 else progress s in
  let any := f64_to_u32 (f64_mul (f64_div (f64_of_Z (runSteps s)) (f64_of_Z 100)) (f64_of_Z p)) in
  set_progress p (if any =? 0 then 1 else any) (lastProgressStep s) s.

(** ** The loops *)

Fixpoint step_loop (fuel : nat) (currentStep : Z) : Host Sim Z :=
  s ← get_state;
  if currentStep <? runSteps s then
    match fuel with
    | O => lift Undefined
    | S fuel =>
        _ ← call (ERunOneStep currentStep);
        let currentStep := u32 (currentStep + 1) in
        _ ← modify (set_currentStep currentStep);
        _ ← dumpTimes currentStep;
        _ ← call (EMovingWindow currentStep);
        _ ← notifyPlugins currentStep;
        _ ← dumpOneStep currentStep;
        step_loop fuel currentStep
    end
  else mret currentStep.

(** One pass through the restart loop; while the final barrier is open the signals are looked
    at [polls] times. *)
Definition one_run (fuel polls : nat) : Host Sim unit :=
  _ ← call (EResetAll 0);
  currentStep ← (fun s => let '(r, x) := fill (rest s) in (r, set_log (log s) x s));
  _ ← modify (set_currentStep currentStep);
  _ ← call EBarrier;
  _ ← call (EMovingWindow currentStep);
  s ← get_state;
  _ ← when (negb (bool_decide (restartState (checkpointing s) = RS_SUCCESS)))
        (notifyPlugins currentStep ≫= fun _ => dumpOneStep currentStep);
  _ ← dumpTimes currentStep;
  final ← step_loop fuel currentStep;
  for_ (seq 0 polls) (fun _ => checkSignals final).

Fixpoint restart_loop (fuel fuel_steps : nat) (polls : nat -> nat) : Host Sim unit :=
  more ← hasSoftRestartAttemptsLeft;
  if more : bool then
    match fuel with
    | O => lift Undefined
    | S fuel => _ ← one_run fuel_steps (polls fuel); restart_loop fuel fuel_steps polls
    end
  else mret tt.

(** [startSimulation]: the identifier provider is shared, then the loops run. *)
Definition on_connector {A} (m : Host (DataConnector (X := IdProvider)) A) : Host (Sim * DataConnector (X := IdProvider)) A :=
  fun s => let '(r, dc) := m s.2 in (r, (s.1, dc)).
Definition on_sim {A} (m : Host Sim A) : Host (Sim * DataConnector (X := IdProvider)) A :=
  fun s => let '(r, x) := m s.1 in (r, (x, s.2)).

Definition startSimulation (raw rank : Z) (fuel fuel_steps : nat) (polls : nat -> nat)
    : Host (Sim * DataConnector (X := IdProvider)) unit :=
  _ ← on_sim startTimeBasedCheckpointing;
  idProvider ← lift (match newIdProvider raw rank ranks with Some p => Ret p | None => Undefined end);
  _ ← on_connector (share (Some (mkData "globalId" idProvider)));
  _ ← on_sim (call EInit);
  on_sim (restart_loop fuel fuel_steps polls).
End control.

Arguments Sim : clear implicits.

(** ** The loop over the steps *)

(** The steps that were computed ([inl]) and announced to the plugins ([inr]), in order. *)
Definition steps_of (l : list event) : list (Z + Z) :=
  omap (fun e => match e with ERunOneStep t => Some (inl t) | ENotify t => Some (inr t) | _ => None end) l.

Lemma steps_of_app a b : steps_of (a ++ b) = steps_of a ++ steps_of b.
Proof. apply omap_app. Qed.

Section loop.
Context {X : Type} (enabled : bool) (env : nat -> Input) (ranks : Z) (isMaster : bool).
Context (hook : event -> X -> outcome unit * X) (fill : X -> outcome Z * X) (M : Z) (RS : RestartState).
Context (Hhook : forall e x, exists x', hook e x = (Ret tt, x')).
Context (HM : 0 < M < 2 ^ 32).
Context (Henv : forall k c a b, completed (env k) = Some (c, a, b) -> 0 < c <= M).

Definition safe_slices (ss : list Slice) : Prop := Forall (fun s => 0 <= s !!! 0%nat /\ s !!! 2%nat <> 0) ss.

(** The periods can be tested, there are steps to run, and the end does not move past [M]. *)
Definition Inv (s : Sim X) : Prop :=
  safe_slices (seqCheckpointPeriod (checkpointing s)) /\
  (forall p, seqProgressPeriod s = Some p -> safe_slices p) /\
  showProgressAnyStep s <> 0 /\ 0 < runSteps s <= M /\ restartState (checkpointing s) = RS.

(** No signal is pending and none arrives. *)
Definition quiet (s : Sim X) : Prop :=
  (forall k, arrivals (env k) = []) /\ signals s = mkSignals 0 0 0 /\ signalCompletion s = None.

Definition evolves (evs : list (Z + Z)) (s s' : Sim X) : Prop :=
  Inv s' /\ steps_of (log s') = steps_of (log s) ++ evs /\ (quiet s -> quiet s' /\ runSteps s' = runSteps s) /\
  softRestarts (checkpointing s') = softRestarts (checkpointing s) /\
  nthSoftRestart (checkpointing s') = nthSoftRestart (checkpointing s).

Definition does {A} (m : Host (Sim X) A) (evs : list (Z + Z)) : Prop :=
  forall s, Inv s -> exists a s', m s = (Ret a, s') /\ evolves evs s s'.

Lemma evolves_refl s : Inv s -> evolves [] s s.
Proof using Type. intros. split_and!; rewrite ?app_nil_r; done. Qed.

Lemma evolves_trans e1 e2 s1 s2 s3 : evolves e1 s1 s2 -> evolves e2 s2 s3 -> evolves (e1 ++ e2) s1 s3.
Proof using Type.
  intros (_ & L1 & Q1 & R1 & N1) (I2 & L2 & Q2 & R2 & N2). split_and!; [done|by rewrite L2, L1, app_assoc| |congruence|congruence].
  intros Hq. destruct (Q1 Hq) as [Hq1 E1]. destruct (Q2 Hq1) as [Hq2 E2]. split; [done|congruence].
Qed.

Lemma does_bind {A B} (m : Host (Sim X) A) (f : A -> Host (Sim X) B) e1 e2 :
  does m e1 -> (forall a, does (f a) e2) -> does (m ≫= f) (e1 ++ e2).
Proof using Type.
  intros Hm Hf s Hs. destruct (Hm s Hs) as (a & s1 & E1 & Ev1). destruct (Hf a s1) as (b & s2 & E2 & Ev2); [apply Ev1|].
  exists b, s2. split; [|by eapply evolves_trans]. unfold mbind, Host_bind. by rewrite E1.
Qed.

Lemma does_ret {A} (a : A) : does (mret a) [].
Proof using Type. intros s Hs. exists a, s. split; [done|by apply evolves_refl]. Qed.

Lemma does_when b (m : Host (Sim X) unit) : does m [] -> does (when b m) [].
Proof using Type. intros Hm. destruct b; [done|apply does_ret]. Qed.

Lemma does_modify f : (forall s, Inv s -> evolves [] s (f s)) -> does (modify f) [].
Proof using Type. intros Hf s Hs. exists tt, (f s). split; [done|by apply Hf]. Qed.

(** Reading the state first. *)
Lemma does_get {A} (f : Sim X -> Host (Sim X) A) evs :
  (forall s, Inv s -> exists a s', f s s = (Ret a, s') /\ evolves evs s s') -> does (get_state ≫= f) evs.
Proof using Type. intros Hf s Hs. by apply Hf. Qed.

Lemma does_call e : does (call hook e) (steps_of [e]).
Proof using Hhook.
  intros s Hs. unfold call. destruct (Hhook e (rest s)) as [x' ->]. eexists tt, _. split; [done|].
  split_and!; try done. simpl. by rewrite steps_of_app.
Qed.

Lemma does_app_nil {A} (m : Host (Sim X) A) evs : does m (evs ++ []) -> does m evs.
Proof using Type. by rewrite app_nil_r. Qed.

Lemma evolves_silent s s' :
  Inv s' -> log s' = log s -> (quiet s -> quiet s' /\ runSteps s' = runSteps s) ->
  softRestarts (checkpointing s') = softRestarts (checkpointing s) ->
  nthSoftRestart (checkpointing s') = nthSoftRestart (checkpointing s) -> evolves [] s s'.
Proof using Type. intros. split_and!; try done. rewrite app_nil_r. congruence. Qed.

Lemma Inv_addCheckpoint s c : Inv s ->
  0 < c -> Inv (set_checkpointing (set_seqCheckpointPeriod
    (seqCheckpointPeriod (checkpointing s) ++ [TimeSlice.mkSlice c c]) (checkpointing s)) s).
Proof using Type.
  intros (Hck & Hpr & Hany & Hrun & HR) Hc. split; [|done]. simpl. unfold safe_slices in *. apply Forall_app. split; [done|].
  repeat constructor; simpl; lia.
Qed.

Lemma does_runReady : does (runReady enabled env ranks) [].
Proof using Henv.
  intros s Hs. unfold runReady, mbind, Host_bind, get_state, modify. set (input := env (looks s)).
  set (g := foldl _ _ _).
  assert (Hq : quiet s -> g = mkSignals 0 0 0).
  { intros (Ha & Hg & _). unfold g, input. by rewrite Ha, Hg. }
  destruct (signalCompletion s) as [pend|] eqn:Ep.
  2:{ eexists tt, _. split; [done|]. apply evolves_silent; try done. intros Hqs. pose proof (Hq Hqs) as Hg.
      destruct Hqs as (? & ? & ?). by split_and!. }
  destruct (completed input) as [[[c a] b]|] eqn:Ec.
  2:{ eexists tt, _. split; [done|]. apply evolves_silent; try done. intros (_ & _ & ?). congruence. }
  pose proof (Henv _ _ _ _ Ec) as Hc. set (s0 := set_signals g (Some pend) (S (looks s)) s).
  assert (H0 : Inv s0) by done.
  unfold addCheckpoint, when, modify. destruct (b =? ranks), (a =? ranks), enabled; eexists tt, _; (split; [reflexivity|]);
    (apply evolves_silent; try done; try (intros (_ & _ & ?); congruence)).
  all: first
    [destruct H0 as (Hck & Hpr & Hany & Hrun & HR); do 3 (split; [done|]); by split
    |pose proof (Inv_addCheckpoint s0 c H0 ltac:(lia)) as (Hck & Hpr & Hany & Hrun & HR); do 3 (split; [done|]); by split].
Qed.

Lemma does_checkSignals t : does (checkSignals enabled env ranks t) [].
Proof using Henv.
  apply does_app_nil. apply does_bind; [apply does_runReady|]. intros _. apply does_get. intros s Hs.
  destruct (signalCompletion s) as [pend|] eqn:Ep; [by apply does_ret|].
  unfold received. destruct (gSignalLocked (signals s) =? 0) eqn:El; cbn [negb].
  2:{ eexists tt, _. split; [done|]. apply evolves_silent; try done. intros Hq. by destruct Hq as (? & ? & ?). }
  destruct (negb (gStatusCreateCheckpoint (signals s) =? 0) || negb (gStatusStopSimulation (signals s) =? 0)) eqn:Er;
    (eexists tt, _; split; [reflexivity|]); apply evolves_silent; try done.
  - intros (_ & Hg & _). by rewrite Hg in Er.
  - intros Hq. by destruct Hq as (? & ? & ?).
Qed.

Lemma contains_returns ss t : safe_slices ss -> 0 <= t < 2 ^ 32 -> exists b, containsStep ss t = Ret b.
Proof using Type. intros Hss Ht. eexists. by apply containsStep_spec. Qed.

Lemma does_lift {A} (a : A) : does (lift (Ret a)) [].
Proof using Type. intros s Hs. exists a, s. split; [done|by apply evolves_refl]. Qed.

Lemma does_bind_nil {A B} (m : Host (Sim X) A) (f : A -> Host (Sim X) B) :
  does m [] -> (forall a, does (f a) []) -> does (m ≫= f) [].
Proof using Type. apply (does_bind m f [] []). Qed.

Lemma does_silent e : steps_of [e] = [] -> does (call hook e) [].
Proof using Hhook. intros <-. apply does_call. Qed.

(** It is enough that the program does something from every state. *)
Ltac run_from s Hs :=
  match goal with |- exists a s', ?m s = _ /\ _ =>
    lazymatch goal with |- exists a s', _ /\ evolves ?evs _ _ =>
      let Hd := fresh in assert (Hd : does m evs); [clear Hs|exact (Hd s Hs)] end end.

Lemma does_dump t : 0 <= t < 2 ^ 32 -> does (dump enabled isMaster hook t) [].
Proof using Hhook.
  intros Ht. unfold dump. destruct enabled; [|apply does_ret]. apply does_get. intros s Hs.
  destruct (contains_returns (seqCheckpointPeriod (checkpointing s)) t) as [b ->]; [exact (proj1 Hs)|done|].
  run_from s Hs.
  apply does_bind_nil; [apply does_lift|]. intros due. apply does_when.
  apply does_bind_nil; [by apply does_silent|intros _].
  apply does_bind_nil; [by apply does_when, does_silent|intros _].
  apply does_bind_nil; [by apply does_silent|intros _]. apply does_bind_nil; [by apply does_silent|intros _].
  apply does_bind_nil; [|intros _; apply does_modify; intros; by apply evolves_silent].
  apply does_when, does_modify. intros; by apply evolves_silent.
Qed.

Lemma does_dumpTimes t : 0 <= t < 2 ^ 32 -> does (dumpTimes hook t) [].
Proof using Hhook HM.
  intros Ht. apply does_get. intros s Hs. pose proof Hs as (_ & Hpr & Hany & Hrun & HR).
  rewrite (proj2 (Z.eqb_neq _ 0) Hany), andb_false_r.
  assert (Hc : exists b, match seqProgressPeriod s with Some p => containsStep p t | None => Ret false end = Ret b).
  { destruct (seqProgressPeriod s) as [p|]; [|by eexists]. apply contains_returns; [by apply Hpr|done]. }
  destruct Hc as [b ->]. rewrite (proj2 (Z.eqb_neq (runSteps s) 0)) by lia. clear Hpr Hany Hrun.
  run_from s Hs.
  apply does_bind_nil; [apply does_lift|]. intros _. apply does_bind_nil; [apply does_lift|]. intros due. apply does_when.
  apply does_bind_nil; [apply does_lift|]. intros _. apply does_bind_nil; [by apply does_silent|]. intros _.
  apply does_modify. intros s0 (H1 & H2 & H3 & H4 & H5). apply evolves_silent; done.
Qed.

Lemma does_notifyPlugins t : does (notifyPlugins enabled env ranks hook t) [inr t].
Proof using Henv Hhook.
  apply (does_bind _ _ [] [inr t]); [apply does_checkSignals|]. intros _. apply does_call.
Qed.

Lemma does_dumpOneStep t : 0 <= t < 2 ^ 32 -> does (dumpOneStep enabled env ranks isMaster hook t) [].
Proof using Henv Hhook. intros Ht. apply does_bind_nil; [apply does_checkSignals|]. intros _. by apply does_dump. Qed.

(** The steps from [t] to [t + n], each computed and then announced. *)
Definition rounds (t : Z) (n : nat) : list (Z + Z) :=
  concat (map (fun i => [inl (t + Z.of_nat i); inr (t + Z.of_nat i + 1)]) (seq 0 n)).

Lemma rounds_S t n : rounds t (S n) = [inl t; inr (t + 1)] ++ rounds (t + 1) n.
Proof using Type.
  unfold rounds. cbn [seq map concat]. rewrite Z.add_0_r. f_equal. rewrite <- seq_shift, map_map. f_equal. apply map_ext.
  intros i. by replace (t + 1 + Z.of_nat i) with (t + Z.of_nat (S i)) by lia.
Qed.

(** One round of the loop. *)
Lemma does_round t : 0 <= t < M ->
  does (call hook (ERunOneStep t) ≫= fun _ => modify (set_currentStep (u32 (t + 1))) ≫= fun _ =>
        dumpTimes hook (u32 (t + 1)) ≫= fun _ => call hook (EMovingWindow (u32 (t + 1))) ≫= fun _ =>
        notifyPlugins enabled env ranks hook (u32 (t + 1)) ≫= fun _ => dumpOneStep enabled env ranks isMaster hook (u32 (t + 1)))
    [inl t; inr (t + 1)].
Proof using All.
  intros Ht. rewrite u32_small by lia.
  apply (does_bind _ _ [inl t] [inr (t + 1)]); [apply (does_call (ERunOneStep t))|intros _].
  apply (does_bind _ _ [] _); [apply does_modify; intros; by apply evolves_silent|intros _].
  apply (does_bind _ _ [] _); [apply does_dumpTimes; lia|intros _].
  apply (does_bind _ _ [] _); [by apply does_silent|intros _].
  apply (does_bind _ _ [inr (t + 1)] []); [apply does_notifyPlugins|intros _]. apply does_dumpOneStep. lia.
Qed.

Lemma step_loop_spec fuel : forall t s, Inv s -> 0 <= t <= M -> (Z.to_nat (M - t) <= fuel)%nat ->
  exists final s', step_loop enabled env ranks isMaster hook fuel t s = (Ret final, s') /\ t <= final /\
    evolves (rounds t (Z.to_nat (final - t))) s s' /\ runSteps s' <= final /\
    (final = t \/ final <= M) /\ (quiet s -> final = Z.max t (runSteps s)).
Proof using All.
  induction fuel as [|fuel IH]; intros t s Hs Ht Hf; cbn [step_loop]; unfold mbind at 1, Host_bind at 1, get_state;
    pose proof Hs as (_ & _ & _ & Hrun & _); (destruct (Z.ltb_spec t (runSteps s)) as [Hlt|Hge];
    [|exists t, s; rewrite Z.sub_diag; split_and!; try done; try lia; apply evolves_refl; done]); [lia|].
  destruct (does_round t ltac:(lia) s Hs) as (u & s1 & E1 & Ev1).
  assert (Hassoc : forall k, (call hook (ERunOneStep t) ≫= fun _ => modify (set_currentStep (u32 (t + 1))) ≫= fun _ =>
        dumpTimes hook (u32 (t + 1)) ≫= fun _ => call hook (EMovingWindow (u32 (t + 1))) ≫= fun _ =>
        notifyPlugins enabled env ranks hook (u32 (t + 1)) ≫= fun _ => dumpOneStep enabled env ranks isMaster hook (u32 (t + 1)) ≫= fun _ => k) s =
      k s1 :> (outcome Z * Sim X)).
  { intros k. revert E1. clear. unfold mbind, Host_bind, modify.
    repeat match goal with
    | |- context [ match ?m ?st with _ => _ end ] => lazymatch st with context [match _ with _ => _ end] => fail | _ => destruct (m st) as [[?|? ?|?|] ?] end
    end; congruence. }
  cbv zeta. rewrite Hassoc. rewrite u32_small by lia.
  destruct (IH (t + 1) s1) as (final & s' & -> & Hfin & Ev & Hr & HfM & Hq); [apply Ev1|lia|lia|].
  exists final, s'. split_and!; try done; try lia.
  - replace (Z.to_nat (final - t)) with (S (Z.to_nat (final - (t + 1)))) by lia. rewrite rounds_S. by eapply evolves_trans.
  - intros Hqs. destruct Ev1 as (_ & _ & Hq1 & _). destruct (Hq1 Hqs) as [Hqs1 Hrs]. rewrite (Hq Hqs1), Hrs. lia.
Qed.

(** ** A whole simulation *)

Context (t0 : Z) (Ht0 : 0 <= t0 <= M) (Hfill : forall x, exists x', fill x = (Ret t0, x')).

Definition first_notification : list (Z + Z) := if bool_decide (RS = RS_SUCCESS) then [] else [inr t0].

Lemma does_fill : does (fun s => let '(r, x) := fill (rest s) in (r, set_log (log s) x s)) [].
Proof using Hfill.
  intros s Hs. destruct (Hfill (rest s)) as [x' ->]. eexists t0, _. split; [done|]. by apply evolves_silent.
Qed.

Lemma does_polls n t : does (for_ (seq 0 n) (fun _ => checkSignals enabled env ranks t)) [].
Proof using Henv.
  generalize 0%nat. induction n as [|n IH]; intros k; [apply does_ret|]. cbn [seq for_].
  apply does_bind_nil; [apply does_checkSignals|]. intros _. apply IH.
Qed.

(** What precedes the loop over the steps. *)
Lemma does_prologue : does
  (get_state ≫= fun s : Sim X => when (negb (bool_decide (restartState (checkpointing s) = RS_SUCCESS)))
     (notifyPlugins enabled env ranks hook t0 ≫= fun _ => dumpOneStep enabled env ranks isMaster hook t0)) first_notification.
Proof using Henv HM Hhook Ht0.
  apply does_get. intros s Hs. pose proof Hs as (_ & _ & _ & _ & ->). unfold first_notification. run_from s Hs.
  destruct (bool_decide (RS = RS_SUCCESS)); [apply does_ret|].
  apply (does_bind _ _ [inr t0] []); [apply does_notifyPlugins|]. intros _. apply does_dumpOneStep. lia.
Qed.

Lemma step_loop_does fuel t s : Inv s -> 0 <= t <= M -> (Z.to_nat (M - t) <= fuel)%nat -> quiet s ->
  exists s', step_loop enabled env ranks isMaster hook fuel t s = (Ret (Z.max t (runSteps s)), s') /\
    evolves (rounds t (Z.to_nat (runSteps s - t))) s s'.
Proof using All.
  intros Hs Ht Hf Hq. destruct (step_loop_spec fuel t s Hs Ht Hf) as (final & s' & E & _ & Ev & _ & _ & Hfin).
  rewrite (Hfin Hq) in E, Ev. exists s'. split; [done|].
  replace (Z.to_nat (Z.max t (runSteps s) - t)) with (Z.to_nat (runSteps s - t)) in Ev by lia. done.
Qed.

Lemma one_run_spec fuel polls s : Inv s -> quiet s -> (Z.to_nat M <= fuel)%nat ->
  exists s', one_run enabled env ranks isMaster hook fill fuel polls s = (Ret tt, s') /\
    evolves (first_notification ++ rounds t0 (Z.to_nat (runSteps s - t0))) s s'.
Proof using All.
  intros Hs Hq Hf. unfold one_run.
  destruct (does_call (EResetAll 0) s Hs) as ([] & s1 & E1 & V1). unfold mbind at 1, Host_bind at 1. rewrite E1. clear E1.
  destruct (does_fill s1 (proj1 V1)) as (t & s2 & E2 & V2). unfold mbind at 1, Host_bind at 1.
  assert (t = t0) as -> by (destruct (Hfill (rest s1)) as [x' Hx]; rewrite Hx in E2; congruence).
  rewrite E2. clear E2. pose proof (evolves_trans _ _ _ _ _ V1 V2) as V. clear V1 V2.
  assert (Hm : does (modify (set_currentStep t0)) []) by (apply does_modify; intros; by apply evolves_silent).
  destruct (Hm s2 (proj1 V)) as ([] & s3 & E3 & V3). unfold mbind at 1, Host_bind at 1. rewrite E3. clear E3 Hm.
  pose proof (evolves_trans _ _ _ _ _ V V3) as V4. clear V V3.
  destruct (does_silent EBarrier eq_refl s3 (proj1 V4)) as ([] & s4 & E4 & V5). unfold mbind at 1, Host_bind at 1. rewrite E4. clear E4.
  pose proof (evolves_trans _ _ _ _ _ V4 V5) as V. clear V4 V5.
  destruct (does_silent (EMovingWindow t0) eq_refl s4 (proj1 V)) as ([] & s5 & E5 & V6). unfold mbind at 1, Host_bind at 1. rewrite E5. clear E5.
  pose proof (evolves_trans _ _ _ _ _ V V6) as V7. clear V V6.
  destruct (does_prologue s5 (proj1 V7)) as ([] & s6 & E6 & V8).
  unfold mbind at 1, Host_bind at 1, get_state in E6. unfold mbind at 1, Host_bind at 1, get_state at 1.
  unfold mbind at 1, Host_bind at 1. rewrite E6. clear E6. pose proof (evolves_trans _ _ _ _ _ V7 V8) as V. clear V7 V8.
  destruct (does_dumpTimes t0 ltac:(lia) s6 (proj1 V)) as ([] & s7 & E7 & V9). unfold mbind at 1, Host_bind at 1. rewrite E7. clear E7.
  pose proof (evolves_trans _ _ _ _ _ V V9) as V10. clear V V9. simpl in V10. rewrite app_nil_r in V10.
  destruct V10 as (I7 & L7 & Q7 & R7 & N7). destruct (Q7 Hq) as [Hq7 Hr7].
  destruct (step_loop_does fuel t0 s7 I7 Ht0 ltac:(lia) Hq7) as (s8 & E8 & V8). unfold mbind at 1, Host_bind at 1. rewrite E8. clear E8.
  destruct (does_polls polls (Z.max t0 (runSteps s7)) s8 (proj1 V8)) as ([] & s9 & E9 & V9). exists s9. split; [done|].
  rewrite <- (app_nil_r (first_notification ++ _)), <- Hr7. eapply evolves_trans; [|exact V9].
  eapply evolves_trans; [|exact V8]. by split_and!.
Qed.

Lemma evolves_quiet evs s s' : evolves evs s s' -> quiet s -> quiet s' /\ runSteps s' = runSteps s.
Proof using Type. intros (_ & _ & Hq & _). done. Qed.

(** The soft restarts still to come: [n] more. *)
Lemma restart_loop_spec n : forall fuel fuel_steps polls s, Inv s -> quiet s -> (Z.to_nat M <= fuel_steps)%nat -> (n <= fuel)%nat ->
  0 <= nthSoftRestart (checkpointing s) -> softRestarts (checkpointing s) < 2 ^ 32 - 1 ->
  softRestarts (checkpointing s) + 1 - nthSoftRestart (checkpointing s) = Z.of_nat n ->
  exists s', restart_loop enabled env ranks isMaster hook fill fuel fuel_steps polls s = (Ret tt, s') /\
    steps_of (log s') = steps_of (log s) ++ concat (replicate n (first_notification ++ rounds t0 (Z.to_nat (runSteps s - t0)))).
Proof using All.
  induction n as [|n IH]; intros fuel fuel_steps polls s Hs Hq Hfs Hf H0 Hlt Hn.
  - exists s. split; [|by rewrite app_nil_r]. destruct fuel; cbn [restart_loop]; unfold hasSoftRestartAttemptsLeft, mbind, Host_bind, get_state;
      rewrite (proj2 (Z.leb_gt _ _)) by lia; done.
  - destruct fuel as [|fuel]; [lia|]. cbn [restart_loop]. set (s1 := set_checkpointing (count_restart (checkpointing s)) s).
    assert (Ea : hasSoftRestartAttemptsLeft s = (Ret true, s1)).
    { unfold hasSoftRestartAttemptsLeft, mbind, Host_bind, get_state. by rewrite (proj2 (Z.leb_le _ _)) by lia. }
    unfold mbind at 1, Host_bind at 1. rewrite Ea.
    destruct (one_run_spec fuel_steps (polls fuel) s1) as (s2 & E & V); [done|done|done|].
    unfold mbind at 1, Host_bind at 1. rewrite E. destruct (evolves_quiet _ _ _ V Hq) as [Hq2 Hr2]. pose proof V as (I2 & L2 & _ & R2 & N2).
    assert (Hnth : nthSoftRestart (checkpointing s1) = nthSoftRestart (checkpointing s) + 1).
    { unfold s1. simpl. apply u32_small. lia. }
    assert (Hsr : softRestarts (checkpointing s1) = softRestarts (checkpointing s)) by done.
    destruct (IH fuel fuel_steps polls s2) as (s3 & E3 & L3); [done|done|done|lia|lia|lia|lia|].
    exists s3. split; [done|]. rewrite L3, L2, Hr2. cbn [replicate concat]. change (runSteps s1) with (runSteps s).
    change (log s1) with (log s). by rewrite <- app_assoc.
Qed.
End loop.

(** Whatever signals arrive and however their collective handling is answered, as long as the
    stops agreed on are steps in [1, M]: the loop from step [t] ends, having computed the steps
    [t, t+1, ... final - 1] in this order, each followed by the notification of the plugins of the
    next step; it ends no earlier than the number of steps asked for in the end says, and without signals
    exactly there. *)
Theorem simulation_steps {X} enabled (env : nat -> Input) ranks isMaster (hook : event -> X -> outcome unit * X) M RS t s :
  (forall e x, exists x', hook e x = (Ret tt, x')) -> 0 < M < 2 ^ 32 ->
  (forall k c a b, completed (env k) = Some (c, a, b) -> 0 < c <= M) ->
  Inv M RS s -> 0 <= t <= M ->
  exists final s', step_loop enabled env ranks isMaster hook (Z.to_nat (M - t)) t s = (Ret final, s') /\
    t <= final /\ steps_of (log s') = steps_of (log s) ++ rounds t (Z.to_nat (final - t)) /\
    runSteps s' <= final /\ (quiet env s -> final = Z.max t (runSteps s)).
Proof.
  intros Hhook HM Henv Hs Ht.
  destruct (step_loop_spec enabled env ranks isMaster hook (fun x => (Ret 0, x)) M RS Hhook HM Henv (Z.to_nat (M - t)) t s Hs Ht)
    as (final & s' & E & Hle & (_ & L & _) & Hr & _ & Hq); [done|]. by exists final, s'.
Qed.

(** A simulation to which no signals are sent ends, after [softRestarts + 1] runs, each of which
    announces the initial step (unless it was restarted from a checkpoint) and then computes
    and announces every step up to the number of steps asked for; the identifier provider is
    registered.  (The bound on [softRestarts] is needed: with [2^32 - 1] the counter wraps and the
    loop does not end.) *)
Theorem simulation_runs {X} enabled (env : nat -> Input) ranks isMaster (hook : event -> X -> outcome unit * X)
    (fill : X -> outcome Z * X) RS t0 (s : Sim X) period raw rank ids polls n :
  (forall e x, exists x', hook e x = (Ret tt, x')) -> (forall x, exists x', fill x = (Ret t0, x')) ->
  0 < runSteps s < 2 ^ 32 -> 0 <= t0 <= runSteps s ->
  toTimeSlice (checkpointPeriod (checkpointing s)) = Ret period -> safe_slices period ->
  safe_slices (seqCheckpointPeriod (checkpointing s)) ->
  (forall p, seqProgressPeriod s = Some p -> safe_slices p) -> showProgressAnyStep s <> 0 ->
  restartState (checkpointing s) = RS -> quiet env s -> (forall k, completed (env k) = None) ->
  nthSoftRestart (checkpointing s) = 0 -> softRestarts (checkpointing s) = Z.of_nat n -> Z.of_nat n < 2 ^ 32 - 1 ->
  newIdProvider raw rank ranks = Some ids ->
  exists s', startSimulation enabled env ranks isMaster hook fill raw rank (S n) (Z.to_nat (runSteps s)) polls (s, []) =
      (Ret tt, (s', [mkData "globalId" ids])) /\
    steps_of (log s') = steps_of (log s) ++
      concat (replicate (S n) (first_notification RS t0 ++ rounds t0 (Z.to_nat (runSteps s - t0)))).
Proof.
  intros Hhook Hfill HN Ht0 Hper Hsafe Hsafe' Hpr Hany HRS Hq Hnone Hnth Hsoft Hn Hids.
  set (s1 := if enabled then set_checkpointing (set_seqCheckpointPeriod period (checkpointing s)) s else s).
  destruct (Hhook EInit (rest s1)) as [x' Hx]. set (s2 := set_log (log s1 ++ [EInit]) x' s1). set (dc := [mkData "globalId" ids]).
  assert (E1 : on_sim (startTimeBasedCheckpointing enabled) (s, []) = (Ret tt, (s1, []))).
  { unfold on_sim, startTimeBasedCheckpointing, s1. destruct enabled; [|done]. unfold mbind, Host_bind, get_state, lift.
    cbn [negb fst snd]. by rewrite Hper. }
  assert (E2 : on_connector (share (Some (mkData "globalId" ids))) (s1, []) = (Ret tt, (s1, dc))) by done.
  assert (E3 : on_sim (call hook EInit) (s1, dc) = (Ret tt, (s2, dc))) by (unfold on_sim, call; cbn [fst snd]; by rewrite Hx).
  unfold startSimulation. rewrite (host_bind_ret _ _ _ _ _ E1), Hids. unfold mbind at 1, Host_bind at 1, lift at 1. cbv beta iota.
  rewrite (host_bind_ret _ _ _ _ _ E2), (host_bind_ret _ _ _ _ _ E3). unfold on_sim. cbn [fst snd].
  destruct (restart_loop_spec enabled env ranks isMaster hook fill (runSteps s) RS Hhook HN) with (t0 := t0) (n := S n) (fuel := S n)
    (fuel_steps := Z.to_nat (runSteps s)) (polls := polls) (s := s2) as (s' & E & L); try done; try (unfold s2, s1; destruct enabled; simpl; done || lia).
  - intros k c a b Hc. by rewrite Hnone in Hc.
  - unfold s2, s1. destruct enabled; split_and!; try done; simpl; lia.
  - exists s'. rewrite E. split; [done|]. rewrite L. assert (El : log s2 = log s ++ [EInit]) by (unfold s2, s1; by destruct enabled). rewrite El.
    assert (Er : runSteps s2 = runSteps s) by (unfold s2, s1; by destruct enabled). rewrite Er.
    by rewrite steps_of_app, app_nil_r.
Qed.

Section witness.
(** No signals, hooks that return at once, eleven steps from step 7 on. *)
Local Definition quiet_env (k : nat) : Input := mkInput [] None.
Local Definition done_hook (e : event) (x : unit) : outcome unit * unit := (Ret tt, x).
Local Definition ckpt (n : Z) : Checkpointing := mkCheckpointing n 0 (txt "5") [] 0 RS_DISABLED (-1) [].
Local Definition sim0 (n : Z) : Sim unit :=
  mkSim 11 0 (ckpt n) (mkSignals 0 0 0) None 0 true 5 1 None 0 [] tt.

Lemma simulation_steps_witness : exists final s',
  step_loop true quiet_env 2 true done_hook 4 7 (sim0 0) = (Ret final, s') /\ final = 11.
Proof.
  assert (Q : quiet quiet_env (sim0 0)) by (split; [|split]; reflexivity).
  destruct (simulation_steps true quiet_env 2 true done_hook 11 RS_DISABLED 7 (sim0 0)) as (final & s' & E & _ & _ & _ & Hq).
  - intros e x. by exists x.
  - done.
  - done.
  - split_and!; try done. constructor.
  - done.
  - exists final, s'. split; [exact E|]. exact (Hq Q).
Defined.

Lemma simulation_runs_witness : exists s' ids,
  startSimulation true quiet_env 2 true done_hook (fun x => (Ret 9, x)) 0 1 2 11 (fun _ => 3%nat) (sim0 1, []) =
    (Ret tt, (s', [mkData "globalId" ids])) /\
  steps_of (log s') = let run := [inr 9; inl 9; inr 10; inl 10; inr 11] in run ++ run.
Proof.
  destruct (newIdProvider 0 1 2) as [ids|] eqn:Eids; [|by vm_compute in Eids].
  destruct (simulation_runs true quiet_env 2 true done_hook (fun x => (Ret 9, x)) RS_DISABLED 9 (sim0 1) [[0; 2 ^ 32 - 1; 5]] 0 1 ids
    (fun _ => 3%nat) 1) as (s' & E & L).
  - intros e x. by exists x.
  - intros x. by exists x.
  - done.
  - done.
  - by vm_compute.
  - repeat constructor; done.
  - constructor.
  - done.
  - done.
  - done.
  - split; [|split]; reflexivity.
  - done.
  - done.
  - done.
  - done.
  - exact Eids.
  - exists s', ids. split; [exact E|exact L].
Defined.
End witness.

(** ** Checkpoints and progress *)

(** What [writeCheckpointStep] appends, [readCheckpointMasterFile] reads back. *)
Lemma master_file_roundtrip steps : Forall (fun n => 0 <= n < 2 ^ 32) steps ->
  readCheckpointMasterFile (map to_string steps) = steps.
Proof.
  unfold readCheckpointMasterFile. induction steps as [|n steps IH]; intros Hf; [done|].
  apply Forall_cons_iff in Hf as [Hn Hf]. cbn [map omap list_omap].
  destruct (to_string_spec n ltac:(lia)) as (Hne & Hnum & Hv). unfold from_chars_u32 at 1.
  rewrite !(bool_decide_eq_false_2 (to_string n = [])), Hnum, Hv by done. rewrite (proj2 (Z.ltb_lt n _)) by lia. cbn [andb negb].
  f_equal. by apply IH.
Qed.

(** A signal to stop that is taken up at the last step makes the simulation compute one step
    more than it was asked for. *)
Local Definition late_stop (k : nat) : Input :=
  if (k =? 2)%nat then mkInput [SIGTERM] None else if (k =? 3)%nat then mkInput [] (Some (6, 1, 0)) else mkInput [] None.

Example late_stop_overruns :
  let s := mkSim 5 0 (mkCheckpointing 0 0 [] [] 0 RS_DISABLED (-1) []) (mkSignals 0 0 0) None 0 false 5 1 None 0 [] tt in
  let r := step_loop true late_stop 1 true done_hook 10 3 s in
  r.1 = Ret 6 /\ omap (fun e => match e with inl t => Some t | inr _ => None end) (steps_of (log r.2)) = [3; 4; 5].
Proof. vm_compute. done. Qed.

(** The percentage computed in double precision: all of 29 steps are reported at step 28. *)
Example progress_29 :
  showProgressAnyStep (calcProgress (mkSim 29 0 (mkCheckpointing 0 0 [] [] 0 RS_DISABLED (-1) []) (mkSignals 0 0 0) None 0
    true 100 0 None 0 [] tt)) = 28.
Proof. vm_compute. done. Qed.
