(* ===== verification/Startup.v ===== *)
(** * Starting a simulation

    Models pmacc/device/MemoryInfo.hpp and of spearhed/control/Simulation.x.cpp the command
    line checks of [pluginLoad], the memory check of [init] and [freeDeviceMemory], which
    finds out by trial how much device memory can be allocated at once.  Whether an attempt
    succeeds is an arbitrary function of the attempt and its size. *)
From Stdlib Require Import ZArith Lia.
From stdpp Require Import base list numbers strings.
From S2P Require Import Prelude Outcome TimeSlice.
Local Open Scope Z_scope.

(** [MemoryInfo::getMemoryInfo] for the free memory. *)
Definition getMemoryInfo (reservedMem freeInternal : Z) : Z :=
  if freeInternal <? reservedMem then 0 else u64 (freeInternal - reservedMem).

Definition MiB : Z := 1024 * 1024.
Definition reservedGpuMemorySize : Z := 700 * MiB.
Definition initialStep : Z := 16 * MiB.

Section probe.
Context (alloc : nat -> Z -> bool).

(** The loop of test allocations; [attempt] counts them. *)
Fixpoint probe (fuel attempt : nat) (allocatableMemory stepSize : Z) : option Z :=
  match fuel with
  | O => None
  | S fuel =>
      if alloc attempt allocatableMemory then Some allocatableMemory else
      let stepSize := if allocatableMemory <? stepSize then Z.min allocatableMemory (stepSize / 2) else stepSize in
      let allocatableMemory := u64 (allocatableMemory - stepSize) in
      if negb (allocatableMemory =? 0) then probe fuel (S attempt) allocatableMemory stepSize
      else Some allocatableMemory
  end.

(** [freeDeviceMemory]; the barriers between ranks that share the device are left out. *)
Definition share_of_device (numRanksPerDevice freeMemory : Z) : Z :=
  let freeDeviceMemory := if initialStep <=? freeMemory then u64 (freeMemory - initialStep) else freeMemory in
  if 2 <=? numRanksPerDevice then freeDeviceMemory / numRanksPerDevice else freeDeviceMemory.

Definition freeDeviceMemory (fuel : nat) (numRanksPerDevice freeMemory : Z) : option Z :=
  probe fuel 0 (share_of_device numRanksPerDevice freeMemory) initialStep.
End probe.

(** The check at the beginning of [init]. *)
Definition init_check (freeGpuMem : Z) : outcome unit :=
  if freeGpuMem <? reservedGpuMemorySize
  then Throw runtime_error ("Cannot reserve " +:+ str (to_string (reservedGpuMemorySize / 1024 / 1024)) +:+
         " MiB as there is only " +:+ str (to_string (freeGpuMem / 1024 / 1024)) +:+ " MiB free device memory left")
  else Ret tt.

(** [while(v.size() < simDim) v.push_back(x)]. *)
Definition fill_up (simDim : nat) (x : Z) (v : list Z) : list Z := v ++ replicate (simDim - length v) x.

(** [pluginLoad] up to the initialisation of the devices: the grid of devices and the
    periodic directions. *)
Definition pluginLoad_devices (simDim : nat) (devices periodic : list Z) : outcome (list Z * list Z) :=
  let periodic := fill_up simDim 0 periodic in
  _ ← PMACC_VERIFY_MSG ((1 <=? length devices)%nat && (length devices <=? simDim)%nat)
        "Invalid number of devices. use [-d dx=1 dy=1 dz=1]";
  let devices := fill_up simDim 1 devices in
  Ret (take simDim devices, take simDim periodic).

(** ** The probe ends, and finds what can be allocated *)

Section spec.
Context (alloc : nat -> Z -> bool).

(** Below a step that is a power of two the loop only halves. *)
Lemma probe_halving k : forall n fuel a, 0 <= a < 2 ^ Z.of_nat k -> (k <= 63)%nat -> (k < fuel)%nat ->
  is_Some (probe alloc fuel n a (2 ^ Z.of_nat k)).
Proof.
  induction k as [|k IH]; intros n [|fuel] a Ha Hk Hf; try lia; cbn [probe]; destruct (alloc n a); try by eexists.
  - replace a with 0 by (simpl in Ha; lia). by eexists.
  - rewrite (proj2 (Z.ltb_lt _ _)) by lia. set (p := 2 ^ Z.of_nat k) in *.
    assert (Ep : 2 ^ Z.of_nat (S k) = p * 2) by (rewrite Nat2Z.inj_succ, Z.pow_succ_r by lia; unfold p; lia).
    rewrite Ep in *. rewrite Z.div_mul by lia.
    assert (0 < p <= 2 ^ 62) by (split; [apply Z.pow_pos_nonneg; lia|apply Z.pow_le_mono_r; lia]).
    unfold u64. rewrite Z.mod_small by lia. destruct (Z.eqb_spec (a - Z.min a p) 0) as [E|E]; [by eexists|].
    cbn [negb]. assert (p < a) by lia. rewrite Z.min_r by lia. apply IH; lia.
Qed.

Lemma probe_ends m : forall n fuel a, 0 <= a < 2 ^ 64 -> a < Z.of_nat m * initialStep -> (m + 24 < fuel)%nat ->
  is_Some (probe alloc fuel n a initialStep).
Proof.
  induction m as [|m IH]; intros n fuel a Ha Hm Hf; [unfold initialStep, MiB in *; lia|].
  destruct (Z.lt_ge_cases a initialStep) as [Hlt|Hge].
  - apply (probe_halving 24); unfold initialStep, MiB in *; lia.
  - destruct fuel as [|fuel]; [lia|]. cbn [probe]. destruct (alloc n a); [by eexists|].
    rewrite (proj2 (Z.ltb_ge _ _)) by lia. unfold u64. rewrite Z.mod_small by (unfold initialStep, MiB in *; lia).
    destruct (Z.eqb_spec (a - initialStep) 0); [by eexists|]. cbn [negb].
    apply IH; unfold initialStep, MiB in *; lia.
Qed.

(** What the loop returns: a size that could be allocated, or 0. *)
Lemma probe_result : forall fuel n a step r, 0 <= a < 2 ^ 64 -> 0 <= step -> probe alloc fuel n a step = Some r ->
  0 <= r <= a /\ (r = 0 \/ exists k, alloc k r = true).
Proof.
  induction fuel as [|fuel IH]; intros n a step r Ha Hs; [done|]. cbn [probe]. destruct (alloc n a) eqn:Ea.
  { intros [= <-]. split; [lia|right; by exists n]. }
  assert (Hd : 0 <= (if a <? step then Z.min a (step / 2) else step) <= a).
  { destruct (Z.ltb_spec a step); [|lia]. pose proof (Z.div_pos step 2 Hs ltac:(lia)). lia. }
  set (d := if a <? step then _ else step) in *. unfold u64. rewrite Z.mod_small by lia.
  destruct (Z.eqb_spec (a - d) 0) as [E|E]; cbn [negb]; [intros [= <-]; lia|]. intros Hr.
  destruct (IH (S n) (a - d) d r) as [Hb Hr']; [lia|lia|done|]. split; [lia|done].
Qed.

(** With a fixed capacity the loop comes within one step of it. *)
Lemma probe_close cap : (forall n a, alloc n a = (a <=? cap)) -> 0 <= cap ->
  forall fuel n a step r, 0 <= a < 2 ^ 64 -> 0 <= step <= initialStep -> probe alloc fuel n a step = Some r ->
  (a <= cap -> r = a) /\ cap < r + initialStep \/ r = a /\ a <= cap.
Proof.
  intros Halloc Hcap. induction fuel as [|fuel IH]; intros n a step r Ha Hs; [done|]. cbn [probe]. rewrite Halloc.
  destruct (Z.leb_spec a cap) as [Hle|Hgt]; [intros [= <-]; by right|].
  assert (Hd : 0 <= (if a <? step then Z.min a (step / 2) else step) <= initialStep /\
               (if a <? step then Z.min a (step / 2) else step) <= a).
  { destruct (Z.ltb_spec a step); [|lia]. pose proof (Z.div_pos step 2 ltac:(lia) ltac:(lia)).
    pose proof (Z.div_le_upper_bound step 2 step). lia. }
  set (d := if a <? step then _ else step) in *. unfold u64. rewrite Z.mod_small by lia.
  destruct (Z.eqb_spec (a - d) 0) as [E|E]; cbn [negb]; [intros [= <-]; left; lia|]. intros Hr. left.
  destruct (IH (S n) (a - d) d r) as [[_ Hb]|[-> Hb]]; [lia|lia|done|lia|lia].
Qed.
End spec.

Lemma share_bounds ranks free : 0 <= free < 2 ^ 64 -> 0 <= share_of_device ranks free <= free.
Proof.
  intros Hf. unfold share_of_device. set (x := if initialStep <=? free then u64 (free - initialStep) else free).
  assert (Hx : 0 <= x <= free).
  { unfold x, u64, initialStep, MiB. destruct (Z.leb_spec (16 * (1024 * 1024)) free); [|lia]. rewrite Z.mod_small by lia. lia. }
  destruct (Z.leb_spec 2 ranks); [|done]. split; [apply Z.div_pos; lia|].
  apply Z.div_le_upper_bound; [lia|]. nia.
Qed.

(** The search for allocatable device memory ends for every behaviour of the allocator, within one
    attempt per 16 MiB and 26 more; its result does not exceed the free memory and was
    allocated successfully, or is 0; and when allocations succeed exactly up to some capacity
    the result is the share of this rank or less than 16 MiB below the capacity. *)
Theorem memory_probe_ends alloc ranks free :
  0 <= free < 2 ^ 64 ->
  exists r, freeDeviceMemory alloc (Z.to_nat (free / initialStep) + 26) ranks free = Some r /\
    0 <= r <= free /\ (r = 0 \/ exists k, alloc k r = true) /\
    forall cap, 0 <= cap -> (forall n a, alloc n a = (a <=? cap)) ->
      (r = share_of_device ranks free /\ r <= cap) \/ cap < r + initialStep.
Proof.
  intros Hf. pose proof (share_bounds ranks free Hf) as Hs. unfold freeDeviceMemory.
  destruct (probe_ends alloc (S (Z.to_nat (free / initialStep))) 0 (Z.to_nat (free / initialStep) + 26) (share_of_device ranks free))
    as [r Hr]; [lia| |lia|].
  { rewrite Nat2Z.inj_succ, Z2Nat.id by (apply Z.div_pos; unfold initialStep, MiB; lia).
    pose proof (Z.mul_succ_div_gt free initialStep ltac:(done)) as Hd.
    rewrite Z.mul_comm in Hd. lia. }
  exists r. split; [done|]. pose proof Hr as Hr'. apply probe_result in Hr' as [Hb Hok]; [|lia|done].
  split_and!; [lia|lia|done|]. intros cap Hcap Halloc.
  apply (probe_close alloc cap Halloc Hcap) in Hr as [[_ ?]|[-> ?]]; [by right|by left|lia|done].
Qed.

Lemma memory_probe_ends_witness : exists r,
  freeDeviceMemory (fun _ a => a <=? 40 * MiB) 32 1 (100 * MiB) = Some r /\ 24 * MiB < r.
Proof.
  destruct (memory_probe_ends (fun _ a => a <=? 40 * MiB) 1 (100 * MiB)) as (r & Hr & _ & _ & Hc); [done|].
  exists r. split; [exact Hr|]. destruct (Hc (40 * MiB)) as [[-> _]|Hlt]; [done|done|done|].
  unfold initialStep, MiB in *. lia.
Defined.

Example init_too_small : init_check (5 * MiB) =
  Throw runtime_error "Cannot reserve 700 MiB as there is only 5 MiB free device memory left".
Proof. vm_compute. done. Qed.

(** [pluginLoad] accepts between one and [simDim] device counts and completes them with 1. *)
Lemma pluginLoad_devices_spec simDim devices periodic :
  pluginLoad_devices simDim devices periodic =
  if (1 <=? length devices)%nat && (length devices <=? simDim)%nat
  then Ret (fill_up simDim 1 devices, take simDim (fill_up simDim 0 periodic))
  else Abort "Invalid number of devices. use [-d dx=1 dy=1 dz=1]".
Proof.
  unfold pluginLoad_devices. destruct (Nat.leb_spec 1 (length devices)), (Nat.leb_spec (length devices) simDim); try done. simpl.
  by rewrite take_ge by (unfold fill_up; rewrite length_app, length_replicate; lia).
Qed.
