(* ===== verification/FrameIndex.v ===== *)
(** * The frame index

    Models spmacc/particles/algorithms/FrameIndex.hpp, CountFramesKernel of
    FrameDispatch.hpp and the launch entry points of LaunchForEach.hpp.  The
    senders of a rebuild run their queue work in order; the model executes that
    order, with the blocks of each kernel in an arbitrary order. *)
From Stdlib Require Import ZArith Lia.
From stdpp Require Import base sets list numbers gmap relations.
From S2P Require Import Prelude Scalar Topology Aabb FrameList Lockstep Regions Scan.

Section frame_index.
Context {T : Type} `{Scalar T}.
Local Open Scope Z_scope.

(** ** Kernels *)

(** [CountFramesKernel], block [b]: [fuel] bounds the list walk. *)
Definition CountFramesKernel (fuel : nat) (h : heap T) (prs : list (ParticleRegion T))
    (numRegions b : nat) (framesPerRegion : list Z) : option (list Z) :=
  if (numRegions <=? b)%nat then Some framesPerRegion else
  region ← prs !! b;
  n ← list_size fuel h (m_firstNode (particleFrameList region)) 0;
  box_write framesPerRegion b (u32 n).

(** The walk of [BuildFrameIndexKernel]: [i] counts the frames of the region. *)
Fixpoint fill_walk (fuel : nat) (h : heap T) (p offset i blockIdx : Z) (st : list Z * list Z)
    : option (list Z * list Z) :=
  if p =? 0 then Some st else
  match fuel with
  | O => None
  | S f =>
      fr ← h !! p;
      let slot := s32 (u32 (offset + i)) in
      framePtrs ← zbox_write st.1 slot p;
      regionIdx ← zbox_write st.2 slot (u32 blockIdx);
      fill_walk f h (next fr) offset (u32 (i + 1)) blockIdx (framePtrs, regionIdx)
  end.

(** [BuildFrameIndexKernel], block [b]. *)
Definition BuildFrameIndexKernel (fuel : nat) (h : heap T) (prs : list (ParticleRegion T))
    (numRegions : nat) (framesScan : list Z) (b : nat) (st : list Z * list Z)
    : option (list Z * list Z) :=
  if (numRegions <=? b)%nat then Some st else
  offset ← (if (b =? 0)%nat then Some 0 else framesScan !! (b - 1)%nat);
  region ← prs !! b;
  fill_walk fuel h (m_firstNode (particleFrameList region)) offset 0 (Z.of_nat b) st.

(** ** The index *)

(** [FrameIndexBuffer]; of [framePtrs] and [regionIdxPerFrame] only the device
    halves are ever used. *)
Record FrameIndexBuffer : Type := mkIndex {
  framePtrs : option (list Z);
  regionIdxPerFrame : option (list Z);
  framesPerRegion : option (HDBuffer Z);
  totalFrames : Z;
  frameCapacity : Z;
  regionCapacity : Z;
  builtVersion : Z;
  builtBuffer : Z;
  hasBuild : bool
}.

Definition emptyIndex : FrameIndexBuffer := mkIndex None None None 0 0 0 0 0 false.

(** [ensureRegionCapacity(needed)]: exact fit; the fresh buffer holds [junk]. *)
Definition ensureRegionCapacity (junk needed : Z) (ix : FrameIndexBuffer) : FrameIndexBuffer :=
  if (match framesPerRegion ix with Some _ => true | None => false end) && (needed <=? regionCapacity ix)
  then ix
  else mkIndex (framePtrs ix) (regionIdxPerFrame ix) (Some (hd_alloc (Z.to_nat needed) junk))
         (totalFrames ix) (frameCapacity ix) needed (builtVersion ix) (builtBuffer ix) (hasBuild ix).

(** The doubling loop of [ensureFrameCapacity], on uint32_t; [None] when [fuel]
    rounds do not reach [needed]. *)
Fixpoint double_until (fuel : nat) (newCapacity needed : Z) : option Z :=
  if newCapacity <? needed then
    match fuel with
    | O => None
    | S f => double_until f (u32 (newCapacity * 2)) needed
    end
  else Some newCapacity.

(** A one-dimensional buffer of [static_cast<int>(capacity)] elements. *)
Definition alloc_int (capacity junk : Z) : option (list Z) :=
  if s32 capacity <? 0 then None else Some (replicate (Z.to_nat (s32 capacity)) junk).

(** [ensureFrameCapacity(needed)]. *)
Definition ensureFrameCapacity (fuel : nat) (junk needed : Z) (ix : FrameIndexBuffer)
    : option FrameIndexBuffer :=
  if (match framePtrs ix with Some _ => true | None => false end) && (needed <=? frameCapacity ix)
  then Some ix
  else
    newCapacity ← double_until fuel (if frameCapacity ix =? 0 then needed else frameCapacity ix) needed;
    fp ← alloc_int newCapacity junk;
    ri ← alloc_int newCapacity junk;
    Some (mkIndex (Some fp) (Some ri) (framesPerRegion ix) (totalFrames ix) newCapacity
            (regionCapacity ix) (builtVersion ix) (builtBuffer ix) (hasBuild ix)).

Definition set_totalFrames (n : Z) (ix : FrameIndexBuffer) : FrameIndexBuffer :=
  mkIndex (framePtrs ix) (regionIdxPerFrame ix) (framesPerRegion ix) n (frameCapacity ix)
    (regionCapacity ix) (builtVersion ix) (builtBuffer ix) (hasBuild ix).
Definition set_framesPerRegion (b : HDBuffer Z) (ix : FrameIndexBuffer) : FrameIndexBuffer :=
  mkIndex (framePtrs ix) (regionIdxPerFrame ix) (Some b) (totalFrames ix) (frameCapacity ix)
    (regionCapacity ix) (builtVersion ix) (builtBuffer ix) (hasBuild ix).
Definition set_frames (fp ri : list Z) (ix : FrameIndexBuffer) : FrameIndexBuffer :=
  mkIndex (Some fp) (Some ri) (framesPerRegion ix) (totalFrames ix) (frameCapacity ix)
    (regionCapacity ix) (builtVersion ix) (builtBuffer ix) (hasBuild ix).
Definition publish (version buffer : Z) (ix : FrameIndexBuffer) : FrameIndexBuffer :=
  mkIndex (framePtrs ix) (regionIdxPerFrame ix) (framesPerRegion ix) (totalFrames ix)
    (frameCapacity ix) (regionCapacity ix) version buffer true.

(** The first half of [rebuildSender]: count, download, scan, grow. *)
Definition rebuild_count (fuel : nat) (junk : Z) (ord : list nat) (h : heap T) (pr : PRBuffer T)
    (ix : FrameIndexBuffer) : option FrameIndexBuffer :=
  let numRegions := pr_size pr in
  let ix := ensureRegionCapacity junk (Z.max (Z.of_nat numRegions) 1) ix in
  buf ← framesPerRegion ix;
  counts ← (if (0 <? numRegions)%nat
            then run_blocks ord (CountFramesKernel fuel h (getDeviceDataBox pr) numRegions) (deviceData buf)
            else Some (deviceData buf));
  let buf := deviceToHost (mkHD (hostData buf) counts) in
  host ← (if (numRegions =? 0)%nat then box_write (hostData buf) 0 0 else Some (hostData buf));
  '(total, scanned) ← inclusiveScanHost host numRegions;
  let ix := set_totalFrames total (set_framesPerRegion (mkHD scanned counts) ix) in
  ensureFrameCapacity fuel junk (Z.max total 1) ix.

(** The second half: upload the scan, fill, publish. *)
Definition rebuild_fill (fuel : nat) (ord : list nat) (h : heap T) (pr : PRBuffer T)
    (targetVersion : Z) (ix : FrameIndexBuffer) : option FrameIndexBuffer :=
  let numRegions := pr_size pr in
  buf ← framesPerRegion ix;
  let buf := hostToDevice buf in
  fp ← framePtrs ix;
  ri ← regionIdxPerFrame ix;
  '(fp', ri') ← (if (0 <? numRegions)%nat && (0 <? totalFrames ix)
     then run_blocks ord (BuildFrameIndexKernel fuel h (getDeviceDataBox pr) numRegions (deviceData buf)) (fp, ri)
     else Some (fp, ri));
  Some (publish targetVersion (pr_id pr) (set_frames fp' ri' (set_framesPerRegion buf ix))).

(** [rebuildSender]/[rebuild]. *)
Definition rebuild (fuel : nat) (junk : Z) (ord1 ord2 : list nat) (h : heap T) (pr : PRBuffer T)
    (ix : FrameIndexBuffer) : option FrameIndexBuffer :=
  let targetVersion := topologyVersion pr in
  ix ← rebuild_count fuel junk ord1 h pr ix;
  rebuild_fill fuel ord2 h pr targetVersion ix.

(** The freshness test of [refreshIfStale], of [RefreshSender] and of the
    assertion in launchForEachFrameInBlockIndexed. *)
Definition index_fresh (ix : FrameIndexBuffer) (pr : PRBuffer T) : bool :=
  hasBuild ix && (builtBuffer ix =? pr_id pr) && (builtVersion ix =? topologyVersion pr).

(** [refreshIfStale(prBuf)] / [RefreshSender::Operation::start]. *)
Definition refreshIfStale (fuel : nat) (junk : Z) (ord1 ord2 : list nat) (h : heap T)
    (pr : PRBuffer T) (ix : FrameIndexBuffer) : option FrameIndexBuffer :=
  if index_fresh ix pr then Some ix else rebuild fuel junk ord1 ord2 h pr ix.

(** ** What a build promises *)

(** The frame lists of the regions of a buffer. *)
Definition region_lists (h : heap T) (prs : list (ParticleRegion T)) (fss : list (list Z)) : Prop :=
  Forall2 (fun r ps => is_list h (particleFrameList r) ps) prs fss.

Definition index_wf (ix : FrameIndexBuffer) : Prop :=
  match framePtrs ix, regionIdxPerFrame ix with
  | Some fp, Some ri => Z.of_nat (length fp) = frameCapacity ix /\ Z.of_nat (length ri) = frameCapacity ix
                        /\ 0 < frameCapacity ix
  | None, None => frameCapacity ix = 0
  | _, _ => False
  end /\
  match framesPerRegion ix with
  | Some b => Z.of_nat (length (hostData b)) = regionCapacity ix /\
              Z.of_nat (length (deviceData b)) = regionCapacity ix
  | None => True
  end.

(** The index lists exactly the frames [fss], region by region. *)
Definition index_of_lists (ix : FrameIndexBuffer) (fss : list (list Z)) : Prop :=
  let n := length (concat fss) in
  totalFrames ix = Z.of_nat n /\
  (exists fp ri buf, framePtrs ix = Some fp /\ regionIdxPerFrame ix = Some ri /\
    framesPerRegion ix = Some buf /\
    take n fp = concat fss /\
    take n ri = concat (imap (fun r ps => replicate (length ps) (Z.of_nat r)) fss) /\
    forall r, (r < length fss)%nat -> deviceData buf !! r = Some (Z.of_nat (seg_off fss (S r)))).

(** ** Capacity growth *)

Lemma double_until_spec fuel cap needed :
  0 < cap -> needed <= 2 ^ 31 -> cap < 2 ^ 32 -> needed <= cap * 2 ^ Z.of_nat fuel ->
  exists c, double_until fuel cap needed = Some c /\ needed <= c /\ cap <= c /\
    (c = cap \/ c < 2 * needed).
Proof.
  revert cap. induction fuel as [|f IH]; intros cap Hcap Hn Hc Hf; simpl double_until.
  - destruct (Z.ltb_spec cap needed); [simpl in Hf; lia|]. exists cap. split_and!; (done || lia).
  - destruct (Z.ltb_spec cap needed) as [Hlt|Hge]; [|exists cap; split_and!; (done || lia)].
    rewrite u32_small by lia.
    destruct (IH (cap * 2)) as (c & -> & H1 & H2 & H3); [lia|lia|lia| |].
    { rewrite Nat2Z.inj_succ, Z.pow_succ_r in Hf by lia. lia. }
    exists c. split_and!; [done|lia|lia|]. right. lia.
Qed.

(** A capacity that is a power of two never reaches a need above 2^31: the
    doubling wraps to zero and stays there. *)
Lemma double_until_diverges fuel k needed :
  0 <= k <= 31 -> 2 ^ 31 < needed -> double_until fuel (2 ^ k) needed = None.
Proof.
  assert (Hz : forall f, 0 < needed -> double_until f 0 needed = None).
  { induction f as [|f IH]; intros Hn; simpl; rewrite (proj2 (Z.ltb_lt _ _)) by lia; [done|].
    by apply IH. }
  revert k. induction fuel as [|f IH]; intros k Hk Hn; simpl.
  - pose proof (Z.pow_le_mono_r 2 k 31 ltac:(lia) ltac:(lia)). by rewrite (proj2 (Z.ltb_lt _ _)) by lia.
  - pose proof (Z.pow_le_mono_r 2 k 31 ltac:(lia) ltac:(lia)). rewrite (proj2 (Z.ltb_lt _ _)) by lia.
    replace (2 ^ k * 2) with (2 ^ (k + 1)) by (rewrite Z.pow_add_r by lia; lia).
    destruct (decide (k = 31)) as [->|Hne].
    + change (u32 (2 ^ (31 + 1))) with 0. apply Hz. lia.
    + pose proof (Z.pow_le_mono_r 2 (k + 1) 31 ltac:(lia) ltac:(lia)). rewrite u32_small by lia. apply IH; lia.
Qed.

Lemma alloc_int_Some c junk :
  0 <= c < 2 ^ 31 -> alloc_int c junk = Some (replicate (Z.to_nat c) junk).
Proof. intros Hc. unfold alloc_int. rewrite s32_small by done. by rewrite (proj2 (Z.ltb_ge _ _)) by lia. Qed.

Lemma ensureFrameCapacity_spec fuel junk needed ix :
  index_wf ix -> (31 <= fuel)%nat -> 1 <= needed <= 2 ^ 30 -> frameCapacity ix < 2 ^ 31 ->
  exists ix' fp ri, ensureFrameCapacity fuel junk needed ix = Some ix' /\ index_wf ix' /\
    framePtrs ix' = Some fp /\ regionIdxPerFrame ix' = Some ri /\
    needed <= Z.of_nat (length fp) /\ length ri = length fp /\ frameCapacity ix' < 2 ^ 31 /\
    framesPerRegion ix' = framesPerRegion ix /\ totalFrames ix' = totalFrames ix.
Proof.
  intros [Hwf Hwr] Hf Hn Hcap. unfold ensureFrameCapacity.
  destruct (framePtrs ix) as [fp|] eqn:Efp, (regionIdxPerFrame ix) as [ri|] eqn:Eri; try done.
  - destruct Hwf as (Hl1 & Hl2 & Hpos). simpl. destruct (Z.leb_spec needed (frameCapacity ix)) as [Hle|Hgt].
    + exists ix, fp, ri. split_and!; [done| |done|done|lia|lia|lia|done|done].
      split; [by rewrite Efp, Eri|done].
    + rewrite (proj2 (Z.eqb_neq _ _)) by lia.
      destruct (double_until_spec fuel (frameCapacity ix) needed) as (c & -> & H1 & H2 & H3); [lia..| |].
      { pose proof (Z.pow_le_mono_r 2 31 (Z.of_nat fuel) ltac:(lia) ltac:(lia)). nia. }
      simpl. rewrite !alloc_int_Some by lia. simpl. eexists _, _, _. split; [done|].
      split_and!; simpl; [|done|done|rewrite length_replicate; lia|by rewrite !length_replicate|lia|done|done].
      split; simpl; [|done]. rewrite !length_replicate. lia.
  - simpl. rewrite Hwf. simpl.
    destruct (double_until_spec fuel needed needed) as (c & -> & H1 & H2 & H3); [lia..| |].
    { pose proof (Z.pow_le_mono_r 2 31 (Z.of_nat fuel) ltac:(lia) ltac:(lia)). nia. }
    simpl. rewrite !alloc_int_Some by lia. simpl. eexists _, _, _. split; [done|].
    split_and!; simpl; [|done|done|rewrite length_replicate; lia|by rewrite !length_replicate|lia|done|done].
    split; simpl; [|done]. rewrite !length_replicate. lia.
Qed.

(** ** Phases *)

Lemma zlengths_segments (fss : list (list Z)) :
  concat (map (fun ps => [Z.of_nat (length ps)]) fss) = zlengths fss.
Proof. induction fss as [|ps fss IH]; [done|]. simpl. by rewrite IH. Qed.

Lemma seg_off_singletons {A B} (f : A -> B) (l : list A) b :
  (b <= length l)%nat -> seg_off (map (fun x => [f x]) l) b = b.
Proof.
  revert b. induction l as [|x l IH]; intros [|b] Hb; simpl in *; try done; [lia|].
  unfold seg_off in *. simpl. by rewrite IH by lia.
Qed.

Lemma CountFrames_run fuel ord h prs fss data :
  region_lists h (take (length fss) prs) fss -> ord ≡ₚ seq 0 (Nat.max (length fss) 1) ->
  (forall ps, ps ∈ fss -> (length ps <= fuel)%nat) ->
  Z.of_nat (length (concat fss)) < 2 ^ 32 -> (length fss <= length data)%nat ->
  exists data', run_blocks ord (CountFramesKernel fuel h prs (length fss)) data = Some data' /\
    length data' = length data /\ take (length fss) data' = zlengths fss.
Proof.
  intros Hl Hord Hf Htot Hlen.
  set (segs := map (fun ps : list Z => [Z.of_nat (length ps)]) fss).
  rewrite (run_blocks_scatter _ _ (block_writes segs)).
  - destruct (scatter_segments segs ord _ data Hord) as (d & -> & Hd & Ht).
    + unfold segs. rewrite length_map. lia.
    + unfold segs. rewrite zlengths_segments. unfold zlengths. by rewrite length_map.
    + exists d. split_and!; [done..|]. unfold segs in Ht. rewrite zlengths_segments in Ht.
      assert (Hz : length (zlengths fss) = length fss) by (unfold zlengths; by rewrite length_map).
      by rewrite Hz in Ht.
  - intros b box _ _. unfold CountFramesKernel, block_writes, segs.
    rewrite list_lookup_fmap. destruct (Nat.leb_spec (length fss) b) as [Hb|Hb].
    { by rewrite (lookup_ge_None_2 fss b) by done. }
    destruct (lookup_lt_is_Some_2 fss b Hb) as [ps Hps]. rewrite Hps.
    destruct (Forall2_lookup_r _ _ _ _ _ Hl Hps) as (r & [-> _]%lookup_take_Some & Hr). simpl.
    rewrite (list_size_chain _ _ ps) by (apply is_list_chain || apply Hf; eauto using list_elem_of_lookup_2).
    simpl. fold segs. unfold segs. rewrite seg_off_singletons by lia.
    pose proof (seg_bound _ _ _ Hps). rewrite u32_small by lia.
    by destruct (box_write box b _).
Qed.

Lemma fill_walk_scatter fuel h p off (i : nat) b ps fp ri :
  (length ps <= fuel)%nat -> chain h p ps -> 0 <= b < 2 ^ 32 ->
  Z.of_nat (off + i + length ps) < 2 ^ 31 ->
  fill_walk fuel h p (Z.of_nat off) (Z.of_nat i) b (fp, ri) =
  fp' ← scatter (seg_writes (off + i) ps) fp;
  ri' ← scatter (seg_writes (off + i) (replicate (length ps) b)) ri;
  Some (fp', ri').
Proof.
  revert fuel p i fp ri. induction ps as [|q ps IH]; intros fuel p i fp ri Hf Hc Hb Hk; simpl in Hc.
  { subst p. by destruct fuel. }
  destruct Hc as (-> & Hq & n & Hn & Hc). destruct fuel as [|fuel]; simpl in Hf; [lia|].
  cbn [length] in Hk. cbn [fill_walk length replicate]. rewrite (proj2 (Z.eqb_neq _ _) Hq).
  destruct (h !! q) as [fr|]; [|discriminate]. injection Hn as <-. cbn [mbind option_bind fst snd].
  replace (s32 (u32 (Z.of_nat off + Z.of_nat i))) with (Z.of_nat (off + i))
    by (rewrite u32_small, s32_small; lia).
  rewrite !zbox_write_nat, !seg_writes_cons. cbn [scatter]. rewrite (u32_small b) by lia.
  rewrite (u32_small (Z.of_nat i + 1)) by lia.
  replace (Z.of_nat i + 1) with (Z.of_nat (S i)) by lia.
  replace (S (off + i)) with (off + S i)%nat by lia.
  destruct (box_write fp (off + i) q) as [fp1|]; simpl; [|done].
  destruct (box_write ri (off + i) b) as [ri1|]; simpl.
  - apply IH; [lia|done|done|lia].
  - by destruct (scatter (seg_writes (off + S i) ps) fp1).
Qed.

(** The owning region of every frame, in index order. *)
Definition owners (fss : list (list Z)) : list (list Z) :=
  imap (fun r ps => replicate (length ps) (Z.of_nat r)) fss.

Lemma owners_off fss b : seg_off (owners fss) b = seg_off fss b.
Proof.
  unfold seg_off, owners. assert (Hg : forall (g : nat -> nat), length (concat (take b
    (imap (fun r ps => replicate (length ps) (Z.of_nat (g r))) fss))) = length (concat (take b fss))).
  { revert b. induction fss as [|ps fss IH]; intros [|b] g; simpl; try done.
    rewrite !length_app, length_replicate. f_equal. apply (IH b (fun r => g (S r))). }
  apply (Hg (fun r => r)).
Qed.

Lemma owners_length fss : length (concat (owners fss)) = length (concat fss).
Proof.
  pose proof (owners_off fss (length fss)) as E. unfold seg_off in E.
  rewrite firstn_all in E. rewrite <-E. f_equal. f_equal. symmetry. apply take_ge.
  unfold owners. by rewrite length_imap.
Qed.

Lemma BuildFrameIndex_run fuel ord h prs fss scan fp ri :
  region_lists h (take (length fss) prs) fss -> ord ≡ₚ seq 0 (Nat.max (length fss) 1) ->
  (forall ps, ps ∈ fss -> (length ps <= fuel)%nat) ->
  Z.of_nat (length (concat fss)) < 2 ^ 31 -> Z.of_nat (length fss) < 2 ^ 32 ->
  (forall r, (r < length fss)%nat -> scan !! r = Some (Z.of_nat (seg_off fss (S r)))) ->
  (length (concat fss) <= length fp)%nat -> length ri = length fp ->
  exists fp' ri', run_blocks ord (BuildFrameIndexKernel fuel h prs (length fss) scan) (fp, ri) = Some (fp', ri') /\
    take (length (concat fss)) fp' = concat fss /\
    take (length (concat fss)) ri' = concat (owners fss) /\
    length fp' = length fp /\ length ri' = length ri.
Proof.
  intros Hl Hord Hf Htot Hnr Hscan Hfp Hri.
  rewrite (run_blocks_pair ord _ (fun b x => scatter (block_writes fss b) x)
                                 (fun b y => scatter (block_writes (owners fss) b) y)).
  - rewrite !(run_blocks_scatter ord _ _) by done.
    destruct (scatter_segments fss ord _ fp Hord) as (fp' & Efp & Hlf & Htf); [lia|done|].
    destruct (scatter_segments (owners fss) ord _ ri Hord) as (ri' & Eri & Hlr & Htr).
    { unfold owners. rewrite length_imap. lia. } { rewrite owners_length. lia. }
    exists fp', ri'. rewrite owners_length in Htr.
    rewrite Efp. cbn [mbind option_bind]. rewrite Eri. done.
  - intros b x y _. unfold BuildFrameIndexKernel, block_writes.
    rewrite owners_off. unfold owners at 1. rewrite list_lookup_imap.
    destruct (Nat.leb_spec (length fss) b) as [Hb|Hb].
    { by rewrite (lookup_ge_None_2 fss b) by done. }
    destruct (lookup_lt_is_Some_2 fss b Hb) as [ps Hps]. rewrite Hps.
    destruct (Forall2_lookup_r _ _ _ _ _ Hl Hps) as (r & [-> _]%lookup_take_Some & Hr).
    pose proof (seg_bound _ _ _ Hps) as Hbd.
    assert (Hoff : (if (b =? 0)%nat then Some 0 else scan !! (b - 1)%nat) = Some (Z.of_nat (seg_off fss b))).
    { destruct (Nat.eqb_spec b 0) as [->|Hb0]; [done|]. rewrite Hscan by lia.
      by replace (S (b - 1)) with b by lia. }
    rewrite Hoff. cbn [mbind option_bind fmap option_fmap option_map].
    change 0 with (Z.of_nat 0) at 1.
    rewrite (fill_walk_scatter fuel h _ _ 0 (Z.of_nat b) ps);
      [by rewrite Nat.add_0_r|eauto using list_elem_of_lookup_2|by apply is_list_chain|lia|lia].
Qed.

(** What the hosts of a rebuild guarantee: well-formed buffers, lists that the
    walk fuel covers, and frame counts that fit an [int] after doubling. *)
Record rebuild_pre (fuel : nat) (ord1 ord2 : list nat) (h : heap T) (pr : PRBuffer T)
    (fss : list (list Z)) (ix : FrameIndexBuffer) : Prop := {
  rp_lists : region_lists h (regions_of pr) fss;
  rp_buf : prbuf_wf pr;
  rp_regions : Z.of_nat (pr_size pr) < 2 ^ 31;
  rp_fuel : forall ps, ps ∈ fss -> (length ps <= fuel)%nat;
  rp_fuel31 : (31 <= fuel)%nat;
  rp_total : Z.of_nat (length (concat fss)) <= 2 ^ 30;
  rp_ord1 : ord1 ≡ₚ seq 0 (Nat.max (pr_size pr) 1);
  rp_ord2 : ord2 ≡ₚ seq 0 (Nat.max (pr_size pr) 1);
  rp_index : index_wf ix;
  rp_cap : frameCapacity ix < 2 ^ 31
}.

Lemma ensureRegionCapacity_spec junk n ix :
  index_wf ix -> 1 <= n ->
  exists buf, let ix' := ensureRegionCapacity junk n ix in
    framesPerRegion ix' = Some buf /\ index_wf ix' /\ n <= Z.of_nat (length (deviceData buf)) /\
    length (hostData buf) = length (deviceData buf) /\ frameCapacity ix' = frameCapacity ix.
Proof.
  intros [Hw1 Hw2] Hn. unfold ensureRegionCapacity.
  destruct (framesPerRegion ix) as [buf|] eqn:E; simpl.
  - destruct (Z.leb_spec n (regionCapacity ix)) as [Hle|Hgt].
    + exists buf. split_and!; [done|split; [done|by rewrite E]|lia|lia|done].
    + eexists; split; [done|]. split_and!; simpl;
        [split; [done|simpl; rewrite length_replicate; lia]|rewrite length_replicate; lia|done|done].
  - eexists; split; [done|]. split_and!; simpl;
      [split; [done|simpl; rewrite length_replicate; lia]|rewrite length_replicate; lia|done|done].
Qed.

Lemma region_lists_length h pr fss :
  region_lists h (regions_of pr) fss -> prbuf_wf pr -> length fss = pr_size pr.
Proof. intros Hl Hw. rewrite <-(Forall2_length _ _ _ Hl). by apply regions_of_length. Qed.

Lemma rebuild_count_spec fuel junk ord1 ord2 h pr fss ix :
  rebuild_pre fuel ord1 ord2 h pr fss ix ->
  exists ix' buf fp ri, rebuild_count fuel junk ord1 h pr ix = Some ix' /\
    framesPerRegion ix' = Some buf /\ framePtrs ix' = Some fp /\ regionIdxPerFrame ix' = Some ri /\
    totalFrames ix' = Z.of_nat (length (concat fss)) /\ index_wf ix' /\ frameCapacity ix' < 2 ^ 31 /\
    (length (concat fss) <= length fp)%nat /\ length ri = length fp /\
    length (hostData buf) = length (deviceData buf) /\
    forall r, (r < length fss)%nat -> hostData buf !! r = Some (Z.of_nat (seg_off fss (S r))).
Proof.
  intros [Hl Hw Hnr Hf Hf31 Htot Ho1 _ Hix Hcap]. pose proof (region_lists_length _ _ _ Hl Hw) as Hlen.
  unfold rebuild_count.
  destruct (ensureRegionCapacity_spec junk (Z.max (Z.of_nat (pr_size pr)) 1) ix Hix ltac:(lia))
    as (buf & Hbuf & Hix1 & Hn & Hhd & Hcap1).
  set (ix1 := ensureRegionCapacity _ _ _) in *. rewrite Hbuf. cbn [mbind option_bind].
  assert (Hcount : exists counts,
    (if (0 <? pr_size pr)%nat
     then run_blocks ord1 (CountFramesKernel fuel h (getDeviceDataBox pr) (pr_size pr)) (deviceData buf)
     else Some (deviceData buf)) = Some counts /\ length counts = length (deviceData buf) /\
     take (length fss) counts = zlengths fss).
  { destruct (Nat.ltb_spec 0 (pr_size pr)) as [Hp|Hp].
    - rewrite <-Hlen. apply CountFrames_run; [|by rewrite Hlen|done|lia|lia].
      unfold regions_of in Hl. by rewrite Hlen.
    - exists (deviceData buf). assert (fss = []) as -> by (apply length_zero_iff_nil; lia). done. }
  destruct Hcount as (counts & -> & Hcl & Hct). cbn [mbind option_bind deviceToHost hostData deviceData].
  assert (Hhost : exists host,
    (if (pr_size pr =? 0)%nat then box_write counts 0 0 else Some counts) = Some host /\
    length host = length counts /\ take (length fss) host = zlengths fss).
  { destruct (Nat.eqb_spec (pr_size pr) 0) as [Hp|Hp].
    - rewrite box_write_Some by lia. eexists; split; [done|]. rewrite length_insert.
      assert (fss = []) as -> by (apply length_zero_iff_nil; lia). done.
    - by exists counts. }
  destruct Hhost as (host & -> & Hhl & Hht). cbn [mbind option_bind].
  destruct (inclusiveScanHost_segments fss host (drop (length fss) host)) as (scanned & Hscan & Hsl & Hsv).
  { rewrite <-Hht. by rewrite take_drop. } { lia. }
  rewrite <-Hlen, Hscan. cbn [mbind option_bind].
  destruct (ensureFrameCapacity_spec fuel junk (Z.max (Z.of_nat (length (concat fss))) 1)
    (set_totalFrames (Z.of_nat (length (concat fss))) (set_framesPerRegion (mkHD scanned counts) ix1)))
    as (ix' & fp & ri & -> & Hwf' & Hfp & Hri & Hbig & Hsame & Hc' & Hfr & Htf); [|lia|lia|simpl; lia|].
  { destruct Hix1 as [Hw1 Hw2]. split; [exact Hw1|]. simpl. rewrite Hbuf in Hw2. lia. }
  exists ix', (mkHD scanned counts), fp, ri. simpl in Hfr, Htf.
  split_and!; [done..|lia|done|simpl; lia|done].
Qed.

Lemma rebuild_fill_spec fuel ord h pr fss v ix buf fp ri :
  region_lists h (regions_of pr) fss -> prbuf_wf pr -> Z.of_nat (pr_size pr) < 2 ^ 31 ->
  (forall ps, ps ∈ fss -> (length ps <= fuel)%nat) -> Z.of_nat (length (concat fss)) <= 2 ^ 30 ->
  ord ≡ₚ seq 0 (Nat.max (pr_size pr) 1) -> index_wf ix ->
  framesPerRegion ix = Some buf -> framePtrs ix = Some fp -> regionIdxPerFrame ix = Some ri ->
  totalFrames ix = Z.of_nat (length (concat fss)) -> (length (concat fss) <= length fp)%nat ->
  length ri = length fp -> length (hostData buf) = length (deviceData buf) ->
  (forall r, (r < length fss)%nat -> hostData buf !! r = Some (Z.of_nat (seg_off fss (S r)))) ->
  exists ix', rebuild_fill fuel ord h pr v ix = Some ix' /\ index_wf ix' /\ index_of_lists ix' fss /\
    hasBuild ix' = true /\ builtBuffer ix' = pr_id pr /\ builtVersion ix' = v /\
    frameCapacity ix' = frameCapacity ix.
Proof.
  intros Hl Hw Hnr Hf Htot Ho [Hw1 Hw2] Hbuf Hfp Hri Ht Hlf Hlr Hhd Hscan.
  pose proof (region_lists_length _ _ _ Hl Hw) as Hlen.
  rewrite Hfp, Hri in Hw1. rewrite Hbuf in Hw2.
  unfold rebuild_fill. rewrite Hbuf, Hfp, Hri. cbn [mbind option_bind].
  assert (Hfill : exists fp' ri',
    (if (0 <? pr_size pr)%nat && (0 <? totalFrames ix)
     then run_blocks ord (BuildFrameIndexKernel fuel h (getDeviceDataBox pr) (pr_size pr)
            (deviceData (hostToDevice buf))) (fp, ri)
     else Some (fp, ri)) = Some (fp', ri') /\
    take (length (concat fss)) fp' = concat fss /\ take (length (concat fss)) ri' = concat (owners fss) /\
    length fp' = length fp /\ length ri' = length ri).
  { destruct (Nat.ltb_spec 0 (pr_size pr)) as [Hp|Hp], (Z.ltb_spec 0 (totalFrames ix)) as [Hp'|Hp']; cbn [andb].
    - rewrite <-Hlen. apply BuildFrameIndex_run; try done; [|by rewrite Hlen|lia|lia].
      unfold regions_of in Hl. by rewrite Hlen.
    - exists fp, ri. assert (E : length (concat fss) = 0%nat) by lia.
      pose proof (owners_length fss) as E'. rewrite E in E'. apply length_zero_iff_nil in E, E'.
      by rewrite E, E'.
    - exists fp, ri. assert (fss = []) as -> by (apply length_zero_iff_nil; lia). done.
    - exists fp, ri. assert (fss = []) as -> by (apply length_zero_iff_nil; lia). done. }
  destruct Hfill as (fp' & ri' & -> & Hfp' & Hri' & Hlf' & Hlr'). cbn [mbind option_bind].
  eexists; split; [done|]. split_and!; [|split; [done|]|done..].
  - split; simpl; lia.
  - exists fp', ri', (hostToDevice buf). simpl. split_and!; done.
Qed.

Lemma rebuild_built fuel junk ord1 ord2 h pr fss ix :
  rebuild_pre fuel ord1 ord2 h pr fss ix ->
  exists ix', rebuild fuel junk ord1 ord2 h pr ix = Some ix' /\
    index_wf ix' /\ index_of_lists ix' fss /\ hasBuild ix' = true /\ builtBuffer ix' = pr_id pr /\
    builtVersion ix' = topologyVersion pr /\ frameCapacity ix' < 2 ^ 31.
Proof.
  intros Hpre. destruct (rebuild_count_spec fuel junk ord1 ord2 h pr fss ix Hpre) as
    (ix1 & buf & fp & ri & E1 & Hbuf & Hfp & Hri & Ht & Hwf & Hc & Hl1 & Hl2 & Hl3 & Hscan).
  destruct Hpre as [Hl Hw Hnr Hf Hf31 Htot Ho1 Ho2 Hix Hcap].
  destruct (rebuild_fill_spec fuel ord2 h pr fss (topologyVersion pr) ix1 buf fp ri) as
    (ix' & E2 & Hwf' & Hof & Hb & Hid & Hv & Hc'); try done.
  exists ix'. unfold rebuild. rewrite E1. cbn [mbind option_bind]. split_and!; [done..|by rewrite Hc'].
Qed.

Lemma index_fresh_iff ix pr :
  index_fresh ix pr = true <-> hasBuild ix = true /\ builtBuffer ix = pr_id pr /\ builtVersion ix = topologyVersion pr.
Proof. unfold index_fresh. rewrite !andb_true_iff, !Z.eqb_eq. tauto. Qed.

Lemma rebuild_spec fuel junk ord1 ord2 h pr fss ix :
  rebuild_pre fuel ord1 ord2 h pr fss ix ->
  exists ix', rebuild fuel junk ord1 ord2 h pr ix = Some ix' /\
    index_wf ix' /\ index_of_lists ix' fss /\ index_fresh ix' pr = true.
Proof.
  intros Hpre. destruct (rebuild_built fuel junk ord1 ord2 h pr fss ix Hpre) as (ix' & E & Hw & Hof & Hb & Hi & Hv & _).
  exists ix'. split_and!; [done..|]. by apply index_fresh_iff.
Qed.

(** C9: a rebuild of any well-formed index, over any region buffer and in any
    order of the kernels' blocks, succeeds without an access out of bounds, and the
    index then lists every frame of the buffer exactly once, region by region
    in list order, with its owning region and the inclusive scan of the frame counts;
    it is fresh for this buffer at its current topology version. *)
Theorem rebuild_correct fuel junk ord1 ord2 h pr fss ix :
  rebuild_pre fuel ord1 ord2 h pr fss ix ->
  exists ix', rebuild fuel junk ord1 ord2 h pr ix = Some ix' /\
    index_wf ix' /\ index_of_lists ix' fss /\ index_fresh ix' pr = true.
Proof. apply rebuild_spec. Qed.

(** ** One index for many buffers *)

(** The memory, the region buffers by address, and an index that is used with all of them. *)
Record IndexWorld : Type := mkIndexWorld {
  iw_heap : heap T;
  iw_buffers : gmap Z (PRBuffer T);
  iw_index : FrameIndexBuffer
}.

(** Buffers are where their address says; versions are those of a uint64_t. *)
Definition buffers_ok (bs : gmap Z (PRBuffer T)) : Prop :=
  forall b pr, bs !! b = Some pr -> pr_id pr = b /\ 0 <= topologyVersion pr < 2 ^ 64.

(** What happens to a buffer without a change of its frame lists. *)
Definition same_lists (h h' : heap T) (pr pr' : PRBuffer T) : Prop :=
  pr_id pr' = pr_id pr /\ topologyVersion pr' = topologyVersion pr /\
  forall fss, region_lists h (regions_of pr) fss <-> region_lists h' (regions_of pr') fss.

(** [pushBack] and [create]; a change of the lists of one buffer by kernels, which is followed by
    [++topologyVersion] as in InitParticles.hpp; kernels and copies that change no list; a refresh for one of
    the buffers, for which its caller guarantees what a rebuild needs (of the index, nothing but what an empty one has);
    and a reset of the index, as is asked for when a buffer is destroyed or replaced: with it, anything may happen to the buffers. *)
Inductive index_step : IndexWorld -> IndexWorld -> Prop :=
  | index_pushBack h bs ix b pr r pr' :
      bs !! b = Some pr -> pr_pushBack r pr = Some pr' ->
      index_step (mkIndexWorld h bs ix) (mkIndexWorld h (<[b := pr']> bs) ix)
  | index_create h bs ix b pr n r :
      bs !! b = Some pr ->
      index_step (mkIndexWorld h bs ix) (mkIndexWorld h (<[b := create n r pr]> bs) ix)
  | index_topology h h' bs ix b pr pr' :
      bs !! b = Some pr -> pr_id pr' = pr_id pr -> topologyVersion pr' = topologyVersion pr ->
      (forall c q, c <> b -> bs !! c = Some q -> same_lists h h' q q) ->
      index_step (mkIndexWorld h bs ix) (mkIndexWorld h' (<[b := bumpTopology pr']> bs) ix)
  | index_quiet h h' bs bs' ix :
      (forall b, option_Forall2 (same_lists h h') (bs !! b) (bs' !! b)) ->
      index_step (mkIndexWorld h bs ix) (mkIndexWorld h' bs' ix)
  | index_refresh h bs ix b pr fuel junk ord1 ord2 fss ix' :
      bs !! b = Some pr -> rebuild_pre fuel ord1 ord2 h pr fss emptyIndex ->
      refreshIfStale fuel junk ord1 ord2 h pr ix = Some ix' ->
      index_step (mkIndexWorld h bs ix) (mkIndexWorld h bs ix')
  | index_reset h h' bs bs' ix :
      buffers_ok bs' -> index_step (mkIndexWorld h bs ix) (mkIndexWorld h' bs' emptyIndex).

(** The index was built for a version of its buffer that lies at most [k] changes back, and describes the
    lists of the buffer if there was none. *)
Record index_behind (k : Z) (w : IndexWorld) : Prop := {
  ib_buffers : buffers_ok (iw_buffers w);
  ib_wf : index_wf (iw_index w);
  ib_cap : frameCapacity (iw_index w) < 2 ^ 31;
  ib_built pr : hasBuild (iw_index w) = true -> iw_buffers w !! builtBuffer (iw_index w) = Some pr ->
    0 <= builtVersion (iw_index w) < 2 ^ 64 /\
    exists j, 0 <= j <= k /\ topologyVersion pr = u64 (builtVersion (iw_index w) + j) /\
      (j = 0 -> forall fss, region_lists (iw_heap w) (regions_of pr) fss -> index_of_lists (iw_index w) fss)
}.

Lemma chain_unique (h : heap T) p ps qs : chain h p ps -> chain h p qs -> ps = qs.
Proof.
  revert p qs. induction ps as [|x ps IH]; intros p [|y qs]; simpl; [done|by intros -> (<- & ? & _)|by intros (-> & ? & _) ->|].
  intros (-> & _ & n & Hn & Hc) (<- & _ & m & Hm & Hc'). assert (m = n) as -> by congruence. by rewrite (IH n qs).
Qed.

(** A buffer has its frame lists in one way. *)
Lemma region_lists_unique h prs fss gss : region_lists h prs fss -> region_lists h prs gss -> fss = gss.
Proof.
  unfold region_lists. intros Hf. revert gss. induction Hf as [|r ps prs fss Hp Hf IH]; intros gss Hg.
  - by apply Forall2_nil_inv_l in Hg.
  - apply Forall2_cons_inv_l in Hg as (qs & gss' & Hq & Hg & ->). f_equal; [|by apply IH]. eapply chain_unique; by apply is_list_chain.
Qed.

Lemma rebuild_pre_index fuel ord1 ord2 h pr fss ix ix0 :
  rebuild_pre fuel ord1 ord2 h pr fss ix0 -> index_wf ix -> frameCapacity ix < 2 ^ 31 ->
  rebuild_pre fuel ord1 ord2 h pr fss ix.
Proof. intros [] ? ?. by constructor. Qed.

(** A buffer whose version is raised. *)
Lemma buffers_ok_bump bs b pr pr' : buffers_ok bs -> bs !! b = Some pr -> pr_id pr' = pr_id pr ->
  topologyVersion pr' = u64 (topologyVersion pr + 1) -> buffers_ok (<[b := pr']> bs).
Proof.
  intros Hbs Hb Hid Hv c q. destruct (decide (c = b)) as [->|Hne].
  - rewrite lookup_insert_eq. intros [= <-]. rewrite Hid, Hv. split; [by apply Hbs|apply u64_bounds].
  - rewrite lookup_insert_ne by done. apply Hbs.
Qed.

Lemma behind_bump k h h' bs ix b pr pr' : index_behind k (mkIndexWorld h bs ix) -> 0 <= k ->
  bs !! b = Some pr -> pr_id pr' = pr_id pr -> topologyVersion pr' = u64 (topologyVersion pr + 1) ->
  (forall c q, c <> b -> bs !! c = Some q -> same_lists h h' q q) ->
  index_behind (k + 1) (mkIndexWorld h' (<[b := pr']> bs) ix).
Proof.
  intros [Hbs Hw Hc Hbuilt] Hk Hb Hid Hv Hother. constructor; cbn in *; [by eapply buffers_ok_bump|done..|].
  intros q Hbd. destruct (decide (builtBuffer ix = b)) as [Eb|Hne].
  - rewrite Eb, lookup_insert_eq. intros [= <-]. rewrite <-Eb in Hb. destruct (Hbuilt pr Hbd Hb) as (Hr & j & Hj & Ev & _). split; [done|].
    exists (j + 1). split_and!; [lia..| |lia]. rewrite Hv, Ev, u64_add_l. f_equal. lia.
  - rewrite lookup_insert_ne by done. intros Hq. destruct (Hbuilt q Hbd Hq) as (Hr & j & Hj & Ev & Hl). split; [done|].
    exists j. split_and!; [lia..|done|]. intros Hj0 fss Hf. apply (Hl Hj0). by apply (Hother _ q Hne Hq).
Qed.

Lemma same_lists_refl h (pr : PRBuffer T) : same_lists h h pr pr.
Proof. done. Qed.

Lemma pr_pushBack_bumps (r : ParticleRegion T) (pr pr' : PRBuffer T) : pr_pushBack r pr = Some pr' ->
  pr_id pr' = pr_id pr /\ topologyVersion pr' = u64 (topologyVersion pr + 1).
Proof.
  unfold pr_pushBack. destruct (pr_buffer pr) as [buf|]; [|discriminate]. simpl.
  intros E. case_hyp E; [|discriminate]. by injection E as <-.
Qed.

(** A refresh of any index that is behind brings it up to date. *)
Lemma refresh_behind k w b pr fuel junk ord1 ord2 fss :
  index_behind k w -> k < 2 ^ 64 -> iw_buffers w !! b = Some pr ->
  rebuild_pre fuel ord1 ord2 (iw_heap w) pr fss emptyIndex ->
  exists ix', refreshIfStale fuel junk ord1 ord2 (iw_heap w) pr (iw_index w) = Some ix' /\
    index_wf ix' /\ frameCapacity ix' < 2 ^ 31 /\ index_of_lists ix' fss /\ index_fresh ix' pr = true /\
    (index_fresh (iw_index w) pr = true -> ix' = iw_index w).
Proof.
  intros [Hbs Hw Hc Hbuilt] Hk Hb Hpre. unfold refreshIfStale. destruct (index_fresh (iw_index w) pr) eqn:Hfr.
  - exists (iw_index w). split_and!; try done. apply index_fresh_iff in Hfr as (Hbd & Hi & Hv).
    destruct (Hbs b pr Hb) as [Eb Hr]. rewrite Eb in Hi. rewrite <-Hi in Hb.
    destruct (Hbuilt pr Hbd Hb) as (Hr' & j & Hj & Ev & Hl). apply Hl; [|apply Hpre].
    rewrite Hv in Ev, Hr'. unfold u64 in Ev. set (v := topologyVersion pr) in *.
    pose proof (Z.div_mod (v + j) (2 ^ 64) ltac:(lia)). set (q := (v + j) / 2 ^ 64) in *.
    assert (q = 0 \/ q = 1 \/ 2 <= q \/ q < 0) by lia. lia.
  - destruct (rebuild_built fuel junk ord1 ord2 (iw_heap w) pr fss (iw_index w)) as (ix' & -> & Hw' & Hof & Hbd & Hi & Hv & Hc').
    { by eapply rebuild_pre_index. }
    exists ix'. split_and!; try done. by apply index_fresh_iff.
Qed.

Lemma index_behind_step k w w' : 0 <= k < 2 ^ 64 -> index_behind k w -> index_step w w' -> index_behind (k + 1) w'.
Proof.
  intros Hk Hinv Hs. destruct Hs as [h bs ix b pr r pr' Hb Hp|h bs ix b pr n r Hb|h h' bs ix b pr pr' Hb Hid Hv Ho|h h' bs bs' ix Hq|
    h bs ix b pr fuel junk ord1 ord2 fss ix' Hb Hpre Hr|h h' bs bs' ix Hbs'].
  - destruct (pr_pushBack_bumps _ _ _ Hp). eapply behind_bump; [done|lia|done..|]. intros; apply same_lists_refl.
  - eapply behind_bump; [done|lia|done..|]. intros; apply same_lists_refl.
  - eapply behind_bump; [done|lia|done|done| |done]. simpl. by rewrite Hv.
  - destruct Hinv as [Hbs Hw Hc Hbuilt]. constructor; cbn in *; [|done..|].
    + intros b pr' Hb. specialize (Hq b). rewrite Hb in Hq. inversion Hq as [q q' Hsl Eq Eq'|]; subst.
      destruct Hsl as (Hi & Hv & _). rewrite Hi, Hv. by apply Hbs.
    + intros pr' Hbd Hb. specialize (Hq (builtBuffer ix)). rewrite Hb in Hq. inversion Hq as [q q' Hsl Eq Eq'|]; subst.
      destruct Hsl as (Hi & Hv & Hl). destruct (Hbuilt q Hbd (eq_sym Eq)) as (Hr & j & Hj & Ev & Hlists). split; [done|].
      exists j. split_and!; [lia..|by rewrite Hv|]. intros Hj0 fss Hf. by apply (Hlists Hj0), Hl.
  - destruct (refresh_behind k (mkIndexWorld h bs ix) b pr fuel junk ord1 ord2 fss Hinv ltac:(lia) Hb Hpre)
      as (ix2 & E & Hw' & Hc' & Hof & Hfr & _). cbn in E. rewrite Hr in E. injection E as <-.
    pose proof (ib_buffers _ _ Hinv) as Hbs. constructor; cbn in *; [done..|].
    apply index_fresh_iff in Hfr as (Hbd & Hi & Hv). destruct (Hbs b pr Hb) as [Eb Hvr].
    intros q _. rewrite Hi, Eb, Hb. intros [= <-]. rewrite Hv. split; [done|]. exists 0. split_and!; [lia..| |].
    + rewrite Z.add_0_r, u64_small; [done|lia].
    + intros _ gss Hg. rewrite (region_lists_unique _ _ _ _ Hg (rp_lists _ _ _ _ _ _ _ Hpre)). done.
  - constructor; cbn; [done|by split|done|discriminate].
Qed.

Lemma index_behind_run n w0 w : Z.of_nat n < 2 ^ 64 -> nsteps index_step n w0 w -> forall k, 0 <= k -> k + Z.of_nat n < 2 ^ 64 ->
  index_behind k w0 -> index_behind (k + Z.of_nat n) w.
Proof.
  intros _ Hrun. induction Hrun as [w|n w0 w1 w Hs Hrun IH]; intros k Hk Hn Hinv; [by rewrite Z.add_0_r|].
  replace (k + Z.of_nat (S n)) with (k + 1 + Z.of_nat n) by lia. apply IH; [lia..|]. eapply index_behind_step; [|done..]. lia.
Qed.

Lemma stale_version ix (pr pr' : PRBuffer T) : index_fresh ix pr = true -> 0 <= topologyVersion pr < 2 ^ 64 ->
  topologyVersion pr' = u64 (topologyVersion pr + 1) -> index_fresh ix pr' = false.
Proof.
  intros (_ & _ & Hv)%index_fresh_iff Hr Hv'. apply not_true_iff_false. intros (_ & _ & Hf)%index_fresh_iff.
  rewrite Hv, Hv' in Hf. unfold u64 in Hf. set (v := topologyVersion pr) in *.
  pose proof (Z.div_mod (v + 1) (2 ^ 64) ltac:(lia)). set (q := (v + 1) / 2 ^ 64) in *.
  assert (q = 0 \/ q = 1 \/ 2 <= q \/ q < 0) by lia. lia.
Qed.

(** C15: [refreshIfStale] is a cache, shared by all region buffers.  Start with any index that was never built, whatever its
    other fields hold, and let the buffers be grown, created anew, changed by kernels and their topology versions
    raised with it, the index be reset when buffers are replaced, and refreshed for any of them, in any order, fewer than 2^64 steps in all.  Then a refresh for any buffer
    succeeds, and the index lists the frames of this buffer as they are now, whether it was rebuilt or kept; it is
    kept if it was fresh; and after it the index is fresh for this buffer, for no other, and no longer for this one after
    [pushBack] or [create]. *)
Theorem refreshIfStale_correct w0 n w b pr fuel junk ord1 ord2 fss :
  buffers_ok (iw_buffers w0) -> index_wf (iw_index w0) -> frameCapacity (iw_index w0) < 2 ^ 31 ->
  hasBuild (iw_index w0) = false ->
  nsteps index_step n w0 w -> Z.of_nat n < 2 ^ 64 ->
  iw_buffers w !! b = Some pr -> rebuild_pre fuel ord1 ord2 (iw_heap w) pr fss emptyIndex ->
  exists ix', refreshIfStale fuel junk ord1 ord2 (iw_heap w) pr (iw_index w) = Some ix' /\
    index_of_lists ix' fss /\ index_fresh ix' pr = true /\
    (index_fresh (iw_index w) pr = true -> ix' = iw_index w) /\
    (forall c q, iw_buffers w !! c = Some q -> c <> b -> index_fresh ix' q = false) /\
    (forall r pr', pr_pushBack r pr = Some pr' -> index_fresh ix' pr' = false) /\
    (forall m r, index_fresh ix' (create m r pr) = false).
Proof.
  intros Hbs Hw Hc Hno Hrun Hn Hb Hpre.
  assert (Hinv : index_behind (0 + Z.of_nat n) w).
  { apply (index_behind_run n w0 w Hn Hrun 0); [lia..|]. constructor; [done..|]. intros q. by rewrite Hno. }
  destruct (refresh_behind _ w b pr fuel junk ord1 ord2 fss Hinv ltac:(lia) Hb Hpre) as (ix' & E & _ & _ & Hof & Hfr & Hkeep).
  destruct (ib_buffers _ _ Hinv b pr Hb) as [Eb Hv]. exists ix'. split_and!; [done..| | |].
  - intros c q Hq Hcb. apply not_true_iff_false. intros (_ & Hi & _)%index_fresh_iff. apply index_fresh_iff in Hfr as (_ & Hi' & _).
    destruct (ib_buffers _ _ Hinv c q Hq) as [Ec _]. congruence.
  - intros r pr' Hp. by apply (stale_version ix' pr), (pr_pushBack_bumps r pr pr').
  - intros m r. by apply (stale_version ix' pr).
Qed.

(** The amortised growth of [ensureFrameCapacity] terminates within 31
    doublings for every need up to 2^30 frames, over-allocates by less than a factor
    of two, and never shrinks; but from a power-of-two capacity a need above 2^31 makes the
    uint32_t doubling wrap to zero and the loop never ends, whatever the fuel. *)
Theorem frame_capacity_growth fuel junk needed ix :
  (index_wf ix -> (31 <= fuel)%nat -> 1 <= needed <= 2 ^ 30 -> frameCapacity ix < 2 ^ 31 ->
   exists ix', ensureFrameCapacity fuel junk needed ix = Some ix' /\ index_wf ix' /\
     needed <= frameCapacity ix' < 2 ^ 31 /\ frameCapacity ix <= frameCapacity ix' /\
     (frameCapacity ix < needed -> frameCapacity ix' < 2 * needed)) /\
  (forall k, 0 <= k <= 31 -> frameCapacity ix = 2 ^ k -> 2 ^ 31 < needed ->
   ensureFrameCapacity fuel junk needed ix = None).
Proof.
  split.
  - intros Hwf Hf Hn Hc.
    destruct (ensureFrameCapacity_spec fuel junk needed ix Hwf Hf Hn Hc) as
      (ix' & fp & ri & E & Hwf' & Hfp & Hri & Hlen & _ & Hc' & _).
    exists ix'. split; [done|]. split; [done|].
    destruct Hwf' as [Hw' _]. rewrite Hfp, Hri in Hw'. split; [lia|].
    revert E. unfold ensureFrameCapacity. destruct Hwf as [Hw _].
    destruct (framePtrs ix), (regionIdxPerFrame ix); try done; simpl.
    + destruct (Z.leb_spec needed (frameCapacity ix)); [intros [= <-]; lia|].
      rewrite (proj2 (Z.eqb_neq _ _)) by lia.
      destruct (double_until_spec fuel (frameCapacity ix) needed) as (c & -> & ? & ? & ?); [lia..| |].
      { pose proof (Z.pow_le_mono_r 2 31 (Z.of_nat fuel) ltac:(lia) ltac:(lia)). nia. }
      simpl. rewrite !alloc_int_Some by lia. intros [= <-]. simpl. lia.
    + rewrite Hw. simpl.
      destruct (double_until_spec fuel needed needed) as (c & -> & ? & ? & ?); [lia..| |].
      { pose proof (Z.pow_le_mono_r 2 31 (Z.of_nat fuel) ltac:(lia) ltac:(lia)). nia. }
      simpl. rewrite !alloc_int_Some by lia. intros [= <-]. simpl. lia.
  - intros k Hk Hcap Hn. unfold ensureFrameCapacity.
    pose proof (Z.pow_le_mono_r 2 k 31 ltac:(lia) ltac:(lia)). pose proof (Z.pow_pos_nonneg 2 k ltac:(lia) ltac:(lia)).
    rewrite (proj2 (Z.leb_gt _ _)) by lia. rewrite andb_false_r.
    rewrite (proj2 (Z.eqb_neq _ _)) by lia. rewrite Hcap. by rewrite double_until_diverges.
Qed.
End frame_index.

Arguments emptyIndex /.

(** ** Witnesses *)

Section witnesses.
Local Open Scope Z_scope.

Definition region_a : ParticleRegion Z :=
  mkRegion (mkAABB [1; 1; 1] [0; 0; 0] [2; 2; 2]) two_list.
Definition region_b : ParticleRegion Z :=
  mkRegion (mkAABB [5; 1; 1] [0; 0; 0] [2; 2; 2]) (mkFrameList 48 48 1).
Definition three_frames : heap Z := <[48 := mkFrame [part0 1] 1 0]> two_frames.
Definition pr_ab : PRBuffer Z :=
  mkPRBuffer 5 (Some (mkHD [region_a; region_b] [region_a; region_b])) 2 9.

Lemma rebuild_pre_ab : rebuild_pre 31 [1; 0]%nat [0; 1]%nat three_frames pr_ab [[16; 32]; [48]] emptyIndex.
Proof.
  constructor; try (vm_compute; done); try (simpl; lia).
  - apply Forall2_cons; split; [apply is_listb_sound; vm_compute; reflexivity|].
    apply Forall2_cons; split; [apply is_listb_sound; vm_compute; reflexivity|]. apply Forall2_nil. done.
  - simpl. intros ps [->|[->|[]%elem_of_nil]%elem_of_cons]%elem_of_cons; simpl; lia.
  - apply (bool_decide_eq_true_1 _). vm_compute. reflexivity.
Defined.

Lemma rebuild_correct_witness :
  exists ix', rebuild 31 77 [1; 0]%nat [0; 1]%nat three_frames pr_ab emptyIndex = Some ix' /\
    index_of_lists ix' [[16; 32]; [48]] /\ framePtrs ix' = Some [16; 32; 48] /\
    regionIdxPerFrame ix' = Some [0; 0; 1].
Proof.
  destruct (rebuild_correct 31 77 _ _ _ _ _ _ rebuild_pre_ab) as (ix' & E & _ & Hof & _).
  exists ix'. split_and!; [exact E|exact Hof|..];
    vm_compute in E; injection E as <-; reflexivity.
Defined.

(** A second buffer at the same version, and an index that was never built but holds the address and the version
    of the first. *)
Definition region_c : ParticleRegion Z := mkRegion (mkAABB [5; 5; 1] [0; 0; 0] [2; 2; 2]) (mkFrameList 64 64 1).
Definition four_frames : heap Z := <[64 := mkFrame [part0 1] 1 0]> three_frames.
Definition pr_c : PRBuffer Z := mkPRBuffer 6 (Some (mkHD [region_c] [region_c])) 1 9.
Definition shared_world : IndexWorld :=
  mkIndexWorld four_frames (<[5 := pr_ab]> {[6 := pr_c]}) (mkIndex None None None 0 0 0 9 5 false).

Lemma rebuild_pre_c : rebuild_pre 31 [0]%nat [0]%nat four_frames pr_c [[64]] emptyIndex.
Proof.
  constructor; try (vm_compute; done); try (simpl; lia).
  - apply Forall2_cons; split; [apply is_listb_sound; vm_compute; reflexivity|]. apply Forall2_nil. done.
  - simpl. intros ps [->|[]%elem_of_nil]%elem_of_cons; simpl; lia.
Qed.

Lemma rebuild_pre_shared : rebuild_pre 31 [1; 0]%nat [0; 1]%nat four_frames pr_ab [[16; 32]; [48]] emptyIndex.
Proof.
  constructor; try (vm_compute; done); try (simpl; lia).
  - apply Forall2_cons; split; [apply is_listb_sound; vm_compute; reflexivity|].
    apply Forall2_cons; split; [apply is_listb_sound; vm_compute; reflexivity|]. apply Forall2_nil. done.
  - simpl. intros ps [->|[->|[]%elem_of_nil]%elem_of_cons]%elem_of_cons; simpl; lia.
  - apply (bool_decide_eq_true_1 _). vm_compute. reflexivity.
Qed.

(** Refreshed for the first buffer, then for the second. *)
Lemma refreshIfStale_correct_witness :
  exists ix ix', refreshIfStale 31 77 [1; 0]%nat [0; 1]%nat four_frames pr_ab (iw_index shared_world) = Some ix /\
    index_of_lists ix [[16; 32]; [48]] /\
    refreshIfStale 31 77 [0]%nat [0]%nat four_frames pr_c ix = Some ix' /\ index_of_lists ix' [[64]] /\
    index_fresh ix' pr_ab = false.
Proof.
  assert (Hbs : buffers_ok (iw_buffers shared_world)).
  { intros b pr. unfold shared_world. cbn [iw_buffers].
    intros [[<- <-]|[_ [<- <-]%lookup_singleton_Some]]%lookup_insert_Some; (split; [reflexivity|simpl; lia]). }
  destruct (refreshIfStale_correct shared_world 0 shared_world 5 pr_ab 31 77 [1; 0]%nat [0; 1]%nat [[16; 32]; [48]] Hbs)
    as (ix & E & Hof & _); [by vm_compute|by vm_compute|reflexivity|constructor|lia|reflexivity|exact rebuild_pre_shared|].
  set (w := mkIndexWorld four_frames (iw_buffers shared_world) ix).
  assert (Hrun : nsteps index_step 1 shared_world w).
  { eapply nsteps_once, (index_refresh _ _ _ 5); [reflexivity|exact rebuild_pre_shared|exact E]. }
  destruct (refreshIfStale_correct shared_world 1 w 6 pr_c 31 77 [0]%nat [0]%nat [[64]] Hbs)
    as (ix' & E' & Hof' & _ & _ & Hother & _); [by vm_compute|by vm_compute|reflexivity|exact Hrun|lia|reflexivity|exact rebuild_pre_c|].
  exists ix, ix'. split; [exact E|]. split; [exact Hof|]. split; [exact E'|]. split; [exact Hof'|].
  apply (Hother 5); [reflexivity|discriminate].
Defined.

Lemma frame_capacity_growth_witness :
  (exists ix', ensureFrameCapacity 31 77 5 emptyIndex = Some ix' /\ 5 <= frameCapacity ix' < 2 ^ 31) /\
  ensureFrameCapacity 40 77 (2 ^ 31 + 1) (mkIndex None None None 0 64 0 0 0 false) = None.
Proof.
  split.
  - destruct (proj1 (frame_capacity_growth 31 77 5 emptyIndex)) as (ix' & E & _ & Hb & _);
      [split; simpl; done|lia|lia|simpl; lia|]. exists ix'. split; [exact E|exact Hb].
  - apply (proj2 (frame_capacity_growth 40 77 (2 ^ 31 + 1) (mkIndex None None None 0 64 0 0 0 false)) 6);
      [lia|reflexivity|lia].
Defined.
End witnesses.
