(* ===== verification/Launch.v ===== *)
(** * Launching over frames and particles

    Models launchForEachFrameInBlockIndexed (FrameDispatch.hpp),
    lockstepForEachParticle and forEachBlockFrame (FrameSchedule.hpp) and
    HierarchyForEachKernel / launchForEach (LaunchForEach.hpp).  A launch is the
    list of the calls of the user's body: frames, or (frame, slot) pairs. *)
From Stdlib Require Import ZArith Lia.
From stdpp Require Import base sets list numbers gmap.
From S2P Require Import Prelude Scalar Topology Aabb FrameList Lockstep Regions Scan FrameIndex.

Section launch.
Context {T : Type} `{Scalar T} `{IdxMaps}.

(** [ForEachConfig]. *)
Record ForEachConfig : Set := mkForEachConfig {
  cfg_schedule : Schedule;
  cfg_grid : GridPolicy;
  processThreads : nat
}.

(** [defaultForEach]. *)
Definition defaultForEach : ForEachConfig := mkForEachConfig GridStride OneBlockPerFrame 32.

Inductive Target : Set := TargetParticle | TargetFrame.

(** [lockstepForEachParticle] for worker [w]: the occupied slots it is handed,
    in its order.  [None] is a slot outside the frame. *)
Definition lockstepForEachParticle (frameSize nThreads w : nat) (fr : Frame T) : option (list nat) :=
  keep ← mapM (fun slot => p ← slots fr !! slot; Some (if occupied p then [slot] else []))
              (forEachFrameSlot nThreads w frameSize);
  Some (concat keep).

(** [HierarchyForEachKernel] for block [b]: the calls of the body.  A frame
    target calls the body once per worker; it is listed once per block. *)
Definition HierarchyForEachKernel (tgt : Target) (frameSize nThreads : nat) (h : heap T)
    (sched : Schedule) (gridDim : nat) (framePtrsBox : list Z) (total : Z) (b : nat)
    : option (list (Z * option nat)) :=
  calls ← mapM (fun g =>
    p ← framePtrsBox !! g;
    match tgt with
    | TargetFrame => Some [(p, None)]
    | TargetParticle =>
        fr ← h !! p;
        ws ← mapM (fun w => lockstepForEachParticle frameSize nThreads w fr) (seq 0 nThreads);
        Some (map (fun s => (p, Some s)) (concat ws))
    end) (forEachBlockFrame sched gridDim b (Z.to_nat (s32 total)));
  Some (concat calls).

(** [launchForEach(cfg, target, prBuf, index, body)]: the freshness assertion,
    the grid, and the calls of all blocks in the order [ord]. *)
Definition launchForEach (cfg : ForEachConfig) (tgt : Target) (frameSize : nat) (h : heap T)
    (pr : PRBuffer T) (ix : FrameIndexBuffer) (ord : nat -> list nat)
    : option (list (Z * option nat)) :=
  if negb (index_fresh ix pr) then None
  else if (totalFrames ix =? 0)%Z then Some []
  else
    let gridSize := numBlocks (cfg_grid cfg) (Z.to_nat (totalFrames ix)) in
    fp ← framePtrs ix;
    calls ← mapM (HierarchyForEachKernel tgt frameSize (processThreads cfg) h (cfg_schedule cfg)
                    gridSize fp (totalFrames ix)) (ord gridSize);
    Some (concat calls).

(** The live slots of a frame. *)
Definition slot_live (fr : Frame T) (i : nat) : bool :=
  match slots fr !! i with Some p => occupied p | None => false end.
Definition live_slots (fr : Frame T) : list nat :=
  filter (fun i => slot_live fr i = true) (seq 0 (length (slots fr))).

Lemma bind_assoc_perm {A B C} (l : list A) (f : A -> list B) (g : B -> list C) :
  l ≫= (fun x => f x ≫= g) = (l ≫= f) ≫= g.
Proof. induction l as [|x l IH]; [done|]. by rewrite !bind_cons, bind_app, IH. Qed.

Lemma filter_bind_if {A} (P : A -> Prop) `{!forall x, Decision (P x)} (f : A -> bool) l :
  (forall x, x ∈ l -> f x = true <-> P x) ->
  l ≫= (fun x => if f x then [x] else []) = filter P l.
Proof.
  induction l as [|x l IH]; intros E; [done|].
  rewrite bind_cons, IH by (intros; apply E; by right).
  pose proof (E x ltac:(by left)) as Ex. destruct (f x).
  - by rewrite filter_cons_True by (by apply Ex).
  - rewrite filter_cons_False; [done|]. intros Hx%Ex. discriminate.
Qed.

Lemma lockstepForEachParticle_eq frameSize nThreads w fr :
  w < nThreads -> length (slots fr) = frameSize ->
  lockstepForEachParticle frameSize nThreads w fr =
  Some (filter (fun s => slot_live fr s = true) (idx_map_strided nThreads w frameSize)).
Proof.
  intros Hw Hl. unfold lockstepForEachParticle, forEachFrameSlot.
  rewrite (mapM_total _ (fun s => if slot_live fr s then [s] else [])).
  - cbn [mbind option_bind]. rewrite bind_concat_map. f_equal. by apply filter_bind_if.
  - intros s Hs. assert (Hin : s ∈ seq 0 frameSize).
    { rewrite <-(idx_map_strided_partition nThreads frameSize) by lia.
      apply list_elem_of_bind. exists w. split; [done|]. apply elem_of_seq. lia. }
    apply elem_of_seq in Hin. destruct (lookup_lt_is_Some_2 (slots fr) s ltac:(lia)) as [p Hp].
    unfold slot_live. by rewrite Hp.
Qed.

(** All workers of a block together call the particle body once per live slot. *)
Lemma live_slots_partition frameSize nThreads fr :
  0 < nThreads -> length (slots fr) = frameSize ->
  seq 0 nThreads ≫= (fun w => filter (fun s => slot_live fr s = true) (idx_map_strided nThreads w frameSize))
  ≡ₚ live_slots fr.
Proof.
  intros Hn Hl. unfold live_slots. rewrite Hl, <-(idx_map_strided_partition nThreads frameSize Hn).
  generalize (seq 0 nThreads). induction l as [|w ws IH]; [done|].
  by rewrite !bind_cons, filter_app, IH.
Qed.

Lemma lockstepForEachParticle_covers frameSize nThreads fr :
  0 < nThreads -> length (slots fr) = frameSize ->
  exists ws, mapM (fun w => lockstepForEachParticle frameSize nThreads w fr) (seq 0 nThreads) = Some ws /\
    concat ws ≡ₚ live_slots fr.
Proof.
  intros Hn Hl. eexists. split.
  - apply mapM_total. intros w Hw%elem_of_seq. apply lockstepForEachParticle_eq; [lia|done].
  - rewrite bind_concat_map. by apply live_slots_partition.
Qed.

(** The calls a launch owes for the frames [ps]. *)
Definition owed_calls (tgt : Target) (h : heap T) (ps : list Z) : list (Z * option nat) :=
  ps ≫= fun p => match tgt with
    | TargetFrame => [(p, None)]
    | TargetParticle => match h !! p with
        | Some fr => map (fun s => (p, Some s)) (live_slots fr)
        | None => [] end
    end.

#[local] Instance owed_calls_perm tgt h : Proper ((≡ₚ) ==> (≡ₚ)) (owed_calls tgt h).
Proof. intros l l' E. unfold owed_calls. by rewrite E. Qed.

Lemma HierarchyForEachKernel_covers tgt frameSize nThreads h sched g fp total b ps :
  0 < nThreads -> take (length ps) fp = ps -> Z.of_nat (length ps) = total -> (total < 2 ^ 31)%Z ->
  (forall p, p ∈ ps -> exists fr, h !! p = Some fr /\ length (slots fr) = frameSize) ->
  (forall f, f ∈ forEachBlockFrame sched g b (length ps) -> f < length ps) ->
  exists calls, HierarchyForEachKernel tgt frameSize nThreads h sched g fp total b = Some calls /\
    calls ≡ₚ owed_calls tgt h (omap (fun f => ps !! f) (forEachBlockFrame sched g b (length ps))).
Proof.
  intros Hn Hfp Htot Hmax Hps Hfr. unfold HierarchyForEachKernel.
  rewrite s32_small, <-Htot, Nat2Z.id by lia.
  induction (forEachBlockFrame sched g b (length ps)) as [|f fs IH]; [by exists []|].
  destruct IH as (calls & E & Hc); [intros; apply Hfr; by right|].
  assert (Hf : f < length ps) by (apply Hfr; by left).
  destruct (lookup_lt_is_Some_2 ps f Hf) as [p Hp].
  assert (Hfpf : fp !! f = Some p).
  { assert (Ht : take (length ps) fp !! f = Some p) by (by rewrite Hfp).
    by apply lookup_take_Some in Ht as [? _]. }
  destruct (Hps p) as (fr & Hh & Hlen); [by eapply list_elem_of_lookup_2|].
  cbn [mapM omap list_omap]. rewrite Hfpf, Hp. cbn [mbind option_bind].
  destruct (mapM _ fs) as [cs|]; [|discriminate]. cbn [mbind option_bind] in E. injection E as <-.
  destruct tgt.
  - rewrite Hh. cbn [mbind option_bind].
    destruct (lockstepForEachParticle_covers frameSize nThreads fr Hn Hlen) as (ws & -> & Hws).
    cbn [mbind option_bind]. eexists; split; [done|]. unfold owed_calls in *. rewrite bind_cons, Hh.
    cbn [concat]. by rewrite Hws, Hc.
  - cbn [mbind option_bind]. eexists; split; [done|]. unfold owed_calls in *. rewrite bind_cons.
    cbn [concat]. by rewrite Hc.
Qed.

Lemma launchForEach_spec cfg tgt frameSize h pr ix ord fss :
  valid_config (cfg_schedule cfg) (cfg_grid cfg) -> 0 < processThreads cfg ->
  (forall n, ord n ≡ₚ seq 0 n) ->
  (index_fresh ix pr = true -> index_of_lists ix fss) -> (Z.of_nat (length (concat fss)) < 2 ^ 31)%Z ->
  (forall p, p ∈ concat fss -> exists fr, h !! p = Some fr /\ length (slots fr) = frameSize) ->
  match launchForEach cfg tgt frameSize h pr ix ord with
  | Some calls => index_fresh ix pr = true /\ calls ≡ₚ owed_calls tgt h (concat fss)
  | None => index_fresh ix pr = false
  end.
Proof.
  intros Hv Hn Hord Hof Hmax Hps. unfold launchForEach.
  destruct (index_fresh ix pr) eqn:Hfr; [|done]. cbn [negb].
  destruct (Hof eq_refl) as (Ht & fp & ri & buf & Hfp & _ & _ & Htake & _ & _). rewrite Ht.
  set (ps := concat fss) in *. destruct (Z.eqb_spec (Z.of_nat (length ps)) 0) as [Hz|Hz].
  { split; [done|]. assert (ps = []) as -> by (apply length_zero_iff_nil; lia). done. }
  rewrite Hfp. cbn [mbind option_bind]. rewrite Nat2Z.id.
  pose proof (schedule_partition (cfg_schedule cfg) (cfg_grid cfg) (length ps) Hv) as Hcov.
  set (g := numBlocks (cfg_grid cfg) (length ps)) in *.
  assert (Hall : forall bs, (forall b, b ∈ bs -> b ∈ seq 0 g) ->
    exists calls, mapM (HierarchyForEachKernel tgt frameSize (processThreads cfg) h
      (cfg_schedule cfg) g fp (Z.of_nat (length ps))) bs = Some calls /\
      concat calls ≡ₚ owed_calls tgt h
        (omap (fun f => ps !! f) (bs ≫= fun b => forEachBlockFrame (cfg_schedule cfg) g b (length ps)))).
  { induction bs as [|b bs IH]; intros Hb; [by exists []|].
    destruct IH as (calls & E & Hc); [intros; apply Hb; by right|].
    destruct (HierarchyForEachKernel_covers tgt frameSize (processThreads cfg) h (cfg_schedule cfg)
      g fp _ b ps Hn Htake eq_refl Hmax Hps) as (c & Ec & Hcc).
    { intros f Hf. assert (Hin : f ∈ seq 0 (length ps)); [|by apply elem_of_seq in Hin; lia].
      rewrite <-Hcov. apply list_elem_of_bind. exists b. split; [done|]. apply Hb. by left. }
    cbn [mapM]. rewrite Ec. cbn [mbind option_bind]. rewrite E. cbn [mbind option_bind].
    eexists; split; [done|]. cbn [concat]. rewrite bind_cons, omap_app. unfold owed_calls in *.
    rewrite bind_app. by rewrite Hcc, Hc. }
  destruct (Hall (ord g)) as (calls & -> & Hc); [intros b; by rewrite Hord|].
  cbn [mbind option_bind]. split; [done|]. rewrite Hc, Hord, Hcov.
  assert (Hid : omap (fun f => ps !! f) (seq 0 (length ps)) = ps); [|by rewrite Hid].
  clear. induction ps as [|p ps IH] using rev_ind; [done|].
  rewrite length_app, Nat.add_1_r, seq_S, omap_app. cbn [omap list_omap].
  rewrite (list_lookup_middle ps [] p (0 + length ps)) by done. f_equal.
  rewrite <-IH at 2. apply list_omap_ext. apply Forall_Forall2_diag, Forall_forall.
  intros f Hf%elem_of_seq. by rewrite lookup_app_l by lia.
Qed.

(** C10: [launchForEach] over an index that describes the buffer calls the body
    exactly once for every live particle (or once for every frame), under every
    valid schedule and grid size and any order of the blocks, and never touches
    a dead slot or an address outside the frame lists; over a stale index it
    stops at the assertion. *)
Theorem launchForEach_visits cfg tgt frameSize h pr ix ord fss :
  valid_config (cfg_schedule cfg) (cfg_grid cfg) -> 0 < processThreads cfg ->
  (forall n, ord n ≡ₚ seq 0 n) ->
  (index_fresh ix pr = true -> index_of_lists ix fss) -> (Z.of_nat (length (concat fss)) < 2 ^ 31)%Z ->
  (forall p, p ∈ concat fss -> exists fr, h !! p = Some fr /\ length (slots fr) = frameSize) ->
  match launchForEach cfg tgt frameSize h pr ix ord with
  | Some calls => index_fresh ix pr = true /\ calls ≡ₚ owed_calls tgt h (concat fss)
  | None => index_fresh ix pr = false
  end.
Proof. exact (launchForEach_spec cfg tgt frameSize h pr ix ord fss). Qed.
End launch.

(** ** Witness *)

Section witness.
Local Open Scope Z_scope.

Definition pr_a : PRBuffer Z := mkPRBuffer 5 (Some (mkHD [region_a] [region_a])) 1 9.
Definition index_a : FrameIndexBuffer :=
  mkIndex (Some [16; 32]) (Some [0; 0]) (Some (mkHD [2] [2])) 2 2 1 9 5 true.

Lemma launchForEach_visits_witness :
  exists calls,
    launchForEach (mkForEachConfig Contiguous (FixedGrid 3) 2) TargetParticle 2 two_frames pr_a
      index_a (seq 0) = Some calls /\
    calls ≡ₚ [(16, Some 0%nat); (16, Some 1%nat); (32, Some 0%nat)].
Proof.
  pose proof (launchForEach_visits (mkForEachConfig Contiguous (FixedGrid 3) 2) TargetParticle 2
    two_frames pr_a index_a (seq 0) [[16; 32]]) as Hw.
  destruct (launchForEach _ _ _ _ _ _ _) as [calls|] eqn:E.
  - exists calls. split; [reflexivity|].
    destruct Hw as [_ Hp]; [simpl; lia|simpl; lia|done|..|exact Hp].
    + intros _. split; [reflexivity|]. eexists _, _, _. split_and!; try reflexivity.
      intros [|r] Hr; [reflexivity|]. simpl in Hr. lia.
    + simpl. lia.
    + simpl. intros p [->|[->|[]%elem_of_nil]%elem_of_cons]%elem_of_cons;
        eexists; split; vm_compute; reflexivity.
  - vm_compute in E. discriminate E.
Defined.
End witness.
