(* ===== verification/Hierarchy.v ===== *)
(** * Iterating the particle hierarchy

    Models spmacc/particles/algorithms/HierarchyForEach.hpp with the views of FrameView.hpp: every level of
    the hierarchy from many species down to particles is a loop of the calling thread, and the only choice is how frame
    pointers are followed.  A view refers to storage: a frame is its address in the heap, so what a body stores is seen by the
    rest of the traversal. *)
From Stdlib Require Import ZArith Lia.
From stdpp Require Import base sets list numbers gmap.
From S2P Require Import Prelude Scalar Topology Aabb FrameList Lockstep Regions Scan FrameIndex Launch.

(** ** Levels and access *)

Inductive level : Type := LParticle | LFrame | LRegion | LSpecies.
Definition rank (l : level) : nat := match l with LParticle => 0 | LFrame => 1 | LRegion => 2 | LSpecies => 3 end.

(** [DeviceHeapAccess] and [HostHeapAccess]. *)
Inductive HeapAccess : Type := deviceHeap | hostHeap (heapOffset : Z).

Definition isDevice (a : HeapAccess) : bool := match a with deviceHeap => true | hostHeap _ => false end.
(** The iterator of the frames: the address it starts from and where a link leads. *)
Definition translate (a : HeapAccess) (p : Z) : Z := match a with deviceHeap => p | hostHeap off => mapToHost p off end.

Section hierarchy.
Context {T : Type} `{Scalar T} {S : Type} (frameSize fuel : nat).

(** ** Views and elements *)

Record SpeciesView : Type := mkSpecies { regionBox : list (ParticleRegion T); numRegions : nat }.

(** What a body is called with: a particle proxy, or a view of a lower level. *)
Inductive element : Type :=
  | Proxy (frame : Z) (slot : nat)
  | OfFrame (frame : Z)
  | OfRegion (region : ParticleRegion T)
  | OfSpecies (species : SpeciesView)
  | OfMulti (species : list SpeciesView).

Definition childLevel (v : element) : option level :=
  match v with
  | Proxy _ _ => None
  | OfFrame _ => Some LParticle
  | OfRegion _ => Some LFrame
  | OfSpecies _ => Some LRegion
  | OfMulti _ => Some LSpecies
  end.

(** The heap a thread sees and the rest of its state; none when a pointer dangles or an index is out of range. *)
Abbreviation St := (gmap Z (Frame T) * S)%type.
Definition body : Type := element -> St -> option St.

(** A counted loop. *)
Definition for_each {A} (l : list A) (f : A -> St -> option St) (st : St) : option St := foldl (fun st x => st ← st; f x st) (Some st) l.

Definition deref {A} (p : Z) (f : Frame T -> A) (st : St) : option A := f <$> st.1 !! p.

(** The range-for over the frames: the link is read after the body. *)
Fixpoint frames_loop (a : HeapAccess) (n : nat) (p : Z) (b : body) (st : St) : option St :=
  if (p =? translate a 0)%Z then Some st else
  match n with
  | O => None
  | Datatypes.S n => st ← b (OfFrame p) st; nx ← deref p (@next T) st; frames_loop a n (translate a nx) b st
  end.

Definition forEachChild (a : HeapAccess) (v : element) (b : body) (st : St) : option St :=
  match v with
  | Proxy _ _ => None
  | OfFrame p =>
      for_each (seq 0 frameSize) (fun slot st =>
        fr ← st.1 !! p; q ← slots fr !! slot; if occupied q then b (Proxy p slot) st else Some st) st
  | OfRegion r => frames_loop a fuel (translate a (m_firstNode (particleFrameList r))) b st
  | OfSpecies sp => for_each (seq 0 (numRegions sp)) (fun i st => r ← regionBox sp !! i; b (OfRegion r) st) st
  | OfMulti l => for_each l (fun sp => b (OfSpecies sp)) st
  end.

(** [forEach(target, access, view, body)]: none is the failing [static_assert].  [n] bounds the descent. *)
Fixpoint forEach_ (n : nat) (target : level) (a : HeapAccess) (v : element) (b : body) (st : St) : option St :=
  match childLevel v with
  | None => None
  | Some c =>
      if (rank c <? rank target)%nat then None
      else if (rank c =? rank target)%nat then forEachChild a v b st
      else match n with O => None | Datatypes.S n => forEachChild a v (fun child => forEach_ n target a child b) st end
  end.
Definition hforEach (target : level) (a : HeapAccess) (v : element) (b : body) (st : St) : option St := forEach_ 3 target a v b st.
End hierarchy.

(** ** The traversal as a fold *)

Section fold.
Context {T : Type} `{Scalar T} {S : Type} (frameSize fuel : nat).
Abbreviation St := (gmap Z (Frame T) * S)%type.
Abbreviation element := (@element T).

(** What the traversal depends on: the links and which slots are live. *)
Definition shape (fr : Frame T) : Z * list bool := (next fr, map occupied (slots fr)).
Definition same_shape (h h' : gmap Z (Frame T)) : Prop := forall p, shape <$> h' !! p = shape <$> h !! p.

Lemma same_shape_frame h h' p fr : same_shape h h' -> h !! p = Some fr ->
  exists fr', h' !! p = Some fr' /\ next fr' = next fr /\ map occupied (slots fr') = map occupied (slots fr).
Proof.
  intros Hs Hp. specialize (Hs p). rewrite Hp in Hs. destruct (h' !! p) as [fr'|]; [|done]. injection Hs as Hn Ho. by exists fr'.
Qed.

Context (h : gmap Z (Frame T)) (a : HeapAccess).
Definition Inv (st : St) : Prop := same_shape h st.1.

(** [forEachChild] runs its body on [cs], in this order. *)
Definition enumerates (v : element) (cs : list element) : Prop :=
  forall (b : body) (G : element -> St -> St), (forall c st, c ∈ cs -> Inv st -> b c st = Some (G c st) /\ Inv (G c st)) ->
  forall st, Inv st -> forEachChild frameSize fuel a v b st = Some (foldl (fun st c => G c st) st cs) /\ Inv (foldl (fun st c => G c st) st cs).

Lemma for_each_fold {A} (l : list A) (f : A -> St -> option St) (G : A -> St -> St) st :
  (forall x st, x ∈ l -> Inv st -> f x st = Some (G x st) /\ Inv (G x st)) -> Inv st ->
  for_each l f st = Some (foldl (fun st x => G x st) st l) /\ Inv (foldl (fun st x => G x st) st l).
Proof.
  unfold for_each. revert st. induction l as [|x l IH]; intros st Hf Hi; [done|]. cbn [foldl mbind option_bind].
  destruct (Hf x st ltac:(by left) Hi) as [-> Hi']. apply IH; [|done]. intros y st' Hy. apply Hf. by right.
Qed.

Lemma occupied_slots (fr : Frame T) i : slot_live fr i = true <-> map occupied (slots fr) !! i = Some true.
Proof.
  unfold slot_live. change (map occupied (slots fr)) with (occupied <$> slots fr). rewrite list_lookup_fmap.
  destruct (slots fr !! i); simpl; split; congruence.
Qed.

Lemma enumerates_frame p fr : h !! p = Some fr -> length (slots fr) = frameSize -> enumerates (OfFrame p) (map (Proxy p) (live_slots fr)).
Proof.
  intros Hp Hl. unfold live_slots. rewrite Hl. intros b G Hb st Hi. cbn [forEachChild].
  assert (Hin : forall i, i ∈ seq 0 frameSize -> slot_live fr i = true -> Proxy p i ∈ map (@Proxy T p) (filter (fun i => slot_live fr i = true) (seq 0 frameSize))).
  { intros i Hs Hlv. apply list_elem_of_fmap. exists i. split; [done|]. by apply list_elem_of_filter. }
  destruct (for_each_fold (seq 0 frameSize) (fun slot st => fr ← st.1 !! p; q ← slots fr !! slot; if occupied q then b (Proxy p slot) st else Some st)
    (fun i st => if slot_live fr i then G (Proxy p i) st else st) st) as [He HiF]; [|done|].
  - intros i st' Hi' HI. destruct (same_shape_frame _ _ _ _ HI Hp) as (fr' & -> & _ & Ho). cbn [mbind option_bind].
    pose proof (occupied_slots fr i) as Hocc. rewrite <-Ho in Hocc. change (map occupied (slots fr')) with (occupied <$> slots fr') in Hocc.
    rewrite list_lookup_fmap in Hocc. destruct (lookup_lt_is_Some_2 (slots fr') i) as [q Hq].
    { apply (f_equal length) in Ho. rewrite !length_map in Ho. apply elem_of_seq in Hi'. lia. }
    rewrite Hq in *. cbn [mbind option_bind]. simpl in Hocc. destruct (slot_live fr i) eqn:Hlv.
    + pose proof (proj1 Hocc eq_refl) as [= ->]. by apply Hb; [apply Hin|].
    + destruct (occupied q); [|done]. by specialize (proj2 Hocc eq_refl).
  - assert (Heq : forall l st, foldl (fun st i => if slot_live fr i then G (Proxy p i) st else st) st l =
      foldl (fun st c => G c st) st (map (Proxy p) (filter (fun i => slot_live fr i = true) l))).
    { induction l as [|i l IH]; intros st'; [done|]. rewrite filter_cons. cbn [foldl]. destruct (slot_live fr i) eqn:Hlv;
        [rewrite decide_True by done; cbn [map foldl]; apply IH|rewrite decide_False by done; apply IH]. }
    rewrite <-Heq. split; [exact He|exact HiF].
Qed.

(** The frames of a list as the access sees them. *)
Fixpoint access_chain (p : Z) (ps : list Z) : Prop :=
  match ps with
  | [] => p = translate a 0
  | q :: qs => p = q /\ q <> translate a 0 /\ exists n, next <$> h !! q = Some n /\ access_chain (translate a n) qs
  end.

Lemma frames_loop_fold b G ps p n st : length ps <= n -> access_chain p ps ->
  (forall c st, c ∈ map OfFrame ps -> Inv st -> b c st = Some (G c st) /\ Inv (G c st)) -> Inv st ->
  frames_loop a n p b st = Some (foldl (fun st c => G c st) st (map OfFrame ps)) /\ Inv (foldl (fun st c => G c st) st (map OfFrame ps)).
Proof.
  revert p n st. induction ps as [|q qs IH]; intros p n st Hn Hc Hb Hi; simpl in Hc.
  - subst p. destruct n; cbn [frames_loop]; by rewrite Z.eqb_refl.
  - destruct Hc as (-> & Hq & nx & Hnx & Hc). destruct n as [|n]; [simpl in Hn; lia|]. cbn [frames_loop map foldl].
    rewrite (proj2 (Z.eqb_neq _ _) Hq). destruct (Hb (OfFrame q) st ltac:(by left) Hi) as [-> Hi']. cbn [mbind option_bind].
    destruct (h !! q) as [fr|] eqn:Hfr; [|done]. injection Hnx as <-. destruct (same_shape_frame _ _ _ _ Hi' Hfr) as (fr' & Hfr' & Hn' & _).
    unfold deref. rewrite Hfr'. cbn [fmap option_fmap option_map mbind option_bind]. rewrite Hn'. apply IH; [simpl in Hn; lia|done| |done].
    intros c st' Hc'. apply Hb. by right.
Qed.

Lemma enumerates_region r ps : length ps <= fuel -> access_chain (translate a (m_firstNode (particleFrameList r))) ps -> enumerates (OfRegion r) (map OfFrame ps).
Proof. intros Hn Hc b G Hb st Hi. cbn [forEachChild]. by apply frames_loop_fold. Qed.

Lemma foldl_take {A} (G : A -> St -> St) (l : list A) n st : n <= length l ->
  foldl (fun st i => match l !! i with Some x => G x st | None => st end) st (seq 0 n) = foldl (fun st x => G x st) st (take n l).
Proof.
  induction n as [|n IH]; intros Hn; [by rewrite take_0|]. destruct (lookup_lt_is_Some_2 l n) as [x Hx]; [lia|].
  rewrite seq_S, foldl_app, (take_S_r _ _ x), foldl_app, IH by (done || lia). simpl. by rewrite Hx.
Qed.

Lemma foldl_map {A B} (G : B -> St -> St) (f : A -> B) l st : foldl (fun st c => G c st) st (map f l) = foldl (fun st x => G (f x) st) st l.
Proof. revert st. induction l as [|x l IH]; intros st; [done|]. apply IH. Qed.

Lemma enumerates_species sp : numRegions sp <= length (regionBox sp) -> enumerates (OfSpecies sp) (map OfRegion (take (numRegions sp) (regionBox sp))).
Proof.
  intros Hn b G Hb st Hi. cbn [forEachChild]. destruct sp as [box n]. simpl in *.
  destruct (for_each_fold (seq 0 n) (fun i st => r ← box !! i; b (OfRegion r) st) (fun i st => match box !! i with Some r => G (OfRegion r) st | None => st end) st) as [He HiF]; [|done|].
  - intros i st' Hi' HI. apply elem_of_seq in Hi'. destruct (lookup_lt_is_Some_2 box i) as [r Hr]; [lia|]. rewrite Hr. cbn [mbind option_bind]. apply Hb; [|done].
    apply list_elem_of_fmap. exists r. split; [done|]. apply (list_elem_of_lookup_2 _ i). rewrite lookup_take_lt by lia. done.
  - rewrite (foldl_take (fun r => G (OfRegion r))) in He, HiF by done. rewrite foldl_map. by split.
Qed.

Lemma enumerates_multi l : enumerates (OfMulti l) (map OfSpecies l).
Proof.
  intros b G Hb st Hi. cbn [forEachChild]. rewrite foldl_map. apply (for_each_fold l (fun sp st => b (OfSpecies sp) st) (fun sp => G (OfSpecies sp))); [|done].
  intros sp st' Hsp. apply Hb. apply list_elem_of_fmap. by exists sp.
Qed.

(** *** Descending *)

Context (f : element -> St -> St) (Hf : forall e st, Inv st -> Inv (f e st)).
Definition run (es : list element) (st : St) : St := foldl (fun st e => f e st) st es.

Lemma hierarchy_run_inv es st : Inv st -> Inv (run es st).
Proof. revert st. induction es as [|e es IH]; intros st Hi; [done|]. apply IH. by apply Hf. Qed.

(** The traversal of [v] down to [target] runs the body on [es]. *)
Definition visits (n : nat) (target : level) (v : element) (es : list element) : Prop :=
  forall st, Inv st -> forEach_ frameSize fuel n target a v (fun e st => Some (f e st)) st = Some (run es st).

Lemma visits_here n target v cs : childLevel v = Some target -> enumerates v cs -> visits n target v cs.
Proof.
  intros Hc Hv st Hi. assert (He : forEachChild frameSize fuel a v (fun e st => Some (f e st)) st = Some (run cs st)).
  { destruct (Hv (fun e st => Some (f e st)) f) with (st := st) as [H' _]; [|done|exact H']. intros c st' _ Hi'. split; [done|by apply Hf]. }
  destruct n; cbn [forEach_]; rewrite Hc; rewrite Nat.ltb_irrefl, Nat.eqb_refl; exact He.
Qed.

Lemma visits_below n target v c cs ess : childLevel v = Some c -> rank target < rank c -> enumerates v cs ->
  Forall2 (visits n target) cs ess -> visits (Datatypes.S n) target v (concat ess).
Proof.
  intros Hc Ht Hv Hcs st Hi. cbn [forEach_]. rewrite Hc. rewrite (proj2 (Nat.ltb_ge _ _)) by lia. rewrite (proj2 (Nat.eqb_neq _ _)) by lia.
  set (b := fun child => forEach_ frameSize fuel n target a child (fun e st => Some (f e st))).
  set (G := fun child st => default st (b child st)).
  destruct (Hv b G) with (st := st) as [He _]; [|done|].
  - intros e st' He Hi'. apply list_elem_of_lookup in He as [i He]. destruct (Forall2_lookup_l _ _ _ _ _ Hcs He) as (es & _ & Hes).
    specialize (Hes st' Hi'). unfold G, b. rewrite Hes. split; [done|by apply hierarchy_run_inv].
  - cbn beta in He. rewrite He. f_equal. clear He Hv. revert st Hi. induction Hcs as [|e es cs ess Hes Hcs IH]; intros st Hi; [done|].
    cbn [concat foldl]. unfold run in *. rewrite foldl_app. specialize (Hes st Hi). assert (HG : G e st = foldl (fun st e => f e st) st es) by (unfold G, b; by rewrite Hes).
    rewrite HG. apply IH. by apply (hierarchy_run_inv es).
Qed.
End fold.

(** ** What is visited *)

Section visited.
Context {T : Type} `{Scalar T} {S : Type} (frameSize fuel : nat).
Abbreviation St := (gmap Z (Frame T) * S)%type.
Abbreviation element := (@element T).

(** The address a thread knows a frame by, and the heap it sees. *)
Definition address (a : HeapAccess) (p : Z) : Z := match a with deviceHeap => p | hostHeap off => (p - off)%Z end.
Definition seen (a : HeapAccess) (h hh : gmap Z (Frame T)) (ps : list Z) : Prop :=
  match a with deviceHeap => hh = h | hostHeap off => host_mirror h off hh /\ off ∉ ps end.

(** The elements of a level below a view, for the frame lists of the regions. *)
Definition frame_elements (a : HeapAccess) (h : gmap Z (Frame T)) (target : level) (p : Z) : list element :=
  match target with
  | LParticle => match h !! p with Some fr => map (Proxy (address a p)) (live_slots fr) | None => [] end
  | _ => [OfFrame (address a p)]
  end.
Definition region_elements (a : HeapAccess) (h : gmap Z (Frame T)) (target : level) (r : ParticleRegion T) (ps : list Z) : list element :=
  match target with LParticle | LFrame => ps ≫= frame_elements a h target | _ => [OfRegion r] end.
Definition species_elements (a : HeapAccess) (h : gmap Z (Frame T)) (target : level) (sp : SpeciesView) (fss : list (list Z)) : list element :=
  match target with
  | LSpecies => [OfSpecies sp]
  | _ => concat (zip_with (region_elements a h target) (take (numRegions sp) (regionBox sp)) fss)
  end.

(** The regions of a view, with their frames. *)
Definition species_ok (h : gmap Z (Frame T)) (sp : SpeciesView) (fss : list (list Z)) : Prop :=
  numRegions sp <= length (regionBox sp) /\ region_lists h (take (numRegions sp) (regionBox sp)) fss /\
  forall ps, ps ∈ fss -> length ps <= fuel /\ forall p, p ∈ ps -> exists fr, h !! p = Some fr /\ length (slots fr) = frameSize.

Context (a : HeapAccess) (h hh : gmap Z (Frame T)).

Lemma access_chain_seen p ps : seen a h hh ps -> chain h p ps -> access_chain hh a (translate a p) (map (address a) ps).
Proof.
  intros Hs. revert p. induction ps as [|q qs IH]; intros p Hc; simpl in Hc; [by subst p|]. destruct Hc as (-> & Hq & n & Hn & Hc).
  assert (Hs' : seen a h hh qs) by (destruct a; [done|destruct Hs as [Hm Ho]; split; [done|by apply not_elem_of_cons in Ho as [_ Ho]]]).
  cbn [map access_chain]. unfold translate, address. destruct a as [|off]; simpl in Hs.
  - subst hh. split_and!; [done|done|]. exists n. split; [done|]. by apply IH.
  - destruct Hs as [Hm Ho]. apply not_elem_of_cons in Ho as [Ho _]. unfold mapToHost at 1. rewrite (proj2 (Z.eqb_neq _ _) Hq). split_and!; [done|unfold mapToHost; simpl; lia|].
    exists n. split; [|by apply IH]. destruct (h !! q) as [fr|] eqn:Hfr; [|done]. by rewrite (Hm _ _ Hfr).
Qed.

Lemma seen_frame ps p fr : seen a h hh ps -> h !! p = Some fr -> hh !! address a p = Some fr.
Proof. unfold seen, address. destruct a as [|off]; [by intros ->|]. intros [Hm _]. apply Hm. Qed.

Context (f : element -> St -> St) (Hf : forall e st, Inv hh st -> Inv hh (f e st)).
Abbreviation visits := (visits (T := T) (S := S) frameSize fuel hh a f).

Lemma visits_frame n p fr : hh !! address a p = Some fr -> h !! p = Some fr -> length (slots fr) = frameSize ->
  visits n LParticle (OfFrame (address a p)) (frame_elements a h LParticle p).
Proof. intros Hp Hh Hl. apply visits_here; [done|done|]. unfold frame_elements. rewrite Hh. by apply enumerates_frame. Qed.

Lemma visits_region n target r ps : rank target <= 1 -> 1 <= n -> length ps <= fuel -> seen a h hh ps -> is_list h (particleFrameList r) ps ->
  (forall p, p ∈ ps -> exists fr, h !! p = Some fr /\ length (slots fr) = frameSize) ->
  visits n target (OfRegion r) (region_elements a h target r ps).
Proof.
  intros Ht Hn Hfu Hs Hl Hfr. pose proof (access_chain_seen _ _ Hs (is_list_chain _ _ _ Hl)) as Hc.
  assert (He : enumerates (T := T) (S := S) frameSize fuel hh a (OfRegion r) (map OfFrame (map (address a) ps))) by (apply enumerates_region; [by rewrite length_map|done]).
  destruct target; [|  |simpl in Ht; lia..]; unfold region_elements.
  - destruct n as [|n]; [lia|]. rewrite <-bind_concat_map.
    eapply visits_below; [done|reflexivity|simpl; lia|exact He|]. rewrite map_map. clear He Hc Hl Hfu.
    assert (Hs' : forall p fr, h !! p = Some fr -> hh !! address a p = Some fr) by (intros p fr; by apply (seen_frame ps)). clear Hs.
    induction ps as [|p ps IH]; constructor; [|apply IH; intros q Hq; apply Hfr; by right].
    destruct (Hfr p ltac:(by left)) as (fr & Hh & Hlen). apply (visits_frame n p fr); [by apply Hs'|done|done].
  - assert (Heq : ps ≫= frame_elements a h LFrame = map OfFrame (map (address a) ps)).
    { clear. induction ps as [|p ps IH]; [done|]. rewrite bind_cons, IH. done. }
    rewrite Heq. by apply visits_here.
Qed.

Lemma visits_species n target sp fss : rank target <= 2 -> 2 <= n -> species_ok h sp fss -> seen a h hh (concat fss) ->
  visits n target (OfSpecies sp) (species_elements a h target sp fss).
Proof.
  intros Ht Hn (Hnum & Hregs & Hfss) Hs. pose proof (enumerates_species (S := S) frameSize fuel hh a sp Hnum) as He.
  assert (Hsub : forall ps, ps ∈ fss -> seen a h hh ps).
  { intros ps Hps. unfold seen in *. destruct a; [done|]. destruct Hs as [Hm Ho]. split; [done|]. intros Hin. apply Ho. apply elem_of_concat. by exists ps. }
  assert (Hrank : rank target <= 1 \/ target = LRegion) by (destruct target; simpl in *; first [by right|left; lia|lia]). unfold region_lists in Hregs.
  destruct Hrank as [Hr| ->].
  - assert (Heq : species_elements a h target sp fss = concat (zip_with (region_elements a h target) (take (numRegions sp) (regionBox sp)) fss)) by (destruct target; [done..|simpl in Ht; lia]).
    rewrite Heq. destruct n as [|n]; [lia|]. eapply visits_below; [done|reflexivity|simpl; lia|exact He|].
    clear He Heq Hs Hnum. induction Hregs as [|r ps rs fss Hl Hregs IH]; cbn [zip_with map]; [constructor|].
    constructor; [|apply IH; intros qs Hqs; [apply Hfss|apply Hsub]; by right].
    destruct (Hfss ps ltac:(by left)) as [Hfu Hfr]. apply visits_region; [done|lia|done|apply Hsub; by left|done|done].
  - assert (Heq : species_elements a h LRegion sp fss = map OfRegion (take (numRegions sp) (regionBox sp))).
    { unfold species_elements. clear -Hregs. induction Hregs as [|r ps rs fss Hl Hregs IH]; [done|]. cbn [zip_with concat map region_elements app]. by rewrite IH. }
    rewrite Heq. by apply visits_here.
Qed.
End visited.

(** ** Nested traversals *)

Section nesting.
Context {T : Type} `{Scalar T} {S : Type} (frameSize fuel : nat) (a : HeapAccess).
Abbreviation St := (gmap Z (Frame T) * S)%type.
Abbreviation element := (@element T).
Abbreviation forEach := (forEach_ (T := T) (S := S) frameSize fuel).

(** The rank of an element; its children have one less. *)
Definition element_rank (e : element) : nat := match childLevel e with Some c => Datatypes.S (rank c) | None => 0 end.

Lemma for_each_ext {A} (l : list A) (f g : A -> St -> option St) st : (forall x st, f x st = g x st) -> for_each l f st = for_each l g st.
Proof.
  intros Hfg. unfold for_each. generalize (Some st) as o. induction l as [|x l IH]; intros o; [done|]. cbn [foldl].
  destruct o as [st'|]; cbn [mbind option_bind]; [rewrite Hfg|]; apply IH.
Qed.

Lemma frames_loop_ext n p (b b' : body) st : (forall e st, element_rank e = 1 -> b e st = b' e st) ->
  frames_loop (T := T) (S := S) a n p b st = frames_loop a n p b' st.
Proof.
  intros Hb. revert p st. induction n as [|n IH]; intros p st; cbn [frames_loop]; [done|]. destruct (p =? translate a 0)%Z; [done|].
  rewrite Hb by done. destruct (b' (OfFrame p) st) as [st'|]; [|done]. cbn [mbind option_bind]. destruct (deref p _ st') as [nx|]; [|done]. apply IH.
Qed.

Lemma forEachChild_ext v (b b' : body) st : (forall e st, element_rank v = Datatypes.S (element_rank e) -> b e st = b' e st) ->
  forEachChild (T := T) (S := S) frameSize fuel a v b st = forEachChild frameSize fuel a v b' st.
Proof.
  intros Hb. destruct v as [p i|p|r|sp|l]; cbn [forEachChild]; [done| | | |].
  - apply for_each_ext. intros i st'. destruct (st'.1 !! p) as [fr|]; [|done]. cbn [mbind option_bind]. destruct (slots fr !! i) as [q|]; [|done].
    cbn [mbind option_bind]. destruct (occupied q); [by apply Hb|done].
  - apply frames_loop_ext. intros e st' He. apply Hb. by rewrite He.
  - apply for_each_ext. intros i st'. destruct (regionBox sp !! i); [by apply Hb|done].
  - apply for_each_ext. intros sp st'. by apply Hb.
Qed.

(** Enough descent is enough. *)
Lemma forEach_fuel n n' target v (b : body) st : element_rank v <= n + rank target + 1 -> n <= n' -> forEach n' target a v b st = forEach n target a v b st.
Proof.
  revert n' v st. induction n as [|n IH]; intros n' v st Hv Hn; unfold element_rank in Hv.
  - destruct n' as [|n']; [done|]. cbn [forEach_]. destruct (childLevel v) as [c|]; [|done]. simpl in Hv.
    destruct (Nat.ltb_spec (rank c) (rank target)); [done|]. rewrite (proj2 (Nat.eqb_eq _ _)) by lia. done.
  - destruct n' as [|n']; [lia|]. cbn [forEach_]. destruct (childLevel v) as [c|] eqn:Hc; [|done].
    destruct (rank c <? rank target); [done|]. destruct (rank c =? rank target); [done|]. apply forEachChild_ext. intros e st' He.
    apply IH; [|lia]. unfold element_rank in *. rewrite Hc in He. injection He as He. lia.
Qed.

(** Visiting a level in between and going down from there visits the same elements in the same order. *)
Lemma forEach_nest n target mid v (b : body) st : rank target < rank mid -> rank mid < element_rank v -> element_rank v <= n + 1 ->
  forEach n mid a v (fun child => forEach n target a child b) st = forEach n target a v b st.
Proof.
  intros Htm. assert (H' : forall k v st, rank mid < element_rank v -> element_rank v <= k + 1 -> k <= n ->
    forEach k mid a v (fun child => forEach n target a child b) st = forEach k target a v b st); [|by intros; apply H'].
  induction k as [|k IH]; intros w st' Hm Hv Hk; [lia|]. cbn [forEach_]. unfold element_rank in Hm, Hv. destruct (childLevel w) as [c|] eqn:Hc; [|lia].
  rewrite !(proj2 (Nat.ltb_ge _ _)) by lia. rewrite (proj2 (Nat.eqb_neq (rank c) (rank target))) by lia.
  assert (Hch : forall e, element_rank w = Datatypes.S (element_rank e) -> element_rank e = rank c) by (intros e He; unfold element_rank in He at 1; rewrite Hc in He; lia).
  destruct (Nat.eqb_spec (rank c) (rank mid)) as [Heq|Hne]; apply forEachChild_ext; intros e st2 He%Hch.
  - apply forEach_fuel; lia.
  - apply IH; lia.
Qed.
End nesting.

(** The particles of the regions are what a launch over the same frames owes. *)
Lemma particle_elements {T} `{Scalar T} (h : gmap Z (Frame T)) rs fss : length rs = length fss ->
  concat (zip_with (region_elements deviceHeap h LParticle) rs fss) = map (fun c => Proxy c.1 (default 0 c.2)) (owed_calls TargetParticle h (concat fss)).
Proof.
  revert rs. induction fss as [|ps fss IH]; intros [|r rs] Hl; try done. cbn [zip_with concat]. unfold owed_calls in *. rewrite bind_app, map_app, IH by (simpl in Hl; lia).
  f_equal. clear. unfold region_elements. induction ps as [|p ps IH]; [done|]. rewrite !bind_cons, map_app, IH. f_equal. simpl.
  destruct (h !! p) as [fr|]; [|done]. by rewrite map_map.
Qed.

(** C40: the hierarchy is traversed completely and in order.  Down to any level, from all species, from one species or from
    a region, and with device pointers or through the host mirror, [forEach] ends and has run its body once for every
    element of that level, in the order of species, regions, frames and slots, dead slots left out, whatever the body
    does as long as it keeps the links and the liveness of slots.  Nesting a traversal of a lower level in
    one of a higher level does the same.  The particles are those that a launch over the same frames calls its body for. *)
Theorem hierarchy_visits {T} `{Scalar T} {S} frameSize fuel a (h hh : gmap Z (Frame T)) (l : list (SpeciesView * list (list Z)))
    (f : element -> gmap Z (Frame T) * S -> gmap Z (Frame T) * S) s target :
  Forall (fun x => species_ok frameSize fuel h x.1 x.2) l -> seen a h hh (concat (concat (map snd l))) ->
  (forall e st, same_shape hh st.1 -> same_shape hh (f e st).1) ->
  let b := fun e st => Some (f e st) in
  let run := foldl (fun st e => f e st) (hh, s) in
  hforEach frameSize fuel target a (OfMulti (map fst l)) b (hh, s) = Some (run (concat (map (fun x => species_elements a h target x.1 x.2) l))) /\
  (forall sp fss, (sp, fss) ∈ l -> target <> LSpecies ->
     hforEach frameSize fuel target a (OfSpecies sp) b (hh, s) = Some (run (species_elements a h target sp fss)) /\
     species_elements deviceHeap h LParticle sp fss = map (fun c => Proxy c.1 (default 0 c.2)) (owed_calls TargetParticle h (concat fss))) /\
  (forall mid v (b : body (T := T) (S := S)) st, rank target < rank mid < element_rank v ->
     hforEach frameSize fuel mid a v (fun child => hforEach frameSize fuel target a child b) st = hforEach frameSize fuel target a v b st).
Proof.
  intros Hl Hs Hf b run.
  assert (Hsub : forall x, x ∈ l -> seen a h hh (concat x.2)).
  { intros x Hx. unfold seen in *. destruct a; [done|]. destruct Hs as [Hm Ho]. split; [done|]. intros (ps & Hp & Hps)%elem_of_concat. apply Ho.
    apply elem_of_concat. exists ps. split; [done|]. apply elem_of_concat. exists x.2. split; [done|]. apply list_elem_of_fmap. by exists x. }
  split_and!.
  - assert (Hv : visits frameSize fuel hh a f 3 target (OfMulti (map fst l)) (concat (map (fun x => species_elements a h target x.1 x.2) l))); [|by apply Hv].
    assert (Hrank : rank target <= 2 \/ target = LSpecies) by (destruct target; simpl; auto). destruct Hrank as [Hr| ->].
    + eapply visits_below; [exact Hf|reflexivity|simpl; lia|apply enumerates_multi|]. clear Hs.
      induction Hl as [|x l Hx Hl IH]; constructor; [|apply IH; intros y Hy; apply Hsub; by right].
      apply visits_species; [exact Hf|done|lia|done|apply Hsub; by left].
    + assert (Heq : concat (map (fun x => species_elements a h LSpecies x.1 x.2) l) = map OfSpecies (map fst l)) by (clear; induction l as [|x l IH]; simpl in *; congruence).
      rewrite Heq. apply visits_here; [exact Hf|done|apply enumerates_multi].
  - intros sp fss Hx Ht. split.
    + apply (visits_species frameSize fuel a h hh f Hf 3 target sp fss); [by destruct target; simpl; try lia|lia|by apply (proj1 (list.Forall_forall _ _) Hl _ Hx)|by apply (Hsub (sp, fss))|done].
    + destruct (proj1 (list.Forall_forall _ _) Hl _ Hx) as (_ & Hregs & _). apply particle_elements. by apply Forall2_length in Hregs.
  - intros mid v b' st [Htm Hmv]. unfold hforEach. apply forEach_nest; [done|done|]. unfold element_rank. destruct v; simpl; lia.
Qed.

(** ** A concrete traversal *)

Section witness.
Local Open Scope Z_scope.

Definition two_mirrored : gmap Z (Frame Z) := <[8 := mkFrame [part0 1; part0 1] 2 32]> (<[24 := mkFrame [part0 1; part0 0] 1 0]> ∅).

(** On the host, 8 below: three live particles of two frames, in the order of the list. *)
Lemma hierarchy_visits_witness :
  let view := mkSpecies [region_a] 1 in let f := fun (e : element) (st : gmap Z (Frame Z) * list element) => (st.1, st.2 ++ [e]) in
  hforEach 2 2 LParticle (hostHeap 8) (OfMulti [view]) (fun e st => Some (f e st)) (two_mirrored, []) =
    Some (two_mirrored, [Proxy 8 0; Proxy 8 1; Proxy 24 0]) /\
  hforEach 2 2 LFrame (hostHeap 8) (OfSpecies view) (fun e st => Some (f e st)) (two_mirrored, []) = Some (two_mirrored, [OfFrame 8; OfFrame 24]).
Proof.
  cbv zeta. set (view := mkSpecies [region_a] 1). set (f := fun (e : element) (st : gmap Z (Frame Z) * list element) => (st.1, st.2 ++ [e])).
  assert (Hl : Forall (fun x => species_ok 2 2 two_frames x.1 x.2) [(view, [[16; 32]])]).
  { constructor; [|constructor]. split; [simpl; lia|]. split; [apply Forall2_cons; split; [exact two_frames_list|by apply Forall2_nil]|].
    intros ps ->%list_elem_of_singleton. split; [simpl; lia|]. intros p [->|[->|[]%elem_of_nil]%elem_of_cons]%elem_of_cons; eexists; split; reflexivity. }
  assert (Hs : seen (hostHeap 8) two_frames two_mirrored [16; 32]).
  { split; [|intros [?|[?|[]%elem_of_nil]%elem_of_cons]%elem_of_cons; lia]. intros p fr Hp. unfold two_frames in Hp. rewrite !lookup_insert_Some, lookup_empty in Hp.
    destruct Hp as [[<- <-]|[_ [[<- <-]|[_ [=]]]]]; reflexivity. }
  split.
  - destruct (hierarchy_visits 2 2 (hostHeap 8) two_frames two_mirrored [(view, [[16; 32]])] f [] LParticle Hl Hs) as [H _]; [done|]. exact H.
  - destruct (hierarchy_visits 2 2 (hostHeap 8) two_frames two_mirrored [(view, [[16; 32]])] f [] LFrame Hl Hs) as (_ & H & _); [done|].
    destruct (H view [[16; 32]]) as [Hf _]; [by left|done|]. exact Hf.
Defined.
End witness.
