(* ===== verification/ParticleLaunch.v ===== *)
(** * Particle bodies

    The effect of [launchForEach(levels::particle, ...)] (LaunchForEach.hpp) when the
    body rewrites its particle: the calls of Launch.v are executed one by one on the
    heap of frames.  The bodies of the simulation never write the multiMask, so that
    the liveness tests of a launch do not depend on its calls. *)
From Stdlib Require Import ZArith Lia.
From stdpp Require Import base sets list numbers gmap.
From S2P Require Import Prelude Scalar Topology Aabb FrameList Lockstep Regions Scan FrameIndex Launch.

Section particles.
Context {T : Type} `{Scalar T}.
Implicit Types (h : heap T) (f : Particle T -> Particle T).

(** [body(worker, particle)] at slot [s] of the frame at [p]. *)
Definition call_particle f (call : Z * option nat) (h : heap T) : option (heap T) :=
  match call with
  | (p, Some s) => fr ← h !! p; q ← slots fr !! s; Some (<[p := set_slots (<[s := f q]> (slots fr)) fr]> h)
  | (_, None) => None
  end.

Fixpoint run_calls f (calls : list (Z * option nat)) (h : heap T) : option (heap T) :=
  match calls with
  | [] => Some h
  | c :: calls => h' ← call_particle f c h; run_calls f calls h'
  end.

(** The launch of a particle body. *)
Definition launchForEachParticle (cfg : ForEachConfig) (frameSize : nat) f (pr : PRBuffer T)
    (ix : FrameIndexBuffer) (ord : nat -> list nat) (h : heap T) : option (heap T) :=
  calls ← launchForEach cfg TargetParticle frameSize h pr ix ord;
  run_calls f calls h.

(** ** What a launch promises *)

Definition live_map f (q : Particle T) : Particle T := if occupied q then f q else q.
Definition frame_live_map f (fr : Frame T) : Frame T := set_slots (map (live_map f) (slots fr)) fr.

(** The body has been applied to the live particles of the frames [ps]. *)
Definition bodies_applied f (ps : list Z) (h h' : heap T) : Prop :=
  forall p, h' !! p = if decide (p ∈ ps) then frame_live_map f <$> h !! p else h !! p.

(** The state after the calls [cs]: a slot has been rewritten exactly when it was called. *)
Definition slot_after f (cs : list (Z * option nat)) (p : Z) (s : nat) (q : Particle T) : Particle T :=
  if decide ((p, Some s) ∈ cs) then f q else q.

Lemma run_calls_spec f cs h :
  NoDup cs ->
  (forall c, c ∈ cs -> exists p s fr q, c = (p, Some s) /\ h !! p = Some fr /\ slots fr !! s = Some q) ->
  exists h', run_calls f cs h = Some h' /\
    forall p, h' !! p = (fun fr => set_slots (imap (slot_after f cs p) (slots fr)) fr) <$> h !! p.
Proof.
  revert h. induction cs as [|c cs IH]; intros h Hnd Hc.
  { exists h. split; [done|]. intros p. destruct (h !! p) as [[sl n nx]|]; [|done]. simpl. unfold set_slots. simpl.
    do 2 f_equal. apply list_eq. intros i. rewrite list_lookup_imap. by destruct (sl !! i). }
  apply NoDup_cons in Hnd as [Hnin Hnd].
  destruct (Hc c ltac:(by left)) as (p & s & fr & q & -> & Hp & Hq).
  cbn [run_calls call_particle]. rewrite Hp. cbn [mbind option_bind]. rewrite Hq. cbn [mbind option_bind].
  set (fr1 := set_slots (<[s := f q]> (slots fr)) fr).
  destruct (IH (<[p := fr1]> h) Hnd) as (h' & E & Hh').
  { intros c Hcin. destruct (Hc c ltac:(by right)) as (p2 & s2 & fr2 & q2 & -> & Hp2 & Hq2).
    destruct (decide (p2 = p)) as [->|Hne].
    - rewrite Hp in Hp2. injection Hp2 as <-. assert (s2 <> s) by (intros ->; done).
      exists p, s2, fr1, q2. rewrite lookup_insert_eq. split_and!; [done..|]. unfold fr1. simpl.
      by rewrite list_lookup_insert_ne.
    - exists p2, s2, fr2, q2. by rewrite lookup_insert_ne. }
  exists h'. split; [exact E|]. intros r. rewrite Hh'. destruct (decide (r = p)) as [->|Hne].
  - rewrite lookup_insert_eq, Hp. simpl. unfold set_slots. simpl. do 2 f_equal. apply list_eq. intros i.
    rewrite !list_lookup_imap. destruct (decide (i = s)) as [->|Hi].
    + rewrite list_lookup_insert_eq by (by eapply lookup_lt_Some). rewrite Hq. simpl. unfold slot_after.
      rewrite (decide_False (P := (p, Some s) ∈ cs)) by done. by rewrite decide_True by (by left).
    + rewrite list_lookup_insert_ne by done. destruct (slots fr !! i) as [x|]; [|done]. simpl. unfold slot_after.
      f_equal. destruct (decide ((p, Some i) ∈ cs)); [by rewrite decide_True by (by right)|].
      rewrite decide_False; [done|]. rewrite elem_of_cons. intros [[=]|?]; done.
  - rewrite lookup_insert_ne by done. destruct (h !! r) as [fr2|]; [|done]. simpl. f_equal. unfold set_slots. simpl.
    f_equal. apply list_eq. intros i. rewrite !list_lookup_imap. destruct (slots fr2 !! i) as [x|]; [|done].
    simpl. unfold slot_after. f_equal. destruct (decide ((r, Some i) ∈ cs)); [by rewrite decide_True by (by right)|].
    rewrite decide_False; [done|]. rewrite elem_of_cons. intros [[=]|?]; done.
Qed.

Lemma elem_of_owed h ps p o :
  (p, o) ∈ owed_calls TargetParticle h ps <->
  p ∈ ps /\ exists s fr q, o = Some s /\ h !! p = Some fr /\ slots fr !! s = Some q /\ occupied q = true.
Proof.
  unfold owed_calls. rewrite list_elem_of_bind. split.
  - intros (p' & Hin & Hp'). destruct (h !! p') as [fr|] eqn:Hfr; [|by apply not_elem_of_nil in Hin].
    apply list_elem_of_fmap in Hin as (s & [= -> ->] & Hs).
    apply list_elem_of_filter in Hs as [Hl _]. unfold slot_live in Hl.
    destruct (slots fr !! s) as [q|] eqn:Hq; [|done]. split; [done|]. by exists s, fr, q.
  - intros (Hp & s & fr & q & -> & Hfr & Hq & Ho). exists p. rewrite Hfr. split; [|done].
    apply list_elem_of_fmap. exists s. split; [done|]. apply list_elem_of_filter. unfold slot_live. rewrite Hq.
    split; [done|]. apply elem_of_seq. split; [lia|]. by apply lookup_lt_Some in Hq.
Qed.

Lemma owed_calls_NoDup h ps : NoDup ps -> NoDup (owed_calls TargetParticle h ps).
Proof.
  intros Hnd. unfold owed_calls. apply NoDup_bind; [| |done].
  - intros p p' [? ?] _ _ H1 H2. destruct (h !! p), (h !! p'); try by (apply not_elem_of_nil in H1 || apply not_elem_of_nil in H2).
    apply list_elem_of_fmap in H1 as (? & [= -> ->] & _), H2 as (? & [= <- _] & _). done.
  - intros p _. destruct (h !! p); [|constructor]. apply NoDup_fmap_2_strong; [by intros ?? _ _ [=]|].
    apply NoDup_filter, NoDup_seq.
Qed.

Lemma launchForEachParticle_spec cfg frameSize f pr ix ord h fss :
  valid_config (cfg_schedule cfg) (cfg_grid cfg) -> 0 < processThreads cfg ->
  (forall n, ord n ≡ₚ seq 0 n) ->
  index_fresh ix pr = true -> index_of_lists ix fss -> (Z.of_nat (length (concat fss)) < 2 ^ 31)%Z ->
  NoDup (concat fss) ->
  (forall p, p ∈ concat fss -> exists fr, h !! p = Some fr /\ length (slots fr) = frameSize) ->
  exists h', launchForEachParticle cfg frameSize f pr ix ord h = Some h' /\ bodies_applied f (concat fss) h h'.
Proof.
  intros Hv Hn Hord Hfr Hof Hmax Hnd Hps. unfold launchForEachParticle.
  pose proof (launchForEach_spec cfg TargetParticle frameSize h pr ix ord fss Hv Hn Hord (fun _ => Hof) Hmax Hps) as Hl.
  destruct (launchForEach _ _ _ _ _ _ _) as [calls|]; [|congruence]. destruct Hl as [_ Hc].
  cbn [mbind option_bind].
  destruct (run_calls_spec f calls h) as (h' & E & Hh').
  { rewrite Hc. by apply owed_calls_NoDup. }
  { intros [p o] Hin. rewrite Hc in Hin. apply elem_of_owed in Hin as (_ & s & fr & q & -> & ? & ? & _).
    by exists p, s, fr, q. }
  exists h'. split; [exact E|]. intros p. rewrite Hh'. destruct (h !! p) as [fr|] eqn:Hp; simpl; [|by destruct (decide _)].
  assert (Hin : forall s, (p, Some s) ∈ calls <-> p ∈ concat fss /\ exists q, slots fr !! s = Some q /\ occupied q = true).
  { intros s. rewrite Hc, elem_of_owed. split.
    - intros (Hi & s' & fr' & q & [= <-] & Hp' & Hq & Ho). rewrite Hp in Hp'. injection Hp' as <-. split; [done|by exists q].
    - intros (Hi & q & Hq & Ho). split; [done|]. by exists s, fr, q. }
  destruct (decide (p ∈ concat fss)) as [Hpin|Hpin]; f_equal.
  - unfold frame_live_map, set_slots. f_equal. apply list_eq. intros i. rewrite list_lookup_imap, list_lookup_fmap.
    destruct (slots fr !! i) as [q|] eqn:Hq; [|done]. simpl. f_equal. unfold slot_after, live_map.
    destruct (decide ((p, Some i) ∈ calls)) as [Hi|Hi].
    + apply Hin in Hi as (_ & q' & Hq' & Ho). rewrite Hq in Hq'. injection Hq' as <-. by rewrite Ho.
    + destruct (occupied q) eqn:Ho; [|done]. exfalso. apply Hi, Hin. split; [done|by exists q].
  - destruct fr as [sl n nx]. unfold set_slots. simpl in *. f_equal. apply list_eq. intros i.
    rewrite list_lookup_imap. destruct (sl !! i) as [q|] eqn:Hq; [|done]. simpl. f_equal. unfold slot_after.
    rewrite decide_False; [done|]. intros Hi. by apply Hin in Hi as [? _].
Qed.
End particles.
