(* ===== verification/Init.v ===== *)
(** * Creation of regions and particles

    Models spearhed/particles/initialization/InitRegions.hpp and InitParticles.hpp: the
    regions a setup asks for are created per species, and every frame of particles is
    allocated, filled and linked by a block of its own.  The blocks of a setup are a
    record of the functors the setup supplies; the memory allocator is the parameter of
    FrameList.  A kernel's blocks run in an arbitrary order, each as a whole: that
    pushes of racing blocks to one list all arrive is the subject of FramePush. *)
From Stdlib Require Import ZArith Lia.
From stdpp Require Import base sets list numbers gmap.
From S2P Require Import Prelude Scalar Topology Aabb FrameList Regions Scan IdProvider.

(** ** From a block to its frame *)

Record FrameLocation : Set := mkLocation {
  regionIdx : Z; localFrameIdx : Z; framesInRegion : Z
}.

(** [std::midpoint] of two ordered ints. *)
Definition midpoint (a b : Z) : Z := (a + (b - a) / 2)%Z.

(** The binary search of [findFrameLocation]; the interval at least halves, so its
    length is fuel enough. *)
Fixpoint search_region (fuel : nat) (scanBox : list Z) (blockIdx left right : Z) : option Z :=
  (if left <? right then
    match fuel with
    | O => None
    | S f =>
        let mid := midpoint left right in
        v ← zbox_read scanBox mid;
        if s32 v <=? blockIdx then search_region f scanBox blockIdx (mid + 1) right
        else search_region f scanBox blockIdx left mid
    end
  else Some left)%Z.

Definition findFrameLocation (blockIdx : Z) (scanBox : list Z) (numRegions : nat) : option FrameLocation :=
  regionIdx ← search_region numRegions scanBox blockIdx 0 (Z.of_nat numRegions);
  start ← (if (regionIdx =? 0)%Z then Some 0%Z else s32 <$> zbox_read scanBox (regionIdx - 1));
  end_ ← s32 <$> zbox_read scanBox regionIdx;
  Some (mkLocation regionIdx (blockIdx - start) (end_ - start)).

Section location.
Context {X : Type} (segs : list (list X)) (scanBox : list Z).
Context (Htotal : (Z.of_nat (length (concat segs)) < 2 ^ 31)%Z).
Context (Hscan : forall r, r < length segs -> scanBox !! r = Some (Z.of_nat (seg_off segs (S r)))).

Lemma scan_read r : r < length segs -> zbox_read scanBox (Z.of_nat r) = Some (Z.of_nat (seg_off segs (S r))).
Proof using Hscan. intros Hr. by rewrite zbox_read_nat, Hscan. Qed.

Lemma s32_seg_off r : s32 (Z.of_nat (seg_off segs r)) = Z.of_nat (seg_off segs r).
Proof using Htotal. apply s32_small. pose proof (seg_off_le segs r). lia. Qed.

(** The search ends at the first region whose frames end behind block [b]. *)
Lemma search_region_spec fuel b left right :
  left <= right <= length segs -> right - left <= fuel ->
  (forall r, r < left -> seg_off segs (S r) <= b) ->
  (forall r, right <= r < length segs -> b < seg_off segs (S r)) ->
  exists r, search_region fuel scanBox (Z.of_nat b) (Z.of_nat left) (Z.of_nat right) = Some (Z.of_nat r) /\
    r <= length segs /\ (forall r', r' < r -> seg_off segs (S r') <= b) /\
    (r < length segs -> b < seg_off segs (S r)).
Proof using Hscan Htotal.
  revert left right. induction fuel as [|fuel IH]; intros left right Hb Hf Hl Hr; cbn [search_region].
  - rewrite (proj2 (Z.ltb_ge _ _)) by lia. exists left. split_and!; [done|lia|done|].
    intros. apply Hr. lia.
  - destruct (Z.ltb_spec (Z.of_nat left) (Z.of_nat right)) as [Hlt|Hge].
    2:{ exists left. split_and!; [done|lia|done|]. intros. apply Hr. lia. }
    set (m := left + (right - left) / 2).
    assert (Hm : left <= m < right).
    { unfold m. pose proof (Nat.div_lt (right - left) 2 ltac:(lia) ltac:(lia)). lia. }
    replace (midpoint (Z.of_nat left) (Z.of_nat right)) with (Z.of_nat m)
      by (unfold midpoint, m; rewrite Nat2Z.inj_add, Nat2Z.inj_div, Nat2Z.inj_sub by lia; done).
    rewrite scan_read by lia. cbn [mbind option_bind]. rewrite s32_seg_off.
    destruct (Z.leb_spec (Z.of_nat (seg_off segs (S m))) (Z.of_nat b)) as [Hle|Hgt].
    + replace (Z.of_nat m + 1)%Z with (Z.of_nat (S m)) by lia. apply IH; [lia|lia| |done].
      intros r Hr'. assert (seg_off segs (S r) <= seg_off segs (S m)) by (apply seg_off_mono; lia). lia.
    + apply IH; [lia|lia|done|]. intros r Hr'.
      assert (seg_off segs (S m) <= seg_off segs (S r)) by (apply seg_off_mono; lia). lia.
Qed.

(** Frame [l] of region [r] belongs to block [seg_off segs r + l]. *)
Lemma findFrameLocation_spec r seg l :
  segs !! r = Some seg -> l < length seg ->
  findFrameLocation (Z.of_nat (seg_off segs r + l)) scanBox (length segs) =
  Some (mkLocation (Z.of_nat r) (Z.of_nat l) (Z.of_nat (length seg))).
Proof using Hscan Htotal.
  intros Hseg Hl. pose proof (lookup_lt_Some _ _ _ Hseg) as Hr. pose proof (seg_off_S _ _ _ Hseg) as HS.
  destruct (search_region_spec (length segs) (seg_off segs r + l) 0 (length segs)) as (r' & Hs & Hle & Hlo & Hhi);
    [lia..|].
  assert (r' = r) as ->.
  { destruct (Nat.lt_trichotomy r' r) as [Hlt|[->|Hgt]]; [exfalso|done|exfalso].
    - specialize (Hhi ltac:(lia)). pose proof (seg_off_mono segs (S r') r ltac:(lia)). lia.
    - specialize (Hlo r ltac:(lia)). lia. }
  unfold findFrameLocation. change (Z.of_nat 0) with 0%Z in Hs. rewrite Hs. cbn [mbind option_bind].
  assert (Hstart : (if (Z.of_nat r =? 0)%Z then Some 0%Z else s32 <$> zbox_read scanBox (Z.of_nat r - 1)) =
                   Some (Z.of_nat (seg_off segs r))).
  { destruct r as [|r]; [done|]. rewrite (proj2 (Z.eqb_neq _ _)) by lia.
    replace (Z.of_nat (S r) - 1)%Z with (Z.of_nat r) by lia. rewrite scan_read by lia. simpl. by rewrite s32_seg_off. }
  rewrite Hstart, scan_read by lia. cbn [mbind option_bind fmap option_fmap option_map].
  rewrite s32_seg_off. f_equal. f_equal; lia.
Qed.

Lemma findFrameLocation_out b :
  length (concat segs) <= b -> length scanBox = length segs -> findFrameLocation (Z.of_nat b) scanBox (length segs) = None.
Proof using Hscan Htotal.
  intros Hb Hlen.
  destruct (search_region_spec (length segs) b 0 (length segs)) as (r & Hs & Hle & Hlo & Hhi); [lia..|].
  unfold findFrameLocation. change (Z.of_nat 0) with 0%Z in Hs. rewrite Hs. cbn [mbind option_bind].
  assert (r = length segs) as ->.
  { destruct (decide (r = length segs)); [done|]. specialize (Hhi ltac:(lia)).
    pose proof (seg_off_le segs (S r)). lia. }
  rewrite (zbox_read_nat _ (length segs)), (lookup_ge_None_2 scanBox) by lia.
  destruct (Z.of_nat (length segs) =? 0)%Z; [done|]. by destruct (zbox_read scanBox (Z.of_nat (length segs) - 1)).
Qed.
End location.

(** ** Kernels *)

Section init.
Context {D : CartesianDim} {T : Type} `{Scalar T} `{AlpakaMath} {A : Type}.
Context (malloc : A -> Z * A) (frameSize : nat).

(** [SetupBlock], seen by one species: whether the block targets it, the volumes it
    appends, and the two functors applied to their arguments. *)
Record SetupBlock : Type := mkBlock {
  blockTargets : bool;
  addRegions : list (AABB T);
  numParticlesToCreate : ParticleRegion T -> Z;
  placeParticle : ParticleRegion T -> Z -> Particle T -> Particle T
}.

(** [CalculateFramesPerRegion], block [b]. *)
Definition CalculateFramesPerRegion (num : ParticleRegion T -> Z) (numRegions b : nat)
    (st : list (ParticleRegion T) * list Z) : option (list (ParticleRegion T) * list Z) :=
  if numRegions <=? b then Some st else
  particleRegion ← st.1 !! b;
  let frameList := setNumParticles (u32 (num particleRegion)) (particleFrameList particleRegion) in
  counts ← box_write st.2 b (u32 (numFrames (Z.of_nat frameSize) frameList));
  Some (<[b := set_frameList frameList particleRegion]> st.1, counts).

(** [InitZero] on every field but the mask and the identifier, and the identifier's store. *)
Definition init_zero (q : Particle T) : Particle T :=
  let z := broadcast (sofZ 0) in
  mkParticle (particleId q) (multiMask q) z (sofZ 0) z (sofZ 0) (sofZ 0) (sofZ 0) z (sofZ 0).

Definition set_particleId (i : Z) (q : Particle T) : Particle T :=
  mkParticle i (multiMask q) (relativePos q) (mass q) (velocity q) (density q) (smoothingLength q)
    (internalEnergy q) (dvdt q) (dudt q).

(** What [CreateParticlesInFrame] does to slot [idx]. *)
Definition create_slot (place : ParticleRegion T -> Z -> Particle T -> Particle T) (region : ParticleRegion T)
    (numToCreate frameOffset : Z) (idx : nat) (st : list (Particle T) * IdProvider)
    : option (list (Particle T) * IdProvider) :=
  q ← st.1 !! idx;
  let live := (Z.of_nat idx <? numToCreate)%Z in
  let q := set_multiMask (if live then 1 else 0)%Z q in
  if live then
    let '(i, idGen) := fetchInc st.2 in
    let q := place region (u32 (u32 (frameOffset * Z.of_nat frameSize) + Z.of_nat idx)) (set_particleId i (init_zero q)) in
    Some (<[idx := q]> st.1, idGen)
  else Some (<[idx := q]> st.1, st.2).

(** What the kernels of the initialisation change. *)
Record InitState : Type := mkInit {
  in_regions : list (ParticleRegion T);
  in_heap : heap T;
  in_alloc : A;
  in_ids : IdProvider
}.

(** [CreateParticlesInFrame] for the region at [r]: [raw] is the content of the fresh
    allocation and [sord] the order in which the slots reach the identifier counter. *)
Definition CreateParticlesInFrame (raw : Frame T) (sord : list nat)
    (place : ParticleRegion T -> Z -> Particle T -> Particle T) (r : nat) (numToCreate frameOffset : Z)
    (st : InitState) : option InitState :=
  region ← in_regions st !! r;
  '(framePtr, a, h, l) ← getEmptyFrame malloc raw (in_alloc st) (in_heap st) (particleFrameList region);
  let region := set_frameList l region in
  h ← heap_update h framePtr (set_liveParticles numToCreate);
  fr ← h !! framePtr;
  '(qs, ids) ← run_blocks sord (create_slot place region numToCreate frameOffset) (slots fr, in_ids st);
  Some (mkInit (<[r := region]> (in_regions st)) (<[framePtr := set_slots qs fr]> h) a ids).

(** [InitParticleRegions], block [b], with its two assertions. *)
Definition InitParticleRegions (raw : nat -> Frame T) (sord : nat -> list nat)
    (place : ParticleRegion T -> Z -> Particle T -> Particle T) (numRegions : nat) (scanBox : list Z)
    (b : nat) (st : InitState) : option InitState :=
  loc ← findFrameLocation (Z.of_nat b) scanBox numRegions;
  if negb (localFrameIdx loc <? framesInRegion loc)%Z then None else
  let r := Z.to_nat (regionIdx loc) in
  particleRegion ← in_regions st !! r;
  let particlesInLastFrame := getSizeLastFrame (Z.of_nat frameSize) (particleFrameList particleRegion) in
  if (particlesInLastFrame =? 0)%Z then None else
  let particlesInThisFrame :=
    if (localFrameIdx loc =? framesInRegion loc - 1)%Z then particlesInLastFrame else Z.of_nat frameSize in
  CreateParticlesInFrame (raw b) (sord b) place r particlesInThisFrame (u32 (localFrameIdx loc)) st.

(** ** Host code *)

(** [initBlockSlice]: the state's regions are the device box of the buffer. *)
Definition initBlockSlice (raw : nat -> Frame T) (junk : Z) (ord1 ord2 : nat -> list nat) (sord : nat -> list nat)
    (block : SetupBlock) (regionBegin numRegions : nat) (st : InitState) : option InitState :=
  if numRegions =? 0 then Some st else
  let slicedBox := drop regionBegin (in_regions st) in
  let counts := hd_alloc numRegions junk in
  '(slicedBox, dev) ← run_blocks (ord1 numRegions)
     (CalculateFramesPerRegion (numParticlesToCreate block) numRegions) (slicedBox, deviceData counts);
  let counts := deviceToHost (mkHD (hostData counts) dev) in
  '(totalBlocks, scanned) ← inclusiveScanHost (hostData counts) numRegions;
  let counts := hostToDevice (mkHD scanned (deviceData counts)) in
  let st1 := mkInit slicedBox (in_heap st) (in_alloc st) (in_ids st) in
  st2 ← (if (0 <? totalBlocks)%Z
     then run_blocks (ord2 (Z.to_nat totalBlocks))
            (InitParticleRegions raw sord (placeParticle block) numRegions (deviceData counts)) st1
     else Some st1);
  Some (mkInit (take regionBegin (in_regions st) ++ in_regions st2) (in_heap st2) (in_alloc st2) (in_ids st2)).

(** The loop of [initSpecies] over the blocks; launch [k] draws its orders from
    [ord (2 * k)] and [ord (2 * k + 1)]. *)
Fixpoint initBlocks (raw : nat -> nat -> Frame T) (junk : Z) (ord : nat -> nat -> list nat)
    (sord : nat -> nat -> list nat) (k : nat) (blocks : list SetupBlock) (regionOffset : nat) (st : InitState)
    : option InitState :=
  match blocks with
  | [] => Some st
  | block :: blocks =>
      if blockTargets block then
        let numRegions := length (addRegions block) in
        st ← (if 0 <? numRegions
              then initBlockSlice (raw k) junk (ord (2 * k)) (ord (2 * k + 1)) (sord k) block regionOffset numRegions st
              else Some st);
        initBlocks raw junk ord sord (S k) blocks (regionOffset + numRegions) st
      else initBlocks raw junk ord sord (S k) blocks regionOffset st
  end.

(** The device half of a buffer after a kernel has written it. *)
Definition set_deviceBox (rs : list (ParticleRegion T)) (b : PRBuffer T) : PRBuffer T :=
  mkPRBuffer (pr_id b) ((fun buf => mkHD (hostData buf) rs) <$> pr_buffer b) (pr_size b) (topologyVersion b).

(** [InitParticles::initSpecies]; [shared] is what the DataConnector holds under the
    identifier of the species. *)
Definition initSpecies (raw : nat -> nat -> Frame T) (junk : Z) (ord : nat -> nat -> list nat)
    (sord : nat -> nat -> list nat) (blocks : list SetupBlock) (shared : option (PRBuffer T))
    (h : heap T) (a : A) (ids : IdProvider) : option (option (PRBuffer T) * heap T * A * IdProvider) :=
  match shared with
  | None => Some (None, h, a, ids)
  | Some prBuf =>
      st ← initBlocks raw junk ord sord 0 blocks 0 (mkInit (getDeviceDataBox prBuf) h a ids);
      Some (Some (bumpTopology (set_deviceBox (in_regions st) prBuf)), in_heap st, in_alloc st, in_ids st)
  end.

(** The volumes the blocks contribute to the species, in block order. *)
Definition gatherVolumes (blocks : list SetupBlock) : list (AABB T) :=
  foldl (fun out b => if blockTargets b then out ++ addRegions b else out) [] blocks.

(** [InitRegions::createSpecies]; [id] is the address of a new buffer and [raw] the
    content of fresh device memory. *)
Definition createSpecies (id : Z) (raw : ParticleRegion T) (blocks : list SetupBlock)
    (shared : option (PRBuffer T)) : option (option (PRBuffer T)) :=
  let volumes := gatherVolumes blocks in
  if existsb blockTargets blocks then
    let prBuf := match shared with Some b => b | None => mkPRBuffer id None 0 0 end in
    prBuf ← pr_pushAll (map (fun v => mkRegion v emptyFrameList) volumes) (create (length volumes) raw prBuf);
    Some (Some (pr_hostToDevice prBuf))
  else Some shared.
End init.
