(* ===== verification/InitLaws.v ===== *)
(** * What the initialisation creates

    The theorems about Init: the block-to-frame mapping is a bijection, and the
    initialisation of a species fills every region with exactly the particles the setup
    asked for, in frames of its own, each particle with an identifier of its own. *)
From Stdlib Require Import ZArith Lia.
From stdpp Require Import base sets list numbers gmap.
From S2P Require Import Prelude Scalar Topology Aabb FrameList Regions Scan IdProvider Init.

(** What the initialisation relies on from the memory allocator: while there is room
    it hands out addresses it has not handed out before. *)
Class FrameAllocator {A} (malloc : A -> Z * A) : Type := {
  reserved : A -> Z -> Prop;
  room : A -> nat;
  alloc_ok : forall a, 0 < room a -> exists p a', allocateMemory malloc a = (p, a') /\ p <> 0%Z /\
    ~ reserved a p /\ room a <= S (room a') /\ reserved a' p /\ forall q, reserved a q -> reserved a' q
}.

(** What it relies on from the functors of a setup block: they look at the volume of
    the region and not at its list, and a placed particle stays alive. *)
Class BlockLaws {D : CartesianDim} {T} `{Scalar T} (bl : SetupBlock (T := T)) : Prop := {
  num_bounds R : (0 <= numParticlesToCreate bl R < 2 ^ 32)%Z;
  num_volume R l : numParticlesToCreate bl (set_frameList l R) = numParticlesToCreate bl R;
  place_volume R l k q : placeParticle bl (set_frameList l R) k q = placeParticle bl R k q;
  place_occupied R k q : occupied (placeParticle bl R k q) = occupied q
}.

Lemma filter_below n m : n <= m -> filter (fun i => (Z.of_nat i < Z.of_nat n)%Z) (seq 0 m) = seq 0 n.
Proof.
  intros Hn. replace m with (n + (m - n)) by lia. rewrite seq_app, list.filter_app.
  rewrite list_filter_all, list_filter_none, app_nil_r; [done|intros i Hi%elem_of_seq; lia..].
Qed.

Section laws.
Context {D : CartesianDim} {T : Type} `{Scalar T} `{AlpakaMath} {A : Type}.
Context (malloc : A -> Z * A) `{!FrameAllocator malloc}.
Context (frameSize : nat) (Hfs : (0 < Z.of_nat frameSize < 2 ^ 32)%Z).

(** ** Slots *)

(** The particle handed to the placement functor. *)
Definition fresh_particle (i : Z) : Particle T :=
  let z := broadcast (sofZ 0) in
  mkParticle i 1 z (sofZ 0) z (sofZ 0) (sofZ 0) (sofZ 0) z (sofZ 0).

Lemma init_zero_fresh i (q : Particle T) :
  set_particleId i (init_zero (set_multiMask 1 q)) = fresh_particle i.
Proof. done. Qed.

Section frame.
Context (bl : SetupBlock (T := T)) `{!BlockLaws bl} (region : ParticleRegion T) (c off : Z).

Definition slot_index (i : nat) : Z := u32 (u32 (off * Z.of_nat frameSize) + Z.of_nat i).

Definition slot_result (f : nat -> Z) (i : nat) (q : Particle T) : Particle T :=
  if (Z.of_nat i <? c)%Z then placeParticle bl region (slot_index i) (fresh_particle (f i))
  else set_multiMask 0 q.

Lemma create_slot_step i qs ids q :
  qs !! i = Some q ->
  create_slot frameSize (placeParticle bl) region c off i (qs, ids) =
  if (Z.of_nat i <? c)%Z
  then Some (<[i := placeParticle bl region (slot_index i) (fresh_particle (fetchInc ids).1)]> qs, (fetchInc ids).2)
  else Some (<[i := set_multiMask 0 q]> qs, ids).
Proof using Type. intros Hq. unfold create_slot. cbn [fst snd]. rewrite Hq. simpl. by destruct (Z.of_nat i <? c)%Z. Qed.

Lemma create_slots ord qs ids :
  NoDup ord -> (forall i, i ∈ ord -> i < length qs) ->
  exists f qs', run_blocks ord (create_slot frameSize (placeParticle bl) region c off) (qs, ids) =
      Some (qs', (fetchMany (length (filter (fun i => (Z.of_nat i < c)%Z) ord)) ids).2) /\
    length qs' = length qs /\
    map f (filter (fun i => (Z.of_nat i < c)%Z) ord) =
      (fetchMany (length (filter (fun i => (Z.of_nat i < c)%Z) ord)) ids).1 /\
    forall i, qs' !! i = if decide (i ∈ ord) then slot_result f i <$> qs !! i else qs !! i.
Proof using Type.
  revert qs ids. induction ord as [|i ord IH]; intros qs ids Hnd Hin.
  { exists (fun _ => 0%Z), qs. split_and!; [done..|]. intros i. by rewrite decide_False by (apply not_elem_of_nil). }
  apply NoDup_cons in Hnd as [Hi Hnd]. assert (Hhere : i ∈ i :: ord) by (by left).
  destruct (lookup_lt_is_Some_2 qs i) as [q Hq]; [apply Hin; by left|].
  cbn [run_blocks]. rewrite (create_slot_step i qs ids q Hq), filter_cons. destruct (Z.ltb_spec (Z.of_nat i) c) as [Hlt|Hge].
  - rewrite decide_True by done. destruct (fetchInc ids) as [id ids1] eqn:Ef. cbn [mbind option_bind fst snd].
    set (q1 := placeParticle bl region _ (fresh_particle _)).
    destruct (IH (<[i:=q1]> qs) ids1 Hnd) as (f & qs' & -> & Hl & Hm & Hqs).
    { intros j Hj. rewrite length_insert. apply Hin. by right. }
    cbn [length fetchMany map]. rewrite Ef.
    destruct (fetchMany (length (filter _ ord)) ids1) as [l ids2] eqn:Em. cbn [fst snd] in *.
    exists (fun j => if decide (j = i) then id else f j), qs'. split_and!; [done|by rewrite Hl, length_insert| |].
    + rewrite decide_True by done. f_equal. rewrite <- Hm. apply map_ext_in.
      intros j Hj%list_elem_of_In. rewrite decide_False; [done|]. intros ->.
      by apply list_elem_of_filter in Hj as [_ ?].
    + intros j. rewrite Hqs. unfold slot_result. destruct (decide (j = i)) as [->|Hne].
      * rewrite decide_False by done. rewrite (decide_True _ _ Hhere).
        rewrite list_lookup_insert_eq by (eapply lookup_lt_Some; eauto). rewrite Hq. simpl.
        by rewrite (proj2 (Z.ltb_lt _ _) Hlt).
      * rewrite list_lookup_insert_ne by done.
        destruct (decide (j ∈ ord)); [rewrite decide_True; [done|by right]|].
        rewrite decide_False; [done|]. by rewrite not_elem_of_cons.
  - rewrite decide_False by lia. cbn [mbind option_bind].
    destruct (IH (<[i:=set_multiMask 0 q]> qs) ids Hnd) as (f & qs' & -> & Hl & Hm & Hqs).
    { intros j Hj. rewrite length_insert. apply Hin. by right. }
    exists f, qs'. split_and!; [done|by rewrite Hl, length_insert|done|].
    intros j. rewrite Hqs. unfold slot_result. destruct (decide (j = i)) as [->|Hne].
    + rewrite decide_False by done. rewrite (decide_True _ _ Hhere).
      rewrite list_lookup_insert_eq by (eapply lookup_lt_Some; eauto). rewrite Hq. simpl.
      by rewrite (proj2 (Z.ltb_ge _ _) Hge).
    + rewrite list_lookup_insert_ne by done.
      destruct (decide (j ∈ ord)); [rewrite decide_True; [done|by right]|].
      rewrite decide_False; [done|]. by rewrite not_elem_of_cons.
Qed.

(** The particle placed at index [k] of a region with identifier [i]. *)
Definition placed (k : nat) (i : Z) : Particle T := placeParticle bl region (Z.of_nat k) (fresh_particle i).

(** All slots of a frame: the first [n] of them hold the particles of indices
    [off * frameSize ...], the others are dead. *)
Lemma create_frame n ord qs ids :
  c = Z.of_nat n -> n <= frameSize -> length qs = frameSize -> ord ≡ₚ seq 0 frameSize ->
  (0 <= off)%Z -> (off * Z.of_nat frameSize + c < 2 ^ 32)%Z ->
  exists lids qs', run_blocks ord (create_slot frameSize (placeParticle bl) region c off) (qs, ids) =
      Some (qs', (fetchMany n ids).2) /\ length qs' = frameSize /\
    lids ≡ₚ (fetchMany n ids).1 /\ length lids = n /\
    filter (fun q => occupied q = true) qs' =
      zip_with (fun k i => placed k i) (seq (Z.to_nat off * frameSize) n) lids.
Proof using BlockLaws0.
  intros Hc Hn Hl Hord Hoff Hsm.
  destruct (create_slots ord qs ids) as (f & qs' & Hrun & Hl' & Hids & Hqs).
  { rewrite Hord. apply list.NoDup_seq. } { intros i. rewrite Hord, elem_of_seq. lia. }
  assert (Hlive : filter (fun i => (Z.of_nat i < c)%Z) ord ≡ₚ seq 0 n).
  { rewrite Hord, Hc, filter_below by done. done. }
  rewrite (Permutation_length Hlive), length_seq in Hrun, Hids.
  exists (map f (seq 0 n)), qs'. split_and!; [done|lia| |by rewrite length_map, length_seq|].
  { rewrite <- Hids. by apply Permutation_map. }
  assert (Hsplit : qs' = map (fun k => placed (Z.to_nat off * frameSize + k) (f k)) (seq 0 n) ++
                         map (set_multiMask 0) (drop n qs)).
  { apply list_eq. intros i. rewrite Hqs. destruct (decide (i ∈ ord)) as [Hi|Hi].
    - rewrite Hord, elem_of_seq in Hi. destruct (lookup_lt_is_Some_2 qs i) as [q Hq]; [lia|]. rewrite Hq. simpl.
      unfold slot_result. destruct (Z.ltb_spec (Z.of_nat i) c).
      + rewrite lookup_app_l by (rewrite length_map, length_seq; lia).
        rewrite list_lookup_fmap, lookup_seq_lt by lia. simpl. unfold placed, slot_index. do 2 f_equal.
        rewrite u32_add_l, u32_small by lia. lia.
      + rewrite lookup_app_r by (rewrite length_map, length_seq; lia).
        rewrite length_map, length_seq, list_lookup_fmap, lookup_drop.
        replace (n + (i - n)) with i by lia. by rewrite Hq.
    - rewrite Hord, elem_of_seq in Hi. rewrite (lookup_ge_None_2 qs) by lia. symmetry.
      apply lookup_ge_None. rewrite length_app, !length_map, length_seq, length_drop. lia. }
  rewrite Hsplit, list.filter_app.
  rewrite (list_filter_none _ (map _ (drop n qs))), app_nil_r by (by intros q (q0 & -> & _)%list_elem_of_fmap).
  clear -BlockLaws0. generalize (Z.to_nat off * frameSize) as m. intros m.
  assert (Hg : forall s, filter (fun q => occupied q = true) (map (fun k => placed (m + k) (f k)) (seq s n)) =
            zip_with (fun k i => placed k i) (seq (m + s) n) (map f (seq s n))).
  { induction n as [|n IH]; intros s; [done|]. cbn [seq map zip_with]. rewrite filter_cons_True.
    - f_equal. rewrite IH. by rewrite Nat.add_succ_r.
    - unfold placed. by rewrite place_occupied. }
  by rewrite Hg, Nat.add_0_r.
Qed.
End frame.

(** ** Frames *)

(** The frame holds the particles of indices [first ... first + n - 1] of region [R], with
    the identifiers [ids]. *)
Definition frame_holds (bl : SetupBlock (T := T)) (R : ParticleRegion T) (first n : nat) (ids : list Z)
    (fr : Frame T) : Prop :=
  length (slots fr) = frameSize /\ liveParticles fr = Z.of_nat n /\ length ids = n /\
  frame_live fr = zip_with (fun k i => placed bl R k i) (seq first n) ids.

Lemma frame_holds_payload bl R first n ids fr fr' :
  payload fr = payload fr' -> frame_holds bl R first n ids fr -> frame_holds bl R first n ids fr'.
Proof using Type. unfold frame_holds, frame_live, payload. by intros [= -> ->]. Qed.

(** The heap holds no frame the allocator does not know of. *)
Definition heap_reserved (a : A) (h : heap T) : Prop := forall q, is_Some (h !! q) -> reserved a q.

Section block.
Context (bl : SetupBlock (T := T)) `{!BlockLaws bl}.

Lemma placed_set_list l R k i : placed bl (set_frameList l R) k i = placed bl R k i.
Proof using BlockLaws0. unfold placed. apply place_volume. Qed.

Lemma create_in_frame raw sord r R L ps off n st :
  in_regions st !! r = Some (set_frameList L R) -> is_list (in_heap st) L ps ->
  heap_reserved (in_alloc st) (in_heap st) -> 0 < room (in_alloc st) ->
  length (slots raw) = frameSize -> sord ≡ₚ seq 0 frameSize -> n <= frameSize ->
  (Z.of_nat (off * frameSize + n) < 2 ^ 32)%Z ->
  exists p lids L' h' a',
    CreateParticlesInFrame malloc frameSize raw sord (placeParticle bl) r (Z.of_nat n) (Z.of_nat off) st =
      Some (mkInit (<[r := set_frameList L' R]> (in_regions st)) h' a' (fetchMany n (in_ids st)).2) /\
    in_heap st !! p = None /\ is_list h' L' (ps ++ [p]) /\ numParticles L' = numParticles L /\
    (exists fr, h' !! p = Some fr /\ frame_holds bl R (off * frameSize) n lids fr) /\
    lids ≡ₚ (fetchMany n (in_ids st)).1 /\
    (forall q, q <> p -> payload <$> h' !! q = payload <$> in_heap st !! q) /\
    (forall q, q <> p -> q ∉ ps -> h' !! q = in_heap st !! q) /\
    heap_reserved a' h' /\ room (in_alloc st) <= S (room a').
Proof using BlockLaws0 Hfs.
  intros HR Hl Hres Hroom Hraw Hsord Hn Hsm. unfold CreateParticlesInFrame. rewrite HR. cbn [mbind option_bind].
  destruct (alloc_ok (in_alloc st) Hroom) as (p & a' & Ha & Hp & Hnr & Hroom' & Hrp & Hrmono).
  assert (Hnone : in_heap st !! p = None).
  { destruct (in_heap st !! p) eqn:E; [|done]. destruct Hnr. apply Hres. by rewrite E. }
  destruct (getEmptyFrame_spec malloc raw _ _ L ps p a' Hl Ha Hp Hnone) as (h1 & L' & Hget & HL' & Hnum & Hpay & Hun).
  change (particleFrameList (set_frameList L R)) with L. rewrite Hget. cbn [mbind option_bind].
  change (set_frameList L' (set_frameList L R)) with (set_frameList L' R).
  pose proof (Hpay p) as Hp1. rewrite lookup_insert_eq in Hp1.
  destruct (h1 !! p) as [f1|] eqn:Ef1; [|discriminate]. injection Hp1 as Hs1 Hlv1.
  unfold heap_update. rewrite Ef1. cbn [mbind option_bind]. rewrite lookup_insert_eq. cbn [mbind option_bind].
  destruct (create_frame bl (set_frameList L' R) (Z.of_nat n) (Z.of_nat off) n sord (slots f1) (in_ids st))
    as (lids & qs & Hrun & Hlen & Hids & Hlids & Hlive); [done|done| |done|lia|lia|].
  { rewrite Hs1. simpl. by rewrite length_map. }
  change (slots (set_liveParticles (Z.of_nat n) f1)) with (slots f1). rewrite Hrun. cbn [mbind option_bind].
  rewrite insert_insert_eq. exists p, lids, L'. do 2 eexists. split; [done|].
  assert (Hsome : forall q, is_Some (h1 !! q) -> reserved a' q).
  { intros q Hq%(same_payload_dom _ _ q Hpay). destruct (decide (q = p)) as [->|Hne]; [done|].
    rewrite lookup_insert_ne in Hq by done. by apply Hrmono, Hres. }
  split_and!; [done| |done| |done| | | |done].
  - eapply is_list_ext; [|exact HL']. intros q _. destruct (decide (q = p)) as [->|Hne].
    + by rewrite lookup_insert_eq, Ef1.
    + by rewrite lookup_insert_ne.
  - eexists. rewrite lookup_insert_eq. split; [done|]. split_and!; [done|done|done|].
    unfold frame_live. simpl. rewrite Hlive, Nat2Z.id. apply zip_with_ext; [intros; apply placed_set_list|done|done].
  - intros q Hq. rewrite lookup_insert_ne by done. rewrite (Hpay q). by rewrite lookup_insert_ne.
  - intros q Hq Hqs. rewrite lookup_insert_ne by done. by apply Hun.
  - intros q Hq. destruct (decide (q = p)) as [->|Hne]; [done|]. rewrite lookup_insert_ne in Hq by done. by apply Hsome.
Qed.
End block.

(** ** The frames of a region *)

Section slice.
Context (bl : SetupBlock (T := T)) `{!BlockLaws bl}.

(** How many particles and frames a region of volume [v] gets, and how many of the
    particles are in frame [l]. *)
Definition nparts (v : AABB T) : nat := Z.to_nat (numParticlesToCreate bl (mkRegion v emptyFrameList)).
Definition filled_list (v : AABB T) : FrameList := setNumParticles (Z.of_nat (nparts v)) emptyFrameList.
Definition nframes (v : AABB T) : nat := Z.to_nat (numFrames (Z.of_nat frameSize) (filled_list v)).
Definition nlive (v : AABB T) (l : nat) : nat :=
  if l =? nframes v - 1 then nparts v - (nframes v - 1) * frameSize else frameSize.

Lemma nparts_bounds v : (0 <= Z.of_nat (nparts v) < 2 ^ 32)%Z.
Proof using BlockLaws0 Hfs. unfold nparts. pose proof (num_bounds (mkRegion v emptyFrameList)). lia. Qed.

Lemma nframes_counts v :
  Z.of_nat (nframes v) = numFrames (Z.of_nat frameSize) (filled_list v) /\
  (nparts v = 0 -> nframes v = 0) /\
  (0 < nframes v -> getSizeLastFrame (Z.of_nat frameSize) (filled_list v) = Z.of_nat (nlive v (nframes v - 1)) /\
     1 <= nlive v (nframes v - 1) <= frameSize /\
     (nframes v - 1) * frameSize + nlive v (nframes v - 1) = nparts v).
Proof using BlockLaws0 Hfs.
  pose proof (nparts_bounds v) as Hb.
  destruct (frame_counts_spec (Z.of_nat frameSize) (filled_list v) ltac:(lia) Hb) as [Hz0 H1]. simpl in Hz0, H1.
  unfold nlive. rewrite Nat.eqb_refl. unfold nframes in *.
  destruct (decide (nparts v = 0)) as [E|E].
  - destruct (Hz0 ltac:(lia)) as [-> _]. repeat split; lia.
  - destruct (H1 ltac:(lia)) as [Hsum Hlast]. assert (1 <= numFrames (Z.of_nat frameSize) (filled_list v))%Z by nia.
    split_and!; [lia|lia|]. intros _. nia.
Qed.

Lemma nlive_bounds v l : l < nframes v -> 1 <= nlive v l <= frameSize /\ l * frameSize + nlive v l <= nparts v.
Proof using BlockLaws0 Hfs.
  intros Hl. destruct (nframes_counts v) as (_ & _ & Hc). destruct (Hc ltac:(lia)) as (_ & Hb & Hs).
  unfold nlive at 1 2 3. destruct (Nat.eqb_spec l (nframes v - 1)) as [->|Hne].
  - unfold nlive in Hb, Hs. rewrite Nat.eqb_refl in Hb, Hs. lia.
  - assert ((l + 1) * frameSize <= (nframes v - 1) * frameSize) by (apply Nat.mul_le_mono_r; lia). lia.
Qed.

(** The frames of a region hold its indices, in order. *)
Lemma nlive_indices v :
  concat (map (fun l => seq (l * frameSize) (nlive v l)) (seq 0 (nframes v))) = seq 0 (nparts v).
Proof using BlockLaws0 Hfs.
  destruct (nframes_counts v) as (_ & _ & Hc).
  assert (Hfull : forall k, k < nframes v ->
    concat (map (fun l => seq (l * frameSize) (nlive v l)) (seq 0 k)) = seq 0 (k * frameSize)).
  { induction k as [|k IH]; intros Hk; [done|]. rewrite seq_S, map_app, concat_app, IH by lia. simpl.
    rewrite app_nil_r. unfold nlive. rewrite (proj2 (Nat.eqb_neq _ _)) by lia.
    rewrite <- seq_app. f_equal. lia. }
  destruct (nframes v) as [|m] eqn:Em.
  - destruct (decide (nparts v = 0)) as [->|Hn]; [done|exfalso].
    destruct (nframes_counts v) as (Hz & _ & _). destruct (frame_counts_spec (Z.of_nat frameSize) (filled_list v))
      as [_ H1]; [lia|apply nparts_bounds|]. simpl in H1. destruct (H1 ltac:(lia)) as [H2 H3]. rewrite Em in Hz. nia.
  - destruct (Hc ltac:(lia)) as (_ & Hb & Hs). replace (S m - 1) with m in * by lia.
    rewrite seq_S, map_app, concat_app, Hfull by lia. simpl. rewrite app_nil_r, <- Hs.
    by rewrite seq_app.
Qed.

(** The live particles of a list of frames. *)
Definition frames_live (h : heap T) (ps : list Z) : list (Particle T) :=
  ps ≫= fun p => match h !! p with Some fr => frame_live fr | None => [] end.

(** What the initialisation promises for a region of volume [v]: region [R] has a well-formed
    list of [nframes v] frames [ps], and their live particles are those the placement functor
    makes of the indices [0 .. nparts v - 1] and the identifiers [ids]. *)
Definition region_filled (h : heap T) (v : AABB T) (R : ParticleRegion T) (ps : list Z) (ids : list Z) : Prop :=
  volume R = v /\ numParticles (particleFrameList R) = Z.of_nat (nparts v) /\
  is_list h (particleFrameList R) ps /\ length ps = nframes v /\ length ids = nparts v /\
  (forall p, p ∈ ps -> exists fr, h !! p = Some fr /\ length (slots fr) = frameSize) /\
  frames_live h ps ≡ₚ zip_with (fun k i => placed bl (mkRegion v emptyFrameList) k i) (seq 0 (nparts v)) ids.

Lemma region_filled_ext h h' v R ps ids :
  (forall p, p ∈ ps -> h' !! p = h !! p) -> region_filled h v R ps ids -> region_filled h' v R ps ids.
Proof using Type.
  intros E (Hv & Hn & Hl & Hlp & Hli & Hsz & Hlive). split_and!; [done|done| |done|done| |].
  - eapply is_list_ext; [|exact Hl]. intros q Hq. by rewrite E.
  - intros p Hp. rewrite E by done. auto.
  - rewrite <- Hlive. unfold frames_live. clear -E. induction ps as [|p ps IH]; [done|].
    rewrite !bind_cons, E by (by left). f_equiv. apply IH. intros. apply E. by right.
Qed.

(** ** The launch over the frames of a slice *)

Section launch.
Context (vols : list (AABB T)).

(** The frames of the regions, one block each. *)
Definition block_segs : list (list nat) := map (fun v => seq 0 (nframes v)) vols.

Definition in_region (r b : nat) : Prop := seg_off block_segs r <= b < seg_off block_segs (S r).

#[local] Instance in_region_dec r b : Decision (in_region r b).
Proof. unfold in_region. apply _. Defined.

Lemma block_segs_lookup r v : vols !! r = Some v -> block_segs !! r = Some (seq 0 (nframes v)).
Proof using Type. intros Hv. unfold block_segs. by rewrite list_lookup_fmap, Hv. Qed.

(** Block [b] fills frame [l] of region [r], of volume [v]. *)
Definition block_at (b r : nat) (v : AABB T) (l : nat) : Prop :=
  vols !! r = Some v /\ l < nframes v /\ b = seg_off block_segs r + l.

Lemma block_exists b : b < length (concat block_segs) -> exists r v l, block_at b r v l.
Proof using Type.
  intros (r & s & l & Hs & Hl & ->)%seg_locate. unfold block_segs in Hs at 1. rewrite list_lookup_fmap in Hs.
  destruct (vols !! r) as [v|] eqn:Hv; [|discriminate]. injection Hs as <-. rewrite length_seq in Hl.
  by exists r, v, l.
Qed.

Lemma block_at_unique b r v l r' v' l' : block_at b r v l -> block_at b r' v' l' -> r = r' /\ v = v' /\ l = l'.
Proof using Type.
  intros (Hv & Hl & Hb) (Hv' & Hl' & Hb'). subst b.
  destruct (seg_unique block_segs r r' (seq 0 (nframes v)) (seq 0 (nframes v')) l l') as [-> ->];
    [by apply block_segs_lookup..|by rewrite length_seq|by rewrite length_seq|done|].
  split_and!; congruence.
Qed.

Lemma block_in_region b r v l r' : block_at b r v l -> in_region r' b <-> r' = r.
Proof using Type.
  intros (Hv & Hl & ->). pose proof (seg_off_S _ _ _ (block_segs_lookup _ _ Hv)) as HS.
  rewrite length_seq in HS. unfold in_region. split; [|intros ->; lia]. intros Hr.
  destruct (Nat.lt_trichotomy r' r) as [Hlt|[->|Hgt]]; [exfalso|done|exfalso].
  - pose proof (seg_off_mono block_segs (S r') r Hlt). lia.
  - pose proof (seg_off_mono block_segs (S r) r' Hgt). lia.
Qed.

(** What has been created when the blocks [done] have run: [ptr b] is the frame of block [b]
    and [bids b] the identifiers it fetched. *)
Record launched (h0 : heap T) (a0 : A) (ids0 : IdProvider) (tail : list (ParticleRegion T))
    (ptr : nat -> Z) (bids : nat -> list Z) (done : list nat) (st : InitState (T := T) (A := A)) : Prop := {
  la_regions : forall r v, vols !! r = Some v -> exists L, in_regions st !! r = Some (mkRegion v L) /\
    numParticles L = Z.of_nat (nparts v) /\ is_list (in_heap st) L (map ptr (filter (in_region r) done));
  la_tail : drop (length vols) (in_regions st) = tail;
  la_frames : forall b r v l, b ∈ done -> block_at b r v l -> exists fr, in_heap st !! ptr b = Some fr /\
    frame_holds bl (mkRegion v emptyFrameList) (l * frameSize) (nlive v l) (bids b) fr;
  la_below : forall b, b ∈ done -> b < length (concat block_segs);
  la_distinct : NoDup (map ptr done);
  la_fresh : forall b, b ∈ done -> h0 !! ptr b = None;
  la_old : forall q, is_Some (h0 !! q) -> in_heap st !! q = h0 !! q;
  la_reserved : heap_reserved (in_alloc st) (in_heap st);
  la_room : room a0 <= room (in_alloc st) + length done;
  la_next : in_ids st = (fetchMany (length (done ≫= bids)) ids0).2;
  la_ids : done ≫= bids ≡ₚ (fetchMany (length (done ≫= bids)) ids0).1
}.

Context (scanBox : list Z) (Htotal : (Z.of_nat (length (concat block_segs)) < 2 ^ 31)%Z).
Context (Hscan : forall r, r < length block_segs -> scanBox !! r = Some (Z.of_nat (seg_off block_segs (S r)))).

(** A block reduces to the creation of its frame. *)
Lemma InitParticleRegions_eq raw sord b r v l L st :
  block_at b r v l -> in_regions st !! r = Some (mkRegion v L) -> numParticles L = Z.of_nat (nparts v) ->
  InitParticleRegions malloc frameSize raw sord (placeParticle bl) (length vols) scanBox b st =
  CreateParticlesInFrame malloc frameSize (raw b) (sord b) (placeParticle bl) r (Z.of_nat (nlive v l)) (Z.of_nat l) st.
Proof using BlockLaws0 Hfs Htotal Hscan.
  intros (Hv & Hl & ->) HR HL. pose proof (block_segs_lookup _ _ Hv) as Hseg. unfold InitParticleRegions.
  replace (length vols) with (length block_segs) by (unfold block_segs; by rewrite length_map).
  rewrite (findFrameLocation_spec block_segs scanBox Htotal Hscan r _ l Hseg) by (by rewrite length_seq).
  rewrite length_seq. cbn [mbind option_bind localFrameIdx framesInRegion regionIdx].
  rewrite (proj2 (Z.ltb_lt _ _)) by lia. cbn [negb]. rewrite Nat2Z.id, HR. cbn [mbind option_bind particleFrameList].
  destruct (nframes_counts v) as (_ & _ & Hc). destruct (Hc ltac:(lia)) as (Hlast & Hb & _).
  assert (HgL : getSizeLastFrame (Z.of_nat frameSize) L = Z.of_nat (nlive v (nframes v - 1))).
  { rewrite <- Hlast. unfold getSizeLastFrame. by rewrite HL. }
  rewrite HgL, (proj2 (Z.eqb_neq _ _)) by lia.
  rewrite (u32_small (Z.of_nat l)) by (pose proof (seg_bound _ _ _ Hseg) as Hsb; rewrite length_seq in Hsb; lia).
  f_equal. destruct (Z.eqb_spec (Z.of_nat l) (Z.of_nat (nframes v) - 1)).
  - do 2 f_equal. lia.
  - unfold nlive. by rewrite (proj2 (Nat.eqb_neq _ _)) by lia.
Qed.

Lemma launch_step h0 a0 ids0 tail raw sord ptr bids done b st :
  launched h0 a0 ids0 tail ptr bids done st -> b ∉ done -> b < length (concat block_segs) ->
  length done < room a0 -> length (slots (raw b)) = frameSize -> sord b ≡ₚ seq 0 frameSize ->
  exists st' ptr' bids',
    InitParticleRegions malloc frameSize raw sord (placeParticle bl) (length vols) scanBox b st = Some st' /\
    launched h0 a0 ids0 tail ptr' bids' (done ++ [b]) st'.
Proof using BlockLaws0 Hfs Htotal Hscan.
  intros [Hreg Htail Hfr Hbelow Hnd Hfresh Hold Hres Hroom Hnext Hids] Hb Hlt Hlen Hraw Hsord.
  destruct (block_exists b Hlt) as (r & v & l & Hat). pose proof Hat as (Hv & Hl & _).
  destruct (Hreg r v Hv) as (L & HR & HnL & HL).
  rewrite (InitParticleRegions_eq raw sord b r v l L st Hat HR HnL).
  destruct (nlive_bounds v l Hl) as [Hnl Hsum]. pose proof (nparts_bounds v).
  destruct (create_in_frame bl (raw b) (sord b) r (mkRegion v emptyFrameList) L
    (map ptr (filter (in_region r) done)) l (nlive v l) st)
    as (p & lids & L' & h' & a' & -> & Hnone & HL' & HnL' & (fr & Hfrp & Hholds) & Hlids & Hpay & Hun & Hres' & Hroom');
    [done|done|done|lia|done|done|lia|lia|].
  do 2 eexists. exists (upd b lids bids). split; [done|]. simpl.
  assert (Hne : forall b', b' ∈ done -> ptr b' <> p).
  { intros b' Hb' E. destruct (block_exists b' (Hbelow b' Hb')) as (r' & v' & l' & Hat').
    destruct (Hfr b' r' v' l' Hb' Hat') as (fr' & Hf & _). congruence. }
  assert (Hmap : forall d, (forall x, x ∈ d -> x ∈ done) -> map (upd b p ptr) d = map ptr d).
  { intros d Hd. apply map_upd. intros Hbd%Hd. done. }
  assert (Hfilt : forall r' x, x ∈ filter (in_region r') done -> x ∈ done)
    by (intros r' x Hx; by apply list_elem_of_filter in Hx as [_ ?]).
  assert (Hps : forall b', b' ∈ done -> ~ in_region r b' -> ptr b' ∉ map ptr (filter (in_region r) done)).
  { intros b' Hb' Hr' (b2 & E & Hb2)%list_elem_of_fmap. apply list_elem_of_filter in Hb2 as [Hr2 Hb2].
    assert (b' = b2) as -> by (eapply NoDup_fmap_inj_on; eauto). done. }
  split; simpl.
  - intros r' v' Hv'. rewrite list.filter_app, map_app, (Hmap _ (Hfilt r')). destruct (decide (r' = r)) as [->|Hner].
    + assert (v' = v) as -> by congruence. exists L'.
      rewrite list_lookup_insert_eq by (eapply lookup_lt_Some; eauto). rewrite HnL', HnL. split_and!; [done..|].
      rewrite filter_cons_True by (by apply (block_in_region b r v l r Hat)). simpl. by rewrite upd_eq.
    + rewrite list_lookup_insert_ne by done. destruct (Hreg r' v' Hv') as (L1 & -> & Hn1 & HL1). exists L1.
      split_and!; [done..|]. rewrite filter_cons_False by (by rewrite (block_in_region b r v l r' Hat)).
      rewrite app_nil_r. eapply is_list_ext; [|exact HL1]. intros q (b' & -> & Hb')%list_elem_of_fmap.
      apply list_elem_of_filter in Hb' as [Hr' Hb']. rewrite Hun; [done|by apply Hne|]. apply Hps; [done|].
      intros Hr2. destruct (block_exists b' (Hbelow b' Hb')) as (r3 & v3 & l3 & Hat3).
      apply (block_in_region b' r3 v3 l3 _ Hat3) in Hr', Hr2. congruence.
  - rewrite <- Htail. apply list_eq. intros k. rewrite !lookup_drop.
    apply list_lookup_insert_ne. apply lookup_lt_Some in Hv. lia.
  - intros b' r' v' l' [Hb'| ->%list_elem_of_singleton]%elem_of_app Hat'.
    + rewrite !upd_ne by congruence. destruct (Hfr b' r' v' l' Hb' Hat') as (fr' & Hf & Hh).
      specialize (Hpay (ptr b') (Hne b' Hb')). rewrite Hf in Hpay.
      destruct (h' !! ptr b') as [fr2|]; [|discriminate]. exists fr2. split; [done|].
      eapply frame_holds_payload; [|exact Hh]. simpl in Hpay; congruence.
    + destruct (block_at_unique b r v l r' v' l' Hat Hat') as (<- & <- & <-). rewrite !upd_eq. by exists fr.
  - intros b' [?| ->%list_elem_of_singleton]%elem_of_app; auto.
  - rewrite map_app, (Hmap done) by done. simpl. rewrite upd_eq. apply list.NoDup_app. split_and!; [done| |apply NoDup_singleton].
    intros q (b' & -> & Hb')%list_elem_of_fmap ?%list_elem_of_singleton. by apply (Hne b').
  - intros b' [Hb'| ->%list_elem_of_singleton]%elem_of_app; [rewrite upd_ne by congruence; auto|].
    rewrite upd_eq. destruct (h0 !! p) eqn:E; [|done]. rewrite Hold in Hnone by (by rewrite E). congruence.
  - intros q Hq. assert (q <> p) by (intros ->; rewrite Hold in Hnone by done; destruct Hq; congruence).
    rewrite Hun; [by apply Hold|done|]. intros (b' & -> & Hb')%list_elem_of_fmap.
    apply Hfilt in Hb'. rewrite (Hfresh b' Hb') in Hq. by destruct Hq.
  - done.
  - rewrite length_app. simpl. lia.
  - rewrite bind_app, bind_upd, length_app, fetchMany_add by done. cbn [mbind list_bind]. rewrite app_nil_r, upd_eq.
    rewrite (Permutation_length Hlids), fetchMany_length, <- Hnext. done.
  - rewrite bind_app, bind_upd, length_app, fetchMany_add by done. cbn [mbind list_bind]. rewrite app_nil_r, upd_eq.
    simpl. f_equiv; [done|]. rewrite <- Hnext. rewrite (Permutation_length Hlids), fetchMany_length. done.
Qed.

(** ** The result, region by region *)

Lemma region_blocks r v order :
  vols !! r = Some v -> order ≡ₚ seq 0 (length (concat block_segs)) ->
  filter (in_region r) order ≡ₚ map (fun l => seg_off block_segs r + l) (seq 0 (nframes v)).
Proof using Type.
  intros Hv ->. pose proof (block_segs_lookup _ _ Hv) as Hseg. pose proof (seg_bound _ _ _ Hseg) as Hb.
  pose proof (seg_off_S _ _ _ Hseg) as HS. rewrite length_seq in Hb, HS. apply NoDup_Permutation.
  - apply NoDup_filter, list.NoDup_seq.
  - apply NoDup_fmap_2_strong; [lia|apply list.NoDup_seq].
  - intros b. rewrite list_elem_of_filter, elem_of_seq, list_elem_of_fmap. unfold in_region. rewrite HS. split.
    + intros [Hr _]. exists (b - seg_off block_segs r). rewrite elem_of_seq. lia.
    + intros (l & -> & Hl%elem_of_seq). lia.
Qed.

Lemma all_blocks :
  concat (imap (fun r v => map (fun l => seg_off block_segs r + l) (seq 0 (nframes v))) vols) =
  seq 0 (length (concat block_segs)).
Proof using Type.
  pose proof (seg_map_concat block_segs (fun b => b) (fun r l => seg_off block_segs r + l) ltac:(done)) as E.
  rewrite map_id in E. rewrite E. unfold block_segs at 3. rewrite imap_fmap. f_equal. apply imap_ext.
  intros r v Hv. simpl. by rewrite length_seq.
Qed.

(** The frames of a region and the identifiers in them, in the order of their indices. *)
Definition region_ptrs (ptr : nat -> Z) (order : list nat) (r : nat) : list Z := map ptr (filter (in_region r) order).
Definition region_ids (bids : nat -> list Z) (r : nat) (v : AABB T) : list Z :=
  concat (map (fun l => bids (seg_off block_segs r + l)) (seq 0 (nframes v))).

Lemma region_frames_live h ptr bids r v n :
  (forall l, l < n -> exists fr, h !! ptr (seg_off block_segs r + l) = Some fr /\
     frame_holds bl (mkRegion v emptyFrameList) (l * frameSize) (nlive v l) (bids (seg_off block_segs r + l)) fr) ->
  let idx := concat (map (fun l => seq (l * frameSize) (nlive v l)) (seq 0 n)) in
  let ids := concat (map (fun l => bids (seg_off block_segs r + l)) (seq 0 n)) in
  length idx = length ids /\
  frames_live h (map ptr (map (fun l => seg_off block_segs r + l) (seq 0 n))) =
    zip_with (fun k i => placed bl (mkRegion v emptyFrameList) k i) idx ids.
Proof using Type.
  cbv zeta. induction n as [|n IH]; intros Hfr; [done|]. destruct IH as [Hl E]; [intros; apply Hfr; lia|].
  destruct (Hfr n ltac:(lia)) as (fr & Hn & _ & _ & Hids & Hlive).
  rewrite !seq_S, !map_app, !concat_app, !length_app. simpl. rewrite !app_nil_r, length_seq. split; [lia|].
  rewrite zip_with_app by done. unfold frames_live in *. rewrite bind_app, E. simpl. by rewrite Hn, Hlive, app_nil_r.
Qed.

Lemma launched_region h0 a0 ids0 tail ptr bids order st r v :
  launched h0 a0 ids0 tail ptr bids order st -> order ≡ₚ seq 0 (length (concat block_segs)) -> vols !! r = Some v ->
  exists R, in_regions st !! r = Some R /\
    region_filled (in_heap st) v R (region_ptrs ptr order r) (region_ids bids r v).
Proof using BlockLaws0 Hfs.
  intros Hla Hord Hv. destruct (la_regions _ _ _ _ _ _ _ _ Hla r v Hv) as (L & HR & Hn & HL).
  pose proof (region_blocks r v order Hv Hord) as Hblocks.
  assert (Hfr : forall l, l < nframes v -> exists fr, in_heap st !! ptr (seg_off block_segs r + l) = Some fr /\
     frame_holds bl (mkRegion v emptyFrameList) (l * frameSize) (nlive v l) (bids (seg_off block_segs r + l)) fr).
  { intros l Hl. apply (la_frames _ _ _ _ _ _ _ _ Hla _ r); [|done].
    pose proof (seg_bound _ _ _ (block_segs_lookup _ _ Hv)) as Hb. rewrite length_seq in Hb.
    rewrite Hord, elem_of_seq. lia. }
  destruct (region_frames_live _ _ _ _ _ _ Hfr) as [Hlen Hlive]. rewrite nlive_indices, length_seq in Hlen.
  eexists. split; [exact HR|]. unfold region_ptrs. split_and!; [done|done|done| |done| |].
  - by rewrite length_map, Hblocks, length_map, length_seq.
  - intros p (b & -> & Hb)%list_elem_of_fmap. rewrite Hblocks in Hb.
    apply list_elem_of_fmap in Hb as (l & -> & Hl%elem_of_seq). destruct (Hfr l ltac:(lia)) as (fr & Hf & Hsz & _). eauto.
  - unfold frames_live at 1. rewrite Hblocks. unfold frames_live in Hlive. by rewrite Hlive, nlive_indices.
Qed.

(** The frames of the regions are those of the blocks, and so are their identifiers. *)
Lemma region_ptrs_all ptr order :
  order ≡ₚ seq 0 (length (concat block_segs)) -> concat (imap (fun r _ => region_ptrs ptr order r) vols) ≡ₚ map ptr order.
Proof using Type.
  intros Hord. trans (map ptr (seq 0 (length (concat block_segs)))); [|by rewrite Hord].
  rewrite <- all_blocks, concat_map, fmap_imap. unfold region_ptrs.
  apply concat_perm, Forall2_same_length_lookup. rewrite !length_imap. split; [done|].
  intros r x y Hx Hy. rewrite !list_lookup_imap in Hx, Hy. destruct (vols !! r) as [v|] eqn:Hv; [|discriminate].
  injection Hx as <-. injection Hy as <-. by apply Permutation_map, region_blocks.
Qed.

Lemma region_ids_all bids order :
  order ≡ₚ seq 0 (length (concat block_segs)) -> concat (imap (fun r v => region_ids bids r v) vols) ≡ₚ order ≫= bids.
Proof using Type.
  intros ->. rewrite <- all_blocks. unfold region_ids. generalize (seg_off block_segs). intros off.
  assert (E : forall (xs : list (list nat)), concat xs ≫= bids = concat (map (fun x => x ≫= bids) xs)).
  { induction xs as [|x xs IH]; [done|]. simpl. by rewrite bind_app, IH. }
  rewrite E, fmap_imap. apply concat_perm, Forall2_same_length_lookup. rewrite !length_imap. split; [done|].
  intros r x y Hx Hy. rewrite !list_lookup_imap in Hx, Hy. destruct (vols !! r) as [v|]; [|discriminate].
  injection Hx as <-. injection Hy as <-. unfold compose.
  clear. induction (seq 0 (nframes v)) as [|l ls IH]; [done|]. cbn [map concat]. rewrite bind_cons. by f_equiv.
Qed.
End launch.

(** ** The two launches of a slice *)

Definition counted (vols : list (AABB T)) (tail : list (ParticleRegion T)) (done : list nat)
    (st : list (ParticleRegion T) * list Z) : Prop :=
  drop (length vols) st.1 = tail /\ length st.1 = length vols + length tail /\ length st.2 = length vols /\
  forall r v, vols !! r = Some v ->
    st.1 !! r = Some (mkRegion v (if decide (r ∈ done) then filled_list v else emptyFrameList)) /\
    (r ∈ done -> st.2 !! r = Some (Z.of_nat (nframes v))).

Lemma nframes_u32 v : u32 (numFrames (Z.of_nat frameSize) (filled_list v)) = Z.of_nat (nframes v).
Proof using BlockLaws0 Hfs.
  destruct (nframes_counts v) as (<- & _ & _). apply u32_small. pose proof (nparts_bounds v).
  destruct (decide (nframes v = 0)) as [->|Hn]; [lia|].
  destruct (nlive_bounds v (nframes v - 1) ltac:(lia)) as [? ?]. nia.
Qed.

Lemma count_step vols tail done b st :
  counted vols tail done st -> b < length vols -> b ∉ done ->
  exists st', CalculateFramesPerRegion frameSize (numParticlesToCreate bl) (length vols) b st = Some st' /\
    counted vols tail (done ++ [b]) st'.
Proof using BlockLaws0 Hfs.
  intros (Hd & Hl1 & Hl2 & Hr) Hb Hnin. destruct (lookup_lt_is_Some_2 vols b Hb) as [v Hv].
  destruct (Hr b v Hv) as [HR _]. unfold CalculateFramesPerRegion. rewrite (proj2 (Nat.leb_gt _ _)) by lia.
  rewrite HR. cbn [mbind option_bind]. rewrite decide_False by done.
  change (numParticlesToCreate bl (mkRegion v emptyFrameList)) with (numParticlesToCreate bl (mkRegion v emptyFrameList)).
  pose proof (nparts_bounds v) as Hnb.
  assert (Hnum : u32 (numParticlesToCreate bl (mkRegion v emptyFrameList)) = Z.of_nat (nparts v)).
  { unfold nparts in *. pose proof (num_bounds (mkRegion v emptyFrameList)). rewrite u32_small by done. lia. }
  rewrite Hnum. change (setNumParticles (Z.of_nat (nparts v)) (particleFrameList (mkRegion v emptyFrameList)))
    with (filled_list v). rewrite nframes_u32, box_write_Some by lia. cbn [mbind option_bind].
  eexists. split; [done|]. split_and!; simpl.
  - rewrite <- Hd. apply list_eq. intros k. rewrite !lookup_drop. apply list_lookup_insert_ne. lia.
  - by rewrite length_insert.
  - by rewrite length_insert.
  - intros r v' Hv'. destruct (decide (r = b)) as [->|Hne].
    + assert (v' = v) as -> by congruence. rewrite !list_lookup_insert_eq by lia.
      by rewrite decide_True by (apply elem_of_app; right; by left).
    + rewrite !list_lookup_insert_ne by done. destruct (Hr r v' Hv') as [-> Hc]. split.
      * do 2 f_equal. apply decide_ext. by rewrite elem_of_snoc_ne.
      * intros [?|?%list_elem_of_singleton]%elem_of_app; [by apply Hc|done].
Qed.

Lemma count_launch vols tail ord data :
  ord ≡ₚ seq 0 (length vols) -> length data = length vols ->
  run_blocks ord (CalculateFramesPerRegion frameSize (numParticlesToCreate bl) (length vols))
    (map (fun v => mkRegion v emptyFrameList) vols ++ tail, data) =
  Some (map (fun v => mkRegion v (filled_list v)) vols ++ tail, map (fun v => Z.of_nat (nframes v)) vols).
Proof using BlockLaws0 Hfs.
  intros Hord Hl. destruct (run_blocks_inv (counted vols tail) ord
    (CalculateFramesPerRegion frameSize (numParticlesToCreate bl) (length vols))
    (map (fun v => mkRegion v emptyFrameList) vols ++ tail, data)) as ([rs cs] & -> & Hc).
  - split_and!; simpl; [by rewrite drop_app_length'; [|rewrite length_map]|by rewrite length_app, length_map|done|].
    intros r v Hv. split; [|by intros ?%elem_of_nil].
    rewrite lookup_app_l by (rewrite length_map; by eapply lookup_lt_Some). by rewrite list_lookup_fmap, Hv.
  - intros d b rest st Hd Hc. assert (Hb : b ∈ ord) by (rewrite <- Hd; apply elem_of_app; right; by left).
    rewrite Hord, elem_of_seq in Hb. apply count_step; [done|lia|].
    assert (Hnd : NoDup ord) by (rewrite Hord; apply list.NoDup_seq). rewrite <- Hd in Hnd.
    apply list.NoDup_app in Hnd as (_ & Hnd & _). intros Hbd%Hnd. apply Hbd. by left.
  - destruct Hc as (Hd & Hl1 & Hl2 & Hr). simpl in *.
    assert (Hin : forall r, r < length vols -> r ∈ ord) by (intros; rewrite Hord, elem_of_seq; lia).
    f_equal. f_equal.
    + rewrite <- (take_drop (length vols) rs), Hd. f_equal. apply list_eq. intros r. rewrite list_lookup_fmap.
      destruct (vols !! r) as [v|] eqn:Hv; simpl.
      * pose proof (lookup_lt_Some _ _ _ Hv). rewrite lookup_take_lt by done. destruct (Hr r v Hv) as [-> _].
        by rewrite decide_True by auto.
      * apply lookup_ge_None in Hv. rewrite lookup_take_ge by lia. done.
    + apply list_eq. intros r. rewrite list_lookup_fmap. destruct (vols !! r) as [v|] eqn:Hv; simpl.
      * destruct (Hr r v Hv) as [_ Hc]. apply Hc, Hin. by eapply lookup_lt_Some.
      * apply lookup_ge_None in Hv. apply lookup_ge_None. lia.
Qed.
End slice.

(** ** Slices compose *)

(** From heap [h] and counter [ids] the regions [wanted] have been filled: [fills] gives the
    region, its frames and its identifiers.  No frame is shared, none existed before, no
    earlier frame has changed, and the identifiers are the next ones of the counter. *)
Definition created (h h' : heap T) (ids ids' : IdProvider) (wanted : list (SetupBlock (T := T) * AABB T))
    (fills : list (ParticleRegion T * list Z * list Z)) : Prop :=
  Forall2 (fun w t => region_filled w.1 h' w.2 t.1.1 t.1.2 t.2) wanted fills /\
  NoDup (concat (map (fun t => t.1.2) fills)) /\
  (forall p, p ∈ concat (map (fun t => t.1.2) fills) -> h !! p = None) /\
  (forall q, is_Some (h !! q) -> h' !! q = h !! q) /\
  concat (map snd fills) ≡ₚ (fetchMany (length (concat (map snd fills))) ids).1 /\
  ids' = (fetchMany (length (concat (map snd fills))) ids).2.

Lemma created_alloc h h' ids ids' wanted fills p :
  created h h' ids ids' wanted fills -> p ∈ concat (map (fun t => t.1.2) fills) -> is_Some (h' !! p).
Proof using Type.
  intros (Hf & _) Hp. apply list_elem_of_In, in_concat in Hp as (ps & Hps & Hp).
  apply in_map_iff in Hps as (t & <- & Ht). apply list_elem_of_In in Ht, Hp.
  apply list_elem_of_lookup_1 in Ht as [k Hk]. destruct (Forall2_lookup_r _ _ _ _ _ Hf Hk) as (w & _ & Hw).
  destruct Hw as (_ & _ & ([_ Hin] & _) & _). auto.
Qed.

Lemma created_nil h ids : created h h ids ids [] [].
Proof using Type. split_and!; try done; [constructor|by intros p ?%elem_of_nil]. Qed.

Lemma created_app h1 h2 h3 ids1 ids2 ids3 w1 w2 f1 f2 :
  created h1 h2 ids1 ids2 w1 f1 -> created h2 h3 ids2 ids3 w2 f2 -> created h1 h3 ids1 ids3 (w1 ++ w2) (f1 ++ f2).
Proof using Type.
  intros H1 H2. pose proof (fun p => created_alloc _ _ _ _ _ _ p H1) as Ha1.
  destruct H1 as (Hf1 & Hn1 & Hfr1 & Ho1 & Hi1 & ->), H2 as (Hf2 & Hn2 & Hfr2 & Ho2 & Hi2 & ->).
  unfold created. rewrite !map_app, !concat_app, length_app, fetchMany_add. split_and!; simpl.
  - apply Forall2_app; [|done]. apply Forall2_same_length_lookup. split; [by eapply Forall2_length|].
    intros k w t Hw Ht. eapply region_filled_ext; [|by eapply (Forall2_lookup_lr _ _ _ _ _ _ Hf1)].
    intros p Hp. apply Ho2, Ha1. apply list_elem_of_In, in_concat. exists t.1.2. split; [|by apply list_elem_of_In].
    apply in_map_iff. exists t. split; [done|]. by eapply list_elem_of_In, list_elem_of_lookup_2.
  - apply list.NoDup_app. split_and!; [done| |done]. intros p Hp%Ha1 Hp2%Hfr2. destruct Hp. congruence.
  - intros p [Hp|Hp]%elem_of_app; [by apply Hfr1|]. apply Hfr2 in Hp. destruct (h1 !! p) eqn:E; [|done].
    rewrite Ho1 in Hp by (by rewrite E). congruence.
  - intros q Hq. rewrite Ho2; [by apply Ho1|]. by rewrite Ho1.
  - by f_equiv.
  - done.
Qed.

Section host.
Context (bl : SetupBlock (T := T)) `{!BlockLaws bl}.

Lemma block_segs_total vols : length (concat (block_segs bl vols)) = sum_list_with (nframes bl) vols.
Proof using Type.
  unfold block_segs. induction vols as [|v vols IH]; [done|]. simpl. by rewrite length_app, length_seq, IH.
Qed.

Lemma block_segs_lengths vols : zlengths (block_segs bl vols) = map (fun v => Z.of_nat (nframes bl v)) vols.
Proof using Type.
  unfold zlengths, block_segs. rewrite map_map. apply map_ext. intros v. by rewrite length_seq.
Qed.

(** The state in which the blocks of a slice start. *)
Lemma launched_start vols tail h a ids :
  heap_reserved a h ->
  launched bl vols h a ids tail (fun _ => 0%Z) (fun _ => []) []
    (mkInit (map (fun v => mkRegion v (filled_list bl v)) vols ++ tail) h a ids).
Proof using Type.
  intros Hres. split; simpl; try done.
  - intros r v Hv. exists (filled_list bl v). split_and!; [|done|].
    + rewrite lookup_app_l by (rewrite length_map; by eapply lookup_lt_Some). by rewrite list_lookup_fmap, Hv.
    + split_and!; [|by intros a0 b (i & ? & ?)|done|done]. split; [|by intros p ?%elem_of_nil].
      apply NoDup_singleton.
  - by rewrite drop_app_length'; [|rewrite length_map].
  - intros b r v l Hb. by apply elem_of_nil in Hb.
  - intros b Hb. by apply elem_of_nil in Hb.
  - constructor.
  - intros b Hb. by apply elem_of_nil in Hb.
  - lia.
Qed.

(** When all blocks of a slice have run, every region of it is filled. *)
Lemma launched_created vols h a ids tail ptr bids order st :
  launched bl vols h a ids tail ptr bids order st -> order ≡ₚ seq 0 (length (concat (block_segs bl vols))) ->
  exists fills, created h (in_heap st) ids (in_ids st) (map (pair bl) vols) fills /\
    in_regions st = map (fun t => t.1.1) fills ++ tail.
Proof using BlockLaws0 Hfs.
  intros Hla Hord. set (n := length vols).
  assert (Hlen : length (take n (in_regions st)) = n).
  { rewrite length_take. destruct (decide (n = 0)) as [->|Hn]; [lia|].
    destruct (lookup_lt_is_Some_2 vols (n - 1)) as [v Hv]; [unfold n in *; lia|].
    destruct (launched_region _ _ _ _ _ _ _ _ _ _ _ _ Hla Hord Hv) as (R & HR & _). apply lookup_lt_Some in HR. lia. }
  set (fills := zip (zip (take n (in_regions st)) (imap (fun r _ => region_ptrs bl vols ptr order r) vols))
                    (imap (fun r v => region_ids bl vols bids r v) vols)).
  assert (Hps : map (fun t => t.1.2) fills = imap (fun r _ => region_ptrs bl vols ptr order r) vols).
  { unfold fills. rewrite <- (map_map fst snd), fst_zip, snd_zip; [done|rewrite length_imap, Hlen; done|].
    rewrite length_zip_with, !length_imap, Hlen. unfold n. lia. }
  assert (Hids : map snd fills = imap (fun r v => region_ids bl vols bids r v) vols).
  { unfold fills. apply snd_zip. rewrite length_zip_with, !length_imap, Hlen. unfold n. lia. }
  pose proof (region_ptrs_all bl vols ptr order Hord) as Hall. pose proof (region_ids_all bl vols bids order Hord) as Hidl.
  destruct Hla as [Hreg Htail Hfr Hbelow Hnd Hfresh Hold Hres Hroom Hnext Hi] eqn:Ela.
  exists fills. unfold created. rewrite Hps, Hids, (Permutation_length Hidl). split_and!.
  - apply Forall2_same_length_lookup. split.
    { unfold fills. rewrite length_map, !length_zip_with, !length_imap, Hlen. unfold n. lia. }
    intros r w [[R ps] l] Hw Ht. rewrite list_lookup_fmap in Hw. destruct (vols !! r) as [v|] eqn:Hv; [|discriminate].
    injection Hw as <-. unfold fills in Ht. rewrite !lookup_zip_with, !list_lookup_imap, Hv in Ht. simpl in Ht.
    rewrite lookup_take_lt in Ht by (by eapply lookup_lt_Some).
    destruct (launched_region _ _ _ _ _ _ _ _ _ _ _ _ Hla Hord Hv) as (R' & HR & Hf). rewrite HR in Ht.
    injection Ht as <- <- <-. done.
  - by rewrite Hall.
  - intros p. rewrite Hall. intros (b & -> & Hb)%list_elem_of_fmap. by apply Hfresh.
  - done.
  - by rewrite Hidl.
  - done.
  - rewrite <- (take_drop n (in_regions st)) at 1. f_equal; [|done]. unfold fills.
    rewrite <- (map_map fst fst), !fst_zip; [done|rewrite length_imap, Hlen; done|].
    rewrite length_zip_with, !length_imap, Hlen. unfold n. lia.
Qed.

(** The launch of [InitParticleRegions] over the frames of a slice. *)
Lemma init_launch raw sord vols tail scanBox order h a ids :
  (Z.of_nat (length (concat (block_segs bl vols))) < 2 ^ 31)%Z ->
  (forall r, r < length (block_segs bl vols) -> scanBox !! r = Some (Z.of_nat (seg_off (block_segs bl vols) (S r)))) ->
  order ≡ₚ seq 0 (length (concat (block_segs bl vols))) -> length order <= room a ->
  (forall b, length (slots (raw b)) = frameSize) -> (forall b, sord b ≡ₚ seq 0 frameSize) -> heap_reserved a h ->
  exists st ptr bids,
    run_blocks order (InitParticleRegions malloc frameSize raw sord (placeParticle bl) (length vols) scanBox)
      (mkInit (map (fun v => mkRegion v (filled_list bl v)) vols ++ tail) h a ids) = Some st /\
    launched bl vols h a ids tail ptr bids order st.
Proof using BlockLaws0 Hfs.
  intros Htot Hscan Hord Hroom Hraw Hsord Hres.
  destruct (run_blocks_inv (fun done st => exists ptr bids, launched bl vols h a ids tail ptr bids done st) order
    (InitParticleRegions malloc frameSize raw sord (placeParticle bl) (length vols) scanBox)
    (mkInit (map (fun v => mkRegion v (filled_list bl v)) vols ++ tail) h a ids)) as (st & Hrun & ptr & bids & Hla).
  - do 2 eexists. by apply launched_start.
  - intros d b rest st Hd (ptr & bids & Hla). assert (Hb : b ∈ order) by (rewrite <- Hd; apply elem_of_app; right; by left).
    rewrite Hord, elem_of_seq in Hb. assert (Hnd : NoDup order) by (rewrite Hord; apply list.NoDup_seq).
    rewrite <- Hd in Hnd. apply list.NoDup_app in Hnd as (_ & Hnd & _).
    assert (length d < length order) by (rewrite <- Hd, length_app; simpl; lia).
    destruct (launch_step bl vols scanBox Htot Hscan h a ids tail raw sord ptr bids d b st)
      as (st' & ptr' & bids' & Hstep & Hla'); [done| |lia|lia|done|done|by eauto].
    intros Hbd%Hnd. apply Hbd. by left.
  - by exists st, ptr, bids.
Qed.

Lemma slice_spec raw junk ord1 ord2 sord vols front tail st :
  in_regions st = front ++ map (fun v => mkRegion v emptyFrameList) vols ++ tail ->
  (forall n, ord1 n ≡ₚ seq 0 n) -> (forall n, ord2 n ≡ₚ seq 0 n) ->
  (forall b, length (slots (raw b)) = frameSize) -> (forall b, sord b ≡ₚ seq 0 frameSize) ->
  (Z.of_nat (sum_list_with (nframes bl) vols) < 2 ^ 31)%Z -> sum_list_with (nframes bl) vols <= room (in_alloc st) ->
  heap_reserved (in_alloc st) (in_heap st) ->
  exists st' fills,
    initBlockSlice malloc frameSize raw junk ord1 ord2 sord bl (length front) (length vols) st = Some st' /\
    in_regions st' = front ++ map (fun t => t.1.1) fills ++ tail /\
    created (in_heap st) (in_heap st') (in_ids st) (in_ids st') (map (pair bl) vols) fills /\
    heap_reserved (in_alloc st') (in_heap st') /\
    room (in_alloc st) <= room (in_alloc st') + sum_list_with (nframes bl) vols.
Proof using BlockLaws0 Hfs.
  intros Hrs Ho1 Ho2 Hraw Hsord Htot Hroom Hres. unfold initBlockSlice.
  destruct (Nat.eqb_spec (length vols) 0) as [E|E].
  { destruct vols; [|done]. exists st, []. split_and!; [done|done|apply created_nil|done|simpl; lia]. }
  rewrite Hrs, drop_app_length, take_app_length. cbn [deviceData hostData hd_alloc].
  rewrite count_launch by (rewrite ?Ho1, ?length_replicate; done). cbn [mbind option_bind deviceToHost hostData deviceData].
  rewrite <- (block_segs_total vols) in Htot, Hroom |- *.
  destruct (inclusiveScanHost_segments (block_segs bl vols) (map (fun v => Z.of_nat (nframes bl v)) vols) [])
    as (scanned & Hs & Hlen & Hscan); [by rewrite app_nil_r, block_segs_lengths|lia|].
  unfold block_segs at 1 in Hs. rewrite length_map in Hs. rewrite Hs. cbn [mbind option_bind hostToDevice deviceData hostData].
  rewrite Nat2Z.id. set (n := length (concat (block_segs bl vols))) in *.
  destruct (init_launch raw sord vols tail scanned (ord2 n) (in_heap st) (in_alloc st) (in_ids st))
    as (st2 & ptr & bids & Hrun & Hla); [done|done|by rewrite Ho2|by rewrite Ho2, length_seq|done|done|done|].
  assert (Hif : (if (0 <? Z.of_nat n)%Z then
      run_blocks (ord2 n) (InitParticleRegions malloc frameSize raw sord (placeParticle bl) (length vols) scanned)
        (mkInit (map (fun v => mkRegion v (filled_list bl v)) vols ++ tail) (in_heap st) (in_alloc st) (in_ids st))
    else Some (mkInit (map (fun v => mkRegion v (filled_list bl v)) vols ++ tail) (in_heap st) (in_alloc st) (in_ids st)))
    = Some st2).
  { destruct (Z.ltb_spec 0 (Z.of_nat n)); [done|]. rewrite <- Hrun.
    pose proof (Ho2 n) as Hn. replace n with 0 in * by lia. by apply Permutation_nil_r in Hn as ->. }
  rewrite Hif. cbn [mbind option_bind].
  destruct (launched_created _ _ _ _ _ _ _ _ _ Hla) as (fills & Hc & Hr); [by rewrite Ho2|].
  exists (mkInit (front ++ in_regions st2) (in_heap st2) (in_alloc st2) (in_ids st2)), fills.
  split_and!; simpl; [done|by rewrite Hr|done|apply Hla|].
  pose proof (la_room _ _ _ _ _ _ _ _ _ _ Hla) as Hlr. rewrite Ho2, length_seq in Hlr. lia.
Qed.
End host.

(** ** A species *)

(** The regions the blocks of a setup ask for, each with its block. *)
Definition wanted (blocks : list (SetupBlock (T := T))) : list (SetupBlock (T := T) * AABB T) :=
  blocks ≫= fun b => if blockTargets b then map (pair b) (addRegions b) else [].

Definition wanted_frames (w : list (SetupBlock (T := T) * AABB T)) : nat := sum_list_with (fun x => nframes x.1 x.2) w.

Lemma wanted_cons bl blocks :
  wanted (bl :: blocks) = (if blockTargets bl then map (pair bl) (addRegions bl) else []) ++ wanted blocks.
Proof using Type. done. Qed.

Lemma gatherVolumes_wanted blocks : gatherVolumes blocks = map snd (wanted blocks).
Proof using Type.
  unfold gatherVolumes. assert (E : forall out, foldl (fun out (b : SetupBlock) => if blockTargets b then out ++ addRegions b else out) out blocks
    = out ++ map snd (wanted blocks)).
  { induction blocks as [|b bs IH]; intros out; [by rewrite app_nil_r|]. cbn [foldl].
    rewrite IH, wanted_cons, map_app. destruct (blockTargets b); [|done].
    rewrite map_map, map_id, <- app_assoc. done. }
  apply E.
Qed.

Lemma wanted_frames_pair bl vols : wanted_frames (map (pair bl) vols) = sum_list_with (nframes bl) vols.
Proof using Type. unfold wanted_frames. induction vols; simpl; [done|]. by f_equal. Qed.

Section species.
Context (raw : nat -> nat -> Frame T) (junk : Z) (ord : nat -> nat -> list nat) (sord : nat -> nat -> list nat).
Context (Hord : forall i n, ord i n ≡ₚ seq 0 n) (Hsord : forall i b, sord i b ≡ₚ seq 0 frameSize).
Context (Hraw : forall i b, length (slots (raw i b)) = frameSize).

Lemma initBlocks_spec blocks k front tail st :
  (forall b, b ∈ blocks -> BlockLaws b) ->
  in_regions st = front ++ map (fun w => mkRegion w.2 emptyFrameList) (wanted blocks) ++ tail ->
  (Z.of_nat (wanted_frames (wanted blocks)) < 2 ^ 31)%Z -> wanted_frames (wanted blocks) <= room (in_alloc st) ->
  heap_reserved (in_alloc st) (in_heap st) ->
  exists st' fills, initBlocks malloc frameSize raw junk ord sord k blocks (length front) st = Some st' /\
    in_regions st' = front ++ map (fun t => t.1.1) fills ++ tail /\
    created (in_heap st) (in_heap st') (in_ids st) (in_ids st') (wanted blocks) fills.
Proof using All.
  revert k front st. induction blocks as [|bl blocks IH]; intros k front st Hlaws Hrs Htot Hroom Hres.
  { exists st, []. split_and!; [done|done|apply created_nil]. }
  rewrite wanted_cons in *. cbn [initBlocks]. destruct (blockTargets bl) eqn:Et.
  2:{ apply IH; try done. intros b Hb. apply Hlaws. by right. }
  rewrite map_app, <- app_assoc, map_map in Hrs. simpl in Hrs. unfold wanted_frames in Htot, Hroom.
  rewrite sum_list_with_app in Htot, Hroom. fold (wanted_frames (map (pair bl) (addRegions bl))) in Htot, Hroom.
  rewrite wanted_frames_pair in Htot, Hroom. assert (BlockLaws bl) by (apply Hlaws; by left).
  destruct (slice_spec bl (raw k) junk (ord (2 * k)) (ord (2 * k + 1)) (sord k) (addRegions bl) front
    (map (fun w => mkRegion w.2 emptyFrameList) (wanted blocks) ++ tail) st)
    as (st1 & f1 & Hrun & Hr1 & Hc1 & Hres1 & Hroom1); [done|apply Hord|apply Hord|apply Hraw|apply Hsord|lia|lia|done|].
  assert (Hif : (if 0 <? length (addRegions bl)
      then initBlockSlice malloc frameSize (raw k) junk (ord (2 * k)) (ord (2 * k + 1)) (sord k) bl (length front) (length (addRegions bl)) st
      else Some st) = Some st1).
  { destruct (Nat.ltb_spec 0 (length (addRegions bl))); [done|]. unfold initBlockSlice in Hrun.
    by rewrite (proj2 (Nat.eqb_eq _ _)) in Hrun by lia. }
  rewrite Hif. cbn [mbind option_bind].
  assert (Hlf : length (addRegions bl) = length (map (fun t : ParticleRegion T * list Z * list Z => t.1.1) f1)).
  { rewrite length_map. destruct Hc1 as [Hf _]. apply Forall2_length in Hf. by rewrite length_map in Hf. }
  rewrite Hlf, <- length_app.
  destruct (IH (S k) (front ++ map (fun t => t.1.1) f1) st1) as (st2 & f2 & -> & Hr2 & Hc2); try done.
  - intros b Hb. apply Hlaws. by right.
  - by rewrite <- app_assoc.
  - unfold wanted_frames. lia.
  - unfold wanted_frames. lia.
  - exists st2, (f1 ++ f2). split_and!; [done| |by eapply created_app].
    rewrite Hr2, map_app, <- !app_assoc. done.
Qed.
End species.

Lemma createSpecies_spec id junk blocks shared :
  existsb blockTargets blocks = true ->
  (match shared with Some b => 0 <= topologyVersion b < 2 ^ 64 | None => True end)%Z ->
  exists b, createSpecies id junk blocks shared = Some (Some b) /\
    getDeviceDataBox b = map (fun w => mkRegion w.2 emptyFrameList) (wanted blocks) /\
    pr_size b = length (wanted blocks) /\ (0 <= topologyVersion b < 2 ^ 64)%Z /\
    exists buf, pr_buffer b = Some buf.
Proof using Hfs.
  intros Ht Hv. unfold createSpecies. rewrite Ht, gatherVolumes_wanted.
  set (b0 := match shared with Some b => b | None => mkPRBuffer id None 0 0 end).
  rewrite map_map. set (prs := map _ (wanted blocks)). rewrite length_map.
  assert (Hlp : length prs = length (wanted blocks)) by (unfold prs; by rewrite length_map).
  erewrite pr_pushAll_eq; [|done|simpl; by rewrite Hlp, length_replicate|apply u64_bounds].
  eexists. split; [done|]. simpl. split_and!; [|done|apply u64_bounds|apply u64_bounds|eauto].
  unfold getDeviceDataBox. simpl. apply list_eq. intros i. destruct (decide (i < length prs)) as [Hi|Hi].
  - rewrite list_lookup_inserts by (rewrite ?length_replicate; lia).
    by rewrite Nat.sub_0_r.
  - rewrite (lookup_ge_None_2 prs) by lia. apply lookup_ge_None. rewrite length_inserts, length_replicate. lia.
Qed.

(** C8: after InitRegions and InitParticles a species that the blocks of a setup target has one
    region per volume, in block order; region by region the frame list is well formed and its live
    particles are exactly those the block's placement functor makes of the indices
    [0 .. numParticlesToCreate - 1]; no two regions share a frame; frames that existed before
    are untouched; all identifiers are the next ones of the device counter; and the version of
    the buffer has moved, whatever order blocks and slots ran in. *)
Theorem species_initialised id junkR junk raw ord sord blocks shared h a ids :
  existsb blockTargets blocks = true -> (forall b, b ∈ blocks -> BlockLaws b) ->
  (match shared with Some b => 0 <= topologyVersion b < 2 ^ 64 | None => True end)%Z ->
  (forall i n, ord i n ≡ₚ seq 0 n) -> (forall i b, sord i b ≡ₚ seq 0 frameSize) ->
  (forall i b, length (slots (raw i b)) = frameSize) ->
  (Z.of_nat (wanted_frames (wanted blocks)) < 2 ^ 31)%Z -> wanted_frames (wanted blocks) <= room a ->
  heap_reserved a h ->
  exists b b' h' a' ids' fills,
    createSpecies id junkR blocks shared = Some (Some b) /\
    initSpecies malloc frameSize raw junk ord sord blocks (Some b) h a ids = Some (Some b', h', a', ids') /\
    regions_of b' = map (fun t => t.1.1) fills /\
    created h h' ids ids' (wanted blocks) fills /\
    topologyVersion b' <> topologyVersion b.
Proof using Hfs.
  intros Ht Hlaws Hv Hord Hsord Hraw Htot Hroom Hres.
  destruct (createSpecies_spec id junkR blocks shared Ht Hv) as (b & Hb & Hbox & Hsz & Hver & buf & Hbuf).
  destruct (initBlocks_spec raw junk ord sord Hord Hsord Hraw blocks 0 [] [] (mkInit (getDeviceDataBox b) h a ids))
    as (st & fills & Hrun & Hr & Hc); [done|by rewrite Hbox, app_nil_r|done|done|done|].
  exists b, (bumpTopology (set_deviceBox (in_regions st) b)), (in_heap st), (in_alloc st), (in_ids st), fills.
  simpl in Hr. rewrite app_nil_r in Hr. split_and!; [done| | |done|].
  - unfold initSpecies. change (length (@nil (ParticleRegion T))) with 0 in Hrun. by rewrite Hrun.
  - unfold regions_of, getDeviceDataBox, set_deviceBox. simpl. rewrite Hbuf. simpl. rewrite Hr, Hsz.
    destruct Hc as [Hf _]. apply Forall2_length in Hf. rewrite Hf. apply take_ge. by rewrite length_map.
  - simpl. unfold u64. intros E. destruct (decide (topologyVersion b + 1 = 2 ^ 64)%Z) as [E1|E1].
    + rewrite E1, Z.mod_same in E by lia. lia.
    + rewrite Z.mod_small in E; lia.
Qed.
End laws.

(** ** The block-to-frame mapping is a bijection *)

(** For frame counts whose sum fits an int, the scan of the counts makes the blocks
    [0 .. total - 1] enumerate exactly the pairs of a region and a frame index below the count of
    the region, in order, whatever number of regions has no frame; a block past
    the total finds no location. *)
Theorem frame_locations (counts : list nat) :
  (Z.of_nat (sum_list counts) < 2 ^ 31)%Z ->
  exists scan, inclusiveScanHost (map Z.of_nat counts) (length counts) = Some (Z.of_nat (sum_list counts), scan) /\
    map (fun b => findFrameLocation (Z.of_nat b) scan (length counts)) (seq 0 (sum_list counts)) =
      map Some (concat (imap (fun r n => map (fun l => mkLocation (Z.of_nat r) (Z.of_nat l) (Z.of_nat n)) (seq 0 n)) counts)) /\
    forall b, sum_list counts <= b -> findFrameLocation (Z.of_nat b) scan (length counts) = None.
Proof.
  intros Htot. set (segs := map (fun n => seq 0 n) counts).
  assert (Hlen : length (concat segs) = sum_list counts).
  { unfold segs. clear. induction counts as [|n ns IH]; [done|]. simpl. by rewrite length_app, length_seq, IH. }
  assert (Hz : map Z.of_nat counts = zlengths segs ++ []).
  { rewrite app_nil_r. unfold zlengths, segs. rewrite map_map. apply map_ext. intros n. by rewrite length_seq. }
  assert (Hn : length segs = length counts) by apply length_map.
  destruct (inclusiveScanHost_segments segs _ [] Hz) as (scan & Hs & Hl & Hscan); [lia|].
  rewrite <- Hlen, Hn in *. exists scan. split; [done|]. rewrite length_map in Hl. rewrite <- Hn in *. split.
  - rewrite (seg_map_concat segs _ (fun r l => Some (mkLocation (Z.of_nat r) (Z.of_nat l) (Z.of_nat (default 0 (counts !! r)))))).
    + rewrite concat_map, fmap_imap. unfold segs at 1. rewrite imap_fmap. f_equal. apply imap_ext.
      intros r n Hr. unfold compose. by rewrite length_seq, Hr, map_map.
    + intros r seg l Hseg Hlt. rewrite (findFrameLocation_spec segs scan ltac:(lia) Hscan r seg l) by done.
      unfold segs in Hseg. rewrite list_lookup_fmap in Hseg. destruct (counts !! r); [|discriminate].
      injection Hseg as <-. by rewrite length_seq.
  - intros b Hb. apply findFrameLocation_out; [lia|done|done|lia].
Qed.

(** ** Witnesses *)

Section witness.
#[local] Existing Instance dim1.

(** A heap that hands out 16, 32, ... and has room for [100] frames. *)
Definition bump (a : nat) : Z * nat := if a <? 100 then (16 * (Z.of_nat a + 1), S a)%Z else (0%Z, a).

#[local] Instance bump_allocator : FrameAllocator bump.
Proof.
  refine {| reserved := fun a q => exists k, k < a /\ q = (16 * (Z.of_nat k + 1))%Z; room := fun a => 100 - a |}.
  intros a Ha. exists (16 * (Z.of_nat a + 1))%Z, (S a). split.
  - unfold allocateMemory, allocationMaxRetries, bump. simpl. rewrite (proj2 (Nat.ltb_lt a 100)) by lia.
    rewrite (proj2 (Z.eqb_neq _ _)) by lia. done.
  - split; [lia|]. split; [intros (k & ? & ?); lia|]. split; [lia|]. split; [exists a; split; [lia|done]|].
    intros q (k & ? & ->). exists k. split; [lia|done].
Defined.

(** A block with two regions, of three and no particles, and one that targets another species. *)
Definition line_block : SetupBlock (T := Z) :=
  mkBlock true [mkAABB [0] [0] [3]; mkAABB [0] [5] [5]]%Z
    (fun R => (Z.abs (vget (bmax (volume R)) ax_x - vget (bmin (volume R)) ax_x) mod 2 ^ 32)%Z)
    (fun R k q => set_relativePos [k]%Z q).
Definition other_block : SetupBlock (T := Z) := mkBlock false [mkAABB [0] [0] [3]]%Z (fun _ => 0%Z) (fun _ _ q => q).

#[local] Instance line_laws : BlockLaws line_block.
Proof. split; try done. intros R. simpl. apply Z.mod_pos_bound. lia. Qed.
#[local] Instance other_laws : BlockLaws other_block.
Proof. split; done. Qed.

Lemma species_initialised_witness :
  exists b b' h' a' ids' fills,
    createSpecies 5 (mkRegion (mkAABB [] [] []) emptyFrameList) [line_block; other_block] None = Some (Some b) /\
    initSpecies bump 2 (fun _ _ => mkFrame [part0 9; part0 1] 7 77) 0 (fun _ n => seq 0 n) (fun _ _ => [1; 0])
      [line_block; other_block] (Some b) ∅ 0 (mkIdProvider 0 40 0 1) = Some (Some b', h', a', ids') /\
    regions_of b' = map (fun t => t.1.1) fills /\
    created 2 ∅ h' (mkIdProvider 0 40 0 1) ids' (wanted [line_block; other_block]) fills /\
    topologyVersion b' <> topologyVersion b.
Proof.
  apply (species_initialised (T := Z) bump 2 ltac:(lia)).
  - reflexivity.
  - intros b [->|[->|[]%elem_of_nil]%elem_of_cons]%elem_of_cons; apply _.
  - exact I.
  - intros i n. reflexivity.
  - intros i b. apply perm_swap.
  - reflexivity.
  - vm_compute. reflexivity.
  - vm_compute. lia.
  - intros q [x Hx]. by rewrite lookup_empty in Hx.
Defined.

Lemma frame_locations_witness :
  exists scan, inclusiveScanHost [2; 0; 1]%Z 3 = Some (3%Z, scan) /\
    map (fun b => findFrameLocation (Z.of_nat b) scan 3) (seq 0 3) =
      [Some (mkLocation 0 0 2); Some (mkLocation 0 1 2); Some (mkLocation 2 0 1)] /\
    forall b, 3 <= b -> findFrameLocation (Z.of_nat b) scan 3 = None.
Proof. apply (frame_locations [2; 0; 1]). reflexivity. Defined.
End witness.
