(* ===== verification/Lattice.v ===== *)
(** * Lattices of particles and the shock tube

    Models spmacc/particles/initialization/SC.hpp: the cell counts of a simple cubic
    lattice in a region and the placement of a particle at the centre of the cell its
    index decodes to; and the setup of ValidationSetups/SodShockTube.hpp that is built
    on it, whose blocks feed Init. *)
From Stdlib Require Import ZArith Lia Reals Lra.
From stdpp Require Import base list numbers.
From S2P Require Import Prelude Scalar Topology Aabb FrameList Regions Scan IdProvider Init InitLaws.

(** [for_each_enum_tag]: the tags with their indices. *)
Definition for_each_enum_tag {D : CartesianDim} {A} (f : nat -> axis -> A -> A) (a : A) : A :=
  foldl (fun a '(i, t) => f i t a) a (zip (seq 0 cs_dim) (cartesian_tags cs_dim)).

Section code.
Context {D : CartesianDim} {T : Type} `{Scalar T}.

(** [static_cast<uint32_t>] of a scalar in range. *)
Definition to_u32 (x : T) : Z := u32 (strunc x).

(** [detail::truncateNearInteger]. *)
Definition truncateNearInteger (value : T) : Z :=
  let truncated := to_u32 value in
  let scale := if (sofZ 1 <? value)%S then value else sofZ 1 in
  let tolerance := (sofZ 4 * sepsilon * scale)%S in
  let distanceToNext := (sofZ (u32 (truncated + 1)) - value)%S in
  if ((sofZ 0 <=? distanceToNext) && (distanceToNext <=? tolerance))%S then u32 (truncated + 1) else truncated.

Definition extents (b : AABB T) : storage T := vec_sub (bmax b) (bmin b).

(** [computeSCNumCells]; [spow] is std::pow. *)
Definition computeSCNumCells (spow : T -> T -> T) (numParticles : Z) (b : AABB T) : Z :=
  let ext := extents b in
  let Lx := vget ext ax_x in
  let ratioProduct := for_each_enum_tag (fun i t r => if 0 <? i then (r * (Lx / vget ext t))%S else r) (sofZ 1) in
  let nxFloat := spow (sofZ numParticles * ratioProduct)%S (sofZ 1 / sofZ (Z.of_nat cs_dim))%S in
  let nx := to_u32 nxFloat in
  if (nx <? 1)%Z then 1%Z else nx.

(** [computeSCCellCounts]: truncated along the first axis, rounded along the others. *)
Definition computeSCCellCounts (b : AABB T) (spacing : T) : list Z :=
  let ext := extents b in
  for_each_enum_tag (fun i t counts =>
    let c := if i =? 0 then truncateNearInteger (vget ext t / spacing)%S
             else to_u32 (vget ext t / spacing + slit 1 2)%S in
    <[i := if (c =? 0)%Z then 1%Z else c]> counts) (replicate cs_dim 0%Z).

(** [numSCLatticeSites]. *)
Definition numSCLatticeSites (n : list Z) : Z := foldl (fun prod ni => u32 (prod * ni)) 1%Z n.

(** [SC::operator()] with an array of counts; [None] is a division by zero or an
    access behind the array. *)
Definition SC_place (v : AABB T) (globalParticleIdx : Z) (n : list Z) (q : Particle T) : option (Particle T) :=
  let ext := extents v in
  '(_, pos) ← for_each_enum_tag (fun i t st =>
      '(accum, pos) ← st;
      ni ← n !! i;
      if ((accum =? 0) || (ni =? 0))%Z then None else
      let ik := ((globalParticleIdx / accum) mod ni)%Z in
      let di := (vget ext t / sofZ ni)%S in
      Some (u32 (accum * ni), vset pos t (vget (bmin v) t + (sofZ ik + slit 1 2) * di)%S))
    (Some (1%Z, relativePos q));
  Some (set_relativePos pos q).

(** [SC::operator()] with a scalar number of cells: the transverse counts follow the
    aspect ratio. *)
Definition SC_counts_from (v : AABB T) (nx : Z) : list Z :=
  let ext := extents v in
  let Lx := vget ext ax_x in
  for_each_enum_tag (fun i t n =>
    if i =? 0 then <[i := nx]> n else
    let val := to_u32 (sofZ nx * vget ext t / Lx + slit 1 2)%S in
    <[i := if (val =? 0)%Z then 1%Z else val]> n) (replicate cs_dim 0%Z).
Definition SC_place_scalar (v : AABB T) (globalParticleIdx nx : Z) (q : Particle T) : option (Particle T) :=
  SC_place v globalParticleIdx (SC_counts_from v nx) q.
End code.

Lemma numSCLatticeSites_bounds n : (0 <= numSCLatticeSites n < 2 ^ 32)%Z.
Proof.
  unfold numSCLatticeSites. assert (E : forall m, (0 <= m < 2 ^ 32 ->
    0 <= foldl (fun prod ni => u32 (prod * ni)) m n < 2 ^ 32)%Z).
  { induction n as [|k n IH]; intros m Hm; [done|]. apply IH, u32_bounds. }
  by apply E.
Qed.

(** ** The lattice over exact arithmetic *)

Section exact.
Context {D : CartesianDim}.
Local Open Scope Z_scope.

(** The cell of axis [i] that site [idx] decodes to. *)
Definition cell_of (n : list Z) (idx : Z) (i : nat) : Z :=
  (idx / foldr Z.mul 1 (take i n)) mod (n !!! i).

(** The centre of cell [c] along an axis of [k] cells from [lo] to [hi]. *)
Definition cell_centre (lo hi : R) (k c : Z) : R := (lo + (IZR c + 1 / 2) * ((hi - lo) / IZR k))%R.

(** The site whose cell contains a position: what the placement is to invert. *)
Definition site_at (v : AABB R) (n : list Z) (pos : storage R) : Z :=
  (for_each_enum_tag (fun i t '(site, stride) =>
     let d := ((vget (bmax v) t - vget (bmin v) t) / IZR (n !!! i))%R in
     (site + Rtrunc ((vget pos t - vget (bmin v) t) / d)%R * stride, stride * (n !!! i))%Z) (0, 1)).1.

Lemma Rtrunc_unique x z : 0 <= z -> (IZR z <= x < IZR z + 1)%R -> Rtrunc x = z.
Proof.
  intros Hz Hx. apply IZR_le in Hz. unfold Rtrunc. destruct (Rlt_dec x 0); [exfalso; lra|].
  symmetry. apply Int_part_spec. lra.
Qed.

Lemma Rtrunc_centre lo hi k c :
  0 <= c < k -> (lo < hi)%R -> Rtrunc ((cell_centre lo hi k c - lo) / ((hi - lo) / IZR k)) = c.
Proof.
  intros Hc Hlo. assert (0 < IZR k)%R by (apply IZR_lt; lia).
  replace ((cell_centre lo hi k c - lo) / ((hi - lo) / IZR k))%R with (IZR c + 1 / 2)%R
    by (unfold cell_centre; field; lra).
  apply Rtrunc_unique; [lia|lra].
Qed.

Lemma cell_centre_inside lo hi k c :
  0 <= c < k -> (lo < hi)%R -> (lo < cell_centre lo hi k c < hi)%R.
Proof.
  intros Hc Hlo. unfold cell_centre. assert (Hk : (0 < IZR k)%R) by (apply IZR_lt; lia).
  assert (0 <= IZR c)%R by (apply IZR_le; lia).
  assert (IZR c + 1 <= IZR k)%R by (rewrite <- plus_IZR; apply IZR_le; lia).
  assert (0 < (hi - lo) / IZR k)%R by (apply Rdiv_lt_0_compat; lra).
  replace hi with (lo + IZR k * ((hi - lo) / IZR k))%R at 3 by (field; lra). split; nra.
Qed.

(** Mixed-radix digits of three, two and one places. *)
Lemma digits3 a b idx : 0 < a -> 0 < b ->
  idx mod a + (idx / a) mod b * a + idx / (a * b) * (a * b) = idx.
Proof.
  intros Ha Hb. rewrite (Z.mul_comm a b) at 2. rewrite <- Z.div_div by lia.
  pose proof (Z.div_mod idx a ltac:(lia)). pose proof (Z.div_mod (idx / a) b ltac:(lia)).
  set (q := idx / a / b) in *. nia.
Qed.

Lemma digits2 a b idx : 0 < a -> 0 < b -> 0 <= idx < a * b -> idx mod a + (idx / a) mod b * a = idx.
Proof. intros Ha Hb Hi. pose proof (digits3 a b idx Ha Hb). rewrite (Z.div_small idx (a * b)) in * by done. lia. Qed.

(** Every tuple of cells is decoded from a site. *)
Lemma digits_of a b c0 c1 q : 0 <= c0 < a -> 0 <= c1 < b ->
  (c0 + a * (c1 + b * q)) mod a = c0 /\ ((c0 + a * (c1 + b * q)) / a) mod b = c1 /\
  (c0 + a * (c1 + b * q)) / (a * b) = q.
Proof.
  intros H0 H1. rewrite <- Z.div_div by lia.
  replace (c0 + a * (c1 + b * q)) with ((c1 + b * q) * a + c0) by ring.
  rewrite Z.div_add_l, (Z.div_small c0), Z.add_0_r by lia.
  replace (c1 + b * q) with (q * b + c1) by ring.
  rewrite Z.div_add_l, (Z.div_small c1), Z.add_0_r by lia.
  split_and!; [|rewrite Z.add_comm, Z_mod_plus_full; by apply Z.mod_small|lia].
  rewrite Z.add_comm, Z_mod_plus_full. by apply Z.mod_small.
Qed.

Lemma radix_lt a m x y : 0 <= x < a -> 0 <= y < m -> 0 <= x + a * y < a * m.
Proof. nia. Qed.

(** Every count is positive and their product is a 32-bit number. *)
Definition counts_ok (n : list Z) : Prop :=
  length n = cs_dim /\ Forall (fun k => 0 < k) n /\ foldr Z.mul 1 n < 2 ^ 32.

Lemma counts_cases n :
  counts_ok n ->
  (cs_dim = 1%nat /\ exists a, n = [a] /\ 0 < a < 2 ^ 32) \/
  (cs_dim = 2%nat /\ exists a b, n = [a; b] /\ 0 < a /\ 0 < b /\ a * b < 2 ^ 32) \/
  (cs_dim = 3%nat /\ exists a b c, n = [a; b; c] /\ 0 < a /\ 0 < b /\ 0 < c /\ a * (b * c) < 2 ^ 32).
Proof.
  intros (Hl & Hf & Hp). dim_cases D; destruct n as [|a [|b [|c [|]]]]; try discriminate Hl;
    rewrite ?Forall_cons_iff in Hf; destruct_and?; cbn [foldr] in Hp; rewrite Z.mul_1_r in Hp; [left|right; left|right; right]; split; try done.
  - exists a. split; [done|lia].
  - exists a, b. split_and!; done || lia.
  - exists a, b, c. split_and!; done || lia.
Qed.

(** Evaluates the placement on vectors of known length and positive counts. *)
Ltac sc_eval :=
  repeat first [rewrite (proj2 (Z.eqb_neq _ 0)) by nia | rewrite u32_small by (rewrite ?Z.mul_1_l; nia)
               | rewrite Z.mul_1_l | progress cbn [mbind option_bind orb]];
  eexists; split; [reflexivity|split; [done|]]; intros i t Ht.

Lemma SC_place_spec (v : AABB R) n idx q :
  counts_ok n -> aabb_wf v -> storage_wf (relativePos q) -> 0 <= idx < foldr Z.mul 1 n ->
  exists pos, SC_place v idx n q = Some (set_relativePos pos q) /\ storage_wf pos /\
    forall i t, tag_of i = Some t ->
      vget pos t = cell_centre (vget (bmin v) t) (vget (bmax v) t) (n !!! i) (cell_of n idx i).
Proof.
  intros Hn (Ho & Hlo & Hhi) Hq Hi. destruct v as [vo vl vh]. simpl in *.
  unfold SC_place, extents, cell_of, vec_sub, vec_sub_assign, for_each_enum_tag, tag_of, bmin, bmax.
  destruct q as [pid mk qp ms vel den sl ie acc du]. unfold relativePos, set_relativePos in *.
  destruct (counts_cases _ Hn) as [(Hdim & a & -> & Ha)|[(Hdim & a & b & -> & Ha & Hb & Hab)|(Hdim & a & b & c & -> & Ha & Hb & Hc & Habc)]];
    clear Hn; vec_cases D; try discriminate Hdim; try lia; clear Hdim.
  - assert (Ha32 : 0 <= a < 2 ^ 32) by lia. sc_eval.
    repeat (destruct i as [|i]; [injection Ht as <-; reflexivity|]). discriminate Ht.
  - assert (Ha32 : 0 <= a < 2 ^ 32) by nia. assert (0 <= a * b < 2 ^ 32) by nia. sc_eval.
    repeat (destruct i as [|i]; [injection Ht as <-; unfold cell_centre; simpl; rewrite ?Z.mul_1_r; reflexivity|]). discriminate Ht.
  - assert (Ha32 : 0 <= a < 2 ^ 32) by nia. assert (0 <= a * b < 2 ^ 32) by nia. assert (0 <= b * c) by nia. sc_eval.
    repeat (destruct i as [|i]; [injection Ht as <-; unfold cell_centre; simpl; rewrite ?Z.mul_1_r; reflexivity|]). discriminate Ht.
Qed.

Lemma cell_of_bounds n idx i : counts_ok n -> (i < cs_dim)%nat -> 0 <= cell_of n idx i < n !!! i.
Proof.
  intros (Hl & Hf & _) Hi. apply Z.mod_pos_bound. destruct (lookup_lt_is_Some_2 n i) as [k Hk]; [lia|].
  rewrite (list_lookup_total_correct _ _ _ Hk). by apply (Forall_lookup_1 _ _ _ _ Hf Hk).
Qed.

Lemma tag_of_lt i t : tag_of i = Some t -> (i < cs_dim)%nat.
Proof. unfold tag_of. intros Ht%lookup_lt_Some. by rewrite length_cartesian_tags in Ht. Qed.

Lemma site_at_spec (v : AABB R) n idx pos :
  counts_ok n -> 0 <= idx < foldr Z.mul 1 n ->
  (forall t, t ∈ cartesian_tags cs_dim -> vget (bmin v) t < vget (bmax v) t)%R ->
  (forall i t, tag_of i = Some t ->
     vget pos t = cell_centre (vget (bmin v) t) (vget (bmax v) t) (n !!! i) (cell_of n idx i)) ->
  site_at v n pos = idx.
Proof.
  intros Hn Hi Hv Hpos. pose proof (cell_of_bounds n idx) as Hb.
  unfold site_at, for_each_enum_tag.
  assert (Htr : forall i t, tag_of i = Some t -> Rtrunc ((vget pos t - vget (bmin v) t) /
      ((vget (bmax v) t - vget (bmin v) t) / IZR (n !!! i))) = cell_of n idx i).
  { intros i t Ht. rewrite (Hpos i t Ht). pose proof (tag_of_lt _ _ Ht). apply Rtrunc_centre; [auto|].
    apply Hv. unfold tag_of in Ht. by eapply list_elem_of_lookup_2. }
  clear Hpos Hv. unfold tag_of, cell_of in *.
  destruct (counts_cases _ Hn) as [(E & a & -> & Ha)|[(E & a & b & -> & Ha & Hc & Hab)|(E & a & b & c & -> & Ha & Hc & Hd & Habc)]];
    clear Hn; rewrite E in *; simpl in *.
  - rewrite (Htr 0%nat) by done. simpl. rewrite Z.div_1_r, Z.mod_small by lia. lia.
  - rewrite (Htr 0%nat), (Htr 1%nat) by done. simpl. rewrite !Z.mul_1_r, Z.div_1_r, !Z.mul_1_l.
    rewrite Z.add_0_l. apply digits2; lia.
  - rewrite (Htr 0%nat), (Htr 1%nat), (Htr 2%nat) by done. simpl. rewrite !Z.mul_1_r, Z.div_1_r, !Z.mul_1_l, Z.add_0_l.
    rewrite (Z.mod_small (idx / (a * b))); [by apply digits3|].
    split; [apply Z.div_pos; nia|apply Z.div_lt_upper_bound; nia].
Qed.

Lemma cell_of_surj n cells :
  counts_ok n -> Forall2 (fun c k => 0 <= c < k) cells n ->
  exists idx, 0 <= idx < foldr Z.mul 1 n /\ forall i, (i < cs_dim)%nat -> cell_of n idx i = cells !!! i.
Proof.
  intros Hn Hc. unfold cell_of.
  destruct (counts_cases _ Hn) as [(E & a & -> & Ha)|[(E & a & b & -> & Ha & Hb & Hab)|(E & a & b & c & -> & Ha & Hb & Hd & Habc)]];
    clear Hn; rewrite E; apply Forall2_cons_inv_r in Hc as (x & lx & Hx & Hc & ->);
    try apply Forall2_cons_inv_r in Hc as (x0 & lx0 & Hx0 & Hc & ->);
    try apply Forall2_cons_inv_r in Hc as (x1 & lx1 & Hx1 & Hc & ->); apply Forall2_nil_inv_r in Hc as ->;
    simpl; rewrite !Z.mul_1_r.
  - exists x. split; [done|]. intros [|i] ?; [|lia]. simpl. rewrite Z.div_1_r. by apply Z.mod_small.
  - destruct (digits_of a b x x0 0) as (D0 & D1 & _); [done..|]. exists (x + a * (x0 + b * 0)). split; [nia|].
    intros [|[|i]] ?; simpl; [by rewrite Z.div_1_r|by rewrite Z.mul_1_r|lia].
  - destruct (digits_of a b x x0 x1) as (D0 & D1 & D2); [done..|]. exists (x + a * (x0 + b * x1)). split; [by do 2 (apply radix_lt; [done|])|].
    intros [|[|[|i]]] ?; simpl; [by rewrite Z.div_1_r|by rewrite Z.mul_1_r| |lia].
    rewrite !Z.mul_1_r, D2. by apply Z.mod_small.
Qed.

Lemma numSCLatticeSites_product n : Forall (fun k => 0 < k) n -> foldr Z.mul 1 n < 2 ^ 32 -> numSCLatticeSites n = foldr Z.mul 1 n.
Proof.
  intros Hf Hp. unfold numSCLatticeSites.
  assert (E : forall m, 0 < m -> m * foldr Z.mul 1 n < 2 ^ 32 ->
            foldl (fun prod ni => u32 (prod * ni)) m n = m * foldr Z.mul 1 n).
  { clear Hp. induction n as [|k n IH]; intros m Hm Hlt; simpl in *; [lia|].
    apply Forall_cons_iff in Hf as [Hk Hf].
    assert (0 < foldr Z.mul 1 n) by (clear -Hf; induction Hf; simpl; lia).
    rewrite u32_small by nia. rewrite IH; [lia|done|nia|nia]. }
  rewrite (E 1); lia.
Qed.
End exact.


(** For counts with a 32-bit product, [SC] places site [idx] strictly inside the box, at the
    centre of a cell from which the index can be read back; so no two sites of the
    [numSCLatticeSites] share a position.  Conversely every cell of the lattice is the cell of a site. *)
Theorem SC_lattice {D : CartesianDim} (v : AABB R) n q :
  counts_ok n -> aabb_wf v -> storage_wf (relativePos q) ->
  (forall t, t ∈ cartesian_tags cs_dim -> vget (bmin v) t < vget (bmax v) t)%R ->
  (forall idx, (0 <= idx < numSCLatticeSites n)%Z ->
     exists pos, SC_place v idx n q = Some (set_relativePos pos q) /\ site_at v n pos = idx /\
       forall t, t ∈ cartesian_tags cs_dim -> (vget (bmin v) t < vget pos t < vget (bmax v) t)%R) /\
  (forall cells, Forall2 (fun c k => 0 <= c < k)%Z cells n ->
     exists idx pos, (0 <= idx < numSCLatticeSites n)%Z /\ SC_place v idx n q = Some (set_relativePos pos q) /\
       forall i t, tag_of i = Some t ->
         vget pos t = cell_centre (vget (bmin v) t) (vget (bmax v) t) (n !!! i) (cells !!! i)).
Proof.
  intros Hn Hv Hq Hpos. rewrite numSCLatticeSites_product by apply Hn. split.
  - intros idx Hi. destruct (SC_place_spec v n idx q) as (pos & E & Hw & Hc); [done..|].
    exists pos. split_and!; [done|by apply site_at_spec|]. intros t Ht.
    destruct (list_elem_of_lookup_1 _ _ Ht) as [i Hit]. rewrite (Hc i t Hit).
    apply cell_centre_inside; [|by apply Hpos]. apply cell_of_bounds; [done|by eapply tag_of_lt].
  - intros cells Hcells. destruct (cell_of_surj n cells) as (idx & Hi & Hcell); [done..|].
    destruct (SC_place_spec v n idx q) as (pos & E & Hw & Hc); [done..|]. exists idx, pos. split_and!; [lia|lia|done|].
    intros i t Hit. rewrite (Hc i t Hit), Hcell; [done|by eapply tag_of_lt].
Qed.

(** ** Cell counts over exact arithmetic *)

Section counts.
Local Open Scope R_scope.

Lemma to_u32_floor x : 0 <= x < IZR (2 ^ 32) ->
  (0 <= to_u32 x < 2 ^ 32)%Z /\ IZR (to_u32 x) <= x < IZR (to_u32 x) + 1.
Proof.
  intros Hx. unfold to_u32. simpl strunc. destruct (base_Int_part x) as [H1 H2].
  assert (Hz : (0 <= Int_part x)%Z).
  { apply Z.lt_succ_r, lt_IZR. rewrite succ_IZR. lra. }
  rewrite (Rtrunc_unique x (Int_part x)) by (done || lra).
  assert (Int_part x < 2 ^ 32)%Z by (apply lt_IZR; lra). rewrite u32_small by lia. split; [lia|lra].
Qed.

Lemma truncateNearInteger_spec x : 0 <= x < IZR (2 ^ 32) - 1 ->
  let n := truncateNearInteger x in
  (0 <= n)%Z /\ x < IZR n + 1 /\ ((n = 0)%Z \/ (n = 1)%Z \/ IZR n <= x * (1 + 4 / IZR (2 ^ 23))).
Proof.
  intros Hx. destruct (to_u32_floor x ltac:(lra)) as [Hb Hf]. unfold truncateNearInteger.
  set (z := to_u32 x) in *. assert (Hz1 : (z + 1 < 2 ^ 32)%Z).
  { apply lt_IZR. rewrite plus_IZR. lra. }
  rewrite u32_small by lia. simpl.
  set (tol := (if Rltb 1 x then x else 1)).
  destruct (Rleb 0 _ && Rleb _ _)%bool eqn:E; real_cases.
  - split_and!; [lia|rewrite plus_IZR; lra|]. rewrite plus_IZR in *. unfold tol in *. destruct (Rltb 1 x) eqn:E1; real_cases.
    + right; right. unfold Rdiv. nra.
    + right; left. destruct (Z.lt_ge_cases z 1) as [|Hz]; [lia|]. apply IZR_le in Hz. exfalso. lra.
  - split_and!; [lia|lra|]. right; right. assert (0 < 4 / IZR (2 ^ 23)) by (apply Rdiv_lt_0_compat; lra). nra.
  - split_and!; [lia|lra|]. right; right. assert (0 < 4 / IZR (2 ^ 23)) by (apply Rdiv_lt_0_compat; lra). nra.
Qed.

Context {D : CartesianDim}.

Definition quotient (b : AABB R) (s : R) (t : axis) : R := (vget (bmax b) t - vget (bmin b) t) / s.

(** What one axis gets. *)
Definition axis_count (i : nat) (q : R) : Z :=
  let c := if i =? 0 then truncateNearInteger q else to_u32 (q + slit 1 2)%S in
  if (c =? 0)%Z then 1%Z else c.

Lemma computeSCCellCounts_axes (b : AABB R) s :
  aabb_wf b -> length (computeSCCellCounts b s) = cs_dim /\
  forall i t, tag_of i = Some t -> computeSCCellCounts b s !! i = Some (axis_count i (quotient b s t)).
Proof.
  intros (Ho & Hl & Hh). destruct b as [vo vl vh]. simpl in *.
  unfold computeSCCellCounts, for_each_enum_tag, tag_of, extents, quotient, vec_sub, vec_sub_assign, bmin, bmax.
  vec_cases D; (split; [done|]); intros i t Ht;
    repeat (destruct i as [|i]; [injection Ht as <-; reflexivity|]); discriminate Ht.
Qed.

Lemma axis_count_spec i q : 0 <= q < IZR (2 ^ 32) - 1 ->
  (1 <= axis_count i q)%Z /\
  (i = 0%nat -> q < IZR (axis_count i q) + 1 /\ (axis_count i q = 1%Z \/ IZR (axis_count i q) <= q * (1 + 4 / IZR (2 ^ 23)))) /\
  (i <> 0%nat -> q < IZR (axis_count i q) + 1 / 2 /\ (axis_count i q = 1%Z \/ IZR (axis_count i q) <= q + 1 / 2)).
Proof.
  intros Hq. unfold axis_count. destruct (Nat.eqb_spec i 0) as [->|Hi].
  - destruct (truncateNearInteger_spec q Hq) as (H1 & H2 & H3). set (n := truncateNearInteger q) in *.
    destruct (Z.eqb_spec n 0) as [E|E]; (split_and!; [lia| |done]); intros _.
    + rewrite E in H2. split; [lra|by left].
    + split; [lra|]. destruct H3 as [?|[?|?]]; [lia|by left|by right].
  - destruct (to_u32_floor (q + 1 / 2)) as [H1 H2]; [lra|]. simpl sadd. simpl slit.
    set (n := to_u32 (q + 1 / 2)) in *.
    destruct (Z.eqb_spec n 0) as [E|E]; (split_and!; [lia|lia|]); intros _.
    + rewrite E in H2. split; [lra|by left].
    + split; [lra|]. right. lra.
Qed.

(** Evaluation of an axis count from its quotient. *)
Lemma axis_count_first n q : (1 <= n < 2 ^ 32 - 1)%Z -> IZR n <= q -> q * (1 + 4 / IZR (2 ^ 23)) < IZR n + 1 -> axis_count 0 q = n.
Proof.
  intros Hn Hq Hlt. pose proof (IZR_le 1 n ltac:(lia)). assert (H23 : 0 < 4 / IZR (2 ^ 23)) by (apply Rdiv_lt_0_compat; lra).
  assert (IZR n + 1 <= IZR (2 ^ 32) - 1) by (rewrite <- plus_IZR, <- minus_IZR; apply IZR_le; lia).
  assert (Hn1 : q < IZR n + 1) by nra.
  assert (Hu : to_u32 q = n).
  { unfold to_u32. simpl strunc. rewrite (Rtrunc_unique q n) by (lia || lra). apply u32_small. lia. }
  unfold axis_count. simpl. unfold truncateNearInteger. rewrite Hu, u32_small, plus_IZR by lia. simpl.
  replace (if Rltb 1 q then q else 1) with q by (real_cases; lra).
  destruct (Rleb 0 _ && Rleb _ _)%bool eqn:E; [exfalso; real_cases; lra|]. by rewrite (proj2 (Z.eqb_neq _ _)) by lia.
Qed.

Lemma axis_count_next i n q : (1 <= n < 2 ^ 32)%Z -> IZR n - 1 / 2 <= q < IZR n + 1 / 2 -> axis_count (S i) q = n.
Proof.
  intros Hn Hq. unfold axis_count. simpl.
  assert (Hu : to_u32 (q + 1 / 2) = n).
  { unfold to_u32. simpl strunc. rewrite (Rtrunc_unique _ n) by (lia || lra). apply u32_small. lia. }
  rewrite Hu. by rewrite (proj2 (Z.eqb_neq _ _)) by lia.
Qed.

(** The cell counts of [computeSCCellCounts] for a spacing [s]: at least one per axis; along
    the first axis as many whole cells of width [s] as fit, up to the roundoff tolerance; along the
    others within half a cell of the quotient.  So the lattice is never finer than asked for by more
    than the tolerance (half a cell) and one more cell would not fit. *)
Theorem SC_counts_fit (b : AABB R) s :
  aabb_wf b -> 0 < s ->
  (forall t, t ∈ cartesian_tags cs_dim -> 0 <= vget (bmax b) t - vget (bmin b) t < s * (IZR (2 ^ 32) - 1)) ->
  length (computeSCCellCounts b s) = cs_dim /\
  forall i t, tag_of i = Some t -> exists n, computeSCCellCounts b s !! i = Some n /\ (1 <= n)%Z /\
    let L := vget (bmax b) t - vget (bmin b) t in
    if (i =? 0)%nat then L < (IZR n + 1) * s /\ (n = 1%Z \/ IZR n * s <= L * (1 + 4 / IZR (2 ^ 23)))
    else L < (IZR n + 1 / 2) * s /\ (n = 1%Z \/ (IZR n - 1 / 2) * s <= L).
Proof.
  intros Hb Hs HL. destruct (computeSCCellCounts_axes b s Hb) as [Hl Hc]. split; [done|]. intros i t Ht.
  rewrite (Hc i t Ht). eexists. split; [done|]. specialize (HL t ltac:(by eapply list_elem_of_lookup_2)).
  set (q := quotient b s t). set (L := vget (bmax b) t - vget (bmin b) t) in *.
  assert (HqL : L = q * s) by (unfold q, quotient, L; field; lra).
  assert (Hq : 0 <= q < IZR (2 ^ 32) - 1).
  { rewrite HqL in HL. split; [apply (Rmult_le_reg_r s); lra|apply (Rmult_lt_reg_r s); lra]. }
  destruct (axis_count_spec i q Hq) as (H1 & Hx & Ht'). split; [done|]. rewrite HqL.
  assert (Hm : forall x y : R, x <= y -> x * s <= y * s) by (intros; nra).
  assert (Hm' : forall x y : R, x < y -> x * s < y * s) by (intros; nra).
  destruct (Nat.eqb_spec i 0) as [E|E].
  - destruct (Hx E) as [Ha Hc']. split; [by apply Hm'|]. destruct Hc' as [|Hc']; [by left|]. right. apply Hm in Hc'. lra.
  - destruct (Ht' E) as [Ha Hc']. split; [by apply Hm'|]. destruct Hc' as [|Hc']; [by left|]. right. apply Hm. lra.
Qed.
End counts.

Section witness.
#[local] Existing Instance dim2.

Lemma SC_lattice_witness :
  exists q : Particle R, exists pos, SC_place (mkAABB [0; 0] [0; 0] [3; 2])%R 4 [3; 2]%Z q = Some (set_relativePos pos q) /\
    site_at (mkAABB [0; 0] [0; 0] [3; 2])%R [3; 2]%Z pos = 4%Z.
Proof.
  set (v := (mkAABB [0; 0] [0; 0] [3; 2])%R : AABB R). set (z := [0; 0]%R : storage R).
  set (q := mkParticle 0 1 z 0%R z 0%R 0%R 0%R z 0%R : Particle R).
  destruct (SC_lattice v [3; 2]%Z q) as [Hp _].
  - split_and!; [done|by repeat constructor|done].
  - done.
  - done.
  - change (forall t, t ∈ [ax_x; ax_y] -> vget (bmin v) t < vget (bmax v) t)%R. intros t Ht. repeat (apply elem_of_cons in Ht as [->|Ht]; [unfold vget; simpl; lra|]). by apply elem_of_nil in Ht.
  - destruct (Hp 4%Z) as (pos & E & Hs & _); [vm_compute; split; congruence|]. exists q, pos. by split.
Defined.

Lemma SC_counts_fit_witness :
  length (computeSCCellCounts (mkAABB [0; 0] [0; 0] [3; 2])%R (1 / 2)%R) = 2.
Proof.
  destruct (SC_counts_fit (mkAABB [0; 0] [0; 0] [3; 2])%R (1 / 2)%R) as [E _]; [..|exact E].
  - done.
  - lra.
  - change (forall t, t ∈ [ax_x; ax_y] ->
      0 <= vget [3; 2] t - vget [0; 0] t < 1 / 2 * (IZR (2 ^ 32) - 1))%R.
    intros t Ht. repeat (apply elem_of_cons in Ht as [->|Ht]; [unfold vget; simpl; lra|]). by apply elem_of_nil in Ht.
Defined.
End witness.
