(* ===== verification/Sod.v ===== *)
(** * The Sod shock tube

    Models ValidationSetups/SodShockTube.hpp over the lattice of Lattice.v: the volumes
    of the fluid and of the walls in one, two and three dimensions, the functors that
    count and place particles, and the two setup blocks, which satisfy the interface
    [BlockLaws] that the initialisation relies on. *)
From Stdlib Require Import ZArith Lia Reals Lra.
From stdpp Require Import base sets list numbers.
From S2P Require Import Prelude Scalar Topology Aabb FrameList Regions Scan IdProvider Init InitLaws Lattice.

Section code.
Context {D : CartesianDim} {T : Type} `{Scalar T}.

(** The parameters of sph.param. *)
Definition h0 : T := slit 5 100.
Definition gamma_eos : T := (sofZ 5 / sofZ 3)%S.

(** [detail::aabbFromArrays] (with [makeVec]): the origin is the default point. *)
Definition aabbFromArrays (lo hi : list T) : AABB T := mkAABB (broadcast (sofZ 0)) lo hi.

Definition wallThickness : T := (sofZ 2 * h0)%S.
Definition spacingLeft : T :=
  match cs_dim with
  | 1 => (slit 1125 1000 / sofZ 32000)%S
  | 2 => slit 5 1000
  | _ => (sofZ 1 / sofZ 30)%S
  end.
Definition spacingRatio : T :=
  match cs_dim with 1 => sofZ 8 | 2 => slit 28284271 10000000 | _ => sofZ 2 end.
Definition spacingRight : T := (spacingLeft * spacingRatio)%S.
Definition transverseExtent : T :=
  match cs_dim with 1 => sofZ 0 | 2 => slit 7 100 | _ => (sofZ 1 / sofZ 3)%S end.

Record InitialConditions : Type := mkConditions {
  densityLeft : T;
  pressureLeft : T;
  densityRight : T;
  pressureRight : T
}.
Definition defaultConditions : InitialConditions := mkConditions (sofZ 1) (sofZ 1) (slit 125 1000) (slit 1 10).

(** ** The functors of the blocks *)

Definition isLeft (volume : AABB T) : bool := (vget (bmax volume) ax_x <=? sofZ 0)%S.

Definition SpacingNumParticles (dxLeft dxRight : T) (particleRegion : ParticleRegion T) : Z :=
  let s := if isLeft (volume particleRegion) then dxLeft else dxRight in
  numSCLatticeSites (computeSCCellCounts (volume particleRegion) s).

(** [None] where the lattice placement divides by zero. *)
Definition SpacingPlaceParticle (dxLeft dxRight pmass densityLeft densityRight pressureLeft pressureRight : T)
    (particleRegion : ParticleRegion T) (globalParticleIdx : Z) (particle : Particle T) : option (Particle T) :=
  let aabb := volume particleRegion in
  let rho := if isLeft aabb then densityLeft else densityRight in
  let P := if isLeft aabb then pressureLeft else pressureRight in
  let s := if isLeft aabb then dxLeft else dxRight in
  let counts := computeSCCellCounts aabb s in
  q ← SC_place aabb globalParticleIdx counts particle;
  Some (mkParticle (particleId q) (multiMask q) (relativePos q) pmass
    (for_each_tag (fun t v => vset v t (sofZ 0)) (velocity q)) rho h0 (P / ((gamma_eos - sofZ 1) * rho))%S
    (dvdt q) (dudt q)).

(** ** Volumes *)

Definition leftFluidVol : AABB T :=
  let L := transverseExtent in
  match cs_dim with
  | 1 => aabbFromArrays [sofZ (-1)] [sofZ 0]
  | 2 => aabbFromArrays [sofZ (-1); sofZ 0] [sofZ 0; L]
  | _ => aabbFromArrays [sofZ (-1); sofZ 0; sofZ 0] [sofZ 0; L; L]
  end.

Definition rightFluidVol : AABB T :=
  let L := transverseExtent in
  match cs_dim with
  | 1 => aabbFromArrays [sofZ 0] [sofZ 1]
  | 2 => aabbFromArrays [sofZ 0; sofZ 0] [sofZ 1; L]
  | _ => aabbFromArrays [sofZ 0; sofZ 0; sofZ 0] [sofZ 1; L; L]
  end.

Definition fluidDomain : AABB T :=
  let L := transverseExtent in
  match cs_dim with
  | 1 => aabbFromArrays [sofZ (-1)] [sofZ 1]
  | 2 => aabbFromArrays [sofZ (-1); sofZ 0] [sofZ 1; L]
  | _ => aabbFromArrays [sofZ (-1); sofZ 0; sofZ 0] [sofZ 1; L; L]
  end.

Definition fullDomain : AABB T :=
  let W := wallThickness in
  let L := transverseExtent in
  match cs_dim with
  | 1 => aabbFromArrays [sofZ (-1) - W] [sofZ 1 + W]
  | 2 => aabbFromArrays [sofZ (-1) - W; - W] [sofZ 1 + W; L + W]
  | _ => aabbFromArrays [sofZ (-1) - W; - W; - W] [sofZ 1 + W; L + W; L + W]
  end%S.

(** [addWalls]: what it appends. *)
Definition addWalls : list (AABB T) :=
  let W := wallThickness in
  let L := transverseExtent in
  let m1 := sofZ (-1) in let o := sofZ 0 in let l := sofZ 1 in
  match cs_dim with
  | 1 => [aabbFromArrays [m1 - W] [m1]; aabbFromArrays [l] [l + W]]
  | 2 => [aabbFromArrays [m1 - W; - W] [m1; L + W];
          aabbFromArrays [l; - W] [l + W; L + W];
          aabbFromArrays [m1; - W] [o; o];
          aabbFromArrays [o; - W] [l; o];
          aabbFromArrays [m1; L] [o; L + W];
          aabbFromArrays [o; L] [l; L + W]]
  | _ => [aabbFromArrays [m1 - W; - W; - W] [m1; L + W; L + W];
          aabbFromArrays [l; - W; - W] [l + W; L + W; L + W];
          aabbFromArrays [m1; - W; - W] [o; o; L + W];
          aabbFromArrays [o; - W; - W] [l; o; L + W];
          aabbFromArrays [m1; L; - W] [o; L + W; L + W];
          aabbFromArrays [o; L; - W] [l; L + W; L + W];
          aabbFromArrays [m1; o; - W] [o; L; o];
          aabbFromArrays [o; o; - W] [l; L; o];
          aabbFromArrays [m1; o; L] [o; L; L + W];
          aabbFromArrays [o; o; L] [l; L; L + W]]
  end%S.

(** ** Blocks *)

Definition particleMass (ic : InitialConditions) : T :=
  let dx := spacingLeft in
  match cs_dim with
  | 1 => densityLeft ic * dx
  | 2 => densityLeft ic * dx * dx
  | _ => densityLeft ic * dx * dx * dx
  end%S.

(** [placeParticleArgs] applied; where the lattice divides by zero the particle of the
    model stays as it was. *)
Definition placeParticleArgs (ic : InitialConditions) (R : ParticleRegion T) (k : Z) (q : Particle T) : Particle T :=
  default q (SpacingPlaceParticle spacingLeft spacingRight (particleMass ic) (densityLeft ic) (densityRight ic)
    (pressureLeft ic) (pressureRight ic) R k q).

(** The species the blocks fill. *)
Inductive SodSpecies : Type := SodDefault | SodBoundary.
#[export] Instance SodSpecies_eq_dec : EqDecision SodSpecies.
Proof. solve_decision. Defined.

Definition InteriorBlock (ic : InitialConditions) (sp : SodSpecies) : SetupBlock (T := T) :=
  mkBlock (bool_decide (sp = SodDefault)) [leftFluidVol; rightFluidVol]
    (SpacingNumParticles spacingLeft spacingRight) (placeParticleArgs ic).
Definition BoundaryBlock (ic : InitialConditions) (sp : SodSpecies) : SetupBlock (T := T) :=
  mkBlock (bool_decide (sp = SodBoundary)) addWalls
    (SpacingNumParticles spacingLeft spacingRight) (placeParticleArgs ic).

(** [SodShockTube::blocks]. *)
Definition sod_blocks (sp : SodSpecies) : list (SetupBlock (T := T)) :=
  [InteriorBlock defaultConditions sp; BoundaryBlock defaultConditions sp].
End code.

Arguments InitialConditions : clear implicits.

(** ** The blocks satisfy the interface of the initialisation *)

Section laws.
Context {D : CartesianDim} {T : Type} `{Scalar T}.

Lemma SC_place_mask v idx n (q q' : Particle T) : SC_place v idx n q = Some q' -> multiMask q' = multiMask q.
Proof. unfold SC_place. destruct (for_each_enum_tag _ _) as [[? ?]|]; [|done]. by intros [= <-]. Qed.

Lemma placeParticleArgs_occupied ic R k (q : Particle T) : occupied (placeParticleArgs ic R k q) = occupied q.
Proof.
  unfold placeParticleArgs, SpacingPlaceParticle, occupied.
  destruct (SC_place _ k _ q) as [q'|] eqn:E; [|done]. simpl. by rewrite (SC_place_mask _ _ _ _ _ E).
Qed.

#[export] Instance InteriorBlock_laws ic sp : BlockLaws (InteriorBlock ic sp : SetupBlock (T := T)).
Proof.
  split; intros; simpl; [apply numSCLatticeSites_bounds|done|done|apply placeParticleArgs_occupied].
Qed.

#[export] Instance BoundaryBlock_laws ic sp : BlockLaws (BoundaryBlock ic sp : SetupBlock (T := T)).
Proof.
  split; intros; simpl; [apply numSCLatticeSites_bounds|done|done|apply placeParticleArgs_occupied].
Qed.

Lemma sod_blocks_laws sp b : b ∈ (sod_blocks sp : list (SetupBlock (T := T))) -> BlockLaws b.
Proof.
  unfold sod_blocks. intros Hb. apply elem_of_cons in Hb as [->|Hb]; [apply _|].
  apply list_elem_of_singleton in Hb as ->. apply _.
Qed.
End laws.

(** ** Geometry and mass over exact arithmetic *)

Section exact.
Context {D : CartesianDim}.
Local Open Scope R_scope.

Definition sod_volumes : list (AABB R) := [leftFluidVol; rightFluidVol] ++ addWalls.

Lemma sod_constants : exists W L, wallThickness = W /\ 0 < W /\ transverseExtent = L /\ (cs_dim = 1%nat \/ 0 < L).
Proof.
  exists wallThickness, transverseExtent. unfold wallThickness, h0, transverseExtent.
  dim_cases D; split_and!; try done; try lra; first [by left|right; lra].
Qed.

(** The volumes as explicit boxes over [W] and [L]. *)
Definition tube_volumes (W L : R) : list (AABB R) :=
  match cs_dim with
  | 1 => [aabbFromArrays [-1] [0]; aabbFromArrays [0] [1];
          aabbFromArrays [-1 - W] [-1]; aabbFromArrays [1] [1 + W]]
  | 2 => [aabbFromArrays [-1; 0] [0; L]; aabbFromArrays [0; 0] [1; L];
          aabbFromArrays [-1 - W; - W] [-1; L + W]; aabbFromArrays [1; - W] [1 + W; L + W];
          aabbFromArrays [-1; - W] [0; 0]; aabbFromArrays [0; - W] [1; 0];
          aabbFromArrays [-1; L] [0; L + W]; aabbFromArrays [0; L] [1; L + W]]
  | _ => [aabbFromArrays [-1; 0; 0] [0; L; L]; aabbFromArrays [0; 0; 0] [1; L; L];
          aabbFromArrays [-1 - W; - W; - W] [-1; L + W; L + W]; aabbFromArrays [1; - W; - W] [1 + W; L + W; L + W];
          aabbFromArrays [-1; - W; - W] [0; 0; L + W]; aabbFromArrays [0; - W; - W] [1; 0; L + W];
          aabbFromArrays [-1; L; - W] [0; L + W; L + W]; aabbFromArrays [0; L; - W] [1; L + W; L + W];
          aabbFromArrays [-1; 0; - W] [0; L; 0]; aabbFromArrays [0; 0; - W] [1; L; 0];
          aabbFromArrays [-1; 0; L] [0; L; L + W]; aabbFromArrays [0; 0; L] [1; L; L + W]]
  end.

Lemma tube_volumes_eq : sod_volumes = tube_volumes wallThickness transverseExtent.
Proof.
  unfold sod_volumes, tube_volumes, leftFluidVol, rightFluidVol, addWalls. cbv zeta.
  generalize (wallThickness : R) as W, (transverseExtent : R) as L. intros W L. dim_cases D; reflexivity.
Qed.

Definition tube_domain (W L : R) : AABB R :=
  match cs_dim with
  | 1 => aabbFromArrays [-1 - W] [1 + W]
  | 2 => aabbFromArrays [-1 - W; - W] [1 + W; L + W]
  | _ => aabbFromArrays [-1 - W; - W; - W] [1 + W; L + W; L + W]
  end.

Lemma tube_domain_eq : fullDomain = tube_domain wallThickness transverseExtent.
Proof.
  unfold fullDomain, tube_domain. cbv zeta. generalize (wallThickness : R) as W, (transverseExtent : R) as L.
  intros W L. dim_cases D; reflexivity.
Qed.

(** Membership in a box, axis by axis. *)
Definition between (x : R * R * R) : Prop := x.1.1 <= x.2 <= x.1.2.
Definition boxR (v : AABB R) (p : storage R) : Prop := Forall between (zip (zip (bmin v) (bmax v)) p).

Lemma in_box_R v p : aabb_wf v -> storage_wf p -> in_box v p <-> boxR v p.
Proof.
  destruct v as [vo vl vh]. intros (_ & Hl & Hh) Hp. simpl in *. unfold in_box, boxR, bmin, bmax.
  assert (E : (forall t, t ∈ cartesian_tags cs_dim -> (vget vl t <=? vget p t)%S = true /\ (vget p t <=? vget vh t)%S = true) <->
    forall t, t ∈ cartesian_tags cs_dim -> vget vl t <= vget p t <= vget vh t).
  { simpl. split; intros E t Ht; specialize (E t Ht); [real_cases; destruct E; real_cases; lra|].
    split; apply Rleb_true; lra. }
  rewrite E. clear E. rewrite <- list.Forall_forall.
  vec_cases D; rewrite ?Forall_cons_iff, ?Forall_nil_iff; unfold between; simpl; tauto.
Qed.
End exact.

Section tube.
Context {D : CartesianDim} (W L : R).
Local Open Scope R_scope.

(** Goes through the volumes one by one. *)
Ltac each_volume Hv :=
  repeat (apply elem_of_cons in Hv as [->|Hv]); [..|by apply elem_of_nil in Hv].

Ltac boxR_inv H := repeat (let E := fresh "E" in apply Forall_cons_iff in H as [E H]; unfold between in E; simpl in E).

(** Searches the list of volumes for one that holds the point. *)
Ltac find_volume :=
  lazymatch goal with |- Exists _ _ => idtac end;
  first [apply List.Exists_cons_hd; repeat (apply List.Forall_cons; [unfold between; simpl; lra|]); apply List.Forall_nil
        |apply List.Exists_cons_tl; find_volume].

Lemma tube_cover p : 0 < W -> cs_dim = 1%nat \/ 0 < L ->
  storage_wf p -> boxR (tube_domain W L) p -> Exists (fun v => boxR v p) (tube_volumes W L).
Proof.
  unfold storage_wf. intros HW HL Hp. dim_cases D.
  - destruct p as [|a [|]]; try discriminate. intros Hd'. boxR_inv Hd'.
    destruct (Rle_lt_dec a (-1)), (Rle_lt_dec a 0), (Rle_lt_dec a 1); try lra; find_volume.
  - destruct p as [|a [|b [|]]]; try discriminate. intros Hd'. boxR_inv Hd'.
    destruct (Rle_lt_dec a (-1)), (Rle_lt_dec a 0), (Rle_lt_dec a 1); try lra;
    destruct (Rle_lt_dec b 0), (Rle_lt_dec b L); try lra; find_volume.
  - destruct p as [|a [|b [|c [|]]]]; try discriminate. intros Hd'. boxR_inv Hd'.
    destruct (Rle_lt_dec a (-1)), (Rle_lt_dec a 0), (Rle_lt_dec a 1); try lra;
    destruct (Rle_lt_dec b 0), (Rle_lt_dec b L); try lra;
    destruct (Rle_lt_dec c 0), (Rle_lt_dec c L); try lra; find_volume.
Qed.

Lemma tube_inside v p : 0 < W -> cs_dim = 1%nat \/ 0 < L ->
  storage_wf p -> v ∈ tube_volumes W L -> boxR v p -> boxR (tube_domain W L) p.
Proof.
  unfold storage_wf. intros HW HL Hp. dim_cases D; destruct HL as [?|HL]; try discriminate; intros Hv;
    (repeat (destruct p as [|? p]; try discriminate Hp)); each_volume Hv; intros Hd'; boxR_inv Hd';
    repeat (apply List.Forall_cons; [unfold between; simpl; lra|]); apply List.Forall_nil.
Qed.

Lemma tube_wf v : v ∈ tube_volumes W L \/ v = tube_domain W L -> aabb_wf v.
Proof.
  unfold aabb_wf, storage_wf, tube_volumes, tube_domain, aabbFromArrays, broadcast. intros [Hv|Hv]; dim_cases D;
    [each_volume Hv; done..| | |]; by rewrite Hv.
Qed.

(** Two boxes that meet in a face at most. *)
Definition apart (v w : AABB R) : Prop :=
  Exists (fun x => x.1.2 <= x.2.1 \/ x.2.2 <= x.1.1) (zip (zip (bmin v) (bmax v)) (zip (bmin w) (bmax w))).

Ltac find_axis :=
  first [apply List.Exists_cons_hd; simpl; lra | apply List.Exists_cons_tl; find_axis].

Lemma tube_apart i j v w : 0 < W -> cs_dim = 1%nat \/ 0 < L ->
  tube_volumes W L !! i = Some v -> tube_volumes W L !! j = Some w -> i <> j -> apart v w.
Proof.
  intros HW HL. unfold apart. dim_cases D; destruct HL as [?|HL]; try discriminate; intros Hi Hj Hij;
    (repeat (destruct i as [|i]; [injection Hi as <-|]); [..|discriminate Hi]);
    (repeat (destruct j as [|j]; [injection Hj as <-; (exfalso; lia) || find_axis|])); discriminate Hj.
Qed.

Lemma apart_axis v w : aabb_wf v -> aabb_wf w -> apart v w ->
  exists t, t ∈ cartesian_tags cs_dim /\ (vget (bmax v) t <= vget (bmin w) t \/ vget (bmax w) t <= vget (bmin v) t).
Proof.
  destruct v as [vo vl vh], w as [wo wl wh]. intros (_ & Hl & Hh) (_ & Hl' & Hh'). simpl in *. unfold apart, bmin, bmax.
  vec_cases D; intros E; rewrite ?List.Exists_cons, ?List.Exists_nil in E; simpl in E.
  - exists ax_x. split; [rewrite !elem_of_cons; tauto|]. simpl. tauto.
  - destruct E as [E|[E|[]]]; [exists ax_x|exists ax_y]; (split; [rewrite !elem_of_cons; tauto|]); simpl; tauto.
  - destruct E as [E|[E|[E|[]]]]; [exists ax_x|exists ax_y|exists ax_z]; (split; [rewrite !elem_of_cons; tauto|]); simpl; tauto.
Qed.

Lemma tube_side v : v ∈ tube_volumes W L -> 0 < W -> vget (bmax v) ax_x <= 0 \/ 0 <= vget (bmin v) ax_x.
Proof. dim_cases D; intros Hv ?; each_volume Hv; unfold vget; simpl; lra. Qed.
End tube.

Section theorems.
Context {D : CartesianDim}.
Local Open Scope R_scope.

(** Fluid and wall volumes of the shock tube tile the full domain: together they are the
    domain, no two of them overlap in more than a face, and none straddles the diaphragm at
    [x = 0], so that [isLeft] decides the side of a whole region. *)
Theorem sod_tiling :
  (forall p, storage_wf p -> in_box fullDomain p <-> exists v, v ∈ sod_volumes /\ in_box v p) /\
  (forall i j v w, sod_volumes !! i = Some v -> sod_volumes !! j = Some w -> i <> j ->
     exists t, t ∈ cartesian_tags cs_dim /\ (vget (bmax v) t <= vget (bmin w) t \/ vget (bmax w) t <= vget (bmin v) t)) /\
  (forall v, v ∈ sod_volumes -> vget (bmax v) ax_x <= 0 \/ 0 <= vget (bmin v) ax_x).
Proof.
  destruct sod_constants as (W & L & EW & HW & EL & HL).
  assert (Hdom : aabb_wf (tube_domain W L)) by (eapply tube_wf; by right).
  assert (Hvol : forall v, v ∈ tube_volumes W L -> aabb_wf v) by (intros v Hv; eapply tube_wf; by left).
  rewrite tube_volumes_eq, tube_domain_eq, EW, EL. split_and!.
  - intros p Hp. rewrite in_box_R by done. split.
    + intros Hb. destruct (list.Exists_exists (fun v => boxR v p) (tube_volumes W L)) as [E _].
      destruct (E (tube_cover W L p HW HL Hp Hb)) as (v & Hv & Hvp). exists v. split; [done|].
      apply in_box_R; auto.
    + intros (v & Hv & Hvp). eapply tube_inside; [done..|]. apply in_box_R; auto.
  - intros i j v w Hi Hj Hij. apply apart_axis; [by eapply Hvol, list_elem_of_lookup_2..|].
    by eapply tube_apart.
  - intros v Hv. by eapply tube_side.
Qed.

(** The number of particles of a volume and the density the setup gives it. *)
Definition volume_count (v : AABB R) : Z :=
  SpacingNumParticles spacingLeft spacingRight (mkRegion v emptyFrameList).
Definition volume_density (v : AABB R) : R :=
  if isLeft v then densityLeft defaultConditions else densityRight defaultConditions.

Lemma sites_of_axes b s ns :
  aabb_wf b -> length ns = cs_dim -> Forall (fun k => 0 < k)%Z ns -> (foldr Z.mul 1 ns < 2 ^ 32)%Z ->
  (forall i t n, tag_of i = Some t -> ns !! i = Some n -> axis_count i (quotient b s t) = n) ->
  numSCLatticeSites (computeSCCellCounts b s) = foldr Z.mul 1%Z ns.
Proof.
  intros Hb Hl Hf Hp Hax. destruct (computeSCCellCounts_axes b s Hb) as [Hlen Hc].
  replace (computeSCCellCounts b s) with ns; [by apply numSCLatticeSites_product|].
  apply list_eq. intros i. destruct (ns !! i) as [n|] eqn:E.
  - destruct (lookup_lt_is_Some_2 (cartesian_tags cs_dim) i) as [t Ht].
    { rewrite length_cartesian_tags, <- Hl. by eapply lookup_lt_Some. }
    rewrite (Hc i t Ht). f_equal. symmetry. by eapply Hax.
  - symmetry. apply lookup_ge_None. apply lookup_ge_None in E. lia.
Qed.

(** Boxes of the same extents get the same lattice. *)
Lemma counts_ext v w s :
  aabb_wf v -> aabb_wf w -> (forall t, t ∈ cartesian_tags cs_dim -> quotient v s t = quotient w s t) ->
  computeSCCellCounts v s = computeSCCellCounts w s.
Proof.
  intros Hv Hw Hq. destruct (computeSCCellCounts_axes v s Hv) as [Hl Hc], (computeSCCellCounts_axes w s Hw) as [Hl' Hc'].
  apply list_eq. intros i. destruct (tag_of i) as [t|] eqn:Ht.
  - rewrite (Hc i t Ht), (Hc' i t Ht), Hq; [done|]. by eapply list_elem_of_lookup_2.
  - unfold tag_of in Ht. apply lookup_ge_None in Ht. rewrite length_cartesian_tags in Ht.
    rewrite !lookup_ge_None_2; [done|lia..].
Qed.
End theorems.

Section mass.
Context {D : CartesianDim}.
Local Open Scope R_scope.

Definition fluid_counts : list Z * list Z :=
  match cs_dim with
  | 1 => ([28444], [3555])%Z
  | 2 => ([200; 14], [70; 5])%Z
  | _ => ([30; 10; 10], [15; 5; 5])%Z
  end.

Ltac sod_axes :=
  let i := fresh in let t := fresh in let n := fresh in let Ht := fresh in let Hn := fresh in
  intros i t n Ht Hn;
  repeat (destruct i as [|i]; [injection Ht as <-; injection Hn as <-;
    first [apply axis_count_first|apply axis_count_next]; try lia; unfold quotient, vget; simpl; lra|]);
  discriminate Ht.

Lemma fluid_sides : isLeft (leftFluidVol : AABB R) = true /\ isLeft (rightFluidVol : AABB R) = false.
Proof.
  unfold isLeft. simpl. rewrite Rleb_true, Rleb_false. unfold leftFluidVol, rightFluidVol.
  dim_cases D; unfold vget; simpl; lra.
Qed.

Lemma left_count : volume_count leftFluidVol = foldr Z.mul 1%Z fluid_counts.1.
Proof.
  unfold volume_count, SpacingNumParticles. cbn [volume]. rewrite (proj1 fluid_sides).
  unfold leftFluidVol, spacingLeft, transverseExtent, fluid_counts.
  dim_cases D; (apply sites_of_axes; [done|done|repeat constructor|done|]); sod_axes.
Qed.

Lemma right_count : volume_count rightFluidVol = foldr Z.mul 1%Z fluid_counts.2.
Proof.
  unfold volume_count, SpacingNumParticles. cbn [volume]. rewrite (proj2 fluid_sides).
  unfold rightFluidVol, spacingRight, spacingLeft, spacingRatio, transverseExtent, fluid_counts.
  dim_cases D; (apply sites_of_axes; [done|done|repeat constructor|done|]); sod_axes.
Qed.

(** On either side of the diaphragm the equal-mass particles of the fluid region carry the
    mass that the initial density asks for: [count * particleMass] is [density * volume], exactly
    in two and three dimensions and to less than one particle in one dimension. *)
Theorem sod_fluid_mass v :
  v ∈ [leftFluidVol; rightFluidVol : AABB R] ->
  let m := particleMass defaultConditions in
  let total := IZR (volume_count v) * m in
  total <= volume_density v * computeVolume v < total + m /\
  (cs_dim <> 1%nat -> total = volume_density v * computeVolume v).
Proof.
  intros [->|Hv]%elem_of_cons; [|apply list_elem_of_singleton in Hv as ->]; cbv zeta; unfold volume_density.
  - rewrite left_count, (proj1 fluid_sides). unfold fluid_counts, leftFluidVol, particleMass, spacingLeft, computeVolume, transverseExtent, for_each_tag.
    dim_cases D; unfold vget; simpl; rewrite !mult_IZR; (split; [lra|intros; (done || lra)]).
  - rewrite right_count, (proj2 fluid_sides). unfold fluid_counts, rightFluidVol, particleMass, spacingLeft, computeVolume, transverseExtent, for_each_tag.
    dim_cases D; unfold vget; simpl; rewrite !mult_IZR; (split; [lra|intros; (done || lra)]).
Qed.
End mass.

(** ** In binary32 *)

Section mirror.
#[local] Existing Instance dim3.

Lemma sod_fluid_mass_witness :
  (IZR (volume_count leftFluidVol) * particleMass defaultConditions =
   volume_density leftFluidVol * computeVolume leftFluidVol)%R.
Proof. apply (sod_fluid_mass leftFluidVol); [by left|done]. Defined.

(** The cell counts of every volume of the tube as a [float] computes them. *)
Definition tube_counts : list (list Z) :=
  map (fun v : AABB f32 => computeSCCellCounts v (if isLeft v then spacingLeft else spacingRight))
    ([leftFluidVol; rightFluidVol] ++ addWalls).

(** In three dimensions and in [float], the fluid gets the lattice of exact arithmetic; but
    the walls below and above the right fluid region, which have the same extents, get two
    layers and one: their quotient 3/2 sits on the rounding boundary of the transverse
    count, which has no tolerance for roundoff. *)
Theorem sod_mirror_walls :
  take 2 tube_counts = [[30; 10; 10]; [15; 5; 5]]%Z /\
  tube_counts !! 5 = Some [15; 2; 8]%Z /\ tube_counts !! 7 = Some [15; 1; 8]%Z /\
  tube_counts !! 9 = Some [15; 5; 2]%Z /\ tube_counts !! 11 = Some [15; 5; 1]%Z /\
  forall b t : nat, In (b, t) [(5, 7); (9, 11)] -> forall v w : AABB R,
    sod_volumes !! b = Some v -> sod_volumes !! t = Some w ->
    computeSCCellCounts v spacingRight = computeSCCellCounts w spacingRight.
Proof.
  split_and!; [by vm_compute..|]. rewrite tube_volumes_eq. simpl.
  intros b t [[= <- <-]|[[= <- <-]|[]]] v w [= <-] [= <-]; apply counts_ext; try done;
    intros ax [->|[->|Hax]%elem_of_cons]%elem_of_cons; try (apply list_elem_of_singleton in Hax as ->);
    unfold quotient, vget; simpl; lra.
Qed.
End mirror.
