(* ===== verification/RegionBounds.v ===== *)
(** * Region bounds

    Models spmacc/particles/regions/RegionBoundsUpdate.hpp: each block walks the
    frames of its regions, every worker extends a box of its own by the live
    particles it is handed, a tree reduction in shared memory joins the boxes,
    and the result becomes the region's volume. *)
From Stdlib Require Import ZArith Lia.
From stdpp Require Import base sets list numbers gmap.
From S2P Require Import Prelude Scalar Topology Aabb FrameList Lockstep Regions Scan FrameIndex Launch.

(** ** Boxes as a semilattice *)

Section corners.
Context {D : CartesianDim} {T : Type} `{ScalarOrder T}.

(** The corners of a box and their join. *)
Definition corners : Type := (storage T * storage T)%type.
Definition box_corners (b : AABB T) : corners := (bmin b, bmax b).
Definition cjoin (a b : corners) : corners :=
  (zip_with smin2 a.1 b.1, zip_with smax2 a.2 b.2).

Lemma zip_with_assoc (f : T -> T -> T) : Assoc (=) f -> Assoc (=) (zip_with f).
Proof.
  intros Hf x. induction x as [|a x IH]; intros [|b y] [|c z]; simpl; try done.
  by rewrite Hf, IH.
Qed.

Lemma zip_with_comm (f : T -> T -> T) : Comm (=) f -> Comm (=) (zip_with f).
Proof.
  intros Hf x. induction x as [|a x IH]; intros [|b y]; simpl; try done.
  by rewrite Hf, IH.
Qed.

#[export] Instance cjoin_assoc : Assoc (=) cjoin.
Proof using All.
  intros [a1 a2] [b1 b2] [c1 c2]. unfold cjoin. simpl. f_equal; apply zip_with_assoc; apply _.
Qed.

#[export] Instance cjoin_comm : Comm (=) cjoin.
Proof using All.
  intros [a1 a2] [b1 b2]. unfold cjoin. simpl. f_equal; apply zip_with_comm; apply _.
Qed.

Lemma smin2_idem x : smin2 x x = x.
Proof. unfold smin2. by destruct (x <? x)%S. Qed.

Lemma smax2_idem x : smax2 x x = x.
Proof. unfold smax2. by destruct (x <? x)%S. Qed.

Lemma cjoin_idem a : cjoin a a = a.
Proof.
  destruct a as [l h]. unfold cjoin. simpl. f_equal.
  - induction l; simpl; [done|]. by rewrite smin2_idem, IHl.
  - induction h; simpl; [done|]. by rewrite smax2_idem, IHh.
Qed.

Lemma box_corners_extend b o :
  aabb_wf b -> aabb_wf o -> box_corners (extend_box b o) = cjoin (box_corners b) (box_corners o).
Proof. intros Hb Ho. by rewrite extend_box_zip. Qed.

Lemma extend_box_origin b o : aabb_wf b -> aabb_wf o -> origin (extend_box b o) = origin b.
Proof. intros. by rewrite extend_box_zip. Qed.

(** The sequential extension of a box by the positions [ps]. *)
Definition extend_all (b : AABB T) (ps : list (storage T)) : AABB T := foldl extend_vec b ps.

Lemma extend_all_wf b ps : aabb_wf b -> Forall storage_wf ps ->
  aabb_wf (extend_all b ps) /\ origin (extend_all b ps) = origin b.
Proof.
  intros Hb Hps. revert b Hb. induction Hps as [|p ps Hp _ IH]; intros b Hb; [done|].
  cbn [extend_all foldl]. destruct (IH (extend_vec b p)) as [? E]; [by apply extend_vec_wf|].
  split; [done|]. unfold extend_all in E. rewrite E. by apply extend_vec_origin.
Qed.

Lemma extend_all_corners b ps : aabb_wf b -> Forall storage_wf ps ->
  Some (box_corners (extend_all b ps)) = sfold cjoin (box_corners b :: map (fun p => (p, p)) ps).
Proof using All.
  intros Hb Hps. rewrite <-(foldl_sfold cjoin). f_equal. revert b Hb.
  induction Hps as [|p ps Hp _ IH]; intros b Hb; [done|].
  cbn [extend_all foldl map]. unfold extend_all in IH. rewrite IH by (by apply extend_vec_wf).
  f_equal. rewrite extend_vec_box, box_corners_extend; done.
Qed.

Lemma aabb_eq (a b : AABB T) : origin a = origin b -> box_corners a = box_corners b -> a = b.
Proof. destruct a, b. unfold box_corners. simpl. by intros -> [= -> ->]. Qed.

(** Extension is independent of the order of the positions. *)
Lemma extend_all_perm b ps ps' :
  aabb_wf b -> Forall storage_wf ps -> ps ≡ₚ ps' -> extend_all b ps = extend_all b ps'.
Proof using All.
  intros Hb Hps Hp. assert (Hps' : Forall storage_wf ps') by (by rewrite <-Hp).
  apply aabb_eq.
  - destruct (extend_all_wf b ps), (extend_all_wf b ps'); congruence.
  - apply Some_inj. rewrite !extend_all_corners by done.
    apply (sfold_perm cjoin). by rewrite Hp.
Qed.

Lemma vget_zip_with f v w t :
  storage_wf v -> storage_wf w -> t ∈ cartesian_tags cs_dim ->
  vget (zip_with f v w : storage T) t = f (vget v t) (vget w t).
Proof.
  intros Hv Hw Ht. vec_cases D;
    repeat (apply elem_of_cons in Ht as [->|Ht]; [reflexivity|]); by apply elem_of_nil in Ht.
Qed.

(** The extended box contains every position it was extended by, and keeps
    what it contained. *)
Lemma extend_vec_in b v : aabb_wf b -> storage_wf v -> in_box (extend_vec b v) v.
Proof using All.
  intros Hb Hv t Ht. rewrite extend_vec_box, extend_box_zip by done. destruct Hb as (_ & Hl & Hh).
  simpl. rewrite !vget_zip_with by done. split; [apply smin2_le_r|apply smax2_ge_r].
Qed.

Lemma extend_vec_mono b v w :
  aabb_wf b -> storage_wf v -> in_box b w -> in_box (extend_vec b v) w.
Proof using All.
  intros Hb Hv Hw t Ht. rewrite extend_vec_box, extend_box_zip by done.
  destruct (Hw t Ht) as [H1 H2]. destruct Hb as (_ & Hl & Hh).
  simpl. rewrite !vget_zip_with by done.
  split; [eapply sleb_trans; [apply smin2_le_l|done]|eapply sleb_trans; [done|apply smax2_ge_l]].
Qed.

Lemma extend_all_in b ps v : aabb_wf b -> Forall storage_wf ps -> v ∈ ps -> in_box (extend_all b ps) v.
Proof using All.
  intros Hb Hps. assert (Hkeep : forall ps b w, aabb_wf b -> Forall storage_wf ps -> in_box b w ->
    in_box (extend_all b ps) w).
  { clear ps b v Hb Hps. intros ps b w Hb Hps. revert b Hb. induction Hps as [|p ps Hp _ IH]; intros b Hb Hw; [done|].
    change (in_box (extend_all (extend_vec b p) ps) w). apply IH; [by apply extend_vec_wf|by apply extend_vec_mono]. }
  revert b Hb. induction Hps as [|p ps Hp Hps IH]; intros b Hb Hv; [by apply elem_of_nil in Hv|].
  change (in_box (extend_all (extend_vec b p) ps) v).
  apply elem_of_cons in Hv as [->|Hv].
  - apply Hkeep; [by apply extend_vec_wf|done|by apply extend_vec_in].
  - apply IH; [by apply extend_vec_wf|done].
Qed.

(** Every bound of the extended box comes from the start box or a position. *)
Lemma extend_all_tight b ps t :
  aabb_wf b -> Forall storage_wf ps -> t ∈ cartesian_tags cs_dim ->
  (exists v, v ∈ bmin b :: ps /\ vget (bmin (extend_all b ps)) t = vget v t) /\
  (exists v, v ∈ bmax b :: ps /\ vget (bmax (extend_all b ps)) t = vget v t).
Proof.
  intros Hb Hps Ht. revert b Hb. induction Hps as [|p ps Hp Hps IH]; intros b Hb.
  { split; eexists; split; [by left|done|by left|done]. }
  cbn [extend_all foldl].
  destruct (IH (extend_vec b p)) as [(v & Hv & Ev) (w & Hw & Ew)]; [by apply extend_vec_wf|].
  unfold extend_all in *. rewrite Ev, Ew. clear Ev Ew IH.
  rewrite extend_vec_box, extend_box_zip in Hv, Hw by done. simpl in Hv, Hw.
  destruct Hb as (_ & Hl & Hh). split.
  - apply elem_of_cons in Hv as [->|Hv]; [|exists v; split; [by do 2 right|done]].
    rewrite vget_zip_with by done. unfold smin2.
    case_goal; [exists p|exists (bmin b)]; (split; [rewrite !elem_of_cons; auto|done]).
  - apply elem_of_cons in Hw as [->|Hw]; [|exists w; split; [by do 2 right|done]].
    rewrite vget_zip_with by done. unfold smax2.
    case_goal; [exists p|exists (bmax b)]; (split; [rewrite !elem_of_cons; auto|done]).
Qed.
End corners.

(** ** UpdateRegionBounds *)

Section update.
Context {D : CartesianDim} {T : Type} `{Scalar T} `{IdxMaps}.

Definition MaxBlockSize : nat := 512.

(** The live particles of a frame at the given slots. *)
Definition positions_at (fr : Frame T) (ss : list nat) : list (storage T) :=
  omap (fun s => relativePos <$> slots fr !! s) ss.

(** The thread-local accumulation of worker [w]: walk the frames of the list,
    extend by the live slots the worker is handed. *)
Definition local_bounds (fuel frameSize numWorkers : nat) (h : heap T) (l : FrameList) (w : nat)
    : option (AABB T) :=
  r ← forEachFrame fuel (fun p s =>
        (s.1, acc ← s.2; fr ← s.1 !! p; ss ← lockstepForEachParticle frameSize numWorkers w fr;
              Some (foldl extend_vec acc (positions_at fr ss))))
      (m_firstNode l) (h, Some aabb_default);
  r.2.

(** The block-wide reduction; [None] when the shared array is too small. *)
Definition region_bounds (fuel frameSize numWorkers : nat) (h : heap T) (l : FrameList)
    : option (AABB T) :=
  if MaxBlockSize <? numWorkers then None else
  s_bounds ← mapM (local_bounds fuel frameSize numWorkers h l) (seq 0 numWorkers);
  tree_reduce extend_box numWorkers s_bounds !! 0.

(** One iteration of the grid-stride loop. *)
Definition update_region (fuel frameSize numWorkers : nat) (h : heap T) (i : nat)
    (prs : list (ParticleRegion T)) : option (list (ParticleRegion T)) :=
  region ← prs !! i;
  region' ← (v ← region_bounds fuel frameSize numWorkers h (particleFrameList region);
             Some (set_volume v region));
  Some (<[i := region']> prs).

(** [UpdateRegionBounds], block [b]. *)
Definition UpdateRegionBounds (fuel frameSize numWorkers : nat) (h : heap T) (gridDim numRegions b : nat)
    (prs : list (ParticleRegion T)) : option (list (ParticleRegion T)) :=
  run_blocks (strided b gridDim numRegions) (update_region fuel frameSize numWorkers h) prs.

Definition threadsPerBlock : nat := 256.
Definition maxBlocks : nat := 1024.

(** The grid sizing of [UpdateVolumes]. *)
Definition volume_blocks (size : nat) : nat :=
  let n := (size + threadsPerBlock - 1) / threadsPerBlock in
  let n := if maxBlocks <? n then maxBlocks else n in
  if n =? 0 then 1 else n.

(** [UpdateVolumes]; [ord] is the order in which the blocks of the grid run and
    [numWorkers] the workers the backend gives a block of [threadsPerBlock]. *)
Definition UpdateVolumes (fuel frameSize numWorkers : nat) (ord : nat -> list nat) (h : heap T)
    (pr : PRBuffer T) : option (PRBuffer T) :=
  if 0 <? pr_size pr then
    buf ← pr_buffer pr;
    dev ← run_blocks (ord (volume_blocks (pr_size pr)))
            (UpdateRegionBounds fuel frameSize numWorkers h (volume_blocks (pr_size pr)) (pr_size pr))
            (deviceData buf);
    Some (mkPRBuffer (pr_id pr) (Some (mkHD (hostData buf) dev)) (pr_size pr) (topologyVersion pr))
  else Some pr.

(** The positions of the live particles of a list of frames. *)
Definition live_positions (h : heap T) (ps : list Z) : list (storage T) :=
  ps ≫= fun p => match h !! p with Some fr => map relativePos (frame_live fr) | None => [] end.

Definition frames_ok (frameSize : nat) (h : heap T) (ps : list Z) : Prop :=
  forall p, p ∈ ps -> exists fr, h !! p = Some fr /\ length (slots fr) = frameSize /\
    Forall (fun q => occupied q = true -> storage_wf (relativePos q)) (slots fr).

Lemma volume_blocks_pos size : 0 < volume_blocks size <= maxBlocks.
Proof.
  unfold volume_blocks. destruct (Nat.ltb_spec maxBlocks ((size + threadsPerBlock - 1) / threadsPerBlock));
    case_goal; bool_to_prop; unfold maxBlocks in *; lia.
Qed.

Lemma live_slots_positions fr :
  positions_at fr (live_slots fr) = map relativePos (frame_live fr).
Proof.
  unfold live_slots, frame_live, positions_at, slot_live.
  induction (slots fr) as [|q qs IH] using rev_ind; [done|].
  rewrite length_app, Nat.add_1_r, seq_S, !filter_app, omap_app, map_app. f_equal.
  - rewrite <-IH. transitivity (omap (fun s => relativePos <$> (qs ++ [q]) !! s)
      (filter (fun s => match qs !! s with Some p => occupied p | None => false end = true) (seq 0 (length qs)))).
    + f_equal. apply list_filter_ext_in. intros s Hs%elem_of_seq. by rewrite lookup_app_l by lia.
    + apply list_omap_ext, Forall_Forall2_diag, Forall_forall. intros s [_ Hs%elem_of_seq]%list_elem_of_filter.
      by rewrite lookup_app_l by lia.
  - change (0 + length qs) with (length qs).
    assert (Hq : (qs ++ [q]) !! length qs = Some q) by by apply list_lookup_middle.
    destruct (occupied q) eqn:Ho.
    + rewrite !filter_cons_True by (by rewrite ?Hq). simpl. by rewrite Hq.
    + rewrite !filter_cons_False by (rewrite ?Hq, Ho; done). done.
Qed.

Lemma local_bounds_eq fuel frameSize nW h l ps w :
  is_list h l ps -> length ps <= fuel -> frames_ok frameSize h ps -> w < nW ->
  local_bounds fuel frameSize nW h l w =
  Some (extend_all aabb_default (ps ≫= fun p => match h !! p with
     | Some fr => positions_at fr (filter (fun s => slot_live fr s = true) (idx_map_strided nW w frameSize))
     | None => [] end)).
Proof.
  intros Hl Hf Hok Hw. unfold local_bounds.
  rewrite (forEachFrame_chain _ _ _ _ ps); [|done| |by apply is_list_chain].
  2:{ intros q r [h0 s0] _ _. done. }
  cbn [mbind option_bind]. clear Hl Hf. generalize (@aabb_default D T _) as b0.
  induction ps as [|p ps IH]; intros b0; [done|]. cbn [foldl fst snd mbind option_bind].
  destruct (Hok p ltac:(by left)) as (fr & Hh & Hlen & _). rewrite Hh. cbn [mbind option_bind].
  rewrite lockstepForEachParticle_eq by done. cbn [mbind option_bind].
  rewrite IH by (intros q Hq; apply Hok; by right).
  rewrite bind_cons, Hh. unfold extend_all. by rewrite foldl_app.
Qed.

Context {O : ScalarOrder T}.

(** What one worker sees of the list. *)
Definition worker_positions (frameSize nW : nat) (h : heap T) (ps : list Z) (w : nat) : list (storage T) :=
  ps ≫= fun p => match h !! p with
    | Some fr => positions_at fr (filter (fun s => slot_live fr s = true) (idx_map_strided nW w frameSize))
    | None => [] end.

Lemma worker_positions_partition frameSize nW h ps :
  0 < nW -> frames_ok frameSize h ps ->
  seq 0 nW ≫= worker_positions frameSize nW h ps ≡ₚ live_positions h ps.
Proof.
  intros Hn Hok. unfold worker_positions, live_positions. rewrite bind_swap.
  induction ps as [|p ps IH]; [done|]. rewrite !bind_cons, IH by (intros q Hq; apply Hok; by right).
  f_equiv. destruct (Hok p ltac:(by left)) as (fr & -> & Hlen & _).
  rewrite <-live_slots_positions. unfold positions_at.
  rewrite <-(live_slots_partition frameSize nW fr Hn Hlen).
  generalize (seq 0 nW). induction l as [|w ws IHw]; [done|].
  rewrite !bind_cons, IHw. by rewrite omap_app.
Qed.

Lemma live_positions_wf frameSize h ps :
  frames_ok frameSize h ps -> Forall storage_wf (live_positions h ps).
Proof.
  intros Hok. apply Forall_forall. intros v (p & Hv & Hp)%list_elem_of_bind.
  destruct (Hok p Hp) as (fr & Hh & _ & Hwf). rewrite Hh in Hv.
  apply list_elem_of_fmap in Hv as (q & -> & [Hq1 Hq2]%list_elem_of_filter).
  rewrite Forall_forall in Hwf. by apply Hwf.
Qed.

(** The parallel reduction computes the sequential bounding box. *)
Lemma region_bounds_eq fuel frameSize k h l ps :
  is_list h l ps -> length ps <= fuel -> frames_ok frameSize h ps -> 2 ^ k <= MaxBlockSize ->
  region_bounds fuel frameSize (2 ^ k) h l = Some (extend_all aabb_default (live_positions h ps)).
Proof using O.
  intros Hl Hf Hok Hk. set (nW := 2 ^ k) in *.
  assert (HnW : 0 < nW) by (pose proof (Nat.pow_nonzero 2 k); lia).
  assert (Hpart := worker_positions_partition frameSize nW h ps HnW Hok).
  assert (Hlw := live_positions_wf frameSize h ps Hok).
  assert (Hw : forall w, w ∈ seq 0 nW -> Forall storage_wf (worker_positions frameSize nW h ps w)).
  { intros w Hin. rewrite <-Hpart in Hlw. rewrite Forall_forall in Hlw |- *. intros v Hv.
    apply Hlw, list_elem_of_bind. eauto. }
  unfold region_bounds. rewrite (proj2 (Nat.ltb_ge _ _)) by done.
  set (loc := fun w => extend_all aabb_default (worker_positions frameSize nW h ps w)).
  rewrite (mapM_total _ loc) by (intros w Hin%elem_of_seq; apply local_bounds_eq; done || lia).
  cbn [mbind option_bind].
  assert (Hgood : Forall (fun b : AABB T => aabb_wf b /\ origin b = origin aabb_default) (map loc (seq 0 nW))).
  { apply Forall_fmap, Forall_forall. intros w Hin.
    apply extend_all_wf; [apply aabb_default_wf|by apply Hw]. }
  destruct (tree_reduce_hom (fun b : AABB T => aabb_wf b /\ origin b = origin aabb_default)
    box_corners extend_box cjoin nW (map loc (seq 0 nW))) as [Hmap Hall]; [|done|].
  { intros x y [Hx Ox] [Hy Oy]. rewrite box_corners_extend, extend_box_origin by done.
    split; [|done]. split; [by apply extend_box_wf|done]. }
  assert (Hlen : length (map box_corners (map loc (seq 0 nW))) = 2 ^ k) by (by rewrite !length_map, length_seq).
  pose proof (tree_reduce_pow2 cjoin k _ Hlen) as Ht. fold nW in Ht. rewrite <-Hmap in Ht.
  assert (Hfold : sfold cjoin (map box_corners (map loc (seq 0 nW))) =
            Some (box_corners (extend_all aabb_default (live_positions h ps)))).
  { rewrite (extend_all_perm _ _ (seq 0 nW ≫= worker_positions frameSize nW h ps))
      by (apply aabb_default_wf || done).
    rewrite extend_all_corners by (apply aabb_default_wf || by rewrite Hpart).
    set (d := box_corners aabb_default). rewrite map_map.
    transitivity (sfold cjoin (concat (map (cons d)
      (map (fun w => map (fun p => (p, p)) (worker_positions frameSize nW h ps w)) (seq 0 nW))))).
    - rewrite map_map. revert Hw. generalize (seq 0 nW). induction l0 as [|w ws IH]; intros Hw; [done|].
      cbn [map concat]. rewrite sfold_cons, (sfold_app cjoin), IH by (intros; apply Hw; by right).
      f_equal. unfold loc. apply extend_all_corners; [apply aabb_default_wf|apply Hw; by left].
    - rewrite (sfold_idem_cons cjoin); [|apply cjoin_idem|destruct nW; [lia|done]].
      f_equal. f_equal. rewrite bind_concat_map.
      generalize (seq 0 nW). induction l0 as [|w ws IH]; [done|].
      rewrite !bind_cons, map_app. by f_equal. }
  rewrite Hfold in Ht. rewrite list_lookup_fmap in Ht.
  destruct (tree_reduce extend_box nW (map loc (seq 0 nW)) !! 0) as [b|] eqn:Eb; [|discriminate].
  f_equal. apply aabb_eq; [|by apply Some_inj].
  rewrite (proj2 (extend_all_wf aabb_default _ aabb_default_wf Hlw)).
  rewrite Forall_lookup in Hall. by apply (Hall _ _ Eb).
Qed.


(** The bounding box of the live particles of a list of frames. *)
Definition bounding (h : heap T) (ps : list Z) : AABB T := extend_all aabb_default (live_positions h ps).

(** Positions within the finite range of the scalar. *)
Definition in_limits (v : storage T) : Prop :=
  forall t, t ∈ cartesian_tags cs_dim ->
    sleb slowest (vget v t) = true /\ sleb (vget v t) smax_limit = true.

Lemma vget_broadcast (x : T) t : t ∈ cartesian_tags cs_dim -> vget (broadcast x) t = x.
Proof.
  intros Ht. unfold broadcast. vec_cases D;
    repeat (apply elem_of_cons in Ht as [->|Ht]; [reflexivity|]); by apply elem_of_nil in Ht.
Qed.

Lemma bounding_tight h ps frameSize t :
  frames_ok frameSize h ps -> live_positions h ps <> [] -> Forall in_limits (live_positions h ps) ->
  t ∈ cartesian_tags cs_dim ->
  (exists v, v ∈ live_positions h ps /\ vget (bmin (bounding h ps)) t = vget v t) /\
  (exists v, v ∈ live_positions h ps /\ vget (bmax (bounding h ps)) t = vget v t).
Proof using O.
  intros Hok Hne Hlim Ht. pose proof (live_positions_wf _ _ _ Hok) as Hwf.
  destruct (live_positions h ps) as [|x xs] eqn:E; [done|]. clear Hne.
  assert (Hx : in_box (bounding h ps) x).
  { unfold bounding. rewrite E. apply extend_all_in; [apply aabb_default_wf|done|by left]. }
  destruct (Hx t Ht) as [Hx1 Hx2].
  apply Forall_cons in Hlim as [Hxl _]. destruct (Hxl t Ht) as [Hl1 Hl2].
  destruct (extend_all_tight aabb_default (x :: xs) t aabb_default_wf Hwf Ht) as [(v & Hv & Ev) (w & Hw & Ew)].
  unfold bounding in *. rewrite E in *. split.
  - apply elem_of_cons in Hv as [->|Hv]; [|by exists v]. exists x. split; [by left|].
    change (bmin aabb_default) with (broadcast (D := D) (smax_limit (T := T))) in Ev.
    rewrite vget_broadcast in Ev by done. apply sleb_antisym; [done|]. by rewrite Ev.
  - apply elem_of_cons in Hw as [->|Hw]; [|by exists w]. exists x. split; [by left|].
    change (bmax aabb_default) with (broadcast (D := D) (slowest (T := T))) in Ew.
    rewrite vget_broadcast in Ew by done. apply sleb_antisym; [|done]. by rewrite Ew.
Qed.

(** What [UpdateVolumes] does to the buffer. *)
Lemma UpdateVolumes_spec fuel frameSize k ord h pr fss :
  prbuf_wf pr -> region_lists h (regions_of pr) fss -> 2 ^ k <= MaxBlockSize ->
  (forall n, ord n ≡ₚ seq 0 n) ->
  (forall ps, ps ∈ fss -> length ps <= fuel /\ frames_ok frameSize h ps) ->
  exists pr', UpdateVolumes fuel frameSize (2 ^ k) ord h pr = Some pr' /\
    pr_size pr' = pr_size pr /\ topologyVersion pr' = topologyVersion pr /\ pr_id pr' = pr_id pr /\ prbuf_wf pr' /\
    forall i r ps, regions_of pr !! i = Some r -> fss !! i = Some ps ->
      regions_of pr' !! i = Some (mkRegion (bounding h ps) (particleFrameList r)).
Proof using O.
  intros Hw Hl Hk Hord Hfs. pose proof (region_lists_length _ _ _ Hl Hw) as Hlen.
  unfold UpdateVolumes. destruct (Nat.ltb_spec 0 (pr_size pr)) as [Hp|Hp].
  2:{ exists pr. split_and!; [done..|]. intros i r ps _ Hi. apply lookup_lt_Some in Hi. lia. }
  unfold prbuf_wf in Hw. unfold regions_of, getDeviceDataBox in *.
  destruct (pr_buffer pr) as [buf|] eqn:Eb; [|lia]. cbn [mbind option_bind].
  set (n := pr_size pr) in *. set (g := volume_blocks n).
  assert (Hg : 0 < g) by (apply volume_blocks_pos).
  unfold UpdateRegionBounds. rewrite run_blocks_bind.
  assert (Hidx : ord g ≫= (fun b => strided b g n) ≡ₚ seq 0 n).
  { rewrite (Hord g). by apply strided_partition. }
  destruct (run_blocks_update (ord g ≫= fun b => strided b g n)
    (fun region => v ← region_bounds fuel frameSize (2 ^ k) h (particleFrameList region);
                   Some (set_volume v region))
    (fun region => set_volume (default aabb_default
                   (region_bounds fuel frameSize (2 ^ k) h (particleFrameList region))) region)
    (deviceData buf)) as (dev & Hrun & Hdev).
  { rewrite Hidx. apply NoDup_seq. }
  { intros i. rewrite Hidx, elem_of_seq. lia. }
  { intros i r Hi Hr. rewrite Hidx, elem_of_seq in Hi.
    destruct (lookup_lt_is_Some_2 fss i ltac:(lia)) as [ps Hps].
    destruct (Forall2_lookup_r _ _ _ _ _ Hl Hps) as (r' & [Hr' _]%lookup_take_Some & Hlist).
    rewrite Hr in Hr'. injection Hr' as <-.
    destruct (Hfs ps) as [Hf Hok]; [by eapply list_elem_of_lookup_2|].
    by rewrite (region_bounds_eq _ _ _ _ _ ps). }
  unfold update_region. rewrite Hrun. cbn [mbind option_bind].
  assert (Hld : length dev = length (deviceData buf)).
  { apply (same_lookups_length dev). intros i. rewrite Hdev. destruct (decide (i ∈ _)); [|done].
    destruct (deviceData buf !! i); simpl; split; intros [? ?]; eauto; done. }
  eexists; split; [done|]. cbn [pr_size topologyVersion pr_id pr_buffer hostData deviceData].
  split_and!; [done..|by unfold prbuf_wf; simpl; rewrite Hld|].
  intros i r ps [Hr Hi]%lookup_take_Some Hps. apply lookup_take_Some. split; [|done].
  rewrite Hdev, decide_True by (rewrite Hidx, elem_of_seq; lia).
  rewrite Hr. cbn [fmap option_fmap option_map]. f_equal.
  destruct (Forall2_lookup_r _ _ _ _ _ Hl Hps) as (r' & [Hr' _]%lookup_take_Some & Hlist).
  rewrite Hr in Hr'. injection Hr' as <-.
  destruct (Hfs ps) as [Hf Hok]; [by eapply list_elem_of_lookup_2|].
  by rewrite (region_bounds_eq _ _ _ _ _ ps).
Qed.

(** With a power-of-two block of at most 512 workers, [UpdateVolumes] sets the
    volume of every region, once, to the sequential bounding box of its live
    particles, whatever the order of the blocks: each live particle lies inside, each
    face of a non-empty region touches one, the lists and the topology version
    are untouched; and the origin of every region is reset to zero. *)
Theorem UpdateVolumes_bounds fuel frameSize k ord h pr fss :
  prbuf_wf pr -> region_lists h (regions_of pr) fss -> 2 ^ k <= MaxBlockSize ->
  (forall n, ord n ≡ₚ seq 0 n) ->
  (forall ps, ps ∈ fss -> length ps <= fuel /\ frames_ok frameSize h ps) ->
  exists pr', UpdateVolumes fuel frameSize (2 ^ k) ord h pr = Some pr' /\
    pr_size pr' = pr_size pr /\ topologyVersion pr' = topologyVersion pr /\
    forall i r ps, regions_of pr !! i = Some r -> fss !! i = Some ps ->
      exists v, regions_of pr' !! i = Some (mkRegion v (particleFrameList r)) /\
        v = bounding h ps /\
        (forall x, x ∈ live_positions h ps -> in_box v x) /\
        (live_positions h ps <> [] -> Forall in_limits (live_positions h ps) ->
         forall t, t ∈ cartesian_tags cs_dim ->
           (exists x, x ∈ live_positions h ps /\ vget (bmin v) t = vget x t) /\
           (exists x, x ∈ live_positions h ps /\ vget (bmax v) t = vget x t)) /\
        origin v = broadcast (sofZ 0).
Proof using O.
  intros Hw Hl Hk Hord Hfs.
  destruct (UpdateVolumes_spec fuel frameSize k ord h pr fss Hw Hl Hk Hord Hfs) as (pr' & E & Hs & Hv & _ & _ & Hreg).
  exists pr'. split_and!; [done..|].
  intros i r ps Hr Hps. exists (bounding h ps).
  destruct (Hfs ps) as [_ Hok]; [by eapply list_elem_of_lookup_2|].
  pose proof (live_positions_wf _ _ _ Hok) as Hwf. split_and!; [by apply Hreg|done| | |].
  - intros x Hx. apply extend_all_in; [apply aabb_default_wf|done..].
  - intros Hne Hlim t Ht. by eapply bounding_tight.
  - by apply (extend_all_wf aabb_default _ aabb_default_wf Hwf).
Qed.
End update.

(** ** Witness *)

Lemma UpdateVolumes_bounds_witness :
  exists pr', UpdateVolumes (D := dim3) 2 2 4 (seq 0) two_frames pr_a = Some pr' /\
    regions_of pr' !! 0 = Some (mkRegion (mkAABB [0; 0; 0] [1; 2; 3] [1; 2; 3])%Z two_list).
Proof.
  destruct (UpdateVolumes_bounds (D := dim3) 2 2 2 (seq 0) two_frames pr_a [[16; 32]%Z])
    as (pr' & E & _ & _ & Hr).
  - vm_compute. split; [reflexivity|]. lia.
  - apply Forall2_cons; split; [exact two_frames_list|apply Forall2_nil; done].
  - vm_compute. lia.
  - done.
  - intros ps ->%list_elem_of_singleton. split; [done|].
    intros p [->|[->|[]%elem_of_nil]%elem_of_cons]%elem_of_cons;
      eexists; (split; [vm_compute; reflexivity|]); (split; [reflexivity|]);
      repeat constructor.
  - exists pr'. split; [exact E|].
    destruct (Hr 0 region_a [16; 32]%Z eq_refl eq_refl) as (v & Hv & -> & _). exact Hv.
Defined.
