(* ===== verification/NeighbourRegions.v ===== *)
(** * Neighbour regions

    Models spmacc/particles/regions/NeighbourRegions.hpp and NeighbourEntry.hpp:
    for every target region, the source regions whose boxes intersect the target's
    box expanded by the search length, in compressed rows.  A count kernel, a host
    scan and a write kernel; inside a block of the write kernel the workers race
    for positions with an atomic counter, so their interleaving is a schedule. *)
From Stdlib Require Import ZArith Lia Reals Lra.
From stdpp Require Import base sets list numbers gmap.
From S2P Require Import Prelude Scalar Topology Aabb FrameList Lockstep Regions Scan FrameIndex Launch RegionBounds.

(** ** Interleaving of the workers of a block *)

(** [interleave sched streams]: the items in the order in which the scheduled
    workers take them from their streams, and what is left of the streams. *)
Fixpoint interleave (sched : list nat) (streams : list (list nat)) : list nat * list (list nat) :=
  match sched with
  | [] => ([], streams)
  | w :: sched =>
      match streams !! w with
      | Some (o :: os) => let '(r, rest) := interleave sched (<[w := os]> streams) in (o :: r, rest)
      | _ => interleave sched streams
      end
  end.

Lemma interleave_perm sched streams :
  let '(r, rest) := interleave sched streams in r ++ concat rest ≡ₚ concat streams.
Proof.
  revert streams. induction sched as [|w sched IH]; intros streams; [simpl; reflexivity|]. simpl.
  destruct (streams !! w) as [[|o os]|] eqn:Hw; [apply IH| |apply IH].
  specialize (IH (<[w := os]> streams)). destruct (interleave sched _) as [r rest].
  rewrite <-app_comm_cons, IH. rewrite insert_take_drop by (exact (lookup_lt_Some _ _ _ Hw)).
  transitivity (concat (take w streams ++ (o :: os) :: drop (S w) streams));
    [|by rewrite take_drop_middle].
  rewrite !concat_app. cbn [concat]. rewrite <-app_comm_cons. apply Permutation_middle.
Qed.

(** The schedule lets every worker finish. *)
Definition exhausts (sched : list nat) (streams : list (list nat)) : Prop :=
  concat (interleave sched streams).2 = [].

(** ** The kernels *)

Section neighbours.
Context {D : CartesianDim} {T : Type} `{Scalar T}.
Local Open Scope Z_scope.

Definition kMaxThreads : nat := 64.

(** The test both kernels make for source region [o]. *)
Definition region_hit (searchVolume : AABB T) (sources : list (ParticleRegion T)) (o : nat) : bool :=
  match sources !! o with Some r => intersects searchVolume (volume r) | None => false end.

Definition u32_add (x y : Z) : Z := u32 (x + y).

(** The thread-local count: [localCount++] for every hit. *)
Definition local_count (hit : nat -> bool) (os : list nat) : Z :=
  foldl (fun c o => if hit o then u32 (c + 1) else c) 0 os.

(** [FindNeighbourRegionsFunctor<OpMode::Count>], block [b]. *)
Definition FindNeighbourRegions_Count (numWorkers : nat) (targets sources : list (ParticleRegion T))
    (numTarget numSource : nat) (smoothingLength : T) (b : nat) (regionOffsets : list Z)
    : option (list Z) :=
  if (numTarget <=? b)%nat then Some regionOffsets else
  if (kMaxThreads <? numWorkers)%nat then None else
  region ← targets !! b;
  let hit := region_hit (expand (volume region) smoothingLength) sources in
  let s_counts := map (fun w => local_count hit (strided w numWorkers numSource)) (seq 0 numWorkers) in
  c ← tree_reduce u32_add numWorkers s_counts !! 0%nat;
  box_write regionOffsets (S b) c.

(** The writes of a block: [pos = atomicAdd(&s_writePtr, 1)] for every hit. *)
Fixpoint write_hits (hit : nat -> bool) (os : list nat) (s_writePtr : Z) (box : list Z)
    : option (Z * list Z) :=
  match os with
  | [] => Some (s_writePtr, box)
  | o :: os =>
      if hit o then
        box' ← zbox_write box s_writePtr (Z.of_nat o);
        write_hits hit os (u32 (s_writePtr + 1)) box'
      else write_hits hit os s_writePtr box
  end.

(** [FindNeighbourRegionsFunctor<OpMode::Write>], block [b], its workers
    interleaved by [sched]; the final device assertion included. *)
Definition FindNeighbourRegions_Write (numWorkers : nat) (targets sources : list (ParticleRegion T))
    (numTarget numSource : nat) (regionOffsets : list Z) (smoothingLength : T) (sched : nat -> list nat)
    (b : nat) (neighbourRegions : list Z) : option (list Z) :=
  if (numTarget <=? b)%nat then Some neighbourRegions else
  region ← targets !! b;
  let hit := region_hit (expand (volume region) smoothingLength) sources in
  start ← regionOffsets !! b;
  let order := (interleave (sched b) (map (fun w => strided w numWorkers numSource) (seq 0 numWorkers))).1 in
  '(ptr, box) ← write_hits hit order start neighbourRegions;
  limit ← regionOffsets !! S b;
  if ptr <=? limit then Some box else None.

(** [NeighbourEntry]: the source buffer and the compressed rows. *)
Record NeighbourEntry : Type := mkEntry {
  sourceBuf : PRBuffer T;
  neighbourRegions : HDBuffer Z;
  regionOffsets : HDBuffer Z
}.

(** [calculateNeighbourEntrySender]: [ord1], [ord2] are the orders of the blocks of
    the two kernels. *)
Definition calculateNeighbourEntry (numWorkers : nat) (junk : Z) (ord1 ord2 : list nat)
    (sched : nat -> list nat) (target source : PRBuffer T) (h : T) : option NeighbourEntry :=
  let nT := pr_size target in
  let nS := pr_size source in
  let offs := hostToDevice (mkHD (replicate (S nT) 0) (replicate (S nT) junk)) in
  counts ← (if (0 <? nT)%nat && (0 <? nS)%nat
    then run_blocks ord1 (FindNeighbourRegions_Count numWorkers (getDeviceDataBox target)
           (getDeviceDataBox source) nT nS h) (deviceData offs)
    else Some (deviceData offs));
  let offs := deviceToHost (mkHD (hostData offs) counts) in
  '(totalPairs, scanned) ← inclusiveScanHost (hostData offs) (S nT);
  if s32 totalPairs <? 0 then None else
  let nr := hd_alloc (Z.to_nat (s32 totalPairs)) junk in
  let offs := hostToDevice (mkHD scanned (deviceData offs)) in
  box ← (if (0 <? nT)%nat && (0 <? totalPairs)
    then run_blocks ord2 (FindNeighbourRegions_Write numWorkers (getDeviceDataBox target)
           (getDeviceDataBox source) nT nS (deviceData offs) h sched) (deviceData nr)
    else Some (deviceData nr));
  Some (mkEntry source (mkHD (hostData nr) box) offs).

(** ** Counting *)

#[local] Instance u32_add_assoc : Assoc (=) u32_add.
Proof. intros x y z. unfold u32_add. rewrite u32_add_l, u32_add_r. f_equal. lia. Qed.

#[local] Instance u32_add_comm : Comm (=) u32_add.
Proof. intros x y. unfold u32_add. f_equal. lia. Qed.

Lemma sfold_u32 l :
  l <> [] -> Forall (fun x => 0 <= x < 2 ^ 32) l -> sfold u32_add l = Some (u32 (zsum l)).
Proof.
  intros Hne Hl. induction Hl as [|x l Hx Hl IH]; [done|]. rewrite sfold_cons.
  destruct l as [|y l].
  - simpl. unfold zsum. simpl. by rewrite Z.add_0_r, u32_small.
  - rewrite IH by done. simpl. unfold u32_add. rewrite u32_add_r. done.
Qed.

Lemma local_count_eq hit os :
  Z.of_nat (length os) < 2 ^ 32 ->
  local_count hit os = Z.of_nat (length (filter (fun o => hit o = true) os)).
Proof.
  unfold local_count. intros Hl.
  assert (Hg : forall c, 0 <= c -> c + Z.of_nat (length os) < 2 ^ 32 ->
    foldl (fun c o => if hit o then u32 (c + 1) else c) c os =
    c + Z.of_nat (length (filter (fun o => hit o = true) os))); [|rewrite Hg; lia].
  clear Hl. induction os as [|o os IH]; intros c Hc Hl; [simpl; lia|]. cbn [foldl length] in *.
  rewrite filter_cons. destruct (hit o); simpl.
  - rewrite u32_small by lia. rewrite IH by lia. lia.
  - apply IH; lia.
Qed.

Lemma filter_bind {A B} (P : B -> Prop) `{!forall x, Decision (P x)} (f : A -> list B) l :
  filter P (l ≫= f) = l ≫= fun x => filter P (f x).
Proof. induction l as [|x l IH]; [done|]. by rewrite !bind_cons, filter_app, IH. Qed.

Lemma zsum_map_length {A B} (f : A -> list B) l :
  zsum (map (fun x => Z.of_nat (length (f x))) l) = Z.of_nat (length (l ≫= f)).
Proof.
  induction l as [|x l IH]; [done|]. rewrite bind_cons, length_app. unfold zsum in *. simpl. lia.
Qed.

(** The block-wide count is the number of hits. *)
Lemma block_count k hit n :
  Z.of_nat n < 2 ^ 32 ->
  tree_reduce u32_add (2 ^ k) (map (fun w => local_count hit (strided w (2 ^ k) n)) (seq 0 (2 ^ k))) !! 0%nat =
  Some (Z.of_nat (length (filter (fun o => hit o = true) (seq 0 n)))).
Proof.
  intros Hn. set (nW := (2 ^ k)%nat). assert (HnW : (0 < nW)%nat) by (pose proof (Nat.pow_nonzero 2 k); lia).
  assert (Hpart := strided_partition nW n HnW).
  assert (Hle : forall l, (length (filter (fun o => hit o = true) l) <= length l)%nat)
    by (intros; apply length_filter).
  assert (Hlen : forall w, w ∈ seq 0 nW -> (length (strided w nW n) <= n)%nat).
  { assert (El : length (seq 0 nW ≫= fun w => strided w nW n) = n) by (rewrite Hpart; apply length_seq).
    intros w Hw. apply list_elem_of_split in Hw as (l1 & l2 & E).
    rewrite E, bind_app, bind_cons, !length_app in El. lia. }
  etrans; [apply (tree_reduce_pow2 u32_add k); by rewrite length_map, length_seq|].
  rewrite sfold_u32.
  - rewrite (map_ext_in _ (fun w => Z.of_nat (length (filter (fun o => hit o = true) (strided w nW n))))).
    + rewrite zsum_map_length, <-filter_bind, Hpart. rewrite u32_small; [done|].
      specialize (Hle (seq 0 n)). rewrite length_seq in Hle. lia.
    + intros w Hw%list_elem_of_In. apply local_count_eq. specialize (Hlen w Hw). lia.
  - fold nW. by destruct nW; [lia|].
  - apply Forall_fmap, Forall_forall. intros w Hw. specialize (Hlen w Hw).
    unfold compose. rewrite local_count_eq by lia. specialize (Hle (strided w nW n)). lia.
Qed.

Lemma write_hits_scatter hit os ptr box :
  Z.of_nat (ptr + length (filter (fun o => hit o = true) os)) < 2 ^ 32 ->
  write_hits hit os (Z.of_nat ptr) box =
  box' ← scatter (seg_writes ptr (map Z.of_nat (filter (fun o => hit o = true) os))) box;
  Some (Z.of_nat (ptr + length (filter (fun o => hit o = true) os)), box').
Proof.
  revert ptr box. induction os as [|o os IH]; intros ptr box Hl.
  { simpl. by rewrite Nat.add_0_r. }
  cbn [write_hits]. rewrite filter_cons in *. destruct (hit o) eqn:Ho; [|by apply IH].
  rewrite decide_True in * by done. cbn [map length] in *. rewrite seg_writes_cons. cbn [scatter].
  rewrite zbox_write_nat. destruct (box_write box ptr (Z.of_nat o)) as [box'|]; [|done].
  cbn [mbind option_bind]. rewrite u32_small by lia.
  replace (Z.of_nat ptr + 1) with (Z.of_nat (S ptr)) by lia. rewrite IH by lia.
  by rewrite Nat.add_succ_r.
Qed.

(** ** Rows *)

(** The neighbours of target region [b] as a consumer reads them: the entries
    from [regionOffsets[b]] up to [regionOffsets[b + 1]]. *)
Definition neighbour_row (e : NeighbourEntry) (b : nat) : option (list Z) :=
  lo ← deviceData (regionOffsets e) !! b;
  hi ← deviceData (regionOffsets e) !! S b;
  mapM (fun k => zbox_read (deviceData (neighbourRegions e)) (lo + Z.of_nat k)) (seq 0 (Z.to_nat (hi - lo))).

(** The source regions a target region must meet. *)
Definition intersecting (h : T) (tr : ParticleRegion T) (sources : list (ParticleRegion T)) : list nat :=
  filter (fun o => region_hit (expand (volume tr) h) sources o = true) (seq 0 (length sources)).

Section entry.
Context (k : nat) (junk : Z) (sched : nat -> list nat) (target source : PRBuffer T) (h : T).
#[local] Abbreviation nW := (2 ^ k)%nat.
#[local] Abbreviation nT := (pr_size target).
#[local] Abbreviation nS := (pr_size source).
#[local] Abbreviation streams := (map (fun w => strided w nW nS) (seq 0 nW)).
#[local] Abbreviation hit tr := (region_hit (expand (volume tr) h) (getDeviceDataBox source)).

(** The rows in the order in which each block writes them. *)
Definition entry_rows : list (list nat) :=
  imap (fun b tr => filter (fun o => hit tr o = true) (interleave (sched b) streams).1) (regions_of target).

Context (Hwt : prbuf_wf target) (Hws : prbuf_wf source).
Context (Hsched : forall b, (b < nT)%nat -> exhausts (sched b) streams).
Context (HnS : Z.of_nat nS < 2 ^ 31).

Lemma streams_perm : concat streams ≡ₚ seq 0 nS.
Proof using.
  rewrite bind_concat_map. apply strided_partition.
  pose proof (Nat.pow_nonzero 2 k). lia.
Qed.

Lemma entry_order b : (b < nT)%nat -> (interleave (sched b) streams).1 ≡ₚ seq 0 nS.
Proof using Hsched.
  intros Hb. pose proof (Hsched b Hb) as He. unfold exhausts in He.
  pose proof (interleave_perm (sched b) streams) as Hp.
  destruct (interleave (sched b) streams) as [r rest]. simpl in *.
  rewrite He, app_nil_r in Hp. by rewrite Hp, streams_perm.
Qed.

Lemma entry_row b tr :
  regions_of target !! b = Some tr ->
  exists row, entry_rows !! b = Some row /\ row ≡ₚ filter (fun o => hit tr o = true) (seq 0 nS).
Proof using Hsched Hwt.
  intros Htr. eexists. unfold entry_rows. rewrite list_lookup_imap, Htr. split; [done|].
  apply filter_Permutation, entry_order. apply lookup_lt_Some in Htr.
  by rewrite regions_of_length in Htr.
Qed.

Lemma entry_rows_length : length entry_rows = nT.
Proof using Hwt. unfold entry_rows. by rewrite length_imap, regions_of_length. Qed.

Lemma hit_intersecting tr : filter (fun o => hit tr o = true) (seq 0 nS) = intersecting h tr (regions_of source).
Proof using Hws.
  unfold intersecting. rewrite regions_of_length by done. apply list_filter_ext_in.
  intros o Ho%elem_of_seq. unfold region_hit, regions_of. by rewrite lookup_take_lt by lia.
Qed.

Lemma entry_count ord1 data :
  (2 ^ k <= kMaxThreads)%nat -> ord1 ≡ₚ seq 0 (Nat.max nT 1) -> length data = S nT -> data !! 0%nat = Some 0 ->
  exists counts, run_blocks ord1 (FindNeighbourRegions_Count nW (getDeviceDataBox target)
      (getDeviceDataBox source) nT nS h) data = Some counts /\
    length counts = S nT /\ counts = 0 :: zlengths entry_rows.
Proof using Hsched Hwt HnS.
  intros Hk Ho Hlen H0.
  set (g := fun b => match entry_rows !! b with Some row => Z.of_nat (length row) | None => 0 end).
  destruct (run_blocks_counts ord1 nT g (FindNeighbourRegions_Count nW (getDeviceDataBox target)
      (getDeviceDataBox source) nT nS h) data Ho ltac:(lia)) as (counts & Hrun & Hl & Hv & Hz).
  { intros b box. unfold FindNeighbourRegions_Count. destruct (Nat.leb_spec nT b) as [Hb|Hb]; [done|].
    rewrite (proj2 (Nat.ltb_ge _ _)) by done.
    destruct (lookup_lt_is_Some_2 (regions_of target) b) as [tr Htr]; [by rewrite regions_of_length|].
    pose proof Htr as [Hbox _]%lookup_take_Some. rewrite Hbox. cbn [mbind option_bind].
    rewrite block_count by lia. cbn [mbind option_bind]. f_equal. unfold g.
    destruct (entry_row b tr Htr) as (row & -> & Hrow). by rewrite Hrow. }
  exists counts. rewrite Hl. split_and!; [done|done|]. apply list_eq. intros [|b].
  - by rewrite Hz, H0.
  - change ((0 :: zlengths entry_rows) !! S b) with (zlengths entry_rows !! b).
    unfold zlengths. rewrite list_lookup_fmap.
    destruct (decide (b < nT)%nat) as [Hb|Hb].
    + rewrite Hv by done. unfold g.
      destruct (lookup_lt_is_Some_2 entry_rows b) as [row Hrow]; [by rewrite entry_rows_length|].
      by rewrite Hrow.
    + rewrite (lookup_ge_None_2 counts) by lia. rewrite (lookup_ge_None_2 entry_rows); [done|].
      rewrite entry_rows_length. lia.
Qed.

(** The written rows, as the array stores them. *)
Definition zrows : list (list Z) := map (map Z.of_nat) entry_rows.

Lemma zrows_off b : seg_off zrows b = seg_off entry_rows b.
Proof using.
  unfold seg_off, zrows. rewrite firstn_map, <-concat_map. by rewrite length_map.
Qed.

Lemma zrows_total : length (concat zrows) = length (concat entry_rows).
Proof using. unfold zrows. rewrite <-concat_map. by rewrite length_map. Qed.

Lemma entry_write ord2 offs box :
  ord2 ≡ₚ seq 0 (Nat.max nT 1) -> Z.of_nat (length (concat entry_rows)) < 2 ^ 31 ->
  (forall b, (b <= nT)%nat -> offs !! b = Some (Z.of_nat (seg_off entry_rows b))) ->
  length box = length (concat entry_rows) ->
  run_blocks ord2 (FindNeighbourRegions_Write nW (getDeviceDataBox target) (getDeviceDataBox source)
    nT nS offs h sched) box = Some (concat zrows).
Proof using Hwt.
  intros Ho Htot Hoffs Hlen. rewrite (run_blocks_scatter _ _ (block_writes zrows)).
  - destruct (scatter_segments zrows ord2 _ box Ho) as (box' & -> & Hl & Ht).
    + unfold zrows. rewrite length_map, entry_rows_length. lia.
    + rewrite zrows_total. lia.
    + f_equal. rewrite <-Ht. symmetry. apply take_ge. rewrite zrows_total. lia.
  - intros b box' _ _. unfold FindNeighbourRegions_Write, block_writes.
    assert (Hz : zrows !! b = map Z.of_nat <$> entry_rows !! b) by (unfold zrows; apply list_lookup_fmap).
    destruct (Nat.leb_spec nT b) as [Hb|Hb].
    { rewrite Hz, (lookup_ge_None_2 entry_rows b); [done|]. by rewrite entry_rows_length. }
    destruct (lookup_lt_is_Some_2 (regions_of target) b) as [tr Htr]; [by rewrite regions_of_length|].
    assert (Hrow : entry_rows !! b =
      Some (filter (fun o => hit tr o = true) (interleave (sched b) streams).1)).
    { unfold entry_rows. by rewrite list_lookup_imap, Htr. }
    pose proof Htr as [Hbox _]%lookup_take_Some. rewrite Hbox, (Hoffs b), (Hoffs (S b)) by lia. cbn [mbind option_bind].
    pose proof (seg_bound _ _ _ Hrow).
    rewrite write_hits_scatter by lia. rewrite Hz, Hrow, zrows_off. cbn [fmap option_fmap option_map].
    destruct (scatter _ box') as [box''|]; [|done]. cbn [mbind option_bind].
    rewrite (seg_off_S _ _ _ Hrow).
    by rewrite (proj2 (Z.leb_le _ _)) by lia.
Qed.
End entry.

Lemma calculateNeighbourEntry_spec k junk ord1 ord2 sched target source h :
  let nT := pr_size target in let nS := pr_size source in
  let rows := map (fun tr => intersecting h tr (regions_of source)) (regions_of target) in
  prbuf_wf target -> prbuf_wf source -> (2 ^ k <= kMaxThreads)%nat -> Z.of_nat nS < 2 ^ 31 ->
  Z.of_nat (length (concat rows)) < 2 ^ 31 ->
  ord1 ≡ₚ seq 0 (Nat.max nT 1) -> ord2 ≡ₚ seq 0 (Nat.max nT 1) ->
  (forall b, (b < nT)%nat -> exhausts (sched b) (map (fun w => strided w (2 ^ k) nS) (seq 0 (2 ^ k)))) ->
  exists e, calculateNeighbourEntry (2 ^ k) junk ord1 ord2 sched target source h = Some e /\
    sourceBuf e = source /\ length (deviceData (neighbourRegions e)) = length (concat rows) /\
    forall b tr, regions_of target !! b = Some tr ->
      exists row, neighbour_row e b = Some row /\
        row ≡ₚ map Z.of_nat (intersecting h tr (regions_of source)).
Proof.
  intros nT nS rows Hwt Hws Hk HnS Htot Ho1 Ho2 Hsched.
  set (er := entry_rows k sched target source h).
  assert (Herl : length er = nT) by (by apply entry_rows_length).
  assert (Htotal : length (concat er) = length (concat rows)).
  { apply Nat2Z.inj. rewrite <-!zsum_zlengths. f_equal. unfold zlengths. apply list_eq. intros b.
    rewrite !list_lookup_fmap. unfold rows. rewrite list_lookup_fmap.
    destruct (regions_of target !! b) as [tr|] eqn:Htr.
    - destruct (entry_row k sched target source h Hwt Hsched b tr Htr) as (row & Hrow & Hp).
      fold er in Hrow. rewrite Hrow. simpl. do 2 f_equal. rewrite Hp. by rewrite hit_intersecting.
    - rewrite (lookup_ge_None_2 er); [done|]. apply lookup_ge_None in Htr.
      rewrite regions_of_length in Htr by done. lia. }
  unfold calculateNeighbourEntry. fold nT nS. cbn [hostToDevice hostData deviceData deviceToHost].
  assert (Hcount : exists counts,
    (if (0 <? nT)%nat && (0 <? nS)%nat
     then run_blocks ord1 (FindNeighbourRegions_Count (2 ^ k) (getDeviceDataBox target)
            (getDeviceDataBox source) nT nS h) (replicate (S nT) 0)
     else Some (replicate (S nT) 0)) = Some counts /\ counts = zlengths ([] :: er)).
  { destruct (Nat.ltb_spec 0 nT) as [HT|HT]; cbn [andb].
    2:{ exists [0]. assert (nT = 0%nat) as E by lia. rewrite E in *.
        apply length_zero_iff_nil in Herl. by rewrite Herl. }
    destruct (Nat.ltb_spec 0 nS) as [HS|HS].
    - destruct (entry_count k sched target source h Hwt Hsched HnS ord1 (replicate (S nT) 0) Hk Ho1)
        as (counts & E & _ & Ec); [by rewrite length_replicate|done|].
      exists counts. split; [exact E|exact Ec].
    - eexists; split; [done|]. change (zlengths ([] :: er)) with (0 :: zlengths er).
      cbn [replicate]. f_equal. apply replicate_as_elem_of. split.
      { unfold zlengths. by rewrite length_map. }
      intros x (row & -> & [b Hb]%list_elem_of_lookup_1)%list_elem_of_fmap.
      destruct (lookup_lt_is_Some_2 (regions_of target) b) as [tr Htr].
      { rewrite regions_of_length by done. fold nT. apply lookup_lt_Some in Hb. lia. }
      destruct (entry_row k sched target source h Hwt Hsched b tr Htr) as (row' & Hrow & Hp).
      fold er in Hrow. rewrite Hb in Hrow. injection Hrow as <-.
      assert (pr_size source = 0%nat) as E by (fold nS; lia). rewrite E in Hp. simpl in Hp.
      symmetry in Hp. apply Permutation_nil in Hp. by rewrite Hp. }
  destruct Hcount as (counts & -> & ->). cbn [mbind option_bind hostData deviceData].
  destruct (inclusiveScanHost_segments ([] :: er) (zlengths ([] :: er)) []) as (scanned & Hscan & Hsl & Hsv).
  { by rewrite app_nil_r. } { simpl. rewrite Htotal. lia. }
  replace (S nT) with (length ([] :: er)) by (simpl; lia). rewrite Hscan. cbn [mbind option_bind].
  change (concat ([] :: er)) with (concat er). rewrite s32_small by lia.
  rewrite (proj2 (Z.ltb_ge _ _)) by lia. rewrite Nat2Z.id.
  assert (Hoffs : forall b, (b <= nT)%nat -> scanned !! b = Some (Z.of_nat (seg_off er b))).
  { intros b Hb. rewrite Hsv by (simpl; lia). done. }
  cbn [hd_alloc hostData deviceData hostToDevice].
  assert (Hwrite : exists box,
    (if (0 <? nT)%nat && (0 <? Z.of_nat (length (concat er)))
     then run_blocks ord2 (FindNeighbourRegions_Write (2 ^ k) (getDeviceDataBox target)
            (getDeviceDataBox source) nT nS scanned h sched) (replicate (length (concat er)) junk)
     else Some (replicate (length (concat er)) junk)) = Some box /\
    box = concat (zrows k sched target source h)).
  { destruct (Z.ltb_spec 0 (Z.of_nat (length (concat er)))) as [Hp|Hp].
    - destruct (Nat.ltb_spec 0 nT) as [HT|HT]; cbn [andb].
      + exists (concat (zrows k sched target source h)). split; [|done].
        apply entry_write; [done|done|fold er; lia|done|by rewrite length_replicate].
      + assert (er = []) as E by (apply length_zero_iff_nil; lia). rewrite E in Hp. simpl in Hp. lia.
    - rewrite andb_false_r. eexists; split; [done|].
      assert (E : length (concat er) = 0%nat) by lia. rewrite E.
      pose proof (zrows_total k sched target source h) as Ez. fold er in Ez. rewrite E in Ez.
      apply length_zero_iff_nil in Ez. by rewrite Ez. }
  destruct Hwrite as (box & -> & ->). cbn [mbind option_bind].
  eexists; split; [done|]. cbn [sourceBuf neighbourRegions regionOffsets deviceData]. split; [done|].
  split. { rewrite zrows_total. exact Htotal. }
  intros b tr Htr. assert (Hb : (b < nT)%nat).
  { apply lookup_lt_Some in Htr. by rewrite regions_of_length in Htr. }
  destruct (entry_row k sched target source h Hwt Hsched b tr Htr) as (row & Hrow & Hp). fold er in Hrow.
  exists (map Z.of_nat row). split; [|by rewrite Hp, hit_intersecting].
  unfold neighbour_row. cbn [regionOffsets neighbourRegions deviceData].
  rewrite !Hoffs by lia. cbn [mbind option_bind]. rewrite (seg_off_S _ _ _ Hrow).
  replace (Z.to_nat _) with (length (map Z.of_nat row)) by (rewrite length_map; lia).
  pose proof (seg_bound _ _ _ Hrow) as Hbd. pose proof (zrows_total k sched target source h) as Ezt. fold er in Ezt.
  rewrite read_slice by (rewrite length_map; lia). f_equal.
  pose proof (zrows_off k sched target source h b) as Ez. fold er in Ez. rewrite <-Ez.
  apply concat_slice. unfold zrows. rewrite list_lookup_fmap. fold er. by rewrite Hrow.
Qed.
(** C11: for any two well-formed buffers, a power-of-two block of at most 64 workers,
    any order of the blocks and any interleaving of the workers' atomic increments
    that lets them finish, the neighbour computation succeeds without an
    out-of-bounds store or a failed device assertion, and the row of every target region
    holds exactly the source regions whose box intersects its expanded box, each once. *)
Theorem calculateNeighbourEntry_rows k junk ord1 ord2 sched target source h :
  let nT := pr_size target in let nS := pr_size source in
  let rows := map (fun tr => intersecting h tr (regions_of source)) (regions_of target) in
  prbuf_wf target -> prbuf_wf source -> (2 ^ k <= kMaxThreads)%nat -> Z.of_nat nS < 2 ^ 31 ->
  Z.of_nat (length (concat rows)) < 2 ^ 31 ->
  ord1 ≡ₚ seq 0 (Nat.max nT 1) -> ord2 ≡ₚ seq 0 (Nat.max nT 1) ->
  (forall b, (b < nT)%nat -> exhausts (sched b) (map (fun w => strided w (2 ^ k) nS) (seq 0 (2 ^ k)))) ->
  exists e, calculateNeighbourEntry (2 ^ k) junk ord1 ord2 sched target source h = Some e /\
    sourceBuf e = source /\ length (deviceData (neighbourRegions e)) = length (concat rows) /\
    forall b tr, regions_of target !! b = Some tr ->
      exists row, neighbour_row e b = Some row /\
        row ≡ₚ map Z.of_nat (intersecting h tr (regions_of source)).
Proof. exact (calculateNeighbourEntry_spec k junk ord1 ord2 sched target source h). Qed.
End neighbours.

(** ** The geometry of the search, over exact arithmetic *)

Section geometry.
Context {D : CartesianDim}.
Local Open Scope R_scope.

(** Absolute distance of the particle at [x] of box [a] and the one at [y] of box [b]. *)
Definition particle_distance (a b : AABB R) (x y : storage R) : R :=
  norm2 (point_sub (getPosition a x) (getPosition b y)).

Lemma component_le_norm2 (v : storage R) t :
  storage_wf v -> t ∈ cartesian_tags cs_dim -> Rabs (vget v t) <= norm2 v.
Proof.
  intros Hv Ht. refine (Rle_trans _ _ _ _ (proj1 (norm_chain v Hv))).
  unfold normInf. vec_cases D;
    repeat (apply elem_of_cons in Ht as [->|Ht]; [cbv [decide decide_rel axis_eq_dec]; simpl; real_cases; lra|]);
    by apply elem_of_nil in Ht.
Qed.

Lemma vget_point_sub (p q : storage R) t :
  storage_wf p -> storage_wf q -> t ∈ cartesian_tags cs_dim ->
  vget (point_sub p q) t = vget p t - vget q t.
Proof. intros Hp Hq Ht. rewrite point_sub_zip by done. by rewrite vget_zip_with. Qed.

Lemma vget_getPosition (b : AABB R) (x : storage R) t :
  storage_wf (origin b) -> storage_wf x -> t ∈ cartesian_tags cs_dim ->
  vget (getPosition b x) t = vget (origin b) t + vget x t.
Proof. intros Hb Hx Ht. unfold getPosition. rewrite point_add_zip by done. by rewrite vget_zip_with. Qed.

Lemma getPosition_wf (b : AABB R) (x : storage R) :
  storage_wf (origin b) -> storage_wf x -> storage_wf (getPosition b x).
Proof. intros. unfold getPosition. rewrite point_add_zip by done. by apply storage_wf_zip. Qed.

Lemma point_sub_wf (p q : storage R) : storage_wf p -> storage_wf q -> storage_wf (point_sub p q).
Proof. intros. rewrite point_sub_zip by done. by apply storage_wf_zip. Qed.

Lemma vget_expand (b : AABB R) m t :
  aabb_wf b -> t ∈ cartesian_tags cs_dim ->
  vget (bmin (expand b m)) t = vget (bmin b) t - m /\ vget (bmax (expand b m)) t = vget (bmax b) t + m.
Proof.
  intros Hb Ht. rewrite expand_zip by done. destruct b as [bo bl bh].
  destruct Hb as (_ & Hl & Hh). simpl in *. vec_cases D;
    repeat (apply elem_of_cons in Ht as [->|Ht]; [done|]); by apply elem_of_nil in Ht.
Qed.

(** Boxes that do not meet after the expansion are separated along an axis. *)
Lemma not_intersects_separated (a b : AABB R) (x y : storage R) (m : R) :
  aabb_wf a -> aabb_wf b -> in_box a x -> in_box b y -> intersects (expand a m) b = false ->
  exists t, t ∈ cartesian_tags cs_dim /\ m < Rabs (vget x t - vget y t).
Proof.
  intros Ha Hb Hax Hby (t & Ht & E)%all_of_tag_false. exists t. split; [done|].
  destruct (vget_expand a m t Ha Ht) as [E1 E2]. rewrite E1, E2 in E.
  destruct (Hax t Ht) as [Hax1 Hax2], (Hby t Ht) as [Hby1 Hby2].
  apply Rleb_true in Hax1, Hax2, Hby1, Hby2.
  apply negb_false_iff, orb_true_iff in E. simpl in *.
  unfold Rabs; destruct E as [E%Rltb_true|E%Rltb_true]; destruct (Rcase_abs _); lra.
Qed.

(** The box test misses no interacting pair.  If two boxes have the same
    origin and contain a particle each, and the particles are within the search
    length [h] of each other, then the first box expanded by [h] intersects the second. *)
Theorem region_search_complete (a b : AABB R) (x y : storage R) (h : R) :
  aabb_wf a -> aabb_wf b -> storage_wf x -> storage_wf y ->
  origin a = origin b -> in_box a x -> in_box b y -> particle_distance a b x y <= h ->
  intersects (expand a h) b = true.
Proof.
  intros Ha Hb Hx Hy Ho Hax Hby Hd. destruct (intersects (expand a h) b) eqn:E; [done|].
  destruct (not_intersects_separated a b x y h Ha Hb Hax Hby E) as (t & Ht & Hsep).
  assert (Hwa : storage_wf (origin a)) by apply Ha.
  assert (Hwb : storage_wf (origin b)) by apply Hb.
  pose proof (component_le_norm2 (point_sub (getPosition a x) (getPosition b y)) t
    ltac:(auto using point_sub_wf, getPosition_wf) Ht) as Hc.
  rewrite vget_point_sub, !vget_getPosition, Ho in Hc by auto using getPosition_wf.
  unfold particle_distance in Hd. exfalso. revert Hc Hsep.
  replace (vget (origin b) t + vget x t - (vget (origin b) t + vget y t)) with (vget x t - vget y t) by lra.
  lra.
Qed.

End geometry.

(** The hypothesis on the origins is needed: the test ignores them.  Two unit
    boxes one unit apart hold particles at distance 1, and are not found within 1
    when their coordinates are relative to different origins. *)
Lemma region_search_misses_shifted :
  let a := mkAABB [0; 0; 0]%Z [10; 10; 10]%Z [11; 11; 11]%Z in
  let b := mkAABB [12; 0; 0]%Z [0; 10; 10]%Z [1; 11; 11]%Z in
  point_sub (D := dim3) (getPosition (D := dim3) b [0; 10; 10]%Z)
    (getPosition (D := dim3) a [11; 10; 10]%Z) = [1; 0; 0]%Z /\
  intersects (D := dim3) (expand (D := dim3) a 1%Z) b = false.
Proof. split; reflexivity. Qed.

(** ** Witnesses *)

Lemma region_search_complete_witness :
  intersects (D := dim1) (expand (D := dim1) (mkAABB [0] [0] [1])%R 1%R) (mkAABB [0] [2] [3])%R = true.
Proof.
  refine (region_search_complete (D := dim1) (mkAABB [0] [0] [1])%R (mkAABB [0] [2] [3])%R
    [1]%R [2]%R 1%R _ _ _ _ _ _ _ _); try reflexivity.
  - split_and!; reflexivity.
  - split_and!; reflexivity.
  - intros t ->%list_elem_of_singleton. split; apply Rleb_true;
      cbv [vget index_of find_index cartesian_tags cs_dim dim1 decide decide_rel axis_eq_dec]; simpl; lra.
  - intros t ->%list_elem_of_singleton. split; apply Rleb_true;
      cbv [vget index_of find_index cartesian_tags cs_dim dim1 decide decide_rel axis_eq_dec]; simpl; lra.
  - unfold particle_distance, norm2. simpl. apply sqrt_le_of_sq; [lra|].
    cbv -[Rplus Rminus Rmult IZR Rle]. lra.
Defined.

Lemma calculateNeighbourEntry_rows_witness :
  exists e, calculateNeighbourEntry (D := dim3) 2 77 [1; 0] [0; 1] (fun _ => [1; 0; 0; 1])
      pr_ab pr_ab 3%Z = Some e /\
    (exists row, neighbour_row e 0 = Some row /\ row ≡ₚ [0; 1]%Z) /\
    deviceData (regionOffsets e) = [0; 2; 4]%Z.
Proof.
  destruct (calculateNeighbourEntry_rows (D := dim3) 1 77 [1; 0] [0; 1] (fun _ => [1; 0; 0; 1])
    pr_ab pr_ab 3%Z) as (e & E & _ & _ & Hrow).
  - vm_compute. split; [reflexivity|]. lia.
  - vm_compute. split; [reflexivity|]. lia.
  - vm_compute. lia.
  - simpl. lia.
  - vm_compute. reflexivity.
  - apply (bool_decide_eq_true_1 _). vm_compute. reflexivity.
  - reflexivity.
  - intros [|[|b]] Hb; [vm_compute; reflexivity|vm_compute; reflexivity|simpl in Hb; lia].
  - exists e. split_and!; [exact E| |].
    + destruct (Hrow 0 region_a eq_refl) as (row & Hr & Hp). exists row. split; [exact Hr|exact Hp].
    + vm_compute in E. injection E as <-. reflexivity.
Defined.
