(* ===== verification/Interaction.v ===== *)
(** * Particle-particle interaction

    Models spmacc/particles/algorithms/ParticleParticleInteraction.hpp,
    InteractionContext.hpp and InteractParticles.hpp.  The functor is the record
    [Functor] of its hooks.  Shared memory is explicit: the position and neighbour
    caches are state that persists from one neighbour frame to the next, and the
    entries of dead slots keep whatever the cache held before.  A block of the
    kernel is modelled slot by slot, in the order of its two barrier-separated
    phases (Lockstep.v shows that a lockstep loop executes every slot once). *)
From Stdlib Require Import ZArith Lia.
From stdpp Require Import base sets list numbers gmap.
From S2P Require Import Prelude Scalar Topology Aabb FrameList Lockstep Regions Scan FrameIndex Launch.

Section interaction.
Context {D : CartesianDim} {T : Type} `{Scalar T}.

(** [PairContext]. *)
Record PairContext : Type := mkPairContext {
  rVec : storage T;
  ctx_r2 : T;
  ctx_r : T;
  invR : T;
  isSelf : bool
}.

(** An interaction functor: its register and cache records with the copies the
    framework generates from the tag sets, and its hooks.  [fn_prepare] of a
    functor without the hook returns [tt]; [fn_stage] of a functor without the hook
    copies the [neighbourReads]. *)
Record Functor (Reads Prep Nb Acc : Type) : Type := mkFunctor {
  fn_ownReads : Particle T -> Reads;
  fn_loadAcc : Particle T -> Acc;
  fn_prepare : Reads -> Prep;
  fn_stage : Particle T -> Nb;
  fn_call : Reads -> Prep -> Nb -> PairContext -> Acc -> Acc;
  fn_storeAcc : Acc -> Particle T -> Particle T
}.
Arguments fn_ownReads {Reads Prep Nb Acc}.
Arguments fn_loadAcc {Reads Prep Nb Acc}.
Arguments fn_prepare {Reads Prep Nb Acc}.
Arguments fn_stage {Reads Prep Nb Acc}.
Arguments fn_call {Reads Prep Nb Acc}.
Arguments fn_storeAcc {Reads Prep Nb Acc}.

Context {Reads Prep Nb Acc : Type}.
#[local] Abbreviation Fn := (Functor Reads Prep Nb Acc).

(** The own-particle registers of a live slot; a dead slot has none ([validVar]
    false). *)
Record Registers : Type := mkRegs {
  ownRel : storage T;
  ownReads : Reads;
  ownAcc : Acc;
  prep : Prep
}.

Definition set_acc (a : Acc) (r : Registers) : Registers := mkRegs (ownRel r) (ownReads r) a (prep r).

(** [loadOwnRegisters] for one slot. *)
Definition load_slot (fn : Fn) (p : Particle T) : option Registers :=
  if occupied p
  then let reads := fn_ownReads fn p in
       Some (mkRegs (relativePos p) reads (fn_loadAcc fn p) (fn_prepare fn reads))
  else None.

Definition loadOwnRegisters (fn : Fn) (fr : Frame T) : list (option Registers) :=
  map (load_slot fn) (slots fr).

(** [storeOwnAccumulators] for one slot and for the frame. *)
Definition store_slot (fn : Fn) (p : Particle T) (r : option Registers) : Particle T :=
  match r with Some r => fn_storeAcc fn (ownAcc r) p | None => p end.

Definition storeOwnAccumulators (fn : Fn) (regs : list (option Registers)) (fr : Frame T) : Frame T :=
  set_slots (zip_with (store_slot fn) (slots fr) regs) fr.

(** ** One neighbour frame *)

(** The sentinel coordinate of a dead slot. *)
Definition sentinel : T := (smax_limit / sofZ 4)%S.

(** Staging of one slot: the shifted position, or the sentinel. *)
Definition shifted_pos (originShift rel : storage T) : storage T :=
  for_each_tag (fun t u => vset u t (vget rel t + vget originShift t)%S) (broadcast (sofZ 0)).
Definition dead_pos : storage T :=
  for_each_tag (fun t u => vset u t sentinel) (broadcast (sofZ 0)).
Definition stage_pos (originShift : storage T) (p : Particle T) : storage T :=
  if occupied p then shifted_pos originShift (relativePos p) else dead_pos.

(** Staging of the functor's view; a dead slot leaves the cache entry alone. *)
Definition stage_nb (fn : Fn) (p : Particle T) (old : Nb) : Nb :=
  if occupied p then fn_stage fn p else old.

(** The displacement and its square, tag by tag. *)
Definition pair_geometry (rel pos : storage T) : storage T * T :=
  for_each_tag (fun t '(rv, r2) =>
    let d := (vget rel t - vget pos t)%S in (vset rv t d, (r2 + d * d)%S))
    (broadcast (sofZ 0), sofZ 0).

(** The pair context of an accepted pair. *)
Definition make_ctx (g : storage T * T) (self : bool) : PairContext :=
  let r2 := g.2 in
  let ir := if (0 <? r2)%S then srsqrt r2 else sofZ 0 in
  let r := if (0 <? r2)%S then (r2 * ir)%S else sofZ 0 in
  mkPairContext g.1 r2 r ir self.

(** One pair of the compute phase: the cull and the call. *)
Definition pair_step (fn : Fn) (radius2 : T) (r : Registers) (pos : storage T) (nb : Nb)
    (self : bool) (a : Acc) : Acc :=
  let g := pair_geometry (ownRel r) pos in
  if (g.2 <? radius2)%S then fn_call fn (ownReads r) (prep r) nb (make_ctx g self) a else a.

(** The sweep of slot [mySlot] over the staged caches. *)
Definition sweep (fn : Fn) (radius2 : T) (isSelfFrame : bool) (posCache : list (storage T))
    (nbCache : list Nb) (mySlot : nat) (r : Registers) : Registers :=
  set_acc (foldl (fun a '(j, (pos, nb)) =>
             pair_step fn radius2 r pos nb (isSelfFrame && (j =? mySlot)) a)
           (ownAcc r) (zip (seq 0 (length posCache)) (zip posCache nbCache))) r.

(** [interactWithNeighbourFrame]: the registers and the neighbour cache are the
    state that persists; [None] when the frame does not fit the caches. *)
Definition interactWithNeighbourFrame (fn : Fn) (ownVolume neighbourVolume : AABB T) (nfr : Frame T)
    (radius2 : T) (isSelfFrame : bool) (st : list (option Registers) * list Nb)
    : option (list (option Registers) * list Nb) :=
  if negb (length (slots nfr) =? length st.2) then None else
  let originShift := point_sub (origin neighbourVolume) (origin ownVolume) in
  let posCache := map (stage_pos originShift) (slots nfr) in
  let nbCache := zip_with (stage_nb fn) (slots nfr) st.2 in
  let regs := imap (fun mySlot r => sweep fn radius2 isSelfFrame posCache nbCache mySlot <$> r) st.1 in
  Some (regs, nbCache).

(** ** The kernels *)

(** [SourceView]: the device view of one source. *)
Record SourceView : Type := mkSourceView {
  sourcePRDeviceBox : list (ParticleRegion T);
  neighbourRegionsBox : list Z;
  regionOffsetsBox : list Z
}.

(** The sweep over the frames of one neighbour region. *)
Definition sweep_region (fuel : nat) (h : heap T) (fn : Fn) (ownPtr : Z) (ownVolume : AABB T) (radius2 : T)
    (nr : ParticleRegion T) (st : list (option Registers) * list Nb)
    : option (list (option Registers) * list Nb) :=
  r ← forEachFrame fuel (fun p s =>
        (s.1, st ← s.2; nfr ← s.1 !! p;
              interactWithNeighbourFrame fn ownVolume (volume nr) nfr radius2 (ownPtr =? p)%Z st))
      (m_firstNode (particleFrameList nr)) (h, Some st);
  r.2.

(** The loop over the neighbour regions of one source. *)
Fixpoint sweep_source (fuel : nat) (h : heap T) (fn : Fn) (ownPtr : Z) (ownVolume : AABB T) (radius2 : T)
    (sv : SourceView) (row : list Z) (st : list (option Registers) * list Nb)
    : option (list (option Registers) * list Nb) :=
  match row with
  | [] => Some st
  | n :: row =>
      nr ← zbox_read (sourcePRDeviceBox sv) n;
      st' ← sweep_region fuel h fn ownPtr ownVolume radius2 nr st;
      sweep_source fuel h fn ownPtr ownVolume radius2 sv row st'
  end.

(** The entries [regionOffsetsBox[rIdx] .. regionOffsetsBox[rIdx + 1])] the loop over [n] reads. *)
Definition source_row (sv : SourceView) (rIdx : nat) : option (list Z) :=
  lo ← regionOffsetsBox sv !! rIdx;
  hi ← regionOffsetsBox sv !! S rIdx;
  mapM (fun k => zbox_read (neighbourRegionsBox sv) (lo + Z.of_nat k)%Z) (seq 0 (Z.to_nat (hi - lo)%Z)).

(** All sources of the tuple, in order. *)
Fixpoint sweep_sources (fuel : nat) (h : heap T) (fn : Fn) (ownPtr : Z) (ownVolume : AABB T) (radius2 : T)
    (rIdx : nat) (svs : list SourceView) (st : list (option Registers) * list Nb)
    : option (list (option Registers) * list Nb) :=
  match svs with
  | [] => Some st
  | sv :: svs =>
      row ← source_row sv rIdx;
      st' ← sweep_source fuel h fn ownPtr ownVolume radius2 sv row st;
      sweep_sources fuel h fn ownPtr ownVolume radius2 rIdx svs st'
  end.

(** [UnifiedFrameInteractionKernel], block [b]; [junk] is the initial content of
    the shared neighbour cache. *)
Definition UnifiedFrameInteractionKernel (fuel frameSize : nat) (junk : Nb) (fn : Fn)
    (targets : list (ParticleRegion T)) (framePtrsBox regionIdxBox : list Z) (totalFrames : nat)
    (svs : list SourceView) (interactionRadius : T) (b : nat) (h : heap T) : option (heap T) :=
  if totalFrames <=? b then Some h else
  rIdx ← regionIdxBox !! b;
  region ← zbox_read targets rIdx;
  ownPtr ← framePtrsBox !! b;
  fr ← h !! ownPtr;
  let radius2 := (interactionRadius * interactionRadius)%S in
  let st := (loadOwnRegisters fn fr, replicate frameSize junk) in
  st' ← sweep_sources fuel h fn ownPtr (volume region) radius2 (Z.to_nat rIdx) svs st;
  Some (<[ownPtr := storeOwnAccumulators fn st'.1 fr]> h).

(** [FrameInteractionKernel]: the same block for a single source. *)
Definition FrameInteractionKernel (fuel frameSize : nat) (junk : Nb) (fn : Fn)
    (targets : list (ParticleRegion T)) (framePtrsBox regionIdxBox : list Z) (totalFrames : nat)
    (sv : SourceView) (interactionRadius : T) (b : nat) (h : heap T) : option (heap T) :=
  if totalFrames <=? b then Some h else
  rIdx ← regionIdxBox !! b;
  region ← zbox_read targets rIdx;
  ownPtr ← framePtrsBox !! b;
  fr ← h !! ownPtr;
  let radius2 := (interactionRadius * interactionRadius)%S in
  let st := (loadOwnRegisters fn fr, replicate frameSize junk) in
  row ← source_row sv (Z.to_nat rIdx);
  st' ← sweep_source fuel h fn ownPtr (volume region) radius2 sv row st;
  Some (<[ownPtr := storeOwnAccumulators fn st'.1 fr]> h).

(** ** The specification

    What the caches, sentinels and registers implement: every live target particle
    folds the functor over the live source particles, in the order of the traversal. *)

(** What a target meets of a live source particle. *)
Record Source : Type := mkSource {
  src_volume : AABB T;
  src_ptr : Z;
  src_slot : nat;
  src_rel : storage T;
  src_nb : Nb
}.

Definition frame_sources (fn : Fn) (v : AABB T) (p : Z) (fr : Frame T) : list Source :=
  omap (fun '(j, q) => if occupied q then Some (mkSource v p j (relativePos q) (fn_stage fn q)) else None)
       (zip (seq 0 (length (slots fr))) (slots fr)).

(** The position of the source in the target's coordinates. *)
Definition source_pos (ownVolume : AABB T) (s : Source) : storage T :=
  shifted_pos (point_sub (origin (src_volume s)) (origin ownVolume)) (src_rel s).

Definition source_step (fn : Fn) (radius2 : T) (ownPtr : Z) (ownVolume : AABB T) (mySlot : nat)
    (r : Registers) (a : Acc) (s : Source) : Acc :=
  pair_step fn radius2 r (source_pos ownVolume s) (src_nb s)
    ((ownPtr =? src_ptr s)%Z && (src_slot s =? mySlot)) a.

(** The accumulated registers of slot [mySlot] after the sources [ss]. *)
Definition spec_acc (fn : Fn) (radius2 : T) (ownPtr : Z) (ownVolume : AABB T) (ss : list Source)
    (mySlot : nat) (r : Registers) : Registers :=
  set_acc (foldl (source_step fn radius2 ownPtr ownVolume mySlot r) (ownAcc r) ss) r.

(** A dead slot is culled for this particle. *)
Definition culls_dead (radius2 : T) (r : Registers) : bool :=
  negb ((pair_geometry (ownRel r) dead_pos).2 <? radius2)%S.

Lemma spec_acc_app fn radius2 ownPtr ownVolume ss1 ss2 mySlot r :
  spec_acc fn radius2 ownPtr ownVolume (ss1 ++ ss2) mySlot r =
  spec_acc fn radius2 ownPtr ownVolume ss2 mySlot (spec_acc fn radius2 ownPtr ownVolume ss1 mySlot r).
Proof. unfold spec_acc. rewrite foldl_app. done. Qed.

(** The sweep over the staged caches folds the functor over the live particles,
    whatever the dead entries of the neighbour cache hold. *)
Lemma sweep_spec fn radius2 ownPtr ownVolume v p nfr old mySlot r :
  culls_dead radius2 r = true -> length old = length (slots nfr) ->
  sweep fn radius2 (ownPtr =? p)%Z
    (map (stage_pos (point_sub (origin v) (origin ownVolume))) (slots nfr))
    (zip_with (stage_nb fn) (slots nfr) old) mySlot r =
  spec_acc fn radius2 ownPtr ownVolume (frame_sources fn v p nfr) mySlot r.
Proof.
  intros Hc Hl. unfold sweep, spec_acc, frame_sources. f_equal. rewrite length_map.
  set (shift := point_sub (origin v) (origin ownVolume)).
  generalize (ownAcc r) as a0. generalize 0 as k. revert old Hl.
  induction (slots nfr) as [|q qs IH]; intros [|o os] Hl k a0; try done.
  cbn [length seq map zip zip_with foldl omap list_omap].
  injection Hl as Hl. unfold stage_nb at 1. destruct (occupied q) eqn:Hq; cbn [foldl].
  - rewrite (IH os Hl). f_equal. unfold source_step, source_pos, stage_pos. by rewrite Hq.
  - rewrite (IH os Hl). f_equal. unfold pair_step, stage_pos. rewrite Hq.
    unfold culls_dead in Hc. apply negb_true_iff in Hc. by rewrite Hc.
Qed.

Lemma culls_dead_spec radius2 fn ownPtr ownVolume ss mySlot r :
  culls_dead radius2 (spec_acc fn radius2 ownPtr ownVolume ss mySlot r) = culls_dead radius2 r.
Proof. done. Qed.

(** The register file after the sources [ss]. *)
Definition spec_regs (fn : Fn) (radius2 : T) (ownPtr : Z) (ownVolume : AABB T) (ss : list Source)
    (regs : list (option Registers)) : list (option Registers) :=
  imap (fun mySlot r => spec_acc fn radius2 ownPtr ownVolume ss mySlot <$> r) regs.

Definition regs_cull (radius2 : T) (regs : list (option Registers)) : Prop :=
  forall i r, regs !! i = Some (Some r) -> culls_dead radius2 r = true.

Lemma spec_regs_cull fn radius2 ownPtr ownVolume ss regs :
  regs_cull radius2 regs -> regs_cull radius2 (spec_regs fn radius2 ownPtr ownVolume ss regs).
Proof.
  intros Hc i r. unfold spec_regs. rewrite list_lookup_imap.
  destruct (regs !! i) as [[r0|]|] eqn:E; simpl; [|done..].
  intros [= <-]. rewrite culls_dead_spec. by eapply Hc.
Qed.

Lemma spec_regs_app fn radius2 ownPtr ownVolume ss1 ss2 regs :
  spec_regs fn radius2 ownPtr ownVolume (ss1 ++ ss2) regs =
  spec_regs fn radius2 ownPtr ownVolume ss2 (spec_regs fn radius2 ownPtr ownVolume ss1 regs).
Proof.
  unfold spec_regs. apply list_eq. intros i. rewrite !list_lookup_imap.
  destruct (regs !! i) as [[r|]|]; [|done..]. simpl. by rewrite spec_acc_app.
Qed.

Lemma spec_regs_nil fn radius2 ownPtr ownVolume regs :
  spec_regs fn radius2 ownPtr ownVolume [] regs = regs.
Proof.
  unfold spec_regs. apply list_eq. intros i. rewrite list_lookup_imap.
  by destruct (regs !! i) as [[[]|]|].
Qed.

Lemma interact_frame_spec fn ownPtr ownVolume v p nfr radius2 regs nb :
  regs_cull radius2 regs -> length nb = length (slots nfr) ->
  exists nb', interactWithNeighbourFrame fn ownVolume v nfr radius2 (ownPtr =? p)%Z (regs, nb) =
    Some (spec_regs fn radius2 ownPtr ownVolume (frame_sources fn v p nfr) regs, nb') /\
    length nb' = length nb.
Proof.
  intros Hc Hl. unfold interactWithNeighbourFrame. cbn [fst snd].
  rewrite (proj2 (Nat.eqb_eq _ _)) by lia. cbn [negb]. eexists. split.
  - do 2 f_equal. unfold spec_regs. apply list_eq. intros i. rewrite !list_lookup_imap.
    destruct (regs !! i) as [[r|]|] eqn:E; [|done..]. simpl. do 2 f_equal.
    apply sweep_spec; [by eapply Hc|done].
  - rewrite length_zip_with. lia.
Qed.

(** ** Regions, sources, blocks *)

(** The live particles of a region whose frames are [ps]. *)
Definition region_sources (fn : Fn) (h : heap T) (v : AABB T) (ps : list Z) : list Source :=
  ps ≫= fun p => match h !! p with Some fr => frame_sources fn v p fr | None => [] end.

Definition sized (frameSize : nat) (h : heap T) (ps : list Z) : Prop :=
  forall p, p ∈ ps -> exists fr, h !! p = Some fr /\ length (slots fr) = frameSize.

Lemma sweep_region_spec fuel frameSize h fn ownPtr ownVolume radius2 nr ps regs nb :
  is_list h (particleFrameList nr) ps -> length ps <= fuel -> sized frameSize h ps ->
  regs_cull radius2 regs -> length nb = frameSize ->
  exists nb', sweep_region fuel h fn ownPtr ownVolume radius2 nr (regs, nb) =
    Some (spec_regs fn radius2 ownPtr ownVolume (region_sources fn h (volume nr) ps) regs, nb') /\
    length nb' = frameSize.
Proof.
  intros Hl Hf Hs Hc Hnb. unfold sweep_region.
  rewrite (forEachFrame_chain _ _ _ _ ps); [|done|intros q r [h0 s0] _ _; done|by apply is_list_chain].
  cbn [mbind option_bind]. clear Hl Hf. revert regs nb Hc Hnb.
  induction ps as [|p ps IH]; intros regs nb Hc Hnb.
  { exists nb. cbn [foldl fst snd region_sources mbind list_bind]. by rewrite spec_regs_nil. }
  destruct (Hs p ltac:(by left)) as (fr & Hfr & Hlen).
  destruct (interact_frame_spec fn ownPtr ownVolume (volume nr) p fr radius2 regs nb Hc ltac:(lia))
    as (nb' & E & Hnb').
  cbn [foldl fst snd mbind option_bind]. rewrite Hfr. cbn [mbind option_bind]. rewrite E.
  unfold region_sources. rewrite bind_cons, Hfr, spec_regs_app.
  apply IH; [intros q Hq; apply Hs; by right|by apply spec_regs_cull|lia].
Qed.

(** Entry [n] of a row names a region of the source, with its frame list. *)
Definition region_ok (fuel frameSize : nat) (h : heap T) (sv : SourceView) (fss : list (list Z)) (n : Z) : Prop :=
  exists nr ps, zbox_read (sourcePRDeviceBox sv) n = Some nr /\ zbox_read fss n = Some ps /\
    is_list h (particleFrameList nr) ps /\ length ps <= fuel /\ sized frameSize h ps.

(** The live particles a row of neighbour regions contributes. *)
Definition row_sources (fn : Fn) (h : heap T) (sv : SourceView) (fss : list (list Z)) (row : list Z)
    : list Source :=
  row ≫= fun n => match zbox_read (sourcePRDeviceBox sv) n, zbox_read fss n with
    | Some nr, Some ps => region_sources fn h (volume nr) ps
    | _, _ => [] end.

Lemma sweep_source_spec fuel frameSize h fn ownPtr ownVolume radius2 sv fss row regs nb :
  (forall n, n ∈ row -> region_ok fuel frameSize h sv fss n) ->
  regs_cull radius2 regs -> length nb = frameSize ->
  exists nb', sweep_source fuel h fn ownPtr ownVolume radius2 sv row (regs, nb) =
    Some (spec_regs fn radius2 ownPtr ownVolume (row_sources fn h sv fss row) regs, nb') /\
    length nb' = frameSize.
Proof.
  revert regs nb. induction row as [|n row IH]; intros regs nb Hrow Hc Hnb.
  { exists nb. cbn [sweep_source row_sources mbind list_bind]. by rewrite spec_regs_nil. }
  destruct (Hrow n ltac:(by left)) as (nr & ps & Hnr & Hps & Hl & Hf & Hs).
  destruct (sweep_region_spec fuel frameSize h fn ownPtr ownVolume radius2 nr ps regs nb Hl Hf Hs Hc Hnb)
    as (nb' & E & Hnb').
  cbn [sweep_source]. rewrite Hnr. cbn [mbind option_bind]. rewrite E. cbn [mbind option_bind].
  unfold row_sources. rewrite bind_cons, Hnr, Hps, spec_regs_app.
  apply IH; [intros; apply Hrow; by right|by apply spec_regs_cull|done].
Qed.

(** The tuple of sources: their views, lists and rows for region [rIdx]. *)
Definition row_ok (fuel frameSize : nat) (h : heap T) (sv : SourceView) (fss : list (list Z)) (rIdx : nat)
    (row : list Z) : Prop :=
  source_row sv rIdx = Some row /\ forall n, n ∈ row -> region_ok fuel frameSize h sv fss n.

Fixpoint tuple_sources (fn : Fn) (h : heap T) (rIdx : nat) (svs : list (SourceView * list (list Z)))
    : list Source :=
  match svs with
  | [] => []
  | (sv, fss) :: svs =>
      row_sources fn h sv fss (default [] (source_row sv rIdx)) ++ tuple_sources fn h rIdx svs
  end.

Lemma sweep_sources_spec fuel frameSize h fn ownPtr ownVolume radius2 rIdx svs regs nb :
  Forall (fun '(sv, fss) => exists row, row_ok fuel frameSize h sv fss rIdx row) svs ->
  regs_cull radius2 regs -> length nb = frameSize ->
  exists nb', sweep_sources fuel h fn ownPtr ownVolume radius2 rIdx (map fst svs) (regs, nb) =
    Some (spec_regs fn radius2 ownPtr ownVolume (tuple_sources fn h rIdx svs) regs, nb').
Proof.
  intros Hok. revert regs nb. induction Hok as [|[sv fss] svs [row [Hrow Hin]] _ IH]; intros regs nb Hc Hnb.
  { exists nb. cbn [map sweep_sources tuple_sources]. by rewrite spec_regs_nil. }
  destruct (sweep_source_spec fuel frameSize h fn ownPtr ownVolume radius2 sv fss row regs nb Hin Hc Hnb)
    as (nb' & E & Hnb').
  cbn [map fst sweep_sources tuple_sources]. rewrite Hrow. cbn [mbind option_bind default].
  rewrite E. cbn [mbind option_bind]. rewrite spec_regs_app.
  apply IH; [by apply spec_regs_cull|done].
Qed.

(** ** The result of a block *)

Definition particle_result (fn : Fn) (radius2 : T) (ownPtr : Z) (ownVolume : AABB T) (ss : list Source)
    (mySlot : nat) (p : Particle T) : Particle T :=
  store_slot fn p (spec_acc fn radius2 ownPtr ownVolume ss mySlot <$> load_slot fn p).

Definition frame_result (fn : Fn) (radius2 : T) (ownPtr : Z) (ownVolume : AABB T) (ss : list Source)
    (fr : Frame T) : Frame T :=
  set_slots (imap (particle_result fn radius2 ownPtr ownVolume ss) (slots fr)) fr.

Lemma storeOwn_result fn radius2 ownPtr ownVolume ss fr :
  storeOwnAccumulators fn (spec_regs fn radius2 ownPtr ownVolume ss (loadOwnRegisters fn fr)) fr =
  frame_result fn radius2 ownPtr ownVolume ss fr.
Proof.
  unfold storeOwnAccumulators, frame_result, spec_regs, loadOwnRegisters. f_equal.
  apply list_eq. intros i. rewrite lookup_zip_with, !list_lookup_imap, list_lookup_fmap.
  by destruct (slots fr !! i).
Qed.

(** The particles of a target frame cull the sentinel. *)
Definition frame_culls (fn : Fn) (radius2 : T) (fr : Frame T) : Prop :=
  regs_cull radius2 (loadOwnRegisters fn fr).

Lemma unified_block_spec fuel frameSize junk fn targets fps ris total svs radius b h rIdx region ownPtr fr :
  b < total -> ris !! b = Some (Z.of_nat rIdx) -> targets !! rIdx = Some region ->
  fps !! b = Some ownPtr -> h !! ownPtr = Some fr ->
  Forall (fun '(sv, fss) => exists row, row_ok fuel frameSize h sv fss rIdx row) svs ->
  frame_culls fn (radius * radius)%S fr ->
  UnifiedFrameInteractionKernel fuel frameSize junk fn targets fps ris total (map fst svs) radius b h =
  Some (<[ownPtr := frame_result fn (radius * radius)%S ownPtr (volume region)
                      (tuple_sources fn h rIdx svs) fr]> h).
Proof.
  intros Hb Hri Hreg Hfp Hfr Hok Hc. unfold UnifiedFrameInteractionKernel.
  rewrite (proj2 (Nat.leb_gt _ _)) by done. rewrite Hri. cbn [mbind option_bind].
  rewrite zbox_read_nat, Hreg. cbn [mbind option_bind]. rewrite Hfp. cbn [mbind option_bind].
  rewrite Hfr. cbn [mbind option_bind]. rewrite Nat2Z.id.
  destruct (sweep_sources_spec fuel frameSize h fn ownPtr (volume region) (radius * radius)%S rIdx svs
    (loadOwnRegisters fn fr) (replicate frameSize junk) Hok Hc) as (nb' & E);
    [by rewrite length_replicate|].
  rewrite E. cbn [mbind option_bind fst]. by rewrite storeOwn_result.
Qed.

(** The per-source kernel is the unified kernel with a tuple of one source. *)
Lemma FrameInteractionKernel_unified fuel frameSize junk fn targets fps ris total sv radius b h :
  FrameInteractionKernel fuel frameSize junk fn targets fps ris total sv radius b h =
  UnifiedFrameInteractionKernel fuel frameSize junk fn targets fps ris total [sv] radius b h.
Proof.
  unfold FrameInteractionKernel, UnifiedFrameInteractionKernel.
  destruct (total <=? b); [done|].
  destruct (ris !! b) as [rIdx|]; cbn [mbind option_bind]; [|done].
  destruct (zbox_read targets rIdx) as [region|]; cbn [mbind option_bind]; [|done].
  destruct (fps !! b) as [ownPtr|]; cbn [mbind option_bind]; [|done].
  destruct (h !! ownPtr) as [fr|]; cbn [mbind option_bind sweep_sources]; [|done].
  destruct (source_row sv (Z.to_nat rIdx)) as [row|]; cbn [mbind option_bind]; [|done].
  by destruct (sweep_source _ _ _ _ _ _ _ _ _) as [[]|].
Qed.
End interaction.

Arguments fn_ownReads {T Reads Prep Nb Acc}.
Arguments fn_loadAcc {T Reads Prep Nb Acc}.
Arguments fn_prepare {T Reads Prep Nb Acc}.
Arguments fn_stage {T Reads Prep Nb Acc}.
Arguments fn_call {T Reads Prep Nb Acc}.
Arguments fn_storeAcc {T Reads Prep Nb Acc}.
