(* ===== verification/InteractLaunch.v ===== *)
(** * Launching an interaction

    Models launchForEachFrameInBlockIndexed (FrameDispatch.hpp) for the interaction
    kernels, the device view of a neighbour entry (NeighbourEntry.hpp) and [interact]
    with its two policies (InteractParticles.hpp).  [FieldSeparation] is what the
    copies generated from disjoint tag sets promise: storing the accumulators
    leaves everything a neighbour reads alone.  Under it the blocks of a launch can run in any
    order although they share the heap of frames. *)
From Stdlib Require Import ZArith Lia.
From stdpp Require Import base sets list numbers gmap.
From S2P Require Import Prelude Scalar Topology Aabb FrameList Lockstep Regions Scan FrameIndex Launch NeighbourRegions Interaction.

Section launch.
Context {D : CartesianDim} {T : Type} `{Scalar T} {Reads Prep Nb Acc : Type}.
#[local] Abbreviation Fn := (Functor (T := T) Reads Prep Nb Acc).

(** ** Operations *)

(** [NeighbourEntry::deviceView]. *)
Definition deviceView (e : NeighbourEntry (T := T)) : SourceView :=
  mkSourceView (getDeviceDataBox (sourceBuf e)) (deviceData (neighbourRegions e))
    (deviceData (regionOffsets e)).

(** [launchForEachFrameInBlockIndexed<WithRegions>]: the assertion on the index, the
    empty case, and one kernel launch of [numBlocks(totalFrames)] blocks run in
    the order [ord] chooses. *)
Definition launchForEachFrameInBlockIndexed (grid : GridPolicy) (ord : nat -> list nat)
    (prBuf : PRBuffer T) (index : FrameIndexBuffer)
    (kernel : list (ParticleRegion T) -> list Z -> list Z -> nat -> nat -> heap T -> option (heap T))
    (h : heap T) : option (heap T) :=
  if negb (index_fresh index prBuf) then None else
  if (totalFrames index =? 0)%Z then Some h else
  let total := Z.to_nat (totalFrames index) in
  framePtrsBox ← framePtrs index;
  regionIdxBox ← regionIdxPerFrame index;
  run_blocks (ord (numBlocks grid total))
    (kernel (getDeviceDataBox prBuf) framePtrsBox regionIdxBox total) h.

(** [perSource]: one launch per source, in the order of the queue; [ord i] orders the
    blocks of launch [i]. *)
Fixpoint perSource (fuel frameSize : nat) (junk : Nb) (ord : nat -> nat -> list nat) (views : list SourceView)
    (target : PRBuffer T) (index : FrameIndexBuffer) (radius : T) (fn : Fn) (h : heap T) : option (heap T) :=
  match views with
  | [] => Some h
  | sv :: views =>
      h' ← launchForEachFrameInBlockIndexed OneBlockPerFrame (ord 0) target index
        (fun prs fps ris total => FrameInteractionKernel fuel frameSize junk fn prs fps ris total sv radius) h;
      perSource fuel frameSize junk (fun i => ord (S i)) views target index radius fn h'
  end.

(** [unifiedSource]: a single launch over the tuple of views. *)
Definition unifiedSource (fuel frameSize : nat) (junk : Nb) (ord : nat -> nat -> list nat) (views : list SourceView)
    (target : PRBuffer T) (index : FrameIndexBuffer) (radius : T) (fn : Fn) (h : heap T) : option (heap T) :=
  if length views =? 0 then Some h else
  launchForEachFrameInBlockIndexed OneBlockPerFrame (ord 0) target index
    (fun prs fps ris total => UnifiedFrameInteractionKernel fuel frameSize junk fn prs fps ris total views radius) h.

Inductive Policy : Set := PerSourcePolicy | UnifiedPolicy | DefaultPolicy.

(** [interact], for the two forced policies and the default choice. *)
Definition interact (policy : Policy) (fuel frameSize : nat) (junk : Nb) (ord : nat -> nat -> list nat)
    (bundle : list NeighbourEntry) (target : PRBuffer T) (index : FrameIndexBuffer) (radius : T) (fn : Fn)
    (h : heap T) : option (heap T) :=
  let views := map deviceView bundle in
  match policy with
  | PerSourcePolicy => perSource fuel frameSize junk ord views target index radius fn h
  | UnifiedPolicy => unifiedSource fuel frameSize junk ord views target index radius fn h
  | DefaultPolicy =>
      if length bundle =? 1 then perSource fuel frameSize junk ord views target index radius fn h
      else unifiedSource fuel frameSize junk ord views target index radius fn h
  end.

(** ** Separation of the accumulators from what neighbours read *)

Class FieldSeparation (fn : Fn) : Prop := {
  store_relativePos : forall a p, relativePos (fn_storeAcc fn a p) = relativePos p;
  store_occupied : forall a p, occupied (fn_storeAcc fn a p) = occupied p;
  store_reads : forall a p, fn_ownReads fn (fn_storeAcc fn a p) = fn_ownReads fn p;
  store_stage : forall a p, fn_stage fn (fn_storeAcc fn a p) = fn_stage fn p;
  load_store : forall a p, fn_loadAcc fn (fn_storeAcc fn a p) = a;
  store_load : forall p, fn_storeAcc fn (fn_loadAcc fn p) p = p;
  store_store : forall a b p, fn_storeAcc fn a (fn_storeAcc fn b p) = fn_storeAcc fn a p
}.

(** Heaps with the same frames, related slot by slot. *)
Definition frame_rel (P : Particle T -> Particle T -> Prop) (fr gr : Frame T) : Prop :=
  next gr = next fr /\ Forall2 P (slots fr) (slots gr).
Definition heap_rel (P : Particle T -> Particle T -> Prop) (h h' : heap T) : Prop :=
  forall p, option_Forall2 (frame_rel P) (h !! p) (h' !! p).

Lemma is_list_rel P h h' l ps : heap_rel P h h' -> is_list h l ps -> is_list h' l ps.
Proof.
  intros Hs ([Hnd Hin] & Hadj & Hlast & Hl).
  assert (Hlk : forall a, links h' l a = links h l a).
  { intros a. unfold links. destruct (a =? 0)%Z; [done|]. specialize (Hs a).
    destruct Hs as [fr gr [Hn _]|]; [|done]. simpl. by rewrite Hn. }
  split; [split; [done|]|split; [|split; [|done]]].
  - intros p Hp. specialize (Hs p). destruct (Hin p Hp) as [fr Hfr]. rewrite Hfr in Hs. inversion Hs. done.
  - intros a b Hab. rewrite Hlk. by apply Hadj.
  - by rewrite Hlk.
Qed.

Lemma sized_rel P n h h' ps : heap_rel P h h' -> sized n h ps -> sized n h' ps.
Proof.
  intros Hs Hz p Hp. specialize (Hs p). destruct (Hz p Hp) as (fr & Hfr & Hlen). rewrite Hfr in Hs.
  inversion Hs as [? gr [_ Hf] E1 E2|]. exists gr. split; [done|]. by rewrite <-(Forall2_length _ _ _ Hf).
Qed.

Lemma heap_rel_impl (P Q : Particle T -> Particle T -> Prop) h h' :
  (forall a b, P a b -> Q a b) -> heap_rel P h h' -> heap_rel Q h h'.
Proof.
  intros Hi Hr p. destruct (Hr p) as [fr gr [Hn Hf]|]; constructor. split; [done|]. by eapply Forall2_impl.
Qed.

(** Frames and heaps that look the same to a staging neighbour. *)
Definition slot_sep (fn : Fn) (p q : Particle T) : Prop :=
  occupied q = occupied p /\ relativePos q = relativePos p /\ fn_stage fn q = fn_stage fn p.
Definition frame_sep (fn : Fn) : Frame T -> Frame T -> Prop := frame_rel (slot_sep fn).
Definition heap_sep (fn : Fn) : heap T -> heap T -> Prop := heap_rel (slot_sep fn).

Lemma slot_sep_refl fn p : slot_sep fn p p.
Proof. done. Qed.

Lemma frame_sep_refl fn fr : frame_sep fn fr fr.
Proof. split; [done|]. induction (slots fr); constructor; auto using slot_sep_refl. Qed.

Lemma frame_sep_trans fn fr gr kr : frame_sep fn fr gr -> frame_sep fn gr kr -> frame_sep fn fr kr.
Proof.
  intros [Hn Hf] [Hn' Hf']. split; [congruence|]. revert Hf'. generalize (slots kr) as zs.
  induction Hf as [|x y xs ys (?&?&?) _ IH]; intros [|z zs] Hf'; inversion Hf' as [|? ? ? ? (?&?&?) ?];
    constructor; [|by apply IH]. repeat split; congruence.
Qed.

Lemma heap_sep_refl fn h : heap_sep fn h h.
Proof. intros p. destruct (h !! p); constructor. apply frame_sep_refl. Qed.

Lemma heap_sep_trans fn h h' h'' : heap_sep fn h h' -> heap_sep fn h' h'' -> heap_sep fn h h''.
Proof.
  intros H1 H2 p. specialize (H1 p). specialize (H2 p).
  destruct H1; inversion H2; constructor. by eapply frame_sep_trans.
Qed.

Lemma heap_sep_update fn h h' p fr gr :
  heap_sep fn h h' -> h !! p = Some fr -> frame_sep fn fr gr -> heap_sep fn h (<[p := gr]> h').
Proof.
  intros Hs Hp Hf q. destruct (decide (q = p)) as [->|Hne].
  - rewrite lookup_insert_eq, Hp. by constructor.
  - by rewrite lookup_insert_ne.
Qed.

Lemma frame_sources_sep fn v p fr gr :
  frame_sep fn fr gr -> frame_sources fn v p gr = frame_sources fn v p fr.
Proof.
  intros [_ Hf]. unfold frame_sources. rewrite <-(Forall2_length _ _ _ Hf).
  generalize 0. induction Hf as [|x y xs ys (Ho & Hr & Hg) _ IH]; intros k; [done|].
  cbn [length seq zip omap list_omap]. rewrite Ho, Hr, Hg, IH. done.
Qed.

Lemma region_sources_sep fn h h' v ps :
  heap_sep fn h h' -> region_sources fn h' v ps = region_sources fn h v ps.
Proof.
  intros Hs. unfold region_sources. induction ps as [|p ps IH]; [done|].
  rewrite !bind_cons, IH. f_equal. specialize (Hs p).
  destruct Hs; [by apply frame_sources_sep|done].
Qed.

Lemma row_sources_sep fn h h' sv fss row :
  heap_sep fn h h' -> row_sources fn h' sv fss row = row_sources fn h sv fss row.
Proof.
  intros Hs. unfold row_sources. induction row as [|n row IH]; [done|].
  rewrite !bind_cons, IH. f_equal.
  destruct (zbox_read _ n), (zbox_read fss n); try done. by apply region_sources_sep.
Qed.

Lemma tuple_sources_sep fn h h' r svs :
  heap_sep fn h h' -> tuple_sources fn h' r svs = tuple_sources fn h r svs.
Proof.
  intros Hs. induction svs as [|[sv fss] svs IH]; [done|]. cbn [tuple_sources].
  by rewrite IH, (row_sources_sep _ _ _ _ _ _ Hs).
Qed.

Lemma is_list_sep fn h h' l ps : heap_sep fn h h' -> is_list h l ps -> is_list h' l ps.
Proof. apply is_list_rel. Qed.

Lemma sized_sep fn n h h' ps : heap_sep fn h h' -> sized n h ps -> sized n h' ps.
Proof. apply sized_rel. Qed.

Lemma row_ok_sep fn fuel n h h' sv fss r row :
  heap_sep fn h h' -> row_ok fuel n h sv fss r row -> row_ok fuel n h' sv fss r row.
Proof.
  intros Hs [E Hrow]. split; [done|]. intros i Hi. destruct (Hrow i Hi) as (nr & ps & ? & ? & ? & ? & ?).
  exists nr, ps. split_and!; [done..|by eapply is_list_sep|done|by eapply sized_sep].
Qed.

(** ** Results compose *)

Section results.
Context (fn : Fn) `{!FieldSeparation fn} (radius2 : T) (ownPtr : Z) (ownVolume : AABB T).
#[local] Abbreviation presult := (particle_result fn radius2 ownPtr ownVolume).
#[local] Abbreviation fresult := (frame_result fn radius2 ownPtr ownVolume).

Lemma particle_result_sep ss i p : slot_sep fn p (presult ss i p).
Proof using Type*.
  unfold particle_result, load_slot, slot_sep. destruct (occupied p) eqn:E; simpl; [|done].
  by rewrite store_occupied, store_relativePos, store_stage.
Qed.

Lemma load_particle_result ss i p :
  load_slot fn (presult ss i p) = spec_acc fn radius2 ownPtr ownVolume ss i <$> load_slot fn p.
Proof using Type*.
  unfold particle_result, load_slot. destruct (occupied p) eqn:E; simpl; [|by rewrite E].
  rewrite store_occupied, E, store_relativePos, store_reads, load_store. done.
Qed.

Lemma particle_result_app ss1 ss2 i p : presult ss2 i (presult ss1 i p) = presult (ss1 ++ ss2) i p.
Proof using Type*.
  unfold particle_result at 1. rewrite load_particle_result. unfold particle_result, load_slot.
  destruct (occupied p) eqn:E;
    cbn [fmap option_fmap option_map store_slot]; [|done]. by rewrite store_store, spec_acc_app.
Qed.

Lemma particle_result_nil i p : presult [] i p = p.
Proof using Type*.
  unfold particle_result, load_slot. destruct (occupied p); [|done].
  unfold spec_acc, set_acc. simpl. apply store_load.
Qed.

Lemma frame_result_sep ss fr : frame_sep fn fr (fresult ss fr).
Proof using Type*.
  split; [done|]. simpl. apply Forall2_same_length_lookup. rewrite length_imap. split; [done|].
  intros i p q Hp. rewrite list_lookup_imap, Hp. intros [= <-]. apply particle_result_sep.
Qed.

Lemma frame_result_app ss1 ss2 fr : fresult ss2 (fresult ss1 fr) = fresult (ss1 ++ ss2) fr.
Proof using Type*.
  unfold frame_result, set_slots. simpl. f_equal. apply list_eq. intros i. rewrite !list_lookup_imap.
  destruct (slots fr !! i); [|done]. simpl. by rewrite particle_result_app.
Qed.

Lemma frame_result_nil fr : fresult [] fr = fr.
Proof using Type*.
  destruct fr as [ss n nx]. unfold frame_result, set_slots. simpl. f_equal.
  apply list_eq. intros i. rewrite list_lookup_imap.
  destruct (ss !! i); [|done]. simpl. by rewrite particle_result_nil.
Qed.

End results.

(** ** Blocks that each rewrite a frame of their own *)

Lemma run_blocks_frames (ord : list nat) (ptr : nat -> Z) (g : nat -> Frame T -> Frame T)
    (kernel : nat -> heap T -> option (heap T)) (Inv : heap T -> Prop) h :
  NoDup ord -> (forall b c, b ∈ ord -> c ∈ ord -> ptr b = ptr c -> b = c) -> Inv h ->
  (forall b hc fr, b ∈ ord -> Inv hc -> h !! ptr b = Some fr -> hc !! ptr b = Some fr ->
     kernel b hc = Some (<[ptr b := g b fr]> hc) /\ Inv (<[ptr b := g b fr]> hc)) ->
  (forall b, b ∈ ord -> is_Some (h !! ptr b)) ->
  exists h', run_blocks ord kernel h = Some h' /\ Inv h' /\
    (forall b, b ∈ ord -> h' !! ptr b = g b <$> h !! ptr b) /\
    (forall p, (forall b, b ∈ ord -> ptr b <> p) -> h' !! p = h !! p).
Proof.
  intros Hnd Hinj HI Hk Hs.
  assert (Hgen : forall hc, Inv hc -> (forall b, b ∈ ord -> hc !! ptr b = h !! ptr b) ->
    exists h', run_blocks ord kernel hc = Some h' /\ Inv h' /\
      (forall b, b ∈ ord -> h' !! ptr b = g b <$> h !! ptr b) /\
      (forall p, (forall b, b ∈ ord -> ptr b <> p) -> h' !! p = hc !! p)).
  { clear HI. induction ord as [|b ord IH]; intros hc HI Hsame.
    { exists hc. split_and!; try done. intros b Hb. by apply not_elem_of_nil in Hb. }
    apply NoDup_cons in Hnd as [Hb Hnd]. destruct (Hs b) as [fr Hfr]; [by left|].
    destruct (Hk b hc fr) as [E HI']; [by left|done|done|by rewrite Hsame by left|].
    cbn [run_blocks]. rewrite E. cbn [mbind option_bind].
    assert (Hne : forall c, c ∈ ord -> ptr b <> ptr c).
    { intros c Hc Heq. apply Hb. rewrite (Hinj b c); [done|by left|by right|done]. }
    destruct (IH Hnd) with (hc := <[ptr b := g b fr]> hc) as (h' & E' & HI'' & H1 & H2); try done.
    - intros c d Hc Hd. apply Hinj; by right.
    - intros c hc' fr' Hc. apply Hk. by right.
    - intros c Hc. apply Hs. by right.
    - intros c Hc. rewrite lookup_insert_ne by (by apply Hne). apply Hsame. by right.
    - exists h'. split_and!; [done|done| |].
      + intros c [->|Hc]%elem_of_cons; [|by apply H1].
        rewrite H2 by (intros d Hd; by apply not_eq_sym, Hne). by rewrite lookup_insert_eq, Hfr.
      + intros p Hp. rewrite H2 by (intros c Hc; apply Hp; by right).
        rewrite lookup_insert_ne; [done|]. apply Hp. by left. }
  by apply Hgen.
Qed.

(** The flat layout of the index: slot [b] belongs to region [r]. *)
Lemma owners_lookup (fss : list (list Z)) b p :
  concat fss !! b = Some p ->
  exists r ps, concat (owners fss) !! b = Some (Z.of_nat r) /\ fss !! r = Some ps /\ p ∈ ps.
Proof.
  unfold owners.
  assert (Hgen : forall k, concat fss !! b = Some p -> exists r ps,
    concat (imap (fun r ps => replicate (length ps) (Z.of_nat (k + r))) fss) !! b = Some (Z.of_nat (k + r)) /\
    fss !! r = Some ps /\ p ∈ ps).
  { revert b. induction fss as [|ps fss IH]; intros b k Hb; [done|]. cbn [concat imap] in *.
    rewrite lookup_app in Hb. rewrite lookup_app.
    destruct (ps !! b) as [q|] eqn:E.
    - injection Hb as ->. exists 0, ps. rewrite Nat.add_0_r.
      rewrite lookup_replicate_2 by (by eapply lookup_lt_Some).
      split_and!; [done|done|by eapply list_elem_of_lookup_2].
    - apply lookup_ge_None in E. rewrite (proj1 (lookup_replicate_None _ _ _)) by done. rewrite length_replicate.
      destruct (IH _ (S k) Hb) as (r & qs & H1 & H2 & H3). exists (S r), qs.
      rewrite Nat.add_succ_r, <-Nat.add_succ_l. split_and!; [|done|done].
      rewrite <-H1. do 2 f_equal. apply imap_ext. intros i x _. simpl. do 3 f_equal. lia. }
  intros Hb. destruct (Hgen 0 Hb) as (r & ps & ? & ? & ?). by exists r, ps.
Qed.

Lemma concat_owner_unique (fss : list (list Z)) r s ps qs p :
  NoDup (concat fss) -> fss !! r = Some ps -> fss !! s = Some qs -> p ∈ ps -> p ∈ qs -> r = s.
Proof.
  revert r s. induction fss as [|x fss IH]; intros r s Hnd Hr Hs Hp Hq; [done|].
  cbn [concat] in Hnd. apply NoDup_app in Hnd as (_ & Hdis & Hnd).
  assert (Hin : forall i zs, fss !! i = Some zs -> p ∈ zs -> p ∈ concat fss).
  { intros i zs Hi Hz. apply list_elem_of_In, in_concat. exists zs.
    split; apply list_elem_of_In; [by eapply list_elem_of_lookup_2|done]. }
  destruct r as [|r], s as [|s]; simpl in *; simplify_eq; [done| | |f_equal; by eapply IH].
  - exfalso. eapply Hdis; eauto.
  - exfalso. eapply Hdis; eauto.
Qed.

(** ** A launch *)

Section one_launch.
Context (fuel frameSize : nat) (junk : Nb) (fn : Fn) `{!FieldSeparation fn} (radius : T).
Context (target : PRBuffer T) (index : FrameIndexBuffer) (fss : list (list Z)).
#[local] Abbreviation radius2 := (radius * radius)%S.

(** What the sources [svs] (with their frame lists) make of the heap [h]: every
    indexed frame receives the result of its particles over the sources of its
    region, read from [h]; no other frame changes. *)
Definition interaction_result (svs : list (SourceView * list (list Z))) (h h' : heap T) : Prop :=
  (forall r tr ps p fr, regions_of target !! r = Some tr -> fss !! r = Some ps -> p ∈ ps ->
     h !! p = Some fr ->
     h' !! p = Some (frame_result fn radius2 p (volume tr) (tuple_sources fn h r svs) fr)) /\
  (forall p, p ∉ concat fss -> h' !! p = h !! p).

(** The target side of a launch: a fresh index of the buffer's frame lists, over
    distinct frames whose particles cull the sentinel. *)
Record target_ok (h : heap T) : Prop := {
  to_fresh : index_fresh index target = true;
  to_index : index_of_lists index fss;
  to_lists : region_lists h (regions_of target) fss;
  to_nodup : NoDup (concat fss);
  to_culls : forall p fr, p ∈ concat fss -> h !! p = Some fr -> frame_culls fn radius2 fr
}.

(** The source side: lists the walks cover and rows that name source regions. *)
Definition sources_ok (h : heap T) (svs : list (SourceView * list (list Z))) : Prop :=
  Forall (fun '(sv, sfss) => forall r, r < length fss ->
            exists row, row_ok fuel frameSize h sv sfss r row) svs.

Definition orders_ok (ord : nat -> nat -> list nat) : Prop := forall i n, ord i n ≡ₚ seq 0 n.

Lemma target_frame h r ps p : target_ok h -> fss !! r = Some ps -> p ∈ ps -> p ∈ concat fss /\ is_Some (h !! p).
Proof using Type.
  intros Ht Hr Hp. split.
  - apply list_elem_of_In, in_concat. exists ps.
    split; apply list_elem_of_In; [by eapply list_elem_of_lookup_2|done].
  - destruct (Forall2_lookup_r _ _ _ _ _ (to_lists _ Ht) Hr) as (tr & _ & [[_ Hin] _]). by apply Hin.
Qed.

(** The slots of the index and what they own. *)
Lemma index_slot h b p :
  target_ok h -> concat fss !! b = Some p ->
  exists r tr ps fp ri, framePtrs index = Some fp /\ regionIdxPerFrame index = Some ri /\
    fp !! b = Some p /\ ri !! b = Some (Z.of_nat r) /\ regions_of target !! r = Some tr /\
    fss !! r = Some ps /\ p ∈ ps.
Proof using Type.
  intros Ht Hb. destruct (to_index _ Ht) as (_ & fp & ri & _ & Hfp & Hri & _ & Ef & Er & _).
  destruct (owners_lookup fss b p Hb) as (r & ps & Ho & Hps & Hp).
  destruct (Forall2_lookup_r _ _ _ _ _ (to_lists _ Ht) Hps) as (tr & Htr & _).
  exists r, tr, ps, fp, ri. split_and!; try done.
  - rewrite <-Ef in Hb. by apply lookup_take_Some in Hb as [? _].
  - unfold owners in Ho. rewrite <-Er in Ho. by apply lookup_take_Some in Ho as [? _].
Qed.

(** The block of slot [b] of a unified launch, on any heap reached so far. *)
Lemma launch_block svs h hc b p r tr ps fr fp ri :
  target_ok h -> sources_ok h svs -> heap_sep fn h hc ->
  fp !! b = Some p -> ri !! b = Some (Z.of_nat r) -> regions_of target !! r = Some tr ->
  fss !! r = Some ps -> p ∈ ps -> h !! p = Some fr -> hc !! p = Some fr -> b < length (concat fss) ->
  UnifiedFrameInteractionKernel fuel frameSize junk fn (getDeviceDataBox target) fp ri
    (length (concat fss)) (map fst svs) radius b hc =
  Some (<[p := frame_result fn radius2 p (volume tr) (tuple_sources fn h r svs) fr]> hc).
Proof using Type.
  intros Ht Hs Hsep Hfp Hri Htr Hps Hp Hfr Hfrc Hb.
  destruct (target_frame h r ps p Ht Hps Hp) as [Hpin _].
  rewrite <-(tuple_sources_sep fn h hc r svs Hsep). apply unified_block_spec; try done.
  - by apply lookup_take_Some in Htr as [? _].
  - eapply Forall_impl; [exact Hs|]. intros [sv sfss] Hrow.
    destruct (Hrow r) as [row Hr]; [by eapply lookup_lt_Some|]. exists row. by eapply row_ok_sep.
  - by eapply to_culls.
Qed.

Lemma unified_launch_spec ord svs h :
  target_ok h -> sources_ok h svs -> orders_ok ord ->
  exists h', launchForEachFrameInBlockIndexed OneBlockPerFrame (ord 0) target index
      (fun prs fps ris total =>
         UnifiedFrameInteractionKernel fuel frameSize junk fn prs fps ris total (map fst svs) radius) h = Some h' /\
    heap_sep fn h h' /\ interaction_result svs h h'.
Proof using FieldSeparation0.
  intros Ht Hs Ho. unfold launchForEachFrameInBlockIndexed. rewrite (to_fresh _ Ht). cbn [negb].
  destruct (to_index _ Ht) as (Htot & fp & ri & _ & Hfp & Hri & _). rewrite Htot.
  destruct (Z.eqb_spec (Z.of_nat (length (concat fss))) 0) as [E|E].
  { exists h. assert (concat fss = []) as E0 by (apply length_zero_iff_nil; lia).
    split_and!; [done|apply heap_sep_refl|]. split; [|done]. intros r tr ps p fr _ Hps Hp _.
    destruct (target_frame h r ps p Ht Hps Hp) as [Hin _]. rewrite E0 in Hin. by apply not_elem_of_nil in Hin. }
  rewrite Hfp, Hri, Nat2Z.id. cbn [mbind option_bind numBlocks].
  set (n := length (concat fss)).
  set (ptr := fun b => default 0%Z (concat fss !! b)).
  set (g := fun b fr => match r ← ri !! b; tr ← zbox_read (regions_of target) r; Some (Z.to_nat r, tr) with
     | Some (r, tr) => frame_result fn radius2 (ptr b) (volume tr) (tuple_sources fn h r svs) fr
     | None => fr end).
  assert (Hptr : forall b, b ∈ ord 0 n -> exists p, concat fss !! b = Some p /\ ptr b = p).
  { intros b Hb. rewrite (Ho 0 n), elem_of_seq in Hb.
    destruct (lookup_lt_is_Some_2 (concat fss) b) as [p Hp]; [unfold n in Hb; lia|].
    exists p. unfold ptr. by rewrite Hp. }
  assert (Hg : forall b r tr fr, ri !! b = Some (Z.of_nat r) -> regions_of target !! r = Some tr ->
    g b fr = frame_result fn radius2 (ptr b) (volume tr) (tuple_sources fn h r svs) fr).
  { intros b r tr fr E1 E2. unfold g. rewrite E1. cbn [mbind option_bind]. rewrite zbox_read_nat, E2.
    cbn [mbind option_bind]. by rewrite Nat2Z.id. }
  destruct (run_blocks_frames (ord 0 n) ptr g (UnifiedFrameInteractionKernel fuel frameSize junk fn
    (getDeviceDataBox target) fp ri n (map fst svs) radius) (heap_sep fn h) h) as (h' & Hrun & Hsep & H1 & H2).
  - rewrite (Ho 0 n). apply NoDup_seq.
  - intros b c Hb Hc Heq. destruct (Hptr b Hb) as (p & Hp & E1), (Hptr c Hc) as (q & Hq & E2).
    eapply (proj1 (NoDup_alt _) (to_nodup _ Ht)); [exact Hp|]. congruence.
  - apply heap_sep_refl.
  - intros b hc fr Hb Hsep Hfr Hfrc. destruct (Hptr b Hb) as (p & Hp & E1).
    destruct (index_slot h b p Ht Hp) as (r & tr & ps & fp' & ri' & F1 & F2 & F3 & F4 & F5 & F6 & F7).
    simplify_eq. rewrite (Hg b r tr fr F4 F5). split.
    + eapply launch_block; eauto. by eapply lookup_lt_Some.
    + eapply heap_sep_update; eauto. by apply frame_result_sep.
  - intros b Hb. destruct (Hptr b Hb) as (p & Hp & ->).
    destruct (index_slot h b p Ht Hp) as (r & tr & ps & _ & _ & _ & _ & _ & _ & _ & F6 & F7).
    by eapply target_frame.
  - exists h'. split_and!; [done|done|]. split.
    + intros r tr ps p fr Htr Hps Hp Hfr. destruct (target_frame h r ps p Ht Hps Hp) as [Hin _].
      apply list_elem_of_lookup_1 in Hin as [b Hb].
      assert (Hbin : b ∈ ord 0 n) by (rewrite (Ho 0 n), elem_of_seq; apply lookup_lt_Some in Hb; unfold n; lia).
      destruct (index_slot h b p Ht Hb) as (r' & tr' & ps' & fp' & ri' & F1 & F2 & F3 & F4 & F5 & F6 & F7).
      assert (r' = r) as -> by (by eapply concat_owner_unique; [apply (to_nodup _ Ht)|..]). simplify_eq.
      destruct (Hptr b Hbin) as (p' & Hp' & E1). simplify_eq.
      specialize (H1 b Hbin). rewrite Hfr in H1. rewrite H1. simpl. f_equal. by apply Hg.
    + intros p Hp. apply H2. intros b Hb <-. destruct (Hptr b Hb) as (q & Hq & E1). apply Hp. rewrite E1.
      by eapply list_elem_of_lookup_2.
Qed.

(** ** Sequences of launches *)

Lemma interaction_result_nil h : interaction_result [] h h.
Proof using FieldSeparation0.
  split; [|done]. intros r tr ps p fr _ _ _ ->. cbn [tuple_sources]. by rewrite frame_result_nil.
Qed.

Lemma interaction_result_cons sv svs h h1 h2 :
  heap_sep fn h h1 -> interaction_result [sv] h h1 -> interaction_result svs h1 h2 ->
  interaction_result (sv :: svs) h h2.
Proof using FieldSeparation0.
  intros Hsep [H1 H1'] [H2 H2']. split.
  - intros r tr ps p fr Htr Hps Hp Hfr. pose proof (H1 r tr ps p fr Htr Hps Hp Hfr) as E.
    rewrite (H2 r tr ps p _ Htr Hps Hp E), (tuple_sources_sep fn h h1 r svs Hsep), (frame_result_app fn).
    destruct sv as [sv sfss]. cbn [tuple_sources]. by rewrite app_nil_r.
  - intros p Hp. by rewrite H2', H1'.
Qed.

Lemma frame_culls_sep r2 fr gr : frame_sep fn fr gr -> frame_culls fn r2 fr -> frame_culls fn r2 gr.
Proof using Type.
  intros [_ Hf] Hc i r. unfold loadOwnRegisters, load_slot. rewrite list_lookup_fmap.
  destruct (slots gr !! i) as [q'|] eqn:Hq'; [|done]. simpl.
  destruct (Forall2_lookup_r _ _ _ _ _ Hf Hq') as (q & Hq & Ho & Hr & _). rewrite Ho, Hr.
  destruct (occupied q) eqn:E; [|done]. intros [= <-].
  refine (Hc i (mkRegs (relativePos q) (fn_ownReads fn q) (fn_loadAcc fn q) (fn_prepare fn (fn_ownReads fn q))) _).
  unfold loadOwnRegisters, load_slot. rewrite list_lookup_fmap, Hq. simpl. by rewrite E.
Qed.

Lemma target_ok_sep h h' : heap_sep fn h h' -> target_ok h -> target_ok h'.
Proof using Type.
  intros Hsep Ht. constructor; [apply (to_fresh _ Ht)|apply (to_index _ Ht)| |apply (to_nodup _ Ht)|].
  - eapply Forall2_impl; [exact (to_lists _ Ht)|]. intros tr ps. by apply (is_list_sep fn).
  - intros p fr' Hp Hfr'. specialize (Hsep p). rewrite Hfr' in Hsep. inversion Hsep as [fr ? Hf E|]. subst.
    eapply frame_culls_sep; [exact Hf|]. by eapply to_culls.
Qed.

Lemma sources_ok_sep h h' svs : heap_sep fn h h' -> sources_ok h svs -> sources_ok h' svs.
Proof using Type.
  intros Hsep Hs. eapply Forall_impl; [exact Hs|]. intros [sv sfss] Hrow r Hr.
  destruct (Hrow r Hr) as [row Hok]. exists row. by eapply row_ok_sep.
Qed.

Lemma single_launch sv (ord : nat -> list nat) h :
  launchForEachFrameInBlockIndexed OneBlockPerFrame ord target index
    (fun prs fps ris total => FrameInteractionKernel fuel frameSize junk fn prs fps ris total sv radius) h =
  launchForEachFrameInBlockIndexed OneBlockPerFrame ord target index
    (fun prs fps ris total => UnifiedFrameInteractionKernel fuel frameSize junk fn prs fps ris total [sv] radius) h.
Proof using Type.
  unfold launchForEachFrameInBlockIndexed. do 2 (destruct (_ : bool); [done|]).
  destruct (framePtrs index) as [fp|]; [|done]. destruct (regionIdxPerFrame index) as [ri|]; [|done].
  cbn [mbind option_bind]. generalize (ord (numBlocks OneBlockPerFrame (Z.to_nat (totalFrames index)))) as bs.
  intros bs. revert h. induction bs as [|b bs IH]; intros h; [done|]. cbn [run_blocks].
  rewrite FrameInteractionKernel_unified.
  destruct (UnifiedFrameInteractionKernel _ _ _ _ _ _ _ _ _ _ _ _); [apply IH|done].
Qed.

Lemma perSource_spec ord svs h :
  target_ok h -> sources_ok h svs -> orders_ok ord ->
  exists h', perSource fuel frameSize junk ord (map fst svs) target index radius fn h = Some h' /\
    heap_sep fn h h' /\ interaction_result svs h h'.
Proof using FieldSeparation0.
  revert ord h. induction svs as [|[sv sfss] svs IH]; intros ord h Ht Hs Ho.
  { exists h. split_and!; [done|apply heap_sep_refl|apply interaction_result_nil]. }
  apply Forall_cons in Hs as [Hsv Hs]. cbn [map fst perSource]. rewrite single_launch.
  destruct (unified_launch_spec ord [(sv, sfss)] h Ht) as (h1 & E & Hsep & Hres);
    [by apply Forall_singleton|done|].
  cbn [map fst] in E. rewrite E. cbn [mbind option_bind].
  destruct (IH (fun i => ord (S i)) h1) as (h2 & E2 & Hsep2 & Hres2);
    [by eapply target_ok_sep|by eapply sources_ok_sep|intros i n; apply Ho|].
  exists h2. split_and!; [done|by eapply heap_sep_trans|by eapply interaction_result_cons].
Qed.

Lemma unifiedSource_spec ord svs h :
  target_ok h -> sources_ok h svs -> orders_ok ord ->
  exists h', unifiedSource fuel frameSize junk ord (map fst svs) target index radius fn h = Some h' /\
    heap_sep fn h h' /\ interaction_result svs h h'.
Proof using FieldSeparation0.
  intros Ht Hs Ho. unfold unifiedSource. destruct svs as [|sv svs].
  { exists h. split_and!; [done|apply heap_sep_refl|apply interaction_result_nil]. }
  exact (unified_launch_spec ord (sv :: svs) h Ht Hs Ho).
Qed.
End one_launch.

Lemma interact_spec fuel frameSize junk (fn : Fn) `{!FieldSeparation fn} radius target index fss
    policy ord bundle svs h :
  target_ok fn radius target index fss h -> sources_ok fuel frameSize fss h svs -> orders_ok ord ->
  map fst svs = map deviceView bundle ->
  exists h', interact policy fuel frameSize junk ord bundle target index radius fn h = Some h' /\
    heap_sep fn h h' /\ interaction_result fn radius target fss svs h h'.
Proof.
  intros Ht Hs Ho Hv. unfold interact. rewrite <-Hv.
  pose proof (perSource_spec fuel frameSize junk fn radius target index fss ord svs h Ht Hs Ho).
  pose proof (unifiedSource_spec fuel frameSize junk fn radius target index fss ord svs h Ht Hs Ho).
  destruct policy; [done|done|by destruct (length bundle =? 1)].
Qed.

Lemma interact_stale fuel frameSize junk (fn : Fn) radius target index policy ord bundle h :
  index_fresh index target = false -> bundle <> [] ->
  interact policy fuel frameSize junk ord bundle target index radius fn h = None.
Proof.
  intros Hix Hb. destruct bundle as [|e bundle]; [done|].
  assert (Hl : forall g o k, launchForEachFrameInBlockIndexed g o target index k h = None)
    by (intros; unfold launchForEachFrameInBlockIndexed; by rewrite Hix).
  unfold interact, unifiedSource. cbn [map perSource length]. rewrite !Hl.
  destruct policy; [done|done|]. by destruct (_ =? 1).
Qed.

(** C6: [interact], under each of its policies and any order of the blocks of every launch,
    terminates without an access out of bounds and implements the pairwise
    specification: each live particle of the target buffer holds the fold of the functor,
    from its old accumulators, over the live particles of its neighbour rows as they
    were before the call, source by source in row order, whatever the shared caches contained;
    dead slots and frames outside the buffer keep their contents.  Hence the per-source and
    the unified policy agree.  Over a stale index nothing runs. *)
Theorem interact_refines fuel frameSize junk (fn : Fn) `{!FieldSeparation fn} radius target index fss
    policy ord bundle svs h :
  target_ok fn radius target index fss h -> sources_ok fuel frameSize fss h svs -> orders_ok ord ->
  map fst svs = map deviceView bundle ->
  exists h', interact policy fuel frameSize junk ord bundle target index radius fn h = Some h' /\
    interaction_result fn radius target fss svs h h' /\ heap_sep fn h h' /\
    forall index', index_fresh index' target = false -> bundle <> [] ->
      interact policy fuel frameSize junk ord bundle target index' radius fn h = None.
Proof.
  intros Ht Hs Ho Hv.
  destruct (interact_spec fuel frameSize junk fn radius target index fss policy ord bundle svs h Ht Hs Ho Hv)
    as (h' & E & Hsep & Hres).
  exists h'. split_and!; [done..|]. intros ix. apply interact_stale.
Qed.
End launch.

(** ** Witness *)

Section witness.
#[local] Existing Instance dim3.
Local Open Scope Z_scope.

(** A functor that adds the neighbours' masses to the density. *)
Definition sum_masses : Functor (T := Z) () () Z Z :=
  mkFunctor () () Z Z (fun _ => tt) density (fun _ => tt) mass (fun _ _ m _ a => a + m) set_density.

#[local] Instance sum_masses_separation : FieldSeparation sum_masses.
Proof. split; try done. by intros []. Qed.

Definition entry_aa : NeighbourEntry := mkEntry pr_a (mkHD [0] [0]) (mkHD [0; 1] [0; 1]).

Lemma target_ok_a : target_ok sum_masses 2 pr_a index_a [[16; 32]] two_frames.
Proof.
  constructor.
  - reflexivity.
  - split; [reflexivity|]. eexists _, _, _. split_and!; try reflexivity.
    intros [|r] Hr; [reflexivity|]. simpl in Hr. lia.
  - apply Forall2_cons; split; [apply is_listb_sound; vm_compute; reflexivity|]. apply Forall2_nil. done.
  - apply (bool_decide_eq_true_1 _). vm_compute. reflexivity.
  - intros p fr. simpl. intros [->|[->|[]%elem_of_nil]%elem_of_cons]%elem_of_cons Hfr;
      vm_compute in Hfr; injection Hfr as <-; intros i r Hi;
      (destruct i as [|[|i]]; vm_compute in Hi; [injection Hi as <-|..];
        [vm_compute; reflexivity|try discriminate; injection Hi as <-; vm_compute; reflexivity|discriminate]).
Defined.

Lemma sources_ok_a : sources_ok 5 2 [[16; 32]] two_frames [(deviceView entry_aa, [[16; 32]])].
Proof.
  apply Forall_singleton. intros [|r] Hr; [|simpl in Hr; lia]. exists [0]. split; [reflexivity|].
  intros n ->%list_elem_of_singleton. exists region_a, [16; 32].
  split_and!; [reflexivity..|apply is_listb_sound; vm_compute; reflexivity|simpl; lia|].
  intros p [->|[->|[]%elem_of_nil]%elem_of_cons]%elem_of_cons; eexists; split; vm_compute; reflexivity.
Defined.

Lemma interact_refines_witness :
  exists h' fr, interact DefaultPolicy 5 2 77 (fun _ n => seq 0 n) [entry_aa] pr_a index_a 2 sum_masses
      two_frames = Some h' /\
    h' !! 32 = Some fr /\ map density (slots fr) = [16; 1].
Proof.
  destruct (interact_refines 5 2 77 sum_masses 2 pr_a index_a [[16; 32]] DefaultPolicy (fun _ n => seq 0 n)
    [entry_aa] [(deviceView entry_aa, [[16; 32]])] two_frames target_ok_a sources_ok_a (fun _ _ => reflexivity _)
    eq_refl) as (h' & E & [Hr _] & _).
  exists h'. eexists. split; [exact E|]. split.
  - apply (Hr 0%nat region_a [16; 32] 32); [reflexivity..|by right; left|vm_compute; reflexivity].
  - vm_compute. reflexivity.
Defined.
End witness.
