(* ===== verification/InteractGeometry.v ===== *)
(** * The geometry of an interaction

    Over the real numbers: the sentinel of dead slots lies beyond every interaction
    radius, and the neighbour search loses no pair, so that an interaction over
    searched rows is the interaction over all pairs. *)
From Stdlib Require Import Reals Lra ZArith Lia.
From stdpp Require Import base sets list numbers gmap.
From S2P Require Import Prelude Scalar Topology Aabb FrameList Lockstep Regions Scan FrameIndex Launch NeighbourRegions Interaction InteractLaunch.

Section geometry.
Context {D : CartesianDim}.
Local Open Scope R_scope.

(** The squared distance the kernel computes bounds every component. *)
Lemma pair_geometry_component (x y : storage R) t :
  storage_wf x -> storage_wf y -> t ∈ cartesian_tags cs_dim ->
  (vget x t - vget y t) * (vget x t - vget y t) <= (pair_geometry x y).2.
Proof.
  intros Hx Hy Ht. assert (Hsq : forall u : R, 0 <= u * u) by (intros; nra).
  unfold pair_geometry. vec_cases D;
    repeat (apply elem_of_cons in Ht as [->|Ht];
      [cbv [decide decide_rel axis_eq_dec]; simpl;
       repeat match goal with |- context [(?u * ?u)%R] => generalize (Hsq u); generalize (u * u)%R end;
       intros; lra|]);
    by apply elem_of_nil in Ht.
Qed.

Lemma vget_shifted_pos (s x : storage R) t :
  storage_wf s -> storage_wf x -> t ∈ cartesian_tags cs_dim ->
  vget (shifted_pos s x) t = vget x t + vget s t /\ storage_wf (shifted_pos s x).
Proof.
  intros Hs Hx Ht. unfold shifted_pos, broadcast. vec_cases D;
    repeat (apply elem_of_cons in Ht as [->|Ht]; [done|]); by apply elem_of_nil in Ht.
Qed.

Lemma vget_dead_pos t :
  t ∈ cartesian_tags cs_dim -> vget (dead_pos (T := R)) t = Rflt_max / 4 /\ storage_wf (dead_pos (T := R)).
Proof.
  intros Ht. unfold dead_pos, broadcast. vec_cases D;
    repeat (apply elem_of_cons in Ht as [->|Ht]; [done|]); by apply elem_of_nil in Ht.
Qed.

Lemma ax_x_tag : ax_x ∈ cartesian_tags cs_dim.
Proof. unfold cartesian_tags. dim_cases D; by left. Qed.

(** ** Dead slots *)

(** A position bounded by [B] culls the sentinel for every radius up to
    [max / 4 - B]. *)
Lemma culls_dead_bounded {Reads Prep Acc} (r : Registers (Reads := Reads) (Prep := Prep) (Acc := Acc)) radius B :
  storage_wf (ownRel r) -> Rabs (vget (ownRel r) ax_x) <= B -> 0 <= radius -> radius + B <= Rflt_max / 4 ->
  culls_dead (radius * radius) r = true.
Proof.
  intros Hw Hb Hr Hm. destruct (vget_dead_pos ax_x ax_x_tag) as [Hd Hdw].
  pose proof (pair_geometry_component (ownRel r) dead_pos ax_x Hw Hdw ax_x_tag) as Hc. rewrite Hd in Hc.
  apply negb_true_iff, Rltb_false. simpl. revert Hb. unfold Rabs. destruct (Rcase_abs _); intros; nra.
Qed.

Definition bounded_frame (B : R) (fr : Frame R) : Prop :=
  forall q, q ∈ slots fr -> occupied q = true ->
    storage_wf (relativePos q) /\ Rabs (vget (relativePos q) ax_x) <= B.

Lemma bounded_frame_culls {Reads Prep Nb Acc} (fn : Functor (T := R) Reads Prep Nb Acc) fr radius B :
  bounded_frame B fr -> 0 <= radius -> radius + B <= Rflt_max / 4 -> frame_culls fn (radius * radius) fr.
Proof.
  intros Hb Hr Hm i r. unfold loadOwnRegisters, load_slot. rewrite list_lookup_fmap.
  destruct (slots fr !! i) as [q|] eqn:Hq; [|done]. simpl. destruct (occupied q) eqn:Ho; [|done].
  intros [= <-]. destruct (Hb q (list_elem_of_lookup_2 _ _ _ Hq) Ho) as [Hw Hx].
  by apply (culls_dead_bounded _ radius B).
Qed.

(** Dead slots are invisible.  Where the live particles' first coordinate is at most [B] and
    the radius at most [max / 4 - B], one neighbour frame leaves in every register
    exactly the fold of the functor over the live particles of that frame, whatever
    the shared neighbour cache held at the entries of dead slots. *)
Theorem dead_slots_invisible {Reads Prep Nb Acc} (fn : Functor (T := R) Reads Prep Nb Acc)
    ownPtr ownVolume v p fr nfr radius B nb :
  bounded_frame B fr -> 0 <= radius -> radius + B <= Rflt_max / 4 -> length nb = length (slots nfr) ->
  exists nb', interactWithNeighbourFrame fn ownVolume v nfr (radius * radius) (ownPtr =? p)%Z
      (loadOwnRegisters fn fr, nb) =
    Some (spec_regs fn (radius * radius) ownPtr ownVolume (frame_sources fn v p nfr) (loadOwnRegisters fn fr), nb') /\
    forall i q, slots nfr !! i = Some q -> occupied q = false -> nb' !! i = nb !! i.
Proof.
  intros Hb Hr Hm Hl. pose proof (bounded_frame_culls fn fr radius B Hb Hr Hm) as Hc.
  destruct (interact_frame_spec fn ownPtr ownVolume v p nfr (radius * radius) _ nb Hc Hl) as (nb' & E & Hl').
  exists nb'. split; [exact E|]. intros i q Hq Ho. unfold interactWithNeighbourFrame in E. cbn [snd] in E.
  rewrite (proj2 (Nat.eqb_eq _ _)) in E by lia. injection E as _ <-.
  rewrite lookup_zip_with, Hq. simpl. destruct (nb !! i) as [x|]; [|done]. simpl. unfold stage_nb. by rewrite Ho.
Qed.

(** ** Far pairs *)

Section pairs.
Context {Reads Prep Nb Acc : Type} (fn : Functor (T := R) Reads Prep Nb Acc).

(** The live particles of a region's frames lie in the region's box. *)
Definition boxed (h : heap R) (v : AABB R) (ps : list Z) : Prop :=
  forall p fr q, p ∈ ps -> h !! p = Some fr -> q ∈ slots fr -> occupied q = true ->
    storage_wf (relativePos q) /\ in_box v (relativePos q).

Lemma region_sources_in h v ps s :
  s ∈ region_sources fn h v ps -> exists p fr q, p ∈ ps /\ h !! p = Some fr /\ q ∈ slots fr /\
    occupied q = true /\ src_rel s = relativePos q /\ src_volume s = v /\ src_nb s = fn_stage fn q.
Proof.
  unfold region_sources. rewrite list_elem_of_bind. intros (p & Hs & Hp).
  destruct (h !! p) as [fr|] eqn:Hfr; [|by apply not_elem_of_nil in Hs].
  unfold frame_sources in Hs. apply list_elem_of_omap in Hs as ([j q] & Hin & Hq).
  apply elem_of_zip_r in Hin. destruct (occupied q) eqn:Ho; [|discriminate]. injection Hq as <-.
  by exists p, fr, q.
Qed.

(** A source in a region that the search rejects does not reach the functor. *)
Lemma far_source radius m ownPtr a b h ps i r acc s :
  aabb_wf a -> aabb_wf b -> origin a = origin b -> storage_wf (ownRel r) -> in_box a (ownRel r) ->
  boxed h b ps -> 0 <= radius <= m -> intersects (expand a m) b = false -> s ∈ region_sources fn h b ps ->
  source_step fn (radius * radius) ownPtr a i r acc s = acc.
Proof.
  intros Ha Hb Ho Hw Hin Hbox Hr Hn Hs.
  destruct (region_sources_in h b ps s Hs) as (p & fr & q & Hp & Hfr & Hq & Hoc & Er & Ev & _).
  destruct (Hbox p fr q Hp Hfr Hq Hoc) as [Hqw Hqin].
  destruct (not_intersects_separated a b _ _ m Ha Hb Hin Hqin Hn) as (t & Ht & Hsep).
  unfold source_step, pair_step, source_pos. rewrite Er, Ev.
  assert (Hoa : storage_wf (origin a)) by apply Ha. assert (Hob : storage_wf (origin b)) by apply Hb.
  destruct (vget_shifted_pos (point_sub (origin b) (origin a)) (relativePos q) t) as [E Hsw];
    [by apply point_sub_wf|done|done|].
  pose proof (pair_geometry_component (ownRel r) _ t Hw Hsw Ht) as Hc.
  rewrite E, vget_point_sub, Ho in Hc by done.
  rewrite Ho. destruct (_ <? _)%S eqn:Hlt; [|done]. exfalso. apply Rltb_true in Hlt. rewrite Ho in *.
  simpl in Hlt. revert Hsep. unfold Rabs. destruct (Rcase_abs _); nra.
Qed.

(** ** All pairs *)

(** Functors whose calls commute: the accumulation does not depend on the order. *)
Class Commuting : Prop :=
  call_comm : forall r p nb nb' c c' a, fn_call fn r p nb c (fn_call fn r p nb' c' a) =
                                        fn_call fn r p nb' c' (fn_call fn r p nb c a).

(** The live particles of all regions of a source buffer. *)
Definition all_sources (h : heap R) (src : PRBuffer R * list (list Z)) : list Source :=
  concat (zip_with (fun nr ps => region_sources fn h (volume nr) ps) (regions_of src.1) src.2).

Lemma foldl_comm_perm {A B} (f : A -> B -> A) :
  (forall a x y, f (f a x) y = f (f a y) x) -> forall a l l', l ≡ₚ l' -> foldl f a l = foldl f a l'.
Proof using Type.
  intros Hc a l l' Hp. revert a. induction Hp as [|x l l' _ IH|x y l|l l' l'' _ IH1 _ IH2]; intros a; simpl.
  - done.
  - apply IH.
  - by rewrite Hc.
  - by rewrite IH1.
Qed.

Lemma source_step_comm `{!Commuting} radius2 ownPtr v i r a s t :
  source_step fn radius2 ownPtr v i r (source_step fn radius2 ownPtr v i r a s) t =
  source_step fn radius2 ownPtr v i r (source_step fn radius2 ownPtr v i r a t) s.
Proof using Type.
  unfold source_step, pair_step.
  destruct (_ <? _)%S; destruct (_ <? _)%S; try done; apply call_comm.
Qed.

Lemma bind_ext_in {A B} (f g : A -> list B) l : (forall x, x ∈ l -> f x = g x) -> l ≫= f = l ≫= g.
Proof using Type.
  induction l as [|x l IH]; intros E; [done|]. rewrite !bind_cons, E by (by left).
  rewrite IH; [done|]. intros y Hy. apply E. by right.
Qed.

Lemma zip_with_bind_seq {A B C} (g : A -> B -> list C) l k :
  length l = length k ->
  concat (zip_with g l k) =
  seq 0 (length l) ≫= fun o => match l !! o, k !! o with Some x, Some y => g x y | _, _ => [] end.
Proof using Type.
  revert k. induction l as [|x l IH]; intros [|y k] Hl; try done. cbn [length seq zip_with concat].
  rewrite bind_cons, IH by (simpl in Hl; lia). cbn [lookup list_lookup]. f_equal.
  rewrite <-seq_shift. by rewrite list_fmap_bind.
Qed.

(** Target and source regions whose coordinates share the origin [o]. *)
Definition regions_boxed (o : storage R) (h : heap R) (prs : list (ParticleRegion R)) (fss : list (list Z)) : Prop :=
  forall n nr ps, prs !! n = Some nr -> fss !! n = Some ps ->
    aabb_wf (volume nr) /\ origin (volume nr) = o /\ boxed h (volume nr) ps.

(** A row of the search contributes what all the regions of the source contribute. *)
Lemma search_row_all_pairs `{!Commuting} radius m o ownPtr tr h src sfss sv row i r acc :
  prbuf_wf src -> length sfss = pr_size src -> sourcePRDeviceBox sv = getDeviceDataBox src ->
  regions_boxed o h (regions_of src) sfss -> aabb_wf (volume tr) -> origin (volume tr) = o ->
  storage_wf (ownRel r) -> in_box (volume tr) (ownRel r) -> 0 <= radius <= m ->
  row ≡ₚ map Z.of_nat (intersecting m tr (regions_of src)) ->
  foldl (source_step fn (radius * radius) ownPtr (volume tr) i r) acc (row_sources fn h sv sfss row) =
  foldl (source_step fn (radius * radius) ownPtr (volume tr) i r) acc (all_sources h (src, sfss)).
Proof using Type.
  intros Hws Hlen Hbox Hreg Ha Hao Hw Hin Hr Hrow.
  set (step := source_step fn (radius * radius) ownPtr (volume tr) i r).
  set (f := fun o => match regions_of src !! o, sfss !! o with
    Some nr, Some ps => region_sources fn h (volume nr) ps | _, _ => [] end).
  transitivity (foldl step acc (intersecting m tr (regions_of src) ≫= f)).
  { assert (E : row_sources fn h sv sfss (map Z.of_nat (intersecting m tr (regions_of src))) =
                intersecting m tr (regions_of src) ≫= f).
    { unfold row_sources. rewrite list_fmap_bind. apply bind_ext_in.
      intros k [_ Hk]%list_elem_of_filter. unfold f, compose. rewrite Hbox, !zbox_read_nat.
      apply elem_of_seq in Hk. rewrite regions_of_length in Hk by done.
      unfold regions_of. by rewrite lookup_take_lt by lia. }
    rewrite <-E. apply foldl_comm_perm; [intros; by apply source_step_comm|].
    unfold row_sources. by rewrite Hrow. }
  unfold all_sources. cbn [fst snd]. rewrite zip_with_bind_seq by (by rewrite regions_of_length).
  fold f. unfold intersecting.
  generalize (seq 0 (length (regions_of src))) as os. intros os. revert acc.
  induction os as [|k os IH]; intros acc; [done|]. rewrite bind_cons, foldl_app.
  destruct (region_hit (expand (volume tr) m) (regions_of src) k) eqn:Hhit.
  - rewrite filter_cons_True by done. by rewrite bind_cons, foldl_app, IH.
  - rewrite filter_cons_False by congruence. rewrite IH. f_equal. unfold f.
    destruct (regions_of src !! k) as [nr|] eqn:Hnr; [|done]. destruct (sfss !! k) as [ps|] eqn:Hps; [|done].
    destruct (Hreg k nr ps Hnr Hps) as (Hb & Hbo & Hbx). unfold region_hit in Hhit. rewrite Hnr in Hhit.
    assert (Hall : forall s, s ∈ region_sources fn h (volume nr) ps -> forall a, step a s = a).
    { intros s Hs a. eapply far_source; [exact Ha|exact Hb|congruence|done|done|exact Hbx|exact Hr|done|done]. }
    revert Hall. generalize (region_sources fn h (volume nr) ps) as ss. clear. intros ss Hall.
    induction ss as [|s ss IH]; [done|]. simpl. rewrite Hall by (by left). apply IH. intros; apply Hall. by right.
Qed.

(** ** Searched interactions *)

(** [e] is the outcome of a neighbour computation with the search length [m]. *)
Definition computed (m : R) (target src : PRBuffer R) (e : NeighbourEntry) : Prop :=
  exists k junk ord1 ord2 sched, (2 ^ k <= kMaxThreads)%nat /\
    ord1 ≡ₚ seq 0 (Nat.max (pr_size target) 1) /\ ord2 ≡ₚ seq 0 (Nat.max (pr_size target) 1) /\
    (forall b, (b < pr_size target)%nat ->
       exhausts (sched b) (map (fun w => strided w (2 ^ k) (pr_size src)) (seq 0 (2 ^ k)))) /\
    calculateNeighbourEntry (2 ^ k) junk ord1 ord2 sched target src m = Some e.

Record search_source_ok (fuel frameSize : nat) (m : R) (o : storage R) (h : heap R) (target src : PRBuffer R)
    (sfss : list (list Z)) : Prop := {
  so_wf : prbuf_wf src;
  so_lists : region_lists h (regions_of src) sfss;
  so_fuel : forall ps, ps ∈ sfss -> (length ps <= fuel)%nat /\ sized frameSize h ps;
  so_boxed : regions_boxed o h (regions_of src) sfss;
  so_size : (Z.of_nat (pr_size src) < 2 ^ 31)%Z;
  so_pairs : (Z.of_nat (length (concat
      (map (fun tr => intersecting m tr (regions_of src)) (regions_of target)))) < 2 ^ 31)%Z
}.

Lemma computed_rows fuel frameSize m o h target src sfss e b tr :
  prbuf_wf target -> search_source_ok fuel frameSize m o h target src sfss -> computed m target src e ->
  regions_of target !! b = Some tr ->
  exists row, row_ok fuel frameSize h (deviceView e) sfss b row /\
    sourcePRDeviceBox (deviceView e) = getDeviceDataBox src /\
    row ≡ₚ map Z.of_nat (intersecting m tr (regions_of src)).
Proof using Type.
  intros Hwt Hs (k & junk & ord1 & ord2 & sched & Hk & Ho1 & Ho2 & Hsched & E) Htr.
  destruct (calculateNeighbourEntry_spec k junk ord1 ord2 sched target src m Hwt (so_wf _ _ _ _ _ _ _ _ Hs) Hk
    (so_size _ _ _ _ _ _ _ _ Hs) (so_pairs _ _ _ _ _ _ _ _ Hs) Ho1 Ho2 Hsched) as (e' & E' & Hsrc & _ & Hrow).
  rewrite E in E'. injection E' as <-. destruct (Hrow b tr Htr) as (row & Hr & Hp).
  exists row. split_and!; [|by unfold deviceView; simpl; rewrite Hsrc|done]. split; [exact Hr|].
  intros n Hn. rewrite Hp in Hn. apply list_elem_of_fmap in Hn as (j & -> & Hj).
  apply list_elem_of_filter in Hj as [_ Hj]. apply elem_of_seq in Hj.
  destruct (lookup_lt_is_Some_2 (regions_of src) j) as [nr Hnr]; [lia|].
  destruct (Forall2_lookup_l _ _ _ _ _ (so_lists _ _ _ _ _ _ _ _ Hs) Hnr) as (ps & Hps & Hl).
  destruct (so_fuel _ _ _ _ _ _ _ _ Hs ps) as [Hf Hz]; [by eapply list_elem_of_lookup_2|].
  exists nr, ps. rewrite !zbox_read_nat. split_and!; [|done..]. simpl. rewrite Hsrc.
  by apply lookup_take_Some in Hnr as [? _].
Qed.

(** Everything a search relies on is untouched by writes to fields that no neighbour reads. *)
Lemma boxed_sep h h' v ps : heap_sep fn h h' -> boxed h v ps -> boxed h' v ps.
Proof using Type.
  intros Hs Hb p fr' q' Hp Hfr' Hq' Ho'. specialize (Hs p). rewrite Hfr' in Hs. inversion Hs as [fr ? [_ Hf] E|]. subst.
  apply list_elem_of_lookup_1 in Hq' as [i Hq'].
  destruct (Forall2_lookup_r _ _ _ _ _ Hf Hq') as (q & Hq & Ho & Hr & _). rewrite Hr.
  apply (Hb p fr q Hp (eq_sym E)); [by eapply list_elem_of_lookup_2|congruence].
Qed.

Lemma regions_boxed_sep o h h' prs fss : heap_sep fn h h' -> regions_boxed o h prs fss -> regions_boxed o h' prs fss.
Proof using Type.
  intros Hs Hb n nr ps Hnr Hps. destruct (Hb n nr ps Hnr Hps) as (? & ? & ?). split_and!; [done..|by eapply boxed_sep].
Qed.

Lemma search_source_ok_sep fuel frameSize m o h h' target src sfss :
  heap_sep fn h h' -> search_source_ok fuel frameSize m o h target src sfss ->
  search_source_ok fuel frameSize m o h' target src sfss.
Proof using Type.
  intros Hs [H1 H2 H3 H4 H5 H6]. constructor; try done.
  - eapply Forall2_impl; [exact H2|]. intros tr ps. by apply (is_list_sep fn).
  - intros ps Hps. destruct (H3 ps Hps). split; [done|by eapply sized_sep].
  - by eapply regions_boxed_sep.
Qed.

Lemma all_sources_sep h h' src : heap_sep fn h h' -> all_sources h' src = all_sources h src.
Proof using Type.
  intros Hs. unfold all_sources. f_equal. destruct src as [src sfss]. simpl.
  revert sfss. induction (regions_of src) as [|nr prs IH]; intros [|ps sfss]; [done..|]. simpl.
  by rewrite (region_sources_sep _ _ _ _ _ Hs), IH.
Qed.

(** The target side: boxes as wide as their particles, at the common origin. *)
Definition search_target_ok (o : storage R) (h : heap R) (target : PRBuffer R) (fss : list (list Z)) : Prop :=
  prbuf_wf target /\ regions_boxed o h (regions_of target) fss.

(** A search source: the buffer, its frame lists and its computed entry. *)
#[local] Abbreviation search := (PRBuffer R * list (list Z) * NeighbourEntry (T := R))%type.
Definition searches_ok (fuel frameSize : nat) (m : R) (o : storage R) (h : heap R) (target : PRBuffer R)
    (ss : list search) : Prop :=
  Forall (fun '(src, sfss, e) => search_source_ok fuel frameSize m o h target src sfss /\ computed m target src e) ss.

Definition search_views (ss : list search) : list (SourceView * list (list Z)) :=
  map (fun '(_, sfss, e) => (deviceView e, sfss)) ss.

Lemma searches_ok_sep fuel frameSize m o h h' target ss :
  heap_sep fn h h' -> searches_ok fuel frameSize m o h target ss -> searches_ok fuel frameSize m o h' target ss.
Proof using Type.
  intros Hs Hok. eapply Forall_impl; [exact Hok|]. intros [[src sfss] e] [H1 H2].
  split; [by eapply search_source_ok_sep|done].
Qed.

Lemma searches_sources_ok fuel frameSize m o h target fss ss :
  prbuf_wf target -> length fss = length (regions_of target) ->
  searches_ok fuel frameSize m o h target ss -> sources_ok fuel frameSize fss h (search_views ss).
Proof using Type.
  intros Hwt Hl Hs. apply Forall_map. eapply Forall_impl; [exact Hs|].
  intros [[src sfss] e] [Hso Hc] r Hr. destruct (lookup_lt_is_Some_2 (regions_of target) r) as [tr Htr]; [lia|].
  destruct (computed_rows fuel frameSize m o h target src sfss e r tr Hwt Hso Hc Htr) as (row & Hrow & _).
  by exists row.
Qed.

Lemma search_tuple_all_pairs `{!Commuting} fuel frameSize radius m o ownPtr h target ss b tr i r acc :
  prbuf_wf target -> searches_ok fuel frameSize m o h target ss -> regions_of target !! b = Some tr ->
  aabb_wf (volume tr) -> origin (volume tr) = o -> storage_wf (ownRel r) -> in_box (volume tr) (ownRel r) ->
  0 <= radius <= m ->
  foldl (source_step fn (radius * radius) ownPtr (volume tr) i r) acc (tuple_sources fn h b (search_views ss)) =
  foldl (source_step fn (radius * radius) ownPtr (volume tr) i r) acc (ss ≫= fun '(src, sfss, _) => all_sources h (src, sfss)).
Proof using Type.
  intros Hwt Hs Htr Ha Ho Hw Hin Hr. revert acc.
  induction Hs as [|[[src sfss] e] ss [Hso Hc] _ IH]; intros acc; [done|].
  destruct (computed_rows fuel frameSize m o h target src sfss e b tr Hwt Hso Hc Htr)
    as (row & [Hrow _] & Hbox & Hp).
  cbn [search_views map tuple_sources]. rewrite bind_cons, !foldl_app, Hrow.
  change (default [] (Some row)) with row.
  rewrite (search_row_all_pairs radius m o ownPtr tr h src sfss (deviceView e) row i r acc); try done.
  - apply (so_wf _ _ _ _ _ _ _ _ Hso).
  - rewrite <-(regions_of_length src) by apply (so_wf _ _ _ _ _ _ _ _ Hso).
    symmetry. eapply Forall2_length, (so_lists _ _ _ _ _ _ _ _ Hso).
  - apply (so_boxed _ _ _ _ _ _ _ _ Hso).
Qed.

Lemma interact_all_pairs_spec `{!FieldSeparation fn} `{!Commuting} fuel frameSize junk policy ord radius m o
    target index fss ss h :
  target_ok fn radius target index fss h -> search_target_ok o h target fss ->
  searches_ok fuel frameSize m o h target ss -> orders_ok ord -> 0 <= radius <= m ->
  exists h', interact policy fuel frameSize junk ord (map snd ss) target index radius fn h = Some h' /\
    (forall r tr ps p fr, regions_of target !! r = Some tr -> fss !! r = Some ps -> p ∈ ps -> h !! p = Some fr ->
      h' !! p = Some (frame_result fn (radius * radius) p (volume tr)
                        (ss ≫= fun '(src, sfss, _) => all_sources h (src, sfss)) fr)) /\
    heap_sep fn h h' /\ (forall p, p ∉ concat fss -> h' !! p = h !! p).
Proof using Type.
  intros Ht [Hwt Htb] Hs Ho Hr.
  pose proof (Forall2_length _ _ _ (to_lists _ _ _ _ _ _ Ht)) as Hlen.
  pose proof (searches_sources_ok fuel frameSize m o h target fss ss Hwt (eq_sym Hlen) Hs) as Hso.
  destruct (interact_spec fuel frameSize junk fn radius target index fss policy ord (map snd ss)
    (search_views ss) h Ht Hso Ho) as (h' & E & Hsep & [Hres Hout]).
  { unfold search_views. rewrite !map_map. apply map_ext. by intros [[??]?]. }
  exists h'. split_and!; [exact E| |exact Hsep|exact Hout]. intros r tr ps p fr Htr Hps Hp Hfr.
  rewrite (Hres r tr ps p fr Htr Hps Hp Hfr). f_equal. unfold frame_result. f_equal.
  apply list_eq. intros i. rewrite !list_lookup_imap. destruct (slots fr !! i) as [q|] eqn:Hq; [|done].
  simpl. f_equal. unfold particle_result, load_slot. destruct (occupied q) eqn:Hoc; [|done]. simpl. f_equal.
  destruct (Htb r tr ps Htr Hps) as (Ha & Hao & Hbx).
  destruct (Hbx p fr q Hp Hfr (list_elem_of_lookup_2 _ _ _ Hq) Hoc) as [Hw Hin].
  by apply (search_tuple_all_pairs fuel frameSize radius m o p h target ss r tr).
Qed.

(** C12: the neighbour search is an optimisation only.  With entries computed for a search
    length of at least the radius, boxes at one origin that contain their particles, and a functor
    whose calls commute, [interact] leaves in every target frame what folding the
    functor over ALL live particles of ALL source regions leaves there. *)
Theorem interact_all_pairs `{!FieldSeparation fn} `{!Commuting} fuel frameSize junk policy ord radius m o
    target index fss ss h :
  target_ok fn radius target index fss h -> search_target_ok o h target fss ->
  searches_ok fuel frameSize m o h target ss -> orders_ok ord -> 0 <= radius <= m ->
  exists h', interact policy fuel frameSize junk ord (map snd ss) target index radius fn h = Some h' /\
    (forall r tr ps p fr, regions_of target !! r = Some tr -> fss !! r = Some ps -> p ∈ ps -> h !! p = Some fr ->
      h' !! p = Some (frame_result fn (radius * radius) p (volume tr)
                        (ss ≫= fun '(src, sfss, _) => all_sources h (src, sfss)) fr)) /\
    heap_sep fn h h' /\ (forall p, p ∉ concat fss -> h' !! p = h !! p).
Proof using Type.
  exact (interact_all_pairs_spec fuel frameSize junk policy ord radius m o target index fss ss h).
Qed.
End pairs.
End geometry.

(** ** Witnesses *)

Section witness.
#[local] Existing Instance dim1.
Local Open Scope R_scope.

Definition partR (m : Z) : Particle R := mkParticle 7 m [1] 5 [0] 1 1 1 [0] 0.
Definition frameR : Frame R := mkFrame [partR 1; partR 0] 1 0.
Definition heapR : heap R := <[16%Z := frameR]> ∅.
Definition regionR : ParticleRegion R := mkRegion (mkAABB [0] [0] [2]) (mkFrameList 16 16 1).
Definition prR : PRBuffer R := mkPRBuffer 5 (Some (mkHD [regionR] [regionR])) 1 9.
Definition indexR : FrameIndexBuffer :=
  mkIndex (Some [16%Z]) (Some [0%Z]) (Some (mkHD [1%Z] [1%Z])) 1 1 1 9 5 true.

Definition sum_masses_R : Functor (T := R) () () R R :=
  mkFunctor () () R R (fun _ => tt) density (fun _ => tt) mass (fun _ _ m _ a => a + m) set_density.

#[local] Instance sum_masses_R_separation : FieldSeparation sum_masses_R.
Proof. split; try done. by intros []. Qed.
#[local] Instance sum_masses_R_commuting : Commuting sum_masses_R.
Proof. intros r p nb nb' c c' a. simpl. lra. Qed.

Lemma slots_frameR q : q ∈ slots frameR -> occupied q = true -> q = partR 1.
Proof. simpl. intros [->|[->|[]%elem_of_nil]%elem_of_cons]%elem_of_cons Ho; [done|discriminate]. Qed.

Lemma frameR_bounded : bounded_frame 1 frameR.
Proof.
  intros q Hq Ho. rewrite (slots_frameR q Hq Ho). split; [done|].
  change (Rabs 1 <= 1). rewrite Rabs_R1. lra.
Qed.

Lemma big_max : 3 + 1 <= Rflt_max / 4.
Proof.
  unfold Rflt_max. assert (IZR 16 <= IZR ((2 ^ 24 - 1) * 2 ^ 104)); [|lra]. apply IZR_le. vm_compute. discriminate.
Qed.

Lemma heapR_list : is_list heapR (mkFrameList 16 16 1) [16%Z].
Proof. apply is_listb_sound. vm_compute. reflexivity. Qed.

Lemma heapR_boxed : regions_boxed [0] heapR [regionR] [[16%Z]].
Proof.
  intros [|n] nr ps [= <-] [= <-]. split_and!; [done..|].
  intros p fr q ->%list_elem_of_singleton Hfr Hq Ho. simpl in Hfr. injection Hfr as <-.
  rewrite (slots_frameR q Hq Ho). split; [done|]. intros t ->%list_elem_of_singleton.
  split; apply Rleb_true; simpl; cbv [vget index_of find_index cartesian_tags cs_dim dim1 decide decide_rel axis_eq_dec];
    simpl; lra.
Qed.

Lemma dead_slots_invisible_witness :
  exists nb', interactWithNeighbourFrame sum_masses_R (volume regionR) (volume regionR) frameR (3 * 3)
      true (loadOwnRegisters sum_masses_R frameR, [8; 77]) =
    Some (spec_regs sum_masses_R (3 * 3) 16 (volume regionR) (frame_sources sum_masses_R (volume regionR) 16 frameR)
            (loadOwnRegisters sum_masses_R frameR), nb') /\ nb' !! 1%nat = Some 77.
Proof.
  destruct (dead_slots_invisible sum_masses_R 16 (volume regionR) (volume regionR) 16 frameR frameR 3 1 [8; 77])
    as (nb' & E & Hnb); [exact frameR_bounded|lra|exact big_max|reflexivity|].
  exists nb'. split; [exact E|]. exact (Hnb 1%nat (partR 0) eq_refl eq_refl).
Defined.

Lemma pairs_R : (Z.of_nat (length (concat
    (map (fun tr => intersecting (3 : R) tr (regions_of prR)) (regions_of prR)))) < 2 ^ 31)%Z.
Proof.
  change (regions_of prR) with [regionR]. cbn [map concat]. rewrite app_nil_r. unfold intersecting.
  eapply Z.le_lt_trans; [apply inj_le, length_filter|]. reflexivity.
Qed.

Lemma computed_R : exists e, computed 3 prR prR e.
Proof.
  assert (Hk : forall b, (b < pr_size prR)%nat ->
       exhausts [0%nat] (map (fun w => strided w (2 ^ 0) (pr_size prR)) (seq 0 (2 ^ 0)))) by done.
  destruct (calculateNeighbourEntry_spec 0 77 [0%nat] [0%nat] (fun _ => [0%nat]) prR prR 3) as (e & E & _);
    [by split; simpl; lia..|vm_compute; lia|done|exact pairs_R|done|done|exact Hk|].
  exists e, 0%nat, 77%Z, [0%nat], [0%nat], (fun _ => [0%nat]). split_and!; [vm_compute; lia|done|done|exact Hk|exact E].
Qed.

Lemma target_ok_R {Reads Prep Nb Acc} (fn : Functor (T := R) Reads Prep Nb Acc) radius :
  0 <= radius <= 3 -> target_ok fn radius prR indexR [[16%Z]] heapR.
Proof.
  intros Hr. constructor.
  - reflexivity.
  - split; [reflexivity|]. eexists _, _, _. split_and!; try reflexivity.
    intros [|r] Hlt; [reflexivity|]. simpl in Hlt. lia.
  - apply Forall2_cons; split; [exact heapR_list|]. apply Forall2_nil. done.
  - apply NoDup_singleton.
  - intros p fr ->%list_elem_of_singleton [= <-]. pose proof big_max.
    apply (bounded_frame_culls fn frameR radius 1); [exact frameR_bounded|lra|lra].
Qed.

Lemma search_ok_R : search_source_ok 4 2 3 [0] heapR prR prR [[16%Z]].
Proof.
  constructor.
  - by split; simpl; lia.
  - apply Forall2_cons; split; [exact heapR_list|]. apply Forall2_nil. done.
  - intros ps ->%list_elem_of_singleton. split; [simpl; lia|]. intros p ->%list_elem_of_singleton. by exists frameR.
  - exact heapR_boxed.
  - done.
  - exact pairs_R.
Qed.

Lemma interact_all_pairs_witness :
  exists e h', interact DefaultPolicy 4 2 0 (fun _ n => seq 0 n) [e] prR indexR 3 sum_masses_R heapR = Some h' /\
    h' !! 16%Z = Some (frame_result sum_masses_R (3 * 3) 16 (volume regionR)
                         (all_sources sum_masses_R heapR (prR, [[16%Z]]) ++ []) frameR).
Proof.
  destruct computed_R as [e He].
  destruct (interact_all_pairs sum_masses_R 4 2 0 DefaultPolicy (fun _ n => seq 0 n) 3 3 [0] prR indexR [[16%Z]]
    [(prR, [[16%Z]], e)] heapR) as (h' & E & Hres & _).
  - apply target_ok_R. lra.
  - split; [by split; simpl; lia|exact heapR_boxed].
  - apply Forall_singleton. split; [exact search_ok_R|exact He].
  - by intros i n.
  - lra.
  - exists e, h'. split; [exact E|]. apply (Hres 0%nat regionR [16%Z] 16%Z frameR); [reflexivity..|by left|reflexivity].
Defined.
End witness.
