(* ===== verification/Spline.v ===== *)
(** * Piecewise polynomials over the reals

    The calculus behind the smoothing kernels: polynomials as coefficient lists,
    piecewise polynomials as a list of breakpoints with the polynomial to the left of
    each and a polynomial for the rest, their derivative and their primitive. *)
From Stdlib Require Import Reals Lra.
From stdpp Require Import base list.
From S2P Require Import Prelude Scalar.

Local Open Scope R_scope.

(** ** Polynomials *)

Fixpoint peval (p : list R) (x : R) : R :=
  match p with [] => 0 | c :: p => c + x * peval p x end.

Fixpoint padd (p q : list R) : list R :=
  match p, q with
  | [], _ => q
  | _, [] => p
  | a :: p, b :: q => (a + b) :: padd p q
  end.

Fixpoint pderiv (p : list R) : list R :=
  match p with [] => [] | _ :: p => padd p (0 :: pderiv p) end.

(** The primitive that vanishes at 0; [n] is the degree of the first coefficient. *)
Fixpoint pint_from (n : R) (p : list R) : list R :=
  match p with [] => [] | c :: p => c / n :: pint_from (n + 1) p end.
Definition pint (p : list R) : list R := 0 :: pint_from 1 p.

(** Multiplication by [x ^ k]. *)
Definition pshift (k : nat) (p : list R) : list R := replicate k 0 ++ p.

Lemma peval_padd p q x : peval (padd p q) x = peval p x + peval q x.
Proof. revert q. induction p as [|a p IH]; intros [|b q]; simpl; try lra. rewrite IH. lra. Qed.

Lemma peval_pshift k p x : peval (pshift k p) x = x ^ k * peval p x.
Proof. unfold pshift. induction k as [|k IH]; simpl; [ring|]. rewrite IH. ring. Qed.

Lemma peval_deriv p x : derivable_pt_lim (peval p) x (peval (pderiv p) x).
Proof.
  induction p as [|c p IH]; simpl; [apply derivable_pt_lim_const|].
  rewrite peval_padd. simpl.
  replace (peval p x + (0 + x * peval (pderiv p) x)) with (0 + (1 * peval p x + x * peval (pderiv p) x)) by lra.
  apply (derivable_pt_lim_plus (fct_cte c) (mult_fct id (peval p))); [apply derivable_pt_lim_const|].
  apply derivable_pt_lim_mult; [apply derivable_pt_lim_id|exact IH].
Qed.

(** [x ^ n] times the shifted primitive: the induction behind [pint]. *)
Lemma pint_from_deriv n p x :
  0 < n -> n * peval (pint_from n p) x + x * peval (pderiv (pint_from n p)) x = peval p x.
Proof.
  revert n. induction p as [|c p IH]; intros n Hn; simpl; [lra|].
  rewrite peval_padd. simpl. rewrite <-(IH (n + 1)) by lra. field. lra.
Qed.

Lemma pint_deriv p x : peval (pderiv (pint p)) x = peval p x.
Proof. unfold pint. simpl. rewrite peval_padd. simpl. rewrite <-(pint_from_deriv 1 p x) by lra. lra. Qed.

(** ** Piecewise polynomials *)

Definition pieces : Type := list (R * list R).

Fixpoint pw_eval (l : pieces) (tail : list R) (x : R) : R :=
  match l with
  | [] => peval tail x
  | (b, p) :: l => if Rltb x b then peval p x else pw_eval l tail x
  end.

Definition pw_map (f : list R -> list R) (l : pieces) : pieces := map (fun '(b, p) => (b, f p)) l.

(** Both sides of every breakpoint agree. *)
Fixpoint pw_continuous (l : pieces) (tail : list R) : Prop :=
  match l with
  | [] => True
  | (b, p) :: l => peval p b = pw_eval l tail b /\ pw_continuous l tail
  end.

(** Breakpoints increase from [a]. *)
Fixpoint pw_sorted (a : R) (l : pieces) : Prop :=
  match l with [] => True | (b, _) :: l => a < b /\ pw_sorted b l end.

Lemma glue_deriv (f g : R -> R) (f' g' b x : R) :
  derivable_pt_lim f x f' -> derivable_pt_lim g x g' -> (x = b -> f b = g b /\ f' = g') ->
  derivable_pt_lim (fun y => if Rltb y b then f y else g y) x (if Rltb x b then f' else g').
Proof.
  intros Hf Hg Hb eps Heps. destruct (Hf eps Heps) as [df Hdf], (Hg eps Heps) as [dg Hdg].
  destruct (Rtotal_order x b) as [Hlt|[Heq|Hgt]].
  - assert (Hd : 0 < Rmin df (b - x)) by (apply Rmin_pos; [apply cond_pos|lra]).
    exists (mkposreal _ Hd). intros h Hh Hhd. simpl in Hhd.
    pose proof (Rmin_l df (b - x)). pose proof (Rmin_r df (b - x)).
    rewrite !(proj2 (Rltb_true _ _)); [apply Hdf; [done|lra]|lra|].
    revert Hhd. unfold Rabs. destruct (Rcase_abs h); lra.
  - destruct (Hb Heq) as [E E']. subst x f'.
    assert (Hd : 0 < Rmin df dg) by (apply Rmin_pos; apply cond_pos).
    exists (mkposreal _ Hd). intros h Hh Hhd. simpl in Hhd.
    pose proof (Rmin_l df dg). pose proof (Rmin_r df dg).
    rewrite (proj2 (Rltb_false b b)) by lra.
    destruct (Rltb (b + h) b); [rewrite <-E; apply Hdf|apply Hdg]; done || lra.
  - assert (Hd : 0 < Rmin dg (x - b)) by (apply Rmin_pos; [apply cond_pos|lra]).
    exists (mkposreal _ Hd). intros h Hh Hhd. simpl in Hhd.
    pose proof (Rmin_l dg (x - b)). pose proof (Rmin_r dg (x - b)).
    rewrite !(proj2 (Rltb_false _ _)); [apply Hdg; [done|lra]|lra|].
    revert Hhd. unfold Rabs. destruct (Rcase_abs h); lra.
Qed.

(** A continuous spline with continuous derivative pieces is differentiable
    everywhere, breakpoints included. *)
Lemma pw_deriv l tail x :
  pw_continuous l tail -> pw_continuous (pw_map pderiv l) (pderiv tail) ->
  derivable_pt_lim (pw_eval l tail) x (pw_eval (pw_map pderiv l) (pderiv tail) x).
Proof.
  induction l as [|[b p] l IH]; simpl; [intros _ _; apply peval_deriv|].
  intros [E Hc] [E' Hc']. apply (glue_deriv (peval p) (pw_eval l tail)).
  - apply peval_deriv.
  - by apply IH.
  - intros ->. done.
Qed.

(** ** Primitives *)

(** The primitive with value [c] at [a], piece by piece. *)
Definition pprim (a c : R) (p : list R) : list R := padd [c - peval (pint p) a] (pint p).

Fixpoint pw_prim (a c : R) (l : pieces) (tail : list R) : pieces * list R :=
  match l with
  | [] => ([], pprim a c tail)
  | (b, p) :: l =>
      let r := pw_prim b (peval (pprim a c p) b) l tail in ((b, pprim a c p) :: r.1, r.2)
  end.

(** The value accumulated at the last breakpoint. *)
Fixpoint pw_total (a c : R) (l : pieces) : R :=
  match l with [] => c | (b, p) :: l => pw_total b (peval (pprim a c p) b) l end.

Lemma pprim_at a c p : peval (pprim a c p) a = c.
Proof. unfold pprim. rewrite peval_padd. simpl. lra. Qed.

Lemma pprim_deriv a c p x : peval (pderiv (pprim a c p)) x = peval p x.
Proof. rewrite <-(pint_deriv p x). unfold pprim, pint. simpl. by rewrite !peval_padd. Qed.

Lemma pw_prim_at a c l tail : pw_sorted a l -> pw_eval (pw_prim a c l tail).1 (pw_prim a c l tail).2 a = c.
Proof.
  destruct l as [|[b p] l]; simpl; intros Hs; [apply pprim_at|].
  destruct Hs as [Hab _]. rewrite (proj2 (Rltb_true a b)) by done. apply pprim_at.
Qed.

Lemma pw_prim_deriv_eval a c l tail x :
  pw_eval (pw_map pderiv (pw_prim a c l tail).1) (pderiv (pw_prim a c l tail).2) x = pw_eval l tail x.
Proof.
  revert a c. induction l as [|[b p] l IH]; intros a c; cbn [pw_prim pw_map map pw_eval fst snd]; [apply pprim_deriv|].
  destruct (Rltb x b); [apply pprim_deriv|apply IH].
Qed.

Lemma pw_prim_joints a c l tail :
  pw_sorted a l -> pw_continuous l tail ->
  pw_continuous (pw_prim a c l tail).1 (pw_prim a c l tail).2 /\
  pw_continuous (pw_map pderiv (pw_prim a c l tail).1) (pderiv (pw_prim a c l tail).2).
Proof.
  revert a c. induction l as [|[b p] l IH]; intros a c; cbn [pw_prim pw_map map pw_continuous fst snd]; [done|].
  intros [Hab Hs] [E Hc]. destruct (IH b (peval (pprim a c p) b) Hs Hc) as [H1 H2].
  split_and!; [by rewrite pw_prim_at|done| |done].
  rewrite pprim_deriv, E. symmetry. apply pw_prim_deriv_eval.
Qed.

(** The primitive of a continuous spline: its derivative is the spline. *)
Lemma pw_prim_deriv a c l tail x :
  pw_sorted a l -> pw_continuous l tail ->
  derivable_pt_lim (pw_eval (pw_prim a c l tail).1 (pw_prim a c l tail).2) x (pw_eval l tail x).
Proof.
  intros Hs Hc. destruct (pw_prim_joints a c l tail Hs Hc) as [H1 H2].
  rewrite <-(pw_prim_deriv_eval a c l tail x). by apply pw_deriv.
Qed.

(** Beyond the last breakpoint of a spline with the zero tail the primitive is the total. *)
Lemma pw_prim_total a c l e :
  pw_sorted a l -> (forall b p, (b, p) ∈ l -> b <= e) -> a <= e ->
  pw_eval (pw_prim a c l []).1 (pw_prim a c l []).2 e = pw_total a c l.
Proof.
  revert a c. induction l as [|[b p] l IH]; intros a c; simpl.
  - intros _ _ _. unfold pprim, pint. simpl. lra.
  - intros [Hab Hs] He Hae. rewrite (proj2 (Rltb_false e b)) by (apply (He b p); by left).
    apply IH; [done| |apply (He b p); by left]. intros b' p' Hin. apply (He b' p'). by right.
Qed.
