(* ===== verification/SphKernels.v ===== *)
(** * Smoothing kernels

    Models spearhed/sph/CubicSplineKernel.hpp, QuinticSplineKernel.hpp and the
    concept of SphKernel.hpp over the scalar interface, in the source's order of
    operations.  Over the real numbers each kernel is the scaled piecewise
    polynomial of Spline.v, from which support, derivative and normalisation follow. *)
From Stdlib Require Import Reals Lra Lia ZArith.
From Stdlib Require Import NewtonInt.
From stdpp Require Import base list.
From S2P Require Import Prelude Scalar Topology Spline.

(** ** The code *)

Section code.
Context {D : CartesianDim} {T : Type} `{Scalar T}.


(** [hPowDim]: the loop that multiplies [n] times by [h]. *)
Fixpoint hPow (n : nat) (h acc : T) : T :=
  match n with O => acc | S n => hPow n h (acc * h)%S end.

(** The [SphKernel] concept: the members the simulation uses. *)
Record SphKernel : Type := mkKernel {
  supportRadius : Z;
  norm : T;
  W : T -> T -> T;
  dWdr : T -> T -> T;
  gradWScalar : T -> T -> T -> T;
  gradW : storage T -> T -> T -> storage T
}.

(** The factor in front of a kernel value and of its derivative. *)
Definition cubic_norm : T :=
  if cs_dim =? 1 then (sofZ 2 / sofZ 3)%S
  else if cs_dim =? 2 then (sofZ 10 / (sofZ 7 * spi))%S
  else (sofZ 1 / spi)%S.

Definition cubic_W (r h : T) : T :=
  let x := (r / h)%S in
  let kernelVal :=
    if (x <? sofZ 1)%S then (sofZ 1 - slit 3 2 * x * x + slit 3 4 * x * x * x)%S
    else if (x <? sofZ 2)%S then (slit 1 4 * (sofZ 2 - x) * (sofZ 2 - x) * (sofZ 2 - x))%S
    else sofZ 0 in
  (cubic_norm / hPow cs_dim h (sofZ 1) * kernelVal)%S.

Definition cubic_dWdr (r h : T) : T :=
  let x := (r / h)%S in
  let kernelVal :=
    if ((sofZ 0 <=? x) && (x <? sofZ 1))%S then (slit 9 4 * x * x - sofZ 3 * x)%S
    else if (x <? sofZ 2)%S then (sopp (slit 3 4) * (sofZ 2 - x) * (sofZ 2 - x))%S
    else sofZ 0 in
  (cubic_norm / hPow (S cs_dim) h (sofZ 1) * kernelVal)%S.

Definition quintic_norm : T :=
  if cs_dim =? 1 then (sofZ 1 / sofZ 120)%S
  else if cs_dim =? 2 then (sofZ 7 / (sofZ 478 * spi))%S
  else (sofZ 1 / (sofZ 120 * spi))%S.

Definition quintic_W (r h : T) : T :=
  let x := (r / h)%S in
  let a := (sofZ 3 - x)%S in let b := (sofZ 2 - x)%S in let c := (sofZ 1 - x)%S in
  let kernelVal :=
    if (x <? sofZ 1)%S then (a * a * a * a * a - sofZ 6 * b * b * b * b * b + sofZ 15 * c * c * c * c * c)%S
    else if (x <? sofZ 2)%S then (a * a * a * a * a - sofZ 6 * b * b * b * b * b)%S
    else if (x <? sofZ 3)%S then (a * a * a * a * a)%S
    else sofZ 0 in
  (quintic_norm / hPow cs_dim h (sofZ 1) * kernelVal)%S.

Definition quintic_dWdr (r h : T) : T :=
  let x := (r / h)%S in
  let a := (sofZ 3 - x)%S in let b := (sofZ 2 - x)%S in let c := (sofZ 1 - x)%S in
  let kernelVal :=
    if (x <? sofZ 1)%S then (sopp (sofZ 5) * a * a * a * a + sofZ 30 * b * b * b * b - sofZ 75 * c * c * c * c)%S
    else if (x <? sofZ 2)%S then (sopp (sofZ 5) * a * a * a * a + sofZ 30 * b * b * b * b)%S
    else if (x <? sofZ 3)%S then (sopp (sofZ 5) * a * a * a * a)%S
    else sofZ 0 in
  (quintic_norm / hPow (S cs_dim) h (sofZ 1) * kernelVal)%S.

(** [gradWScalar] and [gradW] read the same in both kernels. *)
Definition kernel_gradWScalar (support : Z) (dwdr : T -> T -> T) (r ir h : T) : T :=
  if negb (sofZ 0 <? r)%S || (sofZ support * h <=? r)%S then sofZ 0 else (dwdr r h * ir)%S.

Definition kernel_gradW (support : Z) (dwdr : T -> T -> T) (rVec : storage T) (r h : T) : storage T :=
  let result := broadcast (sofZ 0) in
  if (r =? sofZ 0)%S || (sofZ support * h <=? r)%S then result else
  let d := dwdr r h in
  let inv_r := (sofZ 1 / r)%S in
  for_each_tag (fun t u => vset u t (d * vget rVec t * inv_r)%S) result.

Definition CubicSplineKernel : SphKernel :=
  mkKernel 2 cubic_norm cubic_W cubic_dWdr (kernel_gradWScalar 2 cubic_dWdr) (kernel_gradW 2 cubic_dWdr).
Definition QuinticSplineKernel : SphKernel :=
  mkKernel 3 quintic_norm quintic_W quintic_dWdr (kernel_gradWScalar 3 quintic_dWdr) (kernel_gradW 3 quintic_dWdr).
End code.

Arguments SphKernel : clear implicits.

(** ** Kernels as scaled splines *)

Section real.
Context {D : CartesianDim}.
Local Open Scope R_scope.

Lemma hPow_R n h acc : hPow n h acc = acc * h ^ n.
Proof. revert acc. induction n as [|n IH]; intros acc; simpl; [ring|]. rewrite IH. simpl. ring. Qed.

Lemma div_nonneg x y : 0 <= x -> 0 < y -> 0 <= x / y.
Proof. intros Hx Hy. apply Rmult_le_pos; [done|]. left. by apply Rinv_0_lt_compat. Qed.

(** Surface of the unit sphere times [r ^ (d - 1)]: the measure of the shell at [r]. *)
Definition shell (r : R) : R :=
  if (cs_dim =? 1)%nat then 2 else if (cs_dim =? 2)%nat then 2 * PI * r else 4 * PI * (r * r).

Definition shell_weight : R :=
  if (cs_dim =? 1)%nat then 2 else if (cs_dim =? 2)%nat then 2 * PI else 4 * PI.

Lemma shell_pow r : shell r = shell_weight * r ^ (cs_dim - 1).
Proof. unfold shell, shell_weight. dim_cases D; simpl; ring. Qed.

(** What a kernel promises to its clients: it is a scaled spline in [r / h], positive and
    decreasing inside its support, zero beyond it, of unit total mass. *)
Class SplineKernel (K : SphKernel R) : Type := {
  sk_pieces : pieces;
  sk_W : forall r h, 0 < h -> W K r h = norm K / h ^ cs_dim * pw_eval sk_pieces [] (r / h);
  sk_dWdr : forall r h, 0 <= r -> 0 < h ->
    dWdr K r h = norm K / h ^ S cs_dim * pw_eval (pw_map pderiv sk_pieces) [] (r / h);
  sk_continuous : pw_continuous sk_pieces [];
  sk_smooth : pw_continuous (pw_map pderiv sk_pieces) [];
  sk_sorted : pw_sorted 0 sk_pieces;
  sk_breaks : forall b p, (b, p) ∈ sk_pieces -> b <= IZR (supportRadius K);
  sk_support : 0 < IZR (supportRadius K);
  sk_positive : forall x, 0 <= x < IZR (supportRadius K) -> 0 < pw_eval sk_pieces [] x;
  sk_zero : forall x, IZR (supportRadius K) <= x -> pw_eval sk_pieces [] x = 0;
  sk_decreasing : forall x, 0 <= x -> pw_eval (pw_map pderiv sk_pieces) [] x <= 0;
  sk_flat : pw_eval (pw_map pderiv sk_pieces) [] 0 = 0;
  sk_norm : 0 < norm K;
  sk_mass : shell_weight * norm K * pw_total 0 0 (pw_map (pshift (cs_dim - 1)) sk_pieces) = 1;
  sk_gradWScalar : forall r ir h, gradWScalar K r ir h = kernel_gradWScalar (supportRadius K) (dWdr K) r ir h;
  sk_gradW : forall v r h, gradW K v r h = kernel_gradW (supportRadius K) (dWdr K) v r h
}.

Ltac spline_cases :=
  repeat match goal with
  | |- context [Rltb ?x ?y] => destruct (Rltb x y) eqn:?
  | |- context [Rleb ?x ?y] => destruct (Rleb x y) eqn:?
  end;
  repeat match goal with
  | H : Rltb _ _ = true |- _ => apply Rltb_true in H
  | H : Rltb _ _ = false |- _ => apply Rltb_false in H
  | H : Rleb _ _ = true |- _ => apply Rleb_true in H
  | H : Rleb _ _ = false |- _ => apply Rleb_false in H
  end.

Definition cubic_pieces : pieces := [(1, [1; 0; - (3 / 2); 3 / 4]); (2, [2; -3; 3 / 2; - (1 / 4)])].

Lemma cubic_mass :
  shell_weight * cubic_norm * pw_total 0 0 (pw_map (pshift (cs_dim - 1)) cubic_pieces) = 1.
Proof.
  pose proof PI_neq0. unfold shell_weight, cubic_norm. dim_cases D; simpl; field; done.
Qed.

Lemma cubic_norm_pos : 0 < cubic_norm (T := R).
Proof.
  pose proof PI_RGT_0. unfold cubic_norm. dim_cases D; simpl;
    apply Rdiv_lt_0_compat; lra.
Qed.

#[export] Instance cubic_spline : SplineKernel CubicSplineKernel.
Proof.
  refine {| sk_pieces := cubic_pieces : pieces |}.
  - intros r h Hh. unfold W, CubicSplineKernel, cubic_W, norm, cubic_pieces. rewrite hPow_R.
    simpl. rewrite Rmult_1_l. f_equal. generalize (r / h) as x. intros x. spline_cases; try lra; field.
  - intros r h Hr Hh. unfold dWdr, CubicSplineKernel, cubic_dWdr, norm, cubic_pieces. rewrite hPow_R.
    assert (Hx : 0 <= r / h) by (by apply div_nonneg).
    simpl. rewrite Rmult_1_l. f_equal. revert Hx. generalize (r / h) as x. intros x Hx.
    spline_cases; simpl; try lra; field.
  - simpl. spline_cases; repeat split; lra.
  - simpl. spline_cases; repeat split; lra.
  - simpl. lra.
  - intros b p. unfold cubic_pieces. rewrite !elem_of_cons. simpl.
    intros [[= -> _]|[[= -> _]|[]%elem_of_nil]]; lra.
  - simpl. lra.
  - simpl. intros x Hx. spline_cases; [nra| |lra].
    assert (0 < (2 - x) * ((2 - x) * (2 - x))) by (repeat apply Rmult_lt_0_compat; lra). lra.
  - simpl. intros x Hx. spline_cases; lra.
  - simpl. intros x Hx. spline_cases; [nra|nra|lra].
  - simpl. spline_cases; lra.
  - exact cubic_norm_pos.
  - exact cubic_mass.
  - done.
  - done.
Defined.

Definition quintic_pieces : pieces :=
  [(1, [66; 0; -60; 0; 30; -10]); (2, [51; 75; -210; 150; -45; 5]); (3, [243; -405; 270; -90; 15; -1])].

Lemma quintic_mass :
  shell_weight * quintic_norm * pw_total 0 0 (pw_map (pshift (cs_dim - 1)) quintic_pieces) = 1.
Proof.
  pose proof PI_neq0. unfold shell_weight, quintic_norm. dim_cases D; simpl; field; done.
Qed.

Lemma quintic_norm_pos : 0 < quintic_norm (T := R).
Proof.
  pose proof PI_RGT_0. unfold quintic_norm. dim_cases D; simpl;
    apply Rdiv_lt_0_compat; lra.
Qed.

(** The values of the three pieces, in terms of the distance to their right end. *)
Lemma quintic_positive x : 0 <= x < 3 -> 0 < pw_eval quintic_pieces [] x.
Proof.
  simpl. intros Hx. spline_cases; [| | |lra].
  - set (c := 1 - x). replace x with (1 - c) by (unfold c; ring). assert (0 < c <= 1) by (unfold c; lra).
    clearbody c. assert (0 <= c * c * (1 - c * c)) by (apply Rmult_le_pos; nra).
    assert (0 <= c * (1 - c * c)) by (apply Rmult_le_pos; nra).
    assert (0 < c * c * (c * c * c)) by (repeat apply Rmult_lt_0_compat; lra). nra.
  - set (b := 2 - x). replace x with (2 - b) by (unfold b; ring). assert (0 < b <= 1) by (unfold b; lra).
    clearbody b. assert (0 <= b * b * (b * b) * (1 - b)) by (repeat apply Rmult_le_pos; lra).
    assert (0 < b * b * b) by (repeat apply Rmult_lt_0_compat; lra). nra.
  - set (a := 3 - x). replace x with (3 - a) by (unfold a; ring). assert (0 < a) by (unfold a; lra).
    clearbody a. assert (0 < a * a * (a * a * a)) by (repeat apply Rmult_lt_0_compat; lra). nra.
Qed.

Lemma quintic_decreasing x : 0 <= x -> pw_eval (pw_map pderiv quintic_pieces) [] x <= 0.
Proof.
  simpl. intros Hx. spline_cases; [| | |lra].
  - set (c := 1 - x). replace x with (1 - c) by (unfold c; ring). assert (0 < c <= 1) by (unfold c; lra).
    clearbody c. assert (0 <= (1 - c) * (10 + 18 * c + 6 * (c * c) - 10 * (c * (c * c)))); [|nra].
    apply Rmult_le_pos; nra.
  - set (b := 2 - x). replace x with (2 - b) by (unfold b; ring). assert (0 < b <= 1) by (unfold b; lra).
    clearbody b. assert (0 <= 1 - b * b) by nra.
    assert (0 <= b * b * (1 - b * b)) by (apply Rmult_le_pos; nra). nra.
  - set (a := 3 - x). replace x with (3 - a) by (unfold a; ring). assert (0 < a) by (unfold a; lra).
    clearbody a. assert (0 < a * a * (a * a)) by (repeat apply Rmult_lt_0_compat; lra). nra.
Qed.

#[export] Instance quintic_spline : SplineKernel QuinticSplineKernel.
Proof.
  refine {| sk_pieces := quintic_pieces : pieces |}.
  - intros r h Hh. unfold W, QuinticSplineKernel, quintic_W, norm, quintic_pieces. rewrite hPow_R.
    simpl. rewrite Rmult_1_l. f_equal. generalize (r / h) as x. intros x. spline_cases; try lra; ring.
  - intros r h Hr Hh. unfold dWdr, QuinticSplineKernel, quintic_dWdr, norm, quintic_pieces. rewrite hPow_R.
    simpl. rewrite Rmult_1_l. f_equal. generalize (r / h) as x. intros x.
    spline_cases; simpl; try lra; ring.
  - simpl. spline_cases; repeat split; lra.
  - simpl. spline_cases; repeat split; lra.
  - simpl. lra.
  - intros b p. unfold quintic_pieces. rewrite !elem_of_cons. simpl.
    intros [[= -> _]|[[= -> _]|[[= -> _]|[]%elem_of_nil]]]; lra.
  - simpl. lra.
  - exact quintic_positive.
  - simpl. intros x Hx. spline_cases; lra.
  - exact quintic_decreasing.
  - simpl. spline_cases; lra.
  - exact quintic_norm_pos.
  - exact quintic_mass.
  - done.
  - done.
Defined.

(** ** What every kernel satisfies *)

Lemma pw_eval_tail l tail x : (forall b p, (b, p) ∈ l -> b <= x) -> pw_eval l tail x = peval tail x.
Proof.
  induction l as [|[b p] l IH]; intros Hb; simpl; [done|].
  rewrite (proj2 (Rltb_false x b)) by (apply (Hb b p); by left). apply IH. intros b' p' Hin.
  apply (Hb b' p'). by right.
Qed.

Section kernel.
Context (K : SphKernel R) `{!SplineKernel K} (h : R) (Hh : 0 < h).

Lemma kernel_beyond r : IZR (supportRadius K) * h <= r -> W K r h = 0 /\ dWdr K r h = 0.
Proof using Type*.
  intros Hr. pose proof (sk_support (K := K)) as Hs. assert (0 < IZR (supportRadius K) * h) by nra.
  assert (Hx : IZR (supportRadius K) <= r / h).
  { apply (Rmult_le_reg_r h); [done|]. unfold Rdiv. rewrite Rmult_assoc, Rinv_l by lra. lra. }
  rewrite sk_W, sk_dWdr by lra. rewrite sk_zero by done. rewrite pw_eval_tail; [simpl; lra|].
  intros b p Hin. unfold pw_map in Hin. apply list_elem_of_fmap in Hin as ([b' p'] & [= -> ->] & Hin).
  pose proof (sk_breaks b' p' Hin). lra.
Qed.

Lemma kernel_scale_pos n : 0 < norm K / h ^ n.
Proof using Type*. apply Rdiv_lt_0_compat; [apply sk_norm|]. by apply pow_lt. Qed.

Lemma kernel_positive r : 0 <= r < IZR (supportRadius K) * h -> 0 < W K r h.
Proof using Type*.
  intros Hr. rewrite sk_W by done. apply Rmult_lt_0_compat; [apply kernel_scale_pos|].
  apply sk_positive. split; [apply div_nonneg; lra|].
  apply (Rmult_lt_reg_r h); [done|]. unfold Rdiv. rewrite Rmult_assoc, Rinv_l by lra. lra.
Qed.

Lemma kernel_decreasing r : 0 <= r -> dWdr K r h <= 0.
Proof using Type*.
  intros Hr. rewrite sk_dWdr by done.
  pose proof (kernel_scale_pos (S cs_dim)). pose proof (sk_decreasing (r / h) (div_nonneg r h Hr Hh)). nra.
Qed.

(** Scaling the argument of a differentiable function. *)
Lemma scaled_deriv (f : R -> R) a r l :
  derivable_pt_lim f (r / h) l -> derivable_pt_lim (fun y => a * f (y / h)) r (a * (l * / h)).
Proof using Hh.
  intros Hf. apply (derivable_pt_lim_scal (fun y => f (y / h)) a).
  apply (derivable_pt_lim_comp (fun y => y / h) f r (/ h) l); [|exact Hf].
  replace (/ h) with (1 * / h + r * 0) by ring.
  apply (derivable_pt_lim_mult id (fct_cte (/ h))); [apply derivable_pt_lim_id|apply derivable_pt_lim_const].
Qed.

Lemma kernel_deriv r : 0 <= r -> derivable_pt_lim (fun y => W K y h) r (dWdr K r h).
Proof using Type*.
  intros Hr. rewrite sk_dWdr by done.
  apply (derivable_pt_lim_ext (fun y => norm K / h ^ cs_dim * pw_eval sk_pieces [] (y / h))).
  { intros y. by rewrite sk_W. }
  replace (norm K / h ^ S cs_dim * _) with
    (norm K / h ^ cs_dim * (pw_eval (pw_map pderiv sk_pieces) [] (r / h) * / h)).
  - apply scaled_deriv, pw_deriv; [apply sk_continuous|apply sk_smooth].
  - pose proof (pow_lt h cs_dim Hh). simpl. field. lra.
Qed.

(** The mass inside radius [r], in closed form. *)
Definition kernel_mass (r : R) : R :=
  let l := pw_map (pshift (cs_dim - 1)) (sk_pieces (K := K)) in
  shell_weight * norm K * pw_eval (pw_prim 0 0 l []).1 (pw_prim 0 0 l []).2 (r / h).

Lemma pw_map_shift_eval k l x : pw_eval (pw_map (pshift k) l) [] x = x ^ k * pw_eval l [] x.
Proof using Type.
  induction l as [|[b p] l IH]; simpl; [ring|]. destruct (Rltb x b); [apply peval_pshift|exact IH].
Qed.

Lemma pw_map_shift_continuous k l : pw_continuous l [] -> pw_continuous (pw_map (pshift k) l) [].
Proof using Type.
  induction l as [|[b p] l IH]; [done|]. intros [E Hc]. split; [|by apply IH].
  change (map _ l) with (pw_map (pshift k) l). by rewrite peval_pshift, pw_map_shift_eval, E.
Qed.

Lemma pw_map_sorted f a l : pw_sorted a l -> pw_sorted a (pw_map f l).
Proof using Type. revert a. induction l as [|[b p] l IH]; [done|]. intros a [Hb Hs]. split; [done|by apply IH]. Qed.

Lemma kernel_mass_deriv r : derivable_pt_lim kernel_mass r (shell r * W K r h).
Proof using Type*.
  replace (shell r * W K r h) with
    (shell_weight * norm K * (pw_eval (pw_map (pshift (cs_dim - 1)) sk_pieces) [] (r / h) * / h)).
  - apply scaled_deriv, pw_prim_deriv; [apply pw_map_sorted, sk_sorted|apply pw_map_shift_continuous, sk_continuous].
  - rewrite pw_map_shift_eval, shell_pow, sk_W by done. destruct cs_dim_ok as [Hd _].
    destruct cs_dim as [|d]; [lia|]. replace (S d - 1)%nat with d by lia. simpl.
    unfold Rdiv. rewrite Rpow_mult_distr, pow_inv. pose proof (pow_lt h d Hh). field. lra.
Qed.

Lemma kernel_mass_ends : kernel_mass (IZR (supportRadius K) * h) - kernel_mass 0 = 1.
Proof using Type*.
  unfold kernel_mass. pose proof (sk_support (K := K)).
  replace (IZR (supportRadius K) * h / h) with (IZR (supportRadius K)) by (field; lra).
  replace (0 / h) with 0 by (field; lra).
  rewrite pw_prim_at by apply pw_map_sorted, sk_sorted.
  rewrite pw_prim_total; [|apply pw_map_sorted, sk_sorted| |lra].
  - rewrite sk_mass. lra.
  - intros b p Hin. apply list_elem_of_fmap in Hin as ([b' p'] & [= -> ->] & Hin). by apply (sk_breaks b' p').
Qed.

Lemma kernel_newton :
  exists pr : Newton_integrable (fun r => shell r * W K r h) 0 (IZR (supportRadius K) * h),
    NewtonInt _ _ _ pr = 1.
Proof using Type*.
  assert (Ha : antiderivative (fun r => shell r * W K r h) kernel_mass 0 (IZR (supportRadius K) * h)).
  { split; [|pose proof (sk_support (K := K)); nra]. intros r _.
    exists (exist _ _ (kernel_mass_deriv r)). reflexivity. }
  exists (exist _ kernel_mass (or_introl Ha)). apply kernel_mass_ends.
Qed.
End kernel.



(** ** The gradient *)

Lemma norm2_vset (v : storage R) t :
  storage_wf v -> t ∈ cartesian_tags cs_dim ->
  exists c, 0 <= c /\ forall y, norm2 (vset v t y) = sqrt (c + y * y).
Proof.
  intros Hv Ht. assert (Hsq : forall u : R, 0 <= u * u) by (intros; nra).
  unfold norm2. vec_cases D;
    repeat (apply elem_of_cons in Ht as [->|Ht];
      [cbv [decide decide_rel axis_eq_dec]; simpl|]); try by apply elem_of_nil in Ht.
  - exists 0. split; [lra|]. intros y. f_equal; ring.
  - exists (r0 * r0). split; [apply Hsq|]. intros y. f_equal; ring.
  - exists (r * r). split; [apply Hsq|]. intros y. f_equal; ring.
  - exists (r0 * r0 + r1 * r1). split; [apply Rplus_le_le_0_compat; apply Hsq|]. intros y. f_equal; ring.
  - exists (r * r + r1 * r1). split; [apply Rplus_le_le_0_compat; apply Hsq|]. intros y. f_equal; ring.
  - exists (r * r + r0 * r0). split; [apply Rplus_le_le_0_compat; apply Hsq|]. intros y. f_equal; ring.
Qed.

Lemma radius_deriv c y : 0 <= c -> 0 < c + y * y ->
  derivable_pt_lim (fun z => sqrt (c + z * z)) y (y / sqrt (c + y * y)).
Proof.
  intros Hc Hp. pose proof (sqrt_lt_R0 _ Hp).
  replace (y / sqrt (c + y * y)) with (/ (2 * sqrt (c + y * y)) * (2 * y)) by (field; lra).
  apply (derivable_pt_lim_comp (fun z => c + z * z) sqrt); [|by apply derivable_pt_lim_sqrt].
  replace (2 * y) with (0 + (1 * y + y * 1)) by ring.
  apply (derivable_pt_lim_plus (fct_cte c) (mult_fct id id)); [apply derivable_pt_lim_const|].
  apply derivable_pt_lim_mult; apply derivable_pt_lim_id.
Qed.

(** A radial function with derivative 0 at the centre is flat there along every axis. *)
Lemma flat_centre (g : R -> R) : derivable_pt_lim g 0 0 -> derivable_pt_lim (fun y => g (Rabs y)) 0 0.
Proof.
  intros Hg eps Heps. destruct (Hg eps Heps) as [d Hd]. exists d. intros k Hk Hkd.
  assert (Hk' : Rabs k <> 0) by by apply Rabs_no_R0.
  specialize (Hd (Rabs k) Hk' ltac:(by rewrite Rabs_Rabsolu)).
  rewrite Rabs_R0, Rplus_0_l. rewrite Rplus_0_l in Hd. rewrite Rminus_0_r in Hd |- *.
  unfold Rdiv in *. rewrite Rabs_mult, Rabs_inv in Hd |- *. by rewrite Rabs_Rabsolu in Hd.
Qed.

Lemma vget_gradW (v : storage R) t f r h support :
  storage_wf v -> t ∈ cartesian_tags cs_dim -> r <> 0 -> r < IZR support * h ->
  vget (kernel_gradW support f v r h) t = f r h * vget v t * (1 / r).
Proof.
  intros Hv Ht Hr Hs. unfold kernel_gradW. simpl.
  rewrite (proj2 (Reqb_false r 0) Hr), (proj2 (Rleb_false _ _) Hs). cbn [orb].
  unfold broadcast. vec_cases D;
    repeat (apply elem_of_cons in Ht as [->|Ht]; [done|]); by apply elem_of_nil in Ht.
Qed.

Lemma vget_zero t : t ∈ cartesian_tags cs_dim -> vget (broadcast 0) t = 0.
Proof.
  intros Ht. unfold broadcast. vec_cases D;
    repeat (apply elem_of_cons in Ht as [->|Ht]; [done|]); by apply elem_of_nil in Ht.
Qed.

Section gradient.
Context (K : SphKernel R) `{!SplineKernel K} (h : R) (Hh : 0 < h).

Lemma gradW_cases v t r :
  storage_wf v -> t ∈ cartesian_tags cs_dim -> 0 <= r ->
  vget (gradW K v (r) h) t = gradWScalar K (r) (/ r) h * vget v t /\
  (r <> 0 -> vget (gradW K v (r) h) t = dWdr K (r) h * (vget v t / r)) /\
  (r = 0 -> vget (gradW K v (r) h) t = 0).
Proof using Type*.
  intros Hv Ht Hr. rewrite sk_gradW, sk_gradWScalar. unfold kernel_gradWScalar. simpl.
  destruct (Req_dec (r) 0) as [E|E].
  { rewrite E. unfold kernel_gradW. simpl. rewrite (proj2 (Reqb_true 0 0)) by done.
    rewrite (proj2 (Rltb_false 0 0)) by lra. cbn [orb negb].
    pose proof (vget_zero t Ht) as Hz. rewrite Hz. split_and!; [lra|done|done]. }
  rewrite (proj2 (Rltb_true 0 (r))) by lra. cbn [orb negb].
  destruct (Rle_dec (IZR (supportRadius K) * h) (r)) as [Hs|Hs].
  - rewrite (proj2 (Rleb_true _ _) Hs). unfold kernel_gradW. simpl.
    rewrite (proj2 (Rleb_true _ _) Hs), orb_true_r. pose proof (vget_zero t Ht) as Hz. rewrite Hz.
    destruct (kernel_beyond K h Hh (r) Hs) as [_ ->]. split_and!; intros; lra.
  - rewrite (proj2 (Rleb_false _ _)) by lra. rewrite vget_gradW by (done || lra).
    split_and!; intros; [by field|by field|done].
Qed.

Lemma gradW_deriv v t :
  storage_wf v -> t ∈ cartesian_tags cs_dim ->
  derivable_pt_lim (fun y => W K (norm2 (vset v t y)) h) (vget v t) (vget (gradW K v (norm2 v) h) t).
Proof using Type*.
  intros Hv Ht. assert (Hr : 0 <= norm2 v) by apply sqrt_pos.
  destruct (gradW_cases v t _ Hv Ht Hr) as (_ & Hne & Heq).
  destruct (norm2_vset v t Hv Ht) as (c & Hc & Hn).
  assert (Hnv : norm2 v = sqrt (c + vget v t * vget v t)) by (rewrite <-Hn; by rewrite vset_vget).
  apply (derivable_pt_lim_ext (fun y => W K (sqrt (c + y * y)) h)); [intros y; by rewrite Hn|].
  destruct (Req_dec (norm2 v) 0) as [E|E].
  - rewrite (Heq E). rewrite E in Hnv. symmetry in Hnv. apply sqrt_eq_0 in Hnv; [|nra].
    assert (vget v t = 0) as -> by nra. assert (c = 0) as -> by nra.
    apply (derivable_pt_lim_ext (fun y => W K (Rabs y) h)).
    { intros y. f_equal. replace (0 + y * y) with (Rsqr y) by (unfold Rsqr; ring). by rewrite sqrt_Rsqr_abs. }
    apply (flat_centre (fun r => W K r h)). replace 0 with (dWdr K 0 h) at 2; [by apply kernel_deriv|].
    rewrite sk_dWdr by lra. replace (0 / h) with 0 by (field; lra). rewrite sk_flat. ring.
  - rewrite (Hne E), Hnv. apply (derivable_pt_lim_comp (fun y => sqrt (c + y * y)) (fun r => W K r h)).
    + apply radius_deriv; [done|]. destruct (Rle_lt_dec (c + vget v t * vget v t) 0) as [Hle|]; [|done].
      exfalso. apply E. rewrite Hnv. by apply sqrt_neg_0.
    + apply kernel_deriv; [done|done|apply sqrt_pos].
Qed.
End gradient.

(** The kernels of the simulation. *)
Definition kernels : list (SphKernel R) := [CubicSplineKernel; QuinticSplineKernel].

Lemma kernels_spline (P : SphKernel R -> Prop) :
  (forall K, SplineKernel K -> P K) -> forall K, K ∈ kernels -> P K.
Proof.
  intros HP K [->|[->|[]%elem_of_nil]%elem_of_cons]%elem_of_cons; apply HP; apply _.
Qed.

(** Both kernels have compact support: inside [supportRadius * h] the kernel is positive, from there on
    the kernel and its derivative vanish, and it never increases with the distance. *)
Theorem kernel_compact_support K h r :
  K ∈ kernels -> 0 < h -> 0 <= r ->
  (r < IZR (supportRadius K) * h -> 0 < W K r h) /\
  (IZR (supportRadius K) * h <= r -> W K r h = 0 /\ dWdr K r h = 0) /\
  dWdr K r h <= 0.
Proof.
  intros HK Hh Hr. revert K HK. apply kernels_spline. intros K HK. split_and!.
  - intros Hs. by apply kernel_positive.
  - by apply kernel_beyond.
  - by apply kernel_decreasing.
Qed.

(** [dWdr] is the derivative of [W] at every distance, the breakpoints of the spline, the edge of
    the support and zero included. *)
Theorem dWdr_is_derivative K h r :
  K ∈ kernels -> 0 < h -> 0 <= r -> derivable_pt_lim (fun y => W K y h) r (dWdr K r h).
Proof. intros HK Hh Hr. revert K HK. apply kernels_spline. intros K HK. by apply kernel_deriv. Qed.

(** [norm] is the right constant in one, two and three dimensions: the kernel integrates to one over
    its support. *)
Theorem kernel_unit_mass K h :
  K ∈ kernels -> 0 < h ->
  exists pr : Newton_integrable (fun r => shell r * W K r h) 0 (IZR (supportRadius K) * h),
    NewtonInt _ _ _ pr = 1.
Proof. intros HK Hh. revert K HK. apply kernels_spline. intros K HK. by apply kernel_newton. Qed.

(** The vector gradient is the gradient of the smoothed field [x |-> W(|x|, h)] in every
    coordinate and at every point, the centre and the edge of the support
    included, and equals the scalar form [gradWScalar(r, 1/r, h) * x] the pair loops use. *)
Theorem gradW_is_gradient K h v t :
  K ∈ kernels -> 0 < h -> storage_wf v -> t ∈ cartesian_tags cs_dim ->
  derivable_pt_lim (fun y => W K (norm2 (vset v t y)) h) (vget v t) (vget (gradW K v (norm2 v) h) t) /\
  vget (gradW K v (norm2 v) h) t = gradWScalar K (norm2 v) (/ norm2 v) h * vget v t.
Proof.
  intros HK Hh Hv Ht. revert K HK. apply kernels_spline. intros K HK. split; [by apply gradW_deriv|].
  apply gradW_cases; [done..|apply sqrt_pos].
Qed.
End real.

(** ** Witnesses *)

Section witness.
Local Open Scope R_scope.

Lemma kernel_compact_support_witness :
  0 < W (CubicSplineKernel (D := dim3)) 1 1 /\ W (QuinticSplineKernel (D := dim3)) 3 1 = 0.
Proof.
  split.
  - apply (proj1 (kernel_compact_support (D := dim3) (CubicSplineKernel (D := dim3)) 1 1 ltac:(by left) ltac:(lra) ltac:(lra))).
    simpl. lra.
  - apply (proj2 (kernel_compact_support (D := dim3) (QuinticSplineKernel (D := dim3)) 1 3 ltac:(by right; left) ltac:(lra) ltac:(lra))).
    simpl. lra.
Defined.

Lemma dWdr_is_derivative_witness :
  derivable_pt_lim (fun y => W (QuinticSplineKernel (D := dim2)) y 1) 2 (dWdr (QuinticSplineKernel (D := dim2)) 2 1).
Proof. apply (dWdr_is_derivative (D := dim2) (QuinticSplineKernel (D := dim2)) 1 2); [by right; left|lra|lra]. Defined.

Lemma kernel_unit_mass_witness :
  exists pr : Newton_integrable (fun r => shell (D := dim2) r * W (QuinticSplineKernel (D := dim2)) r 2) 0 (3 * 2),
    NewtonInt _ _ _ pr = 1.
Proof. apply (kernel_unit_mass (D := dim2) (QuinticSplineKernel (D := dim2)) 2); [by right; left|lra]. Defined.

Lemma gradW_is_gradient_witness :
  derivable_pt_lim (fun y => W (CubicSplineKernel (D := dim3)) (norm2 (D := dim3) (vset (D := dim3) [0; 0; 0] ax_x y)) 1)
    (vget (D := dim3) [0; 0; 0] ax_x)
    (vget (D := dim3) (gradW (CubicSplineKernel (D := dim3)) [0; 0; 0] (norm2 (D := dim3) [0; 0; 0]) 1) ax_x).
Proof.
  apply (gradW_is_gradient (D := dim3) (CubicSplineKernel (D := dim3)) 1 [0; 0; 0] ax_x); [by left|lra|done|by left].
Defined.
End witness.
