(* ===== verification/Hydro.v ===== *)
(** * Smoothed particle hydrodynamics

    Models spearhed/sph/EquationOfState.hpp, particles/density/DensitySummation.hpp and
    sph/HydroForces.hpp: the per-particle bodies, the two interaction functors with
    their prepare and stage hooks, and the two stages of a step that combine a
    launch of a body with an interaction. *)
From Stdlib Require Import ZArith Lia.
From stdpp Require Import base sets list numbers gmap.
From S2P Require Import Prelude Scalar Topology Aabb FrameList Lockstep Regions Scan FrameIndex Launch ParticleLaunch NeighbourRegions Interaction InteractLaunch SphKernels.

Section hydro.
Context {D : CartesianDim} {T : Type} `{Scalar T}.

(** ** Equation of state *)

Definition pressure (gamma rho u : T) : T := ((gamma - sofZ 1) * rho * u)%S.
Definition soundSpeed (gamma p rho : T) : T := ssqrt (gamma * p / rho)%S.

(** ** Density summation *)

Context (K : SphKernel T).

(** [AccumulateDensity]: own smoothing length, neighbour mass, own density. *)
Definition AccumulateDensity : Functor (T := T) T () T T :=
  mkFunctor T () T T smoothingLength density (fun _ => tt) mass
    (fun h _ m_j ctx acc => if isSelf ctx then acc else (acc + m_j * W K (ctx_r ctx) h)%S)
    set_density.

Definition DensityInitSelf (q : Particle T) : Particle T :=
  set_density (mass q * W K (sofZ 0) (smoothingLength q))%S q.

(** [UpdateDensity]: the self term, then the pairwise pass with the support radius. *)
Definition UpdateDensity (fuel frameSize : nat) (junk : T) (ord : nat -> list nat) (ords : nat -> nat -> list nat)
    (sources : list NeighbourEntry) (target : PRBuffer T) (index : FrameIndexBuffer) (h0 : T) (h : heap T)
    : option (heap T) :=
  h1 ← launchForEachParticle defaultForEach frameSize DensityInitSelf target index ord h;
  interact DefaultPolicy fuel frameSize junk ords sources target index (sofZ (supportRadius K) * h0)%S
    AccumulateDensity h1.

(** ** Pressure forces *)

Definition ZeroDerivatives (q : Particle T) : Particle T :=
  set_derivatives (for_each_tag (fun t u => vset u t (sofZ 0)) (dvdt q)) (sofZ 0) q.

(** The own-side reads, the prepared own side and the staged neighbour of [HydroInteraction]. *)
Record HydroReads : Type := mkReads { hr_h : T; hr_rho : T; hr_u : T; hr_v : storage T }.
Record StagedRecord : Type := mkStaged { pOverRho2 : T; st_mass : T; st_h : T; st_v : storage T }.

Definition hydro_reads (q : Particle T) : HydroReads :=
  mkReads (smoothingLength q) (density q) (internalEnergy q) (velocity q).

Definition hydro_prepare (gamma : T) (r : HydroReads) : T :=
  (pressure gamma (hr_rho r) (hr_u r) / (hr_rho r * hr_rho r))%S.

Definition hydro_stage (gamma : T) (q : Particle T) : StagedRecord :=
  mkStaged (pressure gamma (density q) (internalEnergy q) / (density q * density q))%S (mass q)
    (smoothingLength q) (vec_assign (broadcast (sofZ 0)) (velocity q)).

Definition hydro_call (r : HydroReads) (prep : T) (nb : StagedRecord) (ctx : PairContext)
    (acc : storage T * T) : storage T * T :=
  if isSelf ctx then acc else
  let s_i := gradWScalar K (ctx_r ctx) (invR ctx) (hr_h r) in
  let s_j := gradWScalar K (ctx_r ctx) (invR ctx) (st_h nb) in
  let term_i := (st_mass nb * prep)%S in
  let term_j := (st_mass nb * pOverRho2 nb)%S in
  let dv := for_each_tag (fun t u => vset u t (vget u t - (term_i * s_i + term_j * s_j) * vget (rVec ctx) t)%S) acc.1 in
  let dot_v_rVec := for_each_tag (fun t d => (d + (vget (hr_v r) t - vget (st_v nb) t) * vget (rVec ctx) t)%S) (sofZ 0) in
  (dv, (acc.2 + term_i * s_i * dot_v_rVec)%S).

Definition HydroInteraction (gamma : T) : Functor (T := T) HydroReads T StagedRecord (storage T * T) :=
  mkFunctor HydroReads T StagedRecord (storage T * T) hydro_reads (fun q => (dvdt q, dudt q))
    (hydro_prepare gamma) (hydro_stage gamma) hydro_call (fun a => set_derivatives a.1 a.2).

Definition UpdateHydroForces (gamma : T) (fuel frameSize : nat) (junk : StagedRecord) (ord : nat -> list nat)
    (ords : nat -> nat -> list nat) (sources : list NeighbourEntry) (target : PRBuffer T) (index : FrameIndexBuffer)
    (h0 : T) (h : heap T) : option (heap T) :=
  h1 ← launchForEachParticle defaultForEach frameSize ZeroDerivatives target index ord h;
  interact DefaultPolicy fuel frameSize junk ords sources target index (sofZ (supportRadius K) * h0)%S
    (HydroInteraction gamma) h1.

(** ** The tag sets are disjoint *)

#[export] Instance density_separation : FieldSeparation AccumulateDensity.
Proof. split; try done. by intros []. Qed.

#[export] Instance hydro_separation gamma : FieldSeparation (HydroInteraction gamma).
Proof. split; try done; [by intros [] p|by intros []]. Qed.

(** Both bodies write only accumulators of the functor that follows them. *)
Definition writes_only {Reads Prep Nb Acc} (fn : Functor (T := T) Reads Prep Nb Acc)
    (f : Particle T -> Particle T) : Prop := forall q, slot_sep fn q (f q).

Lemma density_init_sep : writes_only AccumulateDensity DensityInitSelf.
Proof. done. Qed.

Lemma zero_sep gamma : writes_only (HydroInteraction gamma) ZeroDerivatives.
Proof. done. Qed.

Lemma bodies_sep {Reads Prep Nb Acc} (fn : Functor (T := T) Reads Prep Nb Acc) f ps h h' :
  writes_only fn f -> bodies_applied f ps h h' -> heap_sep fn h h'.
Proof using Type.
  intros Hf Hb p. rewrite Hb. destruct (decide (p ∈ ps)); [|destruct (h !! p); constructor; apply frame_sep_refl].
  destruct (h !! p) as [fr|]; constructor. split; [done|]. simpl. induction (slots fr); constructor; [|done].
  unfold live_map. destruct (occupied _); [apply Hf|done].
Qed.
End hydro.
