(* ===== verification/HydroLaws.v ===== *)
(** * The physics of a step, over the real numbers

    The density stage computes the textbook SPH sum; the pressure forces conserve
    momentum and energy, pair by pair. *)
From Stdlib Require Import Reals Lra ZArith Lia.
From stdpp Require Import base sets list numbers gmap.
From S2P Require Import Prelude Scalar Topology Aabb FrameList Lockstep Regions Scan FrameIndex Launch ParticleLaunch NeighbourRegions Interaction InteractLaunch InteractGeometry Spline SphKernels Hydro.

Section laws.
Context {D : CartesianDim}.
Local Open Scope R_scope.

(** ** Distances *)

(** The distance the kernel computes is the distance of the particles. *)
Lemma pair_geometry_distance (a b : AABB R) (x y : storage R) :
  storage_wf (origin a) -> storage_wf (origin b) -> storage_wf x -> storage_wf y ->
  sqrt (pair_geometry x (shifted_pos (point_sub (origin b) (origin a)) y)).2 = particle_distance a b x y.
Proof.
  destruct a as [oa la ha], b as [ob lb hb]. simpl. intros Ha Hb Hx Hy.
  unfold particle_distance, norm2, getPosition, pair_geometry, shifted_pos, point_add, point_add_assign, point_sub,
    broadcast. simpl. vec_cases D; f_equal; ring.
Qed.

Lemma pair_geometry_nonneg (x y : storage R) : storage_wf x -> storage_wf y -> 0 <= (pair_geometry x y).2.
Proof.
  intros Hx Hy. pose proof (pair_geometry_component x y ax_x Hx Hy ax_x_tag).
  pose proof (Rle_0_sqr (vget x ax_x - vget y ax_x)). unfold Rsqr in *. lra.
Qed.

(** [r = r2 * rsqrt(r2)], with 0 for coincident particles, is the distance. *)
Lemma make_ctx_r g self : 0 <= g.2 -> ctx_r (make_ctx (T := R) g self) = sqrt g.2.
Proof.
  intros Hg. unfold make_ctx. simpl. destruct (Rltb 0 g.2) eqn:E.
  - apply Rltb_true in E. pose proof (sqrt_lt_R0 _ E) as Hs.
    rewrite <-(sqrt_sqrt g.2) at 1 by lra. field. lra.
  - apply Rltb_false in E. assert (g.2 = 0) as -> by lra. by rewrite sqrt_0.
Qed.

(** ** The density sum *)

Section density.
Context (K : SphKernel R) `{!SplineKernel K}.

Definition Rsum (l : list R) : R := foldr Rplus 0 l.

(** What the source [s] contributes to the particle in slot [i] of frame [ownPtr], at [x] in the box
    [v], with smoothing length [hi]: nothing if it is the particle itself. *)
Definition density_term (ownPtr : Z) (v : AABB R) (i : nat) (x : storage R) (hi : R) (s : Source (T := R) (Nb := R)) : R :=
  if ((ownPtr =? src_ptr s)%Z && (src_slot s =? i)%nat)%bool then 0
  else src_nb s * W K (particle_distance v (src_volume s) x (src_rel s)) hi.

Lemma source_step_density radius ownPtr v i (r : Registers) acc s :
  storage_wf (origin v) -> storage_wf (origin (src_volume s)) -> storage_wf (ownRel r) -> storage_wf (src_rel s) ->
  0 < ownReads r -> 0 <= radius -> IZR (supportRadius K) * ownReads r <= radius ->
  source_step (AccumulateDensity K) (radius * radius) ownPtr v i r acc s =
  acc + density_term ownPtr v i (ownRel r) (ownReads r) s.
Proof using Type*.
  intros Hv Hsv Hx Hy Hh Hr Hsup. unfold source_step, pair_step, density_term, source_pos.
  set (g := pair_geometry _ _).
  assert (Hg : 0 <= g.2).
  { apply pair_geometry_nonneg; [done|]. apply (vget_shifted_pos _ _ ax_x); [by apply point_sub_wf|done|apply ax_x_tag]. }
  assert (Hd : sqrt g.2 = particle_distance v (src_volume s) (ownRel r) (src_rel s)) by (by apply pair_geometry_distance).
  destruct (_ && _) eqn:Hself; simpl.
  - destruct (Rltb _ _); lra.
  - destruct (Rltb g.2 (radius * radius)) eqn:E.
    + pose proof (make_ctx_r g false Hg) as Hc. unfold make_ctx in Hc. simpl in Hc. rewrite Hc, Hd. done.
    + apply Rltb_false in E. assert (Hle : radius <= sqrt g.2) by (by apply le_sqrt_of_sq).
      rewrite <-Hd. destruct (kernel_beyond K (ownReads r) Hh (sqrt g.2)) as [-> _]; lra.
Qed.

Lemma foldl_density radius ownPtr v i (r : Registers) acc ss :
  storage_wf (origin v) -> storage_wf (ownRel r) ->
  (forall s, s ∈ ss -> storage_wf (origin (src_volume s)) /\ storage_wf (src_rel s)) ->
  0 < ownReads r -> 0 <= radius -> IZR (supportRadius K) * ownReads r <= radius ->
  foldl (source_step (AccumulateDensity K) (radius * radius) ownPtr v i r) acc ss =
  acc + Rsum (map (density_term ownPtr v i (ownRel r) (ownReads r)) ss).
Proof using Type*.
  intros Hv Hx Hs Hh Hr Hsup. revert acc. induction ss as [|s ss IH]; intros acc; simpl; [lra|].
  destruct (Hs s ltac:(by left)) as [H1 H2].
  rewrite IH by (intros; apply Hs; by right). rewrite source_step_density by done. lra.
Qed.

#[export] Instance density_commuting : Commuting (AccumulateDensity K).
Proof using Type.
  intros r p nb nb' c c' a. simpl. destruct (isSelf c), (isSelf c'); lra.
Qed.

(** The live particles of the sources have well-formed coordinates. *)
Lemma all_sources_wf {Reads Prep Nb Acc} (fn : Functor (T := R) Reads Prep Nb Acc) fuel frameSize m o h target
    (ss : list (PRBuffer R * list (list Z) * NeighbourEntry)) s :
  searches_ok fuel frameSize m o h target ss ->
  s ∈ (ss ≫= fun '(src, sfss, _) => all_sources fn h (src, sfss)) ->
  storage_wf (origin (src_volume s)) /\ storage_wf (src_rel s).
Proof using Type.
  intros Hok (((src & sfss) & e) & Hs & Hin)%list_elem_of_bind.
  destruct (proj1 (Forall_forall _ _) Hok _ Hin) as [Hso _]. unfold all_sources in Hs. simpl in Hs.
  apply list_elem_of_In, in_concat in Hs as (l & Hl & Hs). apply list_elem_of_In in Hl, Hs.
  apply list_elem_of_lookup_1 in Hl as [n Hn]. apply lookup_zip_with_Some in Hn as (nr & ps & -> & Hnr & Hps).
  destruct (so_boxed _ _ _ _ _ _ _ _ Hso n nr ps Hnr Hps) as (Hwf & _ & Hbox).
  destruct (region_sources_in fn h (volume nr) ps s Hs) as (p & fr & q & Hp & Hfr & Hq & Ho & Er & Ev & _).
  rewrite Er, Ev. split; [apply Hwf|]. by apply (Hbox p fr q).
Qed.
End density.

(** ** Stages: a body over the target, then an interaction with the sources *)

Section stage.
Context {Reads Prep Nb Acc : Type} (fn : Functor (T := R) Reads Prep Nb Acc) `{!FieldSeparation fn} `{!Commuting fn}.
#[local] Abbreviation search := (PRBuffer R * list (list Z) * NeighbourEntry (T := R))%type.

(** What a stage assumes of its target, its sources and the orders of its launches. *)
Record stage_ok (fuel frameSize : nat) (radius m : R) (o : storage R) (target : PRBuffer R)
    (index : FrameIndexBuffer) (fss : list (list Z)) (ss : list search) (ord : nat -> list nat)
    (ords : nat -> nat -> list nat) (h : heap R) : Prop := {
  st_target : target_ok fn radius target index fss h;
  st_boxes : search_target_ok o h target fss;
  st_sources : searches_ok fuel frameSize m o h target ss;
  st_frames : sized frameSize h (concat fss);
  st_total : (Z.of_nat (length (concat fss)) < 2 ^ 31)%Z;
  st_ord : forall n, ord n ≡ₚ seq 0 n;
  st_ords : orders_ok ords;
  st_radius : 0 <= radius <= m
}.

Lemma stage_spec fuel frameSize junk radius m o target index fss ss ord ords body h :
  writes_only fn body -> stage_ok fuel frameSize radius m o target index fss ss ord ords h ->
  exists h', (h1 ← launchForEachParticle defaultForEach frameSize body target index ord h;
              interact DefaultPolicy fuel frameSize junk ords (map snd ss) target index radius fn h1) = Some h' /\
    heap_sep fn h h' /\ (forall p, p ∉ concat fss -> h' !! p = h !! p) /\
    forall r tr ps p fr, regions_of target !! r = Some tr -> fss !! r = Some ps -> p ∈ ps ->
      h !! p = Some fr -> h' !! p = Some (frame_result fn (radius * radius) p (volume tr)
          (ss ≫= fun '(src, sfss, _) => all_sources fn h (src, sfss)) (frame_live_map body fr)).
Proof using FieldSeparation0 Commuting0.
  intros Hw [Ht Hb Hs Hf Htot Ho Hos Hr].
  destruct (launchForEachParticle_spec defaultForEach frameSize body target index ord h fss) as (h1 & E1 & Hb1);
    [done|simpl; lia|done|apply (to_fresh _ _ _ _ _ _ Ht)|apply (to_index _ _ _ _ _ _ Ht)|done|apply (to_nodup _ _ _ _ _ _ Ht)|exact Hf|].
  rewrite E1. cbn [mbind option_bind]. pose proof (bodies_sep fn body _ _ _ Hw Hb1) as Hsep.
  destruct (interact_all_pairs_spec fn fuel frameSize junk DefaultPolicy ords radius m o target index fss ss h1)
    as (h2 & E2 & Hres & Hsep2 & Hout); [by eapply target_ok_sep| |by eapply searches_ok_sep|done|done|].
  { destruct Hb as [Hwt Htb]. split; [done|by eapply regions_boxed_sep]. }
  exists h2. split_and!; [exact E2| | |].
  - by eapply heap_sep_trans.
  - intros p Hp. rewrite Hout by done. rewrite Hb1. by rewrite decide_False.
  - intros r tr ps p fr Htr Hps Hp Hfr.
    destruct (target_frame fn radius target index fss h r ps p Ht Hps Hp) as [Hpin _].
    assert (Hfr1 : h1 !! p = Some (frame_live_map body fr)) by (rewrite Hb1, decide_True, Hfr by done; done).
    rewrite (Hres r tr ps p _ Htr Hps Hp Hfr1). do 2 f_equal.
    apply bind_ext_in. intros [[src sfss] e] _. by apply all_sources_sep.
Qed.
End stage.

(** C13: the density stage computes the SPH density sum: every live particle of the target gets
    [m_i W(0, h_i)] plus the sum of [m_j W(|x_i - x_j|, h_i)] over all other live particles of all sources,
    at absolute distances, and nothing else changes.  The neighbour search, the frames,
    the cut at [supportRadius * h0] and the reciprocal square root all drop out when no smoothing
    length exceeds [h0]. *)
Theorem UpdateDensity_sum K fuel frameSize junk m o target index fss ss ord ords h0 h :
  K ∈ kernels -> 0 < h0 ->
  stage_ok (AccumulateDensity K) fuel frameSize (IZR (supportRadius K) * h0) m o target index fss ss ord ords h ->
  (forall p fr q, p ∈ concat fss -> h !! p = Some fr -> q ∈ slots fr -> occupied q = true ->
     0 < smoothingLength q <= h0) ->
  exists h', UpdateDensity K fuel frameSize junk ord ords (map snd ss) target index h0 h = Some h' /\
    (forall p, p ∉ concat fss -> h' !! p = h !! p) /\
    forall r tr ps p fr i q, regions_of target !! r = Some tr -> fss !! r = Some ps -> p ∈ ps ->
      h !! p = Some fr -> slots fr !! i = Some q -> exists fr', h' !! p = Some fr' /\ slots fr' !! i =
        Some (if occupied q then set_density (mass q * W K 0 (smoothingLength q) +
                Rsum (map (density_term K p (volume tr) i (relativePos q) (smoothingLength q))
                  (ss ≫= fun '(src, sfss, _) => all_sources (AccumulateDensity K) h (src, sfss)))) q else q).
Proof.
  intros HK Hh0 Hok Hsml. revert K HK Hok. apply (kernels_spline (fun K => stage_ok _ _ _ _ _ _ _ _ _ _ _ _ _ -> _)).
  intros K HK Hok. pose proof (sk_support (K := K)) as Hsup.
  destruct (stage_spec (AccumulateDensity K) fuel frameSize junk _ m o target index fss ss ord ords
    (DensityInitSelf K) h (density_init_sep K) Hok) as (h' & E & _ & Hout & Hres).
  exists h'. split_and!; [exact E|exact Hout|]. intros r tr ps p fr i q Htr Hps Hp Hfr Hq.
  rewrite (Hres r tr ps p fr Htr Hps Hp Hfr). eexists. split; [done|]. simpl.
  rewrite list_lookup_imap, list_lookup_fmap, Hq. simpl. f_equal. unfold live_map. destruct (occupied q) eqn:Ho.
  2:{ unfold particle_result, load_slot. by rewrite Ho. }
  destruct (st_boxes _ _ _ _ _ _ _ _ _ _ _ _ _ Hok) as [_ Htb]. destruct (Htb r tr ps Htr Hps) as (Hwf & _ & Hbx).
  assert (Hqin : q ∈ slots fr) by (by eapply list_elem_of_lookup_2).
  destruct (Hbx p fr q Hp Hfr Hqin Ho) as [Hxw _].
  destruct (target_frame _ _ _ _ _ _ r ps p (st_target _ _ _ _ _ _ _ _ _ _ _ _ _ Hok) Hps Hp) as [Hpin _].
  destruct (Hsml p fr q Hpin Hfr Hqin Ho) as [Hh Hhle].
  unfold particle_result, load_slot. change (occupied (DensityInitSelf K q)) with (occupied q). rewrite Ho. simpl.
  rewrite (foldl_density K); simpl; [done|apply Hwf|done| |done|nra|nra].
  intros s Hs. by eapply all_sources_wf; [apply (st_sources _ _ _ _ _ _ _ _ _ _ _ _ _ Hok)|].
Qed.

(** ** Conservation *)

(** A look at whole particles: the sources of a buffer with nothing staged away. *)
Definition observe : Functor (T := R) () () (Particle R) () :=
  mkFunctor () () (Particle R) () (fun _ => tt) (fun _ => tt) (fun _ => tt) (fun q => q) (fun _ _ _ _ a => a) (fun _ q => q).

Definition particles (h : heap R) (src : PRBuffer R * list (list Z)) : list (Source (T := R) (Nb := Particle R)) :=
  all_sources observe h src.

Definition restage {Nb Nb'} (f : Source (T := R) (Nb := Nb) -> Nb') (s : Source (T := R) (Nb := Nb)) : Source (T := R) (Nb := Nb') :=
  mkSource (src_volume s) (src_ptr s) (src_slot s) (src_rel s) (f s).

Lemma concat_zip_with_ext {A B C E} (g : A -> B -> list C) (g' : A -> B -> list E) (f : C -> E) l k :
  (forall n x y, l !! n = Some x -> k !! n = Some y -> g' x y = map f (g x y)) ->
  concat (zip_with g' l k) = map f (concat (zip_with g l k)).
Proof.
  revert k. induction l as [|x l IH]; intros [|y k] Hg; try done. cbn [zip_with concat].
  rewrite map_app, (Hg 0%nat x y) by done. f_equal. apply IH. intros n a b. apply (Hg (S n)).
Qed.

(** How the particles of a buffer relate in two heaps (or under two functors). *)
Lemma sources_map {Nb' Reads Prep Acc} (fn : Functor (T := R) Reads Prep Nb' Acc) h h'
    (f : Source (T := R) (Nb := Particle R) -> Nb') src :
  (forall n nr ps p, regions_of src.1 !! n = Some nr -> src.2 !! n = Some ps -> p ∈ ps ->
     match h !! p, h' !! p with
     | Some fr, Some fr' => exists g, slots fr' = imap g (slots fr) /\
         forall i q, slots fr !! i = Some q -> occupied (g i q) = occupied q /\ relativePos (g i q) = relativePos q /\
           (occupied q = true -> fn_stage fn (g i q) = f (mkSource (volume nr) p i (relativePos q) q))
     | None, None => True
     | _, _ => False end) ->
  all_sources fn h' src = map (restage f) (particles h src).
Proof.
  intros Hrel. unfold particles, all_sources. apply concat_zip_with_ext. intros n nr ps Hnr Hps.
  unfold region_sources. assert (Hrel' := fun p => Hrel n nr ps p Hnr Hps). clear Hrel Hps Hnr.
  induction ps as [|p ps IH]; [done|]. rewrite !bind_cons, map_app. f_equal.
  2:{ apply IH. intros p' Hp'. apply Hrel'. by right. }
  specialize (Hrel' p ltac:(by left)).
  destruct (h !! p) as [fr|], (h' !! p) as [fr'|]; try done. destruct Hrel' as (g & Hsl & Hg).
  unfold frame_sources. rewrite Hsl, length_imap.
  assert (Hgen : forall k, (forall i q, slots fr !! i = Some q -> occupied (g i q) = occupied q /\
      relativePos (g i q) = relativePos q /\
      (occupied q = true -> fn_stage fn (g i q) = f (mkSource (volume nr) p (k + i) (relativePos q) q))) ->
    omap (fun '(j, q) => if occupied q then Some (mkSource (volume nr) p j (relativePos q) (fn_stage fn q)) else None)
      (zip (seq k (length (slots fr))) (imap g (slots fr))) =
    map (restage f) (omap (fun '(j, q) => if occupied q then Some (mkSource (volume nr) p j (relativePos q)
      (fn_stage observe q)) else None) (zip (seq k (length (slots fr))) (slots fr)))); [|by apply (Hgen 0%nat)].
  clear Hg Hsl. revert g. induction (slots fr) as [|q qs IHq]; intros g k Hg; [done|].
  rewrite imap_cons. cbn [length seq zip zip_with omap list_omap].
  destruct (Hg 0%nat q eq_refl) as (Ho & Hr & Hst). rewrite Ho, Hr. rewrite Nat.add_0_r in Hst.
  assert (Htl := IHq (g ∘ S) (S k)). unfold zip in Htl |- *. rewrite Htl.
  2:{ intros i x Hx. rewrite Nat.add_succ_l, <-Nat.add_succ_r. by apply (Hg (S i)). }
  destruct (occupied q); [|done]. cbn [map]. by rewrite Hst.
Qed.

(** *** Sums *)

Lemma Rsum_add {A} (f g : A -> R) l : Rsum (map (fun a => f a + g a) l) = Rsum (map f l) + Rsum (map g l).
Proof. induction l as [|a l IH]; simpl; [lra|]. rewrite IH. lra. Qed.

Lemma Rsum_scal {A} c (f : A -> R) l : Rsum (map (fun a => c * f a) l) = c * Rsum (map f l).
Proof. induction l as [|a l IH]; simpl; [lra|]. rewrite IH. lra. Qed.

Lemma Rsum_ext {A} (f g : A -> R) l : (forall a, a ∈ l -> f a = g a) -> Rsum (map f l) = Rsum (map g l).
Proof.
  induction l as [|a l IH]; intros E; simpl; [done|]. rewrite E by (by left).
  rewrite IH; [done|]. intros b Hb. apply E. by right.
Qed.

Lemma Rsum_swap {A B} (f : A -> B -> R) l k :
  Rsum (map (fun a => Rsum (map (f a) k)) l) = Rsum (map (fun b => Rsum (map (fun a => f a b) l)) k).
Proof.
  induction l as [|a l IH]; simpl.
  - induction k as [|b k IHk]; simpl; lra.
  - rewrite IH. rewrite <-Rsum_add. done.
Qed.

(** The double sum of an antisymmetric exchange vanishes. *)
Lemma Rsum_antisym {A} (f : A -> A -> R) l :
  (forall a b, a ∈ l -> b ∈ l -> f a b = - f b a) -> Rsum (map (fun a => Rsum (map (f a) l)) l) = 0.
Proof.
  intros Hf. assert (E : Rsum (map (fun a => Rsum (map (f a) l)) l) = -1 * Rsum (map (fun a => Rsum (map (f a) l)) l)); [|lra].
  rewrite Rsum_swap at 1. rewrite <-Rsum_scal.
  apply Rsum_ext. intros b Hb. rewrite <-Rsum_scal. apply Rsum_ext. intros a Ha. rewrite (Hf a b Ha Hb). lra.
Qed.

(** Sums over the tags of the chart. *)
Definition tsum (f : axis -> R) : R := for_each_tag (fun t d => d + f t) 0.
Definition dot (u v : storage R) : R := tsum (fun t => vget u t * vget v t).

Lemma tsum_Rsum f : tsum f = Rsum (map f (cartesian_tags cs_dim)).
Proof.
  unfold tsum, for_each_tag. assert (Hg : forall l x, foldl (fun d t => d + f t) x l = x + Rsum (map f l)).
  { induction l as [|t l IH]; intros x; simpl; [lra|]. rewrite IH. lra. }
  rewrite Hg. lra.
Qed.

Lemma dot_ext u v u' v' :
  (forall t, t ∈ cartesian_tags cs_dim -> vget u t * vget v t = vget u' t * vget v' t) -> dot u v = dot u' v'.
Proof. intros E. unfold dot. rewrite !tsum_Rsum. by apply Rsum_ext. Qed.

Lemma dot_scal c u v w : (forall t, t ∈ cartesian_tags cs_dim -> vget v t = c * vget w t) -> dot u v = c * dot u w.
Proof.
  intros E. unfold dot. rewrite !tsum_Rsum, <-Rsum_scal. apply Rsum_ext. intros t Ht. rewrite E by done. lra.
Qed.

Lemma pair_geometry_wf (x y : storage R) : storage_wf x -> storage_wf y -> storage_wf (pair_geometry x y).1.
Proof. intros Hx Hy. unfold pair_geometry, broadcast. vec_cases D; done. Qed.

(** The displacement seen from the other particle. *)
Lemma pair_geometry_mirror (oa ob x y : storage R) :
  storage_wf oa -> storage_wf ob -> storage_wf x -> storage_wf y ->
  let g := pair_geometry x (shifted_pos (point_sub ob oa) y) in
  let g' := pair_geometry y (shifted_pos (point_sub oa ob) x) in
  g'.2 = g.2 /\ storage_wf g.1 /\ storage_wf g'.1 /\
  forall t, t ∈ cartesian_tags cs_dim -> vget g'.1 t = -1 * vget g.1 t.
Proof.
  intros Ha Hb Hx Hy g g'.
  assert (Hs : forall p q z : storage R, storage_wf p -> storage_wf q -> storage_wf z -> storage_wf (shifted_pos (point_sub p q) z)).
  { intros p q z Hp Hq Hz. apply (vget_shifted_pos _ _ ax_x); [by apply point_sub_wf|done|apply ax_x_tag]. }
  split; [|split; [|split]]; [|apply pair_geometry_wf; auto..|].
  - subst g g'. unfold pair_geometry, shifted_pos, point_sub, broadcast. vec_cases D; ring.
  - intros t Ht. subst g g'. unfold pair_geometry, shifted_pos, point_sub, broadcast. vec_cases D;
      repeat (apply elem_of_cons in Ht as [->|Ht]; [cbv [decide decide_rel axis_eq_dec]; simpl; ring|]);
      by apply elem_of_nil in Ht.
Qed.

(** *** The exchange of a pair *)

Section exchange.
Context (K : SphKernel R) (gamma radius : R).
#[local] Abbreviation fn := (HydroInteraction K gamma).
#[local] Abbreviation psource := (Source (T := R) (Nb := Particle R)).

Definition staged (s : psource) : Source (T := R) (Nb := StagedRecord) :=
  restage (fun s => hydro_stage gamma (src_nb s)) s.

(** The registers of the particle [a] with accumulators [acc]. *)
Definition hydro_regs (a : psource) (acc : storage R * R) : Registers :=
  mkRegs (src_rel a) (hydro_reads (src_nb a)) acc (hydro_prepare gamma (hydro_reads (src_nb a))).

Definition hydro_step (a : psource) (acc : storage R * R) (b : psource) : storage R * R :=
  source_step fn (radius * radius) (src_ptr a) (src_volume a) (src_slot a) (hydro_regs a acc) acc (staged b).

(** The rate of change [b] causes at [a]. *)
Definition pair_rate (a b : psource) : storage R * R := hydro_step a (broadcast 0, 0) b.

Definition psource_wf (a : psource) : Prop :=
  storage_wf (origin (src_volume a)) /\ storage_wf (src_rel a) /\ storage_wf (velocity (src_nb a)) /\
  storage_wf (dvdt (src_nb a)).

(** The displacement of a pair, and whether it interacts. *)
Definition pair_geo (a b : psource) : storage R * R :=
  pair_geometry (src_rel a) (shifted_pos (point_sub (origin (src_volume b)) (origin (src_volume a))) (src_rel b)).
Definition interacts (a b : psource) : bool :=
  (Rltb (pair_geo a b).2 (radius * radius) &&
   negb ((src_ptr a =? src_ptr b)%Z && (src_slot b =? src_slot a)%nat))%bool.

Definition p_over_rho2 (a : psource) : R := hydro_prepare gamma (hydro_reads (src_nb a)).
(** [gradWScalar] at the distance of the pair, for the smoothing length of [c]. *)
Definition grad_factor (a b c : psource) : R :=
  gradWScalar K (ctx_r (make_ctx (pair_geo a b) false)) (invR (make_ctx (pair_geo a b) false)) (smoothingLength (src_nb c)).

Definition accel_factor (a b : psource) : R :=
  if interacts a b then
    mass (src_nb b) * p_over_rho2 a * grad_factor a b a + mass (src_nb b) * p_over_rho2 b * grad_factor a b b
  else 0.
Definition heat_factor (a b : psource) : R :=
  if interacts a b then mass (src_nb b) * p_over_rho2 a * grad_factor a b a else 0.

Lemma vec_assign_broadcast (v : storage R) : storage_wf v -> vec_assign (broadcast 0) v = v.
Proof using Type. intros Hv. apply vec_assign_eq; [apply broadcast_wf|done]. Qed.

Lemma hydro_step_spec a acc b :
  psource_wf a -> psource_wf b -> storage_wf acc.1 ->
  storage_wf (hydro_step a acc b).1 /\
  (forall t, t ∈ cartesian_tags cs_dim ->
     vget (hydro_step a acc b).1 t = vget acc.1 t - accel_factor a b * vget (pair_geo a b).1 t) /\
  (hydro_step a acc b).2 = acc.2 + heat_factor a b *
    tsum (fun t => (vget (velocity (src_nb a)) t - vget (velocity (src_nb b)) t) * vget (pair_geo a b).1 t).
Proof using Type.
  intros (Hoa & Hra & Hva & _) (Hob & Hrb & Hvb & _) Hacc.
  unfold hydro_step, source_step, pair_step, accel_factor, heat_factor, interacts.
  change (pair_geometry (ownRel (hydro_regs a acc)) (source_pos (src_volume a) (staged b))) with (pair_geo a b).
  change (src_ptr (staged b)) with (src_ptr b). change (src_slot (staged b)) with (src_slot b). simpl (_ <? _)%S.
  destruct (Rltb (pair_geo a b).2 (radius * radius)); cbn [andb]; [|split_and!; intros; lra || done].
  destruct ((src_ptr a =? src_ptr b)%Z && (src_slot b =? src_slot a)%nat); cbn [negb].
  { cbn. split_and!; intros; lra || done. }
  cbn [fn_call HydroInteraction]. unfold hydro_call. cbn [isSelf make_ctx].
  destruct (for_each_tag_vset (fun t x => (x - (mass (src_nb b) * p_over_rho2 a * grad_factor a b a +
    mass (src_nb b) * p_over_rho2 b * grad_factor a b b) * vget (pair_geo a b).1 t)) acc.1 Hacc) as [Hw Hv].
  split_and!; [exact Hw|exact Hv|]. simpl st_v. rewrite vec_assign_broadcast by done. reflexivity.
Qed.

Lemma interacts_sym a b :
  psource_wf a -> psource_wf b -> interacts b a = interacts a b.
Proof using Type.
  intros (Hoa & Hra & _) (Hob & Hrb & _). unfold interacts, pair_geo.
  destruct (pair_geometry_mirror _ _ _ _ Hoa Hob Hra Hrb) as [-> _].
  by rewrite Z.eqb_sym, Nat.eqb_sym.
Qed.

Lemma grad_factor_sym a b c : psource_wf a -> psource_wf b -> grad_factor b a c = grad_factor a b c.
Proof using Type.
  intros (Hoa & Hra & _) (Hob & Hrb & _). unfold grad_factor, pair_geo, make_ctx. simpl.
  destruct (pair_geometry_mirror _ _ _ _ Hoa Hob Hra Hrb) as [E _]. simpl in E. by rewrite E.
Qed.

(** Action equals reaction, for the momentum and for the total energy of a pair. *)
Definition momentum_rate (t : axis) (a b : psource) : R := mass (src_nb a) * vget (pair_rate a b).1 t.
Definition energy_rate (a b : psource) : R :=
  mass (src_nb a) * (dot (velocity (src_nb a)) (pair_rate a b).1 + (pair_rate a b).2).

Lemma momentum_antisym t a b :
  t ∈ cartesian_tags cs_dim -> psource_wf a -> psource_wf b -> momentum_rate t a b = - momentum_rate t b a.
Proof using Type.
  intros Ht Ha Hb. unfold momentum_rate, pair_rate.
  destruct (hydro_step_spec a (broadcast 0, 0) b Ha Hb (broadcast_wf _)) as (_ & Ea & _).
  destruct (hydro_step_spec b (broadcast 0, 0) a Hb Ha (broadcast_wf _)) as (_ & Eb & _).
  pose proof Ha as (Hoa & Hra & _). pose proof Hb as (Hob & Hrb & _).
  destruct (pair_geometry_mirror _ _ _ _ Hoa Hob Hra Hrb) as (_ & _ & _ & Hm). fold (pair_geo a b) (pair_geo b a) in Hm.
  rewrite Ea, Eb, (Hm t) by done. simpl fst. pose proof (vget_zero t Ht) as Hz. rewrite Hz.
  unfold accel_factor. rewrite (interacts_sym a b), (grad_factor_sym a b a), (grad_factor_sym a b b) by done.
  destruct (interacts a b); ring.
Qed.

Lemma energy_antisym a b : psource_wf a -> psource_wf b -> energy_rate a b = - energy_rate b a.
Proof using Type.
  intros Ha Hb. unfold energy_rate, pair_rate.
  destruct (hydro_step_spec a (broadcast 0, 0) b Ha Hb (broadcast_wf _)) as (_ & Ea & Ea2).
  destruct (hydro_step_spec b (broadcast 0, 0) a Hb Ha (broadcast_wf _)) as (_ & Eb & Eb2).
  pose proof Ha as (Hoa & Hra & _). pose proof Hb as (Hob & Hrb & _).
  destruct (pair_geometry_mirror _ _ _ _ Hoa Hob Hra Hrb) as (_ & _ & _ & Hm). fold (pair_geo a b) (pair_geo b a) in Hm.
  rewrite Ea2, Eb2. simpl snd.
  set (w := (pair_geo a b).1) in *. set (w' := (pair_geo b a).1) in *.
  rewrite (dot_scal (- accel_factor a b) _ _ w); [|intros t Ht; rewrite (Ea t Ht); simpl; pose proof (vget_zero t Ht) as Hz; rewrite Hz; ring].
  rewrite (dot_scal (accel_factor b a) (velocity (src_nb b)) (hydro_step b (broadcast 0, 0) a).1 w); [|intros t Ht; rewrite (Eb t Ht), (Hm t Ht); simpl; pose proof (vget_zero t Ht) as Hz; rewrite Hz; ring].
  assert (Hd : forall u v, tsum (fun t => (vget u t - vget v t) * vget w t) = dot u w - dot v w).
  { intros u v. unfold dot. rewrite !tsum_Rsum.
    transitivity (Rsum (map (fun t => vget u t * vget w t + -1 * (vget v t * vget w t)) (cartesian_tags cs_dim))).
    - apply Rsum_ext. intros; ring.
    - rewrite Rsum_add, Rsum_scal. ring. }
  assert (Hd' : forall u v, tsum (fun t => (vget u t - vget v t) * vget w' t) = dot v w - dot u w).
  { intros u v. rewrite <-Hd. rewrite !tsum_Rsum. apply Rsum_ext. intros t Ht. rewrite (Hm t Ht). ring. }
  rewrite Hd, Hd'. unfold accel_factor, heat_factor.
  rewrite (interacts_sym a b), (grad_factor_sym a b a), (grad_factor_sym a b b) by done.
  destruct (interacts a b); ring.
Qed.
End exchange.

(** *** A closed system *)

(** The accelerations of a pair loop add up in any order, whatever the accumulators. *)
Lemma axpy_comm (c c' : R) (w w' u : storage R) :
  let f := fun c w => for_each_tag (fun t u => vset u t (vget u t - c * vget w t)) in
  f c w (f c' w' u) = f c' w' (f c w u).
Proof.
  unfold vset, vget, for_each_tag. dim_cases D; simpl;
    destruct u as [|x [|y [|z u]]]; simpl; try done; repeat (apply (f_equal2 cons); [ring|]); done.
Qed.

#[export] Instance hydro_commuting K gamma : Commuting (HydroInteraction K gamma).
Proof.
  intros r p nb nb' c c' [dv du]. simpl. unfold hydro_call.
  destruct (isSelf c), (isSelf c'); try done. simpl. f_equal; [apply axpy_comm|ring].
Qed.

Section closed.
Context (K : SphKernel R) (gamma radius : R).
#[local] Abbreviation fn := (HydroInteraction K gamma).
#[local] Abbreviation psource := (Source (T := R) (Nb := Particle R)).

Lemma foldl_hydro (a : psource) acc0 acc (bs : list psource) :
  psource_wf a -> (forall b, b ∈ bs -> psource_wf b) -> storage_wf acc.1 ->
  let res := foldl (source_step fn (radius * radius) (src_ptr a) (src_volume a) (src_slot a) (hydro_regs gamma a acc0))
               acc (map (staged gamma) bs) in
  storage_wf res.1 /\
  (forall t, t ∈ cartesian_tags cs_dim ->
     vget res.1 t = vget acc.1 t + Rsum (map (fun b => vget (pair_rate K gamma radius a b).1 t) bs)) /\
  res.2 = acc.2 + Rsum (map (fun b => (pair_rate K gamma radius a b).2) bs).
Proof using Type.
  intros Ha. revert acc. induction bs as [|b bs IH]; intros acc Hbs Hacc; simpl.
  { split_and!; [done|intros; lra|lra]. }
  change (source_step fn (radius * radius) (src_ptr a) (src_volume a) (src_slot a) (hydro_regs gamma a acc0) acc
            (staged gamma b)) with (hydro_step K gamma radius a acc b).
  assert (Hb : psource_wf b) by (apply Hbs; by left).
  destruct (hydro_step_spec K gamma radius a acc b Ha Hb Hacc) as (Hw & Hv & H2).
  destruct (hydro_step_spec K gamma radius a (broadcast 0, 0) b Ha Hb (broadcast_wf _)) as (_ & Hv0 & H20).
  destruct (IH (hydro_step K gamma radius a acc b)) as (I1 & I2 & I3); [intros; apply Hbs; by right|exact Hw|].
  split_and!; [exact I1| |].
  - intros t Ht. rewrite I2, Hv by done. unfold pair_rate. rewrite (Hv0 t Ht). simpl fst.
    pose proof (vget_zero t Ht) as Hz. rewrite Hz. lra.
  - rewrite I3, H2. unfold pair_rate. rewrite H20. simpl snd. lra.
Qed.

(** The particle [a] after the stage, in a system of the particles [bs]. *)
Definition hydro_result (bs : list psource) (a : psource) : Particle R :=
  particle_result fn (radius * radius) (src_ptr a) (src_volume a) (map (staged gamma) bs) (src_slot a)
    (ZeroDerivatives (src_nb a)).

Lemma hydro_result_spec bs a :
  psource_wf a -> (forall b, b ∈ bs -> psource_wf b) -> occupied (src_nb a) = true ->
  relativePos (src_nb a) = src_rel a ->
  mass (hydro_result bs a) = mass (src_nb a) /\ velocity (hydro_result bs a) = velocity (src_nb a) /\
  (forall t, t ∈ cartesian_tags cs_dim ->
     vget (dvdt (hydro_result bs a)) t = Rsum (map (fun b => vget (pair_rate K gamma radius a b).1 t) bs)) /\
  dudt (hydro_result bs a) = Rsum (map (fun b => (pair_rate K gamma radius a b).2) bs).
Proof using Type.
  intros Ha Hbs Ho Hrel. unfold hydro_result, particle_result, load_slot.
  change (occupied (ZeroDerivatives (src_nb a))) with (occupied (src_nb a)). rewrite Ho. simpl. rewrite Hrel.
  destruct (for_each_tag_vset (fun _ _ => 0) (dvdt (src_nb a)) ltac:(apply Ha)) as [Hzw Hz].
  set (z := for_each_tag (fun t u => vset u t 0) (dvdt (src_nb a))) in *.
  destruct (foldl_hydro a (z, 0) (z, 0) bs Ha Hbs Hzw) as (_ & Hv & H2).
  split_and!; [done|done| |].
  - intros t Ht. etransitivity; [apply (Hv t Ht)|]. simpl fst. rewrite (Hz t Ht). lra.
  - etransitivity; [apply H2|]. simpl. lra.
Qed.

(** The totals over a system whose particles act on each other only. *)
Lemma closed_momentum bs t :
  (forall b, b ∈ bs -> psource_wf b /\ occupied (src_nb b) = true /\ relativePos (src_nb b) = src_rel b) ->
  t ∈ cartesian_tags cs_dim ->
  Rsum (map (fun a => mass (hydro_result bs a) * vget (dvdt (hydro_result bs a)) t) bs) = 0.
Proof using Type.
  intros Hbs Ht. rewrite <-(Rsum_antisym (momentum_rate K gamma radius t) bs).
  - apply Rsum_ext. intros a Ha. destruct (Hbs a Ha) as (Hw & Ho & Hr).
    destruct (hydro_result_spec bs a Hw (fun b Hb => proj1 (Hbs b Hb)) Ho Hr) as (Em & _ & Ev & _).
    rewrite Em, (Ev t Ht), <-Rsum_scal. done.
  - intros a b Ha Hb. apply momentum_antisym; [done|by apply Hbs|by apply Hbs].
Qed.

Lemma dot_Rsum {A} (u : storage R) (f : A -> storage R) (w : storage R) l :
  (forall t, t ∈ cartesian_tags cs_dim -> vget w t = Rsum (map (fun b => vget (f b) t) l)) ->
  dot u w = Rsum (map (fun b => dot u (f b)) l).
Proof using Type.
  intros Hw. unfold dot. rewrite tsum_Rsum.
  transitivity (Rsum (map (fun t => Rsum (map (fun b => vget u t * vget (f b) t) l)) (cartesian_tags cs_dim))).
  - apply Rsum_ext. intros t Ht. rewrite (Hw t Ht). by rewrite Rsum_scal.
  - rewrite Rsum_swap. apply Rsum_ext. intros b _. by rewrite tsum_Rsum.
Qed.

Lemma closed_energy bs :
  (forall b, b ∈ bs -> psource_wf b /\ occupied (src_nb b) = true /\ relativePos (src_nb b) = src_rel b) ->
  Rsum (map (fun a => mass (hydro_result bs a) *
    (dot (velocity (hydro_result bs a)) (dvdt (hydro_result bs a)) + dudt (hydro_result bs a))) bs) = 0.
Proof using Type.
  intros Hbs. rewrite <-(Rsum_antisym (energy_rate K gamma radius) bs).
  - apply Rsum_ext. intros a Ha. destruct (Hbs a Ha) as (Hw & Ho & Hr).
    destruct (hydro_result_spec bs a Hw (fun b Hb => proj1 (Hbs b Hb)) Ho Hr) as (Em & Evel & Ev & Eu).
    rewrite Em, Evel, Eu, (dot_Rsum _ (fun b => (pair_rate K gamma radius a b).1) _ bs Ev), <-Rsum_add, <-Rsum_scal.
    done.
  - intros a b Ha Hb. apply energy_antisym; by apply Hbs.
Qed.
End closed.

Lemma particles_live h src a :
  a ∈ particles h src -> occupied (src_nb a) = true /\ relativePos (src_nb a) = src_rel a.
Proof.
  unfold particles, all_sources. intros Ha.
  apply list_elem_of_In, in_concat in Ha as (l & Hl & Ha). apply list_elem_of_In in Hl, Ha.
  apply list_elem_of_lookup_1 in Hl as [n Hn]. apply lookup_zip_with_Some in Hn as (nr & ps & -> & _ & _).
  destruct (region_sources_in observe h (volume nr) ps a Ha) as (p & fr & q & _ & _ & _ & Ho & Er & _ & ->).
  by split.
Qed.

Lemma restage_eq {Nb} (f : Source (T := R) (Nb := Particle R) -> Nb) l :
  forall g : Nb -> R, map (fun s => g (src_nb s)) (map (restage f) l) = map (fun s => g (f s)) l.
Proof. intros g. by rewrite map_map. Qed.

(** C7: in a system whose only source is the target itself, the pressure stage conserves momentum and energy
    exactly: over all live particles, the masses times the computed accelerations sum to zero in every
    coordinate, and so do the masses times [v . dv/dt + du/dt].  This holds for either
    kernel, any smoothing lengths, any gamma and any choice of frames, regions and launch orders. *)
Theorem UpdateHydroForces_conserves K gamma fuel frameSize junk m o target index fss e ord ords h0 h :
  stage_ok (HydroInteraction K gamma) fuel frameSize (IZR (supportRadius K) * h0) m o target index fss
    [(target, fss, e)] ord ords h ->
  (forall a, a ∈ particles h (target, fss) -> psource_wf a) ->
  exists h', UpdateHydroForces K gamma fuel frameSize junk ord ords [e] target index h0 h = Some h' /\
    (forall t, t ∈ cartesian_tags cs_dim ->
       Rsum (map (fun a => mass (src_nb a) * vget (dvdt (src_nb a)) t) (particles h' (target, fss))) = 0) /\
    Rsum (map (fun a => mass (src_nb a) * (dot (velocity (src_nb a)) (dvdt (src_nb a)) + dudt (src_nb a)))
            (particles h' (target, fss))) = 0.
Proof.
  intros Hok Hwf. set (radius := IZR (supportRadius K) * h0) in *. set (bs := particles h (target, fss)).
  destruct (stage_spec (HydroInteraction K gamma) fuel frameSize junk radius m o target index fss
    [(target, fss, e)] ord ords ZeroDerivatives h (zero_sep K gamma) Hok) as (h' & E & _ & _ & Hres).
  exists h'. split; [exact E|].
  assert (Hsrc : all_sources (HydroInteraction K gamma) h (target, fss) = map (staged gamma) bs).
  { apply sources_map. intros n nr ps p _ _ _. destruct (h !! p) as [fr|]; [|done].
    exists (fun _ q => q). split; [|done]. apply list_eq. intros i. rewrite list_lookup_imap. by destruct (slots fr !! i). }
  assert (Hpart : particles h' (target, fss) = map (restage (hydro_result K gamma radius bs)) bs).
  { apply sources_map. intros n nr ps p Hnr Hps Hp. simpl in Hnr, Hps.
    destruct (target_frame _ _ _ _ _ _ n ps p (st_target _ _ _ _ _ _ _ _ _ _ _ _ _ Hok) Hps Hp) as [_ [fr Hfr]].
    rewrite Hfr, (Hres n nr ps p fr Hnr Hps Hp Hfr). rewrite bind_cons, app_nil_r, Hsrc.
    set (f := fun i q => particle_result (HydroInteraction K gamma) (radius * radius) p (volume nr)
                (map (staged gamma) bs) i (live_map ZeroDerivatives q)).
    exists f. split.
    - simpl. apply list_eq. intros i. rewrite !list_lookup_imap, list_lookup_fmap. by destruct (slots fr !! i).
    - intros i q _. unfold f.
      destruct (particle_result_sep (HydroInteraction K gamma) (radius * radius) p (volume nr)
        (map (staged gamma) bs) i (live_map ZeroDerivatives q)) as (E1 & E2 & _).
      rewrite E1, E2. unfold live_map. destruct (occupied q) eqn:Ho; split_and!; done. }
  rewrite Hpart.
  assert (Hbs : forall b, b ∈ bs -> psource_wf b /\ occupied (src_nb b) = true /\ relativePos (src_nb b) = src_rel b).
  { intros b Hb. split; [by apply Hwf|]. by eapply particles_live. }
  split.
  - intros t Ht. rewrite (restage_eq _ _ (fun q => mass q * vget (dvdt q) t)). by apply closed_momentum.
  - rewrite (restage_eq _ _ (fun q => mass q * (dot (velocity q) (dvdt q) + dudt q))). by apply closed_energy.
Qed.
End laws.

(** ** Witnesses *)

Section witness.
#[local] Existing Instance dim1.
Local Open Scope R_scope.

Lemma stage_ok_R {Reads Prep Nb Acc} (fn : Functor (T := R) Reads Prep Nb Acc) radius e :
  0 <= radius <= 3 -> computed 3 prR prR e ->
  stage_ok fn 4 2 radius 3 [0] prR indexR [[16%Z]] [(prR, [[16%Z]], e)] (seq 0) (fun _ n => seq 0 n) heapR.
Proof.
  intros Hr He. constructor.
  - by apply target_ok_R.
  - split; [by split; simpl; lia|exact heapR_boxed].
  - apply Forall_singleton. split; [exact search_ok_R|exact He].
  - intros p ->%list_elem_of_singleton. by exists frameR.
  - done.
  - done.
  - by intros i n.
  - exact Hr.
Qed.

Lemma UpdateDensity_sum_witness :
  exists e h' fr' rest, UpdateDensity CubicSplineKernel 4 2 0 (seq 0) (fun _ n => seq 0 n) [e] prR indexR (3 / 2) heapR
      = Some h' /\ h' !! 16%Z = Some fr' /\
    slots fr' !! 0%nat = Some (set_density (5 * W CubicSplineKernel 0 1 + Rsum rest) (partR 1)).
Proof.
  destruct computed_R as [e He].
  destruct (UpdateDensity_sum CubicSplineKernel 4 2 0 3 [0] prR indexR [[16%Z]] [(prR, [[16%Z]], e)]
    (seq 0) (fun _ n => seq 0 n) (3 / 2) heapR) as (h' & E & _ & Hres).
  - by left.
  - lra.
  - apply stage_ok_R; [simpl; lra|exact He].
  - intros p fr q ->%list_elem_of_singleton Hfr Hq Ho. simpl in Hfr. injection Hfr as <-.
    rewrite (slots_frameR q Hq Ho). simpl. lra.
  - destruct (Hres 0%nat regionR [16%Z] 16%Z frameR 0%nat (partR 1)) as (fr' & Hfr' & Hs);
      [reflexivity..|by left|reflexivity|reflexivity|].
    exists e, h', fr'. eexists. split; [exact E|]. split; [exact Hfr'|exact Hs].
Defined.

Lemma UpdateHydroForces_conserves_witness :
  exists e h', UpdateHydroForces CubicSplineKernel (5 / 3) 4 2 (mkStaged 0 0 0 [0]) (seq 0) (fun _ n => seq 0 n) [e]
      prR indexR (3 / 2) heapR = Some h' /\
    Rsum (map (fun a => mass (src_nb a) * vget (dvdt (src_nb a)) ax_x) (particles h' (prR, [[16%Z]]))) = 0.
Proof.
  destruct computed_R as [e He].
  destruct (UpdateHydroForces_conserves CubicSplineKernel (5 / 3) 4 2 (mkStaged 0 0 0 [0]) 3 [0] prR indexR [[16%Z]] e
    (seq 0) (fun _ n => seq 0 n) (3 / 2) heapR) as (h' & E & Hm & _).
  - apply stage_ok_R; [simpl; lra|exact He].
  - intros a Ha. unfold particles, all_sources in Ha. simpl in Ha. rewrite app_nil_r in Ha.
    change (regions_of prR) with [regionR] in Ha. simpl in Ha.
    apply list_elem_of_singleton in Ha as ->. split_and!; reflexivity.
  - exists e, h'. split; [exact E|]. apply Hm. by left.
Defined.
End witness.
