(* ===== verification/Step.v ===== *)
(** * One time step

    Models particles/pusher/{PushVelocity,EulerIntegrate}.hpp and
    [Simulation::runOneStep] (control/Simulation.x.cpp): which buffers take part, and the stages in
    order - refresh of the frame indices, push, region bounds, neighbour search, density, pressure
    forces, integration.  The region buffers are objects at addresses that the data connector knows
    by identifier.  What the back end chooses (orders of blocks, schedules, garbage in fresh
    memory) is a parameter of the step. *)
From Stdlib Require Import ZArith Lia.
From stdpp Require Import base sets list numbers strings gmap functions.
From S2P Require Import Prelude Outcome DataConnector Species Scalar Topology Aabb FrameList Lockstep Regions Scan FrameIndex Launch ParticleLaunch RegionBounds NeighbourRegions Interaction InteractLaunch SphKernels Hydro.

Section step.
Context {D : CartesianDim} {T : Type} `{Scalar T} `{IdxMaps}.

(** ** The bodies of the integrator *)

Definition PushVelocity (delt : T) (view : Particle T) : Particle T :=
  set_relativePos (for_each_tag (fun t x => vset x t (vget x t + vget (velocity view) t * delt)%S) (relativePos view)) view.

Definition EulerIntegrate (delt : T) (particle : Particle T) : Particle T :=
  let particle := set_velocity
    (for_each_tag (fun t v => vset v t (vget v t + vget (dvdt particle) t * delt)%S) (velocity particle)) particle in
  set_internalEnergy (internalEnergy particle + dudt particle * delt)%S particle.

(** ** The state of a step *)

Record Simulation : Type := mkSimulation {
  registry : DataConnector (X := Z);        (* addresses of the region buffers *)
  buffers : gmap Z (PRBuffer T);
  frames : heap T;
  frameIndices : species -> FrameIndexBuffer
}.

Definition set_buffer (a : Z) (b : PRBuffer T) (s : Simulation) : Simulation :=
  mkSimulation (registry s) (<[a := b]> (buffers s)) (frames s) (frameIndices s).
Definition set_frames (h : heap T) (s : Simulation) : Simulation :=
  mkSimulation (registry s) (buffers s) h (frameIndices s).
Definition set_index (sp : species) (ix : FrameIndexBuffer) (s : Simulation) : Simulation :=
  mkSimulation (registry s) (buffers s) (frames s) (<[sp := ix]> (frameIndices s)).

(** The choices of the back end in one step. *)
Record Backend : Type := mkBackend {
  walkFuel : nat;                                   (* bound on the walks along a frame list *)
  boundsWorkers : nat; searchWorkers : nat;
  junk : Z; junkScalar : T; junkStaged : StagedRecord (T := T);
  countOrder : species -> list nat; fillOrder : species -> list nat;
  launchOrder : nat -> species -> nat -> list nat;  (* by launch and species *)
  boundsOrder : nat -> list nat;
  searchCount : species -> list nat; searchWrite : species -> list nat;
  searchSchedule : species -> nat -> list nat;
  pairOrder : nat -> nat -> nat -> list nat;        (* by interaction *)
  arrange : nat -> list (species * Z) -> list (species * Z)   (* of the branches of a whenAll *)
}.

Context (K : SphKernel T) (dt gamma h0 : T) (frameSize : nat) (be : Backend).

(** What no C++ execution gets past without an error has no outcome. *)
Definition attempt {A} (o : option A) : Host Simulation A :=
  lift (match o with Some a => Ret a | None => Undefined end).

Definition bufferAt (a : Z) : Host Simulation (PRBuffer T) := s ← get_state; attempt (buffers s !! a).

(** [refreshIfStaleSender] on the index of the buffer. *)
Definition refresh (b : species * Z) : Host Simulation unit :=
  buf ← bufferAt b.2; s ← get_state;
  ix ← attempt (refreshIfStale (walkFuel be) (junk be) (countOrder be b.1) (fillOrder be b.1) (frames s) buf
                  (frameIndices s b.1));
  modify (set_index b.1 ix).

(** [launchForEach(levels::particle, buffer, indexFor(buffer), body, dt)]. *)
Definition launch (n : nat) (body : Particle T -> Particle T) (b : species * Z) : Host Simulation unit :=
  buf ← bufferAt b.2; s ← get_state;
  h ← attempt (launchForEachParticle defaultForEach frameSize body buf (frameIndices s b.1) (launchOrder be n b.1) (frames s));
  modify (set_frames h).

Definition updateVolumes (a : Z) : Host Simulation unit :=
  buf ← bufferAt a; s ← get_state;
  buf ← attempt (UpdateVolumes (walkFuel be) frameSize (boundsWorkers be) (boundsOrder be) (frames s) buf);
  modify (set_buffer a buf).

(** [calculateNeighboursSender]: one entry per source, as an owning bundle. *)
Fixpoint neighbourEntries (target : PRBuffer T) (h : T) (sources : list (species * Z))
    : Host Simulation (list (species * NeighbourEntry)) :=
  match sources with
  | [] => mret []
  | b :: sources =>
      src ← bufferAt b.2;
      e ← attempt (calculateNeighbourEntry (searchWorkers be) (junk be) (searchCount be b.1) (searchWrite be b.1)
                     (searchSchedule be b.1) target src h);
      es ← neighbourEntries target h sources; mret ((b.1, e) :: es)
  end.
Definition calculateNeighbours (a : Z) (h : T) (sources : list (species * Z)) : Host Simulation (NeighbourBundle NeighbourEntry) :=
  target ← bufferAt a; es ← neighbourEntries target h sources; mret (makeNeighbourBundle es).

(** A stage of the hydrodynamics on the default species. *)
Definition stage (a : Z) (f : PRBuffer T -> FrameIndexBuffer -> heap T -> option (heap T)) : Host Simulation unit :=
  buf ← bufferAt a; s ← get_state; h ← attempt (f buf (frameIndices s Default) (frames s)); modify (set_frames h).

(** The callback of [runOneStep] on the pack of present buffers. *)
Definition timestep (bufs : list (species * Z)) : Host Simulation unit :=
  match head (filter (fun b => b.1 = Default) bufs) with
  | None => mret tt
  | Some (_, defaultBuffer) =>
      let movable := selectBuffers [Movable] bufs in
      let sources := selectBuffers [Species.Source] bufs in
      let relevant := selectTimestepBuffers bufs in
      let integrable := selectBuffers [Movable; Thermodynamic] bufs in
      let interactionRadius := (sofZ (supportRadius K) * h0)%S in
      _ ← for_ (arrange be 0 relevant) refresh;
      _ ← for_ (arrange be 1 movable) (launch 0 (PushVelocity dt));
      _ ← updateVolumes defaultBuffer;
      bundle ← calculateNeighbours defaultBuffer interactionRadius sources;
      let sourceViews := map snd (entries (selectByRole Species.Source bundle)) in
      _ ← stage defaultBuffer (fun buf ix => UpdateDensity K (walkFuel be) frameSize (junkScalar be) (launchOrder be 1 Default)
            (pairOrder be 0) sourceViews buf ix h0);
      _ ← stage defaultBuffer (fun buf ix => UpdateHydroForces K gamma (walkFuel be) frameSize (junkStaged be)
            (launchOrder be 2 Default) (pairOrder be 1) sourceViews buf ix h0);
      for_ (arrange be 2 integrable) (launch 3 (EulerIntegrate dt))
  end.

Definition runOneStep : Host Simulation unit :=
  s ← get_state;
  _ ← lift (PMACC_VERIFY_MSG (hasId (prBufId Default) (registry s)) "The default species buffer is required to run a simulation step");
  withSpeciesBufsWithPred registry Always timestep.
End step.

Arguments Simulation : clear implicits.
Arguments Backend : clear implicits.
