(* ===== verification/Systems.v ===== *)
(** * Systems of particles

    A region buffer as the list of its live particles, without regions and boxes.  Here the regions'
    origins are zero, which is what UpdateVolumes leaves behind.  A launch of a body maps the list; a stage
    (body, then interaction) maps it by the pairwise fold over the lists of all sources. *)
From Stdlib Require Import Reals Lra ZArith Lia.
From stdpp Require Import base sets list numbers gmap.
From S2P Require Import Prelude Scalar Topology Aabb FrameList Lockstep Regions Scan FrameIndex Launch ParticleLaunch RegionBounds NeighbourRegions Interaction InteractLaunch InteractGeometry SphKernels Hydro HydroLaws.

Section systems.
Context {D : CartesianDim}.
Local Open Scope R_scope.
#[local] Abbreviation psource := (Source (T := R) (Nb := Particle R)).

Definition zero_point : storage R := broadcast 0.
Definition at_zero : AABB R := mkAABB zero_point [] [].

(** The live particles of the frames [ps]. *)
Definition bodies (h : heap R) (ps : list Z) : list psource := region_sources observe h at_zero ps.

Definition norm {Nb} (s : Source (T := R) (Nb := Nb)) : Source (T := R) (Nb := Nb) :=
  mkSource at_zero (src_ptr s) (src_slot s) (src_rel s) (src_nb s).

(** The particle [s] becomes [f s], in place. *)
Definition with_nb (f : psource -> Particle R) (s : psource) : psource :=
  let q := f s in mkSource at_zero (src_ptr s) (src_slot s) (relativePos q) q.

Lemma source_step_norm {Reads Prep Nb Acc} (fn : Functor (T := R) Reads Prep Nb Acc) r2 p v i r a s :
  origin v = zero_point -> origin (src_volume s) = zero_point ->
  source_step fn r2 p v i r a s = source_step fn r2 p at_zero i r a (norm s).
Proof using Type. intros Hv Hs. unfold source_step, source_pos. by rewrite Hv, Hs. Qed.

Lemma particle_result_norm {Reads Prep Nb Acc} (fn : Functor (T := R) Reads Prep Nb Acc) r2 p v ss i q :
  origin v = zero_point -> (forall s, s ∈ ss -> origin (src_volume s) = zero_point) ->
  particle_result fn r2 p v ss i q = particle_result fn r2 p at_zero (map norm ss) i q.
Proof using Type.
  intros Hv Hss. unfold particle_result, load_slot. destruct (occupied q); [|done]. simpl. f_equal.
  generalize (fn_loadAcc fn q) at 2 4 as acc. induction ss as [|s ss IH]; intros acc; [done|]. simpl.
  rewrite (source_step_norm fn r2 p v) by (done || apply Hss; by left). apply IH. intros s' Hs'. apply Hss. by right.
Qed.

Lemma region_sources_norm {Reads Prep Nb Acc} (fn : Functor (T := R) Reads Prep Nb Acc) h v ps :
  map norm (region_sources fn h v ps) = map (restage (fun s => fn_stage fn (src_nb s))) (bodies h ps).
Proof using Type.
  unfold bodies, region_sources. induction ps as [|p ps IH]; [done|]. rewrite !bind_cons, !map_app, IH. f_equal.
  destruct (h !! p) as [fr|]; [|done]. unfold frame_sources. generalize 0%nat as k.
  induction (slots fr) as [|q qs IHq]; intros k; [done|]. cbn [length seq zip zip_with omap list_omap].
  specialize (IHq (S k)). unfold zip in IHq |- *. destruct (occupied q); cbn [map]; by rewrite IHq.
Qed.

Lemma region_sources_app {Reads Prep Nb Acc} (fn : Functor (T := R) Reads Prep Nb Acc) h v ps qs :
  region_sources fn h v (ps ++ qs) = region_sources fn h v ps ++ region_sources fn h v qs.
Proof using Type. unfold region_sources. by rewrite bind_app. Qed.

(** All sources of a buffer, normalised, are its system. *)
Lemma all_sources_norm {Reads Prep Nb Acc} (fn : Functor (T := R) Reads Prep Nb Acc) h src fss :
  length fss = length (regions_of src) ->
  map norm (all_sources fn h (src, fss)) = map (restage (fun s => fn_stage fn (src_nb s))) (bodies h (concat fss)).
Proof using Type.
  unfold all_sources. simpl. revert fss. induction (regions_of src) as [|nr rs IH]; intros [|ps fss] Hl; try done.
  cbn [zip_with concat]. unfold bodies. rewrite region_sources_app, !map_app. rewrite region_sources_norm.
  f_equal. apply IH. simpl in Hl. lia.
Qed.

Lemma all_sources_origin {Reads Prep Nb Acc} (fn : Functor (T := R) Reads Prep Nb Acc) h src fss o s :
  regions_boxed o h (regions_of src) fss -> s ∈ all_sources fn h (src, fss) -> origin (src_volume s) = o.
Proof using Type.
  intros Hb Hs. unfold all_sources in Hs. simpl in Hs.
  apply list_elem_of_In, in_concat in Hs as (l & Hl & Hs). apply list_elem_of_In in Hl, Hs.
  apply list_elem_of_lookup_1 in Hl as [n Hn]. apply lookup_zip_with_Some in Hn as (nr & ps & -> & Hnr & Hps).
  destruct (region_sources_in fn h (volume nr) ps s Hs) as (p & fr & q & _ & _ & _ & _ & _ & -> & _).
  by apply (Hb n nr ps Hnr Hps).
Qed.

(** ** Heaps that differ in the particles only *)

Lemma bodies_elem h ps a :
  a ∈ bodies h ps -> exists p fr q, p ∈ ps /\ h !! p = Some fr /\ q ∈ slots fr /\ occupied q = true /\
    src_rel a = relativePos q /\ src_volume a = at_zero /\ src_nb a = q.
Proof using Type. apply region_sources_in. Qed.

Lemma bodies_live h ps a : a ∈ bodies h ps -> occupied (src_nb a) = true /\ relativePos (src_nb a) = src_rel a.
Proof using Type. intros (p & fr & q & _ & _ & _ & Ho & Hr & _ & ->)%bodies_elem. by split. Qed.

Lemma bodies_map h h' ps (f : psource -> Particle R) :
  (forall p, p ∈ ps -> exists fr fr' g, h !! p = Some fr /\ h' !! p = Some fr' /\ slots fr' = imap g (slots fr) /\
     forall i q, slots fr !! i = Some q -> occupied (g i q) = occupied q /\
       (occupied q = true -> g i q = f (mkSource at_zero p i (relativePos q) q))) ->
  bodies h' ps = map (with_nb f) (bodies h ps).
Proof using Type.
  intros Hrel. unfold bodies, region_sources. induction ps as [|p ps IH]; [done|]. rewrite !bind_cons, map_app. f_equal.
  2:{ apply IH. intros p' Hp'. apply Hrel. by right. }
  destruct (Hrel p ltac:(by left)) as (fr & fr' & g & -> & -> & Hsl & Hg). clear Hrel IH.
  unfold frame_sources. rewrite Hsl, length_imap. clear Hsl.
  assert (Hgen : forall k, (forall i q, slots fr !! i = Some q -> occupied (g i q) = occupied q /\
      (occupied q = true -> g i q = f (mkSource at_zero p (k + i) (relativePos q) q))) ->
    omap (fun '(j, q) => if occupied q then Some (mkSource at_zero p j (relativePos q) (fn_stage observe q)) else None)
      (zip (seq k (length (slots fr))) (imap g (slots fr))) =
    map (with_nb f) (omap (fun '(j, q) => if occupied q then Some (mkSource at_zero p j (relativePos q)
      (fn_stage observe q)) else None) (zip (seq k (length (slots fr))) (slots fr)))); [|by apply (Hgen 0%nat)].
  clear Hg. revert g. induction (slots fr) as [|q qs IHq]; intros g k Hg; [done|].
  rewrite imap_cons. cbn [length seq zip zip_with omap list_omap].
  destruct (Hg 0%nat q eq_refl) as (Ho & Hst). rewrite Ho. rewrite Nat.add_0_r in Hst.
  assert (Htl := IHq (g ∘ S) (S k)). unfold zip in Htl |- *. rewrite Htl.
  2:{ intros i x Hx. rewrite Nat.add_succ_l, <-Nat.add_succ_r. by apply (Hg (S i)). }
  destruct (occupied q); [|done]. cbn [map]. unfold with_nb at 2. simpl. by rewrite <-Hst.
Qed.

Lemma bodies_ext h h' ps : (forall p, p ∈ ps -> h' !! p = h !! p) -> bodies h' ps = bodies h ps.
Proof using Type.
  intros E. unfold bodies, region_sources. apply bind_ext_in. intros p Hp. by rewrite E.
Qed.

(** A launch maps the system. *)
Lemma bodies_launch (f : Particle R -> Particle R) ps qs h h' :
  (forall q, occupied (f q) = occupied q) -> bodies_applied f qs h h' -> ps ⊆ qs ->
  (forall p, p ∈ ps -> is_Some (h !! p)) ->
  bodies h' ps = map (with_nb (fun s => f (src_nb s))) (bodies h ps).
Proof using Type.
  intros Hf Hb Hsub Hps. apply bodies_map. intros p Hp. destruct (Hps p Hp) as [fr Hfr].
  exists fr, (frame_live_map f fr), (fun _ => live_map f). split_and!; [done| | |].
  - rewrite Hb, decide_True by (by apply Hsub). by rewrite Hfr.
  - simpl. apply list_eq. intros i. rewrite list_lookup_imap, list_lookup_fmap. by destruct (slots fr !! i).
  - intros i q _. unfold live_map. destruct (occupied q) eqn:Ho; split; try done. by rewrite Hf.
Qed.

Lemma bodies_applied_app (f : Particle R -> Particle R) qs1 qs2 h h1 h2 :
  qs1 ## qs2 -> bodies_applied f qs1 h h1 -> bodies_applied f qs2 h1 h2 -> bodies_applied f (qs1 ++ qs2) h h2.
Proof using Type.
  intros Hd H1 H2 p. rewrite H2, H1. destruct (decide (p ∈ qs2)) as [E2|E2].
  - rewrite (decide_False (P := p ∈ qs1)) by (intros E1; by apply (Hd p)). rewrite decide_True; [done|].
    apply elem_of_app. by right.
  - destruct (decide (p ∈ qs1)) as [E1|E1].
    + rewrite decide_True; [done|]. apply elem_of_app. by left.
    + rewrite decide_False; [done|]. rewrite elem_of_app. tauto.
Qed.

(** What the structure of lists and frames depends on: which slots are occupied. *)
Definition same_live (a b : Particle R) : Prop := occupied b = occupied a.
Definition same_place (a b : Particle R) : Prop := occupied b = occupied a /\ relativePos b = relativePos a.

Lemma bodies_applied_rel (P : Particle R -> Particle R -> Prop) (f : Particle R -> Particle R) ps h h' :
  (forall q, P q q) -> (forall q, P q (f q)) -> bodies_applied f ps h h' -> heap_rel P h h'.
Proof using Type.
  intros Hrefl Hf Hb p. rewrite Hb. assert (Hid : forall fr, frame_rel P fr fr).
  { intros fr. split; [done|]. induction (slots fr); constructor; done. }
  destruct (decide (p ∈ ps)); [|by destruct (h !! p); constructor].
  destruct (h !! p) as [fr|]; constructor. split; [done|]. simpl. induction (slots fr); constructor; [|done].
  unfold live_map. destruct (occupied _); [apply Hf|apply Hrefl].
Qed.

Lemma heap_rel_trans (P : Particle R -> Particle R -> Prop) (h h1 h2 : heap R) :
  (forall a b c, P a b -> P b c -> P a c) -> heap_rel P h h1 -> heap_rel P h1 h2 -> heap_rel P h h2.
Proof using Type.
  intros Ht H1 H2 p. specialize (H1 p). specialize (H2 p). destruct H1 as [fr gr [Hn Hf]|]; inversion H2 as [? kr [Hn' Hf']|];
    constructor. split; [congruence|]. revert Hf'. generalize (slots kr) as zs. clear Hn Hn'.
  induction Hf as [|x1 y1 xs ys Hxy _ IH]; intros zs Hzs; inversion Hzs; subst; constructor; eauto.
Qed.

(** ** Stages on systems *)

Lemma frame_culls_any {Reads Prep Nb Acc Reads' Prep' Nb' Acc'} (fn : Functor (T := R) Reads Prep Nb Acc)
    (fn' : Functor (T := R) Reads' Prep' Nb' Acc') r2 fr : frame_culls fn r2 fr -> frame_culls fn' r2 fr.
Proof using Type.
  intros Hc i r. unfold loadOwnRegisters, load_slot. rewrite list_lookup_fmap.
  destruct (slots fr !! i) as [q|] eqn:Hq; [|done]. simpl. destruct (occupied q) eqn:Ho; [|done]. intros [= <-].
  refine (Hc i (mkRegs (relativePos q) (fn_ownReads fn q) (fn_loadAcc fn q) (fn_prepare fn (fn_ownReads fn q))) _).
  unfold loadOwnRegisters, load_slot. rewrite list_lookup_fmap, Hq. simpl. by rewrite Ho.
Qed.

(** The functor that looks at nothing. *)
Definition still : Functor (T := R) () () () () :=
  mkFunctor () () () () (fun _ => tt) (fun _ => tt) (fun _ => tt) (fun _ => tt) (fun _ _ _ _ a => a) (fun _ q => q).

Lemma same_place_still h h' : heap_rel same_place h h' -> heap_sep still h h'.
Proof using Type. apply heap_rel_impl. intros a b [??]. by split_and!. Qed.

Lemma heap_sep_place {Reads Prep Nb Acc} (fn : Functor (T := R) Reads Prep Nb Acc) h h' :
  heap_sep fn h h' -> heap_rel same_place h h'.
Proof using Type. apply heap_rel_impl. intros a b (? & ? & _). by split. Qed.

Lemma target_ok_any {Reads Prep Nb Acc Reads' Prep' Nb' Acc'} (fn : Functor (T := R) Reads Prep Nb Acc)
    (fn' : Functor (T := R) Reads' Prep' Nb' Acc') radius target index fss h :
  target_ok fn radius target index fss h -> target_ok fn' radius target index fss h.
Proof using Type.
  intros [H1 H2 H3 H4 H5]. constructor; try done. intros p fr Hp Hfr. eapply frame_culls_any. by eapply H5.
Qed.

Lemma stage_ok_any {Reads Prep Nb Acc Reads' Prep' Nb' Acc'} (fn : Functor (T := R) Reads Prep Nb Acc)
    (fn' : Functor (T := R) Reads' Prep' Nb' Acc') fuel frameSize radius m o target index fss ss ord ords h h' :
  heap_rel same_place h h' ->
  stage_ok fn fuel frameSize radius m o target index fss ss ord ords h ->
  stage_ok fn' fuel frameSize radius m o target index fss ss ord ords h'.
Proof using Type.
  intros Hrel [Ht [Hwt Hb] Hs Hf Htot Ho Hos Hr]. apply same_place_still in Hrel. constructor; try done.
  - apply (target_ok_any still), (target_ok_sep still _ _ _ _ h h' Hrel). by eapply target_ok_any.
  - split; [done|]. by eapply (regions_boxed_sep still).
  - by eapply (searches_ok_sep still).
  - by eapply (sized_sep still).
Qed.

(** The reference of a stage: the body, then the functor folded over the system [all]. *)
Definition stage_ref {Reads Prep Nb Acc} (fn : Functor (T := R) Reads Prep Nb Acc) (r2 : R)
    (f : Particle R -> Particle R) (all : list psource) (a : psource) : Particle R :=
  particle_result fn r2 (src_ptr a) at_zero (map (restage (fun s => fn_stage fn (src_nb s))) all) (src_slot a)
    (f (src_nb a)).

#[local] Abbreviation search := (PRBuffer R * list (list Z) * NeighbourEntry (T := R))%type.

(** The system of all sources. *)
Definition source_system (h : heap R) (ss : list search) : list psource :=
  ss ≫= fun '(_, sfss, _) => bodies h (concat sfss).

Lemma sources_norm {Reads Prep Nb Acc} (fn : Functor (T := R) Reads Prep Nb Acc) fuel frameSize m h target (ss : list search) :
  searches_ok fuel frameSize m zero_point h target ss ->
  map norm (ss ≫= fun '(src, sfss, _) => all_sources fn h (src, sfss)) =
    map (restage (fun s => fn_stage fn (src_nb s))) (source_system h ss) /\
  forall s, s ∈ (ss ≫= fun '(src, sfss, _) => all_sources fn h (src, sfss)) -> origin (src_volume s) = zero_point.
Proof using Type.
  unfold source_system. induction 1 as [|[[src sfss] e] ss [Hso _] _ [IH1 IH2]]; [split; [done|intros s []%elem_of_nil]|].
  rewrite !bind_cons, !map_app, IH1. split.
  - f_equal. apply all_sources_norm. symmetry. eapply Forall2_length, (so_lists _ _ _ _ _ _ _ _ Hso).
  - intros s [Hs|Hs]%elem_of_app; [|by apply IH2]. eapply all_sources_origin; [|exact Hs]. apply (so_boxed _ _ _ _ _ _ _ _ Hso).
Qed.

(** A stage maps the target's system by its reference over the system of all sources. *)
Lemma stage_system {Reads Prep Nb Acc} (fn : Functor (T := R) Reads Prep Nb Acc) `{!FieldSeparation fn} `{!Commuting fn}
    fuel frameSize junk radius m target index fss ss ord ords body h :
  writes_only fn body ->
  stage_ok fn fuel frameSize radius m zero_point target index fss ss ord ords h ->
  exists h', (h1 ← launchForEachParticle defaultForEach frameSize body target index ord h;
              interact DefaultPolicy fuel frameSize junk ords (map snd ss) target index radius fn h1) = Some h' /\
    heap_sep fn h h' /\ (forall p, p ∉ concat fss -> h' !! p = h !! p) /\
    bodies h' (concat fss) =
      map (with_nb (stage_ref fn (radius * radius) body (source_system h ss))) (bodies h (concat fss)).
Proof using Type.
  intros Hw Hok. destruct (stage_spec fn fuel frameSize junk radius m zero_point target index fss ss ord ords body h Hw Hok)
    as (h' & E & Hsep & Hout & Hres). exists h'. split_and!; [exact E|exact Hsep|exact Hout|].
  apply bodies_map. intros p (ps & Hp & Hps)%elem_of_concat.
  apply list_elem_of_lookup_1 in Hps as [r Hps].
  pose proof (st_target _ _ _ _ _ _ _ _ _ _ _ _ _ Hok) as Ht.
  destruct (Forall2_lookup_r _ _ _ _ _ (to_lists _ _ _ _ _ _ Ht) Hps) as (tr & Htr & _).
  destruct (target_frame _ _ _ _ _ _ r ps p Ht Hps Hp) as [_ [fr Hfr]].
  destruct (proj2 (st_boxes _ _ _ _ _ _ _ _ _ _ _ _ _ Hok) r tr ps Htr Hps) as (_ & Hz & _).
  destruct (sources_norm fn fuel frameSize m h target ss (st_sources _ _ _ _ _ _ _ _ _ _ _ _ _ Hok)) as [Hn Ho].
  eexists fr, _, (fun i q => particle_result fn (radius * radius) p (volume tr)
    (ss ≫= fun '(src, sfss, _) => all_sources fn h (src, sfss)) i (live_map body q)).
  split_and!; [done|by apply (Hres r tr ps p fr)| |].
  - simpl. apply list_eq. intros i. rewrite !list_lookup_imap, list_lookup_fmap. by destruct (slots fr !! i).
  - intros i q _. cbv beta. destruct (particle_result_sep fn (radius * radius) p (volume tr)
      (ss ≫= fun '(src, sfss, _) => all_sources fn h (src, sfss)) i (live_map body q)) as (E1 & _).
    rewrite E1. unfold live_map. destruct (occupied q) eqn:Hoc; [|by rewrite Hoc].
    destruct (Hw q) as (E2 & _). split; [congruence|]. intros _.
    rewrite particle_result_norm, Hn by done. done.
Qed.
End systems.
