(* ===== verification/StepLaws.v ===== *)
(** * A time step on systems of particles

    Over the real numbers [runOneStep] computes, on the live particles, the all-pairs reference
    [step_ref]; in a closed system it conserves momentum, and the energy up to the error of the explicit
    Euler scheme. *)
From Stdlib Require Import Reals Lra ZArith Lia.
From stdpp Require Import base sets list numbers strings gmap functions.
From S2P Require Import Prelude Outcome DataConnector Species Scalar Topology Aabb FrameList Lockstep Regions Scan FrameIndex Launch ParticleLaunch RegionBounds NeighbourRegions Interaction InteractLaunch InteractGeometry SphKernels Hydro HydroLaws Step Systems.

(** ** Present buffers *)

Lemma present_fst {St X} (dc : St -> DataConnector (X := X)) l st : map fst (present_bufs dc l st) ⊆ l.
Proof.
  induction l as [|s l IH]; [done|]. rewrite present_cons.
  destruct (findId _ _) as [i|]; [destruct (dc st !! i)|]; simpl; intros x Hx;
    [apply elem_of_cons in Hx as [->|Hx]; [by left|]|..]; right; by apply IH.
Qed.

Lemma present_NoDup {St X} (dc : St -> DataConnector (X := X)) l st : NoDup l -> NoDup (map fst (present_bufs dc l st)).
Proof.
  induction 1 as [|s l Hs _ IH]; [constructor|]. rewrite present_cons.
  destruct (findId _ _) as [i|]; [destruct (dc st !! i)|]; simpl; [|done..].
  constructor; [|done]. intros Hin. by apply Hs, (present_fst dc l st).
Qed.

Lemma NoDup_fst_fun {A B} (l : list (A * B)) x y : NoDup (map fst l) -> x ∈ l -> y ∈ l -> x.1 = y.1 -> x = y.
Proof.
  induction l as [|z l IH]; simpl; [intros _ []%elem_of_nil|]. intros [Hz Hnd]%list.NoDup_cons Hx Hy E.
  apply elem_of_cons in Hx as [->|Hx], Hy as [->|Hy]; [done| | |by apply IH].
  - exfalso. apply Hz. rewrite E. by apply list_elem_of_fmap_2.
  - exfalso. apply Hz. rewrite <-E. by apply list_elem_of_fmap_2.
Qed.

Section laws.
Context {D : CartesianDim} `{IdxMaps}.
Local Open Scope R_scope.
Context (K : SphKernel R) (dt gamma h0 : R) (frameSize : nat) (be : Backend R) (lists : species -> list (list Z)).
#[local] Abbreviation psource := (Source (T := R) (Nb := Particle R)).
#[local] Abbreviation pres s := (present_bufs (registry (T := R)) AllTypes s).

Definition frames_of (sp : species) : list Z := concat (lists sp).

(** Every live particle of the frames satisfies [P]. *)
Definition live_all (P : Particle R -> Prop) (h : heap R) (ps : list Z) : Prop :=
  forall p fr q, p ∈ ps -> h !! p = Some fr -> q ∈ slots fr -> occupied q = true -> P q.

(** ** Well-formed states *)

Record buffer_ok (sp : species) (h : heap R) (buf : PRBuffer R) : Prop := {
  bo_wf : prbuf_wf buf;
  bo_lists : region_lists h (regions_of buf) (lists sp);
  bo_fuel : forall ps, ps ∈ lists sp -> (length ps <= walkFuel be)%nat;
  bo_sized : sized frameSize h (frames_of sp);
  bo_nodup : NoDup (frames_of sp);
  bo_size : (Z.of_nat (pr_size buf) < 2 ^ 31)%Z;
  bo_total : (Z.of_nat (length (frames_of sp)) <= 2 ^ 30)%Z;
  bo_places : live_all (fun q => storage_wf (relativePos q)) h (frames_of sp);
  bo_count : countOrder be sp ≡ₚ seq 0 (Nat.max (pr_size buf) 1);
  bo_fill : fillOrder be sp ≡ₚ seq 0 (Nat.max (pr_size buf) 1)
}.

Definition index_ready (ix : FrameIndexBuffer) (sp : species) (buf : PRBuffer R) : Prop :=
  index_fresh ix buf = true /\ index_of_lists ix (lists sp).
Definition index_ok (ix : FrameIndexBuffer) (sp : species) (buf : PRBuffer R) : Prop :=
  index_ready ix sp buf \/ (index_fresh ix buf = false /\ index_wf ix /\ (frameCapacity ix < 2 ^ 31)%Z).

Record sim_ok (s : Simulation R) : Prop := {
  so_default : exists a, (Default, a) ∈ pres s;
  so_addresses : NoDup (map snd (pres s));
  so_buffers : forall b, b ∈ pres s -> exists buf, buffers s !! b.2 = Some buf /\ buffer_ok b.1 (frames s) buf /\
    index_ok (frameIndices s b.1) b.1 buf;
  so_disjoint : forall b b', b ∈ pres s -> b' ∈ pres s -> b.1 <> b'.1 -> frames_of b.1 ## frames_of b'.1
}.

Record backend_ok : Prop := {
  be_fuel : (31 <= walkFuel be)%nat;
  be_bounds : exists k, boundsWorkers be = (2 ^ k)%nat /\ (2 ^ k <= MaxBlockSize)%nat;
  be_search : exists k, searchWorkers be = (2 ^ k)%nat /\ (2 ^ k <= kMaxThreads)%nat;
  be_launch : forall n sp m, launchOrder be n sp m ≡ₚ seq 0 m;
  be_boundsOrder : forall m, boundsOrder be m ≡ₚ seq 0 m;
  be_pairs : forall n, orders_ok (pairOrder be n);
  be_arrange : forall n l, arrange be n l ≡ₚ l
}.

(** The choices and sizes of one neighbour search. *)
Record search_choices (sp : species) (nT nS : nat) : Prop := {
  sc_count : searchCount be sp ≡ₚ seq 0 (Nat.max nT 1);
  sc_write : searchWrite be sp ≡ₚ seq 0 (Nat.max nT 1);
  sc_sched : forall b, (b < nT)%nat -> exhausts (searchSchedule be sp b)
    (map (fun w => strided w (searchWorkers be) nS) (seq 0 (searchWorkers be)));
  sc_pairs : (Z.of_nat (nT * nS) < 2 ^ 31)%Z
}.

Definition ready (b : species * Z) (s : Simulation R) : Prop :=
  exists buf, buffers s !! b.2 = Some buf /\ index_ready (frameIndices s b.1) b.1 buf.

Lemma pres_fun s b b' : b ∈ pres s -> b' ∈ pres s -> b.1 = b'.1 -> b = b'.
Proof using Type. apply NoDup_fst_fun, present_NoDup. apply (bool_decide_eq_true_1 (NoDup AllTypes)). reflexivity. Qed.

(** ** Refreshing the indices *)

Lemma refresh_one b s : backend_ok -> sim_ok s -> b ∈ pres s ->
  exists ix, refresh be b s = (Ret tt, set_index b.1 ix s) /\
    forall buf, buffers s !! b.2 = Some buf -> index_ready ix b.1 buf.
Proof using Type.
  intros Hbe Hs Hb. destruct (so_buffers s Hs b Hb) as (buf & Hbuf & Hok & Hix).
  assert (E : exists ix, refreshIfStale (walkFuel be) (junk be) (countOrder be b.1) (fillOrder be b.1) (frames s) buf
      (frameIndices s b.1) = Some ix /\ index_ready ix b.1 buf).
  { unfold refreshIfStale. destruct Hix as [[Hf Hl]|(Hf & Hw & Hc)]; rewrite Hf; [by eexists|].
    destruct (rebuild_spec (walkFuel be) (junk be) (countOrder be b.1) (fillOrder be b.1) (frames s) buf (lists b.1)
      (frameIndices s b.1)) as (ix & E & _ & Hl & Hf'); [|by exists ix].
    destruct Hok. constructor; try done. apply (be_fuel Hbe). }
  destruct E as (ix & E & Hr). exists ix. split.
  - unfold refresh, bufferAt, attempt, mbind, Host_bind, get_state, lift. rewrite Hbuf. cbn [fst snd]. rewrite E. done.
  - intros buf' Hbuf'. rewrite Hbuf in Hbuf'. by injection Hbuf' as <-.
Qed.

Lemma sim_ok_index s sp ix : sim_ok s -> (forall b buf, b ∈ pres s -> b.1 = sp -> buffers s !! b.2 = Some buf -> index_ready ix sp buf) ->
  sim_ok (set_index sp ix s).
Proof using Type.
  intros [H1 H2 H3 H4] Hix. constructor; try done. intros b Hb. destruct (H3 b Hb) as (buf & Hbuf & Hok & Hi).
  exists buf. split_and!; [done..|]. simpl. destruct (decide (b.1 = sp)) as [E|E].
  - rewrite <-E, fn_lookup_insert, E. left. by apply (Hix b).
  - by rewrite fn_lookup_insert_ne.
Qed.

Definition with_indices (ixs : species -> FrameIndexBuffer) (s : Simulation R) : Simulation R :=
  mkSimulation (registry s) (buffers s) (frames s) ixs.

Lemma refresh_all l s : backend_ok -> sim_ok s -> (forall b, b ∈ l -> b ∈ pres s) ->
  exists ixs, for_ l (refresh be) s = (Ret tt, with_indices ixs s) /\ sim_ok (with_indices ixs s) /\
    forall b, b ∈ l -> ready b (with_indices ixs s).
Proof using Type.
  intros Hbe Hs Hl.
  destruct (for_inv (fun d s' => exists ixs, s' = with_indices ixs s /\ sim_ok s' /\ forall b, b ∈ d -> ready b s')
    l (refresh be) s) as (s' & E & ixs & -> & Hok & Hr).
  - exists (frameIndices s). split_and!; [by destruct s|done|intros b []%elem_of_nil].
  - intros d b rest s' Hd (ixs & -> & Hok & Hr).
    assert (Hb : b ∈ pres s) by (apply Hl; rewrite <-Hd; apply elem_of_app; right; by left).
    destruct (refresh_one b (with_indices ixs s) Hbe Hok Hb) as (ix & E & Hix). eexists. split; [exact E|].
    exists (<[b.1 := ix]> ixs). split; [done|]. split.
    { apply sim_ok_index; [done|]. intros b' buf Hb' E' Hbuf. rewrite (pres_fun s b' b Hb' Hb E') in Hbuf. by apply Hix. }
    intros b' [Hb'| ->%list_elem_of_singleton]%elem_of_app.
    + destruct (Hr b' Hb') as (buf & Hbuf & Hi). exists buf. split; [done|]. simpl.
      destruct (decide (b'.1 = b.1)) as [E'|E'].
      * assert (Hp : b' ∈ pres s) by (apply Hl; rewrite <-Hd; apply elem_of_app; by left).
        assert (b' = b) as -> by (by apply (pres_fun s)). rewrite fn_lookup_insert. by apply Hix.
      * by rewrite fn_lookup_insert_ne.
    + destruct (so_buffers s Hs b Hb) as (buf & Hbuf & _). exists buf. split; [done|]. simpl.
      rewrite fn_lookup_insert. by apply Hix.
  - by exists ixs.
Qed.

(** ** Launches *)

Lemma launch_all n f l s : backend_ok -> sim_ok s -> (forall q, occupied (f q) = occupied q) -> NoDup l ->
  (forall b, b ∈ l -> b ∈ pres s /\ ready b s) ->
  exists h', for_ l (launch frameSize be n f) s = (Ret tt, set_frames h' s) /\
    bodies_applied f (l ≫= fun b => frames_of b.1) (frames s) h'.
Proof using Type.
  intros Hbe Hs Hf Hnd Hl.
  destruct (for_inv (fun d s' => exists h', s' = set_frames h' s /\
      bodies_applied f (d ≫= fun b => frames_of b.1) (frames s) h')
    l (launch frameSize be n f) s) as (s' & E & h' & -> & Hb).
  - exists (frames s). split; [by destruct s|]. intros p. rewrite decide_False; [done|apply not_elem_of_nil].
  - intros d b rest s' Hd (h' & -> & Hb).
    assert (Hbl : b ∈ l) by (rewrite <-Hd; apply elem_of_app; right; by left).
    destruct (Hl b Hbl) as [Hbp (buf & Hbuf & Hfr & Hil)].
    destruct (so_buffers s Hs b Hbp) as (buf' & Hbuf' & Hok & _). rewrite Hbuf in Hbuf'. injection Hbuf' as <-.
    assert (Hrel : heap_rel same_live (frames s) h').
    { exact (bodies_applied_rel same_live f _ _ _ (fun q => eq_refl) Hf Hb). }
    destruct (launchForEachParticle_spec defaultForEach frameSize f buf (frameIndices s b.1) (launchOrder be n b.1) h' (lists b.1))
      as (h'' & E & Hb''); try done.
    + simpl. lia.
    + intros m. apply (be_launch Hbe).
    + pose proof (bo_total _ _ _ Hok). unfold frames_of in *. lia.
    + apply (bo_nodup _ _ _ Hok).
    + exact (sized_rel _ _ _ _ _ Hrel (bo_sized _ _ _ Hok)).
    + exists (set_frames h'' s). split.
      * unfold launch, bufferAt, attempt, mbind, Host_bind, get_state, lift. cbn [set_frames buffers frames frameIndices].
        rewrite Hbuf. cbn [fst snd]. rewrite E. done.
      * exists h''. split; [done|]. rewrite bind_app, bind_cons, app_nil_r. eapply bodies_applied_app; [|exact Hb|exact Hb''].
        intros p (b' & Hp & Hb')%list_elem_of_bind Hp2.
        assert (Hne : b'.1 <> b.1).
        { intros E'. assert (Hb'l : b' ∈ l) by (rewrite <-Hd; apply elem_of_app; by left).
          destruct (Hl b' Hb'l) as [Hb'p _]. rewrite (pres_fun s b' b Hb'p Hbp E') in Hb'.
          rewrite <-Hd in Hnd. apply list.NoDup_app in Hnd as (_ & Hn & _). apply (Hn b Hb'). by left. }
        destruct (Hl b') as [Hb'p _]; [rewrite <-Hd; apply elem_of_app; by left|].
        by apply (so_disjoint s Hs b' b Hb'p Hbp Hne p).
  - by exists h'.
Qed.

Lemma region_lists_rel (P : Particle R -> Particle R -> Prop) h h' prs fss :
  heap_rel P h h' -> region_lists h prs fss -> region_lists h' prs fss.
Proof using Type. intros Hrel Hl. eapply list.Forall2_impl; [exact Hl|]. intros r ps. by apply is_list_rel with P. Qed.

Lemma sim_ok_frames h' s : sim_ok s -> heap_rel same_live (frames s) h' ->
  (forall b, b ∈ pres s -> live_all (fun q => storage_wf (relativePos q)) h' (frames_of b.1)) ->
  sim_ok (set_frames h' s).
Proof using Type.
  intros [H1 H2 H3 H4] Hrel Hpl. constructor; try done. intros b Hb. destruct (H3 b Hb) as (buf & Hbuf & Hok & Hi).
  exists buf. split_and!; [done| |done]. destruct Hok. constructor; try done.
  - by eapply region_lists_rel.
  - by eapply sized_rel.
  - by apply Hpl.
Qed.

Lemma live_all_applied (P Q : Particle R -> Prop) f ps qs h h' :
  bodies_applied f qs h h' -> (forall q, occupied (f q) = occupied q) -> (forall q, P q -> Q q) ->
  (forall q, P q -> Q (f q)) -> live_all P h ps -> live_all Q h' ps.
Proof using Type.
  intros Hb Ho Hid Hf Hl p fr q Hp Hfr Hq Hoc. rewrite Hb in Hfr. destruct (decide (p ∈ qs)).
  - destruct (h !! p) as [fr0|] eqn:E; [|discriminate]. simpl in Hfr. injection Hfr as <-. simpl in Hq.
    apply list_elem_of_fmap in Hq as (q0 & -> & Hq0). unfold live_map in *. destruct (occupied q0) eqn:E0; [|congruence].
    apply Hf. by eapply Hl.
  - apply Hid. by eapply Hl.
Qed.

(** ** Region bounds *)

Lemma volumes_step a s : backend_ok -> sim_ok s -> (Default, a) ∈ pres s ->
  exists buf buf', buffers s !! a = Some buf /\ updateVolumes frameSize be a s = (Ret tt, set_buffer a buf' s) /\
    pr_size buf' = pr_size buf /\ sim_ok (set_buffer a buf' s) /\
    (forall b, ready b s -> b ∈ pres s -> ready b (set_buffer a buf' s)) /\
    buffer_ok Default (frames s) buf' /\
    regions_boxed zero_point (frames s) (regions_of buf') (lists Default).
Proof using Type.
  intros Hbe Hs Ha. destruct (so_buffers s Hs _ Ha) as (buf & Hbuf & Hok & Hix). simpl in Hbuf, Hok, Hix.
  destruct (be_bounds Hbe) as (k & Ek & Hk).
  assert (Hfs : forall ps, ps ∈ lists Default -> (length ps <= walkFuel be)%nat /\ frames_ok frameSize (frames s) ps).
  { intros ps Hps. split; [by apply (bo_fuel _ _ _ Hok)|]. intros p Hp.
    assert (Hin : p ∈ frames_of Default) by (apply elem_of_concat; by exists ps).
    destruct (bo_sized _ _ _ Hok p Hin) as (fr & Hfr & Hlen). exists fr. split_and!; [done..|].
    apply list.Forall_forall. intros q Hq Ho. by apply (bo_places _ _ _ Hok p fr q). }
  destruct (UpdateVolumes_spec (walkFuel be) frameSize k (boundsOrder be) (frames s) buf (lists Default)
    (bo_wf _ _ _ Hok) (bo_lists _ _ _ Hok) Hk (be_boundsOrder Hbe) Hfs) as (buf' & E & Esz & Ever & Eid & Hw & Hreg).
  rewrite <-Ek in E. assert (Hlr : length (regions_of buf') = length (regions_of buf)).
  { rewrite !regions_of_length by (done || apply (bo_wf _ _ _ Hok)). done. }
  assert (Hll : length (regions_of buf) = length (lists Default)) by (eapply Forall2_length, (bo_lists _ _ _ Hok)).
  assert (Hok' : buffer_ok Default (frames s) buf').
  { destruct Hok. constructor; rewrite ?Esz; try done. apply Forall2_same_length_lookup. split; [congruence|].
    intros i r ps Hr Hps. destruct (lookup_lt_is_Some_2 (regions_of buf) i) as [r0 Hr0].
    { rewrite <-Hlr. by eapply lookup_lt_Some. }
    rewrite (Hreg i r0 ps Hr0 Hps) in Hr. injection Hr as <-. simpl.
    by apply (Forall2_lookup_lr _ _ _ _ _ _ bo_lists0 Hr0 Hps). }
  assert (Hidx : forall ix sp, index_ok ix sp buf -> index_ok ix sp buf').
  { intros ix sp. unfold index_ok, index_ready, index_fresh. by rewrite Eid, Ever. }
  exists buf, buf'. split_and!; try done.
  - unfold updateVolumes, bufferAt, attempt, mbind, Host_bind, get_state, lift. rewrite Hbuf. cbn [fst snd]. by rewrite E.
  - destruct Hs as [H1 H2 H3 H4]. constructor; try done. intros b Hb. simpl.
    destruct (decide (b.2 = a)) as [Eb|Eb].
    + assert (b = (Default, a)) as ->.
      { apply (NoDup_fst_fun (map prod_swap (pres s)) (prod_swap b) (a, Default)) in Eb; [by destruct b; injection Eb as -> ->| | |].
        - by rewrite map_map.
        - by apply list_elem_of_fmap_2.
        - by apply (list_elem_of_fmap_2 prod_swap _ (Default, a)). }
      exists buf'. rewrite lookup_insert_eq. split_and!; [done..|by apply Hidx].
    + rewrite lookup_insert_ne by done. by apply H3.
  - intros b (bu & Hbu & Hi) Hb. destruct (decide (b.2 = a)) as [Eb|Eb].
    + exists buf'. simpl. rewrite Eb, lookup_insert_eq. split; [done|]. rewrite Eb, Hbuf in Hbu. injection Hbu as <-.
      unfold index_ready, index_fresh in *. by rewrite Eid, Ever.
    + exists bu. simpl. by rewrite lookup_insert_ne.
  - intros i r ps Hr Hps. destruct (lookup_lt_is_Some_2 (regions_of buf) i) as [r0 Hr0].
    { rewrite <-Hlr. by eapply lookup_lt_Some. }
    rewrite (Hreg i r0 ps Hr0 Hps) in Hr. injection Hr as <-. simpl.
    destruct (Hfs ps) as [_ Hfok]; [by eapply list_elem_of_lookup_2|].
    pose proof (live_positions_wf _ _ _ Hfok) as Hwf.
    destruct (extend_all_wf aabb_default _ aabb_default_wf Hwf) as [Hbw Hbo]. split_and!; [exact Hbw|exact Hbo|].
    intros p fr q Hp Hfr Hq Ho. split; [apply (bo_places _ _ _ Hok p fr q); [|done..]; apply elem_of_concat; exists ps; split; [done|by eapply list_elem_of_lookup_2]|].
    apply extend_all_in; [apply aabb_default_wf|done|]. apply list_elem_of_bind. exists p. rewrite Hfr. split; [|done].
    apply list_elem_of_fmap. exists q. split; [done|]. apply list_elem_of_filter. done.
Qed.

(** ** The neighbour search *)

Lemma intersecting_total m (target src : PRBuffer R) :
  prbuf_wf target -> prbuf_wf src ->
  (length (concat (map (fun tr => intersecting m tr (regions_of src)) (regions_of target))) <=
   pr_size target * pr_size src)%nat.
Proof using Type.
  intros Ht Hs. rewrite <-(regions_of_length target Ht), <-(regions_of_length src Hs).
  induction (regions_of target) as [|tr trs IH]; simpl; [lia|]. rewrite length_app.
  assert (length (intersecting m tr (regions_of src)) <= length (regions_of src))%nat; [|lia].
  unfold intersecting. etrans; [apply length_filter|]. by rewrite length_seq.
Qed.

(** What a source contributes to the search. *)
Record source_ok (target : PRBuffer R) (s : Simulation R) (b : species * Z) : Prop := {
  sr_present : b ∈ pres s;
  sr_choices : forall buf, buffers s !! b.2 = Some buf -> search_choices b.1 (pr_size target) (pr_size buf);
  sr_boxed : forall buf, buffers s !! b.2 = Some buf -> regions_boxed zero_point (frames s) (regions_of buf) (lists b.1)
}.

Lemma neighbour_entry m target s b : backend_ok -> sim_ok s -> prbuf_wf target -> source_ok target s b ->
  exists src e, buffers s !! b.2 = Some src /\
    calculateNeighbourEntry (searchWorkers be) (junk be) (searchCount be b.1) (searchWrite be b.1)
      (searchSchedule be b.1) target src m = Some e /\
    search_source_ok (walkFuel be) frameSize m zero_point (frames s) target src (lists b.1) /\ computed m target src e.
Proof using Type.
  intros Hbe Hs Hwt [Hb Hch Hbx]. destruct (so_buffers s Hs b Hb) as (src & Hsrc & Hok & _).
  destruct (Hch src Hsrc) as [Hc Hw Hsd Hp]. destruct (be_search Hbe) as (k & Ek & Hk). rewrite Ek in Hsd.
  pose proof (intersecting_total m target src Hwt (bo_wf _ _ _ Hok)) as Htot.
  assert (Hlt : (Z.of_nat (length (concat (map (fun tr => intersecting m tr (regions_of src)) (regions_of target)))) < 2 ^ 31)%Z).
  { eapply Z.le_lt_trans; [|exact Hp]. by apply Nat2Z.inj_le. }
  destruct (calculateNeighbourEntry_spec k (junk be) (searchCount be b.1) (searchWrite be b.1) (searchSchedule be b.1)
    target src m Hwt (bo_wf _ _ _ Hok) Hk (bo_size _ _ _ Hok) Hlt Hc Hw Hsd) as (e & E & _).
  rewrite <-Ek in E. exists src, e. split_and!; [done|exact E| |].
  - destruct Hok. constructor; try done; [|by apply Hbx]. intros ps Hps. split; [by apply bo_fuel0|].
    intros p Hin. apply bo_sized0, elem_of_concat. by exists ps.
  - exists k, (junk be), (searchCount be b.1), (searchWrite be b.1), (searchSchedule be b.1). rewrite Ek in E. by split_and!.
Qed.

Lemma neighbours_spec m target s srcs : backend_ok -> sim_ok s -> prbuf_wf target ->
  (forall b, b ∈ srcs -> source_ok target s b) ->
  exists es ss, neighbourEntries be target m srcs s = (Ret es, s) /\ map fst es = map fst srcs /\ map snd ss = map snd es /\
    searches_ok (walkFuel be) frameSize m zero_point (frames s) target ss /\
    forall h, source_system h ss = srcs ≫= fun b => bodies h (frames_of b.1).
Proof using Type.
  intros Hbe Hs Hwt. induction srcs as [|b srcs IH]; intros Hsrc.
  { exists [], []. split_and!; try done. constructor. }
  destruct (neighbour_entry m target s b Hbe Hs Hwt) as (src & e & Hb & E & Hso & Hc); [apply Hsrc; by left|].
  destruct IH as (es & ss & E2 & Ef & Es & Hss & Hsys); [intros b' Hb'; apply Hsrc; by right|].
  exists ((b.1, e) :: es), ((src, lists b.1, e) :: ss). split_and!.
  - cbn [neighbourEntries]. unfold bufferAt, attempt, mbind, Host_bind, get_state, lift, mret, Host_ret.
    rewrite Hb. cbn [fst snd]. rewrite E. cbn [fst snd]. by rewrite E2.
  - simpl. by rewrite Ef.
  - simpl. by rewrite Es.
  - by constructor.
  - intros h. unfold source_system. rewrite !bind_cons. f_equal. apply Hsys.
Qed.

(** ** The reference step *)

(** The particles [bs] of the default species among the particles [others] of the other sources. *)
Definition step_ref (others bs : list psource) : list psource :=
  let r := (sofZ (supportRadius K) * h0)%S in
  let pushed := map (with_nb (fun a => PushVelocity dt (src_nb a))) bs in
  let dense := map (with_nb (stage_ref (AccumulateDensity K) (r * r) (DensityInitSelf K) (pushed ++ others))) pushed in
  let forced := map (with_nb (stage_ref (HydroInteraction K gamma) (r * r) ZeroDerivatives (dense ++ others))) dense in
  map (with_nb (fun a => EulerIntegrate dt (src_nb a))) forced.

Lemma bind_bodies_ext h h' (l : list (species * Z)) :
  (forall b p, b ∈ l -> p ∈ frames_of b.1 -> h' !! p = h !! p) ->
  (l ≫= fun b => bodies h' (frames_of b.1)) = l ≫= fun b => bodies h (frames_of b.1).
Proof using Type. intros E. apply bind_ext_in. intros b Hb. apply bodies_ext. intros p Hp. by apply E with b. Qed.

(** ** The stages on the default species *)

Lemma stage_run a f (s : Simulation R) buf h' : buffers s !! a = Some buf -> f buf (frameIndices s Default) (frames s) = Some h' ->
  stage a f s = (Ret tt, set_frames h' s).
Proof using Type.
  intros Hb E. unfold stage, bufferAt, attempt, mbind, Host_bind, get_state, lift. rewrite Hb. cbn [fst snd]. by rewrite E.
Qed.

Lemma calculateNeighbours_run a m (s : Simulation R) buf srcs es : buffers s !! a = Some buf -> neighbourEntries be buf m srcs s = (Ret es, s) ->
  calculateNeighbours be a m srcs s = (Ret (makeNeighbourBundle es), s).
Proof using Type.
  intros Hb E. unfold calculateNeighbours, bufferAt, attempt, mbind, Host_bind, get_state, lift, mret, Host_ret.
  rewrite Hb. cbn [fst snd]. by rewrite E.
Qed.

(** Every source of the pack takes part in the interactions. *)
Lemma source_views {E} (es : list (species * E)) (bufs : list (species * Z)) :
  map fst es = map fst (selectBuffers [Species.Source] bufs) ->
  map snd (entries (selectByRole Species.Source (makeNeighbourBundle es))) = map snd es.
Proof using Type.
  intros Ef. unfold selectByRole. rewrite (proj2 (select_spec _ _)). simpl. f_equal.
  assert (Hall : forall e, e ∈ es -> HasRole Species.Source e.1 = true).
  { intros e He. apply (list_elem_of_fmap_2 fst) in He. change (fst <$> es) with (map fst es) in He. rewrite Ef in He.
    apply list_elem_of_fmap in He as (b & -> & Hb). unfold selectBuffers in Hb. rewrite bind_filter in Hb.
    apply list_elem_of_filter in Hb as [Hb _]. simpl in Hb. by rewrite andb_true_r in Hb. }
  clear Ef. induction es as [|e es IH]; [done|]. rewrite filter_cons, decide_True by (apply Hall; by left).
  f_equal. apply IH. intros e' He'. apply Hall. by right.
Qed.

Section phase.
Context (B : R) (s : Simulation R) (a : Z) (buf : PRBuffer R) (ss : list (PRBuffer R * list (list Z) * NeighbourEntry (T := R))).
#[local] Abbreviation r := (sofZ (supportRadius K) * h0)%S.
Context (Hbe : backend_ok) (Hs : sim_ok s) (Hbuf : buffers s !! a = Some buf) (Hok : buffer_ok Default (frames s) buf).
Context (Hix : index_ready (frameIndices s Default) Default buf).
Context (Hbx : regions_boxed zero_point (frames s) (regions_of buf) (lists Default)).
Context (Hss : searches_ok (walkFuel be) frameSize r zero_point (frames s) buf ss).
Context (Hr : 0 <= r) (HB : r + B <= Rflt_max / 4).
Context (Hb : live_all (fun q => Rabs (vget (relativePos q) ax_x) <= B) (frames s) (frames_of Default)).

Lemma phase_ok n k : stage_ok still (walkFuel be) frameSize r r zero_point buf (frameIndices s Default) (lists Default) ss
  (launchOrder be n Default) (pairOrder be k) (frames s).
Proof using Hbe Hok Hix Hbx Hss Hr HB Hb.
  destruct Hix as [Hf Hil]. pose proof (bo_total _ _ _ Hok) as Ht. constructor.
  - constructor; try done; [apply (bo_lists _ _ _ Hok)|apply (bo_nodup _ _ _ Hok)|]. intros p fr Hp Hfr.
    apply (bounded_frame_culls still fr r B); [|done..]. intros q Hq Ho. split; [by apply (bo_places _ _ _ Hok p fr q)|].
    by apply (Hb p fr q).
  - split; [apply (bo_wf _ _ _ Hok)|done].
  - done.
  - apply (bo_sized _ _ _ Hok).
  - unfold frames_of in Ht. lia.
  - intros m. apply (be_launch Hbe).
  - apply (be_pairs Hbe).
  - lra.
Qed.

Lemma phase_spec : exists h1 h2,
  stage a (fun buf ix => UpdateDensity K (walkFuel be) frameSize (junkScalar be) (launchOrder be 1 Default)
    (pairOrder be 0) (map snd ss) buf ix h0) s = (Ret tt, set_frames h1 s) /\
  stage a (fun buf ix => UpdateHydroForces K gamma (walkFuel be) frameSize (junkStaged be) (launchOrder be 2 Default)
    (pairOrder be 1) (map snd ss) buf ix h0) (set_frames h1 s) = (Ret tt, set_frames h2 s) /\
  heap_rel same_place (frames s) h2 /\
  (forall p, p ∉ frames_of Default -> h1 !! p = frames s !! p) /\
  (forall p, p ∉ frames_of Default -> h2 !! p = frames s !! p) /\
  bodies h1 (frames_of Default) = map (with_nb (stage_ref (AccumulateDensity K) (r * r) (DensityInitSelf K)
    (source_system (frames s) ss))) (bodies (frames s) (frames_of Default)) /\
  bodies h2 (frames_of Default) = map (with_nb (stage_ref (HydroInteraction K gamma) (r * r) ZeroDerivatives
    (source_system h1 ss))) (bodies h1 (frames_of Default)).
Proof using Hbe Hbuf Hok Hix Hbx Hss Hr HB Hb.
  assert (Hplace : heap_rel same_place (frames s) (frames s)) by (apply (heap_sep_place still), heap_sep_refl).
  destruct (stage_system (AccumulateDensity K) (walkFuel be) frameSize (junkScalar be) r r buf (frameIndices s Default)
    (lists Default) ss (launchOrder be 1 Default) (pairOrder be 0) (DensityInitSelf K) (frames s) (density_init_sep K))
    as (h1 & E1 & Hsep1 & Hout1 & Hb1); [by eapply stage_ok_any, (phase_ok 1 0)|].
  apply heap_sep_place in Hsep1.
  destruct (stage_system (HydroInteraction K gamma) (walkFuel be) frameSize (junkStaged be) r r buf (frameIndices s Default)
    (lists Default) ss (launchOrder be 2 Default) (pairOrder be 1) ZeroDerivatives h1 (zero_sep K gamma))
    as (h2 & E2 & Hsep2 & Hout2 & Hb2); [by eapply stage_ok_any, (phase_ok 2 1)|].
  apply heap_sep_place in Hsep2.
  exists h1, h2. split_and!; [exact (stage_run a _ s buf h1 Hbuf E1)|exact (stage_run a _ (set_frames h1 s) buf h2 Hbuf E2)| |exact Hout1| |exact Hb1|exact Hb2].
  - eapply heap_rel_trans; [|exact Hsep1|exact Hsep2]. intros x y z [??] [??]. split; congruence.
  - intros p Hp. by rewrite Hout2, Hout1.
Qed.
End phase.

(** ** The whole step *)

Record step_pre (B : R) (s : Simulation R) : Prop := {
  sp_backend : backend_ok;
  sp_ok : sim_ok s;
  sp_radius : 0 <= sofZ (supportRadius K) * h0;
  sp_limit : sofZ (supportRadius K) * h0 + B <= Rflt_max / 4;
  sp_pushed : live_all (fun q => Rabs (vget (relativePos (PushVelocity dt q)) ax_x) <= B) (frames s) (frames_of Default);
  sp_search : forall a b target src, (Default, a) ∈ pres s -> b ∈ pres s -> hasRole b.1 Species.Source = true ->
    buffers s !! a = Some target -> buffers s !! b.2 = Some src -> search_choices b.1 (pr_size target) (pr_size src);
  sp_static : forall b src, b ∈ pres s -> hasRole b.1 Species.Source = true -> b.1 <> Default ->
    buffers s !! b.2 = Some src -> regions_boxed zero_point (frames s) (regions_of src) (lists b.1)
}.

Lemma push_occupied (q : Particle R) : occupied (PushVelocity dt q) = occupied q.
Proof using Type. done. Qed.

Lemma push_wf (q : Particle R) : storage_wf (relativePos q) -> storage_wf (relativePos (PushVelocity dt q)).
Proof using Type.
  intros Hq. unfold PushVelocity. simpl.
  apply (for_each_tag_vset (fun t x => x + vget (velocity q) t * dt) (relativePos q) Hq).
Qed.

(** The present buffers: the default one first, no other of its species. *)
Lemma pres_default s : sim_ok s -> exists a rest, pres s = (Default, a) :: rest /\ forall b, b ∈ rest -> b.1 <> Default.
Proof using Type.
  intros Hs. destruct (so_default s Hs) as [a Ha]. unfold AllTypes in *. rewrite present_cons in *.
  assert (Hrest : forall b, b ∈ present_bufs registry [Boundary; Tracer] s -> b.1 <> Default).
  { intros b Hb E. apply (list_elem_of_fmap_2 fst) in Hb. apply (present_fst registry) in Hb. rewrite E in Hb.
    apply elem_of_cons in Hb as [|[|[]%elem_of_nil]%elem_of_cons]; discriminate. }
  assert (Hno : (Default, a) ∉ present_bufs registry [Boundary; Tracer] s) by (intros Hb; by apply (Hrest _ Hb)).
  destruct (findId _ _) as [i|]; [|done]. destruct (registry s !! i) as [d|]; [|done].
  exists (dataset d), (present_bufs registry [Boundary; Tracer] s). by split.
Qed.

(** The roles of the other species: none of them is integrated, none that moves is a source. *)
Lemma other_roles sp : sp <> Default ->
  forallb (hasRole sp) [Movable; Thermodynamic] = false /\ (hasRole sp Species.Source = true -> hasRole sp Movable = false).
Proof using Type. by destruct sp. Qed.

Lemma bodies_applied_equiv (f : Particle R -> Particle R) ps qs h h' :
  (forall p, p ∈ ps <-> p ∈ qs) -> bodies_applied f ps h h' -> bodies_applied f qs h h'.
Proof using Type.
  intros E Hb p. rewrite Hb. destruct (decide (p ∈ ps)) as [Hp|Hp]; [rewrite decide_True|rewrite decide_False]; rewrite <-?E; done.
Qed.

Lemma live_all_rel (P : Particle R -> Prop) (Q : Particle R -> Particle R -> Prop) h h' ps :
  (forall a b, Q a b -> occupied b = occupied a /\ (P a -> P b)) -> heap_rel Q h h' -> live_all P h ps -> live_all P h' ps.
Proof using Type.
  intros HQ Hrel Hl p fr q Hp Hfr Hq Ho. specialize (Hrel p). rewrite Hfr in Hrel.
  inversion Hrel as [fr0 ? [_ Hf] E|]. subst. apply list_elem_of_lookup_1 in Hq as [i Hq].
  destruct (Forall2_lookup_r _ _ _ _ _ Hf Hq) as (q0 & Hq0 & HQ0). destruct (HQ _ _ HQ0) as [E1 E2].
  apply E2, (Hl p fr0 q0 Hp (eq_sym E)); [by eapply list_elem_of_lookup_2|congruence].
Qed.

Lemma elem_selectBuffers rs (bufs : list (species * Z)) b :
  b ∈ selectBuffers rs bufs <-> b ∈ bufs /\ forallb (hasRole b.1) rs = true.
Proof using Type. unfold selectBuffers. rewrite bind_filter, list_elem_of_filter. apply and_comm. Qed.

Lemma selectBuffers_NoDup rs s : NoDup (selectBuffers rs (pres s)).
Proof using Type.
  unfold selectBuffers. rewrite bind_filter. apply list.NoDup_filter, (NoDup_fmap_1 fst), present_NoDup.
  apply (bool_decide_eq_true_1 (NoDup AllTypes)). reflexivity.
Qed.

(** The frames of the species that move. *)
Definition moving (s : Simulation R) : list Z := selectBuffers [Movable] (pres s) ≫= fun b => frames_of b.1.

Lemma moving_species s b p : sim_ok s -> b ∈ pres s -> p ∈ frames_of b.1 -> p ∈ moving s <-> hasRole b.1 Movable = true.
Proof using Type.
  intros Hs Hb Hp. unfold moving. rewrite list_elem_of_bind. split.
  - intros (b' & Hp' & [Hb' Hm]%elem_selectBuffers). simpl in Hm. rewrite andb_true_r in Hm.
    destruct (decide (b.1 = b'.1)) as [->|Hne]; [done|]. exfalso. by apply (so_disjoint s Hs b b' Hb Hb' Hne p).
  - intros Hm. exists b. split; [done|]. apply elem_selectBuffers. simpl. by rewrite Hm.
Qed.

(** Refresh and push. *)
Lemma push_phase s : backend_ok -> sim_ok s -> exists ixs h2,
  for_ (arrange be 0 (selectTimestepBuffers (pres s))) (refresh be) s = (Ret tt, with_indices ixs s) /\
  for_ (arrange be 1 (selectBuffers [Movable] (pres s))) (launch frameSize be 0 (PushVelocity dt)) (with_indices ixs s) =
    (Ret tt, set_frames h2 (with_indices ixs s)) /\
  sim_ok (set_frames h2 (with_indices ixs s)) /\ bodies_applied (PushVelocity dt) (moving s) (frames s) h2 /\
  forall b, b ∈ pres s -> b.1 = Default -> ready b (set_frames h2 (with_indices ixs s)).
Proof using Type.
  intros Hbe Hs.
  assert (Hrel : forall b, b ∈ arrange be 0 (selectTimestepBuffers (pres s)) <->
      b ∈ pres s /\ (hasRole b.1 Movable || bool_decide (b.1 = Default)) = true).
  { intros b. rewrite (be_arrange Hbe). unfold selectTimestepBuffers. rewrite bind_filter, list_elem_of_filter. apply and_comm. }
  assert (Hmov : forall b, b ∈ arrange be 1 (selectBuffers [Movable] (pres s)) <-> b ∈ pres s /\ hasRole b.1 Movable = true).
  { intros b. rewrite (be_arrange Hbe), elem_selectBuffers. simpl. by rewrite andb_true_r. }
  destruct (refresh_all (arrange be 0 (selectTimestepBuffers (pres s))) s Hbe Hs) as (ixs & E1 & Hok1 & Hr1);
    [by intros b [Hb _]%Hrel|].
  destruct (launch_all 0 (PushVelocity dt) (arrange be 1 (selectBuffers [Movable] (pres s))) (with_indices ixs s) Hbe Hok1
    push_occupied) as (h2 & E2 & Hb2).
  { rewrite (be_arrange Hbe). apply selectBuffers_NoDup. }
  { intros b [Hb Hm]%Hmov. split; [done|]. apply Hr1, Hrel. by rewrite Hm. }
  apply (bodies_applied_equiv _ _ (moving s)) in Hb2.
  2:{ intros p. unfold moving. rewrite !list_elem_of_bind. split; intros (b & Hp & Hb); exists b; (split; [done|]).
      - by rewrite (be_arrange Hbe) in Hb.
      - by rewrite (be_arrange Hbe). }
  exists ixs, h2. split_and!; [exact E1|exact E2| |exact Hb2|].
  - apply sim_ok_frames; [done|exact (bodies_applied_rel same_live _ _ _ _ (fun q => eq_refl) push_occupied Hb2)|].
    intros b Hb. destruct (so_buffers s Hs b Hb) as (buf & _ & Hok & _).
    eapply (live_all_applied (fun q => storage_wf (relativePos q))); [exact Hb2|exact push_occupied|by intros q Hq|exact push_wf|exact (bo_places _ _ _ Hok)].
  - intros b Hb Hd. destruct (Hr1 b) as (buf & Hbuf & Hi); [|by exists buf].
    apply Hrel. rewrite Hd. split; [done|]. apply orb_true_r.
Qed.

Lemma regions_boxed_ext o h h' prs fss :
  (forall p, p ∈ concat fss -> h' !! p = h !! p) -> regions_boxed o h prs fss -> regions_boxed o h' prs fss.
Proof using Type.
  intros E Hb n nr ps Hnr Hps. destruct (Hb n nr ps Hnr Hps) as (H1 & H2 & H3). split_and!; [done..|].
  intros p fr q Hp Hfr. rewrite E in Hfr; [exact (H3 p fr q Hp Hfr)|]. apply elem_of_concat. exists ps. split; [done|].
  by eapply list_elem_of_lookup_2.
Qed.

(** The sources of the step, after the push and the update of the bounds. *)
Lemma sources_ready B s ixs h2 a buf buf' : step_pre B s -> (Default, a) ∈ pres s ->
  bodies_applied (PushVelocity dt) (moving s) (frames s) h2 ->
  buffers s !! a = Some buf -> pr_size buf' = pr_size buf -> regions_boxed zero_point h2 (regions_of buf') (lists Default) ->
  forall b, b ∈ selectBuffers [Species.Source] (pres s) ->
    source_ok buf' (set_buffer a buf' (set_frames h2 (with_indices ixs s))) b.
Proof using Type.
  intros Hpre Ha Hb2 Hbuf Esz Hbx b [Hb Hsrc]%elem_selectBuffers. simpl in Hsrc. rewrite andb_true_r in Hsrc.
  pose proof (sp_ok _ _ Hpre) as Hs.
  assert (Hcase : b = (Default, a) \/ (b.1 <> Default /\ b.2 <> a)).
  { destruct (decide (b.1 = Default)) as [E|E]; [left; by apply (pres_fun s)|right]. split; [done|]. intros E2. apply E.
    assert (prod_swap b = prod_swap (Default, a)) as E3; [|by destruct b; injection E3 as -> ->].
    apply (NoDup_fst_fun (map prod_swap (pres s))); [rewrite map_map; apply (so_addresses s Hs)| | |done].
    - by apply list_elem_of_fmap_2.
    - by apply (list_elem_of_fmap_2 prod_swap _ (Default, a)). }
  constructor; [done|..]; intros src Hsrcb; simpl in Hsrcb.
  - rewrite Esz. destruct Hcase as [->|[_ Hne]].
    + simpl in Hsrcb. rewrite lookup_insert_eq in Hsrcb. injection Hsrcb as <-. rewrite Esz.
      by apply (sp_search _ _ Hpre a (Default, a) buf buf).
    + rewrite lookup_insert_ne in Hsrcb by done. by apply (sp_search _ _ Hpre a b buf src).
  - simpl. destruct Hcase as [->|[Hd Hne]].
    + simpl in Hsrcb. rewrite lookup_insert_eq in Hsrcb. by injection Hsrcb as <-.
    + rewrite lookup_insert_ne in Hsrcb by done. eapply regions_boxed_ext; [|by apply (sp_static _ _ Hpre b src)].
      intros p Hp. rewrite Hb2, decide_False; [done|]. intros Hm. apply (moving_species s b p Hs Hb Hp) in Hm.
      apply (proj2 (other_roles b.1 Hd)) in Hsrc. congruence.
Qed.

(** The callback of the step, stage by stage. *)
Lemma timestep_run s a rest ixs h2 s3 es h4 h5 h6 :
  pres s = (Default, a) :: rest ->
  let r := (sofZ (supportRadius K) * h0)%S in
  for_ (arrange be 0 (selectTimestepBuffers (pres s))) (refresh be) s = (Ret tt, with_indices ixs s) ->
  for_ (arrange be 1 (selectBuffers [Movable] (pres s))) (launch frameSize be 0 (PushVelocity dt)) (with_indices ixs s) =
    (Ret tt, set_frames h2 (with_indices ixs s)) ->
  updateVolumes frameSize be a (set_frames h2 (with_indices ixs s)) = (Ret tt, s3) ->
  calculateNeighbours be a r (selectBuffers [Species.Source] (pres s)) s3 = (Ret (makeNeighbourBundle es), s3) ->
  map fst es = map fst (selectBuffers [Species.Source] (pres s)) ->
  stage a (fun buf ix => UpdateDensity K (walkFuel be) frameSize (junkScalar be) (launchOrder be 1 Default)
    (pairOrder be 0) (map snd es) buf ix h0) s3 = (Ret tt, set_frames h4 s3) ->
  stage a (fun buf ix => UpdateHydroForces K gamma (walkFuel be) frameSize (junkStaged be) (launchOrder be 2 Default)
    (pairOrder be 1) (map snd es) buf ix h0) (set_frames h4 s3) = (Ret tt, set_frames h5 s3) ->
  for_ (arrange be 2 (selectBuffers [Movable; Thermodynamic] (pres s))) (launch frameSize be 3 (EulerIntegrate dt))
    (set_frames h5 s3) = (Ret tt, set_frames h6 s3) ->
  runOneStep K dt gamma h0 frameSize be s = (Ret tt, set_frames h6 s3).
Proof using Type.
  intros Hp r E1 E2 E3 E4 Ef E5 E6 E7. unfold runOneStep.
  assert (Hid : hasId (prBufId Default) (registry s) = true).
  { assert (Hin : (Default, a) ∈ pres s) by (rewrite Hp; by left). unfold present_bufs in Hin.
    apply list_elem_of_omap in Hin as (sp & _ & Hin). unfold hasId.
    destruct (findId (prBufId sp) (registry s)) as [i|] eqn:Ei; [|discriminate]. simpl in Hin.
    destruct (registry s !! i); [|discriminate]. injection Hin as -> _. by rewrite Ei. }
  etransitivity; [apply (host_bind_ret get_state _ s s s eq_refl)|]. rewrite Hid.
  etransitivity; [apply (host_bind_ret (lift (Ret tt)) _ s tt s eq_refl)|].
  etransitivity; [exact (withSpeciesBufsWithPred_spec registry Always _ s)|]. change (SpeciesWithPred Always AllTypes) with AllTypes.
  unfold timestep. rewrite <-(source_views es (pres s) Ef) in E5, E6.
  assert (Hhead : head (filter (fun b => b.1 = Default) (pres s)) = Some (Default, a)) by (rewrite Hp; reflexivity).
  rewrite Hhead.
  etransitivity; [exact (host_bind_ret _ _ _ _ _ E1)|].
  etransitivity; [exact (host_bind_ret _ _ _ _ _ E2)|].
  etransitivity; [exact (host_bind_ret _ _ _ _ _ E3)|].
  etransitivity; [exact (host_bind_ret _ _ _ _ _ E4)|].
  etransitivity; [exact (host_bind_ret _ _ _ _ _ E5)|].
  etransitivity; [exact (host_bind_ret _ _ _ _ _ E6)|]. exact E7.
Qed.

Lemma integrable_default s a rest : pres s = (Default, a) :: rest -> (forall b, b ∈ rest -> b.1 <> Default) ->
  selectBuffers [Movable; Thermodynamic] (pres s) = [(Default, a)].
Proof using Type.
  intros -> Hrest. unfold selectBuffers. rewrite bind_filter, filter_cons, decide_True by done. f_equal.
  induction rest as [|b rest IH]; [done|]. rewrite filter_cons, decide_False.
  - apply IH. intros b' Hb'. apply Hrest. by right.
  - rewrite (proj1 (other_roles b.1 (Hrest b ltac:(by left)))). done.
Qed.

(** The other species of the pack that are sources. *)
Definition other_sources (s : Simulation R) : list (species * Z) :=
  filter (fun b => b.1 <> Default) (selectBuffers [Species.Source] (pres s)).

Lemma sources_default s a rest : pres s = (Default, a) :: rest -> (forall b, b ∈ rest -> b.1 <> Default) ->
  selectBuffers [Species.Source] (pres s) = (Default, a) :: other_sources s.
Proof using Type.
  intros Hp Hrest. unfold other_sources. rewrite Hp. unfold selectBuffers. rewrite bind_filter.
  rewrite filter_cons, decide_True by done. f_equal. rewrite filter_cons, decide_False by (intros Hne; by apply Hne).
  symmetry. assert (Hall : forall b, b ∈ filter (fun b => forallb (hasRole b.1) [Species.Source] = true) rest -> b.1 <> Default).
  { intros b [_ Hb]%list_elem_of_filter. by apply Hrest. }
  revert Hall. generalize (filter (fun b : species * Z => forallb (hasRole b.1) [Species.Source] = true) rest) as l.
  induction l as [|b l IH]; intros Hall; [done|]. rewrite filter_cons, decide_True by (apply Hall; by left).
  f_equal. apply IH. intros b' Hb'. apply Hall. by right.
Qed.

Definition other_system (s : Simulation R) (h : heap R) : list psource :=
  other_sources s ≫= fun b => bodies h (frames_of b.1).

(** The heaps a step goes through, after the push, the density and the forces. *)
Record step_trace (s s' : Simulation R) (h2 h4 h5 : heap R) : Prop := {
  tr_push : bodies_applied (PushVelocity dt) (moving s) (frames s) h2;
  tr_density_out : forall p, p ∉ frames_of Default -> h4 !! p = h2 !! p;
  tr_force_out : forall p, p ∉ frames_of Default -> h5 !! p = h2 !! p;
  tr_density : let r := (sofZ (supportRadius K) * h0)%S in bodies h4 (frames_of Default) =
    map (with_nb (stage_ref (AccumulateDensity K) (r * r) (DensityInitSelf K)
      (bodies h2 (frames_of Default) ++ other_system s h2))) (bodies h2 (frames_of Default));
  tr_force : let r := (sofZ (supportRadius K) * h0)%S in bodies h5 (frames_of Default) =
    map (with_nb (stage_ref (HydroInteraction K gamma) (r * r) ZeroDerivatives
      (bodies h4 (frames_of Default) ++ other_system s h4))) (bodies h4 (frames_of Default));
  tr_force_some : forall p, p ∈ frames_of Default -> is_Some (h5 !! p);
  tr_euler : bodies_applied (EulerIntegrate dt) (frames_of Default) h5 (frames s')
}.

Lemma frames_some s b p : sim_ok s -> b ∈ pres s -> p ∈ frames_of b.1 -> is_Some (frames s !! p).
Proof using Type.
  intros Hs Hb Hp. destruct (so_buffers s Hs b Hb) as (bu & _ & Hbu & _).
  destruct (bo_sized _ _ _ Hbu p Hp) as (fr & Hfr & _). by exists fr.
Qed.

Lemma pushed_bound B s a h2 : step_pre B s -> (Default, a) ∈ pres s ->
  bodies_applied (PushVelocity dt) (moving s) (frames s) h2 ->
  live_all (fun q => Rabs (vget (relativePos q) ax_x) <= B) h2 (frames_of Default).
Proof using Type.
  intros Hpre Ha Hb2 p fr q Hpd Hfr Hq Ho.
  rewrite Hb2, decide_True in Hfr by (by apply (moving_species s (Default, a) p (sp_ok _ _ Hpre))).
  destruct (frames s !! p) as [fr0|] eqn:Hfr0; [|discriminate]. injection Hfr as <-.
  apply list_elem_of_fmap in Hq as (q0 & -> & Hq0). unfold live_map in *. destruct (occupied q0) eqn:E0; [|congruence].
  by apply (sp_pushed _ _ Hpre p fr0 q0).
Qed.

Lemma step_runs B s : step_pre B s ->
  exists s' h2 h4 h5, runOneStep K dt gamma h0 frameSize be s = (Ret tt, s') /\ registry s' = registry s /\ sim_ok s' /\
    step_trace s s' h2 h4 h5.
Proof using Type.
  intros Hpre. pose proof Hpre as [Hbe Hs Hr HB _ _ _].
  destruct (pres_default s Hs) as (a & rest & Hp & Hrest). assert (Ha : (Default, a) ∈ pres s) by (rewrite Hp; by left).
  destruct (push_phase s Hbe Hs) as (ixs & h2 & E1 & E2 & Hok2 & Hb2 & Hrd2).
  destruct (volumes_step a (set_frames h2 (with_indices ixs s)) Hbe Hok2 Ha)
    as (buf & buf' & Hbuf & E3 & Esz & Hok3 & Hrd3 & Hbo & Hbx).
  set (s3 := set_buffer a buf' (set_frames h2 (with_indices ixs s))) in *.
  destruct (neighbours_spec (sofZ (supportRadius K) * h0)%S buf' s3 (selectBuffers [Species.Source] (pres s)) Hbe Hok3
    (bo_wf _ _ _ Hbo) (sources_ready B s ixs h2 a buf buf' Hpre Ha Hb2 Hbuf Esz Hbx)) as (es & ss & E4 & Ef & Es & Hss & Hsys).
  assert (Hb3 : buffers s3 !! a = Some buf') by apply lookup_insert_eq.
  destruct (Hrd3 (Default, a) (Hrd2 _ Ha eq_refl) Ha) as (bu & Hbu & Hix). simpl fst in Hix. simpl snd in Hbu.
  rewrite Hb3 in Hbu. injection Hbu as <-.
  destruct (phase_spec B s3 a buf' ss Hbe Hb3 Hbo Hix Hbx Hss Hr HB (pushed_bound B s a h2 Hpre Ha Hb2))
    as (h4 & h5 & E5 & E6 & Hrel & Hout4 & Hout5 & Hb4 & Hb5). rewrite Es in E5, E6.
  assert (Hok5 : sim_ok (set_frames h5 s3)).
  { apply sim_ok_frames; [done|by eapply heap_rel_impl, Hrel; intros ?? []|]. intros b Hb.
    destruct (so_buffers s3 Hok3 b Hb) as (bu & _ & Hbu & _).
    eapply live_all_rel; [|exact Hrel|exact (bo_places _ _ _ Hbu)]. intros x y [Ho Hx]. by rewrite Hx. }
  destruct (launch_all 3 (EulerIntegrate dt) [(Default, a)] (set_frames h5 s3) Hbe Hok5) as (h6 & E7 & Hb6).
  { done. } { apply NoDup_singleton. } { intros b ->%list_elem_of_singleton. split; [done|]. by exists buf'. }
  cbn [mbind list_bind fst] in Hb6. rewrite app_nil_r in Hb6.
  assert (Earr : arrange be 2 (selectBuffers [Movable; Thermodynamic] (pres s)) = [(Default, a)]).
  { apply Permutation_singleton_r. rewrite (be_arrange Hbe). by rewrite (integrable_default s a rest). }
  rewrite <-Earr in E7. rewrite Hsys, (sources_default s a rest Hp Hrest), bind_cons in Hb4, Hb5.
  exists (set_frames h6 s3), h2, h4, h5. split_and!; [|done| |constructor; try done].
  - eapply timestep_run; try eassumption. by eapply calculateNeighbours_run.
  - apply (sim_ok_frames h6 (set_frames h5 s3)); [done|by eapply (bodies_applied_rel same_live); [..|exact Hb6]|].
    intros b Hb. destruct (so_buffers (set_frames h5 s3) Hok5 b Hb) as (bu & _ & Hbu & _).
    eapply (live_all_applied (fun q => storage_wf (relativePos q))); [exact Hb6|done|done|done|exact (bo_places _ _ _ Hbu)].
  - intros p Hin. exact (frames_some (set_frames h5 s3) (Default, a) p Hok5 Ha Hin).
Qed.

(** The other sources look the same throughout. *)
Lemma other_system_same s h2 h : sim_ok s -> bodies_applied (PushVelocity dt) (moving s) (frames s) h2 ->
  (forall p, p ∉ frames_of Default -> h !! p = h2 !! p) -> other_system s h = other_system s (frames s).
Proof using Type.
  intros Hs Hb2 Hh. destruct (pres_default s Hs) as (a & rest & Hp & _).
  assert (Ha : (Default, a) ∈ pres s) by (rewrite Hp; by left).
  apply bind_bodies_ext. intros b p [Hd [Hb Hsrc]%elem_selectBuffers]%list_elem_of_filter Hin.
  rewrite Hh by (intros Hin'; by apply (so_disjoint s Hs b (Default, a) Hb Ha Hd p)). simpl in Hsrc. rewrite andb_true_r in Hsrc.
  apply (proj2 (other_roles b.1 Hd)) in Hsrc. rewrite Hb2, decide_False; [done|].
  intros Hm%(moving_species s b p Hs Hb Hin). congruence.
Qed.

Lemma default_moves s p : sim_ok s -> p ∈ frames_of Default -> p ∈ moving s /\ is_Some (frames s !! p).
Proof using Type.
  intros Hs Hin. destruct (pres_default s Hs) as (a & rest & Hp & _).
  assert (Ha : (Default, a) ∈ pres s) by (rewrite Hp; by left). split.
  - by apply (moving_species s (Default, a) p Hs Ha Hin).
  - by apply (frames_some s (Default, a)).
Qed.

(** The particles of every species after the step. *)
Lemma step_spec B s : step_pre B s ->
  exists s', runOneStep K dt gamma h0 frameSize be s = (Ret tt, s') /\ registry s' = registry s /\ sim_ok s' /\
    bodies (frames s') (frames_of Default) =
      step_ref (other_system s (frames s)) (bodies (frames s) (frames_of Default)) /\
    forall b, b ∈ pres s -> b.1 <> Default -> bodies (frames s') (frames_of b.1) =
      (if hasRole b.1 Movable then map (with_nb (fun a => PushVelocity dt (src_nb a))) else fun l => l)
        (bodies (frames s) (frames_of b.1)).
Proof using Type.
  intros Hpre. pose proof (sp_ok _ _ Hpre) as Hs.
  destruct (step_runs B s Hpre) as (s' & h2 & h4 & h5 & E & Er & Hok' & [Hb2 Hout4 Hout5 Hb4 Hb5 Hsome Hb6]).
  assert (Hdm : forall p, p ∈ frames_of Default -> p ∈ moving s /\ is_Some (frames s !! p)) by (intros; by apply default_moves).
  exists s'. split_and!; [done..| |].
  - rewrite (bodies_launch (EulerIntegrate dt) (frames_of Default) _ h5 _ (fun _ => eq_refl) Hb6) by done.
    rewrite (other_system_same s h2 h2 Hs Hb2) in Hb4 by done. rewrite (other_system_same s h2 h4 Hs Hb2 Hout4) in Hb5.
    rewrite Hb5, Hb4, (bodies_launch (PushVelocity dt) (frames_of Default) (moving s) (frames s) h2 push_occupied Hb2);
      [done|intros p Hin; by apply Hdm..].
  - intros b Hb Hd. transitivity (bodies h2 (frames_of b.1)).
    { apply bodies_ext. intros p Hin. assert (Hin' : p ∉ frames_of Default).
      { intros Hin'. destruct (pres_default s Hs) as (a & rest & Hp & _).
        apply (so_disjoint s Hs b (Default, a) Hb ltac:(rewrite Hp; by left) Hd p); done. }
      rewrite Hb6, decide_False by done. by apply Hout5. }
    destruct (hasRole b.1 Movable) eqn:Hm.
    + apply (bodies_launch (PushVelocity dt) _ (moving s) _ _ push_occupied Hb2).
      * intros p Hin. by apply (moving_species s b).
      * intros p Hin. by apply (frames_some s b).
    + apply bodies_ext. intros p Hin. rewrite Hb2, decide_False; [done|].
      intros Hm'%(moving_species s b p Hs Hb Hin). congruence.
Qed.

(** C1: one time step computes the all-pairs reference on the live particles, whatever the orders of
    blocks, the schedules of the workers, the staleness of the indices and the garbage in fresh memory:
    the particles of the default species are pushed, get the density and then the pressure forces that
    the pairwise folds over ALL particles of ALL sources give, and are integrated; every other moving
    species is pushed and nothing else happens to it; walls are untouched; and the state is
    well-formed again.  (The bound on the pushed positions keeps the sentinel of dead slots out of
    range.) *)
Theorem run_one_step B s : step_pre B s ->
  exists s', runOneStep K dt gamma h0 frameSize be s = (Ret tt, s') /\ registry s' = registry s /\ sim_ok s' /\
    bodies (frames s') (frames_of Default) =
      step_ref (other_system s (frames s)) (bodies (frames s) (frames_of Default)) /\
    forall b, b ∈ pres s -> b.1 <> Default -> bodies (frames s') (frames_of b.1) =
      (if hasRole b.1 Movable then map (with_nb (fun a => PushVelocity dt (src_nb a))) else fun l => l)
        (bodies (frames s) (frames_of b.1)).
Proof using Type. exact (step_spec B s). Qed.

(** ** Conservation *)

Definition total_momentum (t : axis) (l : list psource) : R :=
  Rsum (map (fun a => mass (src_nb a) * vget (velocity (src_nb a)) t) l).
Definition total_energy (l : list psource) : R :=
  Rsum (map (fun a => mass (src_nb a) * (dot (velocity (src_nb a)) (velocity (src_nb a)) / 2 + internalEnergy (src_nb a))) l).

(** The part of a step before the forces leaves masses, velocities and energies alone. *)
Definition densified (all : list psource) (a : psource) : psource :=
  with_nb (stage_ref (AccumulateDensity K) ((sofZ (supportRadius K) * h0) * (sofZ (supportRadius K) * h0))%S (DensityInitSelf K) all)
    (with_nb (fun a => PushVelocity dt (src_nb a)) a).

Lemma densified_spec all a : psource_wf a -> occupied (src_nb a) = true -> relativePos (src_nb a) = src_rel a ->
  psource_wf (densified all a) /\ occupied (src_nb (densified all a)) = true /\
  relativePos (src_nb (densified all a)) = src_rel (densified all a) /\ src_volume (densified all a) = at_zero /\
  mass (src_nb (densified all a)) = mass (src_nb a) /\ velocity (src_nb (densified all a)) = velocity (src_nb a) /\
  internalEnergy (src_nb (densified all a)) = internalEnergy (src_nb a).
Proof using Type.
  intros (_ & Hx & Hv & Hd) Ho Hr.
  assert (Hst : forall q, occupied q = true -> exists x, particle_result (AccumulateDensity K)
      ((sofZ (supportRadius K) * h0) * (sofZ (supportRadius K) * h0))%S (src_ptr a) at_zero
      (map (restage (fun s => fn_stage (AccumulateDensity K) (src_nb s))) all) (src_slot a) (DensityInitSelf K q) =
      set_density x q).
  { intros q Hq. unfold particle_result, load_slot. change (occupied (DensityInitSelf K q)) with (occupied q).
    rewrite Hq. simpl. by eexists. }
  unfold densified, with_nb, stage_ref. cbn [src_ptr src_slot src_nb src_rel src_volume].
  destruct (Hst (PushVelocity dt (src_nb a)) Ho) as [x ->]. cbn. split_and!; try done.
  split_and!; cbn; [apply broadcast_wf|by apply push_wf; rewrite Hr|done..].
Qed.

Lemma dot_axpy (v w u : storage R) c :
  (forall t, t ∈ cartesian_tags cs_dim -> vget w t = vget v t + vget u t * c) ->
  dot w w = dot v v + 2 * c * dot v u + c * c * dot u u.
Proof using Type.
  intros E. unfold dot. rewrite !tsum_Rsum.
  transitivity (Rsum (map (fun t => vget v t * vget v t + (2 * c * (vget v t * vget u t) + c * c * (vget u t * vget u t)))
    (cartesian_tags cs_dim))).
  - apply Rsum_ext. intros t Ht. rewrite (E t Ht). ring.
  - rewrite !Rsum_add, !Rsum_scal. ring.
Qed.

Lemma Rsum_map_map {A C} (g : A -> C) (f : C -> R) l : Rsum (map f (map g l)) = Rsum (map (fun a => f (g a)) l).
Proof using Type. by rewrite map_map. Qed.

(** Forces and integration on a closed system. *)
Lemma closed_step r (l : list psource) :
  (forall b, b ∈ l -> psource_wf b /\ occupied (src_nb b) = true /\ relativePos (src_nb b) = src_rel b) ->
  let final := map (fun a => with_nb (fun a => EulerIntegrate dt (src_nb a)) (with_nb (hydro_result K gamma r l) a)) l in
  (forall t, t ∈ cartesian_tags cs_dim -> total_momentum t final = total_momentum t l) /\
  total_energy final = total_energy l +
    dt * dt / 2 * Rsum (map (fun a => mass (src_nb a) * dot (dvdt (src_nb a)) (dvdt (src_nb a))) final).
Proof using Type.
  intros Hl final. 
  assert (Hres : forall a, a ∈ l -> let q := hydro_result K gamma r l a in
    mass q = mass (src_nb a) /\ velocity q = velocity (src_nb a) /\ internalEnergy q = internalEnergy (src_nb a) /\
    forall t, t ∈ cartesian_tags cs_dim ->
      vget (velocity (EulerIntegrate dt q)) t = vget (velocity (src_nb a)) t + vget (dvdt q) t * dt).
  { intros a Ha q. destruct (Hl a Ha) as (Hw & Ho & Hr).
    destruct (hydro_result_spec K gamma r l a Hw (fun b Hb => proj1 (Hl b Hb)) Ho Hr) as (Em & Ev & _).
    split_and!; [exact Em|exact Ev| |].
    - unfold q, hydro_result, particle_result, load_slot. change (occupied (ZeroDerivatives (src_nb a))) with (occupied (src_nb a)).
      by rewrite Ho.
    - intros t Ht. unfold q at 1. unfold EulerIntegrate. simpl. rewrite Ev.
      apply (for_each_tag_vset (fun t v => v + vget (dvdt q) t * dt) (velocity (src_nb a)) ltac:(apply Hw)); done. }
  split.
  - intros t Ht. pose proof (closed_momentum K gamma r l t Hl Ht) as Hz. unfold total_momentum, final. rewrite Rsum_map_map.
    transitivity (Rsum (map (fun a => mass (src_nb a) * vget (velocity (src_nb a)) t +
      dt * (mass (hydro_result K gamma r l a) * vget (dvdt (hydro_result K gamma r l a)) t)) l)).
    + apply Rsum_ext. intros a Ha. destruct (Hres a Ha) as (Em & _ & _ & Ev). cbn [with_nb src_nb]. rewrite (Ev t Ht).
      change (mass (EulerIntegrate dt (hydro_result K gamma r l a))) with (mass (hydro_result K gamma r l a)). rewrite Em. ring.
    + rewrite Rsum_add, (Rsum_scal dt), Hz. ring.
  - pose proof (closed_energy K gamma r l Hl) as Hz. unfold total_energy, final. rewrite !Rsum_map_map.
    transitivity (Rsum (map (fun a =>
      (mass (src_nb a) * (dot (velocity (src_nb a)) (velocity (src_nb a)) / 2 + internalEnergy (src_nb a)) +
       dt * (mass (hydro_result K gamma r l a) * (dot (velocity (hydro_result K gamma r l a)) (dvdt (hydro_result K gamma r l a)) + dudt (hydro_result K gamma r l a)))) +
      dt * dt / 2 * (mass (hydro_result K gamma r l a) * dot (dvdt (hydro_result K gamma r l a)) (dvdt (hydro_result K gamma r l a)))) l)).
    + apply Rsum_ext. intros a Ha. destruct (Hres a Ha) as (Em & Ev0 & Eu & Ev). cbn [with_nb src_nb].
      set (q := hydro_result K gamma r l a) in *. rewrite (dot_axpy (velocity (src_nb a)) _ (dvdt q) dt Ev).
      change (mass (EulerIntegrate dt q)) with (mass q).
      change (internalEnergy (EulerIntegrate dt q)) with (internalEnergy q + dudt q * dt). rewrite Em, Eu, Ev0. field.
    + rewrite !Rsum_add, (Rsum_scal dt), (Rsum_scal (dt * dt / 2)), Hz, Rmult_0_r, Rplus_0_r. done.
Qed.

Lemma densified_totals all (bs : list psource) :
  (forall a, a ∈ bs -> psource_wf a /\ occupied (src_nb a) = true /\ relativePos (src_nb a) = src_rel a) ->
  (forall t, total_momentum t (map (densified all) bs) = total_momentum t bs) /\
  total_energy (map (densified all) bs) = total_energy bs.
Proof using Type.
  intros Hbs. unfold total_momentum, total_energy.
  split; [intros t|]; rewrite Rsum_map_map; apply Rsum_ext; intros a (Hw & Ho & Hr)%Hbs;
    destruct (densified_spec all a Hw Ho Hr) as (_ & _ & _ & _ & -> & -> & Eu); [done|by rewrite Eu].
Qed.

(** Without other sources the reference step is a step of a closed system. *)
Lemma step_ref_closed (bs : list psource) :
  (forall a, a ∈ bs -> psource_wf a /\ occupied (src_nb a) = true /\ relativePos (src_nb a) = src_rel a) ->
  exists all, let dense := map (densified all) bs in
    step_ref [] bs = map (fun a => with_nb (fun a => EulerIntegrate dt (src_nb a))
      (with_nb (hydro_result K gamma (sofZ (supportRadius K) * h0)%S dense) a)) dense.
Proof using Type.
  intros Hbs. unfold step_ref. rewrite !app_nil_r.
  exists (map (with_nb (fun a => PushVelocity dt (src_nb a))) bs). unfold densified. rewrite !map_map.
  apply map_ext_in. intros a Ha%list_elem_of_In. done.
Qed.

(** C2: a step of a closed system - the fluid is the only source - conserves every component of the
    total momentum exactly, and changes the total energy by no more than the explicit Euler error
    [dt^2/2] times the sum of [m |dv/dt|^2]; so what the code adds to the physics is second order in
    the time step.  It holds for both kernels, any gamma, any decomposition into regions and frames
    and any order of execution. *)
Theorem step_conserves B s : step_pre B s -> other_sources s = [] ->
  (forall a, a ∈ bodies (frames s) (frames_of Default) -> psource_wf a) ->
  exists s', runOneStep K dt gamma h0 frameSize be s = (Ret tt, s') /\
    (forall t, t ∈ cartesian_tags cs_dim ->
       total_momentum t (bodies (frames s') (frames_of Default)) = total_momentum t (bodies (frames s) (frames_of Default))) /\
    total_energy (bodies (frames s') (frames_of Default)) = total_energy (bodies (frames s) (frames_of Default)) +
      dt * dt / 2 * Rsum (map (fun a => mass (src_nb a) * dot (dvdt (src_nb a)) (dvdt (src_nb a)))
                            (bodies (frames s') (frames_of Default))).
Proof using Type.
  intros Hpre Hno Hwf. destruct (step_spec B s Hpre) as (s' & E & _ & _ & Hb & _). exists s'. split; [exact E|].
  assert (Hbs : forall a, a ∈ bodies (frames s) (frames_of Default) ->
    psource_wf a /\ occupied (src_nb a) = true /\ relativePos (src_nb a) = src_rel a).
  { intros a Ha. split; [by apply Hwf|]. by eapply bodies_live. }
  unfold other_system in Hb. rewrite Hno in Hb. simpl in Hb.
  destruct (step_ref_closed _ Hbs) as (all & Hc). rewrite Hb, Hc.
  destruct (densified_totals all _ Hbs) as [Em <-].
  destruct (closed_step (sofZ (supportRadius K) * h0)%S (map (densified all) (bodies (frames s) (frames_of Default))))
    as [Hm He]; [|split; [|exact He]; intros t Ht; rewrite <-Em; by apply Hm].
  intros b (a & -> & Ha)%list_elem_of_fmap. destruct (Hbs a Ha) as (Hw & Ho & Hr).
  by destruct (densified_spec all a Hw Ho Hr) as (? & ? & ? & _).
Qed.
End laws.

(** ** Witnesses *)

Section witness.
#[local] Existing Instance dim1.
Local Open Scope R_scope.

Definition listsR (sp : species) : list (list Z) := match sp with Default => [[16%Z]] | _ => [] end.
Definition backendR : Backend R :=
  mkBackend 31 1 1 77 0 (mkStaged 0 0 0 [0]) (fun _ => [0%nat]) (fun _ => [0%nat]) (fun _ _ => seq 0) (seq 0)
    (fun _ => [0%nat]) (fun _ => [0%nat]) (fun _ _ => [0%nat]) (fun _ _ => seq 0) (fun _ l => l).
Definition simR : Simulation R :=
  mkSimulation [mkData "PRBuf_Default" 5%Z] (<[5%Z := prR]> ∅) heapR (fun _ => indexR).

Lemma presR : present_bufs (registry (T := R)) AllTypes simR = [(Default, 5%Z)].
Proof. reflexivity. Qed.

Lemma bufferR buf : buffers simR !! 5%Z = Some buf -> buf = prR.
Proof. simpl. by intros [= <-]. Qed.

Lemma slotR (P : Particle R -> Prop) p fr q : P (partR 1) ->
  p ∈ concat (listsR Default) -> frames simR !! p = Some fr -> q ∈ slots fr -> occupied q = true -> P q.
Proof.
  intros HP ->%list_elem_of_singleton Hfr Hq Ho. simpl in Hfr. injection Hfr as <-. by rewrite (slots_frameR q Hq Ho).
Qed.

Lemma buffer_ok_R : buffer_ok 2 backendR listsR Default heapR prR.
Proof.
  constructor.
  - split; simpl; lia.
  - exact (so_lists _ _ _ _ _ _ _ _ search_ok_R).
  - intros ps ->%list_elem_of_singleton. simpl. lia.
  - intros p ->%list_elem_of_singleton. by exists frameR.
  - apply NoDup_singleton.
  - done.
  - done.
  - intros p fr q. by apply (slotR (fun q => storage_wf (relativePos q))).
  - done.
  - done.
Qed.

Lemma sim_ok_R : sim_ok 2 backendR listsR simR.
Proof.
  constructor; rewrite presR.
  - exists 5%Z. by left.
  - apply NoDup_singleton.
  - intros b ->%list_elem_of_singleton. exists prR. split_and!; [done|exact buffer_ok_R|]. left. split; [done|].
    assert (Ht : target_ok still 0 prR indexR [[16%Z]] heapR) by (apply target_ok_R; lra). exact (to_index _ _ _ _ _ _ Ht).
  - by intros b b' ->%list_elem_of_singleton ->%list_elem_of_singleton [].
Qed.

Lemma step_pre_R : step_pre CubicSplineKernel (1 / 2) (3 / 2) 2 backendR listsR 1 simR.
Proof.
  constructor.
  - constructor; try done; [| |by intros n i k]; exists 0%nat; (split; [done|apply Nat.leb_le; reflexivity]).
  - exact sim_ok_R.
  - simpl. lra.
  - pose proof big_max. change (2 * (3 / 2) + 1 <= Rflt_max / 4). lra.
  - intros p fr q. apply (slotR (fun q => Rabs (vget (relativePos (PushVelocity (1 / 2) q)) ax_x) <= 1)). change (Rabs (1 + 0 * (1 / 2)) <= 1). rewrite Rmult_0_l, Rplus_0_r, Rabs_R1. lra.
  - rewrite presR. intros a b target src [= ->]%list_elem_of_singleton ->%list_elem_of_singleton _ ->%bufferR ->%bufferR.
    by constructor.
  - rewrite presR. by intros b src ->%list_elem_of_singleton _ [].
Qed.

Lemma run_one_step_witness :
  exists s', runOneStep CubicSplineKernel (1 / 2) (5 / 3) (3 / 2) 2 backendR simR = (Ret tt, s') /\
    bodies (frames s') [16%Z] =
      step_ref CubicSplineKernel (1 / 2) (5 / 3) (3 / 2) [] (bodies heapR [16%Z]).
Proof.
  destruct (run_one_step CubicSplineKernel (1 / 2) (5 / 3) (3 / 2) 2 backendR listsR 1 simR) as (s' & E & _ & _ & Hb & _).
  - exact step_pre_R.
  - exists s'. split; [exact E|exact Hb].
Defined.

Lemma step_conserves_witness :
  exists s', runOneStep CubicSplineKernel (1 / 2) (5 / 3) (3 / 2) 2 backendR simR = (Ret tt, s') /\
    total_momentum ax_x (bodies (frames s') [16%Z]) = total_momentum ax_x (bodies heapR [16%Z]).
Proof.
  destruct (step_conserves CubicSplineKernel (1 / 2) (5 / 3) (3 / 2) 2 backendR listsR 1 simR) as (s' & E & Hm & _).
  - exact step_pre_R.
  - reflexivity.
  - intros a Ha. change (bodies heapR [16%Z]) with [mkSource at_zero 16 0 [1] (partR 1)] in Ha.
    apply list_elem_of_singleton in Ha as ->. split_and!; reflexivity.
  - exists s'. split; [exact E|]. apply (Hm ax_x). by left.
Defined.
End witness.
