(* ===== verification/TaskGraph.v ===== *)
(** * Sender graphs

    Models caravan/core/sender/graph.hpp: the static checks of [graph(...)] and the operation that
    runs a graph, whose nodes start when the last of their predecessors completes.  Completions
    come from any thread in any order; each one is a critical section ([complete]) followed by the
    starts it released. *)
From Stdlib Require Import ZArith Lia.
From stdpp Require Import base list numbers strings relations.
From S2P Require Import Prelude Transition.

(** ** Topology *)

(** A node: its name and the names in its [After] list. *)
Record GraphNode : Type := mkNode { identity : string; predecessors_of : list string }.

Definition containsIdentity (after : list string) (x : string) : bool := existsb (String.eqb x) after.

Definition identityCount (x : string) (nodes : list GraphNode) : nat :=
  foldr (fun n c => (if String.eqb x (identity n) then 1 else 0) + c)%nat 0%nat nodes.

Definition identityAppearsBefore (x : string) (nodes : list GraphNode) (limit : nat) : bool :=
  existsb (fun n => String.eqb x (identity n)) (take limit nodes).

Definition predecessorsAppearBefore (after : list string) (nodes : list GraphNode) (limit : nat) : bool :=
  forallb (fun x => identityAppearsBefore x nodes limit) after.

Definition hasUniqueNames (nodes : list GraphNode) : bool :=
  forallb (fun n => (identityCount (identity n) nodes =? 1)%nat) nodes.

Definition isTopologicallyOrdered (nodes : list GraphNode) : bool :=
  forallb (fun '(i, n) => predecessorsAppearBefore (predecessors_of n) nodes i) (imap pair nodes).

(** [GraphTopology::predecessors]. *)
Definition predecessors (nodes : list GraphNode) (row column : nat) : bool :=
  match nodes !! row, nodes !! column with
  | Some r, Some c => containsIdentity (predecessors_of r) (identity c)
  | _, _ => false
  end.

(** The static assertions of [graph]. *)
Definition graph (nodes : list GraphNode) : bool :=
  (0 <? length nodes)%nat && hasUniqueNames nodes && isTopologicallyOrdered nodes.

(** ** The operation *)

Record GraphOperation : Type := mkGraphOp {
  m_remainingPredecessors : list Z;
  m_resolved : list bool;
  m_unresolved : Z
}.

Section operation.
Context (nodes : list GraphNode).
#[local] Abbreviation nodeCount := (length nodes).

(** The constructor counts the predecessors. *)
Definition GraphOperation_init : GraphOperation :=
  mkGraphOp
    (map (fun node => foldl (fun c p => u64 (c + Z.b2z (predecessors nodes node p))) 0%Z (seq 0 nodeCount)) (seq 0 nodeCount))
    (replicate nodeCount false)
    (Z.of_nat nodeCount).

(** [start]: the nodes to start first. *)
Definition initiallyReady (op : GraphOperation) : list nat :=
  filter (fun node => m_remainingPredecessors op !!! node = 0%Z) (seq 0 nodeCount).

Definition resolve (node : nat) (op : GraphOperation) : GraphOperation :=
  mkGraphOp (m_remainingPredecessors op) (<[node := true]> (m_resolved op)) (u64 (m_unresolved op - 1)).

(** The loop over the successors of [t]. *)
Fixpoint releaseSuccessors (t : nat) (succs : list nat) (op : GraphOperation) (ready : list nat) : GraphOperation * list nat :=
  match succs with
  | [] => (op, ready)
  | s :: succs =>
      if (negb (m_resolved op !!! s) && predecessors nodes s t)%bool then
        let r := u64 (m_remainingPredecessors op !!! s - 1) in
        let op := mkGraphOp (<[s := r]> (m_remainingPredecessors op)) (m_resolved op) (m_unresolved op) in
        releaseSuccessors t succs op (if (r =? 0)%Z then ready ++ [s] else ready)
      else releaseSuccessors t succs op ready
  end.

(** The critical section of [complete<t>]: the nodes it releases and whether the graph is done. *)
Definition complete (t : nat) (op : GraphOperation) : GraphOperation * list nat * bool :=
  let op := resolve t op in
  let '(op, ready) := releaseSuccessors t (seq (S t) (nodeCount - S t)) op [] in
  (op, ready, (m_unresolved op =? 0)%Z).

(** ** Executions *)

(** The operation with what its threads are about to do: the nodes a [startNodes] still has to
    start, and the nodes that run.  [started] and [completed] log the order of events, [delivered]
    counts the calls of the receiver. *)
Record State : Type := mkState {
  op : GraphOperation;
  pending : list (list nat);
  started : list nat;
  completed : list nat;
  delivered : nat
}.

Definition running (s : State) (node : nat) : Prop := node ∈ started s /\ node ∉ completed s.

Definition initial : State := mkState GraphOperation_init [initiallyReady GraphOperation_init] [] [] 0.

Inductive step : State -> State -> Prop :=
  | step_start o before node rest after st cp d :
      step (mkState o (before ++ (node :: rest) :: after) st cp d)
           (mkState o (before ++ rest :: after) (st ++ [node]) cp d)
  | step_complete s node o ready finished :
      running s node -> complete node (op s) = (o, ready, finished) ->
      step s (mkState o (if finished then pending s else if (0 <? length ready)%nat then pending s ++ [ready] else pending s)
                (started s) (completed s ++ [node]) (if finished then S (delivered s) else delivered s)).
End operation.

(** ** The static checks *)

Lemma identityCount_zero x nodes j b : identityCount x nodes = 0 -> nodes !! j = Some b -> identity b <> x.
Proof.
  revert j. induction nodes as [|n nodes IH]; intros j Hc Hj; [done|]. simpl in Hc. destruct j as [|j].
  - injection Hj as <-. intros <-. rewrite String.eqb_refl in Hc. discriminate.
  - apply (IH j); [|done]. destruct (String.eqb _ _); [discriminate|exact Hc].
Qed.

Lemma identityCount_unique x nodes i j a b :
  identityCount x nodes = 1 -> nodes !! i = Some a -> nodes !! j = Some b -> identity a = x -> identity b = x -> i = j.
Proof.
  revert i j. induction nodes as [|n nodes IH]; intros i j Hc Hi Hj Ha Hb; [done|]. simpl in Hc.
  destruct (String.eqb_spec x (identity n)) as [Hx|Hx].
  - assert (Hz : identityCount x nodes = 0) by lia.
    destruct i as [|i], j as [|j]; [done|exfalso..|]; simpl in Hi, Hj.
    + by apply (identityCount_zero x nodes j b).
    + by apply (identityCount_zero x nodes i a).
    + exfalso. by apply (identityCount_zero x nodes i a).
  - destruct i as [|i], j as [|j]; [done| | |]; simpl in Hi, Hj; [congruence..|]. f_equal. by apply IH.
Qed.

(** In a graph that passes the checks every edge goes back to an earlier node. *)
Lemma graph_edges nodes i j : graph nodes = true -> predecessors nodes i j = true -> j < i < length nodes.
Proof.
  unfold graph, predecessors. intros [[_ Hu]%andb_prop Ho]%andb_prop Hp.
  destruct (nodes !! i) as [r|] eqn:Hi; [|discriminate]. destruct (nodes !! j) as [c|] eqn:Hj; [|discriminate].
  split; [|by eapply lookup_lt_Some]. unfold isTopologicallyOrdered in Ho. rewrite forallb_forall in Ho.
  assert (Hin : In (i, r) (imap pair nodes)).
  { apply list_elem_of_In, list_elem_of_lookup. exists i. by rewrite list_lookup_imap, Hi. }
  specialize (Ho _ Hin). simpl in Ho. unfold predecessorsAppearBefore in Ho. rewrite forallb_forall in Ho.
  unfold containsIdentity in Hp. apply existsb_exists in Hp as (x & Hx & Ex%String.eqb_eq). subst x.
  specialize (Ho _ Hx). apply existsb_exists in Ho as (c' & Hc' & Eq%String.eqb_eq).
  apply list_elem_of_In, list_elem_of_lookup in Hc' as [j' Hj']. apply lookup_take_Some in Hj' as [Hj' Hlt].
  unfold hasUniqueNames in Hu. rewrite forallb_forall in Hu.
  assert (Hc : In c nodes) by (by apply list_elem_of_In, (list_elem_of_lookup_2 _ j)).
  specialize (Hu _ Hc). apply Nat.eqb_eq in Hu.
  assert (j = j') as -> by (eapply identityCount_unique; [exact Hu|exact Hj|exact Hj'|done|done]). exact Hlt.
Qed.

(** ** Counting *)

Section counting.
Context (nodes : list GraphNode).
#[local] Abbreviation n := (length nodes).

(** The predecessors of [i] that are not among [c]. *)
Definition missing (c : list nat) (i : nat) : nat :=
  length (filter (fun j => predecessors nodes i j = true /\ j ∉ c) (seq 0 n)).

Lemma missing_snoc c t i : t < n -> t ∉ c ->
  missing c i = (missing (c ++ [t]) i + if predecessors nodes i t then 1 else 0)%nat.
Proof.
  intros Ht Hc. unfold missing. assert (Hin : t ∈ seq 0 n) by (apply elem_of_seq; lia).
  pose proof (NoDup_seq 0 n) as Hnd. revert Hnd Hin. generalize (seq 0 n) as l.
  assert (Hother : forall l : list nat, t ∉ l -> filter (fun j => predecessors nodes i j = true /\ j ∉ c) l =
    filter (fun j => predecessors nodes i j = true /\ j ∉ c ++ [t]) l).
  { intros l Hl. apply list_filter_ext_in. intros j Hj. rewrite elem_of_snoc_ne by (intros ->; done). done. }
  induction l as [|j l IH]; [by intros _ []%elem_of_nil|]. intros [Hj Hnd]%list.NoDup_cons Hin.
  rewrite !filter_cons. destruct (decide (j = t)) as [->|Hne].
  - rewrite (decide_False (P := predecessors nodes i t = true /\ t ∉ c ++ [t])).
    2:{ intros [_ Hn]. apply Hn, elem_of_app. right. by left. }
    rewrite (Hother l) by done. destruct (predecessors nodes i t).
    + rewrite decide_True by done. simpl. lia.
    + rewrite decide_False by (by intros [? _]). lia.
  - apply elem_of_cons in Hin as [->|Hin]; [done|]. specialize (IH Hnd Hin).
    destruct (decide (predecessors nodes i j = true /\ j ∉ c)) as [[Hp Hjc]|Hno].
    + rewrite decide_True by (split; [done|]; by rewrite elem_of_snoc_ne). simpl. rewrite IH. lia.
    + rewrite decide_False; [exact IH|]. by rewrite elem_of_snoc_ne.
Qed.

Lemma missing_zero c i : missing c i = 0 <-> forall j, predecessors nodes i j = true -> j < n -> j ∈ c.
Proof.
  unfold missing. rewrite length_zero_iff_nil. split.
  - intros Hf j Hp Hj. destruct (decide (j ∈ c)) as [|Hn]; [done|].
    assert (Hin : j ∈ filter (fun j => predecessors nodes i j = true /\ j ∉ c) (seq 0 n)).
    { apply list_elem_of_filter. split; [done|]. apply elem_of_seq. lia. }
    rewrite Hf in Hin. by apply elem_of_nil in Hin.
  - intros Hall. apply list_filter_none. intros j Hj [Hp Hn]. apply Hn, Hall; [done|]. apply elem_of_seq in Hj. lia.
Qed.

Lemma missing_le c i : (missing c i <= n)%nat.
Proof. unfold missing. rewrite <-(length_seq n 0) at 2. apply length_filter. Qed.

Lemma init_counts i : (Z.of_nat n < 2 ^ 64)%Z -> i < n ->
  m_remainingPredecessors (GraphOperation_init nodes) !!! i = Z.of_nat (missing [] i).
Proof.
  intros Hn Hi. apply list_lookup_total_correct. simpl. rewrite list_lookup_fmap, lookup_seq_lt by done. simpl. f_equal.
  unfold missing. assert (Hg : forall l c, (0 <= c)%Z -> (c + Z.of_nat (length l) < 2 ^ 64)%Z ->
    foldl (fun c p => u64 (c + Z.b2z (predecessors nodes i p))) c l =
    (c + Z.of_nat (length (filter (fun j => predecessors nodes i j = true /\ j ∉ []) l)))%Z).
  { induction l as [|j l IH]; intros c Hc Hl; [simpl; lia|]. cbn [foldl length] in *. rewrite filter_cons.
    destruct (predecessors nodes i j); simpl Z.b2z.
    - rewrite u64_small, IH, decide_True by (lia || (split; [done|apply not_elem_of_nil])). simpl. lia.
    - rewrite u64_small, IH, decide_False by (lia || (by intros [? _])). lia. }
  rewrite Hg by (rewrite ?length_seq; lia). lia.
Qed.
End counting.

(** ** The critical section *)

Lemma releaseSuccessors_spec nodes t succs op ready :
  NoDup succs ->
  (forall s, s ∈ succs -> s < length (m_remainingPredecessors op) /\ m_resolved op !!! s = false \/ predecessors nodes s t = false) ->
  (forall s, s ∈ succs -> predecessors nodes s t = true -> (0 < m_remainingPredecessors op !!! s < 2 ^ 64)%Z) ->
  exists rem, releaseSuccessors nodes t succs op ready =
    (mkGraphOp rem (m_resolved op) (m_unresolved op),
     ready ++ filter (fun s => predecessors nodes s t = true /\ m_remainingPredecessors op !!! s = 1%Z) succs) /\
    length rem = length (m_remainingPredecessors op) /\
    forall i, rem !!! i = (if decide (i ∈ succs /\ predecessors nodes i t = true)
                           then m_remainingPredecessors op !!! i - 1 else m_remainingPredecessors op !!! i)%Z.
Proof.
  revert op ready. induction succs as [|s succs IH]; intros op ready Hnd Hres Hrem.
  { exists (m_remainingPredecessors op). rewrite app_nil_r. split_and!; [by destruct op|done|].
    intros i. rewrite decide_False; [done|]. by intros [[]%elem_of_nil _]. }
  apply list.NoDup_cons in Hnd as [Hs Hnd]. cbn [releaseSuccessors]. rewrite filter_cons.
  destruct (predecessors nodes s t) eqn:Hp.
  - destruct (Hres s ltac:(by left)) as [[Hlt Hr]|?]; [|congruence]. rewrite Hr. simpl.
    specialize (Hrem s ltac:(by left) Hp) as Hs1. rewrite u64_small by lia.
    set (op' := mkGraphOp _ _ _).
    set (ready' := if (m_remainingPredecessors op !!! s - 1 =? 0)%Z then ready ++ [s] else ready).
    destruct (IH op' ready') as (rem & E & Hl & Hv); [done| | |].
    { intros s' Hs'. destruct (Hres s' ltac:(by right)) as [[? ?]|?]; [left|by right]. simpl. by rewrite length_insert. }
    { intros s' Hs' Hp'. simpl. rewrite list_lookup_total_insert_ne by (by intros <-). apply Hrem; [by right|done]. }
    exists rem. rewrite E. simpl in Hl. rewrite length_insert in Hl. split_and!; [|done|].
    + f_equal. unfold ready'. assert (Ef : filter (fun s => predecessors nodes s t = true /\ m_remainingPredecessors op' !!! s = 1%Z) succs =
        filter (fun s => predecessors nodes s t = true /\ m_remainingPredecessors op !!! s = 1%Z) succs).
      { apply list_filter_ext_in. intros s' Hs'. simpl. rewrite list_lookup_total_insert_ne by (by intros <-). done. }
      rewrite Ef. destruct (Z.eqb_spec (m_remainingPredecessors op !!! s - 1) 0) as [E0|E0].
      * rewrite decide_True by (split; [done|lia]). by rewrite <-app_assoc.
      * rewrite decide_False by (intros [_ ?]; lia). done.
    + intros i. rewrite Hv. simpl. destruct (decide (i = s)) as [->|Hne].
      * rewrite decide_False by (by intros [? _]). rewrite decide_True by (split; [by left|done]).
        by rewrite list_lookup_total_insert_eq.
      * rewrite list_lookup_total_insert_ne by done.
        destruct (decide (i ∈ succs /\ predecessors nodes i t = true)) as [[H1 H2]|Hno].
        { rewrite decide_True; [done|]. split; [by right|done]. }
        rewrite decide_False; [done|]. intros [[->|H1]%elem_of_cons H2]; [done|]. by apply Hno.
  - rewrite andb_false_r. destruct (IH op ready) as (rem & E & Hl & Hv); [done| | |].
    { intros s' Hs'. apply Hres. by right. } { intros s' Hs'. apply Hrem. by right. }
    exists rem. rewrite E, decide_False by (by intros [? _]). split_and!; [done..|].
    intros i. rewrite Hv. destruct (decide (i ∈ succs /\ predecessors nodes i t = true)) as [[H1 H2]|Hno].
    { rewrite decide_True; [done|]. split; [by right|done]. }
    rewrite decide_False; [done|]. intros [[->|H1]%elem_of_cons H2]; [congruence|]. by apply Hno.
Qed.

Section runs.
Context (nodes : list GraphNode) (Hgraph : graph nodes = true) (Hsize : (Z.of_nat (length nodes) < 2 ^ 64)%Z).
#[local] Abbreviation n := (length nodes).

(** What the operation holds after the completions [c]. *)
Record op_ok (c : list nat) (o : GraphOperation) : Prop := {
  ok_rem : length (m_remainingPredecessors o) = n;
  ok_res : length (m_resolved o) = n;
  ok_count : forall i, i < n -> m_remainingPredecessors o !!! i = Z.of_nat (missing nodes c i);
  ok_resolved : forall i, i < n -> m_resolved o !!! i = bool_decide (i ∈ c);
  ok_unresolved : m_unresolved o = Z.of_nat (n - length c)
}.

Lemma init_ok : op_ok [] (GraphOperation_init nodes).
Proof using Hsize.
  constructor.
  - simpl. by rewrite length_map, length_seq.
  - apply length_replicate.
  - intros i Hi. by apply init_counts.
  - intros i Hi. simpl. rewrite lookup_total_replicate_2 by done. done.
  - simpl. by rewrite Nat.sub_0_r.
Qed.

(** Completed nodes are nodes, completed once. *)
Definition log_ok (c : list nat) : Prop := NoDup c /\ forall i, i ∈ c -> i < n.

Lemma log_length c : log_ok c -> (length c <= n)%nat.
Proof using Type.
  intros [Hnd Hc]. rewrite <-(length_seq n 0). apply submseteq_length, NoDup_submseteq; [done|].
  intros i Hi. apply elem_of_seq. specialize (Hc i Hi). lia.
Qed.

Lemma log_snoc c t : log_ok c -> t < n -> t ∉ c -> log_ok (c ++ [t]).
Proof using Type.
  intros [Hnd Hc] Ht Hn. split.
  - apply list.NoDup_app. split_and!; [done| |apply NoDup_singleton]. by intros x Hx ->%list_elem_of_singleton.
  - intros i [Hi|Hi]%elem_of_app; [by apply Hc|]. apply list_elem_of_singleton in Hi as ->. done.
Qed.

Lemma log_full c i : log_ok c -> length c = n -> i < n -> i ∈ c.
Proof using Type.
  intros [Hnd Hc] Hl Hi. assert (Hp : c ≡ₚ seq 0 n).
  { apply submseteq_length_Permutation; [|by rewrite length_seq, Hl]. apply NoDup_submseteq; [done|].
    intros j Hj. apply elem_of_seq. specialize (Hc j Hj). lia. }
  rewrite Hp. apply elem_of_seq. lia.
Qed.

(** Predecessors of completed nodes are completed. *)
Definition closed (c : list nat) : Prop := forall i, i ∈ c -> missing nodes c i = 0.

Lemma complete_spec c o t : op_ok c o -> log_ok c -> closed c -> t < n -> t ∉ c -> missing nodes c t = 0 ->
  exists o', complete nodes t o =
    (o', filter (fun i => missing nodes c i <> 0 /\ missing nodes (c ++ [t]) i = 0) (seq 0 n),
     bool_decide (length (c ++ [t]) = n)) /\ op_ok (c ++ [t]) o'.
Proof using All.
  intros [Hr1 Hr2 Hcnt Hres Hun] Hlog Hcl Ht Hn Hm. pose proof (log_length _ (log_snoc c t Hlog Ht Hn)) as Hle.
  rewrite length_app in Hle. simpl in Hle. unfold complete.
  assert (Hopen : forall i, predecessors nodes i t = true -> (t < i < n) /\ (i ∉ c) /\ (0 < missing nodes c i)).
  { intros i Hp. pose proof (graph_edges nodes i t Hgraph Hp) as Hlt. split; [lia|].
    assert (Hpos : missing nodes c i <> 0) by (intros Hz; apply missing_zero with (j := t) in Hz; [done|done|lia]).
    split; [|lia]. intros Hi. by specialize (Hcl i Hi). }
  destruct (releaseSuccessors_spec nodes t (seq (S t) (n - S t)) (resolve t o) []) as (rem & E & Hl & Hv).
  - apply NoDup_seq.
  - intros s Hs%elem_of_seq. destruct (predecessors nodes s t) eqn:Hp; [left|by right].
    destruct (Hopen s Hp) as (Hlt & Hsc & _). split; [simpl; lia|]. simpl.
    rewrite list_lookup_total_insert_ne by lia. rewrite Hres by lia. by apply bool_decide_eq_false.
  - intros s Hs Hp. destruct (Hopen s Hp) as (Hlt & _ & Hpos). simpl. rewrite Hcnt by lia.
    pose proof (missing_le nodes c s). lia.
  - rewrite E. simpl. exists (mkGraphOp rem (<[t := true]> (m_resolved o)) (u64 (m_unresolved o - 1))). split.
    + f_equal; [f_equal|].
      * replace (seq 0 n) with (seq 0 (S t) ++ seq (S t) (n - S t)) by (rewrite <-seq_app; f_equal; lia).
        rewrite filter_app. rewrite (list_filter_none _ (seq 0 (S t))).
        2:{ intros i Hi%elem_of_seq [H1 H2]. rewrite (missing_snoc nodes c t) in H1 by done.
            destruct (predecessors nodes i t) eqn:Hp; [destruct (Hopen i Hp); lia|]. lia. }
        apply list_filter_ext_in. intros i Hi%elem_of_seq. rewrite Hcnt by lia.
        rewrite (missing_snoc nodes c t i) by done. destruct (predecessors nodes i t); split; intros [? ?]; try lia; split; try lia; done.
      * rewrite Hun, u64_small, length_app by lia. simpl. case_bool_decide; [apply Z.eqb_eq|apply Z.eqb_neq]; lia.
    + constructor; simpl.
      * simpl in Hl. lia.
      * by rewrite length_insert.
      * intros i Hi. rewrite Hv. simpl. rewrite Hcnt by done. rewrite (missing_snoc nodes c t i) by done.
        destruct (predecessors nodes i t) eqn:Hp.
        { rewrite decide_True; [lia|]. split; [|done]. apply elem_of_seq. destruct (Hopen i Hp). lia. }
        rewrite decide_False by (by intros [_ ?]). lia.
      * intros i Hi. destruct (decide (i = t)) as [->|Hne].
        { rewrite list_lookup_total_insert_eq by lia. symmetry. apply bool_decide_eq_true, elem_of_app. right. by left. }
        rewrite list_lookup_total_insert_ne, Hres by done. apply bool_decide_ext. by rewrite elem_of_snoc_ne.
      * rewrite Hun, u64_small, length_app by lia. simpl. lia.
Qed.

Record run_ok (s : State) : Prop := {
  ro_op : op_ok (completed s) (op s);
  ro_log : log_ok (completed s);
  ro_closed : closed (completed s);
  ro_once : NoDup (started s ++ concat (pending s));
  ro_released : forall i, i ∈ started s ++ concat (pending s) <-> i < n /\ missing nodes (completed s) i = 0;
  ro_started : forall i, i ∈ completed s -> i ∈ started s;
  ro_delivered : delivered s = if decide (length (completed s) = n) then 1 else 0
}.

Lemma initial_ok : run_ok (initial nodes).
Proof using All.
  assert (Hr : initiallyReady nodes (GraphOperation_init nodes) = filter (fun i => missing nodes [] i = 0) (seq 0 n)).
  { apply list_filter_ext_in. intros i Hi%elem_of_seq. rewrite init_counts by lia. lia. }
  constructor; simpl; rewrite ?app_nil_r, ?Hr.
  - exact init_ok.
  - split; [constructor|]. by intros i []%elem_of_nil.
  - by intros i []%elem_of_nil.
  - apply list.NoDup_filter, NoDup_seq.
  - intros i. rewrite list_elem_of_filter, elem_of_seq. split; intros [? ?]; split; (done || lia).
  - by intros i []%elem_of_nil.
  - unfold graph in Hgraph. apply andb_prop in Hgraph as [[H0%Nat.ltb_lt _]%andb_prop _]. rewrite decide_False; [done|]. lia.
Qed.

Lemma started_pending (before : list (list nat)) node rest after st :
  (st ++ [node]) ++ concat (before ++ rest :: after) ≡ₚ st ++ concat (before ++ (node :: rest) :: after).
Proof using Type.
  rewrite !(concat_app (A := nat)). simpl. rewrite <-app_assoc. f_equiv. simpl.
  by rewrite (Permutation_middle (concat before) (rest ++ concat after) node).
Qed.

Lemma run_ok_preserved : preserved (step nodes) run_ok.
Proof using All.
  intros s s' Hok Hstep. destruct Hstep as [o before node rest after st cp d|s node o ready finished [Hst Hcp] Hc].
  - destruct Hok as [H1 H2 H3 H4 H5 H6 H7]. simpl in *. constructor; simpl; try done.
    + by rewrite started_pending.
    + intros i. by rewrite started_pending.
    + intros i Hi. apply elem_of_app. left. by apply H6.
  - destruct Hok as [H1 H2 H3 H4 H5 H6 H7].
    assert (Hn : node < n /\ missing nodes (completed s) node = 0) by (apply H5, elem_of_app; by left).
    destruct Hn as [Hn Hm]. destruct (complete_spec (completed s) (op s) node H1 H2 H3 Hn Hcp Hm) as (o' & E & Hok').
    rewrite E in Hc. injection Hc as <- <- <-.
    set (ready := filter _ (seq 0 n)). set (fin := bool_decide _).
    pose proof (log_length _ (log_snoc _ node H2 Hn Hcp)) as Hlen. rewrite length_app in Hlen. simpl in Hlen.
    assert (Hle : forall i, missing nodes (completed s) i = 0 -> missing nodes (completed s ++ [node]) i = 0).
    { intros i. rewrite (missing_snoc nodes (completed s) node i) by done. lia. }
    assert (Hcl : closed (completed s ++ [node])).
    { intros i [Hi|Hi]%elem_of_app; [by apply Hle, H3|]. apply list_elem_of_singleton in Hi as ->. by apply Hle. }
    assert (Hfin : fin = true -> ready = []).
    { intros Hf%bool_decide_eq_true. apply list_filter_none. intros i Hi%elem_of_seq [Hi1 Hi2]. apply Hi1.
      assert (Hin : i ∈ completed s ++ [node]) by (eapply log_full; [by apply log_snoc|done|lia]).
      apply elem_of_app in Hin as [Hin|Hin]; [by apply H3|]. by apply list_elem_of_singleton in Hin as ->. }
    assert (Hpend : concat (if fin then pending s else if 0 <? length ready then pending s ++ [ready] else pending s)
      = concat (pending s) ++ ready).
    { destruct fin; [by rewrite Hfin, app_nil_r by done|]. destruct ready; simpl; [by rewrite app_nil_r|].
      rewrite concat_app. simpl. by rewrite app_nil_r. }
    constructor; simpl; rewrite ?Hpend; try done.
    + by apply log_snoc.
    + rewrite app_assoc. apply list.NoDup_app. split_and!; [done| |apply list.NoDup_filter, NoDup_seq].
      intros i Hi [[Hi1 _] _]%list_elem_of_filter. by apply H5 in Hi as [_ ?].
    + intros i. rewrite app_assoc, elem_of_app, H5. unfold ready. rewrite list_elem_of_filter, elem_of_seq. split.
      * intros [[Hi Hz]|[[_ Hz] Hi]]; (split; [lia|first [exact Hz|by apply Hle]]).
      * intros [Hi Hz]. destruct (decide (missing nodes (completed s) i = 0)); [by left|right; split; [done|lia]].
    + intros i [Hi|Hi]%elem_of_app; [by apply H6|]. by apply list_elem_of_singleton in Hi as ->.
    + rewrite H7, length_app. simpl. rewrite (decide_False (P := length (completed s) = n)) by lia.
      unfold fin. rewrite length_app. simpl. destruct (decide (length (completed s) + 1 = n)).
      * by rewrite bool_decide_eq_true_2 by done.
      * by rewrite bool_decide_eq_false_2 by done.
Qed.

(** Some node can start or complete as long as not all are completed. *)
Lemma unfinished_node c : log_ok c -> length c <> n -> exists i, i < n /\ (i ∉ c) /\ missing nodes c i = 0.
Proof using Hgraph.
  intros Hlog Hne. assert (Hex : exists i, i < n /\ i ∉ c).
  { destruct (filter (fun i => i ∉ c) (seq 0 n)) as [|i l] eqn:Hf.
    2:{ assert (Hi : i ∈ i :: l) by (by left). rewrite <-Hf in Hi. apply list_elem_of_filter in Hi as [Hn Hi%elem_of_seq].
        exists i. split; [lia|done]. }
    exfalso. pose proof (log_length c Hlog). assert (Hall : seq 0 n ⊆ c).
    { intros i Hi. destruct (decide (i ∈ c)) as [|Hn]; [done|]. destruct (filter_nil_not_elem_of _ _ _ Hf Hn Hi). }
    pose proof (submseteq_length _ _ (NoDup_submseteq _ _ (NoDup_seq 0 n) Hall)) as Hlen. rewrite length_seq in Hlen. lia. }
  destruct Hex as (i & Hi & Hn). revert Hi Hn. induction i as [i IH] using lt_wf_ind. intros Hi Hn.
  destruct (filter (fun j => predecessors nodes i j = true /\ j ∉ c) (seq 0 n)) as [|j js] eqn:Hf.
  - exists i. split_and!; [done..|]. unfold missing. by rewrite Hf.
  - assert (Hj : j ∈ j :: js) by (by left). rewrite <-Hf in Hj. apply list_elem_of_filter in Hj as [[Hp Hjn] _].
    pose proof (graph_edges nodes i j Hgraph Hp). apply (IH j); [lia|lia|done].
Qed.

Lemma run_progress s : run_ok s -> length (completed s) = n \/ exists s', step nodes s s'.
Proof using All.
  intros [H1 H2 H3 H4 H5 H6 H7]. destruct (decide (length (completed s) = n)) as [|Hne]; [by left|right].
  destruct (unfinished_node _ H2 Hne) as (i & Hi & Hn & Hm).
  assert (Hin : i ∈ started s ++ concat (pending s)) by (by apply H5). apply elem_of_app in Hin as [Hin|Hin].
  - destruct (complete nodes i (op s)) as [[o ready] fin] eqn:E. eexists. by eapply step_complete.
  - apply elem_of_concat in Hin as (l & Hil & Hl). apply list_elem_of_split in Hl as (before & after & Hl).
    destruct l as [|x l]; [by apply elem_of_nil in Hil|]. destruct s as [o pd st cp d]. simpl in *. subst pd.
    eexists. apply step_start.
Qed.

(** Every step starts or completes one node more. *)
Definition work_left (s : State) : nat := (n - length (started s)) + (n - length (completed s)).

Lemma work_decreases s s' : run_ok s -> step nodes s s' -> work_left s' < work_left s.
Proof using All.
  intros Hok Hstep. pose proof (run_ok_preserved s s' Hok Hstep) as Hok'. unfold work_left.
  assert (Hlog : log_ok (started s')).
  { destruct Hok' as [_ _ _ Hnd Hr _ _]. split; [by apply list.NoDup_app in Hnd as [? _]|].
    intros i Hi. apply (Hr i). apply elem_of_app. by left. }
  pose proof (log_length _ Hlog). pose proof (log_length _ (ro_log _ Hok')).
  destruct Hstep; simpl in *; rewrite length_app in *; simpl in *; lia.
Qed.
End runs.

(** C3: a graph that passes the static checks runs to its end exactly once, whatever the threads do.  In every reachable
    state each node was started at most once and only after all its predecessors had completed; the
    receiver is called at most once, and when it is, every node has completed, none still runs and
    no thread has a node left to start, so the receiver may destroy the operation; before that some step is
    always possible; and no execution has more than two steps per node. *)
Theorem graph_runs nodes : graph nodes = true -> (Z.of_nat (length nodes) < 2 ^ 64)%Z ->
  (forall s, rtc (step nodes) (initial nodes) s ->
     NoDup (started s) /\
     (forall i, i ∈ started s -> i < length nodes /\ forall j, predecessors nodes i j = true -> j ∈ completed s) /\
     delivered s <= 1 /\
     (delivered s = 1 -> (forall i, i < length nodes -> i ∈ completed s) /\ concat (pending s) = [] /\ forall i, ~ running s i) /\
     (delivered s = 0 -> exists s', step nodes s s')) /\
  (forall k s, nsteps (step nodes) k (initial nodes) s -> k <= 2 * length nodes).
Proof.
  intros Hg Hsz. split.
  - intros s Hs. assert (Hok : run_ok nodes s).
    { eapply preserved_rtc; [by apply run_ok_preserved|by apply initial_ok|exact Hs]. }
    pose proof (run_progress nodes Hg Hsz s Hok) as Hpr. destruct Hok as [H1 H2 H3 H4 H5 H6 H7].
    split_and!.
    + by apply list.NoDup_app in H4 as [? _].
    + intros i Hi. assert (Hin : i ∈ started s ++ concat (pending s)) by (apply elem_of_app; by left).
      apply H5 in Hin as [Hlt Hz]. split; [done|]. intros j Hp. pose proof (graph_edges nodes i j Hg Hp).
      apply (proj1 (missing_zero nodes (completed s) i) Hz j Hp). lia.
    + rewrite H7. case_decide; lia.
    + rewrite H7. intros Hd. case_decide as Hl; [|done]. assert (Hall : forall i, i < length nodes -> i ∈ completed s).
      { intros i Hi. by eapply log_full. }
      split_and!; [done| |].
      * destruct (concat (pending s)) as [|x l] eqn:Hc; [done|exfalso]. apply list.NoDup_app in H4 as (_ & Hd' & _).
        assert (Hx : x ∈ started s ++ x :: l) by (apply elem_of_app; right; by left). apply H5 in Hx as [Hx _].
        apply (Hd' x); [by apply H6, Hall|by left].
      * intros i [Hi Hn]. apply Hn, Hall. assert (Hin : i ∈ started s ++ concat (pending s)) by (apply elem_of_app; by left).
        by apply H5 in Hin as [? _].
    + rewrite H7. intros Hd. case_decide; [done|]. by destruct Hpr.
  - intros k s Hk. pose proof (measure_nsteps (step nodes) (run_ok nodes) (work_left nodes) k _ _
      (run_ok_preserved nodes Hg Hsz) (work_decreases nodes Hg Hsz) (initial_ok nodes Hg Hsz) Hk) as Hle.
    unfold work_left in Hle at 2. simpl in Hle. lia.
Qed.

Definition example_graph : list GraphNode :=
  [mkNode "load" []; mkNode "left" ["load"]; mkNode "right" ["load"]; mkNode "store" ["left"; "right"]]%string.

Lemma graph_runs_witness :
  graph example_graph = true /\ forall k s, nsteps (step example_graph) k (initial example_graph) s -> k <= 8.
Proof. split; [reflexivity|]. apply (graph_runs example_graph); reflexivity. Defined.
