(* ===== verification/Submission.v ===== *)
(** * Native submissions

    Models caravan/alpaka/submission.hpp: the dependency matrices of composed submissions
    ([SubmissionDependencies], [composeDependencies], [addGraphDependencies]), the sender of
    submissions over queues, and the operation that enqueues the stages with fences between
    queues.  The queues are alpaka's; [native_execution] states what their documentation
    promises: a queue is first in, first out, and a wait for an event holds back its queue until
    the event has been reached.  The specification of a composition is the order its expression
    reads as: the left of a [sequence] before the right, branches of a [whenAll] independent. *)
From Stdlib Require Import ZArith Lia.
From stdpp Require Import base list numbers relations.
From S2P Require Import Prelude Transition TaskGraph.

(** ** Dependencies *)

(** [edge d stage predecessor] is [predecessors[stage][predecessor]]. *)
Record SubmissionDependencies : Type := mkDeps { count : nat; edge : nat -> nat -> bool }.

Definition linear (n : nat) : SubmissionDependencies :=
  mkDeps n (fun i j => (1 <=? i) && (i <? n) && (j =? i - 1))%nat.

(** Stages no other stage depends on, and stages that depend on none. *)
Definition tails (d : SubmissionDependencies) (j : nat) : bool :=
  forallb (fun i => negb (edge d i j)) (seq 0 (count d)).
Definition rootless (d : SubmissionDependencies) (i : nat) : bool :=
  forallb (fun j => negb (edge d i j)) (seq 0 (count d)).

Definition composeDependencies (ordered : bool) (left right : SubmissionDependencies) : SubmissionDependencies :=
  let nl := count left in
  let nr := count right in
  mkDeps (nl + nr) (fun i j =>
    if (i <? nl)%nat then (j <? nl)%nat && edge left i j
    else if (i <? nl + nr)%nat then
      if (j <? nl)%nat then ordered && rootless right (i - nl) && tails left j
      else edge right (i - nl) (j - nl)
    else false).

Definition set_edge (i j : nat) (d : SubmissionDependencies) : SubmissionDependencies :=
  mkDeps (count d) (fun i' j' => ((i' =? i) && (j' =? j))%nat || edge d i' j').

Definition offset (counts : list nat) (node : nat) : nat := sum_list (take node counts).

Definition range (counts : list nat) (node : nat) : list nat :=
  seq (offset counts node) (offset counts (S node) - offset counts node).

Definition isRoot (d : SubmissionDependencies) (stages : list nat) (root : nat) : bool :=
  foldl (fun isRoot candidate => isRoot && negb (edge d root candidate)) true stages.
Definition isTail (d : SubmissionDependencies) (stages : list nat) (tail : nat) : bool :=
  foldl (fun isTail candidate => isTail && negb (edge d candidate tail)) true stages.

(** The loops of [addGraphDependencies], over the edges [topology] of a graph whose nodes have
    [counts] stages. *)
Definition addTails (stages : list nat) (root : nat) (d : SubmissionDependencies) : SubmissionDependencies :=
  foldl (fun d tail => if isTail d stages tail then set_edge root tail d else d) d stages.
Definition addRoots (roots stages : list nat) (d : SubmissionDependencies) : SubmissionDependencies :=
  foldl (fun d root => if isRoot d roots root then addTails stages root d else d) d roots.
Definition addGraphDependencies (topology : nat -> nat -> bool) (counts : list nat) (d : SubmissionDependencies)
    : SubmissionDependencies :=
  foldl (fun d node =>
    foldl (fun d predecessor =>
      if topology node predecessor then addRoots (range counts node) (range counts predecessor) d else d)
      d (seq 0 node))
    d (seq 0 (length counts)).

(** ** Senders *)

Section senders.
Context {Q : Type} `{EqDecision Q}.

(** [SubmitSender]: the queue of every stage and the dependencies. *)
Record SubmitSender : Type := mkSubmit { m_queues : list Q; m_dependencies : SubmissionDependencies }.

Definition submit (queue : Q) : SubmitSender := mkSubmit [queue] (linear 1).

Definition compose (ordered : bool) (left right : SubmitSender) : SubmitSender :=
  mkSubmit (m_queues left ++ m_queues right) (composeDependencies ordered (m_dependencies left) (m_dependencies right)).

(** [SubmissionDomain::transform]. *)
Definition transform_sequence (left right : SubmitSender) : SubmitSender := compose true left right.
Fixpoint transform_whenAll (first : SubmitSender) (rest : list SubmitSender) : SubmitSender :=
  match rest with [] => first | next :: rest => transform_whenAll (compose false first next) rest end.
Definition transform_graph (topology : nat -> nat -> bool) (first : SubmitSender) (rest : list SubmitSender) : SubmitSender :=
  let flattened := transform_whenAll first rest in
  mkSubmit (m_queues flattened)
    (addGraphDependencies topology (map (fun s => length (m_queues s)) (first :: rest)) (m_dependencies flattened)).

(** ** The operation *)

Inductive command : Type :=
  | Wait (fence : nat)      (* the queue waits for the event of a fence *)
  | Run (stage : nat)       (* the stage's own commands *)
  | Record_ (fence : nat).  (* the event of a fence is enqueued *)

Context (s : SubmitSender).
#[local] Abbreviation n := (length (m_queues s)).
#[local] Abbreviation pred := (edge (m_dependencies s)).
#[local] Abbreviation queue i := (m_queues s !! i).

Definition incoming (i : nat) : nat := length (filter (fun j => pred i j = true) (seq 0 i)).
Definition outgoing (j : nat) : nat := length (filter (fun i => pred i j = true) (seq (S j) (n - S j))).

(** Only unbranched, adjacent stages of one queue share a fence. *)
Definition shares (i : nat) : bool :=
  bool_decide (S i < n) && bool_decide (queue i = queue (S i)) && pred (S i) i && (outgoing i =? 1)%nat && (incoming (S i) =? 1)%nat.

(** The constructor's loop, from the last stage to the first. *)
Definition fenceIndices : list nat :=
  foldr (fun i later => (if shares i then hd i later else i) :: later) [] (seq 0 n).
Definition fenceIndex (i : nat) : nat := fenceIndices !!! i.

(** [submitStage]: the queue and the command of everything that is enqueued. *)
Definition waits (i : nat) : list nat :=
  filter (fun j => pred i j = true /\ queue i <> queue j) (seq 0 i).
Definition submitStage (i : nat) : list (option Q * command) :=
  map (fun j => (queue i, Wait (fenceIndex j))) (waits i) ++ (queue i, Run i) ::
  (if (fenceIndex i =? i)%nat then [(queue i, Record_ i)] else []).
Definition SubmitOperation_submit : list (option Q * command) := seq 0 n ≫= submitStage.

(** The fences [poll] asks for. *)
Definition polled : list nat := filter (fun i => fenceIndex i = i) (seq 0 n).
End senders.
Arguments SubmitSender : clear implicits.

(** ** What the queues promise *)

(** The positions of the commands that have been carried out, in the order in which they were.  A
    queue carries out its commands one after the other; a wait is over once the event that was
    enqueued before it has been reached. *)
Inductive native_execution {Q} (commands : list (option Q * command)) : list nat -> Prop :=
  | execution_nil : native_execution commands []
  | execution_snoc done k q c :
      native_execution commands done -> commands !! k = Some (q, c) -> k ∉ done ->
      (forall k' c', k' < k -> commands !! k' = Some (q, c') -> k' ∈ done) ->
      (forall fence m q', c = Wait fence -> m < k -> commands !! m = Some (q', Record_ fence) -> m ∈ done) ->
      native_execution commands (done ++ [k]).

(** ** What a composition means *)

Inductive expression (Q : Type) : Type :=
  | Submit (queue : Q)
  | Sequence (left right : expression Q)
  | WhenAll (left right : expression Q).
Arguments Submit {Q}.
Arguments Sequence {Q}.
Arguments WhenAll {Q}.

Fixpoint stages {Q} (e : expression Q) : nat :=
  match e with Submit _ => 1 | Sequence l r | WhenAll l r => stages l + stages r end.

Fixpoint lower {Q} (e : expression Q) : SubmitSender Q :=
  match e with
  | Submit q => submit q
  | Sequence l r => transform_sequence (lower l) (lower r)
  | WhenAll l r => transform_whenAll (lower l) [lower r]
  end.

(** Stage [i] of the expression comes before stage [j]. *)
Fixpoint before {Q} (e : expression Q) (i j : nat) : Prop :=
  match e with
  | Submit _ => False
  | Sequence l r =>
      before l i j \/ (stages l <= i /\ stages l <= j /\ before r (i - stages l) (j - stages l)) \/
      (i < stages l /\ stages l <= j < stages l + stages r)
  | WhenAll l r => before l i j \/ (stages l <= i /\ stages l <= j /\ before r (i - stages l) (j - stages l))
  end.

(** ** The order of a matrix *)

(** Edges go back to earlier stages. *)
Definition deps_wf (d : SubmissionDependencies) : Prop := forall i j, edge d i j = true -> j < i < count d.

(** [i] is a direct predecessor of [j]. *)
Definition prec (d : SubmissionDependencies) (i j : nat) : Prop := edge d j i = true.

Lemma forallb_seq0 (f : nat -> bool) k : forallb f (seq 0 k) = true <-> forall i, i < k -> f i = true.
Proof.
  rewrite forallb_forall. split; intros H i Hi.
  - apply H, list_elem_of_In, elem_of_seq. lia.
  - apply H. apply list_elem_of_In, elem_of_seq in Hi. lia.
Qed.

Lemma foldl_andb {A} (f : A -> bool) l : foldl (fun b x => b && f x)%bool true l = forallb f l.
Proof.
  assert (Hg : forall b, foldl (fun b x => b && f x)%bool b l = (b && forallb f l)%bool); [|apply Hg].
  induction l as [|x l IH]; intros b; simpl; [by rewrite andb_true_r|]. rewrite IH. by rewrite andb_assoc.
Qed.

Lemma isRoot_spec d l i : isRoot d l i = true <-> forall j, j ∈ l -> edge d i j = false.
Proof.
  unfold isRoot. rewrite (foldl_andb (fun c => negb (edge d i c))), forallb_forall.
  split; intros H j Hj; [apply negb_true_iff, H|apply negb_true_iff, H]; by apply list_elem_of_In.
Qed.

Lemma isTail_spec d l j : isTail d l j = true <-> forall i, i ∈ l -> edge d i j = false.
Proof.
  unfold isTail. rewrite (foldl_andb (fun c => negb (edge d c j))), forallb_forall.
  split; intros H i Hi; [apply negb_true_iff, H|apply negb_true_iff, H]; by apply list_elem_of_In.
Qed.

(** Following edges within a set of stages ends at one of its tails, and at one of its roots. *)
Lemma reach_tail d l j : deps_wf d -> j ∈ l -> exists t, t ∈ l /\ rtc (prec d) j t /\ isTail d l t = true.
Proof.
  intros Hwf Hj. remember (count d - j) as k eqn:Hk. revert j Hk Hj.
  induction k as [k IH] using lt_wf_ind. intros j -> Hj. destruct (isTail d l j) eqn:Ht; [by exists j; split_and!|].
  destruct (filter (fun i => edge d i j = true) l) as [|i iss] eqn:Hf.
  - rewrite (proj2 (isTail_spec d l j)) in Ht; [discriminate|]. intros i Hi. destruct (edge d i j) eqn:He; [|done].
    by destruct (filter_nil_not_elem_of _ _ _ Hf He).
  - assert (Hi : i ∈ i :: iss) by (by left). rewrite <-Hf in Hi. apply list_elem_of_filter in Hi as [He Hi].
    pose proof (Hwf i j He). destruct (IH (count d - i) ltac:(lia) i eq_refl Hi) as (t & Htl & Hr & Ht').
    exists t. split_and!; [done| |done]. by eapply rtc_l.
Qed.

Lemma reach_root d l i : deps_wf d -> i ∈ l -> exists r, r ∈ l /\ rtc (prec d) r i /\ isRoot d l r = true.
Proof.
  intros Hwf Hi. revert Hi. induction i as [i IH] using lt_wf_ind. intros Hi.
  destruct (isRoot d l i) eqn:Hr; [by exists i; split_and!|].
  destruct (filter (fun j => edge d i j = true) l) as [|j js] eqn:Hf.
  - rewrite (proj2 (isRoot_spec d l i)) in Hr; [discriminate|]. intros j Hj. destruct (edge d i j) eqn:He; [|done].
    by destruct (filter_nil_not_elem_of _ _ _ Hf He).
  - assert (Hj : j ∈ j :: js) by (by left). rewrite <-Hf in Hj. apply list_elem_of_filter in Hj as [He Hj].
    pose proof (Hwf i j He). destruct (IH j ltac:(lia) Hj) as (r & Hrl & Hr1 & Hr2).
    exists r. split_and!; [done| |done]. by eapply rtc_r.
Qed.

Lemma tails_isTail d j : tails d j = isTail d (seq 0 (count d)) j.
Proof. unfold tails, isTail. by rewrite (foldl_andb (fun c => negb (edge d c j))). Qed.

Lemma rootless_isRoot d i : rootless d i = isRoot d (seq 0 (count d)) i.
Proof. unfold rootless, isRoot. by rewrite (foldl_andb (fun c => negb (edge d i c))). Qed.

(** ** Composition *)

Lemma compose_edge ordered l r i j : deps_wf l -> deps_wf r ->
  prec (composeDependencies ordered l r) i j <->
  prec l i j \/ (count l <= i /\ count l <= j /\ prec r (i - count l) (j - count l)) \/
  (ordered = true /\ i < count l /\ count l <= j < count l + count r /\
   isRoot r (seq 0 (count r)) (j - count l) = true /\ isTail l (seq 0 (count l)) i = true).
Proof.
  intros Hl Hr. unfold prec, composeDependencies. simpl. rewrite tails_isTail, rootless_isRoot.
  assert (Hlb : edge l j i = true -> i < j < count l) by apply Hl.
  assert (Hrb : edge r (j - count l) (i - count l) = true -> i - count l < j - count l < count r) by apply Hr.
  destruct (Nat.ltb_spec j (count l)); [|destruct (Nat.ltb_spec j (count l + count r))]; destruct (Nat.ltb_spec i (count l));
    rewrite ?andb_true_iff; split; try done.
  all: try (by intros ?; left).
  all: intuition (try lia; try congruence).
Qed.

Lemma compose_wf ordered l r : deps_wf l -> deps_wf r -> deps_wf (composeDependencies ordered l r).
Proof.
  intros Hl Hr j i E. apply (compose_edge ordered l r i j Hl Hr) in E as [E|[(H1 & H2 & E)|(_ & H1 & H2 & _)]]; simpl.
  - specialize (Hl j i E). lia.
  - specialize (Hr _ _ E). lia.
  - lia.
Qed.

Lemma tc_bounds d i j : deps_wf d -> tc (prec d) i j -> i < j < count d.
Proof.
  intros Hwf. induction 1 as [i j E|i j k E _ IH]; [by apply Hwf|]. specialize (Hwf j i E). lia.
Qed.

(** The order of a composition. *)
Lemma compose_tc ordered l r i j : deps_wf l -> deps_wf r ->
  tc (prec (composeDependencies ordered l r)) i j <->
  tc (prec l) i j \/ (count l <= i /\ count l <= j /\ tc (prec r) (i - count l) (j - count l)) \/
  (ordered = true /\ i < count l /\ count l <= j < count l + count r).
Proof.
  intros Hl Hr. set (R := prec (composeDependencies ordered l r)).
  assert (Hcl : forall x y, prec l x y -> R x y) by (intros; apply compose_edge; auto).
  assert (Hcr : forall x y, prec r x y -> R (x + count l) (y + count l)).
  { intros x y E. apply compose_edge; [done..|right; left]. by rewrite !Nat.add_sub; split_and!; try lia. }
  split.
  - induction 1 as [i j E|i j k E Hjk IH].
    + apply compose_edge in E as [E|[(H1 & H2 & E)|(H1 & H2 & H3 & _)]]; [..|done|done].
      * left. by apply tc_once.
      * right; left. split_and!; [done..|by apply tc_once].
      * by right; right.
    + apply compose_edge in E as [E|[(H1 & H2 & E)|(H1 & H2 & H3 & _)]]; [..|done|done].
      * pose proof (Hl j i E). destruct IH as [IH|[(H1 & _ & _)|(H1 & H2 & H3)]]; [left; by eapply tc_l|lia|].
        right; right. split_and!; (done || lia).
      * destruct IH as [IH|[(H3 & H4 & IH)|(_ & H3 & _)]]; [pose proof (tc_bounds l j k Hl IH); lia| |lia].
        right; left. split_and!; [done..|by eapply tc_l].
      * destruct IH as [IH|[(H4 & H5 & IH)|(_ & H4 & _)]]; [pose proof (tc_bounds l j k Hl IH); lia| |lia].
        right; right. pose proof (tc_bounds r _ _ Hr IH). split_and!; (done || lia).
  - intros [H|[(H1 & H2 & H)|(Ho & H1 & H2)]].
    + by apply (tc_congruence id R) in H.
    + apply (tc_congruence (fun x => x + count l) R) in H; [|exact Hcr].
      by rewrite !Nat.sub_add in H.
    + destruct (reach_tail l (seq 0 (count l)) i Hl) as (t & Ht & Hit & Htail); [apply elem_of_seq; lia|].
      destruct (reach_root r (seq 0 (count r)) (j - count l) Hr) as (q & Hq & Hqj & Hroot); [apply elem_of_seq; lia|].
      apply elem_of_seq in Ht, Hq. assert (Htq : R t (q + count l)).
      { apply compose_edge; [done..|right; right]. rewrite Nat.add_sub. split_and!; (done || lia). }
      eapply tc_rtc_l; [apply (rtc_congruence id R) in Hit; [exact Hit|exact Hcl]|].
      eapply tc_rtc_r; [by apply tc_once|].
      apply (rtc_congruence (fun x => x + count l) R) in Hqj; [|exact Hcr]. by rewrite Nat.sub_add in Hqj by lia.
Qed.

Lemma linear1_wf : deps_wf (linear 1).
Proof. intros i j [[H1%Nat.leb_le H2%Nat.ltb_lt]%andb_prop H3%Nat.eqb_eq]%andb_prop. cbn [count linear]. lia. Qed.

Lemma lower_wf {Q} (e : expression Q) :
  deps_wf (m_dependencies (lower e)) /\ count (m_dependencies (lower e)) = stages e /\ length (m_queues (lower e)) = stages e.
Proof.
  induction e as [q|l (Hl1 & Hl2 & Hl3) r (Hr1 & Hr2 & Hr3)|l (Hl1 & Hl2 & Hl3) r (Hr1 & Hr2 & Hr3)]; simpl.
  - split_and!; [exact linear1_wf|done|done].
  - split_and!; [by apply compose_wf|lia|rewrite length_app; lia].
  - split_and!; [by apply compose_wf|lia|rewrite length_app; lia].
Qed.

(** The dependencies of a lowered expression are exactly the order it reads as. *)
Lemma lower_order {Q} (e : expression Q) i j : tc (prec (m_dependencies (lower e))) i j <-> before e i j.
Proof.
  revert i j. induction e as [q|l IHl r IHr|l IHl r IHr]; intros i j; simpl.
  - split; [|done]. intros H. apply tc_bounds in H; [simpl in H; lia|exact linear1_wf].
  - destruct (lower_wf l) as (Hl & El & _), (lower_wf r) as (Hr & Er & _).
    rewrite compose_tc, El, Er, IHl, IHr by done. intuition.
  - destruct (lower_wf l) as (Hl & El & _), (lower_wf r) as (Hr & Er & _).
    rewrite compose_tc, El, Er, IHl, IHr by done. intuition congruence.
Qed.

(** ** What is enqueued *)

Lemma bind_lookup {A B} (g : A -> list B) xs i x l :
  xs !! i = Some x -> l < length (g x) -> (xs ≫= g) !! (length (take i xs ≫= g) + l) = g x !! l.
Proof.
  revert i. induction xs as [|y xs IH]; intros i Hi Hl; [done|]. destruct i as [|i].
  - injection Hi as ->. simpl. by rewrite lookup_app_l.
  - cbn [take]. rewrite !bind_cons, length_app, <-Nat.add_assoc, lookup_app_r, Nat.add_sub_swap, Nat.sub_diag by lia.
    by apply IH.
Qed.

Lemma bind_lookup_inv {A B} (g : A -> list B) xs k c :
  (xs ≫= g) !! k = Some c -> exists i x l, xs !! i = Some x /\ k = length (take i xs ≫= g) + l /\ g x !! l = Some c.
Proof.
  revert k. induction xs as [|y xs IH]; intros k Hk; [done|]. rewrite bind_cons in Hk.
  destruct (decide (k < length (g y))) as [Hlt|Hge].
  - rewrite lookup_app_l in Hk by done. by exists 0, y, k.
  - rewrite lookup_app_r in Hk by lia. destruct (IH _ Hk) as (i & x & l & Hi & Hk' & Hc).
    exists (S i), x, l. split_and!; [done| |done]. cbn [take]. rewrite bind_cons, length_app. lia.
Qed.

Section operation.
Context {Q : Type} `{EqDecision Q} (s : SubmitSender Q).
#[local] Abbreviation n := (length (m_queues s)).
#[local] Abbreviation pred := (edge (m_dependencies s)).
#[local] Abbreviation queue i := (m_queues s !! i).
#[local] Abbreviation cmds := (SubmitOperation_submit s).
Context (Hwf : deps_wf (m_dependencies s)) (Hcount : count (m_dependencies s) = n).

Lemma shares_spec i : shares s i = true ->
  S i < n /\ queue i = queue (S i) /\ pred (S i) i = true /\ outgoing s i = 1 /\ incoming s (S i) = 1.
Proof using All.
  unfold shares. rewrite !andb_true_iff, !bool_decide_eq_true, !Nat.eqb_eq. tauto.
Qed.

Lemma fenceIndex_rec i : i < n -> fenceIndex s i = if shares s i then fenceIndex s (S i) else i.
Proof using All.
  intros Hi. set (F := fun l => foldr (fun i later => (if shares s i then hd i later else i) :: later) [] l).
  assert (Hd : forall l k, drop k (F l) = F (drop k l)).
  { induction l as [|x l IH]; intros [|k]; try done. exact (IH k). }
  assert (Hl : forall k, k < n -> fenceIndices s !! k = Some (if shares s k then hd k (F (seq (S k) (n - S k))) else k)).
  { intros k Hk. change (fenceIndices s) with (F (seq 0 n)). replace k with (k + 0) at 1 by lia.
    rewrite <-lookup_drop, Hd, drop_seq. by replace (n - k) with (S (n - S k)) by lia. }
  unfold fenceIndex. rewrite (list_lookup_total_correct _ _ _ (Hl i Hi)).
  destruct (shares s i) eqn:Hs; [|done]. destruct (shares_spec i Hs) as [Hlt _].
  rewrite (list_lookup_total_correct _ _ _ (Hl (S i) Hlt)). by replace (n - S i) with (S (n - S (S i))) by lia.
Qed.

Lemma fenceIndex_spec i : i < n -> i <= fenceIndex s i < n /\ fenceIndex s (fenceIndex s i) = fenceIndex s i /\
  queue (fenceIndex s i) = queue i.
Proof using All.
  intros Hi. remember (n - i) as k eqn:Hk. revert i Hk Hi. induction k as [k IH] using lt_wf_ind. intros i -> Hi.
  pose proof (fenceIndex_rec i Hi) as Hf. destruct (shares s i) eqn:Hs.
  - destruct (shares_spec i Hs) as (Hlt & Hq & _). destruct (IH (n - S i) ltac:(lia) (S i) eq_refl Hlt) as (H1 & H2 & H3).
    rewrite Hf, H2, H3, Hq. split_and!; (done || lia).
  - rewrite Hf, Hf. split_and!; (done || lia).
Qed.

(** A queue only waits for the fence of the stage itself. *)
Lemma wait_own i j : i < n -> pred i j = true -> queue i <> queue j -> fenceIndex s j = j.
Proof using All.
  intros Hi Hp Hq. pose proof (Hwf i j Hp). rewrite fenceIndex_rec by lia. destruct (shares s j) eqn:Hs; [|done].
  destruct (shares_spec j Hs) as (Hlt & Hqj & Hpj & Hout & _). exfalso. unfold outgoing in Hout.
  destruct (filter (fun i => pred i j = true) (seq (S j) (n - S j))) as [|x [|y l]] eqn:Hf; [discriminate| |discriminate].
  assert (Hin : forall k, pred k j = true -> S j <= k < n -> k = x).
  { intros k Hk Hkn. assert (Hkin : k ∈ filter (fun i => pred i j = true) (seq (S j) (n - S j))).
    { apply list_elem_of_filter. split; [done|]. apply elem_of_seq. lia. }
    rewrite Hf in Hkin. by apply list_elem_of_singleton in Hkin. }
  apply Hq. rewrite (Hin i Hp) by lia. rewrite Hqj. f_equal. symmetry. apply Hin; [done|lia].
Qed.

(** Where the block of a stage starts, and its own commands within it. *)
Definition off (i : nat) : nat := length (seq 0 i ≫= submitStage s).
Definition run_pos (i : nat) : nat := off i + length (waits s i).

Lemma block_lookup i l c : i < n -> submitStage s i !! l = Some c -> cmds !! (off i + l) = Some c.
Proof using All.
  intros Hi Hl. pose proof (bind_lookup (submitStage s) (seq 0 n) i i l) as H. rewrite take_seq, Nat.min_l in H by lia.
  unfold off, SubmitOperation_submit. rewrite H; [done|by rewrite lookup_seq_lt|by eapply lookup_lt_Some].
Qed.

Lemma block_inv k c : cmds !! k = Some c -> exists i l, i < n /\ k = off i + l /\ submitStage s i !! l = Some c.
Proof using All.
  intros Hk. destruct (bind_lookup_inv _ _ _ _ Hk) as (i & x & l & Hi & -> & Hc).
  pose proof (lookup_lt_Some _ _ _ Hi) as Hlt. rewrite length_seq in Hlt. apply lookup_seq in Hi as [-> _].
  exists i, l. rewrite take_seq, Nat.min_l by lia. by split_and!.
Qed.

Lemma off_step i : off (S i) = off i + length (submitStage s i).
Proof using All. unfold off. rewrite seq_S, bind_app, length_app. simpl. by rewrite app_nil_r. Qed.

Lemma off_mono i j : i <= j -> off i <= off j.
Proof using All. induction 1 as [|j _ IH]; [done|]. rewrite off_step. lia. Qed.

Lemma run_lookup i : i < n -> cmds !! run_pos i = Some (queue i, Run i).
Proof using All.
  intros Hi. apply block_lookup; [done|]. unfold submitStage.
  rewrite lookup_app_r by (rewrite length_map; lia). by rewrite length_map, Nat.sub_diag.
Qed.

Lemma run_inv k q i : cmds !! k = Some (q, Run i) -> i < n /\ k = run_pos i.
Proof using All.
  intros Hk. destruct (block_inv k _ Hk) as (i' & l & Hi & -> & Hl). unfold submitStage in Hl. unfold run_pos.
  apply lookup_app_Some in Hl as [Hl|[Hge Hl]].
  - rewrite list_lookup_fmap in Hl. by destruct (waits s i' !! l).
  - rewrite length_map in Hge, Hl. destruct (l - length (waits s i')) as [|[|m]] eqn:Hm; simpl in Hl.
    + injection Hl as <- ->. split; [done|]. lia.
    + by destruct (fenceIndex s i' =? i').
    + by destruct (fenceIndex s i' =? i').
Qed.

Lemma record_lookup i : i < n -> fenceIndex s i = i -> cmds !! S (run_pos i) = Some (queue i, Record_ i).
Proof using All.
  intros Hi Hf. unfold run_pos. rewrite <-Nat.add_succ_r. apply block_lookup; [done|]. unfold submitStage.
  rewrite lookup_app_r by (rewrite length_map; lia). rewrite length_map.
  replace (S (length (waits s i)) - length (waits s i)) with 1 by lia. rewrite Hf, Nat.eqb_refl. done.
Qed.

Lemma record_inv k q f : cmds !! k = Some (q, Record_ f) -> f < n /\ fenceIndex s f = f /\ k = S (run_pos f).
Proof using All.
  intros Hk. destruct (block_inv k _ Hk) as (i' & l & Hi & -> & Hl). unfold submitStage in Hl. unfold run_pos.
  apply lookup_app_Some in Hl as [Hl|[Hge Hl]].
  - rewrite list_lookup_fmap in Hl. by destruct (waits s i' !! l).
  - rewrite length_map in Hge, Hl. destruct (l - length (waits s i')) as [|[|m]] eqn:Hm; simpl in Hl.
    + discriminate.
    + destruct (Nat.eqb_spec (fenceIndex s i') i') as [Hf|]; [|done]. injection Hl as <- ->. split_and!; [done..|lia].
    + by destruct (fenceIndex s i' =? i').
Qed.

Lemma wait_lookup i j : i < n -> pred i j = true -> queue i <> queue j ->
  exists k, off i <= k < run_pos i /\ cmds !! k = Some (queue i, Wait j).
Proof using All.
  intros Hi Hp Hq. pose proof (Hwf i j Hp). assert (Hin : j ∈ waits s i).
  { apply list_elem_of_filter. split; [done|]. apply elem_of_seq. lia. }
  apply list_elem_of_lookup_1 in Hin as [l Hl]. pose proof (lookup_lt_Some _ _ _ Hl).
  exists (off i + l). split; [unfold run_pos; lia|]. apply block_lookup; [done|]. unfold submitStage.
  rewrite lookup_app_l by (by rewrite length_map). rewrite list_lookup_fmap, Hl. simpl. by rewrite (wait_own i j).
Qed.

(** The end of a block, and that every command of a stage precedes its fence in its queue. *)
Lemma block_fence k c i l : i < n -> k = off i + l -> submitStage s i !! l = Some c ->
  c.1 = queue i /\ k <= S (run_pos (fenceIndex s i)).
Proof using All.
  intros Hi -> Hl. destruct (fenceIndex_spec i Hi) as ([Hle Hlt] & Hf & _).
  assert (Hlen : l < length (submitStage s i)) by (by eapply lookup_lt_Some).
  split.
  - unfold submitStage in Hl. apply list_elem_of_lookup_2 in Hl. apply elem_of_app in Hl as [Hl|Hl].
    + apply list_elem_of_fmap in Hl as (j & -> & _). done.
    + apply elem_of_cons in Hl as [->|Hl]; [done|]. destruct (_ =? _); [|by apply elem_of_nil in Hl].
      by apply list_elem_of_singleton in Hl as ->.
  - destruct (decide (fenceIndex s i = i)) as [E|E].
    + rewrite E. unfold run_pos. unfold submitStage in Hlen. rewrite length_app, length_map in Hlen.
      rewrite E, Nat.eqb_refl in Hlen. simpl in Hlen. lia.
    + pose proof (off_step i) as Ho. pose proof (off_mono (S i) (fenceIndex s i) ltac:(lia)). unfold run_pos. lia.
Qed.

(** ** Executions *)

Lemma execution_lt d k : native_execution cmds d -> k ∈ d -> k < length cmds.
Proof using All.
  induction 1 as [|d k' q c _ IH Hk' _ _ _]; [by intros ?%elem_of_nil|].
  intros [Hk|Hk]%elem_of_app; [by apply IH|]. apply list_elem_of_singleton in Hk as ->. by eapply lookup_lt_Some.
Qed.

(** What was carried out is closed under what the queues keep in order. *)
Lemma execution_fifo d k k' q c c' : native_execution cmds d -> k ∈ d -> k' < k ->
  cmds !! k = Some (q, c) -> cmds !! k' = Some (q, c') -> k' ∈ d.
Proof using All.
  intros He Hk Hlt Hc Hc'. induction He as [|d k2 q2 c2 _ IH Hk2 _ Hq _]; [by apply elem_of_nil in Hk|].
  apply elem_of_app in Hk as [Hk|Hk]; apply elem_of_app; left; [by apply IH|].
  apply list_elem_of_singleton in Hk as ->. rewrite Hk2 in Hc. injection Hc as -> ->. by eapply Hq.
Qed.

Lemma execution_wait d k q f m q' : native_execution cmds d -> k ∈ d ->
  cmds !! k = Some (q, Wait f) -> m < k -> cmds !! m = Some (q', Record_ f) -> m ∈ d.
Proof using All.
  intros He Hk Hc Hm Hr. induction He as [|d k2 q2 c2 _ IH Hk2 _ _ Hw]; [by apply elem_of_nil in Hk|].
  apply elem_of_app in Hk as [Hk|Hk]; apply elem_of_app; left; [by apply IH|].
  apply list_elem_of_singleton in Hk as ->. rewrite Hk2 in Hc. injection Hc as -> ->. by eapply Hw.
Qed.

Lemma run_pos_lt i j : i < j -> j < n -> run_pos i < off j.
Proof using All.
  intros Hij Hj. pose proof (off_mono (S i) j ltac:(lia)). pose proof (off_step i). unfold run_pos, submitStage in *.
  rewrite length_app, length_map in H0. simpl in H0. lia.
Qed.

Lemma edge_executed d i j : native_execution cmds d -> pred j i = true -> run_pos j ∈ d -> run_pos i ∈ d.
Proof using All.
  intros He Hp Hj. pose proof (Hwf j i Hp) as Hlt. pose proof (run_pos_lt i j ltac:(lia) ltac:(lia)) as Hpos.
  pose proof (run_lookup i ltac:(lia)) as Hi. pose proof (run_lookup j ltac:(lia)) as Hjl.
  destruct (decide (queue j = queue i)) as [E|E].
  - rewrite <-E in Hi. eapply execution_fifo; [done|exact Hj| |exact Hjl|exact Hi]. unfold run_pos in *. lia.
  - destruct (wait_lookup j i ltac:(lia) Hp E) as (k & Hk & Hw).
    assert (Hkd : k ∈ d) by (eapply execution_fifo; [done|exact Hj| |exact Hjl|exact Hw]; lia).
    pose proof (record_lookup i ltac:(lia) (wait_own j i ltac:(lia) Hp E)) as Hr.
    assert (Hrd : S (run_pos i) ∈ d).
    { eapply execution_wait; [done|exact Hkd|exact Hw| |exact Hr].
      pose proof (off_mono (S i) j ltac:(lia)). pose proof (off_step i) as Ho. unfold run_pos, submitStage in *.
      rewrite length_app, length_map, (wait_own j i) in Ho by (done || lia). rewrite Nat.eqb_refl in Ho. simpl in Ho. lia. }
    eapply execution_fifo; [done|exact Hrd| |exact Hr|exact Hi]. lia.
Qed.

(** A stage runs after everything it depends on. *)
Lemma stage_order d k q i j : native_execution cmds (d ++ [k]) -> cmds !! k = Some (q, Run j) ->
  tc (prec (m_dependencies s)) i j -> exists m q', cmds !! m = Some (q', Run i) /\ m ∈ d.
Proof using All.
  intros He Hk Ht. destruct (run_inv k q j Hk) as [Hj ->]. pose proof (tc_bounds _ _ _ Hwf Ht) as Hb.
  exists (run_pos i), (queue i). split; [apply run_lookup; lia|].
  assert (Hin : run_pos i ∈ d ++ [run_pos j]).
  { assert (Hall : forall a b, tc (prec (m_dependencies s)) a b -> run_pos b ∈ d ++ [run_pos j] -> run_pos a ∈ d ++ [run_pos j]).
    { intros a b. induction 1 as [a b E|a b c E _ IH]; intros Hin; [by eapply edge_executed|].
      eapply edge_executed; [done|exact E|by apply IH]. }
    apply (Hall i j Ht), elem_of_app. right. by left. }
  apply elem_of_app in Hin as [Hin|Hin]; [done|]. apply list_elem_of_singleton in Hin.
  pose proof (run_pos_lt i j ltac:(lia) Hj). unfold run_pos in *. lia.
Qed.

(** When all fences have been reached, everything has been carried out. *)
Lemma quiescent d : native_execution cmds d ->
  (forall f, f ∈ polled s -> exists k q, cmds !! k = Some (q, Record_ f) /\ k ∈ d) ->
  forall k, k < length cmds -> k ∈ d.
Proof using All.
  intros He Hf k Hk. destruct (lookup_lt_is_Some_2 _ _ Hk) as [[q c] Hc].
  destruct (block_inv k _ Hc) as (i & l & Hi & Ek & Hl). destruct (block_fence k _ i l Hi Ek Hl) as [Hq Hle].
  destruct (fenceIndex_spec i Hi) as ([_ Hlt] & Hff & Hqf). simpl in Hq. subst q.
  destruct (Hf (fenceIndex s i)) as (m & q & Hm & Hmd).
  { apply list_elem_of_filter. split; [done|]. apply elem_of_seq. lia. }
  destruct (record_inv m q _ Hm) as (_ & _ & ->). rewrite (record_lookup _ Hlt Hff) in Hm. injection Hm as <-.
  destruct (decide (k = S (run_pos (fenceIndex s i)))) as [->|Hne]; [done|].
  eapply execution_fifo; [done|exact Hmd| |by apply record_lookup|]; [lia|]. rewrite Hqf. exact Hc.
Qed.

(** No queue waits for ever: the first command that has not been carried out can be. *)
Lemma no_deadlock d k : native_execution cmds d -> k < length cmds -> k ∉ d ->
  exists k', (k' ∉ d) /\ native_execution cmds (d ++ [k']).
Proof using All.
  intros He. induction k as [k IH] using lt_wf_ind. intros Hk Hn.
  destruct (filter (fun k' => k' ∉ d) (seq 0 k)) as [|k' l] eqn:Hf.
  - destruct (lookup_lt_is_Some_2 _ _ Hk) as [[q c] Hc].
    assert (Hall : forall m, m < k -> m ∈ d).
    { intros m Hm. destruct (decide (m ∈ d)) as [|Hmn]; [done|]. exfalso.
      apply (filter_nil_not_elem_of _ _ _ Hf Hmn), elem_of_seq. lia. }
    exists k. split; [done|]. eapply execution_snoc; [done|exact Hc|done| |]; intros; by apply Hall.
  - assert (Hin : k' ∈ k' :: l) by (by left). rewrite <-Hf in Hin. apply list_elem_of_filter in Hin as [Hn' Hk'%elem_of_seq].
    apply (IH k'); [lia|lia|done].
Qed.
End operation.

(** C4: a composition of submissions over any queues is run in exactly the order it reads as.  The
    dependencies it is lowered to are, up to transitivity, the order of the expression, so
    independent branches stay independent; when a queue carries out a stage, every stage before it in the
    expression has been carried out, although only fences between queues are waited for and
    adjacent stages of a queue share one; when the fences [poll] asks for have been reached,
    everything enqueued has been carried out, so the captures may be released; and no
    assignment of queues makes them wait for each other in a cycle. *)
Theorem submission_order {Q} `{EqDecision Q} (e : expression Q) :
  let s := lower e in
  let commands := SubmitOperation_submit s in
  (forall i j, tc (prec (m_dependencies s)) i j <-> before e i j) /\
  (forall d k q i j, native_execution commands (d ++ [k]) -> commands !! k = Some (q, Run j) -> before e i j ->
     exists m q', commands !! m = Some (q', Run i) /\ m ∈ d) /\
  (forall d, native_execution commands d ->
     (forall f, f ∈ polled s -> exists k q, commands !! k = Some (q, Record_ f) /\ k ∈ d) ->
     forall k, k < length commands -> k ∈ d) /\
  (forall d k, native_execution commands d -> k < length commands -> k ∉ d ->
     exists k', (k' ∉ d) /\ native_execution commands (d ++ [k'])).
Proof.
  intros s commands. destruct (lower_wf e) as (Hwf & Hc & Hl). rewrite <-Hl in Hc. split_and!.
  - apply lower_order.
  - intros d k q i j He Hk Hb%lower_order. by eapply stage_order.
  - by apply quiescent.
  - by apply no_deadlock.
Qed.

(** ** Graphs of submissions *)

Lemma offset_step counts x c : counts !! x = Some c -> offset counts (S x) = offset counts x + c.
Proof. intros Hx. unfold offset. rewrite (take_S_r counts x c) by done. rewrite sum_list_with_app. simpl. lia. Qed.

Lemma offset_mono counts x y : x <= y -> offset counts x <= offset counts y.
Proof.
  intros Hle. unfold offset. replace y with (x + (y - x)) by lia. rewrite <-take_take_drop, sum_list_with_app. lia.
Qed.

Lemma elem_range counts x i : i ∈ range counts x <-> offset counts x <= i < offset counts (S x).
Proof. pose proof (offset_mono counts x (S x) ltac:(lia)). unfold range. rewrite elem_of_seq. lia. Qed.

Lemma range_unique counts x y i : i ∈ range counts x -> i ∈ range counts y -> x = y.
Proof.
  rewrite !elem_range. intros Hx Hy. destruct (decide (x < y)); [pose proof (offset_mono counts (S x) y ltac:(lia)); lia|].
  destruct (decide (y < x)); [pose proof (offset_mono counts (S y) x ltac:(lia)); lia|]. lia.
Qed.

Section graphs.
Context (topology : nat -> nat -> bool) (counts : list nat) (D : SubmissionDependencies).
#[local] Abbreviation stagesOf x := (range counts x).
#[local] Abbreviation nodes := (length counts).

(** The edges a pair of nodes gets: from the roots of one to the tails of the other. *)
Definition link (x p i j : nat) : Prop :=
  i ∈ stagesOf x /\ isRoot D (stagesOf x) i = true /\ j ∈ stagesOf p /\ isTail D (stagesOf p) j = true.

(** [d] is [D] with the edges [E], which join different nodes. *)
Record extends (E : nat -> nat -> Prop) (d : SubmissionDependencies) : Prop := {
  ex_count : count d = count D;
  ex_edge : forall i j, edge d i j = true <-> edge D i j = true \/ E i j;
  ex_cross : forall i j x, E i j -> i ∈ stagesOf x -> j ∈ stagesOf x -> False
}.

Lemma bool_iff (b c : bool) : (b = true <-> c = true) -> b = c.
Proof using All. destruct b, c; intuition congruence. Qed.

Lemma extends_isRoot E d x i : extends E d -> i ∈ stagesOf x -> isRoot d (stagesOf x) i = isRoot D (stagesOf x) i.
Proof using All.
  intros [_ He Hc] Hi. apply bool_iff. rewrite !isRoot_spec. split; intros H j Hj; specialize (H j Hj).
  - destruct (edge D i j) eqn:E1; [|done]. by rewrite (proj2 (He i j)) in H by (by left).
  - destruct (edge d i j) eqn:E1; [|done]. apply He in E1 as [E1|E1]; [congruence|]. exfalso. by apply (Hc i j x).
Qed.

Lemma extends_isTail E d x j : extends E d -> j ∈ stagesOf x -> isTail d (stagesOf x) j = isTail D (stagesOf x) j.
Proof using All.
  intros [_ He Hc] Hj. apply bool_iff. rewrite !isTail_spec. split; intros H i Hi; specialize (H i Hi).
  - destruct (edge D i j) eqn:E1; [|done]. by rewrite (proj2 (He i j)) in H by (by left).
  - destruct (edge d i j) eqn:E1; [|done]. apply He in E1 as [E1|E1]; [congruence|]. exfalso. by apply (Hc i j x).
Qed.

Lemma extends_iff E E' d : (forall i j, E i j <-> E' i j) -> extends E d -> extends E' d.
Proof using All.
  intros H [Hn He Hc]. constructor; [done| |].
  - intros i j. by rewrite He, H.
  - intros i j x Hij. by apply (Hc i j x), H.
Qed.

Lemma set_edge_extends E d i j : extends E d -> (forall x, i ∈ stagesOf x -> j ∈ stagesOf x -> False) ->
  extends (fun i' j' => E i' j' \/ (i' = i /\ j' = j)) (set_edge i j d).
Proof using All.
  intros [Hn He Hc] Hx. constructor; [exact Hn| |].
  - intros i' j'. simpl. rewrite orb_true_iff, andb_true_iff, !Nat.eqb_eq, He. tauto.
  - intros i' j' x [H|[-> ->]]; [by apply Hc|by apply Hx].
Qed.

Lemma addTails_extends E d x p i : extends E d -> x <> p -> i ∈ stagesOf x ->
  extends (fun i' j' => E i' j' \/ (i' = i /\ j' ∈ stagesOf p /\ isTail D (stagesOf p) j' = true)) (addTails (stagesOf p) i d).
Proof using All.
  intros Hd Hne Hi. unfold addTails. assert (Hg : forall l d E, (forall j, j ∈ l -> j ∈ stagesOf p) -> extends E d ->
    extends (fun i' j' => E i' j' \/ (i' = i /\ j' ∈ l /\ isTail D (stagesOf p) j' = true))
      (foldl (fun d tail => if isTail d (stagesOf p) tail then set_edge i tail d else d) d l)); [|by apply Hg].
  clear E d Hd. induction l as [|j l IH]; intros d E Hl Hd.
  { simpl. eapply extends_iff; [|exact Hd]. intros i' j'. rewrite elem_of_nil. tauto. }
  cbn [foldl]. rewrite (extends_isTail E d p j Hd) by (apply Hl; by left). destruct (isTail D (stagesOf p) j) eqn:Ht.
  - eapply extends_iff; [|apply IH; [intros j' Hj'; apply Hl; by right|apply set_edge_extends; [exact Hd|]]].
    + intros i' j'. rewrite elem_of_cons. split; [intros [[?|[-> ->]]|(-> & ? & ?)]|intros [?|(-> & [->|?] & ?)]]; tauto.
    + intros y Hy1 Hy2. apply Hne. rewrite <-(range_unique counts y x i Hy1 Hi). apply (range_unique counts y p j Hy2), Hl. by left.
  - eapply extends_iff; [|apply IH; [intros j' Hj'; apply Hl; by right|exact Hd]].
    intros i' j'. rewrite elem_of_cons. split; [tauto|]. intros [?|(-> & [->|?] & ?)]; [tauto|congruence|tauto].
Qed.

Lemma addRoots_extends E d x p : extends E d -> x <> p ->
  extends (fun i j => E i j \/ link x p i j) (addRoots (stagesOf x) (stagesOf p) d).
Proof using All.
  intros Hd Hne. unfold addRoots, link. assert (Hg : forall l d E, (forall i, i ∈ l -> i ∈ stagesOf x) -> extends E d ->
    extends (fun i j => E i j \/ (i ∈ l /\ isRoot D (stagesOf x) i = true /\ j ∈ stagesOf p /\ isTail D (stagesOf p) j = true))
      (foldl (fun d root => if isRoot d (stagesOf x) root then addTails (stagesOf p) root d else d) d l)); [|by apply Hg].
  clear E d Hd. induction l as [|i l IH]; intros d E Hl Hd.
  { simpl. eapply extends_iff; [|exact Hd]. intros i' j'. rewrite elem_of_nil. tauto. }
  cbn [foldl]. rewrite (extends_isRoot E d x i Hd) by (apply Hl; by left). destruct (isRoot D (stagesOf x) i) eqn:Hr.
  - eapply extends_iff; [|apply IH; [intros j' Hj'; apply Hl; by right|apply (addTails_extends E d x p i Hd Hne); apply Hl; by left]].
    intros i' j'. rewrite elem_of_cons. split; [intros [[?|(-> & ?)]|?]|intros [?|([->|?] & ?)]]; tauto.
  - eapply extends_iff; [|apply IH; [intros j' Hj'; apply Hl; by right|exact Hd]].
    intros i' j'. rewrite elem_of_cons. split; [tauto|]. intros [?|([->|?] & ? & ?)]; [tauto|congruence|tauto].
Qed.

(** The loops add exactly the links of the graph's edges. *)
Lemma addGraphDependencies_edge i j :
  edge (addGraphDependencies topology counts D) i j = true <->
  edge D i j = true \/ exists x p, p < x < nodes /\ topology x p = true /\ link x p i j.
Proof using All.
  assert (Hinner : forall x ps d E, (forall p, p ∈ ps -> p <> x) -> extends E d ->
    extends (fun i j => E i j \/ exists p, p ∈ ps /\ topology x p = true /\ link x p i j)
      (foldl (fun d p => if topology x p then addRoots (stagesOf x) (stagesOf p) d else d) d ps)).
  { intros x. induction ps as [|p ps IH]; intros d E Hps Hd.
    { simpl. eapply extends_iff; [|exact Hd]. intros i' j'. split; [by left|]. by intros [?|(p & ?%elem_of_nil & _)]. }
    cbn [foldl]. destruct (topology x p) eqn:Ht.
    - eapply extends_iff; [|apply IH; [intros p' Hp'; apply Hps; by right|apply addRoots_extends; [exact Hd|]]].
      + intros i' j'. split.
        * intros [[?|?]|(p' & ? & ?)]; [by left|right; exists p|right; exists p']; (split; [|tauto]); [by left|by right].
        * intros [?|(p' & Hp' & ? & ?)]; [tauto|]. apply elem_of_cons in Hp' as [->|Hp']; [tauto|]. right. by exists p'.
      + intros ->. by apply (Hps p); [left|].
    - eapply extends_iff; [|apply IH; [intros p' Hp'; apply Hps; by right|exact Hd]].
      intros i' j'. split.
      + intros [?|(p' & ? & ?)]; [by left|right; exists p']. split; [by right|tauto].
      + intros [?|(p' & Hp' & ? & ?)]; [tauto|]. apply elem_of_cons in Hp' as [->|Hp']; [congruence|]. right. by exists p'. }
  assert (Houter : forall xs d E, extends E d ->
    extends (fun i j => E i j \/ exists x p, x ∈ xs /\ p < x /\ topology x p = true /\ link x p i j)
      (foldl (fun d x => foldl (fun d p => if topology x p then addRoots (stagesOf x) (stagesOf p) d else d) d (seq 0 x)) d xs)).
  { induction xs as [|x xs IH]; intros d E Hd.
    { simpl. eapply extends_iff; [|exact Hd]. intros i' j'. split; [by left|]. by intros [?|(x & p & ?%elem_of_nil & _)]. }
    cbn [foldl]. eapply extends_iff; [|apply IH, (Hinner x (seq 0 x)); [|exact Hd]].
    - intros i' j'. split.
      + intros [[?|(p & Hp%elem_of_seq & ?)]|(x' & p & ? & ?)]; [by left|right; exists x, p|right; exists x', p].
        * split; [by left|]. split; [lia|done].
        * split; [by right|done].
      + intros [?|(x' & p & Hx' & Hp & ?)]; [tauto|]. apply elem_of_cons in Hx' as [->|Hx'].
        * left. right. exists p. split; [apply elem_of_seq; lia|done].
        * right. by exists x', p.
    - intros p Hp%elem_of_seq. lia. }
  assert (HD : extends (fun _ _ => False) D) by (constructor; [done|tauto|done]).
  destruct (Houter (seq 0 nodes) D _ HD) as [_ He _]. unfold addGraphDependencies. rewrite He. split.
  - intros [?|[[]|(x & p & Hx%elem_of_seq & ? & ?)]]; [by left|right]. exists x, p. split; [lia|done].
  - intros [?|(x & p & ? & ? & ?)]; [by left|right; right]. exists x, p. split; [apply elem_of_seq; lia|]. by split; [lia|].
Qed.
End graphs.

Lemma transform_whenAll_foldl {Q} (first : SubmitSender Q) rest :
  transform_whenAll first rest = foldl (compose false) first rest.
Proof. revert first. induction rest as [|next rest IH]; intros first; [done|]. apply IH. Qed.

(** A well-formed sender: its edges go back, and every stage has a queue. *)
Definition sender_wf {Q} (s : SubmitSender Q) : Prop :=
  deps_wf (m_dependencies s) /\ count (m_dependencies s) = length (m_queues s).

Lemma offset_app counts c x : x <= length counts -> offset (counts ++ [c]) x = offset counts x.
Proof. intros Hx. unfold offset. by rewrite take_app_le. Qed.

(** The branches of a [whenAll] keep their orders side by side. *)
Lemma whenAll_order {Q} (first : SubmitSender Q) rest :
  sender_wf first -> (forall s, s ∈ rest -> sender_wf s) ->
  let d := m_dependencies (transform_whenAll first rest) in
  let counts := map (fun s => length (m_queues s)) (first :: rest) in
  sender_wf (transform_whenAll first rest) /\ count d = offset counts (length counts) /\
  forall a b, tc (prec d) a b <-> exists x s, (first :: rest) !! x = Some s /\ offset counts x <= a /\ offset counts x <= b /\
    tc (prec (m_dependencies s)) (a - offset counts x) (b - offset counts x).
Proof.
  intros Hf Hr. rewrite transform_whenAll_foldl. induction rest as [|next rest IH] using rev_ind.
  { cbn [foldl]. unfold offset. simpl. destruct Hf as [Hwf Hc]. split_and!; [done|lia|].
    intros a b. split.
    - intros Ht. exists 0, first. simpl. rewrite !Nat.sub_0_r. split_and!; (done || lia).
    - intros ([|x] & s & Hx & _ & _ & Ht); [|done]. simpl in Ht, Hx. injection Hx as <-. by rewrite !Nat.sub_0_r in Ht. }
  destruct IH as ((Hwf & Hlen) & Hc & Hord); [intros s Hs; apply Hr, elem_of_app; by left|].
  destruct (Hr next) as [Hnw Hnc]; [apply elem_of_app; right; by left|].
  rewrite foldl_app. cbn [foldl compose m_dependencies m_queues].
  set (F := foldl (compose false) first rest) in *. rewrite app_comm_cons, map_app.
  set (counts := map (fun s => length (m_queues s)) (first :: rest)) in *.
  change (map (fun s => length (m_queues s)) [next]) with [length (m_queues next)]. assert (Hl : length counts = length (first :: rest)) by apply length_map.
  assert (Ho : offset (counts ++ [length (m_queues next)]) (length counts) = count (m_dependencies F)).
  { by rewrite offset_app, Hc. }
  clearbody counts.
  split_and!.
  - split; [by apply compose_wf|]. simpl. rewrite length_app. lia.
  - rewrite length_app. simpl. rewrite Nat.add_1_r.
    rewrite (offset_step (counts ++ [length (m_queues next)]) (length counts) (length (m_queues next))) by (by apply list_lookup_middle).
    rewrite Ho. lia.
  - intros a b. rewrite compose_tc, Hord by done. split.
    + intros [(x & s & Hx & H1 & H2 & Ht)|[(H1 & H2 & Ht)|(? & _)]]; [..|discriminate].
      * pose proof (lookup_lt_Some _ _ _ Hx). exists x, s. rewrite offset_app by lia. split_and!; try done. by rewrite lookup_app_l.
      * exists (length counts), next. rewrite Ho. split_and!; try done. rewrite Hl. by apply list_lookup_middle.
    + intros (x & s & Hx & H1 & H2 & Ht). destruct (decide (x < length counts)) as [Hlt|Hge].
      * left. exists x, s. rewrite offset_app in H1, H2, Ht by lia. rewrite lookup_app_l in Hx by lia. by split_and!.
      * right; left. assert (x = length counts) as -> by (pose proof (lookup_lt_Some _ _ _ Hx); rewrite length_app in *; simpl in *; lia).
        rewrite Ho in H1, H2, Ht. rewrite Hl, list_lookup_middle in Hx by done. injection Hx as <-. by split_and!.
Qed.

Lemma addGraph_count topology counts d : count (addGraphDependencies topology counts d) = count d.
Proof.
  assert (Hf : forall {A} (f : SubmissionDependencies -> A -> SubmissionDependencies) l d,
    (forall d x, count (f d x) = count d) -> count (foldl f d l) = count d).
  { intros A f l. induction l as [|x l IH]; intros d0 Hf; [done|]. simpl. by rewrite IH, Hf. }
  apply Hf. intros d0 x. apply Hf. intros d1 p. destruct (topology x p); [|done].
  apply Hf. intros d2 r. destruct (isRoot _ _ _); [|done]. apply Hf. intros d3 t. by destruct (isTail _ _ _).
Qed.

Section graph_order.
Context (topology : nat -> nat -> bool) (counts : list nat) (D : SubmissionDependencies).
#[local] Abbreviation stagesOf x := (range counts x).
#[local] Abbreviation D' := (addGraphDependencies topology counts D).
Context (HD : deps_wf D) (Hpos : forall x c, counts !! x = Some c -> 0 < c).
Context (Hcross : forall i j, edge D i j = true -> exists x, i ∈ stagesOf x /\ j ∈ stagesOf x).

(** [p] is a direct predecessor of [x] in the graph. *)
Definition earlier (p x : nat) : Prop := topology x p = true /\ p < x < length counts.

Lemma graph_tc x y a b : a ∈ stagesOf x -> b ∈ stagesOf y ->
  tc (prec D') a b <-> (x = y /\ tc (prec D) a b) \/ tc earlier x y.
Proof using All.
  assert (Hsub : forall a b, prec D a b -> prec D' a b).
  { intros i j E. apply addGraphDependencies_edge. by left. }
  intros Ha Hb. split.
  - intros Ht. revert x y Ha Hb. induction Ht as [a b E|a c b E _ IH]; intros x y Ha Hb.
    + apply addGraphDependencies_edge in E as [E|(q & p & Hq & Htop & Hi & _ & Hj & _)].
      * destruct (Hcross b a E) as (z & Hbz & Haz). left. split; [|by apply tc_once].
        by rewrite (range_unique counts x z a Ha Haz), (range_unique counts y z b Hb Hbz).
      * right. apply tc_once. by rewrite (range_unique counts x p a Ha Hj), (range_unique counts y q b Hb Hi).
    + apply addGraphDependencies_edge in E as [E|(q & p & Hq & Htop & Hi & _ & Hj & _)].
      * destruct (Hcross c a E) as (z & Hcz & Haz). rewrite (range_unique counts x z a Ha Haz).
        destruct (IH z y Hcz Hb) as [[-> IH']|IH']; [left; split; [done|by eapply tc_l]|by right].
      * right. rewrite (range_unique counts x p a Ha Hj). assert (He : earlier p q) by done.
        destruct (IH q y Hi Hb) as [[<- _]|IH']; [by apply tc_once|by eapply tc_l].
  - intros [[_ Ht]|Ht]; [by apply (tc_congruence id (prec D')) in Ht|]. revert a b Ha Hb.
    assert (Hone : forall x y a b, earlier x y -> a ∈ stagesOf x -> b ∈ stagesOf y -> tc (prec D') a b).
    { intros p q i j [Htop Hlt] Hi Hj. destruct (reach_tail D (stagesOf p) i HD Hi) as (t & Ht1 & Ht2 & Ht3).
      destruct (reach_root D (stagesOf q) j HD Hj) as (r & Hr1 & Hr2 & Hr3).
      eapply tc_rtc_l; [apply (rtc_congruence id (prec D')) in Ht2; [exact Ht2|exact Hsub]|].
      eapply tc_rtc_r; [apply tc_once|apply (rtc_congruence id (prec D')) in Hr2; [exact Hr2|exact Hsub]].
      apply addGraphDependencies_edge. right. exists q, p. split; [exact Hlt|]. split; [exact Htop|].
      split; [exact Hr1|]. split; [exact Hr3|]. split; [exact Ht1|exact Ht3]. }
    induction Ht as [x y E|x z y E _ IH]; intros a b Ha Hb; [by eapply Hone|].
    destruct (proj2 E) as [_ Hz]. destruct (lookup_lt_is_Some_2 _ _ Hz) as [c Hc].
    assert (Hzs : offset counts z ∈ stagesOf z).
    { apply elem_range. rewrite (offset_step counts z c Hc). specialize (Hpos z c Hc). lia. }
    eapply tc_transitive; [by apply (Hone x z)|by apply IH].
Qed.
End graph_order.

Lemma stages_pos {Q} (e : expression Q) : 0 < stages e.
Proof. induction e; simpl; lia. Qed.

(** C17: a graph whose nodes are compositions of submissions is lowered to one submission that runs it as
    the graph says.  Two stages of one node are ordered as the node's expression reads, and stages
    of different nodes are ordered exactly when the nodes are, directly or through other
    nodes; so when a queue carries out a stage, every stage of every predecessor node has been
    carried out, and unrelated nodes do not wait for each other. *)
Theorem submission_graph {Q} `{EqDecision Q} (nodes : list GraphNode) (first : expression Q) (rest : list (expression Q)) :
  graph nodes = true -> length nodes = length (first :: rest) ->
  let s := transform_graph (predecessors nodes) (lower first) (map lower rest) in
  let counts := map stages (first :: rest) in
  let commands := SubmitOperation_submit s in
  let related := tc (fun p x => predecessors nodes x p = true) in
  forall x y e a b, (first :: rest) !! x = Some e -> a ∈ range counts x -> b ∈ range counts y ->
    (tc (prec (m_dependencies s)) a b <->
       (x = y /\ before e (a - offset counts x) (b - offset counts x)) \/ related x y) /\
    (forall d k q, native_execution commands (d ++ [k]) -> commands !! k = Some (q, Run b) -> related x y ->
       exists m q', commands !! m = Some (q', Run a) /\ m ∈ d).
Proof.
  intros Hg Hlen s counts commands related x y e a b He Ha Hb.
  set (senders := map lower (first :: rest)).
  destruct (whenAll_order (lower first) (map lower rest)) as ((Hwf & Hl) & Hc & Hord).
  { destruct (lower_wf first) as (? & Hc & Hq). split; [done|]. by rewrite Hc, Hq. }
  { intros s' (e' & -> & _)%list_elem_of_fmap. destruct (lower_wf e') as (? & Hc & Hq). split; [done|]. by rewrite Hc, Hq. }
  set (D := m_dependencies (transform_whenAll (lower first) (map lower rest))) in *.
  assert (Ec : map (fun s => length (m_queues s)) (lower first :: map lower rest) = counts).
  { unfold counts. change (lower first :: map lower rest) with (map lower (first :: rest)). rewrite map_map.
    apply map_ext. intros e'. apply lower_wf. }
  rewrite Ec in Hc, Hord.
  assert (Hin : forall i j, edge D i j = true -> exists z, i ∈ range counts z /\ j ∈ range counts z).
  { intros i j E. destruct (proj1 (Hord j i) (tc_once _ _ _ E)) as (z & s' & Hz & H1 & H2 & Ht).
    exists z. change (lower first :: map lower rest) with (map lower (first :: rest)) in Hz.
    rewrite list_lookup_fmap in Hz. destruct ((first :: rest) !! z) as [e'|] eqn:Hz'; [|discriminate]. injection Hz as <-.
    destruct (lower_wf e') as (Hw & Hcn & _). pose proof (tc_bounds _ _ _ Hw Ht).
    assert (Hcz : counts !! z = Some (stages e')) by (unfold counts; by rewrite list_lookup_fmap, Hz').
    rewrite !elem_range, (offset_step counts z _ Hcz). lia. }
  assert (Hpos : forall z c, counts !! z = Some c -> 0 < c).
  { intros z c Hz. unfold counts in Hz. rewrite list_lookup_fmap in Hz. destruct ((first :: rest) !! z) as [e'|]; [|discriminate].
    injection Hz as <-. apply stages_pos. }
  assert (Hlc : length counts = length nodes) by (unfold counts; by rewrite length_map).
  assert (Hrel : forall p z, earlier (predecessors nodes) counts p z <-> predecessors nodes z p = true).
  { intros p z. unfold earlier. rewrite Hlc. split; [by intros [? _]|]. intros E. split; [done|]. by apply graph_edges. }
  assert (Hrt : tc (earlier (predecessors nodes) counts) x y <-> related x y).
  { split; intros Ht; eapply (tc_congruence id) in Ht; [exact Ht| |exact Ht|]; intros p z E; [exact (proj1 (Hrel p z) E)|exact (proj2 (Hrel p z) E)]. }
  assert (Es : m_dependencies s = addGraphDependencies (predecessors nodes) counts D) by (unfold s, transform_graph; by rewrite Ec).
  assert (Hiff : tc (prec (m_dependencies s)) a b <->
       (x = y /\ before e (a - offset counts x) (b - offset counts x)) \/ related x y).
  { rewrite Es, (graph_tc (predecessors nodes) counts D Hwf Hpos Hin x y a b Ha Hb), Hrt, Hord.
    apply or_iff_compat_r. split; intros [<- H].
    - destruct H as (z & s' & Hz & H1 & H2 & Ht). split; [done|].
      change (lower first :: map lower rest) with (map lower (first :: rest)) in Hz. rewrite list_lookup_fmap in Hz.
      destruct ((first :: rest) !! z) as [e'|] eqn:Hz'; [|discriminate]. injection Hz as <-.
      destruct (lower_wf e') as (Hw & Hcn & _). pose proof (tc_bounds _ _ _ Hw Ht).
      assert (Hcz : counts !! z = Some (stages e')) by (unfold counts; by rewrite list_lookup_fmap, Hz').
      assert (z = x) as ->.
      { apply (range_unique counts z x a); [|done]. rewrite elem_range, (offset_step counts z _ Hcz). lia. }
      rewrite He in Hz'. injection Hz' as <-. apply lower_order. exact Ht.
    - split; [done|]. exists x, (lower e). apply elem_range in Ha, Hb. split_and!; [|lia|lia|by apply lower_order].
      change (lower first :: map lower rest) with (map lower (first :: rest)). by rewrite list_lookup_fmap, He. }
  split; [exact Hiff|].
  intros d k q Hex Hk Hr. eapply (stage_order s); [| |exact Hex|exact Hk|apply Hiff; by right].
  - intros i j E. rewrite Es in E |- *. apply addGraphDependencies_edge in E as [E|(z & p & Hz & Htop & Hi & _ & Hj & _)].
    + rewrite addGraph_count. by apply Hwf.
    + rewrite addGraph_count, Hc. apply elem_range in Hi, Hj. pose proof (offset_mono counts (S p) z ltac:(lia)).
      pose proof (offset_mono counts (S z) (length counts) ltac:(lia)). lia.
  - rewrite Es, addGraph_count. exact Hl.
Qed.

(** ** Witnesses *)

(** Whether position [k] can be carried out after [done], as a function. *)
Definition enabled {Q} `{EqDecision Q} (commands : list (option Q * command)) (done : list nat) (k : nat) : bool :=
  match commands !! k with
  | None => false
  | Some (q, c) =>
      bool_decide (k ∉ done) &&
      forallb (fun k' => match commands !! k' with
                         | Some (q', _) => negb (bool_decide (q' = q)) || bool_decide (k' ∈ done) | None => true end) (seq 0 k) &&
      forallb (fun m => match c, commands !! m with
                        | Wait f, Some (_, Record_ f') => negb (f' =? f) || bool_decide (m ∈ done) | _, _ => true end) (seq 0 k)
  end.

Fixpoint executes {Q} `{EqDecision Q} (commands : list (option Q * command)) (done todo : list nat) : bool :=
  match todo with [] => true | k :: todo => enabled commands done k && executes commands (done ++ [k]) todo end.

Lemma executes_sound {Q} `{EqDecision Q} (commands : list (option Q * command)) todo : forall done,
  native_execution commands done -> executes commands done todo = true -> native_execution commands (done ++ todo).
Proof.
  induction todo as [|k todo IH]; intros d Hd H; [by rewrite app_nil_r|].
  cbn [executes] in H. apply andb_prop in H as [He Hx]. unfold enabled in He.
  destruct (commands !! k) as [[q c]|] eqn:Hk; [|discriminate]. apply andb_prop in He as [[H1%bool_decide_eq_true H2]%andb_prop H3].
  rewrite forallb_seq0 in H2, H3. replace (d ++ k :: todo) with ((d ++ [k]) ++ todo) by by rewrite <-app_assoc.
  apply IH; [|exact Hx]. eapply execution_snoc; [exact Hd|exact Hk|exact H1| |].
  - intros k' c' Hlt Hk'. specialize (H2 k' Hlt). rewrite Hk' in H2. rewrite bool_decide_eq_true_2 in H2 by done.
    by apply bool_decide_eq_true in H2.
  - intros f m q' -> Hlt Hm. specialize (H3 m Hlt). rewrite Hm, Nat.eqb_refl in H3. by apply bool_decide_eq_true in H3.
Qed.

(** Two branches on queues 0 and 1, joined on queue 0; the second branch runs first. *)
Definition example_work : expression nat := Sequence (WhenAll (Submit 0) (Submit 1)) (Sequence (Submit 0) (Submit 0)).

Lemma submission_order_witness :
  let commands := SubmitOperation_submit (lower example_work) in
  length commands = 8 /\ native_execution commands ([2; 3; 0; 1; 4] ++ [5]) /\ exists m q, commands !! m = Some (q, Run 1) /\ m ∈ [2; 3; 0; 1; 4].
Proof.
  intros commands. assert (Hx : native_execution commands ([2; 3; 0; 1; 4] ++ [5])).
  { apply (executes_sound commands [2; 3; 0; 1; 4; 5] []); [apply execution_nil|vm_compute; reflexivity]. }
  split; [vm_compute; reflexivity|]. split; [exact Hx|].
  destruct (submission_order example_work) as (_ & H & _).
  apply (H [2; 3; 0; 1; 4] 5 (Some 0) 1 2 Hx); [vm_compute; reflexivity|]. right. right. simpl. lia.
Defined.

Lemma submission_graph_witness :
  let s := transform_graph (predecessors example_graph) (lower (Submit 0)) [lower (Submit 1); lower (Submit 2); lower (Submit 0)] in
  tc (prec (m_dependencies s)) 0 3 <-> (0 = 3 /\ False) \/ tc (fun p x => predecessors example_graph x p = true) 0 3.
Proof.
  apply (submission_graph example_graph (Submit 0) [Submit 1; Submit 2; Submit 0] eq_refl eq_refl 0 3 (Submit 0) 0 3 eq_refl).
  - by left.
  - by left.
Defined.
