(* ===== verification/QueuePools.v ===== *)
(** * Pools of queues and events

    Models caravan/alpaka/queue/{queue_pool,shared_queue_pool}.hpp and
    event_pool.hpp.  A lease pool hands every connected graph queues of
    its own and grows when there are not enough; an event pool keeps its free entries in a linked
    list; the shared pool maps the lanes of all graphs to a fixed set of queues and locks the ones
    a graph uses, in ascending order, while it submits. *)
From Stdlib Require Import ZArith Lia.
From stdpp Require Import base list numbers sorting relations strings.
From S2P Require Import Prelude Transition Outcome.

(** ** Leases of queues *)

(** [QueuePool]: whether each of its entries is leased. *)
Definition QueuePool : Type := list bool.

(** The loop over the entries that are not leased. *)
Definition idle (count : nat) (pool : QueuePool) : list nat :=
  foldl (fun entries e => if (negb (pool !!! e) && negb (length entries =? count)%nat)%bool then entries ++ [e] else entries)
    [] (seq 0 (length pool)).

Definition mark (leased : bool) (entries : list nat) (pool : list bool) : list bool :=
  foldl (fun pool e => <[e := leased]> pool) pool entries.

Definition acquire (count : nat) (pool : QueuePool) : list nat * QueuePool :=
  let entries := idle count pool in
  let grown := (count - length entries)%nat in
  let entries := entries ++ seq (length pool) grown in
  (entries, mark true entries (pool ++ replicate grown false)).

Definition release (entries : list nat) (pool : QueuePool) : QueuePool := mark false entries pool.

(** A pool with the leases that are out. *)
Inductive lease_step : QueuePool * list (list nat) -> QueuePool * list (list nat) -> Prop :=
  | lease_acquire pool leases count entries pool' :
      acquire count pool = (entries, pool') -> lease_step (pool, leases) (pool', leases ++ [entries])
  | lease_release pool before entries after :
      lease_step (pool, before ++ entries :: after) (release entries pool, before ++ after).

(** ** Leases of events *)

(** [EventPool]: the [next] link of every entry, and the first free one. *)
Record EventPool : Type := mkEventPool { m_entries : list (option nat); m_free : option nat }.

Definition event_acquire (p : EventPool) : nat * EventPool :=
  match m_free p with
  | Some entry => (entry, mkEventPool (m_entries p) (m_entries p !!! entry))
  | None => (length (m_entries p), mkEventPool (m_entries p ++ [None]) None)
  end.

Definition event_release (entry : nat) (p : EventPool) : EventPool :=
  mkEventPool (<[entry := m_free p]> (m_entries p)) (Some entry).

Inductive event_step : EventPool * list nat -> EventPool * list nat -> Prop :=
  | event_step_acquire p leased entry p' :
      event_acquire p = (entry, p') -> event_step (p, leased) (p', leased ++ [entry])
  | event_step_release p before entry after :
      event_step (p, before ++ entry :: after) (event_release entry p, before ++ after).

(** ** The shared pool *)

Record SharedQueuePool : Type := mkShared { queueCount : nat; m_next : nat; m_started : bool }.

Definition SharedQueuePool_init (count : nat) : outcome SharedQueuePool :=
  if (count =? 0)%nat then Throw invalid_argument "SharedQueuePool requires at least one queue"
  else Ret (mkShared count 0 false).

Definition addQueues (count : nat) : Host SharedQueuePool unit :=
  p ← get_state;
  if m_started p then throw logic_error "SharedQueuePool cannot grow after its first submission"
  else modify (fun p => mkShared (queueCount p + count) (m_next p) (m_started p)).

(** The base of a binding. *)
Definition shared_acquire (laneCount : nat) (p : SharedQueuePool) : nat * SharedQueuePool :=
  (m_next p, mkShared (queueCount p) ((m_next p + laneCount mod queueCount p) mod queueCount p) true).

(** [Binding::operator[]]. *)
Definition binding_queue (p : SharedQueuePool) (base lane : nat) : nat := (base + lane) mod queueCount p.

(** The queues a graph uses, each once, in ascending order. *)
Definition distinct_queues (p : SharedQueuePool) (base : nat) (lanes : list nat) : list nat :=
  foldl (fun distinct lane =>
    let index := binding_queue p base lane in
    if existsb (fun q => q =? index)%nat distinct then distinct else distinct ++ [index]) [] lanes.
Definition lock_order (p : SharedQueuePool) (base : nat) (lanes : list nat) : list nat :=
  merge_sort le (distinct_queues p base lanes).

(** [Binding::start] of every thread: how many locks it has, what it does next. *)
Inductive phase : Type :=
  | Locking (held : nat)
  | Submitting
  | Unlocking (held : nat)
  | Published.

#[global] Instance phase_eq_dec : EqDecision phase.
Proof. solve_decision. Defined.

Section shared.
Context (plans : list (list nat)).   (* the lock orders of the operations *)

(** The locks an operation holds. *)
Definition holds (plan : list nat) (ph : phase) : list nat :=
  match ph with
  | Locking held | Unlocking held => take held plan
  | Submitting => plan
  | Published => []
  end.

Definition locks (phases : list phase) : list nat := concat (zip_with holds plans phases).

Definition free (phases : list phase) (q : nat) : Prop := q ∉ locks phases.

Inductive start_step : list phase -> list phase -> Prop :=
  | start_lock phases t plan held q :
      plans !! t = Some plan -> phases !! t = Some (Locking held) -> plan !! held = Some q -> free phases q ->
      start_step phases (<[t := Locking (S held)]> phases)
  | start_submit phases t plan :
      plans !! t = Some plan -> phases !! t = Some (Locking (length plan)) -> start_step phases (<[t := Submitting]> phases)
  | start_submitted phases t plan :
      plans !! t = Some plan -> phases !! t = Some Submitting -> start_step phases (<[t := Unlocking (length plan)]> phases)
  | start_unlock phases t held :
      phases !! t = Some (Unlocking (S held)) -> start_step phases (<[t := Unlocking held]> phases)
  | start_publish phases t :
      phases !! t = Some (Unlocking 0) -> start_step phases (<[t := Published]> phases).

Definition all_start : list phase := replicate (length plans) (Locking 0).
End shared.

(** ** Leases are disjoint *)

Lemma idle_spec count pool :
  idle count pool = take count (filter (fun e => pool !!! e = false) (seq 0 (length pool))).
Proof.
  unfold idle. assert (Hg : forall l acc, length acc <= count ->
    foldl (fun entries e => if (negb (pool !!! e) && negb (length entries =? count))%bool then entries ++ [e] else entries) acc l =
    acc ++ take (count - length acc) (filter (fun e => pool !!! e = false) l)).
  { induction l as [|e l IH]; intros acc Hacc; [by cbn [foldl]; rewrite filter_nil, take_nil, app_nil_r|]. cbn [foldl]. rewrite filter_cons.
    destruct (pool !!! e) eqn:He; cbn [negb andb].
    - rewrite decide_False by done. by apply IH.
    - rewrite decide_True by done. destruct (Nat.eqb_spec (length acc) count) as [Hc|Hc]; cbn [negb].
      + rewrite IH by done. by rewrite Hc, Nat.sub_diag.
      + rewrite IH by (rewrite length_app; simpl; lia). rewrite <-app_assoc, length_app. simpl. f_equal.
        replace (count - length acc) with (S (count - (length acc + 1))) by lia. done. }
  rewrite Hg by (simpl; lia). by rewrite Nat.sub_0_r.
Qed.

Lemma mark_length b es pool : length (mark b es pool) = length pool.
Proof. revert pool. induction es as [|e es IH]; intros pool; [done|]. change (length (mark b es (<[e := b]> pool)) = length pool). by rewrite IH, length_insert. Qed.

Lemma mark_lookup b es pool i : i < length pool -> mark b es pool !!! i = if decide (i ∈ es) then b else pool !!! i.
Proof.
  revert pool. induction es as [|e es IH]; intros pool Hi.
  { rewrite decide_False by apply not_elem_of_nil. done. }
  change (mark b es (<[e := b]> pool) !!! i = if decide (i ∈ e :: es) then b else pool !!! i). rewrite IH by (by rewrite length_insert). destruct (decide (i = e)) as [->|Hne].
  - rewrite (decide_True (P := e ∈ e :: es)) by (by left). rewrite list_lookup_total_insert_eq by done. by destruct (decide _).
  - rewrite list_lookup_total_insert_ne by done. destruct (decide (i ∈ es)).
    + rewrite decide_True by (by right). done.
    + rewrite decide_False; [done|]. by intros [?|?]%elem_of_cons.
Qed.

(** The flags mark exactly the leases that are out. *)
Record leases_ok (pool : QueuePool) (leases : list (list nat)) : Prop := {
  lo_once : NoDup (concat leases);
  lo_in : forall e, e ∈ concat leases -> e < length pool;
  lo_flag : forall e, e < length pool -> pool !!! e = bool_decide (e ∈ concat leases)
}.

Lemma idle_length pool leases : leases_ok pool leases ->
  length (filter (fun e => pool !!! e = false) (seq 0 (length pool))) + length (concat leases) = length pool.
Proof.
  intros [Hnd Hin Hfl]. rewrite <-length_app. rewrite <-(length_seq (length pool) 0) at 2. apply Permutation_length.
  apply NoDup_Permutation.
  - apply list.NoDup_app. split_and!; [apply list.NoDup_filter, NoDup_seq| |done].
    intros e [He Hs%elem_of_seq]%list_elem_of_filter Hc. rewrite Hfl in He by lia.
    by apply bool_decide_eq_false in He.
  - apply NoDup_seq.
  - intros e. rewrite elem_of_app, list_elem_of_filter, elem_of_seq. split.
    + intros [[_ ?]|He]; [done|]. specialize (Hin e He). lia.
    + intros He. rewrite Hfl by lia. destruct (decide (e ∈ concat leases)); [by right|left].
      split; [by apply bool_decide_eq_false|done].
Qed.

Lemma acquire_spec count pool leases entries pool' : leases_ok pool leases -> acquire count pool = (entries, pool') ->
  length entries = count /\ leases_ok pool' (leases ++ [entries]) /\
  length pool' = Nat.max (length pool) (length (concat leases) + count).
Proof.
  intros Hok [= <- <-]. pose proof (idle_length pool leases Hok) as Hidle. destruct Hok as [Hnd Hin Hfl].
  rewrite idle_spec. set (free := filter _ (seq 0 (length pool))) in *.
  set (grown := count - length (take count free)).
  assert (Hfree : forall e, e ∈ take count free -> e < length pool /\ e ∉ concat leases).
  { intros e He. apply elem_of_take in He as (i & He & _). apply list_elem_of_lookup_2, list_elem_of_filter in He as [He Hs%elem_of_seq].
    split; [lia|]. rewrite Hfl in He by lia. by apply bool_decide_eq_false in He. }
  assert (Hgl : length (take count free) + grown = count) by (unfold grown; rewrite length_take; lia).
  assert (Hnd' : NoDup (take count free ++ seq (length pool) grown)).
  { apply list.NoDup_app. split_and!; [|by intros e [He _]%Hfree ?%elem_of_seq; lia|apply NoDup_seq].
    apply (sublist_NoDup _ free); [apply list.NoDup_filter, NoDup_seq|apply sublist_take]. }
  split_and!.
  - rewrite length_app, length_seq. exact Hgl.
  - constructor; rewrite concat_app; simpl; rewrite app_nil_r.
    + apply list.NoDup_app. split_and!; [done| |exact Hnd'].
      intros e He [He'|He'%elem_of_seq]%elem_of_app; [by apply Hfree in He' as [_ ?]|specialize (Hin e He); lia].
    + rewrite mark_length, length_app, length_replicate. intros e [He|[He|He%elem_of_seq]%elem_of_app]%elem_of_app; [specialize (Hin e He); lia|apply Hfree in He; lia|lia].
    + intros e He. rewrite mark_length in He. rewrite mark_lookup by done. rewrite length_app, length_replicate in He.
      destruct (decide _) as [Hd|Hd].
      { symmetry. apply bool_decide_eq_true, elem_of_app. by right. }
      destruct (decide (e < length pool)) as [Hlt|Hge].
      * rewrite lookup_total_app_l, Hfl by done. apply bool_decide_ext. rewrite elem_of_app. tauto.
      * exfalso. apply Hd, elem_of_app. right. apply elem_of_seq. lia.
  - rewrite mark_length, length_app, length_replicate. unfold grown. rewrite length_take. lia.
Qed.

Lemma release_spec pool before entries after : leases_ok pool (before ++ entries :: after) ->
  leases_ok (release entries pool) (before ++ after).
Proof.
  intros [Hnd Hin Hfl].
  assert (Hp : concat (before ++ entries :: after) ≡ₚ entries ++ concat (before ++ after)).
  { rewrite !concat_app. simpl. rewrite !app_assoc. f_equiv. apply Permutation_app_comm. }
  rewrite Hp in Hnd. apply list.NoDup_app in Hnd as (_ & Hd & Hnd). constructor; unfold release; [done| |].
  - intros e He. rewrite mark_length. apply Hin. rewrite Hp. apply elem_of_app. by right.
  - intros e He. rewrite mark_length in He. rewrite mark_lookup by done. destruct (decide (e ∈ entries)) as [Hi|Hi].
    + symmetry. apply bool_decide_eq_false. by apply Hd.
    + rewrite Hfl by done. apply bool_decide_ext. rewrite Hp, elem_of_app. tauto.
Qed.

(** Leases of queues never overlap, whatever graphs connect and complete: in every
    reachable state of the pool a queue is in at most one lease and marked as leased exactly while it is, and
    [acquire] returns as many queues as were asked for, none of them out, without waiting; it makes new
    ones only for what the idle ones do not cover. *)
Theorem pool_leases count0 pool leases :
  rtc lease_step (replicate count0 false, []) (pool, leases) ->
  NoDup (concat leases) /\
  (forall e, e < length pool -> pool !!! e = bool_decide (e ∈ concat leases)) /\
  forall count entries pool', acquire count pool = (entries, pool') ->
    length entries = count /\ NoDup (concat leases ++ entries) /\
    length pool' = Nat.max (length pool) (length (concat leases) + count).
Proof.
  intros Hrun. assert (Hok : leases_ok pool leases).
  { apply (preserved_rtc lease_step (fun s => leases_ok s.1 s.2) (replicate count0 false, []) (pool, leases)); [| |exact Hrun].
    - intros [p ls] [p' ls'] Hp Hstep. inversion Hstep; subst; [by eapply acquire_spec|by apply release_spec].
    - constructor; simpl; [constructor|by intros e ?%elem_of_nil|]. intros e He.
      rewrite length_replicate in He. etransitivity; [by apply lookup_total_replicate_2|done]. }
  split_and!; [apply Hok|apply Hok|]. intros count entries pool' Ha.
  destruct (acquire_spec count pool leases entries pool' Hok Ha) as (Hl & [Hnd _ _] & Hs).
  rewrite concat_app in Hnd. simpl in Hnd. rewrite app_nil_r in Hnd. by split_and!.
Qed.

(** The first graph leases two queues, the second three of which one is new. *)
Lemma pool_leases_witness : exists pool leases,
  rtc lease_step (replicate 4 false, []) (pool, leases) /\ leases = [[0; 1]; [2; 3; 4]] /\
  NoDup (concat leases) /\ length pool = 5.
Proof.
  eexists _, _. assert (Hrun : rtc lease_step (replicate 4 false, []) ([true; true; true; true; true], [[0; 1]; [2; 3; 4]])).
  { eapply rtc_l; [apply (lease_acquire _ [] 2); vm_compute; reflexivity|].
    eapply rtc_l; [apply (lease_acquire _ [[0; 1]] 3); vm_compute; reflexivity|]. apply rtc_refl. }
  split; [exact Hrun|]. split; [reflexivity|]. split; [|reflexivity].
  apply (pool_leases 4 _ _ Hrun).
Defined.

(** ** Events *)

(** The free list from [o] holds the entries [l]. *)
Fixpoint linked (entries : list (option nat)) (o : option nat) (l : list nat) : Prop :=
  match l with
  | [] => o = None
  | e :: l => o = Some e /\ e < length entries /\ linked entries (entries !!! e) l
  end.

Lemma linked_insert entries o l e x : e ∉ l -> linked entries o l -> linked (<[e := x]> entries) o l.
Proof.
  revert o. induction l as [|f l IH]; intros o He; [done|]. apply not_elem_of_cons in He as [Hne He].
  intros (-> & Hf & Hl). simpl. rewrite length_insert, list_lookup_total_insert_ne by done. split_and!; [done|done|by apply IH].
Qed.

(** Every event is either leased or free. *)
Definition events_ok (p : EventPool) (leased : list nat) : Prop :=
  exists l, linked (m_entries p) (m_free p) l /\ leased ++ l ≡ₚ seq 0 (length (m_entries p)).

Lemma event_acquire_spec p leased entry p' : events_ok p leased -> event_acquire p = (entry, p') ->
  events_ok p' (leased ++ [entry]) /\ (entry ∉ leased) /\
  length (m_entries p') = Nat.max (length (m_entries p)) (S (length leased)).
Proof.
  intros (l & Hl & Hp) Ha. unfold event_acquire in Ha.
  assert (Hlen : length leased + length l = length (m_entries p)) by (by rewrite <-length_app, Hp, length_seq).
  assert (Hnd : NoDup (leased ++ l)) by (rewrite Hp; apply NoDup_seq).
  destruct (m_free p) as [e|] eqn:Hf; injection Ha as <- <-; destruct l as [|e' l]; simpl in Hl; try done.
  - destruct Hl as ([= <-] & He & Hl). split_and!.
    + exists l. split; [done|]. by rewrite <-app_assoc.
    + apply list.NoDup_app in Hnd as (_ & Hd & _). intros Hin. apply (Hd e Hin). by left.
    + simpl in *. lia.

  - rewrite app_nil_r in Hp. simpl in Hlen. split_and!.
    + exists []. split; [done|]. simpl. rewrite app_nil_r, length_app, seq_app. simpl. by rewrite Hp.
    + rewrite Hp, elem_of_seq. lia.
    + simpl. rewrite length_app. simpl. lia.
  - by destruct Hl as [? _].
Qed.

Lemma event_release_spec p before entry after : events_ok p (before ++ entry :: after) ->
  events_ok (event_release entry p) (before ++ after).
Proof.
  intros (l & Hl & Hp). assert (Hnd : NoDup ((before ++ entry :: after) ++ l)) by (rewrite Hp; apply NoDup_seq).
  assert (Hin : entry ∈ seq 0 (length (m_entries p))) by (rewrite <-Hp, !elem_of_app; left; right; by left).
  apply elem_of_seq in Hin. exists (entry :: l). simpl. rewrite length_insert. split_and!; [done|lia| |].
  - rewrite list_lookup_total_insert_eq by lia. apply linked_insert; [|done].
    apply list.NoDup_app in Hnd as (_ & Hd & _). apply Hd, elem_of_app. right. by left.
  - rewrite <-Hp, <-!app_assoc. f_equiv. simpl. by rewrite Permutation_middle.
Qed.

(** An event is never in two leases and none is ever lost: in every reachable state of the
    pool each event is leased once or in the free list, [acquire] returns one that is not leased, and creates a new
    one only when all of them are, so the pool is as large as the most leases that were ever out. *)
Theorem event_leases p leased :
  rtc event_step (mkEventPool [] None, []) (p, leased) ->
  (exists l, linked (m_entries p) (m_free p) l /\ leased ++ l ≡ₚ seq 0 (length (m_entries p))) /\
  forall entry p', event_acquire p = (entry, p') ->
    (entry ∉ leased) /\ entry < length (m_entries p') /\
    length (m_entries p') = Nat.max (length (m_entries p)) (S (length leased)).
Proof.
  intros Hrun. assert (Hok : events_ok p leased).
  { apply (preserved_rtc event_step (fun s => events_ok s.1 s.2) (mkEventPool [] None, []) (p, leased)); [| |exact Hrun].
    - intros [q ls] [q' ls'] Hp Hstep. inversion Hstep; subst; [by eapply event_acquire_spec|by apply event_release_spec].
    - exists []. by split. }
  split; [exact Hok|]. intros entry p' Ha. destruct (event_acquire_spec p leased entry p' Hok Ha) as ((l & _ & Hp) & Hni & Hs).
  split_and!; [done| |done]. assert (Hin : entry ∈ seq 0 (length (m_entries p'))).
  { rewrite <-Hp, !elem_of_app. left. right. by left. }
  apply elem_of_seq in Hin. lia.
Qed.

(** Two leases, the first returned and taken again. *)
Lemma event_leases_witness : exists p,
  rtc event_step (mkEventPool [] None, []) (p, [1]) /\ p = mkEventPool [None; None] (Some 0) /\
  exists l, linked (m_entries p) (m_free p) l /\ [1] ++ l ≡ₚ seq 0 2.
Proof.
  eexists. assert (Hrun : rtc event_step (mkEventPool [] None, []) (mkEventPool [None; None] (Some 0), [1])).
  { eapply rtc_l; [by apply event_step_acquire|]. eapply rtc_l; [by apply event_step_acquire|].
    eapply rtc_l; [apply (event_step_release _ [] 0 [1])|]. apply rtc_refl. }
  split; [exact Hrun|]. split; [reflexivity|]. apply (event_leases _ _ Hrun).
Defined.

(** ** Submissions over the shared pool *)

Lemma distinct_spec p base lns :
  NoDup (distinct_queues p base lns) /\ forall q, q ∈ distinct_queues p base lns <-> exists lane, lane ∈ lns /\ binding_queue p base lane = q.
Proof.
  unfold distinct_queues. set (add := fun distinct lane => _ : list nat).
  assert (Hg : forall l acc, NoDup acc -> NoDup (foldl add acc l) /\
    forall q, q ∈ foldl add acc l <-> q ∈ acc \/ exists lane, lane ∈ l /\ binding_queue p base lane = q).
  { induction l as [|lane l IH]; intros acc Hnd.
    { split; [done|]. intros q. split; [by left|]. intros [?|(? & ?%elem_of_nil & _)]; done. }
    cbn [foldl]. assert (Hadd : NoDup (add acc lane) /\ forall q, q ∈ add acc lane <-> q ∈ acc \/ q = binding_queue p base lane).
    { unfold add. cbv zeta. destruct (existsb _ acc) eqn:He.
      - apply existsb_exists in He as (x & Hx%list_elem_of_In & ->%Nat.eqb_eq). split; [done|]. intros q. split; [by left|].
        by intros [?| ->].
      - assert (Hni : binding_queue p base lane ∉ acc).
        { intros Hin. assert (existsb (fun q => q =? binding_queue p base lane) acc = true); [|congruence].
          apply existsb_exists. eexists. split; [by apply list_elem_of_In|apply Nat.eqb_refl]. }
        split; [|intros q; by rewrite elem_of_app, list_elem_of_singleton].
        apply list.NoDup_app. split_and!; [done| |apply NoDup_singleton]. by intros x Hx ->%list_elem_of_singleton. }
    destruct (IH (add acc lane)) as [H1 H2]; [apply Hadd|]. split; [done|]. intros q. rewrite H2, (proj2 Hadd q). split.
    - intros [[?| ->]|(ln & ? & ?)]; [by left|right; exists lane; split; [by left|done]|right; exists ln; split; [by right|done]].
    - intros [?|(ln & [->|?]%elem_of_cons & Hq)]; [by left; left|left; right; by symmetry|right; by exists ln]. }
  destruct (Hg lns [] (NoDup_nil_2)) as [H1 H2]. split; [done|]. intros q. rewrite H2. split; [|by right].
  by intros [?%elem_of_nil|?].
Qed.

Lemma lock_order_spec p base lns :
  StronglySorted lt (lock_order p base lns) /\ forall q, q ∈ lock_order p base lns <-> exists lane, lane ∈ lns /\ binding_queue p base lane = q.
Proof.
  destruct (distinct_spec p base lns) as [Hnd Hin]. unfold lock_order.
  pose proof (merge_sort_Permutation le (distinct_queues p base lns)) as Hp.
  pose proof (StronglySorted_merge_sort le (distinct_queues p base lns)) as Hs. split.
  - rewrite <-Hp in Hnd. clear Hp Hin. revert Hnd. induction Hs as [|x l Hl IH Hx]; [constructor|].
    intros [Hni Hnd]%list.NoDup_cons. constructor; [by apply IH|]. rewrite list.Forall_forall in *. intros y Hy.
    assert (x <> y) by (by intros ->). specialize (Hx y Hy). lia.
  - intros q. rewrite Hp. apply Hin.
Qed.

Lemma sorted_lookup_lt l i j x y : StronglySorted lt l -> l !! i = Some x -> l !! j = Some y -> i < j -> x < y.
Proof.
  intros Hs. revert i j. induction Hs as [|z l _ IH Hz]; intros i j Hx Hy Hij; [done|].
  destruct j as [|j]; [lia|]. destruct i as [|i]; simpl in *; simplify_eq; [|by apply (IH i j); [| |lia]].
  rewrite list.Forall_forall in Hz. by apply Hz, (list_elem_of_lookup_2 _ j).
Qed.

Section deadlock.
Context (plans : list (list nat)) (Hsorted : Forall (StronglySorted lt) plans).

Lemma locks_update phases t plan ph : plans !! t = Some plan -> phases !! t = Some ph ->
  exists rest, locks plans phases ≡ₚ holds plan ph ++ rest /\
    forall ph', locks plans (<[t := ph']> phases) ≡ₚ holds plan ph' ++ rest.
Proof.
  intros Hp Hph. exists (locks (take t plans) (take t phases) ++ locks (drop (S t) plans) (drop (S t) phases)).
  assert (Hg : forall ph', locks plans (<[t := ph']> phases) ≡ₚ
    holds plan ph' ++ locks (take t plans) (take t phases) ++ locks (drop (S t) plans) (drop (S t) phases)).
  { intros ph'. pose proof (lookup_lt_Some _ _ _ Hp). pose proof (lookup_lt_Some _ _ _ Hph). unfold locks.
    rewrite <-(take_drop_middle plans t plan Hp) at 1. rewrite insert_take_drop by done.
    rewrite zip_with_app by (rewrite !length_take; lia). simpl. rewrite concat_app. simpl.
    apply Permutation_app_swap_app. }
  split; [|exact Hg]. rewrite <-(Hg ph). by rewrite list_insert_id.
Qed.

(** Every lock has one owner, and an operation holds a prefix of its plan. *)
Record shared_ok (phases : list phase) : Prop := {
  sh_len : length phases = length plans;
  sh_held : forall t plan held, plans !! t = Some plan ->
    phases !! t = Some (Locking held) \/ phases !! t = Some (Unlocking held) -> held <= length plan;
  sh_owner : NoDup (locks plans phases)
}.

Lemma shared_step phases phases' : shared_ok phases -> start_step plans phases phases' -> shared_ok phases'.
Proof.
  intros [Hlen Hheld Hown] Hstep.
  assert (Hgen : forall t plan ph ph', plans !! t = Some plan -> phases !! t = Some ph ->
    (forall held, ph' = Locking held \/ ph' = Unlocking held -> held <= length plan) ->
    (forall rest, NoDup (holds plan ph ++ rest) -> locks plans phases ≡ₚ holds plan ph ++ rest -> NoDup (holds plan ph' ++ rest)) ->
    shared_ok (<[t := ph']> phases)).
  { intros t plan ph ph' Hp Hph Hb Hnd. destruct (locks_update phases t plan ph Hp Hph) as (rest & H1 & H2). constructor.
    - by rewrite length_insert.
    - intros u plan' held Hp' Hu. destruct (decide (u = t)) as [->|Hne].
      + rewrite list_lookup_insert_eq in Hu by (by apply lookup_lt_Some in Hph). simplify_eq. apply Hb. destruct Hu as [Hu|Hu]; simplify_eq; [by left|by right].
      + rewrite list_lookup_insert_ne in Hu by done. by eapply Hheld.
    - rewrite H2. apply Hnd; [by rewrite <-H1|done]. }
  destruct Hstep as [phases t plan held q Hp Hph Hq Hf|phases t plan Hp Hph|phases t plan Hp Hph|phases t held Hph|phases t Hph].
  - apply (Hgen t plan (Locking held)); [done|done| |].
    + apply lookup_lt_Some in Hq. intros ? [[= <-]|?]; [lia|done].
    + intros rest Hnd Hperm. simpl in *. rewrite (take_S_r _ _ _ Hq), <-app_assoc.
      rewrite (Permutation_app_comm [q]), app_assoc. apply list.NoDup_app. split_and!; [done| |apply NoDup_singleton].
      intros x Hx ->%list_elem_of_singleton. apply Hf. by rewrite Hperm.
  - apply (Hgen t plan (Locking (length plan))); [done|done|by intros ? [?|?]|].
    intros rest Hnd _. simpl in *. by rewrite take_ge in Hnd.
  - apply (Hgen t plan Submitting); [done|done|intros ? [?|[= <-]]; [done|lia]|].
    intros rest Hnd _. simpl in *. by rewrite take_ge.
  - destruct (lookup_lt_is_Some_2 plans t) as [plan Hp]; [rewrite <-Hlen; by apply lookup_lt_Some in Hph|].
    apply (Hgen t plan (Unlocking (S held))); [done|done| |].
    + specialize (Hheld t plan (S held) Hp (or_intror Hph)). intros ? [?|[= <-]]; [done|lia].
    + intros rest Hnd _. simpl in *. apply list.NoDup_app in Hnd as (Ht & Hd & Hr). apply list.NoDup_app. split_and!; [| |done].
      * apply (sublist_NoDup _ (take (S held) plan)); [done|].
        replace (take held plan) with (take held (take (S held) plan)) by (rewrite take_take; f_equal; lia). apply sublist_take.
      * intros x Hx. apply Hd. replace (take held plan) with (take held (take (S held) plan)) in Hx by (rewrite take_take; f_equal; lia).
        apply elem_of_take in Hx as (i & Hi & _). by apply list_elem_of_lookup_2 in Hi.
  - destruct (lookup_lt_is_Some_2 plans t) as [plan Hp]; [rewrite <-Hlen; by apply lookup_lt_Some in Hph|].
    apply (Hgen t plan (Unlocking 0)); [done|done|by intros ? [?|?]|]. intros rest Hnd _. done.
Qed.

(** While an operation has not published, some operation can take a step: of those that wait, the one that
    wants the highest queue does not wait for another waiting one. *)
Lemma shared_waits phases t plan held q : shared_ok phases ->
  plans !! t = Some plan -> phases !! t = Some (Locking held) -> plan !! held = Some q ->
  exists phases', start_step plans phases phases'.
Proof.
  intros Hok. assert (Hbound : exists b, forall u plan q, plans !! u = Some plan -> q ∈ plan -> q < b).
  { exists (S (max_list (concat plans))). intros u plan' x Hu Hx. apply Nat.lt_succ_r, max_list_elem_of_le, elem_of_concat.
    exists plan'. split; [done|]. by apply list_elem_of_lookup_2 in Hu. }
  destruct Hbound as [b Hb]. remember (b - q) as k eqn:Hk. revert t plan held q Hk.
  induction k as [k IH] using lt_wf_ind. intros t plan held q -> Hp Hph Hq.
  destruct (decide (q ∈ locks plans phases)) as [Hl|Hl]; [|eexists; by eapply start_lock].
  unfold locks in Hl. apply elem_of_concat in Hl as (h & Hqh & Hh).
  apply elem_of_lookup_zip_with in Hh as (u & plan' & ph & -> & Hp' & Hph').
  destruct ph as [held'| |held'|]; simpl in Hqh.
  - destruct (plan' !! held') as [q'|] eqn:Hq'.
    + apply elem_of_take in Hqh as (i & Hi & Hlt).
      assert (Hqq : q < q').
      { rewrite list.Forall_forall in Hsorted. specialize (Hsorted plan' (list_elem_of_lookup_2 _ _ _ Hp')).
        by eapply (sorted_lookup_lt plan' i held'). }
      pose proof (Hb t plan q Hp (list_elem_of_lookup_2 _ _ _ Hq)).
      pose proof (Hb u plan' q' Hp' (list_elem_of_lookup_2 _ _ _ Hq')).
      eapply (IH (b - q') ltac:(lia) u plan' held' q'); done.
    + apply lookup_ge_None in Hq'. pose proof (sh_held _ Hok u plan' held' Hp' (or_introl Hph')).
      assert (held' = length plan') as -> by lia. eexists. by eapply start_submit.
  - eexists. by eapply start_submitted.
  - destruct held' as [|held']; eexists; [by eapply start_publish|by eapply start_unlock].
  - by apply elem_of_nil in Hqh.
Qed.

Lemma shared_progress phases : shared_ok phases ->
  Forall (eq Published) phases \/ exists phases', start_step plans phases phases'.
Proof.
  intros Hok. destruct (decide (Forall (eq Published) phases)) as [Hf|Hf]; [by left|right].
  apply not_Forall_Exists, Exists_exists in Hf as (ph & Hin & Hne); [|solve_decision].
  apply list_elem_of_lookup in Hin as [t Hph].
  destruct (lookup_lt_is_Some_2 plans t) as [plan Hp]; [rewrite <-(sh_len _ Hok); by apply lookup_lt_Some in Hph|].
  destruct ph as [held| |held|]; [|eexists; by eapply start_submitted| |done].
  - destruct (plan !! held) as [q|] eqn:Hq; [by eapply shared_waits|].
    apply lookup_ge_None in Hq. pose proof (sh_held _ Hok t plan held Hp (or_introl Hph)).
    assert (held = length plan) as -> by lia. eexists. by eapply start_submit.
  - destruct held as [|held]; eexists; [by eapply start_publish|by eapply start_unlock].
Qed.

(** The steps an operation still takes. *)
Definition steps_left (plan : list nat) (ph : phase) : nat :=
  match ph with
  | Locking held => 2 * length plan - held + 3
  | Submitting => length plan + 2
  | Unlocking held => S held
  | Published => 0
  end.

Definition shared_left (phases : list phase) : nat := sum_list (zip_with steps_left plans phases).

Lemma shared_left_step phases phases' : shared_ok phases -> start_step plans phases phases' ->
  shared_left phases' < shared_left phases.
Proof.
  intros Hok Hstep.
  assert (Hgen : forall t plan ph ph', plans !! t = Some plan -> phases !! t = Some ph -> steps_left plan ph' < steps_left plan ph ->
    shared_left (<[t := ph']> phases) < shared_left phases).
  { intros t plan ph ph' Hp Hph Hlt. unfold shared_left.
    pose proof (lookup_lt_Some _ _ _ Hp). pose proof (lookup_lt_Some _ _ _ Hph).
    rewrite <-(list_insert_id phases t ph) at 2 by done. rewrite <-(take_drop_middle plans t plan Hp).
    rewrite !insert_take_drop by done. rewrite !zip_with_app by (rewrite !length_take; lia). simpl.
    rewrite !sum_list_with_app. simpl. lia. }
  destruct Hstep as [phases t plan held q Hp Hph Hq Hf|phases t plan Hp Hph|phases t plan Hp Hph|phases t held Hph|phases t Hph].
  - eapply Hgen; [done|done|]. apply lookup_lt_Some in Hq. simpl. lia.
  - eapply Hgen; [done|done|]. simpl. lia.
  - eapply Hgen; [done|done|]. simpl. lia.
  - destruct (lookup_lt_is_Some_2 plans t) as [plan Hp]; [rewrite <-(sh_len _ Hok); by apply lookup_lt_Some in Hph|].
    eapply Hgen; [done|done|]. simpl. lia.
  - destruct (lookup_lt_is_Some_2 plans t) as [plan Hp]; [rewrite <-(sh_len _ Hok); by apply lookup_lt_Some in Hph|].
    eapply Hgen; [done|done|]. simpl. lia.
Qed.

Lemma shared_start : shared_ok (all_start plans).
Proof.
  constructor; [by unfold all_start; rewrite length_replicate| |].
  - intros t plan held _ [Hh|Hh]; apply lookup_replicate in Hh as [? _]; [simplify_eq; lia|done].
  - replace (locks plans (all_start plans)) with (@nil nat); [constructor|].
    unfold locks, all_start. clear Hsorted. induction plans as [|plan l IH]; [done|]. simpl. by rewrite <-IH.
Qed.
End deadlock.

(** C18: submissions over the shared pool are mutually exclusive and never deadlock: whatever queues the
    operations use and in whatever order they are scheduled, two operations that submit at the same time use
    no queue in common; as every operation locks its queues in ascending order, each of them once, an execution
    of all of them has a bounded number of steps and can always go on until all operations have published. *)
Theorem shared_submissions p ops phases :
  let plans := map (fun op => lock_order p op.1 op.2) ops in
  rtc (start_step plans) (all_start plans) phases ->
  (forall t u op op' lane lane', t <> u -> ops !! t = Some op -> ops !! u = Some op' ->
    phases !! t = Some Submitting -> phases !! u = Some Submitting -> lane ∈ op.2 -> lane' ∈ op'.2 ->
    binding_queue p op.1 lane <> binding_queue p op'.1 lane') /\
  (forall n phases', nsteps (start_step plans) n (all_start plans) phases' ->
    n <= sum_list (map (fun plan => 2 * length plan + 3) plans)) /\
  (exists phases', rtc (start_step plans) phases phases' /\ Forall (eq Published) phases').
Proof.
  intros plans Hrun. assert (Hsorted : Forall (StronglySorted lt) plans).
  { apply list.Forall_forall. intros pl (op & -> & _)%list_elem_of_fmap. apply lock_order_spec. }
  assert (Hok : shared_ok plans phases).
  { apply (preserved_rtc (start_step plans) _ (all_start plans)); [|by apply shared_start|done]. intros x y. by apply shared_step. }
  assert (Hplan : forall t op lane, ops !! t = Some op -> phases !! t = Some Submitting -> lane ∈ op.2 ->
    exists h, zip_with holds plans phases !! t = Some h /\ binding_queue p op.1 lane ∈ h).
  { intros t op lane Ht Hph Hl. exists (lock_order p op.1 op.2). split.
    - unfold plans. by rewrite lookup_zip_with, list_lookup_fmap, Ht, Hph.
    - apply lock_order_spec. by exists lane. }
  split_and!.
  - intros t u op op' lane lane' Htu Ht Hu Hpt Hpu Hl Hl' Heq.
    destruct (Hplan t op lane Ht Hpt Hl) as (h & Hh & Hin). destruct (Hplan u op' lane' Hu Hpu Hl') as (h' & Hh' & Hin').
    rewrite Heq in Hin. by apply (NoDup_concat_disjoint (zip_with holds plans phases) t u h h' (binding_queue p op'.1 lane')); [apply Hok|..].
  - intros n phases' Hn.
    pose proof (measure_nsteps (start_step plans) (shared_ok plans) (shared_left plans) n _ _ (shared_step plans)
      (shared_left_step plans) (shared_start plans) Hn) as Hle.
    replace (sum_list _) with (shared_left plans (all_start plans)); [lia|]. unfold shared_left, all_start.
    clear. induction plans as [|pl l IH]; [done|]. simpl in *. rewrite IH. lia.
  - apply (progress_final (start_step plans) (shared_ok plans) _ (shared_left plans)); [by intros ?; apply shared_step|apply shared_left_step|by apply shared_progress|done].
Qed.

(** Two operations over two queues that start from different bases. *)
Lemma shared_submissions_witness :
  let p := mkShared 2 0 true in
  let plans := map (fun op => lock_order p op.1 op.2) [(0, [0; 1]); (1, [0; 1])] in
  plans = [[0; 1]; [0; 1]] /\
  exists phases', rtc (start_step plans) [Submitting; Locking 0] phases' /\ Forall (eq Published) phases'.
Proof.
  intros p plans. assert (Hpl : plans = [[0; 1]; [0; 1]]) by reflexivity. split; [exact Hpl|].
  assert (Hrun : rtc (start_step plans) (all_start plans) [Submitting; Locking 0]).
  { rewrite Hpl. eapply rtc_l; [apply (start_lock _ _ 0 [0; 1] 0 0); [reflexivity..|apply not_elem_of_nil]|].
    eapply rtc_l; [apply (start_lock _ _ 0 [0; 1] 1 1); [reflexivity..|by intros [?| ?%elem_of_nil]%elem_of_cons]|].
    eapply rtc_l; [by apply (start_submit _ _ 0 [0; 1])|]. apply rtc_refl. }
  apply (shared_submissions p [(0, [0; 1]); (1, [0; 1])] _ Hrun).
Defined.

(** A started pool keeps its queues. *)
Lemma addQueues_spec count p :
  addQueues count p = if m_started p then (Throw logic_error "SharedQueuePool cannot grow after its first submission", p)
                      else (Ret tt, mkShared (queueCount p + count) (m_next p) (m_started p)).
Proof. unfold addQueues. destruct p as [n m []]; reflexivity. Qed.
