(* ===== verification/PooledSubmit.v ===== *)
(** * Submissions over pools

    Models [PoolSubmitSender] and [PooledSubmitOperation] of caravan/alpaka/queue/queue_pool.hpp and
    [ManagedSubmitSender] of queue/managed.hpp: senders whose stages have logical lanes, which a pool
    binds to queues when the sender is connected.  The code is generic over the pool; [NativePool] is
    its interface, with the lease pool and the shared pool of [QueuePools] as instances.  The refinement goes to
    [Submission]: a bound sender is the native lowering of the same expression over queues. *)
From Stdlib Require Import ZArith Lia.
From stdpp Require Import base list numbers relations strings.
From S2P Require Import Prelude Transition Outcome TaskGraph Submission QueuePools.

(** ** Senders with lanes *)

(** [ManagedSubmitSender], whose stages are known by their index. *)
Record ManagedSubmitSender : Type := mkManaged {
  m_lanes : list nat;
  m_laneCount : nat;
  lane_dependencies : SubmissionDependencies
}.

Definition managed_submit : ManagedSubmitSender := mkManaged [0] 1 (linear 1).

Definition managed_compose (ordered : bool) (left right : ManagedSubmitSender) : ManagedSubmitSender :=
  let lanes := m_lanes left ++ (if ordered then m_lanes right else map (fun lane => m_laneCount left + lane) (m_lanes right)) in
  let laneCount := if ordered then Nat.max (m_laneCount left) (m_laneCount right) else m_laneCount left + m_laneCount right in
  mkManaged lanes laneCount (composeDependencies ordered (lane_dependencies left) (lane_dependencies right)).

(** [PoolSubmitSender]: the pool and the rest. *)
Record PoolSubmitSender : Type := mkPooled { m_pool : nat; pooled : ManagedSubmitSender }.

Definition pool_submit (pool : nat) : PoolSubmitSender := mkPooled pool managed_submit.

Definition pool_compose (ordered : bool) (left right : PoolSubmitSender) : outcome PoolSubmitSender :=
  if negb (m_pool left =? m_pool right)%nat then
    Throw invalid_argument "Native alpaka composition requires one queue pool; use caravan::letValue for sequencing or caravan::genericWhenAll for joining independent branches"
  else Ret (mkPooled (m_pool left) (managed_compose ordered (pooled left) (pooled right))).

(** [PoolSubmissionDomain::transform]. *)
Definition pool_sequence (left right : PoolSubmitSender) : outcome PoolSubmitSender := pool_compose true left right.
Fixpoint pool_whenAll (first : PoolSubmitSender) (rest : list PoolSubmitSender) : outcome PoolSubmitSender :=
  match rest with
  | [] => Ret first
  | next :: rest => s ← pool_compose false first next; pool_whenAll s rest
  end.
Definition pool_graph (topology : nat -> nat -> bool) (first : PoolSubmitSender) (rest : list PoolSubmitSender) : outcome PoolSubmitSender :=
  flattened ← pool_whenAll first rest;
  let p := pooled flattened in
  mret (mkPooled (m_pool flattened) (mkManaged (m_lanes p) (m_laneCount p)
    (addGraphDependencies topology (map (fun s => length (m_lanes (pooled s))) (first :: rest)) (lane_dependencies p)))).

(** ** Pools *)

(** What the operation asks of a pool: a binding with [laneCount] lanes, and the queue of a lane. *)
Class NativePool (P B : Type) : Type := {
  pool_acquire : nat -> P -> B * P;
  binding_lane : B -> nat -> nat
}.

#[global] Instance QueuePool_native : NativePool QueuePool (list nat) := {
  pool_acquire := acquire;
  binding_lane lease lane := lease !!! lane
}.

#[global] Instance SharedQueuePool_native : NativePool SharedQueuePool (SharedQueuePool * nat) := {
  pool_acquire laneCount p := let '(base, p') := shared_acquire laneCount p in ((p', base), p');
  binding_lane b lane := binding_queue b.1 b.2 lane
}.

Section operation.
Context {P B : Type} `{NativePool P B}.

Definition bindQueues (binding : B) (lanes : list nat) : list nat := map (binding_lane binding) lanes.

(** The constructor of [PooledSubmitOperation]: the binding, and the operation over its queues. *)
Definition PooledSubmitOperation (s : PoolSubmitSender) (p : P) : B * SubmitSender nat * P :=
  let '(binding, p') := pool_acquire (m_laneCount (pooled s)) p in
  (binding, mkSubmit (bindQueues binding (m_lanes (pooled s))) (lane_dependencies (pooled s)), p').
End operation.

(** ** Expressions over pools *)

Fixpoint pool_lower (e : expression nat) : outcome PoolSubmitSender :=
  match e with
  | Submit pool => Ret (pool_submit pool)
  | Sequence l r => left ← pool_lower l; right ← pool_lower r; pool_sequence left right
  | WhenAll l r => left ← pool_lower l; right ← pool_lower r; pool_whenAll left [right]
  end.

(** The pools an expression names. *)
Fixpoint pools (e : expression nat) : list nat :=
  match e with Submit p => [p] | Sequence l r | WhenAll l r => pools l ++ pools r end.

(** The queues of its stages replaced. *)
Fixpoint over (e : expression nat) (queues : list nat) : expression nat :=
  match e with
  | Submit _ => Submit (queues !!! 0)
  | Sequence l r => Sequence (over l (take (stages l) queues)) (over r (drop (stages l) queues))
  | WhenAll l r => WhenAll (over l (take (stages l) queues)) (over r (drop (stages l) queues))
  end.

(** Stages [i] and [j] are on different branches of a [whenAll]. *)
Fixpoint parallel (e : expression nat) (i j : nat) : Prop :=
  match e with
  | Submit _ => False
  | Sequence l r =>
      (i < stages l /\ j < stages l /\ parallel l i j) \/
      (stages l <= i /\ stages l <= j /\ parallel r (i - stages l) (j - stages l))
  | WhenAll l r =>
      (i < stages l /\ j < stages l /\ parallel l i j) \/
      (stages l <= i /\ stages l <= j /\ parallel r (i - stages l) (j - stages l)) \/
      (i < stages l /\ stages l <= j < stages l + stages r) \/ (j < stages l /\ stages l <= i < stages l + stages r)
  end.

(** ** Lowering *)

(** What the sender of an expression is, if its pools agree. *)
Fixpoint managed_lower (e : expression nat) : ManagedSubmitSender :=
  match e with
  | Submit _ => managed_submit
  | Sequence l r => managed_compose true (managed_lower l) (managed_lower r)
  | WhenAll l r => managed_compose false (managed_lower l) (managed_lower r)
  end.

Lemma pools_nonempty e : exists p ps, pools e = p :: ps.
Proof.
  induction e as [q|l (p & ps & Hl) r _|l (p & ps & Hl) r _]; simpl; [by exists q, []|rewrite Hl; by exists p, (ps ++ pools r)..].
Qed.

Lemma pool_lower_spec e :
  (forall p, Forall (eq p) (pools e) -> pool_lower e = Ret (mkPooled p (managed_lower e))) /\
  ((forall p, ~ Forall (eq p) (pools e)) -> exists what, pool_lower e = Throw invalid_argument what).
Proof.
  assert (Hbin : forall b l r,
    (forall p, Forall (eq p) (pools l) -> pool_lower l = Ret (mkPooled p (managed_lower l))) /\
    ((forall p, ~ Forall (eq p) (pools l)) -> exists what, pool_lower l = Throw invalid_argument what) ->
    (forall p, Forall (eq p) (pools r) -> pool_lower r = Ret (mkPooled p (managed_lower r))) /\
    ((forall p, ~ Forall (eq p) (pools r)) -> exists what, pool_lower r = Throw invalid_argument what) ->
    (forall p, Forall (eq p) (pools l ++ pools r) ->
      (left ← pool_lower l; right ← pool_lower r; pool_compose b left right) = Ret (mkPooled p (managed_compose b (managed_lower l) (managed_lower r)))) /\
    ((forall p, ~ Forall (eq p) (pools l ++ pools r)) ->
      exists what, (left ← pool_lower l; right ← pool_lower r; pool_compose b left right) = Throw invalid_argument what)).
  { intros b l r [Hl Hl'] [Hr Hr']. split.
    - intros p [H1 H2]%Forall_app. rewrite (Hl p H1), (Hr p H2). simpl. unfold pool_compose. simpl. by rewrite Nat.eqb_refl.
    - intros Hno. destruct (pools_nonempty l) as (p & ps & Hp), (pools_nonempty r) as (q & qs & Hq).
      destruct (decide (Forall (eq p) (pools l))) as [H1|H1].
      + rewrite (Hl p H1). simpl. destruct (decide (Forall (eq q) (pools r))) as [H2|H2].
        * rewrite (Hr q H2). simpl. unfold pool_compose. simpl. destruct (Nat.eqb_spec p q) as [->|Hne]; [|by eexists].
          destruct (Hno q). by apply Forall_app.
        * destruct Hr' as [what ->]; [|by eexists]. intros p' Hp'. apply H2. rewrite Hq in Hp'.
          pose proof (proj1 (list.Forall_cons _ _ _) Hp') as [-> _]. by rewrite Hq.
      + destruct Hl' as [what ->]; [|by eexists]. intros p' Hp'. apply H1. rewrite Hp in Hp'.
        pose proof (proj1 (list.Forall_cons _ _ _) Hp') as [-> _]. by rewrite Hp. }
  induction e as [q|l IHl r IHr|l IHl r IHr]; cbn [pool_lower pools managed_lower].
  - split; [intros p Hp; apply list.Forall_cons in Hp as [-> _]; done|]. intros Hno. destruct (Hno q). by repeat constructor.
  - by apply (Hbin true).
  - destruct (Hbin false l r IHl IHr) as [H1 H2].
    replace (left ← pool_lower l; right ← pool_lower r; pool_whenAll left [right])
      with (left ← pool_lower l; right ← pool_lower r; pool_compose false left right); [done|].
    destruct (pool_lower l) as [left| | |]; [|done..]. destruct (pool_lower r) as [right| | |]; [|done..].
    cbn. by destruct (pool_compose _ _ _).
Qed.

Lemma mod_shift_inj base a b n : a < n -> b < n -> (base + a) mod n = (base + b) mod n -> a = b.
Proof.
  intros Ha Hb Heq. pose proof (Nat.div_mod (base + a) n ltac:(lia)). pose proof (Nat.div_mod (base + b) n ltac:(lia)).
  destruct (Nat.lt_trichotomy ((base + a) / n) ((base + b) / n)) as [?|[?|?]]; nia.
Qed.

(** Stages only use lanes the binding has. *)
Lemma managed_lower_lanes e :
  length (m_lanes (managed_lower e)) = stages e /\ 0 < m_laneCount (managed_lower e) /\
  Forall (fun lane => lane < m_laneCount (managed_lower e)) (m_lanes (managed_lower e)).
Proof.
  induction e as [q|l (Ll & Cl & Fl) r (Lr & Cr & Fr)|l (Ll & Cl & Fl) r (Lr & Cr & Fr)]; simpl.
  - split_and!; [done|lia|]. repeat constructor.
  - rewrite length_app, Ll, Lr. split_and!; [done|lia|].
    apply Forall_app. split; (eapply list.Forall_impl; [eassumption|simpl; lia]).
  - rewrite length_app, length_map, Ll, Lr. split_and!; [done|lia|].
    apply Forall_app. split; [eapply list.Forall_impl; [eassumption|simpl; lia]|].
    apply List.Forall_map. eapply list.Forall_impl; [eassumption|simpl; lia].
Qed.

(** Branches of a [whenAll] have lanes of their own. *)
Lemma parallel_lanes e i j a b : parallel e i j ->
  m_lanes (managed_lower e) !! i = Some a -> m_lanes (managed_lower e) !! j = Some b -> a <> b.
Proof.
  revert i j a b. induction e as [q|l IHl r IHr|l IHl r IHr]; intros i j a b; [done|..];
    destruct (managed_lower_lanes l) as (Ll & _ & Fl), (managed_lower_lanes r) as (Lr & _ & Fr); cbn [managed_lower managed_compose m_lanes parallel].
  - intros [(Hi & Hj & Hp)|(Hi & Hj & Hp)].
    + rewrite !lookup_app_l by lia. by apply IHl.
    + rewrite !lookup_app_r by lia. rewrite Ll. by apply IHr.
  - assert (Hlr : forall i j a b, i < stages l -> stages l <= j ->
      (m_lanes (managed_lower l) ++ map (fun lane => m_laneCount (managed_lower l) + lane) (m_lanes (managed_lower r))) !! i = Some a ->
      (m_lanes (managed_lower l) ++ map (fun lane => m_laneCount (managed_lower l) + lane) (m_lanes (managed_lower r))) !! j = Some b -> a < b).
    { intros i' j' a' b' Hi Hj. rewrite lookup_app_l by lia. rewrite lookup_app_r by lia. intros Ha Hb.
      rewrite list.Forall_forall in Fl. apply list_elem_of_lookup_2 in Ha. specialize (Fl a' Ha).
      rewrite list_lookup_fmap in Hb. apply fmap_Some in Hb as (b0 & _ & ->). lia. }
    intros [(Hi & Hj & Hp)|[(Hi & Hj & Hp)|[(Hi & Hj)|(Hj & Hi)]]].
    + rewrite !lookup_app_l by lia. by apply IHl.
    + rewrite !lookup_app_r by lia. rewrite Ll. rewrite !list_lookup_fmap. intros Ha Hb.
      apply fmap_Some in Ha as (a0 & Ha & ->), Hb as (b0 & Hb & ->). specialize (IHr _ _ a0 b0 Hp Ha Hb). lia.
    + intros Ha Hb. specialize (Hlr i j a b Hi ltac:(lia) Ha Hb). lia.
    + intros Ha Hb. specialize (Hlr j i b a Hj ltac:(lia) Hb Ha). lia.
Qed.

Lemma over_stages e queues : stages (over e queues) = stages e.
Proof. revert queues. induction e as [q|l IHl r IHr|l IHl r IHr]; intros queues; simpl; [done|by rewrite IHl, IHr..]. Qed.

Lemma over_before e queues i j : before (over e queues) i j <-> before e i j.
Proof.
  revert queues i j. induction e as [q|l IHl r IHr|l IHl r IHr]; intros queues i j; simpl; [done|..];
    by rewrite !over_stages, IHl, IHr.
Qed.

(** Binding the queues gives the native lowering over these queues. *)
Lemma over_lower e queues : length queues = stages e ->
  lower (over e queues) = mkSubmit queues (lane_dependencies (managed_lower e)).
Proof.
  revert queues. induction e as [q|l IHl r IHr|l IHl r IHr]; intros queues Hlen; simpl in Hlen.
  - destruct queues as [|x [|]]; try done.
  - cbn [over lower managed_lower managed_compose lane_dependencies].
    rewrite IHl by (rewrite length_take; lia). rewrite IHr by (rewrite length_drop; lia).
    unfold transform_sequence, compose. simpl. by rewrite take_drop.
  - cbn [over lower managed_lower managed_compose lane_dependencies].
    rewrite IHl by (rewrite length_take; lia). rewrite IHr by (rewrite length_drop; lia).
    unfold transform_whenAll, compose. simpl. by rewrite take_drop.
Qed.

(** C19: expressions over pools.  Composition succeeds exactly when all stages name the same
    pool, and throws otherwise.  Connecting the sender in any pool gives the operation of the same
    expression over the queues the pool bound, so it runs in the order the expression reads as; a lease
    binds different queues to stages on different branches of a [whenAll], and the shared pool does so when
    it has as many queues as the sender has lanes. *)
Theorem pooled_submission e :
  (forall p, Forall (eq p) (pools e) -> exists s, pool_lower e = Ret s /\ m_pool s = p) /\
  ((forall p, ~ Forall (eq p) (pools e)) -> exists what, pool_lower e = Throw invalid_argument what) /\
  forall s, pool_lower e = Ret s ->
    (forall (P B : Type) (N : NativePool P B) (p : P), exists e' : expression nat,
       (PooledSubmitOperation s p).1.2 = lower e' /\ (forall i j, before e' i j <-> before e i j)) /\
    (forall (pool : QueuePool) leases i j qi qj, leases_ok pool leases -> parallel e i j ->
       m_queues (PooledSubmitOperation s pool).1.2 !! i = Some qi ->
       m_queues (PooledSubmitOperation s pool).1.2 !! j = Some qj -> qi <> qj /\ qi ∉ concat leases) /\
    (forall (pool : SharedQueuePool) i j qi qj, m_laneCount (pooled s) <= queueCount pool -> parallel e i j ->
       m_queues (PooledSubmitOperation s pool).1.2 !! i = Some qi ->
       m_queues (PooledSubmitOperation s pool).1.2 !! j = Some qj -> qi <> qj).
Proof.
  destruct (pool_lower_spec e) as [Hok Hbad]. split_and!.
  - intros p Hp. by exists (mkPooled p (managed_lower e)); rewrite (Hok p Hp).
  - exact Hbad.
  - intros s Hs. assert (Hm : pooled s = managed_lower e).
    { destruct (pools_nonempty e) as (p & ps & Hp). destruct (decide (Forall (eq p) (pools e))) as [Hf|Hf].
      - rewrite (Hok p Hf) in Hs. by injection Hs as <-.
      - destruct Hbad as [what Hw]; [|by rewrite Hw in Hs]. intros p' Hp'. apply Hf. rewrite Hp in Hp'.
        pose proof (proj1 (list.Forall_cons _ _ _) Hp') as [-> _]. by rewrite Hp. }
    destruct (managed_lower_lanes e) as (Hlen & _ & Hb). unfold PooledSubmitOperation. rewrite Hm. split_and!.
    + intros P B N p. destruct (pool_acquire _ p) as [b p'] eqn:Ha. simpl. exists (over e (bindQueues b (m_lanes (managed_lower e)))).
      split; [|apply over_before]. symmetry. apply over_lower. unfold bindQueues. by rewrite length_map.
    + intros pool leases i j qi qj Hl Hp. destruct (acquire (m_laneCount (managed_lower e)) pool) as [lease p'] eqn:Ha.
      cbn [pool_acquire QueuePool_native]. rewrite Ha. cbn [fst snd m_queues].
      unfold bindQueues. rewrite !list_lookup_fmap. intros Hi Hj. apply fmap_Some in Hi as (a & Hi & ->), Hj as (b & Hj & ->). cbn.
      destruct (acquire_spec _ pool leases lease p' Hl Ha) as (Hll & [Hnd _ _] & _). rewrite concat_app in Hnd. simpl in Hnd.
      rewrite app_nil_r in Hnd. apply list.NoDup_app in Hnd as (_ & Hd & Hnd).
      rewrite list.Forall_forall in Hb. pose proof (Hb a (list_elem_of_lookup_2 _ _ _ Hi)). pose proof (Hb b (list_elem_of_lookup_2 _ _ _ Hj)).
      destruct (lookup_lt_is_Some_2 lease a) as [qa Hqa]; [lia|]. destruct (lookup_lt_is_Some_2 lease b) as [qb Hqb]; [lia|].
      rewrite (list_lookup_total_correct _ _ _ Hqa), (list_lookup_total_correct _ _ _ Hqb). split.
      * intros ->. apply (parallel_lanes e i j a b Hp Hi Hj). by eapply NoDup_lookup.
      * intros Hin. apply (Hd qa Hin). by eapply list_elem_of_lookup_2.
    + intros pool i j qi qj Hc Hp. cbn. unfold bindQueues. rewrite !list_lookup_fmap. intros Hi Hj.
      apply fmap_Some in Hi as (a & Hi & ->), Hj as (b & Hj & ->). cbn. unfold binding_queue. simpl.
      rewrite list.Forall_forall in Hb. pose proof (Hb a (list_elem_of_lookup_2 _ _ _ Hi)). pose proof (Hb b (list_elem_of_lookup_2 _ _ _ Hj)).
      pose proof (parallel_lanes e i j a b Hp Hi Hj) as Hne. intros Heq. apply Hne.
      revert Heq. apply mod_shift_inj; lia.
Qed.

(** Two branches that join, on the pool 7 with two idle queues, one queue being out. *)
Lemma pooled_submission_witness :
  let e := Sequence (WhenAll (Submit 7) (Submit 7)) (Submit 7) in
  let s := mkPooled 7 (managed_lower e) in
  pool_lower e = Ret s /\ m_queues (PooledSubmitOperation s [true; false; false]).1.2 = [1; 2; 1] /\ 1 <> 2.
Proof.
  intros e s. assert (Hs : pool_lower e = Ret s) by reflexivity. split; [exact Hs|]. split; [reflexivity|].
  destruct (pooled_submission e) as (_ & _ & H). destruct (H s Hs) as (_ & Hl & _).
  apply (Hl [true; false; false] [[0]] 0 1).
  - constructor; [apply NoDup_singleton|intros x ->%list_elem_of_singleton; simpl; lia|]. intros [|[|[|x]]] Hx; try reflexivity. simpl in Hx. lia.
  - left. split_and!; [simpl; lia|simpl; lia|]. right. right. left. simpl. lia.
  - reflexivity.
  - reflexivity.
Defined.
