(* ===== verification/RepeatUntil.v ===== *)
(** * Repeating a sender

    Models [RepeatUntilOperation] of caravan/core/sender/repeat_until.hpp.  The loop over the
    iterations has no thread of its own: whoever finds both the end of a child's [start()] and
    its completion behind it drives the next iteration, and one atomic state decides who that is.  Every
    access to the state and every piece of code between two of them is a step; the completion of a child
    comes from inside its [start()] or from any thread.  The specification is the loop in the comment of
    [run()]. *)
From Stdlib Require Import ZArith Lia.
From stdpp Require Import base list numbers relations.
From S2P Require Import Prelude Transition.

(** [State] *)
Inductive atomic_state : Type := starting | waiting | completed.

(** A thread in [run()]: before [m_iteration.reset()], after it with [m_done] false, in the
    child's [start()], after it before the exchange. *)
Inductive driver : Type := Top | Next | InStart | Publish.

(** A thread in [complete()] that has stored [m_done], and whether it is below the child's [start()]. *)
Inductive completer : Type := Stored (inside : bool).

(** The operation and its threads.  [outstanding]: a child that has been started and has not
    completed; [iterations] and [delivered] count the calls of the factory and of the receiver. *)
Record RepeatUntilOperation : Type := mkRepeat {
  m_state : atomic_state;
  m_done : bool;
  m_iteration : option nat;
  drivers : list driver;
  completers : list completer;
  outstanding : option nat;
  iterations : nat;
  delivered : nat
}.

Section operation.
(** What iteration [k] completes with. *)
Context (result : nat -> bool).

(** [start()] has called [run()]. *)
Definition RepeatUntil_start : RepeatUntilOperation := mkRepeat starting false None [Top] [] None 0 0.

Inductive repeat_step : RepeatUntilOperation -> RepeatUntilOperation -> Prop :=
  | repeat_deliver st it ds ds' cs out n d :
      repeat_step (mkRepeat st true it (ds ++ Top :: ds') cs out n d)
                  (mkRepeat st true None (ds ++ ds') cs out n (S d))
  | repeat_reset st it ds ds' cs out n d :
      repeat_step (mkRepeat st false it (ds ++ Top :: ds') cs out n d)
                  (mkRepeat st false None (ds ++ Next :: ds') cs out n d)
  | repeat_emplace st done it ds ds' cs out n d :
      repeat_step (mkRepeat st done it (ds ++ Next :: ds') cs out n d)
                  (mkRepeat starting done (Some n) (ds ++ InStart :: ds') cs (Some n) (S n) d)
  | repeat_returns st done it ds ds' cs out n d :
      Stored true ∉ cs ->
      repeat_step (mkRepeat st done it (ds ++ InStart :: ds') cs out n d)
                  (mkRepeat st done it (ds ++ Publish :: ds') cs out n d)
  | repeat_publish st done it ds ds' cs out n d :
      repeat_step (mkRepeat st done it (ds ++ Publish :: ds') cs out n d)
                  (mkRepeat waiting done it (ds ++ (match st with completed => [Top] | _ => [] end) ++ ds') cs out n d)
  | repeat_child st done it ds cs k n d inside :
      (inside = true -> InStart ∈ ds) ->
      repeat_step (mkRepeat st done it ds cs (Some k) n d)
                  (mkRepeat st (result k) it ds (cs ++ [Stored inside]) None n d)
  | repeat_complete st done it ds cs cs' inside out n d :
      repeat_step (mkRepeat st done it ds (cs ++ Stored inside :: cs') out n d)
                  (mkRepeat completed done it (ds ++ match st with waiting => [Top] | _ => [] end) (cs ++ cs') out n d).

(** ** Who is where *)

(** All iterations below [n] asked to go on. *)
Definition undone (n : nat) : Prop := forall j, j < n -> result j = false.

(** At most one thread drives; while a child is between [start()] and its completion the state
    tells which of the two ends is still missing. *)
Inductive repeat_ok : RepeatUntilOperation -> Prop :=
  | ok_top st done it n :
      (n = 0 /\ done = false \/ exists m, n = S m /\ undone m /\ done = result m) ->
      repeat_ok (mkRepeat st done it [Top] [] None n 0)
  | ok_next st n : undone n -> repeat_ok (mkRepeat st false None [Next] [] None n 0)
  | ok_both d done n : d = InStart \/ d = Publish -> undone n ->
      repeat_ok (mkRepeat starting done (Some n) [d] [] (Some n) (S n) 0)
  | ok_race d inside n : d = InStart \/ d = Publish -> (inside = true -> d = InStart) -> undone n ->
      repeat_ok (mkRepeat starting (result n) (Some n) [d] [Stored inside] None (S n) 0)
  | ok_early d n : d = InStart \/ d = Publish -> undone n ->
      repeat_ok (mkRepeat completed (result n) (Some n) [d] [] None (S n) 0)
  | ok_child done n : undone n -> repeat_ok (mkRepeat waiting done (Some n) [] [] (Some n) (S n) 0)
  | ok_late n : undone n -> repeat_ok (mkRepeat waiting (result n) (Some n) [] [Stored false] None (S n) 0)
  | ok_end st it n : undone n -> result n = true -> repeat_ok (mkRepeat st true it [] [] None (S n) 1).

Lemma app_cons_nil {A} (l l' : list A) x : l ++ x :: l' = [] -> False.
Proof. by destruct l. Qed.

Lemma app_cons_single {A} (l l' : list A) x y : l ++ x :: l' = [y] -> l = [] /\ l' = [] /\ x = y.
Proof. destruct l as [|? [|]]; simpl; intros [=]; by subst. Qed.

Ltac repeat_lists := repeat match goal with
  | H : ?l ++ _ :: ?l' = [] |- _ => destruct (app_cons_nil _ _ _ H)
  | H : [] = ?l ++ _ :: ?l' |- _ => destruct (app_cons_nil _ _ _ (eq_sym H))
  | H : ?l ++ _ :: ?l' = [_] |- _ => apply app_cons_single in H as (-> & -> & ?)
  | H : [_] = ?l ++ _ :: ?l' |- _ => symmetry in H; apply app_cons_single in H as (-> & -> & ?)
  end; simplify_eq.

Lemma undone_S n : undone n -> result n = false -> undone (S n).
Proof. intros Hu Hr j Hj. destruct (decide (j = n)) as [->|]; [done|]. apply Hu. lia. Qed.

Lemma repeat_ok_step : preserved repeat_step repeat_ok.
Proof.
  intros x y Hx Hstep. destruct Hx as [st done it n Hn|st n Hu|dr done n Hd Hu|dr inside n Hd Hi Hu|dr n Hd Hu|done n Hu|n Hu|st it n Hu Hr];
    inversion Hstep; subst; repeat_lists; simpl; try (destruct Hd; congruence).
  - destruct Hn as [[_ ?]|(m & -> & Hm & Hr)]; [done|]. by constructor.
  - destruct Hn as [[-> _]|(m & -> & Hm & Hr)]; constructor; [by intros j ?; lia|by apply undone_S].
  - constructor; [by left|done].
  - constructor; [by right|done].
  - by constructor.
  - constructor; [done| |done]. intros ->. match goal with H : true = true -> _ |- _ => by specialize (H eq_refl); apply list_elem_of_singleton in H end.
  - constructor; [by right| |done]. intros ->. match goal with H : Stored true ∉ _ |- _ => destruct H; by left end.
  - destruct inside; [discriminate (Hi eq_refl)|]. by constructor.
  - by constructor.
  - constructor; [by right|done].
  - constructor. right. by exists n.
  - destruct inside; [|by apply ok_late]. match goal with H : true = true -> _ |- _ => by specialize (H eq_refl); apply elem_of_nil in H end.
  - constructor. right. by exists n.
Qed.

(** ** Progress and length *)

(** The steps that are left when iteration [N] is the last one. *)
Definition driver_left (d : driver) : nat := match d with InStart => 5 | Publish => 4 | Top => 3 | Next => 2 end.
Definition repeat_left (N : nat) (s : RepeatUntilOperation) : nat :=
  16 * (S N - iterations s) + sum_list (map driver_left (drivers s)) + 4 * length (completers s) +
  match outstanding s with Some _ => 5 | None => 0 end.

(** The calls of the factory the loop makes. *)
Definition last_iteration (N : nat) : Prop := undone N /\ result N = true.

Lemma last_bound N n : last_iteration N -> undone n -> n <= N.
Proof. intros [_ Hr] Hu. destruct (decide (n <= N)); [done|]. rewrite Hu in Hr by lia. done. Qed.

Lemma repeat_left_step N x y : last_iteration N -> repeat_ok x -> repeat_step x y -> repeat_left N y < repeat_left N x.
Proof.
  intros HN Hx Hstep.
  destruct Hx as [st done it n Hn|st n Hu|dr done n Hd Hu|dr inside n Hd Hi Hu|dr n Hd Hu|done n Hu|n Hu|st it n Hu Hr];
    inversion Hstep; subst; repeat_lists; try (destruct Hd; congruence);
    unfold repeat_left; cbn [iterations drivers completers outstanding]; simpl sum_list; simpl length; try lia.
  pose proof (last_bound N n HN Hu). lia.
Qed.

Lemma repeat_progress x : repeat_ok x -> delivered x = 1 \/ exists y, repeat_step x y.
Proof.
  destruct 1 as [st done it n Hn|st n Hu|dr done n Hd Hu|dr inside n Hd Hi Hu|dr n Hd Hu|done n Hu|n Hu|st it n Hu Hr];
    try (by left); right.
  - destruct done; eexists; [apply (repeat_deliver st it [] [])|apply (repeat_reset st it [] [])].
  - eexists. apply (repeat_emplace st false None [] []).
  - eexists. by apply (repeat_child starting done (Some n) [dr] [] n (S n) 0 false).
  - eexists. apply (repeat_complete starting (result n) (Some n) [dr] [] [] inside).
  - destruct Hd as [->| ->]; eexists; [apply (repeat_returns completed _ _ [] []); apply not_elem_of_nil|apply (repeat_publish completed _ _ [] [])].
  - eexists. by apply (repeat_child waiting done (Some n) [] [] n (S n) 0 false).
  - eexists. apply (repeat_complete waiting (result n) (Some n) [] [] [] false).
Qed.

Lemma repeat_reachable s : rtc repeat_step RepeatUntil_start s -> repeat_ok s.
Proof.
  apply preserved_rtc; [apply repeat_ok_step|]. constructor. by left.
Qed.
End operation.

(** C32: the repetition of a sender is the loop [do done = factory() while (!done)] whatever
    threads its children complete on.  In every reachable state at most one thread drives the loop, so that calls of
    the factory and of the receiver never race; when a child is destroyed its [start()] has returned and it has
    completed; a completion inside [start()] is left to the driver and never recurses; the receiver is called once, after
    the first iteration that completes with true and when no thread touches the operation any more.  If
    iteration [N] is the first with true, every execution ends within [16 * N + 19] steps, having run exactly the iterations up
    to [N]. *)
Theorem repeat_until_loop (result : nat -> bool) s :
  rtc (repeat_step result) RepeatUntil_start s ->
  length (drivers s) <= 1 /\
  (Top ∈ drivers s -> drivers s = [Top] /\ completers s = [] /\ outstanding s = None) /\
  (Stored true ∈ completers s -> m_state s <> waiting) /\
  (forall j, S j < iterations s -> result j = false) /\
  (delivered s = 0 \/ (delivered s = 1 /\ drivers s = [] /\ completers s = [] /\ outstanding s = None /\
     exists N, iterations s = S N /\ result N = true)) /\
  (forall N, (forall j, j < N -> result j = false) -> result N = true ->
     (forall n s', nsteps (repeat_step result) n RepeatUntil_start s' -> n <= 16 * N + 19) /\
     (exists s', rtc (repeat_step result) s s' /\ delivered s' = 1 /\ iterations s' = S N)).
Proof.
  intros Hrun. pose proof (repeat_reachable result s Hrun) as Hok. split_and!.
  - destruct Hok; simpl; lia.
  - destruct Hok as [| |dr ? ? Hd|dr ? ? Hd|dr ? Hd| | |]; simpl; intros Hin; try done;
      try (by apply elem_of_nil in Hin); apply list_elem_of_singleton in Hin; try done; subst; by destruct Hd.
  - destruct Hok as [| |? ? ? Hd|? ? ? Hd|? ? Hd| | |]; simpl; intros Hin; try done; try (by apply elem_of_nil in Hin).
    by apply list_elem_of_singleton in Hin.
  - destruct Hok as [st done it n Hn|st n Hu|dr done n Hd Hu|dr inside n Hd Hi Hu|dr n Hd Hu|done n Hu|n Hu|st it n Hu Hr];
      simpl; intros j Hj; try (apply Hu; lia). destruct Hn as [[-> _]|(m & -> & Hm & _)]; [lia|apply Hm; lia].
  - destruct Hok as [| | | | | | |st it n Hu Hr]; try (by left). right. split_and!; try done. by exists n.
  - intros N Hu Hr. assert (HN : last_iteration result N) by done. split.
    + intros n s' Hn. pose proof (measure_nsteps _ (repeat_ok result) (repeat_left N) n _ _ (repeat_ok_step result)
        (fun x y => repeat_left_step result N x y HN) (repeat_reachable result _ (rtc_refl _ _)) Hn) as Hle.
      unfold repeat_left at 2 in Hle. simpl in Hle. lia.
    + destruct (progress_final _ (repeat_ok result) (fun s => delivered s = 1) (repeat_left N) s (repeat_ok_step result)
        (fun x y => repeat_left_step result N x y HN) (repeat_progress result) Hok) as (s' & Hs' & Hd).
      exists s'. split_and!; [done|done|].
      assert (Hok' : repeat_ok result s') by (by apply (preserved_rtc _ _ _ _ (repeat_ok_step result) Hok)).
      destruct Hok' as [| | | | | | |st it n Hun Hrn]; try done. simpl. f_equal.
      pose proof (last_bound result N n HN Hun). destruct (decide (n = N)); [done|]. rewrite Hu in Hrn by lia. done.
Qed.

(** Two iterations: the first completes inside its [start()], the second on another thread. *)
Lemma repeat_until_loop_witness :
  let result k := (k =? 1)%nat in
  exists s, rtc (repeat_step result) RepeatUntil_start s /\ m_state s = waiting /\ length (drivers s) <= 1.
Proof.
  intros result. eexists. assert (Hrun : rtc (repeat_step result) RepeatUntil_start (mkRepeat waiting false (Some 1) [] [] (Some 1) 2 0)).
  { eapply rtc_l; [apply (repeat_reset _ _ _ [] [])|]. eapply rtc_l; [apply (repeat_emplace _ _ _ _ [] [])|].
    eapply rtc_l; [apply (repeat_child result starting false (Some 0) [InStart] [] 0 1 0 true); intros _; by left|].
    eapply rtc_l; [apply (repeat_complete _ _ _ _ _ [] [])|]. eapply rtc_l; [apply (repeat_returns _ _ _ _ [] []); apply not_elem_of_nil|].
    eapply rtc_l; [apply (repeat_publish _ _ _ _ [] [])|]. eapply rtc_l; [apply (repeat_reset _ _ _ [] [])|].
    eapply rtc_l; [apply (repeat_emplace _ _ _ _ [] [])|]. eapply rtc_l; [apply (repeat_returns _ _ _ _ [] []); apply not_elem_of_nil|].
    eapply rtc_l; [apply (repeat_publish _ _ _ _ [] [])|]. apply rtc_refl. }
  split; [exact Hrun|]. split; [reflexivity|]. apply (repeat_until_loop result _ Hrun).
Defined.
