(* ===== verification/Eager.v ===== *)
(** * Events and continuations

    Models [detail::dispatch], [detail::State], [Event] and [EventSource] of
    caravan/core/eager.hpp.  A machine has events with their parked continuations and threads, each with its
    thread-local dispatch queue and a call stack.  Closures are the calls they make, in order; a step of a
    thread is one critical section, one atomic operation, or code between two of them.  [subscribed] and
    [started] log what the theorems are about. *)
From Stdlib Require Import ZArith Lia.
From stdpp Require Import base list numbers relations.
From S2P Require Import Prelude Transition.

(** The calls of a closure.  An [Event] without state is [None], as is any index without an event. *)
#[warnings="-register-all"]
Inductive action : Type :=
  | Subscribe (event : option nat) (continuation : list action)
  | SetReady (event : nat)
  | Arrive (counter event : nat)       (* WhenAllState::arrive *)
  | Wait (event : option nat).
Abbreviation code := (list action).

(** [State]: [m_completion] is ready, [m_continuations]. *)
Record EventState : Type := mkEvent { m_ready : bool; m_continuations : list code }.

(** A continuation with the event it was subscribed to. *)
Abbreviation task := (option nat * code)%type.

(** A call on the stack: a closure, the loop of [dispatch], the loop over [continuations] of [complete]. *)
Inductive frame : Type :=
  | Code (rest : code)
  | DispatchLoop
  | Continuations (rest : list task).

Record thread : Type := mkThread { dispatch_running : bool; dispatch_queue : list task; stack : list frame }.

Record machine : Type := mkMachine {
  events : list EventState;
  m_remaining : list Z;
  threads : list thread;
  subscribed : list task;
  started : list task
}.

Definition isReady (m : machine) (e : option nat) : bool :=
  match e with None => true | Some e => match events m !! e with Some s => m_ready s | None => true end end.

(** [dispatch]: the loop starts unless it is already running further down the stack. *)
Definition dispatch (t : task) (running : bool) (queue : list task) (stack : list frame) : thread :=
  mkThread true (queue ++ [t]) (if running then stack else DispatchLoop :: stack).

Definition set_thread (i : nat) (th : thread) (m : machine) : machine :=
  mkMachine (events m) (m_remaining m) (<[i := th]> (threads m)) (subscribed m) (started m).

(** [State::subscribe] and [Event::subscribe]. *)
Definition subscribe (i : nat) (e : option nat) (k : code) (running : bool) (queue : list task) (stack : list frame) (m : machine) : machine :=
  let m := mkMachine (events m) (m_remaining m) (threads m) (subscribed m ++ [(e, k)]) (started m) in
  match e with
  | Some n =>
      match events m !! n with
      | Some (mkEvent false ks) =>
          set_thread i (mkThread running queue stack)
            (mkMachine (<[n := mkEvent false (ks ++ [k])]> (events m)) (m_remaining m) (threads m) (subscribed m) (started m))
      | _ => set_thread i (dispatch (e, k) running queue stack) m
      end
  | None => set_thread i (dispatch (e, k) running queue stack) m
  end.

(** [State::complete]. *)
Definition complete (i n : nat) (running : bool) (queue : list task) (stack : list frame) (m : machine) : machine :=
  match events m !! n with
  | Some (mkEvent false ks) =>
      set_thread i (mkThread running queue (Continuations (map (pair (Some n)) ks) :: stack))
        (mkMachine (<[n := mkEvent true []]> (events m)) (m_remaining m) (threads m) (subscribed m) (started m))
  | _ => set_thread i (mkThread running queue stack) m
  end.

(** [WhenAllState::arrive]: the last arrival goes on to complete the event. *)
Definition arrive (i w n : nat) (running : bool) (queue : list task) (rest : code) (stack : list frame) (m : machine) : machine :=
  let old := m_remaining m !!! w in
  set_thread i (mkThread running queue (Code (if (old =? 1)%Z then SetReady n :: rest else rest) :: stack))
    (mkMachine (events m) (<[w := u64 (old - 1)]> (m_remaining m)) (threads m) (subscribed m) (started m)).

(** One step of thread [i]; none if it has ended or waits. *)
Definition thread_step (i : nat) (m : machine) : option machine :=
  match threads m !! i with
  | None => None
  | Some (mkThread running queue stack) =>
      match stack with
      | [] => None
      | Code [] :: stack => Some (set_thread i (mkThread running queue stack) m)
      | Code (Subscribe e k :: rest) :: stack => Some (subscribe i e k running queue (Code rest :: stack) m)
      | Code (SetReady n :: rest) :: stack => Some (complete i n running queue (Code rest :: stack) m)
      | Code (Arrive w n :: rest) :: stack => Some (arrive i w n running queue rest stack m)
      | Code (Wait e :: rest) :: stack =>
          if isReady m e then Some (set_thread i (mkThread running queue (Code rest :: stack)) m) else None
      | Continuations [] :: stack => Some (set_thread i (mkThread running queue stack) m)
      | Continuations (t :: rest) :: stack => Some (set_thread i (dispatch t running queue (Continuations rest :: stack)) m)
      | DispatchLoop :: stack =>
          match queue with
          | [] => Some (set_thread i (mkThread false [] stack) m)
          | t :: queue =>
              Some (set_thread i (mkThread running queue (Code (snd t) :: DispatchLoop :: stack))
                (mkMachine (events m) (m_remaining m) (threads m) (subscribed m) (started m ++ [t])))
          end
      end
  end.

Definition machine_step (m m' : machine) : Prop := exists i, thread_step i m = Some m'.

(** [nevents] events, the counters, and a thread for each program. *)
Definition machine_init (nevents : nat) (counters : list Z) (programs : list code) : machine :=
  mkMachine (replicate nevents (mkEvent false [])) counters (map (fun p => mkThread false [] [Code p]) programs) [] [].

(** ** What a step changes *)

(** The continuations that are about, and the calls on the stacks. *)
Inductive item : Type :=
  | Frame (f : frame)
  | Queued (t : task)
  | Parked (n : nat) (k : code).

Definition thread_items (i : nat) (th : thread) : list item := map Frame (stack th) ++ map Queued (dispatch_queue th).
Definition event_items (n : nat) (s : EventState) : list item := map (Parked n) (m_continuations s).
Definition items (m : machine) : list item := concat (imap thread_items (threads m)) ++ concat (imap event_items (events m)).

(** Ready events have handed their continuations over. *)
Definition handed_over (m : machine) : Prop := forall n s, events m !! n = Some s -> m_ready s = true -> m_continuations s = [].

Definition same_events (m m' : machine) : Prop := forall e, isReady m' e = isReady m e.

Definition loops (l : list item) : Prop := l = [] \/ l = [Frame DispatchLoop].

(** The effect of a step on what the machine contains. *)
Inductive change (m m' : machine) : Prop :=
  | c_pop f rest :
      items m ≡ₚ Frame f :: rest -> items m' ≡ₚ rest -> f = Code [] \/ f = DispatchLoop \/ f = Continuations [] ->
      same_events m m' -> m_remaining m' = m_remaining m -> subscribed m' = subscribed m -> started m' = started m -> change m m'
  | c_subscribe e k c new rest :
      items m ≡ₚ Frame (Code (Subscribe e k :: c)) :: rest -> items m' ≡ₚ Frame (Code c) :: new ++ rest ->
      (exists n, e = Some n /\ isReady m e = false /\ new = [Parked n k]) \/
      (isReady m e = true /\ exists ls, loops ls /\ new = Queued (e, k) :: ls) ->
      same_events m m' -> m_remaining m' = m_remaining m -> subscribed m' = subscribed m ++ [(e, k)] -> started m' = started m -> change m m'
  | c_again n c rest :
      items m ≡ₚ Frame (Code (SetReady n :: c)) :: rest -> items m' ≡ₚ Frame (Code c) :: rest -> isReady m (Some n) = true ->
      same_events m m' -> m_remaining m' = m_remaining m -> subscribed m' = subscribed m -> started m' = started m -> change m m'
  | c_complete n ks c rest :
      items m ≡ₚ Frame (Code (SetReady n :: c)) :: map (Parked n) ks ++ rest ->
      items m' ≡ₚ Frame (Code c) :: Frame (Continuations (map (pair (Some n)) ks)) :: rest ->
      isReady m (Some n) = false -> (forall e, isReady m' e = bool_decide (e = Some n) || isReady m e) ->
      m_remaining m' = m_remaining m -> subscribed m' = subscribed m -> started m' = started m -> change m m'
  | c_arrive w n c rest :
      items m ≡ₚ Frame (Code (Arrive w n :: c)) :: rest ->
      items m' ≡ₚ Frame (Code (if (m_remaining m !!! w =? 1)%Z then SetReady n :: c else c)) :: rest ->
      same_events m m' -> m_remaining m' = <[w := u64 (m_remaining m !!! w - 1)]> (m_remaining m) ->
      subscribed m' = subscribed m -> started m' = started m -> change m m'
  | c_wait e c rest :
      items m ≡ₚ Frame (Code (Wait e :: c)) :: rest -> items m' ≡ₚ Frame (Code c) :: rest -> isReady m e = true ->
      same_events m m' -> m_remaining m' = m_remaining m -> subscribed m' = subscribed m -> started m' = started m -> change m m'
  | c_next t ts ls rest :
      items m ≡ₚ Frame (Continuations (t :: ts)) :: rest -> items m' ≡ₚ Frame (Continuations ts) :: Queued t :: ls ++ rest -> loops ls ->
      same_events m m' -> m_remaining m' = m_remaining m -> subscribed m' = subscribed m -> started m' = started m -> change m m'
  | c_run t rest :
      items m ≡ₚ Frame DispatchLoop :: Queued t :: rest -> items m' ≡ₚ Frame (Code t.2) :: Frame DispatchLoop :: rest ->
      same_events m m' -> m_remaining m' = m_remaining m -> subscribed m' = subscribed m -> started m' = started m ++ [t] -> change m m'.

Lemma items_thread m i th : threads m !! i = Some th ->
  exists rest, items m ≡ₚ thread_items i th ++ rest /\
    forall m' th', threads m' = <[i := th']> (threads m) -> events m' = events m -> items m' ≡ₚ thread_items i th' ++ rest.
Proof.
  intros Hi. destruct (concat_imap_insert thread_items _ i th Hi) as (rest & H1 & H2).
  exists (rest ++ concat (imap event_items (events m))). unfold items. split; [by rewrite H1, app_assoc|].
  intros m' th' -> ->. by rewrite H2, app_assoc.
Qed.

Lemma items_event m i th n s : threads m !! i = Some th -> events m !! n = Some s ->
  exists rest, items m ≡ₚ thread_items i th ++ event_items n s ++ rest /\
    forall m' th' s', threads m' = <[i := th']> (threads m) -> events m' = <[n := s']> (events m) ->
      items m' ≡ₚ thread_items i th' ++ event_items n s' ++ rest.
Proof.
  intros Hi Hn. destruct (concat_imap_insert thread_items _ i th Hi) as (r1 & H1 & H2).
  destruct (concat_imap_insert event_items _ n s Hn) as (r2 & H3 & H4).
  assert (Hp : forall a b : list item, (a ++ r1) ++ (b ++ r2) ≡ₚ a ++ b ++ r1 ++ r2).
  { intros a b. rewrite <-app_assoc. f_equiv. by rewrite Permutation_app_swap_app. }
  exists (r1 ++ r2). unfold items. split; [by rewrite H1, H3|]. intros m' th' s' -> ->. by rewrite H2, H4.
Qed.

Lemma dispatch_items i t running queue st :
  exists ls, loops ls /\ thread_items i (dispatch t running queue st) ≡ₚ Queued t :: ls ++ thread_items i (mkThread running queue st).
Proof.
  unfold dispatch, thread_items. simpl. rewrite map_app. simpl. destruct running.
  - exists []. split; [by left|]. simpl. rewrite app_assoc. by rewrite <-Permutation_cons_append.
  - exists [Frame DispatchLoop]. split; [by right|]. simpl. rewrite app_assoc, perm_swap. f_equiv. by rewrite <-Permutation_cons_append.
Qed.

Ltac items_perm := unfold thread_items, event_items; cbn [stack dispatch_queue m_continuations map app]; rewrite ?map_app; cbn [map app]; solve_Permutation.

Lemma same_events_eq m m' : events m' = events m -> same_events m m'.
Proof. intros He [e|]; [|done]. simpl. by rewrite He. Qed.

Lemma ready_insert m m' n ks b ks' : events m !! n = Some (mkEvent false ks) -> events m' = <[n := mkEvent b ks']> (events m) ->
  forall e, isReady m' e = (bool_decide (e = Some n) && b) || isReady m e.
Proof.
  intros Hn He [e|]; [|by rewrite orb_true_r]. simpl. rewrite He. destruct (decide (e = n)) as [->|Hne].
  - rewrite list_lookup_insert_eq by (by apply lookup_lt_Some in Hn). rewrite Hn, bool_decide_eq_true_2 by done. simpl. by rewrite orb_false_r.
  - rewrite list_lookup_insert_ne by done. rewrite bool_decide_eq_false_2 by congruence. done.
Qed.

(** A step that only changes its thread. *)
Lemma items_set_thread m i th th' : threads m !! i = Some th -> exists rest,
  items m ≡ₚ thread_items i th ++ rest /\
  forall m', threads m' = <[i := th']> (threads m) -> events m' = events m -> items m' ≡ₚ thread_items i th' ++ rest.
Proof. intros Hi. destruct (items_thread m i th Hi) as (rest & H1 & H2). exists rest. split; [done|]. intros m' Ht He. by apply H2. Qed.

Lemma change_subscribe i e k running queue c st m :
  threads m !! i = Some (mkThread running queue (Code (Subscribe e k :: c) :: st)) -> handed_over m ->
  let m' := subscribe i e k running queue (Code c :: st) m in change m m' /\ handed_over m'.
Proof.
  intros Hi Hh m'.
  assert (Hd : isReady m e = true -> m' = set_thread i (dispatch (e, k) running queue (Code c :: st))
      (mkMachine (events m) (m_remaining m) (threads m) (subscribed m ++ [(e, k)]) (started m)) -> change m m' /\ handed_over m').
  { intros Hr ->. split; [|done].
    destruct (items_set_thread m i _ (dispatch (e, k) running queue (Code c :: st)) Hi) as (rest & H1 & H2).
    destruct (dispatch_items i (e, k) running queue (Code c :: st)) as (ls & Hls & Hdi).
    apply (c_subscribe _ _ e k c (Queued (e, k) :: ls) (thread_items i (mkThread running queue st) ++ rest)).
    - rewrite H1. done.
    - rewrite H2, Hdi by done. items_perm.
    - right. split; [done|]. by exists ls.
    - by apply same_events_eq.
    - done.
    - done.
    - done. }
  unfold m', subscribe in *. destruct e as [n|]; [|by apply Hd].
  simpl in Hd |- *. destruct (events m !! n) as [[[] ks]|] eqn:Hn; simpl in Hd; [by apply Hd| |by apply Hd]. clear Hd.
  set (m2 := set_thread _ _ _). split.
  - destruct (items_event m i _ n _ Hi Hn) as (rest & H1 & H2).
    apply (c_subscribe _ _ (Some n) k c [Parked n k] (thread_items i (mkThread running queue st) ++ event_items n (mkEvent false ks) ++ rest)).
    + rewrite H1. done.
    + rewrite (H2 m2 (mkThread running queue (Code c :: st)) (mkEvent false (ks ++ [k]))) by done.
      items_perm.
    + left. exists n. simpl. by rewrite Hn.
    + intros e. rewrite (ready_insert m m2 n ks false (ks ++ [k]) Hn eq_refl). by rewrite andb_false_r.
    + done.
    + done.
    + done.
  - intros n' s' Hs' Hr. simpl in Hs'. destruct (decide (n' = n)) as [->|Hne].
    + rewrite list_lookup_insert_eq in Hs' by (by apply lookup_lt_Some in Hn). by simplify_eq.
    + rewrite list_lookup_insert_ne in Hs' by done. by eapply Hh.
Qed.

Lemma change_complete i n running queue c st m :
  threads m !! i = Some (mkThread running queue (Code (SetReady n :: c) :: st)) -> handed_over m ->
  let m' := complete i n running queue (Code c :: st) m in change m m' /\ handed_over m'.
Proof.
  intros Hi Hh m'.
  assert (Hd : isReady m (Some n) = true -> m' = set_thread i (mkThread running queue (Code c :: st)) m -> change m m' /\ handed_over m').
  { intros Hr ->. split; [|done].
    destruct (items_set_thread m i _ (mkThread running queue (Code c :: st)) Hi) as (rest & H1 & H2).
    apply (c_again _ _ n c (thread_items i (mkThread running queue st) ++ rest)); try done; try (by rewrite H2 by done); try (by apply same_events_eq); auto. }
  unfold m', complete in *. simpl in Hd |- *.
  destruct (events m !! n) as [[[] ks]|] eqn:Hn; simpl in Hd; [by apply Hd| |by apply Hd]. clear Hd.
  set (m2 := set_thread _ _ _). split.
  - destruct (items_event m i _ n _ Hi Hn) as (rest & H1 & H2).
    apply (c_complete _ _ n ks c (thread_items i (mkThread running queue st) ++ rest)); try done.
    + rewrite H1. items_perm.
    + rewrite (H2 m2 (mkThread running queue (Continuations (map (pair (Some n)) ks) :: Code c :: st)) (mkEvent true [])) by done.
      items_perm.
    + simpl. by rewrite Hn.
    + intros e. rewrite (ready_insert m m2 n ks true [] Hn eq_refl). by rewrite andb_true_r.
  - intros n' s' Hs' Hr. simpl in Hs'. destruct (decide (n' = n)) as [->|Hne].
    + rewrite list_lookup_insert_eq in Hs' by (by apply lookup_lt_Some in Hn). by simplify_eq.
    + rewrite list_lookup_insert_ne in Hs' by done. by eapply Hh.
Qed.

Lemma change_step i m m' : handed_over m -> thread_step i m = Some m' -> change m m' /\ handed_over m'.
Proof.
  intros Hh Hstep. unfold thread_step in Hstep. destruct (threads m !! i) as [[running queue st]|] eqn:Hi; [|done].
  destruct st as [|[[|a c]| |[|t ts]] st]; [done|..].
  - injection Hstep as <-. split; [|done]. destruct (items_set_thread m i _ (mkThread running queue st) Hi) as (rest & H1 & H2).
    apply (c_pop _ _ (Code []) (thread_items i (mkThread running queue st) ++ rest)); try done; try (by rewrite H2 by done); try (by apply same_events_eq); auto.
  - destruct a as [e k|n|w n|e].
    + injection Hstep as <-. by apply change_subscribe.
    + injection Hstep as <-. by apply change_complete.
    + injection Hstep as <-. split; [|done].
      destruct (items_set_thread m i _ (mkThread running queue (Code (if (m_remaining m !!! w =? 1)%Z then SetReady n :: c else c) :: st)) Hi) as (rest & H1 & H2).
      apply (c_arrive _ _ w n c (thread_items i (mkThread running queue st) ++ rest)); try done; try (by rewrite H2 by done); try (by apply same_events_eq); auto.
    + destruct (isReady m e) eqn:Hr; [|done]. injection Hstep as <-. split; [|done].
      destruct (items_set_thread m i _ (mkThread running queue (Code c :: st)) Hi) as (rest & H1 & H2).
      apply (c_wait _ _ e c (thread_items i (mkThread running queue st) ++ rest)); try done; try (by rewrite H2 by done); try (by apply same_events_eq); auto.
  - destruct queue as [|t queue]; injection Hstep as <-; (split; [|done]).
    + destruct (items_set_thread m i _ (mkThread false [] st) Hi) as (rest & H1 & H2).
      apply (c_pop _ _ DispatchLoop (thread_items i (mkThread false [] st) ++ rest)); try done; try (by rewrite H2 by done); try (by apply same_events_eq); auto.
    + destruct (items_set_thread m i _ (mkThread running queue (Code t.2 :: DispatchLoop :: st)) Hi) as (rest & H1 & H2).
      apply (c_run _ _ t (thread_items i (mkThread running queue st) ++ rest)); try done; try (by rewrite H2 by done); try (by apply same_events_eq).
      rewrite H1. items_perm.
  - injection Hstep as <-. split; [|done]. destruct (items_set_thread m i _ (mkThread running queue st) Hi) as (rest & H1 & H2).
    apply (c_pop _ _ (Continuations []) (thread_items i (mkThread running queue st) ++ rest)); try done; try (by rewrite H2 by done); try (by apply same_events_eq); auto.
  - injection Hstep as <-. split; [|done].
    destruct (items_set_thread m i _ (dispatch t running queue (Continuations ts :: st)) Hi) as (rest & H1 & H2).
    destruct (dispatch_items i t running queue (Continuations ts :: st)) as (ls & Hls & Hdi).
    apply (c_next _ _ t ts ls (thread_items i (mkThread running queue st) ++ rest)); try done; try (by apply same_events_eq).
    rewrite H2, Hdi by done. items_perm.
Qed.

(** ** Continuations are conserved *)

Definition item_tasks (x : item) : list task :=
  match x with
  | Frame (Continuations ts) => ts
  | Queued t => [t]
  | Parked n k => [(Some n, k)]
  | Frame _ => []
  end.

(** Continuations on their way belong to ready events. *)
Definition item_ready (m : machine) (x : item) : Prop :=
  match x with
  | Frame (Continuations ts) => Forall (fun t => isReady m t.1 = true) ts
  | Queued t => isReady m t.1 = true
  | _ => True
  end.

Record log_ok (m : machine) : Prop := {
  log_handed : handed_over m;
  log_all : subscribed m ≡ₚ started m ++ (items m ≫= item_tasks);
  log_started : Forall (fun t => isReady m t.1 = true) (started m);
  log_ready : Forall (item_ready m) (items m)
}.

Lemma loops_tasks ls : loops ls -> ls ≫= item_tasks = [].
Proof. by intros [->| ->]. Qed.

Lemma loops_ready m ls : loops ls -> Forall (item_ready m) ls.
Proof. intros [->| ->]; repeat constructor. Qed.

Lemma parked_tasks n ks : map (Parked n) ks ≫= item_tasks = map (pair (Some n)) ks.
Proof. induction ks as [|k ks IH]; [done|]. simpl. by f_equal. Qed.

Lemma item_ready_mono m m' x : (forall e, isReady m e = true -> isReady m' e = true) -> item_ready m x -> item_ready m' x.
Proof.
  intros Hm. destruct x as [[c| |ts]|t|n k]; simpl; try done; [|by apply Hm].
  intros Hf. eapply list.Forall_impl; [exact Hf|]. intros t. apply Hm.
Qed.

Lemma ready_mono m m' : change m m' -> forall e, isReady m e = true -> isReady m' e = true.
Proof.
  destruct 1 as [f rest H1 H2 Hf He Hr Hs Ht|e k c new rest H1 H2 Hn He Hr Hs Ht|n c rest H1 H2 Hrd He Hr Hs Ht|n ks c rest H1 H2 Hp He Hr Hs Ht|
    w n c rest H1 H2 He Hr Hs Ht|e c rest H1 H2 Hrd He Hr Hs Ht|t ts ls rest H1 H2 Hl He Hr Hs Ht|t rest H1 H2 He Hr Hs Ht];
    intros e' Hrdy; rewrite He; try done. by rewrite Hrdy, orb_true_r.
Qed.

Lemma log_ok_step m m' : log_ok m -> machine_step m m' -> log_ok m'.
Proof.
  intros [Hh Ha Hst Hrd] [i Hi]. destruct (change_step i m m' Hh Hi) as [Hc Hh'].
  pose proof (ready_mono m m' Hc) as Hmono.
  assert (Hst' : Forall (fun t => isReady m' t.1 = true) (started m)).
  { eapply list.Forall_impl; [exact Hst|]. intros t. apply Hmono. }
  assert (Hrd' : Forall (item_ready m') (items m)).
  { eapply list.Forall_impl; [exact Hrd|]. intros x. by apply item_ready_mono. }
  destruct Hc as [f rest H1 H2 Hf He Hr Hs Ht|e k c new rest H1 H2 Hn He Hr Hs Ht|n c rest H1 H2 Hp He Hr Hs Ht|n ks c rest H1 H2 Hp He Hr Hs Ht|
    w n c rest H1 H2 He Hr Hs Ht|e c rest H1 H2 Hp He Hr Hs Ht|t ts ls rest H1 H2 Hl He Hr Hs Ht|t rest H1 H2 He Hr Hs Ht];
    (constructor; [done|rewrite Hs, Ht, H2|rewrite Ht|rewrite H2]); rewrite H1 in Ha, Hrd'; clear H1 H2; try done;
    simpl in Ha, Hrd' |- *; repeat match goal with H : Forall _ (_ :: _) |- _ => apply list.Forall_cons in H as [? ?] end.
  - rewrite Ha. destruct Hf as [->|[->| ->]]; by simpl.
  - done.
  - rewrite Ha. destruct Hn as [(n & -> & _ & ->)|(_ & ls & Hls & ->)]; simpl; rewrite ?bind_app, ?(loops_tasks ls) by done; solve_Permutation.
  - constructor; [done|]. apply Forall_app. split; [|done].
    destruct Hn as [(n & -> & _ & ->)|(Hre & ls & Hls & ->)]; [repeat constructor|]. constructor; [by apply Hmono|by apply loops_ready].
  - by constructor.
  - rewrite bind_app, parked_tasks in Ha. by rewrite Ha.
  - constructor; [done|]. match goal with H : Forall _ (_ ++ _) |- _ => apply Forall_app in H as [? ?] end. constructor; [|done].
    apply List.Forall_map, list.Forall_true. intros k. change (isReady m' (Some n) = true). by rewrite He, bool_decide_eq_true_2.
  - by constructor.
  - by constructor.
  - rewrite Ha, bind_app, (loops_tasks ls) by done. simpl. solve_Permutation.
  - match goal with H : item_ready _ (Frame (Continuations (_ :: _))) |- _ => apply list.Forall_cons in H as [? ?] end.
    constructor; [done|]. constructor; [done|]. apply Forall_app. split; [by apply loops_ready|done].
  - rewrite Ha. solve_Permutation.
  - apply Forall_app. split; [done|]. by repeat constructor.
  - by repeat constructor.
Qed.

(** ** Executions end *)

Fixpoint action_size (a : action) : nat :=
  match a with
  | Subscribe _ k => 6 + sum_list_with action_size k
  | SetReady _ => 3
  | Arrive _ _ => 5
  | Wait _ => 1
  end.
Definition code_size (c : code) : nat := sum_list_with action_size c.

Definition item_size (x : item) : nat :=
  match x with
  | Frame (Code c) => S (code_size c)
  | Frame DispatchLoop => 1
  | Frame (Continuations ts) => S (sum_list_with (fun t => 5 + code_size t.2) ts)
  | Queued t => 3 + code_size t.2
  | Parked _ k => 5 + code_size k
  end.

Definition machine_size (m : machine) : nat := sum_list_with item_size (items m).

Lemma loops_size ls : loops ls -> sum_list_with item_size ls <= 1.
Proof. intros [->| ->]; simpl; lia. Qed.

Lemma sum_parked n ks : sum_list_with item_size (map (Parked n) ks) = sum_list_with (fun t => 5 + code_size t.2) (map (pair (Some n)) ks).
Proof. induction ks as [|k ks IH]; [done|]. simpl. by rewrite IH. Qed.

Lemma machine_size_step m m' : log_ok m -> machine_step m m' -> machine_size m' < machine_size m.
Proof.
  intros [Hh _ _ _] [i Hi]. destruct (change_step i m m' Hh Hi) as [Hc _]. unfold machine_size.
  destruct Hc as [f rest H1 H2 Hf He Hr Hs Ht|e k c new rest H1 H2 Hn He Hr Hs Ht|n c rest H1 H2 Hp He Hr Hs Ht|n ks c rest H1 H2 Hp He Hr Hs Ht|
    w n c rest H1 H2 He Hr Hs Ht|e c rest H1 H2 Hp He Hr Hs Ht|t ts ls rest H1 H2 Hl He Hr Hs Ht|t rest H1 H2 He Hr Hs Ht];
    rewrite H1, H2; clear H1 H2; cbn [sum_list_with item_size code_size]; rewrite ?sum_list_with_app; unfold code_size; cbn [sum_list_with action_size].
  - destruct Hf as [->|[->| ->]]; simpl; lia.
  - destruct Hn as [(n & -> & _ & ->)|(_ & ls & Hls & ->)]; cbn [sum_list_with item_size]; unfold code_size; cbn [snd]; [lia|].
    pose proof (loops_size ls Hls). lia.
  - lia.
  - rewrite sum_parked. unfold code_size. lia.
  - destruct (_ =? 1)%Z; cbn [sum_list_with action_size]; lia.
  - lia.
  - pose proof (loops_size ls Hl). lia.
  - lia.
Qed.

(** ** Dispatch does not recurse *)

Definition base_stack (st : list frame) : Prop :=
  st = [] \/ (exists c, st = [Code c]) \/ (exists ts c, st = [Continuations ts; Code c]).

(** A dispatch loop runs at most once on a thread, and only while it runs there is something to dispatch. *)
Definition thread_ok (th : thread) : Prop :=
  if dispatch_running th then exists a b, stack th = a ++ DispatchLoop :: b /\ base_stack a /\ base_stack b
  else base_stack (stack th) /\ dispatch_queue th = [].

(** Replacing the top of a stack. *)
Definition tops (f : frame) (fs : list frame) : Prop :=
  (exists c, f = Code c /\ (fs = [] \/ (exists c', fs = [Code c']) \/ exists ts c', fs = [Continuations ts; Code c'])) \/
  (exists ts, f = Continuations ts /\ (fs = [] \/ exists ts', fs = [Continuations ts'])).

Lemma base_top f fs st : tops f fs -> base_stack (f :: st) -> base_stack (fs ++ st).
Proof.
  intros Ht [Hs|[(c & [= -> ->])|(ts & c & [= -> ->])]]; [done|..].
  - destruct Ht as [(c' & _ & [->|[(c'' & ->)|(ts & c'' & ->)]])|(ts & ? & _)]; [by left|right; left; by eexists|right; right; by do 2 eexists|done].
  - destruct Ht as [(c' & ? & _)|(ts' & _ & [->|(ts'' & ->)])]; [done|right; left; by eexists|right; right; by do 2 eexists].
Qed.

Lemma thread_top running queue f fs st : tops f fs -> thread_ok (mkThread running queue (f :: st)) -> thread_ok (mkThread running queue (fs ++ st)).
Proof.
  intros Ht. unfold thread_ok. simpl. destruct running.
  - intros (a & b & Heq & Ha & Hb). destruct a as [|x a].
    { simpl in Heq. injection Heq as -> ->. by destruct Ht as [(? & ? & _)|(? & ? & _)]. }
    injection Heq as <- ->. exists (fs ++ a), b. rewrite app_assoc. split_and!; [done|by eapply base_top|done].
  - intros [Hb Hq]. split; [by eapply base_top|done].
Qed.

Lemma dispatch_ok t running queue st : thread_ok (mkThread running queue st) -> thread_ok (dispatch t running queue st).
Proof.
  unfold thread_ok, dispatch. simpl. destruct running; [done|]. intros [Hb _]. exists [], st. split_and!; [done|by left|done].
Qed.

Definition threads_ok (m : machine) : Prop := Forall thread_ok (threads m).

Lemma threads_ok_step m m' : threads_ok m -> machine_step m m' -> threads_ok m'.
Proof.
  intros Hok [i Hi]. unfold thread_step in Hi. destruct (threads m !! i) as [[running queue st]|] eqn:Ht; [|done].
  assert (Hth : thread_ok (mkThread running queue st)) by (unfold threads_ok in Hok; rewrite list.Forall_forall in Hok; by apply Hok, (list_elem_of_lookup_2 _ i)).
  assert (Hset : forall th, thread_ok th -> Forall thread_ok (<[i := th]> (threads m))) by (intros th Hth'; by apply Forall_insert).
  destruct st as [|f st]; [done|]. pose proof (thread_top running queue f) as Htop.
  destruct f as [[|a c]| |[|t ts]].
  - injection Hi as <-. apply Hset. apply (Htop [] st); [|done]. left. eexists. split; [done|by left].
  - assert (Hcode : forall c', thread_ok (mkThread running queue (Code c' :: st))).
    { intros c'. apply (Htop [Code c'] st); [|done]. left. eexists. split; [done|]. right. left. by eexists. }
    destruct a as [e k|n|w n|e].
    + injection Hi as <-. unfold subscribe. destruct e as [n|]; [|by apply Hset, dispatch_ok].
      cbn [events]. destruct (events m !! n) as [[[] ks]|]; [by apply Hset, dispatch_ok|by apply Hset|by apply Hset, dispatch_ok].
    + injection Hi as <-. unfold complete. destruct (events m !! n) as [[[] ks]|]; [by apply Hset| |by apply Hset]. apply Hset.
      apply (Htop [Continuations _; Code c] st); [|done]. left. eexists. split; [done|]. right. right. by do 2 eexists.
    + injection Hi as <-. by apply Hset.
    + destruct (isReady m e); [|done]. injection Hi as <-. by apply Hset.
  - destruct queue as [|t queue]; injection Hi as <-; apply Hset; unfold thread_ok in Hth |- *; simpl in *; destruct running;
      try (destruct Hth as [[?|[(? & ?)|(? & ? & ?)]] _]; discriminate).
    + destruct Hth as (a & b & Heq & Ha & Hb). split; [|done]. destruct a as [|x a]; [by injection Heq as <-|].
      injection Heq as <- _. destruct Ha as [?|[(? & ?)|(? & ? & ?)]]; discriminate.
    + destruct Hth as (a & b & Heq & Ha & Hb). destruct a as [|x a]; [injection Heq as <-|injection Heq as <- _; destruct Ha as [?|[(? & ?)|(? & ? & ?)]]; discriminate].
      exists [Code t.2], st. split_and!; [done|right; left; by eexists|done].
  - injection Hi as <-. apply Hset. apply (Htop [] st); [|done]. right. eexists. split; [done|by left].
  - injection Hi as <-. apply Hset, dispatch_ok, (Htop [Continuations ts] st); [|done]. right. eexists. split; [done|]. right. by eexists.
Qed.

Lemma thread_ok_depth th : thread_ok th -> length (stack th) <= 5.
Proof.
  assert (Hb : forall st, base_stack st -> length st <= 2) by (intros st [->|[(? & ->)|(? & ? & ->)]]; simpl; lia).
  unfold thread_ok. destruct (dispatch_running th).
  - intros (a & b & -> & Ha & Hb'). rewrite length_app. simpl. pose proof (Hb a Ha). pose proof (Hb b Hb'). lia.
  - intros [Hs _]. pose proof (Hb _ Hs). lia.
Qed.

Lemma init_items nevents counters programs :
  items (machine_init nevents counters programs) = map (fun p => Frame (Code p)) programs.
Proof.
  unfold items, machine_init. cbn [events threads]. replace (concat (imap event_items _)) with (@nil item).
  - rewrite app_nil_r. rewrite (imap_ext _ (const (thread_items 0))) by done. rewrite imap_const. induction programs as [|p ps IH]; [done|]. simpl. f_equal. exact IH.
  - symmetry. assert (Hg : forall f : nat -> EventState -> list item, (forall k, f k (mkEvent false []) = []) ->
      concat (imap f (replicate nevents (mkEvent false []))) = []); [|by apply Hg].
    induction nevents as [|n IH]; intros f Hf; [done|]. simpl. rewrite Hf. apply IH. intros k. apply Hf.
Qed.

Lemma eager_init_ok nevents counters programs :
  log_ok (machine_init nevents counters programs) /\ threads_ok (machine_init nevents counters programs).
Proof.
  split; [constructor|].
  - intros n s Hn. by apply lookup_replicate in Hn as [-> _].
  - rewrite init_items. simpl. induction programs as [|p ps IH]; [done|]. done.
  - done.
  - rewrite init_items. apply List.Forall_map, list.Forall_true. done.
  - apply List.Forall_map, list.Forall_true. intros p. split; [right; left; by eexists|done].
Qed.

Lemma parked_pending m n k : handed_over m -> Parked n k ∈ items m -> isReady m (Some n) = false.
Proof.
  intros Hh Hin. unfold items in Hin. apply elem_of_app in Hin as [Hin|Hin]; apply elem_of_concat in Hin as (l & Hin & Hl);
    apply list_elem_of_lookup in Hl as [i Hl]; rewrite list_lookup_imap in Hl; apply fmap_Some in Hl as (x & Hx & ->).
  - unfold thread_items in Hin. apply elem_of_app in Hin as [Hin|Hin]; by apply list_elem_of_fmap in Hin as (? & ? & _).
  - unfold event_items in Hin. apply list_elem_of_fmap in Hin as (k' & [= -> ->] & Hk). simpl. rewrite Hx.
    destruct (m_ready x) eqn:Hr; [|done]. rewrite (Hh i x Hx Hr) in Hk. by apply elem_of_nil in Hk.
Qed.

(** Threads that have ended leave only parked continuations. *)
Lemma ended_items m : threads_ok m -> Forall (fun th => stack th = []) (threads m) ->
  forall x, x ∈ items m -> exists n k, x = Parked n k.
Proof.
  intros Hok Hend x Hx. unfold items in Hx. apply elem_of_app in Hx as [Hx|Hx]; apply elem_of_concat in Hx as (l & Hx & Hl);
    apply list_elem_of_lookup in Hl as [i Hl]; rewrite list_lookup_imap in Hl; apply fmap_Some in Hl as (y & Hy & ->).
  - apply list_elem_of_lookup_2 in Hy. rewrite list.Forall_forall in Hend. unfold threads_ok in Hok. rewrite list.Forall_forall in Hok.
    specialize (Hend y Hy). specialize (Hok y Hy). unfold thread_ok in Hok. rewrite Hend in Hok. unfold thread_items in Hx. rewrite Hend in Hx.
    destruct (dispatch_running y).
    + destruct Hok as (a & b & Heq & _). by destruct a.
    + destruct Hok as [_ Hq]. rewrite Hq in Hx. by apply elem_of_nil in Hx.
  - unfold event_items in Hx. apply list_elem_of_fmap in Hx as (k & -> & _). by exists i, k.
Qed.

(** What blocks a thread. *)
Lemma thread_blocked m i th : threads m !! i = Some th -> thread_step i m = None ->
  stack th = [] \/ exists e c st, stack th = Code (Wait e :: c) :: st /\ isReady m e = false.
Proof.
  intros Hi Hn. unfold thread_step in Hn. rewrite Hi in Hn. destruct th as [running queue st]. simpl.
  destruct st as [|[[|[e k|n|w n|e] c]| |[|t ts]] st]; try discriminate; [by left| |by destruct queue].
  right. exists e, c, st. split; [done|]. by destruct (isReady m e).
Qed.

(** Executions from a schedule of the threads. *)
Definition run (schedule : list nat) (m : machine) : option machine := foldl (fun m i => m ≫= thread_step i) (Some m) schedule.

Lemma run_sound schedule m m' : run schedule m = Some m' -> rtc machine_step m m'.
Proof.
  unfold run. revert m. induction schedule as [|i l IH]; intros m H1; simpl in H1; [injection H1 as ->; apply rtc_refl|].
  destruct (thread_step i m) as [m2|] eqn:H2; [apply (rtc_l _ _ m2); [by exists i|by apply IH]|].
  exfalso. clear -H1. induction l as [|i l IH]; simpl in H1; [discriminate|by apply IH].
Qed.

(** C20: continuations of events.  Whatever threads do, a continuation is started only when its
    event is ready, every subscription is either started or still on its way, and calls never nest beyond
    five frames on a thread because a dispatch below another one only queues.  Every execution ends, with a bound on its
    length; where it ends, each thread has returned or waits for a pending event, and if all have returned,
    the continuations of ready events have been started exactly once each. *)
Theorem continuations_run nevents counters programs m :
  rtc machine_step (machine_init nevents counters programs) m ->
  Forall (fun t => isReady m t.1 = true) (started m) /\
  subscribed m ≡ₚ started m ++ (items m ≫= item_tasks) /\
  Forall (fun th => length (stack th) <= 5) (threads m) /\
  (forall n m', nsteps machine_step n (machine_init nevents counters programs) m' ->
     n <= sum_list_with (fun p => S (code_size p)) programs) /\
  ((forall m', ~ machine_step m m') ->
     Forall (fun th => stack th = [] \/ exists e c st, stack th = Code (Wait e :: c) :: st /\ isReady m e = false) (threads m) /\
     (Forall (fun th => stack th = []) (threads m) -> filter (fun t => isReady m t.1 = true) (subscribed m) ≡ₚ started m)).
Proof.
  intros Hrun. destruct (eager_init_ok nevents counters programs) as [Hl0 Ht0].
  assert (Hok : log_ok m) by (apply (preserved_rtc machine_step _ _ _ (fun x y => log_ok_step x y) Hl0 Hrun)).
  assert (Hth : threads_ok m) by (apply (preserved_rtc machine_step _ _ _ (fun x y => threads_ok_step x y) Ht0 Hrun)).
  destruct Hok as [Hh Ha Hst Hrd]. split_and!; [done|done| | |].
  - eapply list.Forall_impl; [exact Hth|]. apply thread_ok_depth.
  - intros n m' Hn. pose proof (measure_nsteps machine_step log_ok machine_size n _ _ (fun x y => log_ok_step x y)
      (fun x y => machine_size_step x y) Hl0 Hn) as Hle. unfold machine_size at 2 in Hle. rewrite init_items in Hle.
    replace (sum_list_with _ (map _ _)) with (sum_list_with (fun p => S (code_size p)) programs) in Hle; [lia|].
    clear. induction programs as [|p ps IH]; [done|]. simpl. by rewrite IH.
  - intros Hno. split.
    + apply list.Forall_forall. intros th [i Hi]%list_elem_of_lookup. apply (thread_blocked m i th Hi).
      destruct (thread_step i m) as [m'|] eqn:Hs; [|done]. destruct (Hno m'). by exists i.
    + intros Hend. rewrite Ha, filter_app. rewrite (list_filter_all _ (started m)) by (by apply list.Forall_forall).
      rewrite list_filter_none; [by rewrite app_nil_r|]. intros t Ht Hr. apply list_elem_of_bind in Ht as (x & Ht & Hx).
      destruct (ended_items m Hth Hend x Hx) as (n & k & ->). apply list_elem_of_singleton in Ht as ->.
      pose proof (parked_pending m n k Hh Hx). simpl in *. congruence.
Qed.

(** A thread subscribes a continuation that another thread's completion starts. *)
Lemma continuations_run_witness :
  let programs := [[Subscribe (Some 0) [SetReady 1]; Subscribe (Some 1) []]; [SetReady 0]] in
  exists m, rtc machine_step (machine_init 2 [] programs) m /\ started m = [(Some 0, [SetReady 1]); (Some 1, [])] /\
    Forall (fun t => isReady m t.1 = true) (started m).
Proof.
  intros programs.
  assert (Hrun : exists m, run [0; 0; 1; 1; 1; 1; 1; 1; 1; 1; 1; 1] (machine_init 2 [] programs) = Some m /\
    started m = [(Some 0, [SetReady 1]); (Some 1, [])]) by (eexists; split; [vm_compute; reflexivity|reflexivity]).
  destruct Hrun as (m & Hm & Hs). exists m. pose proof (run_sound _ _ _ Hm) as Hr.
  split; [exact Hr|]. split; [exact Hs|]. apply (continuations_run 2 [] programs m Hr).
Defined.
