(* ===== verification/EagerJoin.v ===== *)
(** * Joining events

    Models [WhenAllState] and [whenAll] over events of caravan/core/eager.hpp on the machine of [Eager]: a
    counter that every event's continuation decrements, and an event that the last one completes. *)
From Stdlib Require Import ZArith Lia.
From stdpp Require Import base list numbers relations.
From S2P Require Import Prelude Transition Eager.

(** [whenAll(events)]: the event it returns and the calls it makes; [w] and [n] are the counter
    and the event of its state. *)
Definition whenAll (w n : nat) (es : list (option nat)) : option nat * code :=
  match es with
  | [] => (None, [])
  | [e] => (e, [])
  | _ => (Some n, map (fun e => Subscribe e [Arrive w n]) es)
  end.

(** ** What a step does to the actions that are left *)

(** The actions with [p] in a closure, and those below a subscription to an event with [P]. *)
Fixpoint count (p : action -> bool) (a : action) : nat :=
  (if p a then 1 else 0) + match a with Subscribe _ k => sum_list_with (count p) k | _ => 0 end.
Fixpoint guarded (p : action -> bool) (P : option nat -> bool) (a : action) : nat :=
  match a with
  | Subscribe e k => if P e then sum_list_with (count p) k else sum_list_with (guarded p P) k
  | _ => 0
  end.

Definition item_count (p : action -> bool) (x : item) : nat :=
  match x with
  | Frame (Code c) => sum_list_with (count p) c
  | Frame DispatchLoop => 0
  | Frame (Continuations ts) => sum_list_with (fun t => sum_list_with (count p) t.2) ts
  | Queued t => sum_list_with (count p) t.2
  | Parked _ k => sum_list_with (count p) k
  end.
Definition item_guarded (p : action -> bool) (P : option nat -> bool) (x : item) : nat :=
  match x with
  | Frame (Code c) => sum_list_with (guarded p P) c
  | Frame DispatchLoop => 0
  | Frame (Continuations ts) => sum_list_with (fun t => sum_list_with (guarded p P) t.2) ts
  | Queued t => sum_list_with (guarded p P) t.2
  | Parked n k => if P (Some n) then sum_list_with (count p) k else sum_list_with (guarded p P) k
  end.

Definition total (f : item -> nat) (m : machine) : nat := sum_list_with f (items m).

Lemma sum_le {A} (f g : A -> nat) l : (forall x, f x <= g x) -> sum_list_with f l <= sum_list_with g l.
Proof. intros H. induction l as [|x l IH]; simpl; [lia|]. specialize (H x). lia. Qed.

Fixpoint guarded_le p P (a : action) : guarded p P a <= count p a.
Proof.
  destruct a as [e k|n|w n|e]; cbn [guarded count]; [|lia..]. destruct (P e); [lia|].
  enough (sum_list_with (guarded p P) k <= sum_list_with (count p) k) by lia.
  induction k as [|a k IH]; cbn [sum_list_with]; [lia|]. pose proof (guarded_le p P a). lia.
Qed.

Lemma item_guarded_le p P x : item_guarded p P x <= item_count p x.
Proof.
  destruct x as [[c| |ts]|t|n k]; cbn [item_guarded item_count]; try lia; try (apply sum_le; intros ?; apply guarded_le).
  - apply sum_le. intros t. apply sum_le. apply guarded_le.
  - destruct (P (Some n)); [lia|]. apply sum_le. apply guarded_le.
Qed.

Lemma loops_total f ls : f (Frame DispatchLoop) = 0 -> loops ls -> sum_list_with f ls = 0.
Proof. intros Hf [->| ->]; simpl; lia. Qed.

Lemma parked_count p n ks :
  sum_list_with (item_count p) (map (Parked n) ks) = sum_list_with (fun t => sum_list_with (count p) t.2) (map (pair (Some n)) ks).
Proof. induction ks as [|k ks IH]; [done|]. simpl. by rewrite IH. Qed.

Lemma parked_guarded p P n ks :
  sum_list_with (fun t => sum_list_with (guarded p P) t.2) (map (pair (Some n)) ks) <= sum_list_with (item_guarded p P) (map (Parked n) ks) /\
  (P (Some n) = false -> sum_list_with (fun t => sum_list_with (guarded p P) t.2) (map (pair (Some n)) ks) = sum_list_with (item_guarded p P) (map (Parked n) ks)).
Proof.
  induction ks as [|k ks [IH1 IH2]]; [done|]. simpl. split.
  - enough (sum_list_with (guarded p P) k <= if P (Some n) then sum_list_with (count p) k else sum_list_with (guarded p P) k) by lia.
    destruct (P (Some n)); [|lia]. apply sum_le, guarded_le.
  - intros Hp. rewrite (IH2 Hp), Hp. done.
Qed.

(** What becomes of the actions with [p] in a step: the top action of a frame disappears, and the
    last arrival leaves a completion. *)
Inductive spent (m m' : machine) : option action -> option action -> Prop :=
  | spent_none : m_remaining m' = m_remaining m -> same_events m m' -> spent m m' None None
  | spent_set n : isReady m (Some n) = true -> m_remaining m' = m_remaining m -> same_events m m' -> spent m m' (Some (SetReady n)) None
  | spent_complete n : isReady m (Some n) = false -> (forall e, isReady m' e = bool_decide (e = Some n) || isReady m e) ->
      m_remaining m' = m_remaining m -> spent m m' (Some (SetReady n)) None
  | spent_wait e : m_remaining m' = m_remaining m -> same_events m m' -> spent m m' (Some (Wait e)) None
  | spent_arrive w n : m_remaining m' = <[w := u64 (m_remaining m !!! w - 1)]> (m_remaining m) -> same_events m m' ->
      spent m m' (Some (Arrive w n)) (if (m_remaining m !!! w =? 1)%Z then Some (SetReady n) else None).

Definition ocount (p : action -> bool) (a : option action) : nat := match a with Some a => count p a | None => 0 end.

Lemma change_spent m m' : change m m' -> exists old new, spent m m' old new /\
  (forall p, (forall e k, p (Subscribe e k) = false) -> total (item_count p) m' + ocount p old = total (item_count p) m + ocount p new) /\
  (forall p P, total (item_guarded p P) m' <= total (item_guarded p P) m /\
     ((forall e, P e = true -> isReady m' e = false) -> total (item_guarded p P) m' = total (item_guarded p P) m)) /\
  (forall n, (exists c, Frame (Code (SetReady n :: c)) ∈ items m) -> old = Some (SetReady n) \/ exists c, Frame (Code (SetReady n :: c)) ∈ items m') /\
  (forall n, new = Some (SetReady n) -> exists c, Frame (Code (SetReady n :: c)) ∈ items m').
Proof.
  unfold total.
  destruct 1 as [f rest H1 H2 Hf He Hr Hs Ht|e k c new rest H1 H2 Hn He Hr Hs Ht|n c rest H1 H2 Hp He Hr Hs Ht|n ks c rest H1 H2 Hp He Hr Hs Ht|
    w n c rest H1 H2 He Hr Hs Ht|e c rest H1 H2 Hp He Hr Hs Ht|t ts ls rest H1 H2 Hl He Hr Hs Ht|t rest H1 H2 He Hr Hs Ht].
  - exists None, None. split_and!; [by constructor|intros p Hp|intros p P; split; [|intros _]|intros n [c Hc]|done];
      rewrite ?H1, ?H2 in *; cbn [sum_list_with].
    + destruct Hf as [->|[->| ->]]; simpl; lia.
    + lia.
    + destruct Hf as [->|[->| ->]]; simpl; lia.
    + right. exists c. rewrite H2. rewrite elem_of_cons in Hc. destruct Hc as [[= <-]|Hc]; [|done]. destruct Hf as [?|[?|?]]; discriminate.
  - exists None, None. assert (Hg : forall f : item -> nat, f (Frame DispatchLoop) = 0 -> forall a b,
      (forall n, e = Some n -> isReady m e = false -> a <= f (Parked n k) /\ f (Parked n k) <= b) ->
      (isReady m e = true -> a <= f (Queued (e, k)) /\ f (Queued (e, k)) <= b) -> a <= sum_list_with f new /\ sum_list_with f new <= b).
    { intros f Hf a b Ha Hb. destruct Hn as [(n & -> & Hrd & ->)|(Hrd & ls & Hls & ->)]; cbn [sum_list_with].
      - specialize (Ha n eq_refl Hrd). lia.
      - rewrite (loops_total f ls Hf Hls). specialize (Hb Hrd). lia. }
    split_and!; [by constructor|intros p Hp|intros p P; split; [|intros HP]|intros n [c' Hc]|done];
      rewrite ?H1, ?H2 in *; cbn [sum_list_with]; rewrite ?sum_list_with_app; cbn [item_count item_guarded sum_list_with count guarded].
    + rewrite Hp. destruct (Hg (item_count p) eq_refl (sum_list_with (count p) k) (sum_list_with (count p) k)); simpl; lia.
    + destruct (Hg (item_guarded p P) eq_refl 0 (if P e then sum_list_with (count p) k else sum_list_with (guarded p P) k)) as [_ ?].
      * intros n -> _. simpl. destruct (P (Some n)); lia.
      * intros _. simpl. pose proof (sum_le _ _ k (guarded_le p P)). destruct (P e); lia.
      * lia.
    + destruct (Hg (item_guarded p P) eq_refl (if P e then sum_list_with (count p) k else sum_list_with (guarded p P) k)
        (if P e then sum_list_with (count p) k else sum_list_with (guarded p P) k)) as [? ?].
      * intros n -> _. simpl. destruct (P (Some n)); lia.
      * intros Hrd. destruct (P e) eqn:HPe; [|simpl; lia]. specialize (HP e HPe). rewrite He in HP. congruence.
      * lia.
    + right. exists c'. rewrite H2. rewrite elem_of_cons in Hc. destruct Hc as [?|Hc]; [discriminate|].
      apply elem_of_cons. right. apply elem_of_app. by right.
  - exists (Some (SetReady n)), None. split_and!; [by constructor|intros p _|intros p P; split; [|intros _]|intros n' [c' Hc]|done];
      rewrite ?H1, ?H2 in *; cbn [sum_list_with item_count item_guarded count guarded ocount]; [lia..|].
    rewrite elem_of_cons in Hc. destruct Hc as [[= -> _]|Hc]; [by left|right]. exists c'. rewrite H2. by right.
  - exists (Some (SetReady n)), None. split_and!; [by constructor|intros p _|intros p P; split; [|intros HP]|intros n' [c' Hc]|done];
      rewrite ?H1, ?H2 in *; cbn [sum_list_with]; rewrite ?sum_list_with_app; cbn [item_count item_guarded sum_list_with count guarded ocount].
    + rewrite parked_count. lia.
    + destruct (parked_guarded p P n ks). lia.
    + destruct (parked_guarded p P n ks) as [_ Hg]. rewrite Hg; [lia|]. destruct (P (Some n)) eqn:HPn; [|done].
      specialize (HP _ HPn). rewrite He, bool_decide_eq_true_2 in HP; done.
    + rewrite elem_of_cons, elem_of_app in Hc. destruct Hc as [[= -> _]|[Hc|Hc]]; [by left| |].
      * by apply list_elem_of_fmap in Hc as (? & ? & _).
      * right. exists c'. rewrite H2. right. by right.
  - exists (Some (Arrive w n)), (if (m_remaining m !!! w =? 1)%Z then Some (SetReady n) else None).
    split_and!; [by constructor|intros p _|intros p P; split; [|intros _]|intros n' [c' Hc]|intros n' Hn'];
      rewrite ?H1, ?H2 in *; cbn [sum_list_with item_count item_guarded count guarded ocount].
    + destruct (_ =? 1)%Z; cbn [sum_list_with count ocount]; lia.
    + destruct (_ =? 1)%Z; cbn [sum_list_with guarded]; lia.
    + destruct (_ =? 1)%Z; cbn [sum_list_with guarded]; lia.
    + rewrite elem_of_cons in Hc. destruct Hc as [?|Hc]; [discriminate|]. right. exists c'. rewrite H2. by right.
    + destruct (_ =? 1)%Z; [|done]. injection Hn' as <-. exists c. rewrite H2. by left.
  - exists (Some (Wait e)), None. split_and!; [by constructor|intros p _|intros p P; split; [|intros _]|intros n' [c' Hc]|done];
      rewrite ?H1, ?H2 in *; cbn [sum_list_with item_count item_guarded count guarded ocount]; [lia..|].
    rewrite elem_of_cons in Hc. destruct Hc as [?|Hc]; [discriminate|right]. exists c'. rewrite H2. by right.
  - exists None, None. split_and!; [by constructor|intros p _|intros p P; split; [|intros _]|intros n' [c' Hc]|done];
      rewrite ?H1, ?H2 in *; cbn [sum_list_with]; rewrite ?sum_list_with_app, ?(loops_total _ ls) by done;
      cbn [item_count item_guarded sum_list_with ocount]; [lia..|].
    rewrite elem_of_cons in Hc. destruct Hc as [?|Hc]; [discriminate|right]. exists c'. rewrite H2. right. right. apply elem_of_app. by right.
  - exists None, None. split_and!; [by constructor|intros p _|intros p P; split; [|intros _]|intros n' [c' Hc]|done];
      rewrite ?H1, ?H2 in *; cbn [sum_list_with item_count item_guarded ocount]; [lia..|].
    rewrite !elem_of_cons in Hc. destruct Hc as [?|[?|Hc]]; [discriminate..|right]. exists c'. rewrite H2. right. by right.
Qed.

Definition is_arrive (w : nat) (a : action) : bool := match a with Arrive w' _ => (w' =? w)%nat | _ => false end.
Definition is_set (n : nat) (a : action) : bool := match a with SetReady n' => (n' =? n)%nat | _ => false end.
(** Arrivals that mix the counter [w] with another event, or the event [n] with another counter. *)
Definition is_foreign (w n : nat) (a : action) : bool := match a with Arrive w' n' => xorb (w' =? w)%nat (n' =? n)%nat | _ => false end.

Section whenAll.
Context (w n : nat) (G : (option nat -> bool) -> nat).

#[local] Abbreviation arrivals m := (total (item_count (is_arrive w)) m).
#[local] Abbreviation sets m := (total (item_count (is_set n)) m).

Record whenAll_ok (m : machine) : Prop := {
  wa_log : log_ok m;
  wa_count : m_remaining m !! w = Some (Z.of_nat (arrivals m));
  wa_bound : (Z.of_nat (arrivals m) < 2 ^ 64)%Z;
  wa_foreign : total (item_count (is_foreign w n)) m = 0;
  wa_done : isReady m (Some n) = true \/ sets m <> 0 -> arrivals m = 0;
  wa_fire : isReady m (Some n) = true \/ arrivals m <> 0 \/ exists c, Frame (Code (SetReady n :: c)) ∈ items m;
  wa_guard : forall P, total (item_guarded (is_arrive w) P) m <= G P /\
    ((forall e, P e = true -> isReady m e = false) -> total (item_guarded (is_arrive w) P) m = G P)
}.

Lemma whenAll_ok_step m m' : whenAll_ok m -> machine_step m m' -> whenAll_ok m'.
Proof.
  intros [Hlog Hcnt Hbd Hfor Hdone Hfire Hg] Hstep. pose proof (log_ok_step m m' Hlog Hstep) as Hlog'.
  destruct Hstep as [i Hi]. destruct (change_step i m m' (log_handed m Hlog) Hi) as [Hc _].
  pose proof (ready_mono m m' Hc) as Hmono.
  destruct (change_spent m m' Hc) as (old & new & Hsp & Hct & Hgd & Htop & Hnew).
  pose proof (Hct (is_arrive w) (fun _ _ => eq_refl)) as Ha. pose proof (Hct (is_set n) (fun _ _ => eq_refl)) as Hs.
  pose proof (Hct (is_foreign w n) (fun _ _ => eq_refl)) as Hf. clear Hct Hc Hi.
  assert (Hg' : forall P, total (item_guarded (is_arrive w) P) m' <= G P /\
    ((forall e, P e = true -> isReady m' e = false) -> total (item_guarded (is_arrive w) P) m' = G P)).
  { intros P. destruct (Hg P) as [G1 G2], (Hgd (is_arrive w) P) as [G3 G4]. split; [lia|]. intros HP. rewrite G4 by done. apply G2.
    intros e He. specialize (HP e He). destruct (isReady m e) eqn:Hr; [|done]. by rewrite (Hmono e Hr) in HP. }
  clear Hg Hgd. destruct Hsp as [Hr He|k Hk Hr He|k Hk He Hr|e Hr He|w' n' Hr He]; simpl in Ha, Hs, Hf; rewrite ?Nat.add_0_r in Ha, Hs, Hf.
  - constructor; try done; try (by rewrite ?Hr, ?He, ?Ha, ?Hs, ?Hf).
    rewrite He, Ha. destruct Hfire as [?|[?|Hx]]; [by left|by right; left|right; right].
    destruct (Htop n Hx) as [?|?]; [discriminate|done].
  - constructor; try done; try (by rewrite ?Hr, ?He, ?Ha, ?Hf); rewrite He, Ha.
    + intros Hx. apply Hdone. destruct Hx as [?|?]; [by left|right; lia].
    + destruct Hfire as [?|[?|Hx]]; [by left|by right; left|]. destruct (Htop n Hx) as [[= ->]|?]; [by left|by right; right].
  - constructor; try done; try (by rewrite ?Hr, ?Ha, ?Hf); rewrite He, Ha.
    + intros Hx. apply Hdone. destruct Hx as [Hx|?]; [|right; lia]. apply orb_true_iff in Hx as [Hx%bool_decide_eq_true|?]; [|by left].
      injection Hx as ->. right. rewrite Nat.eqb_refl in Hs. lia.
    + destruct Hfire as [Hx|[?|Hx]]; [by left; rewrite Hx, orb_true_r|by right; left|].
      destruct (Htop n Hx) as [[= ->]|?]; [left; by rewrite bool_decide_eq_true_2|by right; right].
  - constructor; try done; try (by rewrite ?Hr, ?He, ?Ha, ?Hs, ?Hf).
    rewrite He, Ha. destruct Hfire as [?|[?|Hx]]; [by left|by right; left|right; right].
    destruct (Htop n Hx) as [?|?]; [discriminate|done].
  - assert (Hnew0 : ocount (is_arrive w) (if (m_remaining m !!! w' =? 1)%Z then Some (SetReady n') else None) = 0) by (by destruct (_ =? 1)%Z).
    assert (Hnew1 : ocount (is_foreign w n) (if (m_remaining m !!! w' =? 1)%Z then Some (SetReady n') else None) = 0) by (by destruct (_ =? 1)%Z).
    rewrite Hnew0 in Ha. rewrite Hnew1 in Hf. destruct (Nat.eqb_spec w' w) as [->|Hww]; destruct (Nat.eqb_spec n' n) as [->|Hnn]; simpl in Hf; try lia.
    + rewrite (list_lookup_total_correct _ _ _ Hcnt) in Hr, Hs, Hnew. constructor; try done; try lia.
      * rewrite Hr, list_lookup_insert_eq by (by apply lookup_lt_Some in Hcnt). f_equal. rewrite u64_small by lia. lia.
      * intros Hx. rewrite He in Hx. destruct (Z.eqb_spec (Z.of_nat (arrivals m)) 1) as [H1|H1]; [lia|]. simpl in Hs.
        enough (arrivals m = 0) by lia. apply Hdone. destruct Hx as [?|?]; [by left|right; lia].
      * destruct (Z.eqb_spec (Z.of_nat (arrivals m)) 1) as [H1|H1]; [|right; left; lia]. right. right. by apply Hnew.
    + assert (Hset0 : ocount (is_set n) (if (m_remaining m !!! w' =? 1)%Z then Some (SetReady n') else None) = 0).
      { destruct (_ =? 1)%Z; [|done]. simpl. by rewrite (proj2 (Nat.eqb_neq n' n)). }
      rewrite Hset0 in Hs. rewrite !Nat.add_0_r in *. constructor; try done; try (by rewrite ?He, ?Ha, ?Hs, ?Hf).
      * by rewrite Hr, list_lookup_insert_ne, Ha by done.
      * rewrite He, Ha. destruct Hfire as [?|[?|Hx]]; [by left|by right; left|right; right].
        destruct (Htop n Hx) as [?|?]; [discriminate|done].
Qed.

Lemma whenAll_fires m e : whenAll_ok m -> isReady m (Some n) = true -> G (fun e' => bool_decide (e' = e)) <> 0 -> isReady m e = true.
Proof.
  intros Hok Hr HG. destruct (isReady m e) eqn:He; [done|]. exfalso. apply HG.
  destruct (wa_guard m Hok (fun e' => bool_decide (e' = e))) as [_ <-].
  - pose proof (wa_done m Hok (or_introl Hr)). enough (total (item_guarded (is_arrive w) (fun e' => bool_decide (e' = e))) m <= arrivals m) by lia.
    apply sum_le. apply item_guarded_le.
  - intros e' ->%bool_decide_eq_true. done.
Qed.

Lemma whenAll_ends m (es : list (option nat)) : whenAll_ok m -> threads_ok m -> Forall (fun th => stack th = []) (threads m) ->
  G (fun e => bool_decide (e ∉ es)) = 0 -> (forall e, e ∈ es -> isReady m e = true) -> isReady m (Some n) = true.
Proof.
  intros Hok Hth Hend HG Hes. destruct (wa_fire m Hok) as [?|[Ha|[c Hc]]]; [done| |].
  - exfalso. destruct (wa_guard m Hok (fun e => bool_decide (e ∉ es))) as [Hle _]. rewrite HG in Hle. apply Ha.
    unfold total in *. assert (Hsub : forall x, x ∈ items m -> exists n k, x = Parked n k /\ isReady m (Some n) = false).
    { intros x Hx. destruct (ended_items m Hth Hend x Hx) as (k & c & ->). exists k, c. split; [done|].
      by eapply parked_pending; [apply (log_handed m), (wa_log m Hok)|]. }
    clear -Hle Hsub Hes. induction (items m) as [|x l IH]; [done|]. cbn [sum_list_with] in *.
    rewrite IH; [|lia|intros y Hy; apply Hsub; by right]. destruct (Hsub x) as (k & c & -> & Hk); [by left|].
    cbn [item_guarded item_count] in *. destruct (decide (Some k ∈ es)) as [Hin|Hni]; [by rewrite (Hes _ Hin) in Hk|].
    rewrite bool_decide_eq_true_2 in Hle by done. lia.
  - destruct (ended_items m Hth Hend _ Hc) as (? & ? & ?). discriminate.
Qed.
End whenAll.

(** A closure that does not touch the state of a join. *)
Definition touches (w n : nat) (a : action) : bool := is_arrive w a || is_set n a || is_foreign w n a.
Definition private (w n : nat) (c : code) : bool := (sum_list_with (count (touches w n)) c =? 0)%nat.

Fixpoint count_mono (p q : action -> bool) (Hpq : forall a, p a = true -> q a = true) (a : action) : count p a <= count q a.
Proof.
  assert (Hd : (if p a then 1 else 0) <= (if q a then 1 else 0)).
  { destruct (p a) eqn:Hp; [by rewrite (Hpq a Hp)|lia]. }
  destruct a as [e k|n|w n|e]; cbn [count]; [|lia..].
  enough (sum_list_with (count p) k <= sum_list_with (count q) k) by lia.
  clear Hd. induction k as [|a k IH]; cbn [sum_list_with]; [lia|]. pose proof (count_mono p q Hpq a). lia.
Qed.

Lemma private_count w n c p : private w n c = true -> (forall a, p a = true -> touches w n a = true) -> sum_list_with (count p) c = 0.
Proof.
  intros Hp%Nat.eqb_eq Hle. pose proof (sum_le (count p) (count (touches w n)) c (count_mono _ _ Hle)). lia.
Qed.

Lemma private_guarded w n c p P : private w n c = true -> (forall a, p a = true -> touches w n a = true) -> sum_list_with (guarded p P) c = 0.
Proof. intros Hp Hle. pose proof (private_count w n c p Hp Hle). pose proof (sum_le _ _ c (guarded_le p P)). lia. Qed.

Lemma init_total nevents counters programs f :
  total f (machine_init nevents counters programs) = sum_list_with (fun p => f (Frame (Code p))) programs.
Proof. unfold total. rewrite init_items. induction programs as [|p ps IH]; [done|]. simpl. by rewrite IH. Qed.

(** The calls of a join among private ones. *)
Lemma join_total nevents counters w n (es : list (option nat)) before after others (f : action -> nat) (g : item -> nat) :
  (forall c, g (Frame (Code c)) = sum_list_with f c) ->
  Forall (fun c => sum_list_with f c = 0) (before :: after :: others) ->
  total g (machine_init nevents counters ((before ++ map (fun e => Subscribe e [Arrive w n]) es ++ after) :: others)) =
  sum_list_with (fun e => f (Subscribe e [Arrive w n])) es.
Proof.
  intros Hg Hp. rewrite init_total. cbn [sum_list_with]. rewrite Hg, !sum_list_with_app.
  apply list.Forall_cons in Hp as [-> Hp]. apply list.Forall_cons in Hp as [-> Hp].
  replace (sum_list_with _ others) with 0.
  - enough (sum_list_with f (map (fun e => Subscribe e [Arrive w n]) es) = sum_list_with (fun e => f (Subscribe e [Arrive w n])) es) by lia.
    induction es as [|e es IH]; [done|]. simpl. by rewrite IH.
  - induction others as [|c cs IH]; [done|]. apply list.Forall_cons in Hp as [Hc Hp]. cbn [sum_list_with]. rewrite Hg, Hc. by rewrite <-IH.
Qed.

(** [whenAll] joins its events.  The event it returns is ready only when all of the events are, in
    whatever order threads complete them and run the arrivals; and once all threads have ended with
    all events ready, it is ready.  The state of the join is private, as it is behind a shared pointer no other code
    has; the empty join is ready, the join of one event is that event. *)
Theorem whenAll_joins nevents counters w n es before after others m :
  let (e, calls) := whenAll w n es in
  n < nevents -> counters !! w = Some (Z.of_nat (length es)) -> (Z.of_nat (length es) < 2 ^ 64)%Z ->
  Forall (fun c => private w n c = true) (before :: after :: others) ->
  rtc machine_step (machine_init nevents counters ((before ++ calls ++ after) :: others)) m ->
  (isReady m e = true -> forall e', e' ∈ es -> isReady m e' = true) /\
  (Forall (fun th => stack th = []) (threads m) -> (forall e', e' ∈ es -> isReady m e' = true) -> isReady m e = true).
Proof.
  destruct es as [|e1 [|e2 es']] eqn:Hes; cbn [whenAll].
  { intros _ _ _ _ _. split; [by intros _ e' ?%elem_of_nil|done]. }
  { intros _ _ _ _ _. split; [by intros Hr e' ->%list_elem_of_singleton|]. intros _ Hr. apply Hr. by left. }
  rewrite <-Hes. assert (Hne : length es <> 0) by (by rewrite Hes). clear Hes. intros Hn Hw Hlt Hp Hrun.
  set (m0 := machine_init _ _ _) in Hrun.
  assert (Hz : forall p, (forall a, p a = true -> touches w n a = true) ->
    Forall (fun c => sum_list_with (count p) c = 0) (before :: after :: others)).
  { intros p Hpt. eapply list.Forall_impl; [exact Hp|]. intros c Hc. exact (private_count w n c p Hc Hpt). }
  assert (Hzg : forall P, Forall (fun c => sum_list_with (guarded (is_arrive w) P) c = 0) (before :: after :: others)).
  { intros P. eapply list.Forall_impl; [exact Hp|]. intros c Hc. eapply private_guarded; [exact Hc|]. intros a. unfold touches. by intros ->. }
  assert (Harr : total (item_count (is_arrive w)) m0 = length es).
  { unfold m0. rewrite (join_total _ _ _ _ _ _ _ _ (count (is_arrive w))); [|done|apply Hz; unfold touches; by intros a ->].
    clear. simpl. rewrite Nat.eqb_refl. induction es as [|e l IH]; [done|]. simpl in *. by rewrite IH. }
  assert (Hsets : total (item_count (is_set n)) m0 = 0).
  { unfold m0. rewrite (join_total _ _ _ _ _ _ _ _ (count (is_set n))); [|done|apply Hz; unfold touches; intros a ->; by rewrite orb_true_r].
    clear. simpl. by induction es. }
  assert (Hfor : total (item_count (is_foreign w n)) m0 = 0).
  { unfold m0. rewrite (join_total _ _ _ _ _ _ _ _ (count (is_foreign w n))); [|done|apply Hz; unfold touches; intros a ->; by rewrite orb_true_r].
    clear. simpl. rewrite !Nat.eqb_refl. by induction es. }
  set (G := fun P => total (item_guarded (is_arrive w) P) m0).
  assert (HG : forall P, G P = sum_list_with (fun e => if P e then 1 else 0) es).
  { intros P. unfold G, m0. rewrite (join_total _ _ _ _ _ _ _ _ (guarded (is_arrive w) P)); [|done|apply Hzg].
    simpl. by rewrite Nat.eqb_refl. }
  assert (Hn0 : isReady m0 (Some n) = false).
  { unfold m0, machine_init. simpl. by rewrite lookup_replicate_2. }
  destruct (eager_init_ok nevents counters ((before ++ map (fun e => Subscribe e [Arrive w n]) es ++ after) :: others)) as [Hl0 Ht0].
  assert (Hok0 : whenAll_ok w n G m0).
  { constructor; try done.
    - by rewrite Harr.
    - by rewrite Harr.
    - rewrite Hn0, Hsets. by intros [?|?].
    - right. left. by rewrite Harr. }
  assert (Hok : whenAll_ok w n G m) by (apply (preserved_rtc machine_step _ _ _ (fun x y => whenAll_ok_step w n G x y) Hok0 Hrun)).
  assert (Hth : threads_ok m) by (apply (preserved_rtc machine_step _ _ _ (fun x y => threads_ok_step x y) Ht0 Hrun)).
  split.
  - intros Hr e' He'. apply (whenAll_fires w n G m e' Hok Hr). rewrite HG. clear -He'. induction He' as [e l|e e'' l _ IH]; simpl.
    + rewrite bool_decide_eq_true_2 by done. lia.
    + lia.
  - intros Hend Hr. apply (whenAll_ends w n G m es Hok Hth Hend); [|done]. rewrite HG.
    assert (Hs : forall l, (forall e, e ∈ l -> e ∈ es) -> sum_list_with (fun e => if bool_decide (e ∉ es) then 1 else 0) l = 0); [|by apply Hs].
    induction l as [|e l IH]; intros Hl; [done|]. simpl. rewrite IH; [|intros e' He'; apply Hl; by right].
    rewrite bool_decide_eq_false_2; [done|]. intros Hni. apply Hni, Hl. by left.
Qed.

(** Two events completed by two threads after the join has subscribed to them. *)
Lemma whenAll_joins_witness :
  let programs := [(whenAll 0 2 [Some 0; Some 1]).2; [SetReady 1]; [SetReady 0]] in
  exists m, rtc machine_step (machine_init 3 [2%Z] programs) m /\ isReady m (Some 2) = true /\ isReady m (Some 0) = true /\ isReady m (Some 1) = true.
Proof.
  intros programs.
  assert (Hrun : exists m, run ([0; 0; 0] ++ replicate 8 1 ++ replicate 10 2) (machine_init 3 [2%Z] programs) = Some m /\
    isReady m (Some 2) = true) by (eexists; split; [vm_compute; reflexivity|reflexivity]).
  destruct Hrun as (m & Hm & Hs). exists m. pose proof (run_sound _ _ _ Hm) as Hr.
  split; [exact Hr|]. split; [exact Hs|].
  destruct (whenAll_joins 3 [2%Z] 0 2 [Some 0; Some 1] [] [] [[SetReady 1]; [SetReady 0]] m) as [H _];
    [lia|reflexivity|vm_compute; reflexivity|repeat constructor|exact Hr|].
  split; apply (H Hs); [by left|right; by left].
Defined.
