(* ===== verification/AsyncScope.v ===== *)
(** * Asynchronous scopes

    Models [AsyncScopeState], [AsyncScope] and the receivers of spawned operations of
    caravan/core/async_scope.hpp.  A step is a critical section of the scope's mutex or a call between two
    of them; spawned operations complete on any thread.  The event [join] returns is a flag here, [Eager]
    says what it does to its continuations. *)
From Stdlib Require Import ZArith Lia.
From stdpp Require Import base list numbers relations strings.
From S2P Require Import Prelude Transition Outcome.

Inductive AsyncScopeStatus : Type := open | joining | joined.

#[global] Instance AsyncScopeStatus_eq_dec : EqDecision AsyncScopeStatus.
Proof. solve_decision. Defined.

Record AsyncScopeState : Type := mkScope { m_operations : nat; m_status : AsyncScopeStatus }.

Definition AsyncScopeState_init : AsyncScopeState := mkScope 0 open.

(** The critical sections.  [complete] and [join] also say whether they go on to [m_joined.setReady()]. *)
Definition reserve : Host AsyncScopeState unit :=
  s ← get_state;
  if decide (m_status s <> open) then throw logic_error "Cannot spawn into a joined Caravan async scope"
  else modify (fun s => mkScope (S (m_operations s)) (m_status s)).

Definition scope_complete (s : AsyncScopeState) : bool * AsyncScopeState :=
  let operations := m_operations s - 1 in
  let isJoined := bool_decide (m_status s = joining) && (operations =? 0)%nat in
  (isJoined, mkScope operations (if isJoined then joined else m_status s)).

Definition scope_join (s : AsyncScopeState) : bool * AsyncScopeState :=
  let status := if decide (m_status s = open) then joining else m_status s in
  let isJoined := (m_operations s =? 0)%nat in
  (isJoined, mkScope (m_operations s) (if isJoined then joined else status)).

(** [~AsyncScope]. *)
Definition AsyncScope_destroy (s : AsyncScopeState) : outcome unit :=
  if decide (m_status s <> joined) then Abort "std::terminate" else Ret tt.

(** ** Spawned operations *)

(** Where a spawned operation is: running, in its receiver after [output.setReady()], and after
    [owner.destroy] but before [scope->complete()]. *)
Inductive spawned : Type := Running | OutputSet | Destroyed.

#[global] Instance spawned_eq_dec : EqDecision spawned.
Proof. solve_decision. Defined.

(** A scope with its operations, the threads about to call [m_joined.setReady()], and whether that
    event is ready.  [outputs] counts the operations whose output has been set, [spawns] the
    successful ones; [joins] tells whether [join] has been called. *)
Record scope : Type := mkScopeSystem {
  state : AsyncScopeState;
  operations : list spawned;
  settling : nat;
  joined_ready : bool;
  spawns : nat;
  outputs : nat;
  joins : bool
}.

Definition scope_init : scope := mkScopeSystem AsyncScopeState_init [] 0 false 0 0 false.

Inductive scope_step : scope -> scope -> Prop :=
  | scope_spawn s ops set r n o j s' :
      reserve s = (Ret tt, s') ->
      scope_step (mkScopeSystem s ops set r n o j) (mkScopeSystem s' (ops ++ [Running]) set r (S n) o j)
  | scope_spawn_throws s ops set r n o j e what s' :
      reserve s = (Throw e what, s') ->
      scope_step (mkScopeSystem s ops set r n o j) (mkScopeSystem s' ops set r n o j)
  | scope_output s before after set r n o j :
      scope_step (mkScopeSystem s (before ++ Running :: after) set r n o j) (mkScopeSystem s (before ++ OutputSet :: after) set r n (S o) j)
  | scope_destroy s before after set r n o j :
      scope_step (mkScopeSystem s (before ++ OutputSet :: after) set r n o j) (mkScopeSystem s (before ++ Destroyed :: after) set r n o j)
  | scope_completes s before after set r n o j last s' :
      scope_complete s = (last, s') ->
      scope_step (mkScopeSystem s (before ++ Destroyed :: after) set r n o j)
                 (mkScopeSystem s' (before ++ after) (if last then S set else set) r n o j)
  | scope_joins s ops set r n o j last s' :
      scope_join s = (last, s') ->
      scope_step (mkScopeSystem s ops set r n o j) (mkScopeSystem s' ops (if last then S set else set) r n o true)
  | scope_settles s ops set r n o j :
      scope_step (mkScopeSystem s ops (S set) r n o j) (mkScopeSystem s ops set true n o j).

(** ** The count and the status *)

Definition running (ops : list spawned) : nat := length (filter (eq Running) ops).

Lemma running_app before after x :
  running (before ++ x :: after) = running before + (match x with Running => 1 | _ => 0 end) + running after.
Proof.
  unfold running. rewrite filter_app, length_app, filter_cons. destruct x; [rewrite decide_True by done|rewrite decide_False by done..]; simpl; lia.
Qed.

Lemma running_snoc ops x : running (ops ++ [x]) = running ops + match x with Running => 1 | _ => 0 end.
Proof. rewrite running_app. unfold running. simpl. lia. Qed.

Lemma running_both before after : running (before ++ after) = running before + running after.
Proof. unfold running. by rewrite filter_app, length_app. Qed.

Record scope_ok (x : scope) : Prop := {
  so_count : m_operations (state x) = length (operations x);
  so_joined : m_status (state x) = joined -> operations x = [];
  so_joining : m_status (state x) = joining -> operations x <> [];
  so_open : m_status (state x) = open <-> joins x = false;
  so_event : (0 < settling x \/ joined_ready x = true) <-> m_status (state x) = joined;
  so_outputs : outputs x + running (operations x) = spawns x
}.

Lemma app_cons_ne_nil {A} (l k : list A) x : l ++ x :: k <> [].
Proof. by destruct l. Qed.

Lemma scope_ok_step : preserved scope_step scope_ok.
Proof.
  intros x y [Hc Hj Hg Ho He Hn] Hstep.
  destruct Hstep as [s ops set r n o j s' Hr|s ops set r n o j e what s' Hr|s before after set r n o j|s before after set r n o j|
    s before after set r n o j last s' Hs|s ops set r n o j last s' Hs|s ops set r n o j];
    cbn [state operations settling joined_ready spawns outputs joins] in *.
  - unfold reserve, mbind, Host_bind, get_state in Hr. destruct (decide (m_status s <> open)) as [Hs|Hs]; [discriminate|].
    apply dec_stable in Hs. injection Hr as <-. constructor; cbn [state operations settling joined_ready spawns outputs joins m_operations m_status].
    + rewrite length_app. simpl. lia.
    + by rewrite Hs.
    + by rewrite Hs.
    + done.
    + done.
    + rewrite running_snoc. lia.
  - unfold reserve, mbind, Host_bind, get_state in Hr. destruct (decide (m_status s <> open)) as [Hs|Hs]; [|discriminate].
    injection Hr as _ _ <-. by constructor.
  - constructor; try done; cbn [state operations settling joined_ready spawns outputs joins].
    + rewrite Hc, !length_app. done.
    + intros Hs. by destruct (app_cons_ne_nil _ _ _ (Hj Hs)).
    + intros _. apply app_cons_ne_nil.
    + rewrite ?running_app, ?running_both in *. lia.
  - constructor; try done; cbn [state operations settling joined_ready spawns outputs joins].
    + rewrite Hc, !length_app. done.
    + intros Hs. by destruct (app_cons_ne_nil _ _ _ (Hj Hs)).
    + intros _. apply app_cons_ne_nil.
    + rewrite ?running_app, ?running_both in *. lia.
  - rewrite length_app in Hc. simpl in Hc. unfold scope_complete in Hs. injection Hs as <- <-.
    assert (Hnj : m_status s <> joined) by (intros Hs; by destruct (app_cons_ne_nil _ _ _ (Hj Hs))).
    assert (Hlen : m_operations s - 1 = length (before ++ after)) by (rewrite length_app; lia). rewrite Hlen.
    destruct (bool_decide (m_status s = joining) && (length (before ++ after) =? 0)%nat) eqn:Hb;
      constructor; cbn [state operations settling joined_ready spawns outputs joins m_operations m_status]; try done.
    + apply andb_prop in Hb as [_ Hb%Nat.eqb_eq]. intros _. by apply nil_length_inv.
    + apply andb_prop in Hb as [Hb%bool_decide_eq_true _]. split; [discriminate|]. intros Hf. apply Ho in Hf. congruence.
    + split; [done|]. intros _. left. lia.
    + rewrite ?running_app, ?running_both in *. lia.
    + intros Hs Hnil. apply andb_false_iff in Hb as [Hb%bool_decide_eq_false|Hb%Nat.eqb_neq]; [done|]. apply Hb. by rewrite Hnil.
    + rewrite ?running_app, ?running_both in *. lia.
  - unfold scope_join in Hs. injection Hs as <- <-. rewrite Hc.
    destruct (Nat.eqb_spec (length ops) 0) as [Hz|Hz]; constructor; cbn [state operations settling joined_ready spawns outputs joins m_operations m_status]; try done.
    + intros _. by apply nil_length_inv.
    + split; [done|]. intros _. left. lia.
    + intros Hs. destruct (decide _); [discriminate|]. by rewrite (Hj Hs) in Hz.
    + intros _ Hnil. by rewrite Hnil in Hz.
    + destruct (decide _); [done|]. split; [done|]. intros [=].
    + rewrite He. destruct (decide (m_status s = open)) as [Hs|Hs]; [rewrite Hs|done]. split; discriminate.
  - constructor; try done; cbn [state operations settling joined_ready spawns outputs joins].
    rewrite <-He. split; [intros _; left; lia|]. intros _. by right.
Qed.

Lemma scope_reachable x : rtc scope_step scope_init x -> scope_ok x.
Proof.
  apply preserved_rtc; [apply scope_ok_step|]. constructor; simpl; try done. split; [intros [?|?]; [lia|done]|done].
Qed.

(** A scope that has been closed stays closed. *)
Lemma scope_closed x y : rtc scope_step x y -> m_status (state x) <> open -> spawns y = spawns x /\ m_status (state y) <> open.
Proof.
  induction 1 as [x|x y z Hxy _ IH]; [done|]. intros Hx.
  enough (spawns y = spawns x /\ m_status (state y) <> open) as [Hs Ho] by (destruct (IH Ho) as [-> ?]; done).
  destruct Hxy as [s ops set r n o j s' Hr|s ops set r n o j e what s' Hr| | |s before after set r n o j last s' Hs|s ops set r n o j last s' Hs|];
    cbn [state spawns] in *; try done.
  - unfold reserve, mbind, Host_bind, get_state in Hr. destruct (decide (m_status s <> open)); done.
  - unfold reserve, mbind, Host_bind, get_state in Hr. destruct (decide (m_status s <> open)); [by injection Hr as _ _ <-|done].
  - unfold scope_complete in Hs. injection Hs as _ <-. simpl. by destruct (_ && _).
  - unfold scope_join in Hs. injection Hs as _ <-. simpl. destruct (_ =? _)%nat; [done|]. by destruct (decide _).
Qed.

(** Joined means: [join] has been called and there is no operation left. *)
Lemma scope_joined_iff x : scope_ok x -> m_status (state x) = joined <-> joins x = true /\ operations x = [].
Proof.
  intros Hok. destruct (m_status (state x)) eqn:Hs.
  - apply (so_open x Hok) in Hs. rewrite Hs. naive_solver.
  - pose proof (so_joining x Hok Hs). naive_solver.
  - split; [intros _|done]. split; [|by apply (so_joined x)].
    destruct (joins x) eqn:Hj; [done|]. apply (so_open x Hok) in Hj. congruence.
Qed.

(** What holds once the event is ready holds from then on. *)
Lemma scope_joined_stays x y :
  rtc scope_step x y -> scope_ok x -> joined_ready x = true ->
  spawns y = spawns x /\ operations y = [] /\ joined_ready y = true.
Proof.
  intros Hxy Hok Hr. assert (Hj : m_status (state x) = joined) by (apply (so_event x Hok); by right).
  split; [apply (scope_closed x y Hxy); by rewrite Hj|]. clear Hj.
  induction Hxy as [x|x y z Hxy _ IH].
  - split; [|done]. apply (so_joined x Hok), (so_event x Hok). by right.
  - apply IH; [by eapply scope_ok_step|]. by destruct Hxy.
Qed.

(** C33: joining a scope.  The event of [join] is ready, or a thread is about to set it, exactly when [join] has been
    called and every spawned operation has been destroyed; until [join] is called every spawn succeeds, however many
    operations have come and gone, and from then on every spawn throws; destroying the scope terminates the process
    unless it is joined and empty.  When the event is ready every operation that was ever spawned has set its
    output, and it all stays so.  No completion is lost: once [join] has been called, all operations have
    completed and the threads between them are through, the event is ready. *)
Theorem async_scope_joins x :
  rtc scope_step scope_init x ->
  (0 < settling x \/ joined_ready x = true <-> joins x = true /\ operations x = []) /\
  fst (reserve (state x)) =
    (if joins x then Throw logic_error "Cannot spawn into a joined Caravan async scope" else Ret tt) /\
  AsyncScope_destroy (state x) =
    (if joins x && (length (operations x) =? 0)%nat then Ret tt else Abort "std::terminate") /\
  (joined_ready x = true -> operations x = [] /\ outputs x = spawns x /\
     forall y, rtc scope_step x y -> spawns y = spawns x /\ operations y = [] /\ joined_ready y = true) /\
  (joins x = true -> operations x = [] -> settling x = 0 -> joined_ready x = true).
Proof.
  intros Hrun. pose proof (scope_reachable x Hrun) as Hok. pose proof (scope_joined_iff x Hok) as Hiff. split_and!.
  - by rewrite (so_event x Hok).
  - unfold reserve, mbind, Host_bind, get_state. destruct (joins x) eqn:Hj.
    + rewrite decide_True; [done|]. intros Ho%(so_open x Hok). congruence.
    + rewrite decide_False; [done|]. intros Hn. by apply Hn, (so_open x Hok).
  - unfold AsyncScope_destroy. destruct (joins x && _) eqn:Hb.
    + apply andb_prop in Hb as [Hj Hl%Nat.eqb_eq%nil_length_inv]. rewrite decide_False; [done|]. intros Hn. apply Hn. by apply Hiff.
    + rewrite decide_True; [done|]. intros [Hj Hops]%Hiff. by rewrite Hj, Hops in Hb.
  - intros Hr. pose proof (proj1 (so_event x Hok) (or_intror Hr)) as Hj. pose proof (so_joined x Hok Hj) as Hops.
    pose proof (so_outputs x Hok) as Ho. rewrite Hops in Ho. unfold running in Ho. simpl in Ho. split_and!; [done|lia|].
    intros y Hxy. by apply (scope_joined_stays x y).
  - intros Hj Hops Hz. assert (Hs : m_status (state x) = joined) by (by apply Hiff).
    apply (so_event x Hok) in Hs as [?|?]; [lia|done].
Qed.

(** A scope joined while an operation runs. *)
Lemma async_scope_joins_witness : exists x,
  rtc scope_step scope_init x /\ operations x = [Destroyed] /\ joined_ready x = false /\ AsyncScope_destroy (state x) = Abort "std::terminate".
Proof.
  eexists. assert (Hrun : rtc scope_step scope_init (mkScopeSystem (mkScope 1 joining) [Destroyed] 0 false 1 1 true)).
  { eapply rtc_l; [by apply scope_spawn|]. eapply rtc_l; [by apply (scope_joins _ _ _ _ _ _ _ false)|].
    eapply rtc_l; [apply (scope_output _ [] [])|]. eapply rtc_l; [apply (scope_destroy _ [] [])|]. apply rtc_refl. }
  split; [exact Hrun|]. split; [reflexivity|]. split; [reflexivity|].
  destruct (async_scope_joins _ Hrun) as (_ & _ & H & _). exact H.
Defined.
