(* ===== verification/ControlLoop.v ===== *)
(** * The control loop

    Models [RunLoop] of caravan/core/run_loop.hpp and [ControlContext::wait] of
    caravan/core/control_context.hpp.  A run loop is a queue of tasks that whoever calls it executes;
    [wait] executes tasks until an event is ready, and has the event post an empty task so that it does
    not sleep through it.  The polling before a blocking wait only spends time and is left out. *)
From Stdlib Require Import ZArith Lia.
From stdpp Require Import base list numbers relations strings.
From S2P Require Import Prelude Transition Outcome.

(** ** The run loop *)

Section loop.
Context {T : Type}.

Record RunLoop : Type := mkRunLoop { m_tasks : list T; m_finished : bool }.

Definition RunLoop_init : RunLoop := mkRunLoop [] false.

Definition post (function : T) : Host RunLoop unit :=
  l ← get_state;
  if m_finished l then throw logic_error "Cannot post to a finished Caravan run loop"
  else modify (fun l => mkRunLoop (m_tasks l ++ [function]) (m_finished l)).

Definition finish : Host RunLoop unit := modify (fun l => mkRunLoop (m_tasks l) true).

(** The critical section of [runOne]: blocked, over, or the task to execute. *)
Inductive next_task : Type := Blocked | Over | Execute (task : T).
Definition runOne (l : RunLoop) : next_task * RunLoop :=
  match m_tasks l with
  | [] => (if m_finished l then Over else Blocked, l)
  | task :: tasks => (Execute task, mkRunLoop tasks (m_finished l))
  end.

(** What is posted while a task runs, by itself or by other threads, may depend on how many ran before. *)
Context (posted : nat -> T -> list T).

Definition post_all (tasks : list T) (l : RunLoop) : RunLoop :=
  foldl (fun l t => snd (post t l)) l tasks.

Fixpoint runReady_loop (ready : nat) (executed : list T) (l : RunLoop) : list T * RunLoop :=
  match ready with
  | 0 => (executed, l)
  | S ready =>
      match m_tasks l with
      | [] => (executed, l)
      | task :: tasks =>
          let l := post_all (posted (length executed) task) (mkRunLoop tasks (m_finished l)) in
          runReady_loop ready (executed ++ [task]) l
      end
  end.
Definition runReady (l : RunLoop) : list T * RunLoop := runReady_loop (length (m_tasks l)) [] l.

Lemma post_all_spec tasks l :
  post_all tasks l = mkRunLoop (m_tasks l ++ if m_finished l then [] else tasks) (m_finished l).
Proof.
  revert l. induction tasks as [|t ts IH]; intros [q f]; simpl; [destruct f; by rewrite app_nil_r|].
  change (post_all ts (snd (post t (mkRunLoop q f))) = mkRunLoop (q ++ if f then [] else t :: ts) f).
  rewrite IH. destruct f; simpl; [done|]. by rewrite <-app_assoc.
Qed.

(** What the tasks of a snapshot post. *)
Fixpoint posts (n : nat) (tasks : list T) : list T :=
  match tasks with [] => [] | t :: ts => posted n t ++ posts (S n) ts end.

(** [runReady] executes the tasks that were there when it was called, in their order, and leaves
    what was posted meanwhile for later, so it returns however much that is. *)
Lemma runReady_snapshot l :
  runReady l = (m_tasks l, mkRunLoop (if m_finished l then [] else posts 0 (m_tasks l)) (m_finished l)).
Proof.
  unfold runReady. assert (Hg : forall tasks executed later f,
    runReady_loop (length tasks) executed (mkRunLoop (tasks ++ later) f) =
    (executed ++ tasks, mkRunLoop (later ++ if f then [] else posts (length executed) tasks) f)).
  { induction tasks as [|t ts IH]; intros ex later f; simpl; [destruct f; by rewrite !app_nil_r|].
    rewrite post_all_spec. simpl. rewrite <-app_assoc, IH, <-!app_assoc, length_app, Nat.add_1_r. simpl. by destruct f. }
  destruct l as [tasks f]. specialize (Hg tasks [] [] f). rewrite app_nil_r in Hg. cbn [m_tasks m_finished]. by rewrite Hg.
Qed.
End loop.
Arguments RunLoop : clear implicits.

(** ** Waiting for an event *)

(** The guard of [wait]. *)
Definition wait_guard (executorThread pending : bool) : outcome unit :=
  if executorThread && pending then Throw logic_error "A Caravan control continuation cannot wait on pending work" else Ret tt.

(** Tasks of the control loop: the empty one [continueWith] posts for a waiter, and other work. *)
Inductive control_task : Type := Wake (waiter : nat) | Work (k : nat).

(** A thread in [wait]: at the test of the loop, in [progress], in [runOne], or back. *)
Inductive wait_pc : Type := Test | Progress | Pop | Returned.

(** Its event, and whether the event has posted the wake-up. *)
Record waiter : Type := mkWaiter { w_event : nat; w_pc : wait_pc; w_posted : bool }.

Record control : Type := mkControl { loop : RunLoop control_task; ready : list bool; waiters : list waiter }.

(** An [Event] without state is ready. *)
Definition is_ready (c : control) (e : nat) : bool := match ready c !! e with Some b => b | None => true end.

(** What the program around does: events become ready, work is posted. *)
Inductive outside_step : control -> control -> Prop :=
  | outside_ready l r ws e : outside_step (mkControl l r ws) (mkControl l (<[e := true]> r) ws)
  | outside_work l r ws k l' : post (Work k) l = (Ret tt, l') -> outside_step (mkControl l r ws) (mkControl l' r ws).

(** What the waiters and their wake-ups do.  [progress] does not run the loop. *)
Inductive wait_step : control -> control -> Prop :=
  | wait_test c w e posted :
      waiters c !! w = Some (mkWaiter e Test posted) ->
      wait_step c (mkControl (loop c) (ready c) (<[w := mkWaiter e (if is_ready c e then Returned else Progress) posted]> (waiters c)))
  | wait_progress c w e posted :
      waiters c !! w = Some (mkWaiter e Progress posted) ->
      wait_step c (mkControl (loop c) (ready c) (<[w := mkWaiter e Pop posted]> (waiters c)))
  | wait_pop c w e posted task l' :
      waiters c !! w = Some (mkWaiter e Pop posted) -> runOne (loop c) = (Execute task, l') ->
      wait_step c (mkControl l' (ready c) (<[w := mkWaiter e Test posted]> (waiters c)))
  | wait_wake c w e pc l' :
      waiters c !! w = Some (mkWaiter e pc false) -> is_ready c e = true -> post (Wake w) (loop c) = (Ret tt, l') ->
      wait_step c (mkControl l' (ready c) (<[w := mkWaiter e pc true]> (waiters c))).

Definition control_step (c c' : control) : Prop := outside_step c c' \/ wait_step c c'.

(** Threads that call [wait] on their events. *)
Definition control_init (nevents : nat) (es : list nat) : control :=
  mkControl RunLoop_init (replicate nevents false) (map (fun e => mkWaiter e Test false) es).

(** ** One waiter *)

Definition waiter_left (w : waiter) : nat :=
  match w_pc w with Test => 3 | Progress => 2 | Pop => 1 | Returned => 0 end + if w_posted w then 0 else 4.

(** While the wake-up has been posted and not executed, or the waiter will look again, the event is not
    slept through. *)
Record wait_ok (e : nat) (c : control) : Prop := {
  wo_open : m_finished (loop c) = false;
  wo_one : exists pc posted, waiters c = [mkWaiter e pc posted] /\
    (posted = true -> is_ready c e = true) /\ (pc = Returned -> is_ready c e = true) /\
    (posted = true -> pc = Progress \/ pc = Pop -> Wake 0 ∈ m_tasks (loop c))
}.

Lemma post_spec {T} (t : T) l : m_finished l = false -> post t l = (Ret tt, mkRunLoop (m_tasks l ++ [t]) false).
Proof. destruct l as [q f]. simpl. by intros ->. Qed.

Lemma post_open {T} (t : T) l l' : m_finished l = false -> post t l = (Ret tt, l') -> l' = mkRunLoop (m_tasks l ++ [t]) false.
Proof. intros Hf. rewrite post_spec by done. by intros [= <-]. Qed.

Lemma control_ready_mono l r ws l' ws' e k : is_ready (mkControl l r ws) e = true -> is_ready (mkControl l' (<[k := true]> r) ws') e = true.
Proof.
  unfold is_ready. simpl. intros Hr. destruct (decide (k = e)) as [->|Hne]; [|by rewrite list_lookup_insert_ne].
  destruct (decide (e < length r)) as [Hlt|Hge]; [by rewrite list_lookup_insert_eq|by rewrite list_insert_ge by lia].
Qed.

Lemma wait_ok_outside e c c' : wait_ok e c -> outside_step c c' -> wait_ok e c'.
Proof.
  intros [Hf (pc & posted & Hw & Hp & Hr & Hin)] Hstep. destruct Hstep as [l r ws k|l r ws k l' Hpost]; simpl in *.
  - constructor; [done|]. exists pc, posted. split_and!; [done| | |done]; intros Hx; (apply (control_ready_mono l r ws); auto).
  - rewrite (post_open _ _ _ Hf Hpost). constructor; [done|]. exists pc, posted. split_and!; try done.
    intros H1 H2. simpl. apply elem_of_app. left. by apply Hin.
Qed.

Lemma wait_ok_step e c c' : wait_ok e c -> wait_step c c' -> wait_ok e c'.
Proof.
  intros [Hf (pc & posted & Hw & Hp & Hr & Hin)] Hstep.
  destruct Hstep as [c w e' b Hi|c w e' b Hi|c w e' b task l' Hi Hl|c w e' pc' l' Hi Hrd Hl];
    rewrite Hw in Hi; destruct w as [|w]; simplify_eq/=; (constructor; [try done|]).
  - destruct (is_ready c e') eqn:Hre; eexists _, _; rewrite Hw; split_and!.
    + done.
    + intros _. exact Hre.
    + intros _. exact Hre.
    + by intros _ [?|?].
    + done.
    + intros Hb. discriminate (Hp Hb).
    + done.
    + intros Hb. discriminate (Hp Hb).
  - eexists _, _. rewrite Hw. split_and!; [done|exact Hp|done|]. intros Hb _. apply Hin; [done|by left].
  - unfold runOne in Hl. by destruct (m_tasks (loop c)); simplify_eq/=.
  - eexists _, _. rewrite Hw. split_and!; [done|exact Hp|done|by intros _ [?|?]].
  - by rewrite (post_open _ _ _ Hf Hl).
  - eexists _, _. rewrite Hw. split_and!; [done|intros _; exact Hrd|exact Hr|].
    intros _ _. rewrite (post_open _ _ _ Hf Hl). simpl. apply elem_of_app. right. by left.
Qed.

Definition wait_left (c : control) : nat := 3 * length (m_tasks (loop c)) + sum_list_with waiter_left (waiters c).

Lemma wait_left_step e c c' : is_ready c e = true -> wait_ok e c -> wait_step c c' -> wait_left c' < wait_left c.
Proof.
  intros Hre [Hf (pc & posted & Hw & Hp & Hr & Hin)] Hstep. unfold wait_left.
  destruct Hstep as [c w e' b Hi|c w e' b Hi|c w e' b task l' Hi Hl|c w e' pc' l' Hi Hrd Hl];
    rewrite Hw in Hi |- *; destruct w as [|w]; simplify_eq/=.
  - rewrite Hre. unfold waiter_left. destruct b; simpl; lia.
  - unfold waiter_left. destruct b; simpl; lia.
  - unfold runOne in Hl. destruct (m_tasks (loop c)); [by rewrite Hf in Hl|]. simplify_eq/=. unfold waiter_left. destruct b; simpl; lia.
  - rewrite (post_open _ _ _ Hf Hl). simpl. rewrite length_app. unfold waiter_left. simpl. lia.
Qed.

Lemma wait_progresses e c : is_ready c e = true -> wait_ok e c ->
  (exists posted, waiters c = [mkWaiter e Returned posted]) \/ exists c', wait_step c c'.
Proof.
  intros Hre [Hf (pc & posted & Hw & Hp & Hr & Hin)]. destruct pc.
  - right. eexists. eapply (wait_test c 0). by rewrite Hw.
  - right. eexists. eapply (wait_progress c 0). by rewrite Hw.
  - right. destruct posted.
    + destruct (m_tasks (loop c)) as [|t ts] eqn:Ht.
      { specialize (Hin eq_refl (or_intror eq_refl)). by apply elem_of_nil in Hin. }
      eexists. eapply (wait_pop c 0); [by rewrite Hw|]. unfold runOne. by rewrite Ht.
    + eexists. eapply (wait_wake c 0 e Pop); [by rewrite Hw|done|]. by apply post_spec.
  - left. by exists posted.
Qed.

(** C34: a thread that waits in the control context does not sleep through its event.  It returns only
    when the event is ready; from any state in which the event is ready, however the work that other threads
    posted before and its own steps interleave, it returns after at most as many steps as the queue is long times
    three and seven more, because the wake-up is in the queue or still to be posted whenever it could block. *)
Theorem wait_returns nevents e c :
  rtc control_step (control_init nevents [e]) c ->
  (forall b, waiters c = [mkWaiter e Returned b] -> is_ready c e = true) /\
  (is_ready c e = true ->
     (forall n c', nsteps wait_step n c c' -> n <= 3 * length (m_tasks (loop c)) + 7) /\
     (forall c', rtc wait_step c c' -> (exists b, waiters c' = [mkWaiter e Returned b]) \/ exists c'', wait_step c' c'')).
Proof.
  intros Hrun. assert (Hok : wait_ok e c).
  { apply (preserved_rtc control_step (wait_ok e) (control_init nevents [e]) c); [| |exact Hrun].
    - intros x y Hx [Hs|Hs]; [by eapply wait_ok_outside|by eapply wait_ok_step].
    - constructor; [done|]. exists Test, false. split_and!; try done. }
  assert (Hpres : preserved wait_step (fun c => wait_ok e c /\ is_ready c e = true)).
  { intros x y [Hx Hr] Hs. split; [by eapply wait_ok_step|]. by destruct Hs. }
  split.
  - intros b Hb. destruct Hok as [_ (pc & posted & Hw & _ & Hr & _)]. rewrite Hw in Hb. simplify_eq. by apply Hr.
  - intros Hre. split.
    + intros n c' Hn. pose proof (measure_nsteps wait_step _ wait_left n c c' Hpres
        (fun x y Hx Hs => wait_left_step e x y (proj2 Hx) (proj1 Hx) Hs) (conj Hok Hre) Hn) as Hle.
      unfold wait_left at 2 in Hle. destruct Hok as [_ (pc & posted & Hw & _)]. rewrite Hw in Hle. unfold waiter_left in Hle. simpl in Hle.
      destruct pc, posted; lia.
    + intros c' Hc'. destruct (preserved_rtc wait_step _ c c' Hpres (conj Hok Hre) Hc') as [Hok' Hre'].
      by apply wait_progresses.
Qed.

(** A thread blocked in [runOne] with other work posted before the wake-up. *)
Lemma wait_returns_witness : exists c,
  rtc control_step (control_init 1 [0]) c /\ waiters c = [mkWaiter 0 Pop false] /\ m_tasks (loop c) = [Work 5] /\
  forall n c', nsteps wait_step n c c' -> n <= 10.
Proof.
  eexists. assert (Hrun : rtc control_step (control_init 1 [0]) (mkControl (mkRunLoop [Work 5] false) [true] [mkWaiter 0 Pop false])).
  { eapply rtc_l; [right; by apply (wait_test _ 0 0 false)|]. eapply rtc_l; [right; by apply (wait_progress _ 0 0 false)|].
    eapply rtc_l; [left; by apply (outside_work _ _ _ 5)|]. eapply rtc_l; [left; apply (outside_ready _ _ _ 0)|]. apply rtc_refl. }
  split; [exact Hrun|]. split; [reflexivity|]. split; [reflexivity|].
  destruct (wait_returns 1 0 _ Hrun) as [_ H]. apply (H eq_refl).
Defined.

(** Two threads that wait on one context can lose a wake-up: the second executes the one posted for
    the first, which then sleeps although its event is ready; nothing but more work or another event wakes it. *)
Lemma two_waiters_lose_wakeup : exists c,
  rtc control_step (control_init 2 [0; 1]) c /\ is_ready c 0 = true /\
  waiters c = [mkWaiter 0 Pop true; mkWaiter 1 Pop false] /\ forall c', ~ wait_step c c'.
Proof.
  exists (mkControl (mkRunLoop [] false) [true; false] [mkWaiter 0 Pop true; mkWaiter 1 Pop false]). split_and!; [|done|done|].
  - eapply rtc_l; [right; by apply (wait_test _ 0 0 false)|]. eapply rtc_l; [right; by apply (wait_progress _ 0 0 false)|].
    eapply rtc_l; [right; by apply (wait_test _ 1 1 false)|]. eapply rtc_l; [right; by apply (wait_progress _ 1 1 false)|].
    eapply rtc_l; [left; apply (outside_ready _ _ _ 0)|]. eapply rtc_l; [right; by apply (wait_wake _ 0 0 Pop)|].
    eapply rtc_l; [right; eapply (wait_pop _ 1 1 false); reflexivity|]. eapply rtc_l; [right; by apply (wait_test _ 1 1 false)|].
    eapply rtc_l; [right; by apply (wait_progress _ 1 1 false)|]. apply rtc_refl.
  - intros c' Hs. remember (mkControl _ _ _) as c eqn:Hc. destruct Hs as [c w e b Hi|c w e b Hi|c w e b task l' Hi Hl|c w e pc l' Hi Hrd Hl];
      subst c; destruct w as [|[|w]]; simplify_eq/=; done.
Qed.
