(* ===== verification/MpiLanes.v ===== *)
(** * Managed collectives

    Models [ManagedCollectiveLane] of caravan/mpi/context.{hpp,cpp}: the tickets of the collectives on a
    communicator, which are reserved in program order, committed or skipped in any order, and started by
    the owner of the context in the order of reservation. *)
From Stdlib Require Import ZArith Lia.
From stdpp Require Import base list numbers relations gmap strings.
From S2P Require Import Prelude Transition Outcome.

(** ** Lanes of managed collectives *)

Inductive lane_state : Type := reserved | committed | skipped.

Record Entry : Type := mkEntry { e_start : option nat; e_state : lane_state }.

Record ManagedCollectiveLane : Type := mkLane { firstSequence : nat; entries : list Entry }.

Definition lane_init : ManagedCollectiveLane := mkLane 0 [].

Definition lane_reserve (l : ManagedCollectiveLane) : nat * ManagedCollectiveLane :=
  (firstSequence l + length (entries l), mkLane (firstSequence l) (entries l ++ [mkEntry None reserved])).

Definition lane_find (sequence : nat) (l : ManagedCollectiveLane) : option Entry :=
  if (sequence <? firstSequence l)%nat || (length (entries l) <=? sequence - firstSequence l)%nat then None
  else entries l !! (sequence - firstSequence l).

Definition lane_store (sequence : nat) (e : Entry) (l : ManagedCollectiveLane) : ManagedCollectiveLane :=
  mkLane (firstSequence l) (<[sequence - firstSequence l := e]> (entries l)).

Definition lane_commit (sequence start : nat) : Host ManagedCollectiveLane unit :=
  l ← get_state;
  match lane_find sequence l with
  | Some (mkEntry _ reserved) => modify (lane_store sequence (mkEntry (Some start) committed))
  | _ => throw logic_error "Inactive managed collective ticket"
  end.

Definition lane_skip (sequence : nat) (l : ManagedCollectiveLane) : ManagedCollectiveLane :=
  match lane_find sequence l with
  | Some (mkEntry s reserved) => lane_store sequence (mkEntry s skipped) l
  | _ => l
  end.

Definition lane_skipReserved (l : ManagedCollectiveLane) : ManagedCollectiveLane :=
  mkLane (firstSequence l)
    (map (fun e => match e_state e with reserved => mkEntry (e_start e) skipped | _ => e end) (entries l)).

Definition lane_ready (l : ManagedCollectiveLane) : bool :=
  match entries l with
  | [] => false
  | e :: _ => match e_state e with reserved => false | _ => true end
  end.

Definition lane_popReady (l : ManagedCollectiveLane) : option (option nat) * ManagedCollectiveLane :=
  if negb (lane_ready l) then (None, l)
  else match entries l with
       | [] => (None, l)
       | e :: rest => (Some (e_start e), mkLane (S (firstSequence l)) rest)
       end.

(** ** The order of collectives *)

(** The decision about every ticket, and the retired entries in the order in which the owner starts
    them, with what is started. *)
Record history : Type := mkHistory { lane : ManagedCollectiveLane; decided : nat -> option (option nat); retired : list (nat * option nat) }.

Definition history_init : history := mkHistory lane_init (fun _ => None) [].

Definition isReserved (sequence : nat) (l : ManagedCollectiveLane) : bool :=
  match lane_find sequence l with Some (mkEntry _ reserved) => true | _ => false end.

Inductive lane_step : history -> history -> Prop :=
  | lane_step_reserve l d r t l' : lane_reserve l = (t, l') -> lane_step (mkHistory l d r) (mkHistory l' d r)
  | lane_step_commit l d r t k l' : lane_commit t k l = (Ret tt, l') ->
      lane_step (mkHistory l d r) (mkHistory l' (fun s => if (s =? t)%nat then Some (Some k) else d s) r)
  | lane_step_skip l d r t :
      lane_step (mkHistory l d r) (mkHistory (lane_skip t l) (fun s => if (s =? t)%nat && isReserved t l then Some None else d s) r)
  | lane_step_skipReserved l d r :
      lane_step (mkHistory l d r) (mkHistory (lane_skipReserved l) (fun s => if isReserved s l then Some None else d s) r)
  | lane_step_pop l d r s l' : lane_popReady l = (Some s, l') ->
      lane_step (mkHistory l d r) (mkHistory l' d (r ++ [(firstSequence l, s)])).

(** What an entry shows of its decision. *)
Definition entry_ok (d : option (option nat)) (e : Entry) : Prop :=
  match e_state e with reserved => d = None /\ e_start e = None | committed => exists k, d = Some (Some k) /\ e_start e = Some k | skipped => d = Some None /\ e_start e = None end.

Record history_ok (h : history) : Prop := {
  ho_entries : forall i e, entries (lane h) !! i = Some e -> entry_ok (decided h (firstSequence (lane h) + i)) e;
  ho_later : forall t, firstSequence (lane h) + length (entries (lane h)) <= t -> decided h t = None;
  ho_retired : map fst (retired h) = seq 0 (firstSequence (lane h));
  ho_started : forall t s, (t, s) ∈ retired h -> decided h t = Some s
}.

Lemma lane_find_spec t l e : lane_find t l = Some e <-> firstSequence l <= t /\ entries l !! (t - firstSequence l) = Some e.
Proof.
  unfold lane_find. destruct (Nat.ltb_spec t (firstSequence l)) as [Hlt|Hge]; simpl; [split; [discriminate|lia]|].
  destruct (Nat.leb_spec (length (entries l)) (t - firstSequence l)) as [Hle|Hgt]; [|tauto].
  split; [discriminate|]. intros [_ He]. apply lookup_lt_Some in He. lia.
Qed.

Lemma isReserved_spec t l : isReserved t l = true <-> firstSequence l <= t /\ exists s, entries l !! (t - firstSequence l) = Some (mkEntry s reserved).
Proof.
  unfold isReserved. destruct (lane_find t l) as [[s st]|] eqn:Hf.
  - apply lane_find_spec in Hf as [Hle He]. rewrite He. destruct st; split; try discriminate; intros H.
    + split; [done|by eexists].
    + done.
    + by destruct H as [_ [? [=]]].
    + by destruct H as [_ [? [=]]].
  - split; [discriminate|]. intros (Hle & s & He). assert (Hf' : lane_find t l = Some (mkEntry s reserved)) by (by apply lane_find_spec). congruence.
Qed.

(** Deciding the reserved ticket [t]. *)
Lemma history_decide l d r t s e : history_ok (mkHistory l d r) -> firstSequence l <= t ->
  entries l !! (t - firstSequence l) = Some (mkEntry s reserved) ->
  forall dec, entry_ok (Some dec) e -> history_ok (mkHistory (lane_store t e l) (fun x => if (x =? t)%nat then Some dec else d x) r).
Proof.
  intros [He Hl Hr Hs] Hle Hres dec Hdec. simpl in *. pose proof (lookup_lt_Some _ _ _ Hres) as Hlt.
  constructor; simpl.
  - intros i x Hx. destruct (decide (i = t - firstSequence l)) as [->|Hne].
    + rewrite list_lookup_insert_eq in Hx by done. injection Hx as <-. replace (firstSequence l + (t - firstSequence l)) with t by lia.
      by rewrite Nat.eqb_refl.
    + rewrite list_lookup_insert_ne in Hx by done. destruct (Nat.eqb_spec (firstSequence l + i) t) as [Heq|_]; [lia|]. by apply He.
  - rewrite length_insert. intros x Hx. destruct (Nat.eqb_spec x t) as [->|_]; [lia|by apply Hl].
  - done.
  - intros x y Hin. assert (Hx : x ∈ map fst r) by (apply list_elem_of_fmap; by exists (x, y)). rewrite Hr in Hx. apply elem_of_seq in Hx.
    destruct (Nat.eqb_spec x t) as [->|_]; [lia|by apply Hs].
Qed.

Lemma history_ok_step : preserved lane_step history_ok.
Proof.
  intros x y Hok Hstep. destruct Hstep as [l d r t l' Hs|l d r t k l' Hs|l d r t|l d r|l d r s l' Hs].
  - destruct Hok as [He Hl Hr Hst]. injection Hs as _ <-. simpl in *. constructor; simpl; try done.
    + intros i e Hi. apply lookup_app_Some in Hi as [Hi|[Hi Hx]]; [by apply He|].
      destruct (i - length (entries l)) as [|j] eqn:Hj; [|done]. injection Hx as <-. split; [apply Hl; lia|done].
    + intros t' Ht. rewrite length_app in Ht. simpl in Ht. apply Hl. lia.
  - unfold lane_commit, mbind, Host_bind, get_state in Hs. destruct (lane_find t l) as [[s st]|] eqn:Hf; [|discriminate].
    apply lane_find_spec in Hf as [Hle Hf]. destruct st; try discriminate. injection Hs as <-.
    apply (history_decide l d r t s (mkEntry (Some k) committed)); try done. by exists k.
  - destruct (isReserved t l) eqn:Hres.
    + apply isReserved_spec in Hres as (Hle & s & Hs). unfold lane_skip. rewrite (proj2 (lane_find_spec t l _)) by (split; [exact Hle|exact Hs]).
      assert (Hext : history_ok (mkHistory (lane_store t (mkEntry s skipped) l) (fun x => if (x =? t)%nat then Some None else d x) r)).
      { assert (s = None) as -> by apply (ho_entries _ Hok (t - firstSequence l) _ Hs).
        by apply (history_decide l d r t None (mkEntry None skipped)). }
      destruct Hext as [H1 H2 H3 H4]. constructor; simpl in *; try done; intros; rewrite andb_true_r; auto.
    + assert (Hsk : lane_skip t l = l).
      { unfold lane_skip. unfold isReserved in Hres. destruct (lane_find t l) as [[s []]|]; done. }
      rewrite Hsk. destruct Hok as [H1 H2 H3 H4]. constructor; simpl in *; try done; intros; rewrite andb_false_r; auto.
  - destruct Hok as [He Hl Hr Hst]. simpl in *. constructor; simpl; try done.
    + intros i e Hi. rewrite list_lookup_fmap in Hi. apply fmap_Some in Hi as (e0 & Hi & ->). specialize (He i e0 Hi).
      assert (Hres : isReserved (firstSequence l + i) l = match e_state e0 with reserved => true | _ => false end).
      { unfold isReserved. rewrite (proj2 (lane_find_spec _ l e0)) by (split; [lia|]; by replace (firstSequence l + i - firstSequence l) with i by lia).
        by destruct e0 as [s []]. }
      rewrite Hres. unfold entry_ok in *. destruct e0 as [s []]; simpl in *; [split; [done|apply He]|done|done].
    + rewrite length_map. intros t Ht. destruct (isReserved t l) eqn:Hres; [|by apply Hl].
      apply isReserved_spec in Hres as (_ & s & Hs). apply lookup_lt_Some in Hs. lia.
    + intros t s Hin. assert (Hx : t ∈ map fst r) by (apply list_elem_of_fmap; by exists (t, s)). rewrite Hr in Hx. apply elem_of_seq in Hx.
      destruct (isReserved t l) eqn:Hres; [apply isReserved_spec in Hres; lia|by apply Hst].
  - destruct Hok as [He Hl Hr Hst]. simpl in *. unfold lane_popReady, lane_ready in Hs.
    destruct (entries l) as [|e es] eqn:Hes; [discriminate|].
    assert (Hne : e_state e <> reserved /\ s = e_start e /\ l' = mkLane (S (firstSequence l)) es).
    { destruct (e_state e); simpl in Hs; [discriminate|injection Hs as <- <-; done..]. }
    destruct Hne as (Hne & -> & ->). constructor; simpl.
    + intros i x Hx. rewrite <-Nat.add_succ_r. by apply (He (S i)).
    + intros t Ht. apply Hl. simpl. lia.
    + rewrite map_app, Hr. simpl. by rewrite <-seq_S.
    + intros t s Hin. apply elem_of_app in Hin as [Hin|Hin]; [by apply Hst|]. apply list_elem_of_singleton in Hin as [= -> ->].
      specialize (He 0 e eq_refl). rewrite Nat.add_0_r in He. unfold entry_ok in He. destruct (e_state e); [done| |].
      * destruct He as (k & -> & ->). done.
      * destruct He as [-> ->]. done.
Qed.

(** C31: managed collectives start in the order in which their tickets were reserved, whatever order they
    are committed in.  The entries the owner has retired are the first tickets without a gap, each with
    the start it was committed with or with none if it was skipped; a ticket is decided once - committing one that is
    unknown, decided or retired throws - and one that is not decided holds back all later ones. *)
Theorem collectives_in_order h :
  rtc lane_step history_init h ->
  map fst (retired h) = seq 0 (firstSequence (lane h)) /\
  (forall t s, (t, s) ∈ retired h -> decided h t = Some s) /\
  (forall t k, (exists l', lane_commit t k (lane h) = (Ret tt, l')) <->
     t < firstSequence (lane h) + length (entries (lane h)) /\ decided h t = None) /\
  (forall t k, (exists l', lane_commit t k (lane h) = (Ret tt, l')) \/
     lane_commit t k (lane h) = (Throw logic_error "Inactive managed collective ticket", lane h)) /\
  (forall t t' s, t < firstSequence (lane h) + length (entries (lane h)) -> decided h t = None -> (t', s) ∈ retired h -> t' < t).
Proof.
  intros Hrun. assert (Hok : history_ok h).
  { apply (preserved_rtc lane_step history_ok history_init); [apply history_ok_step| |done]. constructor; simpl; try done. by intros t s ?%elem_of_nil. }
  pose proof Hok as [He Hl Hr Hst].
  assert (Hiff : forall t, isReserved t (lane h) = true <-> t < firstSequence (lane h) + length (entries (lane h)) /\ decided h t = None).
  { intros t. rewrite isReserved_spec. split.
    - intros (Hle & s & Hs). pose proof (lookup_lt_Some _ _ _ Hs). specialize (He _ _ Hs).
      replace (firstSequence (lane h) + (t - firstSequence (lane h))) with t in He by lia. simpl in He. split; [lia|apply He].
    - intros [Hlt Hd]. destruct (decide (firstSequence (lane h) <= t)) as [Hle|Hgt].
      + destruct (lookup_lt_is_Some_2 (entries (lane h)) (t - firstSequence (lane h))) as [[s st] Hs]; [lia|]. specialize (He _ _ Hs).
        replace (firstSequence (lane h) + (t - firstSequence (lane h))) with t in He by lia. split; [done|]. exists s.
        unfold entry_ok in He. destruct st; simpl in He; [done|by destruct He as (? & ? & _); congruence|by destruct He; congruence].
      + assert (Hin : t ∈ map fst (retired h)) by (rewrite Hr; apply elem_of_seq; lia).
        apply list_elem_of_fmap in Hin as ([t0 s] & -> & Hin). apply Hst in Hin. simpl in Hd. congruence. }
  assert (Hcm : forall t k, (exists l', lane_commit t k (lane h) = (Ret tt, l')) <-> isReserved t (lane h) = true).
  { intros t k. unfold lane_commit, isReserved, mbind, Host_bind, get_state. destruct (lane_find t (lane h)) as [[s []]|];
      (split; [intros [l' Hx]; try discriminate Hx; done|intros Hx; try discriminate Hx; by eexists]). }
  split_and!; try done.
  - intros t k. by rewrite Hcm, Hiff.
  - intros t k. unfold lane_commit, mbind, Host_bind, get_state. destruct (lane_find t (lane h)) as [[s []]|]; [left; by eexists|by right..].
  - intros t t' s Hlt Hd Hin. assert (Hx : t' ∈ map fst (retired h)) by (apply list_elem_of_fmap; by exists (t', s)).
    rewrite Hr in Hx. apply elem_of_seq in Hx. pose proof (proj2 (Hiff t) (conj Hlt Hd)) as [Hres _]%isReserved_spec. lia.
Qed.

(** The second ticket is committed first and waits for the first, which is then skipped. *)
Lemma collectives_in_order_witness : exists h,
  rtc lane_step history_init h /\ retired h = [(0, None); (1, Some 8)] /\ map fst (retired h) = seq 0 2.
Proof.
  assert (Hrun : exists h, rtc lane_step history_init h /\ retired h = [(0, None); (1, Some 8)] /\ firstSequence (lane h) = 2).
  { eexists. split.
    - eapply rtc_l; [by eapply lane_step_reserve|]. eapply rtc_l; [by eapply lane_step_reserve|].
      eapply rtc_l; [by eapply (lane_step_commit _ _ _ 1 8)|]. eapply rtc_l; [apply (lane_step_skip _ _ _ 0)|].
      eapply rtc_l; [by eapply lane_step_pop|]. eapply rtc_l; [by eapply lane_step_pop|]. apply rtc_refl.
    - split; reflexivity. }
  destruct Hrun as (h & Hh & Hr & Hf). exists h. split; [exact Hh|]. split; [exact Hr|].
  rewrite <-Hf. apply (collectives_in_order h Hh).
Defined.
