(* ===== verification/MpiFlight.v ===== *)
(** * MPI requests in flight

    Models [NativeGroup], [trackNative], [retireActive] and [progressRequests] of caravan/mpi/context.{hpp,cpp}: the
    arrays of requests and of their groups that the owner hands to MPI and compacts in place.  Which requests an
    operation starts and which of them [MPI_Testsome] reports are arbitrary. *)
From Stdlib Require Import ZArith Lia.
From stdpp Require Import base list numbers relations gmap strings.
From S2P Require Import Prelude Transition Outcome.

(** ** Requests in flight *)

(** [NativeGroup]: the operation whose [completed] it calls, the statuses, and [remaining]. *)
Record NativeGroup : Type := mkGroup { g_op : nat; statuses : list nat; remaining : nat }.

Definition retire (index status : nat) (g : NativeGroup) : bool * NativeGroup :=
  let g' := mkGroup (g_op g) (<[index := status]> (statuses g)) (remaining g - 1) in
  ((remaining g' =? 0)%nat, g').

(** The requests (None is MPI_REQUEST_NULL) with the group and index of each, the groups by address, the
    operations whose [completed] has been called, and the calls of [finishOperation] that are due. *)
Record flight : Type := mkFlight {
  m_requests : list (option nat);
  m_active : list (nat * nat);
  groups : list NativeGroup;
  completed : list (nat * list nat);
  finishing : nat
}.

(** [retireActive]. *)
Definition retireActive (group index status : nat) (f : flight) : flight :=
  match groups f !! group with
  | None => f
  | Some g =>
      let (last, g') := retire index status g in
      mkFlight (m_requests f) (m_active f) (<[group := g']> (groups f))
        (if last then completed f ++ [(g_op g', statuses g')] else completed f)
        (if last then S (finishing f) else finishing f)
  end.

(** [trackNative]. *)
Fixpoint track_loop (group index : nat) (requests : list (option nat)) (f : flight) : flight :=
  match requests with
  | [] => f
  | None :: requests => track_loop group (S index) requests (retireActive group index 0 f)
  | Some r :: requests =>
      track_loop group (S index) requests
        (mkFlight (m_requests f ++ [Some r]) (m_active f ++ [(group, index)]) (groups f) (completed f) (finishing f))
  end.
Definition trackNative (op : nat) (requests : list (option nat)) (f : flight) : flight :=
  match requests with
  | [] => mkFlight (m_requests f) (m_active f) (groups f) (completed f ++ [(op, [])]) (S (finishing f))
  | _ =>
      let group := length (groups f) in
      track_loop group 0 requests
        (mkFlight (m_requests f) (m_active f) (groups f ++ [mkGroup op (replicate (length requests) 0) (length requests)])
           (completed f) (finishing f))
  end.

(** The compaction at the end of [progressRequests]: its loop over [input] moves what is left to the front. *)
Definition compact_step (acc : nat * list (option nat) * list (nat * nat)) (input : nat) : nat * list (option nat) * list (nat * nat) :=
  let '(output, requests, active) := acc in
  match requests !! input with
  | Some (Some r) =>
      if (output =? input)%nat then (S output, requests, active)
      else (S output, <[output := Some r]> requests, match active !! input with Some a => <[output := a]> active | None => active end)
  | _ => (output, requests, active)
  end.
Definition compact (requests : list (option nat)) (active : list (nat * nat)) : list (option nat) * list (nat * nat) :=
  let '(output, requests, active) := foldl compact_step (0, requests, active) (seq 0 (length requests)) in
  (take output requests, take output active).

(** [progressRequests] when [MPI_Testsome] reports the requests at [indices] with their statuses and has
    cleared their handles. *)
Definition progressRequests (indices : list (nat * nat)) (f : flight) : flight :=
  let requests := foldl (fun rs d => <[d.1 := None]> rs) (m_requests f) indices in
  let f := foldl (fun f d => match m_active f !! d.1 with Some (group, index) => retireActive group index d.2 f | None => f end) f indices in
  let (requests, active) := compact requests (m_active f) in
  mkFlight requests active (groups f) (completed f) (finishing f).

(** ** Compaction *)

Definition keep (l : list (option nat * (nat * nat))) : list (option nat * (nat * nat)) := filter (fun p => p.1 <> None) l.

Lemma drop_insert_lt' {A} (l : list A) i j x : i < j -> drop j (<[i := x]> l) = drop j l.
Proof. intros H. apply list_eq. intros k. rewrite !lookup_drop. apply list_lookup_insert_ne. lia. Qed.

Lemma take_S_insert {A} (l : list A) i x : i < length l -> take (S i) (<[i := x]> l) = take i l ++ [x].
Proof. intros H. rewrite (take_S_r _ _ x) by (by rewrite list_lookup_insert_eq). by rewrite take_insert_ge. Qed.

Lemma compact_spec requests active : length active = length requests ->
  compact requests active = (map fst (keep (zip requests active)), map snd (keep (zip requests active))).
Proof.
  intros Hlen. unfold compact.
  assert (Hg : forall i, i <= length requests -> exists rs acts,
    foldl compact_step (0, requests, active) (seq 0 i) = (length (keep (take i (zip requests active))), rs, acts) /\
    take (length (keep (take i (zip requests active)))) rs = map fst (keep (take i (zip requests active))) /\
    take (length (keep (take i (zip requests active)))) acts = map snd (keep (take i (zip requests active))) /\
    drop i rs = drop i requests /\ drop i acts = drop i active /\ length rs = length requests /\ length acts = length requests /\
    length (keep (take i (zip requests active))) <= i).
  { induction i as [|i IH]; intros Hi.
    { exists requests, active. split_and!; try done; lia. }
    destruct IH as (rs & acts & Hf & Hr & Ha & Dr & Da & Lr & La & Ho); [lia|].
    rewrite seq_S, foldl_app, Hf. cbn [foldl plus]. set (out := length (keep (take i (zip requests active)))) in *.
    destruct (lookup_lt_is_Some_2 requests i) as [r Hri]; [lia|]. destruct (lookup_lt_is_Some_2 active i) as [a Hai]; [lia|].
    assert (Hz : zip requests active !! i = Some (r, a)) by (by rewrite lookup_zip_with, Hri, Hai).
    assert (Hrs : rs !! i = Some r) by (rewrite <-(Nat.add_0_r i) at 1; by rewrite <-lookup_drop, Dr, lookup_drop, Nat.add_0_r).
    assert (Has : acts !! i = Some a) by (rewrite <-(Nat.add_0_r i) at 1; by rewrite <-lookup_drop, Da, lookup_drop, Nat.add_0_r).
    rewrite (take_S_r _ _ _ Hz). unfold keep. rewrite filter_app. fold (keep (take i (zip requests active))). unfold compact_step. rewrite Hrs.
    assert (Hdrop : forall A (l k : list A), drop i l = drop i k -> drop (S i) l = drop (S i) k).
    { intros A l k H. rewrite <-(Nat.add_1_r i), <-!drop_drop. by rewrite H. }
    destruct r as [r|].
    - rewrite filter_cons, decide_True, filter_nil by done. rewrite !length_app, !map_app. fold out. simpl length. simpl map. rewrite Nat.add_1_r.
      assert (Hlt : out < length rs) by (unfold out; lia). assert (Hlt' : out < length acts) by (unfold out; lia).
      destruct (Nat.eqb_spec out i) as [Heq|Hne].
      + exists rs, acts. split_and!; try done; try (by apply Hdrop); [| |lia].
        * rewrite (take_S_r _ _ (Some r)) by (by rewrite Heq). by rewrite Hr.
        * rewrite (take_S_r _ _ a) by (by rewrite Heq). by rewrite Ha.
      + rewrite Has. exists (<[out := Some r]> rs), (<[out := a]> acts). rewrite !length_insert, !take_S_insert, !drop_insert_lt', Hr, Ha by lia.
        split_and!; try done; try (by apply Hdrop). lia.
    - rewrite filter_cons, decide_False, filter_nil by (intros H; by apply H). rewrite !app_nil_r. fold out.
      exists rs, acts. split_and!; try done; try (by apply Hdrop). lia. }
  assert (Ht : take (length requests) (zip requests active) = zip requests active) by (apply take_ge; rewrite length_zip_with; lia).
  destruct (Hg (length requests)) as (rs & acts & -> & Hr & Ha & _); [lia|]. by rewrite Hr, Ha, Ht.
Qed.

(** ** Every request is retired once *)

Definition cnt (group : nat) (l : list (nat * nat)) : nat := length (filter (fun a => a.1 = group) l).

Lemma cnt_cons g a l : cnt g (a :: l) = (if decide (a.1 = g) then 1 else 0) + cnt g l.
Proof. unfold cnt. rewrite filter_cons. by destruct (decide _). Qed.

Lemma cnt_app g l k : cnt g (l ++ k) = cnt g l + cnt g k.
Proof. unfold cnt. by rewrite filter_app, length_app. Qed.

(** The requests of [l] are those the groups still wait for. *)
Definition awaited (gs : list NativeGroup) (l : list (nat * nat)) : Prop :=
  (forall i g, gs !! i = Some g -> remaining g = cnt i l) /\ (forall a, a ∈ l -> a.1 < length gs).

Lemma awaited_perm gs l k : l ≡ₚ k -> awaited gs l -> awaited gs k.
Proof.
  intros Hp [H1 H2]. split.
  - intros i g Hi. rewrite (H1 i g Hi). unfold cnt. by rewrite Hp.
  - intros a Ha. apply H2. by rewrite Hp.
Qed.

Definition pending (f : flight) : list nat := map g_op (filter (fun g => remaining g <> 0) (groups f)).

(** Operations are neither lost nor completed twice, and each completion is accounted for once. *)
Definition accounted (f f' : flight) : Prop :=
  pending f' ++ map fst (completed f') ≡ₚ pending f ++ map fst (completed f) /\
  length (pending f') + finishing f' = length (pending f) + finishing f.

Lemma accounted_refl f : accounted f f.
Proof. done. Qed.

Lemma accounted_trans f g h : accounted f g -> accounted g h -> accounted f h.
Proof. intros [H1 H2] [H3 H4]. split; [by rewrite H3|lia]. Qed.

Lemma pending_insert gs i g : gs !! i = Some g -> exists rest,
  map g_op (filter (fun g => remaining g <> 0) gs) ≡ₚ (if decide (remaining g = 0) then [] else [g_op g]) ++ rest /\
  forall g', map g_op (filter (fun g => remaining g <> 0) (<[i := g']> gs)) ≡ₚ (if decide (remaining g' = 0) then [] else [g_op g']) ++ rest.
Proof.
  intros Hi. exists (map g_op (filter (fun g => remaining g <> 0) (take i gs ++ drop (S i) gs))).
  assert (Hg : forall g', map g_op (filter (fun g => remaining g <> 0) (<[i := g']> gs)) ≡ₚ
    (if decide (remaining g' = 0) then [] else [g_op g']) ++ map g_op (filter (fun g => remaining g <> 0) (take i gs ++ drop (S i) gs))).
  { intros g'. rewrite insert_take_drop by (by apply lookup_lt_Some in Hi).
    rewrite <-Permutation_middle, filter_cons. destruct (decide (remaining g' = 0)) as [Hz|Hz].
    - rewrite decide_False by (intros H; by apply H). done.
    - by rewrite decide_True by done. }
  split; [|exact Hg]. rewrite <-(Hg g). by rewrite list_insert_id.
Qed.

Lemma retireActive_spec a status l f : awaited (groups f) (a :: l) ->
  awaited (groups (retireActive a.1 a.2 status f)) l /\ accounted f (retireActive a.1 a.2 status f) /\
  m_requests (retireActive a.1 a.2 status f) = m_requests f /\ m_active (retireActive a.1 a.2 status f) = m_active f.
Proof.
  intros [H1 H2]. destruct (lookup_lt_is_Some_2 (groups f) a.1) as [g Hg]; [apply H2; by left|].
  unfold retireActive. rewrite Hg. unfold retire. set (g' := mkGroup _ _ _).
  assert (Hrem : remaining g = S (cnt a.1 l)) by (rewrite (H1 _ _ Hg), cnt_cons, decide_True; done).
  assert (Hrem' : remaining g' = cnt a.1 l) by (unfold g'; cbn [remaining]; lia).
  split_and!.
  - split.
    + cbn [groups]. intros i x Hx. destruct (decide (i = a.1)) as [->|Hne].
      * rewrite list_lookup_insert_eq in Hx by (by apply lookup_lt_Some in Hg). by injection Hx as <-.
      * rewrite list_lookup_insert_ne in Hx by done. rewrite (H1 _ _ Hx), cnt_cons, decide_False; [done|congruence].
    + cbn [groups]. intros b Hb. rewrite length_insert. apply H2. by right.
  - destruct (pending_insert (groups f) a.1 g Hg) as (rest & P1 & P2). unfold accounted, pending. cbn [groups completed finishing].
    rewrite (P2 g'), P1, Hrem'. rewrite (decide_False (P := remaining g = 0)) by lia.
    destruct (Nat.eqb_spec (cnt a.1 l) 0) as [Hz|Hz].
    + rewrite decide_True by done. rewrite map_app. simpl. split; [solve_Permutation|lia].
    + rewrite decide_False by done. by split.
  - done.
  - done.
Qed.

Lemma retire_all dones l f : awaited (groups f) (omap (fun d => m_active f !! d.1) dones ++ l) ->
  let f' := foldl (fun f d => match m_active f !! d.1 with Some (group, index) => retireActive group index d.2 f | None => f end) f dones in
  awaited (groups f') l /\ accounted f f' /\ m_requests f' = m_requests f /\ m_active f' = m_active f.
Proof.
  revert f. induction dones as [|d dones IH]; intros f Ha; [done|]. cbn [foldl].
  simpl in Ha. destruct (m_active f !! d.1) as [[g i]|] eqn:Hd; [|by apply IH].
  simpl in Ha. destruct (retireActive_spec (g, i) d.2 _ f Ha) as (Ha' & Hacc & Hr & Hm). simpl in Ha', Hacc, Hr, Hm.
  destruct (IH (retireActive g i d.2 f)) as (H1 & H2 & H3 & H4); [by rewrite Hm|].
  split_and!; [done|by eapply accounted_trans|by rewrite H3|by rewrite H4].
Qed.

(** Requests that were live at [indices] are the ones that compaction drops. *)
Lemma keep_insert rs acts i r a : rs !! i = Some (Some r) -> acts !! i = Some a ->
  map snd (keep (zip rs acts)) ≡ₚ a :: map snd (keep (zip (<[i := None]> rs) acts)).
Proof.
  intros Hr Ha. pose proof (lookup_lt_Some _ _ _ Hr). pose proof (lookup_lt_Some _ _ _ Ha).
  rewrite insert_take_drop by done. rewrite <-(take_drop_middle rs i (Some r) Hr) at 1. rewrite <-(take_drop_middle acts i a Ha).
  rewrite !zip_with_app by (rewrite !length_take; lia). simpl. unfold keep. rewrite !filter_app, !filter_cons.
  rewrite decide_True by done. rewrite decide_False by (intros Hn; by apply Hn). rewrite !map_app. simpl. by rewrite <-Permutation_middle.
Qed.

Lemma keep_all rs acts : Forall (fun r => r <> None) rs -> length rs = length acts -> map snd (keep (zip rs acts)) = acts.
Proof.
  revert acts. induction rs as [|r rs IH]; intros [|a acts] Hf Hl; try done. apply list.Forall_cons in Hf as [Hr Hf].
  simpl. unfold keep. rewrite filter_cons, decide_True by done. simpl. f_equal. apply IH; [done|]. simpl in Hl. lia.
Qed.

Lemma keep_clear (indices : list (nat * nat)) (rs : list (option nat)) (acts : list (nat * nat)) :
  NoDup (map fst indices) -> length rs = length acts ->
  Forall (fun i => exists r, rs !! i = Some (Some r)) (map fst indices) ->
  map snd (keep (zip rs acts)) ≡ₚ omap (fun d => acts !! d.1) indices ++ map snd (keep (zip (foldl (fun rs d => <[d.1 := None]> rs) rs indices) acts)).
Proof.
  revert rs. induction indices as [|d ds IH]; intros rs Hnd Hlen Hf; [done|]. simpl in Hnd, Hf.
  apply list.NoDup_cons in Hnd as [Hni Hnd]. apply list.Forall_cons in Hf as [[r Hr] Hf].
  destruct (lookup_lt_is_Some_2 acts d.1) as [a Ha]; [rewrite <-Hlen; by eapply lookup_lt_Some|].
  cbn [foldl]. rewrite (keep_insert rs acts d.1 r a Hr Ha). simpl. rewrite Ha. simpl. f_equiv. apply IH; [done|by rewrite length_insert|].
  rewrite list.Forall_forall in *. intros i Hi. rewrite list_lookup_insert_ne by (by intros <-). by apply Hf.
Qed.

Record flight_ok (f : flight) : Prop := {
  fl_len : length (m_requests f) = length (m_active f);
  fl_live : Forall (fun r => r <> None) (m_requests f);
  fl_await : awaited (groups f) (m_active f)
}.

(** What [MPI_Testsome] may report. *)
Definition reported (indices : list (nat * nat)) (f : flight) : Prop :=
  NoDup (map fst indices) /\ Forall (fun d => d.1 < length (m_requests f)) indices.

Lemma progressRequests_spec indices f : flight_ok f -> reported indices f ->
  flight_ok (progressRequests indices f) /\ accounted f (progressRequests indices f).
Proof.
  intros [Hlen Hlive Haw] [Hnd Hlt]. unfold progressRequests.
  set (rs := foldl _ (m_requests f) indices). set (f1 := foldl _ f indices).
  assert (Hlrs : length rs = length (m_requests f)).
  { unfold rs. clear. generalize (m_requests f). induction indices as [|d ds IH]; intros rs; [done|]. simpl. by rewrite IH, length_insert. }
  assert (Hkeep : m_active f ≡ₚ omap (fun d => m_active f !! d.1) indices ++ map snd (keep (zip rs (m_active f)))).
  { rewrite <-(keep_all (m_requests f) (m_active f)) at 1 by done. apply keep_clear; [done|done|].
    apply List.Forall_map. eapply list.Forall_impl; [exact Hlt|]. intros d Hd.
    destruct (lookup_lt_is_Some_2 (m_requests f) d.1 Hd) as [[r|] Hr]; [by exists r|].
    rewrite list.Forall_forall in Hlive. by destruct (Hlive None (list_elem_of_lookup_2 _ _ _ Hr)). }
  destruct (retire_all indices (map snd (keep (zip rs (m_active f)))) f) as (H1 & H2 & H3 & H4); [by apply (awaited_perm _ _ _ Hkeep)|].
  fold f1 in H1, H2, H3, H4. rewrite H4, compact_spec by lia. split; [|exact H2]. constructor; cbn [m_requests m_active groups].
  - by rewrite !length_map.
  - apply List.Forall_map, list.Forall_forall. intros p [Hp _]%list_elem_of_filter. done.
  - done.
Qed.

Lemma track_loop_spec group index requests f :
  length (m_requests f) = length (m_active f) -> Forall (fun r => r <> None) (m_requests f) ->
  awaited (groups f) (m_active f ++ map (pair group) (seq index (length requests))) ->
  flight_ok (track_loop group index requests f) /\ accounted f (track_loop group index requests f).
Proof.
  revert index f. induction requests as [|[r|] requests IH]; intros index f Hlen Hlive Haw.
  - simpl in Haw. rewrite app_nil_r in Haw. by split.
  - cbn [track_loop]. simpl in Haw. set (f1 := mkFlight _ _ _ _ _).
    destruct (IH (S index) f1) as [H1 H2].
    + simpl. rewrite !length_app, Hlen. done.
    + simpl. apply Forall_app. split; [done|by repeat constructor].
    + simpl. by rewrite <-app_assoc.
    + split; [done|]. by destruct H2.
  - cbn [track_loop]. simpl in Haw.
    destruct (retireActive_spec (group, index) 0 (m_active f ++ map (pair group) (seq (S index) (length requests))) f) as (H1 & H2 & H3 & H4).
    { eapply awaited_perm; [|exact Haw]. solve_Permutation. }
    simpl in H1, H2, H3, H4. destruct (IH (S index) (retireActive group index 0 f)) as [H5 H6]; [by rewrite H3, H4|by rewrite H3|by rewrite H4|].
    split; [done|by eapply accounted_trans].
Qed.

Lemma trackNative_spec op requests f : flight_ok f ->
  flight_ok (trackNative op requests f) /\
  pending (trackNative op requests f) ++ map fst (completed (trackNative op requests f)) ≡ₚ op :: pending f ++ map fst (completed f) /\
  length (pending (trackNative op requests f)) + finishing (trackNative op requests f) = S (length (pending f) + finishing f).
Proof.
  intros [Hlen Hlive [Ha1 Ha2]]. unfold trackNative. destruct requests as [|r requests].
  - unfold pending. cbn [groups completed finishing]. split_and!; [by constructor| |lia]. rewrite map_app. simpl. solve_Permutation.
  - set (n := length (r :: requests)). set (f1 := mkFlight _ _ _ _ _).
    assert (Hcnt0 : forall l, (forall a, a ∈ l -> a.1 < length (groups f)) -> cnt (length (groups f)) l = 0).
    { intros l Hl. unfold cnt. induction l as [|a l IH]; [done|]. rewrite filter_cons, decide_False; [apply IH; intros b Hb; apply Hl; by right|].
      specialize (Hl a ltac:(by left)). lia. }
    assert (Hcntn : forall i m, cnt (length (groups f)) (map (pair (length (groups f))) (seq i m)) = m).
    { intros i m. revert i. induction m as [|m IH]; intros i; [done|]. simpl. rewrite cnt_cons, decide_True by done. by rewrite IH. }
    assert (Hcnto : forall g i m, g <> length (groups f) -> cnt g (map (pair (length (groups f))) (seq i m)) = 0).
    { intros g i m Hne. revert i. induction m as [|m IH]; intros i; [done|]. simpl. rewrite cnt_cons, decide_False by (simpl; congruence). by rewrite IH. }
    destruct (track_loop_spec (length (groups f)) 0 (r :: requests) f1) as [H1 [H2 H3]].
    + done.
    + done.
    + unfold f1. cbn [groups m_active]. split.
      * intros i g Hi. rewrite cnt_app. destruct (decide (i < length (groups f))) as [Hlt|Hge].
        { rewrite lookup_app_l in Hi by done. rewrite (Ha1 i g Hi), Hcnto by lia. lia. }
        rewrite lookup_app_r in Hi by lia. destruct (i - length (groups f)) as [|k] eqn:Hk; [|done]. injection Hi as <-.
        replace i with (length (groups f)) by lia. rewrite Hcntn, Hcnt0; done.
      * intros a Ha. rewrite length_app. simpl. apply elem_of_app in Ha as [Ha|Ha]; [specialize (Ha2 a Ha); lia|].
        apply list_elem_of_fmap in Ha as (k & -> & _). simpl. lia.
    + assert (Hp1 : pending f1 = pending f ++ [op]).
      { unfold pending, f1. cbn [groups]. by rewrite filter_app, map_app. }
      rewrite Hp1 in H2, H3. split_and!; [done| |].
      * rewrite H2. change (completed f1) with (completed f). solve_Permutation.
      * rewrite length_app in H3. change (finishing f1) with (finishing f) in H3. rewrite H3. change (length [op]) with 1. lia.
Qed.
