(* ===== verification/MpiContext.v ===== *)
(** * The MPI context

    Models the rest of caravan/mpi/context.{hpp,cpp}: the queue of submissions that any thread fills and the
    owner drains, the lanes of [MpiLanes], the requests of [MpiFlight], the count of what is outstanding and
    shutdown.  A step is a critical section of [m_queueMutex] or what the owner does between two of
    them; condition variables only save polling, and the batch size of a drain only says how often the owner looks at
    the other sources of work. *)
From Stdlib Require Import ZArith Lia.
From stdpp Require Import base list numbers relations gmap strings.
From S2P Require Import Prelude Transition Outcome MpiLanes MpiFlight.

(** ** The context and its threads *)

Inductive command : Type := Native (op : nat) | Invocation (op : nat).

Definition command_op (c : command) : nat := match c with Native op | Invocation op => op end.

(** The owner between two critical sections: looking for work, running a submission, or about to
    run the start of a collective. *)
Inductive owner_state : Type := Idle | Executing (c : command) | Starting (start : option nat).

Record MpiContext : Type := mkContext {
  m_queue : list command;
  m_outstanding : nat;
  m_accepting : bool;
  m_stopping : bool;
  m_finished : bool;
  m_managedCollectives : gmap nat ManagedCollectiveLane;
  m_flight : flight;
  owner : owner_state;
  submitted : list nat
}.

Definition flight_init : flight := mkFlight [] [] [] [] 0.
Definition MpiContext_init : MpiContext := mkContext [] 0 true false false ∅ flight_init Idle [].

(** The critical section of [submit]; without acceptance the process is terminated. *)
Definition submit (c : command) (x : MpiContext) : outcome MpiContext :=
  if negb (m_accepting x) then Abort "std::terminate"
  else Ret (mkContext (m_queue x ++ [c]) (S (m_outstanding x)) (m_accepting x) (m_stopping x) (m_finished x) (m_managedCollectives x)
              (m_flight x) (owner x) (submitted x ++ [command_op c])).

Definition set_lane (communicator : nat) (l : ManagedCollectiveLane) (outstanding : nat) (x : MpiContext) : MpiContext :=
  mkContext (m_queue x) outstanding (m_accepting x) (m_stopping x) (m_finished x) (<[communicator := l]> (m_managedCollectives x))
    (m_flight x) (owner x) (submitted x).

Definition set_owner (o : owner_state) (x : MpiContext) : MpiContext :=
  mkContext (m_queue x) (m_outstanding x) (m_accepting x) (m_stopping x) (m_finished x) (m_managedCollectives x) (m_flight x) o (submitted x).

Definition set_flight (f : flight) (x : MpiContext) : MpiContext :=
  mkContext (m_queue x) (m_outstanding x) (m_accepting x) (m_stopping x) (m_finished x) (m_managedCollectives x) f (owner x) (submitted x).

(** The operator [] of [m_managedCollectives]. *)
Definition lane_of (communicator : nat) (x : MpiContext) : ManagedCollectiveLane := default lane_init (m_managedCollectives x !! communicator).

Definition reserveManagedCollective (communicator : nat) (x : MpiContext) : outcome (nat * MpiContext) :=
  if negb (m_accepting x) then Throw runtime_error "MPI context is shutting down"
  else let (ticket, l) := lane_reserve (lane_of communicator x) in
       Ret (ticket, set_lane communicator l (S (m_outstanding x)) x).

Definition releaseManagedCollective (communicator ticket start : nat) (x : MpiContext) : outcome MpiContext :=
  match m_managedCollectives x !! communicator with
  | None => Throw logic_error "Unknown managed collective ticket"
  | Some l =>
      match lane_commit ticket start l with
      | (Ret _, l) => Ret (set_lane communicator l (m_outstanding x) x)
      | (Throw e what, _) => Throw e what
      | (Abort msg, _) => Abort msg
      | (Undefined, _) => Undefined
      end
  end.

Definition abandonManagedCollective (communicator ticket : nat) (x : MpiContext) : MpiContext :=
  match m_managedCollectives x !! communicator with
  | None => x
  | Some l => set_lane communicator (lane_skip ticket l) (m_outstanding x) x
  end.

Definition requestShutdown (x : MpiContext) : MpiContext :=
  mkContext (m_queue x) (m_outstanding x) false true (m_finished x) (lane_skipReserved <$> m_managedCollectives x)
    (m_flight x) (owner x) (submitted x).

Definition finishOperation (x : MpiContext) : MpiContext :=
  mkContext (m_queue x) (m_outstanding x - 1) (m_accepting x) (m_stopping x) (m_finished x) (m_managedCollectives x)
    (m_flight x) (owner x) (submitted x).

Section context.
(** The requests a native operation starts. *)
Context (batch : nat -> list (option nat)).

(** What the owner does with a submission. *)
Definition execute (c : command) (x : MpiContext) : MpiContext :=
  match c with
  | Native op => set_flight (trackNative op (batch op) (m_flight x)) x
  | Invocation op =>
      let f := m_flight x in
      set_flight (mkFlight (m_requests f) (m_active f) (groups f) (completed f ++ [(op, [])]) (S (finishing f))) x
  end.

Definition with_queue (q : list command) (x : MpiContext) : MpiContext :=
  mkContext q (m_outstanding x) (m_accepting x) (m_stopping x) (m_finished x) (m_managedCollectives x) (m_flight x) (owner x) (submitted x).

Definition with_finishing (n : nat) (f : flight) : flight := mkFlight (m_requests f) (m_active f) (groups f) (completed f) n.

(** [inr] is the end of the process. *)
Inductive context_step : MpiContext -> MpiContext + unit -> Prop :=
  | context_submit x c x' : submit c x = Ret x' -> context_step x (inl x')
  | context_submit_closed x c msg : submit c x = Abort msg -> context_step x (inr tt)
  | context_reserve x c t x' : reserveManagedCollective c x = Ret (t, x') -> context_step x (inl x')
  | context_release x c t k x' : releaseManagedCollective c t k x = Ret x' -> context_step x (inl x')
  | context_release_inactive x c t k e what : releaseManagedCollective c t k x = Throw e what -> context_step x (inr tt)
  | context_abandon x c t : context_step x (inl (abandonManagedCollective c t x))
  | context_shutdown x : context_step x (inl (requestShutdown x))
  | context_pop x c q : owner x = Idle -> m_queue x = c :: q -> context_step x (inl (set_owner (Executing c) (with_queue q x)))
  | context_execute x c : owner x = Executing c -> context_step x (inl (set_owner Idle (execute c x)))
  | context_pop_collective x c l start l' :
      owner x = Idle -> m_managedCollectives x !! c = Some l -> lane_popReady l = (Some start, l') ->
      context_step x (inl (set_owner (Starting start) (set_lane c l' (m_outstanding x - 1) x)))
  | context_start x k x' : owner x = Starting (Some k) -> submit (Native k) x = Ret x' -> context_step x (inl (set_owner Idle x'))
  | context_start_closed x k msg : owner x = Starting (Some k) -> submit (Native k) x = Abort msg -> context_step x (inr tt)
  | context_start_skipped x : owner x = Starting None -> context_step x (inl (set_owner Idle x))
  | context_test x indices : owner x = Idle -> reported indices (m_flight x) ->
      context_step x (inl (set_flight (progressRequests indices (m_flight x)) x))
  | context_finish x n : finishing (m_flight x) = S n ->
      context_step x (inl (finishOperation (set_flight (with_finishing n (m_flight x)) x)))
  | context_end x : owner x = Idle -> m_stopping x = true -> m_outstanding x = 0 ->
      context_step x (inl (mkContext (m_queue x) (m_outstanding x) (m_accepting x) (m_stopping x) true (m_managedCollectives x)
        (m_flight x) (owner x) (submitted x))).

(** Steps of a process that goes on. *)
Definition context_runs (x y : MpiContext) : Prop := context_step x (inl y).

(** ** The count of what is outstanding *)

Definition lane_total (ls : gmap nat ManagedCollectiveLane) : nat :=
  sum_list_with (fun p => length (entries p.2)) (map_to_list ls).

Definition owner_ops (o : owner_state) : list nat := match o with Executing c => [command_op c] | _ => [] end.

Record context_ok (x : MpiContext) : Prop := {
  mc_flight : flight_ok (m_flight x);
  mc_count : m_outstanding x = length (m_queue x) + length (owner_ops (owner x)) + length (pending (m_flight x)) +
    finishing (m_flight x) + lane_total (m_managedCollectives x);
  mc_ops : submitted x ≡ₚ map command_op (m_queue x) ++ owner_ops (owner x) ++ pending (m_flight x) ++ map fst (completed (m_flight x));
  mc_open : m_accepting x = negb (m_stopping x)
}.

Lemma lane_total_insert ls c l : lane_total (<[c := l]> ls) + length (entries (default lane_init (ls !! c))) = lane_total ls + length (entries l).
Proof.
  unfold lane_total. destruct (ls !! c) as [l0|] eqn:Hc; simpl.
  - rewrite <-(insert_delete_id ls c l0 Hc) at 2. rewrite <-insert_delete_eq.
    rewrite !map_to_list_insert by apply lookup_delete_eq. simpl. lia.
  - rewrite map_to_list_insert by done. simpl. lia.
Qed.

Lemma lane_total_fmap ls f : (forall l, length (entries (f l)) = length (entries l)) -> lane_total (f <$> ls) = lane_total ls.
Proof.
  intros Hf. unfold lane_total. rewrite map_to_list_fmap. induction (map_to_list ls) as [|[c l] k IH]; [done|].
  rewrite fmap_cons. cbn [sum_list_with]. rewrite IH. simpl. by rewrite Hf.
Qed.

Lemma lane_commit_entries t k l l' : lane_commit t k l = (Ret tt, l') -> length (entries l') = length (entries l).
Proof.
  unfold lane_commit, mbind, Host_bind, get_state. destruct (lane_find t l) as [[s []]|]; try discriminate.
  intros [= <-]. simpl. apply length_insert.
Qed.

Lemma lane_skip_entries t l : length (entries (lane_skip t l)) = length (entries l).
Proof. unfold lane_skip. destruct (lane_find t l) as [[s []]|]; try done. simpl. apply length_insert. Qed.

Lemma lane_popReady_entries l s l' : lane_popReady l = (Some s, l') -> length (entries l) = S (length (entries l')).
Proof.
  unfold lane_popReady, lane_ready. destruct (entries l) as [|[s0 []] es]; simpl; try discriminate; by intros [= _ <-].
Qed.

Lemma submit_ok c x x' : context_ok x -> submit c x = Ret x' -> context_ok x'.
Proof.
  intros [Hf Hc Ho Ha]. unfold submit. destruct (m_accepting x) eqn:Hacc; [|discriminate]. intros [= <-].
  constructor; cbn [m_queue m_outstanding m_accepting m_stopping m_managedCollectives m_flight owner submitted]; try done.
  - rewrite length_app. simpl. lia.
  - rewrite Ho, map_app. simpl. solve_Permutation.
Qed.

Lemma context_ok_step : preserved context_runs context_ok.
Proof.
  intros x y Hok Hstep. unfold context_runs in Hstep. remember (inl y) as r eqn:Hr. pose proof Hok as [Hf Hc Ho Ha].
  destruct Hstep as [x c x' Hs|x c msg Hs|x c t x' Hs|x c t k x' Hs|x c t k e what Hs|x c t|x|x c q Hi Hq|x c Hi|
    x c l start l' Hi Hl Hp|x k x' Hi Hs|x k msg Hi Hs|x Hi|x indices Hi Hrep|x n Hn|x Hi Hst Hz]; try discriminate; injection Hr as <-.
  - by eapply submit_ok.
  - unfold reserveManagedCollective in Hs. destruct (m_accepting x) eqn:Hacc; [|discriminate]. simpl in Hs. injection Hs as _ <-.
    constructor; cbn [set_lane m_queue m_outstanding m_accepting m_stopping m_managedCollectives m_flight owner submitted]; try done; [|by rewrite Hacc].
    pose proof (lane_total_insert (m_managedCollectives x) c (mkLane (firstSequence (lane_of c x)) (entries (lane_of c x) ++ [mkEntry None reserved]))) as Ht.
    cbn [entries] in Ht. rewrite length_app in Ht. unfold lane_of in *. simpl length in Ht. simpl. lia.
  - unfold releaseManagedCollective in Hs. destruct (m_managedCollectives x !! c) as [l|] eqn:Hl; [|discriminate].
    destruct (lane_commit t k l) as [[[]| | |] l'] eqn:Hcm; try discriminate. injection Hs as <-.
    constructor; cbn [set_lane m_queue m_outstanding m_accepting m_stopping m_managedCollectives m_flight owner submitted]; try done.
    pose proof (lane_total_insert (m_managedCollectives x) c l') as Ht. rewrite Hl in Ht. simpl in Ht. apply lane_commit_entries in Hcm. lia.
  - unfold abandonManagedCollective. destruct (m_managedCollectives x !! c) as [l|] eqn:Hl; [|done].
    constructor; cbn [set_lane m_queue m_outstanding m_accepting m_stopping m_managedCollectives m_flight owner submitted]; try done.
    pose proof (lane_total_insert (m_managedCollectives x) c (lane_skip t l)) as Ht. rewrite Hl in Ht. simpl in Ht. rewrite lane_skip_entries in Ht. lia.
  - constructor; cbn [requestShutdown m_queue m_outstanding m_accepting m_stopping m_managedCollectives m_flight owner submitted]; try done.
    rewrite lane_total_fmap; [done|]. intros l. simpl. apply length_map.
  - rewrite Hi, Hq in *. constructor; cbn; try done; simpl in Hc, Ho |- *; [lia|]. by rewrite Ho, <-Permutation_middle.
  - rewrite Hi in *. destruct c as [op|op]; simpl in Hc, Ho |- *.
    + destruct (trackNative_spec op (batch op) (m_flight x) Hf) as (H1 & H2 & H3). constructor; cbn; try done.
      * lia.
      * rewrite Ho, H2. solve_Permutation.
    + constructor; cbn; try done; [by destruct Hf; constructor| |].
      * unfold pending in *. cbn [groups]. lia.
      * rewrite Ho, map_app. unfold pending. cbn [groups map]. solve_Permutation.
  - rewrite Hi in *. apply lane_popReady_entries in Hp. pose proof (lane_total_insert (m_managedCollectives x) c l') as Ht.
    rewrite Hl in Ht. simpl in Ht. constructor; cbn; try done. simpl in Hc. lia.
  - destruct (submit_ok (Native k) x x' Hok Hs) as [H1 H2 H3 H4]. assert (Hi' : owner x' = Starting (Some k)).
    { unfold submit in Hs. destruct (m_accepting x); [|discriminate]. by injection Hs as <-. }
    rewrite Hi' in H2, H3. by constructor.
  - rewrite Hi in *. by constructor.
  - destruct (progressRequests_spec indices (m_flight x) Hf Hrep) as [H1 [H2 H3]]. constructor; cbn; try done; [lia|]. by rewrite Ho, H2.
  - constructor; cbn; try done; [by destruct Hf; constructor|]. unfold pending in *. cbn [groups] in *. lia.
  - by constructor.
Qed.

Lemma context_reachable x : rtc context_runs MpiContext_init x -> context_ok x.
Proof.
  apply preserved_rtc; [apply context_ok_step|]. constructor; try done. constructor; try done. split; [done|]. by intros a ?%elem_of_nil.
Qed.

(** Once [requestShutdown] has been called, nothing is accepted. *)
Lemma stopping_stays : preserved context_runs (fun x => m_stopping x = true /\ m_accepting x = false).
Proof.
  intros x y [Hst Hacc] Hstep. unfold context_runs in Hstep. remember (inl y) as r eqn:Hr.
  destruct Hstep as [x c x' Hs|x c msg Hs|x c t x' Hs|x c t k x' Hs|x c t k e what Hs|x c t|x|x c q Hi Hq|x c Hi|
    x c l start l' Hi Hl Hp|x k x' Hi Hs|x k msg Hi Hs|x Hi|x indices Hi Hrep|x n Hn|x Hi Hst' Hz]; try discriminate; injection Hr as <-; try done.
  - unfold submit in Hs. by rewrite Hacc in Hs.
  - unfold reserveManagedCollective in Hs. by rewrite Hacc in Hs.
  - unfold releaseManagedCollective in Hs. destruct (m_managedCollectives x !! c) as [l|]; [|discriminate].
    destruct (lane_commit t k l) as [[[]| | |] l']; try discriminate. by injection Hs as <-.
  - unfold abandonManagedCollective. by destruct (m_managedCollectives x !! c).
  - destruct c; done.
  - unfold submit in Hs. by rewrite Hacc in Hs.
Qed.
End context.

(** ** Shutdown *)

Definition undecided (e : Entry) : Prop := e_state e = reserved.

(** After [requestShutdown] no lane waits for a ticket. *)
Definition lanes_decided (x : MpiContext) : Prop :=
  m_stopping x = true -> forall c l, m_managedCollectives x !! c = Some l -> Forall (fun e => ~ undecided e) (entries l).

Lemma lane_commit_decided t k l l' : lane_commit t k l = (Ret tt, l') -> Forall (fun e => ~ undecided e) (entries l) -> Forall (fun e => ~ undecided e) (entries l').
Proof.
  unfold lane_commit, mbind, Host_bind, get_state. destruct (lane_find t l) as [[s []]|]; try discriminate.
  intros [= <-] Hf. apply Forall_insert; [done|]. by intros ?.
Qed.

Lemma lane_skip_decided t l : Forall (fun e => ~ undecided e) (entries l) -> Forall (fun e => ~ undecided e) (entries (lane_skip t l)).
Proof.
  intros Hf. unfold lane_skip. destruct (lane_find t l) as [[s []]|]; try done. apply Forall_insert; [done|]. by intros ?.
Qed.

Lemma lane_popReady_decided l s l' : lane_popReady l = (Some s, l') -> Forall (fun e => ~ undecided e) (entries l) -> Forall (fun e => ~ undecided e) (entries l').
Proof.
  unfold lane_popReady, lane_ready. destruct (entries l) as [|[s0 []] es]; simpl; try discriminate;
    intros [= _ <-] Hf; by apply list.Forall_cons in Hf as [_ Hf].
Qed.

Lemma lanes_decided_set c l n x : lanes_decided x -> (m_stopping x = true -> Forall (fun e => ~ undecided e) (entries l)) ->
  lanes_decided (set_lane c l n x).
Proof.
  intros Hx Hl Hs c' l'. cbn. destruct (decide (c' = c)) as [->|Hne].
  - rewrite lookup_insert_eq. intros [= <-]. by apply Hl.
  - rewrite lookup_insert_ne by done. by apply Hx.
Qed.

Lemma lanes_decided_step batch x y : context_ok x -> lanes_decided x -> context_runs batch x y -> lanes_decided y.
Proof.
  intros Hok Hx Hstep. unfold context_runs in Hstep. remember (inl y) as r eqn:Hr.
  destruct Hstep as [x c x' Hs|x c msg Hs|x c t x' Hs|x c t k x' Hs|x c t k e what Hs|x c t|x|x c q Hi Hq|x c Hi|
    x c l start l' Hi Hl Hp|x k x' Hi Hs|x k msg Hi Hs|x Hi|x indices Hi Hrep|x n Hn|x Hi Hst' Hz]; try discriminate; injection Hr as <-; try done.
  - unfold submit in Hs. destruct (m_accepting x); [|discriminate]. by injection Hs as <-.
  - unfold reserveManagedCollective in Hs. destruct (m_accepting x) eqn:Ha; [|discriminate]. injection Hs as _ <-.
    apply lanes_decided_set; [done|]. intros Hst. pose proof (mc_open x Hok) as Ho. rewrite Ha, Hst in Ho. discriminate.
  - unfold releaseManagedCollective in Hs. destruct (m_managedCollectives x !! c) as [l|] eqn:Hl; [|discriminate].
    destruct (lane_commit t k l) as [[[]| | |] l'] eqn:Hcm; try discriminate. injection Hs as <-.
    apply lanes_decided_set; [done|]. intros Hst. eapply lane_commit_decided; [exact Hcm|by eapply Hx].
  - unfold abandonManagedCollective. destruct (m_managedCollectives x !! c) as [l|] eqn:Hl; [|done].
    apply lanes_decided_set; [done|]. intros Hst. apply lane_skip_decided. by eapply Hx.
  - intros _ c l. cbn. rewrite lookup_fmap. intros (l0 & _ & ->)%fmap_Some. simpl. apply List.Forall_map, list.Forall_true. intros [s []]; by intros ?.
  - by destruct c.
  - apply (lanes_decided_set c l' (m_outstanding x - 1)); [done|]. intros Hst. eapply lane_popReady_decided; [exact Hp|by eapply Hx].
  - unfold submit in Hs. destruct (m_accepting x); [|discriminate]. by injection Hs as <-.
Qed.

(** [hasReadyManagedCollective]. *)
Definition hasReadyManagedCollective (x : MpiContext) : bool :=
  existsb (fun p => lane_ready p.2) (map_to_list (m_managedCollectives x)).

Lemma lane_total_lookup ls c l : ls !! c = Some l -> length (entries l) <= lane_total ls.
Proof.
  intros Hl. pose proof (lane_total_insert ls c lane_init) as Ht. rewrite Hl in Ht. simpl in Ht. lia.
Qed.

Lemma lane_total_pos ls : lane_total ls <> 0 -> exists c l, ls !! c = Some l /\ entries l <> [].
Proof.
  unfold lane_total. assert (Hin : forall p, p ∈ map_to_list ls -> ls !! p.1 = Some p.2) by (intros [c l]; by rewrite elem_of_map_to_list).
  revert Hin. induction (map_to_list ls) as [|[c l] k IH]; intros Hin Hnz; [done|]. simpl in Hnz.
  destruct (entries l) eqn:He.
  - apply IH; [|by simpl in Hnz]. intros p Hp. apply Hin. by right.
  - exists c, l. split; [by apply (Hin (c, l)); left|]. by rewrite He.
Qed.

(** Where nothing is outstanding, nothing is left anywhere. *)
Lemma outstanding_zero y : context_ok y -> m_outstanding y = 0 ->
  m_queue y = [] /\ m_requests (m_flight y) = [] /\ lane_total (m_managedCollectives y) = 0 /\ owner_ops (owner y) = [] /\
  map fst (completed (m_flight y)) ≡ₚ submitted y.
Proof.
  intros [Hf Hc Ho _] Hz. assert (Hq : m_queue y = []) by (apply nil_length_inv; lia).
  assert (Hoo : owner_ops (owner y) = []) by (apply nil_length_inv; lia). assert (Hp : pending (m_flight y) = []) by (apply nil_length_inv; lia).
  split_and!; try done; [|lia|by rewrite Ho, Hq, Hoo, Hp].
  destruct Hf as [Hlen _ [Hrem Hlt]]. apply nil_length_inv. rewrite Hlen. destruct (m_active (m_flight y)) as [|a l] eqn:Ha; [done|exfalso].
  destruct (lookup_lt_is_Some_2 (groups (m_flight y)) a.1) as [g Hg]; [apply Hlt; by left|]. specialize (Hrem _ _ Hg).
  rewrite cnt_cons, decide_True in Hrem by done. unfold pending in Hp.
  destruct (filter _ (groups (m_flight y))) eqn:Hfi; [|done].
  apply (filter_nil_not_elem_of _ _ g Hfi); [lia|by eapply list_elem_of_lookup_2].
Qed.

(** Reporting the first request leaves fewer requests. *)
Lemma progress_first f r rs : flight_ok f -> m_requests f = r :: rs ->
  length (m_requests (progressRequests [(0, 0)] f)) <= length rs.
Proof.
  intros [Hlen _ _] Hr. unfold progressRequests. cbn [foldl]. rewrite Hr. cbn [insert list_insert].
  assert (Ha : forall g i s, m_active (retireActive g i s f) = m_active f).
  { intros g i s. unfold retireActive. destruct (groups f !! g) as [gr|]; [|done]. by destruct (retire i s gr) as [[] ?]. }
  set (f' := match _ with Some _ => _ | None => f end).
  assert (Hf' : m_active f' = m_active f) by (unfold f'; destruct (m_active f !! _) as [[g i]|]; [apply Ha|done]).
  rewrite Hf'. rewrite compact_spec by (by rewrite <-Hlen, Hr). cbn [m_requests].
  rewrite length_map. destruct (m_active f) as [|a l]; [simpl; lia|]. simpl zip. unfold keep. rewrite filter_cons, decide_False by (intros H; by apply H).
  etrans; [apply length_filter|]. rewrite length_zip_with. lia.
Qed.

(** Without requests no operation is pending. *)
Lemma no_requests_pending f : flight_ok f -> m_requests f = [] -> pending f = [].
Proof.
  intros [Hlen _ [Hrem _]] Hr. rewrite Hr in Hlen. symmetry in Hlen. apply nil_length_inv in Hlen. unfold pending.
  rewrite (list_filter_none _ (groups f)); [done|]. intros g [i Hg]%list_elem_of_lookup Hne. by rewrite (Hrem _ _ Hg), Hlen in Hne.
Qed.

Lemma decided_ready l : Forall (fun e => ~ undecided e) (entries l) -> entries l <> [] -> lane_ready l = true.
Proof.
  intros Hd Hne. unfold lane_ready. destruct (entries l) as [|[s []] es]; try done. apply list.Forall_cons in Hd as [Hd _]. by destruct Hd.
Qed.

(** A step that starts with nothing outstanding after shutdown adds nothing. *)
Lemma shut_step batch x y : context_ok x -> m_accepting x = false -> m_outstanding x = 0 -> context_runs batch x y ->
  submitted y = submitted x /\ m_outstanding y = 0.
Proof.
  intros Hok Hacc Hz Hs. unfold context_runs in Hs. remember (inl y) as r eqn:Hr. destruct (outstanding_zero x Hok Hz) as (Hq & _ & Hl & Hoo & _).
  destruct Hs as [x c x' Hs|x c msg Hs|x c t x' Hs|x c t k x' Hs|x c t k e what Hs|x c t|x|x c q Hi Hq'|x c Hi|
    x c l start l' Hi Hl' Hp|x k x' Hi Hs|x k msg Hi Hs|x Hi|x indices Hi Hrep|x n Hn|x Hi Hst2 Hz2]; try discriminate; injection Hr as <-; try (by split; [|exact Hz]).
  - unfold submit in Hs. by rewrite Hacc in Hs.
  - unfold reserveManagedCollective in Hs. by rewrite Hacc in Hs.
  - unfold releaseManagedCollective in Hs. destruct (m_managedCollectives x !! c) as [l|]; [|discriminate].
    destruct (lane_commit t k l) as [[[]| | |] l']; try discriminate. by injection Hs as <-.
  - unfold abandonManagedCollective. by destruct (m_managedCollectives x !! c).
  - by rewrite Hi in Hoo.
  - apply lane_popReady_entries in Hp. pose proof (lane_total_lookup _ _ _ Hl'). lia.
  - unfold submit in Hs. by rewrite Hacc in Hs.
  - cbn. rewrite Hz. done.
Qed.

Lemma shut_run batch x y : rtc (context_runs batch) x y -> context_ok x -> m_stopping x = true -> m_accepting x = false ->
  m_outstanding x = 0 -> submitted y = submitted x /\ m_outstanding y = 0.
Proof.
  induction 1 as [x|x y z Hs _ IH]; [done|]. intros Hok Hst Hacc Hz.
  destruct (stopping_stays batch x y (conj Hst Hacc) Hs). destruct (shut_step batch x y) as [<- Hzy]; [done..|].
  apply IH; try done. by eapply context_ok_step.
Qed.

(** ** The way to the end *)

(** No collective was committed and not yet started. *)
Definition nothing_to_start (x : MpiContext) : Prop :=
  (forall k, owner x <> Starting (Some k)) /\
  forall c l, m_managedCollectives x !! c = Some l -> Forall (fun e => e_start e = None) (entries l).

(** What holds from [requestShutdown] on, if nothing is left to start. *)
Record closing (x : MpiContext) : Prop := {
  cl_ok : context_ok x;
  cl_shut : m_stopping x = true /\ m_accepting x = false;
  cl_decided : lanes_decided x;
  cl_start : nothing_to_start x
}.

Lemma nothing_to_start_lane c l o n x : nothing_to_start x -> (forall k, o <> Starting (Some k)) ->
  Forall (fun e => e_start e = None) (entries l) -> nothing_to_start (set_owner o (set_lane c l n x)).
Proof.
  intros [_ Hx] Ho Hl. split; [done|]. intros c' l'. cbn. destruct (decide (c' = c)) as [->|Hne].
  - rewrite lookup_insert_eq. by intros [= <-].
  - rewrite lookup_insert_ne by done. apply Hx.
Qed.

Lemma lane_popReady_start l s l' : lane_popReady l = (Some s, l') -> Forall (fun e => e_start e = None) (entries l) ->
  s = None /\ Forall (fun e => e_start e = None) (entries l').
Proof.
  unfold lane_popReady, lane_ready. destruct (entries l) as [|[s0 []] es]; simpl; try discriminate;
    intros [= <- <-] Hf; apply list.Forall_cons in Hf as [H Hf]; by split.
Qed.

Lemma lane_commit_reserved t k l l' : lane_commit t k l = (Ret tt, l') -> ~ Forall (fun e => ~ undecided e) (entries l).
Proof.
  unfold lane_commit, mbind, Host_bind, get_state. destruct (lane_find t l) as [[s []]|] eqn:Hf; try discriminate.
  intros _ Hall. apply lane_find_spec in Hf as [_ Hf]. rewrite list.Forall_forall in Hall.
  by apply (Hall _ (list_elem_of_lookup_2 _ _ _ Hf)).
Qed.

Lemma closing_step batch : preserved (context_runs batch) closing.
Proof.
  intros x y [Hok Hshut Hdec Hns] Hstep. split; [by eapply context_ok_step|by eapply stopping_stays|by eapply lanes_decided_step|].
  destruct Hshut as [Hst Hacc]. pose proof Hns as [Hno Hnl]. unfold context_runs in Hstep. remember (inl y) as r eqn:Hr.
  destruct Hstep as [x c x' Hs|x c msg Hs|x c t x' Hs|x c t k x' Hs|x c t k e what Hs|x c t|x|x c q Hi Hq|x c Hi|
    x c l start l' Hi Hl Hp|x k x' Hi Hs|x k msg Hi Hs|x Hi|x indices Hi Hrep|x n Hn|x Hi Hst' Hz]; try discriminate; injection Hr as <-; try done.
  - unfold submit in Hs. by rewrite Hacc in Hs.
  - unfold reserveManagedCollective in Hs. by rewrite Hacc in Hs.
  - unfold releaseManagedCollective in Hs. destruct (m_managedCollectives x !! c) as [l|] eqn:Hl; [|discriminate].
    destruct (lane_commit t k l) as [[[]| | |] l'] eqn:Hcm; try discriminate. by destruct (lane_commit_reserved _ _ _ _ Hcm (Hdec Hst c l Hl)).
  - unfold abandonManagedCollective. destruct (m_managedCollectives x !! c) as [l|] eqn:Hl; [|done].
    apply (nothing_to_start_lane c (lane_skip t l) (owner x) (m_outstanding x) x); [done|done|].
    unfold lane_skip. destruct (lane_find t l) as [[s []]|] eqn:Hf; [|by eapply Hnl..].
    apply lane_find_spec in Hf as [_ Hf]. pose proof (Hnl c l Hl) as Hall. apply Forall_insert; [done|].
    rewrite list.Forall_forall in Hall. exact (Hall _ (list_elem_of_lookup_2 _ _ _ Hf)).
  - split; [done|]. intros c l. cbn. rewrite lookup_fmap. intros (l0 & Hl0 & ->)%fmap_Some. simpl. apply List.Forall_map.
    eapply list.Forall_impl; [by eapply Hnl|]. intros [s []]; done.
  - by destruct c.
  - destruct (lane_popReady_start _ _ _ Hp (Hnl c l Hl)) as [-> Hl']. by apply nothing_to_start_lane.
  - by destruct (Hno k).
Qed.

Lemma closing_run batch x y : rtc (context_runs batch) x y -> closing x -> closing y.
Proof. intros Hxy Hc. by apply (preserved_rtc (context_runs batch) closing x y (closing_step batch)). Qed.

Lemma lanes_decided_reachable batch x : rtc (context_runs batch) MpiContext_init x -> lanes_decided x.
Proof.
  intros Hrun. enough (context_ok x /\ lanes_decided x) by tauto.
  apply (preserved_rtc (context_runs batch) (fun x => context_ok x /\ lanes_decided x) MpiContext_init x); [| |exact Hrun].
  - intros y z [Hy Hd] Hs. split; [by eapply context_ok_step|by eapply lanes_decided_step].
  - split; [apply (context_reachable batch), rtc_refl|done].
Qed.

(** The owner works through the queue. *)
Lemma close_queue batch n : forall x, closing x -> length (m_queue x) <= n ->
  exists y, rtc (context_runs batch) x y /\ owner y = Idle /\ m_queue y = [].
Proof.
  assert (Hidle : forall x, closing x -> exists y, rtc (context_runs batch) x y /\ owner y = Idle /\ m_queue y = m_queue x).
  { intros x [_ _ _ [Hno _]]. destruct (owner x) as [|c|[k|]] eqn:Hi.
    - exists x. split_and!; [apply rtc_refl|done..].
    - eexists. split; [by apply rtc_once, context_execute|]. by destruct c.
    - by destruct (Hno k).
    - eexists. split; [by apply rtc_once, context_start_skipped|done]. }
  induction n as [|n IH]; intros x Hx Hn; destruct (Hidle x Hx) as (y & Hxy & Hi & Hq).
  - exists y. split_and!; [done..|]. rewrite Hq. apply nil_length_inv. lia.
  - destruct (m_queue y) as [|c q] eqn:Hqy; [by exists y|].
    set (y' := set_owner (Executing c) (with_queue q y)).
    assert (Hyy : context_runs batch y y') by (by apply context_pop).
    destruct (IH y') as (z & Hyz & Hz).
    + apply (closing_step batch y); [by eapply closing_run|done].
    + cbn. rewrite <-Hq in Hn. simpl in Hn. lia.
    + exists z. split; [|done]. etrans; [exact Hxy|]. by eapply rtc_l.
Qed.

(** MPI completes the requests, one after the other. *)
Lemma close_requests batch n : forall x, closing x -> owner x = Idle -> m_queue x = [] -> length (m_requests (m_flight x)) <= n ->
  exists y, rtc (context_runs batch) x y /\ owner y = Idle /\ m_queue y = [] /\ m_requests (m_flight y) = [].
Proof.
  induction n as [|n IH]; intros x Hx Hi Hq Hn.
  - exists x. split_and!; [apply rtc_refl|done..|]. apply nil_length_inv. lia.
  - destruct (m_requests (m_flight x)) as [|r rs] eqn:Hr; [exists x; split_and!; [apply rtc_refl|done..]|].
    set (y := set_flight (progressRequests [(0, 0)] (m_flight x)) x).
    assert (Hxy : context_runs batch x y).
    { apply context_test; [done|]. split; [apply NoDup_singleton|]. rewrite Hr. constructor; [simpl; lia|constructor]. }
    destruct (IH y) as (z & Hyz & Hz); [by eapply closing_step|done|done| |exists z; split; [by eapply rtc_l|done]].
    cbn. enough (length (m_requests (progressRequests [(0, 0)] (m_flight x))) <= length rs) by (simpl in Hn; lia).
    apply (progress_first _ r); [apply (mc_flight _ (cl_ok _ Hx))|done].
Qed.

Lemma close_finishing batch n : forall x, owner x = Idle -> m_queue x = [] -> m_requests (m_flight x) = [] ->
  finishing (m_flight x) = n ->
  exists y, rtc (context_runs batch) x y /\ owner y = Idle /\ m_queue y = [] /\ m_requests (m_flight y) = [] /\ finishing (m_flight y) = 0.
Proof.
  induction n as [|n IH]; intros x Hi Hq Hr Hn; [exists x; split_and!; [apply rtc_refl|done..]|].
  destruct (IH (finishOperation (set_flight (with_finishing n (m_flight x)) x)) Hi Hq Hr eq_refl) as (z & Hz & H).
  exists z. split; [|done]. eapply rtc_l; [by apply context_finish|done].
Qed.

(** The skipped tickets leave their lanes. *)
Lemma close_lanes batch n : forall x, closing x -> owner x = Idle -> m_queue x = [] -> m_requests (m_flight x) = [] ->
  finishing (m_flight x) = 0 -> lane_total (m_managedCollectives x) = n ->
  exists y, rtc (context_runs batch) x y /\ owner y = Idle /\ m_outstanding y = 0.
Proof.
  induction n as [|n IH]; intros x Hx Hi Hq Hr Hf Hn.
  - exists x. split_and!; [apply rtc_refl|done|]. destruct Hx as [[Hfl Hc _ _] _ _ _].
    by rewrite Hc, Hq, Hi, Hf, Hn, (no_requests_pending _ Hfl Hr).
  - destruct (lane_total_pos (m_managedCollectives x)) as (c & l & Hl & Hne); [lia|].
    pose proof Hx as [_ [Hst _] Hdec [_ Hns]]. pose proof (decided_ready l (Hdec Hst c l Hl) Hne) as Hrd.
    destruct (lane_popReady l) as [[s|] l'] eqn:Hp; [|unfold lane_popReady in Hp; rewrite Hrd in Hp; by destruct (entries l)].
    destruct (lane_popReady_start _ _ _ Hp (Hns c l Hl)) as [-> _].
    set (y := set_owner (Starting None) (set_lane c l' (m_outstanding x - 1) x)).
    assert (Hxy : context_runs batch x y) by (by eapply context_pop_collective).
    assert (Hyz : context_runs batch y (set_owner Idle y)) by (by apply context_start_skipped).
    destruct (IH (set_owner Idle y)) as (z & Hz & H); try done.
    + eapply closing_step; [|exact Hyz]. by eapply closing_step.
    + cbn. pose proof (lane_total_insert (m_managedCollectives x) c l') as Ht. rewrite Hl in Ht. simpl in Ht.
      apply lane_popReady_entries in Hp. lia.
    + exists z. split; [|done]. eapply rtc_l; [exact Hxy|]. by eapply rtc_l.
Qed.

Lemma close_all batch x : closing x -> exists y, rtc (context_runs batch) x y /\ m_outstanding y = 0 /\ m_finished y = true.
Proof.
  intros Hx. destruct (close_queue batch _ x Hx (le_n _)) as (x1 & R1 & Hi1 & Hq1). pose proof (closing_run _ _ _ R1 Hx) as Hx1.
  destruct (close_requests batch _ x1 Hx1 Hi1 Hq1 (le_n _)) as (x2 & R2 & Hi2 & Hq2 & Hr2). pose proof (closing_run _ _ _ R2 Hx1) as Hx2.
  destruct (close_finishing batch _ x2 Hi2 Hq2 Hr2 eq_refl) as (x3 & R3 & Hi3 & Hq3 & Hr3 & Hf3). pose proof (closing_run _ _ _ R3 Hx2) as Hx3.
  destruct (close_lanes batch _ x3 Hx3 Hi3 Hq3 Hr3 Hf3 eq_refl) as (x4 & R4 & Hi4 & Hz4). pose proof (closing_run _ _ _ R4 Hx3) as Hx4.
  pose proof (context_end batch x4 Hi4 (proj1 (cl_shut _ Hx4)) Hz4) as R5.
  eexists. split.
  - etrans; [exact R1|]. etrans; [exact R2|]. etrans; [exact R3|]. etrans; [exact R4|]. apply rtc_once, R5.
  - by split.
Qed.

(** C28: shutdown of the MPI context loses nothing.  In every reachable state the count of what is
    outstanding is exact: where the owner finds it to be zero after [requestShutdown], the queue is
    empty, MPI holds no request, no ticket is left and every submitted operation has been completed exactly once, and
    nothing can be submitted from then on.  As long as it is not zero the owner does not sleep: it has something to run, a
    lane is ready, or MPI holds requests.  And unless a collective has been committed and not yet been started
    ([committed_collective_terminates] says what becomes of it), the owner can get from every later state to the end, with
    nothing outstanding. *)
Theorem mpi_shutdown batch x :
  rtc (context_runs batch) MpiContext_init x ->
  m_stopping x = true ->
  (m_outstanding x = 0 ->
     m_queue x = [] /\ m_requests (m_flight x) = [] /\
     (forall c l, m_managedCollectives x !! c = Some l -> entries l = []) /\
     map fst (completed (m_flight x)) ≡ₚ submitted x /\
     forall y, rtc (context_runs batch) x y -> submitted y = submitted x /\ map fst (completed (m_flight y)) ≡ₚ submitted x) /\
  (m_outstanding x <> 0 -> owner x = Idle -> finishing (m_flight x) = 0 ->
     m_queue x <> [] \/ m_requests (m_flight x) <> [] \/ hasReadyManagedCollective x = true) /\
  (nothing_to_start x -> forall y, rtc (context_runs batch) x y ->
     exists z, rtc (context_runs batch) y z /\ m_outstanding z = 0 /\ m_finished z = true).
Proof.
  intros Hrun Hst. pose proof (context_reachable batch x Hrun) as Hok.
  assert (Hacc : m_accepting x = false) by (by rewrite (mc_open x Hok), Hst).
  pose proof (lanes_decided_reachable batch x Hrun) as Hdec. split_and!.
  - intros Hz. destruct (outstanding_zero x Hok Hz) as (Hq & Hr & Hl & Hoo & Hcs). split_and!; try done.
    + intros c l Hc. pose proof (lane_total_lookup _ _ _ Hc). apply nil_length_inv. lia.
    + intros y Hxy. destruct (shut_run batch x y Hxy Hok Hst Hacc Hz) as [Hsub Hzy].
      assert (Hoky : context_ok y) by (apply (context_reachable batch); by etrans).
      destruct (outstanding_zero y Hoky Hzy) as (_ & _ & _ & _ & Hcy). by rewrite Hcy, Hsub.
  - intros Hnz Hi Hfin. destruct (m_queue x) as [|c q] eqn:Hq; [right|by left].
    destruct (m_requests (m_flight x)) as [|r rs] eqn:Hr; [right|by left]. destruct Hok as [Hf Hc _ _].
    rewrite Hq, Hi, Hfin, (no_requests_pending _ Hf Hr) in Hc. simpl in Hc.
    destruct (lane_total_pos (m_managedCollectives x)) as (c & l & Hl & Hne); [lia|].
    unfold hasReadyManagedCollective. apply existsb_exists. exists (c, l). split; [by apply list_elem_of_In, elem_of_map_to_list|].
    apply decided_ready; [by apply (Hdec Hst c)|done].
  - intros Hns y Hxy. apply close_all. eapply closing_run; [exact Hxy|]. by split.
Qed.

(** An operation that MPI completes and a skipped ticket, at shutdown; the end can be reached from
    the moment of [requestShutdown] on. *)
Lemma mpi_shutdown_witness :
  (exists x, rtc (context_runs (fun op => [Some op; None])) MpiContext_init x /\ submitted x = [7] /\
     map fst (completed (m_flight x)) ≡ₚ [7] /\ m_requests (m_flight x) = []) /\
  (exists x z, rtc (context_runs (fun op => [Some op; None])) MpiContext_init x /\ m_outstanding x = 2 /\
     rtc (context_runs (fun op => [Some op; None])) x z /\ m_outstanding z = 0 /\ m_finished z = true).
Proof.
  set (batch := fun op : nat => [Some op; None]).
  assert (Hrun : exists x y, rtc (context_runs batch) MpiContext_init x /\ rtc (context_runs batch) x y /\
    m_stopping x = true /\ m_outstanding x = 2 /\ owner x = Idle /\ m_managedCollectives x = {[0 := mkLane 0 [mkEntry None skipped]]} /\
    submitted y = [7] /\ m_stopping y = true /\ m_outstanding y = 0).
  { do 2 eexists. split_and!.
    - eapply rtc_l; [eapply (context_submit batch _ (Native 7)); reflexivity|].
      eapply rtc_l; [eapply (context_reserve batch _ 0); reflexivity|].
      eapply rtc_l; [apply (context_pop batch _ (Native 7) []); reflexivity|].
      eapply rtc_l; [apply (context_execute batch _ (Native 7)); reflexivity|].
      eapply rtc_l; [apply context_shutdown|]. apply rtc_refl.
    - eapply rtc_l; [eapply (context_pop_collective batch _ 0); reflexivity|].
      eapply rtc_l; [apply context_start_skipped; reflexivity|].
      eapply rtc_l; [apply (context_test batch _ [(0, 3)]); [reflexivity|split; [apply NoDup_singleton|repeat constructor]]|].
      eapply rtc_l; [eapply (context_finish batch _ 0); reflexivity|]. apply rtc_refl.
    - reflexivity.
    - reflexivity.
    - reflexivity.
    - vm_compute. reflexivity.
    - reflexivity.
    - reflexivity.
    - reflexivity. }
  destruct Hrun as (x & y & Hx & Hxy & Hst & Hzx & Hi & Hl & Hs & Hsty & Hz). split.
  - exists y. assert (Hy : rtc (context_runs batch) MpiContext_init y) by (by etrans). split; [exact Hy|]. split; [exact Hs|].
    destruct (mpi_shutdown batch y Hy Hsty) as [H _]. destruct (H Hz) as (_ & Hr & _ & Hc & _). rewrite Hs in Hc. split; [exact Hc|exact Hr].
  - destruct (mpi_shutdown batch x Hx Hst) as (_ & _ & H). destruct (H) with (y := x) as (z & Hxz & Hzz).
    + split; [intros k; by rewrite Hi|]. rewrite Hl. intros c l [<- <-]%lookup_singleton_Some. by repeat constructor.
    + apply rtc_refl.
    + exists x, z. split; [exact Hx|]. split; [exact Hzx|]. split; [exact Hxz|exact Hzz].
Defined.

(** A collective that was committed before [requestShutdown] and has not been started yet terminates the
    process: its start submits the operation to a context that no longer accepts any. *)
Lemma committed_collective_terminates batch : exists x y z,
  rtc (context_runs batch) MpiContext_init x /\ m_managedCollectives x !! 0 = Some (mkLane 0 [mkEntry (Some 5) committed]) /\
  context_runs batch x (requestShutdown x) /\ rtc (context_runs batch) (requestShutdown x) y /\ context_runs batch y z /\
  context_step batch z (inr tt).
Proof.
  do 3 eexists. split_and!.
  - eapply rtc_l; [eapply (context_reserve batch _ 0); reflexivity|].
    eapply rtc_l; [eapply (context_release batch _ 0 0 5); reflexivity|]. apply rtc_refl.
  - reflexivity.
  - apply context_shutdown.
  - apply rtc_refl.
  - eapply (context_pop_collective batch _ 0); reflexivity.
  - eapply (context_start_closed batch _ 5); reflexivity.
Qed.
