(* ===== verification/Completion.v ===== *)
(** * The completion thread

    Models [CompletionFence] and [CompletionThread] of caravan/alpaka/completion.hpp.  The thread keeps the tasks
    in intrusive lists: a shared one that any thread appends to, one of the tasks to poll and one of the
    tasks to poll again, which is built through a pointer to its last link.  A task whose [poll] returns
    true may be destroyed at once; reading or writing a link of a destroyed task is undefined behaviour
    ([None]).  The refinement goes to three lists.  Waiting and polling policies only say when a scan begins. *)
From Stdlib Require Import ZArith Lia.
From stdpp Require Import base list numbers relations gmap.
From S2P Require Import Prelude Transition.

(** ** Fences *)

Record CompletionFence : Type := mkFence { m_recorded : bool; m_complete : bool }.

(** [record]: whether the event is enqueued. *)
Definition fence_record (f : CompletionFence) : bool * CompletionFence :=
  if m_recorded f then (false, f) else (true, mkFence true (m_complete f)).

(** [poll], when the event answers [isComplete]. *)
Definition fence_poll (isComplete : bool) (f : CompletionFence) : bool * CompletionFence :=
  if negb (m_recorded f) || m_complete f then (true, f) else (isComplete, mkFence (m_recorded f) isComplete).

(** ** The lists of the thread *)

(** Where [tail] points to: the local variable [deferred] or the link of a task. *)
Inductive link : Type := Local | NextOf (task : nat).

(** [next] of the tasks that exist, the shared list, and the locals of [run]. *)
Record CompletionThread : Type := mkThread {
  next : gmap nat (option nat);
  m_head : option nat;
  m_tail : option nat;
  pending : option nat;
  deferred : option nat;
  tail : link;
  scanning : bool
}.

Definition completion_init : CompletionThread := mkThread ∅ None None None None Local false.

Definition with_next (n : gmap nat (option nat)) (c : CompletionThread) : CompletionThread :=
  mkThread n (m_head c) (m_tail c) (pending c) (deferred c) (tail c) (scanning c).

(** A store to the link of a task. *)
Definition store_next (task : nat) (to : option nat) (c : CompletionThread) : option CompletionThread :=
  match next c !! task with Some _ => Some (with_next (<[task := to]> (next c)) c) | None => None end.

(** A task is created with a null link. *)
Definition create_task (task : nat) (c : CompletionThread) : CompletionThread := with_next (<[task := None]> (next c)) c.

Definition post (task : nat) (c : CompletionThread) : option CompletionThread :=
  match m_tail c with
  | Some t =>
      c ← store_next t (Some task) c;
      Some (mkThread (next c) (m_head c) (Some task) (pending c) (deferred c) (tail c) (scanning c))
  | None => Some (mkThread (next c) (Some task) (Some task) (pending c) (deferred c) (tail c) (scanning c))
  end.

(** The critical section of [run] and the beginning of a scan. *)
Definition splice (c : CompletionThread) : option CompletionThread :=
  c ← match m_head c, m_tail c with
      | Some h, Some t =>
          c ← store_next t (pending c) c;
          Some (mkThread (next c) None None (Some h) (deferred c) (tail c) (scanning c))
      | Some _, None => None
      | None, _ => Some c
      end;
  Some (mkThread (next c) (m_head c) (m_tail c) (pending c) None Local (match pending c with Some _ => true | None => false end)).

(** One round of the loop over [pending], when [poll] returns [done]. *)
Definition poll (done : bool) (c : CompletionThread) : option CompletionThread :=
  task ← pending c;
  n ← next c !! task;
  c ← store_next task None c;
  let c := mkThread (next c) (m_head c) (m_tail c) n (deferred c) (tail c) (scanning c) in
  if done then Some (with_next (delete task (next c)) c)
  else
    c ← match tail c with
        | Local => Some (mkThread (next c) (m_head c) (m_tail c) (pending c) (Some task) (tail c) (scanning c))
        | NextOf t => store_next t (Some task) c
        end;
    Some (mkThread (next c) (m_head c) (m_tail c) (pending c) (deferred c) (NextOf task) (scanning c)).

(** The end of a scan. *)
Definition scan_end (c : CompletionThread) : CompletionThread :=
  mkThread (next c) (m_head c) (m_tail c) (deferred c) (deferred c) (tail c) false.

(** ** The lists they stand for *)

Record lists : Type := mkLists { posted : list nat; to_poll : list nat; again : list nat; in_scan : bool }.

(** The thread and the tasks on one side, the lists on the other; a poll logs the task. *)
Inductive thread_step : CompletionThread * list nat -> option (CompletionThread * list nat) -> Prop :=
  | step_post c log task : next c !! task = None ->
      thread_step (c, log) (option_map (fun c => (c, log)) (post task (create_task task c)))
  | step_splice c log : scanning c = false -> thread_step (c, log) (option_map (fun c => (c, log)) (splice c))
  | step_poll c log task done : scanning c = true -> pending c = Some task ->
      thread_step (c, log) (option_map (fun c => (c, log ++ [task])) (poll done c))
  | step_end c log : scanning c = true -> pending c = None -> thread_step (c, log) (Some (scan_end c, log)).

Inductive list_step : lists * list nat -> lists * list nat -> Prop :=
  | list_post q p a s log task : task ∉ q ++ p ++ a -> list_step (mkLists q p a s, log) (mkLists (q ++ [task]) p a s, log)
  | list_splice q p log :
      list_step (mkLists q p [] false, log) (mkLists [] (q ++ p) [] (match q ++ p with [] => false | _ => true end), log)
  | list_poll q task p a log (done : bool) :
      list_step (mkLists q (task :: p) a true, log) (mkLists q p (if done then a else a ++ [task]) true, log ++ [task])
  | list_end q a log : list_step (mkLists q [] a true, log) (mkLists q a [] false, log).


(** The links from [o] run through [l] and end in null. *)
Fixpoint chain (n : gmap nat (option nat)) (o : option nat) (l : list nat) : Prop :=
  match l with
  | [] => o = None
  | t :: l => o = Some t /\ exists o', n !! t = Some o' /\ chain n o' l
  end.

Lemma chain_insert n o l t x : t ∉ l -> chain n o l -> chain (<[t := x]> n) o l.
Proof.
  revert o. induction l as [|u l IH]; intros o Ht; [done|]. apply not_elem_of_cons in Ht as [Hne Ht].
  intros (-> & o' & Ho & Hl). split; [done|]. exists o'. rewrite lookup_insert_ne by done. split; [done|by apply IH].
Qed.

Lemma chain_delete n o l t : t ∉ l -> chain n o l -> chain (delete t n) o l.
Proof.
  revert o. induction l as [|u l IH]; intros o Ht; [done|]. apply not_elem_of_cons in Ht as [Hne Ht].
  intros (-> & o' & Ho & Hl). split; [done|]. exists o'. rewrite lookup_delete_ne by done. split; [done|by apply IH].
Qed.

Lemma chain_in n o l t : chain n o l -> t ∈ l -> is_Some (n !! t).
Proof.
  revert o. induction l as [|u l IH]; intros o Hc Ht; [by apply elem_of_nil in Ht|]. destruct Hc as (_ & o' & Ho & Hl).
  apply elem_of_cons in Ht as [->|Ht]; [by eexists|by eapply IH].
Qed.

Lemma chain_head n o l : chain n o l -> o = head l.
Proof. destruct l as [|t l]; simpl; [done|by intros [-> _]]. Qed.

(** Appending a list at the last link. *)
Lemma chain_app n o l t k o' : NoDup (l ++ [t]) -> chain n o (l ++ [t]) -> (forall x, x ∈ l ++ [t] -> x ∉ k) -> chain n o' k ->
  chain (<[t := o']> n) o (l ++ [t] ++ k).
Proof.
  revert o. induction l as [|u l IH]; intros o Hnd Hc Hd Hk; simpl in *.
  - destruct Hc as (-> & x & Hx & _). split; [done|]. exists o'. rewrite lookup_insert_eq. split; [done|].
    apply chain_insert; [apply Hd; by left|done].
  - apply list.NoDup_cons in Hnd as [Hni Hnd]. destruct Hc as (-> & x & Hx & Hl). split; [done|]. exists x.
    rewrite lookup_insert_ne by (intros ->; apply Hni, elem_of_app; right; by left). split; [done|].
    apply IH; [done|done| |done]. intros y Hy. apply Hd. by right.
Qed.

Record represents (c : CompletionThread) (x : lists) : Prop := {
  rp_once : NoDup (posted x ++ to_poll x ++ again x);
  rp_posted : chain (next c) (m_head c) (posted x);
  rp_poll : chain (next c) (pending c) (to_poll x);
  rp_again : in_scan x = true -> chain (next c) (deferred c) (again x);
  rp_tail : m_tail c = last (posted x);
  rp_link : in_scan x = true -> tail c = match last (again x) with Some t => NextOf t | None => Local end;
  rp_scan : scanning c = in_scan x;
  rp_idle : in_scan x = false -> again x = []
}.

Lemma last_snoc_inv (l : list nat) t : last l = Some t -> exists k, l = k ++ [t].
Proof. intros H. destruct l as [|x l] using rev_ind; [done|]. rewrite last_snoc in H. injection H as ->. by exists l. Qed.

Lemma chain_store c o l t x : chain (next c) o l -> t ∈ l -> store_next t x c = Some (with_next (<[t := x]> (next c)) c).
Proof. intros Hc Ht. destruct (chain_in _ _ _ _ Hc Ht) as [y Hy]. unfold store_next. by rewrite Hy. Qed.

Lemma post_represents c x task : represents c x -> next c !! task = None ->
  (task ∉ posted x ++ to_poll x ++ again x) /\ (in_scan x = false -> again x = []) /\
  exists c', post task (create_task task c) = Some c' /\ represents c' (mkLists (posted x ++ [task]) (to_poll x) (again x) (in_scan x)).
Proof.
  intros [Ho Hq Hp Ha Ht Hl Hs Hi] Hn.
  assert (Hnp : forall o l, chain (next c) o l -> task ∉ l).
  { intros o l Hc Hin. destruct (chain_in _ _ _ _ Hc Hin) as [? ?]. congruence. }
  assert (Hna : task ∉ again x).
  { destruct (in_scan x) eqn:Hsc; [by eapply Hnp, Ha|]. rewrite (Hi eq_refl). apply not_elem_of_nil. }
  assert (Hni : task ∉ posted x ++ to_poll x ++ again x).
  { rewrite !not_elem_of_app. split_and!; [by eapply Hnp|by eapply Hnp|done]. }
  assert (Hnd : NoDup ((posted x ++ [task]) ++ to_poll x ++ again x)).
  { rewrite <-app_assoc. simpl. rewrite <-Permutation_middle. by apply list.NoDup_cons. }
  split; [done|]. split; [done|]. unfold post, create_task. simpl.
  assert (Hq1 : chain (<[task := None]> (next c)) (m_head c) (posted x)) by (apply chain_insert; [by eapply Hnp|done]).
  assert (Hp1 : chain (<[task := None]> (next c)) (pending c) (to_poll x)) by (apply chain_insert; [by eapply Hnp|done]).
  assert (Ha1 : in_scan x = true -> chain (<[task := None]> (next c)) (deferred c) (again x)) by (intros Hsc; apply chain_insert; [done|by apply Ha]).
  assert (Hd : forall t, t ∈ posted x -> (t ∉ to_poll x) /\ (t ∉ again x)).
  { intros t Hin. apply list.NoDup_app in Ho as (_ & Hd & _). specialize (Hd t Hin). by apply not_elem_of_app in Hd. }
  rewrite Ht. destruct (last (posted x)) as [t|] eqn:Hlast.
  - apply last_snoc_inv in Hlast as [k Hk]. assert (Hint : t ∈ posted x) by (rewrite Hk; apply elem_of_app; right; by left).
    rewrite (chain_store _ (m_head c) (posted x)) by done. simpl. eexists. split; [done|].
    destruct (Hd t Hint) as [Hd1 Hd2]. apply list.NoDup_app in Ho as (Hnq & _ & _).
    constructor; simpl; try done.
    + rewrite Hk, <-app_assoc. rewrite Hk in Hq1, Hnq. apply chain_app; [done|done| |].
      * intros y Hy ->%list_elem_of_singleton. rewrite <-Hk in Hy. by apply (Hnp _ _ Hq).
      * split; [done|]. exists None. by rewrite lookup_insert_eq.
    + by apply chain_insert.
    + intros Hsc. apply chain_insert; [done|by apply Ha1].
    + by rewrite last_snoc.
  - apply last_None in Hlast. simpl. eexists. split; [done|]. constructor; simpl; try done.
    + rewrite Hlast. simpl. split; [done|]. exists None. by rewrite lookup_insert_eq.
    + by rewrite last_snoc.
Qed.

Lemma splice_represents c x : represents c x -> in_scan x = false ->
  exists c', splice c = Some c' /\
    represents c' (mkLists [] (posted x ++ to_poll x) [] (match posted x ++ to_poll x with [] => false | _ => true end)).
Proof.
  intros [Ho Hq Hp Ha Ht Hl Hs Hi] Hsc. unfold splice. rewrite Ht, (chain_head _ _ _ Hq). rewrite (Hi Hsc), app_nil_r in Ho.
  destruct (posted x) as [|h q] eqn:Hqe.
  - simpl. eexists. split; [done|]. constructor; simpl; try done; [by rewrite app_nil_r|].
    rewrite (chain_head _ _ _ Hp). by destruct (to_poll x).
  - rewrite <-Hqe in *. destruct (last (posted x)) as [t|] eqn:Hlast; [|by apply last_None in Hlast; rewrite Hqe in Hlast].
    apply last_snoc_inv in Hlast as [k Hk]. assert (Hint : t ∈ posted x) by (rewrite Hk; apply elem_of_app; right; by left).
    rewrite Hqe. cbn [head]. rewrite <-Hqe. rewrite (chain_store _ (m_head c) (posted x)) by done. simpl. eexists. split; [done|].
    assert (Hm : match posted x ++ to_poll x with [] => false | _ => true end = true) by (by rewrite Hqe).
    rewrite Hm. constructor; simpl; try done.
    + by rewrite app_nil_r.
    + apply list.NoDup_app in Ho as (Hnq & Hd & _). rewrite Hk, <-app_assoc. rewrite Hk in Hq, Hnq, Hd.
      replace (Some h) with (m_head c) by (rewrite (chain_head _ _ _ Hq), <-Hk, Hqe; done).
      by apply chain_app.
Qed.

Lemma poll_represents c x task p done : represents c x -> in_scan x = true -> to_poll x = task :: p ->
  pending c = Some task /\
  exists c', poll done c = Some c' /\ represents c' (mkLists (posted x) p (if done then again x else again x ++ [task]) true).
Proof.
  intros [Ho Hq Hp Ha Ht Hl Hs Hi] Hsc Hpe. rewrite Hpe in Hp, Ho. destruct Hp as (Hpend & o' & Hn & Hp). split; [done|].
  apply list.NoDup_app in Ho as (Hnq & Hdq & Ho). simpl in Ho. apply list.NoDup_cons in Ho as [Hni Ho]. apply not_elem_of_app in Hni as [Hni1 Hni2].
  assert (Htq : task ∉ posted x) by (intros Hin; apply (Hdq task Hin); by left).
  specialize (Ha Hsc). specialize (Hl Hsc). unfold poll. rewrite Hpend. simpl. rewrite Hn. simpl. 
  assert (Hst : store_next task None c = Some (with_next (<[task := None]> (next c)) c)) by (unfold store_next; by rewrite Hn). rewrite Hst. simpl.
  assert (Hq1 : chain (<[task := None]> (next c)) (m_head c) (posted x)) by (by apply chain_insert).
  assert (Hp1 : chain (<[task := None]> (next c)) o' p) by (by apply chain_insert).
  assert (Ha1 : chain (<[task := None]> (next c)) (deferred c) (again x)) by (by apply chain_insert).
  assert (Hdq' : forall y, y ∈ posted x -> y ∉ p ++ again x) by (intros y Hy Hin; apply (Hdq y Hy); by right).
  destruct done.
  - eexists. split; [done|]. constructor; simpl; try done; try (by rewrite <-Hs, Hs, Hsc).
    + apply list.NoDup_app. by split_and!.
    + by apply chain_delete.
    + by apply chain_delete.
    + intros _. by apply chain_delete.
    + by rewrite Hs.
  - assert (Hnd : NoDup (posted x ++ p ++ again x ++ [task])).
    { rewrite !app_assoc. apply list.NoDup_app. split_and!; [|by intros y Hy ->%list_elem_of_singleton; rewrite <-app_assoc, !elem_of_app in Hy; tauto|apply NoDup_singleton].
      rewrite <-app_assoc. apply list.NoDup_app. by split_and!. }
    rewrite Hl. destruct (last (again x)) as [t|] eqn:Hlast; simpl.
    + apply last_snoc_inv in Hlast as [k Hk]. assert (Hint : t ∈ again x) by (rewrite Hk; apply elem_of_app; right; by left).
      unfold store_next. simpl. destruct (chain_in _ _ _ _ Ha1 Hint) as [y Hy]. rewrite Hy. simpl. eexists. split; [done|].
      assert (Htp : (t ∉ p) /\ (t ∉ posted x)).
      { apply list.NoDup_app in Ho as (_ & Hd & _). split; [intros Hin; by apply (Hd t Hin)|]. intros Hin. apply (Hdq' t Hin), elem_of_app. by right. }
      constructor; simpl; try done.
      * by apply chain_insert; [apply Htp|].
      * by apply chain_insert; [apply Htp|].
      * intros _. rewrite Hk, <-app_assoc. apply list.NoDup_app in Ho as (_ & _ & Hna). rewrite Hk in Ha1, Hna. apply chain_app; [done|done| |].
        { intros z Hz ->%list_elem_of_singleton. apply Hni2. by rewrite Hk. }
        split; [done|]. exists None. by rewrite lookup_insert_eq.
      * intros _. by rewrite last_snoc.
      * by rewrite Hs.
    + apply last_None in Hlast. eexists. split; [done|]. rewrite Hlast in *. constructor; simpl; try done.
      * intros _. split; [done|]. exists None. by rewrite lookup_insert_eq.
      * by rewrite Hs.
Qed.

Lemma end_represents c x : represents c x -> in_scan x = true -> to_poll x = [] -> represents (scan_end c) (mkLists (posted x) (again x) [] false).
Proof.
  intros [Ho Hq Hp Ha Ht Hl Hs Hi] Hsc Hpe. rewrite Hpe in Ho. constructor; simpl; try done; [by rewrite app_nil_r|by apply Ha].
Qed.

Lemma step_as x r y : thread_step x r -> r = Some y -> thread_step x (Some y).
Proof. by intros H <-. Qed.

(** Every step from a represented thread is a step of the lists, and none is undefined. *)
Lemma step_simulated c log x : represents c x ->
  (~ thread_step (c, log) None) /\
  forall c' log', thread_step (c, log) (Some (c', log')) -> exists x', represents c' x' /\ list_step (x, log) (x', log').
Proof.
  intros Hx. pose proof Hx as [Ho Hq Hp Ha Ht Hl Hs Hi].
    assert (Hall : forall r, thread_step (c, log) r -> exists c' log', r = Some (c', log') /\
      exists x', represents c' x' /\ list_step (x, log) (x', log')).
    { intros r Hr. remember (c, log) as s eqn:Hse. destruct Hr as [c1 l1 task Hn|c1 l1 Hsc|c1 l1 task done Hsc Hpe|c1 l1 Hsc Hpe]; injection Hse as -> ->.
      - destruct (post_represents c x task Hx Hn) as (Hni & _ & c' & -> & Hc'). simpl. do 2 eexists. split; [done|].
        eexists. split; [exact Hc'|]. destruct x. by apply list_post.
      - rewrite Hs in Hsc. destruct (splice_represents c x Hx Hsc) as (c' & -> & Hc'). simpl. do 2 eexists. split; [done|].
        eexists. split; [exact Hc'|]. destruct x as [q p a b]. simpl in *. subst b. rewrite (Hi Hsc), Hsc. apply list_splice.
      - rewrite Hs in Hsc. rewrite (chain_head _ _ _ Hp) in Hpe. destruct (to_poll x) as [|t p] eqn:Hpo; [done|]. injection Hpe as ->.
        destruct (poll_represents c x task p done Hx Hsc Hpo) as (_ & c' & -> & Hc'). simpl. do 2 eexists. split; [done|].
        eexists. split; [exact Hc'|]. destruct x as [q p0 a b]. simpl in *. subst. rewrite Hsc. apply list_poll.
      - rewrite Hs in Hsc. rewrite (chain_head _ _ _ Hp) in Hpe. destruct (to_poll x) as [|t p] eqn:Hpo; [|done].
        do 2 eexists. split; [done|]. eexists. split; [by apply end_represents|]. destruct x as [q p0 a b]. simpl in *. subst. rewrite Hsc. apply list_end. }
    split.
    - intros Hn. by destruct (Hall _ Hn) as (? & ? & ? & _).
    - intros c' log' Hr. destruct (Hall _ Hr) as (? & ? & [= -> ->] & Hx'). done.
Qed.

(** C35: the intrusive lists of the completion thread are lists.  No step ever touches a task that has been
    destroyed, and the steps are those of three lists: posting appends to the first, the thread moves the
    posted tasks before the ones it polls again, and a scan polls every task once, in order, and keeps those
    that are not complete in their order. *)
Theorem completion_lists c log :
  rtc (fun x y => thread_step x (Some y)) (completion_init, []) (c, log) ->
  exists x, represents c x /\ rtc list_step (mkLists [] [] [] false, []) (x, log) /\
    (~ thread_step (c, log) None) /\
    forall c' log', thread_step (c, log) (Some (c', log')) -> exists x', represents c' x' /\ list_step (x, log) (x', log').
Proof.
  intros Hrun.
  pose (P := fun s : CompletionThread * list nat => exists x, represents s.1 x /\ rtc list_step (mkLists [] [] [] false, []) (x, s.2)).
  assert (Hinv : P (c, log)).
  { refine (preserved_rtc _ P _ _ _ _ Hrun).
    - intros [c0 log0] [c1 log1] (x & Hx & Hr) Hst. destruct (step_simulated c0 log0 x Hx) as [_ Hs].
      destruct (Hs c1 log1 Hst) as (x' & Hx' & Hls). exists x'. split; [done|]. by eapply rtc_r.
    - eexists. split; [|apply rtc_refl]. constructor; simpl; try done. constructor. }
  destruct Hinv as (x & Hx & Hr). exists x. destruct (step_simulated c log x Hx) as [H1 H2]. by split_and!.
Qed.

(** Two tasks; the first is complete at its first poll, and a third is posted during the scan. *)
Lemma completion_lists_witness : exists c x,
  rtc (fun x y => thread_step x (Some y)) (completion_init, []) (c, [1; 2]) /\ represents c x /\
  rtc list_step (mkLists [] [] [] false, []) (x, [1; 2]).
Proof.
  assert (Hrun : exists c, rtc (fun x y => thread_step x (Some y)) (completion_init, []) (c, [1; 2])).
  { eexists. eapply rtc_l; [eapply step_as; [apply (step_post completion_init [] 1)|]; reflexivity|]. simpl.
    eapply rtc_l; [eapply step_as; [apply (step_post _ [] 2)|]; reflexivity|]. simpl.
    eapply rtc_l; [eapply step_as; [apply (step_splice _ [])|]; reflexivity|]. simpl.
    eapply rtc_l; [eapply step_as; [apply (step_poll _ [] 1 true)|]; reflexivity|]. simpl.
    eapply rtc_l; [eapply step_as; [apply (step_post _ [1] 3)|]; reflexivity|]. simpl.
    eapply rtc_l; [eapply step_as; [apply (step_poll _ [1] 2 false)|]; reflexivity|]. simpl. apply rtc_refl. }
  destruct Hrun as [c Hc]. destruct (completion_lists c [1; 2] Hc) as (x & Hx & Hr & _). exists c, x.
  split; [exact Hc|]. split; [exact Hx|exact Hr].
Defined.
