(* ===== verification/TagPath.v ===== *)
(** * Tags and paths

    Models llamaLite/tag/TagPath.hpp.  A tag is a type, so equality of tags is equality of types; a path is
    a word of tags.  What the header computes at compile time by folding over index sequences are
    functions here. *)
From Stdlib Require Import ZArith Lia Ascii.
From stdpp Require Import base list numbers strings.
From S2P Require Import Prelude TimeSlice.

(** [DEFINE_TAG]: different tags may have the same name. *)
Record Tag : Type := mkTag { tag_type : nat; name : text }.
#[export] Instance Tag_eq_dec : EqDecision Tag.
Proof. solve_decision. Defined.

Abbreviation TagPath := (list Tag).

(** [IsRecordAccess]: a tag or a path. *)
Inductive RecordAccess : Type := OneTag (t : Tag) | Path (p : TagPath).
Definition to_path (ra : RecordAccess) : TagPath := match ra with OneTag t => [t] | Path p => p end.

Definition depth (p : TagPath) : nat := length p.
Definition tag_at (i : nat) (p : TagPath) : option Tag := p !! i.
Definition take_first (n : nat) (p : TagPath) : option TagPath := if (n <=? depth p)%nat then Some (omap (fun i => tag_at i p) (seq 0 n)) else None.
Definition drop_first (n : nat) (p : TagPath) : option TagPath :=
  if (n <=? depth p)%nat then Some (omap (fun i => tag_at (i + n) p) (seq 0 (depth p - n))) else None.
Definition path_head (p : TagPath) : option Tag := tag_at 0 p.
Definition path_tail (p : TagPath) : option TagPath := match p with [] => None | _ => drop_first 1 p end.

(** The fold of [commonPrefixLength] stops at the first pair that differs. *)
Fixpoint prefix_fold (indices : list nat) (p q : TagPath) (len : nat) : nat :=
  match indices with
  | [] => len
  | i :: rest => if decide (tag_at i p = tag_at i q) then prefix_fold rest p q (S len) else len
  end.
Definition commonPrefixLength (p q : TagPath) : nat :=
  let minDepth := if (depth p <? depth q)%nat then depth p else depth q in
  if (minDepth =? 0)%nat then 0 else prefix_fold (seq 0 minDepth) p q 0.

Definition isSame (p q : TagPath) : bool := (depth p =? depth q)%nat && (commonPrefixLength p q =? depth p)%nat.
Definition isAncestorOf (p q : TagPath) : bool := (commonPrefixLength p q =? depth p)%nat.
Definition isStrictAncestorOf (p q : TagPath) : bool := (depth p <? depth q)%nat && isAncestorOf p q.
Definition isDescendantOf (p q : TagPath) : bool := isAncestorOf q p.
Definition isStrictDescendantOf (p q : TagPath) : bool := isStrictAncestorOf q p.

Definition append (p q : TagPath) : TagPath := p ++ q.

Definition isStrictAncestorOfAny (query : TagPath) (others : list TagPath) : bool := existsb (isStrictAncestorOf query) others.
Definition hasRedundantPaths (ps : list TagPath) : bool :=
  if (length ps <=? 1)%nat then false else existsb (fun p => isStrictAncestorOfAny p ps) ps.

(** The loop of [tagPathToStringImpl] over the indices. *)
Definition tagPathToString (p : TagPath) : text :=
  foldl (fun result i => (if (0 <? i)%nat then result ++ ["/"%char] else result) ++ match tag_at i p with Some t => name t | None => [] end)
    [] (seq 0 (depth p)).

(** Requires that the prefix is an ancestor. *)
Definition relativePath (full pre : TagPath) : option TagPath := if isAncestorOf pre full then drop_first (depth pre) full else None.

(** ** The prefix order *)

Lemma omap_tags (p : TagPath) n k : n + k <= length p -> omap (fun i => tag_at (i + n) p) (seq 0 k) = take k (drop n p).
Proof.
  revert n. induction k as [|k IH]; intros n Hk; [done|].
  rewrite seq_S, omap_app, IH by lia. destruct (lookup_lt_is_Some_2 p (k + n)) as [t Ht]; [lia|].
  rewrite (take_S_r _ _ t) by (rewrite lookup_drop, <-Ht; f_equal; lia). simpl. unfold tag_at. by rewrite Ht.
Qed.

Lemma take_first_spec n p : take_first n p = if (n <=? length p)%nat then Some (take n p) else None.
Proof.
  unfold take_first, depth. destruct (Nat.leb_spec n (length p)); [|done]. f_equal.
  change (take n p) with (take n (drop 0 p)). rewrite <-omap_tags by lia. apply list_omap_ext, Forall_Forall2_diag, list.Forall_forall.
  intros i _. by rewrite Nat.add_0_r.
Qed.

Lemma drop_first_spec n p : drop_first n p = if (n <=? length p)%nat then Some (drop n p) else None.
Proof.
  unfold drop_first, depth. destruct (Nat.leb_spec n (length p)); [|done]. rewrite omap_tags by lia.
  by rewrite take_ge by (rewrite length_drop; lia).
Qed.

Lemma path_tail_cons t p : path_tail (t :: p) = Some p.
Proof. unfold path_tail. by rewrite drop_first_spec. Qed.

(** The common prefix as a structural recursion. *)
Fixpoint common (p q : TagPath) : nat :=
  match p, q with
  | s :: p, t :: q => if decide (s = t) then S (common p q) else 0
  | _, _ => 0
  end.

Lemma prefix_fold_cons s p t q l len : prefix_fold (map S l) (s :: p) (t :: q) len = prefix_fold l p q len.
Proof. revert len. induction l as [|i l IH]; intros len; [done|]. simpl. unfold tag_at. simpl. by destruct (decide _). Qed.

Lemma prefix_fold_len l p q len : prefix_fold l p q len = prefix_fold l p q 0 + len.
Proof.
  revert len. induction l as [|i l IH]; intros len; [done|]. simpl. destruct (decide _); [|done].
  rewrite (IH (S len)), (IH 1). lia.
Qed.

Lemma commonPrefixLength_common p q : commonPrefixLength p q = common p q.
Proof.
  assert (Hf : forall p q, prefix_fold (seq 0 (length p `min` length q)) p q 0 = common p q).
  { clear p q. induction p as [|s p IH]; intros q; [done|]. destruct q as [|t q]; [done|].
    change (length (s :: p) `min` length (t :: q)) with (S (length p `min` length q)). rewrite <-cons_seq, <-seq_shift.
    cbn [prefix_fold common]. change (tag_at 0 (s :: p)) with (Some s). change (tag_at 0 (t :: q)) with (Some t).
    destruct (decide (s = t)) as [->|Hst].
    - rewrite decide_True by done. rewrite prefix_fold_len, prefix_fold_cons, IH. lia.
    - by rewrite decide_False by congruence. }
  unfold commonPrefixLength, depth. replace (if (length p <? length q)%nat then length p else length q) with (length p `min` length q)
    by (destruct (Nat.ltb_spec (length p) (length q)); lia).
  destruct (Nat.eqb_spec (length p `min` length q) 0) as [H0|]; [|apply Hf]. rewrite <-Hf, H0. done.
Qed.

Lemma common_prefix p q : common p q = length p <-> p `prefix_of` q.
Proof.
  revert q. induction p as [|s p IH]; intros q; simpl; [split; [intros _; apply prefix_nil|done]|].
  destruct q as [|t q]; [split; [done|by intros [k ?]]|]. destruct (decide (s = t)) as [->|Hst].
  - split; [intros [=]; by apply prefix_cons, IH|]. intros H%prefix_cons_inv_2. f_equal. by apply IH.
  - split; [done|]. intros H. by apply prefix_cons_inv_1 in H.
Qed.

Lemma isAncestorOf_spec p q : isAncestorOf p q = true <-> p `prefix_of` q.
Proof. unfold isAncestorOf, depth. by rewrite Nat.eqb_eq, commonPrefixLength_common, common_prefix. Qed.

Lemma isStrictAncestorOf_spec p q : isStrictAncestorOf p q = true <-> p `prefix_of` q /\ p <> q.
Proof.
  unfold isStrictAncestorOf, depth. rewrite andb_true_iff, Nat.ltb_lt, isAncestorOf_spec. split.
  - intros [Hlt Hp]. split; [done|]. intros ->. lia.
  - intros [Hp Hne]. split; [|done]. pose proof (prefix_length _ _ Hp). assert (length p <> length q); [|lia].
    intros He. apply Hne. apply prefix_length_eq; [done|lia].
Qed.

Lemma common_comm p q : common p q = common q p.
Proof.
  revert q. induction p as [|s p IH]; intros [|t q]; simpl; try done. destruct (decide (s = t)) as [->|];
    [rewrite decide_True by done; by rewrite IH|by rewrite decide_False by congruence].
Qed.

Lemma common_take p q : take (common p q) p = take (common p q) q.
Proof.
  revert q. induction p as [|s p IH]; intros [|t q]; simpl; try done; try (by rewrite take_nil).
  destruct (decide (s = t)) as [->|]; [|done]. simpl. by rewrite IH.
Qed.

Lemma common_greatest p q r : r `prefix_of` p -> r `prefix_of` q -> r `prefix_of` take (common p q) p.
Proof.
  revert p q. induction r as [|x r IH]; intros p q Hp Hq; [apply prefix_nil|].
  destruct Hp as [k ->], Hq as [l ->]. simpl. rewrite decide_True by done. simpl. apply prefix_cons, IH; by eexists.
Qed.

Create Rewrite HintDb paths.
#[export] Hint Rewrite isAncestorOf_spec isStrictAncestorOf_spec : paths.

Lemma relativePath_spec full pre r : relativePath full pre = Some r <-> full = append pre r.
Proof.
  unfold relativePath, append. destruct (isAncestorOf pre full) eqn:Ha.
  - apply isAncestorOf_spec in Ha as [k ->]. unfold depth. rewrite drop_first_spec, length_app.
    rewrite (proj2 (Nat.leb_le _ _)) by lia. rewrite drop_app_length. split; [by intros [= ->]|intros H%app_inv_head; by subst].
  - split; [done|]. intros ->. assert (isAncestorOf pre (pre ++ r) = true) by (apply isAncestorOf_spec; by eexists). congruence.
Qed.

Lemma isSame_spec p q : isSame p q = true <-> p = q.
Proof.
  unfold isSame, depth. rewrite andb_true_iff, !Nat.eqb_eq, commonPrefixLength_common, common_prefix. split.
  - intros [Hl Hp]. apply prefix_length_eq; [done|lia].
  - by intros ->.
Qed.

Lemma hasRedundantPaths_spec ps : NoDup ps ->
  hasRedundantPaths ps = true <-> exists p q, p ∈ ps /\ q ∈ ps /\ isStrictAncestorOf p q = true.
Proof.
  intros Hnd. unfold hasRedundantPaths, isStrictAncestorOfAny. destruct (Nat.leb_spec (length ps) 1) as [Hl|Hl].
  - split; [done|]. intros (p & q & Hp & Hq & Ha). exfalso. apply isStrictAncestorOf_spec in Ha as [_ Hne].
    destruct ps as [|x [|y ps]]; simpl in Hl; [by apply elem_of_nil in Hp| |lia].
    apply list_elem_of_singleton in Hp as ->. by apply list_elem_of_singleton in Hq as ->.
  - rewrite existsb_exists. setoid_rewrite existsb_exists. setoid_rewrite <-list_elem_of_In. split; [intros (p & Hp & q & Hq & Ha)|intros (p & q & Hp & Hq & Ha)]; eauto.
Qed.

(** ** Printed paths *)

Definition slash : ascii := "/"%char.

Lemma tagPathToString_join p : tagPathToString p = join slash (map name p).
Proof.
  unfold tagPathToString, depth. induction p as [|t p IH] using rev_ind; [done|].
  rewrite length_app, seq_app, foldl_app. cbn [length seq foldl].
  assert (He : forall acc, foldl (fun result i => (if (0 <? i)%nat then result ++ ["/"%char] else result) ++
      match tag_at i (p ++ [t]) with Some t => name t | None => [] end) acc (seq 0 (length p)) =
    foldl (fun result i => (if (0 <? i)%nat then result ++ ["/"%char] else result) ++
      match tag_at i p with Some t => name t | None => [] end) acc (seq 0 (length p))).
  { assert (Hb : forall i, i ∈ seq 0 (length p) -> tag_at i (p ++ [t]) = tag_at i p).
    { intros i Hi%elem_of_seq. unfold tag_at. apply lookup_app_l. lia. }
    revert Hb. generalize (seq 0 (length p)) as l. induction l as [|i l IHl]; intros Hb acc; [done|]. cbn [foldl].
    rewrite (Hb i) by (by left). apply IHl. intros j Hj. apply Hb. by right. }
  rewrite He, IH. unfold tag_at. rewrite lookup_app_r, Nat.sub_diag by lia. simpl. rewrite map_app. simpl.
  destruct p as [|u p]; [done|]. simpl length. cbn [Nat.add Nat.ltb Nat.leb]. clear.
  simpl map. generalize (name u) as n. induction (map name p) as [|m l IH]; intros n; [simpl; by rewrite <-app_assoc|].
  change (join slash (n :: m :: l)) with (n ++ slash :: join slash (m :: l)).
  change (join slash ((n :: m :: l) ++ [name t])) with (n ++ slash :: join slash ((m :: l) ++ [name t])).
  rewrite <-(IH m), <-!app_assoc. done.
Qed.

(** Names without slashes can be read back. *)
Lemma tagPathToString_split p t :
  Forall (fun t => slash ∉ name t) (p ++ [t]) -> name t <> [] -> splitString (tagPathToString (p ++ [t])) slash = map name (p ++ [t]).
Proof.
  intros Hf Hn. rewrite tagPathToString_join, map_app. apply splitString_join; [|done].
  change [name t] with (map name [t]). rewrite <-map_app. by apply List.Forall_map.
Qed.

(** Paths are ordered as prefixes.  [isAncestorOf] is the prefix order, [isStrictAncestorOf] its
    irreflexive part; the order is a tree, in which two ancestors of a path are comparable; two paths have a meet, their
    prefix of length [commonPrefixLength]; removing an ancestor with [relativePath] is the inverse of appending
    to it; a list of different paths is redundant when one of them is above another. *)
Theorem path_order (p q : TagPath) :
  (isAncestorOf p q = true <-> exists s, q = append p s) /\
  (isSame p q = true <-> p = q) /\
  (isStrictAncestorOf p q = true <-> isAncestorOf p q = true /\ isSame p q = false) /\
  (forall r, isAncestorOf p r = true -> isAncestorOf q r = true -> isAncestorOf p q = true \/ isAncestorOf q p = true) /\
  (forall r, isAncestorOf r p && isAncestorOf r q = isAncestorOf r (take (commonPrefixLength p q) p)) /\
  commonPrefixLength p q = commonPrefixLength q p /\
  (forall r, relativePath r p = Some q <-> r = append p q) /\
  (forall ps, NoDup ps -> hasRedundantPaths ps = true <-> exists p q, p ∈ ps /\ q ∈ ps /\ isStrictAncestorOf p q = true).
Proof.
  split_and!.
  - by rewrite isAncestorOf_spec.
  - apply isSame_spec.
  - rewrite isStrictAncestorOf_spec, isAncestorOf_spec, <-not_true_iff_false, isSame_spec. done.
  - intros r. autorewrite with paths. apply prefix_weak_total.
  - intros r. apply eq_true_iff_eq. rewrite andb_true_iff, !isAncestorOf_spec, commonPrefixLength_common. split.
    + intros [Hp Hq]. by apply common_greatest.
    + intros Hr. split; [etrans; [done|apply prefix_take]|]. rewrite common_take in Hr. etrans; [done|apply prefix_take].
  - rewrite !commonPrefixLength_common. apply common_comm.
  - intros r. apply relativePath_spec.
  - apply hasRedundantPaths_spec.
Qed.

(** The paths pos/x and pos, and two tags of one name. *)
Lemma path_order_witness :
  let pos := mkTag 0 (txt "pos") in let x := mkTag 1 (txt "x") in
  isAncestorOf [pos] [pos; x] = true /\ hasRedundantPaths [[pos; x]; [pos]] = true /\ isSame [pos] [mkTag 2 (txt "pos")] = false /\
  str (tagPathToString [pos; x]) = "pos/x"%string /\ relativePath [pos; x] [pos] = Some [x].
Proof.
  destruct (path_order [mkTag 0 (txt "pos")] [mkTag 1 (txt "x")]) as (_ & _ & _ & _ & _ & _ & H & _). split_and!; [reflexivity..|].
  apply H. reflexivity.
Defined.
