(* ===== verification/Records.v ===== *)
(** * Records and the storage of their leaves

    Models llamaLite/Record.hpp, Field.hpp, Transform.hpp and ResolveLeaf.hpp.  A record is a type whose
    fields are tagged with values or with records; here it is a tree, and what the compiler rejects is [None] or a
    boolean check.  Storages are nested tuples with one element per leaf: an array in [SoA], a vector in [DynSoA], a
    value in [One].  The types of leaves are a parameter. *)
From Stdlib Require Import ZArith Lia.
From stdpp Require Import base list numbers.
From S2P Require Import Prelude TagPath.

Section records.
Context {T : Type}.

(** ** Records *)

(** [Field<Tag, T>] is a pair, [Record<Fs...>] the list of its fields. *)
#[warnings="-register-all"]
Inductive value_type : Type := Leaf (type : T) | Node (fields : list (Tag * value_type)).
Abbreviation record := (list (Tag * value_type)).

Definition countTagOccurrences (query : Tag) (tags : list Tag) : nat := foldr (fun t n => (if decide (query = t) then 1 else 0) + n) 0 tags.

(** The static assertions of a record and of the records inside it. *)
Definition unique_tags (r : record) : bool := forallb (fun f => countTagOccurrences f.1 (map fst r) =? 1)%nat r.
Fixpoint value_ok (v : value_type) : bool :=
  match v with Leaf _ => true | Node r => unique_tags r && forallb (fun f => value_ok f.2) r end.
Definition record_ok (r : record) : bool := value_ok (Node r).

Fixpoint value_leaf_count (v : value_type) : nat :=
  match v with Leaf _ => 1 | Node r => foldl (fun sum f => sum + value_leaf_count f.2) 0 r end.
Definition leaf_count (r : record) : nat := value_leaf_count (Node r).

(** The loop over [matches]. *)
Fixpoint getIndex_loop (i : nat) (matches : list bool) : option nat :=
  match matches with [] => None | b :: matches => if b : bool then Some i else getIndex_loop (S i) matches end.
Definition getIndex (query : Tag) (r : record) : option nat := getIndex_loop 0 (map (fun f => bool_decide (f.1 = query)) r).
Definition hasTag (query : Tag) (r : record) : bool := existsb (fun f => bool_decide (f.1 = query)) r.

Fixpoint hasPath (query : TagPath) (r : record) : bool :=
  match query with
  | [] => true
  | t :: rest =>
      if negb (hasTag t r) then false
      else match rest with
           | [] => true
           | _ => match getIndex t r ≫= fun idx => r !! idx with Some (_, Node r') => hasPath rest r' | _ => false end
           end
  end.

Fixpoint resolvePathToField (query : TagPath) (r : record) : option (Tag * value_type) :=
  match query with
  | [] => None
  | t :: rest =>
      f ← getIndex t r ≫= fun idx => r !! idx;
      match rest with
      | [] => Some f
      | _ => match f.2 with Node r' => resolvePathToField rest r' | Leaf _ => None end
      end
  end.
Definition value_type_for (query : TagPath) (r : record) : option value_type := snd <$> resolvePathToField query r.
Definition isLeaf (query : TagPath) (r : record) : option bool :=
  (fun v => match v with Leaf _ => true | Node _ => false end) <$> value_type_for query r.

(** [GetLeafPaths], with [FieldLeafPaths] for a field. *)
Fixpoint FieldLeafPaths (current : TagPath) (tag : Tag) (v : value_type) : list TagPath :=
  match v with
  | Leaf _ => [append current [tag]]
  | Node r => concat (map (fun f => FieldLeafPaths (append current [tag]) f.1 f.2) r)
  end.
Definition GetLeafPaths (r : record) (current : TagPath) : list TagPath := concat (map (fun f => FieldLeafPaths current f.1 f.2) r).

(** ** Storages *)

Section storages.
Context {A : Type}.

(** What [transform_record_t] makes of a record. *)
#[warnings="-register-all"]
Inductive storage : Type := Column (a : A) | Tup (children : list storage).

(** [resolveLeaf]: none for what is not a leaf. *)
Fixpoint resolveLeaf (query : TagPath) (r : record) (s : storage) : option A :=
  match query, s with
  | t :: rest, Tup children =>
      idx ← getIndex t r;
      f ← r !! idx;
      child ← children !! idx;
      match rest, f.2, child with
      | [], Leaf _, Column a => Some a
      | _ :: _, Node r', _ => resolveLeaf rest r' child
      | _, _, _ => None
      end
  | _, _ => None
  end.

(** A store through the reference that [resolveLeaf] returns. *)
Fixpoint storeLeaf (query : TagPath) (x : A) (r : record) (s : storage) : storage :=
  match query, s with
  | t :: rest, Tup children =>
      match getIndex t r ≫= fun idx => f ← r !! idx; child ← children !! idx; Some (idx, f.2, child) with
      | Some (idx, v, child) =>
          match rest, v, child with
          | [], Leaf _, Column _ => Tup (<[idx := Column x]> children)
          | _ :: _, Node r', _ => Tup (<[idx := storeLeaf rest x r' child]> children)
          | _, _, _ => s
          end
      | None => s
      end
  | _, _ => s
  end.

(** The storage has the shape of the record, with an element of the right kind at every leaf. *)
Context (P : T -> A -> Prop).
#[warnings="-register-all"]
Inductive typed : value_type -> storage -> Prop :=
  | typed_leaf t a : P t a -> typed (Leaf t) (Column a)
  | typed_node r children : Forall2 (fun f s => typed f.2 s) r children -> typed (Node r) (Tup children).
End storages.
End records.
Arguments value_type T : clear implicits.
Arguments storage A : clear implicits.
Abbreviation record T := (list (Tag * value_type T)).

(** ** Leaves *)

Section leaves.
Context {T : Type}.

Lemma value_type_ind' (Q : value_type T -> Prop) :
  (forall a, Q (Leaf a)) -> (forall r, Forall (fun f => Q f.2) r -> Q (Node r)) -> forall v, Q v.
Proof.
  intros Hl Hn. fix IH 1. intros [a|r]; [apply Hl|]. apply Hn.
  induction r as [|[t v] r IHr]; constructor; [apply (IH v)|exact IHr].
Qed.

(** The paths of the leaves with their types, as a denotation of the record. *)
Fixpoint leaves (v : value_type T) : list (TagPath * T) :=
  match v with
  | Leaf a => [([], a)]
  | Node r => r ≫= fun f => map (fun l => (f.1 :: l.1, l.2)) (leaves f.2)
  end.
Definition leaf_paths (v : value_type T) : list TagPath := map fst (leaves v).

Definition field_at (t : Tag) (r : record T) : option (Tag * value_type T) := getIndex t r ≫= fun idx => r !! idx.

(** The value at a path. *)
Fixpoint value_at (query : TagPath) (v : value_type T) : option (value_type T) :=
  match query with
  | [] => Some v
  | t :: rest => match v with Node r => f ← field_at t r; value_at rest f.2 | Leaf _ => None end
  end.

(** *** Fields *)

Lemma getIndex_loop_spec i0 l i : getIndex_loop i0 l = Some i ->
  i0 <= i /\ l !! (i - i0) = Some true /\ forall j, j < i - i0 -> l !! j = Some false.
Proof.
  revert i0. induction l as [|b l IH]; intros i0 H; [done|]. simpl in H. destruct b.
  - injection H as ->. rewrite Nat.sub_diag. split_and!; [lia|done|intros; lia].
  - destruct (IH _ H) as (Hle & Hi & Hj). replace (i - i0) with (S (i - S i0)) by lia. split_and!; [lia|done|].
    intros [|j] Hlt; [done|]. apply Hj. lia.
Qed.

Lemma getIndex_Some t (r : record T) i : getIndex t r = Some i -> exists v, r !! i = Some (t, v).
Proof.
  intros H. apply getIndex_loop_spec in H as (_ & Hi & _). rewrite Nat.sub_0_r in Hi.
  apply list_lookup_fmap_Some in Hi as ([u v] & Hb & Hf). symmetry in Hb. apply bool_decide_eq_true in Hb. simpl in Hb. subst u. by exists v.
Qed.

Lemma getIndex_None t (r : record T) : getIndex t r = None <-> t ∉ map fst r.
Proof.
  unfold getIndex. generalize 0 as i. induction r as [|[u v] r IH]; intros i; simpl.
  - split; [intros _; apply not_elem_of_nil|done].
  - rewrite not_elem_of_cons. case_bool_decide as Hu; [split; [done|by intros [? _]]|]. rewrite IH. split; [by split|by intros [_ ?]].
Qed.

Lemma hasTag_spec t (r : record T) : hasTag t r = true <-> t ∈ map fst r.
Proof.
  induction r as [|[u v] r IH]; simpl; [split; [done|by intros ?%elem_of_nil]|].
  rewrite orb_true_iff, bool_decide_eq_true, elem_of_cons, IH. split; intros [?|?]; auto.
Qed.

Lemma countTagOccurrences_pos t l : t ∈ l -> 1 <= countTagOccurrences t l.
Proof. induction l as [|u l IH]; simpl; [by intros ?%elem_of_nil|]. intros [->|Hl]%elem_of_cons; [rewrite decide_True by done; lia|specialize (IH Hl); destruct (decide _); lia]. Qed.

Lemma unique_tags_spec (r : record T) : unique_tags r = true <-> NoDup (map fst r).
Proof.
  unfold unique_tags. rewrite forallb_forall.
  assert (H : (forall t, t ∈ map fst r -> countTagOccurrences t (map fst r) = 1) <-> NoDup (map fst r)).
  { generalize (map fst r) as l. induction l as [|u l IH]; [split; [constructor|intros _ t Ht; by apply elem_of_nil in Ht]|].
    rewrite list.NoDup_cons, <-IH. simpl. split.
    - intros H. split.
      + intros Hu. specialize (H u (list_elem_of_here _ _)). rewrite decide_True in H by done. pose proof (countTagOccurrences_pos u l Hu). lia.
      + intros t Ht. specialize (H t (list_elem_of_further _ _ _ Ht)). pose proof (countTagOccurrences_pos t l Ht). destruct (decide _); lia.
    - intros [Hu H] t [->|Ht]%elem_of_cons.
      + rewrite decide_True by done. assert (countTagOccurrences u l = 0); [|lia]. clear -Hu.
        induction l as [|x l IH]; [done|]. apply not_elem_of_cons in Hu as [Hx Hl]. simpl. rewrite decide_False by done. by apply IH.
      + rewrite decide_False by (intros ->; done). by apply H. }
  rewrite <-H. setoid_rewrite list_elem_of_fmap. setoid_rewrite <-list_elem_of_In. setoid_rewrite Nat.eqb_eq. split.
  - intros Hf t (f & -> & Hin). by apply Hf.
  - intros Hf f Hin. apply Hf. by exists f.
Qed.

Lemma value_ok_node (r : record T) : value_ok (Node r) = true <-> NoDup (map fst r) /\ Forall (fun f => value_ok f.2 = true) r.
Proof. simpl. by rewrite andb_true_iff, unique_tags_spec, forallb_forall, <-List.Forall_forall. Qed.

(** In a record without duplicates the fields are found by their tags. *)
Lemma field_at_spec (r : record T) t f : NoDup (map fst r) -> field_at t r = Some f <-> f.1 = t /\ f ∈ r.
Proof.
  intros Hnd. unfold field_at. split.
  - destruct (getIndex t r) as [i|] eqn:Hi; [|done]. simpl. destruct (getIndex_Some _ _ _ Hi) as [v Hv]. rewrite Hv. intros [= <-].
    split; [done|]. by eapply list_elem_of_lookup_2.
  - intros [<- Hf]. destruct (getIndex f.1 r) as [i|] eqn:Hi.
    + destruct (getIndex_Some _ _ _ Hi) as [v Hv]. simpl. rewrite Hv. apply list_elem_of_lookup in Hf as [j Hj].
      assert (i = j) as ->; [|congruence]. eapply NoDup_lookup; [exact Hnd| |]; rewrite list_lookup_fmap; [by rewrite Hv|by rewrite Hj].
    + apply getIndex_None in Hi. destruct Hi. apply list_elem_of_fmap. by exists f.
Qed.

(** *** Paths *)

Lemma value_at_app p q v : value_at (p ++ q) v = value_at p v ≫= value_at q.
Proof.
  revert v. induction p as [|t p IH]; intros v; [done|]. simpl. destruct v as [a|r]; [done|]. destruct (field_at t r) as [f|]; [|done]. apply IH.
Qed.

Lemma value_at_ok p v w : value_ok v = true -> value_at p v = Some w -> value_ok w = true.
Proof.
  revert v. induction p as [|t p IH]; intros v Hv; simpl; [by intros [= <-]|]. destruct v as [a|r]; [done|].
  apply value_ok_node in Hv as [Hnd Hf]. destruct (field_at t r) as [f|] eqn:Hfi; [|done]. simpl. apply IH.
  apply field_at_spec in Hfi as [_ Hin]; [|done]. by eapply (proj1 (list.Forall_forall _ _) Hf).
Qed.

Lemma resolvePathToField_value p (r : record T) : p <> [] -> value_type_for p r = value_at p (Node r).
Proof.
  unfold value_type_for. revert r. induction p as [|t p IH]; intros r Hp; [done|]. simpl. unfold field_at.
  destruct (getIndex t r ≫= _) as [f|]; [|done]. simpl. destruct p as [|u p]; [done|]. destruct f.2 as [a|r'] eqn:Hf; [done|].
  by apply IH.
Qed.

Lemma hasPath_value p (r : record T) : value_ok (Node r) = true -> hasPath p r = true <-> is_Some (value_at p (Node r)).
Proof.
  revert r. induction p as [|t p IH]; intros r Hok; [simpl; split; [by eexists|done]|]. simpl. fold (field_at t r).
  pose proof Hok as [Hnd Hf]%value_ok_node. destruct (hasTag t r) eqn:Ht; simpl.
  - destruct (field_at t r) as [f|] eqn:Hfi.
    + destruct p as [|u p]; [simpl; split; [by eexists|done]|]. cbn [mbind option_bind]. apply field_at_spec in Hfi as [_ Hin]; [|done].
      assert (Hok' : value_ok f.2 = true) by (by eapply (proj1 (list.Forall_forall _ _) Hf)).
      destruct f as [t' [a|r']]; [|by apply IH]. split; [done|by intros [? ?]].
    + apply hasTag_spec, list_elem_of_fmap in Ht as (f & -> & Hin).
      assert (field_at f.1 r = Some f) by (by apply field_at_spec). congruence.
  - split; [done|]. destruct (field_at t r) as [f|] eqn:Hfi; [|by intros [? ?]]. apply field_at_spec in Hfi as [<- Hin]; [|done].
    assert (hasTag f.1 r = true) by (apply hasTag_spec, list_elem_of_fmap; by exists f). congruence.
Qed.

Lemma leaves_value v : value_ok v = true -> forall p a, (p, a) ∈ leaves v <-> value_at p v = Some (Leaf a).
Proof.
  induction v as [b|r IH] using value_type_ind'; intros Hok p a; cbn [leaves].
  - rewrite list_elem_of_singleton. destruct p; simpl; split; by intros [=]; subst.
  - apply value_ok_node in Hok as [Hnd Hf]. rewrite list_elem_of_bind. split.
    + intros (f & (l & He & Hl)%list_elem_of_fmap & Hin). injection He as -> ->. destruct l as [q b]. simpl.
      assert (Hfi : field_at f.1 r = Some f) by (by apply field_at_spec). rewrite Hfi. simpl.
      apply (proj1 (list.Forall_forall _ _) IH f Hin); [by eapply (proj1 (list.Forall_forall _ _) Hf)|done].
    + destruct p as [|t p]; simpl; [done|]. destruct (field_at t r) as [f|] eqn:Hfi; [|done]. simpl. intros Hv.
      apply field_at_spec in Hfi as [<- Hin]; [|done]. exists f. split; [|done]. apply list_elem_of_fmap. exists (p, a). split; [done|].
      apply (proj1 (list.Forall_forall _ _) IH f Hin); [by eapply (proj1 (list.Forall_forall _ _) Hf)|done].
Qed.

Lemma leaf_paths_value v p : value_ok v = true -> p ∈ leaf_paths v <-> exists a, value_at p v = Some (Leaf a).
Proof.
  intros Hok. unfold leaf_paths. rewrite list_elem_of_fmap. split.
  - intros ([q a] & -> & Hl). exists a. by apply leaves_value.
  - intros [a Ha]. exists (p, a). split; [done|]. by apply leaves_value.
Qed.

Lemma leaf_paths_node (r : record T) : leaf_paths (Node r) = r ≫= fun f => map (cons f.1) (leaf_paths f.2).
Proof.
  unfold leaf_paths. cbn [leaves]. induction r as [|f r IH]; [done|]. rewrite !bind_cons, map_app, IH. f_equal. by rewrite !map_map.
Qed.

Lemma leaf_paths_NoDup v : value_ok v = true -> NoDup (leaf_paths v).
Proof.
  induction v as [b|r IH] using value_type_ind'; intros Hok; [apply NoDup_singleton|].
  apply value_ok_node in Hok as [Hnd Hf]. rewrite leaf_paths_node. apply NoDup_bind.
  - intros f g p Hfr Hgr (q & -> & _)%list_elem_of_fmap (q' & He & _)%list_elem_of_fmap. injection He as He _.
    apply list_elem_of_lookup in Hfr as [i Hi], Hgr as [j Hj]. assert (i = j) as ->; [|congruence].
    eapply NoDup_lookup; [exact Hnd| |]; rewrite list_lookup_fmap; [by rewrite Hi|rewrite Hj; simpl; by rewrite He].
  - intros f Hin. apply NoDup_fmap; [by intros ? ? [=]|]. apply (proj1 (list.Forall_forall _ _) IH f Hin).
    by eapply (proj1 (list.Forall_forall _ _) Hf).
  - by eapply NoDup_fmap_1.
Qed.

(** No leaf is above another. *)
Lemma leaf_paths_antichain v p q : value_ok v = true -> p ∈ leaf_paths v -> is_Some (value_at q v) -> p `prefix_of` q -> q = p.
Proof.
  intros Hok Hp [w Hq] [k ->]. apply leaf_paths_value in Hp as [a Ha]; [|done]. rewrite value_at_app, Ha in Hq. simpl in Hq.
  destruct k; [by rewrite app_nil_r|done].
Qed.

Lemma FieldLeafPaths_spec v cur t : FieldLeafPaths cur t v = map (append (append cur [t])) (leaf_paths v).
Proof.
  revert cur t. induction v as [b|r IH] using value_type_ind'; intros cur t; [simpl; unfold append; by rewrite app_nil_r|].
  rewrite leaf_paths_node. cbn [FieldLeafPaths]. induction r as [|f r IHr]; [done|].
  apply list.Forall_cons in IH as [Hf IH]. cbn [map concat]. rewrite bind_cons, map_app, IHr by done. f_equal.
  rewrite Hf, map_map. apply map_ext. intros p. unfold append. by rewrite <-!app_assoc.
Qed.

Lemma GetLeafPaths_spec (r : record T) cur : GetLeafPaths r cur = map (append cur) (leaf_paths (Node r)).
Proof.
  unfold GetLeafPaths. rewrite leaf_paths_node. induction r as [|f r IH]; [done|]. cbn [map concat]. rewrite bind_cons, map_app, IH. f_equal.
  rewrite FieldLeafPaths_spec, map_map. apply map_ext. intros p. unfold append. by rewrite <-app_assoc.
Qed.

Lemma GetLeafPaths_root (r : record T) : GetLeafPaths r [] = leaf_paths (Node r).
Proof. rewrite GetLeafPaths_spec. unfold append. simpl. apply map_id. Qed.

Lemma leaf_count_spec v : value_leaf_count v = length (leaf_paths v).
Proof.
  induction v as [b|r IH] using value_type_ind'; [done|]. rewrite leaf_paths_node. cbn [value_leaf_count].
  assert (H : forall n, foldl (fun sum f => sum + value_leaf_count f.2) n r = n + length (r ≫= fun f => map (cons f.1) (leaf_paths f.2))); [|by rewrite H].
  induction r as [|f r IHr]; intros n; [simpl; lia|]. apply list.Forall_cons in IH as [Hf IH]. cbn [foldl].
  rewrite IHr, bind_cons, length_app, length_map, Hf by done. lia.
Qed.
End leaves.

(** ** Storages of records *)

Section typing.
Context {T A : Type} (P : T -> A -> Prop).

Lemma typed_field (r : record T) children t f i child :
  typed P (Node r) (Tup children) -> getIndex t r = Some i -> r !! i = Some f -> children !! i = Some child -> typed P f.2 child.
Proof. intros Hty _ Hf Hc. inversion Hty as [|? ? Hall]; subst. by eapply (Forall2_lookup_lr _ _ _ _ _ _ Hall). Qed.

(** Where a path goes on in a record and its storage. *)
Lemma typed_step (r : record T) s t f :
  typed P (Node r) s -> field_at t r = Some f ->
  exists children i child, s = Tup children /\ getIndex t r = Some i /\ r !! i = Some f /\ children !! i = Some child /\ typed P f.2 child.
Proof.
  intros Hty Hf. unfold field_at in Hf. destruct (getIndex t r) as [i|] eqn:Hi; [|done]. simpl in Hf.
  inversion Hty as [|? children Hall]; subst. destruct (Forall2_lookup_l _ _ _ _ _ Hall Hf) as (child & Hc & Hfc).
  by exists children, i, child.
Qed.

Lemma resolveLeaf_typed p (r : record T) s t :
  typed P (Node r) s -> p <> [] -> value_at p (Node r) = Some (Leaf t) -> exists a, resolveLeaf p r s = Some a /\ P t a.
Proof.
  revert r s. induction p as [|u p IH]; intros r s Hty Hp Hv; [done|]. simpl in Hv.
  destruct (field_at u r) as [f|] eqn:Hf; [|done]. simpl in Hv.
  destruct (typed_step _ _ _ _ Hty Hf) as (children & i & child & -> & Hi & Hri & Hci & Hfc). simpl. rewrite Hi. simpl. rewrite Hri. simpl. rewrite Hci. simpl.
  destruct p as [|x p].
  - simpl in Hv. injection Hv as Hv. rewrite Hv in Hfc |- *. inversion Hfc as [? a Ha|]; subst. by exists a.
  - destruct f.2 as [a|r'] eqn:Hf2; [done|]. by apply IH.
Qed.

Lemma resolveLeaf_value p (r : record T) (s : storage A) a : resolveLeaf p r s = Some a -> p <> [] /\ exists t, value_at p (Node r) = Some (Leaf t).
Proof.
  revert r s. induction p as [|u p IH]; intros r s H; [done|]. split; [done|]. destruct s as [?|children]; [done|]. simpl in H |- *.
  unfold field_at. destruct (getIndex u r) as [i|]; [|done]. simpl in H |- *. destruct (r !! i) as [f|]; [|done]. simpl in H |- *.
  destruct (children !! i) as [child|]; [|done]. simpl in H. destruct p as [|x p].
  - destruct f.2 as [t|]; [|done]. simpl. by exists t.
  - destruct f.2 as [t|r']; [done|]. by apply IH in H as [_ H].
Qed.

Lemma storeLeaf_step p (x : A) (r : record T) children t i f child :
  getIndex t r = Some i -> r !! i = Some f -> children !! i = Some child ->
  storeLeaf (t :: p) x r (Tup children) =
  match p, f.2, child with
  | [], Leaf _, Column _ => Tup (<[i := Column x]> children)
  | _ :: _, Node r', _ => Tup (<[i := storeLeaf p x r' child]> children)
  | _, _, _ => Tup children
  end.
Proof. intros Hi Hf Hc. simpl. rewrite Hi. simpl. rewrite Hf. simpl. rewrite Hc. by destruct p, f.2, child. Qed.

Lemma resolveLeaf_step p (r : record T) (children : list (storage A)) t i f child :
  getIndex t r = Some i -> r !! i = Some f -> children !! i = Some child ->
  resolveLeaf (t :: p) r (Tup children) =
  match p, f.2, child with
  | [], Leaf _, Column a => Some a
  | _ :: _, Node r', _ => resolveLeaf p r' child
  | _, _, _ => None
  end.
Proof. intros Hi Hf Hc. simpl. rewrite Hi. simpl. rewrite Hf. simpl. by rewrite Hc. Qed.

Lemma resolveLeaf_insert_ne q (r : record T) (children : list (storage A)) t u i c :
  getIndex t r = Some i -> u <> t -> resolveLeaf (u :: q) r (Tup (<[i := c]> children)) = resolveLeaf (u :: q) r (Tup children).
Proof.
  intros Hi Hne. simpl. destruct (getIndex u r) as [j|] eqn:Hj; [|done]. simpl. rewrite list_lookup_insert_ne; [done|].
  intros ->. destruct (getIndex_Some _ _ _ Hi) as [? H1], (getIndex_Some _ _ _ Hj) as [? H2]. congruence.
Qed.

Lemma typed_insert (r : record T) children i f child :
  typed P (Node r) (Tup children) -> r !! i = Some f -> typed P f.2 child -> typed P (Node r) (Tup (<[i := child]> children)).
Proof.
  intros Hty Hf Hc. inversion Hty as [|? ? Hall]; subst. constructor. rewrite <-(list_insert_id r i f) by done.
  by apply Forall2_insert.
Qed.

(** A store through a reference to a leaf. *)
Lemma storeLeaf_typed p (r : record T) s t x :
  typed P (Node r) s -> p <> [] -> value_at p (Node r) = Some (Leaf t) -> P t x ->
  typed P (Node r) (storeLeaf p x r s) /\
  forall q, resolveLeaf q r (storeLeaf p x r s) = if decide (q = p) then Some x else resolveLeaf q r s.
Proof.
  revert r s. induction p as [|u p IH]; intros r s Hty Hp Hv Hx; [done|]. simpl in Hv.
  destruct (field_at u r) as [f|] eqn:Hf; [|done]. simpl in Hv.
  destruct (typed_step _ _ _ _ Hty Hf) as (children & i & child & -> & Hi & Hri & Hci & Hfc).
  assert (Hlt : i < length children) by (by eapply lookup_lt_Some).
  rewrite (storeLeaf_step _ _ _ _ _ _ _ _ Hi Hri Hci). destruct p as [|y p].
  - simpl in Hv. injection Hv as Hv. rewrite Hv. rewrite Hv in Hfc. inversion Hfc as [? a Ha|]; subst.
    split; [eapply typed_insert; [done|done|rewrite Hv; by constructor]|]. intros [|w q]; [done|].
    destruct (decide (w = u)) as [->|Hwu]; [|rewrite decide_False by congruence; by apply (resolveLeaf_insert_ne _ _ _ u)].
    rewrite (resolveLeaf_step _ _ _ _ _ _ _ Hi Hri (list_lookup_insert_eq _ _ _ Hlt)), (resolveLeaf_step _ _ _ _ _ _ _ Hi Hri Hci), Hv.
    destruct q as [|z q]; [by rewrite decide_True|by rewrite decide_False].
  - destruct f.2 as [b|r'] eqn:Hf2; [done|]. destruct (IH r' child Hfc ltac:(done) Hv Hx) as [Hty' Hres].
    split; [eapply typed_insert; [done|done|by rewrite Hf2]|]. intros [|w q]; [done|].
    destruct (decide (w = u)) as [->|Hwu]; [|rewrite decide_False by congruence; by apply (resolveLeaf_insert_ne _ _ _ u)].
    rewrite (resolveLeaf_step _ _ _ _ _ _ _ Hi Hri (list_lookup_insert_eq _ _ _ Hlt)), (resolveLeaf_step _ _ _ _ _ _ _ Hi Hri Hci), Hf2.
    destruct q as [|z q]; [by rewrite decide_False|]. rewrite Hres. destruct (decide (z :: q = y :: p)) as [He|He];
      [by rewrite decide_True by congruence|by rewrite decide_False by congruence].
Qed.
End typing.

(** ** What records promise *)

Section theorems.
Context {T : Type}.

Lemma isLeaf_spec p (r : record T) : isLeaf p r = Some true <-> p <> [] /\ exists t, value_at p (Node r) = Some (Leaf t).
Proof.
  unfold isLeaf. destruct p as [|u p]; [by split; [|intros [? _]]|]. rewrite resolvePathToField_value by done.
  destruct (value_at (u :: p) (Node r)) as [[t|r']|]; simpl; (split; [intros [=]|intros [_ [? [=]]]]); try done. split; [done|by eexists].
Qed.

Lemma leaf_paths_nonempty (r : record T) p : p ∈ leaf_paths (Node r) -> p <> [].
Proof. rewrite leaf_paths_node. by intros (f & (q & -> & _)%list_elem_of_fmap & _)%list_elem_of_bind. Qed.

Lemma leaf_paths_spec (r : record T) p : record_ok r = true ->
  p ∈ leaf_paths (Node r) <-> hasPath p r = true /\ isLeaf p r = Some true.
Proof.
  intros Hok. rewrite isLeaf_spec. split.
  - intros Hp. pose proof (leaf_paths_nonempty _ _ Hp). apply leaf_paths_value in Hp as [t Ht]; [|done].
    split; [apply hasPath_value; [done|by eexists]|]. split; [done|by exists t].
  - intros (_ & _ & t & Ht). apply leaf_paths_value; [done|by exists t].
Qed.

(** The leaves of a record.  [GetLeafPaths] lists exactly the paths that lead to leaves, each once, as many as
    [leaf_count] says, and none above another, so that a list of leaf paths is never redundant; below a
    prefix the same paths appear with the prefix in front. *)
Theorem record_leaves (r : record T) :
  record_ok r = true ->
  NoDup (GetLeafPaths r []) /\ length (GetLeafPaths r []) = leaf_count r /\
  (forall p, p ∈ GetLeafPaths r [] <-> hasPath p r = true /\ isLeaf p r = Some true) /\
  hasRedundantPaths (GetLeafPaths r []) = false /\
  forall current, GetLeafPaths r current = map (append current) (GetLeafPaths r []).
Proof.
  intros Hok. rewrite GetLeafPaths_root. split_and!.
  - by apply leaf_paths_NoDup.
  - unfold leaf_count. by rewrite leaf_count_spec.
  - intros p. by apply leaf_paths_spec.
  - apply not_true_iff_false. rewrite hasRedundantPaths_spec by (by apply leaf_paths_NoDup).
    intros (p & q & Hp & Hq & [Hpq Hne]%isStrictAncestorOf_spec). apply Hne. symmetry. eapply leaf_paths_antichain; [exact Hok|done| |done].
    apply leaf_paths_value in Hq as [t Ht]; [by eexists|done].
  - apply GetLeafPaths_spec.
Qed.

(** C39: access to leaves is typed.  In a storage that has the shape of its record, [resolveLeaf] yields an
    element exactly for the paths of leaves, and one of the kind the leaf's type asks for; a store through
    it keeps the storage well typed, is read back, and changes no other leaf. *)
Theorem leaf_storage_typed {A} (P : T -> A -> Prop) (r : record T) (s : storage A) :
  record_ok r = true -> typed P (Node r) s ->
  (forall p, is_Some (resolveLeaf p r s) <-> p ∈ GetLeafPaths r []) /\
  (forall p a, resolveLeaf p r s = Some a -> exists t, value_type_for p r = Some (Leaf t) /\ P t a) /\
  (forall p t x, value_type_for p r = Some (Leaf t) -> P t x ->
     typed P (Node r) (storeLeaf p x r s) /\
     forall q, resolveLeaf q r (storeLeaf p x r s) = if decide (q = p) then Some x else resolveLeaf q r s).
Proof.
  intros Hok Hty. rewrite GetLeafPaths_root. split_and!.
  - intros p. split.
    + intros [a Ha]. apply resolveLeaf_value in Ha as [_ [t Ht]]. apply leaf_paths_value; [done|by exists t].
    + intros Hp. pose proof (leaf_paths_nonempty _ _ Hp). apply leaf_paths_value in Hp as [t Ht]; [|done].
      destruct (resolveLeaf_typed P p r s t) as (a & Ha & _); [done..|by exists a].
  - intros p a Ha. destruct (resolveLeaf_value _ _ _ _ Ha) as [Hp [t Ht]]. exists t. rewrite resolvePathToField_value by done. split; [done|].
    destruct (resolveLeaf_typed P p r s t) as (a' & Ha' & HP); [done..|]. congruence.
  - intros p t x Ht Hx. assert (Hp : p <> []) by (by intros ->). rewrite resolvePathToField_value in Ht by done. by eapply storeLeaf_typed.
Qed.
End theorems.

(** A particle with a position of two leaves (type 0) and an identifier (type 1). *)
Definition example_record : record nat :=
  let tag n := mkTag n [] in [(tag 0, Node [(tag 1, Leaf 0); (tag 2, Leaf 0)]); (tag 3, Leaf 1)].

Lemma record_leaves_witness :
  record_ok example_record = true /\ leaf_count example_record = 3 /\ length (GetLeafPaths example_record []) = 3.
Proof.
  destruct (record_leaves example_record) as (_ & H & _); [reflexivity|]. split_and!; [reflexivity|reflexivity|]. exact H.
Defined.

Lemma leaf_storage_typed_witness :
  let s := Tup [Tup [Column (0, 1); Column (0, 2)]; Column (1, 7)] in
  typed (fun t a => a.1 = t) (Node example_record) s /\
  resolveLeaf [mkTag 0 []; mkTag 2 []] example_record (storeLeaf [mkTag 0 []; mkTag 1 []] (0, 9) example_record s) = Some (0, 2).
Proof.
  set (s := Tup _). assert (Hty : typed (fun t a => a.1 = t) (Node example_record) s).
  { repeat (constructor; simpl). }
  split; [exact Hty|]. destruct (leaf_storage_typed (fun t a => a.1 = t) example_record s eq_refl Hty) as (_ & _ & H).
  destruct (H [mkTag 0 []; mkTag 1 []] 0 (0, 9) eq_refl eq_refl) as [_ Hq]. rewrite Hq. reflexivity.
Defined.
