(* ===== verification/AccessSet.v ===== *)
(** * Sets of types and access sets

    Models llamaLite/Set.hpp and AccessSet.hpp.  A set is a list of distinct types; the operations build it in the
    order of their folds.  An access set of a record is the list of the leaves it selects in the order of their
    declaration, so that equal selections are one type; the specification is the powerset of the leaves. *)
From Stdlib Require Import ZArith Lia.
From stdpp Require Import base list numbers.
From S2P Require Import Prelude TagPath Records.

(** ** Set *)

Section sets.
Context {A : Type} `{EqDecision A}.

Definition countTypeOccurrences (query : A) (l : list A) : nat := foldr (fun t n => (if decide (query = t) then 1 else 0) + n) 0 l.

(** The static assertion of [Set]. *)
Definition set_ok (s : list A) : bool := forallb (fun t => countTypeOccurrences t s =? 1)%nat s.

Definition contains (t : A) (s : list A) : bool := existsb (fun u => bool_decide (t = u)) s.
Definition set_eq (s u : list A) : bool := if negb (length s =? length u)%nat then false else forallb (fun t => contains t u) s.
Definition set_le (s u : list A) : bool := forallb (fun t => contains t u) s.
Definition set_ge (s u : list A) : bool := forallb (fun t => contains t s) u.

Definition InsertIfAbsent (acc : list A) (t : A) : list A := if contains t acc then acc else acc ++ [t].
Fixpoint UnionFold (acc bs : list A) : list A :=
  match bs with [] => acc | b :: bs => UnionFold (InsertIfAbsent acc b) bs end.
Fixpoint FilterByMembership (bset : list A) (keepIfPresent : bool) (acc l : list A) : list A :=
  match l with
  | [] => acc
  | a :: l => FilterByMembership bset keepIfPresent (if eqb (contains a bset) keepIfPresent then acc ++ [a] else acc) l
  end.

Definition makeSet (objs : list A) : list A := UnionFold [] objs.
Definition set_or (a b : list A) : list A := UnionFold a b.
Definition set_and (a b : list A) : list A := FilterByMembership b true [] a.
Definition set_minus (a b : list A) : list A := FilterByMembership b false [] a.
Definition set_xor (a b : list A) : list A := set_or (set_minus a b) (set_minus b a).
Definition set_add (s : list A) (t : A) : option (list A) := if negb (contains t s) then Some (s ++ [t]) else None.
Definition set_remove (s : list A) (t : A) : list A := FilterByMembership [t] false [] s.

Lemma contains_spec t s : contains t s = true <-> t ∈ s.
Proof.
  unfold contains. induction s as [|u s IH]; simpl; [split; [done|by intros ?%elem_of_nil]|].
  by rewrite orb_true_iff, bool_decide_eq_true, elem_of_cons, IH.
Qed.

Lemma set_le_spec s u : set_le s u = true <-> s ⊆ u.
Proof.
  unfold set_le. rewrite forallb_forall. setoid_rewrite <-list_elem_of_In. setoid_rewrite contains_spec. done.
Qed.

Lemma InsertIfAbsent_spec acc t x : x ∈ InsertIfAbsent acc t <-> x ∈ acc \/ x = t.
Proof.
  unfold InsertIfAbsent. destruct (contains t acc) eqn:Hc.
  - apply contains_spec in Hc. split; [by left|by intros [? | ->]].
  - by rewrite elem_of_app, list_elem_of_singleton.
Qed.

Lemma UnionFold_spec acc bs x : x ∈ UnionFold acc bs <-> x ∈ acc \/ x ∈ bs.
Proof.
  revert acc. induction bs as [|b bs IH]; intros acc; simpl; [split; [by left|intros [?|?%elem_of_nil]; done]|].
  rewrite IH, InsertIfAbsent_spec, elem_of_cons. tauto.
Qed.

Lemma FilterByMembership_spec bset keep acc l :
  FilterByMembership bset keep acc l = acc ++ filter (fun a => contains a bset = keep) l.
Proof.
  revert acc. induction l as [|a l IH]; intros acc; simpl; [by rewrite app_nil_r|]. rewrite IH, filter_cons.
  destruct (decide (contains a bset = keep)) as [He|He]; [rewrite He, eqb_reflx; by rewrite <-app_assoc|].
  by rewrite (proj2 (eqb_false_iff _ _) He).
Qed.

Lemma set_ok_spec s : set_ok s = true <-> NoDup s.
Proof.
  assert (Hpos : forall t (l : list A), countTypeOccurrences t l <> 0 <-> t ∈ l).
  { intros t l. induction l as [|u l IH]; simpl; [split; [done|by intros ?%elem_of_nil]|]. rewrite elem_of_cons, <-IH.
    destruct (decide (t = u)) as [->|]; simpl; split; [by left|lia|by right|by intros [?|?]]. }
  unfold set_ok. rewrite forallb_forall. setoid_rewrite <-list_elem_of_In. setoid_rewrite Nat.eqb_eq.
  induction s as [|u s IH]; [split; [constructor|intros _ t Ht; by apply elem_of_nil in Ht]|].
  rewrite list.NoDup_cons, <-IH. simpl. split.
  - intros H. split.
    + intros Hu%Hpos. specialize (H u (list_elem_of_here _ _)). rewrite decide_True in H by done. lia.
    + intros t Ht. specialize (H t (list_elem_of_further _ _ _ Ht)). apply Hpos in Ht. destruct (decide _); lia.
  - intros [Hu H] t [->|Ht]%elem_of_cons.
    + rewrite decide_True by done. destruct (decide (countTypeOccurrences u s = 0)) as [->|Hc]; [done|by apply Hpos in Hc].
    + rewrite decide_False by (intros ->; done). by apply H.
Qed.

Lemma makeSet_ok objs : NoDup (makeSet objs).
Proof.
  unfold makeSet. assert (H : forall acc, NoDup acc -> NoDup (UnionFold acc objs)); [|apply H; constructor].
  induction objs as [|b bs IH]; intros acc Hnd; [done|]. simpl. apply IH. unfold InsertIfAbsent. destruct (contains b acc) eqn:Hc; [done|].
  apply list.NoDup_app. split_and!; [done| |apply NoDup_singleton]. intros x Hx ->%list_elem_of_singleton. apply contains_spec in Hx. congruence.
Qed.
End sets.

(** ** Access sets *)

Section access.
Context {T : Type}.

Definition raw_access_set (ras : list RecordAccess) : list TagPath := map to_path ras.
Definition deduped_access_set (ras : list RecordAccess) : list TagPath := makeSet (map to_path ras).

Definition SelectsLeaf (l : TagPath) (s : list TagPath) : bool := existsb (fun p => isAncestorOf p l) s.
Fixpoint FilterBySelection (s : list TagPath) (keepIfSelected : bool) (acc ls : list TagPath) : list TagPath :=
  match ls with
  | [] => acc
  | l :: ls => FilterBySelection s keepIfSelected (if eqb (SelectsLeaf l s) keepIfSelected then acc ++ [l] else acc) ls
  end.
Definition MakeLeafSet (r : record T) (s : list TagPath) (keepIfSelected : bool) : list TagPath :=
  FilterBySelection s keepIfSelected [] (GetLeafPaths r []).
Definition AllPathsInRecord (r : record T) (s : list TagPath) : bool := forallb (fun p => hasPath p r) s.

Definition record_leaf_set (r : record T) : list TagPath := GetLeafPaths r [].
Definition leaf_set (r : record T) (s : list TagPath) : list TagPath := MakeLeafSet r s true.
Definition leaf_set_complement (r : record T) (s : list TagPath) : list TagPath := MakeLeafSet r s false.
Definition CanonicalLeafSetFor (r : record T) (l : list TagPath) : bool := AllPathsInRecord r l && bool_decide (l = leaf_set r l).

(** [access_set_t]: ill-formed for a path that the record does not have.  An access set is its [leaf_set]. *)
Definition access_set (r : record T) (s : list TagPath) : option (list TagPath) :=
  if AllPathsInRecord r s then Some (leaf_set r s) else None.
Definition makeAccessSet (r : record T) (ras : list RecordAccess) : option (list TagPath) := access_set r (deduped_access_set ras).

(** The operators, on canonical leaf sets of [r]. *)
Definition access_or (r : record T) (a b : list TagPath) : option (list TagPath) := access_set r (set_or a b).
Definition access_and (r : record T) (a b : list TagPath) : option (list TagPath) := access_set r (set_and a b).
Definition access_minus (r : record T) (a b : list TagPath) : option (list TagPath) := access_set r (set_minus a b).
Definition access_xor (r : record T) (a b : list TagPath) : option (list TagPath) := access_set r (set_xor a b).
Definition access_not (r : record T) (a : list TagPath) : list TagPath := leaf_set_complement r a.
Definition access_eq (a b : list TagPath) : bool := set_eq a b.
Definition access_le (a b : list TagPath) : bool := set_le a b.
Definition access_ge (a b : list TagPath) : bool := set_ge a b.
End access.

(** ** The powerset of the leaves *)

Section powerset.
Context {T : Type} (r : record T) (Hok : record_ok r = true).
Abbreviation L := (leaf_paths (Node r)).

Lemma FilterBySelection_spec s keep acc ls :
  FilterBySelection s keep acc ls = acc ++ filter (fun l => SelectsLeaf l s = keep) ls.
Proof.
  revert acc. induction ls as [|l ls IH]; intros acc; simpl; [by rewrite app_nil_r|]. rewrite IH, filter_cons.
  destruct (decide (SelectsLeaf l s = keep)) as [He|He]; [rewrite He, eqb_reflx; by rewrite <-app_assoc|].
  by rewrite (proj2 (eqb_false_iff _ _) He).
Qed.

Lemma MakeLeafSet_spec s keep : MakeLeafSet r s keep = filter (fun l => SelectsLeaf l s = keep) L.
Proof. unfold MakeLeafSet. by rewrite FilterBySelection_spec, GetLeafPaths_root. Qed.

Lemma SelectsLeaf_spec l s : SelectsLeaf l s = true <-> exists p, p ∈ s /\ isAncestorOf p l = true.
Proof. unfold SelectsLeaf. rewrite existsb_exists. setoid_rewrite <-list_elem_of_In. done. Qed.

Lemma elem_of_leaf_set s l : l ∈ leaf_set r s <-> l ∈ L /\ SelectsLeaf l s = true.
Proof. unfold leaf_set. rewrite MakeLeafSet_spec, list_elem_of_filter. tauto. Qed.

Lemma elem_of_complement s l : l ∈ leaf_set_complement r s <-> l ∈ L /\ SelectsLeaf l s = false.
Proof. unfold leaf_set_complement. rewrite MakeLeafSet_spec, list_elem_of_filter. tauto. Qed.

Lemma AllPathsInRecord_spec s : AllPathsInRecord r s = true <-> forall p, p ∈ s -> hasPath p r = true.
Proof. unfold AllPathsInRecord. rewrite forallb_forall. by setoid_rewrite <-list_elem_of_In. Qed.

(** Among leaves only equal paths select each other. *)
Lemma selects_leaves s l : s ⊆ L -> l ∈ L -> SelectsLeaf l s = true <-> l ∈ s.
Proof.
  intros Hs Hl. rewrite SelectsLeaf_spec. split.
  - intros (p & Hp & Ha%isAncestorOf_spec). assert (l = p) as ->; [|done].
    apply leaf_paths_value in Hl as [t Ht]; [|done]. eapply leaf_paths_antichain; [exact Hok|by apply Hs|by eexists|done].
  - intros Hin. exists l. split; [done|by apply isAncestorOf_spec].
Qed.

Lemma leaves_in_record s : s ⊆ L -> AllPathsInRecord r s = true.
Proof. intros Hs. apply AllPathsInRecord_spec. intros p Hp%Hs. by apply (leaf_paths_spec r p Hok) in Hp as [? _]. Qed.

Lemma elem_of_leaf_set_leaves s l : s ⊆ L -> l ∈ leaf_set r s <-> l ∈ s.
Proof. intros Hs. rewrite elem_of_leaf_set. split; [intros [Hl Hsel]; by apply (selects_leaves s l Hs Hl)|].
  intros Hl. split; [by apply Hs|]. by apply (selects_leaves s l Hs (Hs l Hl)).
Qed.

Lemma leaf_set_leaves s : leaf_set r s ⊆ L.
Proof. by intros l [Hl _]%elem_of_leaf_set. Qed.

(** Two lists of leaves in declaration order are equal when they have the same elements. *)
Lemma filter_leaves_eq (P Q : TagPath -> Prop) `{!forall x, Decision (P x)} `{!forall x, Decision (Q x)} :
  (forall l, l ∈ L -> P l <-> Q l) -> filter P L = filter Q L.
Proof. apply list_filter_ext_in. Qed.

Lemma leaf_set_idem s : leaf_set r (leaf_set r s) = leaf_set r s.
Proof.
  unfold leaf_set at 1 3. rewrite !MakeLeafSet_spec. apply filter_leaves_eq. intros l Hl.
  rewrite selects_leaves, elem_of_leaf_set by (done || apply leaf_set_leaves). by split; [intros [_ ?]|].
Qed.

Lemma canonical_spec a : CanonicalLeafSetFor r a = true <-> a = filter (fun l => l ∈ a) L.
Proof.
  unfold CanonicalLeafSetFor. rewrite andb_true_iff, bool_decide_eq_true. split.
  - intros [_ Ha]. assert (Hs : a ⊆ L) by (rewrite Ha; apply leaf_set_leaves). rewrite Ha at 1. unfold leaf_set. rewrite MakeLeafSet_spec.
    apply filter_leaves_eq. intros l Hl. by apply selects_leaves.
  - intros Ha. assert (Hs : a ⊆ L) by (rewrite Ha; by intros l [_ Hl]%list_elem_of_filter). split; [by apply leaves_in_record|].
    rewrite Ha at 1. unfold leaf_set. rewrite MakeLeafSet_spec. apply filter_leaves_eq. intros l Hl. by rewrite selects_leaves.
Qed.

Lemma canonical_leaves a : CanonicalLeafSetFor r a = true -> a ⊆ L.
Proof. intros Ha%canonical_spec l Hl. rewrite Ha in Hl. by apply list_elem_of_filter in Hl as [_ ?]. Qed.

Lemma canonical_filter (P : TagPath -> Prop) `{!forall x, Decision (P x)} : CanonicalLeafSetFor r (filter P L) = true.
Proof. apply canonical_spec, filter_leaves_eq. intros l Hl. rewrite list_elem_of_filter. tauto. Qed.

Lemma MakeLeafSet_canonical s keep : CanonicalLeafSetFor r (MakeLeafSet r s keep) = true.
Proof. rewrite MakeLeafSet_spec. apply canonical_filter. Qed.

Lemma canonical_unique a b : CanonicalLeafSetFor r a = true -> CanonicalLeafSetFor r b = true -> (forall l, l ∈ a <-> l ∈ b) -> a = b.
Proof. intros Ha%canonical_spec Hb%canonical_spec H. rewrite Ha, Hb. apply filter_leaves_eq. intros l _. apply H. Qed.

(** An operator whose result consists of leaves. *)
Lemma access_set_leaves s : s ⊆ L ->
  exists c, access_set r s = Some c /\ CanonicalLeafSetFor r c = true /\ forall l, l ∈ c <-> l ∈ s.
Proof.
  intros Hs. unfold access_set. rewrite leaves_in_record by done. exists (leaf_set r s). split; [done|].
  split; [apply MakeLeafSet_canonical|]. intros l. by apply elem_of_leaf_set_leaves.
Qed.

Lemma set_eq_spec (a b : list TagPath) : NoDup a -> NoDup b -> set_eq a b = true <-> forall l, l ∈ a <-> l ∈ b.
Proof.
  intros Ha Hb. unfold set_eq. destruct (Nat.eqb_spec (length a) (length b)) as [Hl|Hl]; simpl.
  - change (forallb (fun t => contains t b) a) with (set_le a b). rewrite set_le_spec. split.
    + intros Hs l. split; [apply Hs|]. assert (Hp : a ≡ₚ b); [|by rewrite Hp].
      apply submseteq_length_Permutation; [by apply NoDup_submseteq|lia].
    + intros H l Hin. by apply H.
  - split; [done|]. intros H. destruct Hl. by apply Permutation_length, NoDup_Permutation.
Qed.

Lemma canonical_NoDup a : CanonicalLeafSetFor r a = true -> NoDup a.
Proof. intros Ha%canonical_spec. rewrite Ha. apply list.NoDup_filter. by apply leaf_paths_NoDup. Qed.
End powerset.

(** [access_set] of any paths of the record. *)
Lemma access_set_spec {T} (r : record T) s : record_ok r = true ->
  match access_set r s with
  | Some c => CanonicalLeafSetFor r c = true /\ forall l, l ∈ c <-> l ∈ GetLeafPaths r [] /\ exists p, p ∈ s /\ isAncestorOf p l = true
  | None => exists p, p ∈ s /\ hasPath p r = false
  end.
Proof.
  intros Hok. unfold access_set. destruct (AllPathsInRecord r s) eqn:Ha.
  - split; [by apply MakeLeafSet_canonical|]. intros l. by rewrite elem_of_leaf_set, SelectsLeaf_spec, GetLeafPaths_root.
  - unfold AllPathsInRecord in Ha. apply not_true_iff_false in Ha. rewrite forallb_forall in Ha.
    destruct (decide (Exists (fun p => hasPath p r = false) s)) as [He|He].
    + apply list.Exists_exists in He as (p & Hp & Hh). by exists p.
    + destruct Ha. intros p Hp%list_elem_of_In. apply not_false_iff_true. intros Hh. apply He, list.Exists_exists. by exists p.
Qed.

(** An operator that picks leaves out of two canonical sets. *)
Lemma access_operator {T} (r : record T) (op : list TagPath -> list TagPath -> list TagPath) (Q : Prop -> Prop -> Prop) a b :
  record_ok r = true -> CanonicalLeafSetFor r a = true -> CanonicalLeafSetFor r b = true ->
  (forall x, x ∈ op a b <-> (x ∈ a \/ x ∈ b) /\ Q (x ∈ a) (x ∈ b)) ->
  exists c, access_set r (op a b) = Some c /\ CanonicalLeafSetFor r c = true /\ forall l, l ∈ c <-> (l ∈ a \/ l ∈ b) /\ Q (l ∈ a) (l ∈ b).
Proof.
  intros Hok Ha Hb Hop. assert (Hs : op a b ⊆ leaf_paths (Node r)).
  { intros l [[Hl|Hl] _]%Hop; [by apply (canonical_leaves r Hok a Ha)|by apply (canonical_leaves r Hok b Hb)]. }
  destruct (access_set_leaves r Hok _ Hs) as (c & Hc & Hcc & Hl). exists c. split_and!; [done|done|]. intros l. by rewrite Hl, Hop.
Qed.

Lemma set_and_spec {A} `{EqDecision A} (a b : list A) x : x ∈ set_and a b <-> x ∈ a /\ x ∈ b.
Proof. unfold set_and. rewrite FilterByMembership_spec. simpl. rewrite list_elem_of_filter, contains_spec. tauto. Qed.

Lemma set_minus_spec {A} `{EqDecision A} (a b : list A) x : x ∈ set_minus a b <-> x ∈ a /\ x ∉ b.
Proof. unfold set_minus. rewrite FilterByMembership_spec. simpl. rewrite list_elem_of_filter, <-not_true_iff_false, contains_spec. tauto. Qed.

Lemma set_or_spec {A} `{EqDecision A} (a b : list A) x : x ∈ set_or a b <-> x ∈ a \/ x ∈ b.
Proof. unfold set_or. apply UnionFold_spec. Qed.

(** C37: access sets are the powerset of the leaves of a record.  [makeAccessSet] selects the leaves below
    the given tags and paths, whatever overlaps or repeats among them, and is ill-formed exactly when one of them is
    not in the record.  The operators are union, intersection, difference, symmetric difference and complement of the
    selected leaves; they yield canonical sets again; comparison is inclusion; and two access sets select the same
    leaves exactly when they are the same type, which is what [==] says. *)
Theorem access_algebra {T} (r : record T) :
  record_ok r = true ->
  (forall ras, match makeAccessSet r ras with
     | Some c => CanonicalLeafSetFor r c = true /\ (forall ra, ra ∈ ras -> hasPath (to_path ra) r = true) /\
         forall l, l ∈ c <-> l ∈ GetLeafPaths r [] /\ exists ra, ra ∈ ras /\ isAncestorOf (to_path ra) l = true
     | None => exists ra, ra ∈ ras /\ hasPath (to_path ra) r = false
     end) /\
  (forall a b, CanonicalLeafSetFor r a = true -> CanonicalLeafSetFor r b = true ->
     (exists c, access_or r a b = Some c /\ CanonicalLeafSetFor r c = true /\ forall l, l ∈ c <-> l ∈ a \/ l ∈ b) /\
     (exists c, access_and r a b = Some c /\ CanonicalLeafSetFor r c = true /\ forall l, l ∈ c <-> l ∈ a /\ l ∈ b) /\
     (exists c, access_minus r a b = Some c /\ CanonicalLeafSetFor r c = true /\ forall l, l ∈ c <-> l ∈ a /\ l ∉ b) /\
     (exists c, access_xor r a b = Some c /\ CanonicalLeafSetFor r c = true /\
        forall l, l ∈ c <-> l ∈ a /\ l ∉ b \/ l ∈ b /\ l ∉ a) /\
     (CanonicalLeafSetFor r (access_not r a) = true /\ forall l, l ∈ access_not r a <-> l ∈ GetLeafPaths r [] /\ l ∉ a) /\
     (access_le a b = true <-> a ⊆ b) /\ (access_ge a b = true <-> b ⊆ a) /\
     (access_eq a b = true <-> a = b) /\ ((forall l, l ∈ a <-> l ∈ b) <-> a = b) /\ leaf_set r a = a).
Proof.
  intros Hok. split.
  - intros ras. pose proof (access_set_spec r (deduped_access_set ras) Hok) as H. unfold makeAccessSet.
    assert (Hd : forall p, p ∈ deduped_access_set ras <-> exists ra, p = to_path ra /\ ra ∈ ras).
    { intros p. unfold deduped_access_set, makeSet. rewrite UnionFold_spec, list_elem_of_fmap. split; [by intros [?%elem_of_nil|]|by right]. }
    destruct (access_set r _) as [c|] eqn:Hc.
    + destruct H as [Hcan H]. split; [done|]. split.
      { intros ra Hra. unfold access_set in Hc. destruct (AllPathsInRecord r _) eqn:Hall; [|discriminate].
        apply (proj1 (AllPathsInRecord_spec r _) Hall), Hd. by exists ra. }
      intros l. rewrite H. split; intros [Hl Hex]; (split; [done|]).
      * destruct Hex as (p & (ra & -> & Hra)%Hd & Ha). by exists ra.
      * destruct Hex as (ra & Hra & Ha). exists (to_path ra). split; [|done]. apply Hd. by exists ra.
    + destruct H as (p & (ra & -> & Hra)%Hd & Hp). by exists ra.
  - intros a b Ha Hb. pose proof (canonical_leaves r Hok a Ha) as Hla. pose proof (canonical_leaves r Hok b Hb) as Hlb. split_and!.
    + destruct (access_operator r set_or (fun _ _ => True) a b Hok Ha Hb) as (c & Hc & Hcc & Hl); [intros x; rewrite set_or_spec; tauto|].
      exists c. split_and!; [done|done|]. intros l. rewrite Hl. tauto.
    + destruct (access_operator r set_and (fun p q => p /\ q) a b Hok Ha Hb) as (c & Hc & Hcc & Hl); [intros x; rewrite set_and_spec; tauto|].
      exists c. split_and!; [done|done|]. intros l. rewrite Hl. tauto.
    + destruct (access_operator r set_minus (fun p q => p /\ ~ q) a b Hok Ha Hb) as (c & Hc & Hcc & Hl); [intros x; rewrite set_minus_spec; tauto|].
      exists c. split_and!; [done|done|]. intros l. rewrite Hl. tauto.
    + destruct (access_operator r set_xor (fun p q => p /\ ~ q \/ q /\ ~ p) a b Hok Ha Hb) as (c & Hc & Hcc & Hl).
      { intros x. unfold set_xor. rewrite set_or_spec, !set_minus_spec. tauto. }
      exists c. split_and!; [done|done|]. intros l. rewrite Hl. tauto.
    + by apply MakeLeafSet_canonical.
    + intros l. unfold access_not. rewrite elem_of_complement, GetLeafPaths_root. split; intros [Hl H]; (split; [done|]).
      * intros Hin. apply (selects_leaves r Hok a l Hla Hl) in Hin. congruence.
      * apply not_true_iff_false. by rewrite (selects_leaves r Hok a l Hla Hl).
    + apply set_le_spec.
    + change (access_ge a b) with (set_le b a). apply set_le_spec.
    + unfold access_eq. rewrite set_eq_spec by (by eapply canonical_NoDup). split; [by apply (canonical_unique r Hok)|by intros ->].
    + split; [by apply (canonical_unique r Hok)|by intros ->].
    + apply (canonical_unique r Hok); [by apply MakeLeafSet_canonical|done|]. intros l. by apply elem_of_leaf_set_leaves.
Qed.

(** The tag of the position and one of its components are the position; its complement is the identifier. *)
Lemma access_algebra_witness :
  let pos := mkTag 0 [] in let x := mkTag 1 [] in let y := mkTag 2 [] in let id := mkTag 3 [] in
  record_ok example_record = true /\ CanonicalLeafSetFor example_record [[pos; x]; [pos; y]] = true /\ CanonicalLeafSetFor example_record [[pos; y]; [id]] = true /\
  makeAccessSet example_record [OneTag pos; Path [pos; x]] = Some [[pos; x]; [pos; y]] /\
  access_not example_record [[pos; x]; [pos; y]] = [[id]] /\
  access_and example_record [[pos; x]; [pos; y]] [[pos; y]; [id]] = Some [[pos; y]] /\
  access_eq [[mkTag 0 []; mkTag 1 []]; [pos; y]] [[pos; y]; [id]] = false.
Proof.
  cbv zeta. split_and!; [reflexivity..|].
  destruct (access_algebra example_record eq_refl) as [_ H].
  destruct (H [[mkTag 0 []; mkTag 1 []]; [mkTag 0 []; mkTag 2 []]] [[mkTag 0 []; mkTag 2 []]; [mkTag 3 []]] eq_refl eq_refl)
    as (_ & _ & _ & _ & _ & _ & _ & He & _). apply not_true_iff_false. intros Ht. apply He in Ht. discriminate Ht.
Defined.
