(* ===== verification/RecordIterate.v ===== *)
(** * Iteration over the fields of a record

    Models llamaLite/Algorithm.hpp: the selectors, and the traversals [iterate] and [iterate_path], which call a
    visitor for every selected leaf, or once for a record whose subtree is selected as a whole if the visitor is
    specialised for it.  A traversal is the list of its calls. *)
From Stdlib Require Import ZArith Lia.
From stdpp Require Import base list numbers.
From S2P Require Import Prelude TagPath Records AccessSet.

(** ** Selectors *)

Inductive selector : Type := SelectAll | Include (targets : list RecordAccess) | Exclude (targets : list RecordAccess).

Definition allow (s : selector) (p : TagPath) : bool :=
  match s with
  | SelectAll => true
  | Include targets => existsb (fun t => isAncestorOf p (to_path t) || isDescendantOf p (to_path t)) targets
  | Exclude targets => negb (existsb (fun t => isDescendantOf p (to_path t)) targets)
  end.

Definition covers_subtree (s : selector) (p : TagPath) : bool :=
  match s with
  | SelectAll => true
  | Include targets => existsb (fun t => isDescendantOf p (to_path t)) targets
  | Exclude targets => negb (existsb (fun t => isAncestorOf p (to_path t) || isDescendantOf p (to_path t)) targets)
  end.

(** ** Traversals *)

Section iterate.
Context {T : Type} (s : selector).

(** [process_field] of both traversals: the calls with the path and the field, when [specialized] tells for
    which nodes the visitor is specialised. *)
Fixpoint process_field (specialized : TagPath -> Tag * value_type T -> bool) (current : TagPath) (tag : Tag) (v : value_type T) :
    list (TagPath * (Tag * value_type T)) :=
  let next := append current [tag] in
  if allow s next then
    match v with
    | Node r =>
        if covers_subtree s next && specialized next (tag, v) then [(next, (tag, v))]
        else concat (map (fun f => process_field specialized next f.1 f.2) r)
    | Leaf _ => [(next, (tag, v))]
    end
  else [].

Definition iterate_recursive (specialized : TagPath -> Tag * value_type T -> bool) (current : TagPath) (r : record T) :
    list (TagPath * (Tag * value_type T)) :=
  concat (map (fun f => process_field specialized current f.1 f.2) r).

(** [iterate] calls [VisitorTrait<Field>] with the view of the field, [iterate_path] calls [VisitorTrait<Path>]. *)
Definition iterate (specialized : Tag * value_type T -> bool) (r : record T) : list (TagPath * (Tag * value_type T)) :=
  iterate_recursive (fun _ => specialized) [] r.
Definition iterate_path (specialized : TagPath -> bool) (r : record T) : list TagPath :=
  map fst (iterate_recursive (fun p _ => specialized p) [] r).
End iterate.

(** [iterate_path_only], [iterate_path_except]. *)
Definition iterate_path_only {T} (paths : list RecordAccess) (specialized : TagPath -> bool) (r : record T) : list TagPath :=
  iterate_path (Include paths) specialized r.
Definition iterate_path_except {T} (paths : list RecordAccess) (specialized : TagPath -> bool) (r : record T) : list TagPath :=
  iterate_path (Exclude paths) specialized r.

(** ** What is visited *)

(** The leaves a selector stands for. *)
Definition selected (s : selector) (l : TagPath) : bool :=
  match s with
  | SelectAll => true
  | Include targets => SelectsLeaf l (raw_access_set targets)
  | Exclude targets => negb (SelectsLeaf l (raw_access_set targets))
  end.

Definition targets_of (s : selector) : list TagPath :=
  match s with SelectAll => [] | Include targets | Exclude targets => raw_access_set targets end.

(** The leaves a call stands for. *)
Definition covered {T} (call : TagPath * (Tag * value_type T)) : list TagPath :=
  match call.2.2 with Leaf _ => [call.1] | Node r => GetLeafPaths r call.1 end.

Section visits.
Context {T : Type}.

Lemma existsb_targets (f : TagPath -> bool) ts : existsb (fun t => f (to_path t)) ts = true <-> exists p, p ∈ raw_access_set ts /\ f p = true.
Proof.
  rewrite existsb_exists. unfold raw_access_set. setoid_rewrite list_elem_of_fmap. setoid_rewrite list_elem_of_In. split.
  - intros (t & Ht & Hf). exists (to_path t). split; [by exists t|done].
  - intros (p & (t & -> & Ht) & Hf). by exists t.
Qed.

Lemma existsb_targets_false (f : TagPath -> bool) ts : existsb (fun t => f (to_path t)) ts = false <-> forall p, p ∈ raw_access_set ts -> f p = false.
Proof.
  rewrite <-not_true_iff_false, existsb_targets. split.
  - intros H p Hp. apply not_true_iff_false. intros Hf. apply H. by exists p.
  - intros H (p & Hp & Hf). rewrite H in Hf by done. done.
Qed.

(** A subtree that is not entered has no selected leaf. *)
Lemma not_allowed s p l : allow s p = false -> p `prefix_of` l -> selected s l = false.
Proof.
  intros Ha Hpl. destruct s as [|ts|ts]; [done| |]; simpl in *.
  - rewrite (existsb_targets_false (fun t => isAncestorOf p t || isDescendantOf p t)) in Ha. apply not_true_iff_false. intros (t & Ht & Htl)%SelectsLeaf_spec.
    specialize (Ha t Ht). apply orb_false_iff in Ha as [H1 H2]. unfold isDescendantOf in H2. apply isAncestorOf_spec in Htl.
    destruct (prefix_weak_total p t l Hpl Htl) as [H|H]; apply isAncestorOf_spec in H; congruence.
  - apply negb_false_iff in Ha. rewrite (existsb_targets (fun t => isDescendantOf p t)) in Ha. destruct Ha as (t & Ht & Htp).
    apply negb_false_iff, SelectsLeaf_spec. exists t. split; [done|]. apply isAncestorOf_spec in Htp. apply isAncestorOf_spec. by etrans.
Qed.

(** A subtree that is covered has only selected leaves. *)
Lemma covers_selected s p l : covers_subtree s p = true -> p `prefix_of` l -> selected s l = true.
Proof.
  intros Ha Hpl. destruct s as [|ts|ts]; [done| |]; simpl in *.
  - rewrite (existsb_targets (fun t => isDescendantOf p t)) in Ha. destruct Ha as (t & Ht & Htp). apply SelectsLeaf_spec. exists t. split; [done|].
    apply isAncestorOf_spec in Htp. apply isAncestorOf_spec. by etrans.
  - apply negb_true_iff in Ha. rewrite (existsb_targets_false (fun t => isAncestorOf p t || isDescendantOf p t)) in Ha. apply negb_true_iff, not_true_iff_false.
    intros (t & Ht & Htl)%SelectsLeaf_spec. specialize (Ha t Ht). apply orb_false_iff in Ha as [H1 H2]. unfold isDescendantOf in H2.
    apply isAncestorOf_spec in Htl. destruct (prefix_weak_total p t l Hpl Htl) as [H|H]; apply isAncestorOf_spec in H; congruence.
Qed.

(** A leaf that is reached is selected, because targets of the record do not lie below leaves. *)
Lemma allowed_leaf (r : record T) s l :
  record_ok r = true -> AllPathsInRecord r (targets_of s) = true -> l ∈ leaf_paths (Node r) -> allow s l = true -> selected s l = true.
Proof.
  intros Hok Hts Hl Ha. destruct s as [|ts|ts]; [done| |]; simpl in *.
  - rewrite (existsb_targets (fun t => isAncestorOf l t || isDescendantOf l t)) in Ha. destruct Ha as (t & Ht & Ha). apply SelectsLeaf_spec. exists t. split; [done|].
    apply orb_true_iff in Ha as [Ha|Ha]; [|done]. apply isAncestorOf_spec in Ha.
    assert (t = l) as ->; [|by apply isAncestorOf_spec]. eapply leaf_paths_antichain; [exact Hok|done| |done].
    apply hasPath_value; [done|]. by apply (proj1 (AllPathsInRecord_spec r _) Hts).
  - apply negb_true_iff in Ha. rewrite (existsb_targets_false (fun t => isDescendantOf l t)) in Ha. apply negb_true_iff, not_true_iff_false.
    intros (t & Ht & Htl)%SelectsLeaf_spec. specialize (Ha t Ht). unfold isDescendantOf in Ha. congruence.
Qed.

Lemma process_field_covered (r : record T) s specialized :
  record_ok r = true -> AllPathsInRecord r (targets_of s) = true ->
  forall v current tag, value_at (append current [tag]) (Node r) = Some v ->
  process_field s specialized current tag v ≫= covered = filter (fun l => selected s l = true) (map (append (append current [tag])) (leaf_paths v)).
Proof.
  intros Hok Hts v. induction v as [a|r' IH] using value_type_ind'; intros current tag Hv;
    set (next := append current [tag]) in *; cbn [process_field]; fold next.
  - change (map (append next) (leaf_paths (Leaf a))) with [append next []]. rewrite (app_nil_r next : append next [] = next).
    destruct (allow s next) eqn:Ha; symmetry.
    + apply list_filter_all. intros l ->%list_elem_of_singleton. eapply allowed_leaf; [exact Hok|done| |done].
      apply leaf_paths_value; [done|by exists a].
    + apply list_filter_none. intros l ->%list_elem_of_singleton. by rewrite (not_allowed s next next).
  - destruct (allow s next) eqn:Ha; [|symmetry; apply list_filter_none; intros l (k & -> & _)%list_elem_of_fmap; rewrite (not_allowed s next); [done|done|by eexists]].
    destruct (covers_subtree s next && specialized next (tag, Node r')) eqn:Hc.
    + apply andb_true_iff in Hc as [Hc _]. cbn. unfold covered. cbn. rewrite app_nil_r, GetLeafPaths_spec. symmetry. apply list_filter_all.
      intros l (k & -> & _)%list_elem_of_fmap. apply (covers_selected s next); [done|by eexists].
    + rewrite leaf_paths_node.
      assert (Hf : Forall (fun f => value_at (append next [f.1]) (Node r) = Some f.2) r').
      { apply list.Forall_forall. intros f Hin. unfold append. rewrite value_at_app. unfold append in next. subst next. rewrite Hv. simpl.
        assert (Hfi : field_at f.1 r' = Some f); [|by rewrite Hfi]. apply field_at_spec; [|done].
        pose proof (value_at_ok _ _ _ Hok Hv) as [Hnd _]%value_ok_node. done. }
      clear Hv Hc. induction r' as [|f r' IHr]; [done|]. apply list.Forall_cons in IH as [Hh IH], Hf as [Hv Hf].
      cbn [map concat]. rewrite bind_app, bind_cons, map_app, list.filter_app, IHr by done. f_equal. rewrite (Hh next f.1 Hv).
      rewrite map_map. f_equal. apply map_ext. intros k. unfold append. by rewrite <-!app_assoc.
Qed.

(** Every call is for a leaf, or for a covered node with a visitor of its own. *)
Lemma process_field_calls s specialized v current tag c :
  c ∈ process_field s specialized current tag v ->
  (exists a, (c.2.2 : value_type T) = Leaf a) \/ (covers_subtree s c.1 = true /\ specialized c.1 c.2 = true).
Proof.
  revert current tag. induction v as [a|r IH] using value_type_ind'; intros current tag; cbn [process_field]; (destruct (allow s _); [|by intros ?%elem_of_nil]).
  - intros ->%list_elem_of_singleton. left. by exists a.
  - destruct (covers_subtree s _ && _) eqn:Hc.
    + intros ->%list_elem_of_singleton. right. by apply andb_true_iff in Hc.
    + intros (l & Hl & (f & -> & Hf)%list_elem_of_fmap)%elem_of_concat. eapply (proj1 (list.Forall_forall _ _) IH f Hf). exact Hl.
Qed.

Lemma process_field_field (r : record T) s specialized v current tag c :
  record_ok r = true -> value_at (append current [tag]) (Node r) = Some v ->
  c ∈ process_field s specialized current tag v -> c.1 <> [] /\ list.last c.1 = Some c.2.1 /\ value_at c.1 (Node r) = Some c.2.2.
Proof.
  intros Hok. revert current tag. induction v as [a|r' IH] using value_type_ind'; intros current tag Hv; cbn [process_field]; (destruct (allow s _); [|by intros ?%elem_of_nil]).
  - intros ->%list_elem_of_singleton. simpl. unfold append. rewrite last_snoc. split_and!; [by destruct current|done|done].
  - destruct (covers_subtree s _ && _).
    + intros ->%list_elem_of_singleton. simpl. unfold append. rewrite last_snoc. split_and!; [by destruct current|done|done].
    + intros (l & Hl & (f & -> & Hf)%list_elem_of_fmap)%elem_of_concat. eapply (proj1 (list.Forall_forall _ _) IH f Hf); [|exact Hl].
      unfold append in *. rewrite value_at_app, Hv. simpl. assert (Hfi : field_at f.1 r' = Some f); [|by rewrite Hfi].
      apply field_at_spec; [|done]. by pose proof (value_at_ok _ _ _ Hok Hv) as [Hnd _]%value_ok_node.
Qed.
End visits.

Lemma resolvePathToField_spec {T} p (r : record T) f : record_ok r = true ->
  list.last p = Some f.1 -> value_at p (Node r) = Some f.2 -> resolvePathToField p r = Some f.
Proof.
  revert r. induction p as [|t p IH]; intros r Hok Hl Hv; [done|]. pose proof Hok as [Hnd Hf]%value_ok_node. simpl in Hv.
  destruct (field_at t r) as [g|] eqn:Hg; [|done]. simpl in Hv. cbn [resolvePathToField]. fold (field_at t r). rewrite Hg. simpl.
  apply field_at_spec in Hg as [<- Hin]; [|done]. destruct p as [|u p].
  - simpl in Hl, Hv. injection Hl as Hl. injection Hv as Hv. destruct f, g. simpl in *. by subst.
  - destruct g.2 as [a|r'] eqn:Hg2; [done|]. apply IH; [|done|done]. change (value_ok (Node r') = true). rewrite <-Hg2. by apply (proj1 (list.Forall_forall _ _) Hf).
Qed.

Lemma iterate_covered {T} (r : record T) s specialized :
  record_ok r = true -> AllPathsInRecord r (targets_of s) = true ->
  iterate_recursive s specialized [] r ≫= covered = filter (fun l => selected s l = true) (GetLeafPaths r []).
Proof.
  intros Hok Hts. rewrite GetLeafPaths_root, leaf_paths_node. unfold iterate_recursive. pose proof Hok as [Hnd _]%value_ok_node.
  assert (Hf : Forall (fun f => value_at [f.1] (Node r) = Some f.2) r).
  { apply list.Forall_forall. intros f Hin. simpl. assert (Hfi : field_at f.1 r = Some f) by (by apply field_at_spec). by rewrite Hfi. }
  assert (H : forall fs, Forall (fun f => value_at [f.1] (Node r) = Some f.2) fs ->
    concat (map (fun f => process_field s specialized [] f.1 f.2) fs) ≫= covered =
    filter (fun l => selected s l = true) (fs ≫= fun f => map (cons f.1) (leaf_paths f.2))); [|by apply H].
  clear Hf. induction fs as [|f fs IH]; intros Hf; [done|]. apply list.Forall_cons in Hf as [Hv Hf].
  cbn [map concat]. rewrite bind_app, bind_cons, list.filter_app, IH by done. f_equal. by apply (process_field_covered r s specialized Hok Hts).
Qed.

Lemma iterate_calls {T} (r : record T) s specialized c :
  record_ok r = true -> c ∈ iterate_recursive s specialized [] r ->
  resolvePathToField c.1 r = Some c.2 /\ ((exists a, c.2.2 = Leaf a) \/ (covers_subtree s c.1 = true /\ specialized c.1 c.2 = true)).
Proof.
  intros Hok Hc. unfold iterate_recursive in Hc. apply elem_of_concat in Hc as (l & Hl & (f & -> & Hf)%list_elem_of_fmap).
  pose proof Hok as [Hnd _]%value_ok_node. split; [|by eapply process_field_calls].
  destruct (process_field_field r s specialized f.2 [] f.1 c Hok) as (Hne & Hlast & Hv); [|done|by apply resolvePathToField_spec].
  simpl. assert (Hfi : field_at f.1 r = Some f) by (by apply field_at_spec). by rewrite Hfi.
Qed.

(** Traversals visit what the selector selects.  The leaves that the calls of [iterate] and [iterate_path]
    stand for are exactly the selected leaves of the record, each once and in the order of declaration, whichever
    nodes the visitor is specialised for; a call is made for a leaf, or for a specialised node whose leaves are all selected;
    without specialised nodes the calls are the selected leaves themselves.  [Include] selects the leaves at or below its
    targets, [Exclude] all others. *)
Theorem iterate_visits {T} (r : record T) (s : selector) :
  record_ok r = true -> AllPathsInRecord r (targets_of s) = true ->
  let leaves := filter (fun l => selected s l = true) (GetLeafPaths r []) in
  (forall specialized,
     iterate s specialized r ≫= covered = leaves /\
     forall p f, (p, f) ∈ iterate s specialized r -> resolvePathToField p r = Some f /\
       ((exists a, f.2 = Leaf a) \/ (covers_subtree s p = true /\ specialized f = true))) /\
  (forall specialized,
     iterate_path s specialized r ≫= (fun p => match resolvePathToField p r with Some f => covered (p, f) | None => [] end) = leaves /\
     forall p, p ∈ iterate_path s specialized r -> isLeaf p r = Some true \/ (covers_subtree s p = true /\ specialized p = true)) /\
  iterate_path s (fun _ => false) r = leaves.
Proof.
  intros Hok Hts leaves. split_and!.
  - intros sp. split; [by apply iterate_covered|]. intros p f Hc. by apply (iterate_calls r s (fun _ => sp) (p, f)).
  - intros sp. split.
    + unfold iterate_path. rewrite <-(iterate_covered r s (fun p _ => sp p) Hok Hts : _ = leaves).
      pose proof (iterate_calls r s (fun p _ => sp p)) as Hcalls. revert Hcalls. generalize (iterate_recursive s (fun p _ => sp p) [] r) as cs.
      induction cs as [|c cs IH]; intros Hcalls; [done|]. cbn [map]. rewrite !bind_cons, IH by (intros c' Hc' Hin; apply Hcalls; [done|by right]).
      f_equal. destruct (Hcalls c Hok (list_elem_of_here _ _)) as [Hr _]. rewrite Hr. by destruct c.
    + intros p ([p' f] & -> & Hc)%list_elem_of_fmap. destruct (iterate_calls r s (fun p _ => sp p) _ Hok Hc) as [Hr [[a Ha]|H]]; [left|by right].
      unfold isLeaf, value_type_for. simpl in *. rewrite Hr. simpl. by rewrite Ha.
  - unfold iterate_path. rewrite <-(iterate_covered r s (fun _ _ => false) Hok Hts : _ = leaves).
    pose proof (iterate_calls r s (fun _ _ => false)) as Hcalls. revert Hcalls. generalize (iterate_recursive s (fun _ _ => false) [] r) as cs.
    induction cs as [|c cs IH]; intros Hcalls; [done|]. cbn [map]. rewrite !bind_cons, IH by (intros c' Hc' Hin; apply Hcalls; [done|by right]).
    destruct (Hcalls c Hok (list_elem_of_here _ _)) as [_ [[a Ha]|[_ ?]]]; [|done]. unfold covered. by rewrite Ha.
Qed.

(** Everything except one component of the position, with a visitor for whole positions that cannot be used here. *)
Lemma iterate_visits_witness :
  let s := Exclude [Path [mkTag 0 []; mkTag 2 []]] in
  record_ok example_record = true /\ AllPathsInRecord example_record (targets_of s) = true /\
  iterate_path s (fun p => bool_decide (p = [mkTag 0 []])) example_record = [[mkTag 0 []; mkTag 1 []]; [mkTag 3 []]] /\
  iterate_path s (fun _ => false) example_record = [[mkTag 0 []; mkTag 1 []]; [mkTag 3 []]].
Proof.
  cbv zeta. split_and!; [reflexivity..|]. destruct (iterate_visits example_record (Exclude [Path [mkTag 0 []; mkTag 2 []]])) as (_ & _ & H); [reflexivity|reflexivity|].
  rewrite H. reflexivity.
Defined.
