(* ===== verification/SubRecord.v ===== *)
(** * Records of selected fields

    Models llamaLite/SubRecord.hpp: the record that keeps the fields at or below the requested paths.  A field
    that a path names exactly is kept whole; a field that paths only go through is kept with the sub-record of the
    tails.  What the compiler rejects is [None]. *)
From Stdlib Require Import ZArith Lia.
From stdpp Require Import base list numbers.
From S2P Require Import Prelude TagPath Records AccessSet.

Section subrecord.
Context {T : Type}.

(** The tail of a path whose head is the tag, if there is anything left of it. *)
Definition MatchingTail (query : Tag) (p : TagPath) : list TagPath :=
  match p with
  | t :: rest => if decide (t = query) then match rest with [] => [] | _ => [rest] end else []
  | [] => []
  end.

Definition IsExactMatch (query : Tag) (p : TagPath) : bool := bool_decide (p = [query]).

(** [SubRecordFromList] and [ProcessAllFields]; [process] is [ProcessField]. *)
Fixpoint SubRecordFromList (paths : list TagPath) (v : value_type T) : option (record T) :=
  match v with
  | Leaf _ => None
  | Node r =>
      foldr (fun f kept =>
        process ← (if existsb (IsExactMatch f.1) paths then Some [f]
                   else match concat (map (MatchingTail f.1) paths) with
                        | [] => Some []
                        | tails => sub ← SubRecordFromList tails f.2; Some [(f.1, Node sub)]
                        end);
        rest ← kept;
        Some (process ++ rest)) (Some []) r
  end.

Definition sub_record (r : record T) (ras : list RecordAccess) : option (record T) :=
  if forallb (fun ra => hasPath (to_path ra) r) ras then SubRecordFromList (map to_path ras) (Node r) else None.

(** [sub_record_from_set_t]. *)
Definition sub_record_from_set (r : record T) (s : list TagPath) : option (record T) := sub_record r (map Path s).

(** ** The leaves that are kept *)

Lemma matching_tails t paths p : p ∈ concat (map (MatchingTail t) paths) <-> p <> [] /\ t :: p ∈ paths.
Proof.
  induction paths as [|q paths IH]; simpl; [split; [by intros ?%elem_of_nil|by intros [_ ?%elem_of_nil]]|].
  rewrite elem_of_app, IH, elem_of_cons. unfold MatchingTail. destruct q as [|u rest].
  - split; [intros [?%elem_of_nil|[Hp Hq]]; [done|by split; [|right]]|]. intros [Hp [?|Hq]]; [done|right; by split].
  - destruct (decide (u = t)) as [->|Hne]; [destruct rest as [|x rest]|].
    + split; [intros [?%elem_of_nil|[Hp Hq]]; [done|by split; [|right]]|]. intros [Hp [[= ->]|Hq]]; [done|right; by split].
    + rewrite list_elem_of_singleton. split; [intros [->|[Hp Hq]]; [by split; [|left]|by split; [|right]]|].
      intros [Hp [[= ->]|Hq]]; [by left|right; by split].
    + split; [intros [?%elem_of_nil|[Hp Hq]]; [done|by split; [|right]]|]. intros [Hp [[= -> ->]|Hq]]; [done|right; by split].
Qed.

Lemma exact_match t paths : existsb (IsExactMatch t) paths = true <-> [t] ∈ paths.
Proof.
  rewrite existsb_exists. setoid_rewrite <-list_elem_of_In. unfold IsExactMatch. split.
  - intros (p & Hp & He). apply bool_decide_eq_true in He as ->. done.
  - intros H. exists [t]. split; [done|]. by apply bool_decide_eq_true.
Qed.

Lemma SelectsLeaf_cons t l paths : [] ∉ paths ->
  SelectsLeaf (t :: l) paths = existsb (IsExactMatch t) paths || SelectsLeaf l (concat (map (MatchingTail t) paths)).
Proof.
  intros Hne. apply eq_true_iff_eq. rewrite orb_true_iff, exact_match, !SelectsLeaf_spec. split.
  - intros (p & Hp & Ha%isAncestorOf_spec). destruct p as [|u p]; [done|]. destruct p as [|x p].
    + apply prefix_cons_inv_1 in Ha as ->. by left.
    + right. pose proof (prefix_cons_inv_1 _ _ _ _ Ha) as ->. apply prefix_cons_inv_2 in Ha. exists (x :: p).
      split; [by apply matching_tails|by apply isAncestorOf_spec].
  - intros [H|(p & [Hp Hin]%matching_tails & Ha%isAncestorOf_spec)].
    + exists [t]. split; [done|]. apply isAncestorOf_spec, prefix_cons, prefix_nil.
    + exists (t :: p). split; [done|]. apply isAncestorOf_spec. by apply prefix_cons.
Qed.

(** The paths lead to values of [v]. *)
Definition paths_in (paths : list TagPath) (v : value_type T) : Prop := forall p, p ∈ paths -> p <> [] /\ is_Some (value_at p v).

Lemma paths_in_tails paths (r : record T) f : NoDup (map fst r) -> paths_in paths (Node r) -> f ∈ r -> paths_in (concat (map (MatchingTail f.1) paths)) f.2.
Proof.
  intros Hnd Hp Hf p [Hne Hin]%matching_tails. split; [done|]. destruct (Hp _ Hin) as [_ Hv]. simpl in Hv.
  assert (Hfi : field_at f.1 r = Some f) by (by apply field_at_spec). by rewrite Hfi in Hv.
Qed.

(** Leaves with their types: what the sub-record keeps, in the order of declaration. *)
Lemma SubRecordFromList_spec v paths r :
  v = Node r -> value_ok v = true -> paths_in paths v ->
  exists r', SubRecordFromList paths v = Some r' /\ value_ok (Node r') = true /\
    (forall t, t ∈ map fst r' -> t ∈ map fst r) /\
    leaves (Node r') = filter (fun l => SelectsLeaf l.1 paths = true) (leaves v).
Proof.
  revert paths r. induction v as [a|r0 IH] using value_type_ind'; intros paths r [= <-] Hok Hp.
  pose proof Hok as [Hnd Hf]%value_ok_node.
  assert (Hempty : [] ∉ paths) by (intros H; by destruct (Hp [] H)).
  assert (Htails : Forall (fun f => paths_in (concat (map (MatchingTail f.1) paths)) f.2) r0).
  { apply list.Forall_forall. intros f Hin. by eapply paths_in_tails. }
  clear Hok Hp. cbn [SubRecordFromList leaves]. induction r0 as [|f r0 IHr]; [by exists []|].
  apply list.Forall_cons in IH as [IHf IH], Hf as [Hokf Hf], Htails as [Htf Htails]. cbn [map] in Hnd. apply list.NoDup_cons in Hnd as [Hni Hnd].
  destruct (IHr IH Hnd Hf Htails) as (r' & Hr' & Hok' & Hsub & Hl). cbn [foldr]. rewrite Hr'.
  assert (Hhead : forall sub : record T,
    (forall g, g ∈ sub -> g.1 = f.1) -> length sub <= 1 -> Forall (fun g => value_ok g.2 = true) sub ->
    leaves (Node sub) = filter (fun l => SelectsLeaf l.1 paths = true) (map (fun l => (f.1 :: l.1, l.2)) (leaves f.2)) ->
    value_ok (Node (sub ++ r')) = true /\ (forall t, t ∈ map fst (sub ++ r') -> t ∈ map fst (f :: r0)) /\
    leaves (Node (sub ++ r')) = filter (fun l => SelectsLeaf l.1 paths = true) ((f :: r0) ≫= fun f => map (fun l => (f.1 :: l.1, l.2)) (leaves f.2))).
  { intros sub Htag Hlen Hoks Hls. pose proof Hok' as [Hnd' Hf']%value_ok_node. split_and!.
    - apply value_ok_node. split; [|by apply Forall_app]. rewrite map_app. apply list.NoDup_app. split_and!; [| |done].
      + destruct sub as [|g [|]]; [constructor|apply NoDup_singleton|simpl in Hlen; lia].
      + intros t (g & -> & Hg)%list_elem_of_fmap Ht%Hsub. apply Hni. by rewrite <-(Htag g Hg).
    - intros t. change (map fst (f :: r0)) with (f.1 :: map fst r0). rewrite map_app, elem_of_app, elem_of_cons. intros [(g & -> & Hg)%list_elem_of_fmap|Ht]; [left; by apply Htag|right; by apply Hsub].
    - cbn [leaves] in Hls, Hl |- *. rewrite bind_app, bind_cons, list.filter_app. by rewrite Hls, Hl. }
  destruct (existsb (IsExactMatch f.1) paths) eqn:He; cbn [mbind option_bind].
  - eexists. split; [done|]. apply Hhead; [by intros g ->%list_elem_of_singleton|simpl; lia|by constructor|].
    cbn [leaves]. cbn. rewrite app_nil_r. symmetry. apply list_filter_all. intros l (k & -> & _)%list_elem_of_fmap. simpl.
    by rewrite SelectsLeaf_cons, He.
  - assert (Hnone : forall l, SelectsLeaf (f.1 :: l) paths = SelectsLeaf l (concat (map (MatchingTail f.1) paths))) by (intros l; by rewrite SelectsLeaf_cons, He).
    destruct (concat (map (MatchingTail f.1) paths)) as [|p0 tails] eqn:Ht.
    + simpl. exists r'. split; [done|]. apply (Hhead []); [by intros g ?%elem_of_nil|simpl; lia|done|].
      symmetry. apply list_filter_none. intros l (k & -> & _)%list_elem_of_fmap. simpl. rewrite Hnone. done.
    + destruct f as [t [a|rf]]; simpl in *.
      { destruct (Htf p0 (list_elem_of_here _ _)) as [Hp0 [w Hw]]. by destruct p0. }
      destruct (IHf (p0 :: tails) rf eq_refl Hokf Htf) as (sub & Hsubr & Hsubok & _ & Hsl). simpl in Hsubr. rewrite Hsubr. simpl.
      eexists. split; [done|]. apply (Hhead [(t, Node sub)]); [by intros g ->%list_elem_of_singleton|simpl; lia|by constructor|].
      etrans; [apply (app_nil_r (map (fun l => (t :: l.1, l.2)) (leaves (Node sub))))|]. rewrite (Hsl : leaves (Node sub) = _). generalize (rf ≫= fun f => map (fun l => (f.1 :: l.1, l.2)) (leaves f.2)) as ls. clear -Hnone.
      induction ls as [|l ls IH]; [done|]. cbn [map]. rewrite !filter_cons. cbn [fst]. rewrite Hnone.
      destruct (decide _); [|exact IH]. cbn [map]. f_equal. exact IH.
Qed.
End subrecord.

(** A sub-record has the selected leaves.  For non-empty accesses [sub_record_t] is well formed, its leaves are
    those that the access set of the same accesses selects, in the same order, so that both name the same
    columns, and every leaf keeps its type; it is ill-formed exactly when an access is not in the record. *)
Theorem sub_record_selects {T} (r : record T) (ras : list RecordAccess) :
  record_ok r = true -> (forall ra, ra ∈ ras -> to_path ra <> []) ->
  match sub_record r ras with
  | Some r' =>
      record_ok r' = true /\ makeAccessSet r ras = Some (GetLeafPaths r' []) /\
      forall l, l ∈ GetLeafPaths r' [] -> value_type_for l r' = value_type_for l r
  | None => makeAccessSet r ras = None /\ exists ra, ra ∈ ras /\ hasPath (to_path ra) r = false
  end.
Proof.
  intros Hok Hne. unfold sub_record, makeAccessSet, access_set.
  assert (Hd : forall p, p ∈ deduped_access_set ras <-> p ∈ map to_path ras).
  { intros p. unfold deduped_access_set, makeSet. rewrite UnionFold_spec. split; [by intros [?%elem_of_nil|]|by right]. }
  assert (Hall : forallb (fun ra => hasPath (to_path ra) r) ras = AllPathsInRecord r (deduped_access_set ras)).
  { apply eq_true_iff_eq. rewrite AllPathsInRecord_spec, forallb_forall. setoid_rewrite Hd. setoid_rewrite list_elem_of_fmap. setoid_rewrite <-list_elem_of_In. split.
    - intros H p (ra & -> & Hra). by apply H.
    - intros H ra Hra. apply H. by exists ra. }
  rewrite Hall. destruct (AllPathsInRecord r (deduped_access_set ras)) eqn:Ha.
  - assert (Hp : paths_in (map to_path ras) (Node r)).
    { intros p Hp. pose proof (proj1 (AllPathsInRecord_spec r _) Ha p (proj2 (Hd p) Hp)) as Hpath. apply hasPath_value in Hpath; [|done].
      apply list_elem_of_fmap in Hp as (ra & -> & Hra). split; [by apply Hne|done]. }
    destruct (SubRecordFromList_spec (Node r) (map to_path ras) r eq_refl Hok Hp) as (r' & -> & Hok' & _ & Hl).
    assert (Hlp : leaf_paths (Node r') = filter (fun l => SelectsLeaf l (map to_path ras) = true) (leaf_paths (Node r))).
    { unfold leaf_paths. rewrite Hl. generalize (leaves (Node r)) as ls. induction ls as [|l ls IH]; [done|]. rewrite filter_cons. cbn [map]. rewrite filter_cons.
      destruct (decide _); [|exact IH]. cbn [map]. f_equal. exact IH. }
    split; [exact Hok'|]. rewrite GetLeafPaths_root. split.
    + f_equal. unfold leaf_set. rewrite MakeLeafSet_spec, Hlp. apply list_filter_ext_in. intros l _. rewrite !SelectsLeaf_spec. by setoid_rewrite Hd.
    + intros l Hin. pose proof (leaf_paths_nonempty _ _ Hin) as Hn. rewrite !resolvePathToField_value by done.
      apply list_elem_of_fmap in Hin as ([l' a] & -> & Hin). cbn [fst] in *. pose proof Hin as Hin'. rewrite Hl in Hin'. apply list_elem_of_filter in Hin' as [_ Hin'].
      apply leaves_value in Hin; [|done]. apply leaves_value in Hin'; [|done]. cbn [fst] in *. by rewrite Hin, Hin'.
  - split; [done|]. pose proof (access_set_spec r (deduped_access_set ras) Hok) as H. unfold access_set in H. rewrite Ha in H.
    destruct H as (p & (ra & -> & Hra)%Hd%list_elem_of_fmap & Hp). by exists ra.
Qed.

Lemma sub_record_selects_witness :
  let ras := [Path [mkTag 0 []; mkTag 2 []]; OneTag (mkTag 3 [])] in
  record_ok example_record = true /\ (forall ra, ra ∈ ras -> to_path ra <> []) /\
  sub_record example_record ras = Some [(mkTag 0 [], Node [(mkTag 2 [], Leaf 0)]); (mkTag 3 [], Leaf 1)] /\
  makeAccessSet example_record ras = Some [[mkTag 0 []; mkTag 2 []]; [mkTag 3 []]].
Proof.
  cbv zeta. set (ras := [_; _]). assert (Hne : forall ra, ra ∈ ras -> to_path ra <> []).
  { intros ra [->|[->|?%elem_of_nil]%elem_of_cons]%elem_of_cons; done. }
  split_and!; [reflexivity|exact Hne|reflexivity|].
  pose proof (sub_record_selects example_record ras eq_refl Hne) as H. destruct H as (_ & H & _). rewrite H. reflexivity.
Defined.

(** The empty path is in every record and selects all of its leaves, but a sub-record drops it. *)
Lemma sub_record_empty_path {T} (r : record T) : record_ok r = true ->
  sub_record r [Path []] = Some [] /\ makeAccessSet r [Path []] = Some (GetLeafPaths r []).
Proof.
  intros Hok. split.
  - unfold sub_record. simpl. induction r as [|f r IH]; [done|]. apply value_ok_node in Hok as [Hnd Hf].
    apply list.NoDup_cons in Hnd as [_ Hnd]. apply list.Forall_cons in Hf as [_ Hf]. cbn [foldr].
    rewrite IH; [done|]. by apply value_ok_node.
  - unfold makeAccessSet, access_set. simpl. f_equal. unfold leaf_set. rewrite MakeLeafSet_spec, GetLeafPaths_root.
    apply list_filter_all. intros l _. apply SelectsLeaf_spec. exists []. split; [by left|]. apply isAncestorOf_spec, prefix_nil.
Qed.
