(* ===== verification/Views.v ===== *)
(** * Views of records

    Models llamaLite/View.hpp, with [getLeaf] of Soa.hpp, DynSoA.hpp and One.hpp.  A view is a handle: a pointer to
    a container, an access set and a navigation root, and an index for a row.  Constraints that the compiler checks
    are boolean functions and ill-formed expressions [None]; an index outside a column is undefined behaviour,
    [None] as well.  What is read and written are cells: a container, a leaf, a row. *)
From Stdlib Require Import ZArith Lia.
From stdpp Require Import base list numbers relations.
From S2P Require Import Prelude TagPath Records AccessSet.

(** ** Handles *)

Section views.
Context {T : Type}.

Definition whole_record_access (r : record T) : list TagPath := record_leaf_set r.
Definition subtree_access (r : record T) (p : TagPath) : option (list TagPath) := access_set r [p].
Definition child_access (r : record T) (a : list TagPath) (p : TagPath) : option (list TagPath) := s ← subtree_access r p; access_and r a s.
(** Repeated accesses are ill-formed: [Set] refuses them. *)
Definition requested_access (r : record T) (root : TagPath) (ras : list RecordAccess) : option (list TagPath) :=
  let s := map (fun ra => append root (to_path ra)) ras in if set_ok s then access_set r s else None.

Definition ViewStorageFor (r : record T) (a : list TagPath) (root : TagPath) : bool :=
  hasPath root r && match subtree_access r root with Some s => access_le a s | None => false end.
Definition CanDrill (r : record T) (a : list TagPath) (root : TagPath) (ra : RecordAccess) : bool :=
  hasPath (append root (to_path ra)) r && match child_access r a (append root (to_path ra)) with Some [] | None => false | Some _ => true end.
Definition CanSelect (r : record T) (a : list TagPath) (root : TagPath) (ras : list RecordAccess) : bool :=
  AllPathsInRecord r (map (fun ra => append root (to_path ra)) ras) &&
  match requested_access r root ras with Some q => access_le q a | None => false end.
(** [adapted]: the fields with a specialisation of [traits::AsType]. *)
Definition CanResolve (adapted : TagPath -> bool) (r : record T) (a : list TagPath) (root : TagPath) : bool :=
  (0 <? depth root)%nat && match subtree_access r root with Some s => access_le s a | None => false end &&
  (match isLeaf root r with Some b => b | None => false end || adapted root).

(** [View] and [ViewIndexed], for containers of a record [r]. *)
Record View : Type := mkView { v_storage : nat; v_access : list TagPath; root_access : TagPath; idx : option nat }.

Definition View_of (r : record T) (storage : nat) : View := mkView storage (whole_record_access r) [] None.

(** The operator [] with a row. *)
Definition view_row (i : nat) (v : View) : View := mkView (v_storage v) (v_access v) (root_access v) (Some i).

Definition view (r : record T) (ra : RecordAccess) (v : View) : option View :=
  if CanDrill r (v_access v) (root_access v) ra then
    let path := append (root_access v) (to_path ra) in
    a ← child_access r (v_access v) path; Some (mkView (v_storage v) a path (idx v))
  else None.

Definition select (r : record T) (ras : list RecordAccess) (v : View) : option View :=
  if CanSelect r (v_access v) (root_access v) ras then
    a ← requested_access r (root_access v) ras; Some (mkView (v_storage v) a (root_access v) (idx v))
  else None.

(** The converting constructor: the access set may only shrink. *)
Definition view_convert (r : record T) (a : list TagPath) (v : View) : option View :=
  if CanonicalLeafSetFor r a && ViewStorageFor r a (root_access v) && access_le a (v_access v)
  then Some (mkView (v_storage v) a (root_access v) (idx v)) else None.

(** What [resolve] returns: a reference to a leaf, all of it or one row, or what the adapter makes of the view. *)
Inductive reference : Type := LeafOf (storage : nat) (leaf : TagPath) (row : option nat) | Adapted (v : View).
Definition resolve (adapted : TagPath -> bool) (r : record T) (v : View) : option reference :=
  if CanResolve adapted r (v_access v) (root_access v) then
    Some (if adapted (root_access v) then Adapted v else LeafOf (v_storage v) (root_access v) (idx v))
  else None.

(** [resolveIfLeaf] and the operator [] with an access. *)
Definition resolveIfLeaf (adapted : TagPath -> bool) (r : record T) (child : View) : option (View + reference) :=
  if (depth (root_access child) =? 0)%nat then Some (inl child)
  else match isLeaf (root_access child) r with
       | Some true => inr <$> resolve adapted r child
       | Some false => Some (inl child)
       | None => None
       end.
Definition view_at (adapted : TagPath -> bool) (r : record T) (ra : RecordAccess) (v : View) : option (View + reference) :=
  child ← view r ra v; resolveIfLeaf adapted r child.

Definition select_like (r : record T) (dest model : View) : option View :=
  if (0 <? length (v_access model))%nat && AllPathsInRecord r (v_access model) && access_le (v_access model) (v_access dest)
  then a ← access_set r (v_access model); view_convert r a dest else None.
End views.

(** ** Containers *)

Section containers.
Context {T V : Type}.

(** A container has one column for each leaf. *)
Record container : Type := mkContainer { record_type : record T; channels : storage (list V) }.

Definition getLeaf (c : container) (p : TagPath) : option (list V) := resolveLeaf p (record_type c) (channels c).

Definition read_cell (m : list container) (s : nat) (p : TagPath) (i : nat) : option V := c ← m !! s; column ← getLeaf c p; column !! i.

Definition write_cell (m : list container) (s : nat) (p : TagPath) (i : nat) (x : V) : option (list container) :=
  c ← m !! s;
  column ← getLeaf c p;
  _ ← column !! i;
  Some (<[s := mkContainer (record_type c) (storeLeaf p (<[i := x]> column) (record_type c) (channels c))]> m).

(** [CopyValuesCompatible], without the assignability of the leaf types. *)
Definition CopyValuesCompatible (srcRecord : record T) (dest src : View) : bool :=
  forallb (fun p => hasPath p srcRecord && contains p (v_access src)) (v_access dest).

(** The fold of [copy_values] over the leaves of the destination. *)
Definition copy_leaf (dest src : View) (di si : nat) (m : option (list container)) (p : TagPath) : option (list container) :=
  m ← m; x ← read_cell m (v_storage src) p si; write_cell m (v_storage dest) p di x.
Definition copy_values (dest src : View) (m : list container) : option (list container) :=
  di ← idx dest; si ← idx src; srcC ← m !! v_storage src;
  if CopyValuesCompatible (record_type srcC) dest src then foldl (copy_leaf dest src di si) (Some m) (v_access dest) else None.
End containers.
Arguments container : clear implicits.

(** ** Access through views *)

(** How a view is derived from another. *)
Inductive derives {T} (r : record T) : View -> View -> Prop :=
  | derives_row v i : derives r v (view_row i v)
  | derives_view v ra w : view r ra v = Some w -> derives r v w
  | derives_select v ras w : select r ras v = Some w -> derives r v w
  | derives_convert v a w : view_convert r a v = Some w -> derives r v w
  | derives_like v model w : select_like r v model = Some w -> derives r v w.

(** The constraint on the template arguments of a view. *)
Definition view_ok {T} (r : record T) (v : View) : Prop :=
  CanonicalLeafSetFor r (v_access v) = true /\ ViewStorageFor r (v_access v) (root_access v) = true.

Section access.
Context {T : Type} (r : record T) (Hok : record_ok r = true).

Lemma subtree_access_spec p : hasPath p r = true ->
  exists s, subtree_access r p = Some s /\ CanonicalLeafSetFor r s = true /\ forall l, l ∈ s <-> l ∈ GetLeafPaths r [] /\ isAncestorOf p l = true.
Proof.
  intros Hp. unfold subtree_access. pose proof (access_set_spec r [p] Hok) as H. destruct (access_set r [p]) as [s|].
  - destruct H as [Hc H]. exists s. split_and!; [done|done|]. intros l. rewrite H. split.
    + intros [Hl (q & ->%list_elem_of_singleton & Ha)]. done.
    + intros [Hl Ha]. split; [done|]. exists p. by rewrite list_elem_of_singleton.
  - destruct H as (q & ->%list_elem_of_singleton & Hq). congruence.
Qed.

Lemma ViewStorageFor_spec a root : CanonicalLeafSetFor r a = true ->
  ViewStorageFor r a root = true <-> hasPath root r = true /\ forall l, l ∈ a -> isAncestorOf root l = true.
Proof.
  intros Ha. unfold ViewStorageFor. rewrite andb_true_iff. split; intros [Hr H]; (split; [done|]);
    destruct (subtree_access_spec root Hr) as (s & Hs & _ & Hl); rewrite Hs in *.
  - intros l Hin. by apply Hl, (proj1 (set_le_spec _ _) H).
  - apply set_le_spec. intros l Hin. apply Hl. split; [|by apply H]. rewrite GetLeafPaths_root. by apply (canonical_leaves r Hok a).
Qed.

Lemma child_access_spec a p : CanonicalLeafSetFor r a = true -> hasPath p r = true ->
  exists c, child_access r a p = Some c /\ CanonicalLeafSetFor r c = true /\ forall l, l ∈ c <-> l ∈ a /\ isAncestorOf p l = true.
Proof.
  intros Ha Hp. destruct (subtree_access_spec p Hp) as (s & Hs & Hcs & Hl). unfold child_access. rewrite Hs. simpl.
  destruct (access_operator r set_and (fun p q => p /\ q) a s Hok Ha Hcs) as (c & Hc & Hcc & Hcl); [intros x; rewrite set_and_spec; tauto|].
  exists c. split_and!; [done|done|]. intros l. rewrite Hcl, Hl. split; [tauto|]. intros [H1 H2].
  assert (l ∈ GetLeafPaths r []) by (rewrite GetLeafPaths_root; by apply (canonical_leaves r Hok a)). tauto.
Qed.

(** [view] is defined where a leaf below the path is selected, and selects those leaves. *)
Lemma view_spec v ra : view_ok r v ->
  match view r ra v with
  | Some w =>
      let path := append (root_access v) (to_path ra) in
      hasPath path r = true /\ v_storage w = v_storage v /\ root_access w = path /\ idx w = idx v /\ v_access w <> [] /\
      CanonicalLeafSetFor r (v_access w) = true /\ forall l, l ∈ v_access w <-> l ∈ v_access v /\ isAncestorOf path l = true
  | None => hasPath (append (root_access v) (to_path ra)) r = false \/
      forall l, l ∈ v_access v -> isAncestorOf (append (root_access v) (to_path ra)) l = false
  end.
Proof.
  intros [Hc Hv]. unfold view, CanDrill. set (path := append _ _). destruct (hasPath path r) eqn:Hp; simpl; [|by left].
  destruct (child_access_spec (v_access v) path Hc Hp) as (c & Hca & Hcc & Hl). rewrite Hca. destruct c as [|l0 c]; simpl.
  - right. intros l Hin. apply not_true_iff_false. intros Ha. assert (H : l ∈ ([] : list TagPath)) by (by apply Hl). by apply elem_of_nil in H.
  - by split_and!.
Qed.

Lemma view_select_spec v ras : view_ok r v ->
  match select r ras v with
  | Some w =>
      v_storage w = v_storage v /\ root_access w = root_access v /\ idx w = idx v /\ CanonicalLeafSetFor r (v_access w) = true /\ v_access w ⊆ v_access v /\
      forall l, l ∈ v_access w <-> l ∈ GetLeafPaths r [] /\ exists ra, ra ∈ ras /\ isAncestorOf (append (root_access v) (to_path ra)) l = true
  | None =>
      ~ NoDup (map (fun ra => append (root_access v) (to_path ra)) ras) \/
      (exists ra, ra ∈ ras /\ hasPath (append (root_access v) (to_path ra)) r = false) \/
      exists ra l, ra ∈ ras /\ l ∈ GetLeafPaths r [] /\ isAncestorOf (append (root_access v) (to_path ra)) l = true /\ l ∉ v_access v
  end.
Proof.
  intros [Hc Hv]. unfold select, CanSelect, requested_access. set (paths := map _ ras).
  assert (Hpaths : forall p, p ∈ paths <-> exists ra, p = append (root_access v) (to_path ra) /\ ra ∈ ras) by (intros p; apply list_elem_of_fmap).
  destruct (set_ok paths) eqn:Hset; cbv zeta; [|rewrite andb_false_r; left; rewrite <-set_ok_spec; congruence].
  pose proof (access_set_spec r paths Hok) as H. unfold access_set in *. destruct (AllPathsInRecord r paths) eqn:Hall; simpl.
  - destruct H as [Hcq Hq]. destruct (access_le (leaf_set r paths) (v_access v)) eqn:Hle; simpl.
    + split_and!; [done..|by apply set_le_spec|]. intros l. rewrite Hq. split; intros [Hl Hex]; (split; [done|]).
      * destruct Hex as (p & (ra & -> & Hra)%Hpaths & Ha). by exists ra.
      * destruct Hex as (ra & Hra & Ha). exists (append (root_access v) (to_path ra)). split; [|done]. apply Hpaths. by exists ra.
    + right. right. unfold access_le in Hle. apply not_true_iff_false in Hle. rewrite set_le_spec in Hle.
      destruct (decide (Forall (fun l => l ∈ v_access v) (leaf_set r paths))) as [Hf|Hf].
      * destruct Hle. intros l Hl. by apply (proj1 (list.Forall_forall _ _) Hf).
      * apply not_Forall_Exists in Hf; [|intros x; apply _]. apply list.Exists_exists in Hf as (l & Hl & Hn).
        apply Hq in Hl as [Hl (p & (ra & -> & Hra)%Hpaths & Ha)]. by exists ra, l.
  - destruct H as (p & (ra & -> & Hra)%Hpaths & Hp). right. left. by exists ra.
Qed.

(** Deriving keeps the constraint and never selects more. *)
Lemma derives_ok v w : view_ok r v -> derives r v w ->
  view_ok r w /\ v_access w ⊆ v_access v /\ v_storage w = v_storage v /\ isAncestorOf (root_access v) (root_access w) = true.
Proof.
  intros Hv Hd. assert (Hrefl : isAncestorOf (root_access v) (root_access v) = true) by (by apply isAncestorOf_spec).
  pose proof Hv as [Hc Hs]. apply ViewStorageFor_spec in Hs as Hs'; [|done]. destruct Hs' as [Hroot Hbelow].
  assert (Hconv : forall a w, view_convert r a v = Some w -> view_ok r w /\ v_access w ⊆ v_access v /\ v_storage w = v_storage v /\ root_access w = root_access v).
  { intros a w' Hw. unfold view_convert in Hw. destruct (CanonicalLeafSetFor r a) eqn:Hca, (ViewStorageFor r a (root_access v)) eqn:Hva, (access_le a (v_access v)) eqn:Hle; try done.
    injection Hw as <-. split_and!; [done|by apply set_le_spec|done|done]. }
  destruct Hd as [v i|v ra w Hw|v ras w Hw|v a w Hw|v model w Hw].
  - done.
  - pose proof (view_spec v ra Hv) as H. rewrite Hw in H. destruct H as (Hp & Hst & Hr & _ & _ & Hcw & Hl). split_and!; [| |done|].
    + split; [done|]. apply ViewStorageFor_spec; [done|]. rewrite Hr. split; [done|]. by intros l [_ ?]%Hl.
    + by intros l [? _]%Hl.
    + rewrite Hr. apply isAncestorOf_spec. by eexists.
  - pose proof (view_select_spec v ras Hv) as H. rewrite Hw in H. destruct H as (Hst & Hr & _ & Hcw & Hsub & _). split_and!; [|done|done|by rewrite Hr].
    split; [done|]. apply ViewStorageFor_spec; [done|]. rewrite Hr. split; [done|]. intros l Hl. by apply Hbelow, Hsub.
  - destruct (Hconv a w Hw) as (? & ? & ? & Hr). split_and!; [done..|]. by rewrite Hr.
  - unfold select_like in Hw. destruct (_ && _); [|done]. destruct (access_set r (v_access model)) as [a|]; [|done]. simpl in Hw.
    destruct (Hconv a w Hw) as (? & ? & ? & Hr). split_and!; [done..|]. by rewrite Hr.
Qed.

Lemma derives_star v w : view_ok r v -> rtc (derives r) v w ->
  view_ok r w /\ v_access w ⊆ v_access v /\ v_storage w = v_storage v /\ isAncestorOf (root_access v) (root_access w) = true.
Proof.
  intros Hv Hd. induction Hd as [v|v u w Hvu Huw IH]; [split_and!; [done..|by apply isAncestorOf_spec]|].
  destruct (derives_ok v u Hv Hvu) as (Hu & Hs & Hst & Ha). destruct (IH Hu) as (Hw & Hs' & Hst' & Ha'). split_and!; [done|by etrans|congruence|].
  apply isAncestorOf_spec in Ha, Ha'. apply isAncestorOf_spec. by etrans.
Qed.

Lemma View_of_ok s : view_ok r (View_of r s).
Proof.
  assert (Hc : CanonicalLeafSetFor r (record_leaf_set r) = true).
  { apply canonical_spec; [done|]. unfold record_leaf_set. rewrite GetLeafPaths_root. symmetry. by apply list_filter_all. }
  split; [done|]. apply ViewStorageFor_spec; [done|]. split; [done|]. intros l _. apply isAncestorOf_spec, prefix_nil.
Qed.

Lemma resolve_spec adapted v : view_ok r v ->
  forall s p row, resolve adapted r v = Some (LeafOf s p row) ->
  s = v_storage v /\ p = root_access v /\ row = idx v /\ p ∈ v_access v /\ p ∈ GetLeafPaths r [].
Proof.
  intros [Hc Hv] s p row H. unfold resolve, CanResolve in H. destruct (depth (root_access v)) eqn:Hd; [done|]. simpl in H.
  apply ViewStorageFor_spec in Hv as [Hroot _]; [|done]. destruct (subtree_access_spec _ Hroot) as (t & Ht & _ & Hl). rewrite Ht in H.
  destruct (access_le t (v_access v)) eqn:Hle; [|done]. destruct (adapted (root_access v)) eqn:Had; [by destruct (isLeaf _ _) as [[]|]|].
  rewrite orb_false_r in H. destruct (isLeaf (root_access v) r) as [[]|] eqn:Hleaf; try done. injection H as <- <- <-.
  assert (Hin : root_access v ∈ GetLeafPaths r []) by (rewrite GetLeafPaths_root; by apply leaf_paths_spec).
  split_and!; [done..| |done]. apply (proj1 (set_le_spec _ _) Hle), Hl. split; [done|by apply isAncestorOf_spec].
Qed.

(** The bracket operator never runs into an ill-formed [resolve]. *)
Lemma resolveIfLeaf_view v ra w : view_ok r v -> view r ra v = Some w -> is_Some (resolveIfLeaf (fun _ => false) r w).
Proof.
  intros Hv Hw. pose proof (view_spec v ra Hv) as H. rewrite Hw in H. destruct H as (Hp & _ & Hr & _ & Hne & Hcw & Hl).
  unfold resolveIfLeaf. destruct (Nat.eqb_spec (depth (root_access w)) 0) as [|Hd]; [by eexists|].
  assert (Hroot : root_access w <> []) by (intros He; by rewrite He in Hd). rewrite <-Hr in Hp, Hl.
  destruct (proj1 (hasPath_value (root_access w) r Hok) Hp) as [x Hx].
  unfold isLeaf. rewrite resolvePathToField_value, Hx by done. simpl. destruct x as [t|r']; [|by eexists].
  unfold resolve, CanResolve. destruct (depth (root_access w)) eqn:Hd'; [done|]. simpl.
  destruct (subtree_access_spec _ Hp) as (s & Hs & _ & Hsl). rewrite Hs.
  assert (Hle : access_le s (v_access w) = true).
  { apply set_le_spec. intros l [Hll Ha]%Hsl. apply isAncestorOf_spec in Ha. rewrite GetLeafPaths_root in Hll.
    assert (Hq : forall q, q ∈ leaf_paths (Node r) -> root_access w `prefix_of` q -> q = root_access w).
    { intros q Hq Hpre. eapply leaf_paths_antichain; [exact Hok| | |exact Hpre].
      - apply leaf_paths_value; [done|by exists t].
      - apply leaf_paths_value in Hq as [u Hu]; [by eexists|done]. }
    destruct (v_access w) as [|q a] eqn:Hva; [done|]. assert (Hqa : q ∈ v_access w) by (rewrite Hva; by left). rewrite <-Hva in *.
    pose proof (proj1 (Hl q) Hqa) as [_ Hqr%isAncestorOf_spec].
    rewrite (Hq l Hll Ha), <-(Hq q); [done|by apply (canonical_leaves r Hok _ Hcw)|done]. }
  rewrite Hle. unfold isLeaf. rewrite resolvePathToField_value, Hx by done. by eexists.
Qed.
(** Two steps down are one. *)
Lemma view_append w a b : view_ok r w -> view r (Path (append a b)) w = (x ← view r (Path a) w; view r (Path b) x).
Proof.
  intros Hw. pose proof (view_spec w (Path a) Hw) as Ha. pose proof (view_spec w (Path (append a b)) Hw) as Hab.
  assert (Hpath : append (root_access w) (append a b) = append (append (root_access w) a) b) by apply app_assoc. simpl to_path in *.
  assert (Hpre : forall l, isAncestorOf (append (root_access w) (append a b)) l = true -> isAncestorOf (append (root_access w) a) l = true).
  { intros l. rewrite !isAncestorOf_spec, Hpath. intros H. etrans; [|exact H]. by exists b. }
  destruct (view r (Path a) w) as [x|] eqn:Hx; simpl.
  + destruct Ha as (Hp & Hs & Hr & Hi & _ & Hcx & Hl). assert (Hxok : view_ok r x).
    { split; [done|]. apply ViewStorageFor_spec; [done..|]. rewrite Hr. split; [done|]. by intros l [_ ?]%Hl. }
    pose proof (view_spec x (Path b) Hxok) as Hb. simpl to_path in Hb. rewrite Hr, <-Hpath in Hb.
    assert (Hmem : forall l, isAncestorOf (append (root_access w) (append a b)) l = true -> l ∈ v_access x <-> l ∈ v_access w) by (intros l Hal; rewrite Hl; pose proof (Hpre l Hal); tauto).
    destruct (view r (Path (append a b)) w) as [y|], (view r (Path b) x) as [z|]; try done.
    * destruct Hab as (_ & Hs1 & Hr1 & Hi1 & _ & Hc1 & Hl1), Hb as (_ & Hs2 & Hr2 & Hi2 & _ & Hc2 & Hl2).
      assert (Ha : v_access y = v_access z). { apply (canonical_unique r Hok); [done..|]. intros l. rewrite Hl1, Hl2. split; intros [H1 H2]; (split; [|done]); by apply Hmem. }
      destruct y, z. simpl in *. f_equal. congruence.
    * exfalso. destruct Hab as (Hpp & _ & _ & _ & Hne & _ & Hl1). destruct Hb as [Hb|Hb]; [congruence|].
      destruct (v_access y) as [|l ls]; [done|]. destruct (proj1 (Hl1 l) (list_elem_of_here _ _)) as [H1 H2].
      rewrite Hb in H2; [done|]. by apply Hmem.
    * exfalso. destruct Hb as (Hpp & _ & _ & _ & Hne & _ & Hl1). destruct Hab as [Hb|Hb]; [congruence|].
      destruct (v_access z) as [|l ls]; [done|]. destruct (proj1 (Hl1 l) (list_elem_of_here _ _)) as [H1 H2].
      rewrite Hb in H2; [done|]. by apply Hmem.
  + destruct (view r (Path (append a b)) w) as [y|]; [|done]. exfalso. destruct Hab as (Hpp & _ & _ & _ & Hne & _ & Hl1).
    destruct (v_access y) as [|l ls]; [done|]. destruct (proj1 (Hl1 l) (list_elem_of_here _ _)) as [H1 H2]. destruct Ha as [Ha|Ha].
    * apply (hasPath_value _ r Hok) in Hpp. rewrite Hpath in Hpp. unfold append in Hpp at 1. rewrite value_at_app in Hpp.
      assert (hasPath (append (root_access w) a) r = true); [|congruence]. apply hasPath_value; [done|].
      destruct (value_at (append (root_access w) a) (Node r)); [by eexists|by destruct Hpp].
    * specialize (Ha l H1). rewrite (Hpre l H2) in Ha. done.
Qed.
End access.

(** Views give access to what they select and to nothing else.  From a container's view, whatever is derived
    by rows, paths, selections and conversions keeps the access set canonical and below the root, points to the
    same container and never selects more; what [resolve] refers to is a leaf of the record that every view it
    came from selects; going down two accesses is going down their concatenation; and the bracket operator is well
    formed wherever the path can be taken at all. *)
Theorem views_contained {T} (r : record T) (storage : nat) (v w : View) :
  record_ok r = true -> rtc (derives r) (View_of r storage) v -> rtc (derives r) v w ->
  CanonicalLeafSetFor r (v_access w) = true /\ ViewStorageFor r (v_access w) (root_access w) = true /\
  v_access w ⊆ v_access v /\ v_storage w = storage /\
  (forall adapted s p row, resolve adapted r w = Some (LeafOf s p row) ->
     s = storage /\ p = root_access w /\ row = idx w /\ p ∈ GetLeafPaths r [] /\ p ∈ v_access v) /\
  (forall a b, view r (Path (append a b)) w = (x ← view r (Path a) w; view r (Path b) x)) /\
  (forall ra x, view r ra w = Some x -> is_Some (view_at (fun _ => false) r ra w)).
Proof.
  intros Hok Hrv Hvw. destruct (derives_star r Hok _ _ (View_of_ok r Hok storage) Hrv) as (Hv & _ & Hst & _). simpl in Hst.
  destruct (derives_star r Hok _ _ Hv Hvw) as (Hw & Hsub & Hst' & _). split_and!; [apply Hw|apply Hw|done|congruence| | |].
  - intros adapted s p row H. destruct (resolve_spec r Hok adapted w Hw s p row H) as (-> & -> & -> & Hin & Hl).
    split_and!; [congruence|done|done|done|by apply Hsub].
  - intros a b. by apply view_append.
  - intros ra x Hx. unfold view_at. rewrite Hx. simpl. by eapply (resolveIfLeaf_view r Hok w ra).
Qed.

(** A row of the position: its second component can be reached in one step or in two, the identifier cannot. *)
Lemma views_contained_witness :
  let pos := mkTag 0 [] in let y := mkTag 2 [] in
  exists v, select example_record [OneTag pos] (View_of example_record 7) = Some v /\ rtc (derives example_record) (View_of example_record 7) v /\
  view example_record (Path (append [pos] [y])) (view_row 3 v) = Some (mkView 7 [[pos; y]] [pos; y] (Some 3)) /\
  (x ← view example_record (Path [pos]) (view_row 3 v); view example_record (Path [y]) x) = Some (mkView 7 [[pos; y]] [pos; y] (Some 3)) /\
  view example_record (Path [mkTag 3 []]) v = None.
Proof.
  cbv zeta. eexists. split; [reflexivity|]. set (v := mkView _ _ _ _).
  assert (Hr : rtc (derives example_record) (View_of example_record 7) v).
  { eapply rtc_l; [apply (derives_select example_record _ [OneTag (mkTag 0 [])]); reflexivity|apply rtc_refl]. }
  split; [exact Hr|]. assert (Hi : rtc (derives example_record) v (view_row 3 v)) by (apply rtc_once, derives_row).
  destruct (views_contained example_record 7 v (view_row 3 v) eq_refl Hr Hi) as (_ & _ & _ & _ & _ & H & _).
  split; [reflexivity|]. split; [rewrite <-H; reflexivity|]. reflexivity.
Defined.

(** ** Copying rows *)

Section copying.
Context {T V : Type}.

(** Every leaf of the container has a column of [n] rows. *)
Definition container_ok (n : nat) (c : container T V) : Prop :=
  record_ok (record_type c) = true /\ typed (fun _ column => length column = n) (Node (record_type c)) (channels c).

(** A memory of containers, with their numbers of rows. *)
Definition memory_ok (rows : nat -> nat) (m : list (container T V)) : Prop := forall s c, m !! s = Some c -> container_ok (rows s) c.

Lemma leaf_column n c p : container_ok n c -> p ∈ GetLeafPaths (record_type c) [] ->
  exists t column, p <> [] /\ value_at p (Node (record_type c)) = Some (Leaf t) /\ getLeaf c p = Some column /\ length column = n.
Proof.
  intros [Hok Hty] Hp. rewrite GetLeafPaths_root in Hp. pose proof (leaf_paths_nonempty _ _ Hp) as Hne.
  apply leaf_paths_value in Hp as [t Ht]; [|done]. destruct (resolveLeaf_typed _ p _ _ t Hty Hne Ht) as (column & Hcol & Hlen).
  by exists t, column.
Qed.

Lemma write_cell_spec rows (m : list (container T V)) s p i x c :
  memory_ok rows m -> m !! s = Some c -> p ∈ GetLeafPaths (record_type c) [] -> i < rows s ->
  exists m', write_cell m s p i x = Some m' /\ memory_ok rows m' /\ (forall s', record_type <$> m' !! s' = record_type <$> m !! s') /\
    forall s' p' i', read_cell m' s' p' i' = if decide (s' = s /\ p' = p /\ i' = i) then Some x else read_cell m s' p' i'.
Proof.
  intros Hm Hs Hp Hi. pose proof (Hm s c Hs) as Hc. destruct (leaf_column _ _ _ Hc Hp) as (t & column & Hne & Ht & Hcol & Hlen).
  destruct Hc as [Hok Hty]. destruct (lookup_lt_is_Some_2 column i) as [y Hy]; [lia|].
  destruct (storeLeaf_typed _ p _ _ t (<[i := x]> column) Hty Hne Ht) as [Hty' Hget]; [by rewrite length_insert|].
  assert (Hlt : s < length m) by (by eapply lookup_lt_Some).
  unfold write_cell. rewrite Hs. simpl. rewrite Hcol. simpl. rewrite Hy. simpl. eexists. split_and!; [done| | |].
  - intros s' c' Hc'. destruct (decide (s' = s)) as [->|Hss]; [|rewrite list_lookup_insert_ne in Hc' by done; by apply Hm].
    rewrite list_lookup_insert_eq in Hc' by done. injection Hc' as <-. done.
  - intros s'. destruct (decide (s' = s)) as [->|Hss]; [|by rewrite list_lookup_insert_ne]. by rewrite list_lookup_insert_eq, Hs.
  - intros s' p' i'. unfold read_cell. destruct (decide (s' = s)) as [->|Hss]; [|rewrite list_lookup_insert_ne by done; by rewrite decide_False by tauto].
    rewrite list_lookup_insert_eq by done. rewrite Hs. simpl. unfold getLeaf at 1. simpl. rewrite Hget.
    destruct (decide (p' = p)) as [->|Hpp]; [|by rewrite decide_False by tauto]. rewrite Hcol. simpl. destruct (decide (i' = i)) as [->|Hii].
    + rewrite list_lookup_insert_eq by lia. by rewrite decide_True.
    + rewrite list_lookup_insert_ne by done. by rewrite decide_False by tauto.
Qed.

Lemma read_cell_defined rows (m : list (container T V)) s p i c :
  memory_ok rows m -> m !! s = Some c -> p ∈ GetLeafPaths (record_type c) [] -> i < rows s -> is_Some (read_cell m s p i).
Proof.
  intros Hm Hs Hp Hi. destruct (leaf_column _ _ _ (Hm s c Hs) Hp) as (t & column & _ & _ & Hcol & Hlen).
  unfold read_cell. rewrite Hs. simpl. rewrite Hcol. simpl. apply lookup_lt_is_Some_2. lia.
Qed.

(** The loop over the leaves that are left, after those of [done]. *)
Lemma copy_leaves rows (m cur : list (container T V)) dest src di si rest finished rd rs :
  memory_ok rows cur -> NoDup (finished ++ rest) -> di < rows (v_storage dest) -> si < rows (v_storage src) ->
  record_type <$> cur !! v_storage dest = Some rd -> record_type <$> cur !! v_storage src = Some rs ->
  (forall p, p ∈ rest -> p ∈ GetLeafPaths rd [] /\ p ∈ GetLeafPaths rs []) ->
  (forall s p i, read_cell cur s p i = if decide (s = v_storage dest /\ p ∈ finished /\ i = di) then read_cell m (v_storage src) p si else read_cell m s p i) ->
  exists m', foldl (copy_leaf dest src di si) (Some cur) rest = Some m' /\
    forall s p i, read_cell m' s p i =
      if decide (s = v_storage dest /\ p ∈ finished ++ rest /\ i = di) then read_cell m (v_storage src) p si else read_cell m s p i.
Proof.
  revert cur finished. induction rest as [|p rest IH]; intros cur finished Hm Hnd Hdi Hsi Hrd Hrs Hin Hcur; [rewrite app_nil_r; by exists cur|].
  destruct (Hin p (list_elem_of_here _ _)) as [Hpd Hps].
  assert (Hpn : p ∉ finished). { intros Hpf. apply list.NoDup_app in Hnd as (_ & Hdis & _). apply (Hdis p Hpf). by left. }
  destruct (cur !! v_storage dest) as [cd|] eqn:Hcd; [|done]. destruct (cur !! v_storage src) as [cs|] eqn:Hcs; [|done].
  simpl in Hrd, Hrs. injection Hrd as <-. injection Hrs as <-.
  destruct (read_cell_defined rows cur (v_storage src) p si cs) as [x Hx]; [done..|].
  destruct (write_cell_spec rows cur (v_storage dest) p di x cd) as (m1 & Hw & Hm1 & Hrec & Hread); [done..|].
  assert (Hx0 : read_cell m (v_storage src) p si = Some x) by (rewrite <-Hx, Hcur, decide_False by tauto; done).
  cbn [foldl]. unfold copy_leaf at 2. simpl. rewrite Hx. simpl. rewrite Hw.
  rewrite (cons_middle p finished rest) in Hnd |- *. rewrite app_assoc in Hnd |- *.
  apply IH; [done|done|done|done|by rewrite Hrec, Hcd|by rewrite Hrec, Hcs|intros q Hq; apply Hin; by right|].
  intros s q i. rewrite Hread, Hcur. destruct (decide (s = v_storage dest /\ q = p /\ i = di)) as [(-> & -> & ->)|Hne].
  - rewrite decide_True; [done|]. split_and!; [done|apply elem_of_app; right; by left|done].
  - destruct (decide (s = v_storage dest /\ q ∈ finished /\ i = di)) as [(-> & Hq & ->)|Hnf].
    + rewrite decide_True; [done|]. split_and!; [done|apply elem_of_app; by left|done].
    + rewrite decide_False; [done|]. intros (-> & [Hq|Hq%list_elem_of_singleton]%elem_of_app & ->); tauto.
Qed.

(** [copy_values] copies exactly the leaves that the destination selects.  If the source selects them too and both
    rows exist, each of these leaves in the destination's row has afterwards what the source's row had before, even when both
    rows are in one container; no other cell of any container changes. *)
Theorem copy_values_copies rows (m : list (container T V)) (dest src : View) di si cd cs :
  memory_ok rows m -> m !! v_storage dest = Some cd -> m !! v_storage src = Some cs ->
  idx dest = Some di -> di < rows (v_storage dest) -> idx src = Some si -> si < rows (v_storage src) ->
  CanonicalLeafSetFor (record_type cd) (v_access dest) = true -> CanonicalLeafSetFor (record_type cs) (v_access src) = true ->
  CopyValuesCompatible (record_type cs) dest src = true ->
  exists m', copy_values dest src m = Some m' /\
    forall s p i, read_cell m' s p i =
      if decide (s = v_storage dest /\ p ∈ v_access dest /\ i = di) then read_cell m (v_storage src) p si else read_cell m s p i.
Proof.
  intros Hm Hd Hs Hdi Hdn Hsi Hsk Hcd Hcs Hcompat. unfold copy_values. rewrite Hdi, Hsi, Hs. simpl. rewrite Hcompat.
  pose proof (proj1 (Hm _ _ Hd)) as Hokd. pose proof (proj1 (Hm _ _ Hs)) as Hoks.
  apply (copy_leaves rows m m dest src di si (v_access dest) [] (record_type cd) (record_type cs)); [done| |done|done|by rewrite Hd|by rewrite Hs| |].
  - by apply (canonical_NoDup _ Hokd).
  - intros p Hp. rewrite !GetLeafPaths_root. split; [by apply (canonical_leaves _ Hokd _ Hcd)|].
    unfold CopyValuesCompatible in Hcompat. rewrite forallb_forall in Hcompat. specialize (Hcompat p (proj1 (list_elem_of_In _ _) Hp)).
    apply andb_true_iff in Hcompat as [_ Hc%contains_spec]. by apply (canonical_leaves _ Hoks _ Hcs).
  - intros s p i. rewrite decide_False; [done|]. intros (_ & Hp & _). by apply elem_of_nil in Hp.
Qed.
End copying.

(** Row 1 of a container takes the position of row 0 of the same container; the identifiers stay. *)
Lemma copy_values_copies_witness :
  let pos := mkTag 0 [] in let x := mkTag 1 [] in let y := mkTag 2 [] in let id := mkTag 3 [] in
  let c := mkContainer example_record (Tup [Tup [Column [1; 2]; Column [3; 4]]; Column [5; 6]]) in
  let dest := mkView 0 [[pos; x]; [pos; y]] [pos] (Some 1) in let src := mkView 0 [[pos; x]; [pos; y]; [id]] [] (Some 0) in
  memory_ok (fun _ => 2) [c] /\ exists m', copy_values dest src [c] = Some m' /\
    read_cell m' 0 [pos; y] 1 = Some 3 /\ read_cell m' 0 [id] 1 = Some 6.
Proof.
  cbv zeta. set (c := mkContainer _ _). set (dest := mkView _ [_; _] _ _). set (src := mkView _ _ _ (Some 0)).
  assert (Hm : memory_ok (fun _ => 2) [c]).
  { intros [|s] c' H; [|by rewrite lookup_cons, lookup_nil in H]. injection H as <-. split; [reflexivity|]. repeat (constructor; simpl). }
  split; [exact Hm|].
  destruct (copy_values_copies (fun _ => 2) [c] dest src 1 0 c c Hm eq_refl eq_refl eq_refl ltac:(cbn; lia) eq_refl ltac:(cbn; lia) eq_refl eq_refl eq_refl)
    as (m' & Hc & Hr). exists m'. split; [exact Hc|]. rewrite !Hr. split; reflexivity.
Defined.
