(* ===== verification/DynSoA.v ===== *)
(** * Resizable columns

    Models llamaLite/DynSoA.hpp: one vector for each leaf of a record and the number of rows.  Growing a
    vector beyond its capacity allocates, and an allocation can fail in the middle of the columns; elements are scalars, whose
    construction cannot.  An element that was never written is [None]. *)
From Stdlib Require Import ZArith Lia.
From stdpp Require Import base list numbers strings.
From S2P Require Import Prelude Outcome TagPath Records.

Section dynsoa.
Context {T V : Type}.
(** [Value{}] of a leaf type; which allocations succeed; the capacity a vector of so many elements grows to. *)
Context (value_init : T -> V) (allocates : nat -> bool) (grown : nat -> nat -> nat).

(** ** Vectors *)

Record vec : Type := mkVec { element : T; data : list (option V); capacity : nat }.

(** The state of a vector operation: the vector and the number of allocations so far. *)
Definition allocate : Host (vec * nat) unit := fun '(v, k) => (if allocates k then Ret tt else Throw bad_alloc "std::bad_alloc", (v, S k)).

Definition fit (n : nat) (fill : option V) (v : vec) : vec :=
  mkVec (element v) (take n (data v) ++ replicate (n - length (data v)) fill) (capacity v).
Definition with_capacity (c : nat) (v : vec) : vec := mkVec (element v) (data v) c.

Definition vec_resize (n : nat) (fill : T -> option V) : Host (vec * nat) unit :=
  s ← get_state;
  _ ← (if (n <=? capacity s.1)%nat then mret tt else _ ← allocate; modify (fun s => (with_capacity (grown (length (data s.1)) n) s.1, s.2)));
  modify (fun s => (fit n (fill (element s.1)) s.1, s.2)).

Definition vec_reserve (n : nat) : Host (vec * nat) unit :=
  s ← get_state;
  if (n <=? capacity s.1)%nat then mret tt else _ ← allocate; modify (fun s => (with_capacity n s.1, s.2)).

Definition vec_clear : Host (vec * nat) unit := modify (fun s => (mkVec (element s.1) [] (capacity s.1), s.2)).

(** [while(storage.size() > n) storage.pop_back()]. *)
Fixpoint pop_back_loop (fuel n : nat) (l : list (option V)) : list (option V) :=
  match fuel with 0 => l | S fuel => if (n <? length l)%nat then pop_back_loop fuel n (removelast l) else l end.
Definition vec_truncate (n : nat) : Host (vec * nat) unit :=
  modify (fun s => (mkVec (element s.1) (pop_back_loop (length (data s.1)) n (data s.1)) (capacity s.1), s.2)).

(** Copy construction. *)
Definition vec_copy : Host (vec * nat) unit :=
  s ← get_state;
  match data s.1 with
  | [] => modify (fun s => (mkVec (element s.1) [] 0, s.2))
  | _ => _ ← allocate; modify (fun s => (with_capacity (length (data s.1)) s.1, s.2))
  end.

(** ** All columns *)

(** The recursion of [resizeDynStorage] and its siblings: leaves in order, up to the first exception. *)
Fixpoint on_storage (op : Host (vec * nat) unit) (s : storage vec) (k : nat) : outcome unit * (storage vec * nat) :=
  match s with
  | Column v => let '(o, (v', k')) := op (v, k) in (o, (Column v', k'))
  | Tup children =>
      let '(o, (children', k')) :=
        (fix go (l : list (storage vec)) (k : nat) : outcome unit * (list (storage vec) * nat) :=
           match l with
           | [] => (Ret tt, ([], k))
           | s :: l =>
               let '(o, (s', k1)) := on_storage op s k in
               match o with
               | Ret _ => let '(o, (l', k2)) := go l k1 in (o, (s' :: l', k2))
               | _ => (o, (s' :: l, k1))
               end
           end) children k in
      (o, (Tup children', k'))
  end.

(** ** The container *)

Record DynSoA : Type := mkDynSoA { channels_ : storage vec; size_ : nat }.

(** The default constructor: empty columns of the leaves' types. *)
Fixpoint empty_storage (v : value_type T) : storage vec :=
  match v with Leaf t => Column (mkVec t [] 0) | Node r => Tup (map (fun f => empty_storage f.2) r) end.
Definition DynSoA_default (r : record T) : DynSoA := mkDynSoA (empty_storage (Node r)) 0.

Inductive Initialization : Type := ValueInitialize | Uninitialized.

Definition checkSize (n : nat) : Host (DynSoA * nat) unit :=
  if (Z.of_nat n >? 2 ^ 32 - 1)%Z then throw length_error "DynSoA size exceeds the 32-bit row-index limit" else mret tt.

Definition on_channels (op : Host (vec * nat) unit) : Host (DynSoA * nat) unit :=
  fun '(d, k) => let '(o, (ch, k')) := on_storage op (channels_ d) k in (o, (mkDynSoA ch (size_ d), k')).
Definition set_size (n : nat) : Host (DynSoA * nat) unit := modify (fun s => (mkDynSoA (channels_ s.1) n, s.2)).

(** [try { body } catch(...) { handler; throw; }] *)
Definition rethrow {S} (body handler : Host S unit) : Host S unit := fun s =>
  match body s with
  | (Throw e w, s') => match handler s' with (Ret _, s'') => (Throw e w, s'') | r => r end
  | r => r
  end.

Definition resize (n : nat) (initialization : Initialization) : Host (DynSoA * nat) unit :=
  _ ← checkSize n;
  s ← get_state;
  _ ← rethrow (on_channels (match initialization with ValueInitialize => vec_resize n (fun t => Some (value_init t)) | Uninitialized => vec_resize n (fun _ => None) end))
              (on_channels (vec_truncate (size_ s.1)));
  set_size n.

Definition reserve (n : nat) : Host (DynSoA * nat) unit := _ ← checkSize n; on_channels (vec_reserve n).

Definition discardAndResize (n : nat) : Host (DynSoA * nat) unit :=
  _ ← checkSize n;
  _ ← on_channels vec_clear;
  _ ← set_size 0;
  _ ← rethrow (on_channels (vec_resize n (fun _ => None))) (on_channels (vec_truncate 0));
  set_size n.

(** Copy assignment from another container: the copy is swapped in once it is complete. *)
Definition assign (other : DynSoA) : Host (DynSoA * nat) unit := fun '(d, k) =>
  match on_storage vec_copy (channels_ other) k with
  | (Ret _, (ch, k')) => (Ret tt, (mkDynSoA ch (size_ other), k'))
  | (o, (_, k')) => (o, (d, k'))
  end.

Definition dyn_getLeaf (r : record T) (p : TagPath) (d : DynSoA) : option (list (option V)) := data <$> resolveLeaf p r (channels_ d).
End dynsoa.

(** ** Storages column by column *)

Section relations.
Context {A : Type}.

#[warnings="-register-all"]
Inductive storage_rel (R : A -> A -> Prop) : storage A -> storage A -> Prop :=
  | rel_column a b : R a b -> storage_rel R (Column a) (Column b)
  | rel_tup l l' : Forall2 (storage_rel R) l l' -> storage_rel R (Tup l) (Tup l').

Lemma storage_ind' (Q : storage A -> Prop) : (forall a, Q (Column a)) -> (forall l, Forall Q l -> Q (Tup l)) -> forall s, Q s.
Proof.
  intros Hc Ht. fix IH 1. intros [a|l]; [apply Hc|]. apply Ht. induction l as [|s l IHl]; constructor; [apply IH|exact IHl].
Qed.

Fixpoint columns (s : storage A) : list A := match s with Column a => [a] | Tup l => concat (map columns l) end.

Lemma storage_rel_compose (R1 R2 R : A -> A -> Prop) s s1 s2 :
  (forall a b c, R1 a b -> R2 b c -> R a c) -> storage_rel R1 s s1 -> storage_rel R2 s1 s2 -> storage_rel R s s2.
Proof.
  intros HR. revert s1 s2. induction s as [a|l IH] using storage_ind'; intros s1 s2 H1 H2.
  - inversion H1; subst. inversion H2; subst. constructor. by eapply HR.
  - inversion H1 as [|? l1 Hl1]; subst. inversion H2 as [|? l2 Hl2]; subst. constructor. clear H1 H2. revert l2 Hl2.
    induction Hl1 as [|x y l l1 Hxy Hl1 IHl]; intros l2 Hl2; inversion Hl2; subst; constructor.
    + apply list.Forall_cons in IH as [IH _]. eapply IH; eassumption.
    + apply list.Forall_cons in IH as [_ IH]. by apply IHl.
Qed.

Lemma storage_rel_mono (R R' : A -> A -> Prop) s s' :
  (forall a b, a ∈ columns s -> R a b -> R' a b) -> storage_rel R s s' -> storage_rel R' s s'.
Proof.
  revert s'. induction s as [a|l IH] using storage_ind'; intros s' HR H; inversion H as [|? l' Hl]; subst; constructor; [apply HR; [by left|done]|].
  clear H. simpl in HR. induction Hl as [|x y l l' Hxy Hl IHl]; constructor; apply list.Forall_cons in IH as [Hx IH].
  - apply Hx; [|done]. intros a b Ha. apply HR. simpl. apply elem_of_app. by left.
  - apply IHl; [done|]. intros a b Ha. apply HR. simpl. apply elem_of_app. by right.
Qed.

Lemma storage_rel_refl (R : A -> A -> Prop) s : (forall a, a ∈ columns s -> R a a) -> storage_rel R s s.
Proof.
  induction s as [a|l IH] using storage_ind'; intros HR; constructor; [apply HR; by left|].
  simpl in HR. induction l as [|x l IHl]; constructor; apply list.Forall_cons in IH as [Hx IH].
  - apply Hx. intros a Ha. apply HR. simpl. apply elem_of_app. by left.
  - apply IHl; [done|]. intros a Ha. apply HR. simpl. apply elem_of_app. by right.
Qed.

Lemma typed_rel {T} (P Q : T -> A -> Prop) (R : A -> A -> Prop) v s s' :
  (forall t a b, P t a -> R a b -> Q t b) -> typed P v s -> storage_rel R s s' -> typed Q v s'.
Proof.
  intros HQ. revert s s'. induction v as [t|r IH] using value_type_ind'; intros s s' Hty Hrel.
  - inversion Hty; subst. inversion Hrel; subst. constructor. by eapply HQ.
  - inversion Hty as [|? l Hl]; subst. inversion Hrel as [|? l' Hl']; subst. constructor. clear Hty Hrel. revert l' Hl'.
    induction Hl as [|f x r l Hfx Hl IHl]; intros l' Hl'; inversion Hl'; subst; constructor; apply list.Forall_cons in IH as [Hf IH];
      [by eapply Hf|by apply IHl].
Qed.

Lemma typed_columns {T} (P : T -> A -> Prop) v s : typed P v s -> forall c, c ∈ columns s -> exists t, P t c.
Proof.
  revert s. induction v as [t|r IH] using value_type_ind'; intros s Hty c Hc; inversion Hty as [? a Ha|? l Hl]; subst.
  - apply list_elem_of_singleton in Hc as ->. by exists t.
  - clear Hty. simpl in Hc. induction Hl as [|f x r l Hfx Hl IHl]; [by apply elem_of_nil in Hc|]. apply list.Forall_cons in IH as [Hf IH].
    simpl in Hc. apply elem_of_app in Hc as [Hc|Hc]; [by eapply Hf|by apply IHl].
Qed.

Lemma resolveLeaf_rel {T} (R : A -> A -> Prop) p (r : record T) s s' : storage_rel R s s' ->
  match resolveLeaf p r s with Some a => exists b, resolveLeaf p r s' = Some b /\ R a b | None => resolveLeaf p r s' = None end.
Proof.
  revert r s s'. induction p as [|t p IH]; intros r s s' Hrel; [done|]. inversion Hrel as [a b Hab|l l' Hl]; subst; [done|].
  cbn [resolveLeaf]. destruct (getIndex t r) as [i|]; [|done]. simpl. destruct (r !! i) as [f|]; [|done]. simpl.
  destruct (l !! i) as [x|] eqn:Hx; simpl.
  - destruct (Forall2_lookup_l _ _ _ _ _ Hl Hx) as (y & Hy & Hxy). rewrite Hy. simpl. destruct p as [|u p].
    + inversion Hxy as [a b Hab|]; subst; destruct f.2; [by exists b|done..].
    + destruct f.2 as [t'|r']; [done|]. by apply IH.
  - apply lookup_ge_None in Hx. rewrite (Forall2_length _ _ _ Hl) in Hx. by apply lookup_ge_None in Hx as ->.
Qed.
End relations.

(** ** The traversal of the columns *)

Section traversal.
Context {T V : Type}.
Abbreviation vec := (@vec T V).

(** A vector operation either returns, or throws and leaves what it leaves. *)
Definition op_spec (op : Host (vec * nat) unit) (Pre : vec -> Prop) (R Rf : vec -> vec -> Prop) : Prop :=
  forall v k, Pre v -> match op (v, k) with (Ret _, (v', _)) => R v v' | (Throw e w, (v', _)) => e = bad_alloc /\ Rf v v' | _ => False end.

Lemma on_storage_spec op Pre R Rf s k :
  op_spec op Pre R Rf -> (forall v, v ∈ columns s -> Pre v) ->
  match on_storage op s k with
  | (Ret _, (s', _)) => storage_rel R s s'
  | (Throw e w, (s', _)) =>
      e = bad_alloc /\ (exists v v', Pre v /\ Rf v v') /\ storage_rel (fun v v' => Pre v /\ (R v v' \/ Rf v v' \/ v = v')) s s'
  | _ => False
  end.
Proof.
  intros Hop. revert k. induction s as [v|l IH] using storage_ind'; intros k Hpre.
  - simpl. specialize (Hop v k (Hpre v (list_elem_of_here _ _))). pose proof (Hpre v (list_elem_of_here _ _)) as Hv.
    destruct (op (v, k)) as [[u|e w|w|] [v' k']]; try done; [by constructor|]. destruct Hop as [-> Hf].
    split_and!; [done|by exists v, v'|]. constructor. tauto.
  - cbn [on_storage]. match goal with |- context [?f l k] => set (go := f) end.
    assert (H : match go l k with
      | (Ret _, (l', _)) => Forall2 (storage_rel R) l l'
      | (Throw e w, (l', _)) =>
          e = bad_alloc /\ (exists v v', Pre v /\ Rf v v') /\ Forall2 (storage_rel (fun v v' => Pre v /\ (R v v' \/ Rf v v' \/ v = v'))) l l'
      | _ => False
      end).
    { revert k. induction l as [|s l IHl]; intros k; [constructor|]. apply list.Forall_cons in IH as [Hs IH].
      assert (Hps : forall v, v ∈ columns s -> Pre v) by (intros v Hv; apply Hpre; simpl; apply elem_of_app; by left).
      assert (Hpl : forall v, v ∈ columns (Tup l) -> Pre v) by (intros v Hv; apply Hpre; simpl; apply elem_of_app; by right).
      specialize (Hs k Hps). simpl. destruct (on_storage op s k) as [[u|e w|w|] [s' k1]]; try done.
      - specialize (IHl IH Hpl k1). fold go. destruct (go l k1) as [[u2|e w|w|] [l' k2]]; try done; [by constructor|].
        destruct IHl as (-> & Hex & Hl). split_and!; [done|done|]. constructor; [|done].
        apply (storage_rel_mono R); [|done]. intros v v' Hv HR. split; [by apply Hps|by left].
      - destruct Hs as (-> & Hex & Hs). split_and!; [done|done|]. constructor; [done|].
        assert (Hr : storage_rel (fun v v' => Pre v /\ (R v v' \/ Rf v v' \/ v = v')) (Tup l) (Tup l)) by (apply storage_rel_refl; auto).
        by inversion Hr. }
    destruct (go l k) as [[u|e w|w|] [l' k']]; try done; [by constructor|]. destruct H as (-> & Hex & Hl). split_and!; [done|done|by constructor].
Qed.

(** An operation that cannot throw. *)
Lemma on_storage_total op Pre R s k :
  op_spec op Pre R (fun _ _ => False) -> (forall v, v ∈ columns s -> Pre v) -> exists s' k', on_storage op s k = (Ret tt, (s', k')) /\ storage_rel R s s'.
Proof.
  intros Hop Hpre. pose proof (on_storage_spec op Pre R _ s k Hop Hpre) as H. destruct (on_storage op s k) as [[[]|e w|w|] [s' k']]; try done.
  - by exists s', k'.
  - by destruct H as (_ & (? & ? & _ & []) & _).
Qed.

(** *** The vector operations *)

Lemma pop_back_loop_take fuel n (l : list (option V)) : length l <= fuel -> pop_back_loop fuel n l = take n l.
Proof.
  revert l. induction fuel as [|fuel IH]; intros l Hl; [by destruct l; simpl in *; [rewrite take_nil|lia]|]. simpl.
  destruct (Nat.ltb_spec n (length l)) as [Hn|Hn]; [|by rewrite take_ge]. destruct l as [|x l _] using rev_ind; [simpl in Hn; lia|].
  rewrite length_app in Hl, Hn. simpl in Hl, Hn. rewrite removelast_last, IH by lia. by rewrite take_app_le by lia.
Qed.

Context (value_init : T -> V) (allocates : nat -> bool) (grown : nat -> nat -> nat).
Context (Hgrown : forall c n, n <= grown c n).

(** A vector of [m] rows. *)
Definition rows_of (m : nat) (v : vec) : Prop := length (data v) = m /\ m <= capacity v.

Definition resized (n : nat) (fill : T -> option V) (v v' : vec) : Prop :=
  element v' = element v /\ data v' = take n (data v) ++ replicate (n - length (data v)) (fill (element v)) /\ n <= capacity v'.

Lemma vec_resize_spec n fill m : op_spec (vec_resize allocates grown n fill) (rows_of m) (resized n fill) (fun v v' => v' = v /\ capacity v < n).
Proof.
  intros v k [Hl Hc]. unfold vec_resize, mbind, Host_bind, get_state. simpl. destruct (Nat.leb_spec n (capacity v)) as [Hn|Hn]; [done|].
  unfold allocate. simpl. destruct (allocates k); simpl; [|done]. split_and!; [done|done|apply Hgrown].
Qed.

Lemma vec_resize_fits n fill : op_spec (vec_resize allocates grown n fill) (fun v => n <= capacity v) (resized n fill) (fun _ _ => False).
Proof. intros v k Hc. unfold vec_resize, mbind, Host_bind, get_state. simpl. by rewrite (proj2 (Nat.leb_le _ _) Hc). Qed.

Definition reserved (n : nat) (v v' : vec) : Prop := element v' = element v /\ data v' = data v /\ capacity v <= capacity v' /\ n <= capacity v'.

Lemma vec_reserve_spec n m : op_spec (vec_reserve allocates n) (rows_of m) (reserved n) (fun v v' => v' = v /\ capacity v < n).
Proof.
  intros v k [Hl Hc]. unfold vec_reserve, mbind, Host_bind, get_state. simpl. destruct (Nat.leb_spec n (capacity v)) as [Hn|Hn]; [done|].
  unfold allocate. simpl. destruct (allocates k); simpl; [|done]. split_and!; [done|done|simpl; lia|done].
Qed.

Lemma vec_truncate_spec n : op_spec (vec_truncate n) (fun _ => True) (fun v v' => element v' = element v /\ data v' = take n (data v) /\ capacity v' = capacity v) (fun _ _ => False).
Proof. intros v k _. simpl. split_and!; [done|by apply pop_back_loop_take|done]. Qed.

Lemma vec_clear_spec : op_spec vec_clear (fun _ => True) (fun v v' => element v' = element v /\ data v' = [] /\ capacity v' = capacity v) (fun _ _ => False).
Proof. by intros v k _. Qed.

Lemma vec_copy_spec : op_spec (vec_copy allocates) (fun _ => True) (fun v v' => element v' = element v /\ data v' = data v /\ capacity v' = length (data v)) (fun v v' => v' = v).
Proof.
  intros v k _. unfold vec_copy, mbind, Host_bind, get_state. simpl. destruct (data v) as [|x l] eqn:Hd; simpl; [done|].
  destruct (allocates k); simpl; [|done]. by rewrite Hd.
Qed.

(** ** The container *)

Definition column_ok (n : nat) (t : T) (v : vec) : Prop := element v = t /\ rows_of n v.

(** Every leaf has a vector of its type with as many elements as the container has rows. *)
Definition dyn_ok (r : record T) (d : DynSoA) : Prop :=
  record_ok r = true /\ typed (column_ok (size_ d)) (Node r) (channels_ d) /\ (Z.of_nat (size_ d) <= 2 ^ 32 - 1)%Z.

Lemma dyn_columns (r : record T) d v : dyn_ok r d -> v ∈ columns (channels_ d) -> rows_of (size_ d) v.
Proof. intros (_ & Hty & _) Hv. by destruct (typed_columns _ _ _ Hty v Hv) as (t & _ & H). Qed.

Lemma DynSoA_default_ok (r : record T) : record_ok r = true -> dyn_ok r (DynSoA_default r).
Proof.
  intros Hok. split_and!; [done| |simpl; lia]. unfold DynSoA_default. cbn [channels_ size_]. generalize (Node r) as v. clear.
  induction v as [t|r IH] using value_type_ind'; [by repeat constructor|]. cbn [empty_storage]. constructor.
  induction IH as [|f r Hf IH IHr]; constructor; done.
Qed.

(** The rows of a leaf after an operation on all vectors. *)
Lemma getLeaf_rel (r : record T) (R : vec -> vec -> Prop) d s' n p :
  storage_rel R (channels_ d) s' ->
  match resolveLeaf p r (channels_ d) with
  | Some v => exists v', R v v' /\ dyn_getLeaf r p d = Some (data v) /\ dyn_getLeaf r p (mkDynSoA s' n) = Some (data v')
  | None => dyn_getLeaf r p d = None /\ dyn_getLeaf r p (mkDynSoA s' n) = None
  end.
Proof.
  intros Hrel. pose proof (resolveLeaf_rel R p r _ _ Hrel) as H. unfold dyn_getLeaf. simpl. destruct (resolveLeaf p r (channels_ d)) as [v|].
  - destruct H as (v' & -> & HR). by exists v'.
  - by rewrite H.
Qed.
End traversal.

Section container.
Context {T V : Type}.
Abbreviation vec := (@vec T V).
Context (value_init : T -> V) (allocates : nat -> bool) (grown : nat -> nat -> nat) (Hgrown : forall c n, n <= grown c n).
Context (r : record T).

(** The rows are as they were. *)
Definition same_rows (m : nat) (v v' : vec) : Prop := element v' = element v /\ data v' = data v /\ m <= capacity v'.

Lemma same_rows_ok m (d : @DynSoA T V) s' : dyn_ok r d -> m = size_ d -> storage_rel (same_rows m) (channels_ d) s' ->
  dyn_ok r (mkDynSoA s' m) /\ forall p, dyn_getLeaf r p (mkDynSoA s' m) = dyn_getLeaf r p d.
Proof.
  intros (Hok & Hty & Hsz) -> Hrel. split.
  - split_and!; [done| |done]. eapply typed_rel; [|exact Hty|exact Hrel]. intros t a b [He [Hl _]] (He' & Hd' & Hc'). split; [congruence|]. split; [by rewrite Hd'|done].
  - intros p. pose proof (getLeaf_rel r _ d s' (size_ d) p Hrel) as H. destruct (resolveLeaf p r (channels_ d)) as [v|].
    + destruct H as (v' & (_ & Hd & _) & -> & ->). by rewrite Hd.
    + by destruct H as [-> ->].
Qed.

Lemma truncate_grown n m fill s s1 k :
  m < n -> (forall v, v ∈ columns s -> rows_of m v) ->
  storage_rel (fun v v' => rows_of m v /\ (resized n fill v v' \/ (v' = v /\ capacity v < n) \/ v = v')) s s1 ->
  exists s2 k2, on_storage (vec_truncate m) s1 k = (Ret tt, (s2, k2)) /\ storage_rel (same_rows m) s s2.
Proof.
  intros Hmn Hrows Hrel. destruct (on_storage_total _ _ _ s1 k (vec_truncate_spec m) (fun _ _ => I)) as (s2 & k2 & He & H2).
  exists s2, k2. split; [done|]. eapply storage_rel_compose; [|exact Hrel|exact H2].
  intros a b c [[Hl Hc] Hab] (Hel & Hd & Hcap). unfold same_rows. rewrite Hel, Hd, Hcap.
  destruct Hab as [(Hel' & Hd' & Hc')|[[-> _]| <-]].
  - rewrite Hd', Hel'. split_and!; [done| |lia]. by rewrite (take_ge (data a)), take_app_le, take_ge by lia.
  - by rewrite take_ge by lia.
  - by rewrite take_ge by lia.
Qed.

Lemma checkSize_spec n (s : @DynSoA T V * nat) :
  checkSize n s = (if (Z.of_nat n >? 2 ^ 32 - 1)%Z then Throw length_error "DynSoA size exceeds the 32-bit row-index limit" else Ret tt, s).
Proof. unfold checkSize. by destruct (_ >? _)%Z. Qed.

Lemma limit_spec n : (Z.of_nat n >? 2 ^ 32 - 1)%Z = false -> (Z.of_nat n <= 2 ^ 32 - 1)%Z.
Proof. rewrite Z.gtb_ltb, Z.ltb_ge. done. Qed.

Definition fill_of (i : Initialization) (t : T) : option V := match i with ValueInitialize => Some (value_init t) | Uninitialized => None end.

Lemma resize_unfold n i (d : @DynSoA T V) k : (Z.of_nat n >? 2 ^ 32 - 1)%Z = false ->
  resize value_init allocates grown n i (d, k) =
  match on_storage (vec_resize allocates grown n (fill_of i)) (channels_ d) k with
  | (Ret _, (s', k')) => (Ret tt, (mkDynSoA s' n, k'))
  | (Throw e w, (s', k')) =>
      match on_storage (vec_truncate (size_ d)) s' k' with
      | (Ret _, (s'', k'')) => (Throw e w, (mkDynSoA s'' (size_ d), k''))
      | (Throw e w, (s'', k'')) => (Throw e w, (mkDynSoA s'' (size_ d), k''))
      | (Abort w, (s'', k'')) => (Abort w, (mkDynSoA s'' (size_ d), k''))
      | (Undefined, (s'', k'')) => (Undefined, (mkDynSoA s'' (size_ d), k''))
      end
  | (Abort w, (s', k')) => (Abort w, (mkDynSoA s' (size_ d), k'))
  | (Undefined, (s', k')) => (Undefined, (mkDynSoA s' (size_ d), k'))
  end.
Proof.
  intros Hn. unfold resize, mbind, Host_bind. rewrite checkSize_spec, Hn. unfold get_state, rethrow, on_channels. cbn [fst snd channels_ size_].
  assert (Hop : match i with ValueInitialize => vec_resize allocates grown n (fun t => Some (value_init t)) | Uninitialized => vec_resize allocates grown n (fun _ => None) end
    = vec_resize allocates grown n (fill_of i)) by (by destruct i).
  rewrite Hop. destruct (on_storage _ (channels_ d) k) as [[u|e w|w|] [s' k']]; cbn [channels_ size_]; try done.
  destruct (on_storage _ s' k') as [[u|e' w'|w'|] [s'' k'']]; done.
Qed.

(** [resize] does what it says, or throws and changes no row. *)
Lemma resize_spec (d : @DynSoA T V) k n i : dyn_ok r d ->
  match resize value_init allocates grown n i (d, k) with
  | (Ret _, (d', _)) =>
      dyn_ok r d' /\ size_ d' = n /\
      forall p t, value_type_for p r = Some (Leaf t) -> exists rows, dyn_getLeaf r p d = Some rows /\
        dyn_getLeaf r p d' = Some (take n rows ++ replicate (n - size_ d) (fill_of i t))
  | (Throw e w, (d', _)) =>
      dyn_ok r d' /\ size_ d' = size_ d /\ (forall p, dyn_getLeaf r p d' = dyn_getLeaf r p d) /\
      (e = length_error /\ (2 ^ 32 - 1 < Z.of_nat n)%Z \/ e = bad_alloc /\ size_ d < n)
  | _ => False
  end.
Proof.
  intros Hd. pose proof Hd as (Hok & Hty & Hsz). destruct (Z.of_nat n >? 2 ^ 32 - 1)%Z eqn:Hn.
  - unfold resize, mbind, Host_bind. rewrite checkSize_spec, Hn. split_and!; [done|done|done|]. left. split; [done|]. by apply Z.gtb_gt in Hn; lia.
  - rewrite resize_unfold by done. apply limit_spec in Hn.
    pose proof (on_storage_spec _ _ _ _ (channels_ d) k (vec_resize_spec allocates grown Hgrown n (fill_of i) (size_ d)) (fun v Hv => dyn_columns r d v Hd Hv)) as H.
    destruct (on_storage _ (channels_ d) k) as [[u|e w|w|] [s' k']]; try done.
    + split_and!; [|done|].
      * split_and!; [done| |done]. eapply typed_rel; [|exact Hty|exact H]. intros t a b [He [Hl _]] (He' & Hda & Hc). split; [congruence|].
        split; [rewrite Hda, length_app, length_take, length_replicate; simpl; lia|done].
      * intros p t Ht. assert (Hp : p <> []) by (by intros ->). rewrite resolvePathToField_value in Ht by done.
        destruct (resolveLeaf_typed _ p r _ t Hty Hp Ht) as (v & Hv & He & Hl & _).
        pose proof (getLeaf_rel r _ d s' n p H) as Hg. rewrite Hv in Hg. destruct Hg as (v' & (_ & Hda & _) & -> & ->).
        exists (data v). split; [done|]. by rewrite Hda, Hl, He.
    + destruct H as (-> & (v & v' & [Hl Hc] & -> & Hcap) & Hrel).
      destruct (truncate_grown n (size_ d) (fill_of i) (channels_ d) s' k') as (s2 & k2 & -> & Hs2); [lia|intros x Hx; by apply (dyn_columns r d)|done|].
      destruct (same_rows_ok _ d s2 Hd eq_refl Hs2) as [Hd2 Hg2]. split_and!; [done|done|done|]. right. split; [done|lia].
Qed.

(** A vector of the same type with no elements. *)
Definition emptied (v v' : vec) : Prop := element v' = element v /\ data v' = [].

Lemma emptied_ok (d : @DynSoA T V) s' : dyn_ok r d -> storage_rel emptied (channels_ d) s' -> dyn_ok r (mkDynSoA s' 0).
Proof.
  intros (Hok & Hty & Hsz) Hrel. split_and!; [done| |simpl; lia]. eapply typed_rel; [|exact Hty|exact Hrel].
  intros t a b [He _] [He' Hd]. split; [congruence|]. split; [by rewrite Hd|simpl; lia].
Qed.

Lemma clear_channels (d : @DynSoA T V) k : exists s1 k1, on_storage vec_clear (channels_ d) k = (Ret tt, (s1, k1)) /\ storage_rel emptied (channels_ d) s1.
Proof.
  destruct (on_storage_total _ _ _ (channels_ d) k vec_clear_spec (fun _ _ => I)) as (s1 & k1 & He & H). exists s1, k1. split; [done|].
  eapply storage_rel_mono; [|exact H]. by intros a b _ (Ha & Hb & _).
Qed.

(** [discardAndResize] is [resize] of the emptied container. *)
Lemma discardAndResize_spec (d : @DynSoA T V) k n : dyn_ok r d ->
  match discardAndResize allocates grown n (d, k) with
  | (Ret _, (d', _)) =>
      dyn_ok r d' /\ size_ d' = n /\ forall p, is_Some (dyn_getLeaf r p d) -> dyn_getLeaf r p d' = Some (replicate n None)
  | (Throw e w, (d', _)) =>
      (e = length_error /\ (2 ^ 32 - 1 < Z.of_nat n)%Z /\ d' = d) \/
      (e = bad_alloc /\ dyn_ok r d' /\ size_ d' = 0 /\ forall p, is_Some (dyn_getLeaf r p d) -> dyn_getLeaf r p d' = Some [])
  | _ => False
  end.
Proof.
  intros Hd. destruct (Z.of_nat n >? 2 ^ 32 - 1)%Z eqn:Hn.
  - unfold discardAndResize, mbind, Host_bind. rewrite checkSize_spec, Hn. left. split_and!; [done| |done]. by apply Z.gtb_gt in Hn; lia.
  - destruct (clear_channels d k) as (s1 & k1 & Hcl & Hrel). pose proof (emptied_ok d s1 Hd Hrel) as Hd1.
    assert (Heq : discardAndResize allocates grown n (d, k) = resize value_init allocates grown n Uninitialized (mkDynSoA s1 0, k1)).
    { rewrite resize_unfold by done. unfold discardAndResize, mbind, Host_bind. rewrite checkSize_spec, Hn. unfold on_channels at 1. rewrite Hcl.
      unfold set_size, modify, rethrow, on_channels. cbn [fst snd channels_ size_]. change (fill_of Uninitialized) with (fun _ : T => @None V).
      destruct (on_storage _ s1 k1) as [[u|e w|w|] [s' k']]; try done. cbn [channels_ size_]. by destruct (on_storage _ s' k') as [[u|e' w'|w'|] [s'' k'']]. }
    rewrite Heq. pose proof (resize_spec _ k1 n Uninitialized Hd1) as H.
    assert (Hrows : forall p, is_Some (dyn_getLeaf r p d) -> dyn_getLeaf r p (mkDynSoA s1 0) = Some []).
    { intros p [rows Hp]. pose proof (getLeaf_rel r _ d s1 0 p Hrel) as Hg. destruct (resolveLeaf p r (channels_ d)) as [v|]; [|by destruct Hg; congruence].
      destruct Hg as (v' & [_ Hv'] & _ & ->). by rewrite Hv'. }
    destruct (resize _ _ _ n _ _) as [[u|e w|w|] [d' k']]; try done.
    + destruct H as (Hd' & Hs & Hg). split_and!; [done|done|]. intros p Hp. pose proof (Hrows p Hp) as Hp1. destruct Hp as [rows Hp].
      unfold dyn_getLeaf in Hp. destruct (resolveLeaf p r (channels_ d)) as [v|] eqn:Hv; [|done].
      destruct (resolveLeaf_value _ _ _ _ Hv) as [Hne [t Ht]]. rewrite <-resolvePathToField_value in Ht by done.
      destruct (Hg p t Ht) as (rows' & Hr' & ->). rewrite Hp1 in Hr'. injection Hr' as <-. simpl. by rewrite take_nil, Nat.sub_0_r.
    + destruct H as (Hd' & Hs & Hg & [[-> Hlim]|[-> _]]).
      * apply limit_spec in Hn. lia.
      * right. split_and!; [done|done|done|]. intros p Hp. rewrite Hg. by apply Hrows.
Qed.

(** [reserve] never changes a row, and once it has returned, growing up to it cannot fail. *)
Lemma reserve_spec (d : @DynSoA T V) k n : dyn_ok r d ->
  match reserve allocates n (d, k) with
  | (Ret _, (d', _)) =>
      dyn_ok r d' /\ size_ d' = size_ d /\ (forall p, dyn_getLeaf r p d' = dyn_getLeaf r p d) /\
      forall m i k', m <= n -> exists d'' k'', resize value_init allocates grown m i (d', k') = (Ret tt, (d'', k''))
  | (Throw e w, (d', _)) =>
      dyn_ok r d' /\ size_ d' = size_ d /\ (forall p, dyn_getLeaf r p d' = dyn_getLeaf r p d) /\
      (e = length_error /\ (2 ^ 32 - 1 < Z.of_nat n)%Z \/ e = bad_alloc)
  | _ => False
  end.
Proof.
  intros Hd. unfold reserve, mbind, Host_bind. rewrite checkSize_spec. destruct (Z.of_nat n >? 2 ^ 32 - 1)%Z eqn:Hn.
  - split_and!; [done|done|done|]. left. split; [done|]. by apply Z.gtb_gt in Hn; lia.
  - unfold on_channels. cbn [channels_ size_]. apply limit_spec in Hn.
    pose proof (on_storage_spec _ _ _ _ (channels_ d) k (vec_reserve_spec allocates n (size_ d)) (fun v Hv => dyn_columns r d v Hd Hv)) as H.
    assert (Hsame : forall v v', rows_of (size_ d) v -> reserved n v v' -> same_rows (size_ d) v v').
    { intros v v' [_ Hc] (He & Hda & Hcap & _). split_and!; [done|done|lia]. }
    destruct (on_storage _ (channels_ d) k) as [[u|e w|w|] [s' k']]; try done.
    + assert (Hs : storage_rel (same_rows (size_ d)) (channels_ d) s').
      { eapply storage_rel_mono; [|exact H]. intros a b Ha. apply Hsame. by apply (dyn_columns r d). }
      destruct (same_rows_ok _ d s' Hd eq_refl Hs) as [Hd' Hg]. split_and!; [done|done|done|]. intros m i k2 Hm.
      rewrite resize_unfold; [|rewrite Z.gtb_ltb; apply Z.ltb_ge; cbn [size_]; lia]. cbn [channels_ size_].
      destruct (on_storage_total _ _ _ s' k2 (vec_resize_fits allocates grown m (fill_of i))) as (s2 & k3 & -> & _); [|by do 2 eexists].
      intros v Hv. assert (Hcap : forall v, v ∈ columns s' -> n <= capacity v); [|specialize (Hcap v Hv); simpl; lia].
      clear -H. revert s' H. induction (channels_ d) as [a|l IH] using storage_ind'; intros s' H; inversion H as [a' b Hab|l1 l' Hl]; subst.
      * intros v ->%list_elem_of_singleton. apply Hab.
      * clear H. simpl. induction Hl as [|x y l l' Hxy Hl IHl]; intros v; [by intros ?%elem_of_nil|]. apply list.Forall_cons in IH as [Hx IH].
        intros [Hv|Hv]%elem_of_app; [by eapply Hx|by apply IHl].
    + destruct H as (-> & _ & Hrel). assert (Hs : storage_rel (same_rows (size_ d)) (channels_ d) s').
      { eapply storage_rel_mono; [|exact Hrel]. intros a b _ [Hr [Hres|[[-> _]| <-]]]; [by apply Hsame| |]; (split_and!; [done|done|apply Hr]). }
      destruct (same_rows_ok _ d s' Hd eq_refl Hs) as [Hd' Hg]. split_and!; [done|done|done|by right].
Qed.

Lemma assign_spec (d other : @DynSoA T V) k : dyn_ok r d -> dyn_ok r other ->
  match assign allocates other (d, k) with
  | (Ret _, (d', _)) => dyn_ok r d' /\ size_ d' = size_ other /\ forall p, dyn_getLeaf r p d' = dyn_getLeaf r p other
  | (Throw e w, (d', _)) => e = bad_alloc /\ d' = d
  | _ => False
  end.
Proof.
  intros Hd Ho. unfold assign. pose proof (on_storage_spec _ _ _ _ (channels_ other) k (vec_copy_spec allocates) (fun _ _ => I)) as H.
  destruct (on_storage _ (channels_ other) k) as [[u|e w|w|] [s' k']]; try done; [|by destruct H].
  destruct (same_rows_ok (size_ other) other s' Ho eq_refl) as [Hok Hg]; [|done].
  eapply storage_rel_mono; [|exact H]. intros a b Ha (He & Hda & Hc). split_and!; [done|done|]. rewrite Hc.
  destruct (dyn_columns r other a Ho Ha) as [-> _]. done.
Qed.
End container.

(** C38: a container of columns keeps its columns in step, whatever allocation fails.  After every operation each
    leaf has as many rows as the container says, returned or thrown.  [resize] keeps the rows that fit and adds
    initialised or uninitialised ones, or throws and changes no row, although columns before the failing one had grown;
    [discardAndResize] leaves the rows asked for or none; [reserve] never changes a row and makes later growth up to it
    certain; an assignment takes over all rows or nothing.  More rows than 32-bit indices can name are refused first. *)
Theorem columns_in_step {T V} (value_init : T -> V) allocates grown (r : record T) (d : @DynSoA T V) k n :
  (forall c n, n <= grown c n) -> dyn_ok r d ->
  (forall i, match resize value_init allocates grown n i (d, k) with
     | (Ret _, (d', _)) =>
         dyn_ok r d' /\ size_ d' = n /\
         forall p t, value_type_for p r = Some (Leaf t) -> exists rows, dyn_getLeaf r p d = Some rows /\
           dyn_getLeaf r p d' = Some (take n rows ++ replicate (n - size_ d) (match i with ValueInitialize => Some (value_init t) | Uninitialized => None end))
     | (Throw e w, (d', _)) =>
         dyn_ok r d' /\ size_ d' = size_ d /\ (forall p, dyn_getLeaf r p d' = dyn_getLeaf r p d) /\
         (e = length_error /\ (2 ^ 32 - 1 < Z.of_nat n)%Z \/ e = bad_alloc /\ size_ d < n)
     | _ => False
     end) /\
  match discardAndResize allocates grown n (d, k) with
  | (Ret _, (d', _)) =>
      dyn_ok r d' /\ size_ d' = n /\ forall p, is_Some (dyn_getLeaf r p d) -> dyn_getLeaf r p d' = Some (replicate n None)
  | (Throw e w, (d', _)) =>
      (e = length_error /\ (2 ^ 32 - 1 < Z.of_nat n)%Z /\ d' = d) \/
      (e = bad_alloc /\ dyn_ok r d' /\ size_ d' = 0 /\ forall p, is_Some (dyn_getLeaf r p d) -> dyn_getLeaf r p d' = Some [])
  | _ => False
  end /\
  match reserve allocates n (d, k) with
  | (Ret _, (d', _)) =>
      dyn_ok r d' /\ size_ d' = size_ d /\ (forall p, dyn_getLeaf r p d' = dyn_getLeaf r p d) /\
      forall m i k', m <= n -> exists d'' k'', resize value_init allocates grown m i (d', k') = (Ret tt, (d'', k''))
  | (Throw e w, (d', _)) =>
      dyn_ok r d' /\ size_ d' = size_ d /\ (forall p, dyn_getLeaf r p d' = dyn_getLeaf r p d) /\
      (e = length_error /\ (2 ^ 32 - 1 < Z.of_nat n)%Z \/ e = bad_alloc)
  | _ => False
  end /\
  (forall other : @DynSoA T V, dyn_ok r other ->
     match assign allocates other (d, k) with
     | (Ret _, (d', _)) => dyn_ok r d' /\ size_ d' = size_ other /\ forall p, dyn_getLeaf r p d' = dyn_getLeaf r p other
     | (Throw e w, (d', _)) => e = bad_alloc /\ d' = d
     | _ => False
     end).
Proof.
  intros Hg Hd. split_and!; [intros i; by apply resize_spec|by apply (discardAndResize_spec value_init)|by apply reserve_spec|].
  intros other Ho. by apply assign_spec.
Qed.

(** Two rows of three columns grow to three; the second allocation fails, and the rows are as they were. *)
Lemma columns_in_step_witness :
  let d := mkDynSoA (Tup [Tup [Column (mkVec 0 [Some 1; Some 2] 2); Column (mkVec 0 [Some 3; Some 4] 2)]; Column (mkVec 1 [Some 5; None] 4)]) 2 in
  let allocates := fun k => (k =? 0)%nat in
  dyn_ok example_record d /\
  exists d' k', resize (fun t : nat => 0) allocates (fun c n => n) 3 ValueInitialize (d, 0) = (Throw bad_alloc "std::bad_alloc", (d', k')) /\
    dyn_getLeaf example_record [mkTag 0 []; mkTag 1 []] d' = Some [Some 1; Some 2] /\ dyn_ok example_record d'.
Proof.
  cbv zeta. set (d := mkDynSoA _ 2).
  assert (Hd : dyn_ok example_record d).
  { split_and!; [reflexivity| |simpl; lia]. repeat (constructor; simpl); lia. }
  split; [exact Hd|]. do 2 eexists. split; [reflexivity|].
  destruct (columns_in_step (fun t : nat => 0) (fun k => (k =? 0)%nat) (fun c n => n) example_record d 0 3 (fun _ _ => le_n _) Hd) as [H _].
  destruct (H ValueInitialize) as (Hok & _ & Hg & _). split; [reflexivity|exact Hok].
Defined.
