(* ===== verification/FrameColumns.v ===== *)
(** * Frames as columns

    The record of a fluid particle (param/speciesDefinition.param and the attribute headers), the columns of
    a frame (Frame.hpp, Soa.hpp) and the copy of one frame's leaves into resizable columns: FieldCopyTrait of
    CopyParticlesToDynSoA.hpp with the specialisation for positions of plugins/openPMD/Position.hpp.  The model of frames
    keeps particles, so a column is what a reader of the field sees in every slot. *)
From Stdlib Require Import ZArith Lia.
From stdpp Require Import base list numbers strings gmap.
From S2P Require Import Prelude Scalar Topology Aabb FrameList Regions Outcome TagPath Records AccessSet RecordIterate DynSoA.

(** ** Tags and records *)

Definition define_tag (n : nat) (s : string) : Tag := mkTag n (String.list_ascii_of_string s).

Definition axis_tag (a : axis) : Tag := match a with ax_x => define_tag 0 "x" | ax_y => define_tag 1 "y" | ax_z => define_tag 2 "z" end.
Definition particleId_t : Tag := define_tag 3 "particleId".
Definition multiMask_t : Tag := define_tag 4 "multiMask".
Definition relativePos_t : Tag := define_tag 5 "relativePos".
Definition mass_t : Tag := define_tag 6 "mass".
Definition vel_t : Tag := define_tag 7 "vel".
Definition density_t : Tag := define_tag 8 "density".
Definition smoothingLength_t : Tag := define_tag 9 "smoothingLength".
Definition internalEnergy_t : Tag := define_tag 10 "internalEnergy".
Definition dvdt_t : Tag := define_tag 11 "dvdt".
Definition dudt_t : Tag := define_tag 12 "dudt".
Definition position_t : Tag := define_tag 13 "position".

Inductive leaf_type : Type := uint64_t | uint8_t | Real.

(** The element of a column. *)
Inductive value (T : Type) : Type := VInt (n : Z) | VReal (x : T).
Arguments VInt {T} n.
Arguments VReal {T} x.

Section columns.
Context {D : CartesianDim} {T : Type} `{Scalar T}.

Definition CartesianRecord : record leaf_type := map (fun a => (axis_tag a, Leaf Real)) (cartesian_tags cs_dim).

Definition fluidRecord : record leaf_type :=
  [(particleId_t, Leaf uint64_t); (multiMask_t, Leaf uint8_t); (relativePos_t, Node CartesianRecord); (mass_t, Leaf Real);
   (vel_t, Node CartesianRecord); (density_t, Leaf Real); (smoothingLength_t, Leaf Real); (internalEnergy_t, Leaf Real);
   (dvdt_t, Node CartesianRecord); (dudt_t, Leaf Real)].

(** The output records of the default setup (param/setup.hpp) and of the shock tube. *)
Definition OutputParticleRecord : record leaf_type :=
  [(particleId_t, Leaf uint64_t); (position_t, Node CartesianRecord); (mass_t, Leaf Real); (vel_t, Node CartesianRecord)].
Definition sod_OutputParticleRecord : record leaf_type :=
  OutputParticleRecord ++ [(density_t, Leaf Real); (internalEnergy_t, Leaf Real)].

(** *** The columns of a frame *)

Fixpoint storage_map {A B} (f : A -> B) (s : Records.storage A) : Records.storage B :=
  match s with Column a => Column (f a) | Tup l => Tup (map (storage_map f) l) end.

Definition vector_readers (v : Particle T -> Topology.storage T) : Records.storage (Particle T -> value T) :=
  Tup (map (fun a => Column (fun p => VReal (vget (v p) a))) (cartesian_tags cs_dim)).
(** What the columns of [fluidRecord] hold of a particle. *)
Definition field_readers : Records.storage (Particle T -> value T) :=
  Tup [Column (fun p => VInt (particleId p)); Column (fun p => VInt (multiMask p)); vector_readers (@relativePos T); Column (fun p => VReal (mass p));
       vector_readers (@velocity T); Column (fun p => VReal (density p)); Column (fun p => VReal (smoothingLength p));
       Column (fun p => VReal (internalEnergy p)); vector_readers (@dvdt T); Column (fun p => VReal (dudt p))].

Definition particlesSoa (f : Frame T) : Records.storage (list (value T)) := storage_map (fun g => map g (slots f)) field_readers.
(** [srcSoa.getLeaf(path)]. *)
Definition soa_getLeaf (p : TagPath) (f : Frame T) : option (list (value T)) := resolveLeaf p fluidRecord (particlesSoa f).

(** *** Writing rows *)

Abbreviation rows := (list (option (value T))).
Abbreviation Dyn := (@DynSoA leaf_type (value T)).

(** A store of consecutive elements; none when it would leave the column. *)
Definition store_rows (offset : nat) (xs : list (value T)) (column : rows) : option rows :=
  if (offset + length xs <=? length column)%nat then Some (take offset column ++ map Some xs ++ drop (offset + length xs) column) else None.

(** A change of the column behind [dst.getLeaf(path)]. *)
Definition update_leaf (r : record leaf_type) (path : TagPath) (f : rows -> option rows) (d : Dyn) : option Dyn :=
  v ← resolveLeaf path r (channels_ d);
  column ← f (data v);
  Some (mkDynSoA (storeLeaf path (mkVec (element v) column (capacity v)) r (channels_ d)) (size_ d)).

(** [std::ranges::copy_n] out of a column: none when it would leave the source. *)
Definition copy_n (src : list (value T)) (count offset : nat) (column : rows) : option rows :=
  if (count <=? length src)%nat then store_rows offset (take count src) column else None.

(** The loop of the specialisation for positions. *)
Fixpoint position_loop (n i : nat) (o : T) (src : list (value T)) (offset : nat) (column : rows) : option rows :=
  match n with
  | O => Some column
  | S n =>
      s ← src !! i;
      match s with
      | VReal s => _ ← column !! (offset + i); position_loop n (S i) o src offset (<[offset + i := Some (VReal (o + s)%S)]> column)
      | VInt _ => None
      end
  end.

(** [FieldCopyTrait<Path>]. *)
Definition specialized_copy (path : TagPath) : bool := bool_decide (path = [position_t]).
Definition FieldCopyTrait (r : record leaf_type) (f : Frame T) (count offset : nat) (region : ParticleRegion T) (path : TagPath) (d : Dyn) : option Dyn :=
  if specialized_copy path then
    for_each_tag (fun a d =>
      d ← d;
      src ← soa_getLeaf [relativePos_t; axis_tag a] f;
      update_leaf r [position_t; axis_tag a] (position_loop count 0 (vget (origin (volume region)) a) src offset) d) (Some d)
  else
    src ← soa_getLeaf path f;
    update_leaf r path (copy_n src count offset) d.

(** [iterate_path] over the output record. *)
Definition copy_frame (s : selector) (r : record leaf_type) (f : Frame T) (count offset : nat) (region : ParticleRegion T) (d : Dyn) : option Dyn :=
  foldl (fun d path => d ← d; FieldCopyTrait r f count offset region path d) (Some d) (iterate_path s specialized_copy r).
End columns.

(** ** What a frame's columns hold *)

Section copies.
Context {D : CartesianDim} {T : Type} `{Scalar T}.
Abbreviation Dyn := (@DynSoA leaf_type (value T)).

Lemma resolveLeaf_map {A B} (f : A -> B) p (r : record leaf_type) s : resolveLeaf p r (storage_map f s) = f <$> resolveLeaf p r s.
Proof.
  revert r s. induction p as [|t p IH]; intros r s; [done|]. destruct s as [a|l]; [done|]. cbn [storage_map resolveLeaf].
  destruct (getIndex t r) as [i|]; [|done]. cbn [mbind option_bind]. destruct (r !! i) as [fd|]; [|done]. cbn [mbind option_bind].
  change (map (storage_map f) l !! i) with ((storage_map f <$> l) !! i). rewrite list_lookup_fmap.
  destruct (l !! i) as [c|]; [|done]. cbn [fmap option_fmap option_map mbind option_bind].
  destruct p as [|u p]; destruct fd.2 as [b|r']; [by destruct c|done|done|]. apply IH.
Qed.

(** The axis a path below [position] ends in. *)
Definition position_axis (p : TagPath) : option axis :=
  match p with
  | [t; u] => if decide (t = position_t) then list_find (fun a => u = axis_tag a) (cartesian_tags cs_dim) ≫= fun ia => Some ia.2 else None
  | _ => None
  end.

(** What the output holds at a path for a particle of a region: its position in the domain, or the field itself. *)
Definition out_reader (p : TagPath) : option (ParticleRegion T -> Particle T -> value T) :=
  match position_axis p with
  | Some a => Some (fun region q => VReal (vget (origin (volume region)) a + vget (relativePos q) a)%S)
  | None => (fun g _ => g) <$> resolveLeaf p fluidRecord field_readers
  end.

Definition out_values (region : ParticleRegion T) (ps : list (Particle T)) (p : TagPath) : list (value T) :=
  match out_reader p with Some g => map (g region) ps | None => [] end.

(** The output record has only fields that can be read off a particle; a position has the axes of the system. *)
Definition output_ok (r : record leaf_type) : Prop :=
  record_ok r = true /\ (forall v, value_type_for [position_t] r = Some v -> v = Node CartesianRecord) /\
  forall p, p ∈ GetLeafPaths r [] -> is_Some (out_reader p).

Lemma axis_tag_inj a b : axis_tag a = axis_tag b -> a = b.
Proof. by destruct a, b. Qed.

Lemma position_axis_spec p a : position_axis p = Some a <-> p = [position_t; axis_tag a] /\ a ∈ cartesian_tags cs_dim.
Proof.
  unfold position_axis. destruct p as [|t [|u [|]]]; [by split; [|intros [? _]]..| |by split; [|intros [? _]]].
  destruct (decide (t = position_t)) as [->|Ht]; [|split; [done|intros [[= -> _] _]; done]]. split.
  - destruct (list_find _ _) as [[i b]|] eqn:Hf; [|done]. intros [= <-]. simpl. apply list_find_Some in Hf as (Hi & -> & _).
    split; [done|by eapply list_elem_of_lookup_2].
  - intros [[= ->] Ha]. destruct (list_find_elem_of (fun b => axis_tag a = axis_tag b) _ a Ha eq_refl) as [[i b] Hf]. rewrite Hf.
    apply list_find_Some in Hf as (_ & He & _). apply axis_tag_inj in He as <-. done.
Qed.

Lemma out_reader_some p : (exists a, p = [position_t; axis_tag a] /\ a ∈ cartesian_tags cs_dim) \/ is_Some (resolveLeaf p fluidRecord field_readers) ->
  is_Some (out_reader p).
Proof.
  unfold out_reader. intros [(a & Hp)|[g Hg]]; [rewrite (proj2 (position_axis_spec p a) Hp); by eexists|].
  destruct (position_axis p); [by eexists|]. rewrite Hg. by eexists.
Qed.

(** Both output records of the program qualify, in every dimension. *)
Lemma OutputParticleRecord_ok : output_ok OutputParticleRecord /\ output_ok sod_OutputParticleRecord.
Proof.
  unfold output_ok. split; (split; [by dim_cases D|]; split; [by intros v [= <-]|]); intros p Hp; apply out_reader_some; revert Hp;
    dim_cases D; rewrite list_elem_of_In; simpl; intros Hp;
    repeat (destruct Hp as [<-|Hp];
      [first [right; eexists; reflexivity
             |left; first [exists ax_x; split; [reflexivity|apply list_elem_of_In; simpl; tauto]
                          |exists ax_y; split; [reflexivity|apply list_elem_of_In; simpl; tauto]
                          |exists ax_z; split; [reflexivity|apply list_elem_of_In; simpl; tauto]]]|]); done.
Qed.

Lemma soa_getLeaf_spec p f : soa_getLeaf p f = (fun g => map g (slots f)) <$> resolveLeaf p fluidRecord field_readers.
Proof. apply resolveLeaf_map. Qed.

Lemma relativePos_reader a : a ∈ cartesian_tags cs_dim ->
  resolveLeaf [relativePos_t; axis_tag a] fluidRecord field_readers = Some (fun q => VReal (vget (relativePos q) a)).
Proof. intros Ha. dim_cases D; destruct a; first [reflexivity|apply list_elem_of_In in Ha; simpl in Ha; intuition discriminate]. Qed.

(** ** Writing a piece of a column *)

Definition splice {A} (offset : nat) (xs col : list A) : list A := take offset col ++ xs ++ drop (offset + length xs) col.

Lemma splice_length {A} offset (xs col : list A) : offset + length xs <= length col -> length (splice offset xs col) = length col.
Proof. intros. unfold splice. rewrite !length_app, length_take, length_drop. lia. Qed.

Lemma splice_insert {A} offset (xs : list A) (y : A) col : offset + S (length xs) <= length col ->
  splice (S offset) xs (<[offset := y]> col) = splice offset (y :: xs) col.
Proof.
  intros Hl. unfold splice. rewrite (take_S_r _ _ y) by (apply list_lookup_insert_eq; lia). rewrite take_insert_ge by lia.
  simpl. rewrite <-app_assoc. simpl. rewrite drop_insert_lt by lia. do 4 f_equal. lia.
Qed.

Lemma splice_nil {A} offset (col : list A) : offset <= length col -> splice offset [] col = col.
Proof. intros. unfold splice. rewrite Nat.add_0_r. apply take_drop. Qed.

Lemma store_rows_splice offset (xs : list (value T)) col : offset + length xs <= length col ->
  store_rows offset xs col = Some (splice offset (map Some xs) col).
Proof. intros Hl. unfold store_rows, splice. by rewrite (proj2 (Nat.leb_le _ _) Hl), length_map. Qed.

Lemma position_loop_spec (read : Particle T -> T) o ps n i offset col :
  i + n <= length ps -> offset + i + n <= length col ->
  position_loop n i o (map (fun q => VReal (read q)) ps) offset col =
  Some (splice (offset + i) (map (fun q => Some (VReal (o + read q)%S)) (take n (drop i ps))) col).
Proof.
  revert i col. induction n as [|n IH]; intros i col Hp Hc; [rewrite take_0; cbn [map]; by rewrite splice_nil by lia|]. cbn [position_loop].
  destruct (lookup_lt_is_Some_2 ps i) as [q Hq]; [lia|]. change (map ?g ps !! i) with ((g <$> ps) !! i).
  rewrite list_lookup_fmap, Hq. cbn [fmap option_fmap option_map mbind option_bind].
  destruct (lookup_lt_is_Some_2 col (offset + i)) as [x Hx]; [lia|]. rewrite Hx. cbn [mbind option_bind].
  rewrite IH by (rewrite ?length_insert; lia). rewrite Nat.add_succ_r, splice_insert by (rewrite length_map, length_take, length_drop; lia).
  by rewrite (drop_S ps q i Hq).
Qed.

(** [d'] is [d] with [vals] written at [offset] into the leaves [ls]. *)
Definition wrote (r : record leaf_type) (ls : list TagPath) (vals : TagPath -> list (value T)) (offset : nat) (d d' : Dyn) : Prop :=
  dyn_ok r d' /\ size_ d' = size_ d /\
  forall q col, dyn_getLeaf r q d = Some col ->
    dyn_getLeaf r q d' = Some (if decide (q ∈ ls) then splice offset (map Some (vals q)) col else col).

Lemma wrote_nil r vals offset d : dyn_ok r d -> wrote r [] vals offset d d.
Proof. intros Hd. split_and!; [done..|]. intros q col Hq. rewrite decide_False by apply not_elem_of_nil. done. Qed.

Lemma dyn_getLeaf_length r q (d : Dyn) col : dyn_ok r d -> dyn_getLeaf r q d = Some col -> length col = size_ d.
Proof.
  intros (Hok & Hty & _). unfold dyn_getLeaf. destruct (resolveLeaf q r (channels_ d)) as [v|] eqn:Hv; [|done]. intros [= <-].
  destruct (resolveLeaf_value _ _ _ _ Hv) as [Hq [t Ht]]. destruct (resolveLeaf_typed _ q r _ t Hty Hq Ht) as (v' & Hv' & _ & Hl & _). congruence.
Qed.

Lemma dyn_getLeaf_leaf r q (d : Dyn) : dyn_ok r d -> is_Some (dyn_getLeaf r q d) <-> q ∈ GetLeafPaths r [].
Proof.
  intros (Hok & Hty & _). rewrite GetLeafPaths_root. unfold dyn_getLeaf. rewrite fmap_is_Some. split.
  - intros [v Hv]. destruct (resolveLeaf_value _ _ _ _ Hv) as [Hq [t Ht]]. apply leaf_paths_value; [done|by exists t].
  - intros Hq. pose proof (leaf_paths_nonempty _ _ Hq). apply leaf_paths_value in Hq as [t Ht]; [|done].
    destruct (resolveLeaf_typed _ q r _ t Hty) as (v & Hv & _); [done..|by exists v].
Qed.

Lemma wrote_trans r ls1 ls2 vals offset n d d1 d2 :
  dyn_ok r d -> (forall q, q ∈ ls1 -> q ∈ ls2 -> length (vals q) = n) -> offset + n <= size_ d ->
  wrote r ls1 vals offset d d1 -> wrote r ls2 vals offset d1 d2 -> wrote r (ls1 ++ ls2) vals offset d d2.
Proof.
  intros Hd Hlen Hn (Hd1 & Hs1 & H1) (Hd2 & Hs2 & H2). split_and!; [done|congruence|]. intros q col Hq.
  rewrite (H2 q _ (H1 q col Hq)). f_equal. pose proof (dyn_getLeaf_length r q d col Hd Hq) as Hcol.
  destruct (decide (q ∈ ls1)) as [Hq1|Hq1], (decide (q ∈ ls2)) as [Hq2|Hq2];
    [rewrite decide_True by (by apply elem_of_app; left)|rewrite decide_True by (by apply elem_of_app; left)|
     rewrite decide_True by (by apply elem_of_app; right)|rewrite decide_False by (by intros [?|?]%elem_of_app)]; try done.
  pose proof (Hlen q Hq1 Hq2) as Hv. unfold splice. rewrite length_map, Hv.
  assert (Ht : length (take offset col) = offset) by (rewrite length_take; lia).
  rewrite take_app_le, take_take, Nat.min_id by lia. do 2 f_equal.
  rewrite drop_app_ge by lia. rewrite Ht. rewrite drop_app_ge by (rewrite length_map; lia). rewrite length_map, Hv.
  rewrite drop_drop. f_equal. lia.
Qed.

Lemma update_leaf_wrote r path f vals offset d :
  dyn_ok r d -> path ∈ GetLeafPaths r [] -> offset + length (vals path) <= size_ d ->
  (forall col, length col = size_ d -> f col = Some (splice offset (map Some (vals path)) col)) ->
  exists d', update_leaf r path f d = Some d' /\ wrote r [path] vals offset d d'.
Proof.
  intros Hd Hp Hn Hf. pose proof Hd as (Hok & Hty & Hsz). rewrite GetLeafPaths_root in Hp. pose proof (leaf_paths_nonempty _ _ Hp) as Hne.
  apply leaf_paths_value in Hp as [t Ht]; [|done]. destruct (resolveLeaf_typed _ path r _ t Hty Hne Ht) as (v & Hv & He & Hl & Hc).
  unfold update_leaf. rewrite Hv. cbn [mbind option_bind]. rewrite Hf by done. cbn [mbind option_bind]. eexists. split; [done|].
  destruct (storeLeaf_typed (column_ok (size_ d)) path r (channels_ d) t (mkVec (element v) (splice offset (map Some (vals path)) (data v)) (capacity v)) Hty Hne Ht)
    as [Hty' Hres]; [split; [done|]; split; simpl; [rewrite splice_length by (rewrite length_map; lia); done|done]|].
  split_and!; [by split_and!|done|]. intros q col Hq. unfold dyn_getLeaf in *. simpl. rewrite Hres. destruct (decide (q = path)) as [->|Hqp].
  - rewrite decide_True by (by apply list_elem_of_singleton). rewrite Hv in Hq. simpl in Hq. injection Hq as <-. done.
  - rewrite decide_False by (by intros ?%list_elem_of_singleton). done.
Qed.

(** ** The copy of a frame *)

Lemma GetLeafPaths_cartesian : GetLeafPaths CartesianRecord [position_t] = map (fun a => [position_t; axis_tag a]) (cartesian_tags cs_dim).
Proof. by dim_cases D. Qed.

Section frame.
Context (r : record leaf_type) (Hr : output_ok r) (f : Frame T) (region : ParticleRegion T) (count offset : nat).
Context (Hcount : count <= length (slots f)).
Abbreviation vals := (out_values region (take count (slots f))).

Lemma out_values_length q : q ∈ GetLeafPaths r [] -> length (vals q) = count.
Proof. intros Hq. destruct Hr as (_ & _ & H'). destruct (H' q Hq) as [g Hg]. unfold out_values. rewrite Hg, length_map, length_take. lia. Qed.

Lemma copy_axis d a : dyn_ok r d -> offset + count <= size_ d -> a ∈ cartesian_tags cs_dim -> [position_t; axis_tag a] ∈ GetLeafPaths r [] ->
  exists d', (src ← soa_getLeaf [relativePos_t; axis_tag a] f;
    update_leaf r [position_t; axis_tag a] (position_loop count 0 (vget (origin (volume region)) a) src offset) d) = Some d' /\
    wrote r [[position_t; axis_tag a]] vals offset d d'.
Proof.
  intros Hd Hn Ha Hp. rewrite soa_getLeaf_spec, relativePos_reader by done. cbn [fmap option_fmap option_map mbind option_bind].
  assert (Hv : vals [position_t; axis_tag a] = map (fun q => VReal (vget (origin (volume region)) a + vget (relativePos q) a)%S) (take count (slots f))).
  { unfold out_values, out_reader. by rewrite (proj2 (position_axis_spec _ a)). }
  apply update_leaf_wrote; [done|done|by rewrite out_values_length|]. intros col Hcol.
  rewrite (position_loop_spec (fun q => vget (relativePos q) a)) by lia. rewrite Nat.add_0_r, drop_0, Hv, map_map. done.
Qed.

Lemma copy_position d : dyn_ok r d -> offset + count <= size_ d -> value_type_for [position_t] r = Some (Node CartesianRecord) ->
  (forall a, a ∈ cartesian_tags cs_dim -> [position_t; axis_tag a] ∈ GetLeafPaths r []) ->
  exists d', FieldCopyTrait r f count offset region [position_t] d = Some d' /\
    wrote r (GetLeafPaths CartesianRecord [position_t]) vals offset d d'.
Proof.
  intros Hd Hn Hv Hp. unfold FieldCopyTrait, specialized_copy. rewrite bool_decide_true by done. rewrite GetLeafPaths_cartesian. unfold for_each_tag.
  revert d Hd Hn.
  enough (H' : forall axs, (forall a, a ∈ axs -> a ∈ cartesian_tags cs_dim) -> forall d, dyn_ok r d -> offset + count <= size_ d ->
    exists d', foldl (fun d a => d ← d; src ← soa_getLeaf [relativePos_t; axis_tag a] f;
       update_leaf r [position_t; axis_tag a] (position_loop count 0 (vget (origin (volume region)) a) src offset) d) (Some d) axs = Some d' /\
      wrote r (map (fun a => [position_t; axis_tag a]) axs) vals offset d d') by (intros d; by apply H').
  induction axs as [|a axs IH]; intros Ha d Hd Hn; [exists d; split; [done|by apply wrote_nil]|].
  assert (Hina : a ∈ cartesian_tags cs_dim) by (apply Ha; by left).
  destruct (copy_axis d a Hd Hn Hina (Hp a Hina)) as (d1 & He & Hw). cbn [foldl mbind option_bind]. rewrite He.
  pose proof Hw as (Hd1 & Hs1 & _). destruct (IH ltac:(intros b Hb; apply Ha; by right) d1) as (d2 & He2 & Hw2); [done|by rewrite Hs1|].
  exists d2. split; [exact He2|]. cbn [map]. apply (wrote_trans r [[position_t; axis_tag a]] _ _ _ count d d1 d2); [done| |done|done|done].
  intros q ->%list_elem_of_singleton _. apply out_values_length. by apply Hp.
Qed.

Lemma copy_field d path : dyn_ok r d -> offset + count <= size_ d -> path ∈ GetLeafPaths r [] -> position_axis path = None -> path <> [position_t] ->
  exists d', FieldCopyTrait r f count offset region path d = Some d' /\ wrote r [path] vals offset d d'.
Proof.
  intros Hd Hn Hp Hax Hne. unfold FieldCopyTrait, specialized_copy. rewrite bool_decide_false by done. rewrite soa_getLeaf_spec.
  destruct Hr as (_ & _ & Hread). destruct (Hread path Hp) as [g Hg]. unfold out_reader in Hg. rewrite Hax in Hg.
  destruct (resolveLeaf path fluidRecord field_readers) as [h|] eqn:Hh; [|done]. cbn [fmap option_fmap option_map mbind option_bind].
  apply update_leaf_wrote; [done|done|by rewrite out_values_length|]. intros col Hcol. unfold copy_n.
  rewrite (proj2 (Nat.leb_le _ _)) by (by rewrite length_map). rewrite store_rows_splice by (rewrite length_take, length_map; lia).
  unfold out_values, out_reader. rewrite Hax, Hh. simpl. change (map h (slots f)) with (h <$> slots f). by rewrite <-fmap_take.
Qed.

Lemma process_field_prefix {X} s sp (v : value_type X) cur tag c :
  c ∈ process_field s sp cur tag v -> append cur [tag] `prefix_of` c.1.
Proof.
  revert cur tag. induction v as [a|fs IH] using value_type_ind'; intros cur tag; cbn [process_field]; (destruct (allow s _); [|by intros ?%elem_of_nil]).
  - by intros ->%list_elem_of_singleton.
  - destruct (covers_subtree s _ && _); [by intros ->%list_elem_of_singleton|].
    intros (l & Hl & (g & -> & Hg)%list_elem_of_fmap)%elem_of_concat. etrans; [|by eapply (proj1 (list.Forall_forall _ _) IH g Hg)].
    unfold append. by eexists.
Qed.

(** A call of the traversal is a leaf that is not part of a position, or the position. *)
Definition plain_call (c : TagPath * (Tag * value_type leaf_type)) : Prop :=
  c.1 ∈ GetLeafPaths r [] /\ position_axis c.1 = None /\ c.1 <> [position_t] /\ exists a, c.2.2 = Leaf a.
Definition position_call (c : TagPath * (Tag * value_type leaf_type)) : Prop :=
  c.1 = [position_t] /\ c.2.2 = Node CartesianRecord /\ value_type_for [position_t] r = Some (Node CartesianRecord).

Lemma calls_shape c : c ∈ iterate_recursive SelectAll (fun p _ => specialized_copy p) [] r -> plain_call c \/ position_call c.
Proof.
  intros Hc. destruct Hr as (Hok & Hpos & _). destruct (iterate_calls r _ _ c Hok Hc) as [Hres [[a Ha]|[_ Hsp]]].
  - left. assert (Hv : value_type_for c.1 r = Some (Leaf a)) by (unfold value_type_for; rewrite Hres; simpl; by rewrite Ha).
    assert (Hne : c.1 <> [position_t]) by (intros He; rewrite He in Hv; by specialize (Hpos _ Hv)).
    assert (Hc1 : c.1 <> []) by (intros He; by rewrite He in Hres). rewrite resolvePathToField_value in Hv by done.
    split_and!; [rewrite GetLeafPaths_root; apply leaf_paths_value; [done|by exists a]| |done|by exists a].
    destruct (position_axis c.1) as [ax|] eqn:Hax; [|done]. exfalso. apply position_axis_spec in Hax as [Hc1' _].
    unfold iterate_recursive in Hc. apply elem_of_concat in Hc as (l & Hl & (g & -> & Hg)%list_elem_of_fmap).
    pose proof (process_field_prefix _ _ _ _ _ _ Hl) as Hpre. rewrite Hc1' in Hpre. destruct Hpre as [k Hk]. injection Hk as Hk _.
    pose proof Hok as [Hnd _]%value_ok_node. assert (Hgf : field_at g.1 r = Some g) by (by apply field_at_spec).
    assert (Hgv : g.2 = Node CartesianRecord).
    { apply Hpos. rewrite resolvePathToField_value by done. simpl. rewrite Hk. by rewrite Hgf. }
    rewrite Hgv, <-Hk in Hl. cbn in Hl. unfold specialized_copy in Hl. rewrite bool_decide_true in Hl by done.
    apply list_elem_of_singleton in Hl as ->. simpl in Hc1'. done.
  - right. unfold specialized_copy in Hsp. apply bool_decide_eq_true in Hsp. rewrite Hsp in Hres.
    assert (Hv : value_type_for [position_t] r = Some c.2.2) by (unfold value_type_for; by rewrite Hres).
    rewrite (Hpos _ Hv) in Hv. split_and!; [done|by apply Hpos; unfold value_type_for; rewrite Hres|done].
Qed.

Lemma position_leaves a : value_type_for [position_t] r = Some (Node CartesianRecord) -> a ∈ cartesian_tags cs_dim ->
  [position_t; axis_tag a] ∈ GetLeafPaths r [].
Proof.
  intros Hv Ha. destruct Hr as (Hok & _ & _). rewrite resolvePathToField_value in Hv by done. rewrite GetLeafPaths_root. apply leaf_paths_value; [done|].
  exists Real. change [position_t; axis_tag a] with ([position_t] ++ [axis_tag a]). rewrite value_at_app, Hv. clear -Ha.
  dim_cases D; destruct a; first [reflexivity|apply list_elem_of_In in Ha; simpl in Ha; intuition discriminate].
Qed.

Lemma calls_wrote cs d : dyn_ok r d -> offset + count <= size_ d -> (forall c, c ∈ cs -> plain_call c \/ position_call c) ->
  exists d', foldl (fun d path => d ← d; FieldCopyTrait r f count offset region path d) (Some d) (map fst cs) = Some d' /\
    wrote r (cs ≫= covered) vals offset d d'.
Proof.
  revert d. induction cs as [|c cs IH]; intros d Hd Hn Hcs; [exists d; split; [done|by apply wrote_nil]|].
  assert (Hc : exists d1, FieldCopyTrait r f count offset region c.1 d = Some d1 /\ wrote r (covered c) vals offset d d1 /\
    forall q, q ∈ covered c -> q ∈ GetLeafPaths r []).
  { unfold covered. destruct (Hcs c (list_elem_of_here _ _)) as [(Hp & Hax & Hne & a & Ha)|(Hp & Hf & Hv)].
    - destruct (copy_field d c.1) as (d1 & He & Hw); [done..|]. exists d1. rewrite Ha. split_and!; [done..|]. by intros q ->%list_elem_of_singleton.
    - rewrite Hf, Hp. destruct (copy_position d Hd Hn Hv) as (d1 & He & Hw); [intros a Ha; by apply position_leaves|]. exists d1. split_and!; [done..|].
      rewrite GetLeafPaths_cartesian. intros q (a & -> & Ha)%list_elem_of_fmap. by apply position_leaves. }
  destruct Hc as (d1 & He & Hw & Hleaf). pose proof Hw as (Hd1 & Hs1 & _).
  destruct (IH d1) as (d2 & He2 & Hw2); [done|by rewrite Hs1|intros c' Hc'; apply Hcs; by right|].
  exists d2. cbn [map foldl mbind option_bind]. rewrite He. split; [exact He2|]. rewrite bind_cons.
  apply (wrote_trans r (covered c) _ _ _ count d d1 d2); [done| |done|done|done]. intros q Hq _. by apply out_values_length, Hleaf.
Qed.

(** Copying a frame writes the first [count] particles to every leaf of the output. *)
Lemma copy_frame_spec d : dyn_ok r d -> offset + count <= size_ d ->
  exists d', copy_frame SelectAll r f count offset region d = Some d' /\ wrote r (GetLeafPaths r []) vals offset d d'.
Proof.
  intros Hd Hn. unfold copy_frame, iterate_path. destruct (calls_wrote _ d Hd Hn calls_shape) as (d' & He & Hw). exists d'. split; [exact He|].
  rewrite iterate_covered in Hw; [|apply Hr|done]. rewrite list_filter_all in Hw; [done|]. done.
Qed.
End frame.
End copies.
