(* ===== verification/CopyOut.v ===== *)
(** * Copying all particles of a buffer into columns

    Models CopyParticlesToDynSoA of spmacc/particles/algorithms/CopyParticlesToDynSoA.hpp: the count of particles, the list
    of copy tasks, one per frame and with consecutive offsets, and their execution.  The host sees the device heap through
    its mirror, at translated addresses; the vector of tasks is a list, and its allocation is not modelled. *)
From Stdlib Require Import ZArith Lia.
From stdpp Require Import base list numbers strings gmap.
From S2P Require Import Prelude Scalar Topology Aabb FrameList Regions Outcome TagPath Records AccessSet RecordIterate DynSoA FrameColumns FrameIndex.

Section copy.
Context {D : CartesianDim} {T : Type} `{Scalar T} `{AlpakaMath}.
Local Open Scope Z_scope.
Abbreviation Dyn := (@DynSoA leaf_type (value T)).

Record CopyTask : Type := mkCopyTask { hostFrame : Z; count : Z; writeOffset : Z; region : ParticleRegion T }.

(** The number of particles, from the regions' headers. *)
Fixpoint total_particles (size : nat) (box : list (ParticleRegion T)) (total : Z) : option Z :=
  match size, box with
  | O, _ => Some total
  | S size, pr :: box => total_particles size box (u32 (total + numParticles (particleFrameList pr)))
  | _, [] => None
  end.

(** The frames of a region: [nFrames] steps along the links, each pointer translated. *)
Fixpoint frame_tasks (nFrames : nat) (hm : gmap Z (Frame T)) (heapOffset : Z) (devFramePtr : Z) (pr : ParticleRegion T) (st : Z * list CopyTask) :
    option (Z * list CopyTask) :=
  match nFrames with
  | O => Some st
  | S nFrames =>
      let p := mapToHost devFramePtr heapOffset in
      fr ← hm !! p;
      frame_tasks nFrames hm heapOffset (next fr) pr (u32 (st.1 + liveParticles fr), st.2 ++ [mkCopyTask p (liveParticles fr) st.1 pr])
  end.

Fixpoint region_tasks (frameSize : Z) (size : nat) (box : list (ParticleRegion T)) (hm : gmap Z (Frame T)) (heapOffset : Z) (st : Z * list CopyTask) :
    option (Z * list CopyTask) :=
  match size, box with
  | O, _ => Some st
  | S size, pr :: box =>
      let fl := particleFrameList pr in
      let nFrames := numFrames frameSize fl in
      st ← (if nFrames =? 0 then Some st else frame_tasks (Z.to_nat nFrames) hm heapOffset (m_firstNode fl) pr st);
      region_tasks frameSize size box hm heapOffset st
  | _, [] => None
  end.

(** The body of the [for_each] over the tasks. *)
Definition run_task (r : record leaf_type) (hm : gmap Z (Frame T)) (d : option Dyn) (task : CopyTask) : option Dyn :=
  d ← d;
  fr ← hm !! hostFrame task;
  copy_frame SelectAll r fr (Z.to_nat (count task)) (Z.to_nat (writeOffset task)) (region task) d.

(** [CopyParticlesToDynSoA]: the state is the buffer, the columns and the number of allocations. *)
Definition CopyParticlesToDynSoA (allocates : nat -> bool) (grown : nat -> nat -> nat) (frameSize : Z) (r : record leaf_type)
    (hm : gmap Z (Frame T)) (heapOffset : Z) : Host (PRBuffer T * (Dyn * nat)) unit := fun '(pr, dk) =>
  let pr := synchronize pr in
  match pr_buffer pr with
  | None => (Undefined, (pr, dk))
  | Some buffer =>
      let hostBox := hostData buffer in
      match total_particles (pr_size pr) hostBox 0 with
      | None => (Undefined, (pr, dk))
      | Some total =>
          match discardAndResize allocates grown (Z.to_nat total) dk with
          | (Ret _, (d, k)) =>
              match ('(_, tasks) ← region_tasks frameSize (pr_size pr) hostBox hm heapOffset (0, []); foldl (run_task r hm) (Some d) tasks) with
              | Some d => (Ret tt, (pr, (d, k)))
              | None => (Undefined, (pr, (d, k)))
              end
          | (o, dk) => (o, (pr, dk))
          end
      end
  end.

(** ** What the buffer holds *)

(** A frame whose live particles come first. *)
Definition packed (frameSize : Z) (fr : Frame T) : Prop :=
  Z.of_nat (length (slots fr)) = frameSize /\ 0 <= liveParticles fr <= frameSize /\ frame_live fr = take (Z.to_nat (liveParticles fr)) (slots fr).

(** *** The list of tasks *)

Definition piece : Type := Z * Frame T * ParticleRegion T.
Definition live_sum (l : list piece) : Z := foldr (fun pc z => liveParticles pc.1.2 + z) 0 l.
Fixpoint tasks_of (heapOffset w : Z) (l : list piece) : list CopyTask :=
  match l with
  | [] => []
  | (p, fr, pr) :: l => mkCopyTask (p - heapOffset) (liveParticles fr) w pr :: tasks_of heapOffset (w + liveParticles fr) l
  end.

Lemma live_sum_app l1 l2 : live_sum (l1 ++ l2) = live_sum l1 + live_sum l2.
Proof. unfold live_sum. induction l1 as [|pc l1 IH]; simpl in *; [done|]. rewrite IH. lia. Qed.

Lemma live_sum_nonneg l : Forall (fun pc => 0 <= liveParticles pc.1.2) l -> 0 <= live_sum l.
Proof. induction 1; simpl; lia. Qed.

Lemma tasks_of_app off w l1 l2 : tasks_of off w (l1 ++ l2) = tasks_of off w l1 ++ tasks_of off (w + live_sum l1) l2.
Proof.
  revert w. induction l1 as [|[[p fr] pr] l1 IH]; intros w; simpl; [by rewrite Z.add_0_r|]. rewrite IH. do 3 f_equal. lia.
Qed.

Lemma frame_tasks_spec h hm off pr ps frs p w ts :
  chain h p ps -> Forall2 (fun p fr => h !! p = Some fr) ps frs -> host_mirror h off hm ->
  let l := zip_with (fun p fr => (p, fr, pr)) ps frs in
  Forall (fun pc => 0 <= liveParticles pc.1.2) l -> 0 <= w -> w + live_sum l < 2 ^ 32 ->
  frame_tasks (length frs) hm off p pr (w, ts) = Some (w + live_sum l, ts ++ tasks_of off w l).
Proof.
  intros Hc Hf Hm. revert p w ts Hc. induction Hf as [|q fr ps frs Hq Hf IH]; intros p w ts Hc; cbn [zip_with]; intros Hnn Hw Hs.
  - simpl. by rewrite app_nil_r, Z.add_0_r.
  - destruct Hc as (-> & Hq0 & n & Hn & Hc). apply list.Forall_cons in Hnn as [Hlive Hnn]. simpl in Hlive, Hs.
    pose proof (live_sum_nonneg _ Hnn). cbn [length frame_tasks].
    assert (Hmap : mapToHost q off = q - off) by (unfold mapToHost; by rewrite (proj2 (Z.eqb_neq _ _) Hq0)).
    rewrite Hmap, (Hm _ _ Hq). cbn [mbind option_bind fst snd]. rewrite Hq in Hn. injection Hn as <-.
    rewrite u32_small by lia. rewrite IH by (done || lia). simpl. f_equal. f_equal; [lia|]. by rewrite <-app_assoc.
Qed.

(** A region with the addresses and contents of its frames. *)
Definition region_ok (frameSize : Z) (h : gmap Z (Frame T)) (pr : ParticleRegion T) (fs : list Z * list (Frame T)) : Prop :=
  is_list h (particleFrameList pr) fs.1 /\ Forall2 (fun p fr => h !! p = Some fr) fs.1 fs.2 /\
  Forall (packed frameSize) fs.2 /\ numFrames frameSize (particleFrameList pr) = Z.of_nat (length fs.2) /\
  numParticles (particleFrameList pr) = Z.of_nat (length (fs.2 ≫= frame_live)).

Definition region_pieces (pr : ParticleRegion T) (fs : list Z * list (Frame T)) : list piece := zip_with (fun p fr => (p, fr, pr)) fs.1 fs.2.

Lemma packed_length frameSize fr : packed frameSize fr -> Z.of_nat (length (frame_live fr)) = liveParticles fr.
Proof. intros (Hl & Hb & ->). rewrite length_take. lia. Qed.

Lemma region_pieces_sum frameSize h pr fs : region_ok frameSize h pr fs ->
  Forall (fun pc => 0 <= liveParticles pc.1.2) (region_pieces pr fs) /\ live_sum (region_pieces pr fs) = numParticles (particleFrameList pr).
Proof.
  intros (_ & Hf & Hp & _ & ->). unfold region_pieces. destruct fs as [ps frs]. simpl in *. induction Hf as [|p fr ps frs Hpf Hf IH]; [done|].
  apply list.Forall_cons in Hp as [Hp1 Hp]. destruct (IH Hp) as [Hnn Hs]. cbn [zip_with]. split.
  - constructor; [simpl; destruct Hp1; lia|done].
  - rewrite bind_cons, length_app, Nat2Z.inj_add, <-Hs, (packed_length _ _ Hp1). done.
Qed.

Lemma region_pieces_nonneg frameSize h prs fss : Forall2 (region_ok frameSize h) prs fss ->
  Forall (fun pc : piece => 0 <= liveParticles pc.1.2) (concat (zip_with region_pieces prs fss)).
Proof.
  induction 1 as [|pr fs prs fss Hr Hf IH]; [constructor|]. cbn [zip_with concat]. apply Forall_app_2; [|done].
  by destruct (region_pieces_sum _ _ _ _ Hr).
Qed.

Lemma region_tasks_spec frameSize h hm off box prs fss w ts :
  host_mirror h off hm -> prs = take (length fss) box -> Forall2 (region_ok frameSize h) prs fss ->
  let l := concat (zip_with region_pieces prs fss) in
  0 <= w -> w + live_sum l < 2 ^ 32 ->
  region_tasks frameSize (length fss) box hm off (w, ts) = Some (w + live_sum l, ts ++ tasks_of off w l).
Proof.
  intros Hm Hprs Hf. revert box w ts Hprs. induction Hf as [|pr fs prs fss Hr Hf IH]; intros box w ts Hprs; cbn [zip_with concat]; intros Hw Hs.
  - simpl. by rewrite app_nil_r, Z.add_0_r.
  - destruct box as [|pr' box]; [done|]. injection Hprs as <- Hprs. rewrite live_sum_app in *. cbn [length region_tasks].
    destruct (region_pieces_sum _ _ _ _ Hr) as [Hnn Hsum]. pose proof (live_sum_nonneg _ Hnn).
    pose proof (live_sum_nonneg _ (region_pieces_nonneg _ _ _ _ Hf)).
    assert (Hst : (if numFrames frameSize (particleFrameList pr) =? 0 then Some (w, ts)
      else frame_tasks (Z.to_nat (numFrames frameSize (particleFrameList pr))) hm off (m_firstNode (particleFrameList pr)) pr (w, ts)) =
      Some (w + live_sum (region_pieces pr fs), ts ++ tasks_of off w (region_pieces pr fs))).
    { destruct Hr as (Hl & Hfr & Hp & Hn & Hnp). rewrite Hn, Nat2Z.id. destruct (Z.eqb_spec (Z.of_nat (length fs.2)) 0) as [Hz|Hz].
      - destruct fs as [ps [|fr frs]]; [|simpl in Hz; lia]. simpl in Hfr. inversion Hfr; subst. unfold region_pieces. simpl.
        by rewrite app_nil_r, Z.add_0_r.
      - apply (frame_tasks_spec h); [by apply is_list_chain|done|done|done|done|]. unfold region_pieces in *. lia. }
    rewrite Hst. cbn [mbind option_bind]. rewrite IH by (done || lia). rewrite tasks_of_app, app_assoc, Z.add_assoc. done.
Qed.

Lemma total_particles_spec frameSize h box prs fss t :
  prs = take (length fss) box -> Forall2 (region_ok frameSize h) prs fss ->
  let l := concat (zip_with region_pieces prs fss) in
  0 <= t -> t + live_sum l < 2 ^ 32 -> total_particles (length fss) box t = Some (t + live_sum l).
Proof.
  intros Hprs Hf. revert box t Hprs. induction Hf as [|pr fs prs fss Hr Hf IH]; intros box t Hprs; cbn [zip_with concat]; intros Ht Hs.
  - simpl. by rewrite Z.add_0_r.
  - destruct box as [|pr' box]; [done|]. injection Hprs as <- Hprs. rewrite live_sum_app in *. cbn [length total_particles].
    destruct (region_pieces_sum _ _ _ _ Hr) as [Hnn <-]. pose proof (live_sum_nonneg _ Hnn).
    pose proof (live_sum_nonneg _ (region_pieces_nonneg _ _ _ _ Hf)).
    rewrite u32_small by lia. rewrite IH by (done || lia). f_equal. lia.
Qed.

(** *** Running the tasks *)

Definition piece_values (q : TagPath) (pc : piece) : list (value T) := out_values pc.2 (frame_live pc.1.2) q.

Lemma splice_fill (done vals : list (value T)) (k : nat) : (length vals <= k)%nat ->
  splice (length done) (map Some vals) (map Some done ++ replicate k None) = map Some (done ++ vals) ++ replicate (k - length vals) None.
Proof.
  intros Hk. unfold splice. rewrite take_app_le, take_ge by (rewrite length_map; lia). rewrite length_map, drop_app_ge by (rewrite length_map; lia).
  rewrite length_map, drop_replicate, map_app, <-app_assoc. do 3 f_equal. lia.
Qed.

Lemma run_tasks_spec frameSize r hm off l d (w : nat) (done : TagPath -> list (value T)) :
  output_ok r -> dyn_ok r d -> Forall (fun pc : piece => packed frameSize pc.1.2 /\ hm !! (pc.1.1 - off) = Some pc.1.2) l ->
  Z.of_nat (size_ d) = Z.of_nat w + live_sum l ->
  (forall q, q ∈ GetLeafPaths r [] -> length (done q) = w /\ dyn_getLeaf r q d = Some (map Some (done q) ++ replicate (size_ d - w) None)) ->
  exists d', foldl (run_task r hm) (Some d) (tasks_of off (Z.of_nat w) l) = Some d' /\ dyn_ok r d' /\ size_ d' = size_ d /\
    forall q, q ∈ GetLeafPaths r [] -> dyn_getLeaf r q d' = Some (map Some (done q ++ (l ≫= piece_values q))).
Proof.
  intros Hr Hd Hl. revert d w done Hd. induction Hl as [|[[p fr] pr] l [Hp Hfr] Hl IH]; intros d w done Hd Hsz Hdone; simpl in *.
  - exists d. split_and!; [done..|]. intros q Hq. destruct (Hdone q Hq) as [_ ->]. rewrite app_nil_r. replace (size_ d - w)%nat with 0%nat by lia. by rewrite app_nil_r.
  - assert (Hrest : 0 <= live_sum l).
    { apply live_sum_nonneg. eapply list.Forall_impl; [exact Hl|]. intros pc [(_ & Hb & _) _]. lia. }
    pose proof Hp as (Hlen & Hb & Hlive).
    destruct (copy_frame_spec r Hr fr pr (Z.to_nat (liveParticles fr)) w ltac:(lia) d Hd ltac:(lia)) as (d1 & He & Hd1 & Hs1 & Hw).
    rewrite Hfr, Nat2Z.id. cbn [mbind option_bind]. rewrite He.
    destruct (IH d1 (w + Z.to_nat (liveParticles fr))%nat (fun q => done q ++ out_values pr (frame_live fr) q)) as (d2 & He2 & Hd2 & Hs2 & Hg2); [done|lia| |].
    + intros q Hq. destruct (Hdone q Hq) as [Hlq Hgq]. pose proof (out_values_length r Hr fr pr (Z.to_nat (liveParticles fr)) ltac:(lia) q Hq) as Hvl.
      rewrite <-Hlive in Hvl. rewrite length_app, Hlq, Hvl. split; [done|]. rewrite (Hw q _ Hgq), decide_True by done. rewrite <-Hlive, Hs1, <-Hlq.
      rewrite splice_fill by lia. f_equal. f_equal. f_equal. lia.
    + exists d2. rewrite Nat2Z.inj_add, Z2Nat.id in He2 by lia. split_and!; [done|done|congruence|]. intros q Hq. rewrite Hg2 by done. unfold piece_values at 2.
      cbn [fst snd]. by rewrite <-app_assoc.
Qed.

(** ** The buffer as rows *)

(** The particles of the regions, each with its region, in the order of regions, frames and slots. *)
Definition all_particles (prs : list (ParticleRegion T)) (fss : list (list Z * list (Frame T))) : list (ParticleRegion T * Particle T) :=
  concat (zip_with (fun pr fs => map (pair pr) (fs.2 ≫= frame_live)) prs fss).

Lemma bind_map_pair {A B} (pr : A) (l : list B) {C} (g : A * B -> C) : map g (map (pair pr) l) = map (fun x => g (pr, x)) l.
Proof. by rewrite map_map. Qed.

Lemma pieces_values frameSize h prs fss q g : Forall2 (region_ok frameSize h) prs fss -> out_reader q = Some g ->
  concat (zip_with region_pieces prs fss) ≫= piece_values q = map (fun x => g x.1 x.2) (all_particles prs fss).
Proof.
  intros Hf Hg. unfold all_particles. induction Hf as [|pr [ps frs] prs fss Hr Hf IH]; [done|]. cbn [zip_with concat].
  rewrite bind_app, map_app, IH. f_equal. destruct Hr as (_ & Hfr & _). unfold region_pieces. simpl in *. clear -Hfr Hg.
  induction Hfr as [|p fr ps frs _ Hfr IHf]; [done|]. cbn [zip_with]. rewrite !bind_cons, map_app, map_app, IHf. f_equal.
  unfold piece_values, out_values. cbn [fst snd]. by rewrite Hg, bind_map_pair.
Qed.

Lemma pieces_count frameSize h prs fss : Forall2 (region_ok frameSize h) prs fss ->
  live_sum (concat (zip_with region_pieces prs fss)) = Z.of_nat (length (all_particles prs fss)).
Proof.
  unfold all_particles. induction 1 as [|pr fs prs fss Hr Hf IH]; [done|]. cbn [zip_with concat].
  rewrite live_sum_app, length_app, Nat2Z.inj_add, <-IH, length_map. f_equal.
  destruct (region_pieces_sum _ _ _ _ Hr) as [_ ->]. by destruct Hr as (_ & _ & _ & _ & ->).
Qed.

Lemma pieces_ok frameSize h hm off prs fss : host_mirror h off hm -> Forall2 (region_ok frameSize h) prs fss ->
  Forall (fun pc : piece => packed frameSize pc.1.2 /\ hm !! (pc.1.1 - off) = Some pc.1.2) (concat (zip_with region_pieces prs fss)).
Proof.
  intros Hm. induction 1 as [|pr [ps frs] prs fss Hr Hf IH]; [constructor|]. cbn [zip_with concat]. apply Forall_app_2; [|done].
  destruct Hr as (_ & Hfr & Hp & _). unfold region_pieces. simpl in *. clear -Hm Hfr Hp. induction Hfr as [|p fr ps frs Hpf Hfr IHf]; [constructor|].
  apply list.Forall_cons in Hp as [Hp1 Hp]. cbn [zip_with]. constructor; [split; [done|by apply Hm]|by apply IHf].
Qed.

Lemma tasks_in_bounds frameSize h hm off prs fss r d : host_mirror h off hm -> Forall2 (region_ok frameSize h) prs fss -> output_ok r -> dyn_ok r d ->
  size_ d = length (all_particles prs fss) -> (forall q, q ∈ GetLeafPaths r [] -> dyn_getLeaf r q d = Some (replicate (size_ d) None)) ->
  exists d', foldl (run_task r hm) (Some d) (tasks_of off 0 (concat (zip_with region_pieces prs fss))) = Some d' /\ dyn_ok r d' /\ size_ d' = size_ d /\
    forall p g, p ∈ GetLeafPaths r [] -> out_reader p = Some g -> dyn_getLeaf r p d' = Some (map (fun x => Some (g x.1 x.2)) (all_particles prs fss)).
Proof.
  intros Hm Hf Hr Hd Hsz Hempty.
  destruct (run_tasks_spec frameSize r hm off (concat (zip_with region_pieces prs fss)) d 0 (fun _ => [])) as (d' & He & Hd' & Hs & Hg);
    [done|done|by eapply pieces_ok|rewrite (pieces_count frameSize h) by done; lia|intros q Hq; split; [done|]; rewrite Nat.sub_0_r; by apply Hempty|].
  exists d'. split_and!; [done..|]. intros p g Hp Hg'. rewrite Hg by done. cbn [app]. by rewrite (pieces_values frameSize h _ _ p g Hf Hg'), map_map.
Qed.

(** The columns hold the particles.  When the frames of the buffer are packed and as many as the particle counts of its
    regions ask for, the copy either runs out of memory and leaves no row, or gives every leaf of the
    output record one row for every live particle, in the order of regions, frames and slots; a row holds the field
    of that particle, read through the host mirror, and in the leaves of the position the coordinate in the domain:
    the origin of the particle's region plus its relative position.  No write leaves a column. *)
Theorem output_rows allocates grown frameSize (r : record leaf_type) h hm off pr fss (d : Dyn) k :
  (forall c n, (n <= grown c n)%nat) -> output_ok r -> dyn_ok r d -> is_Some (pr_buffer pr) -> prbuf_wf pr -> host_mirror h off hm ->
  Forall2 (region_ok frameSize h) (regions_of pr) fss -> Z.of_nat (length (all_particles (regions_of pr) fss)) < 2 ^ 32 ->
  match CopyParticlesToDynSoA allocates grown frameSize r hm off (pr, (d, k)) with
  | (Ret _, (pr', (d', _))) =>
      pr' = synchronize pr /\ dyn_ok r d' /\ size_ d' = length (all_particles (regions_of pr) fss) /\
      forall p g, p ∈ GetLeafPaths r [] -> out_reader p = Some g ->
        dyn_getLeaf r p d' = Some (map (fun x => Some (g x.1 x.2)) (all_particles (regions_of pr) fss))
  | (Throw e w, (pr', (d', _))) => e = bad_alloc /\ dyn_ok r d' /\ size_ d' = 0%nat
  | _ => False
  end.
Proof.
  intros Hg Hr Hd [buffer Hbuf] Hwf Hm Hf Hlim. unfold CopyParticlesToDynSoA. change (pr_size (synchronize pr)) with (pr_size pr).
  assert (Hbox : exists box, pr_buffer (synchronize pr) = Some (mkHD box box) /\ regions_of pr = take (pr_size pr) box /\ length (regions_of pr) = pr_size pr).
  { exists (deviceData buffer). rewrite regions_of_length by done. unfold regions_of, getDeviceDataBox. destruct pr as [? ? ? ?]. simpl in *. by subst. }
  destruct Hbox as (box & -> & Hregs & Hlen). cbn [hostData]. pose proof (Forall2_length _ _ _ Hf) as Hlf. rewrite Hlf in Hlen. rewrite <-Hlen in Hregs |- *.
  pose proof (pieces_count frameSize h _ _ Hf) as Hcount.
  rewrite (total_particles_spec frameSize h box _ fss 0 Hregs Hf) by lia. rewrite Hcount, Z.add_0_l, Nat2Z.id.
  pose proof (discardAndResize_spec (fun _ : leaf_type => VInt 0) allocates grown Hg r d k (length (all_particles (regions_of pr) fss)) Hd) as Hdr.
  destruct (discardAndResize allocates grown _ (d, k)) as [[u|e w|w|] [d1 k1]]; try done.
  - destruct Hdr as (Hd1 & Hs1 & Hrows).
    rewrite (region_tasks_spec frameSize h hm off box _ fss 0 [] Hm Hregs Hf) by lia. cbn [mbind option_bind app].
    destruct (tasks_in_bounds frameSize h hm off (regions_of pr) fss r d1) as (d2 & -> & Hd2 & Hs2 & Hg2); [done..| |].
    + intros q Hq. rewrite Hs1. apply Hrows. by apply dyn_getLeaf_leaf.
    + by split_and!; [|done|congruence|].
  - destruct Hdr as [(_ & Hbig & _)|(-> & Hd1 & Hs1 & _)]; [lia|]. by split_and!.
Qed.
End copy.

(** ** A concrete copy *)

Section witnesses.
Local Open Scope Z_scope.

Definition three_full_frames : gmap Z (Frame Z) := <[48 := mkFrame [part0 1; part0 0] 1 0]> two_frames.
(** The mirror of the heap, 8 below. *)
Definition three_mirrored : gmap Z (Frame Z) :=
  <[40 := mkFrame [part0 1; part0 0] 1 0]> (<[8 := mkFrame [part0 1; part0 1] 2 32]> (<[24 := mkFrame [part0 1; part0 0] 1 0]> ∅)).
Definition region_frames_ab : list (list Z * list (Frame Z)) :=
  [([16; 32], [mkFrame [part0 1; part0 1] 2 32; mkFrame [part0 1; part0 0] 1 0]); ([48], [mkFrame [part0 1; part0 0] 1 0])].

Lemma three_mirrored_ok : host_mirror three_full_frames 8 three_mirrored.
Proof.
  intros p fr Hp. unfold three_full_frames, two_frames in Hp. rewrite !lookup_insert_Some, lookup_empty in Hp.
  destruct Hp as [[<- <-]|[_ [[<- <-]|[_ [[<- <-]|[_ [=]]]]]]]; reflexivity.
Defined.

Lemma region_frames_ab_ok : Forall2 (region_ok 2 three_full_frames) (regions_of pr_ab) region_frames_ab.
Proof.
  assert (Hp : Forall (packed 2) [mkFrame [part0 1; part0 1] 2 32; mkFrame [part0 1; part0 0] 1 0]).
  { repeat constructor; (reflexivity || (simpl; lia)). }
  apply Forall2_cons; split; [|apply Forall2_cons; split; [|by apply Forall2_nil]]; unfold region_ok; cbn [fst snd].
  - split; [apply is_listb_sound; vm_compute; reflexivity|]. split; [|split; [exact Hp|split; reflexivity]].
    apply Forall2_cons; split; [reflexivity|]. apply Forall2_cons; split; [reflexivity|by apply Forall2_nil].
  - split; [apply is_listb_sound; vm_compute; reflexivity|]. split; [apply Forall2_cons; split; [reflexivity|by apply Forall2_nil]|].
    split; [|split; reflexivity]. inversion Hp as [|? ? ? Hp2]; subst. exact Hp2.
Defined.

(** Four particles of two regions: the position is shifted by the region's origin, the mass is copied. *)
Lemma output_rows_witness :
  exists d' k', CopyParticlesToDynSoA (D := dim3) (fun _ => true) (fun c n => n) 2 (OutputParticleRecord (D := dim3)) three_mirrored 8
      (pr_ab, (DynSoA_default (OutputParticleRecord (D := dim3)), 0%nat)) = (Ret tt, (synchronize pr_ab, (d', k'))) /\
    size_ d' = 4%nat /\
    dyn_getLeaf (OutputParticleRecord (D := dim3)) [position_t; axis_tag ax_x] d' = Some [Some (VReal 2); Some (VReal 2); Some (VReal 2); Some (VReal 6)] /\
    dyn_getLeaf (OutputParticleRecord (D := dim3)) [mass_t] d' = Some [Some (VReal 5); Some (VReal 5); Some (VReal 5); Some (VReal 5)].
Proof.
  pose proof (proj1 (OutputParticleRecord_ok (D := dim3) (T := Z))) as Hr.
  pose proof (output_rows (D := dim3) (fun _ => true) (fun c n => n) 2 (OutputParticleRecord (D := dim3)) three_full_frames three_mirrored 8 pr_ab region_frames_ab
    (DynSoA_default (OutputParticleRecord (D := dim3))) 0 (fun _ _ => le_n _) Hr (DynSoA_default_ok _ (proj1 Hr)) (ex_intro _ _ eq_refl) (conj eq_refl (le_n _)) three_mirrored_ok
    region_frames_ab_ok ltac:(simpl; lia)) as Hw.
  destruct (CopyParticlesToDynSoA _ _ _ _ _ _ _) as [[[]|e w|w|] [pr' [d' k']]] eqn:E; [|exfalso; vm_compute in E; discriminate E|contradiction..].
  destruct Hw as (-> & _ & Hs & Hg). exists d', k'. split; [reflexivity|]. split; [exact Hs|]. split; (erewrite Hg; [|apply list_elem_of_In; simpl; tauto|reflexivity]; reflexivity).
Defined.
End witnesses.
