(* ===== verification/OpenPMD.v ===== *)
(** * Particle output

    Models plugins/openPMD: the metadata of ParticleTraits.hpp, OpenPMDOutput::writeStep and its helpers, and
    OpenPMDPlugin::notify.  The openPMD library is not part of the sources: what the writer does is the list of its calls, in
    order, with the data the pointers lead to.  The heap mirror and its offset, the result of syncHeapToHost, are parameters. *)
From Stdlib Require Import ZArith Lia Ascii.
From stdpp Require Import base list numbers strings gmap.
From S2P Require Import Prelude Scalar Topology Aabb FrameList Regions Outcome DataConnector Species TimeSlice TagPath Records AccessSet RecordIterate DynSoA FrameColumns FrameIndex CopyOut.

(** ** Metadata *)

(** [OpenPMDTrait]: the exponents of length, mass, time, current, temperature, amount and luminosity; the unit in SI. *)
Record trait : Type := mkTrait { trait_record : text; unitDimension : list Z; unitSI : Z }.

Definition OpenPMDTrait (t : Tag) : option trait :=
  if decide (t = particleId_t) then Some (mkTrait (txt "id") [0; 0; 0; 0; 0; 0; 0]%Z 1)
  else if decide (t = position_t) then Some (mkTrait (txt "position") [1; 0; 0; 0; 0; 0; 0]%Z 1)
  else if decide (t = mass_t) then Some (mkTrait (txt "mass") [0; 1; 0; 0; 0; 0; 0]%Z 1)
  else if decide (t = vel_t) then Some (mkTrait (txt "velocity") [1; 0; -1; 0; 0; 0; 0]%Z 1)
  else if decide (t = density_t) then Some (mkTrait (txt "mass_density") [-3; 1; 0; 0; 0; 0; 0]%Z 1)
  else if decide (t = internalEnergy_t) then Some (mkTrait (txt "specific_internal_energy") [2; 0; -2; 0; 0; 0; 0]%Z 1)
  else None.

Section writer.
Context {D : CartesianDim} {T : Type} `{Scalar T}.
Abbreviation Dyn := (@DynSoA leaf_type (value T)).

(** ** Calls of the library *)

(** A component is named by its record and its own name; the library's name for a scalar component is [None]. *)
Inductive pmd_call : Type :=
  | SetUnitDimension (step : Z) (species rec : text) (dims : list Z)
  | ResetDataset (step : Z) (species rec : text) (comp : option text) (ty : leaf_type) (extent : nat)
  | SetUnitSI (step : Z) (species rec : text) (comp : option text) (si : Z)
  | StoreChunk (step : Z) (species rec : text) (comp : option text) (data : list (option (value T)))
  | Flush.

(** The calls for one component; reading [n] elements off a span must not leave it. *)
Definition write_component (step : Z) (sp : text) (tr : trait) (comp : option text) (ty : leaf_type) (n : nat) (span : list (option (value T))) :
    option (list pmd_call) :=
  if (n <=? length span)%nat then
    Some [ResetDataset step sp (trait_record tr) comp ty n; SetUnitSI step sp (trait_record tr) comp (unitSI tr);
          StoreChunk step sp (trait_record tr) comp (take n span)]
  else None.

Definition writeScalarField (step : Z) (sp : text) (r : record leaf_type) (t : Tag) (particles : Dyn) : option (list pmd_call) :=
  tr ← OpenPMDTrait t;
  v ← value_type_for [t] r;
  match v with
  | Leaf ty =>
      span ← dyn_getLeaf r [t] particles;
      cs ← write_component step sp tr None ty (size_ particles) span;
      Some (SetUnitDimension step sp (trait_record tr) (unitDimension tr) :: cs)
  | Node _ => None
  end.

Definition writeVectorField (step : Z) (sp : text) (r : record leaf_type) (t : Tag) (particles : Dyn) : option (list pmd_call) :=
  tr ← OpenPMDTrait t;
  v ← value_type_for [t] r;
  match v with
  | Node r' =>
      cs ← mapM (fun path =>
        v ← value_type_for path r;
        match v with
        | Leaf ty =>
            rel ← relativePath path [t];
            span ← dyn_getLeaf r path particles;
            write_component step sp tr (Some (tagPathToString rel)) ty (size_ particles) span
        | Node _ => None
        end) (GetLeafPaths r' [t]);
      Some (SetUnitDimension step sp (trait_record tr) (unitDimension tr) :: concat cs)
  | Leaf _ => None
  end.

Definition writeOneField (step : Z) (sp : text) (r : record leaf_type) (particles : Dyn) (f : Tag * value_type leaf_type) : option (list pmd_call) :=
  match f.2 with Node _ => writeVectorField step sp r f.1 particles | Leaf _ => writeScalarField step sp r f.1 particles end.

(** The species is always the one named fluid. *)
Definition writeStep (step : Z) (r : record leaf_type) (particles : Dyn) : option (list pmd_call) :=
  if (size_ particles =? 0)%nat then Some [] else
  cs ← mapM (writeOneField step (txt "fluid") r particles) r;
  Some (concat cs ++ [Flush]).

(** ** The plugin *)

Record OutputState : Type := mkOutput {
  out_connector : DataConnector (X := nat);
  out_buffers : list (PRBuffer T);
  out_allocations : nat;
  out_calls : list pmd_call
}.

Definition set_output (i : nat) (pr : PRBuffer T) (k : nat) (cs : list pmd_call) (st : OutputState) : OutputState :=
  mkOutput (out_connector st) (<[i := pr]> (out_buffers st)) k (out_calls st ++ cs).

Context `{AlpakaMath} (allocates : nat -> bool) (grown : nat -> nat -> nat) (frameSize : Z) (r : record leaf_type).

(** The body of the loop over the species. *)
Definition write_buffer (hm : gmap Z (Frame T)) (heapOffset currentStep : Z) (b : species * nat) : Host OutputState unit := fun st =>
  match out_buffers st !! b.2 with
  | None => (Undefined, st)
  | Some pr =>
      match CopyParticlesToDynSoA allocates grown frameSize r hm heapOffset (pr, (DynSoA_default r, out_allocations st)) with
      | (Ret _, (pr, (hostParticles, k))) =>
          match writeStep currentStep r hostParticles with
          | Some cs => (Ret tt, set_output b.2 pr k cs st)
          | None => (Undefined, set_output b.2 pr k [] st)
          end
      | (o, (pr, (_, k))) => (o, set_output b.2 pr k [] st)
      end
  end.

Definition notify (hm : gmap Z (Frame T)) (heapOffset currentStep : Z) : Host OutputState unit :=
  forEachSpeciesBufWithPred out_connector (HasRole OpenPMDOutput) (write_buffer hm heapOffset currentStep).
End writer.

(** ** Names of components *)

Section names.
Context {X : Type}.

(** The tags of the record have names without slashes, and different ones. *)
Definition names_ok (r : record X) : Prop :=
  Forall (fun t => ~ (slash ∈ name t) /\ name t <> []) (concat (GetLeafPaths r [])) /\
  forall t u, t ∈ concat (GetLeafPaths r []) -> u ∈ concat (GetLeafPaths r []) -> name t = name u -> t = u.

(** The record and the component of a leaf. *)
Definition component_of (p : TagPath) : option (text * option text) :=
  match p with
  | [] => None
  | t :: rest => tr ← OpenPMDTrait t; Some (trait_record tr, match rest with [] => None | _ => Some (tagPathToString rest) end)
  end.

Lemma OpenPMDTrait_inj t u tr tr' : OpenPMDTrait t = Some tr -> OpenPMDTrait u = Some tr' -> trait_record tr = trait_record tr' -> t = u.
Proof.
  unfold OpenPMDTrait. intros Ht Hu.
  repeat (match type of Ht with context [decide ?P] => destruct (decide P); [injection Ht as <-|] end);
    try done; repeat (match type of Hu with context [decide ?P] => destruct (decide P); [injection Hu as <-|] end); try done; congruence.
Qed.

Lemma map_name_inj (p q ts : list Tag) : (forall t u, t ∈ ts -> u ∈ ts -> name t = name u -> t = u) -> p ⊆ ts -> q ⊆ ts ->
  map name p = map name q -> p = q.
Proof.
  intros Hinj. revert q. induction p as [|t p IH]; intros [|u q] Hp Hq; try done. cbn [map]. intros [= Htu Hpq]. f_equal.
  - apply Hinj; [apply Hp; by left|apply Hq; by left|done].
  - apply IH; [intros x Hx; apply Hp; by right|intros x Hx; apply Hq; by right|done].
Qed.

Lemma tagPathToString_inj (p q ts : list Tag) : Forall (fun t => ~ (slash ∈ name t) /\ name t <> []) ts ->
  (forall t u, t ∈ ts -> u ∈ ts -> name t = name u -> t = u) -> p <> [] -> q <> [] -> p ⊆ ts -> q ⊆ ts ->
  tagPathToString p = tagPathToString q -> p = q.
Proof.
  intros Hts Hinj Hp Hq Hps Hqs He. apply (map_name_inj p q ts Hinj Hps Hqs).
  assert (Hsplit : forall k, k <> [] -> k ⊆ ts -> splitString (tagPathToString k) slash = map name k).
  { intros k Hk Hks. destruct k as [|t k _] using rev_ind; [done|]. rewrite list.Forall_forall in Hts. apply tagPathToString_split.
    - apply list.Forall_forall. intros u Hu. by apply Hts, Hks.
    - apply Hts, Hks, elem_of_app. right. by left. }
  by rewrite <-(Hsplit p), <-(Hsplit q), He.
Qed.

Lemma component_of_inj (r : record X) p q c : names_ok r -> p ∈ GetLeafPaths r [] -> q ∈ GetLeafPaths r [] ->
  component_of p = Some c -> component_of q = Some c -> p = q.
Proof.
  intros [Hts Hinj] Hp Hq. destruct p as [|t p]; [done|]. destruct q as [|u q]; [done|]. simpl.
  destruct (OpenPMDTrait t) as [tr|] eqn:Ht; [|done]. destruct (OpenPMDTrait u) as [tr'|] eqn:Hu; [|done]. cbn [mbind option_bind].
  intros [= <-] [= He Hc]. f_equal; [by eapply OpenPMDTrait_inj|].
  assert (Hsub : forall v k, v :: k ∈ GetLeafPaths r [] -> k ⊆ concat (GetLeafPaths r [])).
  { intros v k Hk x Hx. apply elem_of_concat. exists (v :: k). split; [by right|done]. }
  destruct p as [|t' p], q as [|u' q]; try done. injection Hc as Hc.
  eapply tagPathToString_inj; [exact Hts|exact Hinj|done|done|by eapply Hsub|by eapply Hsub|done].
Qed.
End names.

(** ** What is written *)

Section writes.
Context {D : CartesianDim} {T : Type} `{Scalar T}.
Abbreviation Dyn := (@DynSoA leaf_type (value T)).

Definition traits_ok (r : record leaf_type) : Prop := Forall (fun f => is_Some (OpenPMDTrait f.1)) r.

(** The calls for a leaf, with [rows] as the data of the leaves. *)
Definition leaf_calls (step : Z) (sp : text) (r : record leaf_type) (n : nat) (rows : TagPath -> option (list (option (value T)))) (p : TagPath) : list (@pmd_call T) :=
  match p with
  | [] => []
  | t :: rest =>
      match OpenPMDTrait t, value_type_for p r, rows p with
      | Some tr, Some (Leaf ty), Some data =>
          let comp := match rest with [] => None | _ => Some (tagPathToString rest) end in
          [ResetDataset step sp (trait_record tr) comp ty n; SetUnitSI step sp (trait_record tr) comp (unitSI tr);
           StoreChunk step sp (trait_record tr) comp data]
      | _, _, _ => []
      end
  end.

Definition field_calls (step : Z) (sp : text) (r : record leaf_type) (n : nat) (rows : TagPath -> option (list (option (value T)))) (f : Tag * value_type leaf_type) : list (@pmd_call T) :=
  match OpenPMDTrait f.1 with
  | Some tr => SetUnitDimension step sp (trait_record tr) (unitDimension tr) :: (FieldLeafPaths [] f.1 f.2 ≫= leaf_calls step sp r n rows)
  | None => []
  end.

Lemma write_component_all step sp tr comp ty n (span : list (option (value T))) : length span = n ->
  write_component step sp tr comp ty n span =
  Some [ResetDataset step sp (trait_record tr) comp ty n; SetUnitSI step sp (trait_record tr) comp (unitSI tr); StoreChunk step sp (trait_record tr) comp span].
Proof. intros Hl. unfold write_component. rewrite (proj2 (Nat.leb_le _ _)) by lia. by rewrite take_ge by lia. Qed.

Lemma writeOneField_spec step sp r (d : Dyn) f : dyn_ok r d -> f ∈ r -> is_Some (OpenPMDTrait f.1) ->
  writeOneField step sp r d f = Some (field_calls step sp r (size_ d) (fun p => dyn_getLeaf r p d) f).
Proof.
  intros Hd Hf [tr Htr]. pose proof Hd as (Hok & Hty & _). pose proof Hok as [Hnd _]%value_ok_node.
  assert (Hfi : field_at f.1 r = Some f) by (by apply field_at_spec).
  assert (Hv : value_type_for [f.1] r = Some f.2) by (rewrite resolvePathToField_value by done; simpl; by rewrite Hfi).
  assert (Hrows : forall p, p ∈ GetLeafPaths r [] -> exists rows ty, dyn_getLeaf r p d = Some rows /\ length rows = size_ d /\ value_type_for p r = Some (Leaf ty)).
  { intros p Hp. pose proof (proj2 (dyn_getLeaf_leaf r p d Hd) Hp) as [rows Hg]. rewrite GetLeafPaths_root in Hp. pose proof (leaf_paths_nonempty _ _ Hp).
    apply leaf_paths_value in Hp as [ty Ht]; [|done]. exists rows, ty. split; [done|]. split; [by apply (dyn_getLeaf_length r p d)|by rewrite resolvePathToField_value]. }
  unfold writeOneField, field_calls. rewrite Htr. destruct f as [t [ty|r']]; simpl in *.
  - unfold writeScalarField. rewrite Htr, Hv. cbn [mbind option_bind].
    destruct (Hrows [t]) as (rows & ty' & Hg & Hl & Hv').
    { rewrite GetLeafPaths_root. apply leaf_paths_value; [done|]. exists ty. simpl. by rewrite Hfi. }
    rewrite Hg. cbn [mbind option_bind]. rewrite write_component_all by done. reflexivity.
  - unfold writeVectorField. rewrite Htr, Hv. cbn [mbind option_bind]. change (GetLeafPaths r' (append [] [t])) with (GetLeafPaths r' [t]).
    assert (Hin : forall p, p ∈ GetLeafPaths r' [t] -> exists rest, p = t :: rest /\ rest <> [] /\ p ∈ GetLeafPaths r []).
    { intros p. rewrite GetLeafPaths_spec. intros (q & -> & Hq)%list_elem_of_fmap. exists q. split; [done|]. split; [by eapply leaf_paths_nonempty|].
      assert (Hok' : value_ok (Node r') = true) by (eapply (value_at_ok [t]); [exact Hok|]; simpl; by rewrite Hfi).
      apply leaf_paths_value in Hq as [ty Hq]; [|done]. rewrite GetLeafPaths_root. apply leaf_paths_value; [done|]. exists ty. simpl. by rewrite Hfi. }
    rewrite (mapM_total _ (leaf_calls step sp r (size_ d) (fun p => dyn_getLeaf r p d))); [cbn [mbind option_bind]; by rewrite bind_concat_map|].
    intros p Hp. destruct (Hin p Hp) as (rest & -> & Hne & Hp'). destruct (Hrows _ Hp') as (rows & ty & Hg & Hl & Hv').
    rewrite Hv'. cbn [mbind option_bind]. rewrite (proj2 (relativePath_spec (t :: rest) [t] rest)) by done. cbn [mbind option_bind].
    rewrite Hg. cbn [mbind option_bind]. rewrite write_component_all by done. unfold leaf_calls. rewrite Htr, Hv', Hg. by destruct rest.
Qed.
Lemma leaf_field (r : record leaf_type) p : p ∈ GetLeafPaths r [] -> exists f, f ∈ r /\ p ∈ FieldLeafPaths [] f.1 f.2.
Proof. intros (l & Hl & (f & -> & Hf)%list_elem_of_fmap)%elem_of_concat. by exists f. Qed.

Lemma field_leaf (r : record leaf_type) f p : f ∈ r -> p ∈ FieldLeafPaths [] f.1 f.2 -> p ∈ GetLeafPaths r [].
Proof. intros Hf Hp. apply elem_of_concat. eexists. split; [exact Hp|]. apply list_elem_of_fmap. by exists f. Qed.

(** All calls of a step. *)
Definition step_calls (step : Z) (sp : text) (r : record leaf_type) (n : nat) (rows : TagPath -> option (list (option (value T)))) : list (@pmd_call T) :=
  (r ≫= field_calls step sp r n rows) ++ [Flush].

Lemma writeStep_spec step r (d : Dyn) rows : dyn_ok r d -> traits_ok r -> size_ d <> 0 ->
  (forall p, p ∈ GetLeafPaths r [] -> rows p = dyn_getLeaf r p d) ->
  writeStep step r d = Some (step_calls step (txt "fluid") r (size_ d) rows).
Proof.
  intros Hd Ht Hn Hrows. unfold writeStep, step_calls. rewrite (proj2 (Nat.eqb_neq _ _) Hn).
  rewrite (mapM_total _ (field_calls step (txt "fluid") r (size_ d) rows)); [cbn [mbind option_bind]; by rewrite bind_concat_map|].
  intros f Hf. rewrite writeOneField_spec; [|done|done|by apply (proj1 (list.Forall_forall _ _) Ht)]. f_equal. unfold field_calls.
  destruct (OpenPMDTrait f.1) as [tr|]; [|done]. f_equal. pose proof (field_leaf r f) as Hl. revert Hl. generalize (FieldLeafPaths [] f.1 f.2) as ps.
  induction ps as [|p ps IH]; intros Hl; [done|]. rewrite !bind_cons. f_equal.
  - unfold leaf_calls. destruct p as [|t p]; [done|]. rewrite Hrows; [done|]. apply Hl; [done|by left].
  - apply IH. intros q Hf' Hq. apply Hl; [done|by right].
Qed.

Lemma components_distinct (r : record leaf_type) : record_ok r = true -> traits_ok r -> names_ok r ->
  NoDup (map component_of (GetLeafPaths r [])) /\ Forall is_Some (map component_of (GetLeafPaths r [])).
Proof.
  intros Hok Ht Hn.
  assert (Hsome : forall p, p ∈ GetLeafPaths r [] -> is_Some (component_of p)).
  { intros p Hp. destruct (leaf_field r p Hp) as (f & Hf & Hpf). assert (exists rest, p = f.1 :: rest) as [rest ->].
    { destruct f as [t [ty|r']]; [apply list_elem_of_singleton in Hpf as ->; by eexists|].
      change (p ∈ GetLeafPaths r' [t]) in Hpf. rewrite GetLeafPaths_spec in Hpf. apply list_elem_of_fmap in Hpf as (q & -> & _). by exists q. }
    destruct (proj1 (list.Forall_forall _ _) Ht f Hf) as [tr Htr]. simpl. rewrite Htr. by eexists. }
  split; [|apply List.Forall_map, list.Forall_forall; intros p Hp; by apply Hsome].
  apply NoDup_fmap_2_strong; [|rewrite GetLeafPaths_root; by apply leaf_paths_NoDup].
  intros p q Hp Hq He. destruct (Hsome p Hp) as [c Hc]. apply (component_of_inj r p q c); [done..|]. by rewrite <-He.
Qed.
End writes.

(** C21: a notification writes the fluid.  When the default species has a buffer, [notify] either runs out of memory
    and has called nothing of the library, or has made exactly the calls the output record stands for: for every field its
    unit, then for every leaf of it a dataset as long as there are live particles, its unit and the
    column, with one value for every live particle in the order of regions, frames and slots; then one flush; and
    nothing at all when there is no particle.  No two leaves share a component, so none overwrites another.  The buffer is
    synchronised; species without the role are not touched. *)
Theorem notify_writes {D : CartesianDim} {T} `{Scalar T} `{AlpakaMath} allocates grown frameSize (r : record leaf_type) h hm off step fss pr i
    (st : @OutputState T) :
  (forall c n, (n <= grown c n)%nat) -> output_ok (T := T) r -> traits_ok r -> names_ok r ->
  (findId (prBufId Default) (out_connector st) ≫= fun k => dataset <$> out_connector st !! k) = Some i ->
  out_buffers st !! i = Some pr -> is_Some (pr_buffer pr) -> prbuf_wf pr -> host_mirror h off hm ->
  Forall2 (region_ok frameSize h) (regions_of pr) fss -> (Z.of_nat (length (all_particles (regions_of pr) fss)) < 2 ^ 32)%Z ->
  let ps := all_particles (regions_of pr) fss in
  let rows p := (fun g => map (fun x => Some (g x.1 x.2)) ps) <$> out_reader p in
  match notify allocates grown frameSize r hm off step st with
  | (Ret _, st') =>
      out_connector st' = out_connector st /\ out_buffers st' = <[i := synchronize pr]> (out_buffers st) /\
      out_calls st' = out_calls st ++ (if (length ps =? 0)%nat then [] else step_calls step (txt "fluid") r (length ps) rows) /\
      NoDup (map component_of (GetLeafPaths r [])) /\ Forall is_Some (map component_of (GetLeafPaths r []))
  | (Throw e w, st') => e = bad_alloc /\ out_calls st' = out_calls st
  | _ => False
  end.
Proof.
  intros Hg Hr Ht Hn Hfind Hbuf Hsome Hwf Hm Hf Hlim ps rows. pose proof Hr as (Hok & _ & Hread). unfold notify, forEachSpeciesBufWithPred.
  assert (Hdc : forall b st', out_connector (write_buffer allocates grown frameSize r hm off step b st').2 = out_connector st').
  { intros b st'. unfold write_buffer. destruct (out_buffers st' !! b.2); [|done].
    destruct (CopyParticlesToDynSoA _ _ _ _ _ _ _) as [[[]|e w|w|] [pr' [d' k']]]; try done. by destruct (writeStep step r d'). }
  rewrite forEachSpeciesBuf_spec by done. change (SpeciesWithPred (HasRole OpenPMDOutput) AllTypes) with [Default]. rewrite present_cons.
  destruct (findId (prBufId Default) (out_connector st)) as [j|]; [|done]. cbn [mbind option_bind] in Hfind.
  destruct (out_connector st !! j) as [dt|]; [|done]. cbn [fmap option_fmap option_map] in Hfind. injection Hfind as Hi.
  change (present_bufs out_connector [] st) with (@nil (species * nat)). rewrite Hi. cbn [for_]. unfold mbind, Host_bind, write_buffer. cbn [fst snd].
  rewrite Hbuf. pose proof (DynSoA_default_ok (V := value T) r Hok) as Hd0.
  pose proof (output_rows allocates grown frameSize r h hm off pr fss (DynSoA_default r) (out_allocations st) Hg Hr Hd0 Hsome Hwf Hm Hf Hlim) as Hcopy.
  destruct (CopyParticlesToDynSoA _ _ _ _ _ _ _) as [[[]|e w|w|] [pr' [d' k']]]; try done; [|destruct Hcopy as [-> _]; cbn; by rewrite app_nil_r].
  destruct Hcopy as (-> & Hd' & Hsz & Hrows). fold ps in Hsz. fold ps in Hrows.
  assert (Hrows' : forall p, p ∈ GetLeafPaths r [] -> rows p = dyn_getLeaf r p d').
  { intros p Hp. destruct (Hread p Hp) as [g Hgp]. unfold rows. rewrite Hgp. by rewrite (Hrows p g Hp Hgp). }
  destruct (components_distinct r Hok Ht Hn) as [Hc1 Hc2]. destruct (Nat.eqb_spec (length ps) 0) as [Hz|Hz].
  - unfold writeStep. rewrite Hsz, (proj2 (Nat.eqb_eq _ _) Hz). by split_and!.
  - rewrite (writeStep_spec step r d' rows Hd' Ht) by (done || congruence). rewrite Hsz. by split_and!.
Qed.

(** Both output records of the program have metadata and distinct names. *)
Lemma OutputParticleRecord_names {D : CartesianDim} :
  (traits_ok OutputParticleRecord /\ names_ok OutputParticleRecord) /\ (traits_ok sod_OutputParticleRecord /\ names_ok sod_OutputParticleRecord).
Proof.
  assert (Hsub : forall r : record leaf_type, concat (GetLeafPaths r []) ⊆
      [particleId_t; position_t; mass_t; vel_t; density_t; internalEnergy_t; axis_tag ax_x; axis_tag ax_y; axis_tag ax_z] -> names_ok r).
  { intros r Hsub. split.
    - apply list.Forall_forall. intros t Ht%Hsub. revert t Ht. apply list.Forall_forall.
      repeat constructor; (discriminate || (intros Hs; apply (bool_decide_eq_true_2 _) in Hs; discriminate Hs)).
    - intros t u Ht%Hsub Hu%Hsub He. apply list_elem_of_In in Ht. apply list_elem_of_In in Hu. simpl in Ht, Hu.
      repeat (destruct Ht as [<-|Ht]; [repeat (destruct Hu as [<-|Hu]; [reflexivity || discriminate He|]); done|]). done. }
  split; (split; [repeat constructor; by eexists|apply Hsub]); dim_cases D; intros t Ht; apply list_elem_of_In; apply list_elem_of_In in Ht; simpl in *; tauto.
Qed.

(** ** A concrete notification *)

Section witnesses.
Local Open Scope Z_scope.

Definition output_state : @OutputState Z := mkOutput [mkData "PRBuf_Default" 0%nat] [pr_ab] 0 [].
#[local] Abbreviation rec3 := (OutputParticleRecord (D := dim3)).

(** Four particles: the record has four fields with eight leaves, and 29 calls are made; the masses go to one scalar dataset. *)
Lemma notify_writes_witness :
  exists st', notify (D := dim3) (fun _ => true) (fun c n => n) 2 rec3 three_mirrored 8 100 output_state = (Ret tt, st') /\
    length (out_calls st') = 29%nat /\
    out_calls st' !! 17%nat = Some (StoreChunk 100 (txt "fluid") (txt "mass") None (replicate 4 (Some (VReal 5)))) /\
    NoDup (map component_of (GetLeafPaths rec3 [])).
Proof.
  pose proof (proj1 (OutputParticleRecord_ok (D := dim3) (T := Z))) as Hr. destruct (OutputParticleRecord_names (D := dim3)) as [[Ht Hn] _].
  pose proof (notify_writes (D := dim3) (fun _ => true) (fun c n => n) 2 rec3 three_full_frames three_mirrored 8 100 region_frames_ab pr_ab 0 output_state
    (fun _ _ => le_n _) Hr Ht Hn eq_refl eq_refl (ex_intro _ _ eq_refl) (conj eq_refl (le_n _)) three_mirrored_ok region_frames_ab_ok ltac:(simpl; lia)) as Hw.
  destruct (notify _ _ _ _ _ _ _ _) as [[[]|e w|w|] st'] eqn:E; [|exfalso; vm_compute in E; discriminate E|contradiction..].
  destruct Hw as (_ & _ & Hc & Hd & _). exists st'. split; [reflexivity|]. rewrite Hc. split; [vm_compute; reflexivity|]. split; [vm_compute; reflexivity|exact Hd].
Defined.
End witnesses.
