(* ===== verification/DataSpaces.v ===== *)
(** * Index spaces of the supercell grid

    pmacc's [DataSpace] is a vector of [int], one per dimension; here a [list Z] with
    the x component first.  The file holds the vector operations the grid code uses,
    [linearize] and [mapToND] between N-dimensional and linear indices with their round
    trips, the blocks a kernel launch with a given grid dimension runs, and
    [GridLayout].  [int] arithmetic is on Z: an [int] overflow is undefined in C++, and
    the bounds the theorems give keep every index inside the grid. *)
From Stdlib Require Import ZArith Lia.
From stdpp Require Import base list list_numbers numbers strings pretty.
From S2P Require Import Prelude.
Open Scope Z_scope.

Definition DataSpace : Type := list Z.

(** ** Vector operations *)

(** [DataSpace::create(value)] of dimension [dim]. *)
Definition create (dim : nat) (value : Z) : DataSpace := replicate dim value.

(** Componentwise operators of two vectors. *)
Definition vadd (a b : DataSpace) : DataSpace := zip_with Z.add a b.
Definition vsub (a b : DataSpace) : DataSpace := zip_with Z.sub a b.
Definition vmul (a b : DataSpace) : DataSpace := zip_with Z.mul a b.
Definition vquot (a b : DataSpace) : DataSpace := zip_with Z.quot a b.

(** Operators of a vector and a scalar. *)
Definition vadd_s (a : DataSpace) (s : Z) : DataSpace := map (fun x => x + s) a.
Definition vsub_s (a : DataSpace) (s : Z) : DataSpace := map (fun x => x - s) a.
Definition smul_v (s : Z) (a : DataSpace) : DataSpace := map (fun x => s * x) a.
Definition vquot_s (a : DataSpace) (s : Z) : DataSpace := map (fun x => Z.quot x s) a.

Definition veqb (a b : DataSpace) : bool := forallb (fun '(x, y) => x =? y) (zip a b).

Definition productOfComponents (a : DataSpace) : Z := fold_left Z.mul a 1.

Definition sumOfComponents (a : DataSpace) : Z := fold_left Z.add a 0.
Definition vopp (a : DataSpace) : DataSpace := map Z.opp a.

(** [revert()]. *)
Definition revert (a : DataSpace) : DataSpace := rev a.
(** [shrink<n>()], and [shrink<n>(startIdx)], which wraps around. *)
Definition shrink (n : nat) (a : DataSpace) : DataSpace := take n a.
Definition shrink_from (n startIdx : nat) (a : DataSpace) : DataSpace :=
  map (fun i => nth ((startIdx + i) mod length a) a 0) (seq 0 n).
(** [remove<dimToRemove>()]: the loop over the components of the result. *)
Definition remove_dim (dimToRemove : nat) (a : DataSpace) : DataSpace :=
  map (fun i => nth (if (dimToRemove <=? i)%nat then S i else i) a 0) (seq 0 (pred (length a))).

(** Conversions to alpaka's vectors, which list z first, with the casts to [size_t] and
    to the 32 bit kernel index, and back to [int]. *)
Definition toAlpakaMemVec (a : DataSpace) : list Z := rev (map u64 a).
Definition toAlpakaKernelVec (a : DataSpace) : list Z := rev (map u32 a).
Definition from_alpaka (v : list Z) : DataSpace := map s32 (rev v).

(** [isOneDimensionGreaterThan]: the [int] is converted to the unsigned type compared with. *)
Definition isOneDimensionGreaterThan (a other : DataSpace) : bool :=
  existsb (fun '(x, o) => o <? u64 x) (zip a other).

(** [toString]; the enclosing symbols are the first and the second of [enclosings], or
    one for both sides. *)
Definition toString (separator enclosings : string) (a : DataSpace) : string :=
  let letter (i : nat) :=
    match String.get (i mod String.length enclosings) enclosings with
    | Some c => String c EmptyString
    | None => EmptyString
    end in
  (letter 0%nat +:+ String.concat separator (map pretty a) +:+ letter 1%nat)%string.

(** ** Linear indices *)

(** [linearize(size, idx)]: the loop goes down from the last dimension but one; of
    [size], only the first [dim - 1] components are read. *)
Definition linearize (size idx : DataSpace) : Z :=
  foldr (fun '(s, x) linearIdx => linearIdx * s + x) (List.last idx 0)
    (zip (take (pred (length size)) size) (removelast idx)).

(** [pitchExtents]: the running products of the first [dim - 1] sizes. *)
Fixpoint pitch_from (p : Z) (size : DataSpace) : list Z :=
  match size with
  | [] => []
  | s :: size => s * p :: pitch_from (s * p) size
  end.
Definition pitchExtents (size : DataSpace) : list Z := pitch_from 1 (take (pred (length size)) size).

(** The loop of [mapToND] from the highest pitch down; the last component written is
    component 0. *)
Fixpoint peel (pitches : list Z) (linearIdx : Z) (result : DataSpace) : DataSpace :=
  match pitches with
  | [] => linearIdx :: result
  | p :: pitches => peel pitches (linearIdx - p * Z.quot linearIdx p) (Z.quot linearIdx p :: result)
  end.
Definition mapToND (size : DataSpace) (linearIdx : Z) : DataSpace := peel (rev (pitchExtents size)) linearIdx [].

(** ** The blocks of a launch *)

(** [v] is a block index of a grid of [dims] blocks. *)
Definition in_range (dims v : DataSpace) : Prop := Forall2 (fun n x => 0 <= x < n) dims v.

(** Every block index of a grid of [dims] blocks, x fastest. *)
Fixpoint blocks (dims : DataSpace) : list DataSpace :=
  match dims with
  | [] => [[]]
  | n :: dims => blocks dims ≫= fun v => map (fun x => x :: v) (seqZ 0 n)
  end.

(** ** GridLayout *)

Record GridLayout := mkGridLayout { m_sizeND : DataSpace; m_guardSizeND : DataSpace }.
Definition GridLayout_default (dim : nat) : GridLayout := mkGridLayout (create dim 1) (create dim 0).
Definition sizeND (l : GridLayout) : DataSpace := vadd (vadd l.(m_sizeND) l.(m_guardSizeND)) l.(m_guardSizeND).
Definition sizeWithoutGuardND (l : GridLayout) : DataSpace := l.(m_sizeND).
Definition guardSizeND (l : GridLayout) : DataSpace := l.(m_guardSizeND).

(** ** Laws *)

(** The product as a fold from the right. *)
Fixpoint vol (d : DataSpace) : Z := match d with [] => 1 | n :: d => n * vol d end.

Lemma fold_mul_acc d a : fold_left Z.mul d a = a * vol d.
Proof. revert a. induction d as [|n d IH]; intros a; simpl; [lia|]. rewrite IH. lia. Qed.

Lemma product_vol d : productOfComponents d = vol d.
Proof. unfold productOfComponents. rewrite fold_mul_acc. lia. Qed.

Lemma vol_app d e : vol (d ++ e) = vol d * vol e.
Proof. induction d as [|n d IH]; simpl; [lia|]. rewrite IH. lia. Qed.

Lemma vol_nonneg d : Forall (fun n => 0 <= n) d -> 0 <= vol d.
Proof. induction 1; simpl; nia. Qed.

Lemma in_range_length dims v : in_range dims v -> length v = length dims.
Proof. intros H. symmetry. by eapply Forall2_length. Qed.

Lemma in_range_vol dims v : in_range dims v -> 0 < vol dims.
Proof. induction 1; simpl; nia. Qed.

Lemma elem_of_blocks dims v : v ∈ blocks dims <-> in_range dims v.
Proof.
  unfold in_range. revert v. induction dims as [|n dims IH]; intros v; cbn [blocks].
  - rewrite list_elem_of_singleton. split; [intros ->; constructor|]. by intros H; inversion H.
  - rewrite list_elem_of_bind. split.
    + intros (w & Hv & Hw). apply list_elem_of_fmap in Hv as (x & -> & Hx).
      apply elem_of_seqZ in Hx. constructor; [lia|]. by apply IH.
    + intros H. inversion H as [|? x ? w Hx Hw E]; subst. exists w. split; [|by apply IH].
      apply list_elem_of_fmap. exists x. split; [done|]. apply elem_of_seqZ. lia.
Qed.

Lemma NoDup_cons_each (l : list Z) v : NoDup l -> NoDup (map (fun x => x :: v) l).
Proof. intros H. apply NoDup_fmap_2; [|done]. intros x y E. by injection E. Qed.

Lemma NoDup_blocks dims : NoDup (blocks dims).
Proof.
  induction dims as [|n dims IH]; cbn [blocks]; [apply NoDup_singleton|].
  induction IH as [|v l Hv Hl IHl]; [constructor|].
  change (NoDup (map (fun x => x :: v) (seqZ 0 n) ++ (l ≫= fun v => map (fun x => x :: v) (seqZ 0 n)))).
  apply list.NoDup_app. split; [apply NoDup_cons_each, NoDup_seqZ|]. split; [|done].
  intros w Hw Hin. apply list_elem_of_fmap in Hw as (x & -> & _).
  apply list_elem_of_bind in Hin as (u & Hu & Hul). apply list_elem_of_fmap in Hu as (y & E & _).
  injection E as _ ->. done.
Qed.

Lemma in_range_iff dims v :
  in_range dims v <-> length v = length dims /\ forall i n x, dims !! i = Some n -> v !! i = Some x -> 0 <= x < n.
Proof.
  unfold in_range. rewrite Forall2_same_length_lookup.
  split; intros [L H]; (split; [lia|]); eauto.
Qed.

(** A vector of [int]s goes to alpaka and back unchanged. *)
Lemma alpaka_roundtrip a : Forall (fun x => 0 <= x < 2 ^ 31) a -> from_alpaka (toAlpakaMemVec a) = a /\ from_alpaka (toAlpakaKernelVec a) = a.
Proof.
  intros H. unfold from_alpaka, toAlpakaMemVec, toAlpakaKernelVec. rewrite !rev_involutive, !map_map.
  induction H as [|x a Hx H [IH1 IH2]]; [done|]. cbn [map]. split; (f_equal; [|done]).
  - unfold u64. rewrite Z.mod_small by lia. apply s32_small. lia.
  - rewrite u32_small by lia. apply s32_small. lia.
Qed.

Lemma toString_braces : toString ";" "[]" [1; 2; 3] = "[1;2;3]"%string /\ toString ";" "|" [4] = "|4|"%string.
Proof. by vm_compute. Qed.

(** ** Round trips of linear indices *)

(** [linearize] on the sizes it reads. *)
Definition horner (ss : DataSpace) (xs : DataSpace) (y : Z) : Z :=
  foldr (fun '(s, x) linearIdx => linearIdx * s + x) y (zip ss xs).

Lemma horner_split ss xs y :
  length xs = length ss -> horner ss xs y = y * vol ss + horner ss xs 0.
Proof.
  revert xs. induction ss as [|s ss IH]; intros [|x xs] L; try discriminate L; cbn; [lia|].
  specialize (IH xs ltac:(simpl in L; lia)). unfold horner in IH. rewrite IH. lia.
Qed.

Lemma horner_range ss xs : in_range ss xs -> 0 <= horner ss xs 0 < vol ss.
Proof.
  induction 1 as [|s x ss xs Hx H IH]; cbn; [lia|]. fold (horner ss xs 0). nia.
Qed.

Lemma horner_snoc ss s xs x y :
  length xs = length ss -> horner (ss ++ [s]) (xs ++ [x]) y = horner ss xs (y * s + x).
Proof. intros L. unfold horner. rewrite zip_with_app by done. by rewrite foldr_app. Qed.

Lemma pitch_from_snoc p ss s : pitch_from p (ss ++ [s]) = pitch_from p ss ++ [s * (vol ss * p)].
Proof.
  revert p. induction ss as [|t ss IH]; intros p; simpl; [f_equal; f_equal; lia|].
  rewrite IH. do 3 f_equal. lia.
Qed.

Lemma peel_result ps lin res : peel ps lin res = peel ps lin [] ++ res.
Proof.
  revert lin res. induction ps as [|p ps IH]; intros lin res; simpl; [done|].
  rewrite IH, (IH _ [_]). by rewrite <- app_assoc.
Qed.

(** [mapToND] on the sizes it reads. *)
Definition digits (ss : DataSpace) (lin : Z) : DataSpace := peel (rev (pitch_from 1 ss)) lin [].

Lemma digits_snoc ss s lin :
  0 < vol (ss ++ [s]) -> 0 <= lin ->
  digits (ss ++ [s]) lin = digits ss (lin mod vol (ss ++ [s])) ++ [lin / vol (ss ++ [s])].
Proof.
  intros Hp Hl. unfold digits. rewrite pitch_from_snoc, rev_app_distr. cbn [rev app peel].
  rewrite peel_result.
  replace (s * (vol ss * 1)) with (vol (ss ++ [s])) in * by (rewrite vol_app; simpl; lia).
  rewrite Z.quot_div_nonneg by lia. do 2 f_equal. rewrite Z.mod_eq by lia. done.
Qed.

Lemma digits_horner ss xs y :
  in_range ss xs -> 0 <= y -> digits ss (horner ss xs y) = xs ++ [y].
Proof.
  revert xs y. induction ss as [|s ss IH] using rev_ind; intros xs y H Hy.
  - apply Forall2_nil_inv_l in H as ->. done.
  - pose proof (in_range_vol _ _ H) as Hv. pose proof (horner_range _ _ H) as Hr.
    pose proof (in_range_length _ _ H) as HL.
    pose proof (horner_split _ _ y HL) as Hs.
    rewrite digits_snoc by nia.
    assert (Hd : horner (ss ++ [s]) xs y / vol (ss ++ [s]) = y)
      by (symmetry; apply Z.div_unique with (horner (ss ++ [s]) xs 0); lia).
    assert (Hm : horner (ss ++ [s]) xs y mod vol (ss ++ [s]) = horner (ss ++ [s]) xs 0)
      by (symmetry; apply Z.mod_unique with y; lia).
    rewrite Hd, Hm.
    apply Forall2_app_inv_l in H as (xs' & l & H1 & H2 & ->).
    inversion H2 as [|? x ? ? Hx Hnil]; subst. inversion Hnil; subst.
    rewrite horner_snoc by (by apply in_range_length). rewrite IH by (done || lia). done.
Qed.

Lemma horner_digits ss lin :
  Forall (fun s => 0 < s) ss -> 0 <= lin ->
  exists xs y, digits ss lin = xs ++ [y] /\ in_range ss xs /\ 0 <= y /\ horner ss xs y = lin.
Proof.
  revert lin. induction ss as [|s ss IH] using rev_ind; intros lin Hp Hl.
  - exists [], lin. split_and!; [done|constructor|done|done].
  - apply Forall_app in Hp as [Hp Hs]. inversion Hs as [|? ? Hs0 _]; subst.
    assert (Hvp : 0 < vol ss) by (clear -Hp; induction Hp; simpl; nia).
    assert (Hv : vol (ss ++ [s]) = vol ss * s) by (rewrite vol_app; simpl; lia).
    rewrite digits_snoc by nia.
    pose proof (Z.mod_pos_bound lin (vol (ss ++ [s])) ltac:(nia)) as Hm.
    destruct (IH (lin mod vol (ss ++ [s])) Hp ltac:(lia)) as (xs & y & E & Hr & Hy & Hh).
    rewrite E. exists (xs ++ [y]), (lin / vol (ss ++ [s])).
    pose proof (horner_range _ _ Hr) as Hr0. pose proof (in_range_length _ _ Hr) as HL.
    pose proof (horner_split ss xs y HL) as Hsp.
    assert (y < s) by nia.
    split_and!; [done| |apply Z.div_pos; nia|].
    + apply Forall2_app; [done|]. constructor; [lia|constructor].
    + rewrite horner_snoc, horner_split by done.
      rewrite Z.mul_add_distr_r.
      pose proof (Z.div_mod lin (vol (ss ++ [s])) ltac:(nia)). nia.
Qed.

Lemma linearize_horner ss s xs y :
  length xs = length ss -> linearize (ss ++ [s]) (xs ++ [y]) = horner ss xs y.
Proof.
  intros L. unfold linearize, horner. rewrite length_app, Nat.add_comm. cbn [length Nat.add pred].
  rewrite take_app_length, last_last, removelast_last. done.
Qed.

Lemma mapToND_digits ss s lin : mapToND (ss ++ [s]) lin = digits ss lin.
Proof.
  unfold mapToND, digits, pitchExtents. rewrite length_app, Nat.add_comm. cbn [length Nat.add pred].
  by rewrite take_app_length.
Qed.

(** Linear index and N-dimensional index are inverse to each other on the index space. *)
Lemma mapToND_linearize size idx :
  size <> [] -> in_range size idx -> mapToND size (linearize size idx) = idx.
Proof.
  intros Hne. destruct (exists_last Hne) as (ss & s & ->). intros H.
  apply Forall2_app_inv_l in H as (xs & l & H1 & H2 & ->).
  inversion H2 as [|? y ? ? Hy Hnil]; subst. inversion Hnil; subst.
  rewrite linearize_horner by (by apply in_range_length).
  rewrite mapToND_digits, digits_horner by (done || lia). done.
Qed.

Lemma linearize_range size idx :
  size <> [] -> in_range size idx -> 0 <= linearize size idx < vol size.
Proof.
  intros Hne. destruct (exists_last Hne) as (ss & s & ->). intros H.
  apply Forall2_app_inv_l in H as (xs & l & H1 & H2 & ->).
  inversion H2 as [|? y ? ? Hy Hnil]; subst. inversion Hnil; subst.
  rewrite linearize_horner by (by apply in_range_length).
  rewrite horner_split by (by apply in_range_length).
  pose proof (horner_range _ _ H1). rewrite vol_app. cbn [vol]. nia.
Qed.

Lemma mapToND_in_range size lin :
  size <> [] -> Forall (fun s => 0 < s) size -> 0 <= lin < vol size ->
  in_range size (mapToND size lin) /\ linearize size (mapToND size lin) = lin.
Proof.
  intros Hne. destruct (exists_last Hne) as (ss & s & ->). intros Hp Hl.
  apply Forall_app in Hp as [Hp Hs]. inversion Hs as [|? ? Hs0 _]; subst.
  rewrite mapToND_digits.
  destruct (horner_digits ss lin Hp ltac:(lia)) as (xs & y & -> & Hr & Hy & Hh).
  pose proof (in_range_length _ _ Hr) as HL.
  split; [|by rewrite linearize_horner].
  apply Forall2_app; [done|]. constructor; [|constructor].
  rewrite horner_split in Hh by done. pose proof (horner_range _ _ Hr).
  rewrite vol_app in Hl. cbn [vol] in Hl. nia.
Qed.

(** In linear order, the blocks are the images of [0 .. product - 1]. *)
Lemma linearize_cons n ns x v :
  ns <> [] -> length v = length ns -> linearize (n :: ns) (x :: v) = linearize ns v * n + x.
Proof.
  intros Hne L. destruct (exists_last Hne) as (ss & s & ->).
  assert (v <> []) as Hv by (intros ->; rewrite length_app in L; simpl in L; lia).
  destruct (exists_last Hv) as (xs & y & ->). rewrite !length_app in L. simpl in L.
  change (n :: ss ++ [s]) with ((n :: ss) ++ [s]). change (x :: xs ++ [y]) with ((x :: xs) ++ [y]).
  rewrite !linearize_horner by (simpl; lia). done.
Qed.

Lemma seqZ_mul n (N : Z) :
  0 <= n -> 0 <= N ->
  (seqZ 0 N ≫= fun k => map (fun x => k * n + x) (seqZ 0 n)) = seqZ 0 (N * n).
Proof.
  intros Hn HN. rewrite <- (Z2Nat.id N) by done. induction (Z.to_nat N) as [|k IH]; [done|].
  rewrite seqZ_S, bind_app, IH. cbn [mbind list_bind]. rewrite app_nil_r.
  replace (Z.of_nat (S k) * n) with (Z.of_nat k * n + n) by lia. rewrite seqZ_app by nia. f_equal.
  rewrite !Z.add_0_l. pose proof (fmap_add_seqZ (Z.of_nat k * n) 0 n) as E. rewrite Z.add_0_r in E. by rewrite <- E.
Qed.

Lemma linearize_blocks dims :
  dims <> [] -> Forall (fun n => 0 <= n) dims ->
  map (linearize dims) (blocks dims) = seqZ 0 (vol dims).
Proof.
  induction dims as [|n dims IH]; [done|]. intros _ Hp. inversion Hp as [|? ? Hn Hd]; subst.
  destruct dims as [|m dims].
  - cbn [blocks vol]. cbn [mbind list_bind]. rewrite app_nil_r, map_map, Z.mul_1_r.
    rewrite <- (map_id (seqZ 0 n)) at 2. by apply map_ext.
  - specialize (IH ltac:(done) Hd). change (vol (n :: m :: dims)) with (n * vol (m :: dims)).
    rewrite (Z.mul_comm n), <- seqZ_mul, <- IH by (done || by apply vol_nonneg).
    change (blocks (n :: m :: dims)) with (blocks (m :: dims) ≫= fun v => map (fun x => x :: v) (seqZ 0 n)).
    assert (Hall : Forall (fun v => length v = length (m :: dims)) (blocks (m :: dims))).
    { apply list.Forall_forall. intros v Hv. apply elem_of_blocks in Hv. by apply in_range_length. }
    revert Hall. generalize (blocks (m :: dims)) as l.
    induction l as [|v l IHl]; intros Hall; [done|]. inversion Hall as [|? ? Hv Hl]; subst.
    cbn [mbind list_bind map]. rewrite map_app. f_equal; [|by apply IHl].
    rewrite map_map. apply map_ext. intros x. rewrite linearize_cons by done. done.
Qed.

Lemma blocks_linear dims :
  dims <> [] -> Forall (fun n => 0 <= n) dims ->
  blocks dims = map (mapToND dims) (seqZ 0 (vol dims)).
Proof.
  intros Hne Hp. rewrite <- linearize_blocks by done. rewrite map_map.
  transitivity (map id (blocks dims)); [by rewrite map_id|].
  apply map_ext_in. intros v Hv. apply list_elem_of_In, elem_of_blocks in Hv.
  symmetry. by apply mapToND_linearize.
Qed.

(** ** Boxes *)

(** A list mapped by an invertible function. *)
Lemma perm_of_inverse {A B} (f : A -> B) (g : B -> A) (l1 : list A) (l2 : list B) :
  NoDup l1 -> NoDup l2 ->
  (forall a, a ∈ l1 -> f a ∈ l2 /\ g (f a) = a) -> (forall b, b ∈ l2 -> g b ∈ l1 /\ f (g b) = b) ->
  map f l1 ≡ₚ l2.
Proof.
  intros N1 N2 H1 H2. apply NoDup_Permutation; [|done|].
  - apply NoDup_fmap_2_strong; [|done]. intros x y Hx Hy E.
    apply H1 in Hx as [_ <-]. apply H1 in Hy as [_ <-]. by rewrite E.
  - intros b. split.
    + intros (a & -> & Ha)%list_elem_of_fmap. by apply H1.
    + intros Hb. destruct (H2 b Hb) as [Hg <-]. apply list_elem_of_fmap. eauto.
Qed.

Lemma elem_of_select (P : DataSpace -> bool) dims c : c ∈ List.filter P (blocks dims) <-> in_range dims c /\ P c = true.
Proof. rewrite list_elem_of_In, filter_In, <- list_elem_of_In, elem_of_blocks. done. Qed.

Lemma NoDup_select (P : DataSpace -> bool) dims : NoDup (List.filter P (blocks dims)).
Proof. apply base.NoDup_ListNoDup, List.NoDup_filter, base.NoDup_ListNoDup, NoDup_blocks. Qed.
