(* ===== verification/ExchangeMask.v ===== *)
(** * Directions of exchange between neighbouring domains

    An [ExchangeType] is a number below 27 whose three base-3 digits say, per axis,
    whether the direction points to the lower side (2), to the upper side (1) or
    neither (0).  [Mask] is a set of such directions kept as bits of a [uint32_t].
    The file holds [Mask], the mirror of a direction, the relative offset a direction
    stands for, the names of [ExchangeTypeNames], and the [reduce] / [extend] pair of
    [DataSpaceOperations]. *)
From Stdlib Require Import ZArith Lia.
From stdpp Require Import base list list_numbers numbers strings pretty.
From S2P Require Import Prelude Outcome DataSpaces.
Open Scope Z_scope.

(** ** ExchangeType *)

Definition RIGHT : Z := 1.
Definition LEFT : Z := 2.
Definition BOTTOM : Z := 3.
Definition TOP : Z := 6.
Definition BACK : Z := 9.
Definition FRONT : Z := 18.

(** [traits::NumberOfExchanges<DIM3>]. *)
Definition NumberOfExchanges3 : Z := 27.

Definition exchange_names : list string :=
  ["none"; "right"; "left"; "bottom"; "right-bottom"; "left-bottom"; "top"; "right-top"; "left-top";
   "back"; "right-back"; "left-back"; "bottom-back"; "right-bottom-back"; "left-bottom-back";
   "top-back"; "right-top-back"; "left-top-back"; "front"; "right-front"; "left-front";
   "bottom-front"; "right-bottom-front"; "left-bottom-front"; "top-front"; "right-top-front";
   "left-top-front"]%string.

(** [ExchangeTypeNames::operator[]] of a [uint32_t]. *)
Definition ExchangeTypeNames (exchange : Z) : string :=
  if 27 <=? exchange then ("unknown exchange type: " +:+ pretty exchange)%string
  else nth (Z.to_nat exchange) exchange_names EmptyString.

(** ** Mask *)

(** The bits of the mask. *)
Definition Mask : Type := Z.
Definition Mask_empty : Mask := 0.
(** [Mask(ex)]; a shift by 32 or more is undefined, callers pass exchange types. *)
Definition Mask_of (ex : Z) : Mask := Z.shiftl 1 ex.
Definition mask_join (a b : Mask) : Mask := Z.lor a b.
Definition mask_meet (a b : Mask) : Mask := Z.land a b.
Definition isSet (m : Mask) (ex : Z) : bool := negb (Z.land m (Z.shiftl 1 ex) =? 0).

(** The [while(tmp_ex >= 3)] loop; 21 rounds bring every [uint32_t] below 3. *)
Fixpoint drop_digits (fuel : nat) (tmp_ex tmp : Z) : Z * Z :=
  match fuel with
  | O => (tmp_ex, tmp)
  | S fuel => if 3 <=? tmp_ex then drop_digits fuel (tmp_ex / 3) (tmp / 3) else (tmp_ex, tmp)
  end.

Definition containsExchangeType (m : Mask) (ex : Z) : bool :=
  existsb (fun i => isSet m i && let '(tmp_ex, tmp) := drop_digits 21 ex i in tmp mod 3 =? tmp_ex)
    (seqZ 1 26).

Definition getMirroredExchangeType (ex : Z) : outcome Z :=
  if NumberOfExchanges3 <=? ex then Throw runtime_error "parameter exceeds allowed maximum"
  else
    let mask := Mask_of ex in
    let add_if (b : bool) (d tmp : Z) := if b then tmp + d else tmp in
    Ret (add_if (containsExchangeType mask BACK) FRONT
        (add_if (containsExchangeType mask FRONT) BACK
        (add_if (containsExchangeType mask TOP) BOTTOM
        (add_if (containsExchangeType mask BOTTOM) TOP
        (add_if (containsExchangeType mask LEFT) RIGHT
        (add_if (containsExchangeType mask RIGHT) LEFT 0)))))).

Fixpoint mirror_bits (m : Mask) (ks : list Z) (tmp : Z) : outcome Z :=
  match ks with
  | [] => Ret tmp
  | i :: ks =>
      if isSet m i then
        e ← getMirroredExchangeType i; mirror_bits m ks (Z.lor tmp (Z.shiftl 1 e))
      else mirror_bits m ks tmp
  end.
Definition getMirroredMask (m : Mask) : outcome Mask := mirror_bits m (seqZ 1 26) 0.

Fixpoint getRelativeDirections (dim : nat) (direction : Z) : DataSpace :=
  match dim with
  | O => []
  | S dim =>
      let dim_direction := direction mod 3 in
      (if dim_direction =? 2 then -1 else dim_direction) :: getRelativeDirections dim (direction / 3)
  end.

(** The specialisation for one dimension, without a modulo. *)
Definition getRelativeDirections1 (direction : Z) : DataSpace :=
  if direction =? 2 then [-1] else [direction].

(** ** DataSpaceOperations *)

Definition at_ (v : DataSpace) (d : nat) : Z := nth d v 0.

Definition extend1 (ds : DataSpace) (ex : Z) (target offset : DataSpace) : DataSpace :=
  let directions := getRelativeDirections 2 ex in
  let side d r :=
    if at_ directions d =? 1 then at_ target d - at_ offset d - 1
    else if at_ directions d =? -1 then at_ offset d else r in
  [side 0%nat (at_ ds 0); side 1%nat (at_ ds 0)].

Definition reduce2 (ds : DataSpace) (ex : Z) : DataSpace :=
  let directions := getRelativeDirections 2 ex in
  if negb (at_ directions 0 =? 0) then [at_ ds 1]
  else if negb (at_ directions 1 =? 0) then [at_ ds 0]
  else [0].

Definition extend2 (ds : DataSpace) (ex : Z) (target offset : DataSpace) : DataSpace :=
  let directions := getRelativeDirections 3 ex in
  let side d entry :=
    if at_ directions d =? 1 then at_ target d - at_ offset d - 1
    else if at_ directions d =? -1 then at_ offset d else entry in
  let y_entry := if at_ directions 0 =? 0 then 1%nat else 0%nat in
  [side 0%nat (at_ ds 0); side 1%nat (if (y_entry =? 0)%nat then at_ ds 0 else at_ ds 1); side 2%nat (at_ ds 1)].

Definition reduce3 (ds : DataSpace) (ex : Z) : DataSpace :=
  let directions := getRelativeDirections 3 ex in
  if negb (at_ directions 0 =? 0) then [at_ ds 1; at_ ds 2]
  else if negb (at_ directions 2 =? 0) then [at_ ds 0; at_ ds 1]
  else if negb (at_ directions 1 =? 0) then [at_ ds 0; at_ ds 2]
  else [0; 0].

(** ** Laws *)

(** A decidable property of all exchange types is checked by evaluation. *)
Lemma for_exchanges (P : Z -> bool) n :
  forallb P (seqZ 0 n) = true -> forall ex, 0 <= ex < n -> P ex = true.
Proof.
  intros H ex Hex. rewrite forallb_forall in H. apply H, list_elem_of_In, elem_of_seqZ. lia.
Qed.

Lemma drop_digits_end fuel tmp_ex tmp :
  0 <= tmp_ex < 3 ^ Z.of_nat fuel -> (drop_digits fuel tmp_ex tmp).1 < 3.
Proof.
  revert tmp_ex tmp. induction fuel as [|fuel IH]; intros tmp_ex tmp H; [simpl in *; lia|].
  cbn [drop_digits]. destruct (Z.leb_spec 3 tmp_ex); [|simpl; lia]. apply IH.
  rewrite Nat2Z.inj_succ, Z.pow_succ_r in H by lia.
  split; [apply Z.div_pos; lia|]. apply Z.div_lt_upper_bound; lia.
Qed.

(** The rounds suffice for every [uint32_t] argument. *)
Lemma drop_digits_uint32 ex i : 0 <= ex < 2 ^ 32 -> (drop_digits 21 ex i).1 < 3.
Proof. intros H. apply drop_digits_end. lia. Qed.

Lemma directions_length dim ex : length (getRelativeDirections dim ex) = dim.
Proof. revert ex. induction dim as [|dim IH]; intros ex; simpl; [done|]. by rewrite IH. Qed.

Lemma directions_values dim ex :
  0 <= ex ->
  Forall (fun d => d = -1 \/ d = 0 \/ d = 1) (getRelativeDirections dim ex) /\
  length (getRelativeDirections dim ex) = dim.
Proof.
  intros He. split; [|apply directions_length].
  revert ex He. induction dim as [|dim IH]; intros ex He; cbn [getRelativeDirections]; constructor.
  - pose proof (Z.mod_pos_bound ex 3 ltac:(lia)). destruct (Z.eqb_spec (ex mod 3) 2); lia.
  - apply IH. apply Z.div_pos; lia.
Qed.

(** The number of the direction with the given offsets. *)
Fixpoint direction_code (dirs : DataSpace) : Z :=
  match dirs with
  | [] => 0
  | d :: dirs => (if d =? -1 then 2 else d) + 3 * direction_code dirs
  end.

Lemma direction_code_inv dirs :
  Forall (fun d => -1 <= d <= 1) dirs ->
  0 <= direction_code dirs < 3 ^ Z.of_nat (length dirs) /\
  getRelativeDirections (length dirs) (direction_code dirs) = dirs.
Proof.
  induction 1 as [|d dirs Hd H [IH1 IH2]]; [by vm_compute|].
  cbn [direction_code length getRelativeDirections].
  rewrite Nat2Z.inj_succ, Z.pow_succ_r by lia.
  set (e := if d =? -1 then 2 else d).
  assert (He : 0 <= e < 3 /\ (if e =? 2 then -1 else e) = d).
  { unfold e. assert (d = -1 \/ d = 0 \/ d = 1) as [->|[->| ->]] by lia; done. }
  destruct He as [He1 He2]. split; [lia|].
  replace ((e + 3 * direction_code dirs) mod 3) with e by (apply Z.mod_unique with (direction_code dirs); lia).
  replace ((e + 3 * direction_code dirs) / 3) with (direction_code dirs)
    by (apply Z.div_unique with e; lia).
  by rewrite He2, IH2.
Qed.

Lemma directions_code dim ex :
  0 <= ex < 3 ^ Z.of_nat dim -> direction_code (getRelativeDirections dim ex) = ex.
Proof.
  revert ex. induction dim as [|dim IH]; intros ex H; [simpl in *; lia|].
  cbn [getRelativeDirections direction_code]. rewrite Nat2Z.inj_succ, Z.pow_succ_r in H by lia.
  rewrite IH by (split; [apply Z.div_pos; lia|apply Z.div_lt_upper_bound; lia]).
  pose proof (Z.mod_pos_bound ex 3 ltac:(lia)). pose proof (Z.div_mod ex 3 ltac:(lia)).
  destruct (Z.eqb_spec (ex mod 3) 2) as [E|E]; [cbn; lia|].
  destruct (Z.eqb_spec (ex mod 3) (-1)); lia.
Qed.

(** The mirror of an exchange type, as a number. *)
Definition mirror (ex : Z) : Z := match getMirroredExchangeType ex with Ret e => e | _ => 0 end.

Lemma mirror_table ex :
  0 <= ex < 27 ->
  getMirroredExchangeType ex = Ret (mirror ex) /\ 0 <= mirror ex < 27 /\
  getRelativeDirections 3 (mirror ex) = map Z.opp (getRelativeDirections 3 ex) /\ mirror (mirror ex) = ex.
Proof.
  intros H.
  pose (P := fun ex => match getMirroredExchangeType ex with Ret e => e =? mirror ex | _ => false end
     && (0 <=? mirror ex) && (mirror ex <? 27)
     && bool_decide (getRelativeDirections 3 (mirror ex) = map Z.opp (getRelativeDirections 3 ex))
     && (mirror (mirror ex) =? ex)).
  assert (HP : P ex = true) by (apply (for_exchanges P 27); [by vm_compute|done]). unfold P in HP. clear P.
  repeat (apply andb_true_iff in HP as [HP ?]).
  destruct (getMirroredExchangeType ex) as [e| | |] eqn:E; try discriminate HP.
  apply Z.eqb_eq in HP as ->. split_and!; try lia; [done|]. by eapply bool_decide_eq_true_1.
Qed.

Lemma directions_prefix n k ex : (n <= k)%nat -> getRelativeDirections n ex = take n (getRelativeDirections k ex).
Proof.
  revert k ex. induction n as [|n IH]; intros [|k] ex H; cbn; [done|done|lia|]. f_equal. apply IH. lia.
Qed.

Lemma mirror_directions n ex :
  (n <= 3)%nat -> 0 <= ex < 27 -> getRelativeDirections n (mirror ex) = map Z.opp (getRelativeDirections n ex).
Proof.
  intros Hn Hex. destruct (mirror_table ex Hex) as (_ & _ & E & _).
  rewrite !(directions_prefix n 3) by lia. by rewrite E, firstn_map.
Qed.

(** A mask with the single direction [ex] contains an exchange type when the offsets of
    [ex] point there. *)
Lemma contains_direction ex :
  1 <= ex < 27 ->
  let d := getRelativeDirections 3 ex in
  containsExchangeType (Mask_of ex) LEFT = (at_ d 0 =? -1) /\
  containsExchangeType (Mask_of ex) RIGHT = (at_ d 0 =? 1) /\
  containsExchangeType (Mask_of ex) TOP = (at_ d 1 =? -1) /\
  containsExchangeType (Mask_of ex) BOTTOM = (at_ d 1 =? 1) /\
  containsExchangeType (Mask_of ex) FRONT = (at_ d 2 =? -1) /\
  containsExchangeType (Mask_of ex) BACK = (at_ d 2 =? 1).
Proof.
  intros H d. subst d.
  pose (P := fun ex => let d := getRelativeDirections 3 ex in
     eqb (containsExchangeType (Mask_of ex) LEFT) (at_ d 0 =? -1) &&
     eqb (containsExchangeType (Mask_of ex) RIGHT) (at_ d 0 =? 1) &&
     eqb (containsExchangeType (Mask_of ex) TOP) (at_ d 1 =? -1) &&
     eqb (containsExchangeType (Mask_of ex) BOTTOM) (at_ d 1 =? 1) &&
     eqb (containsExchangeType (Mask_of ex) FRONT) (at_ d 2 =? -1) &&
     eqb (containsExchangeType (Mask_of ex) BACK) (at_ d 2 =? 1)).
  assert (HP : P ex = true) by (apply (for_exchanges P 27); [by vm_compute|lia]).
  unfold P in HP. cbv zeta in HP.
  repeat (apply andb_true_iff in HP as [HP ?]). rewrite !eqb_true_iff in *. done.
Qed.

(** ** Membership of masks *)

Lemma isSet_testbit m ex : 0 <= ex -> isSet m ex = Z.testbit m ex.
Proof.
  intros He. unfold isSet. destruct (Z.eqb_spec (Z.land m (Z.shiftl 1 ex)) 0) as [E|E]; simpl.
  - apply (f_equal (fun z => Z.testbit z ex)) in E.
    rewrite Z.land_spec, Z.bits_0, Z.shiftl_spec, Z.sub_diag in E by done.
    rewrite andb_true_r in E. done.
  - destruct (Z.testbit m ex) eqn:Hb; [done|]. exfalso. apply E. apply Z.bits_inj'. intros k Hk.
    rewrite Z.land_spec, Z.bits_0, Z.shiftl_spec by done.
    destruct (decide (k = ex)) as [->|Hne]; [by rewrite Hb|].
    rewrite andb_comm. destruct (Z.ltb_spec (k - ex) 0); [by rewrite Z.testbit_neg_r|].
    rewrite (Z.bits_above_log2 1); [done|lia|simpl; lia].
Qed.

Lemma isSet_join a b ex : 0 <= ex -> isSet (mask_join a b) ex = isSet a ex || isSet b ex.
Proof. intros He. rewrite !isSet_testbit by done. apply Z.lor_spec. Qed.

Lemma isSet_meet a b ex : 0 <= ex -> isSet (mask_meet a b) ex = isSet a ex && isSet b ex.
Proof. intros He. rewrite !isSet_testbit by done. apply Z.land_spec. Qed.

Lemma isSet_of i ex : 0 <= i -> 0 <= ex -> isSet (Mask_of i) ex = (i =? ex).
Proof.
  intros Hi He. rewrite isSet_testbit by done. unfold Mask_of. rewrite Z.shiftl_1_l.
  rewrite Z.pow2_bits_eqb by done. done.
Qed.

Lemma isSet_empty ex : isSet Mask_empty ex = false.
Proof. done. Qed.

Lemma mirror_bits_spec m ks tmp ex :
  0 <= ex -> (forall i, i ∈ ks -> 0 <= i < 27) ->
  exists r, mirror_bits m ks tmp = Ret r /\
    isSet r ex = isSet tmp ex || existsb (fun i => isSet m i && (mirror i =? ex)) ks.
Proof.
  intros He. revert tmp. induction ks as [|i ks IH]; intros tmp His; cbn [mirror_bits existsb].
  { exists tmp. by rewrite orb_false_r. }
  assert (Hi : 0 <= i < 27) by (apply His; left).
  destruct (mirror_table i Hi) as (E & Hr & _).
  destruct (isSet m i).
  - rewrite E. cbn [mbind outcome_bind].
    destruct (IH (Z.lor tmp (Z.shiftl 1 (mirror i)))) as (r & -> & Hs); [intros j Hj; apply His; by right|].
    exists r. split; [done|]. rewrite Hs. change (Z.lor tmp (Z.shiftl 1 (mirror i))) with (mask_join tmp (Mask_of (mirror i))).
    rewrite isSet_join, isSet_of by lia. cbn [andb]. by rewrite orb_assoc.
  - destruct (IH tmp) as (r & -> & Hs); [intros j Hj; apply His; by right|]. exists r. done.
Qed.

(** The mirrored mask has a direction exactly when the mask has its mirror. *)
Lemma getMirroredMask_spec m ex :
  1 <= ex < 27 -> exists r, getMirroredMask m = Ret r /\ isSet r ex = isSet m (mirror ex).
Proof.
  intros H. destruct (mirror_bits_spec m (seqZ 1 26) 0 ex) as (r & E & Hs); [lia| |].
  { intros i Hi. apply elem_of_seqZ in Hi. lia. }
  exists r. split; [exact E|]. rewrite Hs. change (isSet 0 ex) with false. cbn [orb].
  assert (Hm : 1 <= mirror ex < 27).
  { destruct (mirror_table ex ltac:(lia)) as (_ & Hr & _ & Hinv).
    destruct (decide (mirror ex = 0)) as [E0|]; [|lia]. rewrite E0 in Hinv. vm_compute in Hinv. lia. }
  destruct (mirror_table ex ltac:(lia)) as (_ & _ & _ & Hinv).
  destruct (isSet m (mirror ex)) eqn:Hset.
  - apply existsb_exists. exists (mirror ex). split; [apply list_elem_of_In, elem_of_seqZ; lia|].
    rewrite Hset, Hinv. by rewrite Z.eqb_refl.
  - apply not_true_is_false. rewrite existsb_exists. intros (i & Hi & Hb).
    apply list_elem_of_In, elem_of_seqZ in Hi. apply andb_true_iff in Hb as [Hb1 Hb2].
    apply Z.eqb_eq in Hb2. destruct (mirror_table i ltac:(lia)) as (_ & _ & _ & Hi').
    rewrite Hb2 in Hi'. rewrite Hi' in Hset. congruence.
Qed.

(** ** Theorems *)

(** Embedding a face of a grid and reading it back: for every exchange type of a
    two- or three-dimensional grid but 0, a point whose coordinates on the axes the
    direction has a side for are those of that side ([offset], or [target - offset - 1])
    is recovered from its reduced index by [extend]; and reducing what [extend] made of
    an index in an axis-parallel direction gives the index. *)
Theorem extend_reduce ex target offset :
  let side n p :=
    forall d, (d < n)%nat ->
      (at_ (getRelativeDirections n ex) d = 1 -> at_ p d = at_ target d - at_ offset d - 1) /\
      (at_ (getRelativeDirections n ex) d = -1 -> at_ p d = at_ offset d) in
  (1 <= ex < 9 -> forall p, length p = 2%nat -> side 2%nat p -> extend1 (reduce2 p ex) ex target offset = p) /\
  (1 <= ex < 27 -> forall p, length p = 3%nat -> side 3%nat p -> extend2 (reduce3 p ex) ex target offset = p) /\
  (ex ∈ [RIGHT; LEFT; BOTTOM; TOP; BACK; FRONT] -> forall q, length q = 2%nat ->
     reduce3 (extend2 q ex target offset) ex = q).
Proof.
  intros side. split_and!.
  - intros H [|px [|py [|]]] L Hs; try discriminate L.
    pose proof (Hs 0%nat ltac:(lia)) as Hx. pose proof (Hs 1%nat ltac:(lia)) as Hy.
    pose proof (directions_code 2 ex ltac:(simpl; lia)) as Hc.
    unfold extend1, reduce2.
    destruct (directions_values 2 ex ltac:(lia)) as (Hd & HL). revert Hx Hy Hc Hd HL. clear -H.
    destruct (getRelativeDirections 2 ex) as [|dx [|dy [|]]]; intros Hx Hy Hc Hd HL; try discriminate HL.
    repeat (apply Forall_cons in Hd as [[->|[->| ->]] Hd]); cbn in *; try lia; repeat f_equal; lia.
  - intros H [|px [|py [|pz [|]]]] L Hs; try discriminate L.
    pose proof (Hs 0%nat ltac:(lia)) as Hx. pose proof (Hs 1%nat ltac:(lia)) as Hy.
    pose proof (Hs 2%nat ltac:(lia)) as Hz.
    pose proof (directions_code 3 ex ltac:(simpl; lia)) as Hc.
    unfold extend2, reduce3.
    destruct (directions_values 3 ex ltac:(lia)) as (Hd & HL). revert Hx Hy Hz Hc Hd HL. clear -H.
    destruct (getRelativeDirections 3 ex) as [|dx [|dy [|dz [|]]]]; intros Hx Hy Hz Hc Hd HL; try discriminate HL.
    repeat (apply Forall_cons in Hd as [[->|[->| ->]] Hd]); cbn in *; try lia; repeat f_equal; lia.
  - intros E [|qx [|qy [|]]] L; try discriminate L.
    repeat (apply elem_of_cons in E as [->|E]; [done|]). by apply elem_of_nil in E.
Qed.

Lemma extend_reduce_witness :
  (extend2 (reduce3 [4; 9; 0] (RIGHT + BOTTOM)) (RIGHT + BOTTOM) [5; 10; 7] [0; 0; 0] = [4; 9; 0])
  /\ reduce3 (extend2 [3; 5] TOP [9; 9; 9] [1; 1; 1]) TOP = [3; 5].
Proof.
  split.
  - apply (extend_reduce (RIGHT + BOTTOM) [5; 10; 7] [0; 0; 0]); [unfold RIGHT, BOTTOM; lia|done|].
    intros [|[|[|d]]] Hd; [vm_compute; split; congruence..|lia].
  - apply (extend_reduce TOP [9; 9; 9] [1; 1; 1]); [|done]. by do 3 right; left.
Defined.
