(* ===== verification/GridMapping.v ===== *)
(** * Mapping the blocks of a launch onto supercells

    The supercells of a domain form a grid with guarding supercells around it.
    [MappingDescription] holds the grid; a mapper gives the number of blocks a kernel
    over an area of the grid is launched with and the supercell each block works on.
    The file models the area, exchange, border and interval mappers of
    [pmacc/mappings/kernel] behind the interface [MapperConcept].  The theorems show
    that each of them is one to one onto the supercells of its area, and that the
    border a domain sends in a direction lies, block for block, on the guard its
    neighbour receives from the mirrored direction. *)
From Stdlib Require Import ZArith Lia.
From stdpp Require Import base list list_numbers numbers strings.
From S2P Require Import Prelude Outcome DataSpaces ExchangeMask.
Open Scope Z_scope.

(** ** Areas *)

(** The areas the mapping methods are specialised for; the source writes the last two
    as sums of the first three. *)
Inductive Area : Type := CORE | BORDER | GUARD | CORE_BORDER | CORE_BORDER_GUARD.

Definition area_value (a : Area) : Z :=
  match a with CORE => 1 | BORDER => 2 | GUARD => 4 | CORE_BORDER => 1 + 2 | CORE_BORDER_GUARD => 1 + 2 + 4 end.

(** ** MappingDescription *)

Record MappingDescription := mkMappingDescription
  { gridSuperCells : DataSpace; guardingSuperCells : DataSpace }.

(** The constructor: PMACC_VERIFY per dimension. *)
Definition MappingDescription_new (superCellSize localGridCells guarding : DataSpace) : outcome MappingDescription :=
  let grid := vquot localGridCells superCellSize in
  if forallb (fun '(n, g) => ((g =? 0) && (1 <=? n)) || (2 * g + 1 <=? n)) (zip grid guarding)
  then Ret (mkMappingDescription grid guarding)
  else Abort "PMACC_VERIFY".

Section Description.
Context (superCellSize : DataSpace) (m : MappingDescription).

Definition getGridSuperCells : DataSpace := m.(gridSuperCells).
Definition getGridSuperCellsWithoutGuards : DataSpace := vsub m.(gridSuperCells) (smul_v 2 m.(guardingSuperCells)).
Definition getGuardingSuperCells : DataSpace := m.(guardingSuperCells).
Definition setGridSuperCells (superCellsCount : DataSpace) : MappingDescription :=
  mkMappingDescription superCellsCount m.(guardingSuperCells).
Definition getRootSuperCellCoordinate (globalOffset : DataSpace) : DataSpace := vquot globalOffset superCellSize.
Definition getGridLayout : GridLayout :=
  mkGridLayout (vmul superCellSize (vsub m.(gridSuperCells) (smul_v 2 m.(guardingSuperCells))))
               (vmul superCellSize m.(guardingSuperCells)).
Definition md_eqb (other : MappingDescription) : bool :=
  veqb m.(gridSuperCells) other.(gridSuperCells) && veqb m.(guardingSuperCells) other.(guardingSuperCells).
End Description.

(** ** The interface of mappers *)

Class MapperConcept (M : Type) := {
  getGridDim : M -> DataSpace;
  getSuperCellIndex : M -> DataSpace -> DataSpace;
}.

(** The supercells a launch over the mapper works on, block by block. *)
Definition supercells {M} `{MapperConcept M} (mp : M) : list DataSpace :=
  map (getSuperCellIndex mp) (blocks (getGridDim mp)).

(** [T_origin]: the supercell index relative to the core, the border or the guard. *)
Definition relative_to (origin : Area) (m : MappingDescription) (result : DataSpace) : DataSpace :=
  match origin with
  | CORE => vsub result (smul_v 2 m.(guardingSuperCells))
  | BORDER => vsub result m.(guardingSuperCells)
  | _ => result
  end.

(** ** AreaMapping *)

(** [AreaMappingMethods<GUARD, DIM2>] and [<GUARD, DIM3>]; [g] are the guarding
    supercells of the description. *)
Definition guard_gridDim (g gBlocks : DataSpace) : DataSpace :=
  match g, gBlocks with
  | [gx; gy], [x; y] =>
      let y_ := y - 2 * gy in
      let xArea := x * gy in
      let y_Area := y_ * gx in
      [xArea + y_Area; 2]
  | [gx; gy; gz], [x; y; z] =>
      let x_ := x - 2 * gx in
      let z_ := z - 2 * gz in
      let xyVolume := x * y * gz in
      let z_yVolume := z_ * y * gx in
      let z_x_Volume := z_ * x_ * gy in
      [xyVolume + z_x_Volume + z_yVolume; 2; 1]
  | _, _ => []
  end.

Definition guard_index2 (gx gy x y bx by_ : Z) : DataSpace :=
  let xArea := x * gy in
  if bx <? xArea then
    let tmp_x := bx in
    [Z.rem tmp_x x; Z.quot tmp_x x + by_ * (y - gy)]
  else
    let tmp_x := bx - xArea in
    [Z.rem tmp_x gx + by_ * (x - gx); Z.quot tmp_x gx + gy].

Definition guard_index3 (gx gy gz x y z bx by_ : Z) : DataSpace :=
  let x_ := x - 2 * gx in
  let z_ := z - 2 * gz in
  let xyVolume := x * y * gz in
  let z_yVolume := z_ * y * gx in
  if bx <? xyVolume then
    let xyPlane := x * y in
    let tmp_x := bx in
    [Z.rem tmp_x x; Z.rem (Z.quot tmp_x x) y; Z.quot tmp_x xyPlane + by_ * (z - gz)]
  else if (xyVolume <=? bx) && (bx <? xyVolume + z_yVolume) then
    let z_yPlane := z_ * y in
    let tmp_x := bx - xyVolume in
    [Z.quot tmp_x z_yPlane + by_ * (x - gx); Z.rem tmp_x y; Z.rem (Z.quot tmp_x y) z_ + gz]
  else
    let x_z_Plane := x_ * z_ in
    let tmp_x := bx - xyVolume - z_yVolume in
    [Z.rem tmp_x x_ + gx; Z.quot tmp_x x_z_Plane + by_ * (y - gy); Z.rem (Z.quot tmp_x x_) z_ + gz].

Definition guard_index (g gBlocks blockIdx : DataSpace) : DataSpace :=
  match g, gBlocks, blockIdx with
  | [gx; gy], [x; y], [bx; by_] => guard_index2 gx gy x y bx by_
  | [gx; gy; gz], [x; y; z], [bx; by_; _] => guard_index3 gx gy gz x y z bx by_
  | _, _, _ => []
  end.

Definition area_gridDim (a : Area) (g gBlocks : DataSpace) : DataSpace :=
  match a with
  | CORE_BORDER_GUARD => gBlocks
  | CORE => vsub gBlocks (smul_v 4 g)
  | CORE_BORDER => vsub gBlocks (smul_v 2 g)
  | GUARD => guard_gridDim g gBlocks
  | BORDER =>
      let sizeWithoutGuard := vsub gBlocks (smul_v 2 g) in
      guard_gridDim g sizeWithoutGuard
  end.

Definition area_index (a : Area) (g gBlocks blockIdx : DataSpace) : DataSpace :=
  match a with
  | CORE_BORDER_GUARD => blockIdx
  | CORE => vadd blockIdx (smul_v 2 g)
  | CORE_BORDER => vadd blockIdx g
  | GUARD => guard_index g gBlocks blockIdx
  | BORDER =>
      let sizeWithoutGuard := vsub gBlocks (smul_v 2 g) in
      vadd (guard_index g sizeWithoutGuard blockIdx) g
  end.

Record AreaMapping := makeAreaMapper { am_area : Area; am_base : MappingDescription }.

Definition AreaMapping_getSuperCellIndex (origin : Area) (mp : AreaMapping) (blockIdx : DataSpace) : DataSpace :=
  relative_to origin mp.(am_base)
    (area_index mp.(am_area) mp.(am_base).(guardingSuperCells) mp.(am_base).(gridSuperCells) blockIdx).

#[export] Instance AreaMapping_mapper : MapperConcept AreaMapping := {
  getGridDim mp := area_gridDim mp.(am_area) mp.(am_base).(guardingSuperCells) mp.(am_base).(gridSuperCells);
  getSuperCellIndex mp := AreaMapping_getSuperCellIndex GUARD mp;
}.

(** ** ExchangeMapping *)

Record ExchangeMapping := mkExchangeMapping
  { em_area : Area; em_base : MappingDescription; em_exchangeType : Z }.

(** Per dimension: the grid extent [n], the guard [g] and the direction [d]. *)
Definition exchange_dim (a : Area) (n g d : Z) : Z :=
  match a with
  | GUARD => if negb (d =? 0) then g else n - 2 * g
  | BORDER => if negb (d =? 0) then g else n - 4 * g
  | _ => n
  end.
Definition exchange_shift (a : Area) (n g d : Z) : Z :=
  match a with
  | GUARD => if d =? 0 then g else if d =? 1 then n - g else 0
  | BORDER => if d =? 0 then 2 * g else if d =? -1 then g else if d =? 1 then n - 2 * g else 0
  | _ => 0
  end.

(** [f n g d] in every dimension. *)
Fixpoint per_dim (f : Z -> Z -> Z -> Z) (n g d : DataSpace) : DataSpace :=
  match n, g, d with
  | n :: ns, g :: gs, d :: ds => f n g d :: per_dim f ns gs ds
  | _, _, _ => []
  end.

Definition directions_of (m : MappingDescription) (ex : Z) : DataSpace :=
  getRelativeDirections (length m.(gridSuperCells)) ex.

Definition ExchangeMapping_getSuperCellIndex (origin : Area) (mp : ExchangeMapping) (blockIdx : DataSpace) : DataSpace :=
  let m := mp.(em_base) in
  relative_to origin m
    (vadd blockIdx (per_dim (exchange_shift mp.(em_area)) m.(gridSuperCells) m.(guardingSuperCells)
                      (directions_of m mp.(em_exchangeType)))).

#[export] Instance ExchangeMapping_mapper : MapperConcept ExchangeMapping := {
  getGridDim mp := let m := mp.(em_base) in
    per_dim (exchange_dim mp.(em_area)) m.(gridSuperCells) m.(guardingSuperCells) (directions_of m mp.(em_exchangeType));
  getSuperCellIndex mp := ExchangeMapping_getSuperCellIndex GUARD mp;
}.

(** ** BorderMapping *)

Record BorderMapping := mkBorderMapping { bm_base : MappingDescription; m_direction : Z }.

(** The constructor asserts a direction. *)
Definition BorderMapping_new (base : MappingDescription) (direction : Z) : outcome BorderMapping :=
  if negb (direction =? 0) then Ret (mkBorderMapping base direction) else Abort "PMACC_ASSERT".

Definition border_dim (n g d : Z) : Z := if negb (d =? 0) then g else n - 2 * g.
Definition border_shift (n g d : Z) : Z := if d =? 1 then n - 2 * g else g.

Definition BorderMapping_getSuperCellIndex (origin : Area) (mp : BorderMapping) (blockIdx : DataSpace) : DataSpace :=
  let m := mp.(bm_base) in
  relative_to origin m
    (vadd blockIdx (per_dim border_shift m.(gridSuperCells) m.(guardingSuperCells) (directions_of m mp.(m_direction)))).

#[export] Instance BorderMapping_mapper : MapperConcept BorderMapping := {
  getGridDim mp := let m := mp.(bm_base) in
    per_dim border_dim m.(gridSuperCells) m.(guardingSuperCells) (directions_of m mp.(m_direction));
  getSuperCellIndex mp := BorderMapping_getSuperCellIndex GUARD mp;
}.

(** ** IntervalMapping *)

Record IntervalMapping := mkIntervalMapping { im_begin : DataSpace; im_num : DataSpace }.

#[export] Instance IntervalMapping_mapper : MapperConcept IntervalMapping := {
  getGridDim mp := mp.(im_num);
  getSuperCellIndex mp blockIdx := vadd mp.(im_begin) blockIdx;
}.

(** ** What the areas are *)

(** [lo <= c < hi] in every dimension. *)
Fixpoint in_box (lo hi c : DataSpace) : bool :=
  match lo, hi, c with
  | [], [], [] => true
  | l :: lo, h :: hi, x :: c => (l <=? x) && (x <? h) && in_box lo hi c
  | _, _, _ => false
  end.

(** The supercells inside [k] guards. *)
Definition within (k : Z) (m : MappingDescription) (c : DataSpace) : bool :=
  in_box (smul_v k m.(guardingSuperCells)) (vsub m.(gridSuperCells) (smul_v k m.(guardingSuperCells))) c.

Definition in_area (a : Area) (m : MappingDescription) (c : DataSpace) : bool :=
  match a with
  | CORE_BORDER_GUARD => within 0 m c
  | CORE_BORDER => within 1 m c
  | CORE => within 2 m c
  | GUARD => within 0 m c && negb (within 1 m c)
  | BORDER => within 1 m c && negb (within 2 m c)
  end.

(** The supercells of the grid that satisfy [P]. *)
Definition select (P : DataSpace -> bool) (m : MappingDescription) : list DataSpace :=
  List.filter P (blocks m.(gridSuperCells)).

(** Guards in every dimension, with room for [k] of them on both sides. *)
Definition room (k : Z) (m : MappingDescription) : Prop :=
  Forall2 (fun n g => 0 <= g /\ 1 <= n /\ 2 * k * g <= n) m.(gridSuperCells) m.(guardingSuperCells).

(** ** Boxes of supercells *)

Lemma in_box_spec lo hi c : in_box lo hi c = true <-> Forall3 (fun l h x => l <= x < h) lo hi c.
Proof.
  revert hi c. induction lo as [|l lo IH]; intros [|h hi] [|x c]; cbn [in_box];
    try (split; [done|by inversion 1]); [split; [constructor|done]|].
  rewrite !andb_true_iff, Z.leb_le, Z.ltb_lt, IH. split; [intros [? ?]; by constructor|].
  inversion 1; subst. done.
Qed.

(** A block index of an extent, moved by a shift, runs through the box of that extent at
    the shift. *)
Lemma box_onto s l n :
  Forall3 (fun s l n => 0 <= s /\ s + l <= n) s l n ->
  map (fun v => vadd v s) (blocks l) ≡ₚ List.filter (in_box s (vadd s l)) (blocks n).
Proof.
  intros H. apply perm_of_inverse with (fun c => vsub c s); [apply NoDup_blocks|apply NoDup_select|..].
  - intros v Hv%elem_of_blocks. rewrite elem_of_select, in_box_spec. unfold in_range in *.
    revert v Hv. induction H as [|s l n ss ls ns Hs H IH]; intros v Hv; inversion Hv as [|? x ? xs Hx Hxs]; subst.
    { split_and!; constructor. }
    destruct (IH xs Hxs) as ((I1 & I2) & I3). cbn. unfold vadd, vsub in I1, I2, I3.
    split_and!; [constructor; [lia|done]|constructor; [lia|done]|]. f_equal; [lia|done].
  - intros c [Hr Hb]%elem_of_select. rewrite in_box_spec in Hb. rewrite elem_of_blocks. unfold in_range in *.
    revert c Hr Hb. induction H as [|s l n ss ls ns Hs H IH]; intros c Hr Hb; inversion Hr as [|? x ? xs Hx Hxs]; subst.
    { split; constructor. }
    cbn in Hb. inversion Hb; subst. destruct (IH xs) as (I1 & I2); [done|done|]. cbn. unfold vadd, vsub in I1, I2.
    split; [constructor; [lia|done]|]. f_equal; [lia|done].
Qed.

Lemma select_box s l n (P : DataSpace -> bool) :
  Forall3 (fun s l n => 0 <= s /\ s + l <= n) s l n ->
  (forall c, in_range n c -> P c = in_box s (vadd s l) c) ->
  map (fun v => vadd v s) (blocks l) ≡ₚ List.filter P (blocks n).
Proof.
  intros H HP. rewrite (box_onto _ _ _ H). apply NoDup_Permutation; [apply NoDup_select..|].
  intros c. rewrite !elem_of_select. split; intros [Hr Hc]; (split; [done|]); [rewrite HP|rewrite <- HP]; done.
Qed.

(** ** Index arithmetic of the guard *)

(** The mixed-radix digits the guard mapping takes from a linear index. *)
Lemma guard_digits3 a b r0 r1 r2 :
  0 <= r0 < a -> 0 <= r1 < b -> 0 <= r2 ->
  let i := r2 * (a * b) + r1 * a + r0 in
  Z.rem i a = r0 /\ Z.rem (Z.quot i a) b = r1 /\ Z.quot i (a * b) = r2.
Proof.
  intros H0 H1 H2 i. subst i.
  assert (0 <= r2 * (a * b) + r1 * a + r0)
    by (repeat apply Z.add_nonneg_nonneg; repeat apply Z.mul_nonneg_nonneg; lia).
  assert (Eq : (r2 * (a * b) + r1 * a + r0) / a = r2 * b + r1)
    by (symmetry; apply Z.div_unique with r0; [lia|ring]).
  assert (0 < a * b) by nia.
  rewrite (Z.quot_div_nonneg _ a), (Z.quot_div_nonneg _ (a * b)), Eq, (Z.rem_mod_nonneg _ a) by lia.
  split_and!.
  - symmetry; apply Z.mod_unique with (r2 * b + r1); [lia|ring].
  - rewrite Z.rem_mod_nonneg by nia. symmetry; apply Z.mod_unique with r2; lia.
  - symmetry. apply Z.div_unique with (r1 * a + r0); [nia|ring].
Qed.

Lemma has_digits3 a b c i :
  0 <= a -> 0 <= b -> 0 <= i < a * b * c ->
  exists r0 r1 r2, 0 <= r0 < a /\ 0 <= r1 < b /\ 0 <= r2 < c /\ i = r2 * (a * b) + r1 * a + r0.
Proof.
  intros Ha Hb Hi. assert (0 < a) by (destruct (Z.eq_dec a 0) as [->|]; lia).
  assert (0 < b) by (destruct (Z.eq_dec b 0) as [->|]; lia).
  exists (i mod a), (i / a mod b), (i / a / b).
  pose proof (Z.mod_pos_bound i a ltac:(lia)). pose proof (Z.mod_pos_bound (i / a) b ltac:(lia)).
  pose proof (Z.div_mod i a ltac:(lia)). pose proof (Z.div_mod (i / a) b ltac:(lia)).
  split_and!; try lia.
  - apply Z.div_pos; [apply Z.div_pos|]; lia.
  - apply Z.div_lt_upper_bound; [lia|]. apply Z.div_lt_upper_bound; [lia|]. nia.
Qed.

Lemma guard_digits2 a r0 r1 :
  0 <= r0 < a -> 0 <= r1 -> Z.rem (r1 * a + r0) a = r0 /\ Z.quot (r1 * a + r0) a = r1.
Proof.
  intros H0 H1. rewrite Z.rem_mod_nonneg, Z.quot_div_nonneg by nia. split.
  - symmetry; apply Z.mod_unique with r1; lia.
  - symmetry; apply Z.div_unique with r0; lia.
Qed.

Lemma has_digits2 a b i :
  0 <= a -> 0 <= i < a * b -> exists r0 r1, 0 <= r0 < a /\ 0 <= r1 < b /\ i = r1 * a + r0.
Proof.
  intros Ha Hi. assert (0 < a) by (destruct (Z.eq_dec a 0) as [->|]; lia).
  exists (i mod a), (i / a). pose proof (Z.mod_pos_bound i a ltac:(lia)).
  pose proof (Z.div_mod i a ltac:(lia)).
  split_and!; [lia..|apply Z.div_pos; lia|apply Z.div_lt_upper_bound; lia|lia].
Qed.

(** The block a guard supercell of a plane is worked on by. *)
Definition guard_block2 (gx gy x y cx cy : Z) : DataSpace :=
  if cy <? gy then [cy * x + cx; 0]
  else if y - gy <=? cy then [(cy - (y - gy)) * x + cx; 1]
  else if cx <? gx then [x * gy + ((cy - gy) * gx + cx); 0]
  else [x * gy + ((cy - gy) * gx + (cx - (x - gx))); 1].

Definition guard_cell2 (gx gy x y cx cy : Z) : Prop :=
  0 <= cx < x /\ 0 <= cy < y /\ ~ (gx <= cx < x - gx /\ gy <= cy < y - gy).

Section Guard2.
Context (gx gy x y : Z) (Hgx : 0 <= gx) (Hgy : 0 <= gy) (Hx : 1 <= x) (Hy : 1 <= y)
  (Hx2 : 2 * gx <= x) (Hy2 : 2 * gy <= y).

Lemma guard2_forward bx b :
  0 <= bx < x * gy + (y - 2 * gy) * gx -> 0 <= b < 2 ->
  exists cx cy, guard_index2 gx gy x y bx b = [cx; cy] /\ guard_cell2 gx gy x y cx cy /\
    guard_block2 gx gy x y cx cy = [bx; b].
Proof using All.
  intros Hb Hp. assert (Hp' : b = 0 \/ b = 1) by lia. clear Hp.
  unfold guard_index2, guard_cell2, guard_block2. destruct (Z.ltb_spec bx (x * gy)) as [Hl|Hl].
  - destruct (has_digits2 x gy bx) as (r0 & r1 & H0 & H1 & ->); [lia|lia|].
    destruct (guard_digits2 x r0 r1 H0) as [-> ->]; [lia|]. do 2 eexists. split; [done|].
    destruct Hp' as [->| ->]; repeat case_match; split_and!; try lia; repeat f_equal; lia.
  - destruct (has_digits2 gx (y - 2 * gy) (bx - x * gy)) as (r0 & r1 & H0 & H1 & Ei); [lia|lia|].
    rewrite Ei. destruct (guard_digits2 gx r0 r1 H0) as [-> ->]; [lia|]. do 2 eexists. split; [done|].
    destruct Hp' as [->| ->]; repeat case_match; split_and!; try lia; repeat f_equal; lia.
Qed.

Lemma guard2_backward cx cy :
  guard_cell2 gx gy x y cx cy ->
  exists bx b, guard_block2 gx gy x y cx cy = [bx; b] /\
    0 <= bx < x * gy + (y - 2 * gy) * gx /\ 0 <= b < 2 /\ guard_index2 gx gy x y bx b = [cx; cy].
Proof using All.
  intros (Hcx & Hcy & Hout). unfold guard_block2, guard_index2.
  assert (0 <= (y - 2 * gy) * gx) by nia.
  destruct (Z.ltb_spec cy gy) as [H1|H1].
  { do 2 eexists. split_and!; [done|nia..|]. rewrite (proj2 (Z.ltb_lt _ _)) by nia.
    destruct (guard_digits2 x cx cy) as [-> ->]; [lia..|]. repeat f_equal; lia. }
  destruct (Z.leb_spec (y - gy) cy) as [H2|H2].
  { do 2 eexists. split_and!; [done|nia..|]. rewrite (proj2 (Z.ltb_lt _ _)) by nia.
    destruct (guard_digits2 x cx (cy - (y - gy))) as [-> ->]; [lia..|]. repeat f_equal; lia. }
  destruct (Z.ltb_spec cx gx) as [H3|H3].
  - do 2 eexists. split_and!; [done|nia..|]. rewrite (proj2 (Z.ltb_ge _ _)) by nia.
    rewrite Z.add_simpl_l. destruct (guard_digits2 gx cx (cy - gy)) as [-> ->]; [lia..|]. repeat f_equal; lia.
  - do 2 eexists. split_and!; [done|nia..|]. rewrite (proj2 (Z.ltb_ge _ _)) by nia.
    rewrite Z.add_simpl_l. destruct (guard_digits2 gx (cx - (x - gx)) (cy - gy)) as [-> ->]; [lia..|]. repeat f_equal; lia.
Qed.
End Guard2.

Definition guard_block3 (gx gy gz x y z cx cy cz : Z) : DataSpace :=
  let x_ := x - 2 * gx in
  let z_ := z - 2 * gz in
  let V1 := x * y * gz in
  let V2 := z_ * y * gx in
  if cz <? gz then [cz * (x * y) + cy * x + cx; 0; 0]
  else if z - gz <=? cz then [(cz - (z - gz)) * (x * y) + cy * x + cx; 1; 0]
  else if cx <? gx then [V1 + (cx * (y * z_) + (cz - gz) * y + cy); 0; 0]
  else if x - gx <=? cx then [V1 + ((cx - (x - gx)) * (y * z_) + (cz - gz) * y + cy); 1; 0]
  else if cy <? gy then [V1 + V2 + (cy * (x_ * z_) + (cz - gz) * x_ + (cx - gx)); 0; 0]
  else [V1 + V2 + ((cy - (y - gy)) * (x_ * z_) + (cz - gz) * x_ + (cx - gx)); 1; 0].

Definition guard_cell3 (gx gy gz x y z cx cy cz : Z) : Prop :=
  0 <= cx < x /\ 0 <= cy < y /\ 0 <= cz < z /\
  ~ (gx <= cx < x - gx /\ gy <= cy < y - gy /\ gz <= cz < z - gz).

(** A linear index with its digits is inside the volume. *)
Lemma digits3_bound a b c r0 r1 r2 :
  0 <= r0 < a -> 0 <= r1 < b -> 0 <= r2 < c -> 0 <= r2 * (a * b) + r1 * a + r0 < a * b * c.
Proof. intros H0 H1 H2. assert (0 <= r1 * a + r0 < a * b) by nia. nia. Qed.

Section Guard3.
Context (gx gy gz x y z : Z) (Hgx : 0 <= gx) (Hgy : 0 <= gy) (Hgz : 0 <= gz)
  (Hx : 1 <= x) (Hy : 1 <= y) (Hz : 1 <= z) (Hx2 : 2 * gx <= x) (Hy2 : 2 * gy <= y) (Hz2 : 2 * gz <= z).

Lemma guard3_forward bx b :
  0 <= bx < x * y * gz + (z - 2 * gz) * (x - 2 * gx) * gy + (z - 2 * gz) * y * gx -> 0 <= b < 2 ->
  exists cx cy cz, guard_index3 gx gy gz x y z bx b = [cx; cy; cz] /\ guard_cell3 gx gy gz x y z cx cy cz /\
    guard_block3 gx gy gz x y z cx cy cz = [bx; b; 0].
Proof using All.
  intros Hb Hp. assert (Hp' : b = 0 \/ b = 1) by lia. clear Hp.
  unfold guard_index3, guard_cell3, guard_block3. destruct (Z.ltb_spec bx (x * y * gz)) as [Hl|Hl].
  - destruct (has_digits3 x y gz bx) as (r0 & r1 & r2 & H0 & H1 & H2 & ->); [lia|lia|lia|].
    destruct (guard_digits3 x y r0 r1 r2 H0 H1) as (-> & -> & ->); [lia|]. do 3 eexists. split; [done|].
    clear Hb Hl. destruct Hp' as [->| ->]; repeat case_match; split_and!; try lia; repeat f_equal; lia.
  - rewrite (proj2 (Z.leb_le _ _)) by lia. cbn [andb].
    destruct (Z.ltb_spec bx (x * y * gz + (z - 2 * gz) * y * gx)) as [Hm|Hm].
    + destruct (has_digits3 y (z - 2 * gz) gx (bx - x * y * gz)) as (r0 & r1 & r2 & H0 & H1 & H2 & Ei); [lia..|].
      rewrite Ei, (Z.mul_comm (z - 2 * gz) y). destruct (guard_digits3 y (z - 2 * gz) r0 r1 r2 H0 H1) as (-> & -> & ->); [lia|].
      do 3 eexists. split; [done|]. clear Hb Hl Hm.
      destruct Hp' as [->| ->]; repeat case_match; split_and!; try lia; repeat f_equal; lia.
    + destruct (has_digits3 (x - 2 * gx) (z - 2 * gz) gy (bx - x * y * gz - (z - 2 * gz) * y * gx))
        as (r0 & r1 & r2 & H0 & H1 & H2 & Ei); [lia..|].
      rewrite Ei. destruct (guard_digits3 (x - 2 * gx) (z - 2 * gz) r0 r1 r2 H0 H1) as (-> & -> & ->); [lia|].
      do 3 eexists. split; [done|]. clear Hb Hl Hm.
      destruct Hp' as [->| ->]; repeat case_match; split_and!; try lia; repeat f_equal; lia.
Qed.

Lemma guard3_backward cx cy cz :
  guard_cell3 gx gy gz x y z cx cy cz ->
  exists bx b, guard_block3 gx gy gz x y z cx cy cz = [bx; b; 0] /\
    0 <= bx < x * y * gz + (z - 2 * gz) * (x - 2 * gx) * gy + (z - 2 * gz) * y * gx /\ 0 <= b < 2 /\
    guard_index3 gx gy gz x y z bx b = [cx; cy; cz].
Proof using All.
  intros (Hcx & Hcy & Hcz & Hout). unfold guard_block3, guard_index3.
  set (V1 := x * y * gz). set (V2 := (z - 2 * gz) * y * gx). set (V3 := (z - 2 * gz) * (x - 2 * gx) * gy).
  assert (HV1 : 0 <= V1) by (unfold V1; repeat apply Z.mul_nonneg_nonneg; lia).
  assert (HV2 : 0 <= V2) by (unfold V2; repeat apply Z.mul_nonneg_nonneg; lia).
  assert (HV3 : 0 <= V3) by (unfold V3; repeat apply Z.mul_nonneg_nonneg; lia).
  assert (E2 : V2 = y * (z - 2 * gz) * gx) by (unfold V2; lia).
  assert (E3 : V3 = (x - 2 * gx) * (z - 2 * gz) * gy) by (unfold V3; lia).
  destruct (Z.ltb_spec cz gz) as [H1|H1].
  { pose proof (digits3_bound x y gz cx cy cz ltac:(lia) ltac:(lia) ltac:(lia)) as Hd. fold V1 in Hd.
    do 2 eexists. split_and!; [done|lia..|]. rewrite (proj2 (Z.ltb_lt _ _)) by lia.
    destruct (guard_digits3 x y cx cy cz) as (-> & -> & ->); [lia..|]. repeat f_equal; lia. }
  destruct (Z.leb_spec (z - gz) cz) as [H2|H2].
  { pose proof (digits3_bound x y gz cx cy (cz - (z - gz)) ltac:(lia) ltac:(lia) ltac:(lia)) as Hd. fold V1 in Hd.
    do 2 eexists. split_and!; [done|lia..|]. rewrite (proj2 (Z.ltb_lt _ _)) by lia.
    destruct (guard_digits3 x y cx cy (cz - (z - gz))) as (-> & -> & ->); [lia..|]. repeat f_equal; lia. }
  assert (Hmid : forall r, 0 <= r < gx -> 0 <= r * (y * (z - 2 * gz)) + (cz - gz) * y + cy < V2).
  { intros r Hr. rewrite E2. apply digits3_bound; lia. }
  assert (Hlast : forall r, gx <= cx < x - gx -> 0 <= r < gy ->
    0 <= r * ((x - 2 * gx) * (z - 2 * gz)) + (cz - gz) * (x - 2 * gx) + (cx - gx) < V3).
  { intros r Hc Hr. rewrite E3. apply digits3_bound; lia. }
  destruct (Z.ltb_spec cx gx) as [H3|H3].
  { specialize (Hmid cx ltac:(lia)). do 2 eexists. split_and!; [done|lia..|].
    rewrite (proj2 (Z.ltb_ge _ _)), (proj2 (Z.leb_le _ _)), (proj2 (Z.ltb_lt _ _)) by lia. cbn [andb].
    rewrite Z.add_simpl_l, (Z.mul_comm (z - 2 * gz) y).
    destruct (guard_digits3 y (z - 2 * gz) cy (cz - gz) cx) as (-> & -> & ->); [lia..|]. repeat f_equal; lia. }
  destruct (Z.leb_spec (x - gx) cx) as [H4|H4].
  { specialize (Hmid (cx - (x - gx)) ltac:(lia)). do 2 eexists. split_and!; [done|lia..|].
    rewrite (proj2 (Z.ltb_ge _ _)), (proj2 (Z.leb_le _ _)), (proj2 (Z.ltb_lt _ _)) by lia. cbn [andb].
    rewrite Z.add_simpl_l, (Z.mul_comm (z - 2 * gz) y).
    destruct (guard_digits3 y (z - 2 * gz) cy (cz - gz) (cx - (x - gx))) as (-> & -> & ->); [lia..|]. repeat f_equal; lia. }
  destruct (Z.ltb_spec cy gy) as [H5|H5].
  - specialize (Hlast cy ltac:(lia) ltac:(lia)). do 2 eexists. split_and!; [done|lia..|].
    rewrite (proj2 (Z.ltb_ge _ V1)), (proj2 (Z.leb_le _ _)), (proj2 (Z.ltb_ge _ _)) by lia. cbn [andb].
    rewrite <- Z.sub_add_distr, Z.add_simpl_l.
    destruct (guard_digits3 (x - 2 * gx) (z - 2 * gz) (cx - gx) (cz - gz) cy) as (-> & -> & ->); [lia..|]. repeat f_equal; lia.
  - specialize (Hlast (cy - (y - gy)) ltac:(lia) ltac:(lia)). do 2 eexists. split_and!; [done|lia..|].
    rewrite (proj2 (Z.ltb_ge _ V1)), (proj2 (Z.leb_le _ _)), (proj2 (Z.ltb_ge _ _)) by lia. cbn [andb].
    rewrite <- Z.sub_add_distr, Z.add_simpl_l.
    destruct (guard_digits3 (x - 2 * gx) (z - 2 * gz) (cx - gx) (cz - gz) (cy - (y - gy))) as (-> & -> & ->); [lia..|]. repeat f_equal; lia.
Qed.
End Guard3.

(** ** The areas *)

Lemma smul_1 v : smul_v 1 v = v.
Proof. unfold smul_v. rewrite <- (map_id v) at 2. apply map_ext. intros x. lia. Qed.

Lemma within_0 m c : room 0 m -> in_range m.(gridSuperCells) c -> within 0 m c = true.
Proof.
  intros Hm Hc. unfold within. rewrite in_box_spec. unfold room, in_range in *. revert c Hc.
  induction Hm as [|n g ns gs Hng H IH]; intros c Hc; inversion Hc as [|? x ? xs Hx Hxs]; subst; cbn; constructor;
    [lia|by apply IH].
Qed.

Lemma room_weaken k k' m : 0 <= k' <= k -> room k m -> room k' m.
Proof. intros Hk Hm. eapply Forall2_impl; [exact Hm|]. cbn. intros n g (Hg & Hn & H). split_and!; nia. Qed.

Lemma room_length k m : room k m -> length m.(guardingSuperCells) = length m.(gridSuperCells).
Proof. intros H. symmetry. by eapply Forall2_length. Qed.

(** The supercells inside [k] guards are the blocks of an extent, moved by [k] guards. *)
Lemma within_onto k m :
  0 <= k -> room k m ->
  map (fun v => vadd v (smul_v k m.(guardingSuperCells)))
    (blocks (vsub m.(gridSuperCells) (smul_v (2 * k) m.(guardingSuperCells)))) ≡ₚ select (within k m) m.
Proof.
  intros Hk Hm. apply select_box.
  - unfold room in Hm. induction Hm as [|n g ns gs Hng H IH]; cbn; constructor; [nia|done].
  - intros c _. unfold within. f_equal. symmetry. unfold room in Hm.
    induction Hm as [|n g ns gs Hng H IH]; cbn; [done|]. f_equal; [lia|done].
Qed.

Definition two_or_three (m : MappingDescription) : Prop :=
  length m.(gridSuperCells) = 2%nat \/ length m.(gridSuperCells) = 3%nat.

Lemma guard_onto g n :
  room 1 (mkMappingDescription n g) -> two_or_three (mkMappingDescription n g) ->
  map (guard_index g n) (blocks (guard_gridDim g n)) ≡ₚ
    List.filter (fun c => negb (in_box g (vsub n g) c)) (blocks n).
Proof.
  unfold room, two_or_three. cbn [gridSuperCells guardingSuperCells]. intros Hr [L|L].
  - destruct n as [|x [|y [|]]]; try discriminate L. clear L.
    inversion Hr as [|? gx ? ? Hx Hr1]; subst. inversion Hr1 as [|? gy ? ? Hy Hr2]; subst. inversion Hr2; subst.
    apply perm_of_inverse with (fun c => guard_block2 gx gy x y (at_ c 0) (at_ c 1));
      [apply NoDup_blocks|apply NoDup_select|..].
    + intros v Hv%elem_of_blocks. inversion Hv as [|? bx ? ? Hb Hv1]; subst.
      inversion Hv1 as [|? b ? ? Hb2 Hv2]; subst. inversion Hv2; subst.
      destruct (guard2_forward gx gy x y) with bx b as (cx & cy & E & (H1 & H2 & H3) & I); [lia..|].
      cbn [guard_index]. rewrite E. cbn [at_ nth]. split; [|done]. rewrite elem_of_select. split.
      * repeat (constructor; [lia|]). constructor.
      * cbn. rewrite negb_true_iff, andb_true_r, !andb_false_iff, !Z.leb_gt, !Z.ltb_ge. lia.
    + intros c [Hc Hb]%elem_of_select. inversion Hc as [|? cx ? ? Hcx Hc1]; subst.
      inversion Hc1 as [|? cy ? ? Hcy Hc2]; subst. inversion Hc2; subst. cbn [at_ nth].
      cbn in Hb. rewrite negb_true_iff, andb_true_r, !andb_false_iff, !Z.leb_gt, !Z.ltb_ge in Hb.
      destruct (guard2_backward gx gy x y) with cx cy as (bx & b & E & H1 & H2 & I); [lia..|unfold guard_cell2; lia|].
      rewrite E. cbn [guard_index]. split; [|done]. apply elem_of_blocks. repeat (constructor; [lia|]). constructor.
  - destruct n as [|x [|y [|z [|]]]]; try discriminate L. clear L.
    inversion Hr as [|? gx ? ? Hx Hr1]; subst. inversion Hr1 as [|? gy ? ? Hy Hr2]; subst.
    inversion Hr2 as [|? gz ? ? Hz Hr3]; subst. inversion Hr3; subst.
    apply perm_of_inverse with (fun c => guard_block3 gx gy gz x y z (at_ c 0) (at_ c 1) (at_ c 2));
      [apply NoDup_blocks|apply NoDup_select|..].
    + intros v Hv%elem_of_blocks. inversion Hv as [|? bx ? ? Hb Hv1]; subst.
      inversion Hv1 as [|? b ? ? Hb2 Hv2]; subst. inversion Hv2 as [|? b3 ? ? Hb3 Hv3]; subst. inversion Hv3; subst.
      assert (b3 = 0) as -> by lia.
      destruct (guard3_forward gx gy gz x y z) with bx b as (cx & cy & cz & E & (H1 & H2 & H3 & H4) & I); [lia..|].
      cbn [guard_index]. rewrite E. cbn [at_ nth]. split; [|done]. rewrite elem_of_select. split.
      * repeat (constructor; [lia|]). constructor.
      * cbn. rewrite negb_true_iff, andb_true_r, !andb_false_iff, !Z.leb_gt, !Z.ltb_ge. lia.
    + intros c [Hc Hb]%elem_of_select. inversion Hc as [|? cx ? ? Hcx Hc1]; subst.
      inversion Hc1 as [|? cy ? ? Hcy Hc2]; subst. inversion Hc2 as [|? cz ? ? Hcz Hc3]; subst.
      inversion Hc3; subst. cbn [at_ nth].
      cbn in Hb. rewrite negb_true_iff, andb_true_r, !andb_false_iff, !Z.leb_gt, !Z.ltb_ge in Hb.
      destruct (guard3_backward gx gy gz x y z) with cx cy cz as (bx & b & E & H1 & H2 & I);
        [lia..|unfold guard_cell3; lia|].
      rewrite E. cbn [guard_index]. split; [|done]. apply elem_of_blocks. repeat (constructor; [lia|]). constructor.
Qed.

Lemma select_ext (P Q : DataSpace -> bool) m :
  (forall c, in_range m.(gridSuperCells) c -> P c = Q c) -> select P m = select Q m.
Proof.
  intros H. unfold select. apply List.filter_ext_in. intros c Hc.
  apply H, elem_of_blocks. by apply list_elem_of_In.
Qed.

Lemma filter_filter {A} (P Q : A -> bool) l : List.filter P (List.filter Q l) = List.filter (fun x => Q x && P x) l.
Proof. induction l as [|x l IH]; [done|]. cbn. destruct (Q x); cbn; [destruct (P x)|]; by rewrite IH. Qed.

Lemma filter_of_map {A B} (P : B -> bool) (f : A -> B) l :
  List.filter P (map f l) = map f (List.filter (fun x => P (f x)) l).
Proof. induction l as [|x l IH]; [done|]. cbn. destruct (P (f x)); cbn; by rewrite IH. Qed.

Lemma filter_perm {A} (P : A -> bool) l l' : l ≡ₚ l' -> List.filter P l ≡ₚ List.filter P l'.
Proof.
  induction 1 as [|x l l' H IH|x y l|l l' l'' H1 IH1 H2 IH2]; cbn; [done|..].
  - destruct (P x); by rewrite IH.
  - destruct (P x), (P y); try done. constructor.
  - by rewrite IH1.
Qed.

Lemma perm_eq {A} (l l' : list A) : l = l' -> l ≡ₚ l'.
Proof. by intros ->. Qed.

(** Taking the guard off a grid with room for two leaves a grid with room for one. *)
Lemma room_inner m :
  room 2 m -> room 1 (mkMappingDescription (vsub m.(gridSuperCells) (smul_v 2 m.(guardingSuperCells))) m.(guardingSuperCells)).
Proof.
  unfold room. cbn [gridSuperCells guardingSuperCells]. induction 1 as [|n g ns gs Hng H IH]; cbn; constructor; [lia|done].
Qed.

Lemma inner_box m c :
  room 2 m -> in_range (vsub m.(gridSuperCells) (smul_v 2 m.(guardingSuperCells))) c ->
  within 2 m (vadd c m.(guardingSuperCells)) =
  in_box m.(guardingSuperCells)
    (vsub (vsub m.(gridSuperCells) (smul_v 2 m.(guardingSuperCells))) m.(guardingSuperCells)) c.
Proof.
  unfold room, in_range, within. intros Hm. revert c.
  induction Hm as [|n g ns gs Hng H IH]; intros c Hc; inversion Hc as [|? x ? xs Hx Hxs]; subst; [done|].
  cbn. rewrite <- IH by done. f_equal. apply eq_true_iff_eq. rewrite !andb_true_iff, !Z.leb_le, !Z.ltb_lt. lia.
Qed.

(** Rooms the areas need: guards on both sides, and borders of the same size. *)
Definition area_room (a : Area) : Z := match a with CORE | BORDER => 2 | GUARD | CORE_BORDER => 1 | CORE_BORDER_GUARD => 0 end.

(** C23: the area mapper is one to one, as [MapperConcept] promises: over a grid of two
    or three dimensions, in which every dimension has at least one supercell and room
    for the guards on both sides (for CORE and BORDER: for the guards and the borders),
    the supercells the blocks of a launch work on are exactly those of the area, each
    once.  The areas CORE, BORDER and GUARD are those inside two guards, between one and
    two guards, and outside one guard. *)
Theorem area_one_to_one a m :
  two_or_three m -> room (area_room a) m ->
  supercells (makeAreaMapper a m) ≡ₚ select (in_area a m) m.
Proof.
  intros Hd Hr. unfold supercells. cbn [getGridDim getSuperCellIndex AreaMapping_mapper].
  unfold AreaMapping_getSuperCellIndex. cbn [relative_to am_area am_base].
  destruct a; cbn [area_gridDim area_index in_area area_room] in *.
  - apply (within_onto 2); [lia|done].
  - cbv zeta. rewrite <- (map_map (guard_index _ _) (fun c => vadd c m.(guardingSuperCells))).
    rewrite guard_onto; [|by apply room_inner|].
    2: { unfold two_or_three in *. cbn [gridSuperCells]. unfold vsub, smul_v.
         rewrite length_zip_with, length_map, (room_length _ _ Hr). lia. }
    unfold select. change (in_area BORDER m) with (fun c => within 1 m c && negb (within 2 m c)).
    rewrite <- (filter_filter (fun c => negb (within 2 m c)) (within 1 m)).
    rewrite (filter_perm _ _ _ (symmetry (within_onto 1 m ltac:(lia) (room_weaken 2 1 m ltac:(lia) Hr)))).
    rewrite filter_of_map, smul_1. change (2 * 1) with 2. apply Permutation_map, perm_eq.
    apply List.filter_ext_in. intros c Hc%list_elem_of_In%elem_of_blocks. by rewrite inner_box.
  - rewrite guard_onto; [|by destruct m|done]. apply perm_eq. apply select_ext. intros c Hc.
    cbn [in_area]. rewrite within_0 by (done || by apply room_weaken with 1; [lia|]). unfold within. by rewrite smul_1.
  - rewrite <- (within_onto 1 m) by (done || lia). by rewrite smul_1.
  - apply perm_eq. change (fun blockIdx => blockIdx) with (@id DataSpace). rewrite map_id.
    symmetry. unfold select. rewrite <- (List.filter_true (blocks _)) at 2.
    apply List.filter_ext_in. intros c Hc%list_elem_of_In%elem_of_blocks. by apply within_0.
Qed.

Lemma area_one_to_one_witness :
  let m := mkMappingDescription [6; 9] [1; 2] in
  supercells (makeAreaMapper BORDER m) ≡ₚ select (in_area BORDER m) m
  /\ length (supercells (makeAreaMapper BORDER m)) = 18%nat.
Proof.
  split; [|reflexivity]. apply (area_one_to_one BORDER).
  - by left.
  - repeat (constructor; [cbn; lia|]). constructor.
Defined.

(** The constructor's check leaves room for the guards only: on a grid of 3 x 3
    supercells with a guard of 1, which it accepts, no block works on the one supercell
    inside the guard when the border and then the core are processed. *)
Lemma small_grid_has_no_border :
  MappingDescription_new [8; 8] [24; 24] [1; 1] = Ret (mkMappingDescription [3; 3] [1; 1]) /\
  let m := mkMappingDescription [3; 3] [1; 1] in
  getGridDim (makeAreaMapper CORE m) = [-1; -1] /\
  supercells (makeAreaMapper CORE m) ++ supercells (makeAreaMapper BORDER m) = [] /\
  supercells (makeAreaMapper CORE_BORDER m) = [[1; 1]].
Proof. by vm_compute. Qed.

(** The constructor's check is the room for one guard, when the guards are not negative. *)
Lemma new_room superCellSize cells guarding m :
  Forall (fun g => 0 <= g) guarding -> length guarding = length (vquot cells superCellSize) ->
  MappingDescription_new superCellSize cells guarding = Ret m -> room 1 m.
Proof.
  intros Hg HL. unfold MappingDescription_new, room. generalize dependent (vquot cells superCellSize). intros grid HL.
  destruct (forallb _ _) eqn:E; [|done]. intros [= <-]. cbn [gridSuperCells guardingSuperCells].
  revert grid HL E. induction Hg as [|g gs Hg H IH]; intros [|n grid] HL E; try discriminate HL; [constructor|].
  cbn in E. apply andb_true_iff in E as [E1 E2]. apply orb_true_iff in E1 as [E1|E1].
  - apply andb_true_iff in E1 as [->%Z.eqb_eq E1%Z.leb_le]. constructor; [lia|]. apply IH; [by injection HL|done].
  - apply Z.leb_le in E1. constructor; [lia|]. apply IH; [by injection HL|done].
Qed.

(** ** Exchanges *)

(** On which side of the inner range [lo .. hi) a coordinate lies. *)
Definition side (lo hi x : Z) : Z := if x <? lo then -1 else if hi <=? x then 1 else 0.

Definition sides (k : Z) (m : MappingDescription) (c : DataSpace) : DataSpace :=
  per_dim (fun n g x => side (k * g) (n - k * g) x) m.(gridSuperCells) m.(guardingSuperCells) c.

(** The supercells of the area in the direction of an exchange. *)
Definition in_exchange (a : Area) (m : MappingDescription) (ex : Z) (c : DataSpace) : bool :=
  match a with
  | GUARD => bool_decide (sides 1 m c = directions_of m ex)
  | BORDER => within 1 m c && bool_decide (sides 2 m c = directions_of m ex)
  | _ => true
  end.

Definition exchange_area (a : Area) : Prop := a = GUARD \/ a = BORDER.

Lemma exchange_onto a m ex :
  exchange_area a -> room (area_room a) m -> 0 <= ex ->
  supercells (mkExchangeMapping a m ex) ≡ₚ select (in_exchange a m ex) m.
Proof.
  intros Ha Hr Hex. unfold supercells. cbn [getGridDim getSuperCellIndex ExchangeMapping_mapper].
  unfold ExchangeMapping_getSuperCellIndex. cbn [relative_to em_area em_base em_exchangeType].
  unfold in_exchange, sides, within.
  destruct (directions_values (length m.(gridSuperCells)) ex Hex) as [Hd HL].
  fold (directions_of m ex) in Hd, HL. destruct m as [ns gs]. cbn [gridSuperCells guardingSuperCells] in *.
  generalize dependent (directions_of (mkMappingDescription ns gs) ex). intros ds Hd HL.
  unfold room in Hr. cbn [gridSuperCells guardingSuperCells] in Hr.
  apply select_box.
  - revert ds Hd HL. induction Hr as [|n g ns gs Hng Hr IH]; intros [|d ds] Hd HL; try discriminate HL; cbn [per_dim];
      [constructor|]. inversion Hd as [|? ? Hd1 Hds]; subst. constructor; [|apply IH; [done|by injection HL]].
    destruct Ha as [->| ->]; cbn [area_room] in Hng; destruct Hd1 as [->|[->| ->]]; cbn; lia.
  - intros c Hc. apply eq_true_iff_eq. rewrite (in_box_spec (per_dim _ _ _ _)). revert c ds Hd HL Hc.
    induction Hr as [|n g ns gs Hng Hr IH]; intros c [|d ds] Hd HL Hc; try discriminate HL;
      inversion Hc as [|? x ? xs Hx Hxs]; subst.
    { destruct Ha as [->| ->]; (split; [constructor|done]). }
    inversion Hd as [|? ? Hd1 Hds]; subst. specialize (IH xs ds Hds ltac:(by injection HL) Hxs).
    assert (Hcons : forall P l h (L H X : list Z), (P <-> Forall3 (fun l h x => l <= x < h) L H X) ->
      (Forall3 (fun l h x => l <= x < h) (l :: L) (h :: H) (x :: X) <-> l <= x < h /\ P)).
    { intros P l h L H X HP. rewrite HP. split; [by inversion 1|]. intros [? ?]. by constructor. }
    cbn [per_dim vadd zip_with]. rewrite (Hcons _ _ _ _ _ _ IH). clear Hcons IH.
    destruct Ha as [->| ->]; cbn [area_room] in Hng.
    + rewrite !bool_decide_eq_true. cbn [per_dim].
      assert (Hs : side (1 * g) (n - 1 * g) x = d <->
        exchange_shift GUARD n g d <= x < exchange_shift GUARD n g d + exchange_dim GUARD n g d).
      { unfold side. destruct (Z.ltb_spec x (1 * g)), (Z.leb_spec (n - 1 * g) x), Hd1 as [->|[->| ->]]; cbn; lia. }
      rewrite <- Hs. split; [by intros [= -> ->]|by intros [-> ->]].
    + rewrite !andb_true_iff, !bool_decide_eq_true. cbn [per_dim smul_v map vsub zip_with in_box].
      rewrite !andb_true_iff, Z.leb_le, Z.ltb_lt.
      assert (Hs : (1 * g <= x < n - 1 * g) /\ side (2 * g) (n - 2 * g) x = d <->
        exchange_shift BORDER n g d <= x < exchange_shift BORDER n g d + exchange_dim BORDER n g d).
      { unfold side. destruct (Z.ltb_spec x (2 * g)), (Z.leb_spec (n - 2 * g) x), Hd1 as [->|[->| ->]]; cbn; lia. }
      rewrite <- Hs. split.
      * intros [[? ?] [= -> ->]]. done.
      * intros [[? ->] [? ->]]. done.
Qed.

Lemma sides_length k m c :
  length m.(guardingSuperCells) = length m.(gridSuperCells) -> length c = length m.(gridSuperCells) ->
  length (sides k m c) = length m.(gridSuperCells).
Proof.
  unfold sides. destruct m as [ns gs]. cbn [gridSuperCells guardingSuperCells].
  revert gs c. induction ns as [|n ns IH]; intros [|g gs] [|x c] Hg Hc; try discriminate; cbn; [done|].
  rewrite IH; [done|by injection Hg|by injection Hc].
Qed.

Lemma sides_values k m c : Forall (fun d => -1 <= d <= 1) (sides k m c).
Proof.
  unfold sides. destruct m as [ns gs]. cbn [gridSuperCells guardingSuperCells].
  revert gs c. induction ns as [|n ns IH]; intros [|g gs] [|x c]; cbn; constructor; [|apply IH].
  unfold side. repeat case_match; lia.
Qed.

(** Inside [k] guards is on no side. *)
Lemma sides_within k m c :
  0 <= k -> room k m -> length c = length m.(gridSuperCells) ->
  within k m c = bool_decide (direction_code (sides k m c) = 0).
Proof.
  intros Hk Hr HL. apply eq_true_iff_eq. rewrite bool_decide_eq_true.
  unfold within, sides. destruct m as [ns gs]. unfold room in Hr. cbn [gridSuperCells guardingSuperCells] in *.
  revert c HL. induction Hr as [|n g ns gs Hng Hr IH]; intros [|x c] HL; try discriminate HL; [done|].
  specialize (IH c ltac:(by injection HL)). cbn [per_dim smul_v map vsub zip_with in_box direction_code].
  rewrite !andb_true_iff, Z.leb_le, Z.ltb_lt. unfold vsub, smul_v in IH. rewrite IH. clear IH.
  match goal with |- context [direction_code ?l] => set (r := l) end.
  assert (Hp : 0 <= direction_code r).
  { apply direction_code_inv. apply (sides_values k (mkMappingDescription ns gs) c). }
  unfold side. destruct (Z.ltb_spec x (k * g)), (Z.leb_spec (n - k * g) x); cbn; lia.
Qed.

(** The exchanges of a domain, from the first to the last. *)
Definition exchanges (m : MappingDescription) : list Z := seqZ 1 (3 ^ Z.of_nat (length m.(gridSuperCells)) - 1).

Lemma exchanges_cover a m :
  exchange_area a -> room (area_room a) m ->
  (exchanges m ≫= fun ex => supercells (mkExchangeMapping a m ex)) ≡ₚ select (in_area a m) m.
Proof.
  intros Ha Hr. pose proof (room_length _ _ Hr) as HL.
  assert (Hin : forall ex c, ex ∈ exchanges m -> c ∈ supercells (mkExchangeMapping a m ex) <->
      in_range m.(gridSuperCells) c /\ in_exchange a m ex c = true).
  { intros ex c Hex. apply elem_of_seqZ in Hex. rewrite (exchange_onto a m ex Ha Hr) by lia. apply elem_of_select. }
  set (K := match a with GUARD => 1 | _ => 2 end).
  assert (Hdir : forall ex c, in_exchange a m ex c = true -> sides K m c = directions_of m ex).
  { intros ex c H. unfold in_exchange in H.
    destruct Ha as [->| ->]; cbn in K; [|apply andb_true_iff in H as [_ H]]; by apply bool_decide_eq_true in H. }
  apply NoDup_Permutation; [|apply NoDup_select|].
  - apply NoDup_bind; [|intros ex Hex|apply NoDup_seqZ].
    + intros e1 e2 c He1 He2 H1 H2. apply Hin in H1 as [_ H1], H2 as [_ H2]; try done.
      apply Hdir in H1, H2. apply elem_of_seqZ in He1, He2.
      rewrite <- (directions_code (length m.(gridSuperCells)) e1), <- (directions_code (length m.(gridSuperCells)) e2) by lia.
      unfold directions_of in *. congruence.
    + apply elem_of_seqZ in Hex. rewrite (exchange_onto a m ex Ha Hr) by lia. apply NoDup_select.
  - intros c. unfold select. rewrite list_elem_of_bind, elem_of_select.
    assert (Hcov : in_range m.(gridSuperCells) c ->
      in_area a m c = true <-> exists ex, ex ∈ exchanges m /\ in_exchange a m ex c = true).
    2: { split.
      - intros (ex & Hs & He). apply Hin in Hs as [Hc Hi]; [|done]. split; [done|]. apply Hcov; eauto.
      - intros [Hc Hac]. apply Hcov in Hac as (ex & He & Hi); [|done]. exists ex. split; [by apply Hin|done]. }
    intros Hc. pose proof (in_range_length _ _ Hc) as HLc.
    assert (HK : room K m) by (by destruct Ha as [->| ->]).
    pose proof (sides_within K m c ltac:(by destruct Ha as [->| ->]) HK HLc) as HW.
    destruct (direction_code_inv (sides K m c) (sides_values K m c)) as [Hr1 Hr2].
    rewrite (sides_length K m c HL HLc) in Hr1, Hr2.
    assert (Hex : in_exchange a m (direction_code (sides K m c)) c = (match a with BORDER => within 1 m c | _ => true end)).
    { unfold in_exchange, directions_of. rewrite Hr2.
      destruct Ha as [->| ->]; cbn in K; subst K; rewrite bool_decide_eq_true_2 by done; [done|]. by rewrite andb_true_r. }
    assert (Ho : in_area a m c = (match a with BORDER => within 1 m c | _ => true end) && negb (within K m c)).
    { destruct Ha as [->| ->]; cbn [in_area]; [|done]. by rewrite within_0 by (done || by apply room_weaken with 1; [lia|]). }
    rewrite Ho, HW, andb_true_iff, negb_true_iff, bool_decide_eq_false. split.
    + intros [H1 H2]. exists (direction_code (sides K m c)). split; [apply elem_of_seqZ; lia|]. by rewrite Hex.
    + intros (ex & He & Hi). pose proof (Hdir _ _ Hi) as Hs. apply elem_of_seqZ in He.
      assert (E : direction_code (sides K m c) = ex) by (rewrite Hs; apply directions_code; lia).
      rewrite E in Hex |- *. split; [congruence|lia].
Qed.

(** C24: halo exchange.  (1) The exchange mappers of the guard, over all directions but
    0, work on every guard supercell in exactly one direction, and those of the border
    on every border supercell in exactly one direction.  (2) The blocks of the border
    mapper for a direction and those of the guard's exchange mapper for the mirrored
    direction are the same, and block for block the border supercell, moved by the
    domain's inner extent against the direction, is the guard supercell: what a domain
    sends lies where the neighbour in that direction receives it. *)
Theorem halo_exchange m :
  two_or_three m -> room 1 m ->
  (forall a, exchange_area a -> room (area_room a) m ->
    (exchanges m ≫= fun ex => supercells (mkExchangeMapping a m ex)) ≡ₚ select (in_area a m) m) /\
  (forall ex, ex ∈ exchanges m ->
    let send := mkBorderMapping m ex in
    let recv := mkExchangeMapping GUARD m (mirror ex) in
    getGridDim send = getGridDim recv /\
    forall blockIdx, length blockIdx = length m.(gridSuperCells) ->
      vsub (getSuperCellIndex send blockIdx) (vmul (directions_of m ex) (getGridSuperCellsWithoutGuards m)) =
      getSuperCellIndex recv blockIdx).
Proof.
  intros Hd Hr. split; [intros a Ha Hra; by apply exchanges_cover|].
  intros ex Hex send recv.
  assert (Hn : (length m.(gridSuperCells) <= 3)%nat) by (destruct Hd; lia).
  assert (Hex' : 1 <= ex < 27).
  { apply elem_of_seqZ in Hex. destruct Hd as [L|L]; rewrite L in Hex; simpl in Hex; lia. }
  subst send recv. cbn [getGridDim getSuperCellIndex BorderMapping_mapper ExchangeMapping_mapper].
  unfold BorderMapping_getSuperCellIndex, ExchangeMapping_getSuperCellIndex, getGridSuperCellsWithoutGuards, directions_of.
  cbn [relative_to bm_base m_direction em_base em_area em_exchangeType].
  rewrite mirror_directions by lia.
  destruct (directions_values (length m.(gridSuperCells)) ex ltac:(lia)) as [Hv HL].
  generalize dependent (getRelativeDirections (length m.(gridSuperCells)) ex). clear Hex Hex' Hn Hd.
  destruct m as [ns gs]. unfold room in Hr. cbn [gridSuperCells guardingSuperCells] in *.
  intros ds Hv HL. split.
  - revert ds Hv HL. induction Hr as [|n g ns gs Hng Hr IH]; intros [|d ds] Hv HL; try discriminate HL; [done|].
    inversion Hv as [|? ? Hd1 Hds]; subst. cbn [map per_dim]. f_equal; [|apply IH; [done|by injection HL]].
    by destruct Hd1 as [->|[->| ->]].
  - revert ds Hv HL. induction Hr as [|n g ns gs Hng Hr IH]; intros [|d ds] Hv HL [|b bs] HLb; try discriminate; [done|].
    inversion Hv as [|? ? Hd1 Hds]; subst. cbn [map per_dim vadd vsub vmul smul_v zip_with].
    f_equal; [|apply IH; [done|by injection HL|by injection HLb]].
    unfold border_shift, exchange_shift. destruct Hd1 as [->|[->| ->]]; cbn -[Z.mul Z.add Z.sub]; repeat case_match; lia.
Qed.

Lemma halo_exchange_witness :
  let m := mkMappingDescription [6; 9] [1; 2] in
  (exchanges m ≫= fun ex => supercells (mkExchangeMapping GUARD m ex)) ≡ₚ select (in_area GUARD m) m
  /\ vsub (getSuperCellIndex (mkBorderMapping m RIGHT) [0; 3]) [4; 0] = [0; 5].
Proof.
  assert (H : two_or_three (mkMappingDescription [6; 9] [1; 2])) by (by left).
  assert (Hr : room 1 (mkMappingDescription [6; 9] [1; 2])) by (repeat (constructor; [cbn; lia|]); constructor).
  destruct (halo_exchange _ H Hr) as [H1 H2]. split; [apply H1; [by left|done]|].
  destruct (H2 RIGHT) as [_ H3]; [apply elem_of_seqZ; by vm_compute|]. exact (H3 [0; 3] eq_refl).
Defined.

(** ** Intervals *)

Lemma vadd_comm a b : vadd a b = vadd b a.
Proof. revert b. induction a as [|x a IH]; intros [|y b]; cbn; [done..|]. f_equal; [lia|apply IH]. Qed.

Lemma interval_onto b num n :
  Forall3 (fun b l n => 0 <= b /\ b + l <= n) b num n ->
  supercells (mkIntervalMapping b num) ≡ₚ List.filter (in_box b (vadd b num)) (blocks n).
Proof.
  intros H. rewrite <- (box_onto _ _ _ H). unfold supercells. cbn. apply perm_eq, map_ext.
  intros v. apply vadd_comm.
Qed.
