(* ===== verification/StrideMap.v ===== *)
(** * Strided sweeps over an area

    A strided mapper splits an area into [stride ^ DIM] lattices that are processed one
    after the other; the supercells of one lattice lie at least [stride] apart.  The
    file models [StrideMapping] and [StrideIntervalMapping] behind an interface of
    strided mappers, their common [next], the launch loop of
    [ParticlesBase::shiftParticlesImpl] that sweeps a whole area, and [RangeMapping],
    which cuts a linear range out of any mapper. *)
From Stdlib Require Import ZArith Lia.
From stdpp Require Import base list list_numbers numbers strings.
From S2P Require Import Prelude Outcome DataSpaces ExchangeMask GridMapping.
Open Scope Z_scope.

(** [blockIdx * stride]. *)
Definition vmul_s (a : DataSpace) (s : Z) : DataSpace := map (fun x => x * s) a.

(** The number of blocks per dimension of the lattice at [offset] of [extent]. *)
Definition strided_gridDim (extent offset : DataSpace) (stride : Z) : DataSpace :=
  vquot_s (vsub_s (vadd_s (vsub extent offset) stride) 1) stride.

(** ** StrideMapping *)

(** [StrideMappingMethods], specialised for three areas. *)
Definition stride_extent (a : Area) (m : MappingDescription) : DataSpace :=
  match a with
  | CORE_BORDER_GUARD => m.(gridSuperCells)
  | CORE => vsub m.(gridSuperCells) (smul_v 4 m.(guardingSuperCells))
  | CORE_BORDER => vsub m.(gridSuperCells) (smul_v 2 m.(guardingSuperCells))
  | _ => []
  end.
Definition stride_shift (a : Area) (m : MappingDescription) (value : DataSpace) : DataSpace :=
  match a with
  | CORE_BORDER_GUARD => value
  | CORE => vadd value (smul_v 2 m.(guardingSuperCells))
  | CORE_BORDER => vadd value m.(guardingSuperCells)
  | _ => []
  end.

Record StrideMapping := mkStrideMapping
  { st_area : Area; st_stride : Z; st_base : MappingDescription; st_offset : DataSpace }.

(** The constructor. *)
Definition makeStrideAreaMapper (a : Area) (stride : Z) (base : MappingDescription) : StrideMapping :=
  mkStrideMapping a stride base (create (length base.(gridSuperCells)) 0).

Definition StrideMapping_getGridDim (mp : StrideMapping) : DataSpace :=
  strided_gridDim (stride_extent mp.(st_area) mp.(st_base)) mp.(st_offset) mp.(st_stride).

Definition StrideMapping_getSuperCellIndex (origin : Area) (mp : StrideMapping) (blockIdx : DataSpace) : DataSpace :=
  let blockId := vadd (vmul_s blockIdx mp.(st_stride)) mp.(st_offset) in
  relative_to origin mp.(st_base) (stride_shift mp.(st_area) mp.(st_base) blockId).

#[export] Instance StrideMapping_mapper : MapperConcept StrideMapping := {
  getGridDim := StrideMapping_getGridDim;
  getSuperCellIndex := StrideMapping_getSuperCellIndex GUARD;
}.

(** ** StrideIntervalMapping *)

Record StrideIntervalMapping := mkStrideIntervalMapping
  { si_stride : Z; si_begin : DataSpace; si_num : DataSpace; si_offset : DataSpace }.

Definition makeStrideIntervalMapper (stride : Z) (beginSupercell numSupercells : DataSpace) : StrideIntervalMapping :=
  mkStrideIntervalMapping stride beginSupercell numSupercells (create (length numSupercells) 0).

(** [StrideMapperFactory] of an interval mapper factory. *)
Definition strided_interval (stride : Z) (factory : IntervalMapping) : StrideIntervalMapping :=
  makeStrideIntervalMapper stride factory.(im_begin) factory.(im_num).

#[export] Instance StrideIntervalMapping_mapper : MapperConcept StrideIntervalMapping := {
  getGridDim mp := strided_gridDim mp.(si_num) mp.(si_offset) mp.(si_stride);
  getSuperCellIndex mp blockIdx := vadd (vadd mp.(si_begin) mp.(si_offset)) (vmul_s blockIdx mp.(si_stride));
}.

(** ** The interface of strided mappers *)

Class StridedMapper (M : Type) := {
  strided_concept :: MapperConcept M;
  stride_of : M -> Z;
  dim_of : M -> nat;
  getOffset : M -> DataSpace;
  setOffset : M -> DataSpace -> M;
}.

#[export] Instance StrideMapping_strided : StridedMapper StrideMapping := {
  stride_of := st_stride;
  dim_of mp := length mp.(st_base).(gridSuperCells);
  getOffset := st_offset;
  setOffset mp offset := mkStrideMapping mp.(st_area) mp.(st_stride) mp.(st_base) offset;
}.

#[export] Instance StrideIntervalMapping_strided : StridedMapper StrideIntervalMapping := {
  stride_of := si_stride;
  dim_of mp := length mp.(si_num);
  getOffset := si_offset;
  setOffset mp offset := mkStrideIntervalMapping mp.(si_stride) mp.(si_begin) mp.(si_num) offset;
}.

Section Sweep.
Context {M : Type} `{StridedMapper M}.

(** [next]: the recursion skips lattices without a block.  [None]: out of fuel. *)
Fixpoint next (fuel : nat) (mp : M) : option (bool * M) :=
  match fuel with
  | O => None
  | S fuel =>
      let space := create (dim_of mp) (stride_of mp) in
      let linearOffset := linearize space (getOffset mp) + 1 in
      let mp := setOffset mp (mapToND space linearOffset) in
      if productOfComponents space <=? linearOffset then Some (false, mp)
      else if productOfComponents (getGridDim mp) =? 0 then next fuel mp
      else Some (true, mp)
  end.

(** The launches of [do { kernel(mapper) } while(mapper.next())], each the list of the
    supercells its blocks work on. *)
Fixpoint sweep (fuel : nat) (mp : M) : option (list (list DataSpace)) :=
  match fuel with
  | O => None
  | S fuel =>
      '(more, mp') ← next (Z.to_nat (productOfComponents (create (dim_of mp) (stride_of mp)))) mp;
      if (more : bool) then rest ← sweep fuel mp'; Some (supercells mp :: rest) else Some [supercells mp]
  end.
End Sweep.

(** ** RangeMapping *)

Record RangeMapping (M : Type) := mkRangeMapping
  { rm_base : M; baseGridDim : DataSpace; beginIdx : Z; endIdx : Z;
    userDefinedBeginIdx : Z; userDefinedEndIdx : Z }.
Arguments mkRangeMapping {M}.
Arguments rm_base {M}.
Arguments baseGridDim {M}.
Arguments beginIdx {M}.
Arguments endIdx {M}.
Arguments userDefinedBeginIdx {M}.
Arguments userDefinedEndIdx {M}.

Section Range.
Context {M : Type} `{MapperConcept M}.

Definition clampRange (r : RangeMapping M) : RangeMapping M :=
  let dims := getGridDim r.(rm_base) in
  let baseMapperLast := u32 (productOfComponents dims) in
  let e := if r.(userDefinedEndIdx) =? u32 (-1) then baseMapperLast else r.(userDefinedEndIdx) in
  let e := Z.min e baseMapperLast in
  mkRangeMapping r.(rm_base) dims (Z.min r.(userDefinedBeginIdx) e) e r.(userDefinedBeginIdx) r.(userDefinedEndIdx).

(** The constructor; a range without an end passes [uint32_t(-1)]. *)
Definition makeRangeMapper (base : M) (begin_ end_ : Z) : RangeMapping M :=
  clampRange (mkRangeMapping base (getGridDim base) 0 0 begin_ end_).

Definition range_size (r : RangeMapping M) : Z := u32 (r.(endIdx) - r.(beginIdx)).
Definition range_last (r : RangeMapping M) : Z := if r.(endIdx) =? 0 then 0 else r.(endIdx) - 1.

(** [getGridDim()] clamps the range again, then gives its size. *)
Definition range_getGridDim (r : RangeMapping M) : DataSpace * RangeMapping M :=
  let r := clampRange r in ([s32 (range_size r)], r).

Definition range_beginND (r : RangeMapping M) : DataSpace := mapToND r.(baseGridDim) (s32 r.(beginIdx)).
Definition range_endND (r : RangeMapping M) : DataSpace := mapToND r.(baseGridDim) (s32 r.(endIdx)).
Definition range_lastND (r : RangeMapping M) : DataSpace := mapToND r.(baseGridDim) (s32 (range_last r)).

Definition range_getSuperCellIndex (r : RangeMapping M) (blockIdx : DataSpace) : DataSpace :=
  let blockIdxNDim := mapToND r.(baseGridDim) (s32 (u32 (r.(beginIdx) + u32 (at_ blockIdx 0)))) in
  getSuperCellIndex r.(rm_base) blockIdxNDim.
End Range.

(** ** Lattices *)

(** The points of the lattice at [off] with the given stride inside [extent]. *)
Definition lattice (stride : Z) (extent off : DataSpace) : list DataSpace :=
  map (fun b => vadd (vmul_s b stride) off) (blocks (strided_gridDim extent off stride)).

Definition residue (stride : Z) (c : DataSpace) : DataSpace := map (fun x => x mod stride) c.

Lemma strided_dim_bound e off s x :
  0 <= e -> 0 <= off < s ->
  0 <= x < Z.quot (e - off + s - 1) s <-> 0 <= x /\ x * s + off < e.
Proof.
  intros He Ho. rewrite Z.quot_div_nonneg by lia.
  split; intros [H0 H1]; (split; [lia|]).
  - assert (x + 1 <= (e - off + s - 1) / s) as H2 by lia.
    pose proof (Z.mul_div_le (e - off + s - 1) s ltac:(lia)). nia.
  - assert (x + 1 <= (e - off + s - 1) / s); [|lia]. apply Z.div_le_lower_bound; lia.
Qed.

Lemma elem_of_lattice s e off c :
  Forall (fun n => 0 <= n) e -> length off = length e -> Forall (fun o => 0 <= o < s) off ->
  c ∈ lattice s e off <-> in_range e c /\ residue s c = off.
Proof.
  intros He HL Ho. unfold lattice. rewrite list_elem_of_fmap.
  assert (H : forall b, b ∈ blocks (strided_gridDim e off s) <-> in_range (strided_gridDim e off s) b) by apply elem_of_blocks.
  setoid_rewrite H. clear H. unfold in_range, strided_gridDim.
  revert off c HL Ho. induction He as [|n e Hn He IH]; intros [|o off] c HL Ho; try discriminate HL.
  { split.
    - intros (b & -> & Hb). inversion Hb; subst. split; [constructor|done].
    - intros [Hc _]. inversion Hc; subst. exists []. split; [done|constructor]. }
  inversion Ho as [|? ? Ho1 Hos]; subst.
  split.
  - intros (b & -> & Hb). inversion Hb as [|? x ? bs Hx Hbs]; subst.
    destruct (proj1 (IH off _ ltac:(by injection HL) Hos) (ex_intro _ bs (conj eq_refl Hbs))) as [I1 I2].
    apply strided_dim_bound in Hx as [Hx1 Hx2]; [|lia..].
    cbn. split; [constructor; [nia|done]|]. f_equal; [|done].
    rewrite Z.add_comm, Z.mod_add by lia. apply Z.mod_small. lia.
  - intros [Hc Hr]. inversion Hc as [|? x ? xs Hx Hxs]; subst. cbn in Hr. injection Hr as Hr1 Hr2.
    destruct (proj2 (IH off xs ltac:(by injection HL) Hos) (conj Hxs Hr2)) as (bs & -> & Hbs).
    exists (x / s :: bs). pose proof (Z.div_mod x s ltac:(lia)) as Hdm. cbn. split; [f_equal; lia|].
    constructor; [|done]. apply strided_dim_bound; [lia..|]. split; [apply Z.div_pos; lia|lia].
Qed.

Lemma NoDup_lattice s e off : 0 < s -> length off = length e -> NoDup (lattice s e off).
Proof.
  intros Hs HL. unfold lattice. apply NoDup_fmap_2_strong; [|apply NoDup_blocks].
  intros b1 b2 Hb1%elem_of_blocks%in_range_length Hb2%elem_of_blocks%in_range_length.
  assert (Hlen : length (strided_gridDim e off s) = length off).
  { unfold strided_gridDim, vquot_s, vsub_s, vadd_s, vsub. rewrite !length_map, length_zip_with. lia. }
  rewrite Hlen in Hb1, Hb2. clear Hlen HL. revert b1 b2 Hb1 Hb2.
  induction off as [|o off IH]; intros [|x1 b1] [|x2 b2] Hb1 Hb2; try discriminate; [done|].
  cbn. intros [= E1 E2]. f_equal; [nia|]. apply IH; [by injection Hb1|by injection Hb2|done].
Qed.

(** The lattices of all offsets partition the extent. *)
Lemma lattices_partition s e :
  0 < s -> Forall (fun n => 0 <= n) e ->
  (blocks (create (length e) s) ≫= fun off => lattice s e off) ≡ₚ blocks e.
Proof.
  intros Hs He.
  assert (Hoff : forall off, off ∈ blocks (create (length e) s) <-> length off = length e /\ Forall (fun o => 0 <= o < s) off).
  { intros off. rewrite elem_of_blocks. unfold in_range, create. generalize (length e) as k. clear -Hs.
    intros k. revert off. induction k as [|k IH]; intros [|o off]; cbn;
      try (split; [by inversion 1|by intros [? _]]).
    split.
    - inversion 1 as [|? ? ? ? Ho Hos]; subst. apply IH in Hos as [<- Hos]. split; [done|by constructor].
    - intros [HL Ho]. inversion Ho; subst. constructor; [done|]. apply IH. split; [by injection HL|done]. }
  apply NoDup_Permutation; [|apply NoDup_blocks|].
  - apply NoDup_bind; [|intros off Hoff'|apply NoDup_blocks].
    + intros o1 o2 c [L1 H1]%Hoff [L2 H2]%Hoff Hc1 Hc2.
      apply elem_of_lattice in Hc1 as [_ <-]; [|done..]. by apply elem_of_lattice in Hc2 as [_ <-].
    + apply Hoff in Hoff' as [HL _]. by apply NoDup_lattice.
  - intros c. rewrite list_elem_of_bind, elem_of_blocks. split.
    + intros (off & Hc & [HL Ho]%Hoff). by apply elem_of_lattice in Hc as [Hc _].
    + intros Hc. exists (residue s c).
      assert (Hr : length (residue s c) = length e /\ Forall (fun o => 0 <= o < s) (residue s c)).
      { unfold residue. rewrite length_map, (in_range_length _ _ Hc). split; [done|].
        apply List.Forall_map, list.Forall_forall. intros x _. apply Z.mod_pos_bound. lia. }
      split; [|by apply Hoff]. apply elem_of_lattice; [done|apply Hr|apply Hr|done].
Qed.

(** ** Sweeps *)

(** What a strided mapper promises: [Inv] holds of the mappers of one area, whose
    extent is [extent] and whose lattice points [embed] moves to their supercells. *)
Class StridedLaws (M : Type) `{StridedMapper M} (extent : DataSpace) (stride : Z)
    (embed : DataSpace -> DataSpace) (Inv : M -> Prop) : Prop := {
  inv_setOffset mp off : Inv mp -> Inv (setOffset mp off);
  getOffset_setOffset (mp : M) off : getOffset (setOffset mp off) = off;
  inv_stride mp : Inv mp -> stride_of mp = stride;
  inv_dim mp : Inv mp -> dim_of mp = length extent;
  inv_gridDim mp : Inv mp -> getGridDim mp = strided_gridDim extent (getOffset mp) stride;
  inv_supercells mp : Inv mp -> supercells mp = map embed (lattice stride extent (getOffset mp));
}.

Lemma vol_create k s : vol (create k s) = s ^ Z.of_nat k.
Proof.
  unfold create. induction k as [|k IH]; [done|]. cbn [replicate vol].
  rewrite IH, Nat2Z.inj_succ, Z.pow_succ_r by lia. done.
Qed.

Lemma empty_lattice s e off : productOfComponents (strided_gridDim e off s) = 0 -> lattice s e off = [].
Proof.
  intros H. unfold lattice. destruct (blocks (strided_gridDim e off s)) as [|v l] eqn:E; [done|].
  assert (Hv : v ∈ blocks (strided_gridDim e off s)) by (rewrite E; left).
  apply elem_of_blocks, in_range_vol in Hv. rewrite product_vol in H. lia.
Qed.

Lemma linearize_zero size k : linearize size (create k 0) = 0.
Proof.
  unfold linearize, create. generalize (take (pred (length size)) size) as ss. intros ss.
  assert (HL : forall k, List.last (replicate k 0) 0 = 0).
  { intros j. induction j as [|[|j] IH]; [done|done|exact IH]. }
  assert (HR : forall k, removelast (replicate k 0) = replicate (pred k) 0).
  { intros j. induction j as [|[|j] IH]; [done|done|]. by apply (f_equal (cons 0)). }
  rewrite HL, HR. generalize (pred k) as j. induction ss as [|t ss IH]; intros [|j]; [done..|].
  cbn. by rewrite IH.
Qed.

Section Sweeps.
Context (M : Type) `{StridedMapper M} (extent : DataSpace) (s : Z) (embed : DataSpace -> DataSpace) (Inv : M -> Prop)
  `{!StridedLaws M extent s embed Inv} (Hs : 1 <= s) (Hne : extent <> []).

Definition space : DataSpace := create (length extent) s.
(** The [k]-th offset and the lattice it selects. *)
Definition offset_at (k : Z) : DataSpace := mapToND space k.
Definition launch_at (k : Z) : list DataSpace := map embed (lattice s extent (offset_at k)).
Definition launches : Z := vol space.

Lemma space_nonempty : space <> [].
Proof using Hne.
  intros E%(f_equal length). unfold space, create in E. rewrite length_replicate in E.
  by apply Hne, length_zero_iff_nil.
Qed.

Lemma space_pos : Forall (fun n => 0 < n) space.
Proof using Hs. unfold space, create. apply Forall_replicate. lia. Qed.

Lemma launches_pos : 1 <= launches.
Proof using Hs. unfold launches, space. rewrite vol_create. pose proof (Z.pow_pos_nonneg s (Z.of_nat (length extent)) ltac:(lia)). lia. Qed.

Lemma next_spec fuel mp k :
  Inv mp -> 0 <= k < launches -> getOffset mp = offset_at k -> launches - k <= Z.of_nat fuel ->
  exists k' mp', next fuel mp = Some (k' <? launches, mp') /\ k < k' <= launches /\ Inv mp' /\
    getOffset mp' = offset_at k' /\ forall j, k < j < k' -> launch_at j = [].
Proof using All.
  revert mp k. induction fuel as [|fuel IH]; intros mp k Hi Hk Ho Hf; [lia|].
  cbn [next]. rewrite (inv_dim mp Hi), (inv_stride mp Hi), Ho. fold space.
  rewrite (proj2 (mapToND_in_range space k space_nonempty space_pos Hk) : linearize space (offset_at k) = k).
  rewrite product_vol. fold launches. change (mapToND space (k + 1)) with (offset_at (k + 1)).
  pose proof (inv_setOffset mp (offset_at (k + 1)) Hi) as Hi'.
  pose proof (getOffset_setOffset mp (offset_at (k + 1))) as Ho'.
  destruct (Z.leb_spec launches (k + 1)) as [Hl|Hl].
  { exists (k + 1), (setOffset mp (offset_at (k + 1))). rewrite (proj2 (Z.ltb_ge _ _)) by lia.
    split_and!; [done|lia|lia|done|done|intros j Hj; lia]. }
  rewrite (inv_gridDim _ Hi'), Ho'. destruct (Z.eqb_spec (productOfComponents (strided_gridDim extent (offset_at (k + 1)) s)) 0) as [E|E].
  - destruct (IH (setOffset mp (offset_at (k + 1))) (k + 1) Hi') as (k' & mp' & -> & H1 & H2 & H3 & H4); [lia|done|lia|].
    exists k', mp'. split_and!; [done|lia|lia|done|done|]. intros j Hj.
    destruct (Z.eq_dec j (k + 1)) as [->|]; [|apply H4; lia]. unfold launch_at. by rewrite empty_lattice.
  - exists (k + 1), (setOffset mp (offset_at (k + 1))). rewrite (proj2 (Z.ltb_lt _ _)) by lia.
    split_and!; [done|lia|lia|done|done|intros j Hj; lia].
Qed.

(** From the [k]-th offset on, the sweep launches the lattices of the remaining offsets. *)
Lemma strided_sweep_spec fuel mp k :
  Inv mp -> 0 <= k < launches -> getOffset mp = offset_at k -> launches - k <= Z.of_nat fuel ->
  exists ls, sweep fuel mp = Some ls /\ concat ls = (seqZ k (launches - k) ≫= launch_at) /\
    Forall (fun l => exists j, 0 <= j < launches /\ l = launch_at j) ls.
Proof using All.
  revert mp k. induction fuel as [|fuel IH]; intros mp k Hi Hk Ho Hf; [lia|].
  cbn [sweep]. rewrite (inv_dim mp Hi), (inv_stride mp Hi). fold space. rewrite product_vol. fold launches.
  destruct (next_spec (Z.to_nat launches) mp k Hi Hk Ho) as (k' & mp' & -> & H1 & H2 & H3 & H4); [lia|].
  cbn [mbind option_bind].
  assert (Hcells : supercells mp = launch_at k) by (rewrite (inv_supercells mp Hi), Ho; done).
  assert (Hseq : (seqZ k (launches - k) ≫= launch_at) = launch_at k ++ (seqZ k' (launches - k') ≫= launch_at)).
  { replace (launches - k) with (1 + (k' - k - 1) + (launches - k')) by lia.
    rewrite !seqZ_app, !bind_app by lia. replace (k + (1 + (k' - k - 1))) with k' by lia. f_equal.
    rewrite seqZ_cons by lia. cbn [Z.pred]. change (Z.pred 1) with 0. rewrite seqZ_nil by lia. cbn [mbind list_bind].
    rewrite app_nil_r. rewrite <- (app_nil_r (launch_at k)) at 2. f_equal.
    assert (Hall : Forall (fun j => launch_at j = []) (seqZ (k + 1) (k' - k - 1))).
    { apply list.Forall_forall. intros j Hj. apply elem_of_seqZ in Hj. apply H4. lia. }
    clear -Hall. induction Hall as [|j l Hj Hl IHl]; [done|]. cbn [mbind list_bind]. by rewrite Hj. }
  destruct (Z.ltb_spec k' launches) as [Hl|Hl].
  - destruct (IH mp' k' H2 ltac:(lia) H3 ltac:(lia)) as (ls & -> & Hc & Hf').
    cbn [mbind option_bind]. exists (supercells mp :: ls). split_and!; [done| |].
    + cbn [concat]. by rewrite Hc, Hcells.
    + constructor; [|done]. exists k. by split.
  - exists [supercells mp]. split_and!; [done| |].
    + cbn [concat]. rewrite Hseq, Hcells. replace k' with launches by lia. by rewrite Z.sub_diag.
    + constructor; [|done]. exists k. by split.
Qed.

(** A sweep from the first offset launches every lattice, and so works on the whole
    extent. *)
Lemma sweep_all mp :
  Forall (fun n => 0 <= n) extent -> Inv mp -> getOffset mp = create (length extent) 0 ->
  exists ls, sweep (Z.to_nat launches) mp = Some ls /\ concat ls ≡ₚ map embed (blocks extent) /\
    Forall (fun l => exists off, length off = length extent /\ l = map embed (lattice s extent off)) ls.
Proof using All.
  intros He Hi Ho. pose proof launches_pos as HN.
  assert (H0 : getOffset mp = offset_at 0).
  { rewrite Ho. unfold offset_at. rewrite <- (mapToND_linearize space (create (length extent) 0) space_nonempty).
    - f_equal. apply linearize_zero.
    - unfold in_range, space, create. apply Forall2_replicate. lia. }
  destruct (strided_sweep_spec (Z.to_nat launches) mp 0 Hi) as (ls & -> & Hc & Hl); [lia|done|lia|].
  exists ls. split_and!; [done| |].
  - rewrite Hc, Z.sub_0_r. unfold launch_at.
    rewrite <- (lattices_partition s extent ltac:(lia) He).
    fold space. rewrite (blocks_linear space space_nonempty) by (eapply Forall_impl; [apply space_pos|cbn; lia]).
    fold launches. apply perm_eq. fold offset_at. generalize (seqZ 0 launches) as l.
    induction l as [|j l IHl]; [done|]. cbn [map mbind list_bind]. by rewrite map_app, IHl.
  - eapply Forall_impl; [exact Hl|]. cbn. intros l (j & Hj & ->). exists (offset_at j). split; [|done].
    destruct (mapToND_in_range space j space_nonempty space_pos Hj) as [Hr _].
    unfold offset_at. rewrite (in_range_length _ _ Hr). unfold space, create. apply length_replicate.
Qed.
End Sweeps.

(** ** The strided mappers keep the promise *)

Definition stride_area (a : Area) : Prop := a = CORE \/ a = CORE_BORDER \/ a = CORE_BORDER_GUARD.

Lemma stride_extent_length a m :
  stride_area a -> length m.(guardingSuperCells) = length m.(gridSuperCells) ->
  length (stride_extent a m) = length m.(gridSuperCells).
Proof.
  intros [->|[->| ->]] HL; cbn [stride_extent]; [..|done]; unfold vsub, smul_v; rewrite length_zip_with, length_map; lia.
Qed.

Definition StrideMapping_of (a : Area) (s : Z) (m : MappingDescription) (mp : StrideMapping) : Prop :=
  mp.(st_area) = a /\ mp.(st_stride) = s /\ mp.(st_base) = m.

Lemma StrideMapping_laws a s m :
  stride_area a -> length m.(guardingSuperCells) = length m.(gridSuperCells) ->
  StridedLaws StrideMapping (stride_extent a m) s (stride_shift a m) (StrideMapping_of a s m).
Proof.
  intros Ha HL. split; intros [a' s' m' o]; unfold StrideMapping_of; cbn; try done.
  - by intros (_ & -> & _).
  - intros (_ & _ & ->). by rewrite stride_extent_length.
  - by intros (-> & -> & ->).
  - intros (-> & -> & ->). unfold supercells, lattice. rewrite map_map. done.
Qed.

Lemma vadd_assoc a b c : vadd a (vadd b c) = vadd (vadd a b) c.
Proof.
  revert b c. induction a as [|x a IH]; intros [|y b] [|z c]; cbn; try done. f_equal; [lia|apply IH].
Qed.

Definition StrideIntervalMapping_of (s : Z) (b num : DataSpace) (mp : StrideIntervalMapping) : Prop :=
  mp.(si_stride) = s /\ mp.(si_begin) = b /\ mp.(si_num) = num.

Lemma StrideIntervalMapping_laws s b num :
  StridedLaws StrideIntervalMapping num s (fun v => vadd v b) (StrideIntervalMapping_of s b num).
Proof.
  split; intros [s' b' num' o]; unfold StrideIntervalMapping_of; cbn; try done.
  - by intros (-> & _).
  - by intros (_ & _ & ->).
  - by intros (-> & -> & ->).
  - intros (-> & -> & ->). unfold supercells, lattice. etransitivity; [|symmetry; apply map_map]. apply map_ext. intros v. cbn.
    by rewrite (vadd_comm (vmul_s v s) o), (vadd_comm _ b), vadd_assoc.
Qed.

(** Two points of a lattice are a stride apart in some dimension. *)
Definition apart (s : Z) (c c' : DataSpace) : Prop := exists d, s <= Z.abs (at_ c d - at_ c' d).

Lemma lattice_apart s off v w :
  0 < s -> length v = length off -> length w = length off -> v <> w ->
  exists d, (d < length off)%nat /\ s <= Z.abs (at_ (vadd (vmul_s v s) off) d - at_ (vadd (vmul_s w s) off) d).
Proof.
  intros Hs. revert v w. induction off as [|o off IH]; intros [|x v] [|y w] Hv Hw Hvw; try discriminate; [done|].
  destruct (Z.eq_dec x y) as [->|Hxy].
  - destruct (IH v w) as (d & Hd & H); [by injection Hv|by injection Hw|congruence|].
    exists (S d). split; [cbn; lia|exact H].
  - exists 0%nat. split; [cbn; lia|]. unfold at_. cbn. nia.
Qed.

Lemma at_vadd v t d : (d < length v)%nat -> length t = length v -> at_ (vadd v t) d = at_ v d + at_ t d.
Proof.
  revert t d. induction v as [|x v IH]; intros [|y t] d Hd HL; try discriminate; cbn in Hd; [lia|].
  destruct d as [|d]; [done|]. unfold at_ in *. cbn. apply IH; [lia|by injection HL].
Qed.

Lemma embedded_apart s e off t c c' :
  0 < s -> length off = length e -> length t = length e ->
  c ∈ map (fun v => vadd v t) (lattice s e off) -> c' ∈ map (fun v => vadd v t) (lattice s e off) -> c <> c' ->
  apart s c c'.
Proof.
  intros Hs Ho Ht (p & -> & Hp)%list_elem_of_fmap (p' & -> & Hp')%list_elem_of_fmap Hne.
  unfold lattice in Hp, Hp'.
  apply list_elem_of_fmap in Hp as (b & -> & Hb%elem_of_blocks%in_range_length).
  apply list_elem_of_fmap in Hp' as (b' & -> & Hb'%elem_of_blocks%in_range_length).
  assert (HL : length (strided_gridDim e off s) = length off).
  { unfold strided_gridDim, vquot_s, vsub_s, vadd_s, vsub. rewrite !length_map, length_zip_with. lia. }
  destruct (lattice_apart s off b b' Hs) as (d & Hd & H); [lia|lia|congruence|].
  assert (Hl : forall b, length b = length off -> length (vadd (vmul_s b s) off) = length off).
  { intros x Hx. unfold vadd, vmul_s. rewrite length_zip_with, length_map. lia. }
  exists d. rewrite (at_vadd (vadd (vmul_s b s) off) t), (at_vadd (vadd (vmul_s b' s) off) t) by (rewrite Hl; lia).
  lia.
Qed.

Lemma extent_nonneg a m : stride_area a -> room (area_room a) m -> Forall (fun n => 0 <= n) (stride_extent a m).
Proof.
  intros Ha Hr. unfold room in Hr. destruct m as [ns gs]. cbn [gridSuperCells guardingSuperCells] in Hr.
  destruct Ha as [->|[->| ->]]; cbn [stride_extent area_room gridSuperCells guardingSuperCells] in *;
    induction Hr as [|n g ns gs Hng Hr IH]; cbn; constructor; (lia || done).
Qed.

(** The shift of a strided area, as a vector. *)
Definition stride_offset (a : Area) (m : MappingDescription) : DataSpace :=
  smul_v (match a with CORE => 2 | CORE_BORDER => 1 | _ => 0 end) m.(guardingSuperCells).

Lemma stride_shift_offset a m v :
  stride_area a -> length v = length m.(guardingSuperCells) -> stride_shift a m v = vadd v (stride_offset a m).
Proof.
  intros [->|[->| ->]] HL; cbn [stride_shift]; unfold stride_offset; rewrite ?smul_1; try done.
  revert HL. generalize (guardingSuperCells m) as g. revert v.
  induction v as [|x v IH]; intros [|y g] HL; try discriminate; cbn -[Z.mul]; [done|].
  f_equal; [lia|]. apply IH. by injection HL.
Qed.

Lemma area_blocks a m :
  stride_area a -> room (area_room a) m ->
  map (stride_shift a m) (blocks (stride_extent a m)) ≡ₚ select (in_area a m) m.
Proof.
  intros [->|[->| ->]] Hr; cbn [stride_extent area_room in_area] in *.
  - exact (within_onto 2 m ltac:(lia) Hr).
  - rewrite <- (within_onto 1 m) by (done || lia). rewrite smul_1. done.
  - apply perm_eq. cbn [stride_shift]. rewrite map_id. unfold select.
    rewrite <- (List.filter_true (blocks _)) at 1. symmetry.
    apply List.filter_ext_in. intros c Hc%list_elem_of_In%elem_of_blocks. by apply within_0.
Qed.

(** C25: a strided sweep.  Over the core, the core with the border, or the whole grid of
    a description with room for the area, for every stride from 1 on, the loop
    [do { launch } while(mapper.next())] of a new mapper terminates; its launches,
    put together, work on every supercell of the area exactly once; and two different
    supercells of one launch lie at least the stride apart in some dimension, so with
    the stride of 3 that shifting particles asks for, no two blocks of a launch touch
    the same supercell or neighbour. *)
Theorem stride_sweep a m s :
  stride_area a -> room (area_room a) m -> m.(gridSuperCells) <> [] -> 1 <= s ->
  exists ls, sweep (Z.to_nat (s ^ Z.of_nat (length m.(gridSuperCells)))) (makeStrideAreaMapper a s m) = Some ls /\
    concat ls ≡ₚ select (in_area a m) m /\
    Forall (fun l => forall c c', c ∈ l -> c' ∈ l -> c <> c' -> apart s c c') ls.
Proof.
  intros Ha Hr Hne Hs. pose proof (room_length _ _ Hr) as HL.
  pose proof (stride_extent_length a m Ha HL) as HE.
  pose proof (StrideMapping_laws a s m Ha HL) as Hlaws.
  assert (HneE : stride_extent a m <> []) by (intros E; rewrite E in HE; by destruct (gridSuperCells m)).
  destruct (sweep_all StrideMapping (stride_extent a m) s (stride_shift a m) (StrideMapping_of a s m) Hs HneE
    (makeStrideAreaMapper a s m)) as (ls & E & Hc & Hl); [by apply extent_nonneg|done|cbn; by rewrite HE|].
  unfold launches, space in E. rewrite vol_create, HE in E. exists ls. split_and!; [done| |].
  - rewrite Hc. by apply area_blocks.
  - eapply Forall_impl; [exact Hl|]. cbn. intros l (off & Ho & ->) c c' H1 H2.
    assert (Hsh : map (stride_shift a m) (lattice s (stride_extent a m) off) =
      map (fun v => vadd v (stride_offset a m)) (lattice s (stride_extent a m) off)).
    { apply map_ext_in. intros v Hv%list_elem_of_In. apply stride_shift_offset; [done|]. unfold lattice in Hv.
      apply list_elem_of_fmap in Hv as (b & -> & Hb%elem_of_blocks%in_range_length).
      unfold strided_gridDim, vquot_s, vsub_s, vadd_s, vsub in Hb. rewrite !length_map, length_zip_with in Hb.
      unfold vadd, vmul_s. rewrite length_zip_with, length_map. lia. }
    rewrite Hsh in H1, H2. apply embedded_apart with (stride_extent a m) off (stride_offset a m); try done; [lia|].
    unfold stride_offset, smul_v. rewrite length_map. lia.
Qed.

Lemma stride_sweep_witness :
  let m := mkMappingDescription [8; 4] [1; 1] in
  sweep 9 (makeStrideAreaMapper CORE_BORDER 3 m) =
    Some [[[1; 1]; [4; 1]]; [[2; 1]; [5; 1]]; [[3; 1]; [6; 1]]; [[1; 2]; [4; 2]]; [[2; 2]; [5; 2]]; [[3; 2]; [6; 2]]]
  /\ exists ls, sweep 9 (makeStrideAreaMapper CORE_BORDER 3 m) = Some ls /\
       concat ls ≡ₚ select (in_area CORE_BORDER m) m.
Proof.
  split; [by vm_compute|].
  destruct (stride_sweep CORE_BORDER (mkMappingDescription [8; 4] [1; 1]) 3) as (ls & H1 & H2 & _);
    [by right; left|repeat (constructor; [cbn; lia|]); constructor|done|lia|].
  change (Z.to_nat (3 ^ Z.of_nat (length (gridSuperCells (mkMappingDescription [8; 4] [1; 1]))))) with 9%nat in H1.
  exists ls. split; [exact H1|exact H2].
Defined.

(** The same of an interval of supercells. *)
Theorem stride_interval_sweep s b num :
  1 <= s -> num <> [] -> Forall (fun n => 0 <= n) num ->
  exists ls, sweep (Z.to_nat (s ^ Z.of_nat (length num))) (strided_interval s (mkIntervalMapping b num)) = Some ls /\
    concat ls ≡ₚ supercells (mkIntervalMapping b num).
Proof.
  intros Hs Hne Hn. pose proof (StrideIntervalMapping_laws s b num) as Hlaws.
  destruct (sweep_all StrideIntervalMapping num s (fun v => vadd v b) (StrideIntervalMapping_of s b num) Hs Hne
    (strided_interval s (mkIntervalMapping b num))) as (ls & E & Hc & _); [done|done|done|].
  unfold launches, space in E. rewrite vol_create in E. exists ls. split; [done|]. rewrite Hc.
  apply perm_eq. unfold supercells. cbn. apply map_ext. intros v. apply vadd_comm.
Qed.

(** ** Ranges *)

Lemma blocks_1 n : 0 <= n -> blocks [n] = map (fun x => [x]) (seqZ 0 n).
Proof. intros Hn. cbn [blocks mbind list_bind]. apply app_nil_r. Qed.

Lemma seqZ_slice a b n :
  0 <= a <= b -> b <= n -> take (Z.to_nat (b - a)) (drop (Z.to_nat a) (seqZ 0 n)) = seqZ a (b - a).
Proof.
  intros Ha Hb. replace n with (a + ((b - a) + (n - b))) by lia.
  rewrite (seqZ_app 0 a), (seqZ_app (0 + a)) by lia.
  rewrite drop_app_length' by (by rewrite length_seqZ).
  rewrite take_app_length' by (by rewrite length_seqZ). by rewrite Z.add_0_l.
Qed.

(** Range bounds.  For any mapper whose block count fits an [int] and any
    [uint32_t] bounds the caller passes, the clamped range satisfies
    [begin <= end <= blocks]; the launch over it has [end - begin] blocks, and they work
    on the supercells of the mapper's blocks from [begin] on, in linear order, and no
    others.  An end of [uint32_t(-1)] stands for the last block. *)
Theorem range_bounds {M} `{MapperConcept M} (base : M) b e :
  getGridDim base <> [] -> Forall (fun n => 0 <= n) (getGridDim base) ->
  productOfComponents (getGridDim base) < 2 ^ 31 -> 0 <= b < 2 ^ 32 -> 0 <= e < 2 ^ 32 ->
  let r := makeRangeMapper base b e in
  let total := productOfComponents (getGridDim base) in
  let last := if e =? 2 ^ 32 - 1 then total else Z.min e total in
  beginIdx r = Z.min b last /\ endIdx r = last /\ 0 <= beginIdx r <= endIdx r /\ endIdx r <= total /\
  range_getGridDim r = ([endIdx r - beginIdx r], r) /\
  map (range_getSuperCellIndex r) (blocks (range_getGridDim r).1) =
    take (Z.to_nat (endIdx r - beginIdx r)) (drop (Z.to_nat (beginIdx r)) (supercells base)).
Proof.
  intros Hne Hd HN Hb He r total last.
  assert (H0 : 0 <= total) by (unfold total; rewrite product_vol; by apply vol_nonneg).
  assert (Hlast : endIdx r = last /\ beginIdx r = Z.min b last).
  { unfold r, makeRangeMapper, clampRange. cbn [rm_base baseGridDim beginIdx endIdx userDefinedBeginIdx userDefinedEndIdx].
    fold total. rewrite (u32_small total) by lia.
    change (u32 (-1)) with (2 ^ 32 - 1). unfold last. destruct (e =? 2 ^ 32 - 1); rewrite ?Z.min_id; done. }
  destruct Hlast as [E1 E2].
  assert (Hlr : 0 <= last <= total) by (unfold last; destruct (e =? 2 ^ 32 - 1); lia).
  assert (Hg : range_getGridDim r = ([endIdx r - beginIdx r], r)).
  { unfold range_getGridDim. assert (Er : clampRange r = r) by done. rewrite Er.
    unfold range_size. rewrite u32_small, s32_small by lia. done. }
  split_and!; [done|done|lia|lia|lia|done|].
  rewrite Hg. cbn [fst]. rewrite blocks_1, map_map by lia.
  unfold supercells. rewrite (blocks_linear (getGridDim base)), map_map by done.
  rewrite <- product_vol. fold total. rewrite <- fmap_drop, <- fmap_take.
  assert (Es : take (Z.to_nat (endIdx r - beginIdx r)) (drop (Z.to_nat (beginIdx r)) (seqZ 0 total)) =
    seqZ (beginIdx r) (endIdx r - beginIdx r)).
  { apply seqZ_slice; lia. }
  rewrite Es, <- (Z.add_0_r (beginIdx r)), <- fmap_add_seqZ, Z.add_0_r.
  change (Z.add (beginIdx r) <$> seqZ 0 (endIdx r - beginIdx r))
    with (map (Z.add (beginIdx r)) (seqZ 0 (endIdx r - beginIdx r))).
  rewrite map_map. apply map_ext_in. intros x Hx%list_elem_of_In%elem_of_seqZ.
  unfold range_getSuperCellIndex. change (baseGridDim r) with (getGridDim base). change (rm_base r) with base.
  unfold at_. cbn [nth]. rewrite (u32_small x), u32_small, s32_small by lia. done.
Qed.

Lemma range_bounds_witness :
  let base := makeAreaMapper CORE_BORDER (mkMappingDescription [4; 5] [1; 1]) in
  let r := makeRangeMapper base 4 (2 ^ 32 - 1) in
  map (range_getSuperCellIndex r) (blocks (range_getGridDim r).1) = [[1; 3]; [2; 3]].
Proof.
  destruct (range_bounds (makeAreaMapper CORE_BORDER (mkMappingDescription [4; 5] [1; 1])) 4 (2 ^ 32 - 1))
    as (_ & _ & _ & _ & _ & H); [done|repeat (constructor; [cbn; lia|]); constructor|by vm_compute|lia|lia|].
  cbv zeta. rewrite H. by vm_compute.
Defined.
