(* ===== verification/GridComm.v ===== *)
(** * The grid of processes and its sliding window

    [CommunicatorMPI] places every process in a grid of processes and tabulates, per
    direction of exchange, the rank of the neighbour; a moving window shifts all
    processes by one position in y per slide.  [GridController] keeps the domain offsets
    in step with the slides.  MPI's Cartesian topology is a value, the snapshot the MPI
    thread returns; the theorems assume of it what MPI documents, row-major ranks.
    They show that the tables of any two processes agree with each other (what one
    sends in a direction, the other receives from the mirrored one) in every position
    of the window, and that restoring a state after [n] slides is sliding [n] times. *)
From Stdlib Require Import ZArith Lia.
From stdpp Require Import base list list_numbers numbers gmap.
From S2P Require Import Prelude Outcome DataSpaces ExchangeMask.
Open Scope Z_scope.

(** ** Selections and SubGrid *)

Record Selection := mkSelection { size : DataSpace; offset : DataSpace }.
(** [Selection(size)]: offset 0. *)
Definition Selection_of (sz : DataSpace) : Selection := mkSelection sz (create (length sz) 0).
Definition Selection_default (dim : nat) : Selection := mkSelection (create dim 0) (create dim 0).

Record SubGrid := mkSubGrid { totalDomain : Selection; globalDomain : Selection; localDomain : Selection }.
Definition SubGrid_init (localSize globalSize localOffset : DataSpace) : SubGrid :=
  mkSubGrid (Selection_of globalSize) (Selection_of globalSize) (mkSelection localSize localOffset).
Definition setLocalDomainOffset (o : DataSpace) (s : SubGrid) : SubGrid :=
  mkSubGrid s.(totalDomain) s.(globalDomain) (mkSelection s.(localDomain).(size) o).
Definition setGlobalDomainOffset (o : DataSpace) (s : SubGrid) : SubGrid :=
  mkSubGrid s.(totalDomain) (mkSelection s.(globalDomain).(size) o) s.(localDomain).

(** ** CommunicatorMPI *)

(** The snapshot of the Cartesian topology the MPI thread returns. *)
Record TopologySnapshot := mkSnapshot
  { ts_rank : Z; ts_size : Z; ts_hostLocalRank : Z; ts_coordinates : DataSpace }.

Record Comm := mkComm {
  coordinates : DataSpace;
  baseCoordinates : DataSpace;
  periodic : DataSpace;
  dims : DataSpace;
  ranks : gmap Z Z;              (* entries written so far *)
  communicationMask : Mask;
  yoffset : Z;
  mpiRank : Z;
  mpiSize : Z;
  hostRank : Z;
}.

(** [DIM] of the communicator: its coordinates; [dims] and [periodic] always have three. *)
Definition DIM (c : Comm) : nat := length c.(baseCoordinates).

(** A change of component 1. *)
Definition on_y (f : Z -> Z) (v : DataSpace) : DataSpace :=
  match v with x :: y :: v => x :: f y :: v | _ => v end.

(** [while(c < 0) c += d]; [- c] rounds are enough when [1 <= d]. *)
Fixpoint add_while_negative (fuel : nat) (c d : Z) : Z :=
  match fuel with
  | O => c
  | S fuel => if c <? 0 then add_while_negative fuel (c + d) d else c
  end.

(** The coordinates in the window. *)
Definition window_coords (c : Comm) : DataSpace :=
  let d1 := at_ c.(dims) 1 in
  on_y (fun y =>
      let y := if 1 <? d1 then Z.rem (y + c.(yoffset)) d1 else y in
      add_while_negative (Z.to_nat (- y)) y d1)
    c.(baseCoordinates).

(** The steps [mcoords[j]++] and [mcoords[j]--] of direction [i]. *)
Definition axis_step (m : Mask) (lower upper : Z) : Z :=
  (if containsExchangeType m lower then -1 else 0) + (if containsExchangeType m upper then 1 else 0).
Definition direction_steps (dim : nat) (i : Z) : DataSpace :=
  let m := Mask_of i in
  take dim [axis_step m LEFT RIGHT; axis_step m TOP BOTTOM; axis_step m FRONT BACK].

(** [ok]: no step over an end that is not periodic. *)
Definition neighbour_ok (periodic dims mcoords : DataSpace) : bool :=
  forallb (fun '(p, (d, x)) => negb ((p =? 0) && ((x <? 0) || (d <=? x)))) (zip periodic (zip dims mcoords)).

(** The rank of the process at [mcoords]. *)
Definition rank_of (dims mcoords : DataSpace) : Z :=
  fold_left (fun r '(d, x) =>
      let coordinate := Z.rem x d in
      let coordinate := if coordinate <? 0 then coordinate + d else coordinate in
      r * d + coordinate)
    (zip dims mcoords) 0.

(** One round of the loop over directions. *)
Definition rank_round (c : Comm) (coords : DataSpace) (acc : gmap Z Z * Mask) (i : Z) : gmap Z Z * Mask :=
  let dim := DIM c in
  let mcoords := vadd coords (direction_steps dim i) in
  if neighbour_ok (take dim c.(periodic)) (take dim c.(dims)) mcoords then
    let d1 := at_ c.(dims) 1 in
    let mcoords := if 1 <? d1 then on_y (fun y => Z.rem (y - c.(yoffset)) d1) mcoords else mcoords in
    (<[i := rank_of (take dim c.(dims)) mcoords]> acc.1, mask_join acc.2 (Mask_of i))
  else (<[i := -1]> acc.1, acc.2).

(** The bound of that loop. *)
Definition direction_bound (dim : nat) : Z := let D := Z.of_nat dim in -12 * D + 6 * D * D + 9.

Definition updateCoordinates (c : Comm) : Comm :=
  let coords := window_coords c in
  let '(r, m) := fold_left (rank_round c coords) (seqZ 1 (direction_bound (DIM c) - 1)) (c.(ranks), Mask_empty) in
  mkComm coords c.(baseCoordinates) c.(periodic) c.(dims) r m c.(yoffset) c.(mpiRank) c.(mpiSize) c.(hostRank).

Definition Comm_init (snapshot : TopologySnapshot) (numberProcesses periodic_ : DataSpace) : Comm :=
  updateCoordinates
    (mkComm [] snapshot.(ts_coordinates) periodic_ numberProcesses ∅ Mask_empty 0
       snapshot.(ts_rank) snapshot.(ts_size) snapshot.(ts_hostLocalRank)).

Definition set_yoffset (y : Z) (c : Comm) : Comm :=
  mkComm c.(coordinates) c.(baseCoordinates) c.(periodic) c.(dims) c.(ranks) c.(communicationMask) y
    c.(mpiRank) c.(mpiSize) c.(hostRank).

Definition slide (c : Comm) : bool * Comm :=
  if (DIM c <? 2)%nat then (false, c)
  else
    let y := c.(yoffset) - 1 in
    let y := if y =? - at_ c.(dims) 1 then 0 else y in
    let c := updateCoordinates (set_yoffset y c) in
    (at_ c.(coordinates) 1 =? at_ c.(dims) 1 - 1, c).

Fixpoint slides (n : nat) (r : bool) (c : Comm) : bool * Comm :=
  match n with
  | O => (r, c)
  | S n => let '(r, c) := slide c in slides n r c
  end.

Definition setStateAfterSlides (numSlides : Z) (c : Comm) : bool * Comm :=
  if numSlides =? 0 then (false, c)
  else if (DIM c <? 2)%nat then (false, c)
  else slides (Z.to_nat (numSlides mod at_ c.(dims) 1)) false c.

Definition ExchangeTypeToRank (c : Comm) (ex : Z) : option Z := c.(ranks) !! ex.

(** ** GridController *)

(** The padding of [GridController::init] to three dimensions. *)
Definition pad_nodes (nodes : DataSpace) : DataSpace :=
  let dim := length nodes in
  [at_ nodes 0; if (dim <? 2)%nat then 1 else at_ nodes 1; if (dim <? 3)%nat then 1 else at_ nodes 2].

Record GridController := mkGridController { gpuNodes : DataSpace; comm : Comm; subGrid : SubGrid }.

(** [init] on the first call; [sg] is the environment's SubGrid. *)
Definition GridController_init (snapshot : TopologySnapshot) (nodes periodic_ : DataSpace) (sg : SubGrid) : GridController :=
  mkGridController nodes (Comm_init snapshot (pad_nodes nodes) (pad_nodes periodic_)) sg.

Definition getScalarPosition (g : GridController) : Z := linearize g.(gpuNodes) g.(comm).(coordinates).

(** [updateDomainOffset]: the global offset goes through [size_t] back to [int]. *)
Definition updateDomainOffset (numSlides : Z) (g : GridController) : GridController :=
  let gpuOffset_y := at_ g.(comm).(coordinates) 1 in
  let localSize_y := at_ g.(subGrid).(localDomain).(size) 1 in
  let localDomainOffset := on_y (fun _ => gpuOffset_y * localSize_y) g.(subGrid).(localDomain).(offset) in
  let globalDomainOffset := on_y (fun y => s32 (y + numSlides * localSize_y)) g.(subGrid).(globalDomain).(offset) in
  mkGridController g.(gpuNodes) g.(comm)
    (setGlobalDomainOffset globalDomainOffset (setLocalDomainOffset localDomainOffset g.(subGrid))).

Definition set_comm (c : Comm) (g : GridController) : GridController := mkGridController g.(gpuNodes) c g.(subGrid).

Definition GridController_slide (g : GridController) : bool * GridController :=
  let '(result, c) := slide g.(comm) in
  (result, updateDomainOffset 1 (set_comm c g)).

Definition GridController_setStateAfterSlides (numSlides : Z) (g : GridController) : bool * GridController :=
  if numSlides =? 0 then (false, g)
  else
    let '(result, c) := setStateAfterSlides numSlides g.(comm) in
    (result, updateDomainOffset numSlides (set_comm c g)).

Fixpoint GridController_slides (n : nat) (g : GridController) : GridController :=
  match n with O => g | S n => GridController_slides n (GridController_slide g).2 end.

(** ** Row-major ranks *)

Definition vmod (v d : DataSpace) : DataSpace := zip_with Z.modulo v d.

(** The rank MPI gives the process at [coords] of a Cartesian topology. *)
Definition cart_rank (dims coords : DataSpace) : Z := fold_left (fun r '(d, x) => r * d + x) (zip dims coords) 0.

Lemma rem_or_add x d :
  1 <= d -> (if Z.rem x d <? 0 then Z.rem x d + d else Z.rem x d) = x mod d.
Proof.
  intros Hd. pose proof (Z.quot_rem x d ltac:(lia)) as E.
  assert (Hb : - d < Z.rem x d < d) by (pose proof (Z.rem_bound_abs x d ltac:(lia)); lia).
  destruct (Z.ltb_spec (Z.rem x d) 0).
  - apply Z.mod_unique with (Z.quot x d - 1); lia.
  - apply Z.mod_unique with (Z.quot x d); lia.
Qed.

Lemma rank_of_cart ds mc :
  Forall (fun d => 1 <= d) ds -> length mc = length ds -> rank_of ds mc = cart_rank ds (vmod mc ds).
Proof.
  intros H HL. unfold rank_of, cart_rank, vmod. set (r := 0) at 2 3. clearbody r. revert mc r HL.
  induction H as [|d ds Hd H IH]; intros [|x mc] r HL; try discriminate; [done|].
  cbn [zip zip_with fold_left]. cbv zeta. rewrite (rem_or_add x d Hd). apply IH. by injection HL.
Qed.

Lemma cart_fold_inj ds u v r r' :
  in_range ds u -> in_range ds v ->
  fold_left (fun r '(d, x) => r * d + x) (zip ds u) r = fold_left (fun r '(d, x) => r * d + x) (zip ds v) r' ->
  r = r' /\ u = v.
Proof.
  intros Hu. revert v r r'. induction Hu as [|d x ds u Hx Hu IH]; intros v r r' Hv; inversion Hv as [|? y ? w Hy Hw]; subst.
  { by cbn. }
  cbn [zip zip_with fold_left]. intros E. destruct (IH w _ _ Hw E) as [E1 ->].
  assert (r = r') as -> by nia. split; [done|]. f_equal. lia.
Qed.

Lemma cart_rank_inj ds u v : in_range ds u -> in_range ds v -> cart_rank ds u = cart_rank ds v -> u = v.
Proof. intros Hu Hv E. by eapply cart_fold_inj. Qed.

Lemma cart_fold_nonneg ds u r :
  in_range ds u -> 0 <= r -> 0 <= fold_left (fun r '(d, x) => r * d + x) (zip ds u) r.
Proof.
  intros Hu. revert r. induction Hu as [|d x ds u Hx Hu IH]; intros r Hr; [done|].
  cbn [zip zip_with fold_left]. apply IH. nia.
Qed.

Lemma vmod_range v d : Forall (fun n => 1 <= n) d -> length v = length d -> in_range d (vmod v d).
Proof.
  intros H. revert v. induction H as [|n d Hn H IH]; intros [|x v] HL; try discriminate; [constructor|].
  constructor; [apply Z.mod_pos_bound; lia|]. apply IH. by injection HL.
Qed.

(** ** The table of ranks *)

(** What a round writes for direction [i]. *)
Definition round_ok (c : Comm) (coords : DataSpace) (i : Z) : bool :=
  neighbour_ok (take (DIM c) c.(periodic)) (take (DIM c) c.(dims)) (vadd coords (direction_steps (DIM c) i)).
Definition round_rank (c : Comm) (coords : DataSpace) (i : Z) : Z :=
  if round_ok c coords i then
    let d1 := at_ c.(dims) 1 in
    let mcoords := vadd coords (direction_steps (DIM c) i) in
    rank_of (take (DIM c) c.(dims)) (if 1 <? d1 then on_y (fun y => Z.rem (y - c.(yoffset)) d1) mcoords else mcoords)
  else -1.

Lemma fold_rounds c coords ks acc :
  let r := fold_left (rank_round c coords) ks acc in
  (forall i, r.1 !! i = if bool_decide (i ∈ ks) then Some (round_rank c coords i) else acc.1 !! i) /\
  (Forall (fun i => 0 <= i) ks -> forall i, 0 <= i ->
     isSet r.2 i = isSet acc.2 i || existsb (fun k => (k =? i) && round_ok c coords k) ks).
Proof.
  revert acc. induction ks as [|k ks IH]; intros acc; cbn [fold_left existsb].
  { split; [done|]. intros _ i _. by rewrite orb_false_r. }
  assert (E : rank_round c coords acc k =
    (<[k := round_rank c coords k]> acc.1, if round_ok c coords k then mask_join acc.2 (Mask_of k) else acc.2)).
  { unfold rank_round, round_rank, round_ok. cbv zeta.
    destruct (neighbour_ok _ _ _); [|done]. destruct (1 <? at_ (dims c) 1); done. }
  rewrite E. destruct (IH (<[k := round_rank c coords k]> acc.1,
    if round_ok c coords k then mask_join acc.2 (Mask_of k) else acc.2)) as [I1 I2]. cbn [fst snd] in I1, I2. split.
  - intros i. rewrite I1. destruct (decide (i = k)) as [->|Hne].
    + rewrite lookup_insert_eq, (bool_decide_eq_true_2 (k ∈ k :: ks)) by left. by case_bool_decide.
    + rewrite lookup_insert_ne by done.
      rewrite (bool_decide_ext (i ∈ k :: ks) (i ∈ ks)); [done|]. rewrite elem_of_cons. split; [by intros [?|?]|by right].
  - intros Hks i Hi. inversion Hks as [|? ? Hk Hks']; subst. rewrite (I2 Hks' i Hi).
    destruct (round_ok c coords k); [|by rewrite andb_false_r].
    rewrite isSet_join, isSet_of by done. rewrite andb_true_r. by rewrite orb_assoc.
Qed.

Definition directions (c : Comm) : list Z := seqZ 1 (direction_bound (DIM c) - 1).

Lemma update_ranks c i :
  (updateCoordinates c).(ranks) !! i =
  if bool_decide (i ∈ directions c) then Some (round_rank c (window_coords c) i) else c.(ranks) !! i.
Proof.
  unfold updateCoordinates, directions.
  pose proof (proj1 (fold_rounds c (window_coords c) (seqZ 1 (direction_bound (DIM c) - 1)) (c.(ranks), Mask_empty)) i) as H.
  destruct (fold_left _ _ _) as [r m]. exact H.
Qed.

Lemma update_mask c i :
  0 <= i -> isSet (updateCoordinates c).(communicationMask) i = bool_decide (i ∈ directions c) && round_ok c (window_coords c) i.
Proof.
  intros Hi. unfold updateCoordinates, directions.
  pose proof (proj2 (fold_rounds c (window_coords c) (seqZ 1 (direction_bound (DIM c) - 1)) (c.(ranks), Mask_empty))) as H.
  destruct (fold_left _ _ _) as [r m]. cbn [communicationMask fst snd] in *. rewrite H; [|apply list.Forall_forall|done].
  - change (isSet Mask_empty i) with false. cbn [orb]. apply eq_true_iff_eq. rewrite existsb_exists, andb_true_iff, bool_decide_eq_true.
    split.
    + intros (k & Hk & [->%Z.eqb_eq Ho]%andb_true_iff). by rewrite list_elem_of_In.
    + intros [Hk Ho]. exists i. rewrite <- list_elem_of_In. split; [done|]. by rewrite Z.eqb_refl.
  - intros k Hk. apply elem_of_seqZ in Hk. lia.
Qed.

Lemma update_fields c :
  let u := updateCoordinates c in
  u.(coordinates) = window_coords c /\ u.(baseCoordinates) = c.(baseCoordinates) /\ u.(periodic) = c.(periodic) /\
  u.(dims) = c.(dims) /\ u.(yoffset) = c.(yoffset) /\ u.(mpiRank) = c.(mpiRank) /\ u.(mpiSize) = c.(mpiSize) /\
  u.(hostRank) = c.(hostRank).
Proof. unfold updateCoordinates. by destruct (fold_left _ _ _). Qed.

(** ** Neighbours *)

(** A communicator of a two- or three-dimensional grid, at any position of the window. *)
Record well_placed (c : Comm) : Prop := {
  wp_dim : DIM c = 2%nat \/ DIM c = 3%nat;
  wp_dims : length c.(dims) = 3%nat;
  wp_pos : Forall (fun d => 1 <= d) c.(dims);
  wp_periodic : length c.(periodic) = 3%nat;
  wp_base : in_range (take (DIM c) c.(dims)) c.(baseCoordinates);
  wp_window : - at_ c.(dims) 1 < c.(yoffset) <= 0;
  wp_rank : c.(mpiRank) = cart_rank (take (DIM c) c.(dims)) c.(baseCoordinates);
}.

Lemma while_negative c d : 1 <= d -> - d <= c -> add_while_negative (Z.to_nat (- c)) c d = if c <? 0 then c + d else c.
Proof.
  intros Hd Hc. destruct (Z.ltb_spec c 0) as [H|H].
  - destruct (Z.to_nat (- c)) as [|f] eqn:E; [lia|]. cbn [add_while_negative]. rewrite (proj2 (Z.ltb_lt _ _)) by lia.
    destruct f as [|f]; [done|]. cbn [add_while_negative]. by rewrite (proj2 (Z.ltb_ge _ _)) by lia.
  - destruct (Z.to_nat (- c)) as [|f]; [done|]. cbn [add_while_negative]. by rewrite (proj2 (Z.ltb_ge _ _)) by lia.
Qed.

Lemma at_range ds v i : in_range ds v -> (i < length ds)%nat -> 0 <= at_ v i < at_ ds i.
Proof.
  intros H. revert i. induction H as [|d x ds v Hx H IH]; intros i Hi; cbn in Hi; [lia|].
  destruct i as [|i]; [done|]. apply IH. lia.
Qed.

(** The window moves component y of the base coordinates, modulo the extent in y. *)
Lemma window_coords_mod c :
  well_placed c -> window_coords c = on_y (fun y => (y + c.(yoffset)) mod at_ c.(dims) 1) c.(baseCoordinates).
Proof.
  intros [Hd HL Hp _ Hb Hw _]. unfold window_coords.
  assert (H1 : 1 <= at_ c.(dims) 1 /\ 0 <= at_ c.(baseCoordinates) 1 < at_ c.(dims) 1).
  { destruct c.(dims) as [|a [|b [|e [|]]]]; try discriminate HL. unfold DIM in *.
    destruct Hd as [Hd|Hd]; rewrite Hd in Hb; pose proof (at_range _ _ 1%nat Hb ltac:(cbn; lia)) as H;
      unfold at_ in *; cbn in *; lia. }
  destruct c.(baseCoordinates) as [|x [|y r]]; cbn [on_y]; [done|done|]. do 2 f_equal.
  change (at_ (x :: y :: r) 1) with y in H1. set (d1 := at_ (dims c) 1) in *. clearbody d1. cbv zeta.
  destruct (Z.ltb_spec 1 d1) as [Hd1|Hd1].
  - pose proof (rem_or_add (y + c.(yoffset)) d1 ltac:(lia)) as E.
    pose proof (Z.rem_bound_abs (y + c.(yoffset)) d1 ltac:(lia)) as Hr.
    rewrite while_negative by lia. done.
  - rewrite while_negative by lia. assert (d1 = 1) as -> by lia. rewrite Z.mod_1_r, (proj2 (Z.ltb_ge _ _)) by lia. lia.
Qed.

Lemma steps_directions dim i : (dim <= 3)%nat -> 1 <= i < 27 -> direction_steps dim i = getRelativeDirections dim i.
Proof.
  intros Hdim Hi. unfold direction_steps.
  rewrite (directions_prefix dim 3 i Hdim). f_equal. unfold axis_step.
  destruct (contains_direction i Hi) as (-> & -> & -> & -> & -> & ->).
  destruct (directions_values 3 i ltac:(lia)) as [Hv HL].
  destruct (getRelativeDirections 3 i) as [|a [|b [|e [|]]]]; try discriminate HL. unfold at_. cbn [nth].
  inversion Hv as [|? ? Ha Hv1]; subst. inversion Hv1 as [|? ? Hb Hv2]; subst. inversion Hv2 as [|? ? He _]; subst.
  destruct Ha as [->|[->| ->]], Hb as [->|[->| ->]], He as [->|[->| ->]]; reflexivity.
Qed.

Lemma rem_mod_same x d : 1 <= d -> Z.rem x d mod d = x mod d.
Proof.
  intros Hd. rewrite <- (rem_or_add x d Hd). pose proof (Z.rem_bound_abs x d ltac:(lia)).
  destruct (Z.ltb_spec (Z.rem x d) 0).
  - symmetry. apply Z.mod_unique with (-1); lia.
  - apply Z.mod_small. lia.
Qed.

(** The extents of the dimensions in use. *)
Definition extents (c : Comm) : DataSpace := take (DIM c) c.(dims).

Lemma extents_y c : well_placed c -> exists n0 r, extents c = n0 :: at_ c.(dims) 1 :: r.
Proof.
  intros [Hd HL _ _ _ _ _]. unfold extents. destruct c.(dims) as [|a [|b [|e [|]]]]; try discriminate HL.
  destruct Hd as [->| ->]; cbn; eauto.
Qed.

Lemma extents_pos c : well_placed c -> Forall (fun d => 1 <= d) (extents c).
Proof. intros H. apply Forall_take. apply H. Qed.

Lemma extents_length c : well_placed c -> length (extents c) = DIM c.
Proof. intros H. unfold extents. rewrite length_take, (wp_dims c H). destruct (wp_dim c H); lia. Qed.

(** The base coordinates of the neighbour in direction [i]. *)
Definition neighbour_base (c : Comm) (i : Z) : DataSpace :=
  vmod (on_y (fun y => y - c.(yoffset)) (vadd (window_coords c) (getRelativeDirections (DIM c) i))) (extents c).

Lemma on_y_length f v : length (on_y f v) = length v.
Proof. by destruct v as [|x [|y v]]. Qed.

Lemma window_range c : well_placed c -> in_range (extents c) (window_coords c).
Proof.
  intros H. rewrite (window_coords_mod c H). pose proof (wp_base c H) as Hb. fold (extents c) in Hb.
  destruct (extents_y c H) as (n0 & r & E). pose proof (extents_pos c H) as Hp. rewrite E in Hb, Hp |- *.
  inversion Hb as [|? x ? v Hx Hv]; subst. inversion Hv as [|? y ? w Hy Hw]; subst. cbn [on_y].
  constructor; [done|]. constructor; [|done]. apply Z.mod_pos_bound. lia.
Qed.

Lemma window_length c : well_placed c -> length (window_coords c) = DIM c.
Proof. intros H. by rewrite (in_range_length _ _ (window_range c H)), extents_length. Qed.

Lemma round_rank_cart c i :
  well_placed c -> 1 <= i < 27 ->
  round_rank c (window_coords c) i =
  if round_ok c (window_coords c) i then cart_rank (extents c) (neighbour_base c i) else -1.
Proof.
  intros H Hi. unfold round_rank. destruct (round_ok _ _ _); [|done].
  assert (Hdim : (DIM c <= 3)%nat) by (destruct (wp_dim c H); lia).
  rewrite steps_directions by done. fold (extents c). unfold neighbour_base.
  set (mc := vadd (window_coords c) (getRelativeDirections (DIM c) i)).
  assert (HL : length mc = length (extents c)).
  { unfold mc, vadd. rewrite length_zip_with, window_length, directions_length, extents_length by done. lia. }
  cbv zeta. rewrite rank_of_cart; [|by apply extents_pos|by destruct (1 <? at_ (dims c) 1); rewrite ?on_y_length].
  f_equal. pose proof (extents_pos c H) as Hp. destruct (extents_y c H) as (n0 & r & E). rewrite E in Hp |- *.
  clearbody mc. destruct mc as [|x [|y v]]; [by destruct (1 <? at_ (dims c) 1)|by destruct (1 <? at_ (dims c) 1)|].
  inversion Hp as [|? ? _ Hp1]; subst. inversion Hp1 as [|? ? Hd1 _]; subst.
  destruct (Z.ltb_spec 1 (at_ (dims c) 1)); unfold vmod; cbn [on_y zip_with]; do 2 f_equal.
  - by rewrite rem_mod_same.
  - assert (at_ (dims c) 1 = 1) as -> by lia. by rewrite !Z.mod_1_r.
Qed.

(** A step and its mirror, on the torus and over the ends that are not periodic. *)
Lemma step_back P D w d :
  in_range D w -> length d = length D -> length P = length D -> Forall (fun s => -1 <= s <= 1) d ->
  neighbour_ok P D (vadd w d) = true ->
  neighbour_ok P D (vadd (vmod (vadd w d) D) (map Z.opp d)) = true /\
  vmod (vadd (vmod (vadd w d) D) (map Z.opp d)) D = w.
Proof.
  intros Hw. unfold neighbour_ok, vmod, vadd. revert P d. induction Hw as [|n x D w Hx Hw IH]; intros [|p P] [|s d] Hd HP Hs Hok;
    try discriminate; [done|].
  inversion Hs as [|? ? Hs1 Hs2]; subst. cbn [zip zip_with map forallb] in *. apply andb_true_iff in Hok as [Hok1 Hok2].
  destruct (IH P d) as [I1 I2]; [by injection Hd|by injection HP|done|done|]. rewrite I1, I2, andb_true_r.
  assert (Em : ((x + s) mod n + - s) mod n = x).
  { rewrite Zplus_mod_idemp_l. replace (x + s + - s) with x by lia. apply Z.mod_small. lia. }
  split; [|by f_equal].
  destruct (Z.eqb_spec p 0) as [->|]; [|done]. cbn [andb] in *. rewrite negb_true_iff, orb_false_iff in *.
  rewrite Z.ltb_ge, Z.leb_gt in *. rewrite (Z.mod_small (x + s)) by lia. lia.
Qed.

(** [neighbour_base] of a process is in the grid. *)
Lemma neighbour_base_range c i : well_placed c -> in_range (extents c) (neighbour_base c i).
Proof.
  intros H. apply vmod_range; [by apply extents_pos|]. rewrite on_y_length. unfold vadd.
  rewrite length_zip_with, window_length, directions_length, extents_length by done. lia.
Qed.

(** Two communicators of one grid at one position of the window. *)
Definition same_grid (a b : Comm) : Prop :=
  a.(dims) = b.(dims) /\ a.(periodic) = b.(periodic) /\ a.(yoffset) = b.(yoffset) /\ DIM a = DIM b.

Lemma neighbour_window a b i :
  well_placed a -> well_placed b -> same_grid a b -> b.(baseCoordinates) = neighbour_base a i ->
  window_coords b = vmod (vadd (window_coords a) (getRelativeDirections (DIM a) i)) (extents a).
Proof.
  intros Ha Hb (Ed & _ & Ey & _) E. rewrite (window_coords_mod b Hb), E. unfold neighbour_base. rewrite <- Ey, <- Ed.
  destruct (extents_y a Ha) as (n0 & r & Ex). rewrite Ex.
  destruct (vadd _ _) as [|x [|y v]]; [done..|]. unfold vmod. cbn [on_y zip_with]. do 2 f_equal.
  rewrite Zplus_mod_idemp_l. f_equal. lia.
Qed.

Lemma base_of_window c v :
  well_placed c -> length v = DIM c -> vmod v (extents c) = window_coords c ->
  vmod (on_y (fun y => y - c.(yoffset)) v) (extents c) = c.(baseCoordinates).
Proof.
  intros H HL. rewrite (window_coords_mod c H). pose proof (wp_base c H) as Hb. fold (extents c) in Hb.
  pose proof (extents_length c H) as HE. destruct (extents_y c H) as (n0 & r & E). rewrite E in *.
  destruct (baseCoordinates c) as [|x [|y u']]; [by inversion Hb|inversion Hb as [|? ? ? ? _ Hb']; by inversion Hb'|].
  inversion Hb as [|? ? ? ? Hx Hu]; subst. inversion Hu as [|? ? ? ? Hy Hu']; subst.
  destruct v as [|v0 [|v1 v]]; cbn in HE, HL; [lia|lia|].
  unfold vmod. cbn [on_y zip_with]. intros [= -> E1 ->]. do 2 f_equal.
  rewrite <- (Zminus_mod_idemp_l v1), E1, Zminus_mod_idemp_l. replace (y + yoffset c - yoffset c) with y by lia.
  by apply Z.mod_small.
Qed.

(** The tables of two processes, in one position of the window, agree. *)
Lemma tables_agree a b i :
  well_placed a -> well_placed b -> same_grid a b -> 1 <= i < 3 ^ Z.of_nat (DIM a) ->
  round_ok a (window_coords a) i = true -> cart_rank (extents a) (neighbour_base a i) = b.(mpiRank) ->
  round_ok b (window_coords b) (mirror i) = true /\
  cart_rank (extents b) (neighbour_base b (mirror i)) = a.(mpiRank) /\
  window_coords b = vmod (vadd (window_coords a) (getRelativeDirections (DIM a) i)) (extents a).
Proof.
  intros Ha Hb Hs Hi Hok Hr. pose proof Hs as (Ed & Ep & Ey & ED).
  assert (Ex : extents b = extents a) by (unfold extents; by rewrite Ed, ED).
  assert (Hdim : (DIM a <= 3)%nat) by (destruct (wp_dim a Ha); lia).
  assert (Hi27 : 1 <= i < 27) by (destruct (wp_dim a Ha) as [E|E]; rewrite E in Hi; simpl in Hi; lia).
  assert (Hm27 : 1 <= mirror i < 27).
  { destruct (mirror_table i ltac:(lia)) as (_ & Hmr & _ & Hinv).
    destruct (decide (mirror i = 0)) as [E0|]; [|lia]. rewrite E0 in Hinv. vm_compute in Hinv. lia. }
  assert (Hbase : b.(baseCoordinates) = neighbour_base a i).
  { rewrite (wp_rank b Hb) in Hr. fold (extents b) in Hr. rewrite Ex in Hr. symmetry.
    eapply cart_rank_inj; [by apply neighbour_base_range| |exact Hr]. rewrite <- Ex. apply Hb. }
  pose proof (neighbour_window a b i Ha Hb Hs Hbase) as Hw.
  unfold round_ok in Hok. rewrite steps_directions in Hok by done. fold (extents a) in Hok.
  destruct (directions_values (DIM a) i ltac:(lia)) as [Hv HL].
  destruct (step_back (take (DIM a) a.(periodic)) _ _ (getRelativeDirections (DIM a) i) (window_range a Ha))
    as [I1 I2]; [by rewrite extents_length|rewrite length_take, (wp_periodic a Ha), extents_length by done; lia| |done|].
  { eapply Forall_impl; [exact Hv|]. cbn. lia. }
  split_and!; [|..|done].
  - unfold round_ok. rewrite steps_directions by (rewrite <- ?ED; done). fold (extents b).
    rewrite Hw, Ex, <- Ep, <- ED, mirror_directions by lia. done.
  - rewrite (wp_rank a Ha). fold (extents a). rewrite Ex. f_equal. unfold neighbour_base.
    rewrite Hw, Ex, <- ED, <- Ey, mirror_directions by lia. apply base_of_window; [done| |done].
    unfold vadd, vmod. rewrite !length_zip_with, length_map, window_length, directions_length, extents_length by done. lia.
Qed.

(** ** Slides *)

(** What the tables depend on. *)
Lemma round_ext c c' :
  c.(baseCoordinates) = c'.(baseCoordinates) -> c.(dims) = c'.(dims) -> c.(periodic) = c'.(periodic) ->
  c.(yoffset) = c'.(yoffset) ->
  window_coords c = window_coords c' /\ directions c = directions c' /\
  forall co i, round_ok c co i = round_ok c' co i /\ round_rank c co i = round_rank c' co i.
Proof.
  intros Eb Ed Ep Ey.
  assert (ED : DIM c = DIM c') by (unfold DIM; by rewrite Eb).
  split_and!; [unfold window_coords; by rewrite Eb, Ed, Ey|unfold directions; by rewrite ED|].
  intros co i. assert (Eo : round_ok c co i = round_ok c' co i) by (unfold round_ok; by rewrite ED, Ed, Ep).
  split; [done|]. unfold round_rank. by rewrite Eo, ED, Ed, Ey.
Qed.

Lemma mask_ext (m m' : Mask) : (forall i, 0 <= i -> isSet m i = isSet m' i) -> m = m'.
Proof. intros H. apply Z.bits_inj'. intros i Hi. rewrite <- !isSet_testbit by done. by apply H. Qed.

Lemma update_ext c c' :
  c.(baseCoordinates) = c'.(baseCoordinates) -> c.(dims) = c'.(dims) -> c.(periodic) = c'.(periodic) ->
  c.(yoffset) = c'.(yoffset) -> c.(mpiRank) = c'.(mpiRank) -> c.(mpiSize) = c'.(mpiSize) ->
  c.(hostRank) = c'.(hostRank) -> (forall i, i ∈ directions c \/ c.(ranks) !! i = c'.(ranks) !! i) ->
  updateCoordinates c = updateCoordinates c'.
Proof.
  intros Eb Ed Ep Ey Er Es Eh Hr.
  destruct (round_ext c c' Eb Ed Ep Ey) as (Ew & Edir & Ero).
  pose proof (update_fields c) as (F1 & F2 & F3 & F4 & F5 & F6 & F7 & F8).
  pose proof (update_fields c') as (G1 & G2 & G3 & G4 & G5 & G6 & G7 & G8).
  assert (M : (updateCoordinates c).(communicationMask) = (updateCoordinates c').(communicationMask)).
  { apply mask_ext. intros i Hi. rewrite !update_mask, Edir, Ew by done. by rewrite (proj1 (Ero _ i)). }
  assert (R : (updateCoordinates c).(ranks) = (updateCoordinates c').(ranks)).
  { apply map_eq. intros i. rewrite !update_ranks, Edir, Ew, (proj2 (Ero _ i)).
    case_bool_decide as Hin; [done|]. destruct (Hr i) as [Hd|]; [|done]. by rewrite Edir in Hd. }
  destruct (updateCoordinates c), (updateCoordinates c').
  cbn [coordinates baseCoordinates periodic dims ranks communicationMask yoffset mpiRank mpiSize hostRank] in *.
  congruence.
Qed.

(** A new window position makes what the tables held irrelevant. *)
Lemma update_absorb y c : updateCoordinates (set_yoffset y (updateCoordinates c)) = updateCoordinates (set_yoffset y c).
Proof.
  destruct (update_fields c) as (_ & F2 & F3 & F4 & F5 & F6 & F7 & F8).
  apply update_ext; cbn; try done. intros i.
  change (directions (set_yoffset y (updateCoordinates c))) with
    (seqZ 1 (direction_bound (length (baseCoordinates (updateCoordinates c))) - 1)).
  rewrite F2. change (seqZ 1 (direction_bound (length (baseCoordinates c)) - 1)) with (directions c).
  rewrite update_ranks. case_bool_decide; auto.
Qed.

(** The window position after [k] more slides. *)
Definition window_after (d y k : Z) : Z := - ((k - y) mod d).

Lemma slide_state c :
  (2 <= DIM c)%nat -> 1 <= at_ c.(dims) 1 -> - at_ c.(dims) 1 < c.(yoffset) <= 0 ->
  (slide c).2 = updateCoordinates (set_yoffset (window_after (at_ c.(dims) 1) c.(yoffset) 1) c).
Proof.
  intros HD Hd Hw. unfold slide. destruct (Nat.ltb_spec (DIM c) 2); [lia|]. cbn [snd]. do 2 f_equal.
  unfold window_after. destruct (Z.eqb_spec (yoffset c - 1) (- at_ (dims c) 1)) as [E|E].
  - replace (1 - yoffset c) with (at_ (dims c) 1) by lia. rewrite Z.mod_same by lia. done.
  - rewrite Z.mod_small by lia. lia.
Qed.

Lemma slides_flag n r r' c : (slides n r c).2 = (slides n r' c).2.
Proof. destruct n; [done|]. cbn. by destruct (slide c). Qed.

Lemma window_after_range d y k : 1 <= d -> - d < window_after d y k <= 0.
Proof. intros Hd. unfold window_after. pose proof (Z.mod_pos_bound (k - y) d ltac:(lia)). lia. Qed.

Lemma slides_state n r c :
  (2 <= DIM c)%nat -> 1 <= at_ c.(dims) 1 -> - at_ c.(dims) 1 < c.(yoffset) <= 0 ->
  (slides (S n) r c).2 = updateCoordinates (set_yoffset (window_after (at_ c.(dims) 1) c.(yoffset) (Z.of_nat (S n))) c).
Proof.
  revert r c. induction n as [|n IH]; intros r c HD Hd Hw.
  { cbn [slides]. change (Z.of_nat 1) with 1. rewrite <- (slide_state c HD Hd Hw). by destruct (slide c). }
  change (slides (S (S n)) r c) with (let '(r, c) := slide c in slides (S n) r c).
  pose proof (slide_state c HD Hd Hw) as Hs. destruct (slide c) as [r1 c1]. cbn [snd] in Hs. subst c1.
  set (y1 := window_after (at_ (dims c) 1) (yoffset c) 1).
  destruct (update_fields (set_yoffset y1 c)) as (_ & Eb & _ & Ed & Ey & _).
  pose proof (window_after_range (at_ (dims c) 1) (yoffset c) 1 Hd) as Hr. fold y1 in Hr.
  rewrite IH.
  - rewrite Ed, Ey. cbn [dims yoffset set_yoffset]. rewrite update_absorb. unfold set_yoffset. cbn [coordinates baseCoordinates
      periodic dims ranks communicationMask mpiRank mpiSize hostRank]. do 2 f_equal. unfold y1, window_after. f_equal.
    rewrite Z.sub_opp_r, Zplus_mod_idemp_r. f_equal. lia.
  - unfold DIM. rewrite Eb. done.
  - by rewrite Ed.
  - by rewrite Ed, Ey.
Qed.

(** ** Theorems *)

(** MPI's Cartesian topology: row-major ranks. *)
Definition Cartesian (nodes : DataSpace) (s : TopologySnapshot) : Prop :=
  in_range nodes s.(ts_coordinates) /\ s.(ts_rank) = cart_rank nodes s.(ts_coordinates).

Definition grid_nodes (nodes : DataSpace) : Prop :=
  (length nodes = 2%nat \/ length nodes = 3%nat) /\ Forall (fun n => 1 <= n) nodes.

Lemma pad_take nodes : grid_nodes nodes -> take (length nodes) (pad_nodes nodes) = nodes.
Proof.
  intros [[L|L] _]; destruct nodes as [|a [|b [|e [|]]]]; try discriminate L; done.
Qed.

Lemma pad_y nodes : grid_nodes nodes -> 1 <= at_ (pad_nodes nodes) 1.
Proof.
  intros [[L|L] H]; destruct nodes as [|a [|b [|e [|]]]]; try discriminate L;
    inversion H as [|? ? _ H1]; subst; inversion H1; subst; cbn; lia.
Qed.

(** The communicator before its first [updateCoordinates], with the window at [y]. *)
Definition raw_comm (s : TopologySnapshot) (nodes per : DataSpace) (y : Z) : Comm :=
  mkComm [] s.(ts_coordinates) (pad_nodes per) (pad_nodes nodes) ∅ Mask_empty y s.(ts_rank) s.(ts_size) s.(ts_hostLocalRank).

Lemma raw_placed s nodes per y :
  grid_nodes nodes -> Cartesian nodes s -> - at_ (pad_nodes nodes) 1 < y <= 0 -> well_placed (raw_comm s nodes per y).
Proof.
  intros Hn [Hr Hk] Hy. pose proof (in_range_length _ _ Hr) as HL. pose proof (pad_take nodes Hn) as Ht.
  split; unfold DIM; cbn [raw_comm baseCoordinates dims periodic yoffset mpiRank]; rewrite ?HL, ?Ht; try done.
  - apply Hn.
  - destruct Hn as [[L|L] H]; destruct nodes as [|a [|b [|e [|]]]]; try discriminate L;
      repeat (match goal with H : Forall _ (_ :: _) |- _ => inversion H; clear H; subst end); repeat constructor; cbn; lia.
Qed.

Lemma slides_of_init n s nodes per :
  grid_nodes nodes -> Cartesian nodes s ->
  (slides n false (Comm_init s (pad_nodes nodes) (pad_nodes per))).2 =
  updateCoordinates (raw_comm s nodes per (window_after (at_ (pad_nodes nodes) 1) 0 (Z.of_nat n))).
Proof.
  intros Hn Hc. unfold Comm_init. change (mkComm _ _ _ _ _ _ 0 _ _ _) with (raw_comm s nodes per 0).
  pose proof (pad_y nodes Hn) as Hy. destruct n as [|n].
  { cbn [slides snd]. unfold window_after. rewrite Z.mod_0_l by lia. done. }
  destruct (update_fields (raw_comm s nodes per 0)) as (_ & Eb & _ & Ed & Ey & _).
  rewrite slides_state.
  - rewrite Ed, Ey, update_absorb. done.
  - unfold DIM. rewrite Eb. cbn. rewrite (in_range_length _ _ (proj1 Hc)). destruct Hn as [[L|L] _]; lia.
  - by rewrite Ed.
  - rewrite Ed, Ey. cbn [raw_comm dims yoffset]. lia.
Qed.

Lemma directions_spec c i :
  DIM c = 2%nat \/ DIM c = 3%nat -> i ∈ directions c <-> 1 <= i < 3 ^ Z.of_nat (DIM c).
Proof. intros [E|E]; unfold directions; rewrite E, elem_of_seqZ;
  [change (direction_bound 2) with 9; change (3 ^ Z.of_nat 2) with 9|change (direction_bound 3) with 27; change (3 ^ Z.of_nat 3) with 27]; lia. Qed.

Lemma mirror_plane i : 1 <= i < 9 -> 1 <= mirror i < 9.
Proof.
  intros Hi. pose (P := fun i => (i =? 0) || ((1 <=? mirror i) && (mirror i <? 9))).
  assert (H : P i = true) by (apply (for_exchanges P 9); [by vm_compute|lia]). unfold P in H. lia.
Qed.

Lemma mirror_bound dim i :
  dim = 2%nat \/ dim = 3%nat -> 1 <= i < 3 ^ Z.of_nat dim -> 1 <= mirror i < 3 ^ Z.of_nat dim.
Proof.
  intros [->| ->] Hi; [by apply mirror_plane|].
  pose (P := fun i => (i =? 0) || ((1 <=? mirror i) && (mirror i <? 27))).
  assert (H : P i = true) by (apply (for_exchanges P 27); [by vm_compute|simpl in Hi; lia]). unfold P in H. simpl in *. lia.
Qed.

(** Exchange partners.  In a grid of two or three dimensions whose ranks MPI
    numbers row-major, take two processes that have slid the same number [n] of times.
    If the first one's table names the second for a direction, the second one's table
    names the first for the mirrored direction, and the second lies one step in that
    direction, around the periodic ends: what one sends, the other is set to receive.
    A direction is missing from the communication mask exactly when its table entry is
    -1, which it is when the step leaves the grid over an end that is not periodic. *)
Theorem exchange_partners nodes per s1 s2 n ex :
  grid_nodes nodes -> Cartesian nodes s1 -> Cartesian nodes s2 -> 1 <= ex < 3 ^ Z.of_nat (length nodes) ->
  let c1 := (slides n false (Comm_init s1 (pad_nodes nodes) (pad_nodes per))).2 in
  let c2 := (slides n false (Comm_init s2 (pad_nodes nodes) (pad_nodes per))).2 in
  (ExchangeTypeToRank c1 ex = Some s2.(ts_rank) ->
     ExchangeTypeToRank c2 (mirror ex) = Some s1.(ts_rank) /\
     c2.(coordinates) = vmod (vadd c1.(coordinates) (getRelativeDirections (length nodes) ex)) nodes) /\
  (isSet c1.(communicationMask) ex = false <-> ExchangeTypeToRank c1 ex = Some (-1)) /\
  isSet c1.(communicationMask) ex =
    neighbour_ok (take (length nodes) (pad_nodes per)) nodes
      (vadd c1.(coordinates) (getRelativeDirections (length nodes) ex)).
Proof.
  intros Hn H1 H2 Hex c1 c2. subst c1 c2. rewrite (slides_of_init n s1), (slides_of_init n s2) by done.
  set (y := window_after _ _ _).
  assert (Hy : - at_ (pad_nodes nodes) 1 < y <= 0) by (apply window_after_range; by apply pad_y).
  set (a := raw_comm s1 nodes per y). set (b := raw_comm s2 nodes per y).
  assert (Ha : well_placed a) by (by apply raw_placed). assert (Hb : well_placed b) by (by apply raw_placed).
  assert (HDa : DIM a = length nodes) by (apply in_range_length, H1).
  assert (HDb : DIM b = length nodes) by (apply in_range_length, H2).
  assert (HDn : DIM a = 2%nat \/ DIM a = 3%nat) by apply (wp_dim a Ha).
  assert (Hs : same_grid a b) by (unfold same_grid; split_and!; [done..|congruence]).
  assert (Hx : extents a = nodes) by (unfold extents; rewrite HDa; by apply pad_take).
  assert (Hex27 : 1 <= ex < 27) by (rewrite HDa in HDn; destruct HDn as [E|E]; rewrite E in Hex; simpl in Hex; lia).
  assert (Hin : ex ∈ directions a) by (apply directions_spec; [done|by rewrite HDa]).
  destruct (update_fields a) as (Eca & _), (update_fields b) as (Ecb & _).
  pose proof (update_ranks a ex) as Hra. rewrite (bool_decide_eq_true_2 _ Hin), (round_rank_cart a ex Ha Hex27) in Hra.
  pose proof (update_mask a ex ltac:(lia)) as Hma. rewrite (bool_decide_eq_true_2 _ Hin) in Hma. cbn [andb] in Hma.
  unfold ExchangeTypeToRank. rewrite Hma, Hra, Eca, Ecb.
  assert (Hpos : 0 <= cart_rank (extents a) (neighbour_base a ex)).
  { apply cart_fold_nonneg; [by apply neighbour_base_range|done]. }
  split_and!.
  - destruct (round_ok a (window_coords a) ex) eqn:Hok; intros [= Er].
    + destruct (tables_agree a b ex Ha Hb Hs ltac:(by rewrite HDa) Hok Er) as (Hok' & Er' & Hw).
      rewrite HDa, Hx in Hw. split; [|done]. rewrite update_ranks.
      pose proof (mirror_bound (DIM a) ex HDn ltac:(by rewrite HDa)) as Hm.
      rewrite (bool_decide_eq_true_2 (mirror ex ∈ directions b)).
      2: { apply directions_spec; [apply (wp_dim b Hb)|]. rewrite HDb, <- HDa. done. }
      rewrite (round_rank_cart b (mirror ex) Hb), Hok', Er'; [done|].
      destruct HDn as [E|E]; rewrite E in Hm; simpl in Hm; lia.
    + exfalso. pose proof (cart_fold_nonneg nodes (ts_coordinates s2) 0 (proj1 H2) ltac:(lia)) as Hp.
      rewrite (proj2 H2) in Er. unfold cart_rank in Er. lia.
  - destruct (round_ok a (window_coords a) ex); (split; [intros E; try discriminate E; done|]); [|done].
    intros [= E]. lia.
  - unfold round_ok. rewrite steps_directions by (destruct HDn; lia). rewrite HDa. cbn [periodic dims raw_comm a].
    by rewrite pad_take.
Qed.

Lemma exchange_partners_witness :
  let s1 := mkSnapshot 1 6 0 [0; 1] in
  let s2 := mkSnapshot 5 6 0 [2; 1] in
  let c1 := (slides 1 false (Comm_init s1 (pad_nodes [3; 2]) (pad_nodes [1; 0]))).2 in
  let c2 := (slides 1 false (Comm_init s2 (pad_nodes [3; 2]) (pad_nodes [1; 0]))).2 in
  ExchangeTypeToRank c1 LEFT = Some 5 /\ ExchangeTypeToRank c2 (mirror LEFT) = Some 1
  /\ ExchangeTypeToRank c1 TOP = Some (-1).
Proof.
  intros s1 s2 c1 c2. split_and!; [by vm_compute| |by vm_compute].
  apply (exchange_partners [3; 2] [1; 0] s1 s2 1 LEFT).
  - split; [by left|]. repeat (constructor; [lia|]). constructor.
  - split; [|done]. repeat (constructor; [lia|]). constructor.
  - split; [|done]. repeat (constructor; [lia|]). constructor.
  - by vm_compute.
  - by vm_compute.
Defined.

(** *** Restoring a slid state *)

Lemma u32_s32 z b : u32 (s32 z + b) = u32 (z + b).
Proof.
  unfold s32. destruct (u32 z <? 2 ^ 31); [apply u32_add_l|].
  replace (u32 z - 2 ^ 32 + b) with (u32 z + b + (-1) * 2 ^ 32) by lia.
  unfold u32. rewrite Z.mod_add by lia. apply Zplus_mod_idemp_l.
Qed.

Lemma s32_add z b : s32 (s32 z + b) = s32 (z + b).
Proof. unfold s32 at 1 3. by rewrite u32_s32. Qed.

Lemma on_y_on_y f g v : on_y f (on_y g v) = on_y (fun y => f (g y)) v.
Proof. by destruct v as [|x [|y v]]. Qed.

Lemma on_y_ext f g v : (forall y, f y = g y) -> on_y f v = on_y g v.
Proof. intros H. destruct v as [|x [|y v]]; cbn; [done..|]. by rewrite H. Qed.

(** Offsets updated for a slide and then for [k] more are those of [k + 1] slides. *)
Lemma updateDomainOffset_twice k c c' g :
  updateDomainOffset k (set_comm c' (updateDomainOffset 1 (set_comm c g))) = updateDomainOffset (k + 1) (set_comm c' g).
Proof.
  destruct g as [nodes cm [td [gs go] [ls lo]]]. unfold updateDomainOffset, set_comm, setGlobalDomainOffset, setLocalDomainOffset.
  cbn [gpuNodes comm subGrid totalDomain globalDomain localDomain size offset].
  rewrite !on_y_on_y. do 3 f_equal. apply on_y_ext. intros y.
  rewrite s32_add. f_equal. lia.
Qed.

Lemma GridController_slides_state n g :
  GridController_slides (S n) g = updateDomainOffset (Z.of_nat (S n)) (set_comm (slides (S n) false g.(comm)).2 g).
Proof.
  revert g. induction n as [|n IH]; intros g.
  - cbn [GridController_slides slides]. unfold GridController_slide. by destruct (slide (comm g)).
  - change (GridController_slides (S (S n)) g) with (GridController_slides (S n) (GridController_slide g).2).
    rewrite IH. change (slides (S (S n)) false (comm g)) with (let '(r, c) := slide (comm g) in slides (S n) r c).
    unfold GridController_slide. destruct (slide (comm g)) as [r c]. cbn [snd].
    change (comm (updateDomainOffset 1 (set_comm c g))) with c.
    rewrite updateDomainOffset_twice, (slides_flag (S n) r false). f_equal. lia.
Qed.

(** A communicator whose tables are those of its window position. *)
Definition settled (c : Comm) : Prop := updateCoordinates c = c.

Lemma update_settled c : settled (updateCoordinates c).
Proof.
  destruct (update_fields c) as (_ & F2 & F3 & F4 & F5 & F6 & F7 & F8). unfold settled.
  apply update_ext; try done. intros i. unfold directions, DIM at 1. rewrite F2.
  change (seqZ 1 (direction_bound (length (baseCoordinates c)) - 1)) with (directions c).
  rewrite update_ranks. case_bool_decide; auto.
Qed.

Lemma slides_mod n c :
  settled c -> (2 <= DIM c)%nat -> 1 <= at_ c.(dims) 1 -> - at_ c.(dims) 1 < c.(yoffset) <= 0 ->
  (slides (Z.to_nat (Z.of_nat n mod at_ c.(dims) 1)) false c).2 = (slides n false c).2.
Proof.
  intros Hs HD Hd Hw.
  assert (E : forall k, (slides k false c).2 =
    updateCoordinates (set_yoffset (window_after (at_ c.(dims) 1) c.(yoffset) (Z.of_nat k)) c)).
  { intros [|k]; [|by apply slides_state]. cbn [slides snd].
    unfold window_after. rewrite Z.mod_small by lia.
    replace (- (Z.of_nat 0 - yoffset c)) with (yoffset c) by lia. unfold settled in Hs. rewrite <- Hs at 1. by destruct c. }
  rewrite !E. do 2 f_equal. unfold window_after. f_equal.
  rewrite Z2Nat.id by (apply Z.mod_pos_bound; lia). by rewrite Zminus_mod_idemp_l.
Qed.

(** Restoring the sliding window.  On a controller whose communicator is settled at
    some position of the window, [setStateAfterSlides numSlides], which slides the
    communicator only [numSlides] modulo the extent in y times, leaves the communicator
    (coordinates, neighbour ranks, mask, window position) and the domain offsets in the
    state that calling [slide] [numSlides] times leaves them in. *)
Theorem slides_restored g numSlides :
  settled g.(comm) -> (2 <= DIM g.(comm))%nat -> 1 <= at_ g.(comm).(dims) 1 ->
  - at_ g.(comm).(dims) 1 < g.(comm).(yoffset) <= 0 -> 0 <= numSlides ->
  (GridController_setStateAfterSlides numSlides g).2 = GridController_slides (Z.to_nat numSlides) g.
Proof.
  intros Hs HD Hd Hw Hn. unfold GridController_setStateAfterSlides.
  destruct (Z.eqb_spec numSlides 0) as [->|Hne]; [done|].
  destruct (Z.to_nat numSlides) as [|k] eqn:Ek; [lia|]. rewrite GridController_slides_state.
  unfold setStateAfterSlides. rewrite (proj2 (Z.eqb_neq _ _)) by done.
  destruct (Nat.ltb_spec (DIM (comm g)) 2); [lia|].
  pose proof (slides_mod (S k) (comm g) Hs HD Hd Hw) as E. rewrite <- Ek, Z2Nat.id in E by lia.
  destruct (slides (Z.to_nat (numSlides mod at_ (dims (comm g)) 1)) false (comm g)) as [r c]. cbn [snd] in *.
  rewrite E, Ek. f_equal. lia.
Qed.

Lemma slides_restored_witness :
  let g := GridController_init (mkSnapshot 1 6 0 [0; 1]) [2; 3] [0; 1] (SubGrid_init [4; 8] [8; 24] [0; 8]) in
  (GridController_setStateAfterSlides 7 g).2 = GridController_slides 7 g /\
  (GridController_slides 7 g).(subGrid).(globalDomain).(offset) = [0; 56] /\
  (GridController_slides 7 g).(comm).(coordinates) = [0; 0].
Proof.
  intros g. split_and!; [|by vm_compute|by vm_compute].
  apply (slides_restored g 7); [|by vm_compute; lia|by vm_compute|by vm_compute|lia].
  exact (update_settled _).
Defined.

(** The flags differ: after as many slides as the extent in y, every process is back;
    the last [slide] tells the one at the end so, [setStateAfterSlides] does not. *)
Lemma restored_flag_differs :
  let c := Comm_init (mkSnapshot 1 2 0 [0; 1]) [1; 2; 1] [0; 1; 1] in
  (slides 2 false c).1 = true /\ (setStateAfterSlides 2 c).1 = false.
Proof. by vm_compute. Qed.

(** Updating the offsets twice for one slide moves the global domain twice. *)
Lemma updateDomainOffset_not_idempotent :
  let g := GridController_init (mkSnapshot 0 2 0 [0; 0]) [1; 2] [0; 1] (SubGrid_init [4; 8] [4; 16] [0; 0]) in
  (updateDomainOffset 1 g).(subGrid).(globalDomain).(offset) = [0; 8] /\
  (updateDomainOffset 1 (updateDomainOffset 1 g)).(subGrid).(globalDomain).(offset) = [0; 16].
Proof. by vm_compute. Qed.
