(* ===== verification/Buffers.v ===== *)
(** * Buffers and their views

    A [Buffer] is an n-dimensional view of an allocation with a current number of
    elements; host and device buffers allocate, or look at a box of another buffer's
    memory.  The file models [Buffer], [HostBuffer], [DeviceBuffer], the copies of
    [HostDeviceBuffer] and the boxes kernels address elements with ([PitchedBox],
    [DataBoxDim1Access]).  Views and copies of memory are alpaka's: the class
    [AlpakaMemory] has its functions, [AlpakaMemoryLaws] what their documentation says.
    Extents and pitches are [size_t] and stay far below its range.

    The theorems show that element addresses follow the linear index of the allocation,
    that the box of a partial size covers its elements, what filling a buffer writes,
    and that copying to the device and back restores the host. *)
From Stdlib Require Import ZArith Lia.
From stdpp Require Import base list list_numbers numbers gmap strings.
From S2P Require Import Prelude Outcome DataSpaces FrameList.
Open Scope Z_scope.

(** [MemSpace]: a vector of [size_t], x first; alpaka's vectors list z first. *)
Definition MemSpace : Type := list Z.
Definition toAlpakaVec (v : MemSpace) : list Z := rev v.
Definition fromAlpakaVec (v : list Z) : MemSpace := rev v.

Definition dot (u v : list Z) : Z := foldr Z.add 0 (zip_with Z.mul u v).

(** ** alpaka's views *)

(** The elements of an allocation by byte address, the allocation starting at 0;
    an element that was never written is missing. *)
Class AlpakaMemory (V : Type) : Type := {
  AView : Type;
  makeView : Z -> list Z -> list Z -> AView;
  getSubView : AView -> list Z -> list Z -> AView;
  view_data : AView -> Z;
  getExtents : AView -> list Z;
  getPitches : AView -> list Z;
  memcpy : gmap Z V -> AView -> gmap Z V -> AView -> list Z -> gmap Z V;
}.

Section View.
Context {V : Type} `{AlpakaMemory V}.

Definition vaddr (v : AView) (idx : list Z) : Z := view_data v + dot idx (getPitches v).

(** No two elements of the extent [e] of [v] share an address. *)
Definition separate (v : AView) (e : list Z) : Prop :=
  forall i j, in_range e i -> in_range e j -> vaddr v i = vaddr v j -> i = j.
End View.

Class AlpakaMemoryLaws (V : Type) `{AlpakaMemory V} : Prop := {
  makeView_data p e s : view_data (makeView p e s) = p;
  makeView_extents p e s : getExtents (makeView p e s) = e;
  makeView_pitches p e s : getPitches (makeView p e s) = s;
  subView_data v o e : view_data (getSubView v o e) = view_data v + dot o (getPitches v);
  subView_extents v o e : getExtents (getSubView v o e) = e;
  subView_pitches v o e : getPitches (getSubView v o e) = getPitches v;
  memcpy_inside m d ms s e idx :
    separate d e -> in_range e idx -> memcpy m d ms s e !! vaddr d idx = ms !! vaddr s idx;
  memcpy_outside m d ms s e a :
    (forall idx, in_range e idx -> vaddr d idx <> a) -> memcpy m d ms s e !! a = m !! a;
}.

(** ** Boxes *)

Section Buffers.
Context {V : Type} `{AlpakaMemory V} `{AlpakaMath}.
(** [sizeof(T_Type)]. *)
Context (sz : Z).

Record PitchedBox := mkPitchedBox { m_ptr : Z; m_pitch : list Z }.

Definition PitchedBox_new (pointer : Z) (pitchBytes : MemSpace) : PitchedBox :=
  mkPitchedBox pointer (shrink_from (pred (length pitchBytes)) 1 pitchBytes).

(** [ptr]: the address of an element. *)
Definition ptr (b : PitchedBox) (idx : MemSpace) : Z :=
  match idx with
  | [] => b.(m_ptr)
  | x :: rest => b.(m_ptr) + fold_left (fun offset '(p, i) => offset + p * i) (zip b.(m_pitch) rest) (sz * x)
  end.

(** [DataBox::shift]. *)
Definition shift (b : PitchedBox) (offset : MemSpace) : PitchedBox := mkPitchedBox (ptr b offset) b.(m_pitch).

(** [DataBoxDim1Access::operator[]]. *)
Definition dim1_ptr (b : PitchedBox) (originalSize : MemSpace) (i : Z) : Z := ptr b (mapToND originalSize i).

(** ** Buffer *)

Record Buffer := mkBuffer {
  b_alloc : nat;
  b_view : AView;
  m_capacityND : MemSpace;
  b_size : Z;
  isMemoryContiguous : bool;
  (** Device-side storage of the size, if it has any, and the number stored there. *)
  currentSizeBufferDevice : option (option Z);
}.

(** The allocations, and the next unused one. *)
Record Store := mkStore { heap : gmap nat (gmap Z V); next_alloc : nat }.
Definition mem_of (st : Store) (b : Buffer) : gmap Z V := default ∅ (st.(heap) !! b.(b_alloc)).
Definition set_mem (b : Buffer) (m : gmap Z V) (st : Store) : Store :=
  mkStore (<[b.(b_alloc) := m]> st.(heap)) st.(next_alloc).

Definition capacity (b : Buffer) : Z := productOfComponents b.(m_capacityND).
Definition with_size (n : Z) (b : Buffer) : Buffer :=
  mkBuffer b.(b_alloc) b.(b_view) b.(m_capacityND) n b.(isMemoryContiguous) b.(currentSizeBufferDevice).

(** [setSizeHostSide]: PMACC_ASSERT. *)
Definition setSizeHostSide (newSize : Z) (b : Buffer) : outcome Buffer :=
  if newSize <=? capacity b then Ret (with_size newSize b) else Abort "PMACC_ASSERT".

(** [sizeND(size)]. *)
Definition Buffer_sizeND (m_capacityND : MemSpace) (size : Z) : MemSpace :=
  match m_capacityND with
  | [_] => [size]
  | [c0; _] => if size <=? c0 then [size; 1] else [c0; (size + c0 - 1) / c0]
  | [c0; c1; _] =>
      if size <=? c0 then [size; 1; 1]
      else if size <=? c0 * c1 then [c0; (size + c0 - 1) / c0; 1]
      else [c0; c1; (size + c0 * c1 - 1) / (c0 * c1)]
  | _ => []
  end.

(** [detail::copyExtent]. *)
Definition copyExtent (size : Z) (capacity : MemSpace) : MemSpace :=
  match capacity with
  | [_] => [size]
  | [c0; _] => [if size <=? c0 then size else c0; if size <=? c0 then 1 else (size + c0 - 1) / c0]
  | [c0; c1; _] =>
      let y := if size <=? c0 then 1 else c1 in
      let z := if size <=? c0 * c1 then 1 else (size + c0 * c1 - 1) / (c0 * c1) in
      let y := if (c0 <? size) && (size <=? c0 * c1) then (size + c0 - 1) / c0 else y in
      [if size <=? c0 then size else c0; y; z]
  | _ => []
  end.

(** The loop that fills [pitchInBytes]: the first is [p], each next one the previous
    times the extent. *)
Fixpoint pitchInBytes (p : Z) (size : MemSpace) : MemSpace :=
  match size with [] => [] | s :: size => p :: pitchInBytes (p * s) size end.

(** The constructors that allocate; [sizeOnDevice] is a device buffer's. *)
Definition Buffer_new (size : MemSpace) (sizeOnDevice : bool) (st : Store) : outcome (Buffer * Store) :=
  let view := makeView 0 (toAlpakaVec size) (toAlpakaVec (pitchInBytes sz size)) in
  b ← setSizeHostSide (productOfComponents size)
        (mkBuffer st.(next_alloc) view size 0 true (if sizeOnDevice then Some None else None));
  Ret (b, mkStore (<[st.(next_alloc) := ∅]> st.(heap)) (S st.(next_alloc))).

Definition HostBuffer_new (size : MemSpace) : Store -> outcome (Buffer * Store) := Buffer_new size false.
Definition DeviceBuffer_new : MemSpace -> bool -> Store -> outcome (Buffer * Store) := Buffer_new.

(** The constructors that look at a box of [source]. *)
Definition HostBuffer_view (source : Buffer) (size offset : MemSpace) : outcome Buffer :=
  let view := getSubView source.(b_view) (toAlpakaVec offset) (toAlpakaVec size) in
  setSizeHostSide (productOfComponents size) (mkBuffer source.(b_alloc) view size 0 true None).

Definition DeviceBuffer_view (source : Buffer) (size offset : MemSpace) (sizeOnDevice : bool) : outcome Buffer :=
  let view := getSubView source.(b_view) (toAlpakaVec offset) (toAlpakaVec size) in
  setSizeHostSide (productOfComponents size)
    (mkBuffer source.(b_alloc) view size 0 (length size =? 1)%nat (if sizeOnDevice then Some None else None)).

Definition getDataBox (b : Buffer) : PitchedBox :=
  PitchedBox_new (view_data b.(b_view)) (fromAlpakaVec (getPitches b.(b_view))).

(** [data()], and the pointer and number of elements of [getCPtrCapacity] and
    [getCPtrCurrentSize]. *)
Definition data (b : Buffer) : outcome Z :=
  if b.(isMemoryContiguous) then Ret (view_data b.(b_view)) else Abort "Memory must be contiguous!".
Definition getCPtrCapacity (b : Buffer) : outcome (Z * Z) := p ← data b; Ret (p, capacity b).
Definition getCPtrCurrentSize (b : Buffer) : outcome (Z * Z) := p ← data b; Ret (p, b.(b_size)).

(** [sizeOnDeviceBuffer]. *)
Definition sizeOnDeviceBuffer (b : Buffer) : outcome (option Z) :=
  match b.(currentSizeBufferDevice) with
  | Some n => Ret n
  | None => Throw runtime_error "Buffer has no size on device!, currentSize is only stored on host side."
  end.

(** ** Filling *)

(** The elements at the addresses are assigned [value], in order. *)
Definition assign (addresses : list Z) (value : V) (m : gmap Z V) : gmap Z V :=
  fold_left (fun m a => <[a := value]> m) addresses m.

(** [HostBuffer::setValue]: the loop over the current size. *)
Definition HostBuffer_setValue (value : V) (b : Buffer) (st : Store) : Store :=
  let memBox := getDataBox b in
  set_mem b (assign (map (dim1_ptr memBox b.(m_capacityND)) (seqZ 0 b.(b_size))) value (mem_of st b)) st.

(** [HostBuffer::reset]; [zero] is the element whose bytes are 0. *)
Definition HostBuffer_reset (zero : V) (preserveData : bool) (b : Buffer) (st : Store) : outcome (Buffer * Store) :=
  b ← setSizeHostSide (capacity b) b;
  Ret (b, if preserveData then st
          else if view_data b.(b_view) =? 0
               then set_mem b (assign (map (fun i => sz * i) (seqZ 0 (capacity b))) zero (mem_of st b)) st
               else HostBuffer_setValue zero b st).

Definition xChunkSize : Z := 256.

(** The addresses [KernelSetValue<T_xChunkSize>] writes in a block, worker by worker. *)
Definition KernelSetValue (T_xChunkSize : Z) (memBox : PitchedBox) (size blockIndex : MemSpace) : list Z :=
  map (ptr memBox)
    (List.filter (fun idx => nth 0 idx 0 <? nth 0 size 0)
      (map (fun linearIdx =>
              match blockIndex with
              | bx :: rest => (T_xChunkSize * bx + linearIdx) :: rest
              | [] => []
              end)
         (seqZ 0 T_xChunkSize))).

(** [DeviceBuffer::setValue]: the task on the queue. *)
Definition DeviceBuffer_setValue (value : V) (b : Buffer) (st : Store) : Store :=
  let areaSize := Buffer_sizeND b.(m_capacityND) b.(b_size) in
  let gridSize := match areaSize with x :: rest => divCeil x xChunkSize :: rest | [] => [] end in
  if negb (productOfComponents areaSize =? 0)
  then set_mem b (assign (blocks gridSize ≫= KernelSetValue xChunkSize (getDataBox b) areaSize) value (mem_of st b)) st
  else st.

(** ** Copies between host and device *)

(** The task of [detail::copyBuffer] on the queue. *)
Definition copyBuffer (destination source : Buffer) (updateSize : Z -> option (option Z) -> option (option Z))
    (st : Store) : Buffer * Store :=
  let capacity := source.(m_capacityND) in
  let contiguous := destination.(isMemoryContiguous) && source.(isMemoryContiguous) in
  let size := source.(b_size) in
  let destination' := mkBuffer destination.(b_alloc) destination.(b_view) destination.(m_capacityND) size
                        destination.(isMemoryContiguous) (updateSize size destination.(currentSizeBufferDevice)) in
  let m :=
    if contiguous then
      let extent := toAlpakaVec [size] in
      let destinationView := makeView (view_data destination.(b_view)) extent [sz] in
      let sourceView := makeView (view_data source.(b_view)) extent [sz] in
      memcpy (mem_of st destination) destinationView (mem_of st source) sourceView extent
    else
      let extent := toAlpakaVec (copyExtent size capacity) in
      memcpy (mem_of st destination) destination.(b_view) (mem_of st source) source.(b_view) extent in
  (destination', set_mem destination m st).

Record HostDeviceBuffer := mkHostDeviceBuffer { hostBuffer : Buffer; deviceBuffer : Buffer }.

Definition HostDeviceBuffer_new (size : MemSpace) (sizeOnDevice : bool) (st : Store) : outcome (HostDeviceBuffer * Store) :=
  '(h, st) ← HostBuffer_new size st;
  '(d, st) ← DeviceBuffer_new size sizeOnDevice st;
  Ret (mkHostDeviceBuffer h d, st).

(** With another buffer's device memory. *)
Definition HostDeviceBuffer_on (otherDeviceBuffer : Buffer) (size : MemSpace) (sizeOnDevice : bool) (st : Store) :
    outcome (HostDeviceBuffer * Store) :=
  '(h, st) ← HostBuffer_new size st;
  d ← DeviceBuffer_view otherDeviceBuffer size (create (length size) 0) sizeOnDevice;
  Ret (mkHostDeviceBuffer h d, st).

Definition hostToDevice (b : HostDeviceBuffer) (st : Store) : HostDeviceBuffer * Store :=
  let '(d, st) := copyBuffer b.(deviceBuffer) b.(hostBuffer)
                    (fun hostSize deviceSize => (fun _ => Some hostSize) <$> deviceSize) st in
  (mkHostDeviceBuffer b.(hostBuffer) d, st).

Definition deviceToHost (b : HostDeviceBuffer) (st : Store) : HostDeviceBuffer * Store :=
  let '(h, st) := copyBuffer b.(hostBuffer) b.(deviceBuffer) (fun _ deviceSize => deviceSize) st in
  (mkHostDeviceBuffer h b.(deviceBuffer), st).
End Buffers.

(** ** Addresses *)

#[export] Instance in_range_dec dims v : Decision (in_range dims v).
Proof. unfold in_range. apply _. Defined.

Lemma dot_app u u' v v' : length u = length v -> dot (u ++ u') (v ++ v') = dot u v + dot u' v'.
Proof.
  intros L. unfold dot. rewrite zip_with_app by done. rewrite foldr_app.
  revert v L. induction u as [|x u IH]; intros [|y v] L; try discriminate L; cbn; [done|]. rewrite IH by (by injection L). lia.
Qed.

Lemma dot_rev u v : length u = length v -> dot (rev u) (rev v) = dot u v.
Proof.
  revert v. induction u as [|x u IH]; intros [|y v] L; try discriminate L; [done|].
  injection L as L. cbn [rev]. rewrite dot_app by (by rewrite !length_rev). rewrite IH by done. unfold dot. cbn. lia.
Qed.

Lemma dot_add a b v : length a = length v -> length b = length v -> dot (vadd a b) v = dot a v + dot b v.
Proof.
  revert a b. induction v as [|y v IH]; intros [|x a] [|x' b] La Lb; try discriminate La; try discriminate Lb; [done|].
  injection La as La. injection Lb as Lb. specialize (IH a b La Lb). unfold dot, vadd in *. cbn. rewrite IH. lia.
Qed.

Lemma pitches_length p size : length (pitchInBytes p size) = length size.
Proof. revert p. induction size as [|s size IH]; intros p; cbn; [done|]. by rewrite IH. Qed.

(** The pitches weigh an index like the linear index does. *)
Lemma dot_pitches p size idx :
  size <> [] -> length idx = length size -> dot idx (pitchInBytes p size) = p * linearize size idx.
Proof.
  revert p idx. induction size as [|s size IH]; intros p [|x idx] Hne L; try discriminate L; [done|].
  injection L as L. cbn [pitchInBytes]. unfold dot. cbn [zip_with foldr]. fold (dot idx (pitchInBytes (p * s) size)).
  destruct size as [|s' size]; [destruct idx; [|discriminate L]; unfold linearize; cbn; lia|].
  rewrite IH, linearize_cons by done. lia.
Qed.

Lemma linearize_origin size : size <> [] -> linearize size (create (length size) 0) = 0.
Proof.
  intros Hne. destruct (exists_last Hne) as (l & x & ->). rewrite length_app, Nat.add_1_r. unfold create.
  rewrite replicate_S_end, linearize_horner by (by rewrite length_replicate). clear. unfold horner.
  induction l as [|y l IH]; cbn; [done|]. rewrite IH. lia.
Qed.

Lemma shrink_tail (p : Z) ps : shrink_from (pred (length (p :: ps))) 1 (p :: ps) = ps.
Proof.
  unfold shrink_from. cbn [length pred]. apply list_eq. intros i.
  rewrite list_lookup_fmap. destruct (decide (i < length ps)%nat) as [Hi|Hi].
  - rewrite lookup_seq_lt by done. cbn [fmap option_fmap option_map].
    rewrite Nat.mod_small by lia. cbn [Nat.add nth]. destruct (lookup_lt_is_Some_2 ps i Hi) as [x Hx].
    rewrite Hx. f_equal. by apply nth_lookup_Some.
  - rewrite lookup_seq_ge by lia. symmetry. apply lookup_ge_None. lia.
Qed.

Lemma box_ptr sz pointer ps idx :
  length idx = S (length ps) ->
  ptr sz (PitchedBox_new pointer (sz :: ps)) idx = pointer + dot idx (sz :: ps).
Proof.
  destruct idx as [|x idx]; intros L; [discriminate L|]. injection L as L.
  unfold PitchedBox_new. rewrite shrink_tail. unfold ptr, dot. cbn [m_ptr m_pitch zip_with foldr].
  enough (E : forall o, fold_left (fun offset '(p, i) => offset + p * i) (zip ps idx) o = o + foldr Z.add 0 (zip_with Z.mul idx ps))
    by (rewrite E; lia).
  clear -L. revert ps L. induction idx as [|y idx IH]; intros [|p ps] L o; try discriminate L; cbn; [lia|].
  injection L as L. rewrite IH by done. lia.
Qed.

Section Laws.
Context {V : Type} `{AM : AlpakaMemory V} {AML : AlpakaMemoryLaws V} `{AlpakaMath}.
Context (sz : Z) (Hsz : 0 < sz).

(** The buffer is the box at [offset] of an allocation of extents [size]. *)
Record buffer_on (size offset : MemSpace) (b : Buffer) : Prop := {
  on_dim : size <> [];
  on_data : view_data b.(b_view) = sz * linearize size offset;
  on_pitches : getPitches b.(b_view) = rev (pitchInBytes sz size);
  on_box : Forall3 (fun o e s => 0 <= o /\ 0 <= e /\ o + e <= s) offset b.(m_capacityND) size;
}.

Lemma on_lengths size offset b :
  buffer_on size offset b -> length offset = length size /\ length b.(m_capacityND) = length size.
Proof.
  intros [_ _ _ H']. pose proof (Forall3_length_lm _ _ _ _ H'). pose proof (Forall3_length_lr _ _ _ _ H'). lia.
Qed.

Lemma on_inside size offset b idx :
  buffer_on size offset b -> in_range b.(m_capacityND) idx -> in_range size (vadd offset idx).
Proof.
  intros [_ _ _ H']. unfold in_range, vadd. revert idx. induction H' as [|o e s os es ss Ho H' IH]; intros idx Hi;
    inversion Hi; subst; cbn; constructor; [lia|]. by apply IH.
Qed.

(** The address of an element in the view, and in the box kernels use. *)
Lemma on_address size offset b idx :
  buffer_on size offset b -> length idx = length size ->
  vaddr b.(b_view) (rev idx) = sz * linearize size (vadd offset idx) /\
  ptr sz (getDataBox b) idx = sz * linearize size (vadd offset idx).
Proof.
  intros Hb Hi. pose proof (on_lengths _ _ _ Hb) as [Lo _]. destruct Hb as [Hne Hd Hp _].
  assert (Hl : length (vadd offset idx) = length size) by (unfold vadd; rewrite length_zip_with; lia).
  assert (E : sz * linearize size offset + dot idx (pitchInBytes sz size) = sz * linearize size (vadd offset idx)).
  { rewrite <- !(dot_pitches sz size) by done. rewrite dot_add by (by rewrite pitches_length). done. }
  split.
  - unfold vaddr. rewrite Hd, Hp, dot_rev by (by rewrite pitches_length). exact E.
  - unfold getDataBox. rewrite Hd, Hp. unfold fromAlpakaVec. rewrite rev_involutive.
    destruct size as [|s size]; [done|]. cbn [pitchInBytes].
    rewrite box_ptr by (rewrite pitches_length; done). exact E.
Qed.

Lemma linearize_inj size i j :
  size <> [] -> in_range size i -> in_range size j -> linearize size i = linearize size j -> i = j.
Proof. intros Hne Hi Hj E. rewrite <- (mapToND_linearize size i), <- (mapToND_linearize size j) by done. by rewrite E. Qed.

Lemma vadd_inj o i j : length i = length o -> length j = length o -> vadd o i = vadd o j -> i = j.
Proof.
  revert i j. induction o as [|x o IH]; intros [|y i] [|y' j] Li Lj; try discriminate Li; try discriminate Lj; [done|].
  cbn. intros E. injection Li as Li. injection Lj as Lj. injection E as E1 E2. f_equal; [lia|]. by apply IH.
Qed.

Lemma in_range_rev e i : in_range e i <-> in_range (rev e) (rev i).
Proof.
  assert (Hr : forall e i, in_range e i -> in_range (rev e) (rev i)).
  { intros e' i' H'. rewrite !rev_alt. by apply Forall2_reverse. }
  split; [apply Hr|]. intros H'%Hr. by rewrite !rev_involutive in H'.
Qed.

(** The value of an element. *)
Definition elem (st : Store) (b : Buffer) (idx : MemSpace) : option V := mem_of st b !! ptr sz (getDataBox b) idx.

(** Elements of a view have addresses of their own. *)
Lemma on_inj size offset b i j :
  buffer_on size offset b -> in_range b.(m_capacityND) i -> in_range b.(m_capacityND) j ->
  ptr sz (getDataBox b) i = ptr sz (getDataBox b) j -> i = j.
Proof.
  intros Hb Hi Hj. pose proof (on_lengths _ _ _ Hb) as [Lo Lc].
  pose proof (in_range_length _ _ Hi). pose proof (in_range_length _ _ Hj).
  rewrite (proj2 (on_address _ _ _ i Hb ltac:(lia))), (proj2 (on_address _ _ _ j Hb ltac:(lia))). intros E.
  apply (vadd_inj offset); [lia..|].
  apply (linearize_inj size); [apply Hb|by eapply on_inside..|nia].
Qed.

(** [e] fits into [c]. *)
Definition fits (e c : MemSpace) : Prop := Forall2 (fun x y => 0 <= x <= y) e c.

Lemma fits_inside e c idx : fits e c -> in_range e idx -> in_range c idx.
Proof.
  unfold fits, in_range. intros Hf. revert idx.
  induction Hf; intros idx Hi; inversion Hi; subst; constructor; [lia|by eauto].
Qed.

Lemma on_vaddr size offset b idx :
  buffer_on size offset b -> length idx = length size -> vaddr b.(b_view) (rev idx) = ptr sz (getDataBox b) idx.
Proof. intros Hb L. destruct (on_address _ _ _ idx Hb L) as [-> ->]. done. Qed.

(** A copy of a box between two views, by element. *)
Lemma memcpy_box size offset d size' offset' s e m ms :
  buffer_on size offset d -> buffer_on size' offset' s -> fits e d.(m_capacityND) -> fits e s.(m_capacityND) ->
  let r := memcpy m d.(b_view) ms s.(b_view) (toAlpakaVec e) in
  (forall idx, in_range e idx -> r !! ptr sz (getDataBox d) idx = ms !! ptr sz (getDataBox s) idx) /\
  (forall a, (forall idx, in_range e idx -> ptr sz (getDataBox d) idx <> a) -> r !! a = m !! a).
Proof.
  intros Hd Hs Fd Fs r. pose proof (on_lengths _ _ _ Hd) as [_ Ld]. pose proof (on_lengths _ _ _ Hs) as [_ Ls].
  assert (Le : forall idx, in_range e idx -> length idx = length size /\ length idx = length size').
  { intros idx Hi. pose proof (in_range_length _ _ (fits_inside _ _ _ Fd Hi)).
    pose proof (in_range_length _ _ (fits_inside _ _ _ Fs Hi)). lia. }
  assert (Hrev : forall i, in_range (rev e) i -> in_range e (rev i)).
  { intros i Hi. rewrite in_range_rev, rev_involutive. done. }
  subst r. unfold toAlpakaVec. split.
  - intros idx Hi. rewrite <- (on_vaddr _ _ _ idx Hd), <- (on_vaddr _ _ _ idx Hs) by apply (Le _ Hi).
    apply memcpy_inside; [|by rewrite <- in_range_rev].
    intros i j Hii Hjj E. apply Hrev in Hii, Hjj.
    rewrite <- (rev_involutive i), <- (rev_involutive j) in E |- *. f_equal.
    rewrite !(on_vaddr size offset d) in E by (done || apply Le; done).
    eapply on_inj; [exact Hd|by eapply fits_inside..|exact E].
  - intros a Ha. apply memcpy_outside. intros idx Hi. apply Hrev in Hi.
    rewrite <- (rev_involutive idx). rewrite (on_vaddr size offset d) by (done || apply Le; done). by apply Ha.
Qed.

(** Constructors give boxes of allocations. *)
Lemma Buffer_new_on size d st :
  size <> [] -> Forall (fun s => 0 <= s) size ->
  exists b, Buffer_new sz size d st = Ret (b, mkStore (<[next_alloc st := ∅]> (heap st)) (S (next_alloc st))) /\
    b_alloc b = next_alloc st /\ m_capacityND b = size /\ b_size b = vol size /\ isMemoryContiguous b = true /\
    currentSizeBufferDevice b = (if d then Some None else None) /\ view_data (b_view b) = 0 /\
    buffer_on size (create (length size) 0) b.
Proof.
  intros Hne Hs. eexists. unfold Buffer_new, setSizeHostSide, capacity. cbn [m_capacityND].
  rewrite Z.leb_refl. cbn [mbind outcome_bind]. split; [reflexivity|]. cbn.
  split_and!; try done; [by rewrite product_vol|by rewrite makeView_data|].
  pose proof (linearize_origin size Hne) as E.
  constructor; cbn; [done|rewrite makeView_data, E; lia|by rewrite makeView_pitches|].
  clear -Hs. induction Hs as [|s size H Hs IH]; cbn; constructor; [lia|done].
Qed.

(** A box inside a buffer: [capacity] from [offset]. *)
Definition box_in (offset extent cap : MemSpace) : Prop :=
  Forall3 (fun o e s => 0 <= o /\ 0 <= e /\ o + e <= s) offset extent cap.

Lemma DeviceBuffer_view_on size0 offset0 source size offset d :
  buffer_on size0 offset0 source -> box_in offset size source.(m_capacityND) ->
  exists b, DeviceBuffer_view source size offset d = Ret b /\
    b_alloc b = b_alloc source /\ m_capacityND b = size /\ b_size b = vol size /\
    isMemoryContiguous b = (length size =? 1)%nat /\ currentSizeBufferDevice b = (if d then Some None else None) /\
    buffer_on size0 (vadd offset0 offset) b.
Proof.
  intros Hb Hin. pose proof (on_lengths _ _ _ Hb) as [Lo Lc].
  pose proof (Forall3_length_lm _ _ _ _ Hin) as L1. pose proof (Forall3_length_lr _ _ _ _ Hin) as L2.
  eexists. unfold DeviceBuffer_view, setSizeHostSide, capacity. cbn [m_capacityND].
  rewrite Z.leb_refl. split; [reflexivity|]. cbn. split_and!; try done; [by rewrite product_vol|].
  destruct Hb as [Hne Hd Hp Hbox]. constructor; cbn; [done| |by rewrite subView_pitches|].
  - rewrite subView_data, Hd, Hp. unfold toAlpakaVec. rewrite dot_rev by (rewrite pitches_length; lia).
    rewrite <- !(dot_pitches sz size0) by (done || unfold vadd; rewrite ?length_zip_with; lia).
    rewrite dot_add by (rewrite pitches_length; lia). done.
  - clear -Hbox Hin. revert offset size Hin. unfold box_in, vadd.
    induction Hbox as [|o e s os es ss Ho H IH]; intros offset size Hin; inversion Hin; subst; cbn; constructor; [lia|].
    by apply IH.
Qed.

(** ** The box of a partial size *)

Definition proper (cap : MemSpace) : Prop := (1 <= length cap <= 3)%nat /\ Forall (fun c => 1 <= c) cap.

(** [n] rounded up to a multiple of [r]. *)
Definition round_up (n r : Z) : Z := r * ((n + r - 1) / r).

Lemma ceil_bounds n r : 0 < r -> r * ((n + r - 1) / r) < n + r /\ n <= r * ((n + r - 1) / r).
Proof. intros Hr. pose proof (Z.div_mod (n + r - 1) r ltac:(lia)). pose proof (Z.mod_pos_bound (n + r - 1) r Hr). lia. Qed.

Ltac proper_cases H :=
  match type of H with proper ?cap =>
    destruct H as [? H]; destruct cap as [|c0 [|c1 [|c2 [|]]]]; cbn [length] in *; try lia;
    repeat match goal with F : Forall _ (_ :: _) |- _ => apply Forall_cons in F as [? F] end
  end.

Lemma sizeND_fits cap n : proper cap -> 0 <= n <= vol cap -> fits (Buffer_sizeND cap n) cap.
Proof.
  intros Hc Hn. unfold fits, Buffer_sizeND. proper_cases Hc; cbn [vol] in Hn.
  - repeat constructor; lia.
  - destruct (Z.leb_spec n c0); repeat constructor; try lia;
      pose proof (ceil_bounds n c0 ltac:(lia)); nia.
  - destruct (Z.leb_spec n c0); [repeat constructor; lia|].
    destruct (Z.leb_spec n (c0 * c1)); repeat constructor; try lia;
      [pose proof (ceil_bounds n c0 ltac:(lia)); nia..| |];
      pose proof (ceil_bounds n (c0 * c1) ltac:(nia)); nia.
Qed.

(** The elements a partial size stands for are those with the first linear indices; the
    box is the smallest one of whole elements, rows or planes that has them. *)
Lemma sizeND_covers cap n idx :
  proper cap -> 0 <= n <= vol cap -> in_range cap idx -> linearize cap idx < n -> in_range (Buffer_sizeND cap n) idx.
Proof.
  intros Hc Hn Hi. pose proof (in_range_length _ _ Hi) as L. unfold in_range, Buffer_sizeND in *. proper_cases Hc; cbn [vol] in Hn;
    destruct idx as [|x0 [|x1 [|x2 [|]]]]; try discriminate L; repeat (apply Forall2_cons_1 in Hi as [? Hi]);
    unfold linearize; cbn; intros Hl.
  - repeat constructor; lia.
  - destruct (Z.leb_spec n c0); repeat constructor; try lia; try nia.
    pose proof (ceil_bounds n c0 ltac:(lia)); nia.
  - destruct (Z.leb_spec n c0).
    { assert (0 <= x2 * c1) by nia. assert (x2 * c1 + x1 = 0) by nia. assert (x2 = 0) as -> by nia. repeat constructor; lia. }
    destruct (Z.leb_spec n (c0 * c1)).
    + assert (x2 * c1 + x1 < c1) by nia. assert (x2 = 0) as -> by nia. repeat constructor; try lia. pose proof (ceil_bounds n c0 ltac:(lia)); nia.
    + repeat constructor; try lia. pose proof (ceil_bounds n (c0 * c1) ltac:(nia)). nia.
Qed.

Lemma sizeND_copyExtent cap n : proper cap -> 0 <= n -> Buffer_sizeND cap n = copyExtent n cap.
Proof.
  intros Hc Hn. unfold Buffer_sizeND, copyExtent. proper_cases Hc; [done|..].
  - by destruct (n <=? c0).
  - destruct (Z.leb_spec n c0), (Z.leb_spec n (c0 * c1)), (Z.ltb_spec c0 n); cbn; try lia; try done; nia.
Qed.

Lemma sizeND_volume cap n :
  proper cap -> 0 <= n <= vol cap ->
  exists d, (d < length cap)%nat /\ vol (Buffer_sizeND cap n) = round_up n (vol (take d cap)) /\
    (d = 0%nat \/ vol (take d cap) < n).
Proof.
  intros Hc Hn. unfold Buffer_sizeND, round_up. proper_cases Hc; cbn [vol] in Hn.
  - exists 0%nat. cbn. split_and!; [lia| |by left]. replace (n + 1 - 1) with n by lia. rewrite Z.div_1_r. lia.
  - destruct (Z.leb_spec n c0).
    + exists 0%nat. cbn. split_and!; [lia| |by left]. replace (n + 1 - 1) with n by lia. rewrite Z.div_1_r. lia.
    + exists 1%nat. cbn. rewrite !Z.mul_1_r. split_and!; [lia|done|by right].
  - destruct (Z.leb_spec n c0).
    + exists 0%nat. cbn. split_and!; [lia| |by left]. replace (n + 1 - 1) with n by lia. rewrite Z.div_1_r. lia.
    + destruct (Z.leb_spec n (c0 * c1)).
      * exists 1%nat. cbn. rewrite !Z.mul_1_r. split_and!; [lia|done|by right].
      * exists 2%nat. cbn. rewrite !Z.mul_1_r. split_and!; [lia|lia|by right].
Qed.

(** ** Filling *)

Lemma lookup_assign l v m a : assign l v m !! a = if bool_decide (a ∈ l) then Some v else (m : gmap Z V) !! a.
Proof.
  unfold assign. revert m. induction l as [|x l IH]; intros m; cbn [fold_left]; [done|].
  rewrite IH. destruct (decide (a ∈ l)) as [Hin|Hout].
  - rewrite !bool_decide_eq_true_2; [done|by right|done].
  - rewrite (bool_decide_eq_false_2 (a ∈ l)) by done. destruct (decide (a = x)) as [->|Hne].
    + rewrite lookup_insert_eq, bool_decide_eq_true_2; [done|left].
    + rewrite lookup_insert_ne by done. rewrite bool_decide_eq_false_2; [done|]. rewrite elem_of_cons. tauto.
Qed.

(** Every element of the area is written by one worker, and nothing else is. *)
Lemma KernelSetValue_area chunk b area a :
  0 < chunk -> Forall (fun n => 0 <= n) area -> area <> [] ->
  a ∈ (blocks (match area with x :: rest => divCeil x chunk :: rest | [] => [] end)
         ≫= KernelSetValue sz chunk b area) <-> exists idx, in_range area idx /\ a = ptr sz b idx.
Proof.
  intros Hk Hp Hne. destruct area as [|n area]; [done|]. inversion Hp as [|? ? Hn Harea]; subst.
  pose proof (divCeil_spec n chunk Hn Hk) as Hc.
  rewrite list_elem_of_bind. unfold KernelSetValue. split.
  - intros (bi & Ha & Hbi). apply elem_of_blocks in Hbi. inversion Hbi as [|? bx ? rest Hbx Hrest]; subst.
    apply list_elem_of_fmap in Ha as (idx & -> & Hidx).
    apply list_elem_of_In, filter_In in Hidx as [Hidx Hlt]. apply list_elem_of_In in Hidx.
    apply list_elem_of_fmap in Hidx as (li & -> & Hli%elem_of_seqZ). cbn in Hlt. apply Z.ltb_lt in Hlt.
    exists ((chunk * bx + li) :: rest). split; [|done]. constructor; [nia|done].
  - intros (idx & Hi & ->). inversion Hi as [|? x ? rest Hx Hrest]; subst.
    exists (x / chunk :: rest). pose proof (Z.div_mod x chunk ltac:(lia)). pose proof (Z.mod_pos_bound x chunk ltac:(lia)). split.
    + apply list_elem_of_fmap. exists (x :: rest). split; [done|]. apply list_elem_of_In, filter_In.
      split; [|cbn; apply Z.ltb_lt; lia]. apply list_elem_of_In, list_elem_of_fmap. exists (x mod chunk).
      split; [f_equal; lia|]. apply elem_of_seqZ. lia.
    + apply elem_of_blocks. constructor; [|done]. split; [apply Z.div_pos; lia|nia].
Qed.

Lemma mem_set b b' m st :
  mem_of (set_mem b m st) b' = if decide (b_alloc b' = b_alloc b) then m else mem_of st b'.
Proof.
  unfold mem_of, set_mem. cbn [heap]. case_decide as E; [by rewrite E, lookup_insert_eq|by rewrite lookup_insert_ne].
Qed.

(** A store that differs from [st] in the elements of [b] selected by [P], which are [v]. *)
Definition filled (b : Buffer) (P : MemSpace -> bool) (v : V) (st st' : Store) : Prop :=
  (forall idx, in_range b.(m_capacityND) idx -> elem st' b idx = if P idx then Some v else elem st b idx) /\
  (forall a, (forall idx, in_range b.(m_capacityND) idx -> P idx = true -> ptr sz (getDataBox b) idx <> a) ->
     mem_of st' b !! a = mem_of st b !! a) /\
  (forall b', b_alloc b' <> b_alloc b -> mem_of st' b' = mem_of st b').

Lemma assign_filled size offset b l P v st :
  buffer_on size offset b ->
  (forall a, a ∈ l <-> exists idx, in_range b.(m_capacityND) idx /\ P idx = true /\ a = ptr sz (getDataBox b) idx) ->
  filled b P v st (set_mem b (assign l v (mem_of st b)) st).
Proof.
  intros Hb Hl. split_and!.
  - intros idx Hi. unfold elem. rewrite mem_set, decide_True, lookup_assign by done.
    destruct (P idx) eqn:HP; case_bool_decide as Hin; try done; exfalso.
    + apply Hin, Hl. eauto.
    + apply Hl in Hin as (j & Hj & HPj & E). assert (idx = j) as -> by (by eapply on_inj). congruence.
  - intros a Ha. rewrite mem_set, decide_True, lookup_assign by done. rewrite bool_decide_eq_false_2; [done|].
    intros (idx & Hi & HP & ->)%Hl. by eapply Ha.
  - intros b' Hne. by rewrite mem_set, decide_False.
Qed.

Lemma proper_pos cap : proper cap -> cap <> [] /\ Forall (fun c => 0 < c) cap.
Proof. intros [Hl Hc]. split; [destruct cap; cbn in Hl; [lia|done]|]. eapply list.Forall_impl; [exact Hc|]. cbn. lia. Qed.

(** Filling: the host buffer's [setValue] assigns the elements with the first linear
    indices, as many as the current size; the device buffer's assigns the elements of the
    box of the current size.  Nothing else in the store changes. *)
Theorem setValue_fills size offset b v st :
  buffer_on size offset b -> proper b.(m_capacityND) -> 0 <= b.(b_size) <= vol b.(m_capacityND) ->
  filled b (fun idx => linearize b.(m_capacityND) idx <? b.(b_size)) v st (HostBuffer_setValue sz v b st) /\
  filled b (fun idx => bool_decide (in_range (Buffer_sizeND b.(m_capacityND) b.(b_size)) idx)) v st
    (DeviceBuffer_setValue sz v b st).
Proof.
  intros Hb Hc Hn. destruct (proper_pos _ Hc) as [Hne Hpos]. split.
  - apply (assign_filled size offset); [done|]. intros a. rewrite list_elem_of_fmap. split.
    + intros (i & -> & Hi%elem_of_seqZ). destruct (mapToND_in_range _ i Hne Hpos ltac:(lia)) as [Hr E].
      exists (mapToND (m_capacityND b) i). split_and!; [done|apply Z.ltb_lt; lia|done].
    + intros (idx & Hi & Hlt%Z.ltb_lt & ->). exists (linearize (m_capacityND b) idx). unfold dim1_ptr.
      rewrite mapToND_linearize by done. split; [done|]. apply elem_of_seqZ.
      pose proof (linearize_range _ _ Hne Hi). lia.
  - unfold DeviceBuffer_setValue. set (area := Buffer_sizeND _ _).
    pose proof (sizeND_fits _ _ Hc Hn) as Hf. fold area in Hf.
    assert (Hin : forall a, (exists idx, in_range area idx /\ a = ptr sz (getDataBox b) idx) <->
        exists idx, in_range (m_capacityND b) idx /\ bool_decide (in_range area idx) = true /\ a = ptr sz (getDataBox b) idx).
    { intros a. split.
      - intros (idx & Hi & ->). exists idx. split; [exact (fits_inside _ _ _ Hf Hi)|]. by rewrite bool_decide_eq_true.
      - intros (idx & _ & Hi%bool_decide_eq_true & ->). eauto. }
    assert (Ha : Forall (fun n => 0 <= n) area /\ area <> []).
    { split; [|intros E; rewrite E in Hf; inversion Hf; congruence]. clear -Hf. induction Hf; constructor; [lia|done]. }
    destruct (Z.eqb_spec (productOfComponents area) 0) as [E|E]; cbn [negb].
    + assert (Hno : forall idx, ~ in_range area idx).
      { intros idx Hi%in_range_vol. rewrite product_vol in E. lia. }
      split_and!; [|done|done]. intros idx _. rewrite bool_decide_eq_false_2; [reflexivity|exact (Hno idx)].
    + apply (assign_filled size offset); [done|]. intros a. rewrite <- Hin. apply KernelSetValue_area; [done|apply Ha|apply Ha].
Qed.

(** ** Copies *)

(** Elements of the buffer lie one after the other in memory. *)
Definition flat (b : Buffer) : Prop :=
  forall idx, in_range b.(m_capacityND) idx ->
    ptr sz (getDataBox b) idx = view_data b.(b_view) + sz * linearize b.(m_capacityND) idx.

Lemma create_vadd (size idx : MemSpace) : length idx = length size -> vadd (create (length size) 0) idx = idx.
Proof.
  intros L. unfold vadd, create. revert idx L. induction size as [|s size IH]; intros [|x idx] L; try discriminate L; [done|].
  cbn. f_equal. apply IH. by injection L.
Qed.

Lemma flat_whole size b : buffer_on size (create (length size) 0) b -> m_capacityND b = size -> flat b.
Proof.
  intros Hb E idx Hi. rewrite E in *. pose proof (in_range_length _ _ Hi) as L.
  rewrite (proj2 (on_address _ _ _ idx Hb L)), create_vadd, (on_data _ _ _ Hb) by done.
  pose proof (linearize_origin size (on_dim _ _ _ Hb)). lia.
Qed.

(** The elements a copy of the current size takes. *)
Definition copied (contiguous : bool) (cap : MemSpace) (n : Z) (idx : MemSpace) : bool :=
  if contiguous then linearize cap idx <? n else bool_decide (in_range (copyExtent n cap) idx).

(** A copy between two buffers of the same extents makes the elements it takes equal to
    the source's, keeps the others and takes over the current size. *)
Lemma copyBuffer_copies size offset d size' offset' s upd st :
  buffer_on size offset d -> buffer_on size' offset' s -> m_capacityND d = m_capacityND s -> proper (m_capacityND s) ->
  0 <= b_size s <= vol (m_capacityND s) ->
  (isMemoryContiguous d = true -> flat d) -> (isMemoryContiguous s = true -> flat s) ->
  let '(d', st') := copyBuffer sz d s upd st in
  b_size d' = b_size s /\ currentSizeBufferDevice d' = upd (b_size s) (currentSizeBufferDevice d) /\
  b_view d' = b_view d /\ b_alloc d' = b_alloc d /\
  (forall idx, in_range (m_capacityND s) idx ->
     elem st' d' idx = if copied (isMemoryContiguous d && isMemoryContiguous s) (m_capacityND s) (b_size s) idx
                       then elem st s idx else elem st d idx) /\
  (forall b, b_alloc b <> b_alloc d -> mem_of st' b = mem_of st b).
Proof.
  intros Hd Hs Ec Hc Hn Fd Fs. unfold copyBuffer. destruct (proper_pos _ Hc) as [Hne Hpos].
  split_and!; try done; [|intros b Hb; by rewrite mem_set, decide_False].
  intros idx Hi. unfold elem. cbn [b_alloc]. rewrite mem_set, decide_True by done.
  change (getDataBox (mkBuffer _ _ _ _ _ _)) with (getDataBox d).
  pose proof (linearize_range _ _ Hne Hi) as Hl.
  destruct (isMemoryContiguous d && isMemoryContiguous s) eqn:Hcont; cbn [copied].
  - apply andb_true_iff in Hcont as [Cd Cs].
    rewrite (Fd Cd idx) by (by rewrite Ec). rewrite (Fs Cs idx), Ec by done.
    set (dv := makeView (view_data (b_view d)) _ _). set (sv := makeView (view_data (b_view s)) _ _).
    assert (Ed : forall i, vaddr dv [i] = view_data (b_view d) + sz * i).
    { intros i. unfold vaddr, dv. rewrite makeView_data, makeView_pitches. unfold dot. cbn. lia. }
    assert (Es : forall i, vaddr sv [i] = view_data (b_view s) + sz * i).
    { intros i. unfold vaddr, sv. rewrite makeView_data, makeView_pitches. unfold dot. cbn. lia. }
    assert (Hr : forall i, in_range (toAlpakaVec [b_size s]) i -> exists x, i = [x] /\ 0 <= x < b_size s).
    { intros i Hr. cbn in Hr. inversion Hr as [|? x ? r Hx Hr']; subst. inversion Hr'; subst. eauto. }
    destruct (Z.ltb_spec (linearize (m_capacityND s) idx) (b_size s)) as [Hlt|Hge].
    + rewrite <- Ed, <- Es. apply memcpy_inside; [|constructor; [lia|constructor]].
      intros i j (x & -> & Hx)%Hr (y & -> & Hy)%Hr E. rewrite !Ed in E. f_equal. nia.
    + apply memcpy_outside. intros i (x & -> & Hx)%Hr. rewrite Ed. nia.
  - assert (Hf : fits (copyExtent (b_size s) (m_capacityND s)) (m_capacityND s)).
    { rewrite <- sizeND_copyExtent by (done || lia). by apply sizeND_fits. }
    destruct (memcpy_box _ _ _ _ _ _ _ (mem_of st d) (mem_of st s) Hd Hs ltac:(by rewrite Ec) Hf) as [Hin Hout].
    case_bool_decide as Hi'; [by apply Hin|]. apply Hout. intros j Hj E.
    assert (j = idx) as -> by (eapply on_inj; [exact Hd|rewrite Ec; by eapply fits_inside|by rewrite Ec|done]). done.
Qed.
End Laws.

(** ** A memory *)

(** Views as their pointer, extents and pitches; a copy goes through the elements one by
    one. *)
Definition copy_element {V} (ms : gmap Z V) (d s : Z) (m : gmap Z V) : gmap Z V :=
  match ms !! s with Some v => <[d := v]> m | None => delete d m end.

#[export] Instance alpaka_memory_ref (V : Type) : AlpakaMemory V := {
  AView := Z * list Z * list Z;
  makeView p e s := (p, e, s);
  getSubView v o e := (v.1.1 + dot o v.2, e, v.2);
  view_data v := v.1.1;
  getExtents v := v.1.2;
  getPitches v := v.2;
  memcpy m d ms s e :=
    fold_left (fun m idx => copy_element ms (d.1.1 + dot idx d.2) (s.1.1 + dot idx s.2) m) (blocks e) m;
}.

#[export] Instance alpaka_memory_laws_ref V : AlpakaMemoryLaws V.
Proof.
  assert (Hstep : forall (ms : gmap Z V) d s m a, copy_element ms d s m !! a = if decide (a = d) then ms !! s else m !! a).
  { intros ms d s m a. unfold copy_element. case_decide as E; destruct (ms !! s); subst;
      by rewrite ?lookup_insert_eq, ?lookup_delete_eq, ?lookup_insert_ne, ?lookup_delete_ne by done. }
  assert (Hout : forall (ms : gmap Z V) f g l m a, (forall i, i ∈ l -> f i <> a) ->
    fold_left (fun m (idx : list Z) => copy_element ms (f idx) (g idx) m) l m !! a = m !! a).
  { intros ms f g l. induction l as [|i l IH]; intros m a Ha; [done|]. cbn. rewrite IH by (intros j Hj; apply Ha; by right).
    rewrite Hstep, decide_False; [done|]. intros ->. apply (Ha i); [left|done]. }
  split; try done.
  - intros m d ms s e idx Hd Hi. cbn. unfold vaddr in *. cbn in *.
    assert (Hl : forall i, i ∈ blocks e -> in_range e i) by (intros i; apply elem_of_blocks).
    apply elem_of_blocks in Hi. pose proof (NoDup_blocks e) as Hnd. revert m Hi Hl Hnd.
    induction (blocks e) as [|i l IH]; intros m Hi Hl Hnd; [by apply elem_of_nil in Hi|].
    apply list.NoDup_cons in Hnd as [Hni Hnd]. apply elem_of_cons in Hi as [->|Hi]; cbn.
    + rewrite (Hout ms (fun i => d.1.1 + dot i d.2) (fun i => s.1.1 + dot i s.2)); [by rewrite Hstep, decide_True|].
      intros j Hj E. apply Hni. rewrite <- (Hd j i); [done|apply Hl; by right|apply Hl; left|done].
    + apply IH; [done|intros j Hj; apply Hl; by right|done].
  - intros m d ms s e a Ha. cbn.
    apply (Hout ms (fun i => d.1.1 + dot i d.2) (fun i => s.1.1 + dot i s.2)).
    intros i Hi. apply Ha. by apply elem_of_blocks.
Qed.

(** ** Host and device *)

(** What [HostDeviceBuffer]'s constructors give: a host buffer of its own and a device
    buffer of the same extents, over its own memory or over a box of other memory. *)
Record paired {V} `{AlpakaMemory V} (sz : Z) (size offset : MemSpace) (b : HostDeviceBuffer) : Prop := {
  paired_host : buffer_on sz (m_capacityND (hostBuffer b)) (create (length (m_capacityND (hostBuffer b))) 0) (hostBuffer b);
  paired_device : buffer_on sz size offset (deviceBuffer b);
  paired_extents : m_capacityND (deviceBuffer b) = m_capacityND (hostBuffer b);
  paired_proper : proper (m_capacityND (hostBuffer b));
  paired_flat : isMemoryContiguous (deviceBuffer b) = true -> flat sz (deviceBuffer b);
  paired_apart : b_alloc (hostBuffer b) <> b_alloc (deviceBuffer b);
}.

Section Transfer.
Context {V : Type} `{AM : AlpakaMemory V} {AML : AlpakaMemoryLaws V} (sz : Z) (Hsz : 0 < sz).

Lemma HostDeviceBuffer_new_paired size d st :
  proper size ->
  exists b st', HostDeviceBuffer_new sz size d st = Ret (b, st') /\
    paired sz size (create (length size) 0) b /\
    m_capacityND (hostBuffer b) = size /\ b_size (hostBuffer b) = vol size /\ b_size (deviceBuffer b) = vol size /\
    currentSizeBufferDevice (deviceBuffer b) = (if d then Some None else None).
Proof.
  intros Hc. pose proof (proper_pos _ Hc) as [Hne Hpos].
  assert (Hnn : Forall (fun s => 0 <= s) size) by (eapply list.Forall_impl; [exact Hpos|cbn; lia]).
  destruct (Buffer_new_on sz size false st Hne Hnn) as (h & Eh & Ah & Ch & Sh & _ & _ & _ & Oh).
  destruct (Buffer_new_on sz size d (mkStore (<[next_alloc st := ∅]> (heap st)) (S (next_alloc st))) Hne Hnn) as (dev & Ed & Ad & Cd & Sd & _ & Dd & _ & Od).
  eexists (mkHostDeviceBuffer h dev), _. unfold HostDeviceBuffer_new, HostBuffer_new, DeviceBuffer_new.
  rewrite Eh. cbn [mbind outcome_bind]. rewrite Ed. split; [reflexivity|]. cbn [hostBuffer deviceBuffer].
  split_and!; try done. constructor; cbn [hostBuffer deviceBuffer]; rewrite ?Ch, ?Cd; try done.
  - intros _. by eapply flat_whole.
  - rewrite Ah, Ad. cbn. lia.
Qed.

Lemma copied_first contiguous cap n idx :
  proper cap -> 0 <= n <= vol cap -> in_range cap idx -> linearize cap idx < n -> copied contiguous cap n idx = true.
Proof.
  intros Hc Hn Hi Hlt. unfold copied. destruct contiguous; [by apply Z.ltb_lt|].
  apply bool_decide_eq_true. rewrite <- sizeND_copyExtent by (done || lia). by apply sizeND_covers.
Qed.

(** C36: host and device copies.  Whatever the current size of the host buffer, and whether
    the device buffer is contiguous or a box of other memory: after [hostToDevice] the
    device buffer has that size, on the device too if it keeps it there, and the elements
    with the first linear indices are those of the host.  Then whatever is written over the
    host buffer and whatever size it is given meanwhile, as long as the device memory is
    left alone, [deviceToHost] gives it back the size it had and every element below that
    size; an element beyond it is the one of before or the one written over it, and the
    device memory is not written. *)
Theorem transfer_roundtrip size offset b st :
  paired sz size offset b ->
  0 <= b_size (hostBuffer b) <= vol (m_capacityND (hostBuffer b)) ->
  let '(b1, st1) := hostToDevice sz b st in
  let cap := m_capacityND (hostBuffer b) in
  b_size (deviceBuffer b1) = b_size (hostBuffer b) /\
  currentSizeBufferDevice (deviceBuffer b1) =
    ((fun _ => Some (b_size (hostBuffer b))) <$> currentSizeBufferDevice (deviceBuffer b)) /\
  (forall idx, in_range cap idx -> linearize cap idx < b_size (hostBuffer b) ->
     elem sz st1 (deviceBuffer b1) idx = elem sz st (hostBuffer b) idx) /\
  forall n st', mem_of st' (deviceBuffer b1) = mem_of st1 (deviceBuffer b1) ->
    let over := with_size n (hostBuffer b1) in
    let '(b2, st2) := deviceToHost sz (mkHostDeviceBuffer over (deviceBuffer b1)) st' in
    b_size (hostBuffer b2) = b_size (hostBuffer b) /\
    (forall idx, in_range cap idx -> linearize cap idx < b_size (hostBuffer b) ->
       elem sz st2 (hostBuffer b2) idx = elem sz st (hostBuffer b) idx) /\
    (forall idx, in_range cap idx ->
       elem sz st2 (hostBuffer b2) idx = elem sz st (hostBuffer b) idx \/
       elem sz st2 (hostBuffer b2) idx = elem sz st' over idx) /\
    deviceBuffer b2 = deviceBuffer b1 /\ mem_of st2 (deviceBuffer b2) = mem_of st1 (deviceBuffer b1).
Proof.
  intros [Hh Hd Ec Hc Fd Hne] Hn. pose proof (flat_whole _ _ _ Hh eq_refl) as Fh.
  unfold hostToDevice.
  pose proof (copyBuffer_copies sz Hsz _ _ _ _ _ _
    (fun hostSize deviceSize => (fun _ : option Z => Some hostSize) <$> deviceSize) st Hd Hh Ec Hc Hn Fd (fun _ => Fh)) as H1.
  destruct (copyBuffer sz (deviceBuffer b) _ _ st) as [d1 st1] eqn:E1.
  destruct H1 as (S1 & D1 & V1 & A1 & C1 & O1).
  assert (Hcap1 : m_capacityND d1 = m_capacityND (deviceBuffer b)) by (unfold copyBuffer in E1; by injection E1 as <- _).
  assert (Hco1 : isMemoryContiguous d1 = isMemoryContiguous (deviceBuffer b)) by (unfold copyBuffer in E1; by injection E1 as <- _).
  cbn [hostBuffer deviceBuffer]. split_and!; try done.
  { intros idx Hi Hlt. rewrite (C1 idx Hi). by rewrite copied_first. }
  intros n st' Hdev. unfold deviceToHost. cbn [hostBuffer deviceBuffer].
  assert (Hd1 : buffer_on sz size offset d1) by (destruct Hd as [? ? ? ?]; constructor; rewrite ?V1, ?Hcap1; done).
  assert (Fd1 : isMemoryContiguous d1 = true -> flat sz d1).
  { rewrite Hco1. intros Hco idx. rewrite Hcap1. unfold getDataBox. rewrite V1. by apply Fd. }
  set (over := with_size n (hostBuffer b)).
  assert (Ho : buffer_on sz (m_capacityND (hostBuffer b)) (create (length (m_capacityND (hostBuffer b))) 0) over)
    by (destruct Hh as [? ? ? ?]; constructor; done).
  pose proof (copyBuffer_copies sz Hsz _ _ over _ _ d1 (fun _ deviceSize => deviceSize) st' Ho Hd1
    ltac:(by rewrite Hcap1, Ec) ltac:(by rewrite Hcap1, Ec) ltac:(by rewrite Hcap1, Ec, S1)
    (fun _ => Fh : flat sz over) Fd1) as H2.
  destruct (copyBuffer sz over d1 _ st') as [h2 st2] eqn:E2.
  destruct H2 as (S2 & _ & V2 & A2 & C2 & O2). cbn [hostBuffer deviceBuffer].
  assert (Hback : forall idx, in_range (m_capacityND (hostBuffer b)) idx ->
    elem sz st2 h2 idx = if copied (isMemoryContiguous (deviceBuffer b) && isMemoryContiguous (hostBuffer b))
                              (m_capacityND (hostBuffer b)) (b_size (hostBuffer b)) idx
                         then elem sz st (hostBuffer b) idx else elem sz st' over idx).
  { intros idx Hi. rewrite (C2 idx) by (by rewrite Hcap1, Ec).
    replace (elem sz st' d1 idx) with (elem sz st1 d1 idx) by (unfold elem; by rewrite Hdev).
    rewrite (C1 idx Hi), Hco1, Hcap1, Ec, S1, andb_comm. change (isMemoryContiguous over) with (isMemoryContiguous (hostBuffer b)).
    by destruct (copied _ _ _ _). }
  split_and!; [by rewrite S2|..|done|].
  - intros idx Hi Hlt. rewrite (Hback idx Hi). by rewrite copied_first.
  - intros idx Hi. rewrite (Hback idx Hi). destruct (copied _ _ _ _); [by left|by right].
  - rewrite O2; [done|]. unfold over. cbn [with_size b_alloc]. rewrite A1. by apply not_eq_sym.
Qed.
End Transfer.

(** A host buffer of 2 x 3 elements of 4 bytes, 4 of them current, whose device side is the
    box at (1, 0) of a device buffer of 4 x 3. *)
Definition box_pair : HostDeviceBuffer * Store :=
  match Buffer_new (V := Z) 4 [4; 3] true (mkStore ∅ 0) with
  | Ret (other, st) =>
      match HostBuffer_new 4 [2; 3] st, DeviceBuffer_view other [2; 3] [1; 0] true with
      | Ret (h, st), Ret d => (mkHostDeviceBuffer (with_size 4 h) d, HostBuffer_setValue 4 7 (with_size 4 h) st)
      | _, _ => (mkHostDeviceBuffer other other, st)
      end
  | _ => (mkHostDeviceBuffer (mkBuffer 0 (0, [], []) [] 0 true None) (mkBuffer 0 (0, [], []) [] 0 true None), mkStore ∅ 0)
  end.

Lemma box_pair_paired : paired 4 [4; 3] [1; 0] box_pair.1.
Proof.
  assert (Ec : m_capacityND (hostBuffer box_pair.1) = [2; 3] /\ m_capacityND (deviceBuffer box_pair.1) = [2; 3]) by (by vm_compute).
  destruct Ec as [Eh Ed]. split; rewrite ?Eh, ?Ed; try done.
  - split; [done|by vm_compute|by vm_compute|]. rewrite Eh. repeat (constructor; [lia|]). constructor.
  - split; [done|by vm_compute|by vm_compute|]. rewrite Ed. repeat (constructor; [lia|]). constructor.
  - split; [cbn; lia|]. repeat (constructor; [lia|]). constructor.
Qed.

Lemma box_pair_copies :
  let '(b1, st1) := hostToDevice 4 box_pair.1 box_pair.2 in
  map (elem 4 st1 (deviceBuffer b1)) [[0; 0]; [1; 0]; [0; 1]; [1; 1]; [0; 2]] = [Some 7; Some 7; Some 7; Some 7; None] /\
  mem_of st1 (deviceBuffer b1) !! 4 = Some 7 /\ mem_of st1 (deviceBuffer b1) !! 0 = None.
Proof. by vm_compute. Qed.

(** The copies of [box_pair], the host set to 9 everywhere and given the size 6 between them. *)
Lemma transfer_roundtrip_witness :
  let '(b1, st1) := hostToDevice 4 box_pair.1 box_pair.2 in
  let over := with_size 6 (hostBuffer b1) in
  let '(b2, st2) := deviceToHost 4 (mkHostDeviceBuffer over (deviceBuffer b1)) (HostBuffer_setValue 4 9 over st1) in
  currentSizeBufferDevice (deviceBuffer b1) = Some (Some 4) /\ b_size (hostBuffer b2) = 4 /\
  elem 4 st2 (hostBuffer b2) [1; 1] = elem 4 box_pair.2 (hostBuffer box_pair.1) [1; 1].
Proof.
  pose proof (transfer_roundtrip 4 ltac:(lia) [4; 3] [1; 0] box_pair.1 box_pair.2 box_pair_paired
    ltac:(vm_compute; split; intros ?; discriminate)) as T.
  assert (E : m_capacityND (hostBuffer box_pair.1) = [2; 3] /\ b_size (hostBuffer box_pair.1) = 4 /\
    currentSizeBufferDevice (deviceBuffer box_pair.1) = Some None) by (by vm_compute). destruct E as (Ec & Es & Ed).
  assert (Hover : let '(b1, st1) := hostToDevice 4 box_pair.1 box_pair.2 in
    mem_of (HostBuffer_setValue 4 9 (with_size 6 (hostBuffer b1)) st1) (deviceBuffer b1) = mem_of st1 (deviceBuffer b1))
    by (by vm_compute).
  rewrite Ec, Es, Ed in T. destruct (hostToDevice 4 box_pair.1 box_pair.2) as [b1 st1].
  destruct T as (_ & D & _ & T). specialize (T 6 _ Hover).
  cbv zeta in *. match goal with |- context [deviceToHost 4 ?x ?y] => destruct (deviceToHost 4 x y) as [b2 st2] end.
  destruct T as (S & T & _).
  split; [exact D|]. split; [exact S|]. apply T; [repeat (constructor; [lia|]); constructor|by vm_compute].
Defined.

(** [HostBuffer::reset] of a box at the start of a larger buffer: it takes the box for a
    whole allocation and clears elements that follow each other in memory, here (0, 0) to
    (3, 0) of a 4 x 2 buffer rather than the box of 2 x 2 at its origin. *)
Lemma reset_of_view_at_origin :
  match HostBuffer_new (V := Z) 1 [4; 2] (mkStore ∅ 0) with
  | Ret (whole, st) =>
      match HostBuffer_view whole [2; 2] [0; 0] with
      | Ret box =>
          match HostBuffer_reset 1 0 false box (HostBuffer_setValue 1 7 whole st) with
          | Ret (_, st') => map (elem 1 st' whole) [[0; 0]; [1; 0]; [2; 0]; [3; 0]; [0; 1]; [1; 1]]
                            = [Some 0; Some 0; Some 0; Some 0; Some 7; Some 7]
          | _ => False
          end
      | _ => False
      end
  | _ => False
  end.
Proof. by vm_compute. Qed.

(** A box of another host buffer passes for contiguous, a box of a device buffer does not. *)
Lemma view_contiguity :
  match Buffer_new (V := Z) 1 [4; 2] false (mkStore ∅ 0) with
  | Ret (whole, _) =>
      (isMemoryContiguous <$> HostBuffer_view whole [2; 2] [1; 0]) = Ret true /\
      (isMemoryContiguous <$> DeviceBuffer_view whole [2; 2] [1; 0] false) = Ret false
  | _ => False
  end.
Proof. by vm_compute. Qed.
