(* ===== verification/Exchange.v ===== *)
(** * Exchanges of a buffer's border

    An [Exchange] is a box of a device buffer and one direction of communication.  A send
    copies the box into contiguous staging memory and hands it to the communicator; a
    receive takes a message into staging memory, publishes its size and copies it into the
    box.  The file models [exchangeTypeToDim], [exchangeTypeToOffset], both constructors,
    [send], [receive] and [receiveMetadata].

    The theorems show where the boxes of a direction lie and that a message carries the
    elements of the sender's box to the same places of the receiver's, whichever staging
    either side uses.  The queue's tasks of one send or receive are taken as one step; that
    they run in this order is the matter of the submission files. *)
From Stdlib Require Import ZArith Lia.
From stdpp Require Import base list list_numbers numbers gmap strings.
From S2P Require Import Prelude Outcome DataSpaces ExchangeMask GridMapping FrameList Buffers.
Open Scope Z_scope.

(** ** Geometry *)

(** The two exchange types of every axis: lower and upper side. *)
Definition axes : list (Z * Z) := [(LEFT, RIGHT); (TOP, BOTTOM); (FRONT, BACK)].

Definition exchangeTypeToDim (dim : nat) (exchange : Z) : DataSpace :=
  let exchangeMask := Mask_of exchange in
  map (fun '(lower, upper) =>
         if containsExchangeType exchangeMask lower || containsExchangeType exchangeMask upper then 1 else 0)
    (take dim axes).

(** One dimension of [exchangeTypeToOffset]. *)
Definition axis_offset (mask : Mask) (area : Area) (lower upper size border guardingCells : Z) : Z :=
  if containsExchangeType mask upper then
    let tmp_offset := size - border - guardingCells in
    match area with GUARD => tmp_offset + guardingCells | _ => tmp_offset end
  else
    match area with
    | GUARD => if containsExchangeType mask lower then border - guardingCells else border
    | _ => border
    end.

Fixpoint axes_offset (mask : Mask) (area : Area) (axes : list (Z * Z)) (size border guardingCells : DataSpace) : DataSpace :=
  match axes, size, border, guardingCells with
  | (lower, upper) :: axes, s :: size, b :: border, g :: guardingCells =>
      axis_offset mask area lower upper s b g :: axes_offset mask area axes size border guardingCells
  | _, _, _, _ => []
  end.

Definition exchangeTypeToOffset (exchange : Z) (memoryLayout : GridLayout) (guardingCells : DataSpace) (area : Area) : DataSpace :=
  axes_offset (Mask_of exchange) area axes (sizeND memoryLayout) (guardSizeND memoryLayout) guardingCells.

(** The extents of the box, from the loop of the constructor. *)
Definition exchange_extent (memoryLayout : GridLayout) (guardingCells : DataSpace) (exchange : Z) : DataSpace :=
  let tmp_size := sizeWithoutGuardND memoryLayout in
  zip_with (fun '(s, d) g => if d =? 1 then g else s)
    (zip tmp_size (exchangeTypeToDim (length tmp_size) exchange)) guardingCells.

(** ** Exchange *)

Section Exchange.
Context {V : Type} `{AlpakaMemory V} (sz : Z).
(** [Environment<>::get().isMpiDirectEnabled()]. *)
Context (isMpiDirectEnabled : bool).

Record Exchange := mkExchange {
  e_hostBuffer : option Buffer;
  deviceDoubleBuffer : option Buffer;
  e_deviceBuffer : Buffer;
  exchange : Z;
  communicationTag : Z;
}.

(** Staging buffers of a constructor. *)
Definition new_staging (size : MemSpace) (st : Store) : outcome (option Buffer * option Buffer * Store) :=
  '(double, st) ← (if (1 <? length size)%nat
                   then '(b, st) ← DeviceBuffer_new sz size false st; Ret (Some b, st)
                   else Ret (None, st));
  '(host, st) ← (if negb isMpiDirectEnabled
                 then '(b, st) ← HostBuffer_new sz size st; Ret (Some b, st)
                 else Ret (None, st));
  Ret (double, host, st).

(** The exchange of a box of [source]. *)
Definition Exchange_in (source : Buffer) (memoryLayout : GridLayout) (guardingCells : DataSpace)
    (extype commTag : Z) (area : Area) (sizeOnDevice : bool) (st : Store) : outcome (Exchange * Store) :=
  let tmp_size := exchange_extent memoryLayout guardingCells extype in
  d ← DeviceBuffer_view source tmp_size (exchangeTypeToOffset extype memoryLayout guardingCells area) sizeOnDevice;
  '(double, host, st) ← new_staging tmp_size st;
  Ret (mkExchange host double d extype commTag, st).

(** The exchange with memory of its own. *)
Definition Exchange_own (exchangeDataSpace : DataSpace) (extype commTag : Z) (sizeOnDevice : bool) (st : Store) :
    outcome (Exchange * Store) :=
  '(d, st) ← DeviceBuffer_new sz exchangeDataSpace sizeOnDevice st;
  '(double, host, st) ← new_staging exchangeDataSpace st;
  Ret (mkExchange host double d extype commTag, st).

(** [copyStaging]: both allocations as one row of [elements]. *)
Definition copyStaging (destination source : Buffer) (elements : Z) (st : Store) : Store :=
  let extent := toAlpakaVec [elements] in
  let row (b : Buffer) := makeView (view_data b.(b_view)) extent [sz] in
  set_mem destination (memcpy (mem_of st destination) (row destination) (mem_of st source) (row source) extent) st.

Definition copyBox (destination source : Buffer) (extent : MemSpace) (st : Store) : Store :=
  set_mem destination
    (memcpy (mem_of st destination) destination.(b_view) (mem_of st source) source.(b_view) (toAlpakaVec extent)) st.

Definition set_sizes (elements : Z) (b : option Buffer) : outcome (option Buffer) :=
  match b with
  | Some b => b ← setSizeHostSide elements b; Ret (Some b)
  | None => Ret None
  end.

(** The buffer whose memory MPI uses; [getHostBuffer] asserts that there is one. *)
Definition message_buffer (e : Exchange) : outcome Buffer :=
  if isMpiDirectEnabled
  then Ret (match e.(deviceDoubleBuffer) with Some b => b | None => e.(e_deviceBuffer) end)
  else match e.(e_hostBuffer) with Some b => Ret b | None => Abort "PMACC_ASSERT" end.

(** The copies of the task [send] puts on the queue. *)
Definition send_task (d : Buffer) (double host : option Buffer) (elements : Z) (st : Store) : Store :=
  let extent := Buffer_sizeND d.(m_capacityND) elements in
  let st := match double with Some b => copyBox b d extent st | None => st end in
  if isMpiDirectEnabled then st
  else match host, double with
       | Some h, Some b => copyStaging h b elements st
       | Some h, None => copyBox h d extent st
       | None, _ => st
       end.

(** Those of [receive]. *)
Definition receive_task (d : Buffer) (double host : option Buffer) (elements : Z) (st : Store) : Store :=
  let dataExtent := Buffer_sizeND d.(m_capacityND) elements in
  match (if isMpiDirectEnabled then None else host), double with
  | Some h, Some b => copyBox d b dataExtent (copyStaging b h elements st)
  | Some h, None => copyBox d h dataExtent st
  | None, Some b => copyBox d b dataExtent st
  | None, None => st
  end.

(** [send]: the queue's task, then the elements given to the communicator.  The host
    staging buffer is used without MPI direct only. *)
Definition Exchange_send (e : Exchange) (st : Store) : outcome (Exchange * Store * list (option V)) :=
  let d := e.(e_deviceBuffer) in
  let elements := d.(b_size) in
  double ← set_sizes elements e.(deviceDoubleBuffer);
  host ← (if isMpiDirectEnabled then Ret e.(e_hostBuffer) else set_sizes elements e.(e_hostBuffer));
  let e := mkExchange host double d e.(exchange) e.(communicationTag) in
  let st := send_task d double host elements st in
  b ← message_buffer e;
  '(p, n) ← getCPtrCurrentSize b;
  Ret (e, st, map (fun i => mem_of st b !! (p + sz * i)) (seqZ 0 n)).

Definition receiveMetadata (e : Exchange) (bytes : Z) : outcome Z :=
  if negb (bytes mod sz =? 0) then Throw runtime_error "Received exchange byte count is not an element count"
  else
    let elements := bytes / sz in
    if capacity e.(e_deviceBuffer) <? elements then Throw runtime_error "Received exchange exceeds its device buffer"
    else Ret elements.

(** What MPI has written when a receive completes. *)
Definition put_element (p : Z) (m : gmap Z V) (iv : Z * option V) : gmap Z V :=
  let a := p + sz * iv.1 in match iv.2 with Some v => <[a := v]> m | None => delete a m end.
Definition deliver (p : Z) (message : list (option V)) (m : gmap Z V) : gmap Z V :=
  fold_left (put_element p) (zip (seqZ 0 (Z.of_nat (length message))) message) m.

(** [receive]: the message in the staging memory, the sizes, then the queue's task. *)
Definition Exchange_receive (e : Exchange) (message : list (option V)) (st : Store) : outcome (Exchange * Store) :=
  b ← message_buffer e;
  '(p, _) ← getCPtrCapacity b;
  let st := set_mem b (deliver p message (mem_of st b)) st in
  elements ← receiveMetadata e (sz * Z.of_nat (length message));
  d ← setSizeHostSide elements e.(e_deviceBuffer);
  double ← set_sizes elements e.(deviceDoubleBuffer);
  host ← (if isMpiDirectEnabled then Ret e.(e_hostBuffer) else set_sizes elements e.(e_hostBuffer));
  let d := mkBuffer d.(b_alloc) d.(b_view) d.(m_capacityND) d.(b_size) d.(isMemoryContiguous)
             ((fun _ => Some elements) <$> d.(currentSizeBufferDevice)) in
  let st := receive_task d double host elements st in
  Ret (mkExchange host double d e.(exchange) e.(communicationTag), st).
End Exchange.

(** ** Steps of a transfer *)

Section Steps.
Context {V : Type} `{AM : AlpakaMemory V} {AML : AlpakaMemoryLaws V} (sz : Z) (Hsz : 0 < sz).

(** A buffer over an allocation of its own. *)
Definition whole (b : Buffer) : Prop :=
  buffer_on sz b.(m_capacityND) (create (length b.(m_capacityND)) 0) b /\ isMemoryContiguous b = true.

Lemma whole_flat b : whole b -> flat sz b.
Proof. intros [Hb _]. by eapply flat_whole. Qed.

Lemma flat_line size offset b : buffer_on sz size offset b -> length size = 1%nat -> flat sz b.
Proof.
  intros Hb L idx Hi. pose proof (on_lengths _ _ _ _ Hb) as [Lo Lc]. pose proof (in_range_length _ _ Hi).
  rewrite (proj2 (on_address _ _ _ _ idx Hb ltac:(lia))), (on_data _ _ _ _ Hb).
  destruct size as [|s [|]]; try discriminate L. destruct offset as [|o [|]]; try discriminate Lo.
  destruct (m_capacityND b) as [|c [|]]; try discriminate Lc. destruct idx as [|i [|]]; try discriminate.
  unfold linearize. cbn. lia.
Qed.

(** A copy of the box a size stands for. *)
Lemma copyBox_spec size offset d size' offset' s n st :
  buffer_on sz size offset d -> buffer_on sz size' offset' s -> m_capacityND d = m_capacityND s ->
  proper (m_capacityND s) -> 0 <= n <= vol (m_capacityND s) ->
  let st' := copyBox d s (Buffer_sizeND (m_capacityND s) n) st in
  (forall idx, in_range (m_capacityND s) idx -> linearize (m_capacityND s) idx < n -> elem sz st' d idx = elem sz st s idx) /\
  (forall a, (forall idx, in_range (m_capacityND d) idx -> ptr sz (getDataBox d) idx <> a) ->
     mem_of st' d !! a = mem_of st d !! a) /\
  (forall b, b_alloc b <> b_alloc d -> mem_of st' b = mem_of st b).
Proof.
  intros Hd Hs Ec Hc Hn st'. pose proof (sizeND_fits _ _ Hc Hn) as Hf.
  destruct (memcpy_box sz Hsz _ _ _ _ _ _ _ (mem_of st d) (mem_of st s) Hd Hs ltac:(by rewrite Ec) Hf) as [Hin Hout].
  subst st'. unfold copyBox, elem. split_and!.
  - intros idx Hi Hl. rewrite mem_set, decide_True by done. apply Hin. by apply sizeND_covers.
  - intros a Ha. rewrite mem_set, decide_True by done. apply Hout. intros idx Hi. apply Ha. rewrite Ec.
    by eapply fits_inside.
  - intros b Hb. by rewrite mem_set, decide_False.
Qed.

(** The elements of a row of memory. *)
Lemma copyStaging_spec d s n st :
  flat sz d -> flat sz s -> m_capacityND d = m_capacityND s ->
  let st' := copyStaging sz d s n st in
  (forall idx, in_range (m_capacityND s) idx -> m_capacityND s <> [] -> linearize (m_capacityND s) idx < n ->
     elem sz st' d idx = elem sz st s idx) /\
  (forall b, b_alloc b <> b_alloc d -> mem_of st' b = mem_of st b).
Proof.
  intros Fd Fs Ec st'. subst st'. unfold copyStaging, elem. split.
  - intros idx Hi Hne Hl. rewrite mem_set, decide_True by done. rewrite (Fd idx), (Fs idx), Ec by (by rewrite ?Ec).
    pose proof (linearize_range _ _ Hne Hi) as Hp.
    set (dv := makeView (view_data (b_view d)) _ _). set (sv := makeView (view_data (b_view s)) _ _).
    assert (Ed : forall i, vaddr dv [i] = view_data (b_view d) + sz * i).
    { intros i. unfold vaddr, dv. rewrite makeView_data, makeView_pitches. unfold dot. cbn. lia. }
    assert (Es : forall i, vaddr sv [i] = view_data (b_view s) + sz * i).
    { intros i. unfold vaddr, sv. rewrite makeView_data, makeView_pitches. unfold dot. cbn. lia. }
    rewrite <- Ed, <- Es. apply memcpy_inside; [|constructor; [lia|constructor]].
    intros i j Hir Hjr E. inversion Hir as [|? x ? r Hx Hr]; subst. inversion Hr; subst.
    inversion Hjr as [|? y ? r Hy Hr']; subst. inversion Hr'; subst. rewrite !Ed in E. f_equal. nia.
  - intros b Hb. by rewrite mem_set, decide_False.
Qed.

(** A delivered message lies in a row. *)
Lemma put_lookup p (m : gmap Z V) i v a : put_element sz p m (i, v) !! a = if decide (a = p + sz * i) then v else m !! a.
Proof.
  unfold put_element. cbn. case_decide as E; destruct v; subst;
    by rewrite ?lookup_insert_eq, ?lookup_delete_eq, ?lookup_insert_ne, ?lookup_delete_ne by done.
Qed.

Lemma put_all p msg k (m : gmap Z V) i :
  0 <= k ->
  fold_left (put_element sz p) (zip (seqZ k (Z.of_nat (length msg))) msg) m !! (p + sz * i) =
  match msg !! Z.to_nat (i - k) with Some v => if k <=? i then v else m !! (p + sz * i) | None => m !! (p + sz * i) end.
Proof.
  revert k m. induction msg as [|w msg IH]; intros k m Hk; [by rewrite zip_with_nil_r|].
  cbn [length]. rewrite seqZ_cons by lia. cbn [zip zip_with fold_left].
  replace (Z.pred (Z.of_nat (S (length msg)))) with (Z.of_nat (length msg)) by lia.
  rewrite IH by lia. rewrite !put_lookup.
  destruct (decide (i = k)) as [->|Hne].
  - rewrite Z.sub_diag. cbn [Z.to_nat lookup list_lookup]. rewrite (proj2 (Z.leb_gt _ _)) by lia.
    rewrite decide_True, Z.leb_refl by done. by destruct (msg !! _).
  - rewrite (decide_False (P := p + sz * i = p + sz * k)) by nia.
    destruct (Z.leb_spec k i).
    + rewrite (proj2 (Z.leb_le _ _)) by lia. replace (Z.to_nat (i - k)) with (S (Z.to_nat (i - Z.succ k))) by lia. done.
    + rewrite (proj2 (Z.leb_gt _ _)) by lia. by destruct (msg !! _), ((w :: msg) !! _).
Qed.

Lemma put_other p l (m : gmap Z V) a :
  (forall iv, iv ∈ l -> a <> p + sz * iv.1) -> fold_left (put_element sz p) l m !! a = m !! a.
Proof.
  revert m. induction l as [|[i v] l IH]; intros m Ha; [done|]. cbn [fold_left].
  rewrite IH by (intros iv Hiv; apply Ha; by right). rewrite put_lookup, decide_False; [done|]. apply (Ha (i, v)). left.
Qed.

Lemma deliver_row p msg (m : gmap Z V) i : 0 <= i < Z.of_nat (length msg) -> Some (deliver sz p msg m !! (p + sz * i)) = msg !! Z.to_nat i.
Proof.
  intros Hi. unfold deliver. rewrite put_all, Z.sub_0_r by lia.
  destruct (lookup_lt_is_Some_2 msg (Z.to_nat i) ltac:(lia)) as [v ->]. by rewrite (proj2 (Z.leb_le _ _)) by lia.
Qed.

Lemma deliver_other p msg (m : gmap Z V) a :
  (forall i, 0 <= i < Z.of_nat (length msg) -> a <> p + sz * i) -> deliver sz p msg m !! a = m !! a.
Proof.
  intros Ha. apply put_other. intros [i v] Hiv. apply elem_of_zip_l in Hiv. apply elem_of_seqZ in Hiv. apply Ha. cbn. lia.
Qed.

(** ** Messages *)

(** Staging of an exchange whose constructor ran with [mpi] as MPI direct: memory of its
    own, at least what [mpi] needs. *)
Record exchange_ok (mpi : bool) (size offset : MemSpace) (e : Exchange) : Prop := {
  ok_box : buffer_on sz size offset (e_deviceBuffer e);
  ok_proper : proper (m_capacityND (e_deviceBuffer e));
  ok_double : match deviceDoubleBuffer e with
    | Some b => whole b /\ m_capacityND b = m_capacityND (e_deviceBuffer e) /\ b_alloc b <> b_alloc (e_deviceBuffer e)
    | None => length size = 1%nat /\ isMemoryContiguous (e_deviceBuffer e) = true
    end;
  ok_host : match e_hostBuffer e with
    | Some h => whole h /\ m_capacityND h = m_capacityND (e_deviceBuffer e) /\ b_alloc h <> b_alloc (e_deviceBuffer e) /\
        match deviceDoubleBuffer e with Some b => b_alloc h <> b_alloc b | None => True end
    | None => mpi = true
    end;
}.

(** The allocations of an exchange's staging memory. *)
Definition staging (e : Exchange) : list nat :=
  match deviceDoubleBuffer e with Some b => [b_alloc b] | None => [] end ++
  match e_hostBuffer e with Some b => [b_alloc b] | None => [] end.

(** Only sizes differ. *)
Definition same_buffer (b b' : Buffer) : Prop :=
  b_alloc b' = b_alloc b /\ b_view b' = b_view b /\ m_capacityND b' = m_capacityND b /\
  isMemoryContiguous b' = isMemoryContiguous b.
Definition same_option (b b' : option Buffer) : Prop :=
  match b, b' with Some b, Some b' => same_buffer b b' | None, None => True | _, _ => False end.
Definition same_exchange (e e' : Exchange) : Prop :=
  same_buffer (e_deviceBuffer e) (e_deviceBuffer e') /\ same_option (deviceDoubleBuffer e) (deviceDoubleBuffer e') /\
  same_option (e_hostBuffer e) (e_hostBuffer e') /\ exchange e' = exchange e /\ communicationTag e' = communicationTag e.

Lemma same_buffer_on size offset b b' : same_buffer b b' -> buffer_on sz size offset b -> buffer_on sz size offset b'.
Proof. intros (_ & Ev & Ec & _) [? ? ? ?]. constructor; rewrite ?Ev, ?Ec; done. Qed.

Lemma same_whole b b' : same_buffer b b' -> whole b -> whole b'.
Proof. intros Hs [Hb Hc]. split; [|by rewrite (proj2 (proj2 (proj2 Hs)))]. rewrite (proj1 (proj2 (proj2 Hs))). by eapply same_buffer_on. Qed.

Lemma same_ok mpi size offset e e' : same_exchange e e' -> exchange_ok mpi size offset e -> exchange_ok mpi size offset e'.
Proof.
  intros (Sd & S2 & Sh & _) [Hb Hp H2 Hh].
  pose proof Sd as (Ea & _ & Ec & Eco). split.
  - by eapply same_buffer_on.
  - by rewrite Ec.
  - destruct (deviceDoubleBuffer e) as [b|], (deviceDoubleBuffer e') as [b'|]; try done; cbn in S2; [|by rewrite Eco].
    destruct H2 as (W & C & A). split_and!; [by eapply same_whole| |]; destruct S2 as (A2 & _ & C2 & _); congruence.
  - destruct (e_hostBuffer e) as [h|], (e_hostBuffer e') as [h'|]; try done; cbn in Sh.
    destruct Hh as (W & C & A & A2). split_and!; [by eapply same_whole| | |]; destruct Sh as (A1 & _ & C1 & _); [congruence..|].
    destruct (deviceDoubleBuffer e) as [b|], (deviceDoubleBuffer e') as [b'|]; try done; cbn in S2. destruct S2 as (? & _); congruence.
Qed.

Lemma same_sizes n b : same_buffer b (with_size n b).
Proof. done. Qed.

(** Current sizes fit the staging buffers. *)
Lemma set_sizes_ret n b :
  match b with Some b => n <= vol (m_capacityND b) | None => True end ->
  set_sizes n b = Ret (with_size n <$> b).
Proof.
  intros Hn. destruct b as [b|]; [|done]. cbn. unfold setSizeHostSide, capacity. rewrite product_vol.
  by rewrite (proj2 (Z.leb_le _ _)).
Qed.

(** The elements of a buffer in the order of a message. *)
Definition carries (n : Z) (msg : list (option V)) (cap : MemSpace) (value : MemSpace -> option V) : Prop :=
  Z.of_nat (length msg) = n /\
  forall idx, in_range cap idx -> linearize cap idx < n -> msg !! Z.to_nat (linearize cap idx) = Some (value idx).

Lemma row_carries b cap n st st' (d : Buffer) :
  flat sz b -> m_capacityND b = cap -> cap <> [] -> 0 <= n ->
  (forall idx, in_range cap idx -> linearize cap idx < n -> elem sz st' b idx = elem sz st d idx) ->
  carries n (map (fun i => mem_of st' b !! (view_data (b_view b) + sz * i)) (seqZ 0 n)) cap (elem sz st d).
Proof.
  intros Fb Ec Hne Hn He. split; [rewrite length_map, length_seqZ; lia|].
  intros idx Hi Hlt. rewrite <- (He idx Hi Hlt). pose proof (linearize_range _ _ Hne Hi).
  rewrite list_lookup_fmap, lookup_seqZ_lt by lia. cbn. f_equal. unfold elem.
  rewrite (Fb idx), Ec by (by rewrite Ec). f_equal. lia.
Qed.

Lemma send_spec mpi size offset e st :
  exchange_ok mpi size offset e ->
  let d := e_deviceBuffer e in
  let n := b_size d in
  0 <= n <= vol (m_capacityND d) ->
  exists e' st' msg, Exchange_send sz mpi e st = Ret (e', st', msg) /\
    same_exchange e e' /\ e_deviceBuffer e' = d /\ carries n msg (m_capacityND d) (elem sz st d) /\
    (forall b, b_alloc b ∉ staging e -> mem_of st' b = mem_of st b).
Proof.
  intros [Hb Hp H2 Hh] d n Hn. destruct (proper_pos _ Hp) as [Hne _].
  destruct e as [host double d' ex tag]. cbn in *. subst d. unfold Exchange_send, send_task. cbn [e_deviceBuffer deviceDoubleBuffer e_hostBuffer].
  rewrite (set_sizes_ret (b_size d') double) by (destruct double as [b|]; [cbn; destruct H2 as (_ & -> & _); lia|done]). cbn [mbind outcome_bind].
  assert (Hsh : (if mpi then Ret host else set_sizes (b_size d') host) = Ret (if mpi then host else with_size (b_size d') <$> host)).
  { destruct mpi; [done|]. apply set_sizes_ret. destruct host as [h|]; [cbn; destruct Hh as (_ & -> & _); lia|done]. }
  rewrite Hsh. cbn [mbind outcome_bind]. unfold message_buffer. cbn [deviceDoubleBuffer e_hostBuffer e_deviceBuffer].
  destruct double as [b|]; cbn [fmap option_fmap option_map].
  - destruct H2 as (Wb & Cb & Ab). pose proof (whole_flat b Wb) as Fb.
    destruct (copyBox_spec _ _ (with_size n b) _ _ d' n st
      (same_buffer_on _ _ b (with_size n b) (same_sizes n b) (proj1 Wb)) Hb Cb Hp Hn) as (I1 & _ & O1).
    fold n. set (st1 := copyBox (with_size n b) d' _ st) in *.
    destruct mpi.
    + cbn [mbind outcome_bind]. unfold getCPtrCurrentSize, data. cbn [isMemoryContiguous with_size]. rewrite (proj2 Wb).
      eexists _, _, _. split; [reflexivity|]. split_and!; try done; [destruct host; done| |].
      * exact (row_carries (with_size n b) _ n st st1 d' Fb Cb Hne ltac:(lia) I1).
      * intros x Hx. apply O1. intros E. apply Hx. cbn in E. rewrite E. left.
    + destruct host as [h|]; [|done]. destruct Hh as (Wh & Ch & Ah & A2). pose proof (whole_flat h Wh) as Fh.
      cbn [fmap option_fmap option_map]. cbn [mbind outcome_bind]. unfold getCPtrCurrentSize, data. cbn [isMemoryContiguous with_size]. rewrite (proj2 Wh).
      destruct (copyStaging_spec (with_size n h) (with_size n b) n st1 Fh Fb ltac:(cbn; congruence)) as (I2 & O2).
      eexists _, _, _. split; [reflexivity|]. split_and!; try done.
      * apply (row_carries (with_size n h) _ n st _ d' Fh Ch Hne ltac:(lia)).
        cbn [m_capacityND with_size] in I2. rewrite Cb in I2.
        intros idx Hi Hl. rewrite (I2 idx Hi Hne Hl). by apply I1.
      * intros x Hx. cbn in Hx. rewrite O2, O1; [done|intros E; apply Hx; cbn in E; rewrite E; left|].
        intros E; apply Hx; cbn in E; rewrite E; right; left.
  - destruct H2 as [L1 Cd]. pose proof (flat_line _ _ _ Hb L1) as Fd. destruct mpi.
    + cbn [mbind outcome_bind]. unfold getCPtrCurrentSize, data. rewrite Cd. eexists _, _, _. split; [reflexivity|].
      split_and!; try done; [by destruct host|]. by apply (row_carries d' _ n st st d' Fd eq_refl Hne ltac:(lia)).
    + destruct host as [h|]; [|done]. destruct Hh as (Wh & Ch & Ah & A2). pose proof (whole_flat h Wh) as Fh.
      cbn [fmap option_fmap option_map]. cbn [mbind outcome_bind]. unfold getCPtrCurrentSize, data. cbn [isMemoryContiguous with_size]. rewrite (proj2 Wh).
      destruct (copyBox_spec _ _ (with_size n h) _ _ d' n st
        (same_buffer_on _ _ h (with_size n h) (same_sizes n h) (proj1 Wh)) Hb Ch Hp Hn) as (I1 & _ & O1).
      fold n. eexists _, _, _. split; [reflexivity|]. split_and!; try done.
      * by apply (row_carries (with_size n h) _ n st _ d' Fh Ch Hne ltac:(lia)).
      * intros x Hx. apply O1. intros E. apply Hx. cbn in E. rewrite E. left.
Qed.

Lemma receiveMetadata_spec e n :
  0 <= n ->
  receiveMetadata sz e (sz * n) =
  if vol (m_capacityND (e_deviceBuffer e)) <? n then Throw runtime_error "Received exchange exceeds its device buffer" else Ret n.
Proof.
  intros Hn. unfold receiveMetadata. rewrite Z.mul_comm, Z.mod_mul, Z.eqb_refl, Z.div_mul by lia.
  unfold capacity. by rewrite product_vol.
Qed.

Lemma deliver_carries b cap n msg st :
  flat sz b -> m_capacityND b = cap -> cap <> [] -> Z.of_nat (length msg) = n ->
  let st' := set_mem b (deliver sz (view_data (b_view b)) msg (mem_of st b)) st in
  carries n msg cap (elem sz st' b) /\ (forall x, b_alloc x <> b_alloc b -> mem_of st' x = mem_of st x).
Proof.
  intros Fb Ec Hne Hn st'. subst st'. split; [split; [done|]|intros x Hx; by rewrite mem_set, decide_False].
  intros idx Hi Hl. pose proof (linearize_range _ _ Hne Hi). unfold elem. rewrite mem_set, decide_True by done.
  rewrite (Fb idx), Ec by (by rewrite Ec). symmetry. apply deliver_row. lia.
Qed.

Lemma carries_elem n msg cap f g :
  carries n msg cap f -> (forall idx, in_range cap idx -> linearize cap idx < n -> g idx = f idx) -> carries n msg cap g.
Proof. intros [L C] E. split; [done|]. intros idx Hi Hl. rewrite (C idx Hi Hl). by rewrite E. Qed.

(** What a receive of [n] elements does: [d'] has the message, the store is as it was
    outside the box and the staging memory. *)
Definition received (n : Z) (msg : list (option V)) (e e' : Exchange) (st st' : Store) : Prop :=
  let d := e_deviceBuffer e in
  same_exchange e e' /\ b_size (e_deviceBuffer e') = n /\
  currentSizeBufferDevice (e_deviceBuffer e') = ((fun _ => Some n) <$> currentSizeBufferDevice d) /\
  carries n msg (m_capacityND d) (elem sz st' d) /\
  (forall a, (forall idx, in_range (m_capacityND d) idx -> ptr sz (getDataBox d) idx <> a) ->
     mem_of st' d !! a = mem_of st d !! a) /\
  (forall b, b_alloc b ∉ staging e -> b_alloc b <> b_alloc d -> mem_of st' b = mem_of st b).

Ltac received_goals := refine (conj _ (conj eq_refl (conj eq_refl (conj _ (conj _ _))))).

(** The device buffer after a receive of [n] elements. *)
Definition with_received (n : Z) (d : Buffer) : Buffer :=
  mkBuffer (b_alloc d) (b_view d) (m_capacityND d) n (isMemoryContiguous d) ((fun _ => Some n) <$> currentSizeBufferDevice d).

Lemma receive_run mpi size offset e b msg st :
  exchange_ok mpi size offset e -> message_buffer mpi e = Ret b -> isMemoryContiguous b = true ->
  let n := Z.of_nat (length msg) in
  n <= vol (m_capacityND (e_deviceBuffer e)) ->
  let d := with_received n (e_deviceBuffer e) in
  let double := with_size n <$> deviceDoubleBuffer e in
  let host := if mpi then e_hostBuffer e else with_size n <$> e_hostBuffer e in
  Exchange_receive sz mpi e msg st =
  Ret (mkExchange host double d (exchange e) (communicationTag e),
       receive_task sz mpi d double host n (set_mem b (deliver sz (view_data (b_view b)) msg (mem_of st b)) st)).
Proof.
  intros [Hb Hp H2 Hh] Eb Cb n Hn d double host. unfold Exchange_receive. rewrite Eb. cbn [mbind outcome_bind].
  unfold getCPtrCapacity, data. rewrite Cb. cbn [mbind outcome_bind].
  rewrite receiveMetadata_spec, (proj2 (Z.ltb_ge _ _)) by lia. cbn [mbind outcome_bind].
  fold n. unfold setSizeHostSide at 1, capacity. rewrite product_vol, (proj2 (Z.leb_le _ _)) by done. cbn [mbind outcome_bind].
  rewrite (set_sizes_ret n (deviceDoubleBuffer e)).
  2: { destruct (deviceDoubleBuffer e) as [x|]; [|done]. destruct H2 as (_ & E & _). cbn. rewrite E. lia. }
  assert (Hsh : (if mpi then Ret (e_hostBuffer e) else set_sizes n (e_hostBuffer e)) = Ret host).
  { subst host. destruct mpi; [done|]. apply set_sizes_ret. destruct (e_hostBuffer e) as [h|]; [|done].
    destruct Hh as (_ & E & _). cbn. rewrite E. lia. }
  cbn [mbind outcome_bind]. rewrite Hsh. done.
Qed.

(** From the staging buffer [b] on the device into the box. *)
Lemma receive_box size offset d b n st :
  buffer_on sz size offset d -> proper (m_capacityND d) -> whole b -> m_capacityND b = m_capacityND d ->
  0 <= n <= vol (m_capacityND d) ->
  let st' := copyBox (with_received n d) (with_size n b) (Buffer_sizeND (m_capacityND d) n) st in
  (forall idx, in_range (m_capacityND d) idx -> linearize (m_capacityND d) idx < n -> elem sz st' d idx = elem sz st b idx) /\
  (forall a, (forall idx, in_range (m_capacityND d) idx -> ptr sz (getDataBox d) idx <> a) ->
     mem_of st' d !! a = mem_of st d !! a) /\
  (forall x, b_alloc x <> b_alloc d -> mem_of st' x = mem_of st x).
Proof.
  intros Hb Hp Wb Cb Hn.
  destruct (copyBox_spec size offset (with_received n d) _ _ (with_size n b) n st
    (same_buffer_on _ _ d (with_received n d) ltac:(done) Hb) (same_buffer_on _ _ b _ (same_sizes n b) (proj1 Wb))
    (eq_sym Cb) ltac:(cbn; by rewrite Cb) ltac:(cbn; rewrite Cb; lia)) as (I & Out & O).
  cbn [m_capacityND with_size] in I, Out, O. rewrite Cb in I, Out, O. split; [exact I|]. split; [exact Out|exact O].
Qed.

Lemma receive_staged mpi size offset e b msg st :
  exchange_ok mpi size offset e -> deviceDoubleBuffer e = Some b ->
  let n := Z.of_nat (length msg) in
  n <= vol (m_capacityND (e_deviceBuffer e)) ->
  exists e' st', Exchange_receive sz mpi e msg st = Ret (e', st') /\ received n msg e e' st st'.
Proof.
  intros Hok Edo n Hn. pose proof (receive_run mpi size offset e) as Hrun. specialize (fun b Eb => Hrun b msg st Hok Eb).
  destruct Hok as [Hb Hp H2 Hh]. destruct (proper_pos _ Hp) as [Hne _].
  destruct e as [host double d ex tag]. cbn [e_deviceBuffer e_hostBuffer deviceDoubleBuffer exchange communicationTag] in *. subst double.
  destruct H2 as (Wb & Cb & Ab). pose proof (whole_flat b Wb) as Fb. unfold message_buffer in Hrun. cbn in Hrun.
  destruct mpi.
  - rewrite (Hrun b eq_refl (proj2 Wb) Hn).
    destruct (deliver_carries b _ n msg st Fb Cb Hne eq_refl) as (C1 & O1). set (st1 := set_mem b _ st) in *.
    destruct (receive_box _ _ d b n st1 Hb Hp Wb Cb ltac:(lia)) as (I2 & Out2 & O2).
    eexists _, _. split; [reflexivity|]. received_goals; [by destruct host|exact (carries_elem _ _ _ _ _ C1 I2)| |].
    + intros a Ha. etransitivity; [exact (Out2 a Ha)|]. by rewrite O1.
    + intros x Hx Hxd. etransitivity; [exact (O2 x Hxd)|]. apply O1. intros E. apply Hx. rewrite E. left.
  - destruct host as [h|]; [|done]. destruct Hh as (Wh & Ch & Ah & A2). pose proof (whole_flat h Wh) as Fh.
    rewrite (Hrun h eq_refl (proj2 Wh) Hn).
    destruct (deliver_carries h _ n msg st Fh Ch Hne eq_refl) as (C1 & O1). set (st1 := set_mem h _ st) in *.
    destruct (copyStaging_spec (with_size n b) (with_size n h) n st1 Fb Fh ltac:(cbn; congruence)) as (I2 & O2).
    set (st2 := copyStaging sz (with_size n b) (with_size n h) n st1) in *. cbn [m_capacityND with_size] in I2. rewrite Ch in I2.
    destruct (receive_box _ _ d b n st2 Hb Hp Wb Cb ltac:(lia)) as (I3 & Out3 & O3).
    eexists _, _. split; [reflexivity|]. received_goals; [done|..].
    + apply (carries_elem _ _ _ _ _ C1). intros idx Hi Hl. etransitivity; [exact (I3 idx Hi Hl)|]. exact (I2 idx Hi Hne Hl).
    + intros a Ha. etransitivity; [exact (Out3 a Ha)|]. rewrite O2, O1; done.
    + intros x Hx Hxd. etransitivity; [exact (O3 x Hxd)|]. cbn in Hx. rewrite O2, O1; [done| |].
      * intros E; apply Hx; rewrite E; right; left.
      * cbn. intros E; apply Hx; rewrite E; left.
Qed.

Lemma receive_direct mpi size offset e msg st :
  exchange_ok mpi size offset e -> deviceDoubleBuffer e = None ->
  let n := Z.of_nat (length msg) in
  n <= vol (m_capacityND (e_deviceBuffer e)) ->
  exists e' st', Exchange_receive sz mpi e msg st = Ret (e', st') /\ received n msg e e' st st'.
Proof.
  intros Hok Edo n Hn. pose proof (receive_run mpi size offset e) as Hrun. specialize (fun b Eb => Hrun b msg st Hok Eb).
  destruct Hok as [Hb Hp H2 Hh]. destruct (proper_pos _ Hp) as [Hne Hpos].
  destruct e as [host double d ex tag]. cbn [e_deviceBuffer e_hostBuffer deviceDoubleBuffer exchange communicationTag] in *. subst double.
  destruct H2 as [L1 Cd]. pose proof (flat_line _ _ _ Hb L1) as Fd. unfold message_buffer in Hrun. cbn in Hrun.
  destruct mpi.
  - rewrite (Hrun d eq_refl Cd Hn). destruct (deliver_carries d _ n msg st Fd eq_refl Hne eq_refl) as (C1 & O1).
    eexists _, _. split; [reflexivity|]. received_goals; [by destruct host|exact C1| |intros x _; apply O1].
    intros a Ha. cbn [receive_task fmap option_fmap option_map]. etransitivity; [by rewrite mem_set, decide_True|].
    apply deliver_other. intros i Hi E. destruct (mapToND_in_range _ i Hne Hpos ltac:(lia)) as [Hr El].
    apply (Ha _ Hr). etransitivity; [exact (Fd _ Hr)|]. rewrite El. lia.
  - destruct host as [h|]; [|done]. destruct Hh as (Wh & Ch & Ah & A2). pose proof (whole_flat h Wh) as Fh.
    rewrite (Hrun h eq_refl (proj2 Wh) Hn).
    destruct (deliver_carries h _ n msg st Fh Ch Hne eq_refl) as (C1 & O1). set (st1 := set_mem h _ st) in *.
    destruct (receive_box _ _ d h n st1 Hb Hp Wh Ch ltac:(lia)) as (I2 & Out2 & O2).
    eexists _, _. split; [reflexivity|]. received_goals; [done|exact (carries_elem _ _ _ _ _ C1 I2)| |].
    + intros a Ha. etransitivity; [exact (Out2 a Ha)|]. by rewrite O1.
    + intros x Hx Hxd. etransitivity; [exact (O2 x Hxd)|]. apply O1. intros E. apply Hx. rewrite E. left.
Qed.

Lemma receive_spec mpi size offset e msg st :
  exchange_ok mpi size offset e ->
  let n := Z.of_nat (length msg) in
  n <= vol (m_capacityND (e_deviceBuffer e)) ->
  exists e' st', Exchange_receive sz mpi e msg st = Ret (e', st') /\ received n msg e e' st st'.
Proof.
  intros Hok n Hn. destruct (deviceDoubleBuffer e) as [b|] eqn:E; [by eapply receive_staged|by eapply receive_direct].
Qed.
End Steps.

(** ** Where the boxes lie *)

(** The box of one dimension for the direction [d]: [n] cells between guards of [g], [c]
    of them exchanged. *)
Definition box_from (area : Area) (n g c d : Z) : Z :=
  match area with
  | GUARD => if d =? 1 then g + n else if d =? -1 then g - c else g
  | _ => if d =? 1 then g + n - c else g
  end.
Definition box_size (n c d : Z) : Z := if d =? 0 then n else c.

Fixpoint boxes_from (area : Area) (n g c d : DataSpace) : DataSpace :=
  match n, g, c, d with
  | n :: ns, g :: gs, c :: cs, d :: ds => box_from area n g c d :: boxes_from area ns gs cs ds
  | _, _, _, _ => []
  end.
Fixpoint boxes_size (n c d : DataSpace) : DataSpace :=
  match n, c, d with n :: ns, c :: cs, d :: ds => box_size n c d :: boxes_size ns cs ds | _, _, _ => [] end.

(** A layout of one to three dimensions with [gc] cells to exchange in each. *)
Definition layout_ok (l : GridLayout) (gc : DataSpace) : Prop :=
  (1 <= length gc <= 3)%nat /\ Forall3 (fun n g c => 1 <= c /\ c <= g /\ c <= n) l.(m_sizeND) l.(m_guardSizeND) gc.

Ltac layout_cases H :=
  match type of H with layout_ok ?l ?gc =>
    destruct l as [ns gs]; destruct H as [? H]; cbn [m_sizeND m_guardSizeND] in *;
    pose proof (Forall3_length_lm _ _ _ _ H); pose proof (Forall3_length_lr _ _ _ _ H);
    destruct gc as [|c0 [|c1 [|c2 [|]]]]; cbn [length] in *; try lia;
    destruct ns as [|n0 [|n1 [|n2 [|]]]]; cbn [length] in *; try lia;
    destruct gs as [|g0 [|g1 [|g2 [|]]]]; cbn [length] in *; try lia;
    repeat match goal with F : Forall3 _ (_ :: _) _ _ |- _ => inversion F; clear F; subst end
  end.

Lemma directions_three ex :
  1 <= ex < 27 ->
  exists d0 d1 d2, getRelativeDirections 3 ex = [d0; d1; d2] /\
    -1 <= d0 <= 1 /\ -1 <= d1 <= 1 /\ -1 <= d2 <= 1.
Proof.
  intros Hex. destruct (directions_values 3 ex ltac:(lia)) as [Hv L].
  destruct (getRelativeDirections 3 ex) as [|d0 [|d1 [|d2 [|]]]]; try discriminate L. exists d0, d1, d2.
  repeat (apply list.Forall_cons in Hv as [? Hv]). split; [done|]. lia.
Qed.

Lemma exchange_box l gc ex area :
  layout_ok l gc -> 1 <= ex < 27 ->
  let d := getRelativeDirections (length gc) ex in
  exchangeTypeToOffset ex l gc area = boxes_from area l.(m_sizeND) l.(m_guardSizeND) gc d /\
  exchange_extent l gc ex = boxes_size l.(m_sizeND) gc d.
Proof.
  intros Hl Hex d. destruct (directions_three ex Hex) as (d0 & d1 & d2 & E & H0 & H1 & H2).
  destruct (contains_direction ex Hex) as (C1 & C2 & C3 & C4 & C5 & C6). rewrite E in *. cbn [at_ nth] in *.
  assert (Ed : d = take (length gc) [d0; d1; d2]) by (subst d; rewrite (directions_prefix _ 3) by apply Hl; by rewrite E).
  rewrite Ed. clear Ed d. unfold exchangeTypeToOffset, exchange_extent, exchangeTypeToDim, sizeND, guardSizeND, sizeWithoutGuardND.
  layout_cases Hl; unfold axes, vadd, axis_offset, box_from, box_size; cbn -[containsExchangeType Mask_of Z.add Z.sub Z.eqb];
    unfold axis_offset, box_from, box_size; rewrite ?C1, ?C2, ?C3, ?C4, ?C5, ?C6; unfold at_; cbn [nth].
  all: assert (d0 = -1 \/ d0 = 0 \/ d0 = 1) as [->|[->| ->]] by lia;
       try (assert (d1 = -1 \/ d1 = 0 \/ d1 = 1) as [->|[->| ->]] by lia);
       try (assert (d2 = -1 \/ d2 = 0 \/ d2 = 1) as [->|[->| ->]] by lia);
       destruct area; cbn -[Z.add Z.sub]; split; repeat (apply (f_equal2 cons); [lia|]); done.
Qed.

Lemma box_inside l gc area d :
  layout_ok l gc -> length d = length gc -> Forall (fun x => -1 <= x <= 1) d ->
  box_in (boxes_from area l.(m_sizeND) l.(m_guardSizeND) gc d) (boxes_size l.(m_sizeND) gc d) (sizeND l) /\
  proper (boxes_size l.(m_sizeND) gc d).
Proof.
  intros [Hd Hl] L Hx. unfold box_in, sizeND, vadd, proper.
  assert (Ln : length (boxes_size (m_sizeND l) gc d) = length gc).
  { clear Hd. revert d L Hx. induction Hl as [|n g c ns gs cs H Hl IH]; intros [|x d] L Hx; try discriminate L; cbn; [done|].
    f_equal. apply IH; [by injection L|by apply list.Forall_cons in Hx as [_ ?]]. }
  rewrite Ln. split; [|split; [done|]].
  - clear Hd Ln. revert d L Hx. induction Hl as [|n g c ns gs cs H Hl IH]; intros [|x d] L Hx; try discriminate L; cbn; constructor.
    + apply list.Forall_cons in Hx as [Hx _]. unfold box_from, box_size.
      assert (x = -1 \/ x = 0 \/ x = 1) as [->|[->| ->]] by lia; destruct area; cbn -[Z.add Z.sub]; lia.
    + apply IH; [by injection L|by apply list.Forall_cons in Hx as [_ ?]].
  - clear Hd Ln. revert d L Hx. induction Hl as [|n g c ns gs cs H Hl IH]; intros [|x d] L Hx; try discriminate L; cbn; constructor.
    + unfold box_size. case_match; lia.
    + apply IH; [by injection L|by apply list.Forall_cons in Hx as [_ ?]].
Qed.

Section Constructors.
Context {V : Type} `{AM : AlpakaMemory V} {AML : AlpakaMemoryLaws V} (sz : Z) (Hsz : 0 < sz).

(** A buffer of its own, with a number no earlier buffer has. *)
Lemma new_whole size d st :
  proper size ->
  exists b st', Buffer_new sz size d st = Ret (b, st') /\ whole sz b /\ m_capacityND b = size /\ b_size b = vol size /\
    b_alloc b = next_alloc st /\ next_alloc st' = S (next_alloc st) /\
    currentSizeBufferDevice b = (if d then Some None else None) /\
    (forall x, (b_alloc x < next_alloc st)%nat -> mem_of st' x = mem_of st x).
Proof.
  intros Hp. destruct (proper_pos _ Hp) as [Hne Hpos].
  destruct (Buffer_new_on sz size d st Hne ltac:(eapply list.Forall_impl; [exact Hpos|cbn; lia]))
    as (b & E & Ea & Ec & Es & Eco & Ed & _ & Hon).
  eexists b, _. split; [exact E|]. unfold whole. rewrite Ec. split_and!; try done.
  intros x Hx. unfold mem_of. cbn [heap]. by rewrite lookup_insert_ne by lia.
Qed.

Lemma new_staging_ok mpi size st :
  proper size ->
  exists double host st', new_staging sz mpi size st = Ret (double, host, st') /\
    (next_alloc st <= next_alloc st')%nat /\
    match double with
    | Some b => whole sz b /\ m_capacityND b = size /\ (next_alloc st <= b_alloc b < next_alloc st')%nat
    | None => length size = 1%nat
    end /\
    match host with
    | Some h => whole sz h /\ m_capacityND h = size /\ (next_alloc st <= b_alloc h < next_alloc st')%nat /\
        match double with Some b => b_alloc h <> b_alloc b | None => True end
    | None => mpi = true
    end /\
    (forall x, (b_alloc x < next_alloc st)%nat -> mem_of st' x = mem_of st x).
Proof.
  intros Hp. pose proof (proj1 Hp) as Hl. unfold new_staging, DeviceBuffer_new, HostBuffer_new.
  destruct (Nat.ltb_spec 1 (length size)) as [H1|H1].
  - destruct (new_whole size false st Hp) as (b & st1 & E1 & W1 & C1 & _ & A1 & N1 & _ & M1). rewrite E1. cbn [mbind outcome_bind].
    destruct mpi; cbn [negb mbind outcome_bind].
    { exists (Some b), None, st1. split_and!; try done; lia. }
    destruct (new_whole size false st1 Hp) as (h & st2 & E2 & W2 & C2 & _ & A2 & N2 & _ & M2). rewrite E2. cbn [mbind outcome_bind].
    exists (Some b), (Some h), st2. split_and!; try done; try lia. intros x Hx. rewrite M2, M1; [done|lia..].
  - destruct mpi; cbn [negb mbind outcome_bind].
    { exists None, None, st. split_and!; try done; lia. }
    destruct (new_whole size false st Hp) as (h & st2 & E2 & W2 & C2 & _ & A2 & N2 & _ & M2). rewrite E2. cbn [mbind outcome_bind].
    exists None, (Some h), st2. split_and!; try done; try lia.
Qed.

(** An exchange as its constructor leaves it. *)
Definition exchange_new (mpi : bool) (alloc : nat) (size offset extent : MemSpace) (ex tag : Z) (e : Exchange) : Prop :=
  exchange_ok sz mpi size offset e /\ b_alloc (e_deviceBuffer e) = alloc /\ m_capacityND (e_deviceBuffer e) = extent /\
  b_size (e_deviceBuffer e) = vol extent /\ exchange e = ex /\ communicationTag e = tag.

Lemma Exchange_in_new mpi size0 offset0 source l gc ex tag area sod st :
  buffer_on sz size0 offset0 source -> m_capacityND source = sizeND l -> layout_ok l gc -> 1 <= ex < 27 ->
  (b_alloc source < next_alloc st)%nat ->
  exists e st', Exchange_in sz mpi source l gc ex tag area sod st = Ret (e, st') /\
    exchange_new mpi (b_alloc source) size0 (vadd offset0 (exchangeTypeToOffset ex l gc area)) (exchange_extent l gc ex) ex tag e /\
    (next_alloc st <= next_alloc st')%nat /\
    (forall x, (b_alloc x < next_alloc st)%nat -> mem_of st' x = mem_of st x).
Proof.
  intros Hs Ec Hl Hex Ha. destruct (exchange_box l gc ex area Hl Hex) as [Eo Ee].
  destruct (box_inside l gc area (getRelativeDirections (length gc) ex) Hl) as [Hin Hp].
  { apply directions_length. }
  { destruct (directions_values (length gc) ex ltac:(lia)) as [Hv _]. eapply list.Forall_impl; [exact Hv|]. cbn. lia. }
  rewrite <- Eo, <- Ee, <- Ec in Hin. rewrite <- Ee in Hp.
  destruct (DeviceBuffer_view_on sz size0 offset0 source _ _ sod Hs Hin) as (d & Ed & Ad & Cd & Sd & Cod & _ & Hd).
  destruct (new_staging_ok mpi _ st Hp) as (double & host & st' & En & Hn & H2 & Hh & Hm).
  eexists _, st'. unfold Exchange_in. rewrite Ed. cbn [mbind outcome_bind]. rewrite En. cbn [mbind outcome_bind].
  split; [reflexivity|]. split; [|done]. unfold exchange_new. cbn [e_deviceBuffer exchange communicationTag].
  split_and!; try done.
  - split; cbn [e_deviceBuffer e_hostBuffer deviceDoubleBuffer]; rewrite ?Cd; [done|done| |].
    + destruct double as [b|]; [destruct H2 as (? & ? & ?); split_and!; [done..|lia]|].
      pose proof (on_lengths _ _ _ _ Hd). rewrite Cd in *. split; [lia|]. rewrite Cod. by rewrite H2.
    + destruct host as [h|]; [|done]. destruct Hh as (? & ? & ? & ?). split_and!; [done|done|lia|done].
Qed.
End Constructors.

(** ** Theorems *)

Section Theorems.
Context {V : Type} `{AM : AlpakaMemory V} {AML : AlpakaMemoryLaws V} (sz : Z) (Hsz : 0 < sz).

Lemma ok_apart mpi size offset e : exchange_ok sz mpi size offset e -> b_alloc (e_deviceBuffer e) ∉ staging e.
Proof.
  intros [_ _ H2 Hh] Hx. unfold staging in Hx. apply elem_of_app in Hx as [Hx|Hx].
  - destruct (deviceDoubleBuffer e) as [b|]; [|by apply elem_of_nil in Hx].
    apply list_elem_of_singleton in Hx. destruct H2 as (_ & _ & ?). congruence.
  - destruct (e_hostBuffer e) as [h|]; [|by apply elem_of_nil in Hx].
    apply list_elem_of_singleton in Hx. destruct Hh as (_ & _ & ? & _). congruence.
Qed.

(** C26: a message carries a box.  Take an exchange on each of two processes, with boxes of
    equal extents and whatever staging each needs (a device double buffer or none, a host
    buffer or MPI direct).  The send succeeds and leaves the memory the box is part of as it
    was; the receive of its message succeeds, its device buffer takes over the current size,
    the elements with the first linear indices are the sender's, and memory outside the
    receiver's box and staging is as it was.  A message that is longer than the receiver's
    box is refused with an exception. *)
Theorem message_transfer mpi1 mpi2 size1 offset1 e1 st1 size2 offset2 e2 st2 :
  exchange_ok sz mpi1 size1 offset1 e1 -> exchange_ok sz mpi2 size2 offset2 e2 ->
  m_capacityND (e_deviceBuffer e1) = m_capacityND (e_deviceBuffer e2) ->
  let cap := m_capacityND (e_deviceBuffer e1) in
  let n := b_size (e_deviceBuffer e1) in
  0 <= n <= vol cap ->
  (exists e1' st1' msg e2' st2',
     Exchange_send sz mpi1 e1 st1 = Ret (e1', st1', msg) /\ Exchange_receive sz mpi2 e2 msg st2 = Ret (e2', st2') /\
     mem_of st1' (e_deviceBuffer e1) = mem_of st1 (e_deviceBuffer e1) /\
     b_size (e_deviceBuffer e2') = n /\
     (forall idx, in_range cap idx -> linearize cap idx < n ->
        elem sz st2' (e_deviceBuffer e2') idx = elem sz st1 (e_deviceBuffer e1) idx) /\
     (forall a, (forall idx, in_range cap idx -> ptr sz (getDataBox (e_deviceBuffer e2)) idx <> a) ->
        mem_of st2' (e_deviceBuffer e2) !! a = mem_of st2 (e_deviceBuffer e2) !! a)) /\
  (forall bytes, vol cap * sz < bytes -> exists what, receiveMetadata sz e2 bytes = Throw runtime_error what).
Proof.
  intros H1 H2 Ec cap n Hn. destruct (proper_pos _ (ok_proper _ _ _ _ _ H1)) as [Hne _]. split.
  - destruct (send_spec sz Hsz mpi1 size1 offset1 e1 st1 H1 Hn) as (e1' & st1' & msg & E1 & _ & _ & [L C] & M1).
    destruct (receive_spec sz Hsz mpi2 size2 offset2 e2 msg st2 H2) as (e2' & st2' & E2 & ((Sa & Sv & _ & _) & _) & S2 & _ & [_ C2] & O2 & _).
    { rewrite <- Ec, L. apply Hn. }
    exists e1', st1', msg, e2', st2'. split_and!; try done; [apply M1; by eapply ok_apart|by rewrite S2, L| |by rewrite <- Ec in O2].
    intros idx Hi Hl. rewrite <- Ec, L in C2. specialize (C idx Hi Hl). specialize (C2 idx Hi Hl).
    unfold elem, getDataBox, mem_of in *. rewrite Sa, Sv. congruence.
  - intros bytes Hb. unfold receiveMetadata. destruct (Z.eqb_spec (bytes mod sz) 0) as [E|E]; cbn [negb]; [|eauto].
    rewrite (proj2 (Z.ltb_lt _ _)); [eauto|]. unfold capacity. rewrite product_vol, <- Ec. fold cap.
    pose proof (Z.div_mod bytes sz ltac:(lia)). nia.
Qed.
End Theorems.

(** Two processes with 2 x 2 cells of 4 bytes and one guard: the first sends its right
    border through host memory, the second, which has MPI direct, receives it from the
    left. *)
Definition demo_grid (value : Z) : Buffer (V := Z) * Store (V := Z) :=
  match Buffer_new (V := Z) 4 [4; 4] false (mkStore ∅ 0) with
  | Ret (b, st) => (b, HostBuffer_setValue 4 value b st)
  | _ => (mkBuffer 0 (makeView 0 [] []) [] 0 true None, mkStore ∅ 0)
  end.
Definition demo_layout : GridLayout := mkGridLayout [2; 2] [1; 1].

Lemma demo_layout_ok : layout_ok demo_layout [1; 1].
Proof. split; [cbn; lia|]. repeat (constructor; [lia|]). constructor. Qed.

Lemma demo_grid_on value : buffer_on 4 [4; 4] [0; 0] (demo_grid value).1.
Proof. split; [done|by vm_compute|by vm_compute|]. repeat (constructor; [vm_compute; split_and!; intros ?; discriminate|]). constructor. Qed.

Lemma demo_values :
  match Exchange_in 4 false (demo_grid 7).1 demo_layout [1; 1] RIGHT 33 BORDER false (demo_grid 7).2,
        Exchange_in 4 true (demo_grid 8).1 demo_layout [1; 1] LEFT 33 GUARD true (demo_grid 8).2 with
  | Ret (e1, st1), Ret (e2, st2) =>
      elem 4 st2 (e_deviceBuffer e2) [0; 1] = Some 8 /\ elem 4 st1 (e_deviceBuffer e1) [0; 1] = Some 7
  | _, _ => False
  end.
Proof. by vm_compute. Qed.

Lemma message_transfer_witness :
  exists e1 st1 e2 st2,
    Exchange_in 4 false (demo_grid 7).1 demo_layout [1; 1] RIGHT 33 BORDER false (demo_grid 7).2 = Ret (e1, st1) /\
    Exchange_in 4 true (demo_grid 8).1 demo_layout [1; 1] LEFT 33 GUARD true (demo_grid 8).2 = Ret (e2, st2) /\
    exists e1' st1' msg e2' st2',
      Exchange_send 4 false e1 st1 = Ret (e1', st1', msg) /\ Exchange_receive 4 true e2 msg st2 = Ret (e2', st2') /\
      elem 4 st2' (e_deviceBuffer e2') [0; 1] = elem 4 st1 (e_deviceBuffer e1) [0; 1] /\
      elem 4 st2 (e_deviceBuffer e2) [0; 1] = Some 8 /\ elem 4 st1 (e_deviceBuffer e1) [0; 1] = Some 7.
Proof.
  destruct (Exchange_in_new 4 false [4; 4] [0; 0] (demo_grid 7).1 demo_layout [1; 1] RIGHT 33 BORDER false (demo_grid 7).2
    (demo_grid_on 7) eq_refl demo_layout_ok ltac:(unfold RIGHT; lia) ltac:(vm_compute; lia)) as (e1 & st1 & E1 & (K1 & _ & C1 & S1 & _) & _).
  destruct (Exchange_in_new 4 true [4; 4] [0; 0] (demo_grid 8).1 demo_layout [1; 1] LEFT 33 GUARD true (demo_grid 8).2
    (demo_grid_on 8) eq_refl demo_layout_ok ltac:(unfold LEFT; lia) ltac:(vm_compute; lia)) as (e2 & st2 & E2 & (K2 & _ & C2 & S2 & _) & _).
  exists e1, st1, e2, st2. split; [exact E1|]. split; [exact E2|].
  pose proof demo_values as D. rewrite E1, E2 in D.
  destruct (message_transfer 4 ltac:(lia) false true _ _ e1 st1 _ _ e2 st2 K1 K2 ltac:(rewrite C1, C2; done)
    ltac:(rewrite S1, C1; vm_compute; split; intros ?; discriminate)) as [(e1' & st1' & msg & e2' & st2' & T1 & T2 & _ & _ & T & _) _].
  exists e1', st1', msg, e2', st2'. split; [exact T1|]. split; [exact T2|]. split.
  - apply T; rewrite ?S1, C1; [|by vm_compute].
    assert (Hx : exchange_extent demo_layout [1; 1] RIGHT = [1; 2]) by (by vm_compute). rewrite Hx.
    repeat (constructor; [lia|]). constructor.
  - exact D.
Defined.
