(* ===== verification/GridBuffers.v ===== *)
(** * Grid buffers

    A [GridBuffer] is a buffer on host and device with the exchanges of its border: per
    direction at most one to send and one to receive.  Adding exchanges joins the receive
    mask, mirrors it for sending, derives a tag per direction and creates both exchanges of
    every new direction.  [spawnCommunication] starts what the communicator's mask leaves
    active.  The file models [UniquTag] and all operations of [GridBuffer].

    The theorems show which exchanges adding leaves and when it throws, and that
    [spawnCommunication] starts every active receive and send once, each after the previous
    one of its direction. *)
From Stdlib Require Import ZArith Lia.
From stdpp Require Import base list list_numbers numbers gmap strings pretty.
From S2P Require Import Prelude Outcome DataSpaces ExchangeMask GridMapping FrameList Buffers Exchange.
Open Scope Z_scope.

(** [traits::NumberOfExchanges]. *)
Definition NumberOfExchanges (dim : nat) : Z :=
  match dim with 1%nat => LEFT + RIGHT | 2%nat => TOP + BOTTOM | _ => BACK + FRONT end.

(** [UniquTag::isTagUniqu]. *)
Definition isTagUniqu (tag : Z) (tags : gset Z) : bool * gset Z :=
  let isUniqu := bool_decide (tag ∉ tags) in
  (isUniqu, if isUniqu then {[tag]} ∪ tags else tags).

Section GridBuffer.
Context {V : Type} `{AlpakaMemory V} (sz : Z) (isMpiDirectEnabled : bool).
(** [T_CommDim]. *)
Context (commDim : nat).

Record GridBuffer := mkGridBuffer {
  g_buffers : HostDeviceBuffer;
  hasOneExchange : bool;
  lastUsedCommunicationTag : Z;
  gridLayout : GridLayout;
  sendMask : Mask;
  receiveMask : Mask;
  sendExchanges : gmap Z Exchange;
  receiveExchanges : gmap Z Exchange;
  maxExchange : Z;
  receiveCompletions : gmap Z nat;
  sendCompletions : gmap Z nat;
}.

(** The buffer, the tags of all buffers and the memory. *)
Record GridState := mkGridState { gb : GridBuffer; tags : gset Z; gs_store : Store (V := V) }.

Definition set_gb (f : GridBuffer -> GridBuffer) (s : GridState) : GridState := mkGridState (f s.(gb)) s.(tags) s.(gs_store).

Definition GridBuffer_of (buffers : HostDeviceBuffer) (layout : GridLayout) : GridBuffer :=
  mkGridBuffer buffers false 0 layout Mask_empty Mask_empty ∅ ∅ 0 ∅ ∅.
(** The constructor of a layout. *)
Definition GridBuffer_new (layout : GridLayout) (sizeOnDevice : bool) (tags : gset Z) (st : Store (V := V)) : outcome GridState :=
  '(b, st) ← HostDeviceBuffer_new sz (sizeND layout) sizeOnDevice st;
  Ret (mkGridState (GridBuffer_of b layout) tags st).
(** The one over another device buffer. *)
Definition GridBuffer_on (otherDeviceBuffer : Buffer) (layout : GridLayout) (sizeOnDevice : bool) (tags : gset Z) (st : Store (V := V)) :
    outcome GridState :=
  '(b, st) ← HostDeviceBuffer_on sz otherDeviceBuffer (sizeND layout) sizeOnDevice st;
  Ret (mkGridState (GridBuffer_of b layout) tags st).

(** *** Updates of fields *)
Definition set_tag (t : Z) (g : GridBuffer) : GridBuffer :=
  mkGridBuffer g.(g_buffers) g.(hasOneExchange) t g.(gridLayout) g.(sendMask) g.(receiveMask) g.(sendExchanges)
    g.(receiveExchanges) g.(maxExchange) g.(receiveCompletions) g.(sendCompletions).
Definition set_masks (send receive : Mask) (g : GridBuffer) : GridBuffer :=
  mkGridBuffer g.(g_buffers) g.(hasOneExchange) g.(lastUsedCommunicationTag) g.(gridLayout) send receive g.(sendExchanges)
    g.(receiveExchanges) g.(maxExchange) g.(receiveCompletions) g.(sendCompletions).
Definition set_has (g : GridBuffer) : GridBuffer :=
  mkGridBuffer g.(g_buffers) true g.(lastUsedCommunicationTag) g.(gridLayout) g.(sendMask) g.(receiveMask) g.(sendExchanges)
    g.(receiveExchanges) g.(maxExchange) g.(receiveCompletions) g.(sendCompletions).
Definition put_send (ex : Z) (e : Exchange) (g : GridBuffer) : GridBuffer :=
  mkGridBuffer g.(g_buffers) g.(hasOneExchange) g.(lastUsedCommunicationTag) g.(gridLayout) g.(sendMask) g.(receiveMask)
    (<[ex := e]> g.(sendExchanges)) g.(receiveExchanges) (Z.max g.(maxExchange) (ex + 1)) g.(receiveCompletions) g.(sendCompletions).
Definition put_receive (ex : Z) (e : Exchange) (g : GridBuffer) : GridBuffer :=
  mkGridBuffer g.(g_buffers) g.(hasOneExchange) g.(lastUsedCommunicationTag) g.(gridLayout) g.(sendMask) g.(receiveMask)
    g.(sendExchanges) (<[ex := e]> g.(receiveExchanges)) (Z.max g.(maxExchange) (ex + 1)) g.(receiveCompletions) g.(sendCompletions).
Definition set_completions (r s : gmap Z nat) (g : GridBuffer) : GridBuffer :=
  mkGridBuffer g.(g_buffers) g.(hasOneExchange) g.(lastUsedCommunicationTag) g.(gridLayout) g.(sendMask) g.(receiveMask)
    g.(sendExchanges) g.(receiveExchanges) g.(maxExchange) r s.

(** ** Adding exchanges *)

(** Run a constructor on the memory. *)
Definition construct {A} (make : Store (V := V) -> outcome (A * Store)) : Host GridState A := fun s =>
  match make s.(gs_store) with
  | Ret (a, st) => (Ret a, mkGridState s.(gb) s.(tags) st)
  | Throw e w => (Throw e w, s)
  | Abort w => (Abort w, s)
  | Undefined => (Undefined, s)
  end.

Definition wrong_tag : string := "It is not allowed to give the same GridBuffer different communicationTags".
Definition tag_used (uniqCommunicationTag communicationTag : Z) : string :=
  ("unique exchange communication tag (" +:+ pretty uniqCommunicationTag +:+ ") which is created from communicationTag ("
     +:+ pretty communicationTag +:+ ") already used for other GridBuffer exchange")%string.

Definition uniq_tag (communicationTag ex : Z) : Z := Z.lor (u32 (Z.shiftl communicationTag 5)) ex.

(** One round of the loop; [make ex tag sends] is the constructor call. *)
Definition add_direction (make : Z -> Z -> bool -> Store (V := V) -> outcome (Exchange * Store)) (communicationTag ex : Z) : Host GridState unit :=
  let uniqCommunicationTag := uniq_tag communicationTag ex in
  s ← get_state;
  (if negb s.(gb).(hasOneExchange) then
     let '(isUniqu, tags) := isTagUniqu uniqCommunicationTag s.(tags) in
     modify (fun s => mkGridState s.(gb) tags s.(gs_store)) ≫= fun _ =>
     if negb isUniqu then throw runtime_error (tag_used uniqCommunicationTag communicationTag) else mret tt
   else mret tt) ≫= fun _ =>
  modify (set_gb set_has) ≫= fun _ =>
  match s.(gb).(sendExchanges) !! ex with
  | Some _ => throw runtime_error "Exchange already added!"
  | None =>
      e ← construct (make ex uniqCommunicationTag true);
      modify (set_gb (put_send ex e)) ≫= fun _ =>
      recvex ← lift (getMirroredExchangeType ex);
      e ← construct (make recvex uniqCommunicationTag false);
      modify (set_gb (put_receive recvex e))
  end.

Definition add_directions (make : Z -> Z -> bool -> Store (V := V) -> outcome (Exchange * Store)) (receive : Mask) (communicationTag : Z) :
    Host GridState unit :=
  s ← get_state;
  let receiveMask := mask_join s.(gb).(receiveMask) receive in
  modify (set_gb (set_masks s.(gb).(sendMask) receiveMask)) ≫= fun _ =>
  sendMask ← lift (getMirroredMask receiveMask);
  modify (set_gb (set_masks sendMask receiveMask)) ≫= fun _ =>
  send ← lift (getMirroredMask receive);
  for_ (seqZ 1 (NumberOfExchanges commDim - 1))
    (fun ex => if isSet send ex then add_direction make communicationTag ex else mret tt).

Definition check_tag (communicationTag : Z) : Host GridState unit :=
  s ← get_state;
  if s.(gb).(hasOneExchange) && negb (communicationTag =? s.(gb).(lastUsedCommunicationTag))
  then throw runtime_error wrong_tag
  else modify (set_gb (set_tag communicationTag)).

Definition is_guard (a : Area) : bool := match a with GUARD => true | _ => false end.

(** [addExchange] in the buffer's own memory. *)
Definition addExchange (dataPlace : Area) (receive : Mask) (guardingCells : DataSpace) (communicationTag : Z)
    (sizeOnDeviceSend sizeOnDeviceReceive : bool) : Host GridState unit :=
  check_tag communicationTag ≫= fun _ =>
  s ← get_state;
  add_directions
    (fun ex tag sends =>
       Exchange_in sz isMpiDirectEnabled s.(gb).(g_buffers).(deviceBuffer) s.(gb).(gridLayout) guardingCells ex tag
         (if sends then (if is_guard dataPlace then BORDER else GUARD) else (if is_guard dataPlace then GUARD else BORDER))
         (if sends then sizeOnDeviceSend else sizeOnDeviceReceive))
    receive communicationTag.

(** [addExchangeBuffer], in memory of its own. *)
Definition addExchangeBuffer (receive : Mask) (dataSpace : DataSpace) (communicationTag : Z)
    (sizeOnDeviceSend sizeOnDeviceReceive : bool) : Host GridState unit :=
  check_tag communicationTag ≫= fun _ =>
  if negb (productOfComponents dataSpace =? 0) then
    add_directions
      (fun ex tag sends =>
         Exchange_own sz isMpiDirectEnabled dataSpace ex tag (if sends then sizeOnDeviceSend else sizeOnDeviceReceive))
      receive communicationTag
  else mret tt.

(** ** Communication *)

(** [communicationMask] is the grid controller's. *)
Definition getSendMask (communicationMask : Mask) (g : GridBuffer) : Mask := mask_meet communicationMask g.(sendMask).
Definition getReceiveMask (communicationMask : Mask) (g : GridBuffer) : Mask := mask_meet communicationMask g.(receiveMask).

Definition hasSendExchange (communicationMask : Mask) (g : GridBuffer) (ex : Z) : bool :=
  bool_decide (is_Some (g.(sendExchanges) !! ex)) && isSet (getSendMask communicationMask g) ex.
Definition hasReceiveExchange (communicationMask : Mask) (g : GridBuffer) (ex : Z) : bool :=
  bool_decide (is_Some (g.(receiveExchanges) !! ex)) && isSet (getReceiveMask communicationMask g) ex.

Inductive transfer : Type := Sending (ex : Z) | Receiving (ex : Z).

(** An operation given to [ControlContext::spawn]: its event and the events it waits for;
    [None] is the event that is complete from the start. *)
Record branch := mkBranch { br_event : nat; br_transfer : transfer; br_after : list (option nat) }.

(** The rounds of the loop; events are numbered in the order of their creation. *)
Definition spawn_receive (communicationMask : Mask) (previous : option nat) (i : Z) (acc : list branch * GridBuffer * nat) :
    list branch * GridBuffer * nat :=
  let '(bs, g, next) := acc in
  if hasReceiveExchange communicationMask g i
  then (bs ++ [mkBranch next (Receiving i) [previous; g.(receiveCompletions) !! i]],
        set_completions (<[i := next]> g.(receiveCompletions)) g.(sendCompletions) g, S next)
  else acc.
Definition spawn_send (communicationMask : Mask) (previous : option nat) (sendEx : Z) (acc : list branch * GridBuffer * nat) :
    list branch * GridBuffer * nat :=
  let '(bs, g, next) := acc in
  if hasSendExchange communicationMask g sendEx
  then (bs ++ [mkBranch next (Sending sendEx) [previous; g.(sendCompletions) !! sendEx]],
        set_completions g.(receiveCompletions) (<[sendEx := next]> g.(sendCompletions)) g, S next)
  else acc.

Fixpoint spawn_loop (communicationMask : Mask) (previous : option nat) (rounds : list Z) (acc : list branch * GridBuffer * nat) :
    outcome (list branch * GridBuffer * nat) :=
  match rounds with
  | [] => Ret acc
  | i :: rounds =>
      let acc := spawn_receive communicationMask previous i acc in
      sendEx ← getMirroredExchangeType i;
      spawn_loop communicationMask previous rounds (spawn_send communicationMask previous sendEx acc)
  end.

(** [spawnCommunication]: the branches, and the events [whenAll] joins. *)
Definition spawnCommunication (communicationMask : Mask) (previous : option nat) (g : GridBuffer) (next : nat) :
    outcome (list branch * list (option nat) * GridBuffer * nat) :=
  '(bs, g, next) ← spawn_loop communicationMask previous (seqZ 0 g.(maxExchange)) ([], g, next);
  Ret (bs, previous :: map (fun b => Some b.(br_event)) bs, g, next).
End GridBuffer.

(** ** The loop over directions *)

Lemma mirror_exchanges dim ex :
  (1 <= dim <= 3)%nat -> 1 <= ex < NumberOfExchanges dim ->
  1 <= ex < 27 /\ 1 <= mirror ex < NumberOfExchanges dim /\ mirror (mirror ex) = ex /\ getMirroredExchangeType ex = Ret (mirror ex).
Proof.
  intros Hd Hex.
  assert (Hn : (dim = 1%nat /\ NumberOfExchanges dim = 3) \/ (dim = 2%nat /\ NumberOfExchanges dim = 9) \/
    (dim = 3%nat /\ NumberOfExchanges dim = 27)).
  { assert (dim = 1%nat \/ dim = 2%nat \/ dim = 3%nat) as [->|[->| ->]] by lia; by vm_compute; auto. }
  assert (H27 : 1 <= ex < 27) by lia. destruct (mirror_table ex ltac:(lia)) as (E & _ & _ & Hm).
  split_and!; try done; try lia; destruct Hn as [[_ Hn]|[[_ Hn]|[_ Hn]]]; rewrite Hn in *.
  all: match type of Hex with _ /\ _ < ?n =>
    pose (P := fun i => (i =? 0) || ((1 <=? mirror i) && (mirror i <? n)));
    assert (HP : P ex = true) by (apply (for_exchanges P n); [by vm_compute|lia]); unfold P in HP; lia end.
Qed.

(** The least number with a property. *)
Lemma least_below (P : Z -> bool) n y :
  1 <= y < n -> P y = true -> exists x, 1 <= x < n /\ P x = true /\ forall j, 1 <= j < x -> P j = false.
Proof.
  intros Hy HP. assert (Hind : forall n, 1 <= n -> (forall j, 1 <= j < n -> P j = false) \/
    exists x, 1 <= x < n /\ P x = true /\ forall j, 1 <= j < x -> P j = false).
  { apply Zlt_lower_bound_ind with (z := 1). intros m IH Hm. destruct (Z.eq_dec m 1) as [->|Hne]; [left; lia|].
    destruct (IH (m - 1) ltac:(lia)) as [Hl|(x & Hx & Hr)]; [|right; exists x; split; [lia|done]].
    destruct (P (m - 1)) eqn:E; [right; exists (m - 1); split; [lia|done]|].
    left. intros j Hj. destruct (Z.eq_dec j (m - 1)) as [->|]; [done|apply Hl; lia]. }
  destruct (Hind (y + 1) ltac:(lia)) as [Hl|(x & Hx & Hr)]; [rewrite Hl in HP by lia; done|exists x; split; [lia|done]].
Qed.

Section Loop.
Context {V : Type} `{AM : AlpakaMemory V}.
Context (commDim : nat) (HcommDim : (1 <= commDim <= 3)%nat).
(** The constructor call, what it keeps of the memory, and the exchanges it makes. *)
Context (make : Z -> Z -> bool -> Store (V := V) -> outcome (Exchange * Store (V := V))).
Context (Q : Store (V := V) -> Prop) (R : Z -> Z -> bool -> Exchange -> Prop).
Context (make_ok : forall ex tag sends st, 1 <= ex < 27 -> Q st ->
  exists e st', make ex tag sends st = Ret (e, st') /\ Q st' /\ R ex tag sends e).
Context (send : Mask) (tag : Z).

(** The slots selected by [sel] hold new exchanges, the others are as before. *)
Definition slots_new (sel : Z -> bool) (P : Z -> Exchange -> Prop) (m0 m : gmap Z Exchange) : Prop :=
  forall ex, if sel ex then exists e, m !! ex = Some e /\ P ex e else m !! ex = m0 !! ex.

Definition in_loop (d : list Z) (ex : Z) : bool := bool_decide (ex ∈ d) && isSet send ex.
Definition mirrored (d : list Z) (i : Z) : bool := (1 <=? i) && (i <? 27) && in_loop d (mirror i).

(** The state after the directions [d]. *)
Record added (d : list Z) (s0 s : GridState) : Prop := {
  add_buffers : g_buffers (gb s) = g_buffers (gb s0);
  add_layout : gridLayout (gb s) = gridLayout (gb s0);
  add_tag : lastUsedCommunicationTag (gb s) = lastUsedCommunicationTag (gb s0);
  add_masks : sendMask (gb s) = sendMask (gb s0) /\ receiveMask (gb s) = receiveMask (gb s0);
  add_completions : receiveCompletions (gb s) = receiveCompletions (gb s0) /\ sendCompletions (gb s) = sendCompletions (gb s0);
  add_has : hasOneExchange (gb s) = hasOneExchange (gb s0) || existsb (isSet send) d;
  add_send : slots_new (in_loop d) (fun ex => R ex (uniq_tag tag ex) true) (sendExchanges (gb s0)) (sendExchanges (gb s));
  add_receive : slots_new (mirrored d) (fun i => R i (uniq_tag tag (mirror i)) false) (receiveExchanges (gb s0)) (receiveExchanges (gb s));
  add_max : maxExchange (gb s0) <= maxExchange (gb s) <= Z.max (maxExchange (gb s0)) (NumberOfExchanges commDim) /\
    (forall ex, in_loop d ex = true -> ex < maxExchange (gb s)) /\ (forall i, mirrored d i = true -> i < maxExchange (gb s));
  add_tags : hasOneExchange (gb s) = false -> tags s = tags s0;
  add_store : Q (gs_store s);
}.

(** One direction that can be added. *)
Lemma add_direction_run ex s :
  1 <= ex < NumberOfExchanges commDim -> sendExchanges (gb s) !! ex = None ->
  (hasOneExchange (gb s) = false -> uniq_tag tag ex ∉ tags s) -> Q (gs_store s) ->
  exists e1 e2 ts st, add_direction make tag ex s =
      (Ret tt, mkGridState (put_receive (mirror ex) e2 (put_send ex e1 (set_has (gb s)))) ts st) /\
    Q st /\ R ex (uniq_tag tag ex) true e1 /\ R (mirror ex) (uniq_tag tag ex) false e2.
Proof.
  intros Hex Hno Htag Hq. destruct (mirror_exchanges _ ex HcommDim Hex) as (H27 & Hm & _ & Em).
  destruct (make_ok ex (uniq_tag tag ex) true (gs_store s) H27 Hq) as (e1 & st1 & E1 & Q1 & R1).
  destruct (make_ok (mirror ex) (uniq_tag tag ex) false st1) as (e2 & st2 & E2 & Q2 & R2); [|done|].
  { destruct (mirror_exchanges _ (mirror ex) HcommDim Hm) as (? & _). done. }
  assert (Htail : forall ts,
    (match sendExchanges (gb s) !! ex with
     | Some _ => throw runtime_error "Exchange already added!"
     | None =>
         e ← construct (make ex (uniq_tag tag ex) true);
         modify (set_gb (put_send ex e)) ≫= fun _ =>
         recvex ← lift (getMirroredExchangeType ex);
         e ← construct (make recvex (uniq_tag tag ex) false);
         modify (set_gb (put_receive recvex e))
     end) (mkGridState (set_has (gb s)) ts (gs_store s)) =
    (Ret tt, mkGridState (put_receive (mirror ex) e2 (put_send ex e1 (set_has (gb s)))) ts st2)).
  { intros ts. rewrite Hno. unfold mbind, Host_bind, construct, modify, lift, set_gb. cbn [gs_store gb tags].
    rewrite E1, Em. cbn [gs_store gb tags]. by rewrite E2. }
  destruct (hasOneExchange (gb s)) eqn:Eh.
  - exists e1, e2, (tags s), st2. split; [|done]. unfold add_direction. rewrite <- (Htail (tags s)).
    unfold mbind at 1, Host_bind at 1. cbn [get_state]. rewrite Eh. done.
  - exists e1, e2, ({[uniq_tag tag ex]} ∪ tags s), st2. split; [|done]. unfold add_direction.
    rewrite <- (Htail ({[uniq_tag tag ex]} ∪ tags s)).
    unfold mbind at 1, Host_bind at 1. cbn [get_state]. rewrite Eh. cbn [negb]. unfold isTagUniqu.
    rewrite bool_decide_eq_true_2 by (by apply Htag). done.
Qed.

Lemma in_loop_snoc d x ex : in_loop (d ++ [x]) ex = in_loop d ex || ((ex =? x) && isSet send ex).
Proof.
  unfold in_loop. rewrite (bool_decide_ext (ex ∈ d ++ [x]) (ex ∈ d \/ ex = x)) by (rewrite elem_of_app, list_elem_of_singleton; done).
  rewrite bool_decide_or. destruct (Z.eqb_spec ex x); [rewrite (bool_decide_eq_true_2 (ex = x)) by done|rewrite (bool_decide_eq_false_2 (ex = x)) by done];
    destruct (bool_decide (ex ∈ d)), (isSet send ex); done.
Qed.

(** A new entry joins the slots. *)
Lemma slots_insert sel P m0 m x e :
  slots_new sel P m0 m -> sel x = false -> P x e -> slots_new (fun i => sel i || (i =? x)) P m0 (<[x := e]> m).
Proof.
  intros Hs Hx HP i. specialize (Hs i). destruct (decide (i = x)) as [->|Hne].
  - rewrite Hx, Z.eqb_refl. cbn. exists e. by rewrite lookup_insert_eq.
  - rewrite (proj2 (Z.eqb_neq i x)), orb_false_r by done. by rewrite lookup_insert_ne.
Qed.

Lemma slots_ext sel sel' P m0 m : (forall i, sel i = sel' i) -> slots_new sel P m0 m -> slots_new sel' P m0 m.
Proof. intros E Hs i. rewrite <- E. apply Hs. Qed.

Lemma mirror_eq i x : 1 <= x < 27 -> (1 <=? i) && (i <? 27) && (mirror i =? x) = (i =? mirror x).
Proof.
  intros Hx. destruct (mirror_exchanges 3 x ltac:(lia) ltac:(cbn; unfold BACK, FRONT; lia)) as (_ & Hm & Hmm & _).
  change (NumberOfExchanges 3) with 27 in Hm. destruct (Z.eqb_spec i (mirror x)) as [->|Hne].
  - rewrite Hmm, Z.eqb_refl, (proj2 (Z.leb_le _ _)), (proj2 (Z.ltb_lt _ _)) by lia. done.
  - destruct (Z.leb_spec 1 i); [|done]. destruct (Z.ltb_spec i 27); [|done]. cbn.
    apply Z.eqb_neq. intros E. destruct (mirror_exchanges 3 i ltac:(lia) ltac:(cbn; unfold BACK, FRONT; lia)) as (_ & _ & Hi & _).
    rewrite E in Hi. congruence.
Qed.

Lemma add_directions_run k s0 :
  k < NumberOfExchanges commDim -> Q (gs_store s0) ->
  (forall ex, 1 <= ex <= k -> isSet send ex = true -> sendExchanges (gb s0) !! ex = None) ->
  (hasOneExchange (gb s0) = false -> forall ex, 1 <= ex <= k -> isSet send ex = true ->
     (forall j, 1 <= j < ex -> isSet send j = false) -> uniq_tag tag ex ∉ tags s0) ->
  exists s, for_ (seqZ 1 k) (fun ex => if isSet send ex then add_direction make tag ex else mret tt) s0 = (Ret tt, s) /\
    added (seqZ 1 k) s0 s.
Proof.
  intros Hk Hq Hno Htag. apply (for_inv (fun d s => added d s0 s)).
  { constructor; try done; [by rewrite orb_false_r|..].
    - intros i. unfold mirrored, in_loop. cbn. by rewrite andb_false_r.
    - split; [lia|]. unfold mirrored, in_loop. cbn. split; [done|]. intros i. by rewrite andb_false_r. }
  intros d x rest s Hl [B L T M C Hh Hs Hr Hm Ht Hst].
  assert (Hpos : x = 1 + Z.of_nat (length d) /\ 1 <= x <= k /\ forall j, j ∈ d <-> 1 <= j < x).
  { assert (Hx : seqZ 1 k !! length d = Some x) by (rewrite <- Hl; apply list_lookup_middle; done).
    apply lookup_seqZ in Hx as [Ex Hlt]. split; [done|]. split; [lia|]. intros j.
    rewrite list_elem_of_lookup. split.
    - intros [q Hi]. pose proof (lookup_lt_Some _ _ _ Hi). rewrite <- (lookup_app_l d (x :: rest)), Hl in Hi by done.
      apply lookup_seqZ in Hi. lia.
    - intros Hj. exists (Z.to_nat (j - 1)). rewrite <- (lookup_app_l d (x :: rest)), Hl by lia.
      apply lookup_seqZ. lia. }
  destruct Hpos as (Ex & Hx & Hd). destruct (mirror_exchanges _ x HcommDim ltac:(lia)) as (H27 & Hmx & Hmm & _).
  assert (Hxd : in_loop d x = false) by (unfold in_loop; rewrite bool_decide_eq_false_2; [done|]; rewrite Hd; lia).
  destruct (isSet send x) eqn:Hset.
  - assert (Hnone : sendExchanges (gb s) !! x = None).
    { specialize (Hs x). rewrite Hxd in Hs. rewrite Hs. by apply Hno. }
    destruct (add_direction_run x s ltac:(lia) Hnone) as (e1 & e2 & ts & st & E & Hq' & R1 & R2); [|done|].
    { intros Hf. rewrite (Ht Hf). rewrite Hf in Hh. symmetry in Hh. apply orb_false_iff in Hh as [Hh0 Hex].
      apply (Htag Hh0 x Hx Hset). intros j Hj%Hd. destruct (isSet send j) eqn:Hsj; [|done].
      assert (existsb (isSet send) d = true); [|congruence]. apply existsb_exists. exists j. by rewrite <- list_elem_of_In. }
    eexists. split; [exact E|].
    assert (Hsel1 : forall i, in_loop d i || (i =? x) = in_loop (d ++ [x]) i).
    { intros i. rewrite in_loop_snoc. destruct (Z.eqb_spec i x) as [->|]; [by rewrite Hset|done]. }
    assert (Hsel2 : forall i, mirrored d i || (i =? mirror x) = mirrored (d ++ [x]) i).
    { intros i. unfold mirrored. rewrite in_loop_snoc, <- (mirror_eq i x H27).
      destruct ((1 <=? i) && (i <? 27)); [|done]. cbn. destruct (Z.eqb_spec (mirror i) x) as [->|]; [by rewrite Hset|done]. }
    assert (Hmd : mirrored d (mirror x) = false) by (unfold mirrored; by rewrite Hmm, Hxd, andb_false_r).
    constructor; cbn; try done; try apply M; try apply C.
    + rewrite existsb_app. cbn. rewrite Hset, orb_true_r. by rewrite orb_true_r.
    + apply (slots_ext _ _ _ _ _ Hsel1). by apply slots_insert.
    + apply (slots_ext _ _ _ _ _ Hsel2). apply slots_insert; [done|done|]. by rewrite Hmm.
    + destruct Hm as (M1 & M2 & M3). split; [lia|]. split.
      * intros i. rewrite <- Hsel1, orb_true_iff, Z.eqb_eq. intros [Hi| ->]; [specialize (M2 i Hi)|]; lia.
      * intros i. rewrite <- Hsel2, orb_true_iff, Z.eqb_eq. intros [Hi| ->]; [specialize (M3 i Hi)|]; lia.
  - exists s. split; [done|].
    assert (Hsel1 : forall i, in_loop d i = in_loop (d ++ [x]) i).
    { intros i. rewrite in_loop_snoc. destruct (Z.eqb_spec i x) as [->|]; [rewrite Hset|]; by rewrite orb_false_r. }
    assert (Hsel2 : forall i, mirrored d i = mirrored (d ++ [x]) i) by (intros i; unfold mirrored; by rewrite <- Hsel1).
    constructor; try done.
    + rewrite existsb_app. cbn. by rewrite Hset, !orb_false_r.
    + by apply (slots_ext _ _ _ _ _ Hsel1).
    + by apply (slots_ext _ _ _ _ _ Hsel2).
    + destruct Hm as (M1 & M2 & M3). split; [done|]. split; [intros i; rewrite <- Hsel1; apply M2|intros i; rewrite <- Hsel2; apply M3].
Qed.
End Loop.

(** ** The exchanges of a grid buffer *)

Section Registry.
Context {V : Type} `{AM : AlpakaMemory V} {AML : AlpakaMemoryLaws V} (sz : Z) (Hsz : 0 < sz) (mpi : bool).
Context (commDim : nat) (HcommDim : (1 <= commDim <= 3)%nat).

(** Masks and slots agree: there is an exchange to receive from a direction exactly when
    the receive mask has it, and then one to send in the mirrored direction. *)
Record slots_ok (g : GridBuffer) : Prop := {
  sl_send ex : is_Some (sendExchanges g !! ex) -> 1 <= ex < NumberOfExchanges commDim /\ ex < maxExchange g;
  sl_receive ex : is_Some (receiveExchanges g !! ex) -> 1 <= ex < NumberOfExchanges commDim /\ ex < maxExchange g;
  sl_receive_mask ex : 1 <= ex < NumberOfExchanges commDim -> isSet (receiveMask g) ex = bool_decide (is_Some (receiveExchanges g !! ex));
  sl_send_mask ex : 1 <= ex < NumberOfExchanges commDim -> isSet (sendMask g) ex = bool_decide (is_Some (sendExchanges g !! ex));
  sl_mirror ex : 1 <= ex < NumberOfExchanges commDim -> isSet (sendMask g) ex = isSet (receiveMask g) (mirror ex);
  sl_has : hasOneExchange g = false -> sendExchanges g = ∅;
  sl_max : 0 <= maxExchange g <= NumberOfExchanges commDim;
}.

(** The grid's buffer lies in the store. *)
Record grid_ok (size0 offset0 : MemSpace) (gc : DataSpace) (s : GridState) : Prop := {
  gr_on : buffer_on sz size0 offset0 (deviceBuffer (g_buffers (gb s)));
  gr_extents : m_capacityND (deviceBuffer (g_buffers (gb s))) = sizeND (gridLayout (gb s));
  gr_layout : layout_ok (gridLayout (gb s)) gc;
  gr_alloc : (b_alloc (deviceBuffer (g_buffers (gb s))) < next_alloc (gs_store s))%nat;
}.

(** What [addExchange] hands the constructor, and what comes back. *)
Definition area_of (dataPlace : Area) (sends : bool) : Area :=
  if sends then (if is_guard dataPlace then BORDER else GUARD) else (if is_guard dataPlace then GUARD else BORDER).

Definition made (s : GridState) (size0 offset0 : MemSpace) (dataPlace : Area) (gc : DataSpace) (ex tag : Z) (sends : bool) (e : Exchange) : Prop :=
  exchange_new sz mpi (b_alloc (deviceBuffer (g_buffers (gb s)))) size0
    (vadd offset0 (exchangeTypeToOffset ex (gridLayout (gb s)) gc (area_of dataPlace sends)))
    (exchange_extent (gridLayout (gb s)) gc ex) ex tag e.

Definition grown (s : GridState) (st : Store) : Prop :=
  (next_alloc (gs_store s) <= next_alloc st)%nat /\
  (forall x, (b_alloc x < next_alloc (gs_store s))%nat -> mem_of st x = mem_of (gs_store s) x).

Lemma make_made size0 offset0 dataPlace gc s sod sodr ex tag sends st :
  grid_ok size0 offset0 gc s -> 1 <= ex < 27 -> grown s st ->
  exists e st', Exchange_in sz mpi (deviceBuffer (g_buffers (gb s))) (gridLayout (gb s)) gc ex tag
      (area_of dataPlace sends) (if sends then sod else sodr : bool) st = Ret (e, st') /\
    grown s st' /\ made s size0 offset0 dataPlace gc ex tag sends e.
Proof.
  intros [Ho Ec Hl Ha] Hex [Hg Hm].
  destruct (Exchange_in_new sz mpi size0 offset0 (deviceBuffer (g_buffers (gb s))) (gridLayout (gb s)) gc ex tag (area_of dataPlace sends)
    (if sends then sod else sodr) st Ho Ec Hl Hex ltac:(lia)) as (e & st' & E & He & Hn & Hk).
  exists e, st'. split; [exact E|]. split; [|exact He]. split; [lia|]. intros x Hx. rewrite Hk by lia. by apply Hm.
Qed.

Lemma getMirroredMask_set m :
  exists r, getMirroredMask m = Ret r /\ forall ex, 1 <= ex < 27 -> isSet r ex = isSet m (mirror ex).
Proof.
  destruct (getMirroredMask_spec m 1 ltac:(lia)) as (r & E & _). exists r. split; [done|]. intros ex Hex.
  destruct (getMirroredMask_spec m ex Hex) as (r' & E' & H). rewrite E in E'. by injection E' as <-.
Qed.

(** The state the loop over directions starts in. *)
Definition prepared (tag : Z) (send receive : Mask) (s : GridState) : GridState :=
  set_gb (set_masks send receive) (set_gb (set_tag tag) s).

Lemma addExchange_prepare dataPlace receive gc tag sod sodr s :
  (hasOneExchange (gb s) = true -> tag = lastUsedCommunicationTag (gb s)) ->
  exists sends send, getMirroredMask (mask_join (receiveMask (gb s)) receive) = Ret sends /\ getMirroredMask receive = Ret send /\
    addExchange sz mpi commDim dataPlace receive gc tag sod sodr s =
    for_ (seqZ 1 (NumberOfExchanges commDim - 1))
      (fun ex => if isSet send ex then
         add_direction (fun ex tag sends => Exchange_in sz mpi (deviceBuffer (g_buffers (gb s))) (gridLayout (gb s)) gc ex tag
            (area_of dataPlace sends) (if sends then sod else sodr)) tag ex else mret tt)
      (prepared tag sends (mask_join (receiveMask (gb s)) receive) s).
Proof.
  intros Ht. destruct (getMirroredMask_set (mask_join (receiveMask (gb s)) receive)) as (sends & Es & _).
  destruct (getMirroredMask_set receive) as (send & Er & _). exists sends, send. split; [done|]. split; [done|].
  unfold addExchange, check_tag, add_directions. unfold mbind, Host_bind. cbn [get_state].
  assert (Hc : hasOneExchange (gb s) && negb (tag =? lastUsedCommunicationTag (gb s)) = false).
  { destruct (hasOneExchange (gb s)); [|done]. by rewrite (Ht eq_refl), Z.eqb_refl. }
  rewrite Hc. cbn [modify set_gb gb receiveMask set_tag lift]. rewrite Es. cbn [modify]. rewrite Er. done.
Qed.

(** The receive side of what adding does to the slots of a direction. *)
Definition direction_added (s s' : GridState) (size0 offset0 : MemSpace) (dataPlace : Area) (gc : DataSpace) (receive : Mask)
    (tag ex : Z) : Prop :=
  if isSet receive ex
  then exists e1 e2, receiveExchanges (gb s') !! ex = Some e2 /\ sendExchanges (gb s') !! mirror ex = Some e1 /\
         made s size0 offset0 dataPlace gc ex (uniq_tag tag (mirror ex)) false e2 /\
         made s size0 offset0 dataPlace gc (mirror ex) (uniq_tag tag (mirror ex)) true e1
  else receiveExchanges (gb s') !! ex = receiveExchanges (gb s) !! ex /\
       sendExchanges (gb s') !! mirror ex = sendExchanges (gb s) !! mirror ex.

(** The tag of the first direction to be added is not in use. *)
Definition tag_free (s : GridState) (receive : Mask) (tag : Z) : Prop :=
  hasOneExchange (gb s) = false ->
  forall ex, 1 <= ex < NumberOfExchanges commDim -> isSet receive (mirror ex) = true ->
    (forall j, 1 <= j < ex -> isSet receive (mirror j) = false) -> uniq_tag tag ex ∉ tags s.

Lemma in_loop_all send ex :
  in_loop send (seqZ 1 (NumberOfExchanges commDim - 1)) ex = (1 <=? ex) && (ex <? NumberOfExchanges commDim) && isSet send ex.
Proof.
  unfold in_loop. f_equal. rewrite (bool_decide_ext (ex ∈ _) (1 <= ex < NumberOfExchanges commDim)) by (rewrite elem_of_seqZ; lia).
  destruct (Z.leb_spec 1 ex), (Z.ltb_spec ex (NumberOfExchanges commDim)); cbn; case_bool_decide; lia.
Qed.

Lemma slots_domain sel P m0 m ex :
  slots_new sel P m0 m -> is_Some (m !! ex) <-> sel ex = true \/ is_Some (m0 !! ex) /\ sel ex = false.
Proof.
  intros Hs. specialize (Hs ex). destruct (sel ex).
  - destruct Hs as (e & -> & _). split; [by left|by eauto].
  - rewrite Hs. split; [by right|by intros [?|[? _]]].
Qed.

Lemma send_receive_slots s : slots_ok (gb s) -> forall ex, 1 <= ex < NumberOfExchanges commDim ->
  isSet (receiveMask (gb s)) (mirror ex) = false -> sendExchanges (gb s) !! ex = None.
Proof.
  intros Hs ex Hex Hr. rewrite <- (sl_mirror _ Hs), (sl_send_mask _ Hs) in Hr by done.
  apply bool_decide_eq_false in Hr. by apply eq_None_not_Some.
Qed.

(** Adding keeps the slots in agreement with the masks. *)
Lemma added_slots_ok (R : Z -> Z -> bool -> Exchange -> Prop) Q tag receive sends send s s' :
  slots_ok (gb s) ->
  getMirroredMask (mask_join (receiveMask (gb s)) receive) = Ret sends -> getMirroredMask receive = Ret send ->
  added commDim Q R send tag (seqZ 1 (NumberOfExchanges commDim - 1)) (prepared tag sends (mask_join (receiveMask (gb s)) receive) s) s' ->
  slots_ok (gb s').
Proof.
  intros Hs Es Er [_ _ _ [M1 M2] _ Hh Hse Hre (X1 & X2 & X3) _ _]. cbn in *.
  assert (Hset : forall ex, 1 <= ex < 27 -> isSet sends ex = isSet (receiveMask (gb s)) (mirror ex) || isSet receive (mirror ex)).
  { intros ex Hex. destruct (getMirroredMask_set (mask_join (receiveMask (gb s)) receive)) as (r & E & H).
    rewrite Es in E. injection E as <-. rewrite (H ex Hex), isSet_join; [done|].
    destruct (mirror_exchanges 3 ex ltac:(lia) Hex) as (_ & ? & _). lia. }
  assert (Hsend : forall ex, 1 <= ex < 27 -> isSet send ex = isSet receive (mirror ex)).
  { intros ex Hex. destruct (getMirroredMask_set receive) as (r & E & H). rewrite Er in E. injection E as <-. by apply H. }
  assert (Hin : forall ex, 1 <= ex < NumberOfExchanges commDim ->
    in_loop send (seqZ 1 (NumberOfExchanges commDim - 1)) ex = isSet receive (mirror ex)).
  { intros ex Hex. rewrite in_loop_all, Hsend by (by eapply mirror_exchanges).
    by rewrite (proj2 (Z.leb_le _ _)), (proj2 (Z.ltb_lt _ _)) by lia. }
  assert (Hmir : forall ex, 1 <= ex < NumberOfExchanges commDim ->
    mirrored send (seqZ 1 (NumberOfExchanges commDim - 1)) ex = isSet receive ex).
  { intros ex Hex. destruct (mirror_exchanges _ ex HcommDim Hex) as (? & Hm & Hmm & _). unfold mirrored.
    rewrite Hin, Hmm by done. by rewrite (proj2 (Z.leb_le _ _)), (proj2 (Z.ltb_lt _ _)) by lia. }
  assert (Hloop : forall ex, in_loop send (seqZ 1 (NumberOfExchanges commDim - 1)) ex = true -> 1 <= ex < NumberOfExchanges commDim).
  { intros ex. rewrite in_loop_all. lia. }
  assert (Hloop' : forall ex, mirrored send (seqZ 1 (NumberOfExchanges commDim - 1)) ex = true -> 1 <= ex < NumberOfExchanges commDim).
  { intros ex. unfold mirrored. rewrite andb_true_iff. intros [He Hl%Hloop]. destruct (mirror_exchanges 3 ex ltac:(lia)) as (_ & _ & Hmm & _).
    { change (NumberOfExchanges 3) with 27. lia. }
    destruct (mirror_exchanges _ _ HcommDim Hl) as (_ & Hx & _). rewrite Hmm in Hx. lia. }
  constructor.
  - intros ex Hex. apply (slots_domain _ _ _ _ ex Hse) in Hex as [Hx|[Hx _]]; [split; [by apply Hloop|by apply X2]|].
    destruct (sl_send _ Hs ex Hx). lia.
  - intros ex Hex. apply (slots_domain _ _ _ _ ex Hre) in Hex as [Hx|[Hx _]]; [split; [by apply Hloop'|by apply X3]|].
    destruct (sl_receive _ Hs ex Hx). lia.
  - intros ex Hex. rewrite M2, isSet_join, (sl_receive_mask _ Hs ex Hex) by lia.
    specialize (Hre ex). rewrite (Hmir ex Hex) in Hre. destruct (isSet receive ex).
    + destruct Hre as (e & -> & _). by rewrite orb_true_r.
    + by rewrite Hre, orb_false_r.
  - intros ex Hex. destruct (mirror_exchanges _ ex HcommDim Hex) as (H27 & Hm & Hmm & _).
    rewrite M1, Hset, <- (sl_mirror _ Hs ex), (sl_send_mask _ Hs ex Hex) by done.
    specialize (Hse ex). rewrite (Hin ex Hex) in Hse. destruct (isSet receive (mirror ex)).
    + destruct Hse as (e & -> & _). by rewrite orb_true_r.
    + by rewrite Hse, orb_false_r.
  - intros ex Hex. destruct (mirror_exchanges _ ex HcommDim Hex) as (H27 & Hm & _).
    rewrite M1, M2, Hset, isSet_join by (done || lia). done.
  - rewrite Hh. intros [Hf Hn]%orb_false_iff. apply map_eq. intros ex. specialize (Hse ex).
    destruct (in_loop send _ ex) eqn:Hi.
    + exfalso. unfold in_loop in Hi. apply andb_true_iff in Hi as [Hi1%bool_decide_eq_true Hi2].
      assert (existsb (isSet send) (seqZ 1 (NumberOfExchanges commDim - 1)) = true); [|congruence].
      apply existsb_exists. exists ex. by rewrite <- list_elem_of_In.
    + rewrite Hse. by rewrite (sl_has _ Hs Hf).
  - pose proof (sl_max _ Hs). lia.
Qed.

Lemma free_send tag receive send s :
  getMirroredMask receive = Ret send -> tag_free s receive tag ->
  hasOneExchange (gb s) = false -> forall ex, 1 <= ex <= NumberOfExchanges commDim - 1 -> isSet send ex = true ->
  (forall j, 1 <= j < ex -> isSet send j = false) -> uniq_tag tag ex ∉ tags s.
Proof.
  intros Er Hf Hh ex Hex Hset Hfirst. destruct (getMirroredMask_set receive) as (r & E & H). rewrite Er in E. injection E as <-.
  apply Hf; [done|lia| |].
  - rewrite <- H; [done|]. destruct (mirror_exchanges _ ex HcommDim ltac:(lia)) as (? & _). done.
  - intros j Hj. rewrite <- H; [by apply Hfirst|]. destruct (mirror_exchanges _ j HcommDim ltac:(lia)) as (? & _). done.
Qed.

(** Adding new directions. *)
Lemma addExchange_ok size0 offset0 dataPlace receive gc tag sod sodr s :
  grid_ok size0 offset0 gc s -> slots_ok (gb s) ->
  (hasOneExchange (gb s) = true -> tag = lastUsedCommunicationTag (gb s)) -> tag_free s receive tag ->
  (forall ex, 1 <= ex < NumberOfExchanges commDim -> isSet receive ex = true -> isSet (receiveMask (gb s)) ex = false) ->
  exists s', addExchange sz mpi commDim dataPlace receive gc tag sod sodr s = (Ret tt, s') /\
     slots_ok (gb s') /\ grid_ok size0 offset0 gc s' /\ lastUsedCommunicationTag (gb s') = tag /\
     receiveMask (gb s') = mask_join (receiveMask (gb s)) receive /\
     (forall ex, 1 <= ex < NumberOfExchanges commDim -> direction_added s s' size0 offset0 dataPlace gc receive tag ex) /\
     grown s (gs_store s') /\ g_buffers (gb s') = g_buffers (gb s) /\ gridLayout (gb s') = gridLayout (gb s).
Proof.
  intros Hg Hs Ht Hfree Hnew. destruct (addExchange_prepare dataPlace receive gc tag sod sodr s Ht) as (sends & send & Es & Er & ->).
  set (make := fun ex tag sends => _). set (s0 := prepared _ _ _ _).
  destruct (getMirroredMask_set receive) as (r & E & Hr). rewrite Er in E. injection E as <-.
  destruct (add_directions_run commDim HcommDim make (grown s) (made s size0 offset0 dataPlace gc)
    (fun ex tag sends st Hex Hq => make_made size0 offset0 dataPlace gc s sod sodr ex tag sends st Hg Hex Hq)
    send tag (NumberOfExchanges commDim - 1) s0) as (s' & Erun & Hadd); [lia|split; [cbn; lia|done]| | |].
  { intros ex Hex Hset. destruct (mirror_exchanges _ ex HcommDim ltac:(lia)) as (H27 & Hm & _).
    apply (send_receive_slots s Hs ex); [lia|]. apply Hnew; [done|]. by rewrite <- (Hr ex H27). }
  { exact (free_send tag receive send s Er Hfree). }
  exists s'. split; [exact Erun|]. split; [by eapply added_slots_ok|].
  destruct Hadd as [B L T [_ M2] _ _ Hse Hre _ _ Hq]. cbn in *. split_and!; try done.
  - destruct Hg as [G1 G2 G3 G4]. constructor; rewrite ?B, ?L; try done. destruct Hq as [Hq _]. cbn in *. lia.
  - intros ex Hex. destruct (mirror_exchanges _ ex HcommDim Hex) as (H27 & Hm & Hmm & _).
    destruct (mirror_exchanges _ _ HcommDim Hm) as (Hm27 & _).
    specialize (Hre ex). specialize (Hse (mirror ex)). unfold mirrored in Hre.
    rewrite in_loop_all, (Hr (mirror ex) Hm27), Hmm in Hre, Hse.
    rewrite (proj2 (Z.leb_le 1 (mirror ex))), (proj2 (Z.ltb_lt (mirror ex) _)) in Hre, Hse by lia.
    rewrite (proj2 (Z.leb_le 1 ex)), (proj2 (Z.ltb_lt ex 27)) in Hre by lia. cbn [andb] in Hre, Hse.
    unfold direction_added. destruct (isSet receive ex); [|done].
    destruct Hre as (e2 & E2 & R2), Hse as (e1 & E1 & R1). exists e1, e2. done.
Qed.

(** Adding a direction that has an exchange already, whatever else the mask has. *)
Lemma addExchange_duplicate size0 offset0 dataPlace receive gc tag sod sodr s ex0 :
  grid_ok size0 offset0 gc s -> slots_ok (gb s) -> hasOneExchange (gb s) = true -> tag = lastUsedCommunicationTag (gb s) ->
  1 <= ex0 < NumberOfExchanges commDim -> isSet receive ex0 = true -> isSet (receiveMask (gb s)) ex0 = true ->
  exists s', addExchange sz mpi commDim dataPlace receive gc tag sod sodr s = (Throw runtime_error "Exchange already added!", s').
Proof.
  intros Hg Hs Hh Ht Hex0 Hr0 Hm0.
  destruct (addExchange_prepare dataPlace receive gc tag sod sodr s (fun _ => Ht)) as (sends & send & Es & Er & ->).
  set (make := fun ex tag sends => _). set (s0 := prepared _ _ _ _).
  destruct (getMirroredMask_set receive) as (r & E & Hr). rewrite Er in E. injection E as <-.
  pose (taken := fun ex => isSet send ex && bool_decide (is_Some (sendExchanges (gb s) !! ex))).
  assert (Hx : exists x, 1 <= x < NumberOfExchanges commDim /\ taken x = true /\ forall j, 1 <= j < x -> taken j = false).
  { assert (H0 : exists y, 1 <= y < NumberOfExchanges commDim /\ taken y = true).
    { destruct (mirror_exchanges _ ex0 HcommDim Hex0) as (H27 & Hm & Hmm & _). exists (mirror ex0). split; [done|].
      unfold taken. destruct (mirror_exchanges _ _ HcommDim Hm) as (Hm27 & _).
      rewrite Hr, Hmm, Hr0, <- (sl_send_mask _ Hs), (sl_mirror _ Hs), Hmm by done. done. }
    destruct H0 as (y & Hy & Hty). by eapply least_below. }
  destruct Hx as (x & Hx & Htx & Hfirst). unfold taken in Htx. apply andb_true_iff in Htx as [Hsx [e He]%bool_decide_eq_true].
  destruct (add_directions_run commDim HcommDim make (grown s) (made s size0 offset0 dataPlace gc)
    (fun ex tag sends st Hex Hq => make_made size0 offset0 dataPlace gc s sod sodr ex tag sends st Hg Hex Hq)
    send tag (x - 1) s0) as (s1 & Erun & Hadd); [lia|split; [cbn; lia|done]| |cbn; congruence|].
  { intros ex Hex Hset. specialize (Hfirst ex ltac:(lia)). unfold taken in Hfirst. rewrite Hset in Hfirst. cbn in Hfirst.
    apply bool_decide_eq_false in Hfirst. by apply eq_None_not_Some. }
  replace (NumberOfExchanges commDim - 1) with (x - 1 + (NumberOfExchanges commDim - x)) by lia.
  rewrite seqZ_app by lia. rewrite for_app. unfold mbind at 1, Host_bind at 1. rewrite Erun.
  replace (1 + (x - 1)) with x by lia. rewrite seqZ_cons by lia. cbn [for_]. rewrite Hsx.
  destruct Hadd as [_ _ _ _ _ Hhas Hse _ _ _ _]. cbn in Hhas. rewrite Hh in Hhas. cbn in Hhas.
  specialize (Hse x). unfold in_loop in Hse. rewrite bool_decide_eq_false_2 in Hse by (rewrite elem_of_seqZ; lia). cbn in Hse.
  rewrite He in Hse. unfold add_direction, mbind, Host_bind. cbn [get_state]. rewrite Hhas. cbn. rewrite Hse. by eexists.
Qed.
(** C27: adding exchanges.  On a grid buffer whose slots and masks agree: with directions it
    does not receive from yet, the tag it has used before if it has an exchange, and
    otherwise a tag whose first direction is not in use, [addExchange] succeeds.  Every new
    direction gets an exchange to receive from it and one to send in the mirrored direction,
    both with one tag and with the boxes of their areas; all others stay, slots and masks
    agree again, and the memory of earlier buffers is as it was.  With another tag it throws
    and changes nothing, and it throws if a direction has an exchange already. *)
Theorem addExchange_adds size0 offset0 dataPlace receive gc tag sod sodr s :
  grid_ok size0 offset0 gc s -> slots_ok (gb s) ->
  let run := addExchange sz mpi commDim dataPlace receive gc tag sod sodr s in
  let right_tag := hasOneExchange (gb s) = true -> tag = lastUsedCommunicationTag (gb s) in
  (hasOneExchange (gb s) = true -> tag <> lastUsedCommunicationTag (gb s) -> run = (Throw runtime_error wrong_tag, s)) /\
  (right_tag -> forall ex, 1 <= ex < NumberOfExchanges commDim -> isSet receive ex = true -> isSet (receiveMask (gb s)) ex = true ->
     exists s', run = (Throw runtime_error "Exchange already added!", s')) /\
  (right_tag -> tag_free s receive tag ->
   (forall ex, 1 <= ex < NumberOfExchanges commDim -> isSet receive ex = true -> isSet (receiveMask (gb s)) ex = false) ->
   exists s', run = (Ret tt, s') /\
     slots_ok (gb s') /\ grid_ok size0 offset0 gc s' /\ lastUsedCommunicationTag (gb s') = tag /\
     receiveMask (gb s') = mask_join (receiveMask (gb s)) receive /\
     (forall ex, 1 <= ex < NumberOfExchanges commDim -> direction_added s s' size0 offset0 dataPlace gc receive tag ex) /\
     grown s (gs_store s') /\ g_buffers (gb s') = g_buffers (gb s) /\ gridLayout (gb s') = gridLayout (gb s)).
Proof.
  intros Hg Hs run right_tag. split; [|split].
  - intros Hh Hne. unfold run, addExchange, check_tag. unfold mbind, Host_bind. cbn [get_state].
    rewrite Hh, (proj2 (Z.eqb_neq _ _)) by done. done.
  - intros Ht ex Hex Hr Hm. assert (Hh : hasOneExchange (gb s) = true).
    { destruct (hasOneExchange (gb s)) eqn:Hh; [done|]. pose proof (sl_has _ Hs Hh) as Hemp.
      destruct (mirror_exchanges _ ex HcommDim Hex) as (_ & Hme & Hmm & _).
      rewrite <- Hmm, <- (sl_mirror _ Hs), (sl_send_mask _ Hs), Hemp in Hm by done. by rewrite lookup_empty in Hm. }
    by apply (addExchange_duplicate size0 offset0 _ _ _ _ _ _ _ ex); auto.
  - apply addExchange_ok; done.
Qed.

(** A new grid buffer. *)
Lemma layout_proper l gc : layout_ok l gc -> proper (sizeND l).
Proof.
  intros [Hd Hl]. unfold proper, sizeND, vadd. pose proof (Forall3_length_lm _ _ _ _ Hl). pose proof (Forall3_length_lr _ _ _ _ Hl).
  rewrite !length_zip_with. split; [lia|]. clear -Hl. induction Hl as [|n g c ns gs cs H Hl IH]; cbn; constructor; [lia|done].
Qed.

Lemma GridBuffer_new_ok l gc sod ts st :
  layout_ok l gc ->
  exists s, GridBuffer_new sz l sod ts st = Ret s /\ grid_ok (sizeND l) (create (length (sizeND l)) 0) gc s /\ slots_ok (gb s) /\
    hasOneExchange (gb s) = false /\ gridLayout (gb s) = l /\ tags s = ts /\ receiveMask (gb s) = Mask_empty.
Proof.
  intros Hl. pose proof (layout_proper l gc Hl) as Hp. destruct (proper_pos _ Hp) as [Hne Hpos].
  unfold GridBuffer_new, HostDeviceBuffer_new, HostBuffer_new, DeviceBuffer_new.
  destruct (new_whole sz (sizeND l) false st Hp) as (h & st1 & E1 & _ & _ & _ & A1 & N1 & _ & _). rewrite E1. cbn [mbind outcome_bind].
  destruct (new_whole sz (sizeND l) sod st1 Hp) as (d & st2 & E2 & [Hon _] & Ec & _ & A2 & N2 & _ & _). rewrite E2. cbn [mbind outcome_bind].
  eexists. split; [reflexivity|]. cbn. split_and!; try done.
  - constructor; cbn; [by rewrite <- Ec|done|done|lia].
  - constructor; cbn; try done; try (intros ex [? Hx]; by rewrite lookup_empty in Hx).
    destruct commDim as [|[|[|[|]]]]; done || lia.
Qed.
End Registry.

(** ** Started transfers *)

Section Spawn.
Context {V : Type} `{AM : AlpakaMemory V} (communicationMask : Mask).

Definition has_transfer (g : GridBuffer) (t : transfer) : bool :=
  match t with Sending ex => hasSendExchange communicationMask g ex | Receiving ex => hasReceiveExchange communicationMask g ex end.
Definition completion (g : GridBuffer) (t : transfer) : option nat :=
  match t with Sending ex => sendCompletions g !! ex | Receiving ex => receiveCompletions g !! ex end.

Definition spawn_one (previous : option nat) (acc : list branch * GridBuffer * nat) (t : transfer) : list branch * GridBuffer * nat :=
  match t with
  | Sending ex => spawn_send communicationMask previous ex acc
  | Receiving ex => spawn_receive communicationMask previous ex acc
  end.

#[export] Instance transfer_eq_dec : EqDecision transfer.
Proof. solve_decision. Defined.

(** The events started for the transfers of a list without repetition. *)
Definition started (previous : option nat) (ts : list transfer) (g : GridBuffer) (next : nat) (bs : list branch) (g' : GridBuffer) : Prop :=
  map br_transfer bs = filter (fun t => has_transfer g t = true) ts /\
  map br_event bs = seq next (length bs) /\
  Forall (fun b => br_after b = [previous; completion g (br_transfer b)] /\ completion g' (br_transfer b) = Some (br_event b)) bs /\
  (forall t, t ∉ map br_transfer bs -> completion g' t = completion g t) /\
  (exists r s, g' = set_completions r s g).

Lemma spawn_one_step previous bs g next t :
  spawn_one previous (bs, g, next) t =
  if has_transfer g t then
    (bs ++ [mkBranch next t [previous; completion g t]],
     match t with
     | Sending ex => set_completions (receiveCompletions g) (<[ex := next]> (sendCompletions g)) g
     | Receiving ex => set_completions (<[ex := next]> (receiveCompletions g)) (sendCompletions g) g
     end, S next)
  else (bs, g, next).
Proof. destruct t; cbn; by case_match. Qed.

Lemma fold_spawn previous ts bs g next :
  NoDup ts ->
  exists new g', foldl (spawn_one previous) (bs, g, next) ts = (bs ++ new, g', next + length new)%nat /\
    started previous ts g next new g'.
Proof.
  revert bs g next. induction ts as [|t ts IH]; intros bs g next Hnd.
  { exists [], g. rewrite app_nil_r, Nat.add_0_r. split; [done|]. split_and!; try done. exists (receiveCompletions g), (sendCompletions g). by destruct g. }
  apply list.NoDup_cons in Hnd as [Ht Hnd]. cbn [foldl]. rewrite spawn_one_step. unfold started. rewrite filter_cons.
  destruct (has_transfer g t) eqn:Hh; [rewrite decide_True by done|rewrite decide_False by done; by apply IH].
  set (g1 := match t with Sending _ => _ | Receiving _ => _ end).
  destruct (IH (bs ++ [mkBranch next t [previous; completion g t]]) g1 (S next) Hnd) as (new & g' & E & (T & Ev & A & O & (r & s & G))).
  assert (H1 : forall t', has_transfer g1 t' = has_transfer g t') by (intros t'; subst g1; by destruct t, t').
  assert (Hc : forall t', t' <> t -> completion g1 t' = completion g t').
  { intros t' Hne. subst g1. destruct t, t'; cbn; try done; rewrite lookup_insert_ne; congruence. }
  assert (Hct : completion g1 t = Some next) by (subst g1; destruct t; cbn; by rewrite lookup_insert_eq).
  assert (Hsub : forall t', t' ∈ map br_transfer new -> t' ∈ ts).
  { intros t'. rewrite T, list_elem_of_filter. tauto. }
  exists (mkBranch next t [previous; completion g t] :: new), g'. split; [rewrite E, <- app_assoc; cbn; do 2 f_equal; lia|].
  split_and!.
  - cbn. f_equal. rewrite T. apply list_filter_iff. intros t'. by rewrite H1.
  - cbn. by rewrite Ev.
  - constructor.
    + cbn. split; [done|]. rewrite O; [done|]. intros Hx%Hsub. done.
    + rewrite list.Forall_forall in A |- *. intros b Hb. destruct (A b Hb) as [A1 A2]. split; [|done].
      rewrite A1, Hc; [done|]. intros E'. apply Ht, Hsub. rewrite <- E'. apply list_elem_of_fmap. by exists b.
  - intros t' Hx. cbn in Hx. rewrite not_elem_of_cons in Hx. rewrite O, Hc; tauto.
  - exists r, s. rewrite G. subst g1. by destruct t.
Qed.

Definition round_transfers (rounds : list Z) : list transfer := rounds ≫= fun i => [Receiving i; Sending (mirror i)].

Lemma spawn_loop_fold previous rounds acc :
  Forall (fun i => 0 <= i < 27) rounds ->
  spawn_loop communicationMask previous rounds acc = Ret (foldl (spawn_one previous) acc (round_transfers rounds)).
Proof.
  intros H. revert acc. induction H as [|i rounds Hi H IH]; intros acc; [done|]. cbn [spawn_loop].
  destruct (mirror_table i Hi) as (-> & _). cbn [mbind outcome_bind]. rewrite IH. done.
Qed.

Lemma round_transfers_spec rounds :
  Forall (fun i => 0 <= i < 27) rounds -> NoDup rounds ->
  NoDup (round_transfers rounds) /\
  (forall i, Receiving i ∈ round_transfers rounds <-> i ∈ rounds) /\
  (forall ex, Sending ex ∈ round_transfers rounds <-> exists i, i ∈ rounds /\ ex = mirror i).
Proof.
  intros Hf Hnd.
  assert (Hr : forall l i, Receiving i ∈ round_transfers l <-> i ∈ l).
  { intros l i. unfold round_transfers. rewrite list_elem_of_bind. split.
    - intros (j & Hj & Hin). rewrite !elem_of_cons, elem_of_nil in Hj. destruct Hj as [[= ->]|[?|[]]]; done.
    - intros Hi. exists i. split; [left|done]. }
  assert (Hs : forall l ex, Sending ex ∈ round_transfers l <-> exists i, i ∈ l /\ ex = mirror i).
  { intros l ex. unfold round_transfers. rewrite list_elem_of_bind. split.
    - intros (j & Hj & Hin). rewrite !elem_of_cons, elem_of_nil in Hj. destruct Hj as [?|[[= ->]|[]]]; [done|by eauto].
    - intros (i & Hi & ->). exists i. split; [right; left|done]. }
  split; [|split; [apply Hr|apply Hs]].
  induction Hnd as [|i l Hi Hnd IH]; [constructor|]. apply list.Forall_cons in Hf as [Hi27 Hf].
  change (round_transfers (i :: l)) with (Receiving i :: Sending (mirror i) :: round_transfers l).
  apply list.NoDup_cons. split; [rewrite not_elem_of_cons; split; [done|]; by rewrite Hr|].
  apply list.NoDup_cons. split; [|by apply IH]. rewrite Hs. intros (j & Hj & E).
  rewrite list.Forall_forall in Hf. destruct (mirror_table i Hi27) as (_ & _ & _ & Ei), (mirror_table j (Hf j Hj)) as (_ & _ & _ & Ej).
  rewrite E in Ei. congruence.
Qed.

(** Communication of a grid buffer.  [spawnCommunication] starts every receive and every
    send whose exchange exists and whose direction both masks have, each exactly once, and
    nothing else; each waits for [previous] and for the last transfer of its direction and
    is the last one from then on; the result joins [previous] and all that was started. *)
Theorem spawnCommunication_starts commDim previous g next :
  (1 <= commDim <= 3)%nat -> slots_ok commDim g ->
  exists bs g' next', spawnCommunication communicationMask previous g next =
      Ret (bs, previous :: map (fun b => Some (br_event b)) bs, g', next') /\
    NoDup (map br_transfer bs) /\
    (forall t, t ∈ map br_transfer bs <-> has_transfer g t = true) /\
    map br_event bs = seq next (length bs) /\
    Forall (fun b => br_after b = [previous; completion g (br_transfer b)] /\ completion g' (br_transfer b) = Some (br_event b)) bs /\
    (exists r s, g' = set_completions r s g).
Proof.
  intros Hd Hs. assert (Hf : Forall (fun i => 0 <= i < 27) (seqZ 0 (maxExchange g))).
  { pose proof (sl_max _ _ Hs). assert (NumberOfExchanges commDim <= 27) by (destruct commDim as [|[|[|[|]]]]; done || lia). apply list.Forall_forall. intros i Hi%elem_of_seqZ. lia. }
  destruct (round_transfers_spec _ Hf (NoDup_seqZ _ _)) as (Hnd & Hr & Hse).
  destruct (fold_spawn previous _ [] g next Hnd) as (bs & g' & E & (T & Ev & A & _ & G)).
  exists bs, g', (next + length bs)%nat. unfold spawnCommunication. rewrite (spawn_loop_fold _ _ _ Hf), E. split; [done|].
  rewrite T. split_and!; try done; [by apply list.NoDup_filter|].
  intros t. rewrite list_elem_of_filter. split; [tauto|]. intros Ht. split; [done|]. destruct t as [ex|ex]; cbn in Ht;
    apply andb_true_iff in Ht as [Hx%bool_decide_eq_true Hm].
  - destruct (sl_send _ _ Hs ex Hx) as [Hex _]. destruct (mirror_exchanges _ ex Hd Hex) as (H27 & Hme & Hmm & _).
    apply Hse. exists (mirror ex). split; [|done]. apply elem_of_seqZ.
    assert (Hrx : is_Some (receiveExchanges g !! mirror ex)).
    { pose proof (sl_receive_mask _ _ Hs _ Hme) as E1. rewrite <- (sl_mirror _ _ Hs ex Hex), (sl_send_mask _ _ Hs ex Hex) in E1.
      rewrite (bool_decide_eq_true_2 _ Hx) in E1. symmetry in E1. by apply bool_decide_eq_true in E1. }
    destruct (sl_receive _ _ Hs _ Hrx). lia.
  - destruct (sl_receive _ _ Hs ex Hx) as [Hex Hlt]. apply Hr, elem_of_seqZ. lia.
Qed.
End Spawn.

(** ** Concrete buffers *)

Definition demo_new : outcome (GridState (V := Z)) := GridBuffer_new 4 demo_layout false ∅ (mkStore ∅ 0).
Definition demo_add (receive : Mask) : Host (GridState (V := Z)) unit := addExchange 4 true 2 GUARD receive [1; 1] 1 false false.

Lemma demo_disjoint receive (s : GridState (V := Z)) : receiveMask (gb s) = Mask_empty ->
  forall ex, 1 <= ex < NumberOfExchanges 2 -> isSet receive ex = true -> isSet (receiveMask (gb s)) ex = false.
Proof. by intros ->. Qed.

Lemma addExchange_adds_witness :
  exists s s', demo_new = Ret s /\ demo_add (Mask_of LEFT) s = (Ret tt, s') /\
    receiveMask (gb s') = Mask_of LEFT /\ is_Some (sendExchanges (gb s') !! RIGHT).
Proof.
  destruct (GridBuffer_new_ok (V := Z) 4 2 ltac:(lia) demo_layout [1; 1] false ∅ (mkStore ∅ 0) demo_layout_ok)
    as (s & E & Hg & Hs & Hh & Hl & Ht & Hm).
  destruct (addExchange_adds 4 true 2 ltac:(lia) _ _ GUARD (Mask_of LEFT) [1; 1] 1 false false s Hg Hs) as (_ & _ & T).
  destruct T as (s' & E' & _ & _ & _ & Em & Hd & _).
  - intros Hx. congruence.
  - intros _ ex _ _ _. rewrite Ht. apply not_elem_of_empty.
  - by apply demo_disjoint.
  - exists s, s'. split; [exact E|]. split; [exact E'|]. split; [by rewrite Em, Hm|].
    assert (Hn : NumberOfExchanges 2 = 9 /\ mirror LEFT = RIGHT /\ isSet (Mask_of LEFT) LEFT = true) by (by vm_compute).
    destruct Hn as (Hn & Hml & Hsl).
    specialize (Hd LEFT). rewrite Hn in Hd. specialize (Hd ltac:(unfold LEFT; lia)). unfold direction_added in Hd.
    rewrite Hml, Hsl in Hd. destruct Hd as (e1 & e2 & _ & E1 & _). by rewrite E1.
Defined.

Lemma spawnCommunication_starts_witness :
  exists s s' bs g' next', demo_new = Ret s /\ demo_add (Mask_of LEFT) s = (Ret tt, s') /\
    spawnCommunication (mask_join (Mask_of LEFT) (Mask_of TOP)) None (gb s') 0 =
      Ret (bs, None :: map (fun b => Some (br_event b)) bs, g', next') /\
    Receiving LEFT ∈ map br_transfer bs /\ Sending RIGHT ∉ map br_transfer bs.
Proof.
  destruct (GridBuffer_new_ok (V := Z) 4 2 ltac:(lia) demo_layout [1; 1] false ∅ (mkStore ∅ 0) demo_layout_ok)
    as (s & E & Hg & Hs & Hh & Hl & Ht & Hm).
  destruct (addExchange_ok 4 true 2 ltac:(lia) _ _ GUARD (Mask_of LEFT) [1; 1] 1 false false s Hg Hs)
    as (s' & E' & Hs' & _ & _ & Em & Hd & _).
  - intros Hx. congruence.
  - intros _ ex _ _ _. rewrite Ht. apply not_elem_of_empty.
  - by apply demo_disjoint.
  - destruct (spawnCommunication_starts (mask_join (Mask_of LEFT) (Mask_of TOP)) 2 None (gb s') 0 ltac:(lia) Hs')
      as (bs & g' & next' & Es & _ & Hin & _).
    exists s, s', bs, g', next'. split; [exact E|]. split; [exact E'|]. split; [exact Es|].
    assert (Hn : NumberOfExchanges 2 = 9 /\ isSet (Mask_of LEFT) LEFT = true /\
      isSet (mask_meet (mask_join (Mask_of LEFT) (Mask_of TOP)) (mask_join Mask_empty (Mask_of LEFT))) LEFT = true) by (by vm_compute).
    destruct Hn as (Hn & Hsl & Hml). split.
    + apply Hin. cbn [has_transfer]. unfold hasReceiveExchange, getReceiveMask. rewrite Em, Hm, Hml.
      specialize (Hd LEFT). rewrite Hn in Hd. specialize (Hd ltac:(unfold LEFT; lia)). unfold direction_added in Hd.
      rewrite Hsl in Hd. destruct Hd as (e1 & e2 & E2 & _). by rewrite E2.
    + rewrite Hin. cbn [has_transfer]. unfold hasSendExchange, getSendMask.
      assert (Hr : forall m, isSet (mask_meet (mask_join (Mask_of LEFT) (Mask_of TOP)) m) RIGHT = false).
      { intros m. rewrite isSet_meet by (unfold RIGHT; lia). done. }
      rewrite Hr, andb_false_r. done.
Defined.

(** Only the first direction's tag is registered.  Two grid buffers with the same
    communication tag, the first exchanging to the left and the top, the second to the top
    only: nothing throws, and both send to the bottom with one tag. *)
Lemma shared_tag :
  match demo_new with
  | Ret s =>
      match demo_add (mask_join (Mask_of LEFT) (Mask_of TOP)) s with
      | (Ret _, s1) =>
          match GridBuffer_new 4 demo_layout false (tags s1) (gs_store s1) with
          | Ret s2 =>
              match demo_add (Mask_of TOP) s2 with
              | (Ret _, s3) =>
                  (communicationTag <$> sendExchanges (gb s1) !! BOTTOM) = Some 35 /\
                  (communicationTag <$> sendExchanges (gb s3) !! BOTTOM) = Some 35
              | _ => False
              end
          | _ => False
          end
      | _ => False
      end
  | _ => False
  end.
Proof. by vm_compute. Qed.
