(* ===== verification/HaloExchange.v ===== *)
(** * Exchange of halos between processes

    Every process of a grid has a [GridBuffer] whose guard is to hold copies of its
    neighbours' borders.  A process sends and receives in the order its control thread
    started the transfers or in any other order; messages between two processes with one
    tag arrive in the order they were sent.  The state is that of all processes and of the
    messages under way, a step is one send or one receive of one process.

    What the processes need to know of each other is the interface [Neighbours]: the table
    of ranks and the mask of a process' communicator agree with those of its neighbours.
    The theorem shows that, whatever the interleaving, the transfers complete, and that
    every guard then holds the border of the neighbour in its direction while everything
    else of the grids is as it was. *)
From Stdlib Require Import ZArith Lia.
From stdpp Require Import base list list_numbers numbers gmap strings relations.
From S2P Require Import Prelude Outcome DataSpaces ExchangeMask GridMapping FrameList Buffers Exchange GridBuffers GridComm.
Open Scope Z_scope.

(** [CommunicatorMPI::gridExchangeTag]. *)
Definition gridExchangeTag : Z := 5.

(** ** Neighbours *)

(** [table r ex] is [ExchangeTypeToRank] of the process [r], [mask r] its communication
    mask: the neighbour of an active direction is a process, and names [r] for the mirrored
    direction, which is active there. *)
Class Neighbours (commDim : nat) (processes : list Z) (table : Z -> Z -> Z) (mask : Z -> Mask) : Prop := {
  neighbour_mutual r ex :
    r ∈ processes -> 1 <= ex < NumberOfExchanges commDim -> isSet (mask r) ex = true ->
    table r ex ∈ processes /\ isSet (mask (table r ex)) (mirror ex) = true /\ table (table r ex) (mirror ex) = r;
}.

Section World.
Context {V : Type} `{AM : AlpakaMemory V} (sz : Z) (mpi : bool).
Context (table : Z -> Z -> Z).

(** Source, destination and tag of a message, with its elements. *)
Definition channel : Type := Z * Z * Z.
Definition message : Type := list (option V).

Record World := mkWorld {
  w_processes : gmap Z GridState;
  w_net : gmap channel (list message);
  (** Transfers that were started and have not been carried out. *)
  w_todo : list (Z * transfer);
}.

Definition set_send (ex : Z) (e : Exchange) (g : GridBuffer) : GridBuffer :=
  mkGridBuffer g.(g_buffers) g.(hasOneExchange) g.(lastUsedCommunicationTag) g.(gridLayout) g.(sendMask) g.(receiveMask)
    (<[ex := e]> g.(sendExchanges)) g.(receiveExchanges) g.(maxExchange) g.(receiveCompletions) g.(sendCompletions).
Definition set_receive (ex : Z) (e : Exchange) (g : GridBuffer) : GridBuffer :=
  mkGridBuffer g.(g_buffers) g.(hasOneExchange) g.(lastUsedCommunicationTag) g.(gridLayout) g.(sendMask) g.(receiveMask)
    g.(sendExchanges) (<[ex := e]> g.(receiveExchanges)) g.(maxExchange) g.(receiveCompletions) g.(sendCompletions).

(** [CommunicatorMPI::send] and [receive]: the channel. *)
Definition send_channel (r : Z) (e : Exchange) : channel := (r, table r e.(exchange), gridExchangeTag + e.(communicationTag)).
Definition receive_channel (r : Z) (e : Exchange) : channel := (table r e.(exchange), r, gridExchangeTag + e.(communicationTag)).

Definition done_with (t : Z * transfer) (todo : list (Z * transfer)) : list (Z * transfer) := filter (fun u => u <> t) todo.
Definition queue_of (w : World) (c : channel) : list message := default [] (w.(w_net) !! c).

(** One transfer of a process. *)
Definition transfer_step (r : Z) (t : transfer) (w : World) : option World :=
  s ← w.(w_processes) !! r;
  match t with
  | Sending ex =>
      e ← sendExchanges s.(gb) !! ex;
      match Exchange_send sz mpi e s.(gs_store) with
      | Ret (e', st, msg) =>
          let c := send_channel r e in
          Some (mkWorld (<[r := mkGridState (set_send ex e' s.(gb)) s.(tags) st]> w.(w_processes))
                  (<[c := queue_of w c ++ [msg]]> w.(w_net)) (done_with (r, t) w.(w_todo)))
      | _ => None
      end
  | Receiving ex =>
      e ← receiveExchanges s.(gb) !! ex;
      let c := receive_channel r e in
      match queue_of w c with
      | [] => None
      | msg :: rest =>
          match Exchange_receive sz mpi e msg s.(gs_store) with
          | Ret (e', st) =>
              Some (mkWorld (<[r := mkGridState (set_receive ex e' s.(gb)) s.(tags) st]> w.(w_processes))
                      (<[c := rest]> w.(w_net)) (done_with (r, t) w.(w_todo)))
          | _ => None
          end
      end
  end.

Inductive world_step : World -> World -> Prop :=
  | world_transfer r t w w' : (r, t) ∈ w_todo w -> transfer_step r t w = Some w' -> world_step w w'.

(** The value of a cell of a process' grid, guard included. *)
Definition cell (w : World) (r : Z) (c : DataSpace) : option V :=
  match w_processes w !! r with
  | Some s => elem sz (gs_store s) (deviceBuffer (g_buffers (gb s))) c
  | None => None
  end.
End World.

(** ** Tags *)

Lemma uniq_tag_inj t ex ex' : 0 <= ex < 32 -> 0 <= ex' < 32 -> uniq_tag t ex = uniq_tag t ex' -> ex = ex'.
Proof.
  intros H H' E.
  assert (Hl : forall e, 0 <= e < 32 -> Z.land (uniq_tag t e) (Z.ones 5) = e).
  { intros e He. unfold uniq_tag. rewrite Z.land_lor_distr_l. rewrite !Z.land_ones by lia.
    rewrite (Z.mod_small e) by (change (2 ^ 5) with 32; lia). change (2 ^ 5) with 32.
    unfold u32. rewrite Z.shiftl_mul_pow2 by lia. change (2 ^ 5) with 32.
    replace ((t * 32) mod 2 ^ 32) with ((t mod 2 ^ 27) * 32).
    - rewrite Z.mod_mul by lia. apply Z.lor_0_l.
    - change (2 ^ 32) with (2 ^ 27 * 32). rewrite Z.mul_mod_distr_r; lia. }
  rewrite <- (Hl ex H), <- (Hl ex' H'). by rewrite E.
Qed.

Lemma vadd_vadd a b c : vadd (vadd a b) c = vadd a (vadd b c).
Proof.
  unfold vadd. revert b c. induction a as [|x a IH]; intros [|y b] [|z c]; cbn; [done..|]. by rewrite IH, Z.add_assoc.
Qed.

(** ** Boxes of guards and borders *)

(** On which side of the inner cells a coordinate lies. *)
Definition side (n g x : Z) : Z := if x <? g then -1 else if x <? g + n then 0 else 1.
Fixpoint sides (n g c : DataSpace) : DataSpace :=
  match n, g, c with n :: ns, g :: gs, x :: cs => side n g x :: sides ns gs cs | _, _, _ => [] end.

Lemma sides_box l gc area d idx :
  layout_ok l gc -> length d = length gc -> Forall (fun x => -1 <= x <= 1) d ->
  in_range (boxes_size l.(m_sizeND) gc d) idx ->
  sides l.(m_sizeND) l.(m_guardSizeND) (vadd (boxes_from area l.(m_sizeND) l.(m_guardSizeND) gc d) idx) =
  match area with GUARD => d | _ => map (fun _ => 0) d end.
Proof.
  intros [_ Hl] L Hd. revert d idx L Hd. induction Hl as [|n g c ns gs cs H Hl IH]; intros [|x d] idx L Hd Hi; try discriminate L.
  { cbn. by destruct area. }
  apply list.Forall_cons in Hd as [Hx Hd]. injection L as L. cbn in Hi. unfold in_range in Hi. inversion Hi as [|? y ? idx' Hy Hi']; subst.
  specialize (IH d idx' L Hd Hi'). cbn [boxes_from vadd zip_with sides map]. unfold vadd in IH. rewrite IH.
  assert (Hs : side n g (box_from area n g c x + y) = match area with GUARD => x | _ => 0 end).
  { unfold side, box_from, box_size in *. assert (x = -1 \/ x = 0 \/ x = 1) as [->|[->| ->]] by lia; cbn in Hy;
      destruct area; cbn -[Z.add Z.sub Z.ltb]; repeat case_match; lia. }
  rewrite Hs. by destruct area.
Qed.

Lemma NumberOfExchanges_pow dim : (1 <= dim <= 3)%nat -> NumberOfExchanges dim = 3 ^ Z.of_nat dim.
Proof. intros H. assert (dim = 1%nat \/ dim = 2%nat \/ dim = 3%nat) as [->|[->| ->]] by lia; done. Qed.

Section Boxes.
Context (l : GridLayout) (gc : DataSpace) (Hl : layout_ok l gc).

Definition cell_of (area : Area) (ex : Z) (idx : DataSpace) : DataSpace := vadd (exchangeTypeToOffset ex l gc area) idx.

Lemma digits_ok ex : 1 <= ex -> length (getRelativeDirections (length gc) ex) = length gc /\
  Forall (fun x => -1 <= x <= 1) (getRelativeDirections (length gc) ex).
Proof.
  intros Hex. destruct (directions_values (length gc) ex ltac:(lia)) as [Hv L]. split; [done|].
  eapply list.Forall_impl; [exact Hv|]. cbn. lia.
Qed.

Lemma range_27 ex : 1 <= ex < NumberOfExchanges (length gc) -> 1 <= ex < 27.
Proof. intros H. by destruct (mirror_exchanges _ ex (proj1 Hl) H). Qed.

Lemma cell_sides area ex idx :
  1 <= ex < NumberOfExchanges (length gc) -> in_range (exchange_extent l gc ex) idx ->
  sides l.(m_sizeND) l.(m_guardSizeND) (cell_of area ex idx) =
  match area with GUARD => getRelativeDirections (length gc) ex | _ => map (fun _ => 0) (getRelativeDirections (length gc) ex) end.
Proof.
  intros Hex Hi. destruct (exchange_box l gc ex area Hl (range_27 ex Hex)) as [Eo Ee]. destruct (digits_ok ex ltac:(lia)).
  unfold cell_of. rewrite Eo. apply sides_box; try done. by rewrite <- Ee.
Qed.

(** A cell of the guard belongs to one direction. *)
Lemma guard_cells_disjoint ex ex' idx idx' :
  1 <= ex < NumberOfExchanges (length gc) -> 1 <= ex' < NumberOfExchanges (length gc) ->
  in_range (exchange_extent l gc ex) idx -> in_range (exchange_extent l gc ex') idx' ->
  cell_of GUARD ex idx = cell_of GUARD ex' idx' -> ex = ex'.
Proof.
  intros Hex Hex' Hi Hi' E. pose proof (cell_sides GUARD ex idx Hex Hi) as S1. pose proof (cell_sides GUARD ex' idx' Hex' Hi') as S2.
  cbv iota in S1, S2. rewrite E, S2 in S1. rewrite (NumberOfExchanges_pow _ (proj1 Hl)) in Hex, Hex'.
  rewrite <- (directions_code (length gc) ex), <- (directions_code (length gc) ex') by lia. by rewrite S1.
Qed.

(** Borders lie inside of all guards. *)
Lemma border_not_guard ex ex' idx idx' :
  1 <= ex < NumberOfExchanges (length gc) -> 1 <= ex' < NumberOfExchanges (length gc) ->
  in_range (exchange_extent l gc ex) idx -> in_range (exchange_extent l gc ex') idx' ->
  cell_of BORDER ex idx <> cell_of GUARD ex' idx'.
Proof.
  intros Hex Hex' Hi Hi' E. pose proof (cell_sides BORDER ex idx Hex Hi) as S1. pose proof (cell_sides GUARD ex' idx' Hex' Hi') as S2.
  cbv iota in S1, S2. rewrite E, S2 in S1.
  assert (H0 : direction_code (getRelativeDirections (length gc) ex') = 0).
  { rewrite S1. generalize (getRelativeDirections (length gc) ex). intros d. induction d as [|x d IH]; cbn; [done|]. rewrite IH. done. }
  rewrite directions_code in H0 by (rewrite <- (NumberOfExchanges_pow _ (proj1 Hl)); lia). lia.
Qed.

Lemma cell_in_grid area ex idx :
  1 <= ex < NumberOfExchanges (length gc) -> in_range (exchange_extent l gc ex) idx -> in_range (sizeND l) (cell_of area ex idx).
Proof.
  intros Hex Hi. destruct (exchange_box l gc ex area Hl (range_27 ex Hex)) as [Eo Ee]. destruct (digits_ok ex ltac:(lia)) as [L Hd].
  destruct (box_inside l gc area _ Hl L Hd) as [Hin _]. rewrite <- Eo, <- Ee in Hin. unfold cell_of. clear -Hin Hi.
  unfold in_range, box_in, vadd in *. revert idx Hi. induction Hin as [|o e s os es ss Ho H IH]; intros idx Hi;
    inversion Hi; subst; cbn; constructor; [lia|]. by apply IH.
Qed.

Lemma cell_of_inj area ex idx idx' :
  1 <= ex < NumberOfExchanges (length gc) -> in_range (exchange_extent l gc ex) idx -> in_range (exchange_extent l gc ex) idx' ->
  cell_of area ex idx = cell_of area ex idx' -> idx = idx'.
Proof.
  intros Hex Hi Hi' E. pose proof (in_range_length _ _ Hi). pose proof (in_range_length _ _ Hi').
  pose proof (in_range_length _ _ (cell_in_grid area ex idx Hex Hi)) as L.
  destruct (exchange_box l gc ex area Hl (range_27 ex Hex)) as [Eo Ee].
  destruct (box_inside l gc area _ Hl (proj1 (digits_ok ex ltac:(lia))) (proj2 (digits_ok ex ltac:(lia)))) as [Hin _].
  rewrite <- Eo, <- Ee in Hin. pose proof (Forall3_length_lm _ _ _ _ Hin).
  eapply vadd_inj; [| |exact E]; lia.
Qed.
End Boxes.

(** ** The exchange *)

Section Halo.
Context {V : Type} `{AM : AlpakaMemory V} {AML : AlpakaMemoryLaws V} (sz : Z) (Hsz : 0 < sz) (mpi : bool).
Context (processes : list Z) (table : Z -> Z -> Z) (mask : Z -> Mask).
(** The cells exchanged, the tag and the directions every process receives from. *)
Context (gc : DataSpace) (tag : Z) (receive : Mask).
Context {NB : Neighbours (length gc) processes table mask}.
(** Where the grid of a process lies in its allocation, its layout, and its state when the
    exchange starts. *)
Context (base origin : Z -> MemSpace) (layout : Z -> GridLayout) (init : Z -> GridState (V := V)).

Definition in_directions (ex : Z) : Prop := 1 <= ex < NumberOfExchanges (length gc).

(** A process whose grid buffer was given the exchanges of the received directions, into
    the guard. *)
Record ready (r : Z) : Prop := {
  rd_grid : grid_ok sz (base r) (origin r) gc (init r);
  rd_layout : gridLayout (gb (init r)) = layout r;
  rd_slots : slots_ok (length gc) (gb (init r));
  rd_mask ex : in_directions ex -> isSet (receiveMask (gb (init r))) ex = isSet receive ex;
  rd_send ex e : sendExchanges (gb (init r)) !! ex = Some e ->
    made sz mpi (init r) (base r) (origin r) GUARD gc ex (uniq_tag tag ex) true e;
  rd_receive ex e : receiveExchanges (gb (init r)) !! ex = Some e ->
    made sz mpi (init r) (base r) (origin r) GUARD gc ex (uniq_tag tag (mirror ex)) false e;
}.

Context (Hready : forall r, r ∈ processes -> ready r).
(** Neighbours agree on the extents of what they exchange. *)
Context (Hmatch : forall r ex, r ∈ processes -> in_directions ex -> isSet (mask r) ex = true ->
  exchange_extent (layout r) gc ex = exchange_extent (layout (table r ex)) gc (mirror ex)).

Definition grid (r : Z) : Buffer := deviceBuffer (g_buffers (gb (init r))).
Definition extent (r ex : Z) : DataSpace := exchange_extent (layout r) gc ex.
Definition guard_cell (r ex : Z) (idx : DataSpace) : DataSpace := cell_of (layout r) gc GUARD ex idx.
Definition border_cell (r ex : Z) (idx : DataSpace) : DataSpace := cell_of (layout r) gc BORDER ex idx.
Definition before (r : Z) (c : DataSpace) : option V := elem sz (gs_store (init r)) (grid r) c.

Definition active (r : Z) (t : transfer) : Prop := r ∈ processes /\ has_transfer (mask r) (gb (init r)) t = true.

(** The world when all processes have called [spawnCommunication]. *)
Definition start (w : World) : Prop :=
  (forall r, r ∈ processes -> w_processes w !! r = Some (init r)) /\ w_net w = ∅ /\
  NoDup (w_todo w) /\ (forall r t, (r, t) ∈ w_todo w <-> active r t).

Lemma Hdim : forall r, r ∈ processes -> layout_ok (layout r) gc.
Proof. intros r Hr. pose proof (Hready r Hr) as H. rewrite <- (rd_layout r H). apply H. Qed.

Lemma active_send r ex : active r (Sending ex) ->
  in_directions ex /\ isSet (mask r) ex = true /\ isSet receive (mirror ex) = true /\
  exists e, sendExchanges (gb (init r)) !! ex = Some e.
Proof.
  intros [Hr Ha]. cbn in Ha. apply andb_true_iff in Ha as [[e He]%bool_decide_eq_true Hm]. pose proof (Hready r Hr) as Hrd.
  destruct (sl_send _ _ (rd_slots r Hrd) ex ltac:(by rewrite He)) as [Hex _].
  unfold getSendMask in Hm. rewrite isSet_meet in Hm by lia. apply andb_true_iff in Hm as [Hm1 Hm2].
  destruct (mirror_exchanges _ ex (proj1 (Hdim r Hr)) Hex) as (_ & Hme & _).
  rewrite (sl_mirror _ _ (rd_slots r Hrd) ex Hex), (rd_mask r Hrd) in Hm2 by done. split_and!; try done. by exists e.
Qed.

Lemma active_receive r ex : active r (Receiving ex) ->
  in_directions ex /\ isSet (mask r) ex = true /\ isSet receive ex = true /\
  exists e, receiveExchanges (gb (init r)) !! ex = Some e.
Proof.
  intros [Hr Ha]. cbn in Ha. apply andb_true_iff in Ha as [[e He]%bool_decide_eq_true Hm]. pose proof (Hready r Hr) as Hrd.
  destruct (sl_receive _ _ (rd_slots r Hrd) ex ltac:(by rewrite He)) as [Hex _].
  unfold getReceiveMask in Hm. rewrite isSet_meet in Hm by lia. apply andb_true_iff in Hm as [Hm1 Hm2].
  rewrite (rd_mask r Hrd) in Hm2 by done. split_and!; try done. by exists e.
Qed.

Lemma receive_active r ex : r ∈ processes -> in_directions ex -> isSet (mask r) ex = true -> isSet receive ex = true -> active r (Receiving ex).
Proof.
  intros Hr Hex Hm Hre. pose proof (Hready r Hr) as Hrd. split; [done|]. cbn. unfold hasReceiveExchange, getReceiveMask.
  destruct Hex as [Hex1 Hex2]. rewrite isSet_meet, Hm, (rd_mask r Hrd), Hre by (done || lia). rewrite <- (sl_receive_mask _ _ (rd_slots r Hrd)) by done.
  by rewrite (rd_mask r Hrd), Hre by done.
Qed.

Lemma send_active r ex : r ∈ processes -> in_directions ex -> isSet (mask r) ex = true -> isSet receive (mirror ex) = true -> active r (Sending ex).
Proof.
  intros Hr Hex Hm Hre. pose proof (Hready r Hr) as Hrd. split; [done|]. cbn. unfold hasSendExchange, getSendMask.
  destruct (mirror_exchanges _ ex (proj1 (Hdim r Hr)) Hex) as (_ & Hme & _).
  assert (Hs : isSet (sendMask (gb (init r))) ex = true) by (by rewrite (sl_mirror _ _ (rd_slots r Hrd)), (rd_mask r Hrd)).
  destruct Hex as [Hex1 Hex2]. rewrite isSet_meet, Hm, Hs by lia. rewrite <- (sl_send_mask _ _ (rd_slots r Hrd)) by done. by rewrite Hs.
Qed.

(** The other end of a transfer. *)
Lemma partner_of_send r ex : active r (Sending ex) ->
  active (table r ex) (Receiving (mirror ex)) /\ table (table r ex) (mirror ex) = r /\ mirror (mirror ex) = ex /\
  extent r ex = extent (table r ex) (mirror ex).
Proof.
  intros Ha. pose proof (active_send r ex Ha) as (Hex & Hm & Hre & _). destruct Ha as [Hr _].
  destruct (neighbour_mutual r ex Hr Hex Hm) as (Hp & Hpm & Ht).
  destruct (mirror_exchanges _ ex (proj1 (Hdim r Hr)) Hex) as (_ & Hme & Hmm & _).
  split; [by apply receive_active|]. split; [done|]. split; [done|]. by apply Hmatch.
Qed.

Lemma partner_of_receive r ex : active r (Receiving ex) ->
  active (table r ex) (Sending (mirror ex)) /\ table (table r ex) (mirror ex) = r /\ mirror (mirror ex) = ex /\
  extent r ex = extent (table r ex) (mirror ex).
Proof.
  intros Ha. pose proof (active_receive r ex Ha) as (Hex & Hm & Hre & _). destruct Ha as [Hr _].
  destruct (neighbour_mutual r ex Hr Hex Hm) as (Hp & Hpm & Ht).
  destruct (mirror_exchanges _ ex (proj1 (Hdim r Hr)) Hex) as (_ & Hme & Hmm & _).
  split; [apply send_active; [done..|by rewrite Hmm]|]. split; [done|]. split; [done|]. by apply Hmatch.
Qed.

(** The channel of a send. *)
Definition chan (r ex : Z) : channel := (r, table r ex, gridExchangeTag + uniq_tag tag ex).

Lemma chan_inj r ex r' ex' : in_directions ex -> in_directions ex' -> r ∈ processes -> chan r ex = chan r' ex' -> r = r' /\ ex = ex'.
Proof.
  intros Hex Hex' Hr. pose proof (range_27 (layout r) gc (Hdim r Hr) ex Hex). pose proof (range_27 (layout r) gc (Hdim r Hr) ex' Hex').
  unfold chan. intros E. injection E as -> _ Et. split; [done|]. apply (uniq_tag_inj tag); lia.
Qed.

(** An element of an exchange is a cell of the grid. *)
Lemma made_elem r sends ex tg e0 e st idx :
  r ∈ processes -> in_directions ex -> made sz mpi (init r) (base r) (origin r) GUARD gc ex tg sends e0 -> same_exchange e0 e ->
  in_range (extent r ex) idx ->
  let c := cell_of (layout r) gc (area_of GUARD sends) ex idx in
  elem sz st (e_deviceBuffer e) idx = elem sz st (grid r) c /\
  ptr sz (getDataBox (e_deviceBuffer e)) idx = ptr sz (getDataBox (grid r)) c.
Proof.
  intros Hr Hex (Hok & Ha & Hc & _) (Hd & _) Hi c. pose proof (Hready r Hr) as Hrd. pose proof (rd_grid r Hrd) as [Hon Hext Hl _].
  fold (grid r) in Hon, Hext. rewrite (rd_layout r Hrd) in *. pose proof (Hdim r Hr) as Hlay.
  pose proof (same_buffer_on _ _ _ _ _ Hd (ok_box _ _ _ _ _ Hok)) as Hbe.
  pose proof (on_lengths _ _ _ _ Hon) as [_ Lg]. pose proof (on_lengths _ _ _ _ Hbe) as [_ Le].
  pose proof (in_range_length _ _ Hi) as Li. destruct Hd as (Ea & _ & Ec & _).
  pose proof (in_range_length _ _ (cell_in_grid (layout r) gc Hlay (area_of GUARD sends) ex idx Hex Hi)) as Lc.
  assert (E : ptr sz (getDataBox (e_deviceBuffer e)) idx = ptr sz (getDataBox (grid r)) c).
  { rewrite (proj2 (on_address _ _ _ _ idx Hbe ltac:(rewrite Li, <- Le, Ec, Hc; done))).
    rewrite (proj2 (on_address _ _ _ _ c Hon ltac:(rewrite <- Lg, Hext; done))).
    do 2 f_equal. unfold c, cell_of. by rewrite vadd_vadd. }
  split; [|done]. unfold elem. rewrite E. unfold mem_of. by rewrite Ea, Ha.
Qed.

(** What holds between steps. *)
Record inv (w : World) : Prop := {
  iv_nodup : NoDup (w_todo w);
  iv_active r t : (r, t) ∈ w_todo w -> active r t;
  iv_order r ex : (r, Sending ex) ∈ w_todo w -> (table r ex, Receiving (mirror ex)) ∈ w_todo w;
  iv_process r : r ∈ processes -> exists s, w_processes w !! r = Some s /\ g_buffers (gb s) = g_buffers (gb (init r)) /\
    (forall ex e0, sendExchanges (gb (init r)) !! ex = Some e0 ->
       exists e, sendExchanges (gb s) !! ex = Some e /\ same_exchange e0 e /\ b_size (e_deviceBuffer e) = vol (extent r ex)) /\
    (forall ex e0, receiveExchanges (gb (init r)) !! ex = Some e0 ->
       exists e, receiveExchanges (gb s) !! ex = Some e /\ same_exchange e0 e);
  (** A message is under way from its send to its receive. *)
  iv_net r ex : active r (Sending ex) ->
    if decide (((r, Sending ex) ∉ w_todo w) /\ ((table r ex, Receiving (mirror ex)) ∈ w_todo w))
    then exists msg, queue_of w (chan r ex) = [msg] /\
      carries (vol (extent r ex)) msg (extent r ex) (fun idx => before r (border_cell r ex idx))
    else queue_of w (chan r ex) = [];
  iv_channels c : queue_of w c <> [] -> exists r ex, active r (Sending ex) /\ c = chan r ex;
  iv_done r ex : active r (Receiving ex) -> (r, Receiving ex) ∉ w_todo w -> forall idx, in_range (extent r ex) idx ->
    cell sz w r (guard_cell r ex idx) = before (table r ex) (border_cell (table r ex) (mirror ex) idx);
  iv_rest r c : r ∈ processes -> in_range (sizeND (layout r)) c ->
    (forall ex idx, active r (Receiving ex) -> (r, Receiving ex) ∉ w_todo w -> in_range (extent r ex) idx -> c <> guard_cell r ex idx) ->
    cell sz w r c = before r c;
}.

Lemma done_with_elem x t todo : x ∈ done_with t todo <-> x <> t /\ x ∈ todo.
Proof. unfold done_with. by rewrite list_elem_of_filter. Qed.

Lemma same_trans e1 e2 e3 : same_exchange e1 e2 -> same_exchange e2 e3 -> same_exchange e1 e3.
Proof.
  assert (Hb : forall b1 b2 b3 : Buffer, same_buffer b1 b2 -> same_buffer b2 b3 -> same_buffer b1 b3).
  { intros b1 b2 b3 (A1 & A2 & A3 & A4) (B1 & B2 & B3 & B4). unfold same_buffer. split_and!; congruence. }
  assert (Ho : forall b1 b2 b3 : option Buffer, same_option b1 b2 -> same_option b2 b3 -> same_option b1 b3).
  { intros [b1|] [b2|] [b3|]; cbn; try done. apply Hb. }
  intros (A1 & A2 & A3 & A4 & A5) (B1 & B2 & B3 & B4 & B5). unfold same_exchange.
  split_and!; [by eapply Hb|by eapply Ho|by eapply Ho|congruence..].
Qed.

Lemma cell_at w r s c : w_processes w !! r = Some s -> g_buffers (gb s) = g_buffers (gb (init r)) ->
  cell sz w r c = elem sz (gs_store s) (grid r) c.
Proof. intros E Eb. unfold cell, grid. by rewrite E, Eb. Qed.

(** An exchange in the middle of the run. *)
Lemma sending_exchange w r ex : inv w -> active r (Sending ex) ->
  exists s e e0, w_processes w !! r = Some s /\ g_buffers (gb s) = g_buffers (gb (init r)) /\
    sendExchanges (gb s) !! ex = Some e /\ same_exchange e0 e /\
    made sz mpi (init r) (base r) (origin r) GUARD gc ex (uniq_tag tag ex) true e0 /\
    b_size (e_deviceBuffer e) = vol (extent r ex) /\ sendExchanges (gb (init r)) !! ex = Some e0.
Proof.
  intros Hi Ha. destruct (active_send r ex Ha) as (_ & _ & _ & e0 & E0). destruct Ha as [Hr _].
  destruct (iv_process w Hi r Hr) as (s & Es & Eb & Hs & _). destruct (Hs ex e0 E0) as (e & Ee & Hsame & Hsz').
  exists s, e, e0. split_and!; try done. by apply (rd_send r (Hready r Hr)).
Qed.

Lemma receiving_exchange w r ex : inv w -> active r (Receiving ex) ->
  exists s e e0, w_processes w !! r = Some s /\ g_buffers (gb s) = g_buffers (gb (init r)) /\
    receiveExchanges (gb s) !! ex = Some e /\ same_exchange e0 e /\
    made sz mpi (init r) (base r) (origin r) GUARD gc ex (uniq_tag tag (mirror ex)) false e0 /\
    receiveExchanges (gb (init r)) !! ex = Some e0.
Proof.
  intros Hi Ha. destruct (active_receive r ex Ha) as (_ & _ & _ & e0 & E0). destruct Ha as [Hr _].
  destruct (iv_process w Hi r Hr) as (s & Es & Eb & _ & Hs). destruct (Hs ex e0 E0) as (e & Ee & Hsame).
  exists s, e, e0. split_and!; try done. by apply (rd_receive r (Hready r Hr)).
Qed.

Lemma made_facts r ex tg sends e0 e :
  r ∈ processes -> made sz mpi (init r) (base r) (origin r) GUARD gc ex tg sends e0 -> same_exchange e0 e ->
  (exists off, exchange_ok sz mpi (base r) off e) /\ m_capacityND (e_deviceBuffer e) = extent r ex /\
  exchange e = ex /\ communicationTag e = tg /\ b_alloc (e_deviceBuffer e) = b_alloc (grid r) /\ b_alloc (grid r) ∉ staging e.
Proof.
  intros Hr (Hok & Ha & Hc & _ & Hx & Ht) Hs. pose proof Hs as ((Ea & _ & Ec & _) & _ & _ & Ex & Et).
  pose proof (same_ok sz mpi _ _ _ _ Hs Hok) as Hok'. rewrite (rd_layout r (Hready r Hr)) in *.
  split; [by eexists|]. split; [by rewrite Ec, Hc|]. split; [congruence|]. split; [congruence|]. unfold grid.
  split; [congruence|]. rewrite <- Ha, <- Ea. by eapply ok_apart.
Qed.

(** A state whose grids hold what they held. *)
Lemma same_cells w w' r s s' :
  w_processes w !! r = Some s -> g_buffers (gb s) = g_buffers (gb (init r)) ->
  w_processes w' = <[r := s']> (w_processes w) -> g_buffers (gb s') = g_buffers (gb s) ->
  (forall r' c, r' <> r -> cell sz w' r' c = cell sz w r' c) /\
  (forall c, cell sz w' r c = elem sz (gs_store s') (grid r) c).
Proof.
  intros Es Eb Ep Eb'. split.
  - intros r' c Hne. unfold cell. by rewrite Ep, lookup_insert_ne.
  - intros c. apply (cell_at w' r s'); [by rewrite Ep, lookup_insert_eq|congruence].
Qed.

Lemma send_runs w r ex : inv w -> (r, Sending ex) ∈ w_todo w ->
  exists w', transfer_step sz mpi table r (Sending ex) w = Some w' /\ inv w' /\ w_todo w' = done_with (r, Sending ex) (w_todo w).
Proof.
  intros Hi Ht. pose proof (iv_active w Hi _ _ Ht) as Ha. pose proof (proj1 Ha) as Hr.
  destruct (active_send r ex Ha) as (Hex & _).
  destruct (sending_exchange w r ex Hi Ha) as (s & e & e0 & Es & Eb & Ee & Hsame & Hm & Hn & E0).
  destruct (made_facts r ex _ _ e0 e Hr Hm Hsame) as ((off & Hok) & Ec & Ex & Et & Eal & Hst).
  assert (Hnn : 0 <= b_size (e_deviceBuffer e) <= vol (m_capacityND (e_deviceBuffer e))).
  { rewrite Hn, Ec. split; [|lia]. pose proof (proper_pos _ (ok_proper _ _ _ _ _ Hok)) as [_ Hp]. rewrite Ec in Hp.
    apply vol_nonneg. eapply list.Forall_impl; [exact Hp|cbn; lia]. }
  destruct (send_spec sz Hsz mpi (base r) off e (gs_store s) Hok Hnn) as (e' & st' & msg & Erun & Hs' & Ed & Hc & Hmem).
  assert (Hch : send_channel table r e = chan r ex) by (unfold send_channel, chan; by rewrite Ex, Et).
  eexists. split; [unfold transfer_step; rewrite Es; cbn; rewrite Ee; cbn; rewrite Erun; reflexivity|].
  set (s' := mkGridState (set_send ex e' (gb s)) (tags s) st').
  match goal with |- inv ?x /\ _ => set (w' := x) end. split; [|done].
  destruct (same_cells w w' r s s' Es Eb eq_refl eq_refl) as [Hother Hself].
  assert (Hcell : forall r' c, cell sz w' r' c = cell sz w r' c).
  { intros r' c. destruct (decide (r' = r)) as [->|]; [|by apply Hother]. rewrite Hself, (cell_at w r s) by done.
    unfold elem. cbn [gs_store s']. rewrite Hmem; done. }
  assert (Hin : forall x, x <> (r, Sending ex) -> x ∈ w_todo w' <-> x ∈ w_todo w).
  { intros x Hx. cbn [w_todo w']. rewrite done_with_elem. tauto. }
  assert (Hgone : (r, Sending ex) ∉ w_todo w') by (cbn [w_todo w']; rewrite done_with_elem; tauto).
  assert (Hqueue : forall c, queue_of w' c = if decide (c = chan r ex) then queue_of w c ++ [msg] else queue_of w c).
  { intros c. unfold queue_of. cbn [w_net w']. rewrite Hch. case_decide as Hcc.
    - subst c. by rewrite lookup_insert_eq.
    - by rewrite lookup_insert_ne. }
  constructor.
  - cbn [w_todo w']. unfold done_with. apply list.NoDup_filter, Hi.
  - intros r' t Hx. apply (iv_active w Hi). cbn [w_todo w'] in Hx. by apply done_with_elem in Hx as [_ Hx].
  - intros r' ex' Hx. cbn [w_todo w'] in Hx |- *. rewrite done_with_elem in Hx |- *. destruct Hx as [_ Hx]. split; [done|]. by apply (iv_order w Hi).
  - intros r' Hr'. destruct (iv_process w Hi r' Hr') as (s1 & E1 & B1 & S1 & R1).
    destruct (decide (r' = r)) as [->|Hne].
    + rewrite Es in E1. injection E1 as <-. exists s'. split; [by cbn; rewrite lookup_insert_eq|]. split; [exact Eb|]. split; [|exact R1].
      intros ex' e1 He1. cbn. destruct (decide (ex' = ex)) as [->|Hx].
      * rewrite lookup_insert_eq. exists e'. split; [done|]. rewrite E0 in He1. injection He1 as <-.
        split; [by eapply same_trans|]. by rewrite Ed.
      * rewrite lookup_insert_ne by done. by apply S1.
    + exists s1. split; [by cbn; rewrite lookup_insert_ne|done].
  - intros r' ex' Ha'. pose proof (iv_net w Hi r' ex' Ha') as Hnet. pose proof (active_send r' ex' Ha') as (Hex' & _).
    rewrite Hqueue. destruct (decide ((r', ex') = (r, ex))) as [[= -> ->]|Hne].
    + rewrite (decide_True (P := chan r ex = chan r ex)) by done.
      rewrite decide_False in Hnet by tauto. rewrite Hnet. rewrite decide_True.
      2: { split; [done|]. apply Hin; [done|]. by apply (iv_order w Hi). }
      exists msg. split; [done|]. rewrite Hn, Ec in Hc. eapply carries_elem; [exact Hc|]. intros idx Hidx _.
      rewrite (proj1 (made_elem r true ex _ e0 e (gs_store s) idx Hr Hex Hm Hsame Hidx)).
      rewrite <- (cell_at w r s) by done. symmetry. apply (iv_rest w Hi); [done|by apply (cell_in_grid _ _ (Hdim r Hr) BORDER)|].
      intros ex'' idx'' Ha'' _ Hi''. pose proof (active_receive r ex'' Ha'') as (Hex'' & _).
      by apply (border_not_guard (layout r) gc (Hdim r Hr)).
    + rewrite (decide_False (P := chan r' ex' = chan r ex)).
      2: { intros E. apply Hne. destruct (chan_inj r' ex' r ex Hex' Hex (proj1 Ha') E) as [-> ->]. done. }
      assert (H1 : (r', Sending ex') ∈ w_todo w' <-> (r', Sending ex') ∈ w_todo w) by (apply Hin; congruence).
      assert (H2 : (table r' ex', Receiving (mirror ex')) ∈ w_todo w' <-> (table r' ex', Receiving (mirror ex')) ∈ w_todo w) by (apply Hin; congruence).
      revert Hnet. clear -H1 H2. repeat case_decide; tauto.
  - intros c Hc'. rewrite Hqueue in Hc'. case_decide as Hcc; [by exists r, ex|]. by apply (iv_channels w Hi).
  - intros r' ex' Ha' Hd idx Hidx. rewrite Hcell. apply (iv_done w Hi); [done|by rewrite <- Hin|done].
  - intros r' c Hr' Hcr Hno. rewrite Hcell. apply (iv_rest w Hi); [done|done|]. intros ex' idx' Ha' Hd. apply Hno; [done|by rewrite Hin].
Qed.

(** Cells outside the box of a receive keep their values. *)
Lemma received_outside r ex tg e0 e e' n msg st st' c :
  r ∈ processes -> in_directions ex -> made sz mpi (init r) (base r) (origin r) GUARD gc ex tg false e0 -> same_exchange e0 e ->
  received sz n msg e e' st st' -> in_range (sizeND (layout r)) c ->
  (forall idx, in_range (extent r ex) idx -> c <> guard_cell r ex idx) ->
  elem sz st' (grid r) c = elem sz st (grid r) c.
Proof.
  intros Hr Hex Hm Hsame (_ & _ & _ & _ & Hout & _) Hc Hno.
  destruct (made_facts r ex _ _ e0 e Hr Hm Hsame) as (_ & Ec & _ & _ & Eal & _).
  assert (Hmem : forall x : Store, mem_of x (e_deviceBuffer e) = mem_of x (grid r)) by (intros x; unfold mem_of; by rewrite Eal).
  rewrite !Hmem, Ec in Hout. unfold elem. apply Hout. intros idx Hidx E.
  destruct (made_elem r false ex _ e0 e st idx Hr Hex Hm Hsame Hidx) as [_ Ep]. rewrite Ep in E.
  pose proof (rd_grid r (Hready r Hr)) as [Hon Hext _ _]. fold (grid r) in Hon, Hext. rewrite (rd_layout r (Hready r Hr)) in Hext.
  apply (Hno idx Hidx). symmetry. apply (on_inj sz Hsz _ _ _ _ _ Hon); rewrite ?Hext; [|done|exact E].
  by apply (cell_in_grid _ _ (Hdim r Hr) GUARD).
Qed.

Lemma receive_runs w r ex : inv w -> (r, Receiving ex) ∈ w_todo w -> (table r ex, Sending (mirror ex)) ∉ w_todo w ->
  exists w', transfer_step sz mpi table r (Receiving ex) w = Some w' /\ inv w' /\ w_todo w' = done_with (r, Receiving ex) (w_todo w).
Proof.
  intros Hi Ht Hsent. pose proof (iv_active w Hi _ _ Ht) as Ha. pose proof (proj1 Ha) as Hr.
  destruct (active_receive r ex Ha) as (Hex & _). destruct (partner_of_receive r ex Ha) as (Hpa & Hpt & Hmm & Hpe).
  destruct (receiving_exchange w r ex Hi Ha) as (s & e & e0 & Es & Eb & Ee & Hsame & Hm & E0).
  destruct (made_facts r ex _ _ e0 e Hr Hm Hsame) as ((off & Hok) & Ec & Ex & Et & Eal & Hst).
  assert (Hch : receive_channel table r e = chan (table r ex) (mirror ex)).
  { unfold receive_channel, chan. by rewrite Ex, Et, Hpt. }
  pose proof (iv_net w Hi _ _ Hpa) as Hq. rewrite Hpt, Hmm, decide_True in Hq by done. destruct Hq as (msg & Eq & Hc).
  rewrite <- Hpe in Hc.
  destruct (receive_spec sz Hsz mpi (base r) off e msg (gs_store s) Hok) as (e' & st' & Erun & Hrec).
  { rewrite Ec. destruct Hc as [-> _]. done. }
  eexists. split; [unfold transfer_step; rewrite Es; cbn; rewrite Ee; cbn; rewrite Hch, Eq, Erun; reflexivity|].
  set (s' := mkGridState (set_receive ex e' (gb s)) (tags s) st').
  match goal with |- inv ?x /\ _ => set (w' := x) end. split; [|done].
  destruct (same_cells w w' r s s' Es Eb eq_refl eq_refl) as [Hother Hself].
  assert (Hout : forall c, in_range (sizeND (layout r)) c -> (forall idx, in_range (extent r ex) idx -> c <> guard_cell r ex idx) ->
    cell sz w' r c = cell sz w r c).
  { intros c Hcr Hno. rewrite Hself, (cell_at w r s) by done. exact (received_outside r ex _ e0 e e' _ msg (gs_store s) st' c Hr Hex Hm Hsame Hrec Hcr Hno). }
  assert (Hin : forall x, x <> (r, Receiving ex) -> x ∈ w_todo w' <-> x ∈ w_todo w).
  { intros x Hx. cbn [w_todo w']. rewrite done_with_elem. tauto. }
  assert (Hgone : (r, Receiving ex) ∉ w_todo w') by (cbn [w_todo w']; rewrite done_with_elem; tauto).
  assert (Hqueue : forall c, queue_of w' c = if decide (c = chan (table r ex) (mirror ex)) then [] else queue_of w c).
  { intros c. unfold queue_of. cbn [w_net w']. case_decide as Hcc.
    - subst c. by rewrite lookup_insert_eq.
    - by rewrite lookup_insert_ne. }
  (** The receive belongs to one send. *)
  assert (Hpair : forall r' ex', active r' (Sending ex') -> (table r' ex', Receiving (mirror ex')) = (r, Receiving ex) ->
    r' = table r ex /\ ex' = mirror ex).
  { intros r' ex' Ha' [= E1 E2]. destruct (partner_of_send r' ex' Ha') as (_ & Ht' & Hm' & _). rewrite E1, E2 in Ht'.
    rewrite E2 in Hm'. done. }
  constructor.
  - cbn [w_todo w']. unfold done_with. apply list.NoDup_filter, Hi.
  - intros r' t Hx. apply (iv_active w Hi). cbn [w_todo w'] in Hx. by apply done_with_elem in Hx as [_ Hx].
  - intros r' ex' Hx. cbn [w_todo w'] in Hx |- *. rewrite done_with_elem in Hx |- *. destruct Hx as [_ Hx]. split; [|by apply (iv_order w Hi)].
    intros E. destruct (Hpair r' ex' (iv_active w Hi _ _ Hx) E) as [-> ->]. done.
  - intros r' Hr'. destruct (iv_process w Hi r' Hr') as (s1 & E1 & B1 & S1 & R1).
    destruct (decide (r' = r)) as [->|Hne].
    + rewrite Es in E1. injection E1 as <-. exists s'. split; [by cbn; rewrite lookup_insert_eq|]. split; [exact Eb|]. split; [exact S1|].
      intros ex' e1 He1. cbn. destruct (decide (ex' = ex)) as [->|Hx].
      * rewrite lookup_insert_eq. exists e'. split; [done|]. rewrite E0 in He1. injection He1 as <-.
        eapply same_trans; [exact Hsame|]. apply Hrec.
      * rewrite lookup_insert_ne by done. by apply R1.
    + exists s1. split; [by cbn; rewrite lookup_insert_ne|done].
  - intros r' ex' Ha'. pose proof (iv_net w Hi r' ex' Ha') as Hnet. pose proof (active_send r' ex' Ha') as (Hex' & _).
    rewrite Hqueue. destruct (decide ((r', ex') = (table r ex, mirror ex))) as [[= -> ->]|Hne].
    + rewrite (decide_True (P := chan _ _ = chan _ _)) by done. rewrite decide_False; [done|]. rewrite Hpt, Hmm. tauto.
    + rewrite (decide_False (P := chan r' ex' = _)).
      2: { intros E. apply Hne. pose proof (active_send _ _ Hpa) as (Hexm & _).
           destruct (chan_inj r' ex' _ _ Hex' Hexm (proj1 Ha') E) as [-> ->]. done. }
      assert (H1 : (r', Sending ex') ∈ w_todo w' <-> (r', Sending ex') ∈ w_todo w) by (apply Hin; congruence).
      assert (H2 : (table r' ex', Receiving (mirror ex')) ∈ w_todo w' <-> (table r' ex', Receiving (mirror ex')) ∈ w_todo w).
      { apply Hin. intros E. apply Hne. by destruct (Hpair r' ex' Ha' E) as [-> ->]. }
      revert Hnet. clear -H1 H2. repeat case_decide; tauto.
  - intros c Hc'. rewrite Hqueue in Hc'. case_decide as Hcc; [done|]. by apply (iv_channels w Hi).
  - intros r' ex' Ha' Hd idx Hidx. destruct (decide (r' = r)) as [->|Hne]; [destruct (decide (ex' = ex)) as [->|Hx]|].
    + rewrite Hself. etransitivity; [symmetry; exact (proj1 (made_elem r false ex _ e0 e st' idx Hr Hex Hm Hsame Hidx))|].
      destruct Hrec as (_ & _ & _ & [Ln Hc2] & _). rewrite Ec in Hc2. destruct Hc as [Ln' Hc].
      assert (Hlt : linearize (extent r ex) idx < vol (extent r ex)).
      { apply linearize_range; [|done]. apply (proper_pos (extent r ex)). rewrite <- Ec. apply Hok. }
      specialize (Hc2 idx Hidx ltac:(lia)). specialize (Hc idx Hidx Hlt). congruence.
    + pose proof (active_receive r ex' Ha') as (Hex' & _).
      rewrite Hout; [|by apply (cell_in_grid _ _ (Hdim r Hr) GUARD)|].
      * apply (iv_done w Hi); [done| |done]. rewrite <- Hin; [done|congruence].
      * intros idx' Hidx' E. apply Hx. by eapply (guard_cells_disjoint (layout r) gc (Hdim r Hr)).
    + rewrite Hother by done. apply (iv_done w Hi); [done| |done]. rewrite <- Hin; [done|congruence].
  - intros r' c Hr' Hcr Hno. destruct (decide (r' = r)) as [->|Hne].
    + rewrite Hout; [|done|intros idx Hidx; by apply Hno]. apply (iv_rest w Hi); [done|done|].
      intros ex' idx' Ha' Hd. apply Hno; [done|]. destruct (decide (ex' = ex)) as [->|]; [done|]. rewrite Hin; [done|congruence].
    + rewrite Hother by done. apply (iv_rest w Hi); [done|done|]. intros ex' idx' Ha' Hd. apply Hno; [done|]. rewrite Hin; [done|congruence].
Qed.

Lemma same_refl e : same_exchange e e.
Proof. unfold same_exchange, same_option, same_buffer. destruct (deviceDoubleBuffer e), (e_hostBuffer e); done. Qed.

Lemma start_inv w : start w -> inv w.
Proof.
  intros (Hp & Hn & Hnd & Hin).
  assert (Hq : forall c, queue_of w c = []) by (intros c; unfold queue_of; by rewrite Hn, lookup_empty).
  constructor; try done.
  - intros r t. apply Hin.
  - intros r ex Hx%Hin. apply Hin. by apply (partner_of_send r ex Hx).
  - intros r Hr. exists (init r). split; [by apply Hp|]. split; [done|]. split.
    + intros ex e0 E. exists e0. split; [done|]. split; [apply same_refl|].
      destruct (rd_send r (Hready r Hr) ex e0 E) as (_ & _ & _ & Hb & _). rewrite Hb. unfold extent.
      by rewrite (rd_layout r (Hready r Hr)).
    + intros ex e0 E. exists e0. split; [done|apply same_refl].
  - intros r ex Ha. rewrite decide_False; [apply Hq|]. intros [Hx _]. by apply Hx, Hin.
  - intros c Hc. by rewrite Hq in Hc.
  - intros r ex Ha Hx. by destruct Hx; apply Hin.
  - intros r c Hr Hc _. unfold cell, before, grid. by rewrite (Hp r Hr).
Qed.

Lemma step_inv w w' : inv w -> world_step sz mpi table w w' ->
  inv w' /\ (S (length (w_todo w')) = length (w_todo w))%nat.
Proof.
  intros Hi Hs. destruct Hs as [r t w w' Ht Hs].
  assert (H : inv w' /\ w_todo w' = done_with (r, t) (w_todo w)).
  { destruct t as [ex|ex].
    - destruct (send_runs w r ex Hi Ht) as (w1 & E & H1). rewrite Hs in E. by injection E as ->.
    - destruct (decide ((table r ex, Sending (mirror ex)) ∈ w_todo w)) as [Hw|Hw].
      + exfalso. pose proof (iv_active w Hi _ _ Ht) as Ha. destruct (partner_of_receive r ex Ha) as (Hpa & Hpt & _).
        pose proof (iv_net w Hi _ _ Hpa) as Hq. rewrite decide_False in Hq by tauto.
        destruct (receiving_exchange w r ex Hi Ha) as (s & e & e0 & Es & _ & Ee & Hsame & Hm & _).
        destruct (made_facts r ex _ _ e0 e (proj1 Ha) Hm Hsame) as (_ & _ & Ex & Et & _).
        unfold transfer_step in Hs. rewrite Es in Hs. cbn in Hs. rewrite Ee in Hs. cbn in Hs.
        unfold receive_channel in Hs. unfold chan in Hq. rewrite Hpt in Hq. rewrite Ex, Et, Hq in Hs. done.
      + destruct (receive_runs w r ex Hi Ht Hw) as (w1 & E & H1). rewrite Hs in E. by injection E as ->. }
  destruct H as [Hi' Etodo]. split; [done|]. rewrite Etodo.
  assert (Hp : (r, t) :: done_with (r, t) (w_todo w) ≡ₚ w_todo w).
  { apply NoDup_Permutation.
    - apply list.NoDup_cons. split; [rewrite done_with_elem; tauto|]. apply list.NoDup_filter, Hi.
    - apply Hi.
    - intros x. rewrite elem_of_cons, done_with_elem. split; [intros [->|[_ ?]]; done|].
      intros Hx. destruct (decide (x = (r, t))); [by left|by right]. }
  pose proof (Permutation_length Hp) as Hlen. exact Hlen.
Qed.

Lemma inv_progress w : inv w -> w_todo w <> [] -> exists w', world_step sz mpi table w w'.
Proof.
  intros Hi Hne. destruct (w_todo w) as [|[r t] l] eqn:E; [done|].
  assert (Ht : (r, t) ∈ w_todo w) by (rewrite E; left). destruct t as [ex|ex].
  - destruct (send_runs w r ex Hi Ht) as (w' & Hs & _). exists w'. by eapply world_transfer.
  - destruct (decide ((table r ex, Sending (mirror ex)) ∈ w_todo w)) as [Hw|Hw].
    + destruct (send_runs w _ _ Hi Hw) as (w' & Hs & _). exists w'. by eapply world_transfer.
    + destruct (receive_runs w r ex Hi Ht Hw) as (w' & Hs & _). exists w'. by eapply world_transfer.
Qed.

(** Whatever the interleaving, the transfers complete and the guards hold the borders. *)
Lemma halos_run w0 n w :
  start w0 -> nsteps (world_step sz mpi table) n w0 w ->
  (n + length (w_todo w) = length (w_todo w0))%nat /\
  (w_todo w <> [] -> exists w', world_step sz mpi table w w') /\
  (w_todo w = [] ->
     (forall c, queue_of w c = []) /\
     forall r, r ∈ processes ->
       (forall ex idx, active r (Receiving ex) -> in_range (extent r ex) idx ->
          cell sz w r (guard_cell r ex idx) = cell sz w0 (table r ex) (border_cell (table r ex) (mirror ex) idx)) /\
       (forall c, in_range (sizeND (layout r)) c ->
          (forall ex idx, active r (Receiving ex) -> in_range (extent r ex) idx -> c <> guard_cell r ex idx) ->
          cell sz w r c = cell sz w0 r c)).
Proof.
  intros Hstart Hrun. assert (Hcell : forall r c, r ∈ processes -> cell sz w0 r c = before r c).
  { intros r c Hr. unfold cell, before, grid. destruct Hstart as [Hp _]. by rewrite (Hp r Hr). }
  assert (H : inv w /\ (n + length (w_todo w) = length (w_todo w0))%nat).
  { apply start_inv in Hstart. clear Hcell. induction Hrun as [w|n w0 w1 w Hs Hrun IH]; [done|].
    destruct (step_inv w0 w1 Hstart Hs) as [Hi1 El]. destruct (IH Hi1) as [Hi E]. split; [done|]. cbn. rewrite E. lia. }
  destruct H as [Hi El]. split; [done|]. split; [by apply inv_progress|]. intros Hnil. split.
  - intros c. destruct (queue_of w c) eqn:Eq; [done|]. exfalso.
    destruct (iv_channels w Hi c ltac:(by rewrite Eq)) as (r & ex & Ha & ->).
    pose proof (iv_net w Hi r ex Ha) as Hq. rewrite decide_False in Hq by (rewrite Hnil; intros [_ Hx]; by apply elem_of_nil in Hx).
    congruence.
  - intros r Hr. split.
    + intros ex idx Ha Hidx. destruct (partner_of_receive r ex Ha) as ([Hp _] & _).
      rewrite Hcell by done. apply (iv_done w Hi); [done|rewrite Hnil; apply not_elem_of_nil|done].
    + intros c Hc Hno. rewrite Hcell by done. apply (iv_rest w Hi); [done|done|]. intros ex idx Ha _. by apply Hno.
Qed.

End Halo.
