(* ===== verification/HaloGrid.v ===== *)
(** * Halo exchange on a Cartesian process grid

    The assumptions of the halo exchange, discharged: the communicators of a Cartesian
    topology after any number of slides are [Neighbours], and a grid buffer that was
    created and given its exchanges is ready.  What the exchange does is stated cell by cell
    of the joined grids, without the boxes of its code.  A run of two processes shows it
    at work. *)
From Stdlib Require Import ZArith Lia.
From stdpp Require Import base list list_numbers numbers gmap strings relations.
From S2P Require Import Prelude Outcome DataSpaces ExchangeMask GridMapping FrameList Buffers Exchange GridBuffers GridComm HaloExchange.
Open Scope Z_scope.

(** ** Communicators *)

Section Cartesian.
Context (nodes per : DataSpace) (n : nat) (snapshot : Z -> TopologySnapshot) (processes : list Z).
Context (Hnodes : grid_nodes nodes).
(** MPI's topology: the processes are the ranks of the grid's coordinates. *)
Context (Hsnap : forall r, r ∈ processes -> Cartesian nodes (snapshot r) /\ ts_rank (snapshot r) = r).
Context (Hall : forall c, in_range nodes c -> cart_rank nodes c ∈ processes).

(** The communicator of a process after [n] slides. *)
Definition comm_of (r : Z) : Comm := (slides n false (Comm_init (snapshot r) (pad_nodes nodes) (pad_nodes per))).2.
Definition comm_table (r ex : Z) : Z := default (-1) (ExchangeTypeToRank (comm_of r) ex).
Definition comm_mask (r : Z) : Mask := (comm_of r).(communicationMask).

(** The table of a placed communicator. *)
Lemma placed_entry c ex :
  well_placed c -> 1 <= ex < 3 ^ Z.of_nat (DIM c) ->
  isSet (updateCoordinates c).(communicationMask) ex = round_ok c (window_coords c) ex /\
  (round_ok c (window_coords c) ex = true ->
     (updateCoordinates c).(ranks) !! ex = Some (cart_rank (extents c) (neighbour_base c ex))).
Proof.
  intros Hc Hex. assert (Hex27 : 1 <= ex < 27).
  { destruct (wp_dim c Hc) as [E|E]; rewrite E in Hex; [change (3 ^ Z.of_nat 2) with 9 in Hex|change (3 ^ Z.of_nat 3) with 27 in Hex]; lia. }
  assert (Hin : ex ∈ directions c) by (apply directions_spec; [apply (wp_dim c Hc)|done]).
  pose proof (update_ranks c ex) as Hr. rewrite (bool_decide_eq_true_2 _ Hin), (round_rank_cart c ex Hc Hex27) in Hr.
  pose proof (update_mask c ex ltac:(lia)) as Hm. rewrite (bool_decide_eq_true_2 _ Hin) in Hm.
  split; [exact Hm|]. intros Hok. by rewrite Hr, Hok.
Qed.

#[export] Instance cartesian_neighbours : Neighbours (length nodes) processes comm_table comm_mask.
Proof.
  constructor. intros r ex Hr Hex Hm. rewrite NumberOfExchanges_pow in Hex by (destruct Hnodes as [[E|E] _]; rewrite E; lia).
  destruct (Hsnap r Hr) as [H1 Er]. set (y := window_after (at_ (pad_nodes nodes) 1) 0 (Z.of_nat n)).
  assert (Hy : - at_ (pad_nodes nodes) 1 < y <= 0) by (apply window_after_range; by apply pad_y).
  assert (Hcomm : forall r', r' ∈ processes -> comm_of r' = updateCoordinates (raw_comm (snapshot r') nodes per y)).
  { intros r' Hr'. apply slides_of_init; [done|by apply Hsnap]. }
  assert (Hplaced : forall r', r' ∈ processes -> well_placed (raw_comm (snapshot r') nodes per y)).
  { intros r' Hr'. apply raw_placed; [done|by apply Hsnap|done]. }
  assert (HD : forall r', r' ∈ processes -> DIM (raw_comm (snapshot r') nodes per y) = length nodes).
  { intros r' Hr'. apply in_range_length, (Hsnap r' Hr'). }
  assert (Hx : forall r', r' ∈ processes -> extents (raw_comm (snapshot r') nodes per y) = nodes).
  { intros r' Hr'. unfold extents. rewrite (HD r' Hr'). by apply pad_take. }
  set (a := raw_comm (snapshot r) nodes per y) in *. pose proof (Hplaced r Hr) as Ha. fold a in Ha.
  assert (HDa : DIM a = length nodes) by apply (HD r Hr). assert (Hxa : extents a = nodes) by apply (Hx r Hr).
  destruct (placed_entry a ex Ha ltac:(rewrite HDa; done)) as [Ma Ra].
  unfold comm_mask in Hm. rewrite (Hcomm r Hr) in Hm. fold a in Hm. rewrite Ma in Hm. specialize (Ra Hm).
  set (r' := cart_rank nodes (neighbour_base a ex)).
  assert (Et : comm_table r ex = r').
  { unfold comm_table, ExchangeTypeToRank. rewrite (Hcomm r Hr). fold a. rewrite Ra, Hxa. done. }
  assert (Hr' : r' ∈ processes) by (apply Hall; pose proof (neighbour_base_range a ex Ha) as Hb0; by rewrite Hxa in Hb0).
  rewrite Et. split; [done|]. destruct (Hsnap r' Hr') as [H2 Er'].
  set (b := raw_comm (snapshot r') nodes per y). pose proof (Hplaced r' Hr') as Hb. fold b in Hb.
  assert (HDb : DIM b = length nodes) by apply (HD r' Hr').
  assert (Hs : same_grid a b) by (unfold same_grid; split_and!; [done..|congruence]).
  destruct (tables_agree a b ex Ha Hb Hs ltac:(rewrite HDa; done) Hm) as (Hok & Erank & _).
  { rewrite Hxa. cbn. by rewrite Er'. }
  pose proof (mirror_bound (length nodes) ex (proj1 Hnodes) Hex) as Hme.
  destruct (placed_entry b (mirror ex) Hb ltac:(rewrite HDb; done)) as [Mb Rb].
  unfold comm_mask, comm_table, ExchangeTypeToRank. rewrite (Hcomm r' Hr'). fold b. rewrite Mb, (Rb Hok). split; [done|].
  rewrite Erank. exact Er.
Qed.
End Cartesian.

(** ** Grid buffers *)

Section Ready.
Context {V : Type} `{AM : AlpakaMemory V} {AML : AlpakaMemoryLaws V} (sz : Z) (mpi : bool).

(** Creating a grid buffer and adding the exchanges of its guard makes it ready, with
    whatever values its cells are given afterwards. *)
Lemma added_ready l gc tag receive sod sods sodr ts st :
  layout_ok l gc ->
  (forall ex, 1 <= ex < NumberOfExchanges (length gc) -> uniq_tag tag ex ∉ ts) ->
  exists s s', GridBuffer_new sz l sod ts st = Ret s /\
    addExchange sz mpi (length gc) GUARD receive gc tag sods sodr s = (Ret tt, s') /\
    forall st' r, next_alloc st' = next_alloc (gs_store s') ->
      ready sz mpi gc tag receive (fun _ => sizeND l) (fun _ => create (length (sizeND l)) 0) (fun _ => l)
        (fun _ => mkGridState (gb s') (tags s') st') r.
Proof.
  intros Hl Hts. pose proof (proj1 Hl) as Hd.
  destruct (GridBuffer_new_ok sz (length gc) Hd l gc sod ts st Hl) as (s & E & Hg & Hs & Hh & El & Et & Em).
  destruct (addExchange_ok sz mpi (length gc) Hd _ _ GUARD receive gc tag sods sodr s Hg Hs) as (s' & E' & Hs' & Hg' & _ & Em' & Hdir & _ & Eb & El').
  { congruence. } { intros _ ex Hex _ _. rewrite Et. by apply Hts. } { intros ex Hex _. by rewrite Em. }
  exists s, s'. split; [done|]. split; [done|]. intros st' r Hst.
  pose proof (sl_has _ _ Hs Hh) as Hnone.
  assert (Hrnone : forall ex, 1 <= ex < NumberOfExchanges (length gc) -> receiveExchanges (gb s) !! ex = None).
  { intros ex Hex. pose proof (sl_receive_mask _ _ Hs ex Hex) as Hm. rewrite Em in Hm. symmetry in Hm.
    apply bool_decide_eq_false in Hm. by apply eq_None_not_Some. }
  assert (Hmade : forall ex tg sends e, made sz mpi s (sizeND l) (create (length (sizeND l)) 0) GUARD gc ex tg sends e ->
    made sz mpi (mkGridState (gb s') (tags s') st') (sizeND l) (create (length (sizeND l)) 0) GUARD gc ex tg sends e).
  { intros ex tg sends e. unfold made. cbn [gb]. by rewrite Eb, El'. }
  constructor; cbn.
  - destruct Hg' as [G1 G2 G3 G4]. constructor; cbn; [done..|by rewrite Hst].
  - by rewrite El'.
  - done.
  - intros ex [Hex _]. rewrite Em', isSet_join, Em by lia. done.
  - intros ex e He. destruct (sl_send _ _ Hs' ex ltac:(by rewrite He)) as [Hex _].
    destruct (mirror_exchanges _ ex Hd Hex) as (_ & Hme & Hmm & _). specialize (Hdir _ Hme). unfold direction_added in Hdir.
    rewrite Hmm in Hdir. destruct (isSet receive (mirror ex)).
    + destruct Hdir as (e1 & e2 & _ & E1 & _ & M1). rewrite E1 in He. injection He as <-. by apply Hmade.
    + destruct Hdir as [_ E1]. rewrite E1, Hnone in He. by rewrite lookup_empty in He.
  - intros ex e He. destruct (sl_receive _ _ Hs' ex ltac:(by rewrite He)) as [Hex _]. specialize (Hdir _ Hex). unfold direction_added in Hdir.
    destruct (isSet receive ex).
    + destruct Hdir as (e1 & e2 & E2 & _ & M2 & _). rewrite E2 in He. injection He as <-. by apply Hmade.
    + destruct Hdir as [E2 _]. rewrite E2, Hrnone in He by done. done.
Qed.
End Ready.

Lemma ready_at {V : Type} `{AM : AlpakaMemory V} sz mpi gc tag receive base origin layout (init init' : Z -> GridState (V := V)) r :
  init r = init' r -> ready sz mpi gc tag receive base origin layout init r -> ready sz mpi gc tag receive base origin layout init' r.
Proof.
  intros E [H1 H2 H3 H4 H5 H6]. rewrite E in *. by constructor.
Qed.

(** ** Cells and their places in the neighbour's grid *)

(** The process that lies in the direction [d] of [r]: one further in the grid of processes on
    every axis that [d] crosses, around the end. *)
Definition neighbour (nodes : DataSpace) (snapshot : Z -> TopologySnapshot) (r : Z) (d : DataSpace) : Z :=
  cart_rank nodes (vmod (vadd (ts_coordinates (snapshot r)) d) nodes).

(** Where a process lies in the window after [slid] slides, and whether the grid goes on in the direction [d] from there:
    on every axis it is periodic or there is another process. *)
Definition window_position (nodes : DataSpace) (slid : nat) (coords : DataSpace) : DataSpace :=
  on_y (fun y => (y - Z.of_nat slid) mod at_ nodes 1) coords.
Fixpoint has_neighbour (per nodes position d : DataSpace) : bool :=
  match per, nodes, position, d with
  | p :: per, n :: nodes, x :: position, s :: d =>
      (negb (p =? 0) || (0 <=? x + s) && (x + s <? n)) && has_neighbour per nodes position d
  | _, _, _, _ => true
  end.

(** On one axis, with [n] cells between guards of [g]: the first cell of the neighbour in direction [d],
    whose axis has [n'] cells between guards of [g'], lies [n] cells after the first cell of this one, [n'] cells before
    it, or where it lies.  So the coordinate [x] is this coordinate over there. *)
Definition facing_axis (d n g n' g' x : Z) : Z :=
  g' + (x - g) - (if d =? 1 then n else if d =? -1 then - n' else 0).
Fixpoint facing (d n g n' g' c : DataSpace) : DataSpace :=
  match d, n, g, n', g', c with
  | d :: ds, n :: ns, g :: gs, n' :: ns', g' :: gs', x :: cs => facing_axis d n g n' g' x :: facing ds ns gs ns' gs' cs
  | _, _, _, _, _, _ => []
  end.

(** The cells of the guard next to the inner cells, as many as are exchanged, and the inner cells. *)
Fixpoint near (n g gc c : DataSpace) : bool :=
  match n, g, gc, c with
  | n :: ns, g :: gs, k :: ks, x :: cs => (g - k <=? x) && (x <? g + n + k) && near ns gs ks cs
  | _, _, _, _ => true
  end.

Lemma sides_digits n g (gc c : DataSpace) :
  Forall3 (fun n g k => 1 <= k /\ k <= g /\ k <= n) n g gc -> length c = length gc ->
  length (sides n g c) = length gc /\ Forall (fun x => -1 <= x <= 1) (sides n g c).
Proof.
  intros H. revert c. induction H as [|n g k ns gs ks H Hl IH]; intros [|x c] L; try discriminate L; [by split|].
  injection L as L. destruct (IH c L) as [I1 I2]. cbn. split; [by rewrite I1|]. constructor; [|done]. unfold side. repeat case_match; lia.
Qed.

(** A near cell is a cell of the box of its direction, and the cell it faces is the same cell of
    the box of the border over there. *)
Lemma near_box n g gc c n' g' :
  Forall3 (fun n g k => 1 <= k /\ k <= g /\ k <= n) n g gc -> Forall3 (fun n g k => 1 <= k /\ k <= g /\ k <= n) n' g' gc ->
  in_range (vadd (vadd n g) g) c -> near n g gc c = true ->
  exists idx, in_range (boxes_size n gc (sides n g c)) idx /\ c = vadd (boxes_from GUARD n g gc (sides n g c)) idx /\
    facing (sides n g c) n g n' g' c = vadd (boxes_from BORDER n' g' gc (map Z.opp (sides n g c))) idx.
Proof.
  intros H. revert n' g' c. induction H as [|n g k ns gs ks H Hl IH]; intros n' g' c H' Hc Hn.
  { inversion H'; subst. inversion Hc; subst. exists []. by split_and!; [constructor|..]. }
  inversion H' as [|m h k' ms hs ks' Hm Hl']; subst. unfold vadd in Hc. cbn [zip_with] in Hc. inversion Hc as [|? x ? cs Hx Hcs]; subst.
  cbn [near] in Hn. apply andb_true_iff in Hn as [[H1%Z.leb_le H2%Z.ltb_lt]%andb_true_iff Hn].
  destruct (IH ms hs cs Hl' Hcs Hn) as (idx & Hi & Ec & Ef). exists (x - box_from GUARD n g k (side n g x) :: idx).
  cbn [sides boxes_size boxes_from facing map]. unfold vadd in *. cbn [zip_with]. split_and!.
  - constructor; [|done]. unfold box_size, box_from, side. repeat case_match; lia.
  - rewrite <- Ec. f_equal. lia.
  - rewrite <- Ef. f_equal. unfold facing_axis, box_from, side. repeat case_match; lia.
Qed.

Lemma box_near n g gc d idx :
  Forall3 (fun n g k => 1 <= k /\ k <= g /\ k <= n) n g gc -> length d = length gc -> Forall (fun x => -1 <= x <= 1) d ->
  in_range (boxes_size n gc d) idx -> near n g gc (vadd (boxes_from GUARD n g gc d) idx) = true.
Proof.
  intros H. revert d idx. induction H as [|n g k ns gs ks H Hl IH]; intros [|x d] idx L Hd Hi; try discriminate L; [done|].
  injection L as L. apply list.Forall_cons in Hd as [Hx Hd]. cbn in Hi. inversion Hi as [|? y ? idx' Hy Hi']; subst.
  cbn [boxes_from]. unfold vadd. cbn [zip_with near]. specialize (IH d idx' L Hd Hi'). unfold vadd in IH. rewrite IH, andb_true_r.
  apply andb_true_iff. rewrite Z.leb_le, Z.ltb_lt. unfold box_from, box_size in *. repeat case_match; lia.
Qed.

(** Extents that agree on the axes a direction does not cross make boxes of the same extents. *)
Lemma boxes_size_agree (n n' gc d : DataSpace) : Forall3 (fun x s s' => x = 0 -> s = s') d n n' ->
  boxes_size n gc d = boxes_size n' gc (map Z.opp d).
Proof.
  intros H. revert gc. induction H as [|x s s' d n n' H Hl IH]; intros [|k gc]; cbn; [done..|]. rewrite (IH gc). f_equal.
  unfold box_size. destruct (Z.eqb_spec x 0) as [->|]; [by apply H|]. by rewrite (proj2 (Z.eqb_neq _ _)) by lia.
Qed.

(** The cells of a guard are the near cells of their direction. *)
Lemma guard_cell_near l gc ex idx :
  layout_ok l gc -> 1 <= ex < NumberOfExchanges (length gc) -> in_range (exchange_extent l gc ex) idx ->
  near l.(m_sizeND) l.(m_guardSizeND) gc (cell_of l gc GUARD ex idx) = true /\
  direction_code (sides l.(m_sizeND) l.(m_guardSizeND) (cell_of l gc GUARD ex idx)) = ex.
Proof.
  intros Hl Hex Hi. rewrite (cell_sides l gc Hl GUARD ex idx Hex Hi). destruct (exchange_box l gc ex GUARD Hl (range_27 l gc Hl ex Hex)) as [Eo Ee].
  destruct (digits_ok gc ex ltac:(lia)). split.
  - unfold cell_of. rewrite Eo. apply box_near; [apply Hl|done..|by rewrite <- Ee].
  - apply directions_code. rewrite <- (NumberOfExchanges_pow _ (proj1 Hl)). lia.
Qed.

(** A near cell outside of the inner cells is the cell of the guard that receives the facing cell. *)
Lemma near_guard_cell l l' gc c :
  layout_ok l gc -> layout_ok l' gc -> in_range (sizeND l) c -> near l.(m_sizeND) l.(m_guardSizeND) gc c = true ->
  let d := sides l.(m_sizeND) l.(m_guardSizeND) c in let ex := direction_code d in
  1 <= ex ->
  1 <= ex < NumberOfExchanges (length gc) /\ getRelativeDirections (length gc) ex = d /\
  exists idx, in_range (exchange_extent l gc ex) idx /\ c = cell_of l gc GUARD ex idx /\
    facing d l.(m_sizeND) l.(m_guardSizeND) l'.(m_sizeND) l'.(m_guardSizeND) c = cell_of l' gc BORDER (mirror ex) idx.
Proof.
  intros Hl Hl' Hc Hn d ex Hex. destruct l as [n g], l' as [n' g']. cbn [m_sizeND m_guardSizeND] in *.
  assert (Lc : length c = length gc).
  { pose proof Hl as [_ Hf]. pose proof (Forall3_length_lm _ _ _ _ Hf). pose proof (Forall3_length_lr _ _ _ _ Hf).
    rewrite (in_range_length _ _ Hc). unfold sizeND, vadd. rewrite !length_zip_with. cbn in *. lia. }
  destruct (sides_digits n g gc c (proj2 Hl) Lc) as [Ld Hd]. fold d in Ld, Hd.
  destruct (direction_code_inv d Hd) as [Hr Ed]. fold ex in Hr, Ed. rewrite Ld in Hr, Ed.
  rewrite <- (NumberOfExchanges_pow _ (proj1 Hl)) in Hr. split; [lia|]. split; [done|].
  pose proof (range_27 _ _ Hl ex ltac:(lia)) as H27. destruct (mirror_exchanges _ ex (proj1 Hl) ltac:(lia)) as (_ & Hm & _).
  destruct (near_box n g gc c n' g' (proj2 Hl) (proj2 Hl') Hc Hn) as (idx & Hi & E1 & E2). exists idx.
  destruct (exchange_box _ gc ex GUARD Hl H27) as [Eo Ee]. destruct (exchange_box _ gc (mirror ex) BORDER Hl' (range_27 _ _ Hl' _ Hm)) as [Eo' _].
  unfold cell_of. rewrite Eo, Eo', Ee, mirror_directions, Ed by (lia || apply Hl). cbn [m_sizeND m_guardSizeND]. by split_and!.
Qed.

(** ** The exchange on the grid *)

(** Component y, moved and moved back modulo its extent. *)
Lemma on_y_shift bc ds n0 m l o :
  vmod (on_y (fun y => y - o) (vadd (on_y (fun y => (y + o) mod m) bc) ds)) (n0 :: m :: l) = vmod (vadd bc ds) (n0 :: m :: l).
Proof.
  destruct bc as [|x [|z bc]], ds as [|d0 [|d1 ds]]; try done. unfold vmod, vadd. cbn [on_y zip_with]. do 2 f_equal.
  rewrite <- (Zminus_mod_idemp_l (_ + d1)), Zplus_mod_idemp_l, Zminus_mod_idemp_l. f_equal. lia.
Qed.

Lemma neighbour_ok_has per nodes position d : neighbour_ok per nodes (vadd position d) = has_neighbour per nodes position d.
Proof.
  unfold neighbour_ok, vadd. revert nodes position d. induction per as [|p per IH]; intros [|n nodes] [|x position] [|s d]; try done.
  cbn [zip zip_with forallb has_neighbour]. rewrite <- IH. f_equal. rewrite negb_andb, negb_orb, Z.leb_antisym, Z.ltb_antisym.
  rewrite !Z.ltb_antisym. by rewrite !negb_involutive.
Qed.

Section Delivered.
Context (nodes per : DataSpace) (slid : nat) (snapshot : Z -> TopologySnapshot) (processes : list Z).
Context (Hnodes : grid_nodes nodes) (Hper : length per = length nodes).
Context (Hsnap : forall r, r ∈ processes -> Cartesian nodes (snapshot r) /\ ts_rank (snapshot r) = r).

(** The mask of a process says where the grid goes on. *)
Lemma mask_neighbour r ex :
  r ∈ processes -> 1 <= ex < NumberOfExchanges (length nodes) ->
  isSet (comm_mask nodes per slid snapshot r) ex =
  has_neighbour per nodes (window_position nodes slid (ts_coordinates (snapshot r))) (getRelativeDirections (length nodes) ex).
Proof.
  intros Hr Hex. rewrite NumberOfExchanges_pow in Hex by (destruct Hnodes as [[E|E] _]; rewrite E; lia).
  destruct (Hsnap r Hr) as [H1 Er]. set (y := window_after (at_ (pad_nodes nodes) 1) 0 (Z.of_nat slid)).
  assert (Hy : - at_ (pad_nodes nodes) 1 < y <= 0) by (apply window_after_range; by apply pad_y).
  set (a := raw_comm (snapshot r) nodes per y). pose proof (raw_placed _ nodes per y Hnodes H1 Hy) as Ha. fold a in Ha.
  assert (HDa : DIM a = length nodes) by apply (in_range_length _ _ (proj1 H1)).
  assert (Hxa : extents a = nodes) by (unfold extents; rewrite HDa; by apply pad_take).
  destruct (placed_entry a ex Ha ltac:(rewrite HDa; done)) as [Ma _].
  assert (Hex27 : 1 <= ex < 27).
  { destruct Hnodes as [[E|E] _]; rewrite E in Hex; [change (3 ^ Z.of_nat 2) with 9 in Hex|change (3 ^ Z.of_nat 3) with 27 in Hex]; lia. }
  unfold comm_mask, comm_of. rewrite (slides_of_init slid _ nodes per Hnodes H1). fold y a. rewrite Ma. unfold round_ok.
  fold (extents a). rewrite Hxa, HDa, steps_directions, neighbour_ok_has by (lia || destruct Hnodes as [[E|E] _]; rewrite E; lia).
  assert (Ep : take (length nodes) (periodic a) = per).
  { cbn. rewrite <- Hper. destruct Hnodes as [[E|E] _]; rewrite E in Hper; destruct per as [|p0 [|p1 [|p2 [|]]]]; try discriminate Hper; done. }
  rewrite Ep. f_equal. rewrite (window_coords_mod a Ha). unfold window_position.
  assert (Ey : at_ (dims a) 1 = at_ nodes 1).
  { cbn. destruct Hnodes as [[E|E] _]; destruct nodes as [|a0 [|a1 [|a2 [|]]]]; try discriminate E; done. }
  rewrite Ey. change (baseCoordinates a) with (ts_coordinates (snapshot r)).
  destruct (ts_coordinates (snapshot r)) as [|x [|z c]]; [done..|]. cbn [on_y]. do 2 f_equal.
  change (yoffset a) with y. unfold y, window_after.
  change (at_ (pad_nodes nodes) 1) with (at_ (dims a) 1). rewrite Ey, Z.sub_0_r.
  rewrite Z.add_opp_r. apply Zminus_mod_idemp_r.
Qed.

(** The table of a process names its neighbours. *)
Lemma table_neighbour r ex :
  r ∈ processes -> 1 <= ex < NumberOfExchanges (length nodes) -> isSet (comm_mask nodes per slid snapshot r) ex = true ->
  comm_table nodes per slid snapshot r ex = neighbour nodes snapshot r (getRelativeDirections (length nodes) ex).
Proof.
  intros Hr Hex Hm. rewrite NumberOfExchanges_pow in Hex by (destruct Hnodes as [[E|E] _]; rewrite E; lia).
  destruct (Hsnap r Hr) as [H1 Er]. set (y := window_after (at_ (pad_nodes nodes) 1) 0 (Z.of_nat slid)).
  assert (Hy : - at_ (pad_nodes nodes) 1 < y <= 0) by (apply window_after_range; by apply pad_y).
  set (a := raw_comm (snapshot r) nodes per y). pose proof (raw_placed _ nodes per y Hnodes H1 Hy) as Ha. fold a in Ha.
  assert (HDa : DIM a = length nodes) by apply (in_range_length _ _ (proj1 H1)).
  assert (Hxa : extents a = nodes) by (unfold extents; rewrite HDa; by apply pad_take).
  destruct (placed_entry a ex Ha ltac:(rewrite HDa; done)) as [Ma Ra].
  unfold comm_mask in Hm. unfold comm_table, ExchangeTypeToRank, comm_of in *. rewrite (slides_of_init slid _ nodes per Hnodes H1) in *.
  fold y a in Hm |- *. rewrite Ma in Hm. rewrite (Ra Hm), Hxa. cbn [default]. unfold neighbour.
  change (id (cart_rank nodes (neighbour_base a ex)) = cart_rank nodes (vmod (vadd (baseCoordinates a) (getRelativeDirections (length nodes) ex)) nodes)).
  unfold id. f_equal. unfold neighbour_base. rewrite (window_coords_mod a Ha), HDa, Hxa.
  destruct (extents_y a Ha) as (n0 & l & E). rewrite Hxa in E. rewrite E.
  apply on_y_shift.
Qed.
End Delivered.

Lemma active_receiving {V : Type} `{AM : AlpakaMemory V} sz mpi processes (mask : Z -> Mask) gc tag receive base origin layout
    (init : Z -> GridState (V := V)) r ex :
  ready sz mpi gc tag receive base origin layout init r -> r ∈ processes -> in_directions gc ex ->
  isSet (mask r) ex = true -> isSet receive ex = true -> active processes mask init r (Receiving ex).
Proof.
  intros Hrd Hr Hex Hm Hre. split; [done|]. cbn [has_transfer]. unfold hasReceiveExchange, getReceiveMask.
  unfold in_directions in Hex. rewrite isSet_meet, Hm, (rd_mask _ _ _ _ _ _ _ _ _ _ Hrd ex Hex), Hre by lia. rewrite andb_true_r.
  rewrite <- (sl_receive_mask _ _ (rd_slots _ _ _ _ _ _ _ _ _ _ Hrd) ex Hex). by rewrite (rd_mask _ _ _ _ _ _ _ _ _ _ Hrd ex Hex).
Qed.

(** C22: halo exchange.  Take the processes of a Cartesian grid after any number of slides of
    its window, each with a grid buffer that was given the exchanges of the same directions,
    into its guard; neighbours agree on the extents of the axes they do not meet across.  All have called
    [spawnCommunication].  However the sends and receives of all processes interleave: no
    more steps are taken than transfers were started, some transfer can always be carried
    out until all are, and then no message is left and every cell is settled.  Let [d] be the sides of the inner
    cells on which a cell lies: if it is a guard cell near enough to them, its direction is received, and the grid of
    processes goes on in the direction [d], it holds what the neighbour in the direction [d] had in the cell at the same place of the joined grids; in every other case
    it holds what it held. *)
Theorem halos_delivered {V : Type} `{AM : AlpakaMemory V} {AML : AlpakaMemoryLaws V} sz mpi
    nodes per slid snapshot processes gc tag receive base origin layout (init : Z -> GridState (V := V)) w0 n w :
  0 < sz -> grid_nodes nodes -> length per = length nodes -> length gc = length nodes ->
  (forall r, r ∈ processes -> Cartesian nodes (snapshot r) /\ ts_rank (snapshot r) = r) ->
  (forall c, in_range nodes c -> cart_rank nodes c ∈ processes) ->
  let table := comm_table nodes per slid snapshot in
  let mask := comm_mask nodes per slid snapshot in
  let joined r d := has_neighbour per nodes (window_position nodes slid (ts_coordinates (snapshot r))) d in
  (forall r, r ∈ processes -> ready sz mpi gc tag receive base origin layout init r) ->
  (forall r d, r ∈ processes -> length d = length nodes -> Forall (fun x => -1 <= x <= 1) d ->
     joined r d = true ->
     Forall3 (fun x s s' => x = 0 -> s = s') d (m_sizeND (layout r)) (m_sizeND (layout (neighbour nodes snapshot r d)))) ->
  start processes mask init w0 -> nsteps (world_step sz mpi table) n w0 w ->
  (n + length (w_todo w) = length (w_todo w0))%nat /\
  (w_todo w <> [] -> exists w', world_step sz mpi table w w') /\
  (w_todo w = [] ->
     (forall c, queue_of w c = []) /\
     forall r c, r ∈ processes -> in_range (sizeND (layout r)) c ->
       let inner := m_sizeND (layout r) in let guard := m_guardSizeND (layout r) in
       let d := sides inner guard c in let r' := neighbour nodes snapshot r d in
       cell sz w r c =
         if near inner guard gc c && (0 <? direction_code d) && isSet receive (direction_code d) && joined r d
         then cell sz w0 r' (facing d inner guard (m_sizeND (layout r')) (m_guardSizeND (layout r')) c)
         else cell sz w0 r c).
Proof.
  intros Hsz Hnodes Hper Hgc Hsnap Hall table mask joined Hready Hagree Hstart Hrun.
  pose proof (cartesian_neighbours nodes per slid snapshot processes Hnodes Hsnap Hall) as NB. rewrite <- Hgc in NB.
  assert (Htable : forall r ex, r ∈ processes -> in_directions gc ex -> isSet (mask r) ex = true ->
    table r ex = neighbour nodes snapshot r (getRelativeDirections (length gc) ex)).
  { intros r ex Hr Hex Hm. rewrite Hgc. apply (table_neighbour _ _ _ _ processes); [done..| |done]. by rewrite <- Hgc. }
  assert (Hmask : forall r ex, r ∈ processes -> in_directions gc ex -> isSet (mask r) ex = joined r (getRelativeDirections (length gc) ex)).
  { intros r ex Hr Hex. unfold joined. rewrite Hgc. apply (mask_neighbour _ _ _ _ processes); [done..|]. by rewrite <- Hgc. }
  assert (Hlay : forall r, r ∈ processes -> layout_ok (layout r) gc) by (intros r Hr; exact (Hdim _ _ _ _ _ _ _ _ _ _ Hready r Hr)).
  assert (Hmatch : forall r ex, r ∈ processes -> in_directions gc ex -> isSet (mask r) ex = true ->
    extent gc layout r ex = extent gc layout (table r ex) (mirror ex)).
  { intros r ex Hr Hex Hm. destruct (@neighbour_mutual _ _ _ _ NB r ex Hr Hex Hm) as (Hp & _). fold table in Hp. pose proof (Hlay r Hr) as Hl. pose proof (Hlay _ Hp) as Hl'.
    destruct (mirror_exchanges _ ex (proj1 Hl) Hex) as (_ & Hme & _). unfold extent.
    rewrite (proj2 (exchange_box _ gc ex GUARD Hl (range_27 _ _ Hl ex Hex))).
    rewrite (proj2 (exchange_box _ gc (mirror ex) GUARD Hl' (range_27 _ _ Hl' _ Hme))).
    pose proof (range_27 _ _ Hl ex Hex). rewrite mirror_directions by (lia || apply Hl). rewrite (Htable r ex Hr Hex Hm).
    destruct (digits_ok gc ex ltac:(destruct Hex; lia)) as [L Hd]. apply boxes_size_agree, Hagree; [done|by rewrite L|done|].
    by rewrite <- (Hmask r ex Hr Hex). }
  destruct (halos_run sz Hsz mpi processes table mask gc tag receive base origin layout init Hready Hmatch w0 n w Hstart Hrun) as (H1 & H2 & H3).
  split_and!; [exact H1|exact H2|]. intros Hnil. destruct (H3 Hnil) as [Hq Hcells]. split; [exact Hq|].
  intros r c Hr Hc inner guard d r'. destruct (Hcells r Hr) as [Hin Hout].
  destruct (near inner guard gc c && (0 <? direction_code d) && isSet receive (direction_code d) && joined r d) eqn:Hb.
  - apply andb_true_iff in Hb as [[[Hn Hex%Z.ltb_lt]%andb_true_iff Hre]%andb_true_iff Hj].
    assert (Lc : length c = length gc).
    { destruct (Hlay r Hr) as [_ Hf]. pose proof (Forall3_length_lm _ _ _ _ Hf). pose proof (Forall3_length_lr _ _ _ _ Hf).
      rewrite (in_range_length _ _ Hc). unfold sizeND, vadd. rewrite !length_zip_with. lia. }
    destruct (sides_digits inner guard gc c (proj2 (Hlay r Hr)) Lc) as [Ld Hd]. fold d in Ld, Hd.
    destruct (direction_code_inv d Hd) as [Hrange Ed]. rewrite Ld in Hrange, Ed.
    assert (Hdir : in_directions gc (direction_code d)).
    { unfold in_directions. rewrite (NumberOfExchanges_pow _ (proj1 (Hlay r Hr))). lia. }
    assert (Hm : isSet (mask r) (direction_code d) = true) by (by rewrite (Hmask r _ Hr Hdir), Ed).
    pose proof (Htable r _ Hr Hdir Hm) as Et. rewrite Ed in Et. fold r' in Et.
    destruct (@neighbour_mutual _ _ _ _ NB r _ Hr Hdir Hm) as (Hp & _). fold table in Hp. rewrite Et in Hp.
    destruct (near_guard_cell _ _ gc c (Hlay r Hr) (Hlay r' Hp) Hc Hn (proj1 Hdir)) as (_ & _ & idx & Hi & E1 & E2).
    fold inner guard d in E2. rewrite E2, <- Et. rewrite E1 at 1. apply Hin; [|exact Hi].
    by apply (active_receiving sz mpi processes mask gc tag receive base origin layout init r _ (Hready r Hr)).
  - apply Hout; [done|]. intros ex idx Ha Hi E.
    destruct (active_receive sz mpi processes mask gc tag receive base origin layout init Hready r ex Ha) as (Hex & Hm & Hre & _).
    destruct (guard_cell_near _ gc ex idx (Hlay r Hr) Hex Hi) as [Hn Ed]. unfold guard_cell in E. rewrite <- E in Hn, Ed.
    fold inner guard in Hn, Ed. fold d in Ed.
    assert (Ec : d = getRelativeDirections (length gc) ex).
    { unfold d, inner, guard. rewrite E. by rewrite (cell_sides _ gc (Hlay r Hr) GUARD ex idx Hex Hi). }
    assert (Hp : (0 <? ex) = true) by (apply Z.ltb_lt; unfold in_directions in Hex; lia).
    assert (Hj : joined r d = true) by (by rewrite Ec, <- (Hmask r ex Hr Hex)).
    by rewrite Hn, Ed, Hp, Hre, Hj in Hb.
Qed.

(** ** A run *)

(** Transfers carried out in a given order. *)
Fixpoint run_schedule {V : Type} `{AM : AlpakaMemory V} (sz : Z) (mpi : bool) (table : Z -> Z -> Z) (schedule : list (Z * transfer))
    (w : World) : option World :=
  match schedule with
  | [] => Some w
  | (r, t) :: schedule =>
      if bool_decide ((r, t) ∈ w_todo w) then w' ← transfer_step sz mpi table r t w; run_schedule sz mpi table schedule w' else None
  end.

Lemma run_steps {V : Type} `{AM : AlpakaMemory V} sz mpi table schedule w w' :
  run_schedule sz mpi table schedule w = Some w' -> nsteps (world_step sz mpi table) (length schedule) w w'.
Proof.
  revert w. induction schedule as [|[r t] schedule IH]; intros w; cbn; [intros [= ->]; constructor|].
  case_bool_decide as Ht; [|done]. destruct (transfer_step sz mpi table r t w) as [w1|] eqn:E; [|done]. cbn.
  intros Hrun. eapply nsteps_l; [by eapply world_transfer|by apply IH].
Qed.

(** Two processes side by side in x, periodic there, with 2 x 2 inner cells and one guard,
    that receive from the left; their cells are 7 and 8. *)
Definition ring_snapshot (r : Z) : TopologySnapshot := mkSnapshot r 2 0 [r; 0].
Definition ring_table : Z -> Z -> Z := comm_table [2; 1] [1; 0] 0 ring_snapshot.
Definition ring_mask : Z -> Mask := comm_mask [2; 1] [1; 0] 0 ring_snapshot.

Definition ring_add : outcome (GridState (V := Z)) :=
  s ← GridBuffer_new 4 demo_layout false ∅ (mkStore ∅ 0);
  match addExchange 4 false 2 GUARD (Mask_of LEFT) [1; 1] 3 false false s with
  | (Ret _, s) => Ret s
  | (Throw e what, _) => Throw e what
  | (Abort msg, _) => Abort msg
  | (Undefined, _) => Undefined
  end.
Definition ring_state (r : Z) : GridState (V := Z) :=
  match ring_add with
  | Ret s => mkGridState (gb s) (tags s) (DeviceBuffer_setValue 4 (7 + r) (deviceBuffer (g_buffers (gb s))) (gs_store s))
  | _ => mkGridState (GridBuffer_of (mkHostDeviceBuffer (demo_grid 0).1 (demo_grid 0).1) demo_layout) ∅ (mkStore ∅ 0)
  end.
Definition ring_world : World (V := Z) :=
  mkWorld (<[0 := ring_state 0]> (<[1 := ring_state 1]> ∅)) ∅
    [(0, Receiving LEFT); (0, Sending RIGHT); (1, Receiving LEFT); (1, Sending RIGHT)].
Definition ring_schedule : list (Z * transfer) := [(1, Sending RIGHT); (0, Sending RIGHT); (1, Receiving LEFT); (0, Receiving LEFT)].

Lemma ring_ready r : ready (V := Z) 4 false [1; 1] 3 (Mask_of LEFT) (fun _ => sizeND demo_layout)
  (fun _ => create (length (sizeND demo_layout)) 0) (fun _ => demo_layout) ring_state r.
Proof.
  destruct (added_ready (V := Z) 4 false demo_layout [1; 1] 3 (Mask_of LEFT) false false false ∅ (mkStore ∅ 0) demo_layout_ok)
    as (s & s' & E & E' & Hr).
  { intros ex _. apply not_elem_of_empty. }
  set (st := DeviceBuffer_setValue 4 (7 + r) (deviceBuffer (g_buffers (gb s'))) (gs_store s')).
  assert (Hst : next_alloc st = next_alloc (gs_store s')) by (unfold st, DeviceBuffer_setValue; by case_match).
  apply (ready_at _ _ _ _ _ _ _ _ (fun _ => mkGridState (gb s') (tags s') st) _ r); [|exact (Hr st r Hst)].
  unfold ring_state, ring_add. rewrite E. cbn [mbind outcome_bind]. change (length [1; 1]) with 2%nat in E'. by rewrite E'.
Qed.

Lemma ring_grid :
  grid_nodes [2; 1] /\ (forall r, r ∈ [0; 1] -> Cartesian [2; 1] (ring_snapshot r) /\ ts_rank (ring_snapshot r) = r) /\
  (forall c, in_range [2; 1] c -> cart_rank [2; 1] c ∈ [0; 1]).
Proof.
  split_and!.
  - split; [by left|]. repeat (constructor; [lia|]). constructor.
  - intros r Hr. rewrite !elem_of_cons in Hr. destruct Hr as [->|[->|Hr]]; [..|exfalso; by apply elem_of_nil in Hr];
      (split; [|done]); (split; [|done]); cbn; repeat (constructor; [lia|]); constructor.
  - intros c Hc. inversion Hc as [|? x ? c' Hx Hc']; subst. inversion Hc' as [|? y ? c'' Hy Hc'']; subst. inversion Hc''; subst.
    unfold cart_rank. cbn. assert (y = 0) as -> by lia. assert (x = 0 \/ x = 1) as [->| ->] by lia; [left|right; left].
Qed.

Lemma ring_transfers r t : active (V := Z) [0; 1] ring_mask ring_state r t <-> (r, t) ∈ w_todo ring_world.
Proof.
  pose (P := fun r => forallb (fun ex => eqb (has_transfer (ring_mask r) (gb (ring_state r)) (Sending ex)) (ex =? RIGHT) &&
    eqb (has_transfer (ring_mask r) (gb (ring_state r)) (Receiving ex)) (ex =? LEFT)) (seqZ 1 8)).
  assert (H0 : P 0 = true) by (vm_compute; reflexivity). assert (H1 : P 1 = true) by (vm_compute; reflexivity).
  assert (Hrange : forall r ex, has_transfer (ring_mask r) (gb (ring_state r)) (Sending ex) = true \/
    has_transfer (ring_mask r) (gb (ring_state r)) (Receiving ex) = true -> 1 <= ex < 9).
  { intros r' ex Hex. pose proof (rd_slots _ _ _ _ _ _ _ _ _ _ (ring_ready r')) as Hs. change (length [1; 1]) with 2%nat in Hs.
    change 9 with (NumberOfExchanges 2). destruct Hex as [Hex|Hex]; cbn in Hex; apply andb_true_iff in Hex as [Hx%bool_decide_eq_true _];
      [apply (sl_send _ _ Hs ex Hx)|apply (sl_receive _ _ Hs ex Hx)]. }
  assert (Hex : forall r ex, r ∈ [0; 1] ->
    has_transfer (ring_mask r) (gb (ring_state r)) (Sending ex) = (ex =? RIGHT) /\
    has_transfer (ring_mask r) (gb (ring_state r)) (Receiving ex) = (ex =? LEFT)).
  { intros r' ex Hr. assert (Hp : P r' = true).
    { rewrite !elem_of_cons in Hr. destruct Hr as [->|[->|Hr]]; [exact H0|exact H1|exfalso; by apply elem_of_nil in Hr]. }
    destruct (decide (1 <= ex < 9)) as [Hin|Hout].
    - unfold P in Hp. rewrite forallb_forall in Hp. specialize (Hp ex ltac:(apply list_elem_of_In, elem_of_seqZ; lia)).
      apply andb_true_iff in Hp as [Hp1 Hp2]. apply eqb_prop in Hp1, Hp2. split; [exact Hp1|exact Hp2].
    - rewrite (proj2 (Z.eqb_neq ex RIGHT)), (proj2 (Z.eqb_neq ex LEFT)) by (unfold LEFT, RIGHT; lia).
      split; apply not_true_is_false; intros Ht; apply Hout, (Hrange r' ex); [by left|by right]. }
  assert (M0 : 0 ∈ [0; 1]) by left. assert (M1 : 1 ∈ [0; 1]) by (right; left).
  unfold active. cbn [w_todo ring_world]. split.
  - intros [Hr Ht]. destruct t as [ex|ex]; [rewrite (proj1 (Hex r ex Hr)) in Ht|rewrite (proj2 (Hex r ex Hr)) in Ht];
      apply Z.eqb_eq in Ht; subst ex; rewrite !elem_of_cons, elem_of_nil in Hr; destruct Hr as [Hr|[Hr|[]]]; subst r;
      rewrite !elem_of_cons; tauto.
  - rewrite !elem_of_cons, elem_of_nil. intros [E|[E|[E|[E|[]]]]]; injection E as -> ->; (split; [tauto|]).
    + exact (proj2 (Hex 0 LEFT M0)).
    + exact (proj1 (Hex 0 RIGHT M0)).
    + exact (proj2 (Hex 1 LEFT M1)).
    + exact (proj1 (Hex 1 RIGHT M1)).
Qed.

Lemma ring_start : start (V := Z) [0; 1] ring_mask ring_state ring_world.
Proof.
  split; [|split; [done|split]].
  - intros r Hr. rewrite !elem_of_cons in Hr. destruct Hr as [->|[->|Hr]]; [apply lookup_insert_eq| |exfalso; by apply elem_of_nil in Hr].
    unfold ring_world. cbn [w_processes]. rewrite lookup_insert_ne by done. apply lookup_insert_eq.
  - cbn [w_todo ring_world]. apply (bool_decide_eq_true_1 _). vm_compute. reflexivity.
  - intros r t. symmetry. apply ring_transfers.
Qed.

Lemma ring_values :
  match run_schedule 4 false ring_table ring_schedule ring_world with
  | Some w => w_todo w = [] /\ cell 4 ring_world 1 [0; 1] = Some 8 /\ cell 4 ring_world 0 [2; 1] = Some 7 /\ ring_table 1 LEFT = 0
  | None => False
  end.
Proof. by vm_compute. Qed.

(** The left guard of the second process ends up with the first one's value; its top guard, which is not
    exchanged, keeps its own. *)
Lemma halos_delivered_witness :
  exists w, nsteps (world_step 4 false ring_table) 4 ring_world w /\ (forall c, queue_of w c = []) /\
    cell 4 w 1 [0; 1] = cell 4 ring_world 0 [2; 1] /\ cell 4 ring_world 0 [2; 1] = Some 7 /\ cell 4 ring_world 1 [0; 1] = Some 8 /\
    cell 4 w 1 [1; 0] = cell 4 ring_world 1 [1; 0].
Proof.
  pose proof ring_values as Hv. destruct (run_schedule 4 false ring_table ring_schedule ring_world) as [w|] eqn:E; [|exfalso; exact Hv].
  destruct Hv as (Hnil & H8 & H7 & Ht). apply run_steps in E. exists w. split; [exact E|].
  assert (Hagree : forall r d, r ∈ [0; 1] -> length d = length [2; 1] -> Forall (fun x => -1 <= x <= 1) d ->
    has_neighbour [1; 0] [2; 1] (window_position [2; 1] 0 (ts_coordinates (ring_snapshot r))) d = true ->
    Forall3 (fun x s s' => x = 0 -> s = s') d (m_sizeND demo_layout) (m_sizeND demo_layout)).
  { intros r [|x [|y [|]]] _ L _ _; try discriminate L. by repeat constructor. }
  destruct ring_grid as (Hn & Hs & Ha).
  pose proof (halos_delivered 4 false [2; 1] [1; 0] 0 ring_snapshot [0; 1] [1; 1] 3 (Mask_of LEFT) (fun _ => sizeND demo_layout)
    (fun _ => create (length (sizeND demo_layout)) 0) (fun _ => demo_layout) ring_state ring_world 4 w ltac:(lia) Hn eq_refl eq_refl Hs Ha
    (fun r _ => ring_ready r)) as T.
  specialize (T Hagree ring_start E). destruct T as (_ & _ & Hfin).
  destruct (Hfin Hnil) as [Hq Hcells]. split; [exact Hq|].
  assert (Hr : forall c, c ∈ [[0; 1]; [1; 0]] -> in_range (sizeND demo_layout) c).
  { intros c Hc. apply elem_of_blocks. rewrite !elem_of_cons, elem_of_nil in Hc. destruct Hc as [->|[->|[]]]; apply (bool_decide_eq_true_1 _); by vm_compute. }
  assert (H1 : 1 ∈ [0; 1]) by (right; left).
  pose proof (Hcells 1 [0; 1] H1 (Hr _ ltac:(left))) as Hleft. pose proof (Hcells 1 [1; 0] H1 (Hr _ ltac:(right; left))) as Htop.
  cbv zeta in Hleft, Htop. change (sides _ _ [0; 1]) with [-1; 0] in Hleft. change (sides _ _ [1; 0]) with [0; -1] in Htop.
  split; [exact Hleft|]. split; [exact H7|]. split; [exact H8|exact Htop].
Defined.
