(* ===== verification/Reduce.v ===== *)
(** * Reductions on the device and over all processes

    Models pmacc/device/Reduce.hpp and pmacc/device/reduce/Kernel.hpp.  The kernel: every
    thread folds the elements that are a grid apart, then the threads of a block halve the
    shared memory between barriers, and one thread writes the block's result.  The host
    launches it over the source and then, in place, over the partial results until one is
    left.  Blocks run in any order, the threads between two barriers in any order, and
    shared memory starts with any content. *)
From Stdlib Require Import ZArith Lia.
From stdpp Require Import base list list_numbers numbers.
From S2P Require Import Prelude.
Open Scope Z_scope.

(** ** The kernel *)

Section Kernel.
Context {V : Type} (func : V -> V -> V).

(** A buffer: its elements by index. *)
Definition Cells : Type := Z -> V.
Definition put (i : Z) (v : V) (m : Cells) : Cells := fun j => if j =? i then v else m j.

(** A loop over indices whose body may not return. *)
Fixpoint each {S : Type} (body : Z -> S -> option S) (l : list Z) (s : S) : option S :=
  match l with [] => Some s | i :: l => s ← body i s; each body l s end.

(** How one launch runs: the order of the blocks, that of the threads of a block after each
    barrier (by the number of chunks), and the shared memory a block starts with. *)
Record Run := mkRun {
  blockOrder : list Z;
  threadOrder : Z -> Z -> list Z;
  sharedInit : Z -> Cells;
}.

(** The loop [while(i < bufferSize)] of a thread. *)
Fixpoint gather_rest (fuel : nat) (numReduceThreads bufferSize : Z) (srcBuffer : Cells) (i : Z) (r_value : V) : option V :=
  match fuel with
  | O => None
  | S fuel =>
      if i <? bufferSize
      then gather_rest fuel numReduceThreads bufferSize srcBuffer (u32 (i + numReduceThreads)) (func r_value (srcBuffer i))
      else Some r_value
  end.

Section Block.
(** [T_Worker::blockDomSize()] and the arguments. *)
Context (blockDomSize numReduceThreads bufferSize blockIndex : Z) (srcBuffer : Cells) (order : Z -> list Z).

Definition linearReduceThreadIdx (linearIdx : Z) : Z := u32 (blockIndex * blockDomSize + linearIdx).
Definition isActive (linearIdx : Z) : bool := linearReduceThreadIdx linearIdx <? bufferSize.

(** Fill shared memory. *)
Definition fill (sharedMem : Cells) : option Cells :=
  each (fun idx s =>
    if isActive idx then
      let t := linearReduceThreadIdx idx in
      r_value ← gather_rest (S (Z.to_nat bufferSize)) numReduceThreads bufferSize srcBuffer (u32 (t + numReduceThreads)) (srcBuffer t);
      Some (put idx r_value s)
    else Some s) (order 0) sharedMem.

(** One round over shared memory. *)
Definition halve (active_threads chunk_count : Z) (sharedMem : Cells) : Cells :=
  fold_left (fun s linearIdx =>
    if isActive linearIdx && negb (negb (linearIdx =? 0) && (active_threads <=? linearIdx))
    then put linearIdx (func (s linearIdx) (s (linearIdx + chunk_count))) s
    else s) (order chunk_count) sharedMem.

Fixpoint halving (fuel : nat) (chunk_count : Z) (sharedMem : Cells) : option Cells :=
  match fuel with
  | O => None
  | S fuel =>
      if chunk_count =? 1 then Some sharedMem
      else
        let active_threads := chunk_count / 2 in
        let chunk_count := (chunk_count + 1) / 2 in
        halving fuel chunk_count (halve active_threads chunk_count sharedMem)
  end.

(** The overload that leaves its result in the first slot of [sharedMem]. *)
Definition reduce_block (sharedMem : Cells) : option Cells :=
  s ← fill sharedMem; halving (Z.to_nat blockDomSize) blockDomSize s.
End Block.

(** The overload of a block of a grid of [gridDim] blocks; [srcBuffer] may be part of the
    destination. *)
Definition Kernel (blockDomSize gridDim bufferSize : Z) (srcBuffer : Cells -> Cells) (destFunc : V -> V -> V)
    (run : Run) (blockIdx : Z) (destBuffer : Cells) : option Cells :=
  let numGlobalVirtualThreadCount := u32 (gridDim * blockDomSize) in
  s_mem ← reduce_block blockDomSize numGlobalVirtualThreadCount bufferSize blockIdx (srcBuffer destBuffer)
            (run.(threadOrder) blockIdx) (run.(sharedInit) blockIdx);
  Some (put blockIdx (destFunc (destBuffer blockIdx) (s_mem 0)) destBuffer).

(** [math::operation::Assign]. *)
Definition Assign (dst src : V) : V := src.

(** ** The host *)

(** The number of threads of the instance [enqueueReduceKernel] chooses, and
    [getThreadsPerBlock]. *)
Definition thread_sizes : list Z := [512; 256; 128; 64; 32; 16; 8; 4; 2].
Fixpoint first_size (sizes : list Z) (threads : Z) : Z :=
  match sizes with
  | [] => 1
  | s :: sizes => if s <=? threads then s else first_size sizes threads
  end.
Definition getThreadsPerBlock (threads : Z) : Z := first_size thread_sizes threads.

(** How the launches run; a launch of no blocks has no documented effect. *)
Context (runs : Z -> Z -> Z -> Run).

Definition enqueueReduceKernel (blocks threads : Z) (src : Cells -> Cells) (n : Z) (destFunc : V -> V -> V) (dest : Cells) : option Cells :=
  let blockDomSize := first_size thread_sizes threads in
  if blocks =? 0 then None
  else let run := runs n blocks blockDomSize in
       each (Kernel blockDomSize blocks n src destFunc run) run.(blockOrder) dest.

Context (byte sharedMemByte : Z).
(** [sizeof(Type)]. *)
Context (sz : Z).

Definition optimalThreadsPerBlock (n : Z) : Z :=
  let sharedBorder := sharedMemByte / sz in
  getThreadsPerBlock (Z.min sharedBorder n).

(** The threads and blocks of the next round over [n] partial results. *)
Definition next_round (n : Z) : Z * Z :=
  let blockcount := optimalThreadsPerBlock n in
  let blocks := n / 2 / blockcount in
  (blockcount, if (blocks =? 0) && (1 <? n) then 1 else blocks).

(** The quotient of [ceil] is exact: a double holds every uint32 and divides it by a power
    of two without rounding. *)
Fixpoint rounds (fuel : nat) (n blockcount blocks : Z) (destination : Cells) : option Cells :=
  match fuel with
  | O => None
  | S fuel =>
      if blocks =? 0 then Some destination
      else
        '(destination, blocks) ←
          (if 1 <? blocks then
             let blockOffset := (blocks + blockcount - 1) / blockcount in
             let useBlocks := u32 (blocks - blockOffset) in
             let problemSize := u32 (n - u32 (blockOffset * blockcount)) in
             destination ← enqueueReduceKernel useBlocks blockcount (fun d i => d (blockOffset * blockcount + i)) problemSize func destination;
             Some (destination, u32 (blockOffset * blockcount))
           else
             destination ← enqueueReduceKernel blocks blockcount (fun d => d) n Assign destination;
             Some (destination, blocks));
        let n := blocks in
        let '(blockcount, blocks) := next_round n in
        rounds fuel n blockcount blocks destination
  end.

(** At most 33 rounds: every round at least halves a 32 bit number. *)
Definition max_rounds : nat := 33.

Definition enqueueReduction (src : Cells) (n : Z) (destination : Cells) : option Cells :=
  let blockcount := optimalThreadsPerBlock n in
  let nBuffer := byte / sz in
  let threads := u32 (nBuffer * blockcount * 2) in
  let threads := if n <? threads then n else threads in
  let blocks := threads / 2 / blockcount in
  let blocks := if blocks =? 0 then 1 else blocks in
  destination ← enqueueReduceKernel blocks blockcount (fun _ => src) n Assign destination;
  let n := blocks in
  let '(blockcount, blocks) := next_round n in
  rounds max_rounds n blockcount blocks destination.

(** [reduce]: the first element of the host copy. *)
Definition reduce (src : Cells) (n : Z) (reduceBuffer : Cells) : option V :=
  destination ← enqueueReduction src n reduceBuffer; Some (destination 0).
End Kernel.
Arguments Run : clear implicits.


(** ** Loops over indices *)

Section Loops.
Context {V : Type}.

Lemma each_pure {S : Type} (body : Z -> S -> option S) (f : Z -> S -> S) l s :
  (forall i s, i ∈ l -> body i s = Some (f i s)) -> each body l s = Some (fold_left (fun s i => f i s) l s).
Proof.
  revert s. induction l as [|i l IH]; intros s Hb; [done|]. cbn [each fold_left]. rewrite Hb by (by left). cbn [mbind option_bind].
  apply IH. intros. apply Hb. by right.
Qed.

Lemma put_here i (v : V) m : put i v m i = v.
Proof. unfold put. by rewrite Z.eqb_refl. Qed.
Lemma put_elsewhere i j (v : V) m : j <> i -> put i v m j = m j.
Proof. intros. unfold put. by rewrite (proj2 (Z.eqb_neq _ _)). Qed.

(** Threads that write their own cell, in any order. *)
Lemma puts_spec (g : Z -> V) l m j :
  fold_left (fun m i => put i (g i) m) l m j = if bool_decide (j ∈ l) then g j else m j.
Proof.
  revert m. induction l as [|i l IH]; intros m; [done|]. cbn [fold_left]. rewrite IH.
  destruct (decide (j = i)) as [->|Hne].
  - rewrite put_here. rewrite (bool_decide_eq_true_2 (i ∈ i :: l)) by (by left). by case_bool_decide.
  - rewrite put_elsewhere by done. case_bool_decide as E.
    + by rewrite bool_decide_eq_true_2 by (by right).
    + rewrite bool_decide_eq_false_2; [done|]. rewrite elem_of_cons. tauto.
Qed.
End Loops.

Lemma stride_loop_fuel f i step n : (0 < step -> n <= f + i -> stride_loop (S f) i step n = stride_loop f i step n)%nat.
Proof.
  revert i. induction f as [|f IH]; intros i Hs Hn.
  { cbn [stride_loop]. by rewrite (proj2 (Nat.ltb_ge _ _)) by lia. }
  transitivity (if (i <? n)%nat then i :: stride_loop (S f) (i + step) step n else []); [done|].
  transitivity (if (i <? n)%nat then i :: stride_loop f (i + step) step n else []); [|done].
  destruct (i <? n)%nat; [|done]. f_equal. apply IH; lia.
Qed.

Lemma halves chunk :
  2 <= chunk -> chunk / 2 + (chunk + 1) / 2 = chunk /\ 1 <= chunk / 2 <= (chunk + 1) / 2 /\ (chunk + 1) / 2 < chunk.
Proof. intros. Z.to_euclidean_division_equations. lia. Qed.

Lemma map_seqZ_app {A} (g : Z -> A) i n m : 0 <= n -> 0 <= m -> map g (seqZ i (n + m)) = map g (seqZ i n) ++ map g (seqZ (i + n) m).
Proof. intros. by rewrite seqZ_app, map_app. Qed.

Lemma map_seqZ_seq {A} (g : Z -> A) n : 0 <= n -> map g (seqZ 0 n) = map (fun k => g (Z.of_nat k)) (seq 0 (Z.to_nat n)).
Proof.
  intros Hn. rewrite <- (Z2Nat.id n Hn) at 1. induction (Z.to_nat n) as [|k IH]; [done|].
  rewrite Nat2Z.inj_succ, <- Z.add_1_r, map_seqZ_app, IH, seq_S, map_app by lia. f_equal.
Qed.

(** ** The fold a launch computes *)

Section Folds.
Context {V : Type} (func : V -> V -> V) {Hassoc : Assoc (=) func} {Hcomm : Comm (=) func}.

Lemma gather_rest_spec f num n src i r :
  0 < num -> 0 <= i -> 0 <= n -> n <= Z.of_nat f + i -> n + num <= 2 ^ 32 ->
  gather_rest func (S f) num n src i r =
    Some (foldl func r (map (fun k => src (Z.of_nat k)) (stride_loop f (Z.to_nat i) (Z.to_nat num) (Z.to_nat n)))).
Proof.
  revert i r. induction f as [|f IH]; intros i r Hnum Hi Hn Hf Hb.
  { cbn. destruct (Z.ltb_spec i n); [lia|done]. }
  cbn [stride_loop]. change (gather_rest func (S (S f)) num n src i r) with
    (if i <? n then gather_rest func (S f) num n src (u32 (i + num)) (func r (src i)) else Some r).
  destruct (Z.ltb_spec i n) as [Hlt|Hge].
  - rewrite (proj2 (Nat.ltb_lt _ _)) by lia. rewrite (u32_small (i + num)) by (lia).
    rewrite IH by lia. cbn [map foldl]. rewrite Z2Nat.id, Z2Nat.inj_add by lia. done.
  - by rewrite (proj2 (Nat.ltb_ge _ _)) by lia.
Qed.

(** The indices thread [t] of [num] folds. *)
Definition share (num n t : Z) : list Z := map Z.of_nat (strided (Z.to_nat t) (Z.to_nat num) (Z.to_nat n)).

Lemma shares num n : 0 < num -> 0 <= n -> seqZ 0 num ≫= share num n ≡ₚ seqZ 0 n.
Proof.
  intros Hnum Hn. rewrite <- (map_id (seqZ 0 n)), map_seqZ_seq by lia.
  rewrite <- (map_id (seqZ 0 num)), map_seqZ_seq by lia.
  rewrite <- (strided_partition (Z.to_nat num) (Z.to_nat n)) by lia.
  unfold share. generalize (seq 0 (Z.to_nat num)). intros l. induction l as [|k l IH]; [done|].
  cbn [map mbind list_bind]. rewrite map_app. rewrite Nat2Z.id. apply Permutation_app; [done|exact IH].
Qed.

(** The value thread [t] puts in shared memory. *)
Definition gathered (num n : Z) (src : Cells) (t : Z) : V :=
  foldl func (src t) (map (fun k => src (Z.of_nat k)) (stride_loop (Z.to_nat n) (Z.to_nat (t + num)) (Z.to_nat num) (Z.to_nat n))).

Lemma gathered_fold num n src t : 0 < num -> 0 <= t < n -> Some (gathered num n src t) = sfold func (map src (share num n t)).
Proof using Hassoc.
  intros Hnum Ht. unfold gathered. rewrite foldl_sfold by done. f_equal. unfold share, strided. rewrite map_map.
  rewrite <- (stride_loop_fuel (Z.to_nat n) (Z.to_nat t)) by lia. cbn [stride_loop].
  rewrite (proj2 (Nat.ltb_lt _ _)) by lia. cbn [map]. rewrite Z2Nat.id, Z2Nat.inj_add by lia. done.
Qed.

(** *** A block *)

Section Block.
Context (dom num n b : Z) (src : Cells (V := V)) (order : Z -> list Z).
Context (Hdom : 1 <= dom) (Hnum : 0 < num) (Hn : n + num <= 2 ^ 32) (Hb : 0 <= b) (Hall : b * dom + dom <= n).
Context (Horder : forall p, order p ≡ₚ seqZ 0 dom).

Lemma thread_idx i : 0 <= i < dom -> linearReduceThreadIdx dom b i = b * dom + i /\ isActive dom n b i = true.
Proof using Hdom Hnum Hn Hb Hall.
  intros Hi. unfold isActive, linearReduceThreadIdx. rewrite u32_small by (nia). split; [done|]. apply Z.ltb_lt. lia.
Qed.

Lemma in_order p i : i ∈ order p <-> 0 <= i < dom.
Proof using Horder. rewrite Horder, elem_of_seqZ. lia. Qed.

Lemma fill_spec s0 :
  exists s, fill func dom num n b src order s0 = Some s /\ forall i, 0 <= i < dom -> s i = gathered num n src (b * dom + i).
Proof using All.
  unfold fill. erewrite (each_pure _ (fun i s => put i (gathered num n src (b * dom + i)) s)).
  - eexists. split; [done|]. intros i Hi. rewrite puts_spec. by rewrite bool_decide_eq_true_2 by (by apply in_order).
  - intros i s Hi%in_order. destruct (thread_idx i Hi) as [-> ->]. cbv zeta.
    rewrite u32_small by (nia). rewrite gather_rest_spec by nia. done.
Qed.

Lemma halve_spec a c s j :
  1 <= a <= c ->
  halve func dom n b order a c s j = if bool_decide (0 <= j < Z.min a dom) then func (s j) (s (j + c)) else s j.
Proof using All.
  intros Hac. unfold halve. assert (Hnd : NoDup (order c)) by (rewrite Horder; apply NoDup_seqZ).
  assert (Hin : forall i, i ∈ order c -> 0 <= i < dom) by (intros i; by apply in_order).
  assert (Hd : bool_decide (0 <= j < Z.min a dom) = bool_decide (j ∈ order c /\ j < a)).
  { apply bool_decide_ext. rewrite in_order. lia. }
  rewrite Hd. clear Hd Horder. revert s. induction (order c) as [|x l IH]; intros s.
  { rewrite bool_decide_eq_false_2; [done|]. by intros [?%elem_of_nil _]. }
  apply list.NoDup_cons in Hnd as [Hx Hnd]. cbn [fold_left]. rewrite IH by (done || (intros; apply Hin; by right)).
  pose proof (Hin x ltac:(by left)) as Hxd. destruct (thread_idx x Hxd) as [_ ->]. cbn [andb].
  destruct (Z.leb_spec a x) as [Hax|Hxa].
  - rewrite (proj2 (Z.eqb_neq _ _)) by lia. cbn [negb andb].
    assert (Hiff : (j ∈ x :: l /\ j < a) <-> (j ∈ l /\ j < a)) by (rewrite elem_of_cons; split; [intros [[->|?] ?]; [lia|done]|tauto]).
    by rewrite (bool_decide_ext _ _ Hiff).
  - rewrite andb_false_r. cbn [negb]. destruct (decide (j = x)) as [->|Hne].
    + rewrite bool_decide_eq_false_2 by tauto. rewrite bool_decide_eq_true_2 by (split; [by left|done]). by rewrite put_here.
    + assert (Hiff : (j ∈ x :: l /\ j < a) <-> (j ∈ l /\ j < a)) by (rewrite elem_of_cons; tauto).
      rewrite (bool_decide_ext _ _ Hiff). rewrite put_elsewhere by done. case_bool_decide as E; [|done].
      rewrite put_elsewhere; [done|]. destruct E as [Hj _]. pose proof (Hin j ltac:(by right)). lia.
Qed.

Lemma halve_fold chunk s :
  2 <= chunk <= dom ->
  sfold func (map (halve func dom n b order (chunk / 2) ((chunk + 1) / 2) s) (seqZ 0 ((chunk + 1) / 2))) =
  sfold func (map s (seqZ 0 chunk)).
Proof using All.
  intros Hc. set (a := chunk / 2). set (c := (chunk + 1) / 2). pose proof (halves chunk ltac:(lia)) as (Hs & Hac & Hlt). fold a c in Hs, Hac, Hlt.
  replace chunk with (a + (c - a) + a) at 1 by lia. replace c with (a + (c - a)) at 2 by lia.
  rewrite !map_seqZ_app by lia. rewrite Z.add_0_l.
  assert (E1 : map (halve func dom n b order a c s) (seqZ 0 a) = zip_with func (map s (seqZ 0 a)) (map s (seqZ (a + (c - a)) a))).
  { apply list_eq. intros i. rewrite lookup_zip_with, !list_lookup_fmap. destruct (decide (Z.of_nat i < a)) as [Hi|Hi].
    - rewrite !lookup_seqZ_lt by lia. cbn. rewrite halve_spec by lia. rewrite bool_decide_eq_true_2 by lia.
      do 3 f_equal. lia.
    - by rewrite !lookup_seqZ_ge by lia. }
  assert (E2 : map (halve func dom n b order a c s) (seqZ a (c - a)) = map s (seqZ a (c - a))).
  { apply list_fmap_ext. intros i x Hx%list_elem_of_lookup_2. apply elem_of_seqZ in Hx. rewrite halve_spec by lia.
    by rewrite bool_decide_eq_false_2 by lia. }
  rewrite E1, E2. rewrite sfold_app, sfold_zip_with by (done || (rewrite !length_map, !length_seqZ; lia)).
  rewrite <- sfold_app by done. apply sfold_perm; [done..|]. rewrite <- !app_assoc. f_equiv. apply Permutation_app_comm.
Qed.

Lemma halving_spec fuel chunk s :
  1 <= chunk <= dom -> chunk <= Z.of_nat fuel ->
  exists s', halving func dom n b order fuel chunk s = Some s' /\ Some (s' 0) = sfold func (map s (seqZ 0 chunk)).
Proof using All.
  revert chunk s. induction fuel as [|fuel IH]; intros chunk s Hc Hf; [lia|]. cbn [halving].
  destruct (Z.eqb_spec chunk 1) as [->|Hne]; [eexists; split; done|].
  pose proof (halves chunk ltac:(lia)) as (_ & ? & ?).
  destruct (IH ((chunk + 1) / 2) (halve func dom n b order (chunk / 2) ((chunk + 1) / 2) s) ltac:(lia) ltac:(lia)) as (s' & E & Hs).
  exists s'. split; [done|]. rewrite Hs. apply halve_fold. lia.
Qed.

(** The elements of the block's threads. *)
Definition block_share : list Z := seqZ (b * dom) dom ≫= share num n.

Lemma reduce_block_spec s0 :
  exists s, reduce_block func dom num n b src order s0 = Some s /\ Some (s 0) = sfold func (map src block_share).
Proof using All.
  destruct (fill_spec s0) as (s1 & E1 & H1). destruct (halving_spec (Z.to_nat dom) dom s1 ltac:(lia) ltac:(lia)) as (s & E & Hs).
  exists s. split; [unfold reduce_block; by rewrite E1|]. rewrite Hs. unfold block_share.
  assert (Hg : forall m i, 0 <= i -> i + Z.of_nat m <= dom ->
    sfold func (map s1 (seqZ i (Z.of_nat m))) = sfold func (map src (seqZ (b * dom + i) (Z.of_nat m) ≫= share num n))).
  { induction m as [|m IH]; intros i Hi Hm; [done|]. rewrite !(seqZ_cons _ (Z.of_nat (S m))) by lia. cbn [map mbind list_bind].
    rewrite map_app, sfold_cons, sfold_app by done. rewrite <- gathered_fold by nia. rewrite H1 by lia. f_equal.
    replace (Z.pred (Z.of_nat (S m))) with (Z.of_nat m) by lia. replace (Z.succ (b * dom + i)) with (b * dom + Z.succ i) by lia. apply IH; lia. }
  specialize (Hg (Z.to_nat dom) 0 ltac:(lia) ltac:(lia)). rewrite Z2Nat.id, Z.add_0_r in Hg by lia. done.
Qed.
End Block.
End Folds.

(** ** A launch *)

(** Every block runs once, every thread once between two barriers. *)
Definition fair {V} (runs : Z -> Z -> Z -> Run V) : Prop :=
  forall n blocks dom, (runs n blocks dom).(blockOrder) ≡ₚ seqZ 0 blocks /\
    forall b p, (runs n blocks dom).(threadOrder) b p ≡ₚ seqZ 0 dom.

Lemma first_size_spec threads :
  1 <= threads -> let d := first_size thread_sizes threads in
  1 <= d <= threads /\ d <= 512 /\ first_size thread_sizes d = d /\ (2 <= threads -> 2 <= d).
Proof.
  intros Ht. unfold thread_sizes. cbn [first_size].
  repeat match goal with |- context [if ?s <=? threads then _ else _] => destruct (Z.leb_spec s threads) end;
    split_and!; try lia; done.
Qed.

Section Launch.
Context {V : Type} (func : V -> V -> V) {Hassoc : Assoc (=) func} {Hcomm : Comm (=) func}.
Context (runs : Z -> Z -> Z -> Run V) (Hfair : fair runs).

Lemma sfold_concat (p : Z -> V) (L : Z -> list V) bs :
  (forall b, b ∈ bs -> Some (p b) = sfold func (L b)) -> sfold func (map p bs) = sfold func (bs ≫= L).
Proof using Hassoc.
  induction bs as [|b bs IH]; intros H; [done|]. cbn [map mbind list_bind]. rewrite sfold_cons, sfold_app by done.
  rewrite H by (by left). f_equal. apply IH. intros. apply H. by right.
Qed.

Section One.
Context (blocks dom n : Z) (src : Cells (V := V) -> Cells (V := V)) (destFunc : V -> V -> V) (dest : Cells (V := V)).
Context (Hblocks : 1 <= blocks) (Hdom : 1 <= dom) (Hall : blocks * dom <= n) (Hbound : n + blocks * dom <= 2 ^ 32).

Definition partial (b : Z) : V :=
  match reduce_block func dom (blocks * dom) n b (src dest) (threadOrder (runs n blocks dom) b) (sharedInit (runs n blocks dom) b) with
  | Some s => s 0
  | None => dest b
  end.

Lemma partial_fold b : 0 <= b < blocks -> Some (partial b) = sfold func (map (src dest) (block_share dom (blocks * dom) n b)).
Proof using All.
  intros Hb. unfold partial. destruct (Hfair n blocks dom) as [_ Ho].
  destruct (reduce_block_spec func dom (blocks * dom) n b (src dest) (threadOrder (runs n blocks dom) b) Hdom ltac:(nia) Hbound
              ltac:(lia) ltac:(nia) (Ho b) (sharedInit (runs n blocks dom) b)) as (s & -> & Hs). done.
Qed.

Lemma share_range num t i : 0 < num -> i ∈ share num n t -> 0 <= i < n.
Proof using All.
  intros Hnum (k & -> & Hk)%list_elem_of_fmap. apply elem_of_strided in Hk; [|lia]. lia.
Qed.

Lemma Kernel_spec d b :
  0 <= b < blocks -> (forall i, 0 <= i < n -> src d i = src dest i) ->
  Kernel func dom blocks n src destFunc (runs n blocks dom) b d = Some (put b (destFunc (d b) (partial b)) d).
Proof using All.
  intros Hb Hd. unfold Kernel. rewrite u32_small by nia. destruct (Hfair n blocks dom) as [_ Ho].
  destruct (reduce_block_spec func dom (blocks * dom) n b (src d) (threadOrder (runs n blocks dom) b) Hdom ltac:(nia) Hbound
              ltac:(lia) ltac:(nia) (Ho b) (sharedInit (runs n blocks dom) b)) as (s & -> & Hs). cbn [mbind option_bind].
  do 3 f_equal. apply (inj Some). rewrite Hs, partial_fold by done. f_equal. apply list_fmap_ext.
  intros k i Hi%list_elem_of_lookup_2. unfold block_share in Hi. apply list_elem_of_bind in Hi as (t & Hi & _).
  apply Hd. eapply share_range; [|done]. nia.
Qed.

Lemma each_Kernel l d :
  NoDup l -> (forall b, b ∈ l -> 0 <= b < blocks /\ d b = dest b) ->
  (forall d', (forall i, i ∉ l -> d' i = d i) -> forall i, 0 <= i < n -> src d' i = src dest i) ->
  exists d', each (Kernel func dom blocks n src destFunc (runs n blocks dom)) l d = Some d' /\
    forall i, d' i = if bool_decide (i ∈ l) then destFunc (dest i) (partial i) else d i.
Proof using All.
  revert d. induction l as [|b l IH]; intros d Hnd Hin Hsrc; [by exists d|]. apply list.NoDup_cons in Hnd as [Hb Hnd].
  destruct (Hin b ltac:(by left)) as [Hb0 Hdb]. cbn [each].
  rewrite Kernel_spec by (done || (apply Hsrc; done)). cbn [mbind option_bind].
  destruct (IH (put b (destFunc (d b) (partial b)) d)) as (d' & E & Hd'); [done| | |].
  - intros b' Hb'. destruct (Hin b' ltac:(by right)). split; [done|]. rewrite put_elsewhere by congruence. done.
  - intros d2 Hd2. apply Hsrc. intros i Hi. rewrite elem_of_cons in Hi. rewrite Hd2 by tauto. rewrite put_elsewhere by tauto. done.
  - exists d'. split; [done|]. intros i. rewrite Hd'. case_bool_decide as Ei.
    + by rewrite bool_decide_eq_true_2 by (by right).
    + destruct (decide (i = b)) as [->|Hne].
      * rewrite put_here, bool_decide_eq_true_2 by (by left). by rewrite Hdb.
      * rewrite put_elsewhere by done. rewrite bool_decide_eq_false_2; [done|]. rewrite elem_of_cons. tauto.
Qed.

(** A launch leaves one partial result per block, and their fold is that of the source. *)
Lemma launch_spec :
  first_size thread_sizes dom = dom ->
  (forall d, (forall i, ~ (0 <= i < blocks) -> d i = dest i) -> blocks = 1 \/ forall i, 0 <= i < n -> src d i = src dest i) ->
  exists dest', enqueueReduceKernel func runs blocks dom src n destFunc dest = Some dest' /\
    (forall b, 0 <= b < blocks -> dest' b = destFunc (dest b) (partial b)) /\
    (forall i, ~ (0 <= i < blocks) -> dest' i = dest i) /\
    sfold func (map partial (seqZ 0 blocks)) = sfold func (map (src dest) (seqZ 0 n)).
Proof using All.
  intros Hfs Hst. unfold enqueueReduceKernel. rewrite (proj2 (Z.eqb_neq blocks 0)), Hfs by lia.
  destruct (Hfair n blocks dom) as [Ho _].
  assert (Hin : forall b, b ∈ blockOrder (runs n blocks dom) <-> 0 <= b < blocks).
  { intros b. rewrite Ho, elem_of_seqZ. lia. }
  assert (Hrun : exists d', each (Kernel func dom blocks n src destFunc (runs n blocks dom)) (blockOrder (runs n blocks dom)) dest = Some d' /\
    forall i, d' i = if bool_decide (i ∈ blockOrder (runs n blocks dom)) then destFunc (dest i) (partial i) else dest i).
  { destruct (decide (blocks = 1)) as [E1|Hne].
    - assert (El : blockOrder (runs n blocks dom) = [0]) by (apply Permutation_singleton_r; rewrite Ho, E1; done).
      rewrite El. cbn [each]. rewrite Kernel_spec by (done || lia). cbn [mbind option_bind]. eexists. split; [done|].
      intros i. case_bool_decide as Ei; [apply list_elem_of_singleton in Ei as ->; by rewrite put_here|].
      rewrite put_elsewhere; [done|]. intros ->. apply Ei. by left.
    - apply each_Kernel; [rewrite Ho; apply NoDup_seqZ|intros b Hb; by rewrite <- Hin|].
      intros d' Hd'. destruct (Hst d') as [?|H]; [|lia|done]. intros i Hi. apply Hd'. by rewrite Hin. }
  destruct Hrun as (d' & E & Hd'). exists d'. split; [done|]. split_and!.
  - intros b Hb. rewrite Hd', bool_decide_eq_true_2; [done|by apply Hin].
  - intros i Hi. rewrite Hd', bool_decide_eq_false_2; [done|by rewrite Hin].
  - rewrite (sfold_concat partial (fun b => map (src dest) (block_share dom (blocks * dom) n b))).
    2: { intros b Hb. apply partial_fold. apply elem_of_seqZ in Hb. lia. }
    apply sfold_perm; [done..|]. rewrite <- (shares (blocks * dom) n) by nia.
    assert (Hcat : forall m, 0 <= m -> seqZ 0 m ≫= (fun b => seqZ (b * dom) dom) = seqZ 0 (m * dom)).
    { intros m Hm. rewrite <- (Z2Nat.id m Hm). induction (Z.to_nat m) as [|k IH]; [done|].
      rewrite Nat2Z.inj_succ, <- Z.add_1_r, seqZ_app, bind_app, IH by lia. rewrite Z.mul_add_distr_r, Z.mul_1_l, seqZ_app by lia.
      rewrite Z.add_0_l. f_equal. change (seqZ (Z.of_nat k) 1) with [Z.of_nat k]. cbn. by rewrite app_nil_r. }
    rewrite <- Hcat by lia. unfold block_share. generalize (seqZ 0 blocks). intros l. induction l as [|b l IH]; [done|].
    cbn [mbind list_bind]. rewrite !bind_app, map_app. apply Permutation_app; [done|]. exact IH.
Qed.
End One.
End Launch.

(** ** The rounds of the host *)

Section Host.
Context {V : Type} (func : V -> V -> V) {Hassoc : Assoc (=) func} {Hcomm : Comm (=) func}.
Context (runs : Z -> Z -> Z -> Run V) (Hfair : fair runs).
Context (byte sharedMemByte sz : Z) (Hsz : 0 < sz) (Hbyte : sz <= byte < 2 ^ 32) (Hshared : 2 * sz <= sharedMemByte).

Let optimal (n : Z) : Z := optimalThreadsPerBlock sharedMemByte sz n.

Lemma optimal_spec n : 1 <= n -> let d := optimal n in 1 <= d <= n /\ d <= 512 /\ first_size thread_sizes d = d /\ (2 <= n -> 2 <= d).
Proof using Hsz Hshared.
  intros Hn. assert (2 <= sharedMemByte / sz) by (apply Z.div_le_lower_bound; lia).
  destruct (first_size_spec (Z.min (sharedMemByte / sz) n) ltac:(lia)) as (H1 & H2 & H3 & H4).
  unfold optimal, optimalThreadsPerBlock, getThreadsPerBlock. cbv zeta. split_and!; try done; try lia.
Qed.

(** The arithmetic of a round with several blocks. *)
Lemma round_bounds n bc blocks :
  2 <= bc -> blocks = n / 2 / bc -> 2 <= blocks ->
  let bo := (blocks + bc - 1) / bc in
  1 <= bo < blocks /\ blocks <= bo * bc /\ bo * bc <= n / 2 /\ (blocks - bo) * bc <= n - bo * bc /\ 2 * (blocks * bc) <= n.
Proof.
  intros Hbc Eb Hb bo. assert (H1 : blocks * bc <= n / 2) by (rewrite Eb, Z.mul_comm; apply Z.mul_div_le; lia).
  assert (H2 : bo * bc <= blocks + bc - 1) by (unfold bo; rewrite Z.mul_comm; apply Z.mul_div_le; lia).
  assert (H3 : blocks + bc - 1 < bc * (bo + 1)) by (unfold bo; pose proof (Z.mul_succ_div_gt (blocks + bc - 1) bc ltac:(lia)); lia).
  pose proof (Z.mul_div_le n 2 ltac:(lia)). nia.
Qed.

(** A sum of sums over the same indices. *)
Lemma sfold_split (f g : Z -> V) i m : sfold func (map (fun j => func (f j) (g j)) (seqZ i m)) = sfold func (map f (seqZ i m) ++ map g (seqZ i m)).
Proof using Hassoc Hcomm.
  rewrite <- sfold_zip_with by (done || by rewrite !length_map). f_equal.
  generalize (seqZ i m). intros l. induction l as [|x l IH]; [done|]. cbn. by rewrite IH.
Qed.

Lemma map_seqZ_ext {A} (f g : Z -> A) i m : (forall j, i <= j < i + m -> f j = g j) -> map f (seqZ i m) = map g (seqZ i m).
Proof. intros H. apply list_fmap_ext. intros k j Hj%list_elem_of_lookup_2. apply elem_of_seqZ in Hj. apply H. lia. Qed.

Lemma several_spec n bc blocks dest :
  2 <= bc -> blocks = n / 2 / bc -> 2 <= blocks -> n <= 2 ^ 31 -> first_size thread_sizes bc = bc ->
  let bo := (blocks + bc - 1) / bc in
  exists dest', enqueueReduceKernel func runs (blocks - bo) bc (fun d i => d (bo * bc + i)) (n - bo * bc) func dest = Some dest' /\
    sfold func (map dest' (seqZ 0 (bo * bc))) = sfold func (map dest (seqZ 0 n)) /\
    (forall i, ~ (0 <= i < n) -> dest' i = dest i).
Proof using Hassoc Hcomm Hfair.
  intros Hbc Eb Hb Hn Hfs bo. destruct (round_bounds n bc blocks Hbc Eb Hb) as (H1 & H2 & H3 & H4 & H5). fold bo in H1, H2, H3, H4.
  pose proof (Z.mul_div_le n 2 ltac:(lia)).
  destruct (launch_spec func runs Hfair (blocks - bo) bc (n - bo * bc) (fun d i => d (bo * bc + i)) func dest ltac:(lia) ltac:(lia) ltac:(lia) ltac:(lia) Hfs)
    as (dest' & E & Hin & Hout & Hsum).
  { intros d Hd. right. intros i Hi. apply Hd. lia. }
  exists dest'. split; [done|]. split; [|intros i Hi; apply Hout; lia].
  set (p := partial _ _ _ _ _ _ _) in *.
  replace (bo * bc) with ((blocks - bo) + (bo * bc - (blocks - bo))) at 1 by lia.
  rewrite map_seqZ_app, sfold_app by (done || lia).
  rewrite (map_seqZ_ext dest' (fun j => func (dest j) (p j)) 0) by (intros; apply Hin; lia).
  rewrite (map_seqZ_ext dest' dest) by (intros; apply Hout; lia).
  rewrite sfold_split, <- sfold_app by done.
  replace n with (bo * bc + (n - bo * bc)) at 1 by lia. rewrite map_seqZ_app, (sfold_app _ (map dest (seqZ 0 (bo * bc)))) by (done || lia).
  assert (Hs : map (fun i => dest (bo * bc + i)) (seqZ 0 (n - bo * bc)) = map dest (seqZ (0 + bo * bc) (n - bo * bc))).
  { rewrite (Z.add_comm 0 (bo * bc)), <- fmap_add_seqZ. symmetry. apply map_map. }
  rewrite <- Hs, <- Hsum, <- sfold_app by done.
  assert (Hd : map dest (seqZ 0 (bo * bc)) = map dest (seqZ 0 (blocks - bo)) ++ map dest (seqZ (0 + (blocks - bo)) (bo * bc - (blocks - bo)))).
  { rewrite <- map_seqZ_app by lia. do 2 f_equal. lia. }
  rewrite Hd. apply sfold_perm; [done..|].
  rewrite <- !app_assoc. apply Permutation_app_head. apply Permutation_app_comm.
Qed.

Lemma next_round_one : (next_round sharedMemByte sz 1).2 = 0.
Proof using Hsz Hshared.
  destruct (optimal_spec 1 ltac:(lia)) as (Hd & _). unfold next_round. fold (optimal 1). cbv zeta. cbn [snd].
  replace (1 / 2) with 0 by done. by rewrite Z.div_0_l by lia.
Qed.

Lemma rounds_spec k n dest :
  1 <= n <= 2 ^ 31 -> n <= 2 ^ Z.of_nat k ->
  exists dest', rounds func runs sharedMemByte sz (S k) n (next_round sharedMemByte sz n).1 (next_round sharedMemByte sz n).2 dest = Some dest' /\
    Some (dest' 0) = sfold func (map dest (seqZ 0 n)) /\ (forall i, ~ (0 <= i < n) -> dest' i = dest i).
Proof using Hassoc Hcomm Hfair Hsz Hshared.
  revert n dest. induction k as [|k IH]; intros n dest Hn Hk; cbn [rounds].
  { assert (n = 1) as -> by (cbn in Hk; lia). exists dest. by rewrite next_round_one. }
  destruct (decide (n = 1)) as [->|Hne].
  { exists dest. by rewrite next_round_one. }
  destruct (optimal_spec n ltac:(lia)) as (Hd & Hd512 & Hfs & Hd2). specialize (Hd2 ltac:(lia)).
  assert (Hhalf : n / 2 <= 2 ^ Z.of_nat k).
  { apply Z.div_le_upper_bound; [lia|]. rewrite <- Z.pow_succ_r by lia. rewrite <- Nat2Z.inj_succ. lia. }
  assert (Hnn : 0 <= n / 2 / optimal n) by (apply Z.div_pos; [apply Z.div_pos; lia|lia]).
  destruct (decide (2 <= n / 2 / optimal n)) as [Hb|Hb].
  - destruct (round_bounds n (optimal n) _ Hd2 eq_refl Hb) as (H1 & H2 & H3 & H4 & H5).
    destruct (several_spec n (optimal n) _ dest Hd2 eq_refl Hb ltac:(lia) Hfs) as (d1 & E1 & Hs1 & Ho1).
    assert (En : next_round sharedMemByte sz n = (optimal n, n / 2 / optimal n)).
    { unfold next_round. fold (optimal n). by rewrite (proj2 (Z.eqb_neq (n / 2 / optimal n) 0)) by lia. }
    rewrite En. cbn [fst snd]. set (blocks := n / 2 / optimal n) in *. set (bo := (blocks + optimal n - 1) / optimal n) in *.
    rewrite (proj2 (Z.eqb_neq blocks 0)), (proj2 (Z.ltb_lt 1 blocks)) by lia.
    pose proof (Z.mul_div_le n 2 ltac:(lia)).
    rewrite (u32_small (bo * optimal n)), (u32_small (blocks - bo)), (u32_small (n - bo * optimal n)) by nia.
    rewrite E1. cbn [mbind option_bind].
    destruct (IH (bo * optimal n) d1 ltac:(lia) ltac:(lia)) as (d2 & E2 & Hs2 & Ho2).
    destruct (next_round sharedMemByte sz (bo * optimal n)) as [bc' blocks']. exists d2. split; [done|].
    split; [congruence|]. intros i Hi. rewrite Ho2 by lia. by apply Ho1.
  - assert (En : next_round sharedMemByte sz n = (optimal n, 1)).
    { unfold next_round. fold (optimal n). cbv zeta. rewrite (proj2 (Z.ltb_lt 1 n)) by lia. rewrite andb_true_r. f_equal.
      destruct (Z.eqb_spec (n / 2 / optimal n) 0); [done|lia]. }
    rewrite En. cbn [fst snd Z.eqb Z.ltb Z.compare Pos.compare Pos.compare_cont].
    destruct (launch_spec func runs Hfair 1 (optimal n) n (fun d => d) Assign dest ltac:(lia) ltac:(lia) ltac:(lia) ltac:(lia) Hfs)
      as (d1 & E1 & Hi1 & Ho1 & Hs1); [by left|].
    rewrite E1. cbn [mbind option_bind].
    destruct (IH 1 d1 ltac:(lia) ltac:(lia)) as (d2 & E2 & Hs2 & Ho2).
    destruct (next_round sharedMemByte sz 1) as [bc' blocks']. exists d2. split; [done|].
    change (seqZ 0 1) with [0] in *. cbn [map sfold foldr omerge] in *. split.
    + rewrite Hs2, <- Hs1. unfold sfold. cbn. by rewrite (Hi1 0) by lia.
    + intros i Hi. rewrite Ho2, Ho1 by lia. done.
Qed.

Lemma enqueueReduction_spec src n dest :
  1 <= n <= 2 ^ 31 ->
  exists dest', enqueueReduction func runs byte sharedMemByte sz src n dest = Some dest' /\
    Some (dest' 0) = sfold func (map src (seqZ 0 n)) /\ (forall i, ~ (0 <= i < byte / sz) -> dest' i = dest i).
Proof using All.
  intros Hn. destruct (optimal_spec n ltac:(lia)) as (Hd & Hd512 & Hfs & _). unfold enqueueReduction. fold (optimal n). cbv zeta.
  set (t := u32 (byte / sz * optimal n * 2)). set (threads := if n <? t then n else t).
  set (blocks := if threads / 2 / optimal n =? 0 then 1 else threads / 2 / optimal n).
  assert (Hnb : 1 <= byte / sz) by (apply Z.div_le_lower_bound; lia).
  assert (Ht : 0 <= t <= byte / sz * optimal n * 2).
  { split; [apply u32_bounds|]. unfold t, u32. apply Z.mod_le; nia. }
  assert (Hth : 0 <= threads <= n /\ threads <= t) by (unfold threads; destruct (Z.ltb_spec n t); lia).
  assert (Hq : 0 <= threads / 2 / optimal n) by (apply Z.div_pos; [apply Z.div_pos; lia|lia]).
  assert (Hq2 : threads / 2 / optimal n * optimal n * 2 <= threads).
  { pose proof (Z.mul_div_le threads 2 ltac:(lia)). pose proof (Z.mul_div_le (threads / 2) (optimal n) ltac:(lia)). nia. }
  assert (Hblocks : 1 <= blocks <= byte / sz /\ blocks * optimal n <= n).
  { unfold blocks. destruct (Z.eqb_spec (threads / 2 / optimal n) 0); nia. }
  destruct (launch_spec func runs Hfair blocks (optimal n) n (fun _ => src) Assign dest ltac:(lia) ltac:(lia) ltac:(lia) ltac:(lia) Hfs)
    as (d1 & E1 & Hi1 & Ho1 & Hs1); [by right|].
  rewrite E1. cbn [mbind option_bind].
  destruct (rounds_spec 32 blocks d1 ltac:(nia) ltac:(cbn; nia)) as (d2 & E2 & Hs2 & Ho2).
  destruct (next_round sharedMemByte sz blocks) as [bc' blocks']. exists d2. split; [exact E2|]. split.
  - rewrite Hs2, <- Hs1. f_equal. apply map_seqZ_ext. intros j Hj. rewrite Hi1 by lia. done.
  - intros i Hi. rewrite Ho2, Ho1 by lia. done.
Qed.
End Host.

(** ** What a reduction returns *)

(** C14: the device reduction is the fold.  For an associative and commutative functor, at
    most 2^31 elements, a scratch buffer with room for one element and shared memory for
    two: whatever the order of blocks and threads and whatever shared memory and the scratch
    buffer hold before, all launches are valid, the host's rounds end, and the result is the
    fold of all elements of the source; cells past the scratch buffer are not written. *)
Theorem reduce_folds {V} (func : V -> V -> V) runs byte sharedMemByte sz src n reduceBuffer :
  Assoc (=) func -> Comm (=) func -> fair runs ->
  0 < sz -> sz <= byte < 2 ^ 32 -> 2 * sz <= sharedMemByte -> 1 <= n <= 2 ^ 31 ->
  reduce func runs byte sharedMemByte sz src n reduceBuffer = Some (foldl func (src 0) (map src (seqZ 1 (n - 1)))) /\
  exists d, enqueueReduction func runs byte sharedMemByte sz src n reduceBuffer = Some d /\
    forall i, ~ (0 <= i < byte / sz) -> d i = reduceBuffer i.
Proof.
  intros Hassoc Hcomm Hfair Hsz Hbyte Hshared Hn.
  destruct (enqueueReduction_spec func runs Hfair byte sharedMemByte sz Hsz Hbyte Hshared src n reduceBuffer Hn) as (d & E & Hs & Ho).
  split; [|by exists d]. unfold reduce. rewrite E. cbn [mbind option_bind]. f_equal. apply (inj Some).
  rewrite Hs, foldl_sfold by done. by rewrite (seqZ_cons 0 n) by lia.
Qed.

(** A run: blocks backwards, the threads of every other phase backwards, shared memory that
    holds leftovers. *)
Definition demo_runs (n blocks dom : Z) : Run Z :=
  mkRun (rev (seqZ 0 blocks)) (fun b p => if Z.even p then rev (seqZ 0 dom) else seqZ 0 dom) (fun b i => 1000 * b + i).

Lemma demo_fair : fair demo_runs.
Proof.
  intros n blocks dom. cbn. split; [symmetry; apply Permutation_rev|]. intros b p.
  destruct (Z.even p); [symmetry; apply Permutation_rev|done].
Qed.

(** 100 numbers with 512 bytes of scratch: 16 blocks of 2 threads, then rounds of 4 and of
    one block. *)
Lemma reduce_folds_witness :
  reduce Z.add demo_runs 512 16 8 (fun i => i + 1) 100 (fun _ => 7) = Some 5050.
Proof.
  refine (eq_trans (proj1 (reduce_folds Z.add demo_runs 512 16 8 (fun i => i + 1) 100 (fun _ => 7) _ _ demo_fair _ _ _ _)) _).
  - lia.
  - lia.
  - lia.
  - lia.
  - vm_compute. reflexivity.
Defined.

(** With shared memory for less than two elements every block has one thread, and the second
    round would launch no block: with the default 4 KiB, types of more than 2 KiB. *)
Lemma wide_type_not_reduced {V} (func : V -> V -> V) runs byte sharedMemByte sz src n reduceBuffer :
  0 < sz -> 0 <= sharedMemByte < 2 * sz -> 4 * sz <= byte < 2 ^ 31 -> 8 <= n ->
  enqueueReduction func runs byte sharedMemByte sz src n reduceBuffer = None.
Proof.
  intros Hsz Hsh Hbyte Hn.
  assert (Hopt : forall m, optimalThreadsPerBlock sharedMemByte sz m = 1).
  { intros m. assert (sharedMemByte / sz < 2) by (apply Z.div_lt_upper_bound; lia).
    unfold optimalThreadsPerBlock, getThreadsPerBlock, thread_sizes. cbn [first_size].
    repeat match goal with |- context [if ?s <=? ?t then _ else _] => destruct (Z.leb_spec s t) end; lia. }
  assert (Hb : 4 <= byte / sz) by (apply Z.div_le_lower_bound; lia).
  assert (Hb2 : byte / sz <= byte) by (apply Z.div_le_upper_bound; nia).
  unfold enqueueReduction. rewrite Hopt. cbv zeta. rewrite Z.mul_1_r, Z.div_1_r, u32_small by lia.
  set (threads := if n <? byte / sz * 2 then n else byte / sz * 2).
  assert (Ht : 8 <= threads) by (unfold threads; destruct (Z.ltb_spec n (byte / sz * 2)); lia).
  assert (Hh : 4 <= threads / 2) by (apply Z.div_le_lower_bound; lia).
  rewrite (proj2 (Z.eqb_neq (threads / 2) 0)) by lia.
  destruct (enqueueReduceKernel _ _ _ _ _ _ _ _) as [d|]; [|done]. cbn [mbind option_bind].
  unfold next_round. rewrite Hopt, Z.div_1_r. cbv zeta.
  assert (Hq : 2 <= threads / 2 / 2) by (apply Z.div_le_lower_bound; lia).
  rewrite (proj2 (Z.eqb_neq (threads / 2 / 2) 0)) by lia. cbn [andb].
  unfold max_rounds. cbn [rounds]. rewrite (proj2 (Z.eqb_neq (threads / 2 / 2) 0)), (proj2 (Z.ltb_lt 1 _)) by lia.
  rewrite Z.div_1_r, Z.add_simpl_r, Z.sub_diag. done.
Qed.
