(* ===== verification/MpiOps.v ===== *)
(** * MPI operations

    Models caravan/mpi/operations.cpp and operations.hpp with result.hpp: the checks of every
    operation, the native call it starts with the counts it passes, the owners the batch
    keeps, and the result its completion delivers.  MPI is the class [NativeMpi]: what its
    queries return and whether a call starts; which bytes a call accesses is MPI's
    documentation, the functions [reads] and [writes]. *)
From Stdlib Require Import ZArith Lia.
From stdpp Require Import base sets list list_numbers numbers strings.
From S2P Require Import Prelude Outcome.
Open Scope Z_scope.

(** ** Arguments *)










(** ** Native calls *)





Section Operations.
Context `{NM : NativeMpi}.
(** [NativeMpiContext::communicator]. *)
Context (communicator : Z -> outcome Z).


















(** ** operations.hpp: the senders *)




End Operations.

(** ** What MPI accesses *)












(** ** The checks *)







(** ** Every operation *)

Section Safe.
Context `{NM : NativeMpi} (communicator : Z -> outcome Z).














End Safe.



