(* ===== verification/GlobalReduce.v ===== *)
(** * Reductions over all processes

    Models pmacc/algorithms/GlobalReduce.hpp and pmacc/mpi/MPIReduce.hpp with its reduce
    methods, on top of [Reduce] and the communicators of [Communicators].  The processes call
    [participate] and the reduction together; the class [MpiCollectives] is what MPI documents
    of a split and of a reduction. *)
From Stdlib Require Import ZArith Lia.
From stdpp Require Import base list list_numbers numbers strings.
From S2P Require Import Prelude Outcome Communicators Reduce.
Open Scope Z_scope.

(** A split: of color and key of every process, rank and size in the new communicator; a
    reduction: of the operands by rank, the result. *)
Class MpiCollectives (V : Type) (func : V -> V -> V) : Type := {
  split_all : list (option Z * Z) -> list (option (Z * Z));
  combine_all : list V -> V;
  split_length l : length (split_all l) = length l;
  split_none l p key : l !! p = Some (None, key) -> split_all l !! p = Some None;
  (** Ranks follow the keys; here the keys of a color increase with the process. *)
  split_some l p c key :
    (forall i j ki kj, l !! i = Some (Some c, ki) -> l !! j = Some (Some c, kj) -> (i < j)%nat -> ki < kj) ->
    l !! p = Some (Some c, key) ->
    split_all l !! p = Some (Some (Z.of_nat (length (filter (fun x => x.1 = Some c) (take p l))),
                                   Z.of_nat (length (filter (fun x => x.1 = Some c) l))));
  combine_fold l : l <> [] -> Some (combine_all l) = sfold func l;
}.

Section GlobalReduce.
Context {V : Type} (func : V -> V -> V) `{MC : MpiCollectives V func}.

(** ** MPIReduce *)

Record MPIReduce := mkMPIReduce {
  caravanCommunicator : option CommunicatorInfo;
  mr_mpiRank : Z;
  mr_numRanks : Z;
  isMPICommInitialized : bool;
}.

Definition MPIReduce_init : MPIReduce := mkMPIReduce None (-1) 0 false.

(** [participate] of one process, given what its split returned; a new communicator gets
    the id [id]. *)
Definition MPIReduce_participate (id : Z) (split : option (Z * Z)) : MPIReduce :=
  match split with
  | Some (rank, size) => mkMPIReduce (Some (mkInfo id rank size)) rank size true
  | None => mkMPIReduce None (-1) 0 true
  end.

(** The methods AllReduce and Reduce with their [hasResult]. *)
Inductive ReduceMethod : Type := MethodAllReduce | MethodReduce.
Definition method_hasResult (m : ReduceMethod) (mpiRank : Z) : bool :=
  match m with MethodAllReduce => negb (mpiRank =? -1) | MethodReduce => mpiRank =? 0 end.

(** ** GlobalReduce *)

Record GlobalReduce := mkGlobalReduce { isParticipating : bool; mpi_reduce : MPIReduce }.

(** [participate] on all processes: color 0 or none, the key is the rank in the world. *)
Definition color_of (isActive : bool) : option Z := if isActive then Some 0 else None.
Definition participate_all (id : Z) (actives : list bool) : list GlobalReduce :=
  let splits := split_all (zip_with (fun (a : bool) key => (color_of a, key)) actives (seqZ 0 (Z.of_nat (length actives)))) in
  zip_with (fun a sp => mkGlobalReduce a (MPIReduce_participate id sp)) actives splits.

Definition hasResult (m : ReduceMethod) (g : GlobalReduce) : bool := method_hasResult m g.(mpi_reduce).(mr_mpiRank).

(** What a process gives to the device reduction: how launches run, the scratch buffer, the
    source and its length. *)
Record Input := mkInput { in_runs : Z -> Z -> Z -> Run V; in_buffer : Cells (V := V); in_src : Cells (V := V); in_n : Z }.

Context (byte sharedMemByte sz : Z).

Definition local_reduce (x : Input) : option V := reduce func x.(in_runs) byte sharedMemByte sz x.(in_src) x.(in_n) x.(in_buffer).

(** operator() on all processes.  [None] is a process for which a device reduction does not
    return; [unset] is the value of an uninitialised variable, [zero] that of [Type()]. *)
Definition global_reduce (m : ReduceMethod) (unset zero : V) (gs : list GlobalReduce) (inputs : list Input) : option (list (outcome V)) :=
  locals ← mapM (fun '(g, x) => if isParticipating g then v ← local_reduce x; Some [v] else Some []) (zip gs inputs);
  let globalResult := combine_all (concat locals) in
  Some (map (fun g =>
    if isParticipating g then
      match g.(mpi_reduce).(caravanCommunicator) with
      | None => Throw logic_error "Inactive rank cannot submit an MPI reduction"
      | Some info => Ret (match m with
                          | MethodAllReduce => globalResult
                          | MethodReduce => if info.(ci_rank) =? 0 then globalResult else unset
                          end)
      end
    else Ret zero) gs).

(** ** All processes *)

Context {Hassoc : Assoc (=) func} {Hcomm : Comm (=) func}.

Definition input_ok (x : Input) : Prop := fair x.(in_runs) /\ 1 <= x.(in_n) <= 2 ^ 31.
Definition elements (x : Input) : list V := map x.(in_src) (seqZ 0 x.(in_n)).

Lemma local_reduce_fold x :
  0 < sz -> sz <= byte < 2 ^ 32 -> 2 * sz <= sharedMemByte -> input_ok x ->
  exists v, local_reduce x = Some v /\ Some v = sfold func (elements x).
Proof using Hassoc Hcomm.
  intros H1 H2 H3 [Hf Hn].
  destruct (enqueueReduction_spec func (in_runs x) Hf byte sharedMemByte sz H1 H2 H3 (in_src x) (in_n x) (in_buffer x) Hn) as (d & E & Hs & _).
  exists (d 0). unfold local_reduce, reduce. rewrite E. done.
Qed.

Lemma count_active (actives : list bool) k z n :
  Z.of_nat (length actives) <= n ->
  length (filter (fun x : option Z * Z => x.1 = Some 0) (take k (zip_with (fun (a : bool) key => (color_of a, key)) actives (seqZ z n)))) =
  length (filter (fun b : bool => b = true) (take k actives)).
Proof using Type.
  revert n z k. induction actives as [|b l IH]; intros n z k Hn; [by destruct k|].
  rewrite length_cons in Hn. rewrite seqZ_cons by lia. destruct k as [|k]; [done|]. cbn [zip_with take].
  specialize (IH (Z.pred n) (Z.succ z) k ltac:(lia)). rewrite !filter_cons. destruct b; cbn [fst color_of].
  - rewrite !decide_True by done. cbn [length]. by rewrite IH.
  - rewrite !decide_False by done. exact IH.
Qed.

Lemma participate_lookup id actives p a :
  actives !! p = Some a ->
  participate_all id actives !! p =
    Some (mkGlobalReduce a (MPIReduce_participate id
      (if a then Some (Z.of_nat (length (filter (fun b : bool => b = true) (take p actives))), Z.of_nat (length (filter (fun b : bool => b = true) actives)))
       else None))).
Proof using Type.
  intros Hp. unfold participate_all.
  set (l := zip_with (fun (a : bool) key => (color_of a, key)) actives (seqZ 0 (Z.of_nat (length actives)))).
  assert (Hl : forall i b, actives !! i = Some b -> l !! i = Some (color_of b, Z.of_nat i)).
  { intros i b Hi. unfold l. rewrite lookup_zip_with, Hi. cbn. rewrite lookup_seqZ_lt; [done|]. apply lookup_lt_Some in Hi. lia. }
  assert (Hlen : length l = length actives) by (unfold l; rewrite length_zip_with, length_seqZ; lia).
  assert (Hcount : forall k, length (filter (fun x : option Z * Z => x.1 = Some 0) (take k l)) = length (filter (fun b : bool => b = true) (take k actives))).
  { intros k. unfold l. apply count_active. lia. }
  rewrite lookup_zip_with, Hp. cbn.
  assert (Hsp : split_all l !! p = Some (if a then Some (Z.of_nat (length (filter (fun b : bool => b = true) (take p actives))),
                  Z.of_nat (length (filter (fun b : bool => b = true) actives))) else None)).
  { destruct a.
    - rewrite (split_some l p 0 (Z.of_nat p)); [| |by apply (Hl p true)].
      + rewrite Hcount. specialize (Hcount (length l)). rewrite firstn_all, Hlen, firstn_all in Hcount. by rewrite Hcount.
      + intros i j ki kj Hi Hj Hij. unfold l in Hi, Hj. rewrite lookup_zip_with in Hi, Hj.
        destruct (actives !! i) as [b1|] eqn:E1; [|done]. destruct (actives !! j) as [b2|] eqn:E2; [|done]. cbn in Hi, Hj.
        pose proof (lookup_lt_Some _ _ _ E1). pose proof (lookup_lt_Some _ _ _ E2).
        rewrite lookup_seqZ_lt in Hi, Hj by lia. cbn in Hi, Hj. injection Hi as _ <-. injection Hj as _ <-. lia.
    - eapply split_none. by apply (Hl p false). }
  by rewrite Hsp.
Qed.

(** The inputs of the processes that take part. *)
Definition taking_part (actives : list bool) (inputs : list Input) : list Input := map snd (filter (fun x : bool * Input => x.1 = true) (zip actives inputs)).

Lemma locals_fold actives gs inputs :
  0 < sz -> sz <= byte < 2 ^ 32 -> 2 * sz <= sharedMemByte ->
  Forall input_ok (taking_part actives inputs) ->
  Forall2 (fun a g => isParticipating g = a) actives gs -> length inputs = length actives ->
  exists locals, mapM (fun '(g, x) => if isParticipating g then v ← local_reduce x; Some [v] else Some []) (zip gs inputs) = Some locals /\
    sfold func (concat locals) = sfold func (taking_part actives inputs ≫= elements) /\
    (concat locals = [] -> taking_part actives inputs = []).
Proof using Hassoc Hcomm.
  intros H1 H2 H3 Hok Hgs. revert inputs Hok. induction Hgs as [|a g actives gs Hg Hgs IH]; intros [|x inputs] Hok Hl; try discriminate Hl.
  { by exists []. }
  injection Hl as Hl. unfold taking_part in *.
  change (zip (a :: actives) (x :: inputs)) with ((a, x) :: zip actives inputs) in *.
  change (zip (g :: gs) (x :: inputs)) with ((g, x) :: zip gs inputs). cbn [mapM].
  rewrite filter_cons in *. rewrite Hg. destruct a; cbn [fst] in *.
  - rewrite decide_True in * by done. cbn [map snd] in *. apply list.Forall_cons in Hok as [Hx Hok].
    destruct (local_reduce_fold x H1 H2 H3 Hx) as (v & E & Hv). destruct (IH inputs Hok Hl) as (locals & E' & Hs & _).
    rewrite E. cbn [mbind option_bind] in *. rewrite E'. exists ([v] :: locals). split; [done|]. cbn [concat list_bind]. split; [|done].
    change (mbind elements ?l) with (list_bind _ _ elements l) in *. rewrite !sfold_app by done. rewrite Hs. f_equal. exact Hv.
  - rewrite decide_False in * by done. destruct (IH inputs Hok Hl) as (locals & E' & Hs & Hn). cbn [mbind option_bind] in *. rewrite E'.
    exists ([] :: locals). by split_and!.
Qed.

Lemma count_zero (l : list bool) : length (filter (fun b : bool => b = true) l) = 0%nat <-> Forall (fun b => b = false) l.
Proof using Type.
  induction l as [|b l IH]; [split; [constructor|done]|]. rewrite filter_cons, list.Forall_cons, <- IH. destruct b.
  - rewrite decide_True by done. split; [done|]. by intros [? _].
  - rewrite decide_False by done. tauto.
Qed.

(** The reduction over all processes.  After [participate], every process for which
    [hasResult] says so gets the fold of all elements of all processes that take part; with
    AllReduce these are the processes that take part, with Reduce the first of them; the
    others get [Type()]. *)
Theorem global_reduce_all id m unset zero actives inputs :
  0 < sz -> sz <= byte < 2 ^ 32 -> 2 * sz <= sharedMemByte ->
  length inputs = length actives -> Forall input_ok (taking_part actives inputs) ->
  let gs := participate_all id actives in
  exists rs, global_reduce m unset zero gs inputs = Some rs /\
    forall p a, actives !! p = Some a ->
      exists g r, gs !! p = Some g /\ rs !! p = Some (Ret r) /\
        (hasResult m g = true -> Some r = sfold func (taking_part actives inputs ≫= elements)) /\
        (a = false -> r = zero) /\
        (hasResult m g = true <-> a = true /\ (m = MethodReduce -> forall q, (q < p)%nat -> actives !! q = Some false)).
Proof using Hassoc Hcomm.
  intros H1 H2 H3 Hl Hok gs.
  assert (Hgs : Forall2 (fun a g => isParticipating g = a) actives gs).
  { apply Forall2_same_length_lookup. split.
    - unfold gs, participate_all. rewrite length_zip_with, split_length, length_zip_with, length_seqZ. lia.
    - intros i a g Ha Hg. unfold gs in Hg. rewrite (participate_lookup id _ _ _ Ha) in Hg. by injection Hg as <-. }
  destruct (locals_fold actives gs inputs H1 H2 H3 Hok Hgs Hl) as (locals & E & Hs & Hn).
  unfold global_reduce. rewrite E. cbn [mbind option_bind]. eexists. split; [done|]. intros p a Ha.
  pose proof (participate_lookup id actives p a Ha) as Hg. fold gs in Hg.
  set (before := length (filter (fun b : bool => b = true) (take p actives))) in *.
  assert (Hbefore : before = 0%nat <-> forall q, (q < p)%nat -> actives !! q = Some false).
  { unfold before. rewrite count_zero, Forall_lookup. pose proof (lookup_lt_Some _ _ _ Ha). split.
    - intros Hf q Hq. destruct (lookup_lt_is_Some_2 actives q ltac:(lia)) as [b Hb]. rewrite Hb. f_equal. apply (Hf q). by rewrite lookup_take_lt.
    - intros Hf q b Hb. apply lookup_take_Some in Hb as [Hb Hq]. rewrite Hf in Hb by done. by injection Hb. }
  assert (Hne : a = true -> concat locals <> []).
  { intros -> He. specialize (Hn He). destruct (lookup_lt_is_Some_2 inputs p) as [x Hx]; [rewrite Hl; by eapply lookup_lt_Some|].
    assert (Hin : x ∈ taking_part actives inputs); [|rewrite Hn in Hin; by apply elem_of_nil in Hin].
    unfold taking_part. apply list_elem_of_fmap. exists (true, x). split; [done|]. apply list_elem_of_filter. split; [done|].
    apply (list_elem_of_lookup_2 _ p). rewrite lookup_zip_with, Ha, Hx. done. }
  exists (mkGlobalReduce a (MPIReduce_participate id (if a then Some (Z.of_nat before, Z.of_nat (length (filter (fun b : bool => b = true) actives))) else None))).
  rewrite list_lookup_fmap, Hg. cbn [fmap option_fmap option_map isParticipating]. destruct a; cbn [MPIReduce_participate mpi_reduce caravanCommunicator ci_rank].
  - eexists. split; [done|]. split; [done|]. unfold hasResult. cbn [mpi_reduce mr_mpiRank]. rewrite <- Hs, <- combine_fold by (by apply Hne). split_and!.
    + destruct m; cbn; [done|]. by intros ->.
    + done.
    + destruct m; cbn; [destruct (Z.eqb_spec (Z.of_nat before) (-1)); [lia|]; split; [by split|done]|].
      rewrite Z.eqb_eq. split; [intros Hz; split; [done|]; intros _; apply Hbefore; lia|]. intros [_ H]. specialize (H eq_refl). apply Hbefore in H. lia.
  - eexists. split; [done|]. split; [done|]. split_and!; [by destruct m|done|]. destruct m; cbn; split; try done; by intros [? _].
Qed.
End GlobalReduce.

(** ** A run *)

(** Ranks and the sum as MPI documents them, for keys that increase with the process. *)
Definition ref_split (l : list (option Z * Z)) : list (option (Z * Z)) :=
  imap (fun p x => match x.1 with
                   | Some c => Some (Z.of_nat (length (filter (fun x => x.1 = Some c) (take p l))),
                                     Z.of_nat (length (filter (fun x => x.1 = Some c) l)))
                   | None => None
                   end) l.

#[export] Instance sum_collectives : MpiCollectives Z Z.add.
Proof.
  refine {| split_all := ref_split; combine_all l := fold_right Z.add 0 l |}.
  - intros l. apply length_imap.
  - intros l p key Hp. unfold ref_split. by rewrite list_lookup_imap, Hp.
  - intros l p c key _ Hp. unfold ref_split. by rewrite list_lookup_imap, Hp.
  - intros [|x l] Hne; [done|]. clear Hne. revert x. induction l as [|y l IH]; intros x; [cbn; by rewrite Z.add_0_r|].
    rewrite (sfold_cons _ x), <- (IH y). reflexivity.
Defined.

(** Three processes, of which the second does not take part. *)
Definition demo_inputs : list (Input (V := Z)) :=
  [mkInput demo_runs (fun _ => 7) (fun i => i + 1) 100; mkInput demo_runs (fun _ => 7) (fun i => i) 5;
   mkInput demo_runs (fun _ => 7) (fun i => 1000 * i) 3].
Example demo_global :
  global_reduce Z.add 512 16 8 MethodReduce (-1) 0 (participate_all Z.add 1 [true; false; true]) demo_inputs =
  Some [Ret 8050; Ret 0; Ret (-1)].
Proof. vm_compute. reflexivity. Qed.
