(* ===== verification/Senders.v ===== *)
(** * Composition of senders

    Models the lazy senders of caravan/core/sender: [then], [letValue], [whenAll], [sequence], [continuesOn],
    [startsOn] and [on], with the schedulers [InlineScheduler] and [RunLoopScheduler] and the query
    [getScheduler].  A sender is the tree of the calls that built it; connecting and starting it is
    a machine whose threads call [start()] and [set_value()], whose run loops hold posted tasks and whose
    native operations complete at any time on any thread.  Functions of the user act on a shared state and
    are logged with their thread. *)
From Stdlib Require Import ZArith Lia.
From stdpp Require Import base list numbers option relations.
From S2P Require Import Prelude Transition.

(** [InlineScheduler], and [RunLoopScheduler] with its loop. *)
Inductive scheduler : Type := InlineScheduler | RunLoopScheduler (m_loop : nat).

Section senders.
Context {V W : Type}.

(** A native sender is known by its index, a callable by its name; a callable that [letValue] has called
    makes its successor from what it returns. *)
#[warnings="-register-all"]
Inductive sender : Type :=
  | NativeSender (operation : nat)
  | ThenSender (m_sender : sender) (m_function : nat)
  | LetValueSender (m_sender : sender) (m_factory : nat) (successor : list V -> sender)
  | WhenAllSender (m_senders : list sender)
  | ContinuesOnSender (m_sender : sender) (m_scheduler : scheduler)
  | StartsOnSender (m_scheduler : scheduler) (m_sender : sender)
  | OnSender (m_scheduler : scheduler) (m_sender : sender).

(** The functions that compose senders; [sequence] makes its successor by a lambda, the callable [move]. *)
Definition then_ (s : sender) (function : nat) : sender := ThenSender s function.
Definition letValue (s : sender) (factory : nat) (successor : list V -> sender) : sender := LetValueSender s factory successor.
Definition genericWhenAll (senders : list sender) : sender := WhenAllSender senders.
Definition continuesOn (s : sender) (sched : scheduler) : sender := ContinuesOnSender s sched.
Definition startsOn (sched : scheduler) (s : sender) : sender := StartsOnSender sched s.
Definition on (sched : scheduler) (s : sender) : sender := OnSender sched s.
Definition sequence (move : nat) (previous next : sender) : sender := letValue previous move (fun _ => next).

(** Receivers: the one given from outside with the scheduler its environment answers, and those of the
    operations, each with the receiver of its operation.  [WhenAllReceiver] points to its operation and to the
    environment of that operation's receiver. *)
Inductive receiver : Type :=
  | FinalReceiver (environment : option scheduler)
  | ThenReceiver (m_function : nat) (m_receiver : receiver)
  | LetValueReceiver (m_factory : nat) (successor : list V -> sender) (m_receiver : receiver)
  | TransferReceiver (m_scheduler : scheduler) (m_receiver : receiver)
  | ChildReceiver (m_scheduler : scheduler) (m_receiver : receiver)
  | WhenAllReceiver (owner index : nat) (environment : option scheduler).

(** [getScheduler(receiver.get_env())]: [startsOn] overlays its scheduler, the others forward. *)
Fixpoint getScheduler (r : receiver) : option scheduler :=
  match r with
  | FinalReceiver environment | WhenAllReceiver _ _ environment => environment
  | ThenReceiver _ r | LetValueReceiver _ _ r | TransferReceiver _ r => getScheduler r
  | ChildReceiver scheduler _ => Some scheduler
  end.

(** [start()] of a sender connected to a receiver, and [set_value(values...)] of a receiver. *)
Inductive call : Type :=
  | Start (s : sender) (r : receiver)
  | SetValue (r : receiver) (values : list V).

(** A call of a callable: where, which, with what, and what it returned. *)
Record event : Type := mkEvent { on_thread : nat; callable : nat; arguments : list V; returned : list V }.

(** [WhenAllOperation]. *)
Record WhenAllOperation : Type := mkWhenAll {
  m_receiver : receiver;
  m_remaining : nat;
  m_values : list (option (list V))
}.

(** The threads with their stacks of calls; the tasks of all run loops in the order of posting; the native
    operations under way; the join operations; the completions outside with their thread. *)
Record machine : Type := mkMachine {
  threads : list (list call);
  posted : list (nat * call);
  outstanding : list (nat * receiver);
  joins : list WhenAllOperation;
  delivered : list (list V * nat);
  called : list event;
  world : W
}.

Definition set_threads f (m : machine) : machine :=
  mkMachine (f (threads m)) (posted m) (outstanding m) (joins m) (delivered m) (called m) (world m).
Definition set_posted f (m : machine) : machine :=
  mkMachine (threads m) (f (posted m)) (outstanding m) (joins m) (delivered m) (called m) (world m).
Definition set_outstanding f (m : machine) : machine :=
  mkMachine (threads m) (posted m) (f (outstanding m)) (joins m) (delivered m) (called m) (world m).
Definition set_joins f (m : machine) : machine :=
  mkMachine (threads m) (posted m) (outstanding m) (f (joins m)) (delivered m) (called m) (world m).

(** What a callable does to the state and returns. *)
Context (host : nat -> list V -> W -> list V * W).

Definition invoke (t f : nat) (values : list V) (m : machine) : list V * machine :=
  let '(result, w) := host f values (world m) in
  (result, mkMachine (threads m) (posted m) (outstanding m) (joins m) (delivered m) (called m ++ [mkEvent t f values result]) w).

(** Calls made by thread [t], in order. *)
Definition make_calls (t : nat) (cs : list call) : machine -> machine := set_threads (alter (app cs) t).
Definition make_call (t : nat) (c : call) : machine -> machine := make_calls t [c].

(** [RunLoopScheduler::post]. *)
Definition post (l : nat) (c : call) : machine -> machine := set_posted (fun tasks => tasks ++ [(l, c)]).

(** [start()] of [schedule()], whose receiver makes the call [c]. *)
Definition InlineScheduler_start (t : nat) (c : call) : machine -> machine := make_call t c.
Definition RunLoop_start (l : nat) (c : call) : machine -> machine := post l c.
Definition schedule (scheduler : scheduler) (t : nat) (c : call) : machine -> machine :=
  match scheduler with
  | InlineScheduler => InlineScheduler_start t c
  | RunLoopScheduler l => RunLoop_start l c
  end.

Definition ThenOperation_start (t : nat) (s : sender) (f : nat) (r : receiver) : machine -> machine :=
  make_call t (Start s (ThenReceiver f r)).
Definition completeValue (t f : nat) (r : receiver) (values : list V) (m : machine) : machine :=
  let '(result, m) := invoke t f values m in make_call t (SetValue r result) m.

Definition LetValueOperation_start (t : nat) (s : sender) (f : nat) (g : list V -> sender) (r : receiver) : machine -> machine :=
  make_call t (Start s (LetValueReceiver f g r)).
Definition startSuccessor (t f : nat) (g : list V -> sender) (r : receiver) (values : list V) (m : machine) : machine :=
  let '(result, m) := invoke t f values m in make_call t (Start (g result) r) m.

Definition ContinuesOnOperation_start (t : nat) (s : sender) (sched : scheduler) (r : receiver) : machine -> machine :=
  make_call t (Start s (TransferReceiver sched r)).
Definition transferValue (t : nat) (sched : scheduler) (r : receiver) (values : list V) : machine -> machine :=
  schedule sched t (SetValue r values).

Definition StartsOnOperation_start (t : nat) (sched : scheduler) (s : sender) (r : receiver) : machine -> machine :=
  schedule sched t (Start s (ChildReceiver sched r)).

(** [OnSender::connect]; without a scheduler in the environment it does not compile. *)
Definition OnSender_connect (sched : scheduler) (s : sender) (r : receiver) : option sender :=
  match getScheduler r with
  | Some restoration => Some (continuesOn (startsOn sched s) restoration)
  | None => None
  end.

Definition WhenAll_holders (owner : nat) (senders : list sender) (r : receiver) : list call :=
  imap (fun i s => Start s (WhenAllReceiver owner i (getScheduler r))) senders.
Definition WhenAllOperation_start (t : nat) (senders : list sender) (r : receiver) (m : machine) : machine :=
  match senders with
  | [] => make_call t (SetValue r []) m
  | _ =>
      make_calls t (WhenAll_holders (length (joins m)) senders r)
        (set_joins (fun js => js ++ [mkWhenAll r (length senders) (replicate (length senders) None)]) m)
  end.

(** [finish()]; every value is dereferenced. *)
Definition WhenAll_finish (t : nat) (j : WhenAllOperation) (m : machine) : option machine :=
  match mapM id (m_values j) with
  | Some values => Some (make_call t (SetValue (m_receiver j) (concat values)) m)
  | None => None
  end.

(** [setValue<i>]; none when the count is exhausted already. *)
Definition WhenAll_setValue (t o i : nat) (values : list V) (m : machine) : option machine :=
  match joins m !! o with
  | Some (mkWhenAll r (S remaining) stored) =>
      let j := mkWhenAll r remaining (<[i := Some values]> stored) in
      let m := set_joins (insert o j) m in
      match remaining with 0 => WhenAll_finish t j m | S _ => Some m end
  | _ => None
  end.

(** What a call does; it has been taken from the stack. *)
Definition perform (t : nat) (c : call) (m : machine) : option machine :=
  match c with
  | Start (NativeSender i) r => Some (set_outstanding (fun os => os ++ [(i, r)]) m)
  | Start (ThenSender s f) r => Some (ThenOperation_start t s f r m)
  | Start (LetValueSender s f g) r => Some (LetValueOperation_start t s f g r m)
  | Start (WhenAllSender ss) r => Some (WhenAllOperation_start t ss r m)
  | Start (ContinuesOnSender s sched) r => Some (ContinuesOnOperation_start t s sched r m)
  | Start (StartsOnSender sched s) r => Some (StartsOnOperation_start t sched s r m)
  | Start (OnSender sched s) r =>
      match OnSender_connect sched s r with
      | Some (ContinuesOnSender s sched) => Some (ContinuesOnOperation_start t s sched r m)
      | _ => None
      end
  | SetValue (FinalReceiver _) values =>
      Some (mkMachine (threads m) (posted m) (outstanding m) (joins m) (delivered m ++ [(values, t)]) (called m) (world m))
  | SetValue (ThenReceiver f r) values => Some (completeValue t f r values m)
  | SetValue (LetValueReceiver f g r) values => Some (startSuccessor t f g r values m)
  | SetValue (TransferReceiver sched r) values => Some (transferValue t sched r values m)
  | SetValue (ChildReceiver _ r) values => Some (make_call t (SetValue r values) m)
  | SetValue (WhenAllReceiver o i _) values => WhenAll_setValue t o i values m
  end.

(** The values a native operation may complete with, and the threads that drive a loop. *)
Context (completes : nat -> list V -> Prop) (drives : nat -> nat -> Prop).

Inductive machine_step : machine -> machine -> Prop :=
  | step_call t c rest m m' :
      threads m !! t = Some (c :: rest) -> perform t c (set_threads (insert t rest) m) = Some m' -> machine_step m m'
  | step_native t i r values os os' m :
      outstanding m = os ++ (i, r) :: os' -> completes i values -> t < length (threads m) ->
      machine_step m (make_call t (SetValue r values) (set_outstanding (fun _ => os ++ os') m))
  | step_loop t l c ts ts' m :
      posted m = ts ++ (l, c) :: ts' -> l ∉ ts.*1 -> drives l t -> t < length (threads m) ->
      machine_step m (make_call t c (set_posted (fun _ => ts ++ ts') m)).

(** [connect(sender, receiver)] and [start()] on thread [t] of [n]. *)
Definition machine_start (n t : nat) (s : sender) (environment : option scheduler) (w : W) : machine :=
  make_call t (Start s (FinalReceiver environment)) (mkMachine (replicate n []) [] [] [] [] [] w).

(** ** What composition means *)

(** [merged n traces tr]: [tr] interleaves the first [n] of the traces. *)
Inductive merged (n : nat) : (nat -> list event) -> list event -> Prop :=
  | merged_nil trs : (forall i, i < n -> trs i = []) -> merged n trs []
  | merged_cons trs i e rest tr : i < n -> trs i = e :: rest -> merged n (upd i rest trs) tr -> merged n trs (e :: tr).

(** Where a scheduler continues what thread [t] schedules. *)
Inductive placed : scheduler -> nat -> nat -> Prop :=
  | placed_inline t : placed InlineScheduler t t
  | placed_loop l t t' : drives l t' -> placed (RunLoopScheduler l) t t'.

(** [runs env s t tr values t']: started on thread [t] below an environment, the sender makes the calls [tr]
    and completes with [values] on thread [t']. *)
Inductive runs : option scheduler -> sender -> nat -> list event -> list V -> nat -> Prop :=
  | runs_native env i t values t' : completes i values -> runs env (NativeSender i) t [] values t'
  | runs_then env s f t tr values t' result :
      runs env s t tr values t' -> runs env (ThenSender s f) t (tr ++ [mkEvent t' f values result]) result t'
  | runs_let env s f g t tr values t1 result tr' values' t' :
      runs env s t tr values t1 -> runs env (g result) t1 tr' values' t' ->
      runs env (LetValueSender s f g) t (tr ++ mkEvent t1 f values result :: tr') values' t'
  | runs_when_nil env t : runs env (WhenAllSender []) t [] [] t
  | runs_when env ss t trs vss ts tr last :
      (forall i s, ss !! i = Some s -> runs env s t (trs i) (vss i) (ts i)) -> merged (length ss) trs tr -> last < length ss ->
      runs env (WhenAllSender ss) t tr (concat (map vss (seq 0 (length ss)))) (ts last)
  | runs_continues env s sched t tr values t1 t' :
      runs env s t tr values t1 -> placed sched t1 t' -> runs env (ContinuesOnSender s sched) t tr values t'
  | runs_starts env sched s t t1 tr values t' :
      placed sched t t1 -> runs (Some sched) s t1 tr values t' -> runs env (StartsOnSender sched s) t tr values t'
  | runs_on sched s restoration t tr values t1 t' :
      runs (Some restoration) (StartsOnSender sched s) t tr values t1 -> placed restoration t1 t' ->
      runs (Some restoration) (OnSender sched s) t tr values t'.

(** The results of the calls are those of the callables on one state, in the order of the log. *)
Fixpoint replays (w : W) (tr : list event) (w' : W) : Prop :=
  match tr with
  | [] => w' = w
  | e :: tr => returned e = (host (callable e) (arguments e) w).1 /\ replays (host (callable e) (arguments e) w).2 tr w'
  end.

(** The operations a type of sender has, each counted with the calls it takes; [env] tells whether the
    environment answers [getScheduler].  The successors of [letValue] have one type. *)
#[warnings="-register-all"]
Inductive connects : bool -> sender -> nat -> Prop :=
  | c_native env i : connects env (NativeSender i) 2
  | c_then env s f n : connects env s n -> connects env (ThenSender s f) (2 + n)
  | c_let env s f g n k : connects env s n -> (forall result, connects env (g result) k) -> connects env (LetValueSender s f g) (2 + n + k)
  | c_when env ss ns : Forall2 (connects env) ss ns -> connects env (WhenAllSender ss) (1 + sum_list (map S ns))
  | c_continues env s sched n : connects env s n -> connects env (ContinuesOnSender s sched) (3 + n)
  | c_starts env sched s n : connects true s n -> connects env (StartsOnSender sched s) (3 + n)
  | c_on sched s n : connects true s n -> connects true (OnSender sched s) (6 + n).

(** ** What a machine contains *)

(** The slot a receiver ends in: an operand of a join, or the receiver outside. *)
Fixpoint slot (r : receiver) : option (nat * nat) :=
  match r with
  | FinalReceiver _ => None
  | WhenAllReceiver o i _ => Some (o, i)
  | ThenReceiver _ r | LetValueReceiver _ _ r | TransferReceiver _ r | ChildReceiver _ r => slot r
  end.

Definition call_receiver (c : call) : receiver := match c with Start _ r | SetValue r _ => r end.

(** Calls on stacks, tasks, native operations, and joins that wait for an operand. *)
Inductive item : Type :=
  | Work (t : nat) (c : call)
  | Posted (l : nat) (c : call)
  | Outstanding (i : nat) (r : receiver)
  | Joining (o : nat) (r : receiver).

Definition item_receiver (x : item) : receiver :=
  match x with Work _ c | Posted _ c => call_receiver c | Outstanding _ r | Joining _ r => r end.
Definition item_slot (x : item) : option (nat * nat) := slot (item_receiver x).

Definition open_join (o : nat) (j : WhenAllOperation) : list item :=
  match m_remaining j with 0 => [] | S _ => [Joining o (m_receiver j)] end.

Definition work (ts : list (list call)) : list item := concat (imap (fun t st => Work t <$> st) ts).
Definition waiting (js : list WhenAllOperation) : list item := concat (imap open_join js).

Definition items (m : machine) : list item :=
  work (threads m) ++ ((fun p => Posted p.1 p.2) <$> posted m) ++ ((fun p => Outstanding p.1 p.2) <$> outstanding m) ++ waiting (joins m).

(** The slots nobody has filled. *)
Definition unfilled (o : nat) (j : WhenAllOperation) : list (option (nat * nat)) :=
  concat (imap (fun i v => match v with None => [Some (o, i)] | Some _ => [] end) (m_values j)).
Definition expects (m : machine) : list (option (nat * nat)) :=
  match delivered m with [] => [None] | _ => [] end ++ concat (imap unfilled (joins m)).

(** Every unfilled slot belongs to exactly one item. *)
Record machine_ok (m : machine) : Prop := {
  ok_slots : item_slot <$> items m ≡ₚ expects m;
  ok_remaining : forall o j, joins m !! o = Some j -> m_remaining j = length (unfilled o j);
  ok_parent : forall o j p i, joins m !! o = Some j -> slot (m_receiver j) = Some (p, i) -> p < o;
  ok_delivered : length (delivered m) <= 1
}.

(** ** The steps, on the items *)

Definition scheduled (sched : scheduler) (t : nat) (c : call) : item :=
  match sched with InlineScheduler => Work t c | RunLoopScheduler l => Posted l c end.

Inductive moves : item -> item -> list event -> Prop :=
  | mv_native t i r : moves (Work t (Start (NativeSender i) r)) (Outstanding i r) []
  | mv_complete t i r values : completes i values -> moves (Outstanding i r) (Work t (SetValue r values)) []
  | mv_task l c t : drives l t -> moves (Posted l c) (Work t c) []
  | mv_then t s f r : moves (Work t (Start (ThenSender s f) r)) (Work t (Start s (ThenReceiver f r))) []
  | mv_value t f r values result :
      moves (Work t (SetValue (ThenReceiver f r) values)) (Work t (SetValue r result)) [mkEvent t f values result]
  | mv_let t s f g r : moves (Work t (Start (LetValueSender s f g) r)) (Work t (Start s (LetValueReceiver f g r))) []
  | mv_successor t f g r values result :
      moves (Work t (SetValue (LetValueReceiver f g r) values)) (Work t (Start (g result) r)) [mkEvent t f values result]
  | mv_when t r : moves (Work t (Start (WhenAllSender []) r)) (Work t (SetValue r [])) []
  | mv_continues t s sched r : moves (Work t (Start (ContinuesOnSender s sched) r)) (Work t (Start s (TransferReceiver sched r))) []
  | mv_transfer t sched r values :
      moves (Work t (SetValue (TransferReceiver sched r) values)) (scheduled sched t (SetValue r values)) []
  | mv_starts t sched s r :
      moves (Work t (Start (StartsOnSender sched s) r)) (scheduled sched t (Start s (ChildReceiver sched r))) []
  | mv_on t sched s r restoration : getScheduler r = Some restoration ->
      moves (Work t (Start (OnSender sched s) r)) (Work t (Start (StartsOnSender sched s) (TransferReceiver restoration r))) []
  | mv_child t sched r values : moves (Work t (SetValue (ChildReceiver sched r) values)) (Work t (SetValue r values)) [].

Inductive change (m m' : machine) : Prop :=
  | ch_move x x' ev rest :
      moves x x' ev -> items m ≡ₚ x :: rest -> items m' ≡ₚ x' :: rest -> joins m' = joins m -> delivered m' = delivered m ->
      called m' = called m ++ ev -> replays (world m) ev (world m') -> change m m'
  | ch_fork t ss r rest :
      ss <> [] -> items m ≡ₚ Work t (Start (WhenAllSender ss) r) :: rest ->
      items m' ≡ₚ (Work t <$> WhenAll_holders (length (joins m)) ss r) ++ Joining (length (joins m)) r :: rest ->
      joins m' = joins m ++ [mkWhenAll r (length ss) (replicate (length ss) None)] -> delivered m' = delivered m ->
      called m' = called m -> world m' = world m -> change m m'
  | ch_fill t o i environment values r k stored rest :
      items m ≡ₚ Work t (SetValue (WhenAllReceiver o i environment) values) :: rest -> items m' ≡ₚ rest ->
      joins m !! o = Some (mkWhenAll r (S (S k)) stored) ->
      joins m' = <[o := mkWhenAll r (S k) (<[i := Some values]> stored)]> (joins m) ->
      delivered m' = delivered m -> called m' = called m -> world m' = world m -> change m m'
  | ch_join t o i environment values r stored all rest :
      items m ≡ₚ Work t (SetValue (WhenAllReceiver o i environment) values) :: Joining o r :: rest ->
      items m' ≡ₚ Work t (SetValue r (concat all)) :: rest ->
      joins m !! o = Some (mkWhenAll r 1 stored) ->
      joins m' = <[o := mkWhenAll r 0 (<[i := Some values]> stored)]> (joins m) ->
      mapM id (<[i := Some values]> stored) = Some all ->
      delivered m' = delivered m -> called m' = called m -> world m' = world m -> change m m'
  | ch_deliver t environment values rest :
      items m ≡ₚ Work t (SetValue (FinalReceiver environment) values) :: rest -> items m' ≡ₚ rest ->
      joins m' = joins m -> delivered m' = delivered m ++ [(values, t)] -> called m' = called m -> world m' = world m -> change m m'.

Lemma work_insert ts t st : ts !! t = Some st ->
  exists rest, work ts ≡ₚ (Work t <$> st) ++ rest /\ forall st', work (<[t := st']> ts) ≡ₚ (Work t <$> st') ++ rest.
Proof. intros Ht. by apply (concat_imap_insert (fun t st => Work t <$> st)). Qed.

Lemma alter_insert {A} (f : A -> A) (l : list A) i x : l !! i = Some x -> alter f i l = <[i := f x]> l.
Proof. revert i. induction l as [|y l IH]; intros [|i] Hi; [done..|by simplify_eq/=|]. cbn. f_equal. by apply IH. Qed.

Lemma work_calls ts t cs : t < length ts -> work (alter (app cs) t ts) ≡ₚ (Work t <$> cs) ++ work ts.
Proof.
  intros Ht. destruct (lookup_lt_is_Some_2 _ _ Ht) as [st Hst]. destruct (work_insert _ _ _ Hst) as (rest & H1 & H2).
  rewrite (alter_insert _ _ _ _ Hst). rewrite H2, H1, fmap_app, app_assoc. done.
Qed.

Lemma waiting_insert js o j : js !! o = Some j ->
  exists rest, waiting js ≡ₚ open_join o j ++ rest /\ forall j', waiting (<[o := j']> js) ≡ₚ open_join o j' ++ rest.
Proof. intros Ho. by apply (concat_imap_insert open_join). Qed.

Lemma waiting_snoc js j : waiting (js ++ [j]) = waiting js ++ open_join (length js) j.
Proof. unfold waiting. rewrite imap_app, concat_app. simpl. by rewrite Nat.add_0_r, app_nil_r. Qed.

Ltac fields := cbn [threads posted outstanding joins delivered called world m_receiver m_remaining m_values set_threads set_posted set_outstanding set_joins make_calls post].

Lemma items_calls t cs m : t < length (threads m) -> items (make_calls t cs m) ≡ₚ (Work t <$> cs) ++ items m.
Proof. intros Ht. unfold items, make_calls. fields. rewrite work_calls by done. by rewrite <-app_assoc. Qed.

Lemma items_post l c m : items (post l c m) ≡ₚ Posted l c :: items m.
Proof. unfold items, post, set_posted. cbn. rewrite fmap_app. cbn. solve_Permutation. Qed.

Lemma items_schedule sched t c m : t < length (threads m) -> items (schedule sched t c m) ≡ₚ scheduled sched t c :: items m.
Proof. intros Ht. destruct sched; [exact (items_calls t [c] m Ht)|apply items_post]. Qed.

Lemma items_pop m t c st : threads m !! t = Some (c :: st) -> items m ≡ₚ Work t c :: items (set_threads (insert t st) m).
Proof.
  intros Ht. destruct (work_insert _ _ _ Ht) as (rest & H1 & H2). unfold items. fields. rewrite H1, H2. by cbn.
Qed.

Lemma items_native m os i r os' : outstanding m = os ++ (i, r) :: os' ->
  items m ≡ₚ Outstanding i r :: items (set_outstanding (fun _ => os ++ os') m).
Proof. intros E. unfold items. fields. rewrite E, !fmap_app. cbn. solve_Permutation. Qed.

Lemma items_task m ts l c ts' : posted m = ts ++ (l, c) :: ts' -> items m ≡ₚ Posted l c :: items (set_posted (fun _ => ts ++ ts') m).
Proof. intros E. unfold items. fields. rewrite E, !fmap_app. cbn. solve_Permutation. Qed.

Lemma items_join m o j : joins m !! o = Some j ->
  exists rest, items m ≡ₚ open_join o j ++ rest /\ forall j', items (set_joins (insert o j') m) ≡ₚ open_join o j' ++ rest.
Proof.
  intros Ho. destruct (waiting_insert _ _ _ Ho) as (rest & H1 & H2).
  exists (work (threads m) ++ ((fun p => Posted p.1 p.2) <$> posted m) ++ ((fun p => Outstanding p.1 p.2) <$> outstanding m) ++ rest).
  unfold items. fields. split; [|intros j']; rewrite ?H1, ?H2; solve_Permutation.
Qed.

(** A call that only makes, posts or starts one thing. *)
Lemma perform_move m t c st m0 x' ev m' :
  threads m !! t = Some (c :: st) -> m0 = set_threads (insert t st) m -> moves (Work t c) x' ev ->
  items m' ≡ₚ x' :: items m0 -> joins m' = joins m0 -> delivered m' = delivered m0 -> called m' = called m0 ++ ev ->
  replays (world m0) ev (world m') -> change m m'.
Proof. intros Ht -> Hm Hi Hj Hd Hc Hr. eapply (ch_move _ _ _ x' ev (items _)); [done|by apply items_pop|done..]. Qed.

Lemma invoke_spec t f values m result m' : invoke t f values m = (result, m') ->
  items m' = items m /\ joins m' = joins m /\ delivered m' = delivered m /\ threads m' = threads m /\
  called m' = called m ++ [mkEvent t f values result] /\ replays (world m) [mkEvent t f values result] (world m').
Proof. unfold invoke. destruct (host f values (world m)) as [res w] eqn:E. intros [= <- <-]. cbn. by rewrite E. Qed.

Lemma step_change m m' : machine_step m m' -> change m m'.
Proof.
  destruct 1 as [t c st m m' Ht Hp|t i r values os os' m Ho Hc Ht|t l c ts ts' m Hp _ Hd Ht].
  - assert (Hlt : t < length (threads (set_threads (insert t st) m))) by (cbn; rewrite length_insert; by eapply lookup_lt_Some).
    remember (set_threads (insert t st) m) as m0 eqn:Hm0.
    assert (Hmove : forall x' ev, moves (Work t c) x' ev -> items m' ≡ₚ x' :: items m0 -> joins m' = joins m0 -> delivered m' = delivered m0 ->
      called m' = called m0 ++ ev -> replays (world m0) ev (world m') -> change m m') by (intros; by eapply perform_move).
    destruct c as [[i|s f|s f g|ss|s sched|sched s|sched s] r|[env|f r|f g r|sched r|sched r|o i env] values]; cbn in Hp.
    + injection Hp as <-. eapply Hmove; [constructor|..]; fields; rewrite ?app_nil_r; try done.
      unfold items. fields. rewrite fmap_app. cbn. solve_Permutation.
    + injection Hp as <-. eapply Hmove; [constructor|by apply items_calls|..]; by rewrite ?app_nil_r.
    + injection Hp as <-. eapply Hmove; [constructor|by apply items_calls|..]; by rewrite ?app_nil_r.
    + destruct ss as [|s ss].
      * injection Hp as <-. eapply Hmove; [constructor|by apply items_calls|..]; by rewrite ?app_nil_r.
      * injection Hp as <-. eapply (ch_fork _ _ t (s :: ss) r (items m0)); [done|subst; by apply items_pop|..]; subst m0; fields; try done.
        unfold WhenAllOperation_start. rewrite items_calls by done. f_equiv. unfold items. fields. rewrite waiting_snoc. cbn. solve_Permutation.
    + injection Hp as <-. eapply Hmove; [constructor|by apply items_calls|..]; by rewrite ?app_nil_r.
    + injection Hp as <-. eapply Hmove; [constructor|by apply items_schedule|..]; destruct sched; by rewrite ?app_nil_r.
    + unfold OnSender_connect in Hp. destruct (getScheduler r) as [restoration|] eqn:Er; [|done]. injection Hp as <-.
      eapply Hmove; [by constructor|by apply items_calls|..]; by rewrite ?app_nil_r.
    + injection Hp as <-. subst m0. eapply (ch_deliver _ _ t env values); [by apply items_pop|..]; done.
    + injection Hp as Hp. unfold completeValue in Hp. destruct (invoke t f values m0) as [result m1] eqn:Ei. subst m'.
      destruct (invoke_spec _ _ _ _ _ _ Ei) as (Hi & Hj & Hd & Hth & Hc & Hr).
      eapply Hmove; [apply (mv_value t f r values result)|rewrite <-Hi; apply items_calls; by rewrite Hth|done..].
    + injection Hp as Hp. unfold startSuccessor in Hp. destruct (invoke t f values m0) as [result m1] eqn:Ei. subst m'.
      destruct (invoke_spec _ _ _ _ _ _ Ei) as (Hi & Hj & Hd & Hth & Hc & Hr).
      eapply Hmove; [apply (mv_successor t f g r values result)|rewrite <-Hi; apply items_calls; by rewrite Hth|done..].
    + injection Hp as <-. eapply Hmove; [constructor|by apply items_schedule|..]; destruct sched; by rewrite ?app_nil_r.
    + injection Hp as <-. eapply Hmove; [constructor|by apply items_calls|..]; by rewrite ?app_nil_r.
    + unfold WhenAll_setValue in Hp. destruct (joins m0 !! o) as [[r [|remaining] stored]|] eqn:Eo; [done| |done].
      destruct (items_join _ _ _ Eo) as (rest & H1 & H2). destruct remaining as [|k].
      * unfold WhenAll_finish in Hp. cbn [m_values m_receiver] in Hp. destruct (mapM id _) as [all|] eqn:Ea; [|done]. injection Hp as <-.
        eapply (ch_join _ _ t o i env values r stored all rest); [| |by subst m0|by subst m0|exact Ea|by subst m0..].
        -- rewrite (items_pop m t _ st) by done. rewrite <-Hm0, H1. done.
        -- unfold make_call. rewrite items_calls by done. rewrite H2. done.
      * injection Hp as <-. eapply (ch_fill _ _ t o i env values r k stored (items m0)); [subst; by apply items_pop| |by subst m0..].
        rewrite H1, H2. done.
  - eapply (ch_move _ _ _ _ []); [by apply (mv_complete t)|by apply items_native|by apply items_calls|by rewrite ?app_nil_r..].
  - eapply (ch_move _ _ _ _ []); [by apply (mv_task l c t)|by apply items_task|by apply items_calls|by rewrite ?app_nil_r..].
Qed.

(** ** Every slot has one owner *)

Lemma moves_slot x x' ev : moves x x' ev -> item_slot x = item_slot x'.
Proof. destruct 1; try done; by destruct sched. Qed.

Lemma elem_unfilled x o j : x ∈ unfilled o j <-> exists i, x = Some (o, i) /\ m_values j !! i = Some None.
Proof.
  unfold unfilled. rewrite elem_of_concat. setoid_rewrite elem_of_lookup_imap. split.
  - intros (l & Hx & i & [v|] & -> & Hi); [by apply elem_of_nil in Hx|]. apply list_elem_of_singleton in Hx as ->. by exists i.
  - intros (i & -> & Hi). exists [Some (o, i)]. split; [by left|]. by exists i, None.
Qed.

Lemma elem_expects x m : x ∈ expects m <->
  (x = None /\ delivered m = []) \/ exists o j i, x = Some (o, i) /\ joins m !! o = Some j /\ m_values j !! i = Some None.
Proof.
  unfold expects. rewrite elem_of_app, elem_of_concat. setoid_rewrite elem_of_lookup_imap. split.
  - intros [Hx|(l & Hx & o & j & -> & Ho)].
    + left. destruct (delivered m); [by apply list_elem_of_singleton in Hx|by apply elem_of_nil in Hx].
    + right. apply elem_unfilled in Hx as (i & -> & Hi). by exists o, j, i.
  - intros [[-> ->]|(o & j & i & -> & Ho & Hi)]; [left; by left|right].
    exists (unfilled o j). split; [apply elem_unfilled; by exists i|by exists o, j].
Qed.

Lemma NoDup_concat_imap {A B} (f : nat -> A -> list B) (key : B -> nat) (l : list A) (k : nat) :
  (forall i x, NoDup (f i x)) -> (forall i x y, y ∈ f i x -> key y = k + i) -> NoDup (concat (imap f l)).
Proof.
  revert f k. induction l as [|x l IH]; intros f k Hn Hk; [by constructor|]. rewrite imap_cons. cbn. apply list.NoDup_app. repeat split; [done| |].
  - intros y Hy (l' & Hl' & Hl)%elem_of_concat. apply elem_of_lookup_imap in Hl as (i & z & -> & _).
    pose proof (Hk 0 x y Hy). pose proof (Hk (S i) z y Hl'). lia.
  - apply (IH _ (S k)); [intros; apply Hn|]. intros i z y Hy. pose proof (Hk (S i) z y Hy). lia.
Qed.

Lemma NoDup_unfilled o j : NoDup (unfilled o j).
Proof.
  unfold unfilled. apply (NoDup_concat_imap _ (fun x => match x with Some (_, i) => i | None => 0 end) _ 0).
  - intros i [v|]; [constructor|apply list.NoDup_singleton].
  - intros i [v|] y Hy; [by apply elem_of_nil in Hy|by apply list_elem_of_singleton in Hy as ->].
Qed.

Lemma NoDup_expects m : NoDup (expects m).
Proof.
  unfold expects. apply list.NoDup_app. repeat split.
  - destruct (delivered m); [apply list.NoDup_singleton|constructor].
  - intros x Hx (l & Hl & Hm)%elem_of_concat. apply elem_of_lookup_imap in Hm as (o & j & -> & _).
    apply elem_unfilled in Hl as (i & -> & _). destruct (delivered m); [by apply list_elem_of_singleton in Hx|by apply elem_of_nil in Hx].
  - apply (NoDup_concat_imap _ (fun x => match x with Some (o, _) => o | None => 0 end) _ 0); [apply NoDup_unfilled|].
    intros o j x (i & -> & _)%elem_unfilled. done.
Qed.

Lemma expects_eq m m' : joins m' = joins m -> delivered m' = delivered m -> expects m' = expects m.
Proof. unfold expects. by intros -> ->. Qed.

Lemma unfilled_all r n o : unfilled o (mkWhenAll r n (replicate n None)) = (fun i => Some (o, i)) <$> seq 0 n.
Proof.
  unfold unfilled. cbn [m_values].
  assert (H : forall k, concat (imap (fun i v => match v with None => [Some (o, k + i)] | Some _ => [] end) (replicate n (@None (list V))))
    = (fun i => Some (o, i)) <$> seq k n).
  { induction n as [|n IH]; intros k; [done|]. cbn [replicate seq]. rewrite imap_cons. cbn. f_equal; [by rewrite Nat.add_0_r|].
    rewrite <-IH. f_equal. apply imap_ext. intros i v _. cbn. by rewrite Nat.add_succ_r. }
  exact (H 0).
Qed.

Lemma holders_slots t o ss r : item_slot <$> (Work t <$> WhenAll_holders o ss r) = (fun i => Some (o, i)) <$> seq 0 (length ss).
Proof.
  unfold WhenAll_holders. rewrite !fmap_imap. rewrite <-(imap_seq_0 ss (fun i => Some (o, i))). done.
Qed.

(** Storing an operand. *)
Lemma unfilled_insert o r k stored i values : stored !! i = Some None ->
  unfilled o (mkWhenAll r k stored) ≡ₚ Some (o, i) :: unfilled o (mkWhenAll r k (<[i := Some values]> stored)).
Proof.
  intros Hi. unfold unfilled. cbn [m_values].
  destruct (concat_imap_insert (fun i (v : option (list V)) => match v with None => [Some (o, i)] | Some _ => [] end) _ _ _ Hi) as (rest & H1 & H2).
  by rewrite H1, H2.
Qed.

Lemma expects_insert m m' o r k k' stored i values : joins m !! o = Some (mkWhenAll r k stored) -> stored !! i = Some None ->
  joins m' = <[o := mkWhenAll r k' (<[i := Some values]> stored)]> (joins m) -> delivered m' = delivered m ->
  expects m ≡ₚ Some (o, i) :: expects m'.
Proof.
  intros Ho Hi Hj Hd. unfold expects. rewrite Hj, Hd.
  destruct (concat_imap_insert unfilled _ _ _ Ho) as (rest & H1 & H2). rewrite H1, H2.
  rewrite (unfilled_insert _ _ _ _ _ values Hi). unfold unfilled. cbn [m_values]. solve_Permutation.
Qed.

Lemma item_unfilled m x o i : machine_ok m -> x ∈ items m -> item_slot x = Some (o, i) ->
  exists j, joins m !! o = Some j /\ m_values j !! i = Some None /\ m_remaining j <> 0.
Proof.
  intros Hok Hx Hs. assert (He : Some (o, i) ∈ expects m) by (rewrite <-(ok_slots m Hok), <-Hs; by apply list_elem_of_fmap_2).
  apply elem_expects in He as [[? _]|(o' & j & i' & [= <- <-] & Ho & Hi)]; [done|]. exists j. split; [done|]. split; [done|].
  rewrite (ok_remaining m Hok o j Ho). assert (Hu : Some (o, i) ∈ unfilled o j) by (apply elem_unfilled; by exists i).
  intros Hn%length_zero_iff_nil. rewrite Hn in Hu. by apply elem_of_nil in Hu.
Qed.

Lemma joining_item m o j : joins m !! o = Some j -> m_remaining j <> 0 -> Joining o (m_receiver j) ∈ items m.
Proof.
  intros Ho Hn. destruct (items_join _ _ _ Ho) as (rest & -> & _). unfold open_join. destruct (m_remaining j); [done|]. by left.
Qed.

Lemma expects_fork m m' t ss r : joins m' = joins m ++ [mkWhenAll r (length ss) (replicate (length ss) None)] -> delivered m' = delivered m ->
  expects m' ≡ₚ (item_slot <$> (Work t <$> WhenAll_holders (length (joins m)) ss r)) ++ expects m.
Proof.
  intros Hj Hd. rewrite holders_slots, <-(unfilled_all r). unfold expects. rewrite Hj, Hd, imap_app, concat_app. cbn.
  rewrite Nat.add_0_r, app_nil_r. solve_Permutation.
Qed.

Lemma parents_insert m m' o r k k' stored stored' : machine_ok m -> joins m !! o = Some (mkWhenAll r k stored) ->
  joins m' = <[o := mkWhenAll r k' stored']> (joins m) ->
  forall o' j p i, joins m' !! o' = Some j -> slot (m_receiver j) = Some (p, i) -> p < o'.
Proof.
  intros Hok Ho Hj o' j p i Ho' Hs. rewrite Hj in Ho'. apply list_lookup_insert_Some in Ho' as [(<- & <- & _)|[_ Ho']].
  - exact (ok_parent m Hok o _ p i Ho Hs).
  - exact (ok_parent m Hok o' _ p i Ho' Hs).
Qed.

Lemma remaining_insert m m' o r k stored i values : machine_ok m -> joins m !! o = Some (mkWhenAll r (S k) stored) -> stored !! i = Some None ->
  joins m' = <[o := mkWhenAll r k (<[i := Some values]> stored)]> (joins m) ->
  forall o' j, joins m' !! o' = Some j -> m_remaining j = length (unfilled o' j).
Proof.
  intros Hok Ho Hi Hj o' j Ho'. rewrite Hj in Ho'. apply list_lookup_insert_Some in Ho' as [(<- & <- & _)|[_ Ho']].
  - pose proof (ok_remaining m Hok o _ Ho) as H. rewrite (unfilled_insert _ _ _ _ _ values Hi) in H. cbn [m_remaining length] in *.
    unfold unfilled in *. cbn [m_values] in *. lia.
  - exact (ok_remaining m Hok o' _ Ho').
Qed.

Lemma change_ok m m' : machine_ok m -> change m m' -> machine_ok m'.
Proof.
  intros Hok Hc. pose proof (ok_slots m Hok) as Hs. pose proof (ok_delivered m Hok) as Hdl.
  destruct Hc as [x x' ev rest Hm Hi Hi' Hj Hd _ _|t ss r rest Hne Hi Hi' Hj Hd _ _|t o i env values r k stored rest Hi Hi' Ho Hj Hd _ _
    |t o i env values r stored all rest Hi Hi' Ho Hj Ha Hd _ _|t env values rest Hi Hi' Hj Hd _ _].
  - rewrite Hi in Hs. split; [|by rewrite Hj; apply Hok..|by rewrite Hd].
    rewrite Hi', (expects_eq m m' Hj Hd), <-Hs. cbn. by rewrite (moves_slot _ _ _ Hm).
  - rewrite Hi in Hs. cbn in Hs. split; [| | |by rewrite Hd].
    + rewrite Hi', (expects_fork m m' t ss r Hj Hd), <-Hs, fmap_app. done.
    + intros o j Ho. rewrite Hj in Ho. apply lookup_app_Some in Ho as [Ho|[Hle Ho]]; [by apply (ok_remaining m Hok)|].
      apply list_lookup_singleton_Some in Ho as [Ho <-]. by rewrite unfilled_all, length_fmap, length_seq.
    + intros o j p i Ho Hp. rewrite Hj in Ho. apply lookup_app_Some in Ho as [Ho|[Hle Ho]]; [by apply (ok_parent m Hok o j p i)|].
      apply list_lookup_singleton_Some in Ho as [Ho <-]. cbn [m_receiver] in Hp.
      destruct (item_unfilled m (Work t (Start (WhenAllSender ss) r)) p i Hok) as (j & Hlt & _); [rewrite Hi; by left|done|].
      apply lookup_lt_Some in Hlt. lia.
  - destruct (item_unfilled m (Work t (SetValue (WhenAllReceiver o i env) values)) o i Hok) as (j & Ho' & Hv & _); [rewrite Hi; by left|done|].
    simplify_eq. cbn [m_values] in Hv. rewrite Hi in Hs. split; [|by eapply remaining_insert|by eapply parents_insert|by rewrite Hd].
    rewrite Hi'. apply (Permutation_cons_inv (a := Some (o, i))). etrans; [exact Hs|]. by eapply expects_insert.
  - destruct (item_unfilled m (Work t (SetValue (WhenAllReceiver o i env) values)) o i Hok) as (j & Ho' & Hv & _); [rewrite Hi; by left|done|].
    simplify_eq. cbn [m_values] in Hv. rewrite Hi in Hs. split; [|by eapply remaining_insert|by eapply parents_insert|by rewrite Hd].
    rewrite Hi'. apply (Permutation_cons_inv (a := Some (o, i))). etrans; [exact Hs|]. by eapply expects_insert.
  - rewrite Hi in Hs. assert (Hn : None ∈ expects m) by (rewrite <-Hs; by left).
    apply elem_expects in Hn as [[_ Hn]|(?&?&?&?&_)]; [|done].
    split; [|by rewrite Hj; apply Hok..|by rewrite Hd, Hn].
    rewrite Hi'. apply (Permutation_cons_inv (a := None)). etrans; [exact Hs|]. unfold expects. by rewrite Hj, Hd, Hn.
Qed.

Lemma step_ok : preserved machine_step machine_ok.
Proof. intros m m' Hok Hs. by eapply change_ok, step_change. Qed.

(** ** What the items still do *)

(** What follows a completion, up to the slot. *)
Inductive receives : receiver -> nat -> list V -> list event -> list V -> nat -> Prop :=
  | rc_final env t values : receives (FinalReceiver env) t values [] values t
  | rc_join o i env t values : receives (WhenAllReceiver o i env) t values [] values t
  | rc_then f r t values result tr values' t' :
      receives r t result tr values' t' -> receives (ThenReceiver f r) t values (mkEvent t f values result :: tr) values' t'
  | rc_let f g r t values result tr values1 t1 tr' values' t' :
      runs (getScheduler r) (g result) t tr values1 t1 -> receives r t1 values1 tr' values' t' ->
      receives (LetValueReceiver f g r) t values (mkEvent t f values result :: tr ++ tr') values' t'
  | rc_transfer sched r t t1 values tr values' t' :
      placed sched t t1 -> receives r t1 values tr values' t' -> receives (TransferReceiver sched r) t values tr values' t'
  | rc_child sched r t values tr values' t' :
      receives r t values tr values' t' -> receives (ChildReceiver sched r) t values tr values' t'.

Inductive call_runs : call -> nat -> list event -> list V -> nat -> Prop :=
  | cr_start s r t tr values t1 tr' values' t' :
      runs (getScheduler r) s t tr values t1 -> receives r t1 values tr' values' t' -> call_runs (Start s r) t (tr ++ tr') values' t'
  | cr_value r values t tr values' t' : receives r t values tr values' t' -> call_runs (SetValue r values) t tr values' t'.

Inductive item_runs : item -> list event -> list V -> nat -> Prop :=
  | ir_work t c tr values t' : call_runs c t tr values t' -> item_runs (Work t c) tr values t'
  | ir_posted l c t tr values t' : drives l t -> call_runs c t tr values t' -> item_runs (Posted l c) tr values t'
  | ir_native i r t v tr values t' : completes i v -> receives r t v tr values t' -> item_runs (Outstanding i r) tr values t'.

(** What a machine still does before a slot is filled. *)
Inductive residual (m : machine) : option (nat * nat) -> list event -> list V -> nat -> Prop :=
  | res_item x tr values t : x ∈ items m -> item_runs x tr values t -> residual m (item_slot x) tr values t
  | res_join o j trs vss ts tr last tr' values t :
      joins m !! o = Some j -> m_remaining j <> 0 ->
      (forall i v, m_values j !! i = Some (Some v) -> trs i = [] /\ vss i = v) ->
      (forall i, m_values j !! i = Some None -> residual m (Some (o, i)) (trs i) (vss i) (ts i)) ->
      merged (length (m_values j)) trs tr -> m_values j !! last = Some None ->
      receives (m_receiver j) (ts last) (concat (map vss (seq 0 (length (m_values j))))) tr' values t ->
      residual m (slot (m_receiver j)) (tr ++ tr') values t
  | res_done values t : delivered m = [(values, t)] -> residual m None [] values t.

Lemma scheduled_runs sched t c tr values t' : item_runs (scheduled sched t c) tr values t' ->
  exists t1, placed sched t t1 /\ call_runs c t1 tr values t'.
Proof. destruct sched; inversion 1; subst; eexists; (split; [by constructor|done]). Qed.

Lemma moves_runs x x' ev tr values t : moves x x' ev -> item_runs x' tr values t -> item_runs x (ev ++ tr) values t.
Proof.
  destruct 1; intros Hr; cbn [app].
  - inversion Hr; subst. constructor. apply (cr_start _ _ _ []) with v t1; [by constructor|done].
  - inversion Hr as [? ? ? ? ? Hc| |]; subst. inversion Hc; subst. by econstructor.
  - inversion Hr; subst. by econstructor.
  - inversion Hr as [? ? ? ? ? Hc| |]; subst. inversion Hc as [? ? ? tr1 ? ? tr2 ? ? Hs Hk|]; subst. inversion Hk; subst.
    constructor. rewrite (cons_middle _ tr1), (app_assoc tr1). econstructor; [by constructor|done].
  - inversion Hr as [? ? ? ? ? Hc| |]; subst. inversion Hc; subst. constructor. constructor. by constructor.
  - inversion Hr as [? ? ? ? ? Hc| |]; subst. inversion Hc as [? ? ? tr1 ? ? tr2 ? ? Hs Hk|]; subst. inversion Hk; subst.
    constructor. rewrite app_comm_cons, (app_assoc tr1). econstructor; [by econstructor|done].
  - inversion Hr as [? ? ? ? ? Hc| |]; subst. inversion Hc; subst. constructor. constructor. by econstructor.
  - inversion Hr as [? ? ? ? ? Hc| |]; subst. inversion Hc; subst. constructor. apply (cr_start _ _ _ []) with [] t0; [by constructor|done].
  - inversion Hr as [? ? ? ? ? Hc| |]; subst. inversion Hc as [? ? ? tr1 ? ? tr2 ? ? Hs Hk|]; subst. inversion Hk; subst.
    constructor. econstructor; [by econstructor|done].
  - apply scheduled_runs in Hr as (t1 & Hp & Hc). inversion Hc; subst. constructor. constructor. by econstructor.
  - apply scheduled_runs in Hr as (t1 & Hp & Hc). inversion Hc as [? ? ? tr1 ? ? tr2 ? ? Hs Hk|]; subst. inversion Hk; subst.
    constructor. econstructor; [by econstructor|done].
  - inversion Hr as [? ? ? ? ? Hc| |]; subst. inversion Hc as [? ? ? tr1 ? ? tr2 ? ? Hs Hk|]; subst. inversion Hk; subst.
    constructor. econstructor; [|done]. cbn [getScheduler] in Hs. match goal with H : getScheduler r = _ |- _ => rewrite H in Hs |- * end. by econstructor.
  - inversion Hr as [? ? ? ? ? Hc| |]; subst. inversion Hc; subst. constructor. constructor. by constructor.
Qed.

(** ** Traces below a join *)

Lemma merged_ext n trs trs' tr : merged n trs tr -> (forall i, i < n -> trs i = trs' i) -> merged n trs' tr.
Proof.
  intros Hm. revert trs'. induction Hm as [trs Hn|trs i e rest tr Hi He _ IH]; intros trs' Ht.
  - constructor. intros i Hi. rewrite <-Ht by done. by apply Hn.
  - econstructor; [done|rewrite <-Ht; done|]. apply IH. intros k Hk. unfold upd. destruct (decide (k = i)); [done|by apply Ht].
Qed.

Lemma merged_prefix n trs i ev tr : i < n -> merged n trs tr -> merged n (upd i (ev ++ trs i) trs) (ev ++ tr).
Proof.
  intros Hi Hm. induction ev as [|e ev IH].
  - eapply merged_ext; [done|]. intros k _. unfold upd. by destruct (decide (k = i)) as [->|].
  - cbn. apply (merged_cons _ _ i e (ev ++ trs i)); [done|by rewrite upd_eq|].
    eapply merged_ext; [done|]. intros k _. unfold upd. by destruct (decide (k = i)).
Qed.

(** [under m o c]: the slot [c] is below the slot [o]. *)
Inductive under (m : machine) (o : option (nat * nat)) : option (nat * nat) -> Prop :=
  | under_refl : under m o o
  | under_join p j i : joins m !! p = Some j -> m_remaining j <> 0 -> under m o (slot (m_receiver j)) -> under m o (Some (p, i)).

Lemma under_below m o c : under m o c -> o <> c ->
  exists p j i, joins m !! p = Some j /\ m_remaining j <> 0 /\ slot (m_receiver j) = o /\ under m (Some (p, i)) c.
Proof.
  induction 1 as [|p j i Hp Hn Hu IH]; intros Hne; [done|]. destruct (decide (o = slot (m_receiver j))) as [->|Hne'].
  - exists p, j, i. split; [done|]. split; [done|]. split; [done|constructor].
  - destruct (IH Hne') as (p' & j' & i' & H1 & H2 & H3 & H4). exists p', j', i'. split; [done|]. split; [done|]. split; [done|]. by econstructor.
Qed.

Lemma under_above m p j i c : joins m !! p = Some j -> m_remaining j <> 0 -> under m (Some (p, i)) c -> under m (slot (m_receiver j)) c.
Proof. intros Hp Hn. induction 1; [eapply under_join; [done..|constructor]|by econstructor]. Qed.

Lemma under_order m p i q k : machine_ok m -> under m (Some (p, i)) (Some (q, k)) -> (p, i) = (q, k) \/ p < q.
Proof.
  intros Hok Hu. remember (Some (q, k)) as c eqn:Hc. revert q k Hc. induction Hu as [|q' j k' Hq Hn Hu IH]; intros q k [= ]; subst.
  - by left.
  - destruct (slot (m_receiver j)) as [[q1 k1]|] eqn:Es; [|by inversion Hu].
    pose proof (ok_parent m Hok q j q1 k1 Hq Es). right. destruct (IH q1 k1 eq_refl) as [[= <- <-]|]; lia.
Qed.

Lemma under_chain m o o' c : under m o c -> under m o' c -> under m o o' \/ under m o' o.
Proof.
  induction 1 as [|p j i Hp Hn Hu IH]; intros Hu'; [by right|].
  inversion Hu' as [|p' j' i' Hp' Hn' Hu'']; subst.
  - left. by econstructor.
  - simplify_eq. by apply IH.
Qed.

Lemma under_unique m o i i' c : machine_ok m -> under m (Some (o, i)) c -> under m (Some (o, i')) c -> i = i'.
Proof.
  intros Hok H1 H2. destruct (under_chain _ _ _ _ H1 H2) as [H|H]; (apply (under_order _ _ _ _ _ Hok) in H as [E|]; [by simplify_eq|lia]).
Qed.

Lemma under_root m c : machine_ok m -> c ∈ expects m -> under m None c.
Proof.
  intros Hok. destruct c as [[p i]|]; [|constructor]. revert i. induction p as [p IH] using lt_wf_ind. intros i Hc.
  rewrite <-(ok_slots m Hok) in Hc. apply list_elem_of_fmap_1 in Hc as (x & Hs & Hx).
  destruct (item_unfilled m x p i Hok Hx (eq_sym Hs)) as (j & Hp & _ & Hn). econstructor; [done..|].
  assert (He : slot (m_receiver j) ∈ expects m).
  { rewrite <-(ok_slots m Hok). change (slot (m_receiver j)) with (item_slot (Joining p (m_receiver j))).
    apply list_elem_of_fmap_2. by apply joining_item. }
  destruct (slot (m_receiver j)) as [[q k]|] eqn:Es; [|constructor]. apply IH; [|done]. by apply (ok_parent m Hok p j q k).
Qed.

(** ** A step against what is left *)

Lemma slots_NoDup m : machine_ok m -> NoDup (item_slot <$> items m).
Proof. intros Hok. rewrite (ok_slots m Hok). apply NoDup_expects. Qed.

Lemma item_of_slot m x y : machine_ok m -> x ∈ items m -> y ∈ items m -> item_slot x = item_slot y -> x = y.
Proof. intros Hok. by apply NoDup_fmap_inj_on, slots_NoDup. Qed.

Lemma item_expected m x : machine_ok m -> x ∈ items m -> item_slot x ∈ expects m.
Proof. intros Hok Hx. rewrite <-(ok_slots m Hok). by apply list_elem_of_fmap_2. Qed.

Lemma join_expected m o j : machine_ok m -> joins m !! o = Some j -> m_remaining j <> 0 -> slot (m_receiver j) ∈ expects m.
Proof. intros Hok Ho Hn. exact (item_expected m _ Hok (joining_item m o j Ho Hn)). Qed.

Lemma under_expected m o c : machine_ok m -> c ∈ expects m -> under m o c -> o ∈ expects m.
Proof. intros Hok Hc Hu. induction Hu as [|p j i Hp Hn Hu IH]; [done|]. apply IH. by eapply join_expected. Qed.

(** Nothing is below the slot of a call but the call. *)
Lemma under_leaf m x tr values t c : machine_ok m -> x ∈ items m -> item_runs x tr values t -> under m (item_slot x) c -> item_slot x = c.
Proof.
  intros Hok Hx Hr Hu. destruct (decide (item_slot x = c)) as [|Hne]; [done|].
  destruct (under_below _ _ _ Hu Hne) as (p & j & i & Hp & Hn & Hs & _).
  assert (x = Joining p (m_receiver j)) as -> by (apply (item_of_slot m); [done|done|by apply joining_item|done]). inversion Hr.
Qed.

Lemma move_residual m m' x x' ev rest : machine_ok m -> moves x x' ev -> items m ≡ₚ x :: rest -> items m' ≡ₚ x' :: rest ->
  joins m' = joins m -> delivered m' = delivered m ->
  forall o tr values t, residual m' o tr values t ->
    (under m o (item_slot x) -> residual m o (ev ++ tr) values t) /\ (~ under m o (item_slot x) -> residual m o tr values t).
Proof.
  intros Hok Hm Hi Hi' Hj Hd o tr values t. induction 1 as [y tr values t Hy Hr|o j trs vss ts tr last tr' values t Ho Hn Hf _ IH Hmg Hl Hr|values t Hdone].
  - rewrite Hi' in Hy. apply elem_of_cons in Hy as [->|Hy].
    + rewrite <-(moves_slot _ _ _ Hm). split; [|intros []; constructor]. intros _. constructor; [rewrite Hi; by left|by eapply moves_runs].
    + assert (Hym : y ∈ items m) by (rewrite Hi; by right). split; [|intros _; by constructor].
      intros Hu. apply (under_leaf m y tr values t _ Hok Hym Hr) in Hu.
      pose proof (slots_NoDup m Hok) as Hnd. rewrite Hi in Hnd. apply list.NoDup_cons in Hnd as [Hnd _]. destruct Hnd.
      rewrite <-Hu. by apply list_elem_of_fmap_2.
  - rewrite Hj in Ho. split.
    + intros Hu. destruct (decide (slot (m_receiver j) = item_slot x)) as [Hs|Hne].
      { assert (x = Joining o (m_receiver j)) as -> by (apply (item_of_slot m); [done|rewrite Hi; by left|by apply joining_item|done]). inversion Hm. }
      destruct (under_below _ _ _ Hu Hne) as (p & j' & i & Hp & Hn' & Hs & Hu').
      assert (Joining p (m_receiver j') = Joining o (m_receiver j)) as [= -> _].
      { apply (item_of_slot m); [done|by apply joining_item..|done]. }
      simplify_eq.
      assert (Hv : m_values j !! i = Some None).
      { assert (He : Some (o, i) ∈ expects m).
        { eapply under_expected; [done| |exact Hu']. apply item_expected; [done|]. rewrite Hi. by left. }
        apply elem_expects in He as [[? _]|(o' & j'' & i' & [= <- <-] & Ho' & Hv)]; [done|]. by simplify_eq. }
      rewrite (assoc_L (++)). eapply (res_join _ o j (upd i (ev ++ trs i) trs) vss ts _ last); [done|done| | | |done|done].
      * intros k v Hk. rewrite upd_ne by congruence. by apply Hf.
      * intros k Hk. destruct (IH k Hk) as [IH1 IH2]. unfold upd. destruct (decide (k = i)) as [->|Hki]; [by apply IH1|].
        apply IH2. intros Hu2. apply Hki. by eapply under_unique.
      * apply merged_prefix; [by eapply lookup_lt_Some|done].
    + intros Hu. eapply (res_join _ o j trs vss ts); [done|done|done| |done|done|done]. intros k Hk. destruct (IH k Hk) as [_ IH2]. apply IH2. intros Hu2.
      apply Hu. by eapply under_above.
  - rewrite Hd in Hdone. split; [|intros; by constructor]. intros Hu.
    assert (Hin : None ∈ expects m).
    { eapply under_expected; [done| |exact Hu]. apply item_expected; [done|]. rewrite Hi. by left. }
    apply elem_expects in Hin as [[_ Hin]|(?&?&?&?&_)]; [by rewrite Hin in Hdone|done].
Qed.

Lemma holders_lookup t o ss r x : x ∈ Work t <$> WhenAll_holders o ss r ->
  exists i s, ss !! i = Some s /\ x = Work t (Start s (WhenAllReceiver o i (getScheduler r))).
Proof.
  intros (c & -> & Hc)%list_elem_of_fmap_1. apply elem_of_lookup_imap in Hc as (i & s & -> & Hi). by exists i, s.
Qed.

Lemma holder_runs t s o i env tr values t' : item_runs (Work t (Start s (WhenAllReceiver o i env))) tr values t' -> runs env s t tr values t'.
Proof.
  intros Hr. inversion Hr as [? ? ? ? ? Hc| |]; subst. inversion Hc as [? ? ? tr1 ? ? tr2 ? ? Hs Hk|]; subst. inversion Hk; subst.
  by rewrite app_nil_r.
Qed.

Lemma fork_residual m m' t0 ss r rest : machine_ok m -> ss <> [] ->
  items m ≡ₚ Work t0 (Start (WhenAllSender ss) r) :: rest ->
  items m' ≡ₚ (Work t0 <$> WhenAll_holders (length (joins m)) ss r) ++ Joining (length (joins m)) r :: rest ->
  joins m' = joins m ++ [mkWhenAll r (length ss) (replicate (length ss) None)] -> delivered m' = delivered m ->
  forall o tr values t, residual m' o tr values t ->
    (forall i s, o = Some (length (joins m), i) -> ss !! i = Some s -> runs (getScheduler r) s t0 tr values t) /\
    ((forall i, o <> Some (length (joins m), i)) -> residual m o tr values t).
Proof.
  intros Hok Hne Hi Hi' Hj Hd o tr values t.
  assert (Hold : forall x p i, x ∈ items m -> item_slot x = Some (p, i) -> p < length (joins m)).
  { intros x p i Hx Hs. destruct (item_unfilled m x p i Hok Hx Hs) as (j & Hp & _). by eapply lookup_lt_Some. }
  assert (Hr0 : forall i, slot r <> Some (length (joins m), i)).
  { intros i Hs. enough (length (joins m) < length (joins m)) by lia. apply (Hold (Work t0 (Start (WhenAllSender ss) r)) _ i); [rewrite Hi; by left|done]. }
  induction 1 as [y tr values t Hy Hr|o j trs vss ts tr last tr' values t Ho Hn Hf _ IH Hmg Hl Hr|values t Hdone].
  - rewrite Hi' in Hy. apply elem_of_app in Hy as [Hy|[->|Hy]%elem_of_cons]; [|inversion Hr|].
    + apply holders_lookup in Hy as (i & s & His & ->). split; [|intros Ho; by destruct (Ho i)].
      intros i' s' [= <-] Hs'. simplify_eq. by eapply holder_runs.
    + assert (Hym : y ∈ items m) by (rewrite Hi; by right). split; [|intros _; by constructor].
      intros i s Hs _. pose proof (Hold y _ i Hym Hs). lia.
  - rewrite Hj in Ho. apply lookup_app_Some in Ho as [Ho|[Hle Ho]].
    + pose proof (lookup_lt_Some _ _ _ Ho) as Hlt. split.
      * intros i s Hs _. pose proof (ok_parent m Hok o j _ i Ho Hs). lia.
      * intros _. eapply (res_join _ o j trs vss ts); [done|done|done| |done|done|done]. intros i Hv. destruct (IH i Hv) as [_ IH2].
        apply IH2. intros i' [= ->]. lia.
    + apply list_lookup_singleton_Some in Ho as [Ho <-]. assert (o = length (joins m)) as -> by lia. cbn [m_receiver m_values] in *.
      rewrite length_replicate in *. split; [intros i s Hs; by destruct (Hr0 i)|]. intros _.
      change (slot r) with (item_slot (Work t0 (Start (WhenAllSender ss) r))). apply res_item; [rewrite Hi; by left|].
      constructor. apply (cr_start _ _ _ tr (concat (map vss (seq 0 (length ss)))) (ts last)); [|done]. apply lookup_lt_Some in Hl. rewrite length_replicate in Hl.
      apply (runs_when _ _ _ trs vss ts); [|done..].
      intros i s Hs. destruct (IH i) as [IH1 _]; [by apply lookup_replicate_2, (lookup_lt_Some _ _ _ Hs)|]. by apply (IH1 i s).
  - rewrite Hd in Hdone. split; [done|]. intros _. by constructor.
Qed.

(** An operand that has arrived makes no more calls. *)
Lemma fill_residual m m' o i env v r k stored t0 : machine_ok m ->
  Work t0 (SetValue (WhenAllReceiver o i env) v) ∈ items m -> (forall x, x ∈ items m' -> x ∈ items m) ->
  joins m !! o = Some (mkWhenAll r (S (S k)) stored) -> joins m' = <[o := mkWhenAll r (S k) (<[i := Some v]> stored)]> (joins m) ->
  delivered m' = delivered m -> forall o' tr values t, residual m' o' tr values t -> residual m o' tr values t.
Proof.
  intros Hok Hx Hi Ho Hj Hd o' tr values t.
  induction 1 as [y tr values t Hy Hr|o' j trs vss ts tr last tr' values t Ho' Hn Hf _ IH Hmg Hl Hr|values t Hdone].
  - apply res_item; [by apply Hi|done].
  - rewrite Hj in Ho'. apply list_lookup_insert_Some in Ho' as [(<- & <- & _)|[Hne Ho']].
    + cbn [m_values m_receiver m_remaining] in *. rewrite length_insert in *.
      destruct (item_unfilled m _ o i Hok Hx eq_refl) as (j & Ho' & Hv & _). simplify_eq. cbn [m_values] in Hv.
      pose proof (lookup_lt_Some _ _ _ Hv) as Hlt.
      destruct (Hf i v) as [Hti Hvi]; [by apply list_lookup_insert_eq|].
      apply list_lookup_insert_Some in Hl as [(_ & [=] & _)|[Hli Hl]].
      eapply (res_join m o (mkWhenAll r (S (S k)) stored) trs vss (upd i t0 ts) tr last); [done|done| | |done|done|].
      * intros i' v' Hs. cbn [m_values] in Hs. apply Hf. rewrite list_lookup_insert_ne; [done|]. intros ->. congruence.
      * intros i' Hs. cbn [m_values] in Hs. unfold upd. destruct (decide (i' = i)) as [->|Hii].
        -- rewrite Hti, Hvi. change (Some (o, i)) with (item_slot (Work t0 (SetValue (WhenAllReceiver o i env) v))).
           apply res_item; [done|]. constructor. constructor. constructor.
        -- apply IH. by rewrite list_lookup_insert_ne.
      * cbn [m_receiver m_values]. by rewrite upd_ne.
    + eapply (res_join _ o' j trs vss ts); [done|done|done|exact IH|done|done|done].
  - rewrite Hd in Hdone. by constructor.
Qed.

Lemma map_lookups (l : list (list V)) : map (fun k => default [] (l !! k)) (seq 0 (length l)) = l.
Proof.
  apply list_eq. intros k. rewrite list_lookup_fmap. destruct (decide (k < length l)) as [Hk|Hk].
  - rewrite lookup_seq_lt by done. cbn. by destruct (lookup_lt_is_Some_2 l k Hk) as [x ->].
  - rewrite lookup_seq_ge by lia. cbn. by rewrite lookup_ge_None_2 by lia.
Qed.

Lemma join_residual m m' o i env v r stored all t0 rest : machine_ok m ->
  items m ≡ₚ Work t0 (SetValue (WhenAllReceiver o i env) v) :: Joining o r :: rest ->
  items m' ≡ₚ Work t0 (SetValue r (concat all)) :: rest ->
  joins m !! o = Some (mkWhenAll r 1 stored) -> joins m' = <[o := mkWhenAll r 0 (<[i := Some v]> stored)]> (joins m) ->
  mapM id (<[i := Some v]> stored) = Some all ->
  delivered m' = delivered m -> forall o' tr values t, residual m' o' tr values t -> residual m o' tr values t.
Proof.
  intros Hok Hi Hi' Ho Hj Ha Hd o' tr values t. apply mapM_Some in Ha.
  assert (Hx : Work t0 (SetValue (WhenAllReceiver o i env) v) ∈ items m) by (rewrite Hi; by left).
  induction 1 as [y tr values t Hy Hr|o' j trs vss ts tr last tr' values t Ho' Hn Hf _ IH Hmg Hl Hr|values t Hdone].
  - rewrite Hi' in Hy. apply elem_of_cons in Hy as [->|Hy]; [|apply res_item; [rewrite Hi; by do 2 right|done]].
    destruct (item_unfilled m _ o i Hok Hx eq_refl) as (j & Ho' & Hv & _). simplify_eq. cbn [m_values] in Hv.
    pose proof (lookup_lt_Some _ _ _ Hv) as Hlt. pose proof (Forall2_length _ _ _ Ha) as Hlen. rewrite length_insert in Hlen.
    inversion Hr as [? ? ? ? ? Hc| |]; subst. inversion Hc as [|? ? ? ? ? ? Hk]; subst.
    change (item_slot _) with (slot (m_receiver (mkWhenAll r 1 stored))). change tr with ([] ++ tr).
    apply (res_join m o _ (fun _ => []) (fun k => default [] (all !! k)) (fun _ => t0) [] i); [done|done| | | |done|].
    + intros k w Hw. cbn [m_values] in Hw. split; [done|]. destruct (decide (k = i)) as [->|Hki]; [by simplify_eq|].
      destruct (Forall2_lookup_l _ _ _ k (Some w) Ha) as (w' & Hw' & [= <-]); [by rewrite list_lookup_insert_ne|]. by rewrite Hw'.
    + intros k Hw. cbn [m_values] in Hw. destruct (decide (k = i)) as [->|Hki].
      * destruct (Forall2_lookup_l _ _ _ i (Some v) Ha) as (w' & Hw' & [= <-]); [by apply list_lookup_insert_eq|]. rewrite Hw'. cbn.
        change (Some (o, i)) with (item_slot (Work t0 (SetValue (WhenAllReceiver o i env) v))).
        apply res_item; [done|]. constructor. constructor. constructor.
      * assert (Hn : <[i := Some v]> stored !! k = Some None) by (by rewrite list_lookup_insert_ne).
        destruct (Forall2_lookup_l _ _ _ k None Ha Hn) as (w0 & _ & Hbad). discriminate Hbad.
    + by constructor.
    + cbn [m_receiver m_values]. by rewrite Hlen, map_lookups.
  - rewrite Hj in Ho'. apply list_lookup_insert_Some in Ho' as [(<- & <- & _)|[Hne Ho']]; [done|].
    eapply (res_join _ o' j trs vss ts); [done|done|done|exact IH|done|done|done].
  - rewrite Hd in Hdone. by constructor.
Qed.

Lemma deliver_residual m m' t0 env v rest : machine_ok m ->
  items m ≡ₚ Work t0 (SetValue (FinalReceiver env) v) :: rest -> items m' ≡ₚ rest -> joins m' = joins m ->
  delivered m' = delivered m ++ [(v, t0)] -> forall o tr values t, residual m' o tr values t -> residual m o tr values t.
Proof.
  intros Hok Hi Hi' Hj Hd o tr values t.
  induction 1 as [y tr values t Hy Hr|o j trs vss ts tr last tr' values t Ho Hn Hf _ IH Hmg Hl Hr|values t Hdone].
  - apply res_item; [rewrite Hi; right; by rewrite <-Hi'|done].
  - rewrite Hj in Ho. eapply (res_join _ o j trs vss ts); [done|done|done|exact IH|done|done|done].
  - rewrite Hd in Hdone. apply (app_singleton (delivered m)) in Hdone as [[_ [= -> ->]]|[_ [=]]].
    change None with (item_slot (Work t (SetValue (FinalReceiver env) values))). apply res_item; [rewrite Hi; by left|].
    constructor. constructor. constructor.
Qed.

Lemma change_residual m m' : machine_ok m -> change m m' ->
  exists ev, called m' = called m ++ ev /\ replays (world m) ev (world m') /\
    forall tr values t, residual m' None tr values t -> residual m None (ev ++ tr) values t.
Proof.
  intros Hok Hc. destruct Hc as [x x' ev rest Hm Hi Hi' Hj Hd Hca Hw|t ss r rest Hne Hi Hi' Hj Hd Hca Hw
    |t o i env values r k stored rest Hi Hi' Ho Hj Hd Hca Hw|t o i env values r stored all rest Hi Hi' Ho Hj Ha Hd Hca Hw
    |t env values rest Hi Hi' Hj Hd Hca Hw];
    [exists ev; split; [done|]; split; [done|]|exists []; rewrite app_nil_r; split; [done|]; split; [done|]; cbn; intros tr vs t' Hr ..].
  - intros tr vs t' Hr. destruct (move_residual m m' x x' ev rest Hok Hm Hi Hi' Hj Hd _ _ _ _ Hr) as [H _]. apply H.
    apply (under_root m); [done|]. apply item_expected; [done|]. rewrite Hi. by left.
  - by apply (fork_residual m m' t ss r rest Hok Hne Hi Hi' Hj Hd _ _ _ _ Hr).
  - eapply (fill_residual m m' o i env values r k stored t); [done|rewrite Hi; by left| |done..]. intros y Hy. rewrite Hi. right. by rewrite <-Hi'.
  - by eapply (join_residual m m' o i env values r stored all t).
  - by eapply deliver_residual.
Qed.

Lemma replays_app w tr1 w1 tr2 w2 : replays w tr1 w1 -> replays w1 tr2 w2 -> replays w (tr1 ++ tr2) w2.
Proof. revert w. induction tr1 as [|e tr1 IH]; intros w; cbn; [by intros ->|]. intros [? ?] ?. split; [done|]. by apply IH. Qed.

Lemma run_residual m m' : machine_ok m -> rtc machine_step m m' ->
  machine_ok m' /\ exists ev, called m' = called m ++ ev /\ replays (world m) ev (world m') /\
    forall tr values t, residual m' None tr values t -> residual m None (ev ++ tr) values t.
Proof.
  intros Hok Hr. revert Hok. induction Hr as [m|m m1 m' Hs _ IH]; intros Hok.
  - split; [done|]. exists []. by rewrite app_nil_r.
  - destruct (IH (step_ok _ _ Hok Hs)) as (Hok' & ev' & Hc' & Hw' & Hres'). split; [done|].
    destruct (change_residual m m1 Hok (step_change _ _ Hs)) as (ev & Hc & Hw & Hres).
    exists (ev ++ ev'). split; [by rewrite Hc', Hc, app_assoc|]. split; [by eapply replays_app|].
    intros tr vs t Hr. rewrite <-app_assoc. apply Hres, Hres', Hr.
Qed.

(** ** The calls that are left *)

Definition known (environment : option scheduler) : bool := match environment with Some _ => true | None => false end.

Inductive receiver_weight : receiver -> nat -> Prop :=
  | rw_final env : receiver_weight (FinalReceiver env) 1
  | rw_join o i env : receiver_weight (WhenAllReceiver o i env) 1
  | rw_then f r n : receiver_weight r n -> receiver_weight (ThenReceiver f r) (1 + n)
  | rw_let f g r k n : (forall result, connects (known (getScheduler r)) (g result) k) -> receiver_weight r n ->
      receiver_weight (LetValueReceiver f g r) (1 + k + n)
  | rw_transfer sched r n : receiver_weight r n -> receiver_weight (TransferReceiver sched r) (2 + n)
  | rw_child sched r n : receiver_weight r n -> receiver_weight (ChildReceiver sched r) (1 + n).

Inductive call_weight : call -> nat -> Prop :=
  | cw_start s r n k : connects (known (getScheduler r)) s n -> receiver_weight r k -> call_weight (Start s r) (n + k)
  | cw_value r values k : receiver_weight r k -> call_weight (SetValue r values) k.

Inductive item_weight : item -> nat -> Prop :=
  | iw_work t c n : call_weight c n -> item_weight (Work t c) n
  | iw_posted l c n : call_weight c n -> item_weight (Posted l c) (1 + n)
  | iw_native i r n : receiver_weight r n -> item_weight (Outstanding i r) (1 + n)
  | iw_joining o r n : receiver_weight r n -> item_weight (Joining o r) n.

Inductive weighs : list item -> nat -> Prop :=
  | weighs_nil : weighs [] 0
  | weighs_cons x l n k : item_weight x n -> weighs l k -> weighs (x :: l) (n + k).

Lemma weighs_perm l l' n : l ≡ₚ l' -> weighs l n -> weighs l' n.
Proof.
  intros Hp. revert n. induction Hp as [|x l l' _ IH|x y l|l l1 l2 _ IH1 _ IH2]; intros n Hw; [done| | |by apply IH2, IH1].
  - inversion Hw; subst. constructor; [done|by apply IH].
  - inversion Hw as [|? ? a ? Ha Hl]; subst. inversion Hl as [|? ? b c Hb Hc]; subst.
    replace (a + (b + c)) with (b + (a + c)) by lia. by do 2 (constructor; [done|]).
Qed.

Lemma weighs_app l l' n k : weighs l n -> weighs l' k -> weighs (l ++ l') (n + k).
Proof. induction 1; intros Hl; [done|]. cbn. rewrite <-Nat.add_assoc. constructor; [done|by apply IHweighs]. Qed.

Lemma weighs_elem l n x : weighs l n -> x ∈ l -> exists k, item_weight x k.
Proof. induction 1; intros Hx; [by apply elem_of_nil in Hx|]. apply elem_of_cons in Hx as [->|Hx]; [by eexists|by apply IHweighs]. Qed.

Lemma scheduled_weight sched t c n : call_weight c n -> exists k, item_weight (scheduled sched t c) k /\ k <= 1 + n.
Proof. intros Hc. destruct sched; eexists; (split; [by constructor|lia]). Qed.

Lemma move_weight x x' ev n : moves x x' ev -> item_weight x n -> exists n', item_weight x' n' /\ n' < n.
Proof.
  destruct 1; intros Hw; inversion Hw as [? ? ? Hc|? ? ? Hc|? ? ? Hk|]; subst;
    try (inversion Hc as [? ? a b Hs Hk|? ? b Hr]; subst); try (inversion Hs; subst); try (inversion Hr; subst).
  all: try (eexists; split; [by repeat (constructor || eassumption)|lia]).
  - destruct (scheduled_weight sched t (SetValue r values) n0) as (k' & Hk & ?); [by constructor|]. exists k'. split; [done|lia].
  - destruct (scheduled_weight sched t (Start s (ChildReceiver sched r)) (n + (1 + b))) as (k' & Hk' & ?); [by repeat constructor|].
    exists k'. split; [done|lia].
Qed.

Lemma holders_weight t o ss r ns : Forall2 (connects (known (getScheduler r))) ss ns ->
  weighs (Work t <$> WhenAll_holders o ss r) (sum_list (map S ns)).
Proof.
  intros Hs. unfold WhenAll_holders.
  assert (H : forall g : nat -> nat, weighs (Work t <$> imap (fun i s => Start s (WhenAllReceiver o (g i) (getScheduler r))) ss) (sum_list (map S ns))).
  { induction Hs as [|s n ss ns Hsn _ IH]; intros g; [constructor|]. rewrite imap_cons. cbn. change (S (n + sum_list (map S ns))) with (S n + sum_list (map S ns)).
    constructor; [|exact (IH (fun i => g (S i)))]. constructor. replace (S n) with (n + 1) by lia. constructor; [done|constructor]. }
  exact (H (fun i => i)).
Qed.

Lemma change_weight m m' n : change m m' -> weighs (items m) n -> exists n', weighs (items m') n' /\ n' < n.
Proof.
  destruct 1 as [x x' ev rest Hm Hi Hi' _ _ _ _|t ss r rest Hne Hi Hi' _ _ _ _
    |t o i env values r k stored rest Hi Hi' _ _ _ _ _|t o i env values r stored all rest Hi Hi' _ _ _ _ _ _
    |t env values rest Hi Hi' _ _ _ _]; intros Hw; apply (weighs_perm _ _ _ Hi) in Hw; inversion Hw as [|? ? a b Ha Hb]; subst;
    apply Permutation_sym in Hi'.
  - destruct (move_weight _ _ _ _ Hm Ha) as (a' & Ha' & Hlt). exists (a' + b). split; [|lia]. apply (weighs_perm _ _ _ Hi'). by constructor.
  - inversion Ha as [? ? ? Hc| | |]; subst. inversion Hc as [? ? c d Hs Hr|]; subst. inversion Hs as [| | |? ? ns Hns| | |]; subst.
    exists (sum_list (map S ns) + (d + b)). split; [|lia]. apply (weighs_perm _ _ _ Hi'). apply weighs_app; [by apply holders_weight|].
    constructor; [by constructor|done].
  - exists b. split; [by apply (weighs_perm _ _ _ Hi')|]. inversion Ha as [? ? ? Hc| | |]; subst. inversion Hc as [|? ? ? Hr]; subst. inversion Hr; subst. lia.
  - inversion Ha as [? ? ? Hc| | |]; subst. inversion Hc as [|? ? ? Hr]; subst. inversion Hr; subst.
    exists b. split; [|lia]. apply (weighs_perm _ _ _ Hi'). inversion Hb as [|? ? c d Hj Hd]; subst. inversion Hj; subst.
    constructor; [|done]. constructor. by constructor.
  - exists b. split; [by apply (weighs_perm _ _ _ Hi')|]. inversion Ha as [? ? ? Hc| | |]; subst. inversion Hc as [|? ? ? Hr]; subst. inversion Hr; subst. lia.
Qed.

(** ** Something can always happen *)

Lemma work_elem ts t c : Work t c ∈ work ts -> exists st, ts !! t = Some st /\ c ∈ st.
Proof.
  unfold work. rewrite elem_of_concat. intros (l & Hx & Hl). apply elem_of_lookup_imap in Hl as (t' & st & -> & Hst).
  apply list_elem_of_fmap_1 in Hx as (c' & [= -> ->] & Hc). by exists st.
Qed.

Lemma items_elem m x : x ∈ items m ->
  match x with
  | Work t c => exists st, threads m !! t = Some st /\ c ∈ st
  | Posted l c => (l, c) ∈ posted m
  | Outstanding i r => (i, r) ∈ outstanding m
  | Joining o r => exists j, joins m !! o = Some j /\ m_remaining j <> 0 /\ r = m_receiver j
  end.
Proof.
  unfold items. rewrite !elem_of_app, !list_elem_of_fmap.
  intros [Hx|[(p & -> & Hp)|[(p & -> & Hp)|Hx]]]; [|by destruct p|by destruct p|].
  - enough (Hw : exists t c, x = Work t c); [destruct Hw as (t & c & ->); by apply work_elem|].
    apply elem_of_concat in Hx as (l & Hx & Hl). apply elem_of_lookup_imap in Hl as (t & st & -> & _).
    apply list_elem_of_fmap_1 in Hx as (c & -> & _). by exists t, c.
  - apply elem_of_concat in Hx as (l & Hx & Hl). apply elem_of_lookup_imap in Hl as (o & j & -> & Hj).
    unfold open_join in Hx. destruct (m_remaining j) as [|k] eqn:Ek; [by apply elem_of_nil in Hx|].
    apply list_elem_of_singleton in Hx as ->. exists j. by rewrite Ek.
Qed.

Lemma top_item m t c st : threads m !! t = Some (c :: st) -> Work t c ∈ items m.
Proof. intros Ht. rewrite (items_pop m t c st Ht). by left. Qed.

(** The join that was made last waits for a call. *)
Lemma active_item m : machine_ok m -> forall x, x ∈ items m -> exists y, y ∈ items m /\ match y with Joining _ _ => False | _ => True end.
Proof.
  intros Hok x Hx. destruct x as [t c|l c|i r|o r]; [by eexists..|].
  destruct (items_elem m _ Hx) as (j & Ho & Hn & ->). clear Hx. remember (length (joins m) - o) as d eqn:Hd.
  revert o j Ho Hn Hd. induction d as [d IH] using lt_wf_ind. intros o j Ho Hn ->.
  rewrite (ok_remaining m Hok o j Ho) in Hn. destruct (unfilled o j) as [|s ss] eqn:Eu; [done|].
  assert (Hs : s ∈ unfilled o j) by (rewrite Eu; by left). apply elem_unfilled in Hs as (i & -> & Hi).
  assert (He : Some (o, i) ∈ expects m) by (apply elem_expects; right; by exists o, j, i).
  rewrite <-(ok_slots m Hok) in He. apply list_elem_of_fmap_1 in He as ([t c|l c|k r|p r] & Hs & Hy); [by eexists..|].
  destruct (items_elem m _ Hy) as (j' & Hp & Hn' & ->). pose proof (ok_parent m Hok p j' o i Hp (eq_sym Hs)) as Hlt.
  pose proof (lookup_lt_Some _ _ _ Hp). apply (IH (length (joins m) - p)) with p j'; [lia|done..].
Qed.

Lemma all_stored o j : unfilled o j = [] -> exists all, mapM id (m_values j) = Some all.
Proof.
  intros Hu. eexists. apply (mapM_total id (default [])). intros [v|] Hv; [done|].
  apply list_elem_of_lookup in Hv as [i Hi]. assert (Hin : Some (o, i) ∈ unfilled o j) by (apply elem_unfilled; by exists i).
  rewrite Hu in Hin. by apply elem_of_nil in Hin.
Qed.

Lemma perform_total m t c st n : machine_ok m -> weighs (items m) n -> threads m !! t = Some (c :: st) ->
  exists m', perform t c (set_threads (insert t st) m) = Some m'.
Proof.
  intros Hok Hw Ht. pose proof (top_item _ _ _ _ Ht) as Hx. destruct (weighs_elem _ _ _ Hw Hx) as (k & Hk).
  destruct c as [[i|s f|s f g|ss|s sched|sched s|sched s] r|[env|f r|f g r|sched r|sched r|o i env] values]; cbn [perform]; try by eexists.
  - inversion Hk as [? ? ? Hc| | |]; subst. inversion Hc as [? ? a b Hs _|]; subst. inversion Hs as [| | | | | |? ? ? _ Hkn]; subst.
    unfold OnSender_connect. destruct (getScheduler r) as [restoration|]; [by eexists|done].
  - destruct (item_unfilled m _ o i Hok Hx eq_refl) as ([r [|remaining] stored] & Ho & Hv & Hn); [done|]. cbn [m_values] in Hv.
    unfold WhenAll_setValue. cbn [joins set_threads]. rewrite Ho. destruct remaining as [|remaining]; [|by eexists].
    unfold WhenAll_finish. cbn [m_values m_receiver].
    destruct (all_stored o (mkWhenAll r 0 (<[i := Some values]> stored))) as [all Ha]; [|cbn [m_values] in Ha; rewrite Ha; by eexists].
    apply length_zero_iff_nil. pose proof (ok_remaining m Hok o _ Ho) as Hl. rewrite (unfilled_insert _ _ _ _ _ values Hv) in Hl.
    cbn [m_remaining length] in Hl. unfold unfilled in *. cbn [m_values] in *. lia.
Qed.

Lemma step_threads m m' : machine_step m m' -> length (threads m') = length (threads m).
Proof.
  assert (Hc : forall t cs m, length (threads (make_calls t cs m)) = length (threads m)) by (intros; cbn; apply length_alter).
  destruct 1 as [t c st m m' Ht Hp|t i r values os os' m _ _ _|t l c ts ts' m _ _ _ _]; [|unfold make_call; by rewrite Hc..].
  transitivity (length (threads (set_threads (insert t st) m))); [|apply length_insert].
  revert Hp. generalize (set_threads (insert t st) m). intros m0.
  destruct c as [[i|s f|s f g|[|s ss]|s sched|[|l] s|sched s] r|[env|f r|f g r|[|l] r|sched r|o i env] values]; cbn [perform];
    try (intros [= <-]; (done || apply Hc || (unfold WhenAllOperation_start; by rewrite Hc))).
  - unfold OnSender_connect. destruct (getScheduler r); [|done]. intros [= <-]. apply Hc.
  - unfold completeValue. destruct (invoke t f values m0) as [res m1] eqn:Ei. intros [= <-]. unfold make_call. rewrite Hc.
    by destruct (invoke_spec _ _ _ _ _ _ Ei) as (_ & _ & _ & -> & _).
  - unfold startSuccessor. destruct (invoke t f values m0) as [res m1] eqn:Ei. intros [= <-]. unfold make_call. rewrite Hc.
    by destruct (invoke_spec _ _ _ _ _ _ Ei) as (_ & _ & _ & -> & _).
  - unfold WhenAll_setValue. destruct (joins m0 !! o) as [[r [|[|k]] stored]|]; [done| |intros [= <-]; done|done].
    unfold WhenAll_finish. destruct (mapM id _); [|done]. intros [= <-]. unfold make_call. by rewrite Hc.
Qed.

(** Native operations complete, and every loop has a thread that drives it. *)
Definition driven (n : nat) : Prop :=
  (forall i, exists values, completes i values) /\ (forall l, exists t, drives l t /\ t < n).

Lemma machine_progress m n : machine_ok m -> weighs (items m) n -> 0 < length (threads m) -> driven (length (threads m)) ->
  items m <> [] -> exists m', machine_step m m'.
Proof.
  intros Hok Hw Hlen [Hn Hl] Hi. destruct (items m) as [|x l] eqn:Ei; [done|]. rewrite <-Ei in Hw.
  destruct (active_item m Hok x) as (y & Hy & Ha); [rewrite Ei; by left|]. pose proof (items_elem m y Hy) as He.
  destruct y as [t c|lp c|i r|o r]; [| | |done].
  - destruct He as ([|c0 st] & Ht & Hc); [by apply elem_of_nil in Hc|].
    destruct (perform_total m t c0 st n Hok Hw Ht) as [m' Hp]. exists m'. by apply (step_call t c0 st).
  - destruct (posted m) as [|[l0 c0] ts] eqn:Ep; [by apply elem_of_nil in He|]. destruct (Hl l0) as (t & Hd & Ht).
    eexists. apply (step_loop t l0 c0 [] ts); [done|apply not_elem_of_nil|done|done].
  - destruct (outstanding m) as [|[i0 r0] os] eqn:Eo; [by apply elem_of_nil in He|]. destruct (Hn i0) as [v Hv].
    eexists. by apply (step_native 0 i0 r0 v [] os).
Qed.

(** No call, task or native operation is left that refers to the operations. *)
Definition quiet (m : machine) : Prop :=
  Forall (fun st => st = []) (threads m) /\ posted m = [] /\ outstanding m = [].

Lemma items_quiet m : items m = [] -> quiet m.
Proof.
  unfold items. intros [Hw [Hp [Ho _]%app_eq_nil]%app_eq_nil]%app_eq_nil.
  split; [|by apply fmap_nil_inv in Hp, Ho]. apply list.Forall_forall. intros [|c st] Hst; [done|].
  apply list_elem_of_lookup in Hst as [t Ht]. destruct (work_insert _ _ _ Ht) as (rest & H & _). rewrite Hw in H.
  by apply Permutation_nil_cons in H.
Qed.

Lemma start_items n t s env w : t < n -> items (machine_start n t s env w) ≡ₚ [Work t (Start s (FinalReceiver env))].
Proof.
  intros Ht. unfold machine_start, make_call. rewrite items_calls by (cbn; by rewrite length_replicate). unfold items. fields.
  assert (Hw : work (replicate n []) = []); [|by rewrite Hw].
  unfold work. apply concat_nil_Forall. apply list.Forall_forall. intros l Hl. apply elem_of_lookup_imap in Hl as (i & st & -> & Hi).
  by apply lookup_replicate in Hi as [-> _].
Qed.

Lemma start_ok n t s env w : t < n -> machine_ok (machine_start n t s env w).
Proof. intros Ht. split; [by rewrite start_items|done..|cbn; lia]. Qed.

Lemma delivered_quiet m : machine_ok m -> delivered m <> [] -> items m = [].
Proof.
  intros Hok Hd. destruct (items m) as [|x l] eqn:Ei; [done|]. destruct Hd.
  assert (Hx : x ∈ items m) by (rewrite Ei; by left).
  pose proof (under_root m _ Hok (item_expected m x Hok Hx)) as Hu.
  apply (under_expected m) in Hu; [|done|by apply item_expected].
  by apply elem_expects in Hu as [[_ Hu]|(?&?&?&?&_)].
Qed.

Lemma weighs_steps k m m' n : nsteps machine_step k m m' -> weighs (items m) n -> exists n', weighs (items m') n' /\ k + n' <= n.
Proof.
  intros Hs. revert n. induction Hs as [m|k m m1 m' Hs _ IH]; intros n Hw; [by exists n|].
  destruct (change_weight _ _ _ (step_change _ _ Hs) Hw) as (n1 & Hw1 & ?). destruct (IH n1 Hw1) as (n' & Hw' & ?).
  exists n'. split; [done|lia].
Qed.

Lemma start_residual n t s env w tr values t' : t < n ->
  residual (machine_start n t s env w) None tr values t' -> runs env s t tr values t'.
Proof.
  intros Ht. inversion 1 as [x ? ? ? Hx Hr Hs|o j ? ? ? ? ? ? ? ? Ho|]; subst.
  - rewrite start_items in Hx by done. apply list_elem_of_singleton in Hx as ->.
    inversion Hr as [? ? ? ? ? Hc| |]; subst. inversion Hc as [? ? ? tr1 ? ? tr2 ? ? Hru Hk|]; subst. inversion Hk; subst. by rewrite app_nil_r.
  - done.
  - done.
Qed.

(** [sequence] runs the successor after the predecessor, on the thread that completed it, and
    forwards only the successor's values. *)
Lemma sequence_runs env move previous next t tr values t' : runs env (sequence move previous next) t tr values t' ->
  exists tr1 vs t1 result tr2, tr = tr1 ++ mkEvent t1 move vs result :: tr2 /\
    runs env previous t tr1 vs t1 /\ runs env next t1 tr2 values t'.
Proof. inversion 1; subst. by do 5 eexists. Qed.

(** [on] completes where the scheduler of its environment continues. *)
Lemma on_restores l sched s t tr values t' : runs (Some (RunLoopScheduler l)) (OnSender sched s) t tr values t' -> drives l t'.
Proof. inversion 1 as [| | | | | | |? ? ? ? ? ? ? ? _ Hp]; subst. by inversion Hp. Qed.

(** C5: Composed senders mean what their composition says, on every schedule of threads, run loops and native
    completions.  An operation takes at most as many steps as its type has calls; while it has not
    completed something can happen, provided that native operations complete and loops are driven; it completes
    at most once.  When it does, the callables were called once each in an order that the composition
    allows, with the values of their predecessors, on the threads their schedulers say, the last value and thread
    are what the receiver gets, and no call, task or native operation is left that could touch the operation states. *)
Theorem senders_compose n t s env w k :
  t < n -> connects (known env) s k ->
  (forall steps m, nsteps machine_step steps (machine_start n t s env w) m -> steps <= S k) /\
  forall m, rtc machine_step (machine_start n t s env w) m ->
    length (delivered m) <= 1 /\
    (driven n -> delivered m = [] -> exists m', machine_step m m') /\
    (forall values t', delivered m = [(values, t')] ->
      runs env s t (called m) values t' /\ replays w (called m) (world m) /\ quiet m).
Proof.
  intros Ht Hc. pose proof (start_ok n t s env w Ht) as Hok.
  assert (Hw : weighs (items (machine_start n t s env w)) (S k)).
  { apply (weighs_perm [Work t (Start s (FinalReceiver env))]); [by rewrite start_items|]. replace (S k) with ((k + 1) + 0) by lia.
    constructor; [|constructor]. constructor. constructor; [done|constructor]. }
  split; [intros steps m Hs; destruct (weighs_steps _ _ _ _ Hs Hw) as (n' & _ & ?); lia|]. intros m Hr.
  destruct (run_residual _ _ Hok Hr) as (Hok' & ev & Hca & Hre & Hres). cbn [called machine_start make_call make_calls set_threads app] in Hca.
  split; [apply Hok'|]. split.
  - intros Hd Hn. apply rtc_nsteps in Hr as [steps Hs]. destruct (weighs_steps _ _ _ _ Hs Hw) as (n' & Hw' & _).
    assert (Hl : length (threads m) = n).
    { clear -Hs Ht. remember (machine_start n t s env w) as m0 eqn:E. assert (H0 : length (threads m0) = n) by
        (subst; cbn; by rewrite length_alter, length_replicate). clear E. induction Hs as [|? ? ? ? Hst _ IH]; [done|].
      apply IH. by rewrite (step_threads _ _ Hst). }
    apply (machine_progress m n' Hok' Hw'); [lia|by rewrite Hl|]. intros Hi.
    assert (Hin : None ∈ expects m) by (apply elem_expects; by left). rewrite <-(ok_slots m Hok'), Hi in Hin. by apply elem_of_nil in Hin.
  - intros values t' Hd. rewrite Hca in *. split; [|split; [exact Hre|]].
    + apply (start_residual n t s env w); [done|]. rewrite <-(app_nil_r ev). apply Hres. by constructor.
    + apply items_quiet, delivered_quiet; [done|]. by rewrite Hd.
Qed.
End senders.

(** ** A run *)

(** Two threads; loop 0 is driven by thread 1.  The callable counts its calls and adds. *)
Definition demo_host (f : nat) (values : list Z) (calls : Z) : list Z * Z := ([foldr Z.add calls values], (calls + 1)%Z).
Definition demo_completes (i : nat) (values : list Z) : Prop := values = [Z.of_nat i].
Definition demo_drives (l t : nat) : Prop := t = 1.
Definition demo_sender : sender (V := Z) :=
  then_ (genericWhenAll [NativeSender 5; on (RunLoopScheduler 0) (NativeSender 6)]) 9.

Definition demo_start : machine := machine_start 2 0 demo_sender (Some InlineScheduler) 100%Z.
Definition demo_end : machine :=
  mkMachine [[]; []] [] [] [mkWhenAll (ThenReceiver 9 (FinalReceiver (Some InlineScheduler))) 0 [Some [5%Z]; Some [6%Z]]]
    [([111%Z], 0)] [mkEvent 0 9 [5%Z; 6%Z] [111%Z]] 101%Z.

(** Thread [t] makes its next call, the oldest native operation completes on it, or it runs the oldest task. *)
Inductive turn : Type := NextCall (t : nat) | Completes (t : nat) | NextTask (t : nat).

Definition take_turn (c : turn) (m : machine) : option machine :=
  match c with
  | NextCall t =>
      match threads m !! t with Some (c :: st) => perform demo_host t c (set_threads (insert t st) m) | _ => None end
  | Completes t =>
      match outstanding m with
      | (i, r) :: os =>
          if bool_decide (t < length (threads m)) then Some (make_call t (SetValue r [Z.of_nat i]) (set_outstanding (fun _ => os) m)) else None
      | [] => None
      end
  | NextTask t =>
      match posted m with
      | (l, c) :: ts =>
          if bool_decide (t = 1 /\ t < length (threads m)) then Some (make_call t c (set_posted (fun _ => ts) m)) else None
      | [] => None
      end
  end.

Fixpoint take_turns (cs : list turn) (m : machine) : option machine :=
  match cs with [] => Some m | c :: cs => match take_turn c m with Some m => take_turns cs m | None => None end end.

Lemma take_turns_run cs m m' : take_turns cs m = Some m' -> rtc (machine_step demo_host demo_completes demo_drives) m m'.
Proof.
  revert m. induction cs as [|c cs IH]; intros m; cbn; [intros [= ->]; done|].
  destruct (take_turn c m) as [m1|] eqn:Et; [|done]. intros Hr. eapply rtc_l; [|by apply IH].
  destruct c as [t|t|t]; cbn in Et.
  - destruct (threads m !! t) as [[|c st]|] eqn:Ht; [done| |done]. by eapply step_call.
  - destruct (outstanding m) as [|[i r] os] eqn:Eo; [done|]. case_bool_decide as Hb; [|done]. injection Et as <-.
    by apply (step_native _ _ _ t i r _ [] os).
  - destruct (posted m) as [|[l c] ts] eqn:Ep; [done|]. case_bool_decide as Hb; [|done]. destruct Hb. injection Et as <-.
    apply (step_loop _ _ _ t l c [] ts); [done|apply not_elem_of_nil|done|done].
Qed.

Definition demo_turns : list turn :=
  [NextCall 0; NextCall 0; NextCall 0; NextCall 0; NextCall 0; NextTask 1; Completes 0; NextCall 1; Completes 1;
   NextCall 1; NextCall 1; NextCall 1; NextCall 0; NextCall 0; NextCall 0].

Example demo_run : take_turns demo_turns demo_start = Some demo_end.
Proof. vm_compute. reflexivity. Qed.

Lemma senders_compose_witness :
  rtc (machine_step demo_host demo_completes demo_drives) demo_start demo_end /\
  runs demo_completes demo_drives (Some InlineScheduler) demo_sender 0 [mkEvent 0 9 [5%Z; 6%Z] [111%Z]] [111%Z] 0 /\ quiet demo_end.
Proof.
  split; [exact (take_turns_run _ _ _ demo_run)|].
  destruct (senders_compose demo_host demo_completes demo_drives 2 0 demo_sender (Some InlineScheduler) 100%Z 15) as [_ H]; [lia| |].
  - change 15 with (2 + (1 + sum_list (map S [2; 6 + 2]))). do 2 constructor. repeat (constructor; [constructor|]); [constructor|].
    repeat constructor.
  - destruct (H demo_end (take_turns_run _ _ _ demo_run)) as (_ & _ & Hd). destruct (Hd [111%Z] 0 eq_refl) as (Hr & _ & Hq). by split.
Defined.
