(* ===== verification/ParticlesBox.v ===== *)
(** * Frame lists of a supercell

    Models [ParticlesBox] (pmacc/particles/memory/boxes/ParticlesBox.hpp) on the [SuperCell], [FramePointer] and
    list pointers of pmacc/particles/memory/dataTypes: the doubly linked list of frames of a supercell.
    [setAsFirstFrame] and [setAsLastFrame] mirror each other, so both are one program with the end as a
    parameter.  Every thread runs it in the order of its stores and its exchange, which is what the
    fence between them keeps; a schedule is the list of the threads that take the steps. *)
From Stdlib Require Import ZArith Lia.
From stdpp Require Import base sets list numbers gmap.
From S2P Require Import Prelude Scalar Topology FrameList.

Local Open Scope Z_scope.

(** The two ends of a list. *)
Inductive list_end : Set := First | Last.
#[global] Instance list_end_eq_dec : EqDecision list_end.
Proof. solve_decision. Defined.

Definition opposite (e : list_end) : list_end := match e with First => Last | Last => First end.

Section box.
Context {A : Type}.

(** A particle slot: [multiMask] and the other attributes; a frame with its list pointers. *)
Record box_slot : Type := mkBoxSlot { multiMask : Z; attributes : A }.
Record Frame : Type := mkFrame { particles : list box_slot; previousFrame : Z; nextFrame : Z }.

#[local] Abbreviation heap := (gmap Z Frame).

Record SuperCell : Type := mkSuperCell {
  firstFramePtr : Z;
  lastFramePtr : Z;
  numParticles : Z;
  mustShiftVal : bool
}.

Definition getNumParticles (c : SuperCell) : Z := numParticles c.
Definition setNumParticles (size : Z) (c : SuperCell) : SuperCell :=
  mkSuperCell (firstFramePtr c) (lastFramePtr c) size (mustShiftVal c).
Definition mustShift (c : SuperCell) : bool := mustShiftVal c.
Definition setMustShift (value : bool) (c : SuperCell) : SuperCell :=
  mkSuperCell (firstFramePtr c) (lastFramePtr c) (numParticles c) value.

(** [getSizeLastFrame]. *)
Definition getSizeLastFrame (frameSize : Z) (c : SuperCell) : Z :=
  if numParticles c =? 0 then 0 else u32 (u32 (numParticles c - 1) mod frameSize + 1).

(** [FirstFramePtr] and [LastFramePtr], and their assignment. *)
Definition end_ptr (e : list_end) (c : SuperCell) : Z := match e with First => firstFramePtr c | Last => lastFramePtr c end.
Definition set_end_ptr (e : list_end) (p : Z) (c : SuperCell) : SuperCell :=
  match e with
  | First => mkSuperCell p (lastFramePtr c) (numParticles c) (mustShiftVal c)
  | Last => mkSuperCell (firstFramePtr c) p (numParticles c) (mustShiftVal c)
  end.

(** The pointer of a frame towards an end of the list. *)
Definition towards (e : list_end) (f : Frame) : Z := match e with First => previousFrame f | Last => nextFrame f end.
Definition set_towards (e : list_end) (p : Z) (f : Frame) : Frame :=
  match e with
  | First => mkFrame (particles f) p (nextFrame f)
  | Last => mkFrame (particles f) (previousFrame f) p
  end.

(** A store through a frame pointer. *)
Definition store (h : heap) (p : Z) (f : Frame -> Frame) : option heap :=
  match h !! p with Some fr => Some (<[p := f fr]> h) | None => None end.

(** ** Allocation *)

Definition maxTries : nat := 13.

(** [getEmptyFrame]: none when the heap is exhausted, which the device verification reports. *)
Definition getEmptyFrame {S} (malloc : S -> Z * S) (raw : Frame) (s : S) (h : heap) : option (Z * S * heap) :=
  let '(p, s) := allocateRawMemory malloc maxTries s in
  if p =? 0 then None
  else Some (p, s, <[p := mkFrame (map (fun x => mkBoxSlot 0 (attributes x)) (particles raw)) (previousFrame raw) (nextFrame raw)]> h).

(** [removeFrame]: the frame is freed and the pointer cleared. *)
Definition removeFrame (h : heap) (p : Z) : heap * Z := (delete p h, 0).

(** ** Walking *)

Definition mapPtr (hostMemoryOffset devPtr : Z) : Z := devPtr - hostMemoryOffset * (if devPtr =? 0 then 0 else 1).
Definition getFrame (e : list_end) (offset : Z) (c : SuperCell) : Z := mapPtr offset (end_ptr e c).
Definition getFirstFrame := getFrame First.
Definition getLastFrame := getFrame Last.
Definition getNeighbour (e : list_end) (offset : Z) (h : heap) (frame : Z) : option Z :=
  match h !! frame with Some f => Some (mapPtr offset (towards e f)) | None => None end.
Definition getNextFrame := getNeighbour Last.
Definition getPreviousFrame := getNeighbour First.

(** ** Insertion *)

(** Where a thread is: before its first stores, before the exchange, before it stores the exchanged pointer in its
    frame, before it links the neighbour or the other end, and at the end. *)
Inductive set_pc : Set := SetLinks | Exchange | SetInner (old : Z) | SetNeighbour (old : Z) | Returned.

Record set_state : Type := mkSet { box_heap : heap; superCell : SuperCell; box_threads : list (Z * set_pc) }.

Definition set_thread (s : set_state) (i : nat) (n : Z) (pc : set_pc) : list (Z * set_pc) := <[i := (n, pc)]> (box_threads s).

(** One step of thread [i] in [setAsFirstFrame] or [setAsLastFrame]; none is a store through a bad pointer. *)
Definition set_exec (e : list_end) (i : nat) (s : set_state) : option set_state :=
  match box_threads s !! i with
  | None | Some (_, Returned) => Some s
  | Some (n, SetLinks) =>
      h ← store (box_heap s) n (fun f => set_towards (opposite e) (end_ptr e (superCell s)) (set_towards e 0 f));
      Some (mkSet h (superCell s) (set_thread s i n Exchange))
  | Some (n, Exchange) =>
      Some (mkSet (box_heap s) (set_end_ptr e n (superCell s)) (set_thread s i n (SetInner (end_ptr e (superCell s)))))
  | Some (n, SetInner old) =>
      h ← store (box_heap s) n (set_towards (opposite e) old);
      Some (mkSet h (superCell s) (set_thread s i n (SetNeighbour old)))
  | Some (n, SetNeighbour old) =>
      if old =? 0 then Some (mkSet (box_heap s) (set_end_ptr (opposite e) n (superCell s)) (set_thread s i n Returned))
      else h ← store (box_heap s) old (set_towards e n); Some (mkSet h (superCell s) (set_thread s i n Returned))
  end.

Fixpoint set_run (e : list_end) (sched : list nat) (s : set_state) : option set_state :=
  match sched with
  | [] => Some s
  | i :: sched => s' ← set_exec e i s; set_run e sched s'
  end.

Definition set_init (h : heap) (c : SuperCell) (nodes : list Z) : set_state := mkSet h c (map (fun n => (n, SetLinks)) nodes).

(** A call that runs alone. *)
Definition setAsFrame (e : list_end) (h : heap) (c : SuperCell) (frame : Z) : option (heap * SuperCell) :=
  s ← set_run e [0; 0; 0; 0]%nat (set_init h c [frame]); Some (box_heap s, superCell s).
Definition setAsFirstFrame := setAsFrame First.
Definition setAsLastFrame := setAsFrame Last.

(** The frame the step of thread [i] exchanges, and the frames in the order of their exchanges. *)
Definition exchange_of (i : nat) (s : set_state) : list Z := match box_threads s !! i with Some (n, Exchange) => [n] | _ => [] end.
Fixpoint exchange_order (e : list_end) (sched : list nat) (s : set_state) : list Z :=
  match sched with
  | [] => []
  | i :: sched => exchange_of i s ++ match set_exec e i s with Some s' => exchange_order e sched s' | None => [] end
  end.

(** ** Removal *)

(** [removeLastFrame]. *)
Definition removeLastFrame (h : heap) (c : SuperCell) : option (bool * heap * SuperCell) :=
  let last := lastFramePtr c in
  if last =? 0 then Some (false, h, c)
  else
    f ← h !! last;
    let prev := previousFrame f in
    if prev =? 0 then Some (false, (removeFrame h last).1, set_end_ptr Last 0 (set_end_ptr First 0 c))
    else h ← store h prev (set_towards Last 0); Some (true, (removeFrame h last).1, set_end_ptr Last prev c).

(** ** What the memory represents *)

(** The frames of a supercell, from the first to the last. *)
Definition linked_frames (h : heap) (c : SuperCell) (ps : list Z) : Prop :=
  NoDup (0 :: ps) /\ firstFramePtr c = default 0 (head ps) /\ lastFramePtr c = last_of ps /\
  forall i p, ps !! i = Some p -> exists f, h !! p = Some f /\
    nextFrame f = default 0 (ps !! S i) /\ previousFrame f = match i with O => 0 | S j => default 0 (ps !! j) end.

(** The particles of the frames are as they were. *)
Definition same_particles (h h' : heap) : Prop := forall p, particles <$> h' !! p = particles <$> h !! p.

(** ** One end of the list *)

(** The frame after [a] in the direction of [e], the frame at the other end when [a] is null. *)
Definition outward (e : list_end) (h : heap) (c : SuperCell) (a : Z) : option Z :=
  if a =? 0 then Some (end_ptr (opposite e) c) else towards e <$> h !! a.
Definition inward (e : list_end) (h : heap) (a : Z) : option Z := towards (opposite e) <$> h !! a.

Definition allocated (h : heap) (ps : list Z) : Prop := NoDup (0 :: ps) /\ forall p, p ∈ ps -> is_Some (h !! p).

Lemma same_particles_dom h h' p : same_particles h h' -> is_Some (h' !! p) <-> is_Some (h !! p).
Proof. intros Hs. specialize (Hs p). rewrite <-!not_eq_None_Some. destruct (h' !! p), (h !! p); naive_solver. Qed.

Lemma same_particles_trans h1 h2 h3 : same_particles h1 h2 -> same_particles h2 h3 -> same_particles h1 h3.
Proof. intros H1 H2 p. by rewrite H2, H1. Qed.

Lemma allocated_same h h' ps : same_particles h h' -> allocated h ps -> allocated h' ps.
Proof. intros Hs [Hnd Hin]. split; [done|]. intros p Hp. by apply (same_particles_dom h h'), Hin. Qed.

Lemma allocated_snoc h ps p : allocated h ps -> p <> 0 -> p ∉ ps -> is_Some (h !! p) -> allocated h (ps ++ [p]).
Proof.
  intros [Hnd Hin] Hp Hps Hs. split.
  - rewrite app_comm_cons. apply list.NoDup_app. split_and!; [done| |apply list.NoDup_singleton].
    intros a Ha ->%list_elem_of_singleton. by apply elem_of_cons in Ha as [?|?].
  - intros q [Hq| ->%list_elem_of_singleton]%elem_of_app; auto.
Qed.

Lemma store_spec h p g : is_Some (h !! p) -> (forall f, particles (g f) = particles f) ->
  exists h', store h p g = Some h' /\ same_particles h h' /\
    forall q d, towards d <$> h' !! q = if decide (q = p) then towards d ∘ g <$> h !! q else towards d <$> h !! q.
Proof.
  intros [f Hf] Hg. unfold store. rewrite Hf. eexists; split; [done|]. split.
  - intros q. destruct (decide (q = p)) as [->|Hne]; [|by rewrite lookup_insert_ne]. by rewrite lookup_insert_eq, Hf; cbn; rewrite Hg.
  - intros q d. destruct (decide (q = p)) as [->|Hne]; [by rewrite lookup_insert_eq, Hf|by rewrite lookup_insert_ne].
Qed.

Lemma towards_set e d p f : towards e (set_towards d p f) = if decide (e = d) then p else towards e f.
Proof. by destruct e, d. Qed.

Lemma end_set e d p c : end_ptr e (set_end_ptr d p c) = if decide (e = d) then p else end_ptr e c.
Proof. by destruct e, d. Qed.

Lemma opposite_ne e : e <> opposite e.
Proof. by destruct e. Qed.

Lemma particles_set d p f : particles (set_towards d p f) = particles f.
Proof. by destruct d. Qed.

(** ** Threads at one end

    [ps] is the list as the exchanges have ordered it; a link between neighbours is stored, or the thread
    of the later one has still to store it. *)

Section at_end.
Context (e : list_end).

Definition pending_link (s : set_state) (a n : Z) : Prop :=
  exists i, box_threads s !! i = Some (n, SetInner a) \/ box_threads s !! i = Some (n, SetNeighbour a).

Definition thread_ok (s : set_state) (ps : list Z) (n : Z) (pc : set_pc) : Prop :=
  n <> 0 /\ is_Some (box_heap s !! n) /\
  match pc with
  | SetLinks => n ∉ ps
  | Exchange => (n ∉ ps) /\ outward e (box_heap s) (superCell s) n = Some 0
  | SetInner a => adj ps a n /\ outward e (box_heap s) (superCell s) a = Some 0
  | SetNeighbour a => adj ps a n /\ outward e (box_heap s) (superCell s) a = Some 0 /\ inward e (box_heap s) n = Some a
  | Returned => n ∈ ps
  end.

Record set_inv (h0 : heap) (c0 : SuperCell) (nodes : list Z) (s : set_state) (ps : list Z) : Prop := {
  si_alloc : allocated (box_heap s) ps;
  si_end : end_ptr e (superCell s) = last_of ps;
  si_last : outward e (box_heap s) (superCell s) (last_of ps) = Some 0;
  si_nodes : map fst (box_threads s) = nodes;
  si_threads : forall i n pc, box_threads s !! i = Some (n, pc) -> thread_ok s ps n pc;
  si_out : forall a b, adj ps a b -> outward e (box_heap s) (superCell s) a = Some b \/ pending_link s a b;
  si_in : forall a b, adj ps a b -> inward e (box_heap s) b = Some a \/ exists i, box_threads s !! i = Some (b, SetInner a);
  si_same : same_particles h0 (box_heap s);
  si_count : numParticles (superCell s) = numParticles c0
}.

Lemma step_thread_nodes s i n pc pc' : box_threads s !! i = Some (n, pc) -> map fst (set_thread s i n pc') = map fst (box_threads s).
Proof.
  intros Hi. unfold set_thread. rewrite list_fmap_insert. apply list_insert_id. by rewrite list_lookup_fmap, Hi.
Qed.

Lemma thread_unique s i j n pc pc' : NoDup (map fst (box_threads s)) ->
  box_threads s !! i = Some (n, pc) -> box_threads s !! j = Some (n, pc') -> i = j.
Proof.
  intros Hnd Hi Hj. eapply (proj1 (NoDup_alt _) Hnd _ _ n); rewrite list_lookup_fmap; by rewrite ?Hi, ?Hj.
Qed.

(** What a step leaves of the links and of the other threads. *)
Lemma pending_link_other s i n pc pc' a b h c : box_threads s !! i = Some (n, pc) -> b <> n ->
  pending_link s a b -> pending_link (mkSet h c (set_thread s i n pc')) a b.
Proof.
  intros Hi Hne (j & Hj). exists j. unfold set_thread. cbn. rewrite list_lookup_insert_ne; [done|]. intros ->. destruct Hj; congruence.
Qed.

Lemma inner_other s i n pc pc' a b : box_threads s !! i = Some (n, pc) -> b <> n ->
  (exists j, box_threads s !! j = Some (b, SetInner a)) -> exists j, set_thread s i n pc' !! j = Some (b, SetInner a).
Proof.
  intros Hi Hne (j & Hj). exists j. unfold set_thread. cbn. rewrite list_lookup_insert_ne; [done|]. intros ->. congruence.
Qed.

Lemma set_thread_cases s i n pc pc' j m pc2 : box_threads s !! i = Some (n, pc) -> NoDup (map fst (box_threads s)) ->
  set_thread s i n pc' !! j = Some (m, pc2) -> (m = n /\ pc2 = pc') \/ (m <> n /\ box_threads s !! j = Some (m, pc2)).
Proof.
  intros Hi Hnd Hj. unfold set_thread in Hj. apply list_lookup_insert_Some in Hj as [(<- & [= <- <-] & _)|[Hij Hj]]; [by left|right].
  split; [|done]. intros ->. by apply Hij, (thread_unique s i j n pc pc2).
Qed.

Lemma outward_store h c p g h' : (forall q d, towards d <$> h' !! q = if decide (q = p) then towards d ∘ g <$> h !! q else towards d <$> h !! q) ->
  forall a, outward e h' c a = if decide (a = p /\ a <> 0) then towards e ∘ g <$> h !! a else outward e h c a.
Proof.
  intros Hh a. unfold outward. destruct (Z.eqb_spec a 0) as [->|Ha]; [by rewrite decide_False by tauto|]. rewrite Hh.
  destruct (decide (a = p)); [by rewrite decide_True|by rewrite decide_False by tauto].
Qed.

Lemma outward_end h c p a : outward e h (set_end_ptr e p c) a = outward e h c a.
Proof. unfold outward. rewrite end_set, decide_False; [done|]. intros E. by apply (opposite_ne e). Qed.

Lemma exec_links h0 c0 nodes s ps i n : NoDup nodes -> set_inv h0 c0 nodes s ps -> box_threads s !! i = Some (n, SetLinks) ->
  exists s', set_exec e i s = Some s' /\ set_inv h0 c0 nodes s' ps.
Proof.
  intros Hnd [Hal Hen Hla Hno Hth Hout Hin Hsa Hco] Hi. destruct (Hth _ _ _ Hi) as (Hn0 & Hs & Hps). cbn in Hps.
  unfold set_exec. rewrite Hi.
  destruct (store_spec (box_heap s) n (fun f => set_towards (opposite e) (end_ptr e (superCell s)) (set_towards e 0 f)) Hs) as (h & -> & Hsame & Hh);
    [intros; by rewrite !particles_set|]. cbn. eexists; split; [done|].
  assert (Ho : forall a, a <> n -> outward e h (superCell s) a = outward e (box_heap s) (superCell s) a).
  { intros a Ha. rewrite (outward_store _ _ _ _ _ Hh). by rewrite decide_False by tauto. }
  assert (Hi' : forall a, a <> n -> inward e h a = inward e (box_heap s) a) by (intros a Ha; unfold inward; by rewrite Hh, decide_False).
  assert (Hnn : forall a, a ∈ 0 :: ps -> a <> n) by (intros a Ha ->; by apply elem_of_cons in Ha as [?|?]).
  split; cbn; [by eapply allocated_same|done| | | | | |by eapply same_particles_trans|done].
  - rewrite Ho; [done|]. apply Hnn, last_of_in.
  - by erewrite step_thread_nodes.
  - intros j m pc Hj. rewrite <-Hno in Hnd. destruct (set_thread_cases _ _ _ _ _ _ _ _ Hi Hnd Hj) as [[-> ->]|[Hmn Hj']].
    + split_and!; [done|by apply (same_particles_dom _ _ _ Hsame)|done|]. rewrite (outward_store _ _ _ _ _ Hh), decide_True by done.
      destruct Hs as [f ->]. cbn. rewrite towards_set, decide_False by apply opposite_ne. by rewrite towards_set, decide_True.
    + destruct (Hth _ _ _ Hj') as (? & ? & Hok). split_and!; [done|by apply (same_particles_dom _ _ _ Hsame)|]. cbn.
      destruct pc as [| |a|a|]; cbn in *; [done|by rewrite Ho| | |done].
      * destruct Hok as [Hadj Hok]. rewrite Ho; [done|]. apply Hnn. by apply adj_in in Hadj as [? _].
      * destruct Hok as (Hadj & Hok & Hok2). rewrite Ho, Hi'; [done..|]. apply Hnn. by apply adj_in in Hadj as [? _].
  - intros a b Hab. rewrite Ho by (apply Hnn; by apply adj_in in Hab as [? _]).
    destruct (Hout a b Hab) as [?|?]; [by left|right]. eapply pending_link_other; [exact Hi| |done].
    apply Hnn. right. by apply adj_in in Hab as [_ ?].
  - intros a b Hab. assert (b <> n) by (apply Hnn; right; by apply adj_in in Hab as [_ ?]). rewrite Hi' by done.
    destruct (Hin a b Hab) as [?|?]; [by left|right]. by eapply inner_other.
Qed.

Lemma exec_exchange h0 c0 nodes s ps i n : NoDup nodes -> set_inv h0 c0 nodes s ps -> box_threads s !! i = Some (n, Exchange) ->
  exists s', set_exec e i s = Some s' /\ set_inv h0 c0 nodes s' (ps ++ [n]).
Proof.
  intros Hnd [Hal Hen Hla Hno Hth Hout Hin Hsa Hco] Hi. destruct (Hth _ _ _ Hi) as (Hn0 & Hs & Hps & Hn).
  unfold set_exec. rewrite Hi. cbn. eexists; split; [done|].
  assert (Hnew : set_thread s i n (SetInner (end_ptr e (superCell s))) !! i = Some (n, SetInner (last_of ps))).
  { unfold set_thread. rewrite list_lookup_insert_eq; [by rewrite Hen|]. by eapply lookup_lt_Some. }
  split; cbn; [by apply allocated_snoc| | | | | | |done|].
  - by rewrite last_of_snoc, end_set, decide_True.
  - by rewrite last_of_snoc, outward_end.
  - by erewrite step_thread_nodes.
  - intros j m pc Hj. rewrite <-Hno in Hnd. destruct (set_thread_cases _ _ _ _ _ _ _ _ Hi Hnd Hj) as [[-> ->]|[Hmn Hj']].
    + split_and!; [done..| |]; cbn; rewrite Hen; [by apply adj_snoc; right|by rewrite outward_end].
    + destruct (Hth _ _ _ Hj') as (? & ? & Hok). split_and!; [done..|]. cbn. rewrite ?outward_end.
      destruct pc as [| |a|a|]; rewrite ?outward_end, ?not_elem_of_app, ?list_elem_of_singleton, ?adj_snoc; [by split| | | |set_solver]; cbn in Hok.
      * destruct Hok as [? ?]. split; [by split|done].
      * destruct Hok as [? ?]. split; [by left|done].
      * destruct Hok as (? & ? & ?). split; [by left|done].
  - intros a b [Hab|[-> ->]]%adj_snoc; [|right; exists i; by left]. rewrite outward_end.
    destruct (Hout a b Hab) as [?|?]; [by left|right]. eapply pending_link_other; [exact Hi| |done].
    intros ->. by apply adj_in in Hab as [_ ?].
  - intros a b [Hab|[-> ->]]%adj_snoc; [|right; by exists i].
    destruct (Hin a b Hab) as [?|?]; [by left|right]. eapply inner_other; [exact Hi| |done]. intros ->. by apply adj_in in Hab as [_ ?].
  - rewrite <-Hco. by destruct e.
Qed.

Lemma exec_inner h0 c0 nodes s ps i n a : NoDup nodes -> set_inv h0 c0 nodes s ps -> box_threads s !! i = Some (n, SetInner a) ->
  exists s', set_exec e i s = Some s' /\ set_inv h0 c0 nodes s' ps.
Proof.
  intros Hnd [Hal Hen Hla Hno Hth Hout Hin Hsa Hco] Hi. destruct (Hth _ _ _ Hi) as (Hn0 & Hs & Han & Ha0).
  unfold set_exec. rewrite Hi.
  destruct (store_spec (box_heap s) n (set_towards (opposite e) a) Hs) as (h & -> & Hsame & Hh); [intros; by rewrite particles_set|].
  cbn. eexists; split; [done|].
  assert (Ho : forall b, outward e h (superCell s) b = outward e (box_heap s) (superCell s) b).
  { intros b. rewrite (outward_store _ _ _ _ _ Hh). case_decide as Hb; [|done]. destruct Hb as [-> Hb]. unfold outward.
    rewrite (proj2 (Z.eqb_neq _ _) Hb). destruct (box_heap s !! n) as [f|]; [|done]. cbn. f_equal. rewrite towards_set, decide_False; [done|apply opposite_ne]. }
  assert (Hi' : forall b, inward e h b = if decide (b = n) then Some a else inward e (box_heap s) b).
  { intros b. unfold inward. rewrite Hh. case_decide as Hb; [|done]. subst b. destruct Hs as [f ->]. cbn. by rewrite towards_set, decide_True. }
  split; cbn; [by eapply allocated_same|done|by rewrite Ho| | | | |by eapply same_particles_trans|done].
  - by erewrite step_thread_nodes.
  - intros j m pc Hj. rewrite <-Hno in Hnd. destruct (set_thread_cases _ _ _ _ _ _ _ _ Hi Hnd Hj) as [[-> ->]|[Hmn Hj']].
    + split_and!; [done|by apply (same_particles_dom _ _ _ Hsame)|done|by rewrite Ho|by rewrite Hi', decide_True].
    + destruct (Hth _ _ _ Hj') as (? & ? & Hok). split_and!; [done|by apply (same_particles_dom _ _ _ Hsame)|].
      destruct pc; cbn in *; rewrite ?Ho; [done..| |done]. by rewrite Hi', decide_False.
  - intros b c Hbc. rewrite Ho. destruct (Hout b c Hbc) as [?|Hp]; [by left|right].
    destruct (decide (c = n)) as [->|Hcn]; [|by eapply pending_link_other].
    assert (b = a) as -> by (eapply adj_inj; [apply Hal|exact Hbc|exact Han]).
    exists i. right. unfold set_thread. cbn. rewrite list_lookup_insert_eq; [done|]. by eapply lookup_lt_Some.
  - intros b c Hbc. rewrite Hi'. destruct (decide (c = n)) as [->|Hcn].
    + left. f_equal. by eapply adj_inj; [apply Hal|exact Han|exact Hbc].
    + destruct (Hin b c Hbc) as [?|?]; [by left|right]. by eapply inner_other.
Qed.

(** The store in the neighbour, or in the pointer to the other end. *)
Definition neighbour_store (h : heap) (c : SuperCell) (old n : Z) : option (heap * SuperCell) :=
  if old =? 0 then Some (h, set_end_ptr (opposite e) n c) else h ← store h old (set_towards e n); Some (h, c).

Lemma neighbour_store_spec h c old n : old = 0 \/ is_Some (h !! old) ->
  exists h' c', neighbour_store h c old n = Some (h', c') /\ same_particles h h' /\ end_ptr e c' = end_ptr e c /\
    numParticles c' = numParticles c /\ (forall a, outward e h' c' a = if decide (a = old) then Some n else outward e h c a) /\
    forall a, inward e h' a = inward e h a.
Proof.
  intros Hold. unfold neighbour_store. destruct (Z.eqb_spec old 0) as [->|Hne].
  - eexists _, _. split; [done|]. split_and!; [by intros p| |by destruct e| |done].
    + rewrite end_set, decide_False; [done|]. apply opposite_ne.
    + intros a. unfold outward. destruct (Z.eqb_spec a 0) as [->|Ha]; [|by rewrite decide_False].
      rewrite decide_True by done. by rewrite end_set, decide_True.
  - destruct Hold as [?|Hs]; [done|].
    destruct (store_spec h old (set_towards e n) Hs) as (h' & -> & Hsame & Hh); [intros; by rewrite particles_set|]. cbn.
    eexists _, _. split; [done|]. split_and!; [done..| |].
    + intros a. rewrite (outward_store _ _ _ _ _ Hh). destruct (decide (a = old)) as [->|Ha]; [|by rewrite decide_False by tauto].
      rewrite decide_True by done. destruct Hs as [f ->]. cbn. by rewrite towards_set, decide_True.
    + intros a. unfold inward. rewrite Hh. case_decide as Ha; [|done]. subst a. destruct (h !! old) as [f|]; [|done]. cbn. f_equal.
      rewrite towards_set, decide_False; [done|]. intros E. symmetry in E. by apply (opposite_ne e).
Qed.

Lemma exec_neighbour h0 c0 nodes s ps i n a : NoDup nodes -> set_inv h0 c0 nodes s ps -> box_threads s !! i = Some (n, SetNeighbour a) ->
  exists s', set_exec e i s = Some s' /\ set_inv h0 c0 nodes s' ps.
Proof.
  intros Hnd [Hal Hen Hla Hno Hth Hout Hin Hsa Hco] Hi. destruct (Hth _ _ _ Hi) as (Hn0 & Hs & Han & Ha0 & Hna).
  destruct (neighbour_store_spec (box_heap s) (superCell s) a n) as (h & c & Hst & Hsame & Hec & Hnc & Ho & Hi').
  { unfold outward in Ha0. destruct (Z.eqb_spec a 0); [by left|right]. destruct (box_heap s !! a); [eauto|discriminate]. }
  assert (He : set_exec e i s = Some (mkSet h c (set_thread s i n Returned))).
  { unfold set_exec. rewrite Hi. unfold neighbour_store in Hst. destruct (a =? 0); [by injection Hst as <- <-|].
    destruct (store _ _ _); [|discriminate]. cbn in *. by injection Hst as <- <-. }
  eexists; split; [exact He|]. split; cbn; [by eapply allocated_same|by rewrite Hec| | | | | |by eapply same_particles_trans|by rewrite Hnc].
  - rewrite Ho, decide_False; [done|]. intros E. eapply adj_last; [apply Hal|by rewrite E].
  - by erewrite step_thread_nodes.
  - intros j m pc Hj. rewrite <-Hno in Hnd. destruct (set_thread_cases _ _ _ _ _ _ _ _ Hi Hnd Hj) as [[-> ->]|[Hmn Hj']].
    + split_and!; [done|by apply (same_particles_dom _ _ _ Hsame)|]. by apply adj_in in Han as [_ ?].
    + destruct (Hth _ _ _ Hj') as (Hm0 & ? & Hok). split_and!; [done|by apply (same_particles_dom _ _ _ Hsame)|].
      assert (Hother : forall b, adj ps b m -> b <> a) by (intros b Hb ->; apply Hmn; eapply adj_fun; [apply Hal|exact Hb|exact Han]).
      destruct pc as [| |b|b|]; cbn in *; [done| | | |done].
      * destruct Hok as [Hmp Hok]. split; [done|]. rewrite Ho, decide_False; [done|]. intros ->.
        apply adj_in in Han as [[?|?]%elem_of_cons _]; done.
      * destruct Hok as [Hb Hok]. split; [done|]. rewrite Ho, decide_False; [done|]. by apply Hother.
      * destruct Hok as (Hb & Hok & Hok2). split_and!; [done| |by rewrite Hi']. rewrite Ho, decide_False; [done|]. by apply Hother.
  - intros b b' Hbc. rewrite Ho. case_decide as Hba.
    + subst b. left. f_equal. by eapply adj_fun; [apply Hal|exact Han|exact Hbc].
    + destruct (Hout b b' Hbc) as [?|?]; [by left|right]. eapply pending_link_other; [exact Hi| |done].
      intros ->. apply Hba. by eapply adj_inj; [apply Hal|exact Hbc|exact Han].
  - intros b b' Hbc. rewrite Hi'. destruct (Hin b b' Hbc) as [?|Hp]; [by left|].
    destruct (decide (b' = n)) as [->|Hne]; [left|right; by eapply inner_other].
    assert (b = a) as -> by (eapply adj_inj; [apply Hal|exact Hbc|exact Han]). done.
Qed.

Lemma set_exec_inv h0 c0 nodes s ps i : NoDup nodes -> set_inv h0 c0 nodes s ps ->
  exists s', set_exec e i s = Some s' /\ set_inv h0 c0 nodes s' (ps ++ exchange_of i s).
Proof.
  intros Hnd Hinv. unfold exchange_of. destruct (box_threads s !! i) as [[n [| |a|a|]]|] eqn:Hi; rewrite ?app_nil_r;
    eauto using exec_links, exec_exchange, exec_inner, exec_neighbour.
  all: exists s; split; [unfold set_exec; by rewrite Hi|done].
Qed.

Lemma set_run_inv h0 c0 nodes sched s ps : NoDup nodes -> set_inv h0 c0 nodes s ps ->
  exists s', set_run e sched s = Some s' /\ set_inv h0 c0 nodes s' (ps ++ exchange_order e sched s).
Proof.
  intros Hnd. revert s ps. induction sched as [|i sched IH]; intros s ps Hinv; cbn; [exists s; by rewrite app_nil_r|].
  destruct (set_exec_inv _ _ _ _ _ i Hnd Hinv) as (s' & -> & Hinv'). cbn.
  destruct (IH _ _ Hinv') as (s'' & -> & Hinv''). exists s''. split; [done|]. by rewrite app_assoc.
Qed.

(** ** The list from this end *)

Definition chain_at (h : heap) (c : SuperCell) (ps : list Z) : Prop :=
  NoDup (0 :: ps) /\ end_ptr (opposite e) c = default 0 (head ps) /\ end_ptr e c = last_of ps /\
  forall i p, ps !! i = Some p -> exists f, h !! p = Some f /\
    towards e f = default 0 (ps !! S i) /\ towards (opposite e) f = match i with O => 0 | S j => default 0 (ps !! j) end.

Lemma last_of_none (ps : list Z) i p : ps !! i = Some p -> ps !! S i = None -> p = last_of ps.
Proof.
  intros Hi Hn. pose proof (lookup_lt_Some _ _ _ Hi). apply lookup_ge_None in Hn. assert (i = length ps - 1)%nat as -> by lia.
  pose proof (last_of_lookup ps) as Hl. destruct ps as [|q ps]; [done|]. cbn [length] in *. rewrite Nat.sub_succ, Nat.sub_0_r in Hi.
  change ((q :: ps) !! length ps = Some (last_of (q :: ps))) in Hl. congruence.
Qed.

Lemma set_init_inv h c ps nodes : chain_at h c ps -> NoDup nodes -> (forall n, n ∈ nodes -> n <> 0 /\ (n ∉ ps) /\ is_Some (h !! n)) ->
  set_inv h c nodes (set_init h c nodes) ps.
Proof.
  intros (Hnd & Hh & Hl & Hf) Hnn Hn.
  assert (Hth : forall i n pc, box_threads (set_init h c nodes) !! i = Some (n, pc) -> n ∈ nodes /\ pc = SetLinks).
  { intros i n pc Hi. cbn in Hi. rewrite list_lookup_fmap in Hi. destruct (nodes !! i) as [m|] eqn:Hm; [|discriminate].
    injection Hi as <- <-. split; [by eapply list_elem_of_lookup_2|done]. }
  split; cbn; [split; [done|]|done| | | | | |by intros p|done].
  - intros p [i Hi]%list_elem_of_lookup. destruct (Hf i p Hi) as (f & -> & _). eauto.
  - unfold outward. destruct (Z.eqb_spec (last_of ps) 0) as [E|E].
    + destruct ps as [|p ps]; [by rewrite Hh|]. pose proof (last_of_lookup (p :: ps)) as Hlk. cbn [lookup list_lookup length] in Hlk.
      apply list_elem_of_lookup_2 in Hlk. rewrite E in Hlk. apply list.NoDup_cons in Hnd as [Hnd _]. done.
    + pose proof (last_of_lookup ps) as Hlk. destruct ps as [|p ps]; [done|]. cbn [lookup list_lookup length] in Hlk.
      destruct (Hf _ _ Hlk) as (f & -> & Hto & _). cbn. f_equal. rewrite Hto, lookup_ge_None_2; [done|cbn; lia].
  - rewrite map_map. cbn. by rewrite map_id.
  - intros i n pc Hi. destruct (Hth i n pc Hi) as [Hin ->]. destruct (Hn n Hin) as (? & ? & ?). by split_and!.
  - intros a b (i & Ha & Hb). left. unfold outward. destruct i as [|i]; cbn in Ha.
    + injection Ha as <-. cbn. rewrite Hh. by destruct ps; [|injection Hb as ->].
    + destruct (Hf i a Ha) as (f & Hfa & Hto & _). assert (a <> 0).
      { intros ->. apply list.NoDup_cons in Hnd as [Hnd _]. apply Hnd. by eapply list_elem_of_lookup_2. }
      rewrite (proj2 (Z.eqb_neq a 0)), Hfa by done. cbn. f_equal. by rewrite Hto, Hb.
  - intros a b (i & Ha & Hb). left. unfold inward. destruct (Hf i b Hb) as (f & -> & _ & Hto). cbn. f_equal. rewrite Hto.
    destruct i as [|i]; [cbn in Ha; congruence|]. change (ps !! i = Some a) in Ha. by rewrite Ha.
Qed.

Definition all_returned (s : set_state) : Prop := forall n pc, (n, pc) ∈ box_threads s -> pc = Returned.

Lemma set_inv_done h0 c0 nodes s ps : set_inv h0 c0 nodes s ps -> all_returned s -> chain_at (box_heap s) (superCell s) ps.
Proof.
  intros [[Hnd Hal] Hen Hla Hno Hth Hout Hin Hsa Hco] Hd.
  assert (Ho : forall a b, adj ps a b -> outward e (box_heap s) (superCell s) a = Some b).
  { intros a b Hab. destruct (Hout a b Hab) as [?|(i & [Hi|Hi])]; [done|apply list_elem_of_lookup_2, Hd in Hi; discriminate..]. }
  assert (Hi : forall a b, adj ps a b -> inward e (box_heap s) b = Some a).
  { intros a b Hab. destruct (Hin a b Hab) as [?|(i & Hi)]; [done|apply list_elem_of_lookup_2, Hd in Hi; discriminate]. }
  split_and!; [done| |done|].
  - destruct ps as [|p ps].
    + unfold outward, last_of in Hla. cbn in Hla. by injection Hla.
    + assert (Hp : adj (p :: ps) 0 p) by (by exists 0%nat). apply Ho in Hp. unfold outward in Hp. cbn in Hp. by injection Hp.
  - intros i p Hp. destruct (Hal p) as [f Hf]; [by eapply list_elem_of_lookup_2|]. exists f. split; [done|].
    assert (Hp0 : (p =? 0) = false). { apply Z.eqb_neq. intros ->. apply list.NoDup_cons in Hnd as [Hnd _]. apply Hnd. by eapply list_elem_of_lookup_2. }
    split.
    + destruct (ps !! S i) as [q|] eqn:Hq.
      * assert (Hadj : adj ps p q) by (by exists (S i)). apply Ho in Hadj. unfold outward in Hadj. rewrite Hp0, Hf in Hadj. cbn in *. congruence.
      * rewrite (last_of_none ps i p Hp Hq) in Hf, Hp0. unfold outward in Hla. rewrite Hp0, Hf in Hla. cbn in *. congruence.
    + assert (Hadj : adj ps (match i with O => 0 | S j => default 0 (ps !! j) end) p).
      { exists i. split; [|done]. destruct i as [|j]; [done|]. cbn. apply lookup_lt_Some in Hp.
        destruct (lookup_lt_is_Some_2 ps j) as [q Hq]; [lia|]. by rewrite Hq. }
      apply Hi in Hadj. unfold inward in Hadj. rewrite Hf in Hadj. cbn in *. congruence.
Qed.

(** ** Progress *)

Definition pc_steps (pc : set_pc) : nat :=
  match pc with SetLinks => 4 | Exchange => 3 | SetInner _ => 2 | SetNeighbour _ => 1 | Returned => 0 end.
Definition steps_left (i : nat) (s : set_state) : nat := match box_threads s !! i with Some (_, pc) => pc_steps pc | None => 0 end.

Lemma steps_left_le i s : (steps_left i s <= 4)%nat.
Proof. unfold steps_left. destruct (box_threads s !! i) as [[n []]|]; simpl; lia. Qed.

Lemma set_exec_rank i j s s' : set_exec e i s = Some s' ->
  if decide (i = j) then (steps_left j s' <= steps_left j s - 1)%nat else steps_left j s' = steps_left j s.
Proof.
  unfold set_exec, steps_left. intros E. destruct (box_threads s !! i) as [[n pc]|] eqn:Hi;
    [|simplify_eq; case_decide as Hd; [subst; rewrite Hi; simpl; lia|done]].
  assert (Hgen : forall pc' h c, (pc_steps pc' <= pc_steps pc - 1)%nat -> s' = mkSet h c (set_thread s i n pc') ->
    if decide (i = j) then (match box_threads s' !! j with Some (_, p) => pc_steps p | None => 0 end <=
      match box_threads s !! j with Some (_, p) => pc_steps p | None => 0 end - 1)%nat
    else match box_threads s' !! j with Some (_, p) => pc_steps p | None => 0%nat end =
      match box_threads s !! j with Some (_, p) => pc_steps p | None => 0%nat end).
  { intros pc' h c Hr ->. unfold set_thread. cbn. case_decide as Hd; [|by rewrite list_lookup_insert_ne by done].
    subst j. rewrite list_lookup_insert_eq by (by eapply lookup_lt_Some). by rewrite Hi. }
  destruct pc as [| |old|old|]; cbn in *.
  - destruct (store _ _ _); [|discriminate]. simplify_eq/=. eapply Hgen; [|done]. cbn. lia.
  - simplify_eq. eapply Hgen; [|done]. cbn. lia.
  - destruct (store _ _ _); [|discriminate]. simplify_eq/=. eapply Hgen; [|done]. cbn. lia.
  - destruct (old =? 0); [simplify_eq; eapply Hgen; [|done]; cbn; lia|].
    destruct (store _ _ _); [|discriminate]. simplify_eq/=. eapply Hgen; [|done]. cbn. lia.
  - simplify_eq. case_decide as Hd; [subst; rewrite Hi; simpl; lia|done].
Qed.

Lemma set_run_steps_left sched j s s' : set_run e sched s = Some s' -> (steps_left j s' <= steps_left j s - length (filter (eq j) sched))%nat.
Proof.
  revert s. induction sched as [|i sched IH]; intros s E; cbn in E; [simplify_eq; cbn; lia|].
  destruct (set_exec e i s) as [s1|] eqn:E1; [|discriminate]. pose proof (set_exec_rank i j _ _ E1) as Hr. specialize (IH _ E).
  destruct (decide (i = j)) as [->|Hne].
  - rewrite filter_cons_True by done. cbn. lia.
  - rewrite filter_cons_False by (intros ->; done). lia.
Qed.

Lemma run_returns h c nodes sched s : set_run e sched (set_init h c nodes) = Some s -> map fst (box_threads s) = nodes ->
  (forall i, (i < length nodes)%nat -> (4 <= length (filter (eq i) sched))%nat) -> all_returned s.
Proof.
  intros Hrun Hno Hf n pc [i Hi]%list_elem_of_lookup_1.
  assert (Hlt : (i < length nodes)%nat) by (rewrite <-Hno, length_fmap; by eapply lookup_lt_Some).
  pose proof (set_run_steps_left sched i _ _ Hrun) as Hr. specialize (Hf i Hlt).
  pose proof (steps_left_le i (set_init h c nodes)).
  unfold steps_left in Hr at 1. rewrite Hi in Hr. destruct pc; cbn in Hr; (lia || done).
Qed.
End at_end.

(** The two views of a list. *)
Lemma last_of_reverse (ps : list Z) : last_of (reverse ps) = default 0 (head ps).
Proof. unfold last_of. rewrite last_reverse. done. Qed.

Lemma linked_at e h c ps : linked_frames h c (match e with Last => ps | First => reverse ps end) <-> chain_at e h c ps.
Proof.
  destruct e; [|done]. unfold linked_frames, chain_at. cbn.
  assert (Hnd : NoDup (0 :: reverse ps) <-> NoDup (0 :: ps)).
  { by rewrite (reverse_Permutation ps). }
  rewrite Hnd, last_of_reverse, head_reverse. fold (last_of ps).
  split; intros (H1 & H2 & H3 & H4); (split_and!; [done|done|done|]); intros i p Hi.
  - pose proof (lookup_lt_Some _ _ _ Hi) as Hlt. destruct (H4 (length ps - 1 - i)%nat p) as (f & Hf & Hn & Hp).
    { rewrite reverse_lookup by lia. by replace (length ps - S (length ps - 1 - i))%nat with i by lia. }
    exists f. split; [done|]. split.
    + rewrite Hp. destruct (length ps - 1 - i)%nat as [|k] eqn:Ek; [by rewrite lookup_ge_None_2 by lia|].
      rewrite reverse_lookup by lia. by replace (length ps - S k)%nat with (S i) by lia.
    + rewrite Hn. destruct i as [|i]; [by rewrite lookup_ge_None_2 by (rewrite length_reverse; lia)|].
      rewrite reverse_lookup by lia. by replace (length ps - S (S (length ps - 1 - S i)))%nat with i by lia.
  - pose proof (lookup_lt_Some _ _ _ Hi) as Hlt. rewrite length_reverse in Hlt. rewrite reverse_lookup in Hi by done.
    destruct (H4 _ p Hi) as (f & Hf & Hn & Hp). exists f. split; [done|]. split.
    + rewrite Hp. destruct (length ps - S i)%nat as [|k] eqn:Ek; [by rewrite lookup_ge_None_2 by (rewrite length_reverse; lia)|].
      rewrite reverse_lookup by lia. by replace (length ps - S (S i))%nat with k by lia.
    + rewrite Hn. destruct i as [|i]; [by rewrite lookup_ge_None_2 by lia|].
      rewrite reverse_lookup by lia. by replace (S (length ps - S (S i))) with (length ps - S i)%nat by lia.
Qed.

(** Where inserted frames go, in the order of their exchanges. *)
Definition inserted (e : list_end) (ps order : list Z) : list Z :=
  match e with Last => ps ++ order | First => reverse order ++ ps end.

Lemma inserted_at e ps order : inserted e ps order = match e with Last => match e with Last => ps | First => reverse ps end ++ order
  | First => reverse (match e with Last => ps | First => reverse ps end ++ order) end.
Proof. destruct e; [|done]. cbn. by rewrite reverse_app, reverse_involutive. Qed.

Lemma set_exec_nodes e i s s' : set_exec e i s = Some s' -> map fst (box_threads s') = map fst (box_threads s).
Proof.
  unfold set_exec. intros E. destruct (box_threads s !! i) as [[m [| |old|old|]]|] eqn:Hi; [..|by simplify_eq|by simplify_eq];
    try (destruct (store _ _ _); [|discriminate]); try (destruct (old =? 0); [|destruct (store _ _ _); [|discriminate]]);
    simplify_eq/=; by erewrite step_thread_nodes.
Qed.

Lemma exchange_order_in e sched s nodes n : map fst (box_threads s) = nodes -> n ∈ exchange_order e sched s -> n ∈ nodes.
Proof.
  revert s. induction sched as [|i sched IH]; intros s Hs Hin; cbn in Hin; [by apply elem_of_nil in Hin|].
  apply elem_of_app in Hin as [Hin|Hin].
  - unfold exchange_of in Hin. destruct (box_threads s !! i) as [[m []]|] eqn:Hi; try by apply elem_of_nil in Hin.
    apply list_elem_of_singleton in Hin as ->. rewrite <-Hs. apply list_elem_of_fmap. exists (m, Exchange). split; [done|].
    by eapply list_elem_of_lookup_2.
  - destruct (set_exec e i s) as [s1|] eqn:E1; [|by apply elem_of_nil in Hin]. apply (IH s1); [|done].
    by rewrite (set_exec_nodes e i s).
Qed.

Lemma insertion_runs e h c ps nodes sched : linked_frames h c ps -> NoDup nodes ->
  (forall n, n ∈ nodes -> n <> 0 /\ (n ∉ ps) /\ is_Some (h !! n)) ->
  exists s, set_run e sched (set_init h c nodes) = Some s /\
    ((forall i, (i < length nodes)%nat -> (4 <= length (filter (eq i) sched))%nat) -> all_returned s) /\
    (all_returned s ->
       let order := exchange_order e sched (set_init h c nodes) in
       order ≡ₚ nodes /\ linked_frames (box_heap s) (superCell s) (inserted e ps order) /\
       same_particles h (box_heap s) /\ numParticles (superCell s) = numParticles c).
Proof.
  intros Hl Hnd Hn. set (qs := match e with Last => ps | First => reverse ps end).
  assert (Hq : forall n, n ∈ qs <-> n ∈ ps) by (intros n; unfold qs; destruct e; [by rewrite elem_of_reverse|done]).
  assert (Hc : chain_at e h c qs) by (apply linked_at; unfold qs; destruct e; [by rewrite reverse_involutive|done]).
  pose proof (set_init_inv e h c qs nodes Hc Hnd ltac:(intros n Hin; rewrite Hq; by apply Hn)) as Hinv.
  destruct (set_run_inv e _ _ _ sched _ _ Hnd Hinv) as (s & Hrun & Hinv'). exists s. split; [done|]. split.
  - intros Hf. eapply run_returns; [exact Hrun|apply Hinv'|done].
  - intros Hd order. pose proof (set_inv_done _ _ _ _ _ _ Hinv' Hd) as Hca.
    destruct Hinv' as [[[_ Hnd']%list.NoDup_cons Hal] _ _ Hno Hth _ _ Hsa Hco].
    apply list.NoDup_app in Hnd' as (_ & Hdisj & Hndo). split_and!; [| |done..].
    + apply NoDup_Permutation; [done..|]. intros n. split.
      * apply (exchange_order_in e sched (set_init h c nodes)). cbn. by rewrite map_map, map_id.
      * intros Hnn. pose proof (Hn n Hnn) as (_ & Hps & _). rewrite <-Hno in Hnn.
        apply list_elem_of_fmap in Hnn as ([n' pc] & -> & Ht). pose proof (Hd _ _ Ht) as ->. apply list_elem_of_lookup_1 in Ht as [i Hi].
        destruct (Hth _ _ _ Hi) as (_ & _ & [Hin|Hin]%elem_of_app); [|done]. by apply Hq in Hin.
    + rewrite inserted_at. apply linked_at in Hca. destruct e; exact Hca.
Qed.

(** A call that runs alone. *)
Lemma setAsFrame_links e h c ps frame : linked_frames h c ps -> frame <> 0 -> frame ∉ ps -> is_Some (h !! frame) ->
  exists h' c', setAsFrame e h c frame = Some (h', c') /\
    linked_frames h' c' (match e with Last => ps ++ [frame] | First => frame :: ps end) /\
    same_particles h h' /\ numParticles c' = numParticles c.
Proof.
  intros Hl Hf Hps Hs. destruct (insertion_runs e h c ps [frame] [0; 0; 0; 0]%nat Hl) as (s & Hrun & Hret & Hdone).
  { apply list.NoDup_singleton. }
  { by intros n ->%list_elem_of_singleton. }
  destruct Hdone as (Ho & Hli & Hsa & Hn).
  { apply Hret. intros i Hi. cbn in Hi. assert (i = 0%nat) as -> by lia. vm_compute. lia. }
  unfold setAsFrame. rewrite Hrun. cbn. eexists _, _. split; [done|]. split_and!; [|done..].
  apply Permutation_singleton_r in Ho. rewrite Ho in Hli. by destruct e.
Qed.

Lemma store_other h p g h' : store h p g = Some h' -> forall q, q <> p -> h' !! q = h !! q.
Proof. unfold store. destruct (h !! p); [|done]. intros [= <-] q Hq. by rewrite lookup_insert_ne. Qed.

(** It touches the frame and the old one at the end. *)
Lemma setAsFrame_other e h c frame h' c' : setAsFrame e h c frame = Some (h', c') ->
  (forall q, q <> frame -> q <> end_ptr e c \/ end_ptr e c = 0 -> h' !! q = h !! q) /\ mustShiftVal c' = mustShiftVal c.
Proof.
  unfold setAsFrame, set_init. cbn [map set_run set_exec box_threads lookup list_lookup]. intros E.
  apply bind_Some in E as (s & E & [= <- <-]). apply bind_Some in E as (s1 & E1 & E). apply bind_Some in E1 as (h1 & Hs1 & [= <-]).
  cbn [set_run set_exec box_threads lookup list_lookup set_thread insert list_insert mbind option_bind box_heap superCell] in E.
  apply bind_Some in E as (s3 & E3 & E). apply bind_Some in E3 as (h3 & Hs3 & [= <-]).
  cbn [set_run set_exec box_threads lookup list_lookup set_thread insert list_insert mbind option_bind box_heap superCell] in E.
  pose proof (store_other _ _ _ _ Hs1) as H1. pose proof (store_other _ _ _ _ Hs3) as H3.
  destruct (Z.eqb_spec (end_ptr e c) 0) as [E0|E0].
  - injection E as <-. cbn. split; [|by destruct e]. intros q Hq _. by rewrite H3, H1.
  - apply bind_Some in E as (s4 & E4 & [= <-]). apply bind_Some in E4 as (h4 & Hs4 & [= <-]). pose proof (store_other _ _ _ _ Hs4) as H4.
    cbn. split; [|by destruct e]. intros q Hq [Hq2|Hq2]; [by rewrite H4, H3, H1|done].
Qed.

(** [removeLastFrame] drops the last frame, frees it, and tells whether frames are left. *)
Lemma removeLastFrame_drops h c ps : linked_frames h c ps ->
  exists h' c', removeLastFrame h c = Some (bool_decide (1 < length ps)%nat, h', c') /\
    linked_frames h' c' (take (length ps - 1)%nat ps) /\ numParticles c' = numParticles c /\
    (forall p, p ∈ take (length ps - 1)%nat ps -> particles <$> h' !! p = particles <$> h !! p) /\
    (ps <> [] -> h' !! last_of ps = None) /\ (forall q, q ∉ ps -> h' !! q = h !! q) /\ mustShiftVal c' = mustShiftVal c.
Proof.
  intros (Hnd & Hfi & Hla & Hf). unfold removeLastFrame. rewrite Hla.
  destruct (decide (ps = [])) as [->|Hne].
  - cbn. eexists _, _. split; [done|]. by split_and!.
  - destruct (exists_last Hne) as (qs & q & ->). rewrite last_of_snoc, length_app. cbn [length].
    replace (length qs + 1 - 1)%nat with (length qs) by lia. rewrite take_app_length.
    assert (Hq : (qs ++ [q]) !! length qs = Some q) by (by apply list_lookup_middle).
    destruct (Hf _ q Hq) as (f & Hfq & Hn & Hp).
    assert (Hq0 : (q =? 0) = false). { apply Z.eqb_neq. intros ->. apply list.NoDup_cons in Hnd as [Hnd _]. apply Hnd, elem_of_app. right. by left. }
    rewrite Hq0, Hfq. cbn [mbind option_bind]. rewrite Hp. destruct (decide (qs = [])) as [->|Hqs].
    + cbn. eexists _, _. split; [done|]. split_and!; [|done| |by rewrite lookup_delete_eq| |done].
      * split_and!; [apply list.NoDup_singleton|done..].
      * intros p Hpin. by apply elem_of_nil in Hpin.
      * intros p Hpin. apply lookup_delete_ne. intros ->. apply Hpin. by left.
    + destruct (exists_last Hqs) as (rs & r & ->). rewrite length_app in Hq, Hp |- *. cbn [length] in Hq, Hp |- *. rewrite Nat.add_1_r in Hp |- *. cbn in Hp.
      assert (Hr : (rs ++ [r]) !! length rs = Some r) by (by apply list_lookup_middle).
      assert (Hr' : ((rs ++ [r]) ++ [q]) !! length rs = Some r) by (rewrite lookup_app_l; [done|rewrite length_app; cbn; lia]).
      rewrite Hr'. change (default 0 (Some r)) with r. destruct (Hf _ r Hr') as (fr & Hfr & _ & _).
      assert (Hr0 : (r =? 0) = false).
      { apply Z.eqb_neq. intros ->. apply list.NoDup_cons in Hnd as [Hnd _]. apply Hnd. by eapply list_elem_of_lookup_2. }
      rewrite Hr0. unfold store. rewrite Hfr. cbn [mbind option_bind].
      rewrite bool_decide_eq_true_2 by lia. unfold removeFrame. cbn [fst]. eexists _, _. split; [done|].
      rewrite app_comm_cons in Hnd. apply list.NoDup_app in Hnd as (Hnd & Hdis & _).
      assert (Hpq : forall p, p ∈ rs ++ [r] -> p <> q) by (intros p Hpin ->; apply (Hdis q); [by right|by left]).
      split_and!; [split_and!; [done| | |]|done| | | |done].
      * cbn. rewrite Hfi. by destruct rs.
      * cbn. by rewrite last_of_snoc.
      * intros i p Hi. pose proof (lookup_lt_Some _ _ _ Hi) as Hlt. rewrite lookup_delete_ne by (intros E; by eapply (Hpq p); [eapply list_elem_of_lookup_2|]).
        destruct (Hf i p) as (fp & Hfp & Hnp & Hpp); [by rewrite lookup_app_l|].
        assert (Hprev : forall j, i = S j -> default 0 (((rs ++ [r]) ++ [q]) !! j) = default 0 ((rs ++ [r]) !! j)) by (intros j ->; rewrite lookup_app_l; [done|lia]).
        destruct (decide (p = r)) as [->|Hpr].
        -- rewrite Hfr in Hfp. injection Hfp as <-. rewrite lookup_insert_eq. eexists. split; [done|]. cbn.
           assert (i = length rs) as ->.
           { apply list.NoDup_cons in Hnd as [_ Hnd]. eapply (proj1 (NoDup_alt _) Hnd); [exact Hi|exact Hr]. }
           rewrite lookup_ge_None_2 by (rewrite length_app; cbn; lia). split; [done|]. rewrite Hpp. destruct (length rs) as [|j]; [done|]. by apply Hprev.
        -- rewrite lookup_insert_ne by done. exists fp. split; [done|]. split.
           ++ rewrite Hnp, lookup_app_l; [done|]. rewrite length_app in Hlt |- *. cbn in Hlt |- *.
              assert (i <> length rs) by (intros ->; congruence). lia.
           ++ rewrite Hpp. destruct i as [|j]; [done|]. by apply Hprev.
      * intros p Hpin. rewrite lookup_delete_ne by (intros E; by eapply (Hpq p)).
        destruct (decide (p = r)) as [->|Hpr]; [|by rewrite lookup_insert_ne]. by rewrite lookup_insert_eq, Hfr.
      * intros _. by rewrite lookup_delete_eq.
      * intros p Hpin. rewrite lookup_delete_ne, lookup_insert_ne; [done| |];
          intros <-; apply Hpin, elem_of_app; [left; apply elem_of_app|]; right; by left.
Qed.

(** [setAsLastFrame] and [setAsFirstFrame] are linearisable at their exchange.  Whatever the interleaving of the
    threads that insert at one end, no step stores through a bad pointer; a schedule in which every
    thread takes its four steps lets all return; and once all have returned the doubly linked list holds the old
    frames and the new ones, in the order of their exchanges counted from that end, with all links in both
    directions, both ends and every particle in place. *)
Theorem concurrent_insertion e h c ps nodes sched : linked_frames h c ps -> NoDup nodes ->
  (forall n, n ∈ nodes -> n <> 0 /\ (n ∉ ps) /\ is_Some (h !! n)) ->
  exists s, set_run e sched (set_init h c nodes) = Some s /\
    ((forall i, (i < length nodes)%nat -> (4 <= length (filter (eq i) sched))%nat) -> all_returned s) /\
    (all_returned s ->
       let order := exchange_order e sched (set_init h c nodes) in
       order ≡ₚ nodes /\ linked_frames (box_heap s) (superCell s) (inserted e ps order) /\
       same_particles h (box_heap s) /\ numParticles (superCell s) = numParticles c).
Proof. apply insertion_runs. Qed.

(** A frame from [getEmptyFrame] is new and holds no particle; none is returned when all attempts fail. *)
Lemma getEmptyFrame_empty {S} (malloc : S -> Z * S) raw s h :
  match getEmptyFrame malloc raw s h with
  | Some (p, _, h') => p <> 0 /\ (exists f, h' !! p = Some f /\ length (particles f) = length (particles raw) /\
      Forall (fun x => multiMask x = 0) (particles f)) /\ forall q, q <> p -> h' !! q = h !! q
  | None => forall k, (k < maxTries)%nat -> (malloc (Nat.iter k (fun s => (malloc s).2) s)).1 = 0
  end.
Proof.
  unfold getEmptyFrame. pose proof (allocateRawMemory_spec malloc maxTries s) as Hs.
  destruct (allocateRawMemory malloc maxTries s) as [p s']. destruct Hs as (k & _ & _ & Hs).
  destruct (Z.eqb_spec p 0) as [->|Hp]; [by destruct Hs as [_ Hs]|]. split; [done|]. split.
  - rewrite lookup_insert_eq. eexists. split; [done|]. cbn. split; [apply length_map|]. apply Forall_map, Forall_true. done.
  - intros q Hq. by rewrite lookup_insert_ne.
Qed.
End box.

(** ** Examples *)

Definition one_frame (p n : Z) : Frame (A := unit) := mkFrame [mkBoxSlot 1 tt] p n.
Definition frames_to_link : gmap Z (Frame (A := unit)) := <[16 := one_frame 0 0]> (<[32 := one_frame 7 7]> (<[48 := one_frame 7 7]> ∅)).
Definition one_list : SuperCell := mkSuperCell 16 16 1 false.

Lemma one_list_linked : linked_frames frames_to_link one_list [16].
Proof.
  split_and!; [by apply (bool_decide_unpack _)|done..|]. intros [|i] p Hp; cbn in Hp; [injection Hp as <-|done].
  exists (one_frame 0 0). by split_and!.
Qed.

(** Two threads race at the last frame; the later exchange links first. *)
Lemma concurrent_insertion_witness :
  exists s, set_run Last [0; 1; 0; 1; 1; 1; 0; 0]%nat (set_init frames_to_link one_list [32; 48]) = Some s /\
    linked_frames (box_heap s) (superCell s) [16; 32; 48].
Proof.
  destruct (concurrent_insertion Last frames_to_link one_list [16] [32; 48] [0; 1; 0; 1; 1; 1; 0; 0]%nat one_list_linked) as (s & Hrun & Hret & Hdone).
  - by apply (bool_decide_unpack _).
  - intros n [->|[->|[]%elem_of_nil]%elem_of_cons]%elem_of_cons; (split_and!; [discriminate|by apply (bool_decide_unpack _)|eexists; vm_compute; reflexivity]).
  - exists s. split; [exact Hrun|]. apply Hdone, Hret. intros [|[|i]] Hi; [vm_compute; lia..|]. cbn in Hi. exfalso. lia.
Defined.

(** The two functions do not combine: when threads insert at both ends of an empty list at once, each can overwrite
    the pointer the other has exchanged, and the ends no longer lead to each other. *)
Definition both_ends (s : set_state (A := unit)) : option (set_state (A := unit)) :=
  s ← set_run Last [0; 0]%nat s; s ← set_run First [1; 1; 1; 1]%nat s; set_run Last [0; 0]%nat s.

Example both_ends_race : exists s, both_ends (set_init frames_to_link (mkSuperCell 0 0 0 false) [32; 48]) = Some s /\
  firstFramePtr (superCell s) = 32 /\ lastFramePtr (superCell s) = 48 /\ nextFrame <$> box_heap s !! 32 = Some 0 /\
  previousFrame <$> box_heap s !! 48 = Some 0.
Proof. eexists. split; [vm_compute; reflexivity|]. by split_and!. Qed.
