(* ===== verification/FrameSlots.v ===== *)
(** * Particle slots of the frames of a supercell

    What the kernels of pmacc/particles/ParticlesBase.kernel share: reading and writing a particle slot through
    a frame pointer, the counters the threads of a block advance atomically to number slots, and the
    copies of particles between slots.  The threads take their increments in any order, which is a permutation of
    the slots of a frame. *)
From Stdlib Require Import ZArith Lia.
From stdpp Require Import base sets list numbers gmap.
From S2P Require Import Prelude Scalar Topology FrameList ParticlesBox.

Local Open Scope Z_scope.

(** [INV_LOC_IDX] of frame_types.hpp. *)
Definition INV_LOC_IDX : Z := 65535.

(** ** Atomic counters

    [number_slots]: every slot with [P] takes the next value of the counter as its number.  [collect_slots]: it
    stores its index in a shared array at that position. *)
Fixpoint number_slots (P : nat -> bool) (order : list nat) (counter : Z) (numbers : list Z) : Z * list Z :=
  match order with
  | [] => (counter, numbers)
  | idx :: order =>
      if P idx then number_slots P order (counter + 1) (<[idx := counter]> numbers) else number_slots P order counter numbers
  end.

Fixpoint collect_slots (P : nat -> bool) (order : list nat) (counter : Z) (indices : list nat) : Z * list nat :=
  match order with
  | [] => (counter, indices)
  | idx :: order =>
      if P idx then collect_slots P order (counter + 1) (<[Z.to_nat counter := idx]> indices) else collect_slots P order counter indices
  end.

(** The increments alone. *)
Fixpoint count_slots (P : nat -> bool) (order : list nat) (counter : Z) : Z :=
  match order with
  | [] => counter
  | idx :: order => count_slots P order (if P idx then counter + 1 else counter)
  end.

(** The slots with [P] in the order of their increments. *)
Definition taken (P : nat -> bool) (order : list nat) : list nat := List.filter P order.

Lemma taken_cons P i order : taken P (i :: order) = if P i then i :: taken P order else taken P order.
Proof. done. Qed.

Lemma elem_of_taken P order i : i ∈ taken P order <-> P i = true /\ i ∈ order.
Proof. unfold taken. rewrite !list_elem_of_In, filter_In. tauto. Qed.

Lemma NoDup_taken P order : NoDup order -> NoDup (taken P order).
Proof. rewrite !NoDup_ListNoDup. apply List.NoDup_filter. Qed.

Lemma taken_perm P o o' : o ≡ₚ o' -> taken P o ≡ₚ taken P o'.
Proof.
  induction 1 as [|x o o' Hp IH|x y o|o1 o2 o3 H1 IH1 H2 IH2]; [done|..].
  - rewrite !taken_cons. destruct (P x); [by constructor|done].
  - rewrite !taken_cons. destruct (P x), (P y); try done. constructor.
  - by etrans.
Qed.

Lemma count_slots_spec P order n : count_slots P order n = n + Z.of_nat (length (taken P order)).
Proof.
  revert n. induction order as [|i order IH]; intros n; cbn [count_slots]; [cbn; lia|]. rewrite IH, taken_cons. destruct (P i); cbn; lia.
Qed.

Lemma number_slots_spec P order n numbers : NoDup order -> Forall (fun i => (i < length numbers)%nat) order ->
  let '(n', numbers') := number_slots P order n numbers in
  n' = n + Z.of_nat (length (taken P order)) /\ length numbers' = length numbers /\
  (forall k i, taken P order !! k = Some i -> numbers' !! i = Some (n + Z.of_nat k)) /\
  (forall i, i ∉ taken P order -> numbers' !! i = numbers !! i).
Proof.
  revert n numbers. induction order as [|j order IH]; intros n numbers Hnd Hlt; cbn [number_slots].
  - split_and!; [cbn; lia|done|done|done].
  - apply list.NoDup_cons in Hnd as [Hj Hnd]. apply Forall_cons in Hlt as [Hjl Hlt].
    assert (Hjt : j ∉ taken P order) by (rewrite elem_of_taken; tauto).
    rewrite taken_cons. destruct (P j) eqn:Ej.
    + specialize (IH (n + 1) (<[j := n]> numbers) Hnd). rewrite length_insert in IH. specialize (IH Hlt).
      destruct (number_slots _ _ _ _) as [n' numbers']. destruct IH as (-> & Hl & Hk & Hi). split_and!; [cbn; lia|done| |].
      * intros [|k] i Hki; cbn in Hki.
        -- injection Hki as <-. rewrite Hi, list_lookup_insert_eq by done. f_equal. lia.
        -- rewrite (Hk k i) by done. f_equal. lia.
      * intros i [Hne Hni]%not_elem_of_cons. by rewrite Hi, list_lookup_insert_ne.
    + specialize (IH n numbers Hnd Hlt). by destruct (number_slots _ _ _ _).
Qed.

Lemma collect_slots_spec P order n indices : 0 <= n -> (Z.to_nat n + length (taken P order) <= length indices)%nat ->
  let '(n', indices') := collect_slots P order n indices in
  n' = n + Z.of_nat (length (taken P order)) /\ length indices' = length indices /\
  (forall k, (k < length (taken P order))%nat -> indices' !! (Z.to_nat n + k)%nat = taken P order !! k) /\
  (forall k, (k < Z.to_nat n)%nat -> indices' !! k = indices !! k).
Proof.
  revert n indices. induction order as [|j order IH]; intros n indices Hn Hlen; cbn [collect_slots].
  - split_and!; [cbn; lia|done|cbn; lia|done].
  - rewrite taken_cons in *. destruct (P j) eqn:Ej.
    + cbn [length] in Hlen. specialize (IH (n + 1) (<[Z.to_nat n := j]> indices) ltac:(lia)). rewrite length_insert in IH.
      specialize (IH ltac:(lia)). destruct (collect_slots _ _ _ _) as [n' indices']. destruct IH as (-> & Hl & Hk & Hi).
      split_and!; [cbn; lia|done| |].
      * intros [|k] Hlt; cbn [length] in Hlt.
        -- rewrite Nat.add_0_r, Hi by lia. apply list_lookup_insert_eq. lia.
        -- change ((j :: taken P order) !! S k) with (taken P order !! k). rewrite <-Hk by lia. f_equal. lia.
      * intros k Hlt. rewrite Hi by lia. apply list_lookup_insert_ne. lia.
    + specialize (IH n indices Hn Hlen). by destruct (collect_slots _ _ _ _).
Qed.

Section slots.
Context {A : Type}.
#[local] Abbreviation heap := (gmap Z (Frame (A := A))).
Implicit Types h : heap.

(** ** Slots *)

(** The access of a slot through a frame pointer; none is a bad pointer or a slot outside the frame. *)
Definition read_slot (h : heap) (p : Z) (i : nat) : option (box_slot (A := A)) := f ← h !! p; particles f !! i.
Definition write_slot (h : heap) (p : Z) (i : nat) (s : box_slot) : option heap :=
  f ← h !! p; _ ← particles f !! i; Some (<[p := mkFrame (<[i := s]> (particles f)) (previousFrame f) (nextFrame f)]> h).

(** Is [multiMask] of a slot of the frame at [p] the given value? *)
Definition mask_is (m : Z) (f : Frame (A := A)) (i : nat) : bool :=
  match particles f !! i with Some s => multiMask s =? m | None => false end.

(** A particle is copied into a gap, which is enabled, and the particle it came from is disabled. *)
Definition move_particle (h : heap) (src dst : Z * nat) : option heap :=
  s ← read_slot h src.1 src.2;
  h ← write_slot h dst.1 dst.2 (mkBoxSlot 1 (attributes s));
  write_slot h src.1 src.2 (mkBoxSlot 0 (attributes s)).

Fixpoint run_moves (h : heap) (moves : list ((Z * nat) * (Z * nat))) : option heap :=
  match moves with
  | [] => Some h
  | (src, dst) :: moves => h ← move_particle h src dst; run_moves h moves
  end.

(** ** What frames hold *)

Definition live (h : heap) (l : Z * nat) : bool :=
  match read_slot h l.1 l.2 with Some s => negb (multiMask s =? 0) | None => false end.
Definition live_of (l : list (box_slot (A := A))) : list A := omap (fun s => if multiMask s =? 0 then None else Some (attributes s)) l.
Definition live_frames (h : heap) (ps : list Z) : list A :=
  ps ≫= fun p => match h !! p with Some f => live_of (particles f) | None => [] end.

(** Frames of [frameSize] slots with masks of a kind, and with the masks 0 and 1. *)
Definition frames_in (M : Z -> Prop) (frameSize : nat) (h : heap) (ps : list Z) : Prop :=
  NoDup ps /\ forall p, p ∈ ps -> exists f, h !! p = Some f /\ length (particles f) = frameSize /\
    Forall (fun s => M (multiMask s)) (particles f).
Definition zero_one (m : Z) : Prop := m = 0 \/ m = 1.
Definition frames_ok := frames_in zero_one.

(** The links of the frames are as they were. *)
Definition links_of (f : Frame (A := A)) : Z * Z := (previousFrame f, nextFrame f).
Definition same_links (h h' : heap) : Prop := forall p, links_of <$> h' !! p = links_of <$> h !! p.

Lemma same_links_trans h1 h2 h3 : same_links h1 h2 -> same_links h2 h3 -> same_links h1 h3.
Proof. intros H1 H2 p. by rewrite H2, H1. Qed.

Lemma linked_same_links h h' c ps : same_links h h' -> linked_frames h c ps -> linked_frames h' c ps.
Proof.
  intros Hs (Hnd & Hf & Hl & Hn). split_and!; [done..|]. intros i p Hi. destruct (Hn i p Hi) as (f & Hf' & Hnx & Hpv).
  specialize (Hs p). rewrite Hf' in Hs. destruct (h' !! p) as [f'|]; [|done]. cbn in Hs. injection Hs as Hs1 Hs2.
  exists f'. split; [done|]. by rewrite Hs1, Hs2.
Qed.

Lemma write_slot_spec h p i s s0 : read_slot h p i = Some s0 -> exists h', write_slot h p i s = Some h' /\
  same_links h h' /\ (forall q, q <> p -> h' !! q = h !! q) /\
  (forall f, h !! p = Some f -> exists f', h' !! p = Some f' /\ particles f' = <[i := s]> (particles f)).
Proof.
  unfold read_slot, write_slot. intros Hr. destruct (h !! p) as [f|] eqn:Hf; [|done]. cbn in Hr |- *. rewrite Hr. cbn. eexists. split; [done|].
  split_and!.
  - intros q. destruct (decide (q = p)) as [->|]; [by rewrite lookup_insert_eq, Hf|by rewrite lookup_insert_ne].
  - intros q Hq. by rewrite lookup_insert_ne.
  - intros f0 [= <-]. eexists. rewrite lookup_insert_eq. done.
Qed.

Lemma read_write h p i s h' q j : write_slot h p i s = Some h' ->
  read_slot h' q j = if decide ((q, j) = (p, i)) then Some s else read_slot h q j.
Proof.
  unfold read_slot, write_slot. destruct (h !! p) as [f|] eqn:Hf; [|done]. cbn. destruct (particles f !! i) as [s0|] eqn:Hi; [|done].
  cbn. intros [= <-]. destruct (decide (q = p)) as [->|Hq].
  - rewrite lookup_insert_eq, Hf. cbn. destruct (decide ((p, j) = (p, i))) as [[= ->]|Hj].
    + apply list_lookup_insert_eq. by eapply lookup_lt_Some.
    + apply list_lookup_insert_ne. congruence.
  - rewrite lookup_insert_ne by done. by rewrite decide_False by congruence.
Qed.

Definition held (s : box_slot (A := A)) : list A := if multiMask s =? 0 then [] else [attributes s].

Lemma live_of_app l r : live_of (l ++ r) = live_of l ++ live_of r.
Proof. apply omap_app. Qed.

Lemma live_of_cons s l : live_of (s :: l) = held s ++ live_of l.
Proof. unfold live_of, held. cbn. by destruct (multiMask s =? 0). Qed.

Lemma live_of_insert l i s s0 : l !! i = Some s0 -> held s0 ++ live_of (<[i := s]> l) ≡ₚ held s ++ live_of l.
Proof.
  intros Hi. rewrite <-(take_drop_middle l i s0 Hi) at 2. rewrite (insert_take_drop l i s) by (by eapply lookup_lt_Some).
  rewrite !live_of_app, !live_of_cons. solve_Permutation.
Qed.

Lemma live_frames_cons h p ps : live_frames h (p :: ps) = match h !! p with Some f => live_of (particles f) | None => [] end ++ live_frames h ps.
Proof. done. Qed.

Lemma live_frames_app h ps qs : live_frames h (ps ++ qs) = live_frames h ps ++ live_frames h qs.
Proof. unfold live_frames. apply bind_app. Qed.

Lemma live_frames_ext h h' ps : (forall p, p ∈ ps -> h' !! p = h !! p) -> live_frames h' ps = live_frames h ps.
Proof.
  induction ps as [|p ps IH]; intros He; [done|]. rewrite !live_frames_cons, He by left. f_equal. apply IH. intros q Hq. apply He. by right.
Qed.

(** A slot written in one of the frames. *)
Lemma live_frames_write h p i s s0 h' ps : NoDup ps -> p ∈ ps -> read_slot h p i = Some s0 -> write_slot h p i s = Some h' ->
  held s0 ++ live_frames h' ps ≡ₚ held s ++ live_frames h ps.
Proof.
  intros Hnd Hp Hr Hw. destruct (write_slot_spec h p i s s0 Hr) as (h1 & Hw1 & _ & Hne & Hf). assert (h1 = h') as -> by congruence.
  apply list_elem_of_split in Hp as (l & r & ->). apply list.NoDup_app in Hnd as (_ & Hl & [Hpr _]%list.NoDup_cons).
  rewrite !live_frames_app, !live_frames_cons. rewrite (live_frames_ext h h' l), (live_frames_ext h h' r).
  - unfold read_slot in Hr. destruct (h !! p) as [f|]; [|done]. destruct (Hf f eq_refl) as (f' & -> & ->).
    pose proof (live_of_insert (particles f) i s s0 Hr) as Hp. rewrite !(assoc_L (++)).
    rewrite (Permutation_app_comm (held s0)), (Permutation_app_comm (held s)), <-!(assoc_L (++)). by rewrite !(assoc_L (++) (held _)), Hp.
  - intros q Hq. apply Hne. by intros ->.
  - intros q Hq. apply Hne. intros ->. apply (Hl p Hq). by left.
Qed.

Lemma frames_in_slot M fs h ps p i : frames_in M fs h ps -> p ∈ ps -> (i < fs)%nat ->
  exists s, read_slot h p i = Some s /\ M (multiMask s).
Proof.
  intros [_ Hok] Hp Hi. destruct (Hok p Hp) as (f & Hf & Hl & Hm). unfold read_slot. rewrite Hf. cbn.
  destruct (lookup_lt_is_Some_2 (particles f) i) as [s Hs]; [lia|]. exists s. split; [done|]. by eapply Forall_lookup_1 in Hm.
Qed.

Lemma frames_in_bound M fs h ps p i s : frames_in M fs h ps -> p ∈ ps -> read_slot h p i = Some s -> (i < fs)%nat.
Proof.
  intros [_ Hok] Hp. destruct (Hok p Hp) as (f & Hf & <- & _). unfold read_slot. rewrite Hf. cbn. apply lookup_lt_Some.
Qed.

Lemma frames_in_write M fs h ps p i s h' : frames_in M fs h ps -> write_slot h p i s = Some h' -> M (multiMask s) ->
  frames_in M fs h' ps.
Proof.
  intros [Hnd Hok] Hw Hs. split; [done|]. intros q Hq. destruct (Hok q Hq) as (f & Hf & Hl & Hm). unfold write_slot in Hw.
  destruct (h !! p) as [g|] eqn:Hg; [|done]. cbn in Hw. destruct (particles g !! i) as [s0|]; [|done]. injection Hw as <-.
  destruct (decide (q = p)) as [->|Hne]; [|rewrite lookup_insert_ne by done; by exists f].
  rewrite lookup_insert_eq. eexists. split; [done|]. cbn. assert (g = f) as -> by congruence. split; [by rewrite length_insert|].
  by apply Forall_insert.
Qed.

Lemma live_read h l : live h l = true <-> exists s, read_slot h l.1 l.2 = Some s /\ multiMask s <> 0.
Proof.
  unfold live. destruct (read_slot h l.1 l.2) as [s|]; [|naive_solver]. rewrite negb_true_iff, Z.eqb_neq. naive_solver.
Qed.

Lemma live_write h p i s h' l : write_slot h p i s = Some h' ->
  live h' l = if decide (l = (p, i)) then negb (multiMask s =? 0) else live h l.
Proof. intros Hw. unfold live. destruct l as [q j]. cbn. rewrite (read_write _ _ _ _ _ _ _ Hw). by destruct (decide _). Qed.

Lemma move_particle_spec M fs h ps src dst : M 0 -> M 1 -> frames_in M fs h ps -> src.1 ∈ ps -> dst.1 ∈ ps -> (dst.2 < fs)%nat ->
  live h src = true -> live h dst = false ->
  exists h', move_particle h src dst = Some h' /\ frames_in M fs h' ps /\ same_links h h' /\
    live_frames h' ps ≡ₚ live_frames h ps /\
    (forall l, live h' l = if decide (l = dst) then true else if decide (l = src) then false else live h l) /\
    (forall q, q <> src.1 -> q <> dst.1 -> h' !! q = h !! q).
Proof.
  intros HM0 HM1 Hok Hsp Hdp Hdi Hs Hd. destruct src as [p i], dst as [q j]. cbn in *.
  assert (Hne : (p, i) <> (q, j)) by (intros E; congruence).
  apply live_read in Hs as (s & Hs & Hm). cbn in Hs. destruct (frames_in_slot M fs h ps q j Hok Hdp Hdi) as (t & Ht & _).
  assert (Htm : multiMask t = 0). { unfold live in Hd. cbn in Hd. rewrite Ht in Hd. by apply negb_false_iff, Z.eqb_eq in Hd. }
  unfold move_particle. cbn. rewrite Hs. cbn [mbind option_bind].
  destruct (write_slot_spec h q j (mkBoxSlot 1 (attributes s)) t Ht) as (h1 & Hw1 & Hl1 & Hn1 & _). rewrite Hw1. cbn [mbind option_bind].
  assert (Hs1 : read_slot h1 p i = Some s) by (by rewrite (read_write _ _ _ _ _ _ _ Hw1), decide_False).
  destruct (write_slot_spec h1 p i (mkBoxSlot 0 (attributes s)) s Hs1) as (h2 & Hw2 & Hl2 & Hn2 & _). rewrite Hw2.
  assert (Hok1 : frames_in M fs h1 ps) by (by eapply frames_in_write).
  exists h2. split; [done|]. split_and!; [by eapply frames_in_write|by eapply same_links_trans| | |].
  - pose proof (live_frames_write h q j _ t h1 ps (proj1 Hok) Hdp Ht Hw1) as H1.
    pose proof (live_frames_write h1 p i _ s h2 ps (proj1 Hok) Hsp Hs1 Hw2) as H2.
    unfold held in H1, H2. rewrite Htm in H1. apply Z.eqb_neq in Hm. rewrite Hm in H2. cbn in H1, H2.
    rewrite H1 in H2. by apply Permutation_cons_inv in H2.
  - intros l. rewrite (live_write _ _ _ _ _ _ Hw2), (live_write _ _ _ _ _ _ Hw1). cbn.
    destruct (decide (l = (q, j))) as [->|]; [by rewrite decide_False|done].
  - intros r Hr1 Hr2. by rewrite Hn2, Hn1.
Qed.

(** Moves between distinct slots, from live ones to gaps. *)
Lemma run_moves_spec M fs ps moves h : M 0 -> M 1 -> frames_in M fs h ps -> NoDup (map fst moves) -> NoDup (map snd moves) ->
  (forall src dst, (src, dst) ∈ moves -> src.1 ∈ ps /\ dst.1 ∈ ps /\ (dst.2 < fs)%nat /\ live h src = true /\ live h dst = false) ->
  exists h', run_moves h moves = Some h' /\ frames_in M fs h' ps /\ same_links h h' /\ live_frames h' ps ≡ₚ live_frames h ps /\
    (forall l, live h' l = if decide (l ∈ map snd moves) then true else if decide (l ∈ map fst moves) then false else live h l) /\
    (forall q, (forall src dst, (src, dst) ∈ moves -> q <> src.1 /\ q <> dst.1) -> h' !! q = h !! q).
Proof.
  intros HM0 HM1. revert h. induction moves as [|[src dst] moves IH]; intros h Hok Hns Hnd Hm.
  - exists h. split_and!; [done..| |done]. intros l. by rewrite !decide_False by (by intros ?%elem_of_nil).
  - cbn [map fst snd] in Hns, Hnd. apply list.NoDup_cons in Hns as [Hns0 Hns], Hnd as [Hnd0 Hnd].
    destruct (Hm src dst) as (Hsp & Hdp & Hdi & Hls & Hld); [by left|].
    destruct (move_particle_spec M fs h ps src dst HM0 HM1 Hok Hsp Hdp Hdi Hls Hld) as (h1 & Hh1 & Hok1 & Hl1 & Hp1 & Hlv1 & Hn1).
    assert (Hsd : src <> dst) by (intros ->; congruence).
    destruct (IH h1 Hok1 Hns Hnd) as (h2 & Hh2 & Hok2 & Hl2 & Hp2 & Hlv2 & Hn2).
    { intros s d Hin. destruct (Hm s d) as (H1 & H2 & H3 & H4 & H5); [by right|]. split_and!; [done..| |].
      - rewrite Hlv1. destruct (decide (s = dst)) as [->|]; [done|]. rewrite decide_False; [done|]. intros ->. apply Hns0.
        apply list_elem_of_fmap. by exists (src, d).
      - rewrite Hlv1. rewrite decide_False. { by destruct (decide (d = src)). } intros ->. apply Hnd0. apply list_elem_of_fmap. by exists (s, dst). }
    exists h2. cbn [run_moves]. rewrite Hh1. cbn [mbind option_bind]. split_and!; [done..|by eapply same_links_trans|by rewrite Hp2| |].
    + intros l. rewrite Hlv2. cbn [map fst snd]. rewrite Hlv1.
      destruct (decide (l ∈ map snd moves)) as [Hin|Hin]; [by rewrite decide_True by (by right)|].
      destruct (decide (l = dst)) as [->|Hld2].
      * rewrite (decide_True (P := dst ∈ dst :: _)) by left. rewrite decide_False; [done|]. intros Hf.
        apply list_elem_of_fmap in Hf as ([s d] & Es & Hsd2). cbn in Es. subst s. destruct (Hm dst d) as (_ & _ & _ & H4 & _); [by right|]. congruence.
      * rewrite (decide_False (P := l ∈ dst :: _)) by (by intros [|]%elem_of_cons).
        destruct (decide (l ∈ map fst moves)); [by rewrite decide_True by (by right)|].
        destruct (decide (l = src)) as [->|]; [by rewrite decide_True by left|]. by rewrite decide_False by (by intros [|]%elem_of_cons).
    + intros q Hq. rewrite Hn2; [|intros s d Hin; apply Hq; by right]. destruct (Hq src dst) as [Hq1 Hq2]; [by left|]. by apply Hn1.
Qed.

(** What one move, and a list of moves, do to a slot. *)
Lemma move_particle_read h src dst h' s l : move_particle h src dst = Some h' -> read_slot h src.1 src.2 = Some s ->
  read_slot h' l.1 l.2 = if decide (l = src) then Some (mkBoxSlot 0 (attributes s)) else
    if decide (l = dst) then Some (mkBoxSlot 1 (attributes s)) else read_slot h l.1 l.2.
Proof.
  unfold move_particle. intros Hm Hs. rewrite Hs in Hm. cbn [mbind option_bind] in Hm. apply bind_Some in Hm as (h1 & H1 & H2).
  rewrite (read_write _ _ _ _ _ _ _ H2), (read_write _ _ _ _ _ _ _ H1). destruct l as [p i], src as [q j], dst as [r k]. cbn.
  by repeat destruct (decide _).
Qed.

Definition attribute_at h (l : Z * nat) : option A := attributes <$> read_slot h l.1 l.2.

Lemma run_moves_read moves h h' : run_moves h moves = Some h' -> NoDup (map fst moves) -> NoDup (map snd moves) ->
  (forall l, l ∈ map fst moves -> l ∉ map snd moves) ->
  forall l, (forall src, (src, l) ∈ moves -> exists a, attribute_at h src = Some a /\ read_slot h' l.1 l.2 = Some (mkBoxSlot 1 a)) /\
    (l ∈ map fst moves -> exists a, attribute_at h l = Some a /\ read_slot h' l.1 l.2 = Some (mkBoxSlot 0 a)) /\
    (l ∉ map fst moves -> l ∉ map snd moves -> read_slot h' l.1 l.2 = read_slot h l.1 l.2).
Proof.
  revert h. induction moves as [|[src dst] moves IH]; intros h Hr Hns Hnd Hd l.
  { injection Hr as <-. split_and!; [by intros ? ?%elem_of_nil|by intros ?%elem_of_nil|done]. }
  cbn [run_moves] in Hr. apply bind_Some in Hr as (h1 & Hm & Hr). cbn [map fst snd] in *.
  apply list.NoDup_cons in Hns as [Hns0 Hns], Hnd as [Hnd0 Hnd].
  assert (Hs : exists s, read_slot h src.1 src.2 = Some s). { unfold move_particle in Hm. apply bind_Some in Hm as (s & Hs & _). by exists s. }
  destruct Hs as [s Hs]. pose proof (fun l => move_particle_read h src dst h1 s l Hm Hs) as Hrd.
  assert (Hd' : forall l, l ∈ map fst moves -> l ∉ map snd moves) by (intros x Hx Hy; apply (Hd x); by right).
  assert (Hfst : forall x y, (x, y) ∈ moves -> x ∈ map fst moves) by (intros x y Hx; apply list_elem_of_fmap; by exists (x, y)).
  assert (Hsnd : forall x y, (x, y) ∈ moves -> y ∈ map snd moves) by (intros x y Hx; apply list_elem_of_fmap; by exists (x, y)).
  assert (Hat : forall x, x ∈ map fst moves -> attribute_at h1 x = attribute_at h x).
  { intros x Hx. unfold attribute_at. rewrite Hrd. rewrite decide_False by (intros ->; done). rewrite decide_False; [done|]. intros ->.
    apply (Hd dst); [by right|by left]. }
  specialize (IH h1 Hr Hns Hnd Hd' l) as (I1 & I2 & I3). split_and!.
  - intros x [[= -> ->]|Hx]%elem_of_cons.
    + exists (attributes s). split; [unfold attribute_at; by rewrite Hs|]. rewrite I3; [|intros Hin; apply (Hd dst); [by right|by left]|done].
      rewrite Hrd. rewrite decide_False; [by rewrite decide_True|]. intros ->. apply (Hd src); by left.
    + destruct (I1 x Hx) as (a & Ha & Hl). exists a. split; [|done]. by rewrite <-Hat by (by eapply Hfst).
  - intros [->|Hx]%elem_of_cons.
    + exists (attributes s). split; [unfold attribute_at; by rewrite Hs|]. rewrite I3; [|done|intros Hin; apply (Hd src); [by left|by right]].
      rewrite Hrd. by rewrite decide_True.
    + destruct (I2 Hx) as (a & Ha & Hl). exists a. split; [|done]. by rewrite <-Hat.
  - intros [H1 H2]%not_elem_of_cons [H3 H4]%not_elem_of_cons. rewrite I3 by done. by rewrite Hrd, decide_False, decide_False.
Qed.

(** The particles that come to frames none leaves. *)
Lemma run_moves_into moves h h' qs : run_moves h moves = Some h' -> NoDup (map fst moves) -> NoDup (map snd moves) ->
  (forall l, l ∈ map fst moves -> l ∉ map snd moves) -> NoDup qs -> (forall src dst, (src, dst) ∈ moves -> src.1 ∉ qs /\ live h dst = false) ->
  live_frames h' qs ≡ₚ omap (fun m => if bool_decide (m.2.1 ∈ qs) then attribute_at h m.1 else None) moves ++ live_frames h qs.
Proof.
  intros Hr Hns Hnd Hd Hq. revert h Hr. induction moves as [|[src dst] moves IH]; intros h Hr Hm; [by injection Hr as ->|].
  cbn [run_moves] in Hr. apply bind_Some in Hr as (h1 & Hm1 & Hr). cbn [map fst snd] in *.
  apply list.NoDup_cons in Hns as [Hns0 Hns], Hnd as [Hnd0 Hnd].
  assert (Hs : exists s, read_slot h src.1 src.2 = Some s). { unfold move_particle in Hm1. apply bind_Some in Hm1 as (s & Hs & _). by exists s. }
  destruct Hs as [s Hs]. pose proof (fun l => move_particle_read h src dst h1 s l Hm1 Hs) as Hrd.
  assert (Hne : src <> dst) by (intros ->; apply (Hd dst); by left).
  rewrite IH; [|done|done|by intros x Hx Hy; apply (Hd x); by right|done|].
  - destruct (Hm src dst) as [Hsq Hdl]; [by left|].
    assert (E : omap (fun m => if bool_decide (m.2.1 ∈ qs) then attribute_at h1 m.1 else None) moves =
                omap (fun m => if bool_decide (m.2.1 ∈ qs) then attribute_at h m.1 else None) moves).
    { apply list_omap_ext, Forall2_same_length_lookup_2; [done|]. intros i [x y] m Hi Hj. simplify_eq. cbn. destruct (bool_decide _); [|done].
      assert (Hx : x ∈ map fst moves) by (apply list_elem_of_fmap; exists (x, y); split; [done|by eapply list_elem_of_lookup_2]).
      unfold attribute_at. rewrite Hrd. rewrite decide_False by (intros ->; done). rewrite decide_False; [done|]. intros ->. apply (Hd dst); [by right|by left]. }
    rewrite E. cbn [omap list_omap fst snd]. unfold move_particle in Hm1. rewrite Hs in Hm1. cbn [mbind option_bind] in Hm1.
    apply bind_Some in Hm1 as (h0 & Hw1 & Hw2).
    assert (Hlf : live_frames h1 qs = live_frames h0 qs).
    { apply live_frames_ext. intros p Hp. unfold write_slot in Hw2. destruct (h0 !! src.1) as [g|]; [|done]. cbn in Hw2.
      destruct (particles g !! src.2); [|done]. injection Hw2 as <-. rewrite lookup_insert_ne; [done|]. by intros <-. }
    rewrite Hlf. case_bool_decide as Hin.
    + unfold attribute_at at 2. rewrite Hs. cbn. rewrite Permutation_middle. f_equiv.
      unfold live in Hdl. destruct (read_slot h dst.1 dst.2) as [t|] eqn:Ht; [|by unfold read_slot in Ht; unfold write_slot in Hw1; destruct (h !! dst.1); [cbn in Hw1, Ht; rewrite Ht in Hw1|]].
      pose proof (live_frames_write h dst.1 dst.2 _ t h0 qs Hq Hin Ht Hw1) as Hp. unfold held in Hp. apply negb_false_iff in Hdl. rewrite Hdl in Hp. exact Hp.
    + rewrite (live_frames_ext h h0); [done|]. intros p Hp. unfold write_slot in Hw1. destruct (h !! dst.1) as [g|]; [|done]. cbn in Hw1.
      destruct (particles g !! dst.2); [|done]. injection Hw1 as <-. rewrite lookup_insert_ne; [done|]. by intros <-.
  - intros x y Hx. destruct (Hm x y) as [H1 H2]; [by right|]. split; [done|]. unfold live. rewrite Hrd.
    rewrite decide_False. 2: { intros ->. apply (Hd src); [by left|]. right. apply list_elem_of_fmap. by exists (x, src). }
    rewrite decide_False; [exact H2|]. intros ->. apply Hnd0. apply list_elem_of_fmap. by exists (x, dst).
Qed.

(** ** Frames as a whole *)

Definition full (frameSize : nat) (h : heap) (p : Z) : Prop := forall i, (i < frameSize)%nat -> live h (p, i) = true.
Definition prefix_live (frameSize n : nat) (h : heap) (p : Z) : Prop := forall i, (i < frameSize)%nat -> live h (p, i) = bool_decide (i < n)%nat.

(** All frames but the last are full, and the last holds its particles in front. *)
Definition packed (frameSize : nat) (h : heap) (ps : list Z) : Prop :=
  forall k p, ps !! k = Some p ->
    if decide (S k < length ps)%nat then full frameSize h p else exists n, (0 < n <= frameSize)%nat /\ prefix_live frameSize n h p.

Lemma live_of_length (l : list (box_slot (A := A))) :
  length (live_of l) = length (taken (fun i => match l !! i with Some s => negb (multiMask s =? 0) | None => false end) (seq 0 (length l))).
Proof.
  induction l as [|s l IH] using rev_ind; [done|]. rewrite live_of_app, length_app, IH, length_app, Nat.add_1_r, seq_S.
  unfold taken. rewrite List.filter_app, length_app. f_equal.
  - f_equal. apply filter_ext_in. intros i Hi%in_seq. rewrite lookup_app_l; [done|lia].
  - cbn. rewrite list_lookup_middle by done. unfold live_of. cbn. by destruct (multiMask s =? 0).
Qed.

(** What holds of frames depends on their particles. *)
Definition particles_kept (h h' : heap) (ps : list Z) : Prop := forall p, p ∈ ps -> particles <$> h' !! p = particles <$> h !! p.

Lemma frames_in_kept M fs h h' ps : particles_kept h h' ps -> frames_in M fs h ps -> frames_in M fs h' ps.
Proof.
  intros Hk [Hnd Hok]. split; [done|]. intros p Hp. destruct (Hok p Hp) as (f & Hf & Hl & Hm). specialize (Hk p Hp). rewrite Hf in Hk.
  destruct (h' !! p) as [f'|]; [|done]. injection Hk as Hk. exists f'. by rewrite Hk.
Qed.

Lemma live_frames_kept h h' ps : particles_kept h h' ps -> live_frames h' ps = live_frames h ps.
Proof.
  induction ps as [|p ps IH]; intros Hk; [done|]. rewrite !live_frames_cons, IH by (intros q Hq; apply Hk; by right). f_equal.
  specialize (Hk p (list_elem_of_here _ _)). destruct (h' !! p), (h !! p); try done. by injection Hk as ->.
Qed.

Lemma live_kept h h' ps p i : particles_kept h h' ps -> p ∈ ps -> live h' (p, i) = live h (p, i).
Proof.
  intros Hk Hp. specialize (Hk p Hp). unfold live, read_slot. cbn. destruct (h' !! p), (h !! p); try done. cbn. by injection Hk as ->.
Qed.

Lemma frames_ok_take fs h ps n : frames_ok fs h ps -> frames_ok fs h (take n ps).
Proof.
  intros [Hnd Hok]. split.
  - rewrite <-(take_drop n ps) in Hnd. by apply list.NoDup_app in Hnd as [? _].
  - intros p Hp. apply Hok. rewrite <-(take_drop n ps). apply elem_of_app. by left.
Qed.

Lemma live_mask (f : Frame (A := A)) h p i : h !! p = Some f -> (i < length (particles f))%nat -> live h (p, i) = negb (mask_is 0 f i).
Proof.
  intros Hf Hi. unfold live, read_slot, mask_is. cbn. rewrite Hf. cbn. by destruct (lookup_lt_is_Some_2 _ _ Hi) as [s ->].
Qed.

Lemma live_mask_1 fs h ps p f i : frames_ok fs h ps -> p ∈ ps -> h !! p = Some f -> live h (p, i) = mask_is 1 f i.
Proof.
  intros [_ Hok] Hp Hf. destruct (Hok p Hp) as (f' & Hf' & _ & Hm). assert (f' = f) as -> by congruence.
  unfold live, read_slot, mask_is. cbn. rewrite Hf. cbn. destruct (particles f !! i) as [s|] eqn:Hs; [|done].
  eapply Forall_lookup_1 in Hm as [H|H]; [| |exact Hs]; by rewrite H.
Qed.

Lemma frame_live_count fs h ps p f : frames_ok fs h ps -> p ∈ ps -> h !! p = Some f ->
  length (live_of (particles f)) = length (taken (fun i => live h (p, i)) (seq 0 fs)).
Proof.
  intros [_ Hok] Hp Hf. destruct (Hok p Hp) as (f' & Hf' & <- & _). assert (f' = f) as -> by congruence.
  rewrite live_of_length. f_equal. apply filter_ext_in. intros i _. unfold live, read_slot. cbn. by rewrite Hf.
Qed.

Lemma taken_true P l : (forall i, i ∈ l -> P i = true) -> taken P l = l.
Proof. intros H. unfold taken. apply forallb_filter_id, forallb_forall. intros i Hi. by apply H, list_elem_of_In. Qed.
Lemma taken_false P l : (forall i, i ∈ l -> P i = false) -> taken P l = [].
Proof. intros H. induction l as [|i l IH]; [done|]. rewrite taken_cons, H by left. apply IH. intros j Hj. apply H. by right. Qed.

(** The particles of full frames. *)
Lemma full_count fs h ps : frames_ok fs h ps -> (forall p, p ∈ ps -> full fs h p) -> length (live_frames h ps) = (length ps * fs)%nat.
Proof.
  intros Hok Hf. assert (H : forall qs, qs ⊆ ps -> length (live_frames h qs) = (length qs * fs)%nat); [|by apply H].
  induction qs as [|q qs IH]; intros Hq; [done|]. rewrite live_frames_cons, length_app, IH by (by etrans; [|exact Hq]; apply list_subseteq_cons).
  assert (Hin : q ∈ ps) by (apply Hq; by left). destruct (proj2 Hok q Hin) as (f & Hfq & _). rewrite Hfq, (frame_live_count fs h ps q f Hok Hin Hfq).
  rewrite taken_true; [rewrite length_seq; cbn; lia|]. intros i Hi. apply Hf; [done|]. apply elem_of_seq in Hi. lia.
Qed.
End slots.
