(* ===== verification/FillGaps.v ===== *)
(** * Filling the gaps of a supercell

    Models [KernelFillGaps], [KernelFillGapsLastFrame], [KernelDeleteParticles] and
    [getPreviousFrameAndRemoveLastFrame] of pmacc/particles/ParticlesBase.kernel, for the block that works on
    one supercell.  The phases between two synchronisations are carried out slot by slot, in an order that is a
    parameter of every phase; shared arrays start with arbitrary content. *)
From Stdlib Require Import ZArith Lia.
From stdpp Require Import base sets list numbers gmap.
From S2P Require Import Prelude Scalar Topology FrameList ParticlesBox FrameSlots.

Local Open Scope Z_scope.

Section kernels.
Context {A : Type} (frameSize : nat).
#[local] Abbreviation heap := (gmap Z (Frame (A := A))).
Implicit Types h : heap.

Definition getPreviousFrameAndRemoveLastFrame (h : heap) (c : SuperCell) (frame : Z) : option (Z * heap * SuperCell) :=
  result ← getPreviousFrame 0 h frame;
  '(_, h, c) ← removeLastFrame h c;
  Some (result, h, c).

(** ** The last frame *)

(** Every particle behind the first [numParticles] slots takes a gap. *)
Fixpoint fill_last (isParticle : nat -> bool) (numParticles : Z) (gapIndices : list nat) (lastFrame : Z) (order : list nat)
    (srcGap : Z) (h : heap) : option heap :=
  match order with
  | [] => Some h
  | idx :: order =>
      if (numParticles <=? Z.of_nat idx) && isParticle idx then
        gapIdx ← gapIndices !! Z.to_nat srcGap;
        h ← move_particle h (lastFrame, idx) (lastFrame, gapIdx);
        fill_last isParticle numParticles gapIndices lastFrame order (srcGap + 1) h
      else fill_last isParticle numParticles gapIndices lastFrame order srcGap h
  end.

Definition KernelFillGapsLastFrame (order : nat -> list nat) (shared : list nat) (h : heap) (c : SuperCell) : option (heap * SuperCell) :=
  let lastFrame := getLastFrame 0 c in
  '(numParticles, h) ←
    (if lastFrame =? 0 then Some (0, h)
     else
       f ← h !! lastFrame;
       let isParticle := fun idx => negb (mask_is 0 f idx) in
       let numParticles := count_slots isParticle (order 0%nat) 0 in
       let '(_, gapIndices_sh) :=
         collect_slots (fun idx => (Z.of_nat idx <? numParticles) && negb (isParticle idx)) (order 1%nat) 0 shared in
       h ← fill_last isParticle numParticles gapIndices_sh lastFrame (order 2%nat) 0 h;
       Some (numParticles, h));
  if negb (numParticles =? 0) then Some (h, setNumParticles (u32 (getNumParticles c + numParticles)) c)
  else '(_, h, c) ← removeLastFrame h c; Some (h, c).

(** ** All frames *)

(** Every gap of the first frame with a number below the number of particles takes the particle with its number. *)
Fixpoint fill_first (localGapIdx : list Z) (numParticles : Z) (particleIndices : list nat) (firstFrame lastFrame : Z)
    (order : list nat) (h : heap) : option heap :=
  match order with
  | [] => Some h
  | idx :: order =>
      gap ← localGapIdx !! idx;
      if gap <? numParticles then
        parIdx ← particleIndices !! Z.to_nat gap;
        h ← move_particle h (lastFrame, parIdx) (firstFrame, idx);
        fill_first localGapIdx numParticles particleIndices firstFrame lastFrame order h
      else fill_first localGapIdx numParticles particleIndices firstFrame lastFrame order h
  end.

(** What the block keeps in its loop. *)
Record fill_state : Type := mkFill {
  firstFrame : Z;
  lastFrame : Z;
  fill_heap : heap;
  fill_cell : SuperCell;
  numParticlesPerSuperCell : Z
}.

Definition next_first (s : fill_state) : option fill_state :=
  next ← getNextFrame 0 (fill_heap s) (firstFrame s);
  Some (mkFill next (lastFrame s) (fill_heap s) (fill_cell s) (u32 (numParticlesPerSuperCell s + Z.of_nat frameSize))).

Definition remove_last (s : fill_state) : option fill_state :=
  '(prev, h, c) ← getPreviousFrameAndRemoveLastFrame (fill_heap s) (fill_cell s) (lastFrame s);
  Some (mkFill (firstFrame s) prev h c (numParticlesPerSuperCell s)).

(** One iteration of the loop. *)
Definition fill_step (order : nat -> list nat) (shared : list nat) (s : fill_state) : option fill_state :=
  ff ← fill_heap s !! firstFrame s;
  let '(numGaps, localGapIdx) := number_slots (mask_is 0 ff) (order 0%nat) 0 (replicate frameSize INV_LOC_IDX) in
  if negb (numGaps =? 0) then
    lf ← fill_heap s !! lastFrame s;
    let '(numParticles, particleIndices_sh) := collect_slots (mask_is 1 lf) (order 1%nat) 0 shared in
    h ← fill_first localGapIdx numParticles particleIndices_sh (firstFrame s) (lastFrame s) (order 2%nat) (fill_heap s);
    let s := mkFill (firstFrame s) (lastFrame s) h (fill_cell s) (numParticlesPerSuperCell s) in
    if numGaps <? numParticles then next_first s
    else if numParticles <? numGaps then remove_last s
    else s ← remove_last s;
         if negb (lastFrame s =? 0) && negb (lastFrame s =? firstFrame s) then next_first s else Some s
  else next_first s.

Fixpoint fill_loop (order : nat -> nat -> list nat) (shared : nat -> list nat) (fuel : nat) (s : fill_state) : option fill_state :=
  if (firstFrame s =? 0) || (firstFrame s =? lastFrame s) then Some s
  else match fuel with
    | O => None
    | S fuel => s ← fill_step (order fuel) (shared fuel) s; fill_loop order shared fuel s
    end.

Definition KernelFillGaps (order : nat -> nat -> list nat) (shared : nat -> list nat) (fuel : nat) (h : heap) (c : SuperCell) : option (heap * SuperCell) :=
  s ← fill_loop order shared fuel (mkFill (getFirstFrame 0 c) (getLastFrame 0 c) h c 0);
  KernelFillGapsLastFrame (order fuel) (shared fuel) (fill_heap s) (setNumParticles (numParticlesPerSuperCell s) (fill_cell s)).

(** ** Deletion *)

Fixpoint clear_slots (frame : Z) (order : list nat) (h : heap) : option heap :=
  match order with
  | [] => Some h
  | idx :: order => s ← read_slot h frame idx; h ← write_slot h frame idx (mkBoxSlot 0 (attributes s)); clear_slots frame order h
  end.

Fixpoint delete_loop (order : nat -> list nat) (fuel : nat) (frame : Z) (h : heap) (c : SuperCell) : option (heap * SuperCell) :=
  if frame =? 0 then Some (h, c)
  else match fuel with
    | O => None
    | S fuel =>
        h ← clear_slots frame (order fuel) h;
        '(frame, h, c) ← getPreviousFrameAndRemoveLastFrame h c frame;
        delete_loop order fuel frame h c
    end.

Definition KernelDeleteParticles (order : nat -> list nat) (fuel : nat) (h : heap) (c : SuperCell) : option (heap * SuperCell) :=
  '(h, c) ← delete_loop order fuel (getLastFrame 0 c) h c;
  Some (h, setNumParticles 0 c).

(** ** The copies of one iteration *)

Lemma mapPtr_device p : mapPtr 0 p = p.
Proof. unfold mapPtr. lia. Qed.

Definition slots_order (order : list nat) : Prop := order ≡ₚ seq 0 frameSize.

Lemma slots_order_in order i : slots_order order -> i ∈ order <-> (i < frameSize)%nat.
Proof. unfold slots_order. intros Ho. rewrite Ho, elem_of_seq. lia. Qed.

Lemma slots_order_NoDup order : slots_order order -> NoDup order.
Proof. unfold slots_order. intros Ho. rewrite Ho. apply NoDup_seq. Qed.

(** The moves of [fill_first]. *)
Definition first_moves (localGapIdx : list Z) (numParticles : Z) (particleIndices : list nat) (F L : Z) (order : list nat) : list ((Z * nat) * (Z * nat)) :=
  order ≫= fun idx =>
    match localGapIdx !! idx with
    | Some gap => if gap <? numParticles then match particleIndices !! Z.to_nat gap with Some j => [((L, j), (F, idx))] | None => [] end else []
    | None => []
    end.

Lemma fill_first_moves ctx n arr F L order h :
  (forall i, i ∈ order -> exists gap, ctx !! i = Some gap /\ (gap < n -> is_Some (arr !! Z.to_nat gap))) ->
  fill_first ctx n arr F L order h = run_moves h (first_moves ctx n arr F L order).
Proof.
  revert h. induction order as [|i order IH]; intros h Hc; [done|]. cbn [fill_first]. unfold first_moves. cbn [mbind list_bind].
  destruct (Hc i (list_elem_of_here _ _)) as (gap & Hi & Ha). rewrite Hi. cbn [mbind option_bind].
  assert (Hc' : forall j, j ∈ order -> exists gap, ctx !! j = Some gap /\ (gap < n -> is_Some (arr !! Z.to_nat gap))) by (intros j Hj; apply Hc; by right).
  destruct (Z.ltb_spec gap n) as [Hlt|Hge]; [|by apply IH]. destruct (Ha Hlt) as [j Hj]. rewrite Hj. cbn [mbind option_bind app run_moves].
  destruct (move_particle h (L, j) (F, i)); [|done]. cbn. by apply IH.
Qed.

Section copies.
Context (ctx : list Z) (n : Z) (arr : list nat) (G Q : list nat) (F L : Z) (order : list nat).
Context (HG : NoDup G) (HQ : NoDup Q) (Hn : n = Z.of_nat (length Q)) (Hn16 : n <= INV_LOC_IDX) (Horder : slots_order order).
Context (Hctx : forall k i, G !! k = Some i -> ctx !! i = Some (Z.of_nat k)).
Context (Hinv : forall i, i ∉ G -> (i < frameSize)%nat -> ctx !! i = Some INV_LOC_IDX).
Context (Harr : forall k, (k < length Q)%nat -> arr !! k = Q !! k).
Context (HGlt : forall i, i ∈ G -> (i < frameSize)%nat).

Lemma first_moves_defined i : i ∈ order -> exists gap, ctx !! i = Some gap /\ (gap < n -> is_Some (arr !! Z.to_nat gap)).
Proof.
  intros Hi. apply (slots_order_in _ _ Horder) in Hi. destruct (decide (i ∈ G)) as [[k Hk]%list_elem_of_lookup_1|Hni].
  - exists (Z.of_nat k). split; [by apply Hctx|]. intros Hlt. rewrite Nat2Z.id, Harr by lia. apply lookup_lt_is_Some_2. lia.
  - exists INV_LOC_IDX. split; [by apply Hinv|]. lia.
Qed.

Lemma elem_of_first_moves s d : (s, d) ∈ first_moves ctx n arr F L order <->
  exists k i j, G !! k = Some i /\ Q !! k = Some j /\ s = (L, j) /\ d = (F, i).
Proof.
  unfold first_moves. rewrite list_elem_of_bind. split.
  - intros (i & Hm & Hi). destruct (first_moves_defined i Hi) as (gap & Hg & Ha). rewrite Hg in Hm.
    destruct (Z.ltb_spec gap n) as [Hlt|]; [|by apply elem_of_nil in Hm]. destruct (Ha Hlt) as [j Hj]. rewrite Hj in Hm.
    apply list_elem_of_singleton in Hm as [= -> ->]. apply (slots_order_in _ _ Horder) in Hi.
    destruct (decide (i ∈ G)) as [[k Hk]%list_elem_of_lookup_1|Hni].
    + rewrite (Hctx k i Hk) in Hg. injection Hg as <-. rewrite Nat2Z.id, Harr in Hj by lia. by exists k, i, j.
    + rewrite Hinv in Hg by done. injection Hg as <-. lia.
  - intros (k & i & j & Hk & Hj & -> & ->). pose proof (lookup_lt_Some _ _ _ Hj) as Hlt. exists i. rewrite (Hctx k i Hk).
    destruct (Z.ltb_spec (Z.of_nat k) n); [|lia]. rewrite Nat2Z.id, Harr, Hj by lia. split; [by left|].
    apply (slots_order_in _ _ Horder), HGlt. by eapply list_elem_of_lookup_2.
Qed.

Lemma NoDup_first_moves : NoDup (first_moves ctx n arr F L order).
Proof.
  apply NoDup_bind; [| |by apply slots_order_NoDup].
  - intros i1 i2 [s d] _ _ H1 H2. destruct (ctx !! i1) as [g1|]; [|by apply elem_of_nil in H1]. destruct (ctx !! i2) as [g2|]; [|by apply elem_of_nil in H2].
    destruct (g1 <? n), (g2 <? n); try by apply elem_of_nil in H1. 2: by apply elem_of_nil in H2.
    destruct (arr !! Z.to_nat g1); [|by apply elem_of_nil in H1]. destruct (arr !! Z.to_nat g2); [|by apply elem_of_nil in H2].
    apply list_elem_of_singleton in H1 as [= -> ->]. apply list_elem_of_singleton in H2. congruence.
  - intros i _. destruct (ctx !! i) as [g|]; [|constructor]. destruct (g <? n); [|constructor]. destruct (arr !! _); [|constructor].
    apply list.NoDup_singleton.
Qed.

Lemma first_moves_distinct : NoDup (map fst (first_moves ctx n arr F L order)) /\ NoDup (map snd (first_moves ctx n arr F L order)).
Proof.
  split; (apply (NoDup_fmap_2_strong _ (first_moves ctx n arr F L order)); [|apply NoDup_first_moves]);
    intros [s1 d1] [s2 d2] (k1 & i1 & j1 & Hi1 & Hj1 & -> & ->)%elem_of_first_moves (k2 & i2 & j2 & Hi2 & Hj2 & -> & ->)%elem_of_first_moves E; injection E as ->.
  - assert (k1 = k2) as -> by (eapply (proj1 (NoDup_alt _) HQ); done). congruence.
  - assert (k1 = k2) as -> by (eapply (proj1 (NoDup_alt _) HG); done). congruence.
Qed.
End copies.

(** Gaps of the first frame are filled, and particles of the last are used up, as far as the other has any. *)
Lemma fill_phase h ps F L ff lf o0 o1 o2 shared : frames_ok frameSize h ps -> F ∈ ps -> L ∈ ps -> F <> L ->
  h !! F = Some ff -> h !! L = Some lf -> Z.of_nat frameSize <= INV_LOC_IDX ->
  slots_order o0 -> slots_order o1 -> slots_order o2 -> length shared = frameSize ->
  let G := taken (mask_is 0 ff) o0 in
  let Q := taken (mask_is 1 lf) o1 in
  exists ctx arr h', number_slots (mask_is 0 ff) o0 0 (replicate frameSize INV_LOC_IDX) = (Z.of_nat (length G), ctx) /\
    collect_slots (mask_is 1 lf) o1 0 shared = (Z.of_nat (length Q), arr) /\
    fill_first ctx (Z.of_nat (length Q)) arr F L o2 h = Some h' /\
    frames_ok frameSize h' ps /\ same_links h h' /\ live_frames h' ps ≡ₚ live_frames h ps /\
    (forall q, q <> F -> q <> L -> h' !! q = h !! q) /\
    ((length G <= length Q)%nat -> full frameSize h' F) /\
    ((length Q <= length G)%nat -> forall i, (i < frameSize)%nat -> live h' (L, i) = false).
Proof.
  intros Hok HF HL Hne Hff Hlf H16 H0 H1 H2 Hsh G Q.
  assert (HGnd : NoDup G) by (apply NoDup_taken, (slots_order_NoDup _ H0)).
  assert (HQnd : NoDup Q) by (apply NoDup_taken, (slots_order_NoDup _ H1)).
  assert (HQlen : (length Q <= frameSize)%nat).
  { unfold Q, taken. rewrite List.filter_length_le. unfold slots_order in H1. by rewrite H1, length_seq. }
  pose proof (number_slots_spec (mask_is 0 ff) o0 0 (replicate frameSize INV_LOC_IDX) (slots_order_NoDup _ H0)) as Hnum.
  rewrite length_replicate in Hnum. specialize (Hnum ltac:(apply list.Forall_forall; intros i Hi; by apply (slots_order_in _ _ H0))).
  destruct (number_slots _ _ _ _) as [numGaps ctx]. destruct Hnum as (-> & Hcl & Hck & Hci).
  pose proof (collect_slots_spec (mask_is 1 lf) o1 0 shared ltac:(lia)) as Hcol. specialize (Hcol ltac:(fold Q; rewrite Hsh; lia)).
  destruct (collect_slots _ _ _ _) as [numParticles arr]. destruct Hcol as (-> & _ & Harr & _).
  fold G in Hck, Hci |- *. fold Q in Harr |- *.
  assert (HGin : forall i, i ∈ G -> (i < frameSize)%nat /\ live h (F, i) = false).
  { intros i [Hm Hi]%elem_of_taken. apply (slots_order_in _ _ H0) in Hi. split; [done|]. destruct (proj2 Hok F HF) as (f & Hf & Hl & _).
    assert (f = ff) as -> by congruence. rewrite (live_mask ff h F i) by (done || lia). by rewrite Hm. }
  assert (HQin : forall j, j ∈ Q -> live h (L, j) = true).
  { intros j [Hm _]%elem_of_taken. by rewrite (live_mask_1 frameSize h ps L lf j). }
  assert (Hctx : forall k i, G !! k = Some i -> ctx !! i = Some (Z.of_nat k)) by (intros k i Hk; by rewrite (Hck k i Hk)).
  assert (Hinv : forall i, i ∉ G -> (i < frameSize)%nat -> ctx !! i = Some INV_LOC_IDX) by (intros i Hi Hlt; rewrite Hci by done; by apply lookup_replicate_2).
  assert (HGlt : forall i, i ∈ G -> (i < frameSize)%nat) by (intros i Hi; by apply HGin).
  set (n := Z.of_nat (length Q)). assert (Hn16 : n <= INV_LOC_IDX) by (unfold n; lia).
  pose proof (elem_of_first_moves ctx n arr G Q F L o2 eq_refl Hn16 H2 Hctx Hinv Harr HGlt) as Hel.
  destruct (first_moves_distinct ctx n arr G Q F L o2 HGnd HQnd eq_refl Hn16 H2 Hctx Hinv Harr HGlt) as [Hd1 Hd2].
  destruct (run_moves_spec zero_one frameSize ps (first_moves ctx n arr F L o2) h (or_introl eq_refl) (or_intror eq_refl) Hok Hd1 Hd2) as (h' & Hrun & Hok' & Hli & Hpe & Hlv & Hoth).
  { intros s d (k & i & j & Hi & Hj & -> & ->)%Hel. cbn. apply list_elem_of_lookup_2, HGin in Hi as [Hi1 Hi2]. apply list_elem_of_lookup_2, HQin in Hj. by split_and!. }
  exists ctx, arr, h'. split_and!; [done|done| |done|done|done| | |].
  - rewrite fill_first_moves; [done|]. apply (first_moves_defined ctx n arr G Q o2); done.
  - intros q HqF HqL. apply Hoth. intros s d (k & i & j & _ & _ & -> & ->)%Hel. done.
  - intros Hle i Hi. rewrite Hlv. destruct (decide (i ∈ G)) as [[k Hk]%list_elem_of_lookup_1|Hni].
    + rewrite decide_True; [done|]. pose proof (lookup_lt_Some _ _ _ Hk). destruct (lookup_lt_is_Some_2 Q k) as [j Hj]; [lia|].
      apply list_elem_of_fmap. exists ((L, j), (F, i)). split; [done|]. apply Hel. by exists k, i, j.
    + destruct (decide _); [done|]. rewrite decide_False.
      * destruct (proj2 Hok F HF) as (f & Hf & Hl & _). assert (f = ff) as -> by congruence. rewrite (live_mask ff h F i) by (done || lia).
        apply negb_true_iff. destruct (mask_is 0 ff i) eqn:Em; [|done]. exfalso. apply Hni, elem_of_taken. split; [done|]. by apply (slots_order_in _ _ H0).
      * intros ([s d] & E & (k & i' & j & _ & _ & -> & ->)%Hel)%list_elem_of_fmap. cbn in E. congruence.
  - intros Hle i Hi. rewrite Hlv. rewrite decide_False.
    + destruct (decide (i ∈ Q)) as [[k Hk]%list_elem_of_lookup_1|Hni].
      * rewrite decide_True; [done|]. pose proof (lookup_lt_Some _ _ _ Hk). destruct (lookup_lt_is_Some_2 G k) as [g Hg]; [lia|].
        apply list_elem_of_fmap. exists ((L, i), (F, g)). split; [done|]. apply Hel. by exists k, g, i.
      * destruct (decide _); [done|]. rewrite (live_mask_1 frameSize h ps L lf i) by done. destruct (mask_is 1 lf i) eqn:Em; [|done].
        exfalso. apply Hni, elem_of_taken. split; [done|]. by apply (slots_order_in _ _ H1).
    + intros ([s d] & E & (k & i' & j & _ & _ & -> & ->)%Hel)%list_elem_of_fmap. cbn in E. congruence.
Qed.

(** ** The loop

    [ps] are the frames left and [k] is the position of [firstFrame] among them. *)

Record fill_inv (h0 : heap) (c0 : SuperCell) (ps0 : list Z) (s : fill_state) (ps : list Z) (k : nat) : Prop := {
  fi_take : ps = take (length ps) ps0;
  fi_linked : linked_frames (fill_heap s) (fill_cell s) ps;
  fi_ok : frames_ok frameSize (fill_heap s) ps;
  fi_first : firstFrame s = default 0 (ps !! k);
  fi_k : (k < length ps)%nat \/ (k = 0%nat /\ ps = []);
  fi_last : lastFrame s = last_of ps;
  fi_full : forall j p, (j < k)%nat -> ps !! j = Some p -> full frameSize (fill_heap s) p;
  fi_acc : numParticlesPerSuperCell s = Z.of_nat (k * frameSize);
  fi_live : live_frames (fill_heap s) ps ≡ₚ live_frames h0 ps0;
  fi_other : forall q, q ∉ ps0 -> fill_heap s !! q = h0 !! q;
  fi_freed : forall q, q ∈ drop (length ps) ps0 -> fill_heap s !! q = None;
  fi_shift : mustShiftVal (fill_cell s) = mustShiftVal c0
}.

Lemma linked_next (h : heap) c ps k p q : linked_frames h c ps -> ps !! k = Some p -> ps !! S k = Some q -> getNextFrame 0 h p = Some q.
Proof.
  intros (_ & _ & _ & Hn) Hk Hq. destruct (Hn k p Hk) as (f & Hf & Hnx & _). unfold getNextFrame; unfold getNeighbour. rewrite Hf, mapPtr_device.
  cbn. by rewrite Hnx, Hq.
Qed.

Lemma linked_previous (h : heap) c ps k p : linked_frames h c ps -> ps !! k = Some p ->
  getPreviousFrame 0 h p = Some (match k with O => 0 | S j => default 0 (ps !! j) end).
Proof.
  intros (_ & _ & _ & Hn) Hk. destruct (Hn k p Hk) as (f & Hf & _ & Hpv). unfold getPreviousFrame; unfold getNeighbour. rewrite Hf, mapPtr_device.
  cbn. by rewrite Hpv.
Qed.

Lemma last_of_lookup_pred ps : ps <> [] -> ps !! (length ps - 1)%nat = Some (last_of ps).
Proof.
  intros Hne. destruct (exists_last Hne) as (qs & q & ->). rewrite last_of_snoc, length_app. cbn. rewrite Nat.add_sub. by apply list_lookup_middle.
Qed.

Lemma drop_pred ps (ps0 : list Z) : ps <> [] -> ps = take (length ps) ps0 ->
  drop (length ps - 1) ps0 = last_of ps :: drop (length ps) ps0.
Proof.
  intros Hne Ht. assert (Hl : ps0 !! (length ps - 1)%nat = Some (last_of ps)).
  { rewrite <-(last_of_lookup_pred ps Hne). rewrite Ht at 3. symmetry. apply lookup_take_lt. destruct ps; [done|cbn; lia]. }
  rewrite (drop_S _ _ _ Hl). do 2 f_equal. destruct ps; [done|cbn; lia].
Qed.

Lemma fill_next h0 c0 ps0 s ps k p : fill_inv h0 c0 ps0 s ps k -> (S k < length ps)%nat -> ps !! k = Some p ->
  full frameSize (fill_heap s) p -> Z.of_nat (length ps0 * frameSize) < 2 ^ 32 ->
  exists s', next_first s = Some s' /\ fill_inv h0 c0 ps0 s' ps (S k).
Proof.
  intros [Ht Hli Hok Hf Hk Hla Hfu Hac Hlv Hot Hfr Hsh] HSk Hp Hpf Hb. destruct (lookup_lt_is_Some_2 ps (S k) HSk) as [q Hq].
  unfold next_first. rewrite Hf, Hp. change (default 0 (Some p)) with p. rewrite (linked_next _ _ _ _ _ _ Hli Hp Hq). cbn [mbind option_bind].
  eexists. split; [done|]. constructor; cbn; try done.
  - by rewrite Hq.
  - by left.
  - intros j r Hj Hr. destruct (decide (j = k)) as [->|]; [by simplify_eq|]. apply (Hfu j); [lia|done].
  - assert (length ps <= length ps0)%nat by (rewrite Ht, length_take; lia). rewrite Hac, u32_small; [lia|]. nia.
Qed.

Lemma fill_remove h0 c0 ps0 s ps k : fill_inv h0 c0 ps0 s ps k -> (S k < length ps)%nat -> NoDup ps0 ->
  (forall i, (i < frameSize)%nat -> live (fill_heap s) (last_of ps, i) = false) ->
  exists s', remove_last s = Some s' /\ fill_inv h0 c0 ps0 s' (take (length ps - 1) ps) k /\
    particles_kept (fill_heap s) (fill_heap s') (take (length ps - 1) ps).
Proof.
  intros [Ht Hli Hok Hf Hk Hla Hfu Hac Hlv Hot Hfr Hsh] HSk Hnd0 Hdead. assert (Hne : ps <> []) by (intros ->; cbn in HSk; lia).
  pose proof (last_of_lookup_pred ps Hne) as Hlast. destruct (removeLastFrame_drops _ _ _ Hli) as (h' & c' & Hrm & Hli' & Hnum & Hpar & Hgone & Hoth & Hms).
  unfold remove_last, getPreviousFrameAndRemoveLastFrame. rewrite Hla, (linked_previous _ _ _ _ _ Hli Hlast), Hrm. cbn [mbind option_bind].
  assert (Hlen : length (take (length ps - 1) ps) = (length ps - 1)%nat) by (rewrite length_take; lia).
  assert (Hps : ps = take (length ps - 1) ps ++ [last_of ps]).
  { rewrite <-(take_drop (length ps - 1) ps) at 1. f_equal. rewrite (drop_S _ _ _ Hlast), drop_ge; [done|lia]. }
  assert (Hin : forall q, q ∈ take (length ps - 1) ps -> q ∈ ps) by (intros q Hq; rewrite Hps; apply elem_of_app; by left).
  eexists. split; [done|]. split; [|done]. constructor; cbn; rewrite ?Hlen; try done.
  - rewrite Ht at 2. rewrite take_take. f_equal. lia.
  - eapply frames_in_kept; [exact Hpar|]. by apply frames_ok_take.
  - rewrite Hf. rewrite lookup_take_lt by lia. done.
  - left. lia.
  - destruct (length ps - 1)%nat as [|m] eqn:E; [lia|]. destruct (lookup_lt_is_Some_2 ps m) as [r Hr]; [lia|]. rewrite Hr. cbn.
    pose proof (take_S_r ps m r Hr) as E2. rewrite E2. by rewrite last_of_snoc.
  - intros j p Hj Hp. rewrite lookup_take_lt in Hp by lia. intros i Hi. rewrite (live_kept _ h' _ p i Hpar); [by apply (Hfu j)|].
    apply list_elem_of_lookup. exists j. by rewrite lookup_take_lt by lia.
  - rewrite (live_frames_kept _ _ _ Hpar), <-Hlv.
    assert (E : live_frames (fill_heap s) ps = live_frames (fill_heap s) (take (length ps - 1) ps ++ [last_of ps])) by (by rewrite <-Hps).
    rewrite E, live_frames_app. cbn. rewrite app_nil_r.
    destruct (proj2 Hok (last_of ps)) as (f & Hff & _); [by eapply list_elem_of_lookup_2|]. rewrite Hff.
    pose proof (frame_live_count _ _ _ (last_of ps) f Hok ltac:(by eapply list_elem_of_lookup_2) Hff) as Hc.
    rewrite taken_false in Hc by (intros i Hi%elem_of_seq; apply Hdead; lia). apply nil_length_inv in Hc. by rewrite Hc, app_nil_r.
  - intros q Hq. rewrite Hoth; [by apply Hot|]. rewrite Ht. intros Hqt. apply Hq. rewrite <-(take_drop (length ps) ps0). apply elem_of_app. by left.
  - intros q. rewrite (drop_pred ps ps0) by done. intros [->|Hq]%elem_of_cons; [by apply Hgone|]. rewrite Hoth; [by apply Hfr|].
    rewrite Ht. intros Hqt. rewrite <-(take_drop (length ps) ps0) in Hnd0. apply list.NoDup_app in Hnd0 as (_ & Hd & _). by apply (Hd q).
  - by rewrite Hms.
Qed.

Lemma fill_inv_copied h0 c0 ps0 s ps k F h : fill_inv h0 c0 ps0 s ps k -> ps !! k = Some F -> NoDup ps0 ->
  frames_ok frameSize h ps -> same_links (fill_heap s) h -> live_frames h ps ≡ₚ live_frames (fill_heap s) ps ->
  (forall q, q <> F -> q <> last_of ps -> h !! q = fill_heap s !! q) ->
  fill_inv h0 c0 ps0 (mkFill (firstFrame s) (lastFrame s) h (fill_cell s) (numParticlesPerSuperCell s)) ps k.
Proof.
  intros [Ht Hli Hok Hf Hk Hla Hfu Hac Hlv Hot Hfr Hsh] HF Hnd0 Hok' Hsl Hp Ho.
  assert (Hlast : ps !! (length ps - 1)%nat = Some (last_of ps)) by (apply last_of_lookup_pred; by intros ->).
  assert (Hout : forall q, q ∉ ps -> h !! q = fill_heap s !! q).
  { intros q Hq. apply Ho; intros ->; apply Hq; by eapply list_elem_of_lookup_2. }
  constructor; cbn; try done.
  - by eapply linked_same_links.
  - intros j p Hj Hpj i Hi. pose proof (lookup_lt_Some _ _ _ HF). pose proof (proj1 Hok) as Hnd. unfold live, read_slot. cbn. rewrite Ho.
    + by apply (Hfu j p Hj Hpj).
    + intros ->. assert (j = k) by (eapply (proj1 (NoDup_alt _) Hnd); done). lia.
    + intros ->. assert (j = length ps - 1)%nat by (eapply (proj1 (NoDup_alt _) Hnd); done). lia.
  - by rewrite Hp.
  - intros q Hq. rewrite Hout; [by apply Hot|]. rewrite Ht. intros Hqt. apply Hq. rewrite <-(take_drop (length ps) ps0). apply elem_of_app. by left.
  - intros q Hq. rewrite Hout; [by apply Hfr|]. rewrite Ht. intros Hqt. rewrite <-(take_drop (length ps) ps0) in Hnd0.
    apply list.NoDup_app in Hnd0 as (_ & Hd & _). by apply (Hd q).
Qed.

Lemma taken_nil_full (h : heap) ps F ff order : frames_ok frameSize h ps -> F ∈ ps -> h !! F = Some ff -> slots_order order ->
  taken (mask_is 0 ff) order = [] -> full frameSize h F.
Proof.
  intros Hok HF Hff Ho HG i Hi. destruct (proj2 Hok F HF) as (f & Hf & Hl & _). assert (f = ff) as -> by congruence.
  rewrite (live_mask ff h F i) by (done || lia). apply negb_true_iff. destruct (mask_is 0 ff i) eqn:Em; [|done].
  assert (Hin : i ∈ taken (mask_is 0 ff) order) by (apply elem_of_taken; split; [done|by apply (slots_order_in _ _ Ho)]).
  rewrite HG in Hin. by apply elem_of_nil in Hin.
Qed.

Lemma fill_inv_more h0 c0 ps0 s ps k : fill_inv h0 c0 ps0 s ps k -> firstFrame s <> 0 -> firstFrame s <> lastFrame s -> (S k < length ps)%nat.
Proof.
  intros I Hf Hl. rewrite (fi_first _ _ _ _ _ _ I) in Hf, Hl. rewrite (fi_last _ _ _ _ _ _ I) in Hl.
  destruct (fi_k _ _ _ _ _ _ I) as [Hk|[-> ->]]; [|done]. destruct (decide (S k = length ps)) as [E|]; [|lia]. exfalso. apply Hl.
  assert (Hne : ps <> []) by (intros ->; cbn in Hk; lia). pose proof (last_of_lookup_pred ps Hne) as Hp.
  replace (length ps - 1)%nat with k in Hp by lia. by rewrite Hp.
Qed.

Definition orders_ok (order : nat -> list nat) : Prop := forall k, slots_order (order k).

Lemma fill_step_spec h0 c0 ps0 s ps k order shared : fill_inv h0 c0 ps0 s ps k -> firstFrame s <> 0 -> firstFrame s <> lastFrame s ->
  NoDup ps0 -> Z.of_nat (length ps0 * frameSize) < 2 ^ 32 -> Z.of_nat frameSize <= INV_LOC_IDX -> orders_ok order -> length shared = frameSize ->
  exists s' ps' k', fill_step order shared s = Some s' /\ fill_inv h0 c0 ps0 s' ps' k' /\ (length ps' - k' < length ps - k)%nat.
Proof.
  intros I Hf0 Hfl Hnd0 Hb H16 Hor Hsh. pose proof (fill_inv_more _ _ _ _ _ _ I Hf0 Hfl) as HSk.
  destruct (lookup_lt_is_Some_2 ps k) as [F HF]; [lia|]. assert (Hne : ps <> []) by (intros ->; cbn in HSk; lia).
  pose proof (last_of_lookup_pred ps Hne) as HL. pose proof (fi_ok _ _ _ _ _ _ I) as Hok.
  assert (HFin : F ∈ ps) by (by eapply list_elem_of_lookup_2). assert (HLin : last_of ps ∈ ps) by (by eapply list_elem_of_lookup_2).
  assert (EF : firstFrame s = F) by (rewrite (fi_first _ _ _ _ _ _ I); by rewrite HF). pose proof (fi_last _ _ _ _ _ _ I) as EL.
  destruct (proj2 Hok F HFin) as (ff & Hff & _). destruct (proj2 Hok _ HLin) as (lf & Hlf & _).
  assert (Hn : F <> last_of ps) by congruence.
  destruct (fill_phase (fill_heap s) ps F (last_of ps) ff lf (order 0%nat) (order 1%nat) (order 2%nat) shared Hok HFin HLin Hn Hff Hlf H16 (Hor _) (Hor _) (Hor _) Hsh)
    as (ctx & arr & h1 & Hnum & Hcol & Hfill & Hok1 & Hsl & Hpe & Hoth & Hfull & Hempty).
  unfold fill_step. rewrite EF, Hff. cbn [mbind option_bind]. rewrite Hnum.
  set (G := taken (mask_is 0 ff) (order 0%nat)) in *. set (Q := taken (mask_is 1 lf) (order 1%nat)) in *.
  destruct (Z.eqb_spec (Z.of_nat (length G)) 0) as [EG|EG]; cbn [negb].
  { destruct (fill_next _ _ _ _ _ _ F I HSk HF) as (s' & Hs' & I'); [|done|].
    - eapply (taken_nil_full _ ps F ff (order 0%nat)); try done. fold G. destruct G; [done|cbn in EG; lia].
    - exists s', ps, (S k). split_and!; [done..|lia]. }
  rewrite EL, Hlf. cbn [mbind option_bind]. rewrite Hcol, Hfill. cbn [mbind option_bind].
  pose proof (fill_inv_copied _ _ _ _ _ _ F h1 I HF Hnd0 Hok1 Hsl Hpe Hoth) as I1. rewrite EF, EL in I1.
  set (s1 := mkFill F (last_of ps) h1 (fill_cell s) (numParticlesPerSuperCell s)) in *. cbn [firstFrame lastFrame].
  destruct (Z.ltb_spec (Z.of_nat (length G)) (Z.of_nat (length Q))) as [Hlt|Hge].
  { destruct (fill_next _ _ _ _ _ _ F I1 HSk HF) as (s' & Hs' & I'); [apply Hfull; lia|done|]. exists s', ps, (S k). split_and!; [done..|lia]. }
  destruct (fill_remove _ _ _ _ _ _ I1 HSk Hnd0) as (s2 & Hs2 & I2 & Hkeep); [apply Hempty; lia|].
  assert (Hlen : length (take (length ps - 1) ps) = (length ps - 1)%nat) by (rewrite length_take; lia).
  destruct (Z.ltb_spec (Z.of_nat (length Q)) (Z.of_nat (length G))) as [Hlt2|Hge2].
  { exists s2, (take (length ps - 1) ps), k. split_and!; [done..|lia]. }
  rewrite Hs2. cbn [mbind option_bind]. destruct (negb (lastFrame s2 =? 0) && negb (lastFrame s2 =? firstFrame s2)) eqn:Ec.
  - apply andb_true_iff in Ec as [_ Ec]. apply negb_true_iff, Z.eqb_neq in Ec.
    assert (HF2 : take (length ps - 1) ps !! k = Some F) by (by rewrite lookup_take_lt by lia).
    assert (E2 : firstFrame s2 = F) by (rewrite (fi_first _ _ _ _ _ _ I2); by rewrite HF2).
    assert (HF0 : F <> 0). { by rewrite <-EF. }
    destruct (fill_next _ _ _ _ _ _ F I2) as (s' & Hs' & I'); [eapply fill_inv_more; [exact I2|congruence|done]|done| |done|].
    + intros i Hi. rewrite (live_kept _ _ _ F i Hkeep); [|by eapply list_elem_of_lookup_2]. apply Hfull; [lia|done].
    + exists s', (take (length ps - 1) ps), (S k). split_and!; [done..|lia].
  - exists s2, (take (length ps - 1) ps), k. split_and!; [done..|lia].
Qed.

Lemma fill_loop_spec h0 c0 ps0 order shared fuel s ps k : fill_inv h0 c0 ps0 s ps k -> NoDup ps0 ->
  Z.of_nat (length ps0 * frameSize) < 2 ^ 32 -> Z.of_nat frameSize <= INV_LOC_IDX -> (forall n, orders_ok (order n)) ->
  (forall n, length (shared n) = frameSize) -> (length ps - k <= fuel)%nat ->
  exists s' ps' k', fill_loop order shared fuel s = Some s' /\ fill_inv h0 c0 ps0 s' ps' k' /\ (firstFrame s' = 0 \/ firstFrame s' = lastFrame s').
Proof.
  intros I Hnd0 Hb H16 Hor Hsh. revert s ps k I. induction fuel as [|fuel IH]; intros s ps k I Hfuel; cbn [fill_loop];
    (destruct (Z.eqb_spec (firstFrame s) 0) as [E0|E0]; [by exists s, ps, k; split_and!; [| |left]|]);
    (destruct (Z.eqb_spec (firstFrame s) (lastFrame s)) as [El|El]; [by exists s, ps, k; split_and!; [| |right]|]); cbn [orb].
  - pose proof (fill_inv_more _ _ _ _ _ _ I E0 El). lia.
  - destruct (fill_step_spec _ _ _ _ _ _ (order fuel) (shared fuel) I E0 El Hnd0 Hb H16 (Hor fuel) (Hsh fuel)) as (s1 & ps1 & k1 & Hs1 & I1 & Hm).
    rewrite Hs1. cbn [mbind option_bind]. apply (IH s1 ps1 k1 I1). lia.
Qed.

(** ** The last frame is packed *)

Lemma taken_app P l r : taken P (l ++ r) = taken P l ++ taken P r.
Proof. apply List.filter_app. Qed.

Lemma taken_split P Q l : length (taken P l) = (length (taken (fun i => Q i && P i) l) + length (taken (fun i => negb (Q i) && P i) l))%nat.
Proof. induction l as [|i l IH]; [done|]. rewrite !taken_cons. destruct (P i), (Q i); cbn; lia. Qed.

Lemma taken_ext P Q l : (forall i, i ∈ l -> P i = Q i) -> taken P l = taken Q l.
Proof. intros H. apply filter_ext_in. intros i Hi. by apply H, list_elem_of_In. Qed.

(** As many particles behind the first [N] slots as gaps among them, [N] being the number of particles. *)
Lemma last_counts P o1 o2 N : slots_order o1 -> slots_order o2 -> N = length (taken P (seq 0 frameSize)) ->
  length (taken (fun i => (Z.of_nat N <=? Z.of_nat i) && P i) o2) = length (taken (fun i => (Z.of_nat i <? Z.of_nat N) && negb (P i)) o1).
Proof.
  intros H1 H2 HN. rewrite (taken_perm _ _ _ H1), (taken_perm _ _ _ H2).
  pose proof (taken_split P (fun i => Z.of_nat N <=? Z.of_nat i) (seq 0 frameSize)) as HP. rewrite <-HN in HP.
  assert (HNle : (N <= frameSize)%nat) by (rewrite HN; unfold taken; rewrite List.filter_length_le, length_seq; done).
  pose proof (taken_split (fun i => Z.of_nat i <? Z.of_nat N) P (seq 0 frameSize)) as HB.
  assert (E : length (taken (fun i => Z.of_nat i <? Z.of_nat N) (seq 0 frameSize)) = N).
  { replace frameSize with (N + (frameSize - N))%nat by lia. rewrite seq_app, taken_app, taken_true, taken_false, app_nil_r, length_seq; [done|..];
      intros i Hi%elem_of_seq; [apply Z.ltb_ge|apply Z.ltb_lt]; lia. }
  rewrite E in HB. rewrite (taken_ext (fun i => negb (Z.of_nat N <=? Z.of_nat i) && P i) (fun i => P i && (Z.of_nat i <? Z.of_nat N))) in HP.
  2: { intros i _. rewrite Z.ltb_antisym. apply andb_comm. }
  rewrite (taken_ext (fun i => negb (P i) && (Z.of_nat i <? Z.of_nat N)) (fun i => (Z.of_nat i <? Z.of_nat N) && negb (P i))) in HB.
  2: { intros i _. apply andb_comm. } lia.
Qed.

Lemma fill_last_moves P n arr L G order k h : 0 <= k -> length (taken (fun i => (n <=? Z.of_nat i) && P i) order) = length G ->
  (forall j, (j < length G)%nat -> arr !! (Z.to_nat k + j)%nat = G !! j) ->
  fill_last P n arr L order k h = run_moves h (zip_with (fun i g => ((L, i), (L, g))) (taken (fun i => (n <=? Z.of_nat i) && P i) order) G).
Proof.
  revert G k h. induction order as [|i order IH]; intros G k h Hk Hlen Harr; [by destruct G|]. cbn [fill_last]. rewrite taken_cons in Hlen |- *.
  destruct ((n <=? Z.of_nat i) && P i); [|by apply IH]. destruct G as [|g G]; [done|]. cbn [length] in Hlen.
  pose proof (Harr 0%nat ltac:(cbn; lia)) as H0. rewrite Nat.add_0_r in H0. rewrite H0. cbn [mbind option_bind zip_with run_moves lookup list_lookup].
  destruct (move_particle h (L, i) (L, g)) as [h1|]; [|done]. cbn. apply IH; [lia|lia|]. intros j Hj.
  change (G !! j) with ((g :: G) !! S j). rewrite <-(Harr (S j)) by (cbn; lia). f_equal. lia.
Qed.

Lemma elem_of_zip_with_pair {B C D} (f : B -> C -> D) l k x : x ∈ zip_with f l k <-> exists i b c, l !! i = Some b /\ k !! i = Some c /\ x = f b c.
Proof.
  rewrite list_elem_of_lookup. split.
  - intros [i Hi]. apply lookup_zip_with_Some in Hi as (b & c & -> & Hb & Hc). by exists i, b, c.
  - intros (i & b & c & Hb & Hc & ->). exists i. apply lookup_zip_with_Some. by exists b, c.
Qed.

Lemma zip_with_sides {B C D E} (a : B -> D) (b : C -> E) l k : length l = length k ->
  map fst (zip_with (fun x y => (a x, b y)) l k) = map a l /\ map snd (zip_with (fun x y => (a x, b y)) l k) = map b k.
Proof.
  revert k. induction l as [|x l IH]; intros [|y k] H; try discriminate H; [done|]. destruct (IH k) as [I1 I2]; [by injection H|]. cbn.
  by rewrite I1, I2.
Qed.

Lemma last_phase h ps L lf o0 o1 o2 shared : frames_ok frameSize h ps -> L ∈ ps -> h !! L = Some lf ->
  slots_order o0 -> slots_order o1 -> slots_order o2 -> length shared = frameSize ->
  let P := fun idx => negb (mask_is 0 lf idx) in
  let N := length (live_of (particles lf)) in
  count_slots P o0 0 = Z.of_nat N /\ (N <= frameSize)%nat /\
  exists numGaps arr h', collect_slots (fun idx => (Z.of_nat idx <? Z.of_nat N) && negb (P idx)) o1 0 shared = (numGaps, arr) /\
    fill_last P (Z.of_nat N) arr L o2 0 h = Some h' /\
    frames_ok frameSize h' ps /\ same_links h h' /\ live_frames h' ps ≡ₚ live_frames h ps /\
    (forall q, q <> L -> h' !! q = h !! q) /\ prefix_live frameSize N h' L.
Proof.
  intros Hok HL Hlf H0 H1 H2 Hsh P N. destruct (proj2 Hok L HL) as (f & Hf & Hl & _). assert (f = lf) as -> by congruence. clear Hf.
  assert (HP : forall i, (i < frameSize)%nat -> live h (L, i) = P i) by (intros i Hi; rewrite (live_mask lf h L i) by (done || lia); done).
  assert (HN : N = length (taken P (seq 0 frameSize))).
  { unfold N. rewrite (frame_live_count _ _ _ L lf Hok HL Hlf). f_equal. apply taken_ext. intros i Hi%elem_of_seq. apply HP. lia. }
  assert (HNle : (N <= frameSize)%nat) by (rewrite HN; unfold taken; rewrite List.filter_length_le, length_seq; done).
  split; [rewrite count_slots_spec, (taken_perm _ _ _ H0), <-HN; lia|]. split; [done|].
  pose proof (last_counts P o1 o2 N H1 H2 HN) as Hc.
  set (cG := fun idx => (Z.of_nat idx <? Z.of_nat N) && negb (P idx)) in *. set (cS := fun i => (Z.of_nat N <=? Z.of_nat i) && P i) in *.
  assert (HGl : (length (taken cG o1) <= frameSize)%nat) by (unfold taken; rewrite List.filter_length_le; unfold slots_order in H1; by rewrite H1, length_seq).
  pose proof (collect_slots_spec cG o1 0 shared ltac:(lia)) as Hcol. specialize (Hcol ltac:(lia)).
  destruct (collect_slots cG o1 0 shared) as [ng arr]. destruct Hcol as (-> & _ & Harr & _).
  assert (HS : forall i, i ∈ taken cS o2 -> (N <= i)%nat /\ (i < frameSize)%nat /\ live h (L, i) = true).
  { intros i [Hi Hin]%elem_of_taken. apply (slots_order_in _ _ H2) in Hin. unfold cS in Hi. apply andb_true_iff in Hi as [Hi HPi]. apply Z.leb_le in Hi. rewrite HP by done. split_and!; [lia|done..]. }
  assert (HG : forall i, i ∈ taken cG o1 -> (i < N)%nat /\ (i < frameSize)%nat /\ live h (L, i) = false).
  { intros i [Hi Hin]%elem_of_taken. apply (slots_order_in _ _ H1) in Hin. unfold cG in Hi. apply andb_true_iff in Hi as [Hi HPi]. apply Z.ltb_lt in Hi. rewrite HP by done. apply negb_true_iff in HPi. split_and!; [lia|done..]. }
  pose proof (NoDup_taken cS o2 (slots_order_NoDup _ H2)) as HSnd. pose proof (NoDup_taken cG o1 (slots_order_NoDup _ H1)) as HGnd.
  set (moves := zip_with (fun i g => ((L, i), (L, g))) (taken cS o2) (taken cG o1)).
  destruct (zip_with_sides (pair L) (pair L) (taken cS o2) (taken cG o1) Hc) as [Hfst Hsnd]. fold moves in Hfst, Hsnd.
  destruct (run_moves_spec zero_one frameSize ps moves h (or_introl eq_refl) (or_intror eq_refl) Hok) as (h' & Hrun & Hok' & Hli & Hpe & Hlv & Hoth).
  { rewrite Hfst. by apply (NoDup_fmap_2 (pair L)). }
  { rewrite Hsnd. by apply (NoDup_fmap_2 (pair L)). }
  { intros s d (k & i & g & Hi & Hg & [= -> ->])%elem_of_zip_with_pair. cbn. apply list_elem_of_lookup_2, HS in Hi as (? & ? & ?).
    apply list_elem_of_lookup_2, HG in Hg as (? & ? & ?). by split_and!. }
  exists (0 + Z.of_nat (length (taken cG o1))), arr, h'. split_and!; [done| |done..| |].
  - rewrite (fill_last_moves P _ arr L (taken cG o1) o2 0 h); [done|lia|done|]. intros j Hj. by rewrite Z2Nat.inj_0, Harr.
  - intros q Hq. apply Hoth. intros s d (k & i & g & _ & _ & [= -> ->])%elem_of_zip_with_pair. done.
  - assert (Hpair : forall i (l : list nat), (L, i) ∈ map (pair L) l <-> i ∈ l).
    { intros i l. rewrite list_elem_of_fmap. split; [by intros (j & [= ->] & Hj)|intros Hi; by exists i]. }
    intros i Hi. rewrite Hlv, Hfst, Hsnd. case_bool_decide as HiN.
    + destruct (decide _) as [|Hni]; [done|]. rewrite decide_False by (rewrite Hpair; intros (? & _)%HS; lia). rewrite HP by done.
      destruct (P i) eqn:E; [done|]. exfalso. apply Hni, Hpair, elem_of_taken. unfold cG. rewrite E. split; [|by apply (slots_order_in _ _ H1)].
      apply andb_true_iff. split; [apply Z.ltb_lt; lia|done].
    + rewrite decide_False by (rewrite Hpair; intros (? & _)%HG; lia). destruct (decide _) as [|Hni]; [done|]. rewrite HP by done.
      destruct (P i) eqn:E; [|done]. exfalso. apply Hni, Hpair, elem_of_taken. unfold cS. rewrite E. split; [|by apply (slots_order_in _ _ H2)].
      apply andb_true_iff. split; [apply Z.leb_le; lia|done].
Qed.

(** ** The supercell after filling *)

(** A supercell in order: its frames are linked and packed, and it knows the number of its particles. *)
Definition supercell_ok (h : heap) (c : SuperCell) (ps : list Z) : Prop :=
  linked_frames h c ps /\ frames_ok frameSize h ps /\ packed frameSize h ps /\ numParticles c = Z.of_nat (length (live_frames h ps)).

(** The particles of [ps0] in the first of its frames, the others freed, and nothing else touched. *)
Record refilled (h0 : heap) (c0 : SuperCell) (ps0 : list Z) (h : heap) (c : SuperCell) (ps : list Z) : Prop := {
  rf_ok : supercell_ok h c ps;
  rf_live : live_frames h ps ≡ₚ live_frames h0 ps0;
  rf_take : ps = take (length ps) ps0;
  rf_freed : forall q, q ∈ drop (length ps) ps0 -> h !! q = None;
  rf_other : forall q, q ∉ ps0 -> h !! q = h0 !! q;
  rf_shift : mustShiftVal c = mustShiftVal c0
}.

Lemma setNumParticles_linked (h : heap) n c ps : linked_frames h c ps -> linked_frames h (setNumParticles n c) ps.
Proof. done. Qed.

(** The particles in front of the last frame. *)
Lemma front_count h ps : frames_ok frameSize h ps -> (forall j p, (S j < length ps)%nat -> ps !! j = Some p -> full frameSize h p) ->
  length (live_frames h (take (length ps - 1) ps)) = ((length ps - 1) * frameSize)%nat.
Proof.
  intros Hok Hf. rewrite (full_count frameSize); [by rewrite length_take, Nat.min_l by lia|by apply frames_ok_take|].
  intros p [j Hj]%list_elem_of_lookup_1. pose proof (lookup_lt_Some _ _ _ Hj) as Hlt. rewrite length_take in Hlt.
  rewrite lookup_take_lt in Hj by lia. apply (Hf j); [lia|done].
Qed.

Lemma split_last (ps : list Z) : ps <> [] -> ps = take (length ps - 1) ps ++ [last_of ps].
Proof.
  intros Hne. rewrite <-(take_drop (length ps - 1) ps) at 1. f_equal. rewrite (drop_S _ _ _ (last_of_lookup_pred ps Hne)), drop_ge; [done|].
  destruct ps; [done|cbn; lia].
Qed.

Lemma live_split h ps : ps <> [] -> live_frames h ps = live_frames h (take (length ps - 1) ps) ++ live_frames h [last_of ps].
Proof. intros Hne. by rewrite <-live_frames_app, <-split_last. Qed.

Lemma fill_last_frame h c ps order shared : linked_frames h c ps -> frames_ok frameSize h ps -> (0 < frameSize)%nat ->
  (forall j p, (S j < length ps)%nat -> ps !! j = Some p -> full frameSize h p) ->
  numParticles c = Z.of_nat ((length ps - 1) * frameSize) -> Z.of_nat (length ps * frameSize) < 2 ^ 32 -> orders_ok order -> length shared = frameSize ->
  exists h' c' ps', KernelFillGapsLastFrame order shared h c = Some (h', c') /\ refilled h c ps h' c' ps'.
Proof.
  intros Hli Hok Hfs Hfull Hnum Hb Hor Hsh. unfold KernelFillGapsLastFrame, getLastFrame, getFrame. rewrite mapPtr_device. cbn [end_ptr].
  pose proof Hli as (Hnd & Hfi & Hla & Hn). rewrite Hla. destruct (decide (ps = [])) as [->|Hne].
  { cbn. unfold removeLastFrame. rewrite Hla. cbn. exists h, c, []. split; [done|]. split; try done. by intros q ?%elem_of_nil. }
  pose proof (last_of_lookup_pred ps Hne) as HL. assert (HLin : last_of ps ∈ ps) by (by eapply list_elem_of_lookup_2).
  destruct (Z.eqb_spec (last_of ps) 0) as [E0|_]. { rewrite E0 in HLin. by apply list.NoDup_cons in Hnd as [? _]. }
  destruct (proj2 Hok _ HLin) as (lf & Hlf & _). rewrite Hlf. cbn [mbind option_bind].
  destruct (last_phase h ps _ lf (order 0%nat) (order 1%nat) (order 2%nat) shared Hok HLin Hlf (Hor _) (Hor _) (Hor _) Hsh)
    as (Hc & HN & ng & arr & h1 & Hcol & Hfl & Hok1 & Hsl & Hpe & Hoth & Hpre).
  rewrite Hc, Hcol, Hfl. cbn [mbind option_bind]. set (N := length (live_of (particles lf))) in *.
  assert (Hli1 : linked_frames h1 c ps) by (by eapply linked_same_links, Hli).
  assert (Hfull1 : forall j p, (S j < length ps)%nat -> ps !! j = Some p -> full frameSize h1 p).
  { intros j p Hj Hp i Hi. unfold live, read_slot. cbn. rewrite Hoth; [by apply (Hfull j p Hj Hp)|]. intros ->.
    assert (j = length ps - 1)%nat by (eapply (proj1 (NoDup_alt _) (proj1 Hok)); done). lia. }
  assert (Hcount : length (live_frames h1 ps) = ((length ps - 1) * frameSize + N)%nat).
  { rewrite Hpe, (live_split h ps Hne), length_app, front_count by done. cbn. by rewrite Hlf, app_nil_r. }
  destruct (Z.eqb_spec (Z.of_nat N) 0) as [E0|E0]; cbn [negb].
  - destruct (removeLastFrame_drops _ _ _ Hli1) as (h2 & c2 & -> & Hli2 & Hnum2 & Hpar & Hgone & Hoth2 & Hms). cbn [mbind option_bind].
    assert (Hlen : length (take (length ps - 1) ps) = (length ps - 1)%nat) by (rewrite length_take; lia).
    assert (Hlive2 : length (live_frames h2 (take (length ps - 1) ps)) = ((length ps - 1) * frameSize)%nat).
    { rewrite (live_frames_kept _ _ _ Hpar). by apply front_count. }
    exists h2, c2, (take (length ps - 1) ps). split; [done|]. split; [unfold supercell_ok; split_and!| | | | |]; try done.
    + eapply frames_in_kept; [exact Hpar|]. by apply frames_ok_take.
    + intros k p Hk. rewrite Hlen. pose proof (list_elem_of_lookup_2 _ _ _ Hk) as Hin. pose proof (lookup_lt_Some _ _ _ Hk) as Hlt. rewrite Hlen in Hlt. rewrite lookup_take_lt in Hk by done.
      assert (Hfp : full frameSize h2 p). { intros i Hi. rewrite (live_kept _ _ _ p i Hpar Hin). apply (Hfull1 k); [lia|done|done]. }
      destruct (decide _); [done|]. exists frameSize. split; [lia|]. intros i Hi. rewrite Hfp by done. by rewrite bool_decide_eq_true_2.
    + by rewrite Hnum2, Hnum, Hlive2.
    + rewrite (live_frames_kept _ _ _ Hpar), <-Hpe, (live_split h1 ps Hne).
      assert (El : live_frames h1 [last_of ps] = []). { apply nil_length_inv. rewrite (live_split h1 ps Hne), length_app, front_count in Hcount by done. lia. }
      by rewrite El, app_nil_r.
    + by rewrite Hlen.
    + intros q. rewrite Hlen. rewrite (drop_S _ _ _ HL), drop_ge by lia. intros ->%list_elem_of_singleton. by apply Hgone.
    + intros q Hq. rewrite Hoth2 by done. apply Hoth. intros ->. done.
  - exists h1, (setNumParticles (u32 (getNumParticles c + Z.of_nat N)) c), ps. split; [done|]. split; [unfold supercell_ok; split_and!| | | | |]; try done.
    + intros k p Hk. pose proof (lookup_lt_Some _ _ _ Hk). destruct (decide _); [by apply (Hfull1 k)|]. exists N. split; [lia|].
      assert (k = length ps - 1)%nat as -> by lia. by simplify_eq.
    + cbn. unfold getNumParticles. rewrite Hcount, Hnum. rewrite u32_small; [lia|]. split; [lia|]. destruct ps; [done|]. cbn [length] in *. nia.
    + by rewrite take_ge.
    + intros q. rewrite drop_ge by done. by intros ?%elem_of_nil.
    + intros q Hq. apply Hoth. by intros ->.
Qed.

Lemma take_in_drop (q : Z) n m l : (n <= m)%nat -> q ∈ drop n l -> q ∈ drop n (take m l) \/ q ∈ drop m l.
Proof. intros Hnm. rewrite <-(drop_take_drop l n m) by done. apply elem_of_app. Qed.

(** [KernelFillGaps] with as many iterations as the supercell has frames. *)
Lemma fill_gaps_spec h c ps order shared fuel : linked_frames h c ps -> frames_ok frameSize h ps -> (0 < frameSize)%nat ->
  Z.of_nat frameSize <= INV_LOC_IDX -> Z.of_nat (length ps * frameSize) < 2 ^ 32 -> (forall n, orders_ok (order n)) ->
  (forall n, length (shared n) = frameSize) -> (length ps <= fuel)%nat ->
  exists h' c' ps', KernelFillGaps order shared fuel h c = Some (h', c') /\ refilled h c ps h' c' ps'.
Proof.
  intros Hli Hok Hfs H16 Hb Hor Hsh Hfuel. pose proof Hli as (Hnd & Hfi & Hla & _). apply list.NoDup_cons in Hnd as [Hz Hnd].
  assert (I : fill_inv h c ps (mkFill (getFirstFrame 0 c) (getLastFrame 0 c) h c 0) ps 0).
  { constructor; cbn; try done.
    - by rewrite take_ge.
    - unfold getFirstFrame. unfold getFrame. rewrite mapPtr_device. cbn. rewrite Hfi. by destruct ps.
    - destruct ps; [by right|left; cbn; lia].
    - unfold getLastFrame. unfold getFrame. by rewrite mapPtr_device.
    - intros j p Hj. lia.
    - intros q. rewrite drop_ge by done. by intros ?%elem_of_nil. }
  destruct (fill_loop_spec h c ps order shared fuel _ ps 0 I Hnd Hb H16 Hor Hsh ltac:(lia)) as (s1 & ps1 & k1 & Hs1 & I1 & Hend).
  unfold KernelFillGaps. rewrite Hs1. cbn [mbind option_bind]. destruct I1 as [Ht1 Hli1 Hok1 Hf1 Hk1 Hla1 Hfu1 Hac1 Hlv1 Hot1 Hfr1 Hsh1].
  assert (Hlen1 : (length ps1 <= length ps)%nat) by (rewrite Ht1, length_take; lia).
  assert (Ek : k1 = (length ps1 - 1)%nat).
  { destruct Hk1 as [Hk1|[-> ->]]; [|done]. destruct (lookup_lt_is_Some_2 ps1 k1 Hk1) as [p Hp]. assert (Hne : ps1 <> []) by (intros ->; cbn in Hk1; lia).
    rewrite Hf1, Hp, Hla1 in Hend. pose proof (proj1 Hli1) as Hnd1. apply list.NoDup_cons in Hnd1 as [Hz1 Hnd1]. destruct Hend as [E|E].
    - exfalso. apply Hz1. rewrite <-E. by eapply list_elem_of_lookup_2.
    - eapply (proj1 (NoDup_alt _) Hnd1); [exact Hp|]. rewrite <-E in *. change (default 0 (Some p)) with p in E. rewrite (last_of_lookup_pred ps1 Hne). congruence. }
  destruct (fill_last_frame (fill_heap s1) (setNumParticles (numParticlesPerSuperCell s1) (fill_cell s1)) ps1 (order fuel) (shared fuel)) as (h' & c' & ps' & Hk & R);
    [done|done|done| |cbn; by rewrite Hac1, Ek| |done|done|].
  { intros j p Hj Hp. apply (Hfu1 j); [lia|done]. }
  { nia. }
  exists h', c', ps'. split; [done|]. destruct R as [Rok Rlv Rt Rf Ro Rs].
  assert (Hlen' : (length ps' <= length ps1)%nat) by (rewrite Rt, length_take; lia).
  split; [done|by rewrite Rlv|rewrite Rt at 1; rewrite Ht1, take_take; f_equal; lia| | |].
  - intros q Hq. apply (take_in_drop q _ (length ps1) ps Hlen') in Hq as [Hq|Hq]; [rewrite <-Ht1 in Hq; by apply Rf|].
    rewrite Ro; [by apply Hfr1|]. rewrite Ht1. intros Hqt. rewrite <-(take_drop (length ps1) ps) in Hnd. apply list.NoDup_app in Hnd as (_ & Hd & _). by apply (Hd q).
  - intros q Hq. rewrite Ro; [by apply Hot1|]. rewrite Ht1. intros Hqt. apply Hq. rewrite <-(take_drop (length ps1) ps). apply elem_of_app. by left.
  - rewrite Rs. cbn. by rewrite Hsh1.
Qed.

(** A packed supercell tells the size of its last frame. *)
Lemma getSizeLastFrame_packed h c ps : supercell_ok h c ps -> (0 < frameSize)%nat -> Z.of_nat (length ps * frameSize) < 2 ^ 32 -> ps <> [] ->
  exists n, (0 < n <= frameSize)%nat /\ prefix_live frameSize n h (last_of ps) /\ getSizeLastFrame (Z.of_nat frameSize) c = Z.of_nat n /\
    length (live_frames h ps) = ((length ps - 1) * frameSize + n)%nat.
Proof.
  intros (Hli & Hok & Hpk & Hnum) Hfs Hb Hne. pose proof (last_of_lookup_pred ps Hne) as HL. pose proof (Hpk _ _ HL) as Hp.
  assert (Hl0 : (0 < length ps)%nat) by (destruct ps; [done|cbn; lia]).
  rewrite decide_False in Hp by lia. destruct Hp as (n & Hn & Hpre). exists n. split; [done|]. split; [done|].
  assert (HLin : last_of ps ∈ ps) by (by eapply list_elem_of_lookup_2). destruct (proj2 Hok _ HLin) as (f & Hf & _).
  assert (Hcount : length (live_frames h ps) = ((length ps - 1) * frameSize + n)%nat).
  { rewrite (live_split h ps Hne), length_app, front_count.
    - f_equal. cbn. rewrite Hf, app_nil_r, (frame_live_count _ _ _ _ f Hok HLin Hf).
      rewrite (taken_ext _ (fun i => bool_decide (i < n)%nat)) by (intros i Hi%elem_of_seq; apply Hpre; lia).
      replace frameSize with (n + (frameSize - n))%nat by lia. rewrite seq_app, taken_app, taken_true, taken_false, app_nil_r, length_seq; [done|..];
        intros i Hi%elem_of_seq; [apply bool_decide_eq_false|apply bool_decide_eq_true]; lia.
    - done.
    - intros j p Hj Hjp. pose proof (Hpk j p Hjp) as H. by rewrite decide_True in H by done. }
  split; [|done]. unfold getSizeLastFrame. rewrite Hnum, Hcount.
  assert (HM : Z.of_nat ((length ps - 1) * frameSize) = Z.of_nat (length ps - 1) * Z.of_nat frameSize) by lia.
  assert (HT : Z.of_nat ((length ps - 1) * frameSize) + Z.of_nat frameSize = Z.of_nat (length ps * frameSize)).
  { destruct (length ps) as [|m]; [lia|]. replace (S m - 1)%nat with m by lia. lia. }
  set (M := ((length ps - 1) * frameSize)%nat) in *. clearbody M.
  destruct (Z.eqb_spec (Z.of_nat (M + n)) 0); [lia|].
  replace (Z.of_nat (M + n) - 1) with (Z.of_nat (n - 1) + Z.of_nat (length ps - 1) * Z.of_nat frameSize) by lia.
  rewrite (u32_small (Z.of_nat (n - 1) + _)) by lia. rewrite Z.mod_add by lia. rewrite Z.mod_small by lia. rewrite u32_small; lia.
Qed.

(** ** Deletion *)

Lemma clear_slots_spec frame order h ps : frames_ok frameSize h ps -> frame ∈ ps -> Forall (fun i => (i < frameSize)%nat) order ->
  exists h', clear_slots frame order h = Some h' /\ frames_ok frameSize h' ps /\ same_links h h' /\ forall q, q <> frame -> h' !! q = h !! q.
Proof.
  intros Hok Hf Ho. revert h Hok. induction Ho as [|i order Hi Ho IH]; intros h Hok; [by exists h|]. cbn [clear_slots].
  destruct (frames_in_slot _ _ _ _ frame i Hok Hf Hi) as (s & Hs & _). rewrite Hs. cbn [mbind option_bind].
  destruct (write_slot_spec h frame i (mkBoxSlot 0 (attributes s)) s Hs) as (h1 & Hw & Hl1 & Hn1 & _). rewrite Hw. cbn [mbind option_bind].
  destruct (IH h1) as (h2 & Hc & Hok2 & Hl2 & Hn2); [by eapply frames_in_write; [done..|by left]|].
  exists h2. split_and!; [done|done|by eapply same_links_trans|]. intros q Hq. by rewrite Hn2, Hn1.
Qed.

Lemma delete_loop_spec order fuel h c ps : linked_frames h c ps -> frames_ok frameSize h ps -> orders_ok order -> (length ps <= fuel)%nat ->
  exists h' c', delete_loop order fuel (last_of ps) h c = Some (h', c') /\ linked_frames h' c' [] /\
    (forall p, p ∈ ps -> h' !! p = None) /\ (forall q, q ∉ ps -> h' !! q = h !! q) /\ mustShiftVal c' = mustShiftVal c.
Proof.
  intros Hli Hok Hor. revert fuel h c Hli Hok. induction ps as [|L ps IH] using rev_ind; intros fuel h c Hli Hok Hfuel.
  { exists h, c. destruct fuel; (split_and!; [done|done|by intros p ?%elem_of_nil|done|done]). }
  rewrite length_app in Hfuel. cbn in Hfuel. destruct fuel as [|fuel]; [lia|]. cbn [delete_loop]. rewrite last_of_snoc.
  assert (HLin : L ∈ ps ++ [L]) by (apply elem_of_app; right; by left).
  destruct (Z.eqb_spec L 0) as [->|_]. { destruct Hli as [[Hz _]%list.NoDup_cons _]. done. }
  destruct (clear_slots_spec L (order fuel) h _ Hok HLin) as (h1 & Hc & Hok1 & Hl1 & Hn1).
  { apply list.Forall_forall. intros i Hi. by apply (slots_order_in _ _ (Hor fuel)). }
  rewrite Hc. cbn [mbind option_bind]. pose proof (linked_same_links _ _ _ _ Hl1 Hli) as Hli1.
  assert (HL : (ps ++ [L]) !! length ps = Some L) by (by apply list_lookup_middle).
  unfold getPreviousFrameAndRemoveLastFrame. rewrite (linked_previous _ _ _ _ _ Hli1 HL).
  destruct (removeLastFrame_drops _ _ _ Hli1) as (h2 & c2 & Hr & Hli2 & _ & Hpar & Hgone & Hoth & Hms). rewrite Hr. cbn [mbind option_bind].
  rewrite length_app, Nat.add_sub, take_app_length in Hli2, Hpar.
  assert (Ep : match length ps with O => 0 | S j => default 0 ((ps ++ [L]) !! j) end = last_of ps).
  { destruct ps as [|p ps'] using rev_ind; [done|]. rewrite length_app, Nat.add_1_r, last_of_snoc.
    rewrite lookup_app_l by (rewrite length_app; cbn; lia). by rewrite list_lookup_middle. }
  rewrite Ep. assert (Hok2 : frames_ok frameSize h2 ps).
  { eapply frames_in_kept; [exact Hpar|]. pose proof (frames_ok_take _ _ _ (length ps) Hok1) as H. by rewrite take_app_length in H. }
  destruct (IH fuel h2 c2 Hli2 Hok2) as (h3 & c3 & H3 & Hli3 & Hfr3 & Hot3 & Hms3); [lia|].
  exists h3, c3. split_and!; [done|done| | |by rewrite Hms3].
  - intros p [Hp| ->%list_elem_of_singleton]%elem_of_app; [by apply Hfr3|]. rewrite Hot3; [|intros Hp].
    + rewrite last_of_snoc in Hgone. apply Hgone. by destruct ps.
    + destruct Hok1 as [Hnd1 _]. apply list.NoDup_app in Hnd1 as (_ & Hd & _). apply (Hd L Hp). by left.
  - intros q [Hq1 Hq2]%not_elem_of_app. rewrite Hot3, Hoth, Hn1; [done| |by apply not_elem_of_app|done]. intros ->. apply Hq2. by left.
Qed.

(** [KernelDeleteParticles] leaves an empty supercell and frees its frames. *)
Lemma KernelDeleteParticles_empties order fuel h c ps : linked_frames h c ps -> frames_ok frameSize h ps -> orders_ok order -> (length ps <= fuel)%nat ->
  exists h' c', KernelDeleteParticles order fuel h c = Some (h', c') /\ supercell_ok h' c' [] /\
    (forall p, p ∈ ps -> h' !! p = None) /\ (forall q, q ∉ ps -> h' !! q = h !! q).
Proof.
  intros Hli Hok Hor Hfuel. destruct (delete_loop_spec order fuel h c ps Hli Hok Hor Hfuel) as (h' & c' & Hd & Hli' & Hfr & Hot & _).
  unfold KernelDeleteParticles. unfold getLastFrame. unfold getFrame. rewrite mapPtr_device. cbn [end_ptr]. destruct Hli as (_ & _ & -> & _).
  rewrite Hd. cbn. eexists _, _. split; [done|]. split_and!; [|done..]. split_and!; [done|split; [constructor|by intros p ?%elem_of_nil]|done|done].
Qed.
End kernels.

(** [KernelFillGaps] compacts a supercell.  Whatever gaps its frames have, in whatever order the threads of each
    phase take their numbers and whatever shared memory holds at first, it ends within one iteration per
    frame; the same particles, each once, are then in the first of the old frames, all of which are full but the last,
    which holds at least one particle and no gap before its last particle; the other frames are freed, the
    links and the number of particles are right, and no other frame is touched. *)
Theorem fill_gaps_packs {A} (frameSize : nat) (h : gmap Z (Frame (A := A))) c ps order shared fuel :
  linked_frames h c ps -> frames_ok frameSize h ps -> (0 < frameSize)%nat -> Z.of_nat frameSize <= INV_LOC_IDX ->
  Z.of_nat (length ps * frameSize) < 2 ^ 32 -> (forall n, orders_ok frameSize (order n)) ->
  (forall n, length (shared n) = frameSize) -> (length ps <= fuel)%nat ->
  exists h' c' ps', KernelFillGaps frameSize order shared fuel h c = Some (h', c') /\ refilled frameSize h c ps h' c' ps'.
Proof. apply fill_gaps_spec. Qed.

(** ** Example *)

Definition gappy (m1 m2 a1 a2 p n : Z) : Frame (A := Z) := mkFrame [mkBoxSlot m1 a1; mkBoxSlot m2 a2] p n.
Definition gappy_heap : gmap Z (Frame (A := Z)) :=
  <[16 := gappy 1 0 1 9 0 32]> (<[32 := gappy 0 0 9 9 16 48]> (<[48 := gappy 1 1 2 3 32 64]> (<[64 := gappy 0 1 9 4 48 0]> ∅))).
Definition gappy_cell : SuperCell := mkSuperCell 16 64 77 true.

Lemma gappy_linked : linked_frames gappy_heap gappy_cell [16; 32; 48; 64].
Proof.
  split_and!; [by apply (bool_decide_unpack _)|done..|]. intros i p Hi.
  destruct i as [|[|[|[|i]]]]; cbn in Hi; [injection Hi as <-..|done]; eexists; (split; [vm_compute; reflexivity|done]).
Qed.

Lemma gappy_ok : frames_ok 2 gappy_heap [16; 32; 48; 64].
Proof.
  split; [by apply (bool_decide_unpack _)|]. intros p Hp. rewrite !elem_of_cons in Hp.
  destruct Hp as [->|[->|[->|[->|[]%elem_of_nil]]]]; eexists; (split; [vm_compute; reflexivity|]; split; [done|]);
    repeat constructor; cbn; lia.
Qed.

Definition down_up (n : nat) : nat -> list nat := fun k => if Nat.even (n + k) then [0; 1]%nat else [1; 0]%nat.
Lemma down_up_ok n : orders_ok 2 (down_up n).
Proof. intros k. unfold down_up, slots_order. destruct (Nat.even (n + k)); [done|]. apply Permutation_swap. Qed.

Lemma fill_gaps_packs_witness :
  exists h' c' ps', KernelFillGaps 2 down_up (fun _ => [5; 5]%nat) 4 gappy_heap gappy_cell = Some (h', c') /\
    refilled 2 gappy_heap gappy_cell [16; 32; 48; 64] h' c' ps'.
Proof.
  apply (fill_gaps_packs 2 gappy_heap gappy_cell [16; 32; 48; 64] down_up (fun _ => [5; 5]%nat) 4 gappy_linked gappy_ok);
    [lia|by vm_compute|by vm_compute|exact down_up_ok|done|cbn; lia].
Defined.

(** The four particles are packed into two frames. *)
Example gappy_filled : (fun '(h, c) => (live_frames h [16; 32], numParticles c, lastFramePtr c, size h)) <$>
  KernelFillGaps 2 down_up (fun _ => [5; 5]%nat) 4 gappy_heap gappy_cell = Some ([1; 4; 3; 2], 4, 32, 2%nat).
Proof. vm_compute. reflexivity. Qed.

(** A particle that is marked to leave must not be there: the mark is lost, and so is the particle when its frame is removed. *)
Example marked_particles_lost : (fun '(h, c) => (live_frames h [16], numParticles c, size h)) <$>
  KernelFillGaps 2 down_up (fun _ => [5; 5]%nat) 2 (<[16 := gappy 1 0 1 9 0 32]> (<[32 := gappy 5 0 2 9 16 0]> ∅)) (mkSuperCell 16 32 2 false)
  = Some ([1], 1, 1%nat).
Proof. vm_compute. reflexivity. Qed.
